(* ===== verification/_CoqProject ===== *)
-Q . S2P
Prelude.v
Table.v
Flat.v
Transaction.v
FlatInv.v
FlatSteps.v
FlatSystem.v
FlatTheorems.v
Buddy.v
BuddyInv.v
BuddyInit.v
BuddyTheorems.v
Bitmap.v
Bump.v
Occupancy.v
OccupancyInv.v
OccupancySystem.v
OccupancyTheorems.v
Spans.v
Active.v
ActiveInv.v
Index.v
IndexInv.v
IndexSystem.v
IndexTheorems.v
Paging.v
PagingInv.v
PagingStep.v
PagingUnmap.v
PagingMap.v
PagingRuns.v
PagingTheorems.v
View.v
ViewInv.v
Nest.v
NestFlat.v
NestInv.v
NestSteps.v
NestCommit.v
NestPublish.v
NestRights.v
NestWithdraw.v
NestDetach.v
NestRead.v
NestSystem.v
NestTheorems.v
Stream.v
StreamTheorems.v
Rack.v
Wire.v
Schedule.v
ScheduleBuild.v
ScheduleAccess.v
Plan.v
PlanRefine.v
PlanDispatch.v
Pend.v
PendTables.v
PendInv.v
PendSteps.v
PendCull.v
PendHunt.v
PendSystem.v
PendTheorems.v
LispSyntax.v
LispRead.v
LispLower.v
LispCompile.v
LispHeap.v
LispHeapInv.v
LispLibrary.v
LispMachine.v
LispTyping.v
LispSafe.v
LispTasks.v
LispMachineInv.v
LispTransition.v
LispSession.v
LispHost.v
LispTheorems.v
