(* ===== verification/Prelude.v ===== *)
(** * sqware: a verification development

    sqware is an operating system for RISC-V machines: a kernel ([kernel/]),
    libraries that kernel and programs share ([crates/]) and the programs
    ([programs/]).  This development models the parts that decide something:
    who owns a page or an address, what a page table maps, who may use a
    resource, in which order systems run, what a ring hands over, what a
    program text means.  Every definition names the code it stands for in the
    doc comment of its file; names are those of the code where Rocq allows.

    ** Conventions

    A [usize] or [u64] is a [Z] with its range written out, and plain
    arithmetic that leaves the range panics, as the workspace's profile has it.
    Code that changes shared state is in the monad [M S E] below: a state, an
    error of the code ([Err]) or a value ([Ok]), and [None] for a panic, so that
    "does not panic" is a statement of its own.  One critical section of the
    code is one operation; concurrent callers are sequences of operations in any
    order, given by an inductive step relation, and invariants are proved over
    what is reachable.  Where code does not lock (the byte stream) each access
    to shared memory is a step.  Whether a memory allocation succeeds is an
    argument of the operation, or a script in the state, and the theorems hold
    for all of them.  Loops are structural or run on fuel; for each loop on
    fuel it is proved that the fuel its callers give it is enough.

    ** Parts

    - Pages of memory, [kernel/src/core/memory/flat].  [Table]: vectors sorted
      by key as finite maps.  [Flat], [Transaction]: sources of pages, their
      slots and custody words, residencies, and the hand-over of a page from
      one source to another.  [FlatInv], [FlatSteps], [FlatSystem],
      [FlatTheorems]: all callers interleaved; no panic, one owner for each
      frame, a roll back that leaves no trace.
    - Allocators, [flat/allocator].  [Buddy], [BuddyInv], [BuddyInit],
      [BuddyTheorems]: the frame allocator, its linked lists in the free frames
      included; blocks out never overlap, an allocation fails only when there
      is no room, releases restore.  [Bitmap]: runs of bits, and address-space
      identifiers ([nest/identity/asid.rs]).  [Bump]: the allocator of boot.
    - Address spaces, [kernel/src/core/memory/nest].  [Spans]: tables of
      disjoint spans as maps from addresses.  [Occupancy], [OccupancyInv],
      [OccupancySystem], [OccupancyTheorems]: which addresses are
      taken, by what generation, and when they come back; refines an address
      map.  [Active], [ActiveInv]: the active ranges of a view and their rights.
      [Index], [IndexInv], [IndexSystem], [IndexTheorems]: the tree that finds
      the view of an address.
    - Page tables, [nest/table].  [Paging], [PagingInv], [PagingStep],
      [PagingUnmap], [PagingMap], [PagingRuns],
      [PagingTheorems]: mapping, unmapping, protection and both walks, against
      a translation function on pages; which tables left over make a mapping
      panic that was prepared.
    - The address space itself, [nest/mod.rs] with [state.rs], [unpublish.rs] and
      [view].  [View], [ViewInv]: views and the runs of frames they map.
      [Nest]: all operations of a space over the parts above.  [NestFlat],
      [NestInv], [NestSteps]: what a space asks of its sources, its invariant,
      and rules for the steps its operations are made of.  [NestCommit],
      [NestPublish]: attaching a view and publishing its pages.  [NestRights],
      [NestWithdraw], [NestDetach]: changing rights, taking a span out, retrying
      and closing.  [NestRead]: translating, copies and page faults.
      [NestSystem], [NestTheorems]: all operations in any order from [build] on,
      with the reservations the callers hold; tables and views agree, addresses
      have one user, nothing panics, and nothing is used again before the other
      harts have forgotten it.
    - Capabilities, [kernel/src/core/work/pend], and the gate to them
      ([kernel/src/entry/call/gate.rs]).  [Pend], [PendTables], [PendInv],
      [PendSteps], [PendCull], [PendHunt], [PendSystem],
      [PendTheorems]: pies handed on from task to task and taken back; no
      authority is amplified, what is exclusive has one holder that the system
      calls let through, a removal takes out exactly a subtree although others
      work on it meanwhile.
    - Rings and frames.  [Stream], [StreamTheorems]
      ([crates/stream]): a byte ring, reader and writer running at once.  [Rack]
      ([crates/ipc/src/rack/ring.rs]): numbered slots, each side atomic.  [Wire]
      ([crates/wire/src/field.rs]): the cells of a frame, with the class
      [SpanLaws] as their contract.
    - Schedules, [crates/schedule].  [Schedule]: resources, systems, the
      builder.  [ScheduleBuild], [ScheduleAccess]: the order that is built, or why
      none is, and systems that run without a borrow error.  [Plan], [PlanRefine],
      [PlanDispatch]: nested plans refine the list of their leaves, dispatch
      rounds are bounded.
    - The Lisp of the shell, [crates/lisp].
      [LispSyntax], [LispRead]: the reader and the grammar it decides.
      [LispLower], [LispCompile]: the compiler and the code it is to give.
      [LispHeap], [LispHeapInv]: objects, handles, mark and sweep.
      [LispLibrary], [LispTasks]: the builtins, and what those that run in
      steps compute.  [LispMachine]: the machine and the engine's interface.
      [LispTyping], [LispSafe], [LispMachineInv], [LispTransition]: well-formed
      values, environments, frames and states, and that every step keeps them.
      [LispSession], [LispHost], [LispTheorems]: a host that does anything the
      interface lets it: no panic, no stale handle, memory and frames within
      their limits, collections that free exactly what is not reachable.

    ** How the parts fit

    [Nest] is the composition: an attach reserves addresses (Occupancy), makes a
    view of a source (Flat), keeps its frames resident, maps their runs (Paging),
    files the view (Index over Active) and has the other harts forget what they
    know.  The invariant [NInv] ties the parts together: what the page tables
    translate is, page by page, what the views in the index say.  A space is one
    value of the record [Nest.Nest]; the answers of the allocators and of the
    other harts are scripts in it, so the theorems hold for all of them.  [tend]
    is the Hoare triple of an operation: no panic, given tables that no failed
    allocation has left half split and tickets that do not run out ([able]), and
    a postcondition with or without that.  The operations of one space follow one
    another in [NestTheorems.reach]; the locks an operation takes and gives up on
    its way are not points where others come in there, except that the sources may
    change between operations.  [attach_shaped] is in it as [attach] uses it, with
    one range over the whole reservation.  The frames of [Wire] travel over
    [Rack] and [Stream]; [Pend] decides who may.

    ** What is assumed

    The hypotheses of the theorems are the preconditions of the code: arguments
    in their machine range, board descriptions that are in order, generated
    tokens that lie in their text.  Code that is not in the repository is an
    argument: the token automaton of the reader, closures of systems, the
    answers of allocators and what an object of the Lisp weighs ([Memory]).
    Versions of the capability ledger, the counter of pinned values and the
    numbers that a ring hands out are unbounded here and 64 bits wide in the
    code.  Tasks leave the capability ledger with empty
    tables.  Memory orderings weaker than sequential consistency are not
    modelled.

    ** Not modelled

    The enumeration of the views of a source ([nest/source_views]) and the
    shootdown itself ([nest/identity/shootdown.rs]); the allocator front ends
    over raw memory; the tables behind pies ([pend/allocation]); mail, task
    scheduling, entry and machine layers of the kernel; the stubs and wrappers of
    the other crates; drivers and programs.  These are queues and registers
    around the parts that are modelled, or code over raw memory, assembly and
    devices. *)

From Stdlib Require Import ZArith Lia.
From stdpp Require Export base option gmap sets numbers.
From stdpp Require Export list.

#[global] Open Scope Z_scope.

Declare Scope rust_scope.
Delimit Scope rust_scope with rust.
#[global] Open Scope rust_scope.

(** ** Machine integers

    [usize] and [u64] values are [Z]; [fits w x] says that [x] is a [w]-bit
    unsigned value.  The checked operations of the Rust core library return
    [option]; plain arithmetic aborts on overflow (the [dev] profile of the
    workspace), which [Panic] below renders. *)

Definition usize_bits : Z := 64.
Definition usize_MAX : Z := 2 ^ usize_bits - 1.
Definition isize_MAX : Z := 2 ^ 63 - 1.
Definition PAGE_SIZE : Z := 4096.
Definition PAGE_SHIFT : Z := 12.

Definition fits (w x : Z) : Prop := 0 <= x < 2 ^ w.
Definition fitsb (w x : Z) : bool := (0 <=? x) && (x <? 2 ^ w).

Definition usize (x : Z) : Prop := fits usize_bits x.

Lemma fitsb_true w x : fitsb w x = true <-> fits w x.
Proof. unfold fitsb, fits. rewrite andb_true_iff, Z.leb_le, Z.ltb_lt. done. Qed.

#[global] Instance fits_dec w x : Decision (fits w x).
Proof. unfold fits. apply and_dec; apply _. Defined.

Lemma usize_MAX_eq : usize_MAX = 18446744073709551615.
Proof. reflexivity. Qed.

Lemma usize_iff x : usize x <-> 0 <= x <= usize_MAX.
Proof. unfold usize, fits, usize_MAX, usize_bits. lia. Qed.

Definition checked (x : Z) : option Z := if fitsb usize_bits x then Some x else None.
Definition checked_add (x y : Z) : option Z := checked (x + y).
Definition checked_sub (x y : Z) : option Z := checked (x - y).
Definition checked_mul (x y : Z) : option Z := checked (x * y).
Definition saturating_sub (x y : Z) : Z := Z.max 0 (x - y).
Definition saturating_add (x y : Z) : Z := Z.min usize_MAX (x + y).
(** [a.div_ceil(b)] and [a.next_multiple_of(b)], for [b > 0]. *)
Definition div_ceil (a b : Z) : Z := (a + b - 1) / b.
Definition next_multiple_of (a b : Z) : Z := div_ceil a b * b.

Lemma checked_Some x y : checked x = Some y <-> x = y /\ usize x.
Proof.
  unfold checked, usize. rewrite <- fitsb_true.
  destruct (fitsb usize_bits x); split; intros; destruct_and?; simplify_eq; done.
Qed.

Lemma checked_in x : 0 <= x <= usize_MAX -> checked x = Some x.
Proof. intros Hx. apply checked_Some. split; [done|by apply usize_iff]. Qed.

Lemma checked_None x : checked x = None <-> ~ usize x.
Proof.
  unfold checked, usize. rewrite <- fitsb_true.
  destruct (fitsb usize_bits x); split; intros; destruct_and?; simplify_eq; done.
Qed.

Lemma next_multiple_of_spec a b :
  0 < b -> a <= next_multiple_of a b < a + b /\ (b | next_multiple_of a b).
Proof.
  intros Hb. unfold next_multiple_of, div_ceil.
  pose proof (Z.div_mod (a + b - 1) b ltac:(lia)).
  pose proof (Z.mod_pos_bound (a + b - 1) b ltac:(lia)).
  split; [nia | apply Z.divide_factor_r].
Qed.

Lemma next_multiple_of_least a b c :
  0 < b -> a <= c -> (b | c) -> next_multiple_of a b <= c.
Proof.
  intros Hb Hac [k ->]. pose proof (next_multiple_of_spec a b Hb) as [Hr [j Hj]].
  rewrite Hj in *. assert (j < k + 1) by (apply (Z.mul_lt_mono_pos_r b); lia). nia.
Qed.

(** ** Results, state and panics

    [result] is Rust's [Result].  [M S E A] is code that runs on a state [S]
    and either returns ([Ok]), returns an error ([Err]) or panics ([None]):
    an error keeps the state it was raised in, because Rust's [?] undoes
    nothing. *)

Inductive result (E A : Type) : Type :=
| Ok (a : A)
| Err (e : E).
Arguments Ok {E A} a.
Arguments Err {E A} e.

#[global] Instance result_ret {E} : MRet (result E) := fun A a => Ok a.
#[global] Instance result_bind {E} : MBind (result E) :=
  fun A B f m => match m with Ok a => f a | Err e => Err e end.
#[global] Instance result_eq_dec {E A} `{EqDecision E, EqDecision A} :
  EqDecision (result E A).
Proof. solve_decision. Defined.

Definition ok_or {E A} (o : option A) (e : E) : result E A :=
  match o with Some a => Ok a | None => Err e end.
Definition map_err {E F A} (f : E -> F) (r : result E A) : result F A :=
  match r with Ok a => Ok a | Err e => Err (f e) end.
Definition is_ok {E A} (r : result E A) : bool :=
  match r with Ok _ => true | Err _ => false end.

Definition M (S E A : Type) : Type := S -> option (result E A * S).

#[global] Instance M_ret {S E} : MRet (M S E) := fun A a s => Some (Ok a, s).
#[global] Instance M_bind {S E} : MBind (M S E) := fun A B f m s =>
  match m s with
  | Some (Ok a, s') => f a s'
  | Some (Err e, s') => Some (Err e, s')
  | None => None
  end.

Definition fail {S E A} (e : E) : M S E A := fun s => Some (Err e, s).
Definition panic {S E A} : M S E A := fun _ => None.
Definition get {S E} : M S E S := fun s => Some (Ok s, s).
Definition put {S E} (s : S) : M S E unit := fun _ => Some (Ok tt, s).
Definition lift {S E A} (r : result E A) : M S E A := fun s => Some (r, s).
(** [expect]/[unwrap]: [None] aborts. *)
Definition expect {S E A} (o : option A) : M S E A := fun s =>
  match o with Some a => Some (Ok a, s) | None => None end.
Definition assert_that {S E} (b : bool) : M S E unit := fun s =>
  if b then Some (Ok tt, s) else None.
(** Plain [+] and [-] on [usize]. *)
Definition uadd {S E} (x y : Z) : M S E Z := expect (checked_add x y).
Definition usub {S E} (x y : Z) : M S E Z := expect (checked_sub x y).

(** A destructor that runs on the error path: [m], and if it returns an
    error, [cleanup] before the error leaves. *)
Definition on_err {S E A} (m : M S E A) (cleanup : M S E unit) : M S E A := fun s =>
  match m s with
  | Some (Err e, s') => (cleanup ≫= fun _ => fail e) s'
  | r => r
  end.

(** [next_id] of [machine/sync/serial.rs]: hands out the counter and advances
    it, until it would pass [isize::MAX]. *)
Definition next_id (next : Z) : option (Z * Z) :=
  if negb (next =? 0) && (next <=? isize_MAX) then Some (next, next + 1) else None.

Section monad_lemmas.
Context {S E : Type}.

Lemma bind_ok {A B} (m : M S E A) (f : A -> M S E B) s r s' :
  (m ≫= f) s = Some (Ok r, s') <->
  exists a s1, m s = Some (Ok a, s1) /\ f a s1 = Some (Ok r, s').
Proof.
  unfold mbind, M_bind. destruct (m s) as [[[a|e] s1]|]; split.
  all: try (intros (?&?&?&?); simplify_eq; done).
  all: naive_solver.
Qed.

Lemma bind_err {A B} (m : M S E A) (f : A -> M S E B) s e s' :
  (m ≫= f) s = Some (Err e, s') <->
  m s = Some (Err e, s') \/
  exists a s1, m s = Some (Ok a, s1) /\ f a s1 = Some (Err e, s').
Proof.
  unfold mbind, M_bind. destruct (m s) as [[[a|e'] s1]|]; naive_solver.
Qed.

Lemma bind_safe {A B} (m : M S E A) (f : A -> M S E B) s :
  (m ≫= f) s <> None <->
  m s <> None /\ forall a s1, m s = Some (Ok a, s1) -> f a s1 <> None.
Proof.
  unfold mbind, M_bind. destruct (m s) as [[[a|e'] s1]|]; naive_solver.
Qed.
End monad_lemmas.

(** ** Code that only moves the state along a relation *)

(** Total correctness: [m] runs from [s] without a panic, and its result and
    final state satisfy [Q]. *)
Definition wp {S E A} (m : M S E A) (s : S) (Q : result E A -> S -> Prop) : Prop :=
  match m s with Some (r, s') => Q r s' | None => False end.

Lemma wp_mono {S E A} (m : M S E A) s (Q Q' : result E A -> S -> Prop) :
  wp m s Q -> (forall r s', Q r s' -> Q' r s') -> wp m s Q'.
Proof. unfold wp. destruct (m s) as [[r s']|]; auto. Qed.

Lemma wp_and {S E A} (m : M S E A) s (Q Q' : result E A -> S -> Prop) :
  wp m s Q -> wp m s Q' -> wp m s (fun r s' => Q r s' /\ Q' r s').
Proof. unfold wp. destruct (m s) as [[r s']|]; auto. Qed.

Lemma wp_bind {S E A B} (m : M S E A) (f : A -> M S E B) s Q :
  wp m s (fun r s' => match r with Ok a => wp (f a) s' Q | Err e => Q (Err e) s' end) -> wp (m ≫= f) s Q.
Proof.
  unfold wp, mbind, M_bind. destruct (m s) as [[[a|e] s']|]; auto.
Qed.

Lemma wp_ret {S E A} (a : A) (s : S) (Q : result E A -> S -> Prop) : Q (Ok a) s -> wp (mret a) s Q.
Proof. done. Qed.

Lemma wp_run {S E A} (m : M S E A) s Q : wp m s Q -> exists r s', m s = Some (r, s') /\ Q r s'.
Proof. unfold wp. destruct (m s) as [[r s']|]; [eauto|done]. Qed.

Lemma wp_when {S E A} (P : Prop) (m : M S E A) s (Q Q' : result E A -> S -> Prop) :
  wp m s Q -> (P -> wp m s Q') -> wp m s (fun r s' => Q r s' /\ (P -> Q' r s')).
Proof. unfold wp. destruct (m s) as [[r s']|]; auto. Qed.

(** Correctness with a licence to panic: [m] may panic only where [P] fails. *)
Definition gp {S E A} (P : Prop) (m : M S E A) (s : S) (Q : result E A -> S -> Prop) : Prop :=
  match m s with Some (r, s') => Q r s' | None => ~ P end.

Section gp.
Context {S E : Type} (P : Prop).

Lemma wp_gp {A} (m : M S E A) s Q : wp m s Q -> gp P m s Q.
Proof. unfold wp, gp. by destruct (m s) as [[r s']|]. Qed.

Lemma gp_wp {A} (m : M S E A) s Q : P -> gp P m s Q -> wp m s Q.
Proof. unfold wp, gp. destruct (m s) as [[r s']|]; auto. Qed.

Lemma gp_mono {A} (m : M S E A) s (Q Q' : result E A -> S -> Prop) :
  gp P m s Q -> (forall r s', Q r s' -> Q' r s') -> gp P m s Q'.
Proof. unfold gp. destruct (m s) as [[r s']|]; auto. Qed.

Lemma gp_bind {A B} (m : M S E A) (f : A -> M S E B) s Q :
  gp P m s (fun r s' => match r with Ok a => gp P (f a) s' Q | Err e => Q (Err e) s' end) -> gp P (m ≫= f) s Q.
Proof. unfold gp, mbind, M_bind. destruct (m s) as [[[a|e] s']|]; auto. Qed.

Lemma gp_ret {A} (a : A) (s : S) (Q : result E A -> S -> Prop) : Q (Ok a) s -> gp P (mret a) s Q.
Proof. done. Qed.
End gp.

Create HintDb preserve.

Section preserves.
Context {S E : Type} (R : S -> S -> Prop) `{!PreOrder R}.

Definition preserves {A} (m : M S E A) : Prop :=
  forall s r s', m s = Some (r, s') -> R s s'.

Lemma preserves_bind {A B} (m : M S E A) (f : A -> M S E B) :
  preserves m -> (forall a, preserves (f a)) -> preserves (m ≫= f).
Proof.
  intros Hm Hf s r s'. unfold mbind, M_bind.
  destruct (m s) as [[[a|e] s1]|] eqn:E1; [| |done].
  - intros H. transitivity s1; [by eapply Hm|by eapply Hf].
  - intros [= <- <-]. by eapply Hm.
Qed.

Lemma preserves_same {A} (m : M S E A) :
  (forall s r s', m s = Some (r, s') -> s' = s) -> preserves m.
Proof. intros Hm s r s' ->%Hm. reflexivity. Qed.

Lemma preserves_ret {A} (a : A) : preserves (mret a).
Proof. apply preserves_same. by intros ? ? ? [= _ ->]. Qed.
Lemma preserves_get : preserves get.
Proof. apply preserves_same. by intros ? ? ? [= _ ->]. Qed.
Lemma preserves_fail {A} e : preserves (fail (A:=A) e).
Proof. apply preserves_same. by intros ? ? ? [= _ ->]. Qed.
Lemma preserves_lift {A} (r : result E A) : preserves (lift r).
Proof. apply preserves_same. by intros ? ? ? [= _ ->]. Qed.
Lemma preserves_panic {A} : preserves (panic (A:=A)).
Proof. by intros ? ? ?. Qed.
Lemma preserves_expect {A} (o : option A) : preserves (expect o).
Proof. apply preserves_same. unfold expect. intros ? ? ? ?. by destruct o; simplify_eq. Qed.
Lemma preserves_assert b : preserves (assert_that b).
Proof. apply preserves_same. unfold assert_that. intros ? ? ? ?. by destruct b; simplify_eq. Qed.
Lemma preserves_if {A} (b : bool) (m1 m2 : M S E A) :
  preserves m1 -> preserves m2 -> preserves (if b then m1 else m2).
Proof. by destruct b. Qed.
End preserves.

#[export] Hint Resolve preserves_ret preserves_get preserves_fail preserves_lift
  preserves_panic preserves_expect preserves_assert preserves_if : preserve.
#[export] Hint Extern 2 (preserves _ (mbind _ _)) =>
  apply preserves_bind; [apply _| |intros ?] : preserve.
#[export] Hint Extern 3 (preserves _ (match ?x with _ => _ end)) =>
  destruct x : preserve.

(** ** Tactics *)

(** Case analysis on the scrutinees of a hypothesis, one [match] or [if] at
    a time, closing the contradictory branches. *)
Ltac case_in H :=
  match type of H with
  | context [match ?x with _ => _ end] =>
      lazymatch x with
      | context [match _ with _ => _ end] => fail
      | _ => let E := fresh "E" in destruct x eqn:E
      end
  end; simplify_eq/=.

Ltac cases_in H := repeat (case_in H; try done).

Ltac case_goal :=
  match goal with
  | |- context [match ?x with _ => _ end] =>
      lazymatch x with
      | context [match _ with _ => _ end] => fail
      | _ => let E := fresh "E" in destruct x eqn:E
      end
  end; simplify_eq/=.

(** Running monadic code in the goal, or in a hypothesis, using the
    equations in the context. *)
Ltac munfold :=
  unfold mbind, M_bind, mret, M_ret, get, put, lift, expect, fail, panic, assert_that; simpl.
Ltac mrun :=
  repeat progress (munfold;
    try match goal with
    | H : ?x = _ |- context [match ?x with _ => _ end] => rewrite H
    end).
Ltac munfold_in H :=
  unfold mbind, M_bind, mret, M_ret, get, put, lift, expect, fail, panic, assert_that in H;
  simpl in H.

(** Inverting a successful run, one bind at a time. *)
Ltac minv H :=
  let prim H := (unfold mret, M_ret, get, put, lift, expect, fail, panic, assert_that in H) in
  lazymatch type of H with
  | mbind _ _ _ = Some (Ok _, _) =>
      let a := fresh "a" in let s := fresh "s" in let H1 := fresh "H" in
      apply bind_ok in H as (a & s & H1 & H); minv H1; minv H
  | mret _ _ = _ => prim H; simplify_eq
  | get _ = _ => prim H; simplify_eq
  | put _ _ = _ => prim H; simplify_eq
  | panic _ = _ => prim H; discriminate H
  | fail _ _ = _ => prim H; discriminate H
  | lift ?r _ = _ => prim H; simplify_eq
  | expect ?o _ = _ =>
      let E := fresh "E" in prim H; destruct o eqn:E; [simplify_eq|discriminate H]
  | assert_that ?b _ = _ =>
      let E := fresh "E" in prim H; destruct b eqn:E; [simplify_eq|discriminate H]
  | (if ?b then _ else _) _ = _ =>
      let E := fresh "E" in destruct b eqn:E; minv H
  | (match ?x with _ => _ end) _ = _ =>
      let E := fresh "E" in destruct x eqn:E; minv H
  | _ => idtac
  end.

(** Booleans of the source's conditions into propositions. *)
Ltac to_prop :=
  repeat match goal with
  | H : (_ && _) = true |- _ => apply andb_true_iff in H as [? ?]
  | H : (_ || _) = false |- _ => apply orb_false_iff in H as [? ?]
  | H : negb _ = true |- _ => apply negb_true_iff in H
  | H : negb _ = false |- _ => apply negb_false_iff in H
  | H : (_ <? _) = true |- _ => apply Z.ltb_lt in H
  | H : (_ <? _) = false |- _ => apply Z.ltb_ge in H
  | H : (_ <=? _) = true |- _ => apply Z.leb_le in H
  | H : (_ <=? _) = false |- _ => apply Z.leb_gt in H
  | H : (_ =? _) = true |- _ => apply Z.eqb_eq in H
  | H : (_ =? _) = false |- _ => apply Z.eqb_neq in H
  | H : bool_decide _ = true |- _ => apply bool_decide_eq_true in H
  | H : bool_decide _ = false |- _ => apply bool_decide_eq_false in H
  | H : checked _ = Some _ |- _ => apply checked_Some in H as [? ?]
  end; simplify_eq/=.

(** ** Lists

    [partition_point], [position] and [retain] of the Rust core library. *)

Section lists.
Context {A : Type}.
Implicit Types (l : list A) (p : A -> bool).

(** Index of the first element on which [p] fails. *)
Fixpoint partition_point (p : A -> bool) (l : list A) : nat :=
  match l with
  | [] => 0
  | x :: l => if p x then S (partition_point p l) else 0
  end%nat.

(** Index of the first element on which [p] holds. *)
Fixpoint position (p : A -> bool) (l : list A) : option nat :=
  match l with
  | [] => None
  | x :: l => if p x then Some 0%nat else S <$> position p l
  end.

Definition any (p : A -> bool) (l : list A) : bool := existsb p l.
Definition retain (p : A -> bool) (l : list A) : list A := List.filter p l.
Definition insert_at (i : nat) (x : A) (l : list A) : list A := take i l ++ x :: drop i l.
Definition remove_at (i : nat) (l : list A) : list A := take i l ++ drop (S i) l.

Lemma partition_point_le p l : (partition_point p l <= length l)%nat.
Proof. induction l; simpl; [lia|]. case_match; simpl; lia. Qed.

Lemma partition_point_take p l : Forall (fun x => p x = true) (take (partition_point p l) l).
Proof. induction l; simpl; [constructor|]. case_match; simpl; constructor; eauto. Qed.

Lemma partition_point_at p l x :
  l !! partition_point p l = Some x -> p x = false.
Proof. induction l; simpl; [done|]. case_match; simpl; naive_solver. Qed.

Lemma position_Some p l i :
  position p l = Some i ->
  exists x, l !! i = Some x /\ p x = true /\
  forall j y, (j < i)%nat -> l !! j = Some y -> p y = false.
Proof.
  revert i. induction l as [|a l IH]; intros i; simpl; [done|].
  destruct (p a) eqn:Hp.
  - intros [= <-]. exists a. split_and!; [done..|]. lia.
  - intros (j & Hj & ->)%fmap_Some. destruct (IH j Hj) as (x & ? & ? & Hmin).
  exists x. split_and!; [done..|]. intros [|k] y Hk; simpl; [naive_solver|].
  apply Hmin. lia.
Qed.

Lemma position_None p l : position p l = None <-> Forall (fun x => p x = false) l.
Proof.
  induction l as [|a l IH]; simpl; [naive_solver|].
  rewrite Forall_cons, <- IH. destruct (p a); [naive_solver|].
  rewrite fmap_None. naive_solver.
Qed.

Lemma any_true p l : any p l = true <-> exists x, x ∈ l /\ p x = true.
Proof.
  unfold any. rewrite existsb_exists.
  split; intros (x & Hx & ?); exists x; rewrite list_elem_of_In in *; done.
Qed.

Lemma any_false p l : any p l = false <-> Forall (fun x => p x = false) l.
Proof.
  rewrite <- not_true_iff_false, any_true, Forall_forall. split.
  - intros Hn x Hx. apply not_true_iff_false. intros ?. apply Hn. eauto.
  - intros Hf (x & Hx & ?). specialize (Hf x Hx). congruence.
Qed.

Lemma elem_of_insert_at i x y l : y ∈ insert_at i x l <-> y = x \/ y ∈ l.
Proof.
  unfold insert_at. rewrite <- (take_drop i l) at 3. set_solver.
Qed.

Lemma insert_at_perm i x l : insert_at i x l ≡ₚ x :: l.
Proof.
  unfold insert_at. rewrite <- Permutation_middle. by rewrite take_drop.
Qed.

Lemma remove_at_perm i x l : l !! i = Some x -> x :: remove_at i l ≡ₚ l.
Proof.
  intros Hi. unfold remove_at. rewrite Permutation_middle. by rewrite take_drop_middle.
Qed.

Lemma length_insert_at i x l : length (insert_at i x l) = S (length l).
Proof. by rewrite insert_at_perm. Qed.

Lemma lookup_insert_at i x l : (i <= length l)%nat -> insert_at i x l !! i = Some x.
Proof.
  intros Hi. unfold insert_at. apply list_lookup_middle. rewrite length_take. lia.
Qed.

Lemma elem_of_retain p x l : x ∈ retain p l <-> x ∈ l /\ p x = true.
Proof. unfold retain. rewrite !list_elem_of_In. apply filter_In. Qed.
End lists.

(** Indexing with machine integers, and [len()]. *)
Definition nth_z {A} (l : list A) (i : Z) : option A := l !! Z.to_nat i.
Definition len {A} (l : list A) : Z := Z.of_nat (length l).

Lemma len_app {A} (l1 l2 : list A) : len (l1 ++ l2) = len l1 + len l2.
Proof. unfold len. rewrite length_app. lia. Qed.

Lemma len_nonneg {A} (l : list A) : 0 <= len l.
Proof. unfold len. lia. Qed.

Lemma len_cons {A} (a : A) l : len (a :: l) = 1 + len l.
Proof. unfold len. simpl. lia. Qed.

Lemma nth_z_lt {A} (l : list A) i : 0 <= i < len l -> is_Some (nth_z l i).
Proof. intros Hi. apply lookup_lt_is_Some. unfold len in Hi. lia. Qed.

(** [alloc::alloc::AllocError] *)
Inductive AllocError := AllocErr.

#[global] Instance AllocError_eq_dec : EqDecision AllocError.
Proof. solve_decision. Defined.

(** [flat/allocator/error.rs] *)
Inductive InitError := NoFreeMemory | InitOutOfMemory | NoFreeFrames | NoHarts | AlreadyInitialized.
