(* ===== verification/Table.v ===== *)
(** * Tables sorted by key

    The page slots of a source ([flat/slot.rs], [flat/source.rs]), the
    published pages of a view ([nest/view/state.rs]) and similar tables are
    vectors of pairs in strictly increasing key order, searched with
    [partition_point].  This file relates them to finite maps: every table
    operation of the code is the corresponding [gmap] operation. *)

From S2P Require Import Prelude.
From stdpp Require Import sorting.
Open Scope Z_scope.

Section table.
Context {V : Type}.
Implicit Types (t : list (Z * V)) (k : Z) (v : V) (i : nat).

Definition key_lt (a b : Z * V) : Prop := a.1 < b.1.
Definition sorted t : Prop := StronglySorted key_lt t.
Definition tmap t : gmap Z V := list_to_map t.

(** [slot::spot]: where [k] sits or belongs, and whether it is there. *)
Definition spot t k : nat * bool :=
  let at_ := partition_point (fun s => s.1 <? k) t in
  (at_, match t !! at_ with Some s => s.1 =? k | None => false end).

(** [slots[first..last]] for the keys of [index, end). *)
Definition window t (index end_ : Z) : list (Z * V) :=
  let first := partition_point (fun s => s.1 <? index) t in
  let last := partition_point (fun s => s.1 <? end_) t in
  take (last - first) (drop first t).

Lemma sorted_app t1 t2 :
  sorted (t1 ++ t2) <->
  sorted t1 /\ sorted t2 /\ forall a b, a ∈ t1 -> b ∈ t2 -> a.1 < b.1.
Proof.
  unfold sorted. induction t1 as [|x t1 IH]; simpl.
  - split; [intros; split_and!; [constructor|done|set_solver]|naive_solver].
  - split.
  + intros [H1 Hx]%StronglySorted_inv. apply IH in H1 as (? & ? & H12).
  rewrite Forall_app, !Forall_forall in Hx. destruct Hx as [Hx1 Hx2].
  split_and!; [constructor; [done|by apply Forall_forall]|done|].
  intros a b [->|?]%elem_of_cons ?; [by apply (Hx2 b)|eauto].
  + intros ([H1 Hx]%StronglySorted_inv & H2 & H12). constructor.
  * apply IH. split_and!; [done..|]. intros. apply H12; [by right|done].
  * rewrite Forall_app. split; [done|]. apply Forall_forall. intros b ?.
  apply (H12 x b); [by left|done].
Qed.

Lemma sorted_NoDup t : sorted t -> NoDup t.*1.
Proof.
  induction 1 as [|x t Ht IH Hx]; simpl; constructor; [|done].
  intros (y & Hy & Hin)%list_elem_of_fmap.
  rewrite Forall_forall in Hx. specialize (Hx y Hin). unfold key_lt in Hx. lia.
Qed.

Lemma tmap_elem_of t k v : sorted t -> tmap t !! k = Some v <-> (k, v) ∈ t.
Proof. intros ?%sorted_NoDup. unfold tmap. by rewrite <- elem_of_list_to_map. Qed.

Lemma tmap_None t k : tmap t !! k = None <-> forall v, (k, v) ∉ t.
Proof.
  unfold tmap. rewrite <- not_elem_of_list_to_map, list_elem_of_fmap. split.
  - intros Hn v Hv. apply Hn. by exists (k, v).
  - intros Hn ([k' v] & -> & ?). by apply (Hn v).
Qed.

(** In a sorted table the elements before the partition point are exactly
those with a smaller key. *)
Lemma partition_point_sorted t k :
  sorted t ->
  Forall (fun s => s.1 < k) (take (partition_point (fun s => s.1 <? k) t) t) /\
  Forall (fun s => k <= s.1) (drop (partition_point (fun s => s.1 <? k) t) t).
Proof.
  induction 1 as [|x t Ht [IH1 IH2] Hx]; simpl; [split; constructor|].
  destruct (Z.ltb_spec x.1 k); simpl; split; try constructor; try done.
  eapply Forall_impl; [exact Hx|]. intros y Hy. unfold key_lt in Hy. lia.
Qed.

Lemma spot_le t k : ((spot t k).1 <= length t)%nat.
Proof. apply partition_point_le. Qed.

Lemma spot_lookup t k v :
  sorted t -> tmap t !! k = Some v <-> t !! (spot t k).1 = Some (k, v).
Proof.
  intros Ht. rewrite tmap_elem_of by done. simpl. split; intros Hin.
  - destruct (partition_point_sorted t k Ht) as [Hlt Hge].
  set (p := partition_point _ t) in *.
  rewrite <- (take_drop p t), elem_of_app in Hin. destruct Hin as [Hin|Hin].
  { rewrite Forall_forall in Hlt. specialize (Hlt _ Hin). simpl in *. lia. }
  rewrite <- (Nat.add_0_r p), <- lookup_drop.
  destruct (drop p t) as [|y d] eqn:Hd; [set_solver|].
  assert (Hs : sorted (y :: d)).
  { rewrite <- (take_drop p t), Hd in Ht. apply sorted_app in Ht. naive_solver. }
  apply elem_of_cons in Hin as [->|Hin]; [done|].
  apply StronglySorted_inv in Hs as [_ Hy]. rewrite Forall_forall in Hy.
  specialize (Hy _ Hin). apply Forall_cons_1 in Hge as [Hge _].
  unfold key_lt in Hy. simpl in *. lia.
  - by eapply list_elem_of_lookup_2.
Qed.

Lemma spot_present t k : sorted t -> (spot t k).2 = true <-> is_Some (tmap t !! k).
Proof.
  intros Ht. split.
  - simpl. destruct (t !! _) as [[k' v]|] eqn:E; [|done].
  intros Hk%Z.eqb_eq. simpl in Hk. subst k'. exists v. by apply spot_lookup.
  - intros [v Hv]. apply spot_lookup in Hv; [|done]. simpl in *.
  rewrite Hv. apply Z.eqb_refl.
Qed.

Lemma spot_true t k i :
  sorted t -> spot t k = (i, true) -> exists v, t !! i = Some (k, v) /\ tmap t !! k = Some v.
Proof.
  intros Ht Hs. assert (is_Some (tmap t !! k)) as [v Hv].
  { apply spot_present; [done|]. by rewrite Hs. }
  exists v. split; [|done]. apply spot_lookup in Hv; [|done]. by rewrite Hs in Hv.
Qed.

Lemma spot_false t k i : sorted t -> spot t k = (i, false) -> tmap t !! k = None.
Proof.
  intros Ht Hs. apply eq_None_not_Some. rewrite <- spot_present by done. by rewrite Hs.
Qed.

Lemma sorted_middle t1 t2 k v v' :
  sorted (t1 ++ (k, v) :: t2) -> sorted (t1 ++ (k, v') :: t2).
Proof.
  rewrite !sorted_app. intros (? & [Ht2 Hk]%StronglySorted_inv & H12). split_and!; [done| |].
  - constructor; [done|]. eapply Forall_impl; [exact Hk|]. done.
  - intros a b Ha [->|Hb]%elem_of_cons; simpl.
  + apply (H12 a (k, v)); [done|by left].
  + apply H12; [done|by right].
Qed.

Lemma tmap_middle t1 t2 k v :
  sorted (t1 ++ (k, v) :: t2) -> tmap (t1 ++ (k, v) :: t2) = <[k := v]> (tmap (t1 ++ t2)).
Proof.
  intros Hs. unfold tmap. rewrite !list_to_map_app. simpl.
  apply sorted_NoDup in Hs. rewrite fmap_app in Hs. simpl in Hs.
  apply NoDup_app in Hs as (_ & Hk & _).
  symmetry. apply insert_union_r.
  apply not_elem_of_list_to_map_1. intros Hin. apply (Hk k Hin). by left.
Qed.

(** Replacing the value in place. *)
Lemma table_update t i k v v' :
  sorted t -> t !! i = Some (k, v) ->
  sorted (<[i := (k, v')]> t) /\ tmap (<[i := (k, v')]> t) = <[k := v']> (tmap t).
Proof.
  intros Ht Hi. pose proof (lookup_lt_Some _ _ _ Hi).
  rewrite insert_take_drop by done. pose proof Ht as Ht'.
  rewrite <- (take_drop_middle _ _ _ Hi) in Ht. pose proof (sorted_middle _ _ _ _ v' Ht).
  split; [done|]. rewrite tmap_middle by done.
  rewrite <- (take_drop_middle _ _ _ Hi) at 3.
  rewrite tmap_middle by done. by rewrite insert_insert_eq.
Qed.

(** Inserting at the partition point. *)
Lemma table_insert t k v :
  sorted t -> tmap t !! k = None ->
  sorted (insert_at (spot t k).1 (k, v) t) /\
  tmap (insert_at (spot t k).1 (k, v) t) = <[k := v]> (tmap t).
Proof.
  intros Ht Hk. simpl. destruct (partition_point_sorted t k Ht) as [Hlt Hge].
  set (p := partition_point _ t) in *. unfold insert_at.
  assert (sorted (take p t ++ (k, v) :: drop p t)) as Hs.
  { rewrite <- (take_drop p t) in Ht. apply sorted_app in Ht as (? & Hd & H12).
  rewrite Forall_forall in Hlt, Hge. apply sorted_app. split_and!; [done| |].
  - constructor; [done|]. apply Forall_forall. intros [k' v'] Hin.
  unfold key_lt. simpl. specialize (Hge _ Hin). simpl in Hge.
  assert (k' <> k); [|lia]. intros ->. rewrite tmap_None in Hk.
  apply (Hk v'). rewrite <- (take_drop p t). set_solver.
  - intros a b Ha [->|Hb]%elem_of_cons; simpl; [by apply Hlt|by apply H12]. }
  split; [done|]. rewrite tmap_middle by done. by rewrite take_drop.
Qed.

Lemma table_remove t i k v :
  sorted t -> t !! i = Some (k, v) ->
  sorted (remove_at i t) /\ tmap (remove_at i t) = delete k (tmap t).
Proof.
  intros Ht Hi. unfold remove_at.
  rewrite <- (take_drop_middle _ _ _ Hi) in Ht. pose proof (tmap_middle _ _ _ _ Ht) as Hm.
  rewrite (take_drop_middle _ _ _ Hi) in Hm. split.
  - apply sorted_app in Ht as (? & [? _]%StronglySorted_inv & H12).
  apply sorted_app. split_and!; [done..|]. intros. apply H12; [done|by right].
  - rewrite Hm, delete_insert_id; [done|]. apply tmap_None. intros v' Hin.
  apply sorted_NoDup in Ht. rewrite fmap_app in Ht. simpl in Ht.
  apply NoDup_app in Ht as (_ & Hk & [Hk' _]%NoDup_cons).
  apply elem_of_app in Hin as [Hin|Hin].
  + apply (Hk k); [|by left]. by apply (list_elem_of_fmap_2 fst _ _ Hin).
  + apply Hk'. by apply (list_elem_of_fmap_2 fst _ _ Hin).
Qed.

Lemma window_sorted t lo hi : sorted t -> sorted (window t lo hi).
Proof.
  intros Ht. assert (Hg : forall i j, sorted (take j (drop i t))); [|apply Hg].
  intros i j. rewrite <- (take_drop i t) in Ht. apply sorted_app in Ht as (_ & Ht & _).
  rewrite <- (take_drop j (drop i t)) in Ht. by apply sorted_app in Ht as (? & _).
Qed.

Lemma window_elem_of t index end_ s :
  sorted t -> index <= end_ -> s ∈ window t index end_ <-> s ∈ t /\ index <= s.1 < end_.
Proof.
  intros Ht Hie. unfold window.
  destruct (partition_point_sorted t index Ht) as [Hl1 Hg1].
  destruct (partition_point_sorted t end_ Ht) as [Hl2 Hg2].
  set (p := partition_point (fun s => s.1 <? index) t) in *.
  set (q := partition_point (fun s => s.1 <? end_) t) in *.
  rewrite Forall_forall in Hl1, Hg1, Hl2, Hg2.
  assert (Hpq : (p <= q)%nat).
  { destruct (Nat.le_gt_cases p q) as [|Hqp]; [done|].
  pose proof (partition_point_le (fun s => s.1 <? index) t).
  destruct (lookup_lt_is_Some_2 t q ltac:(lia)) as [x Hx].
  assert (x.1 < index).
  { apply Hl1. apply (list_elem_of_lookup_2 _ q). by rewrite lookup_take_lt. }
  apply partition_point_at in Hx. apply Z.ltb_ge in Hx. lia. }
  split.
  - intros Hin. apply list_elem_of_lookup in Hin as [i Hi].
  apply lookup_take_Some in Hi as [Hi Hlt]. rewrite lookup_drop in Hi.
  split; [by eapply list_elem_of_lookup_2|]. split.
  + apply Hg1. apply (list_elem_of_lookup_2 _ i). by rewrite lookup_drop.
  + apply Hl2. apply (list_elem_of_lookup_2 _ (p + i)). rewrite lookup_take_lt; [done|lia].
  - intros [Hin [Hlo Hhi]]. apply list_elem_of_lookup in Hin as [i Hi].
  assert (p <= i)%nat.
  { destruct (Nat.le_gt_cases p i) as [|Hc]; [done|]. exfalso.
  assert (s.1 < index); [|lia]. apply Hl1.
  apply (list_elem_of_lookup_2 _ i). by rewrite lookup_take_lt. }
  assert (i < q)%nat.
  { destruct (Nat.le_gt_cases q i) as [Hc|]; [|done]. exfalso.
  assert (end_ <= s.1); [|lia]. apply Hg2.
  apply (list_elem_of_lookup_2 _ (i - q)). rewrite lookup_drop.
  replace (q + (i - q))%nat with i by lia. done. }
  apply (list_elem_of_lookup_2 _ (i - p)). rewrite lookup_take_lt by lia.
  rewrite lookup_drop. replace (p + (i - p))%nat with i by lia. done.
Qed.
End table.

(** A sorted table is determined by the map it represents. *)
Lemma sorted_ext {V} (t1 t2 : list (Z * V)) :
  sorted t1 -> sorted t2 -> tmap t1 = tmap t2 -> t1 = t2.
Proof.
  intros H1 H2 Hm.
  assert (Hin : forall k v, (k, v) ∈ t1 <-> (k, v) ∈ t2).
  { intros k v. rewrite <- !tmap_elem_of by done. by rewrite Hm. }
  clear Hm. revert t2 H2 Hin. induction H1 as [|[k v] t1 H1 IH Hx]; intros t2 H2 Hin.
  - destruct t2 as [|[k' v'] t2]; [done|]. exfalso. specialize (Hin k' v'). set_solver.
  - destruct H2 as [|[k' v'] t2 H2 Hy]; [exfalso; specialize (Hin k v); set_solver|].
    rewrite Forall_forall in Hx, Hy. unfold key_lt in Hx, Hy. simpl in *.
    assert (E : (k, v) = (k', v')).
    { assert (A : (k, v) ∈ (k', v') :: t2) by (apply Hin; by left).
      assert (B : (k', v') ∈ (k, v) :: t1) by (apply Hin; by left).
      apply elem_of_cons in A as [A|A]; [done|]. apply elem_of_cons in B as [B|B]; [done|].
      apply Hy in A. apply Hx in B. simpl in *. lia. }
    injection E as <- <-. f_equal. apply IH; [done|]. intros a b.
    specialize (Hin a b). rewrite !elem_of_cons in Hin. split; intros Hab.
    + destruct (proj1 Hin (or_intror Hab)) as [E|?]; [|done].
      injection E as -> ->. apply Hx in Hab. simpl in Hab. lia.
    + destruct (proj2 Hin (or_intror Hab)) as [E|?]; [|done].
      injection E as -> ->. apply Hy in Hab. simpl in Hab. lia.
Qed.

Lemma partition_point_unique {A} (p : A -> bool) l i :
  Forall (fun x => p x = true) (take i l) -> (i <= length l)%nat ->
  (forall x, l !! i = Some x -> p x = false) -> partition_point p l = i.
Proof.
  revert i. induction l as [|a l IH]; intros [|i] Ht Hle Hi; simpl in *; try lia.
  - by rewrite (Hi a).
  - apply Forall_cons in Ht as [-> Ht]. f_equal. apply IH; [done|lia|done].
Qed.

(** The seat of a key, and of the key after it. *)
Lemma spot_seat {V} (t : list (Z * V)) i k v :
  sorted t -> t !! i = Some (k, v) -> (spot t k).1 = i /\ (spot t (k + 1)).1 = S i.
Proof.
  intros Ht Hi. pose proof (lookup_lt_Some _ _ _ Hi).
  pose proof Ht as Ht'. rewrite <- (take_drop_middle _ _ _ Hi) in Ht'.
  apply sorted_app in Ht' as (_ & [_ Hgt]%StronglySorted_inv & Hlt).
  rewrite Forall_forall in Hgt. unfold key_lt in Hgt. simpl in Hgt.
  assert (Hlt' : forall x, x ∈ take i t -> x.1 < k).
  { intros x Hx. apply (Hlt x (k, v)); [done|by left]. }
  unfold spot. split; simpl; apply partition_point_unique.
  - apply Forall_forall. intros x Hx. apply Z.ltb_lt. auto.
  - lia.
  - intros x ?. simplify_eq/=. apply Z.ltb_irrefl.
  - erewrite take_S_r by done. apply Forall_app. split.
    + apply Forall_forall. intros x Hx. apply Z.ltb_lt. specialize (Hlt' x Hx). lia.
    + constructor; [|done]. simpl. apply Z.ltb_lt. lia.
  - lia.
  - intros x Hx. apply Z.ltb_ge. assert (k < x.1); [|lia]. apply Hgt.
    apply (list_elem_of_lookup_2 _ 0). rewrite lookup_drop. by rewrite Nat.add_0_r.
Qed.

#[global] Opaque spot window.
