(* ===== verification/Flat.v ===== *)
(** * Physical sources: [kernel/src/core/memory/flat]

    A [Flat] is a linear sequence of logical pages.  A [Managed] source keeps
    a table of page slots sorted by page number (an absent page is fresh), a
    [Borrowed] one is a window on a physical region.  Every [Frame] carries an
    atomic custody word that arbitrates between importing the frame into
    another source and handing it over.

    The state is the set of sources and custody words shared by all callers
    ([World]); each definition below is one critical section of the code, so
    an interleaving of callers is a sequence of these operations. *)

From S2P Require Import Prelude.
From S2P Require Import Table.

Open Scope Z_scope.

Inductive FlatError := OutOfMemory | NotAligned | OutOfRange | MissingError | Busy.

Inductive Custody := SOLE | ALIASED | IN_TRANSIT.

#[global] Instance FlatError_eq_dec : EqDecision FlatError.
Proof. solve_decision. Defined.
#[global] Instance Custody_eq_dec : EqDecision Custody.
Proof. solve_decision. Defined.

(** A frame is named by its physical address, an [Arc<Flat>] by its position
    in the list of sources. *)
Abbreviation Frame := Z (only parsing).
Abbreviation FlatId := nat (only parsing).

Inductive Slot :=
| Resident (frame : Frame)
| Missing
| Moving (frame : Frame) (transaction : Z)
| Reserved (transaction : Z) (was_missing : bool).

#[global] Instance Slot_eq_dec : EqDecision Slot.
Proof. solve_decision. Defined.

Abbreviation Slots := (list (Z * Slot)) (only parsing).

Record BorrowedRegion := mkRegion { region_start : Z; region_size : Z }.

Inductive FlatSource :=
| Managed (slots : Slots)
| Borrowed (region : BorrowedRegion).

Record ResidencyEntry := mkResidency { res_id : Z; res_index : Z; res_count : Z }.

Record FlatState := mkState {
  source : FlatSource;
  residencies : list ResidencyEntry;
  next_residency : Z;
  transferable : bool
}.

Record Flat := mkFlat { page_count : Z; state : FlatState }.

(** [pool] holds the physical pages the frame allocator still hands out;
    [heap] is the outcome of the metadata allocations to come ([Vec] growth
    and [Arc::try_new]): [false] is a failure, and past its end they succeed. *)
Record World := mkWorld {
  flats : list Flat;
  custody : gmap Frame Custody;
  pool : list Frame;
  heap : list bool;
  next_tx : Z
}.

Record FlatRange := mkRange { range_flat : FlatId; range_index : Z; range_count : Z }.
Record Residency := mkHold { hold_range : FlatRange; hold_id : Z }.

(** ** Pure helpers of [slot.rs] and [state.rs] *)

Definition in_flight (s : Slot) : bool :=
  match s with Moving _ _ | Reserved _ _ => true | _ => false end.

Definition FlatState_new (src : FlatSource) (tr : bool) : FlatState :=
  mkState src [] 1 tr.

Definition is_pinned (st : FlatState) (index count : Z) : bool :=
  let end_ := index + count in
  any (fun e => (res_index e <? end_) && (index <? res_index e + res_count e))
    (residencies st).

Definition busy (st : FlatState) (index count : Z) : bool :=
  match source st with
  | Managed slots => any (fun s => in_flight s.2) (window slots index (index + count))
  | Borrowed _ => false
  end.

(** ** Access to the shared state *)

Definition set_flats (f : list Flat) (w : World) : World :=
  mkWorld f (custody w) (pool w) (heap w) (next_tx w).
Definition set_custody (c : gmap Frame Custody) (w : World) : World :=
  mkWorld (flats w) c (pool w) (heap w) (next_tx w).
Definition set_heap (h : list bool) (w : World) : World :=
  mkWorld (flats w) (custody w) (pool w) h (next_tx w).
Definition set_next_tx (n : Z) (w : World) : World :=
  mkWorld (flats w) (custody w) (pool w) (heap w) n.
Definition take_pool (p : list Frame) (f : Frame) (w : World) : World :=
  mkWorld (flats w) (<[f := SOLE]> (custody w)) p (heap w) (next_tx w).

Definition set_source (src : FlatSource) (st : FlatState) : FlatState :=
  mkState src (residencies st) (next_residency st) (transferable st).

Definition flat_of {E} (id : FlatId) : M World E Flat :=
  w ← get; expect (flats w !! id).
Definition state_of {E} (id : FlatId) : M World E FlatState :=
  fl ← flat_of id; mret (state fl).
Definition put_state {E} (id : FlatId) (st : FlatState) : M World E unit :=
  w ← get; fl ← flat_of id;
  put (set_flats (<[id := mkFlat (page_count fl) st]> (flats w)) w).
(** The page slots of a source the caller has checked to be [Managed]. *)
Definition slots_of {E} (id : FlatId) : M World E Slots :=
  st ← state_of id;
  match source st with Managed slots => mret slots | Borrowed _ => panic end.
Definition put_slots {E} (id : FlatId) (slots : Slots) : M World E unit :=
  st ← state_of id; put_state id (set_source (Managed slots) st).

(** A metadata allocation that fails with [e]. *)
Definition try_reserve {E} (e : E) : M World E unit :=
  w ← get;
  match heap w with
  | [] => mret tt
  | ok :: rest => put (set_heap rest w) ;; if (ok : bool) then mret tt else fail e
  end.

Definition custody_load {E} (f : Frame) : M World E Custody :=
  w ← get; expect (custody w !! f).
Definition custody_store {E} (f : Frame) (c : Custody) : M World E unit :=
  w ← get; put (set_custody (<[f := c]> (custody w)) w).

(** ** [custody.rs] *)

Definition custody_is_aliased {E} (f : Frame) : M World E bool :=
  c ← custody_load f; mret (bool_decide (c = ALIASED)).

(** [enter]: compare-and-exchange [SOLE -> IN_TRANSIT]. *)
Definition custody_enter {E} (f : Frame) : M World E bool :=
  c ← custody_load f;
  if bool_decide (c = SOLE) then custody_store f IN_TRANSIT ;; mret true else mret false.

Definition custody_leave {E} (f : Frame) : M World E unit :=
  c ← custody_load f;
  assert_that (bool_decide (c = IN_TRANSIT)) ;; custody_store f SOLE.

Definition custody_register (f : Frame) : M World FlatError unit :=
  c ← custody_load f;
  match c with
  | ALIASED => mret tt
  | IN_TRANSIT => fail Busy
  | SOLE => custody_store f ALIASED
  end.

Fixpoint register (fs : list Frame) : M World FlatError unit :=
  match fs with
  | [] => mret tt
  | f :: fs => custody_register f ;; register fs
  end.

(** ** [frame.rs], [allocation.rs], [region.rs] *)

(** [Frame::allocate]: a zeroed page from the frame allocator, then the
    [Arc]; when the [Arc] cannot be made the page goes back. *)
Definition Frame_allocate : M World FlatError Frame :=
  w ← get;
  match pool w with
  | [] => fail OutOfMemory
  | f :: rest =>
      try_reserve OutOfMemory ;;
      w ← get; put (take_pool rest f w) ;; mret f
  end.

Definition PageCount_new (n : Z) : option Z := if n =? 0 then None else Some n.

Definition Allocation_new (pages align : Z) : result FlatError Z :=
  pages ← ok_or (PageCount_new pages) NotAligned;
  if negb (align =? PAGE_SIZE) then Err NotAligned else Ok pages.

Definition is_aligned (a : Z) : bool := Z.land a (PAGE_SIZE - 1) =? 0.

Definition BorrowedRegion_new (start size : Z) : M World FlatError BorrowedRegion :=
  if negb (is_aligned start) || (size =? 0) || negb (Z.land size (PAGE_SIZE - 1) =? 0)
  then fail NotAligned
  else
    lift (ok_or (checked_add start (size - 1)) NotAligned) ≫= fun _ =>
    try_reserve OutOfMemory ;; mret (mkRegion start size).

(** ** [Flat] *)

Definition Flat_new (pages : Z) (src : FlatSource) (tr : bool) : M World FlatError FlatId :=
  try_reserve OutOfMemory ;;
  w ← get;
  put (set_flats (flats w ++ [mkFlat pages (FlatState_new src tr)]) w) ;;
  mret (length (flats w)).

Definition acquire (pages : Z) : M World FlatError FlatId := Flat_new pages (Managed []) true.

Fixpoint import_slots (pages : Z) (previous : option Z) (frames : list (Z * Frame)) :
    result FlatError Slots :=
  match frames with
  | [] => Ok []
  | (page, f) :: rest =>
      if (pages <=? page) || match previous with Some p => page <=? p | None => false end
      then Err OutOfRange
      else slots ← import_slots pages (Some page) rest; Ok ((page, Resident f) :: slots)
  end.

(** [from_frames]; when registration fails the new source is dropped. *)
Definition from_frames (pages : Z) (frames : list (Z * Frame)) : M World FlatError FlatId :=
  try_reserve OutOfMemory ;;
  slots ← lift (import_slots pages None frames);
  w ← get;
  id ← Flat_new pages (Managed slots) false;
  on_err (register frames.*2 ;; mret id)
    (w' ← get; put (set_flats (flats w) w')).

Definition from_region (r : BorrowedRegion) : M World FlatError FlatId :=
  pages ← lift (ok_or (PageCount_new (region_size r / PAGE_SIZE)) OutOfRange);
  Flat_new pages (Borrowed r) false.

Definition mark_untransferable {E} (id : FlatId) : M World E unit :=
  st ← state_of id;
  put_state id (mkState (source st) (residencies st) (next_residency st) false).

Definition whole {E} (id : FlatId) : M World E FlatRange :=
  fl ← flat_of id; mret (mkRange id 0 (page_count fl)).

(** The window check shared by [range], [materialize_range], [materialized]
    and [fully_materialized]. *)
Definition check_window (pages index count : Z) : result FlatError Z :=
  end_ ← ok_or (checked_add index count) OutOfRange;
  if pages <? end_ then Err OutOfRange else Ok end_.

Definition Flat_range (id : FlatId) (index count : Z) : M World FlatError FlatRange :=
  fl ← flat_of id;
  lift (check_window (page_count fl) index count) ≫= fun _ =>
  mret (mkRange id index count).

Definition reside (r : FlatRange) : M World FlatError Residency :=
  st ← state_of (range_flat r);
  if busy st (range_index r) (range_count r) then fail Busy
  else
    next ← lift (ok_or (checked_add (next_residency st) 1) OutOfMemory);
    try_reserve OutOfMemory ;;
    let id := next_residency st in
    put_state (range_flat r)
      (mkState (source st)
         (residencies st ++ [mkResidency id (range_index r) (range_count r)])
         next (transferable st)) ;;
    mret (mkHold r id).

Definition Flat_is_pinned {E} (id : FlatId) (index count : Z) : M World E bool :=
  st ← state_of id; mret (is_pinned st index count).

Definition is_borrowed {E} (id : FlatId) : M World E bool :=
  st ← state_of id;
  mret match source st with Borrowed _ => true | Managed _ => false end.

Definition release_residency {E} (fid : FlatId) (id : Z) : M World E unit :=
  st ← state_of fid;
  at_ ← expect (position (fun e => res_id e =? id) (residencies st));
  put_state fid (mkState (source st) (remove_at at_ (residencies st))
                   (next_residency st) (transferable st)).

Fixpoint materialize_loop (id : FlatId) (n : nat) (page : Z) (at_ : nat) :
    M World FlatError unit :=
  match n with
  | O => mret tt
  | S n =>
      slots ← slots_of id;
      let fresh :=
        try_reserve OutOfMemory ;;
        f ← Frame_allocate;
        put_slots id (insert_at at_ (page, Resident f) slots) ;;
        materialize_loop id n (page + 1) (S at_) in
      match slots !! at_ with
      | Some (p, s) =>
          if p =? page then
            match s with
            | Missing => fail MissingError
            | Moving _ _ | Reserved _ _ => fail Busy
            | Resident _ => materialize_loop id n (page + 1) (S at_)
            end
          else fresh
      | None => fresh
      end
  end.

Definition materialize_range (id : FlatId) (index count : Z) : M World FlatError unit :=
  fl ← flat_of id;
  end_ ← lift (check_window (page_count fl) index count);
  match source (state fl) with
  | Borrowed _ => mret tt
  | Managed slots =>
      materialize_loop id (Z.to_nat (end_ - index)) index
        (partition_point (fun s => s.1 <? index) slots)
  end.

Definition materialized (id : FlatId) (index count : Z) :
    M World FlatError (list (Z * Frame)) :=
  fl ← flat_of id;
  end_ ← lift (check_window (page_count fl) index count);
  match source (state fl) with
  | Borrowed _ => mret []
  | Managed slots =>
      try_reserve OutOfMemory ;;
      mret (omap (fun s => match s.2 with
                           | Resident f => Some (s.1 - index, f)
                           | _ => None
                           end) (window slots index end_))
  end.

Definition count_expected (expected : Z) (slots : Slots) : Z :=
  fold_left (fun e s =>
    if (s.1 =? e) && match s.2 with Resident _ => true | _ => false end
    then e + 1 else e) slots expected.

Definition fully_materialized (id : FlatId) (index count : Z) : M World FlatError bool :=
  fl ← flat_of id;
  end_ ← lift (check_window (page_count fl) index count);
  match source (state fl) with
  | Borrowed _ => mret false
  | Managed slots => mret (count_expected index (window slots index end_) =? end_)
  end.

Definition can_materialize (id : FlatId) (page : Z) : M World FlatError bool :=
  fl ← flat_of id;
  if page_count fl <=? page then fail OutOfRange
  else match source (state fl) with
  | Borrowed _ => mret true
  | Managed slots =>
      let '(at_, present) := spot slots page in
      if negb present then mret true
      else
        s ← expect (slots !! at_);
        mret match s.2 with Resident _ => true | _ => false end
  end.

Definition physical_at (id : FlatId) (page : Z) : M World FlatError Z :=
  fl ← flat_of id;
  if page_count fl <=? page then fail OutOfRange
  else match source (state fl) with
  | Borrowed r =>
      offset ← lift (ok_or (checked_mul page PAGE_SIZE) OutOfRange);
      lift (ok_or (checked_add (region_start r) offset) OutOfRange)
  | Managed slots =>
      let '(at_, present) := spot slots page in
      if negb present then fail OutOfRange
      else
        s ← expect (slots !! at_);
        match s.2 with
        | Resident f => mret f
        | Missing => fail MissingError
        | Moving _ _ | Reserved _ _ => fail Busy
        end
  end.

(** ** [FlatRange] *)

Definition same_range (a b : FlatRange) : bool :=
  bool_decide (range_flat a = range_flat b) && (range_index a =? range_index b)
    && (range_count a =? range_count b).

Definition FlatRange_range (r : FlatRange) (offset count : Z) : M World FlatError FlatRange :=
  end_ ← lift (ok_or (checked_add offset count) OutOfRange);
  if range_count r <? end_ then fail OutOfRange
  else
    index ← lift (ok_or (checked_add (range_index r) offset) OutOfRange);
    Flat_range (range_flat r) index count.

Definition page_at (r : FlatRange) (offset : Z) : result FlatError Z :=
  if range_count r <=? offset then Err OutOfRange
  else ok_or (checked_add (range_index r) offset) OutOfRange.

(** [FlatRange::materialize]: a residency first, so that the pages cannot be
    handed over while they are being filled; it is dropped on failure. *)
Definition FlatRange_materialize (r : FlatRange) : M World FlatError Residency :=
  res ← reside r;
  on_err (materialize_range (range_flat r) (range_index r) (range_count r) ;; mret res)
    (release_residency (range_flat r) (hold_id res)).

Definition FlatRange_can_materialize (r : FlatRange) (offset : Z) : M World FlatError bool :=
  page ← lift (page_at r offset); can_materialize (range_flat r) page.

Definition FlatRange_physical (r : FlatRange) (offset : Z) : M World FlatError Z :=
  page ← lift (page_at r offset); physical_at (range_flat r) page.
