(* ===== verification/Transaction.v ===== *)
(** * Handing a page over: [kernel/src/core/memory/flat/transaction.rs]

    A transaction moves the frame of one page slot into another, empty slot.
    [claim] puts both slots in flight in one critical section, [commit]
    settles them, dropping an uncommitted transaction rolls both back.
    Between the two any other operation on the sources may run. *)

From S2P Require Import Prelude.
From S2P Require Import Table.
From S2P Require Import Flat.

Open Scope Z_scope.

Inductive TransferError :=
| TOutOfMemory | TOutOfRange | SourceEmpty | DestinationOccupied | NotTransferable | TBusy.

#[global] Instance TransferError_eq_dec : EqDecision TransferError.
Proof. solve_decision. Defined.

Record Transaction := mkTx {
  tx_source : FlatId;
  tx_source_page : Z;
  tx_target : FlatId;
  tx_target_page : Z;
  tx_id : Z
}.

#[global] Instance Transaction_eq_dec : EqDecision Transaction.
Proof. solve_decision. Defined.

Definition owns (r : FlatRange) (page : Z) : bool :=
  (range_index r <=? page) && (page - range_index r <? range_count r).

Definition next_transaction : M World TransferError Z :=
  w ← get;
  match next_id (next_tx w) with
  | Some (id, next) => put (set_next_tx next w) ;; mret id
  | None => fail TOutOfMemory
  end.

Definition plain_origin (st : FlatState) : result TransferError unit :=
  if negb (transferable st) then Err NotTransferable else Ok tt.

Definition pinned (st : FlatState) (page : Z) : bool := is_pinned st page 1.

Definition source_ready (st : FlatState) (page : Z) : M World TransferError unit :=
  lift (plain_origin st) ≫= fun _ =>
  if pinned st page then fail TBusy
  else match source st with
  | Borrowed _ => fail NotTransferable
  | Managed slots =>
      let '(at_, present) := spot slots page in
      if negb present then fail SourceEmpty
      else
        s ← expect (slots !! at_);
        match s.2 with
        | Resident _ => mret tt
        | Missing => fail SourceEmpty
        | Moving _ _ | Reserved _ _ => fail TBusy
        end
  end.

Definition target_ready (st : FlatState) (page : Z) : M World TransferError bool :=
  lift (plain_origin st) ≫= fun _ =>
  if pinned st page then fail TBusy
  else match source st with
  | Borrowed _ => fail NotTransferable
  | Managed slots =>
      let '(at_, present) := spot slots page in
      if negb present then mret false
      else
        s ← expect (slots !! at_);
        match s.2 with
        | Resident _ => fail DestinationOccupied
        | Missing => mret true
        | Moving _ _ | Reserved _ _ => fail TBusy
        end
  end.

(** [reserve], without the debug-only fault injection [FAIL_PREPARE]. *)
Definition reserve (st : FlatState) (page : Z) : M World TransferError unit :=
  match source st with
  | Borrowed _ => fail NotTransferable
  | Managed slots =>
      if (spot slots page).2 then mret tt else try_reserve TOutOfMemory
  end.

Definition claim_source (id : FlatId) (page tx : Z) : M World TransferError unit :=
  slots ← slots_of id;
  let '(at_, present) := spot slots page in
  assert_that present ;;
  s ← expect (slots !! at_);
  match s.2 with
  | Resident f =>
      entered ← custody_enter f;
      if negb entered then
        aliased ← custody_is_aliased f;
        fail (if (aliased : bool) then NotTransferable else TBusy)
      else put_slots id (<[at_ := (s.1, Moving f tx)]> slots)
  | _ => panic
  end.

Definition claim_target (id : FlatId) (page tx : Z) (was_missing : bool) :
    M World TransferError unit :=
  slots ← slots_of id;
  let '(at_, present) := spot slots page in
  if present : bool then
    s ← expect (slots !! at_);
    assert_that (was_missing && bool_decide (s.2 = Missing)) ;;
    put_slots id (<[at_ := (s.1, Reserved tx was_missing)]> slots)
  else
    assert_that (negb was_missing) ;;
    put_slots id (insert_at at_ (page, Reserved tx false) slots).

(** [Transaction::claim].  [prepare] is the outcome of the caller's closure,
    which runs after every check and before any slot changes and does not
    touch the sources.  The code holds one lock when both ends are the same
    source and an address-ordered pair of locks otherwise; the sequence of
    steps under the locks is the same. *)
Definition claim {C : Type} (src : FlatRange) (src_page : Z) (tgt : FlatRange) (tgt_page : Z)
    (prepare : result TransferError C) : M World TransferError (Transaction * C) :=
  assert_that (owns src src_page) ;;
  assert_that (owns tgt tgt_page) ;;
  if bool_decide (range_flat src = range_flat tgt) && (src_page =? tgt_page)
  then fail DestinationOccupied
  else
    id ← next_transaction;
    from ← state_of (range_flat src);
    source_ready from src_page ;;
    to ← state_of (range_flat tgt);
    was_missing ← target_ready to tgt_page;
    reserve to tgt_page ;;
    carried ← lift prepare;
    claim_source (range_flat src) src_page id ;;
    claim_target (range_flat tgt) tgt_page id was_missing ;;
    mret (mkTx (range_flat src) src_page (range_flat tgt) tgt_page id, carried).

(** The in-flight source slot of a transaction: its seat and its frame. *)
Definition moving_slot {E} (id : FlatId) (page tx : Z) : M World E (Slots * nat * Frame) :=
  slots ← slots_of id;
  let '(at_, present) := spot slots page in
  assert_that present ;;
  s ← expect (slots !! at_);
  match s.2 with
  | Moving f tx' => assert_that (tx' =? tx) ;; mret (slots, at_, f)
  | _ => panic
  end.

Definition reserved_slot {E} (id : FlatId) (page tx : Z) : M World E (Slots * nat * bool) :=
  slots ← slots_of id;
  let '(at_, present) := spot slots page in
  assert_that present ;;
  s ← expect (slots !! at_);
  match s.2 with
  | Reserved tx' was_missing => assert_that (tx' =? tx) ;; mret (slots, at_, was_missing)
  | _ => panic
  end.

Definition carrier {E} (t : Transaction) : M World E Frame :=
  '(_, _, f) ← moving_slot (tx_source t) (tx_source_page t) (tx_id t); mret f.

Definition settle_source {E} (id : FlatId) (page tx : Z) : M World E Frame :=
  '(slots, at_, f) ← moving_slot id page tx;
  put_slots id (<[at_ := (page, Missing)]> slots) ;; mret f.

Definition settle_target {E} (id : FlatId) (page tx : Z) (f : Frame) : M World E unit :=
  '(slots, at_, _) ← reserved_slot id page tx;
  custody_leave f ;;
  put_slots id (<[at_ := (page, Resident f)]> slots).

Definition commit {E} (t : Transaction) : M World E unit :=
  f ← settle_source (tx_source t) (tx_source_page t) (tx_id t);
  settle_target (tx_target t) (tx_target_page t) (tx_id t) f.

Definition rollback_source {E} (id : FlatId) (page tx : Z) : M World E unit :=
  '(slots, at_, f) ← moving_slot id page tx;
  custody_leave f ;;
  put_slots id (<[at_ := (page, Resident f)]> slots).

Definition rollback_target {E} (id : FlatId) (page tx : Z) : M World E unit :=
  '(slots, at_, was_missing) ← reserved_slot id page tx;
  put_slots id
    (if was_missing : bool then <[at_ := (page, Missing)]> slots else remove_at at_ slots).

(** [Drop] of an uncommitted transaction. *)
Definition rollback {E} (t : Transaction) : M World E unit :=
  rollback_source (tx_source t) (tx_source_page t) (tx_id t) ;;
  rollback_target (tx_target t) (tx_target_page t) (tx_id t).
