(* ===== verification/FlatInv.v ===== *)
(** * Invariants of sources and transactions

    The abstract view of the sources is a map from (source, page) to slot
    state; the lemmas below say what each table manipulation of the code
    does to it. *)

From S2P Require Import Prelude.
From S2P Require Import Table.
From S2P Require Import Flat.
From S2P Require Import Transaction.

Open Scope Z_scope.

(** ** Abstract view *)

Definition slots_in (w : World) (id : FlatId) : option Slots :=
  fl ← flats w !! id;
  match source (state fl) with Managed s => Some s | Borrowed _ => None end.

Definition slot_at (w : World) (id : FlatId) (page : Z) : option Slot :=
  s ← slots_in w id; tmap s !! page.

(** A source without its page slots. *)
Definition erase (fl : Flat) : Flat :=
  match source (state fl) with
  | Managed _ => mkFlat (page_count fl) (set_source (Managed []) (state fl))
  | Borrowed _ => fl
  end.

Definition wf_residency (pages next : Z) (e : ResidencyEntry) : Prop :=
  1 <= res_id e < next /\ 0 <= res_index e /\ 0 < res_count e /\
  res_index e + res_count e <= pages.

Record wf_flat (fl : Flat) : Prop := {
  wf_pages : 0 < page_count fl <= usize_MAX;
  wf_slots : forall s, source (state fl) = Managed s ->
    sorted s /\ Forall (fun x => 0 <= x.1 < page_count fl) s;
  wf_residencies :
    Forall (wf_residency (page_count fl) (next_residency (state fl))) (residencies (state fl));
  wf_ids : NoDup (res_id <$> residencies (state fl));
  wf_next : 1 <= next_residency (state fl) <= usize_MAX
}.

Definition wf_flats (w : World) : Prop := Forall wf_flat (flats w).

Definition wf_range (w : World) (r : FlatRange) : Prop :=
  exists fl, flats w !! range_flat r = Some fl /\
    0 <= range_index r /\ 0 < range_count r /\
    range_index r + range_count r <= page_count fl.

(** [w'] is [w] with the slot of one page replaced. *)
Record slot_write (w w' : World) (id : FlatId) (page : Z) (o : option Slot) : Prop := {
  sw_slot : forall j q,
    slot_at w' j q = if decide (j = id /\ q = page) then o else slot_at w j q;
  sw_erase : erase <$> flats w' = erase <$> flats w;
  sw_wf : wf_flats w';
  sw_custody : custody w' = custody w;
  sw_pool : pool w' = pool w;
  sw_heap : heap w' = heap w;
  sw_next : next_tx w' = next_tx w
}.

(** ** Running the accessors *)

Lemma slots_of_run {E} w id s :
  slots_in w id = Some s -> slots_of (E:=E) id w = Some (Ok s, w).
Proof.
  unfold slots_in, slots_of, state_of, flat_of. intros (fl & Hfl & Hs)%bind_Some.
  mrun.
  by destruct (source (state fl)); simplify_eq.
Qed.

Lemma slots_in_Some w id s :
  wf_flats w -> slots_in w id = Some s ->
  exists fl, flats w !! id = Some fl /\ source (state fl) = Managed s /\ wf_flat fl.
Proof.
  intros Hwf (fl & Hfl & Hs)%bind_Some. exists fl.
  destruct (source (state fl)) eqn:E; simplify_eq.
  split_and!; [done..|]. by eapply Forall_lookup_1.
Qed.

Lemma slot_at_Some w id page sl :
  wf_flats w -> slot_at w id page = Some sl ->
  exists s i, slots_in w id = Some s /\ sorted s /\ spot s page = (i, true) /\
    s !! i = Some (page, sl).
Proof.
  intros Hwf (s & Hs & Hm)%bind_Some.
  destruct (slots_in_Some w id s Hwf Hs) as (fl & _ & Hsrc & Hfl).
  destruct (wf_slots _ Hfl s Hsrc) as [Hsort _].
  destruct (spot s page) as [i b] eqn:Hsp. exists s, i.
  assert (b = true) as ->.
  { replace b with (spot s page).2 by (by rewrite Hsp). apply spot_present; [done|]. eauto. }
  split_and!; [done..|]. destruct (spot_true s page i Hsort Hsp) as (v & ? & ?).
  by simplify_eq.
Qed.

Lemma slot_at_None w id page s :
  wf_flats w -> slots_in w id = Some s -> slot_at w id page = None ->
  sorted s /\ tmap s !! page = None /\ exists i, spot s page = (i, false).
Proof.
  intros Hwf Hs Hn. destruct (slots_in_Some w id s Hwf Hs) as (fl & _ & Hsrc & Hfl).
  destruct (wf_slots _ Hfl s Hsrc) as [Hsort _].
  unfold slot_at in Hn. rewrite Hs in Hn. simpl in Hn. split_and!; [done..|].
  destruct (spot s page) as [i []] eqn:Hsp; [|eauto].
  destruct (spot_true s page i Hsort Hsp) as (v & _ & ?). congruence.
Qed.

Definition upd_slots (w : World) (id : FlatId) (s : Slots) : World :=
  set_flats (alter (fun fl => mkFlat (page_count fl) (set_source (Managed s) (state fl)))
               id (flats w)) w.

Lemma put_slots_run {E} w id s0 s :
  slots_in w id = Some s0 -> put_slots (E:=E) id s w = Some (Ok tt, upd_slots w id s).
Proof.
  unfold slots_in, put_slots, put_state, state_of, flat_of, upd_slots.
  intros (fl & Hfl & Hs)%bind_Some.
  mrun. rewrite list_insert_alter. f_equal. f_equal. f_equal. eapply list_alter_ext; [|done].
  intros fl' Hfl'. by simplify_eq.
Qed.

Lemma upd_slots_slot w id s0 s j q :
  slots_in w id = Some s0 ->
  slot_at (upd_slots w id s) j q = if decide (j = id) then tmap s !! q else slot_at w j q.
Proof.
  intros (fl & Hfl & _)%bind_Some. unfold slot_at, slots_in, upd_slots. simpl.
  rewrite list_lookup_alter. destruct (decide (j = id)) as [->|]; [|by rewrite decide_False].
  rewrite decide_True by done. by rewrite Hfl.
Qed.

Lemma upd_slots_erase w id s0 s :
  slots_in w id = Some s0 -> erase <$> flats (upd_slots w id s) = erase <$> flats w.
Proof.
  intros (fl & Hfl & Hsrc)%bind_Some. apply list_eq. intros j. unfold upd_slots. simpl.
  rewrite !list_lookup_fmap, list_lookup_alter. case_decide as Hj; [subst j|done].
  rewrite Hfl. simpl. f_equal. unfold erase. simpl.
  destruct (source (state fl)); simplify_eq. done.
Qed.

Lemma upd_slots_wf w id s0 s fl :
  wf_flats w -> flats w !! id = Some fl -> slots_in w id = Some s0 ->
  sorted s -> Forall (fun x => 0 <= x.1 < page_count fl) s ->
  wf_flats (upd_slots w id s).
Proof.
  intros Hwf Hfl Hs Hsort Hin. unfold wf_flats, upd_slots. simpl.
  apply Forall_alter; [done|]. intros fl' Hfl' Hwfl. simplify_eq.
  destruct Hwfl. constructor; simpl; try done. intros ? [= <-]. done.
Qed.

Lemma tmap_keys (P : Z -> Prop) (s : Slots) :
  Forall (fun x => P x.1) s <-> map_Forall (fun k _ => P k) (tmap s).
Proof.
  unfold tmap. rewrite Forall_forall. split.
  - intros Hf k v Hk. apply elem_of_list_to_map_2 in Hk. by apply (Hf (k, v)).
  - intros Hf [k v] Hin. simpl. destruct ((list_to_map s : gmap Z Slot) !! k) as [v'|] eqn:E.
    + by eapply (Hf k v').
    + apply not_elem_of_list_to_map_2 in E. destruct E.
      by apply (list_elem_of_fmap_2 fst _ _ Hin).
Qed.

(** Any rewrite of a source's table that changes one page of its map. *)
Lemma put_slots_write {E} w id page s0 s o fl :
  wf_flats w -> flats w !! id = Some fl -> slots_in w id = Some s0 -> sorted s ->
  tmap s = partial_alter (fun _ => o) page (tmap s0) ->
  (o <> None -> 0 <= page < page_count fl) ->
  exists w', put_slots (E:=E) id s w = Some (Ok tt, w') /\ slot_write w w' id page o.
Proof.
  intros Hwf Hfl Hs Hsort Hm Hp. exists (upd_slots w id s). split; [by eapply put_slots_run|].
  split; try done.
  - intros j q. erewrite upd_slots_slot by done.
    destruct (decide (j = id)) as [->|]; [|rewrite decide_False by naive_solver; done].
    rewrite Hm, lookup_partial_alter. destruct (decide (q = page)) as [->|].
    + by rewrite !decide_True.
    + rewrite !decide_False by naive_solver. unfold slot_at. by rewrite Hs.
  - by eapply upd_slots_erase.
  - eapply upd_slots_wf; [done..|]. apply (tmap_keys (fun k => 0 <= k < page_count fl)).
    rewrite Hm. intros k v Hk. rewrite lookup_partial_alter in Hk.
    destruct (slots_in_Some w id s0 Hwf Hs) as (fl' & ? & Hsrc & Hfl'). simplify_eq.
    destruct (wf_slots _ Hfl' s0 Hsrc) as [_ Hin].
    apply (tmap_keys (fun k => 0 <= k < page_count fl)) in Hin.
    case_decide; [subst; apply Hp; naive_solver|]. by eapply Hin.
Qed.

Lemma slot_in_range w id page sl fl :
  wf_flats w -> flats w !! id = Some fl -> slot_at w id page = Some sl ->
  0 <= page < page_count fl.
Proof.
  intros Hwf Hfl (s & Hs & Hm)%bind_Some.
  destruct (slots_in_Some w id s Hwf Hs) as (fl' & ? & Hsrc & Hfl'). simplify_eq.
  destruct (wf_slots _ Hfl' s Hsrc) as [Hsort Hin]. rewrite Forall_forall in Hin.
  apply tmap_elem_of in Hm; [|done]. by apply (Hin _ Hm).
Qed.

(** Overwriting, inserting and removing a slot, as the code does them. *)
Lemma write_slot_run {E} w id (page : Z) s (i : nat) (sl sl' : Slot) :
  wf_flats w -> slots_in w id = Some s -> s !! i = Some (page, sl) ->
  exists w', put_slots (E:=E) id (<[i := (page, sl')]> s) w = Some (Ok tt, w') /\
    slot_write w w' id page (Some sl').
Proof.
  intros Hwf Hs Hi. destruct (slots_in_Some w id s Hwf Hs) as (fl & Hfl & Hsrc & Hwfl).
  destruct (wf_slots _ Hwfl s Hsrc) as [Hsort Hin].
  destruct (table_update s i page sl sl' Hsort Hi) as [? Hm].
  eapply put_slots_write; [done..| |].
  - rewrite Hm. apply partial_alter_ext. done.
  - intros _. rewrite Forall_forall in Hin. apply (Hin (page, sl)).
    by eapply list_elem_of_lookup_2.
Qed.

Lemma insert_slot_run {E} w id (page : Z) s (i : nat) (sl : Slot) fl :
  wf_flats w -> flats w !! id = Some fl -> slots_in w id = Some s ->
  slot_at w id page = None -> i = (spot s page).1 -> 0 <= page < page_count fl ->
  exists w', put_slots (E:=E) id (insert_at i (page, sl) s) w = Some (Ok tt, w') /\
    slot_write w w' id page (Some sl).
Proof.
  intros Hwf Hfl Hs Hn -> Hp.
  destruct (slot_at_None w id page s Hwf Hs Hn) as (Hsort & Hnone & _).
  destruct (table_insert s page sl Hsort Hnone) as [? Hm].
  eapply put_slots_write; [done..| |done]. rewrite Hm. by apply partial_alter_ext.
Qed.

Lemma remove_slot_run {E} w id (page : Z) s (i : nat) (sl : Slot) :
  wf_flats w -> slots_in w id = Some s -> s !! i = Some (page, sl) ->
  exists w', put_slots (E:=E) id (remove_at i s) w = Some (Ok tt, w') /\
    slot_write w w' id page None.
Proof.
  intros Hwf Hs Hi. destruct (slots_in_Some w id s Hwf Hs) as (fl & Hfl & Hsrc & Hwfl).
  destruct (wf_slots _ Hwfl s Hsrc) as [Hsort Hin].
  destruct (table_remove s i page sl Hsort Hi) as [? Hm].
  eapply put_slots_write; [done..| |done]. rewrite Hm. by apply partial_alter_ext.
Qed.

Lemma write_slot_inv {E} w id (page : Z) s (i : nat) (sl sl' : Slot) r w' :
  wf_flats w -> slots_in w id = Some s -> s !! i = Some (page, sl) ->
  put_slots (E:=E) id (<[i := (page, sl')]> s) w = Some (r, w') ->
  slot_write w w' id page (Some sl').
Proof.
  intros Hwf Hs Hi. destruct (write_slot_run (E:=E) w id page s i sl sl' Hwf Hs Hi)
    as (w1 & -> & ?). intros ?. by simplify_eq.
Qed.

Lemma slots_of_inv {E} id w s w' :
  slots_of (E:=E) id w = Some (Ok s, w') -> w' = w /\ slots_in w id = Some s.
Proof.
  unfold slots_of, state_of, flat_of. intros H. minv H. split; [done|].
  unfold slots_in. by rewrite E0; simpl; rewrite E1.
Qed.

Lemma state_of_inv {E} id w st w' :
  state_of (E:=E) id w = Some (Ok st, w') ->
  w' = w /\ exists fl, flats w !! id = Some fl /\ state fl = st.
Proof. unfold state_of, flat_of. intros H. minv H. eauto. Qed.

Lemma try_reserve_inv {E} (e : E) w r w' :
  try_reserve e w = Some (r, w') -> exists h, w' = set_heap h w.
Proof.
  unfold try_reserve. munfold. destruct w as [? ? ? h ?]. destruct h as [|[] h]; simpl;
    intros ?; simplify_eq; [exists []|exists h..]; done.
Qed.

Lemma set_heap_slot w h j q : slot_at (set_heap h w) j q = slot_at w j q.
Proof. done. Qed.

Lemma slot_at_state w id fl s page :
  flats w !! id = Some fl -> source (state fl) = Managed s ->
  slots_in w id = Some s /\ slot_at w id page = tmap s !! page.
Proof. intros Hfl Hs. unfold slot_at, slots_in. rewrite Hfl. simpl. by rewrite Hs. Qed.

Lemma wf_state_sorted w id fl s :
  wf_flats w -> flats w !! id = Some fl -> source (state fl) = Managed s -> sorted s.
Proof. intros Hwf Hfl Hs. by apply (wf_slots fl); [eapply Forall_lookup_1|]. Qed.

(** The checks of [claim] and what passing them means. *)
Lemma source_ready_inv w id fl page u w' :
  wf_flats w -> flats w !! id = Some fl ->
  source_ready (state fl) page w = Some (Ok u, w') ->
  w' = w /\ transferable (state fl) = true /\ is_pinned (state fl) page 1 = false /\
  exists f, slot_at w id page = Some (Resident f).
Proof.
  intros Hwf Hfl H. unfold source_ready, plain_origin in H. minv H.
  destruct (slot_at_state w' id fl slots page Hfl E0) as [_ ->].
  pose proof (wf_state_sorted _ _ _ _ Hwf Hfl E0). destruct b; [|done].
  destruct (spot_true slots page n) as (v & Hn & Hv); [done..|]. simplify_eq/=.
  split_and!; [done| |done|eauto]. by destruct (transferable (state fl)).
Qed.

Lemma target_ready_inv w id fl page m w' :
  wf_flats w -> flats w !! id = Some fl ->
  target_ready (state fl) page w = Some (Ok m, w') ->
  w' = w /\ transferable (state fl) = true /\ is_pinned (state fl) page 1 = false /\
  is_Some (slots_in w id) /\
  slot_at w id page = if (m : bool) then Some Missing else None.
Proof.
  intros Hwf Hfl H. unfold target_ready, plain_origin in H. minv H.
  all: destruct (slot_at_state w' id fl slots page Hfl E0) as [-> ->].
  all: pose proof (wf_state_sorted _ _ _ _ Hwf Hfl E0); destruct b; try done.
  - destruct (transferable (state fl)); [|done]. by erewrite spot_false.
  - destruct (spot_true slots page n) as (v & Hn & Hv); [done..|]. simplify_eq/=.
    by destruct (transferable (state fl)).
Qed.

Lemma claim_source_inv w id page tx u w' :
  wf_flats w -> claim_source id page tx w = Some (Ok u, w') ->
  exists f, slot_at w id page = Some (Resident f) /\ custody w !! f = Some SOLE /\
    slot_write (set_custody (<[f := IN_TRANSIT]> (custody w)) w) w' id page (Some (Moving f tx)).
Proof.
  intros Hwf H. unfold claim_source in H. minv H.
  apply slots_of_inv in H0 as [-> Hs].
  destruct (slots_in_Some _ _ _ Hwf Hs) as (fl & Hfl & Hsrc & Hwfl).
  pose proof (wf_state_sorted _ _ _ _ Hwf Hfl Hsrc) as Hsort.
  destruct (spot_true a page n) as (v & Hn & Hv); [done..|]. simplify_eq/=.
  unfold custody_enter, custody_load, custody_store in H1. minv H1. to_prop. simplify_eq.
  exists frame. split_and!.
  - by rewrite (proj2 (slot_at_state _ _ _ _ page Hfl Hsrc)).
  - done.
  - by eapply write_slot_inv in H.
Qed.

Lemma claim_target_inv w id page tx m u w' fl :
  wf_flats w -> flats w !! id = Some fl -> 0 <= page < page_count fl ->
  claim_target id page tx m w = Some (Ok u, w') ->
  slot_write w w' id page (Some (Reserved tx m)).
Proof.
  intros Hwf Hfl Hp H. unfold claim_target in H. minv H.
  all: apply slots_of_inv in H0 as [-> Hs].
  all: destruct (slots_in_Some _ _ _ Hwf Hs) as (fl' & Hfl' & Hsrc & Hwfl); simplify_eq.
  all: pose proof (wf_state_sorted _ _ _ _ Hwf Hfl Hsrc) as Hsort.
  - destruct (spot_true a page n) as (v & Hn & Hv); [done..|]. simplify_eq/=.
    by eapply write_slot_inv in H.
  - destruct m; [done|].
    edestruct (insert_slot_run (E:=TransferError)) as (w1 & Hw1 & Hsw);
      [exact Hwf|exact Hfl|exact Hs| |by rewrite E|exact Hp|].
    + rewrite (proj2 (slot_at_state _ _ _ _ page Hfl Hsrc)). by eapply spot_false.
    + rewrite Hw1 in H. simplify_eq. exact Hsw.
Qed.

(** ** The invariant of all sources and the transactions in flight *)

Definition holds (w : World) (i : FlatId) (p : Z) (f : Frame) : Prop :=
  slot_at w i p = Some (Resident f) \/ exists x, slot_at w i p = Some (Moving f x).

Definition at_source (t : Transaction) (i : FlatId) (p : Z) : Prop :=
  tx_source t = i /\ tx_source_page t = p.
Definition at_target (t : Transaction) (i : FlatId) (p : Z) : Prop :=
  tx_target t = i /\ tx_target_page t = p.

Record Inv (txs : list Transaction) (w : World) : Prop := {
  inv_wf : wf_flats w;
  inv_pool : NoDup (pool w);
  inv_fresh : forall f, f ∈ pool w -> custody w !! f = None;
  inv_next : 1 <= next_tx w;
  inv_ids : NoDup (tx_id <$> txs);
  inv_old : forall t, t ∈ txs -> 1 <= tx_id t < next_tx w;
  inv_source : forall t, t ∈ txs ->
    exists f, slot_at w (tx_source t) (tx_source_page t) = Some (Moving f (tx_id t));
  inv_target : forall t, t ∈ txs ->
    exists m, slot_at w (tx_target t) (tx_target_page t) = Some (Reserved (tx_id t) m);
  inv_moving : forall i p f x, slot_at w i p = Some (Moving f x) ->
    custody w !! f = Some IN_TRANSIT /\
    exists t, t ∈ txs /\ tx_id t = x /\ at_source t i p;
  inv_reserved : forall i p x m, slot_at w i p = Some (Reserved x m) ->
    exists t, t ∈ txs /\ tx_id t = x /\ at_target t i p;
  inv_live : forall i p f, holds w i p f -> is_Some (custody w !! f);
  inv_unique : forall i p j q f, holds w i p f -> holds w j q f ->
    custody w !! f <> Some ALIASED -> i = j /\ p = q
}.

(** The slot and custody contents a claim leaves. *)
Record claimed (w w' : World) (t : Transaction) (f : Frame) (m : bool) : Prop := {
  cl_src : slot_at w (tx_source t) (tx_source_page t) = Some (Resident f);
  cl_sole : custody w !! f = Some SOLE;
  cl_tgt : slot_at w (tx_target t) (tx_target_page t) = if m then Some Missing else None;
  cl_slot : forall j q, slot_at w' j q =
    if decide (at_target t j q) then Some (Reserved (tx_id t) m)
    else if decide (at_source t j q) then Some (Moving f (tx_id t))
    else slot_at w j q;
  cl_custody : custody w' = <[f := IN_TRANSIT]> (custody w);
  cl_erase : erase <$> flats w' = erase <$> flats w;
  cl_wf : wf_flats w';
  cl_pool : pool w' = pool w;
  cl_id : tx_id t = next_tx w;
  cl_next : next_tx w' = next_tx w + 1;
  cl_bound : next_tx w <= isize_MAX
}.

#[global] Instance at_source_dec t i p : Decision (at_source t i p).
Proof. apply and_dec; apply _. Defined.
#[global] Instance at_target_dec t i p : Decision (at_target t i p).
Proof. apply and_dec; apply _. Defined.

Lemma wf_flats_flat w id fl : wf_flats w -> flats w !! id = Some fl -> wf_flat fl.
Proof. intros Hwf Hfl. by eapply Forall_lookup_1. Qed.

Lemma owns_bounds w r page fl :
  wf_range w r -> flats w !! range_flat r = Some fl -> owns r page = true ->
  0 <= page < page_count fl.
Proof. unfold owns. intros (fl' & ? & ? & ? & ?) ? ?. simplify_eq. to_prop. lia. Qed.

Lemma erase_lookup w w' id fl :
  erase <$> flats w' = erase <$> flats w -> flats w !! id = Some fl ->
  exists fl', flats w' !! id = Some fl' /\ erase fl' = erase fl.
Proof.
  intros He Hfl. apply (f_equal (fun l => l !! id)) in He.
  rewrite !list_lookup_fmap, Hfl in He. simpl in He.
  apply fmap_Some in He as (fl' & ? & ?). eauto.
Qed.

Lemma erase_pages fl fl' : erase fl' = erase fl -> page_count fl' = page_count fl.
Proof.
  assert (Hp : forall x, page_count (erase x) = page_count x).
  { intros x. unfold erase. by destruct (source (state x)). }
  intros He. rewrite <- Hp, He. apply Hp.
Qed.

Lemma next_transaction_inv w id w' :
  next_transaction w = Some (Ok id, w') ->
  id = next_tx w /\ next_tx w <= isize_MAX /\ w' = set_next_tx (next_tx w + 1) w.
Proof.
  unfold next_transaction, next_id. intros H. minv H.
  destruct (negb _ && _) eqn:E1; simplify_eq. by to_prop.
Qed.

Lemma reserve_inv st page w r w' :
  reserve st page w = Some (r, w') -> exists h, w' = set_heap h w.
Proof.
  unfold reserve. destruct (source st); [|intros [= <- <-]; exists (heap w); by destruct w].
  case_match; [intros [= <- <-]; exists (heap w); by destruct w|apply try_reserve_inv].
Qed.

(** The end of [claim]: both slots written under the held locks. *)
Lemma claim_writes w src sp tgt tp id m w1 w2 u u' fl :
  wf_flats w -> flats w !! tgt = Some fl -> 0 <= tp < page_count fl ->
  ~ (src = tgt /\ sp = tp) ->
  claim_source src sp id w = Some (Ok u, w1) ->
  claim_target tgt tp id m w1 = Some (Ok u', w2) ->
  exists f, slot_at w src sp = Some (Resident f) /\ custody w !! f = Some SOLE /\
    (forall j q, slot_at w2 j q =
       if decide (tgt = j /\ tp = q) then Some (Reserved id m)
       else if decide (src = j /\ sp = q) then Some (Moving f id)
       else slot_at w j q) /\
    custody w2 = <[f := IN_TRANSIT]> (custody w) /\
    erase <$> flats w2 = erase <$> flats w /\ wf_flats w2 /\
    pool w2 = pool w /\ next_tx w2 = next_tx w.
Proof.
  intros Hwf Hfl Hp Hne H1 H2.
  apply claim_source_inv in H1 as (f & Hf & Hc & [S1 E1 W1 C1 P1 _ N1]); [|done]. simpl in *.
  destruct (erase_lookup _ _ _ _ E1 Hfl) as (fl1 & Hfl1 & Hpc%erase_pages).
  rewrite <- Hpc in Hp.
  destruct (claim_target_inv _ _ _ _ _ _ _ _ W1 Hfl1 Hp H2) as [S2 E2 W2 C2 P2 _ N2].
  exists f. split_and!; [done..| | |by rewrite E2|done| |].
  - intros j q. rewrite S2, S1. repeat case_decide; naive_solver.
  - by rewrite C2.
  - by rewrite P2.
  - by rewrite N2.
Qed.

Lemma claim_inv {C} w src sp tgt tp (prep : result TransferError C) t c w' :
  wf_flats w -> wf_range w tgt ->
  claim src sp tgt tp prep w = Some (Ok (t, c), w') ->
  t = mkTx (range_flat src) sp (range_flat tgt) tp (next_tx w) /\ prep = Ok c /\
  ~ (range_flat src = range_flat tgt /\ sp = tp) /\
  (exists fl, flats w !! range_flat src = Some fl /\
     transferable (state fl) = true /\ is_pinned (state fl) sp 1 = false) /\
  (exists fl, flats w !! range_flat tgt = Some fl /\
     transferable (state fl) = true /\ is_pinned (state fl) tp 1 = false) /\
  exists f m, claimed w w' t f m.
Proof.
  intros Hwf Hrt H. unfold claim in H. minv H.
  apply next_transaction_inv in H0 as (-> & Hb & ->).
  apply state_of_inv in H1 as (-> & fs & Hfs & <-).
  eapply source_ready_inv in H2 as (-> & Hts & Hps & f0 & Hf0); [|done..].
  apply state_of_inv in H3 as (-> & ft & Hft & <-).
  eapply target_ready_inv in H4 as (-> & Htt & Hpt & _ & Hslot); [|done..].
  apply reserve_inv in H5 as [h ->]. simpl in *.
  pose proof (owns_bounds _ _ _ _ Hrt Hft E0) as Hp.
  assert (Hne : ~ (range_flat src = range_flat tgt /\ sp = tp)).
  { intros [Heq ->]. rewrite bool_decide_true in E1 by done. simpl in E1. lia. }
  edestruct claim_writes as (f & Hf & Hc & Hs & Hcu & He & Hw & Hpo & Hn);
    [| |exact Hp|exact Hne|exact H6|exact H7|]; [done|exact Hft|].
  split_and!; [done..|eauto|eauto|]. exists f, a3. by constructor.
Qed.

(** ** Ending a transaction *)

Lemma moving_slot_run {E} w id page f x :
  wf_flats w -> slot_at w id page = Some (Moving f x) ->
  exists s i, moving_slot (E:=E) id page x w = Some (Ok (s, i, f), w) /\
    slots_in w id = Some s /\ s !! i = Some (page, Moving f x).
Proof.
  intros Hwf Hs. destruct (slot_at_Some _ _ _ _ Hwf Hs) as (s & i & Hin & Hsort & Hsp & Hi).
  exists s, i. split_and!; [|done..]. unfold moving_slot.
  pose proof (slots_of_run (E:=E) w id s Hin) as Hrun. mrun. by rewrite Z.eqb_refl.
Qed.

Lemma reserved_slot_run {E} w id page x m :
  wf_flats w -> slot_at w id page = Some (Reserved x m) ->
  exists s i, reserved_slot (E:=E) id page x w = Some (Ok (s, i, m), w) /\
    slots_in w id = Some s /\ s !! i = Some (page, Reserved x m).
Proof.
  intros Hwf Hs. destruct (slot_at_Some _ _ _ _ Hwf Hs) as (s & i & Hin & Hsort & Hsp & Hi).
  exists s, i. split_and!; [|done..]. unfold reserved_slot.
  pose proof (slots_of_run (E:=E) w id s Hin) as Hrun. mrun. by rewrite Z.eqb_refl.
Qed.

Lemma custody_leave_run {E} w f :
  custody w !! f = Some IN_TRANSIT ->
  custody_leave (E:=E) f w = Some (Ok tt, set_custody (<[f := SOLE]> (custody w)) w).
Proof. intros Hf. unfold custody_leave, custody_load, custody_store. mrun. done. Qed.

(** [w'] is [w] with the two slots of [t] resolved and its frame released. *)
Record ended (w w' : World) (t : Transaction) (f : Frame) (so to : option Slot) : Prop := {
  en_slot : forall j q, slot_at w' j q =
    if decide (at_target t j q) then to
    else if decide (at_source t j q) then so
    else slot_at w j q;
  en_custody : custody w' = <[f := SOLE]> (custody w);
  en_erase : erase <$> flats w' = erase <$> flats w;
  en_wf : wf_flats w';
  en_pool : pool w' = pool w;
  en_heap : heap w' = heap w;
  en_next : next_tx w' = next_tx w
}.

Lemma ended_writes w w1 w2 t f so to c :
  slot_write w w1 (tx_source t) (tx_source_page t) so ->
  slot_write (set_custody c w1) w2 (tx_target t) (tx_target_page t) to ->
  c = <[f := SOLE]> (custody w) -> ended w w2 t f so to.
Proof.
  intros [S1 E1 W1 C1 P1 H1 N1] [S2 E2 W2 C2 P2 H2 N2] ->. simpl in *. split.
  - intros j q. rewrite S2. change (slot_at (set_custody _ w1) j q) with (slot_at w1 j q).
    rewrite S1. unfold at_target, at_source. repeat case_decide; naive_solver.
  - by rewrite C2.
  - by rewrite E2.
  - done.
  - by rewrite P2.
  - by rewrite H2.
  - by rewrite N2.
Qed.

Section ending.
Context {E : Type} (w : World) (t : Transaction) (f : Frame) (m : bool).
Hypothesis Hwf : wf_flats w.
Hypothesis Hsrc : slot_at w (tx_source t) (tx_source_page t) = Some (Moving f (tx_id t)).
Hypothesis Htgt : slot_at w (tx_target t) (tx_target_page t) = Some (Reserved (tx_id t) m).
Hypothesis Hcu : custody w !! f = Some IN_TRANSIT.

Lemma carrier_run : carrier (E:=E) t w = Some (Ok f, w).
Proof using Hwf Hsrc.
  destruct (moving_slot_run (E:=E) _ _ _ _ _ Hwf Hsrc) as (s & i & Hrun & _).
  unfold carrier. by mrun.
Qed.

Lemma target_after w1 so :
  slot_write w w1 (tx_source t) (tx_source_page t) so ->
  slot_at w1 (tx_target t) (tx_target_page t) = Some (Reserved (tx_id t) m).
Proof using Hsrc Htgt.
  intros [S1 _ _ _ _ _ _]. rewrite S1. case_decide as Hd; [|done].
  destruct Hd as [Ha Hb]. rewrite Ha, Hb in Htgt. congruence.
Qed.

Lemma commit_run :
  exists w', commit (E:=E) t w = Some (Ok tt, w') /\
  ended w w' t f (Some Missing) (Some (Resident f)).
Proof using Hwf Hsrc Htgt Hcu.
  destruct (moving_slot_run (E:=E) _ _ _ _ _ Hwf Hsrc) as (s & i & Hrun & Hin & Hi).
  destruct (write_slot_run (E:=E) w _ _ s i _ Missing Hwf Hin Hi) as (w1 & Hw1 & Hsw1).
  pose proof (target_after _ _ Hsw1) as Ht1. destruct (Hsw1) as [_ _ W1 C1 _ _ _].
  destruct (reserved_slot_run (E:=E) _ _ _ _ _ W1 Ht1) as (s1 & j & Hrun1 & Hin1 & Hj).
  rewrite <- C1 in Hcu.
  pose proof (custody_leave_run (E:=E) _ _ Hcu) as Hleave.
  set (w1' := set_custody (<[f := SOLE]> (custody w1)) w1) in *.
  destruct (write_slot_run (E:=E) w1' _ _ s1 j _ (Resident f) W1 Hin1 Hj) as (w2 & Hw2 & Hsw2).
  exists w2. split.
  - unfold commit, settle_source, settle_target. mrun. done.
  - eapply ended_writes; [done..|]. by rewrite C1.
Qed.

Lemma rollback_run :
  exists w', rollback (E:=E) t w = Some (Ok tt, w') /\
  ended w w' t f (Some (Resident f)) (if m then Some Missing else None).
Proof using Hwf Hsrc Htgt Hcu.
  destruct (moving_slot_run (E:=E) _ _ _ _ _ Hwf Hsrc) as (s & i & Hrun & Hin & Hi).
  pose proof (custody_leave_run (E:=E) _ _ Hcu) as Hleave.
  set (w0 := set_custody (<[f := SOLE]> (custody w)) w) in *.
  destruct (write_slot_run (E:=E) w0 _ _ s i _ (Resident f) Hwf Hin Hi) as (w1 & Hw1 & Hsw1).
  assert (Ht1 : slot_at w1 (tx_target t) (tx_target_page t) = Some (Reserved (tx_id t) m)).
  { destruct Hsw1 as [S1 _ _ _ _ _ _]. rewrite S1. case_decide as Hd; [|done].
  destruct Hd as [Ha Hb]. rewrite Ha, Hb in Htgt. congruence. }
  destruct (Hsw1) as [_ _ W1 C1 _ _ _].
  destruct (reserved_slot_run (E:=E) _ _ _ _ _ W1 Ht1) as (s1 & j & Hrun1 & Hin1 & Hj).
  assert (exists w2, put_slots (E:=E) (tx_target t)
  (if m then <[j := (tx_target_page t, Missing)]> s1 else remove_at j s1) w1
  = Some (Ok tt, w2) /\
  slot_write w1 w2 (tx_target t) (tx_target_page t) (if m then Some Missing else None))
  as (w2 & Hw2 & Hsw2).
  { destruct m; [by eapply write_slot_run|by eapply remove_slot_run]. }
  exists w2. split.
  - unfold rollback, rollback_source, rollback_target. mrun. done.
  - destruct Hsw1 as [S1 E1 _ _ P1 H1 N1]. destruct Hsw2 as [S2 E2 W2 C2 P2 H2 N2].
  subst w0. simpl in *. split; [|congruence..].
  intros k q. rewrite S2, S1. unfold at_target, at_source. repeat case_decide; naive_solver.
Qed.
End ending.

Lemma Inv_tx txs w t :
  Inv txs w -> t ∈ txs ->
  exists f m,
    slot_at w (tx_source t) (tx_source_page t) = Some (Moving f (tx_id t)) /\
    slot_at w (tx_target t) (tx_target_page t) = Some (Reserved (tx_id t) m) /\
    custody w !! f = Some IN_TRANSIT.
Proof.
  intros HI Ht. destruct (inv_source _ _ HI t Ht) as [f Hf].
  destruct (inv_target _ _ HI t Ht) as [m Hm].
  destruct (inv_moving _ _ HI _ _ _ _ Hf) as [? _]. eauto 6.
Qed.

(** ** Preservation *)

#[global] Instance Inv_perm : Proper ((≡ₚ) ==> (=) ==> iff) Inv.
Proof.
  assert (Himp : forall txs txs' w, txs ≡ₚ txs' -> Inv txs w -> Inv txs' w).
  { intros txs txs' w Hp []. split; try done.
    - by rewrite <- Hp.
    - intros t. rewrite <- Hp. auto.
    - intros t. rewrite <- Hp. auto.
    - intros t. rewrite <- Hp. auto.
    - intros i p f x Hs. destruct (inv_moving0 i p f x Hs) as (? & t & ?). split; [done|].
      exists t. by rewrite <- Hp.
    - intros i p x m Hs. destruct (inv_reserved0 i p x m Hs) as (t & ?).
      exists t. by rewrite <- Hp. }
  intros txs txs' Hp w ? <-. split; apply Himp; [done|by symmetry].
Qed.

Lemma claimed_Inv txs w w' t f m :
  Inv txs w -> ~ at_target t (tx_source t) (tx_source_page t) -> claimed w w' t f m ->
  Inv (t :: txs) w'.
Proof.
  intros HI Hne [Hs Hc Ht Hslot Hcu He Hwf Hpool Hid Hnx Hb].
  assert (Hold : forall u, u ∈ txs -> ~ at_target t (tx_source u) (tx_source_page u) /\
      ~ at_source t (tx_source u) (tx_source_page u) /\
      ~ at_target t (tx_target u) (tx_target_page u) /\
      ~ at_source t (tx_target u) (tx_target_page u)).
  { intros u Hu. destruct (Inv_tx _ _ _ HI Hu) as (f' & m' & H1 & H2 & _).
    unfold at_target, at_source in *. split_and!; intros [Ha Hb'].
    all: rewrite <- Ha, <- Hb' in *; rewrite ?H1, ?H2 in *; try congruence.
    all: destruct m; congruence. }
  assert (Hholds : forall i p g, holds w' i p g -> holds w i p g).
  { intros i p g. unfold holds. rewrite Hslot. repeat case_decide; [naive_solver| |done].
    match goal with H : at_source _ _ _ |- _ => destruct H as [<- <-] end. rewrite Hs.
    intros [?|[? ?]]; simplify_eq. by left. }
  split.
  - done.
  - rewrite Hpool. apply HI.
  - intros g. rewrite Hpool, Hcu. intros Hg%(inv_fresh _ _ HI).
    rewrite lookup_insert_ne; [done|congruence].
  - rewrite Hnx. pose proof (inv_next _ _ HI). lia.
  - simpl. constructor; [|apply HI]. intros (u & Hu & Hin)%list_elem_of_fmap.
    pose proof (inv_old _ _ HI u Hin). lia.
  - intros u [->|Hu]%elem_of_cons; pose proof (inv_next _ _ HI); [lia|].
    pose proof (inv_old _ _ HI u Hu). lia.
  - intros u [->|Hu]%elem_of_cons.
    + exists f. rewrite Hslot. rewrite decide_False by done. by rewrite decide_True by done.
    + destruct (Hold u Hu) as (? & ? & _). destruct (inv_source _ _ HI u Hu) as [g Hg].
      exists g. rewrite Hslot. by rewrite !decide_False.
  - intros u [->|Hu]%elem_of_cons.
    + exists m. rewrite Hslot. by rewrite decide_True by done.
    + destruct (Hold u Hu) as (_ & _ & ? & ?). destruct (inv_target _ _ HI u Hu) as [g Hg].
      exists g. rewrite Hslot. by rewrite !decide_False.
  - intros i p g x. rewrite Hslot, Hcu. repeat case_decide; [done| |].
    + intros [= <- <-]. rewrite lookup_insert_eq. split; [done|]. exists t.
      split_and!; [by left|done..].
    + intros Hm. destruct (inv_moving _ _ HI _ _ _ _ Hm) as (Hg & u & ? & ? & ?). split.
      * rewrite lookup_insert_ne; congruence.
      * exists u. split_and!; [by right|done..].
  - intros i p x b. rewrite Hslot. repeat case_decide; [|done|].
    + intros [= <- <-]. exists t. split_and!; [by left|done..].
    + intros Hm. destruct (inv_reserved _ _ HI _ _ _ _ Hm) as (u & ? & ? & ?).
      exists u. split_and!; [by right|done..].
  - intros i p g Hg%Hholds%(inv_live _ _ HI). rewrite Hcu, lookup_insert.
    case_decide; [eauto|done].
  - intros i p j q g H1%Hholds H2%Hholds. rewrite Hcu, lookup_insert. case_decide; subst.
    + intros _. eapply (inv_unique _ _ HI); [done..|]. congruence.
    + intros Hg. by eapply (inv_unique _ _ HI).
Qed.

(** What a resolved transaction may leave in its two slots. *)
Definition resolved (f : Frame) (so to : option Slot) : Prop :=
  (so = Some Missing /\ to = Some (Resident f)) \/
  (so = Some (Resident f) /\ (to = Some Missing \/ to = None)).

Lemma ended_Inv txs w w' t f m so to :
  Inv (t :: txs) w ->
  slot_at w (tx_source t) (tx_source_page t) = Some (Moving f (tx_id t)) ->
  slot_at w (tx_target t) (tx_target_page t) = Some (Reserved (tx_id t) m) ->
  ended w w' t f so to -> resolved f so to -> Inv txs w'.
Proof.
  intros HI Hs Ht [Hslot Hcu He Hwf Hpool _ Hnx] Hres.
  pose proof (inv_moving _ _ HI _ _ _ _ Hs) as [Hf _].
  assert (Hne : ~ at_target t (tx_source t) (tx_source_page t)).
  { intros [Ha Hb]. rewrite Ha, Hb in Ht. congruence. }
  pose proof (inv_ids _ _ HI) as Hids. simpl in Hids. apply NoDup_cons in Hids as [Hid Hids].
  assert (Hother : forall u, u ∈ txs -> tx_id u <> tx_id t).
  { intros u Hu Heq. apply Hid. rewrite <- Heq. by apply list_elem_of_fmap_2. }
  assert (Hold : forall u, u ∈ txs -> ~ at_target t (tx_source u) (tx_source_page u) /\
      ~ at_source t (tx_source u) (tx_source_page u) /\
      ~ at_target t (tx_target u) (tx_target_page u) /\
      ~ at_source t (tx_target u) (tx_target_page u)).
  { intros u Hu. destruct (Inv_tx _ _ u HI (list_elem_of_further _ _ _ Hu)) as (f' & m' & H1 & H2 & _).
    pose proof (Hother u Hu). unfold at_target, at_source in *.
    split_and!; intros [Ha Hb]; rewrite <- Ha, <- Hb in *; congruence. }
  (* a frame held after is [f] at the resolved slot, or was held elsewhere *)
  assert (Hholds : forall i p g, holds w' i p g ->
      (g = f /\ (if decide (so = Some Missing) then at_target t i p else at_source t i p)) \/
      (g <> f /\ holds w i p g)).
  { intros i p g Hg. unfold holds in Hg. rewrite Hslot in Hg.
    destruct (decide (at_target t i p)) as [Hat|Hat];
      [|destruct (decide (at_source t i p)) as [Has|Has]].
    - left. destruct Hres as [[-> ->]|[-> [-> | ->]]]; case_decide; naive_solver.
    - left. destruct Hres as [[-> ->]|[-> [-> | ->]]]; case_decide; naive_solver.
    - right. split; [|done]. intros ->. apply Has.
      destruct (inv_unique _ _ HI (tx_source t) (tx_source_page t) i p f) as [? ?];
        [right; eauto|done|congruence|done]. }
  split.
  - done.
  - rewrite Hpool. apply HI.
  - intros g. rewrite Hpool, Hcu. intros Hg%(inv_fresh _ _ HI).
    rewrite lookup_insert_ne; [done|congruence].
  - rewrite Hnx. apply HI.
  - done.
  - intros u Hu. rewrite Hnx. apply (inv_old _ _ HI). by right.
  - intros u Hu. destruct (Hold u Hu) as (? & ? & _).
    destruct (inv_source _ _ HI u) as [g Hg]; [by right|].
    exists g. rewrite Hslot. by rewrite !decide_False.
  - intros u Hu. destruct (Hold u Hu) as (_ & _ & ? & ?).
    destruct (inv_target _ _ HI u) as [g Hg]; [by right|].
    exists g. rewrite Hslot. by rewrite !decide_False.
  - intros i p g x. rewrite Hslot, Hcu.
    destruct (decide (at_target t i p)); [|destruct (decide (at_source t i p))].
    { intros ->. exfalso. destruct Hres as [[_ ?]|[_ [?|?]]]; congruence. }
    { intros ->. exfalso. destruct Hres as [[? _]|[? _]]; congruence. }
    intros Hm. destruct (inv_moving _ _ HI _ _ _ _ Hm) as (Hg & u & Hu & ? & ?). split.
    + rewrite lookup_insert_ne; [done|]. intros <-.
      match goal with H : ~ at_source t _ _ |- _ => apply H end.
      destruct (inv_unique _ _ HI (tx_source t) (tx_source_page t) i p f); [right; eauto..|congruence|done].
    + exists u. apply elem_of_cons in Hu as [->|Hu]; [done|]. done.
  - intros i p x b. rewrite Hslot.
    destruct (decide (at_target t i p)); [|destruct (decide (at_source t i p))].
    { intros ->. exfalso. destruct Hres as [[_ ?]|[_ [?|?]]]; congruence. }
    { intros ->. exfalso. destruct Hres as [[? _]|[? _]]; congruence. }
    intros Hm. destruct (inv_reserved _ _ HI _ _ _ _ Hm) as (u & Hu & ? & ?).
    exists u. apply elem_of_cons in Hu as [->|Hu]; [done|]. done.
  - intros i p g Hg%Hholds. rewrite Hcu, lookup_insert.
    destruct (decide (f = g)); [eauto|].
    destruct Hg as [[-> _]|[_ Hg]]; [done|]. by apply (inv_live _ _ HI) in Hg.
  - intros i p j q g H1%Hholds H2%Hholds. rewrite Hcu, lookup_insert.
    destruct H1 as [[-> H1]|[Hg H1]], H2 as [[? H2]|[Hg' H2]]; try done.
    + intros _. destruct (decide (so = Some Missing)), H1, H2; naive_solver.
    + rewrite decide_False by done. intros. by eapply (inv_unique _ _ HI).
Qed.
