(* ===== verification/FlatSteps.v ===== *)
(** * Interleavings of source operations and transfers

    Every operation of [Flat] and [Transaction] as a transition of the
    shared state, and the invariant along every sequence of them. *)

From S2P Require Import Prelude.
From S2P Require Import Table.
From S2P Require Import Flat.
From S2P Require Import Transaction.
From S2P Require Import FlatInv.

Open Scope Z_scope.

(** ** Operations that leave slots and custody alone *)

Lemma Inv_same txs w w' :
  Inv txs w -> wf_flats w' -> (forall j q, slot_at w' j q = slot_at w j q) ->
  custody w' = custody w -> pool w' = pool w -> next_tx w' = next_tx w -> Inv txs w'.
Proof.
  intros HI Hwf Hs Hc Hp Hn. split; rewrite ?Hc, ?Hp, ?Hn; try (done || apply HI).
  - intros t Ht. rewrite Hs. by apply HI.
  - intros t Ht. rewrite Hs. by apply HI.
  - intros i p f x. rewrite Hs. apply HI.
  - intros i p x m. rewrite Hs. apply HI.
  - intros i p f. unfold holds. rewrite Hs. apply HI.
  - intros i p j q f. unfold holds. rewrite !Hs. apply HI.
Qed.

Lemma put_state_inv {E} id st w r w' fl :
  put_state (E:=E) id st w = Some (r, w') -> flats w !! id = Some fl ->
  r = Ok tt /\ w' = set_flats (<[id := mkFlat (page_count fl) st]> (flats w)) w.
Proof.
  unfold put_state, flat_of. munfold. intros H Hfl. rewrite Hfl in H. by simplify_eq.
Qed.

Lemma set_state_slot w id fl st j q :
  flats w !! id = Some fl -> source st = source (state fl) ->
  slot_at (set_flats (<[id := mkFlat (page_count fl) st]> (flats w)) w) j q = slot_at w j q.
Proof.
  intros Hfl Hsrc. unfold slot_at, slots_in. simpl. rewrite list_lookup_insert.
  destruct (decide _) as [[-> ?]|]; [|done]. rewrite Hfl. simpl. by rewrite Hsrc.
Qed.

Lemma set_state_Inv txs w id fl st :
  Inv txs w -> flats w !! id = Some fl -> source st = source (state fl) ->
  wf_flat (mkFlat (page_count fl) st) ->
  Inv txs (set_flats (<[id := mkFlat (page_count fl) st]> (flats w)) w).
Proof.
  intros HI Hfl Hsrc Hwf. eapply Inv_same; [done| |intros; by apply set_state_slot|done..].
  unfold wf_flats. simpl. apply Forall_insert; [apply HI|done].
Qed.

Lemma set_heap_Inv txs w h : Inv txs w -> Inv txs (set_heap h w).
Proof. intros HI. eapply Inv_same; [done| |done..]. apply HI. Qed.

Lemma set_next_Inv txs w n : Inv txs w -> next_tx w <= n -> Inv txs (set_next_tx n w).
Proof.
  intros HI Hn. split; simpl; try apply HI.
  - pose proof (inv_next _ _ HI). lia.
  - intros t Ht. pose proof (inv_old _ _ HI t Ht). lia.
Qed.

Lemma append_slot w fl j q :
  slot_at (set_flats (flats w ++ [fl]) w) j q =
  if decide (j = length (flats w)) then
    match source (state fl) with Managed s => tmap s !! q | Borrowed _ => None end
  else slot_at w j q.
Proof.
  unfold slot_at, slots_in. simpl. case_decide as Hj; [subst j|].
  - rewrite list_lookup_middle by done. simpl. by destruct (source (state fl)).
  - destruct (decide (j < length (flats w))%nat).
    + by rewrite lookup_app_l.
    + rewrite (proj2 (lookup_ge_None _ _)) by (rewrite length_app; simpl; lia).
      rewrite (proj2 (lookup_ge_None _ _)) by lia. done.
Qed.

Lemma slot_at_new w q : slot_at w (length (flats w)) q = None.
Proof.
  unfold slot_at, slots_in. by rewrite (proj2 (lookup_ge_None _ _)) by lia.
Qed.

Lemma append_Inv txs w fl :
  Inv txs w -> wf_flat fl -> (forall s, source (state fl) = Managed s -> s = []) ->
  Inv txs (set_flats (flats w ++ [fl]) w).
Proof.
  intros HI Hwf Hs. eapply Inv_same; [done| | |done..].
  - unfold wf_flats. simpl. apply Forall_app. split; [apply HI|]. by constructor.
  - intros j q. rewrite append_slot. case_decide; [subst j|done]. rewrite slot_at_new.
    destruct (source (state fl)) as [s|]; [|done]. by rewrite (Hs s).
Qed.

Lemma Flat_new_inv pages src tr w r w' :
  Flat_new pages src tr w = Some (r, w') ->
  exists h, (r = Err OutOfMemory /\ w' = set_heap h w) \/
    (r = Ok (length (flats w)) /\
     w' = set_flats (flats w ++ [mkFlat pages (FlatState_new src tr)]) (set_heap h w)).
Proof.
  unfold Flat_new, try_reserve. munfold. destruct w as [fs c p h n]. simpl.
  destruct h as [|[] h]; simpl; intros ?; simplify_eq; [exists []|exists h..]; auto.
Qed.

Lemma wf_new pages src tr :
  0 < pages <= usize_MAX ->
  (forall s, src = Managed s -> sorted s /\ Forall (fun x => 0 <= x.1 < pages) s) ->
  wf_flat (mkFlat pages (FlatState_new src tr)).
Proof.
  intros Hp Hs. split; simpl; [done|exact Hs|constructor|constructor|].
  rewrite usize_MAX_eq. lia.
Qed.

(** ** Filling a fresh page *)

Lemma fill_Inv txs w w' id page f rest :
  Inv txs w -> pool w = f :: rest -> slot_at w id page = None ->
  slot_write (take_pool rest f w) w' id page (Some (Resident f)) -> Inv txs w'.
Proof.
  intros HI Hpool Hnone [Hs He Hwf Hc Hp _ Hn]. simpl in *.
  assert (Hnew : custody w !! f = None).
  { apply (inv_fresh _ _ HI). rewrite Hpool. by left. }
  assert (Hf : forall i p, ~ holds w i p f).
  { intros i p Hh. apply (inv_live _ _ HI) in Hh as [? ?]. congruence. }
  assert (Hs' : forall j q, slot_at w' j q =
    if decide (j = id /\ q = page) then Some (Resident f) else slot_at w j q) by exact Hs.
  assert (Hflight : forall j q s, in_flight s = true ->
    slot_at w' j q = Some s <-> slot_at w j q = Some s).
  { intros j q s Hfl. rewrite Hs'. case_decide as Hd; [|done]. destruct Hd as [-> ->].
    rewrite Hnone. split; [|done]. intros ?. by simplify_eq. }
  assert (Hholds : forall i p g, holds w' i p g ->
    (g = f /\ i = id /\ p = page) \/ (g <> f /\ holds w i p g)).
  { intros i p g. unfold holds. rewrite Hs'. case_decide as Hd.
    - intros [?|[? ?]]; simplify_eq. left. naive_solver.
    - intros Hh. right. split; [|done]. intros ->. by apply (Hf i p). }
  assert (Hd : NoDup (f :: rest)) by (rewrite <- Hpool; apply HI).
  apply NoDup_cons in Hd as [Hfr Hrest]. split.
  - done.
  - by rewrite Hp.
  - intros g Hg. rewrite Hp in Hg. rewrite Hc, lookup_insert_ne by (intros ->; done).
    apply (inv_fresh _ _ HI). rewrite Hpool. by right.
  - rewrite Hn. apply HI.
  - apply HI.
  - rewrite Hn. apply HI.
  - intros t Ht. destruct (inv_source _ _ HI t Ht) as [g Hg]. exists g. by apply Hflight.
  - intros t Ht. destruct (inv_target _ _ HI t Ht) as [m Hm]. exists m. by apply Hflight.
  - intros i p g x Hm%Hflight; [|done]. destruct (inv_moving _ _ HI i p g x Hm) as [Hg ?].
    split; [|done]. rewrite Hc, lookup_insert_ne; [done|]. intros <-. congruence.
  - intros i p x m Hm%Hflight; [|done]. by eapply inv_reserved.
  - intros i p g [(-> & _)|[Hg Hh%(inv_live _ _ HI)]]%Hholds; rewrite Hc.
    + rewrite lookup_insert_eq. eauto.
    + by rewrite lookup_insert_ne.
  - intros i p j q g H1%Hholds H2%Hholds. rewrite Hc.
    destruct H1 as [(-> & -> & ->)|[Hg H1]], H2 as [(? & -> & ->)|[Hg' H2]]; try done.
    rewrite lookup_insert_ne by done. by eapply (inv_unique _ _ HI).
Qed.

(** [w'] is [w] with some fresh pages of [lo, hi) of source [id] filled. *)
Record fills (w w' : World) (id : FlatId) (lo hi : Z) : Prop := {
  fi_kept : forall j q s, slot_at w j q = Some s -> slot_at w' j q = Some s;
  fi_new : forall j q, slot_at w j q = None -> slot_at w' j q <> None ->
    j = id /\ lo <= q < hi /\ exists f, f ∈ pool w /\ slot_at w' j q = Some (Resident f);
  fi_pool : pool w' `suffix_of` pool w;
  fi_erase : erase <$> flats w' = erase <$> flats w;
  fi_next : next_tx w' = next_tx w;
  fi_custody : forall f c, custody w !! f = Some c -> custody w' !! f = Some c
}.

Lemma fills_same w w' id lo hi :
  (forall j q, slot_at w' j q = slot_at w j q) -> pool w' = pool w ->
  erase <$> flats w' = erase <$> flats w -> next_tx w' = next_tx w ->
  custody w' = custody w -> fills w w' id lo hi.
Proof.
  intros Hs Hp He Hn Hc. split; rewrite ?Hp, ?Hc; try done.
  - intros j q s. by rewrite Hs.
  - intros j q H1 H2. rewrite Hs in H2. done.
Qed.

Lemma fills_widen w w' id lo hi lo' hi' :
  fills w w' id lo hi -> lo' <= lo -> hi <= hi' -> fills w w' id lo' hi'.
Proof.
  intros [Hk Hn Hp He Hx Hc] ? ?. split; try done.
  intros j q H1 H2. destruct (Hn j q H1 H2) as (? & ? & ?). split_and!; [done|lia..|done].
Qed.

Lemma fills_trans w1 w2 w3 id lo hi :
  fills w1 w2 id lo hi -> fills w2 w3 id lo hi -> fills w1 w3 id lo hi.
Proof.
  intros [K1 N1 P1 E1 X1 C1] [K2 N2 P2 E2 X2 C2]. split.
  - eauto.
  - intros j q H1 H3. destruct (slot_at w2 j q) as [s|] eqn:H2.
    + destruct (N1 j q H1) as (? & ? & f & ? & Hf); [congruence|].
      split_and!; [done|lia|lia|]. exists f. split; [done|]. eauto.
    + destruct (N2 j q H2 H3) as (? & ? & f & Hin & Hf). split_and!; [done|lia|lia|].
      exists f. split; [|done]. destruct P1 as [l ->]. set_solver.
  - by transitivity (pool w2).
  - congruence.
  - congruence.
  - eauto.
Qed.

(** What a failed materialization reports. *)
Definition reports (w : World) (id : FlatId) (lo hi : Z) (e : FlatError) : Prop :=
  match e with
  | MissingError => exists q, lo <= q < hi /\ slot_at w id q = Some Missing
  | Busy => exists q s, lo <= q < hi /\ slot_at w id q = Some s /\ in_flight s = true
  | OutOfMemory => True
  | _ => False
  end.

Lemma try_reserve_run {E} (e : E) w :
  exists h, try_reserve e w = Some (Ok tt, set_heap h w) \/
            try_reserve e w = Some (Err e, set_heap h w).
Proof.
  unfold try_reserve. munfold. destruct w as [? ? ? [|[] h] ?]; simpl; eauto.
Qed.

Lemma Frame_allocate_run w :
  exists h, (Frame_allocate w = Some (Err OutOfMemory, set_heap h w)) \/
    exists f rest, pool w = f :: rest /\
      Frame_allocate w = Some (Ok f, take_pool rest f (set_heap h w)).
Proof.
  unfold Frame_allocate. munfold. destruct (pool w) as [|f rest] eqn:Hp.
  - exists (heap w). left. by destruct w.
  - destruct (try_reserve_run OutOfMemory w) as [h [Hr|Hr]]; rewrite Hr; exists h; eauto 6.
Qed.

Section materialize.
Context (txs : list Transaction) (id : FlatId).

Definition mat_post (w : World) (lo hi : Z) (r : result FlatError unit) (w' : World) : Prop :=
  Inv txs w' /\ fills w w' id lo hi /\
  match r with
  | Ok _ => forall q, lo <= q < hi -> exists f, slot_at w' id q = Some (Resident f)
  | Err e => reports w id lo hi e
  end.

Lemma materialize_fresh w page s i fl :
  Inv txs w -> flats w !! id = Some fl -> slots_in w id = Some s ->
  slot_at w id page = None -> i = (spot s page).1 -> 0 <= page < page_count fl ->
  exists r w', (try_reserve OutOfMemory ;; f ← Frame_allocate;
        put_slots id (insert_at i (page, Resident f) s)) w = Some (r, w') /\
  Inv txs w' /\ fills w w' id page (page + 1) /\
  match r with
  | Ok _ => exists f, slot_at w' id page = Some (Resident f) /\
        slots_in w' id = Some (insert_at i (page, Resident f) s)
  | Err e => e = OutOfMemory
  end.
Proof using Type.
  intros HI Hfl Hin Hnone Hi Hp. munfold.
  destruct (try_reserve_run OutOfMemory w) as [h [Hr|Hr]]; rewrite Hr.
  2: { exists (Err OutOfMemory), (set_heap h w). split_and!; [done|by apply set_heap_Inv| |done].
   by apply fills_same. }
  apply (set_heap_Inv _ _ h) in HI. set (w0 := set_heap h w) in *.
  destruct (Frame_allocate_run w0) as [h' [Ha|(f & rest & Hpool & Ha)]]; rewrite Ha.
  { exists (Err OutOfMemory), (set_heap h' w0). split_and!; [done|by apply set_heap_Inv| |done].
  by apply fills_same. }
  apply (set_heap_Inv _ _ h') in HI. set (w1 := set_heap h' w0) in *.
  destruct (insert_slot_run (E:=FlatError) (take_pool rest f w1) id page s i (Resident f) fl)
  as (w2 & Hw2 & Hsw); try done. { apply HI. }
  rewrite Hw2. exists (Ok tt), w2. split; [done|].
  split; [by eapply (fill_Inv txs w1)|]. destruct (Hsw) as [Hs He Hwf Hc Hpl _ Hn].
  assert (Hs' : forall j q, slot_at w2 j q =
  if decide (j = id /\ q = page) then Some (Resident f) else slot_at w j q) by exact Hs.
  assert (Hpw : pool w = f :: rest) by exact Hpool. split.
  - split; simpl in *; try done.
  + intros j q x. rewrite Hs'. case_decide as Hd; [|done]. destruct Hd as [-> ->]. congruence.
  + intros j q H1. rewrite Hs'. case_decide as Hd; [|done]. destruct Hd as [-> ->].
  intros _. split_and!; [done|lia|lia|]. exists f. split; [|done].
  rewrite Hpw. by left.
  + rewrite Hpl, Hpw. by exists [f].
  + intros g c Hg. rewrite Hc. rewrite lookup_insert_ne; [done|]. intros <-.
  rewrite (inv_fresh _ _ HI) in Hg; [done|]. change (f ∈ pool w). rewrite Hpw. by left.
  - exists f. rewrite Hs', decide_True by done. split; [done|].
  rewrite (put_slots_run (E:=FlatError) (take_pool rest f w1) id s) in Hw2 by exact Hin.
  injection Hw2 as <-. unfold slots_in, upd_slots. simpl.
  rewrite list_lookup_alter, decide_True by done.
  change (flats (set_heap _ _)) with (flats w). by rewrite Hfl.
Qed.

Lemma mat_post_same w lo hi r :
  Inv txs w ->
  match r with
  | Ok _ => forall q, lo <= q < hi -> exists f, slot_at w id q = Some (Resident f)
  | Err e => reports w id lo hi e
  end -> mat_post w lo hi r w.
Proof using Type. intros HI Hr. split; [done|]. split; [by apply fills_same|done]. Qed.

Lemma fresh_then (s : Slots) i page (k : M World FlatError unit) w :
  (try_reserve OutOfMemory ;; f ← Frame_allocate;
   put_slots id (insert_at i (page, Resident f) s) ;; k) w =
  ((try_reserve OutOfMemory ;; f ← Frame_allocate;
  put_slots id (insert_at i (page, Resident f) s)) ≫= fun _ => k) w.
Proof using Type.
  munfold. destruct (try_reserve OutOfMemory w) as [[[] w1]|]; [|done..].
  destruct (Frame_allocate w1) as [[[] w2]|]; done.
Qed.

(** One step of the loop at a seat that holds [page] or none. *)
Lemma seat_cases w s page i :
  wf_flats w -> slots_in w id = Some s -> i = (spot s page).1 ->
  match slot_at w id page with
  | Some sl => s !! i = Some (page, sl)
  | None => forall p sl, s !! i = Some (p, sl) -> p <> page
  end.
Proof using Type.
  intros Hwf Hs ->. unfold slot_at. rewrite Hs. simpl.
  destruct (slots_in_Some _ _ _ Hwf Hs) as (fl & Hfl & Hsrc & _).
  pose proof (wf_state_sorted _ _ _ _ Hwf Hfl Hsrc) as Hsort.
  destruct (tmap s !! page) as [sl|] eqn:Hm.
  - by apply spot_lookup.
  - intros p sl Hp ->. apply spot_lookup in Hp; [|done]. congruence.
Qed.

Lemma mat_post_cons w w1 page hi r w' f :
  page < hi -> fills w w1 id page (page + 1) -> slot_at w1 id page = Some (Resident f) ->
  mat_post w1 (page + 1) hi r w' -> mat_post w page hi r w'.
Proof using Type.
  intros Hhi Hf Hs (HI & Hf' & Hr). split; [done|]. split.
  { eapply fills_trans; eapply fills_widen; (done || lia). }
  destruct r as [u|e].
  - intros q Hq. destruct (decide (q = page)) as [->|]; [|apply Hr; lia].
  exists f. by apply (fi_kept _ _ _ _ _ Hf').
  - assert (Hback : forall q x, page + 1 <= q -> slot_at w1 id q = Some x -> slot_at w id q = Some x).
  { intros q x Hq Hx. destruct (slot_at w id q) as [y|] eqn:Hy.
  - apply (fi_kept _ _ _ _ _ Hf) in Hy. congruence.
  - destruct (fi_new _ _ _ _ _ Hf id q Hy) as (_ & ? & _); [congruence|lia]. }
  destruct e; simpl in *; try done.
  + destruct Hr as (q & ? & ?). exists q. split; [lia|]. apply Hback; [lia|done].
  + destruct Hr as (q & x & ? & ? & ?). exists q, x. split_and!; [lia..| |done].
  apply Hback; [lia|done].
Qed.

Lemma seat_next w s page i sl :
  wf_flats w -> slots_in w id = Some s -> s !! i = Some (page, sl) ->
  S i = (spot s (page + 1)).1.
Proof using Type.
  intros Hwf Hs Hi. destruct (slots_in_Some _ _ _ Hwf Hs) as (fl & Hfl & Hsrc & _).
  pose proof (wf_state_sorted _ _ _ _ Hwf Hfl Hsrc) as Hsort.
  by destruct (spot_seat s i page sl Hsort Hi).
Qed.

Lemma materialize_loop_run n w page i s fl :
  Inv txs w -> flats w !! id = Some fl -> slots_in w id = Some s ->
  i = (spot s page).1 -> 0 <= page -> page + Z.of_nat n <= page_count fl ->
  exists r w', materialize_loop id n page i w = Some (r, w') /\
  mat_post w page (page + Z.of_nat n) r w'.
Proof using Type.
  revert w page i s fl. induction n as [|n IH]; intros w page i s fl HI Hfl Hs Hi Hp Hn.
  { exists (Ok tt), w. split; [done|]. apply mat_post_same; [done|]. lia. }
  assert (Hadv : page + 1 + Z.of_nat n = page + Z.of_nat (S n)) by lia.
  pose proof (seat_cases _ _ _ _ (inv_wf _ _ HI) Hs Hi) as Hseat.
  cbn [materialize_loop]. unfold mbind at 1, M_bind at 1.
  rewrite (slots_of_run _ _ _ Hs). destruct (slot_at w id page) as [sl|] eqn:Hsl.
  - rewrite Hseat, Z.eqb_refl. destruct sl as [f| |f x|x m].
  + destruct (IH w (page + 1) (S i) s fl) as (r & w' & Hr & Hpost); [done..| |lia|lia|].
  { by eapply seat_next; [apply HI|..]. }
  exists r, w'. split; [done|]. rewrite <- Hadv.
  eapply mat_post_cons; [lia|by apply fills_same|done..].
  + exists (Err MissingError), w. split; [done|]. apply mat_post_same; [done|].
  exists page. split; [lia|done].
  + exists (Err Busy), w. split; [done|]. apply mat_post_same; [done|].
  eexists page, _. split_and!; [lia..|done|done].
  + exists (Err Busy), w. split; [done|]. apply mat_post_same; [done|].
  eexists page, _. split_and!; [lia..|done|done].
  - destruct (materialize_fresh w page s i fl) as (r & w1 & Hrun & HI1 & Hf & Hr);
  [done..|lia|].
  assert (exists r w', ((try_reserve OutOfMemory ;; f ← Frame_allocate;
  put_slots id (insert_at i (page, Resident f) s)) ≫= fun _ =>
  materialize_loop id n (page + 1) (S i)) w = Some (r, w') /\
  mat_post w page (page + Z.of_nat (S n)) r w') as (r' & w' & Hrun' & Hpost').
  { unfold mbind at 1, M_bind at 1. rewrite Hrun. destruct r as [u|e].
  - destruct Hr as (f & Hfs & Hs1).
  destruct (erase_lookup _ _ _ _ (fi_erase _ _ _ _ _ Hf) Hfl) as (fl1 & Hfl1 & Hpc%erase_pages).
  destruct (IH w1 (page + 1) (S i) (insert_at i (page, Resident f) s) fl1)
  as (r & w' & Hr & Hpost); [done..| |lia|lia|].
  + eapply seat_next; [apply HI1|done|]. subst i. apply lookup_insert_at, spot_le.
  + exists r, w'. split; [done|]. rewrite <- Hadv. eapply mat_post_cons; [lia|done..].
  - subst e. eexists _, w1. split; [done|]. split; [done|].
  split; [eapply fills_widen; [done|lia..]|done]. }
  exists r', w'. split; [|done]. rewrite <- Hrun', <- fresh_then.
  destruct (s !! i) as [[p sl]|] eqn:Hsi; [|done].
  by rewrite (proj2 (Z.eqb_neq p page) (Hseat p sl eq_refl)).
Qed.
End materialize.

Lemma materialize_range_run txs w id index count fl :
  Inv txs w -> flats w !! id = Some fl -> 0 <= index -> 0 <= count ->
  exists r w', materialize_range id index count w = Some (r, w') /\
    Inv txs w' /\ fills w w' id index (index + count) /\
    match r with
    | Ok _ => index + count <= page_count fl /\
        (is_Some (slots_in w id) -> forall q, index <= q < index + count ->
           exists f, slot_at w' id q = Some (Resident f))
    | Err e => (e = OutOfRange /\ w' = w /\ page_count fl < index + count) \/
        (e <> OutOfRange /\ reports w id index (index + count) e)
    end.
Proof.
  intros HI Hfl Hi Hc. pose proof (wf_pages _ (wf_flats_flat _ _ _ (inv_wf _ _ HI) Hfl)) as Hpc.
  assert (Hout : page_count fl < index + count ->
    check_window (page_count fl) index count = Err OutOfRange).
  { intros Hlt. unfold check_window, mbind, result_bind, ok_or, checked_add.
    destruct (checked _) as [e|] eqn:Hx; [|done]. apply checked_Some in Hx as [<- _].
    by rewrite (proj2 (Z.ltb_lt _ _) Hlt). }
  unfold materialize_range, flat_of. munfold. rewrite Hfl.
  destruct (Z.lt_ge_cases (page_count fl) (index + count)) as [Hlt|Hge].
  { rewrite Hout by done. exists (Err OutOfRange), w.
    split_and!; [done..|by apply fills_same|by left]. }
  assert (check_window (page_count fl) index count = Ok (index + count)) as ->.
  { unfold check_window, mbind, result_bind, ok_or, checked_add.
    rewrite (proj2 (checked_Some _ _)) by (split; [done|apply usize_iff; lia]).
    by rewrite (proj2 (Z.ltb_ge _ _) Hge). }
  destruct (source (state fl)) as [s|] eqn:Hsrc.
  - destruct (slot_at_state w id fl s 0 Hfl Hsrc) as [Hs _].
    destruct (materialize_loop_run txs id (Z.to_nat (index + count - index)) w index
      (spot s index).1 s fl) as (r & w' & Hr & HI' & Hf & Hres); [done..|lia|].
    replace (index + Z.of_nat (Z.to_nat (index + count - index))) with (index + count) in * by lia.
    exists r, w'. split_and!; [done..|]. destruct r as [u|e]; [done|]. right. by destruct e.
  - exists (Ok tt), w. split_and!; [done..|by apply fills_same|done|].
    intros [s Hs]. unfold slots_in in Hs. rewrite Hfl in Hs. simpl in Hs. by rewrite Hsrc in Hs.
Qed.

(** ** Residencies *)

Definition res_in (w : World) (id : FlatId) : list ResidencyEntry :=
  match flats w !! id with Some fl => residencies (state fl) | None => [] end.

Definition covers (e : ResidencyEntry) (p : Z) : Prop := res_index e <= p < res_index e + res_count e.

Lemma erase_res w w' id :
  erase <$> flats w' = erase <$> flats w -> res_in w' id = res_in w id.
Proof.
  intros He. apply (f_equal (fun l => l !! id)) in He. rewrite !list_lookup_fmap in He.
  unfold res_in. destruct (flats w' !! id) as [x|], (flats w !! id) as [y|]; simpl in *; try done.
  injection He as He. unfold erase in He.
  destruct x as [? [[] ? ? ?]], y as [? [[] ? ? ?]]; simpl in *; by simplify_eq.
Qed.

Lemma busy_true w id fl index count :
  wf_flats w -> flats w !! id = Some fl -> 0 <= count ->
  busy (state fl) index count = true <->
  exists q s, index <= q < index + count /\ slot_at w id q = Some s /\ in_flight s = true.
Proof.
  intros Hwf Hfl Hc. unfold busy. destruct (source (state fl)) as [s|] eqn:Hsrc.
  - pose proof (wf_state_sorted _ _ _ _ Hwf Hfl Hsrc) as Hsort. rewrite any_true. split.
    + intros ([q x] & Hin & Hx). apply window_elem_of in Hin as [Hin Hr]; [|done|lia].
      exists q, x. rewrite (proj2 (slot_at_state _ _ _ _ q Hfl Hsrc)).
      split_and!; [apply Hr..| |done]. by apply tmap_elem_of.
    + intros (q & x & Hr & Hx & Hf). rewrite (proj2 (slot_at_state _ _ _ _ q Hfl Hsrc)) in Hx.
      exists (q, x). split; [|done]. apply window_elem_of; [done|lia|].
      split; [by apply tmap_elem_of|done].
  - split; [done|]. intros (q & x & _ & Hx & _). unfold slot_at, slots_in in Hx.
    rewrite Hfl in Hx. simpl in Hx. by rewrite Hsrc in Hx.
Qed.

Lemma is_pinned_false st p :
  is_pinned st p 1 = false <-> forall e, e ∈ residencies st -> ~ covers e p.
Proof.
  unfold is_pinned. rewrite any_false, Forall_forall. unfold covers. split.
  - intros Hf e He ?. specialize (Hf e He). apply andb_false_iff in Hf as [?|?]; to_prop; lia.
  - intros Hf e He. specialize (Hf e He). apply andb_false_iff.
    destruct (Z.ltb_spec (res_index e) (p + 1)); [right|by left].
    apply Z.ltb_ge. lia.
Qed.

(** The state a granted residency leaves. *)
Definition resided (w : World) (r : FlatRange) (fl : Flat) : World :=
  let st := state fl in
  set_flats (<[range_flat r := mkFlat (page_count fl)
    (mkState (source st)
       (residencies st ++ [mkResidency (next_residency st) (range_index r) (range_count r)])
       (next_residency st + 1) (transferable st))]> (flats w)) w.

Lemma reside_run w r fl :
  wf_flats w -> flats w !! range_flat r = Some fl ->
  exists h, let inflight := busy (state fl) (range_index r) (range_count r) in
    (reside r w = Some (Err Busy, w) /\ inflight = true) \/
    (reside r w = Some (Err OutOfMemory, set_heap h w) /\ inflight = false) \/
    (reside r w = Some (Ok (mkHold r (next_residency (state fl))), resided (set_heap h w) r fl) /\
     inflight = false /\ next_residency (state fl) + 1 <= usize_MAX).
Proof.
  intros Hwf Hfl. unfold reside, state_of, flat_of. munfold. rewrite Hfl.
  destruct (busy _ _ _) eqn:Hb; [exists (heap w); by left|].
  unfold checked_add. destruct (checked _) as [n|] eqn:Hn; simpl.
  2: { exists (heap w). right. left. by destruct w. }
  apply checked_Some in Hn as [<- Hn]. apply usize_iff in Hn.
  destruct (try_reserve_run OutOfMemory w) as [h [Hr|Hr]]; rewrite Hr; exists h; right.
  - right. unfold put_state, flat_of. munfold. rewrite Hfl. split_and!; [done..|lia].
  - by left.
Qed.

Lemma resided_Inv txs w r fl :
  Inv txs w -> flats w !! range_flat r = Some fl -> wf_range w r ->
  next_residency (state fl) + 1 <= usize_MAX -> Inv txs (resided w r fl).
Proof.
  intros HI Hfl (fl' & ? & ? & ? & ?) Hn. simplify_eq.
  pose proof (wf_flats_flat _ _ _ (inv_wf _ _ HI) Hfl) as [Hp Hs Hr Hids Hnx].
  apply set_state_Inv; [done..|]. split; simpl; [done|exact Hs| | |lia].
  - apply Forall_app. split.
    + eapply Forall_impl; [exact Hr|]. intros e (? & ? & ? & ?). unfold wf_residency. lia.
    + constructor; [|done]. unfold wf_residency. simpl. lia.
  - rewrite fmap_app. apply NoDup_app. split_and!; [done| |by apply NoDup_singleton].
    intros i Hi ->%list_elem_of_singleton. simpl in Hi.
    apply list_elem_of_fmap in Hi as (e & Heq & He). rewrite Forall_forall in Hr.
    destruct (Hr e He) as (? & _). lia.
Qed.

(** The state a dropped residency leaves. *)
Definition released (w : World) (id : FlatId) (fl : Flat) (i : nat) : World :=
  let st := state fl in
  set_flats (<[id := mkFlat (page_count fl)
    (mkState (source st) (remove_at i (residencies st)) (next_residency st) (transferable st))]>
    (flats w)) w.

Lemma release_run {E} w id fl e :
  wf_flats w -> flats w !! id = Some fl -> e ∈ residencies (state fl) ->
  exists i, residencies (state fl) !! i = Some e /\
    release_residency (E:=E) id (res_id e) w = Some (Ok tt, released w id fl i).
Proof.
  intros Hwf Hfl He. unfold release_residency, state_of, flat_of, put_state, flat_of.
  munfold. rewrite Hfl. destruct (position _ _) as [i|] eqn:Hi.
  - apply position_Some in Hi as (x & Hx & Hid & _). exists i. simpl. split; [|by rewrite Hfl].
    to_prop. apply list_elem_of_lookup in He as [j Hj].
    pose proof (wf_ids _ (wf_flats_flat _ _ _ Hwf Hfl)) as Hnd.
    replace i with j; [done|]. eapply (NoDup_lookup _ j i (res_id e)); [exact Hnd|..].
    + by rewrite list_lookup_fmap, Hj.
    + rewrite list_lookup_fmap, Hx. simpl. by f_equal.
  - exfalso. apply position_None in Hi. rewrite Forall_forall in Hi.
    specialize (Hi e He). simpl in Hi. lia.
Qed.

Lemma released_Inv txs w id fl i e :
  Inv txs w -> flats w !! id = Some fl -> residencies (state fl) !! i = Some e ->
  Inv txs (released w id fl i).
Proof.
  intros HI Hfl Hi. pose proof (wf_flats_flat _ _ _ (inv_wf _ _ HI) Hfl) as [Hp Hs Hr Hids Hnx].
  pose proof (remove_at_perm _ _ _ Hi) as Hperm.
  apply set_state_Inv; [done..|]. split; simpl; [done|exact Hs| | |done].
  - rewrite <- Hperm in Hr. by apply Forall_cons in Hr as [_ ?].
  - rewrite <- Hperm in Hids. simpl in Hids. by apply NoDup_cons in Hids as [_ ?].
Qed.

(** ** Importing frames *)

(** Custody words only move from [SOLE] to [ALIASED]. *)
Definition alias_le (c c' : gmap Frame Custody) : Prop :=
  forall f, c' !! f = c !! f \/ (c !! f = Some SOLE /\ c' !! f = Some ALIASED).

#[global] Instance alias_le_preorder : PreOrder alias_le.
Proof.
  split; [by left|]. intros c1 c2 c3 H1 H2 f.
  destruct (H1 f) as [E1|[? E1]], (H2 f) as [E2|[? E2]]; rewrite ?E1, ?E2 in *; auto.
Qed.

Lemma alias_Inv txs w c :
  Inv txs w -> alias_le (custody w) c -> Inv txs (set_custody c w).
Proof.
  intros HI Hc. split; simpl; try apply HI.
  - intros f Hf%(inv_fresh _ _ HI). destruct (Hc f) as [->|[? _]]; [done|congruence].
  - intros i p f x Hm. destruct (inv_moving _ _ HI i p f x Hm) as [Hf ?]. split; [|done].
    destruct (Hc f) as [->|[? _]]; [done|congruence].
  - intros i p f Hh%(inv_live _ _ HI). destruct (Hc f) as [->|[_ ->]]; eauto.
  - intros i p j q f H1 H2. destruct (Hc f) as [->|[_ ->]]; [by eapply (inv_unique _ _ HI)|done].
Qed.

Lemma set_custody_twice c c' w : set_custody c (set_custody c' w) = set_custody c w.
Proof. done. Qed.

Lemma register_run fs w :
  (forall f, f ∈ fs -> is_Some (custody w !! f)) ->
  exists r c, register fs w = Some (r, set_custody c w) /\ alias_le (custody w) c /\
    match r with
    | Ok _ => forall f, f ∈ fs -> c !! f = Some ALIASED
    | Err e => e = Busy /\ exists f, f ∈ fs /\ custody w !! f = Some IN_TRANSIT
    end.
Proof.
  revert w. induction fs as [|f fs IH]; intros w Hlive.
  { exists (Ok tt), (custody w). split_and!; [by destruct w|done|set_solver]. }
  destruct (Hlive f) as [c Hc]; [by left|].
  assert (Hgo : forall c', custody_register f w = Some (Ok tt, set_custody c' w) ->
    alias_le (custody w) c' -> c' !! f = Some ALIASED ->
    exists r c, register (f :: fs) w = Some (r, set_custody c w) /\ alias_le (custody w) c /\
    match r with
    | Ok _ => forall g, g ∈ f :: fs -> c !! g = Some ALIASED
    | Err e => e = Busy /\ exists g, g ∈ f :: fs /\ custody w !! g = Some IN_TRANSIT
    end).
  { intros c' Hreg Hle Hf. destruct (IH (set_custody c' w)) as (r & c2 & Hr & Hle2 & Hres).
    { intros g Hg. simpl. destruct (Hle g) as [->|[_ ->]]; [|eauto]. apply Hlive. by right. }
    exists r, c2. cbn [register]. unfold mbind, M_bind. rewrite Hreg, Hr. simpl in *.
    split; [done|]. split; [by transitivity c'|]. destruct r as [u|e].
    - intros g [->|Hg]%elem_of_cons; [|auto].
      destruct (Hle2 f) as [->|[_ ->]]; done.
    - destruct Hres as (-> & g & Hg & Ht). split; [done|]. exists g. split; [by right|].
      destruct (Hle g) as [<-|[_ ?]]; [done|congruence]. }
  pose proof Hc as Hload. unfold custody_register, custody_load, custody_store in Hgo.
  destruct c.
  - apply (Hgo (<[f := ALIASED]> (custody w))).
    + munfold. by rewrite Hc.
    + intros g. destruct (decide (f = g)) as [<-|].
      * rewrite lookup_insert_eq. by right.
      * rewrite lookup_insert_ne by done. by left.
    + apply lookup_insert_eq.
  - apply (Hgo (custody w)); [|done|done]. munfold. rewrite Hc. by destruct w.
  - exists (Err Busy), (custody w). split_and!; [|done|done|].
    + simpl. unfold custody_register, custody_load. munfold. rewrite Hc. by destruct w.
    + exists f. split; [by left|done].
Qed.

Definition imported (frames : list (Z * Frame)) : Slots :=
  (fun x => (x.1, Resident x.2)) <$> frames.

Lemma import_slots_ok pages prev frames s :
  import_slots pages prev frames = Ok s -> Forall (fun x => 0 <= x.1) frames ->
  s = imported frames /\ sorted s /\ Forall (fun x => 0 <= x.1 < pages) s /\
  forall p, prev = Some p -> Forall (fun x => p < x.1) s.
Proof.
  revert prev s. induction frames as [|[page f] rest IH]; intros prev s; simpl.
  { intros [= <-] _. split_and!; try done; constructor. }
  destruct (_ || _) eqn:Hb; [done|]. unfold mbind, result_bind.
  destruct (import_slots pages (Some page) rest) as [s'|] eqn:Hs; [|done].
  intros [= <-] [Hp Hrest]%Forall_cons. simpl in Hp.
  destruct (IH _ _ Hs Hrest) as (-> & Hsort & Hin & Hgt). specialize (Hgt page eq_refl).
  to_prop. split_and!; [done| | |].
  - by constructor.
  - constructor; [simpl; lia|done].
  - intros p ->. to_prop. constructor; [simpl; lia|]. eapply Forall_impl; [exact Hgt|].
    intros x. simpl. lia.
Qed.

Lemma append_import_Inv txs w pages frames :
  Inv txs w -> 0 < pages <= usize_MAX -> sorted (imported frames) ->
  Forall (fun x => 0 <= x.1 < pages) (imported frames) ->
  (forall f, f ∈ frames.*2 -> custody w !! f = Some ALIASED) ->
  Inv txs (set_flats (flats w ++ [mkFlat pages (FlatState_new (Managed (imported frames)) false)]) w).
Proof.
  intros HI Hp Hsort Hin Hal. set (fl := mkFlat _ _). set (w' := set_flats _ w).
  assert (Hs : forall j q, slot_at w' j q =
    if decide (j = length (flats w)) then tmap (imported frames) !! q else slot_at w j q).
  { intros j q. unfold w'. by rewrite append_slot. }
  assert (Hnew : forall q s, tmap (imported frames) !! q = Some s ->
    exists f, s = Resident f /\ custody w !! f = Some ALIASED).
  { intros q s Hq%tmap_elem_of; [|done]. apply list_elem_of_fmap in Hq as ([k f] & [= -> ->] & Hf).
    exists f. split; [done|]. apply Hal. by apply (list_elem_of_fmap_2 snd _ _ Hf). }
  assert (Hold : forall j q s, slot_at w j q = Some s -> slot_at w' j q = Some s).
  { intros j q s Hj. rewrite Hs. case_decide; [|done]. subst. by rewrite slot_at_new in Hj. }
  assert (Hinv : forall j q s, slot_at w' j q = Some s ->
    slot_at w j q = Some s \/ exists f, s = Resident f /\ custody w !! f = Some ALIASED).
  { intros j q s. rewrite Hs. case_decide; eauto. }
  assert (Hholds : forall i p f, holds w' i p f -> holds w i p f \/ custody w !! f = Some ALIASED).
  { intros i p f [H|[x H]]; apply Hinv in H as [H|(g & ? & ?)]; simplify_eq; unfold holds; eauto. }
  split; try apply HI; simpl.
  - unfold wf_flats. simpl. apply Forall_app. split; [apply HI|]. constructor; [|done].
    apply wf_new; [done|]. by intros s [= <-].
  - intros t Ht. destruct (inv_source _ _ HI t Ht) as [f Hf]. eauto.
  - intros t Ht. destruct (inv_target _ _ HI t Ht) as [m Hm]. eauto.
  - intros i p f x [H|(g & ? & _)]%Hinv; [|done]. by apply (inv_moving _ _ HI).
  - intros i p x m [H|(g & ? & _)]%Hinv; [|done]. by eapply (inv_reserved _ _ HI).
  - intros i p f [H|H]%Hholds; [by apply (inv_live _ _ HI) in H|eauto].
  - intros i p j q f [H1|?]%Hholds [H2|?]%Hholds ?; try done. by eapply (inv_unique _ _ HI).
Qed.
