(* ===== verification/FlatSystem.v ===== *)
(** * Interleavings of sources, residencies and transfers

    Every critical section of the code is one step of a system whose
    configuration is the shared state together with the guards that are
    alive: the transactions in flight and the residencies held.  The
    theorems hold in every configuration reachable by any interleaving.
    [from_frames] registers frames one atomic word at a time, and
    [FlatRange::materialize] takes the lock twice: their parts ([Register],
    [Reside], [MaterializeRange], [Release]) are steps of their own, next to
    the whole calls. *)

From S2P Require Import Prelude.
From S2P Require Import Table.
From S2P Require Import Flat.
From S2P Require Import Transaction.
From S2P Require Import FlatInv.
From S2P Require Import FlatSteps.

Open Scope Z_scope.

Create HintDb flat.

(** ** The system *)

Record Conf := mkConf { txs : list Transaction; held : list Residency; world : World }.

Inductive op :=
| Acquire (pages : Z)
| FromFrames (pages : Z) (frames : list (Z * Frame))
| FromRegion (start size : Z)
| Register (f : Frame)
| MarkUntransferable (id : FlatId)
| Reside (r : FlatRange)
| Release (n : nat)
| MaterializeRange (r : FlatRange)
| Materialize (r : FlatRange)
| Claim (src : FlatRange) (sp : Z) (tgt : FlatRange) (tp : Z) (prepare : result TransferError unit)
| Commit (n : nat)
| Rollback (n : nat).

(** Running [m] on the world and continuing with its result. *)
Definition run {E A} (m : M World E A) (c : Conf) (k : A -> World -> Conf) : option Conf :=
  match m (world c) with
  | Some (Ok a, w) => Some (k a w)
  | Some (Err _, w) => Some (mkConf (txs c) (held c) w)
  | None => None
  end.

Definition exec (o : op) (c : Conf) : option Conf :=
  let keep {A} (_ : A) w := mkConf (txs c) (held c) w in
  match o with
  | Acquire pages => run (acquire pages) c keep
  | FromFrames pages frames => run (from_frames pages frames) c keep
  | FromRegion start size => run (r ← BorrowedRegion_new start size; from_region r) c keep
  | Register f => run (custody_register f) c keep
  | MaterializeRange r =>
      run (materialize_range (range_flat r) (range_index r) (range_count r)) c keep
  | MarkUntransferable id => run (mark_untransferable (E:=FlatError) id) c keep
  | Reside r => run (reside r) c (fun h w => mkConf (txs c) (h :: held c) w)
  | Release n =>
      h ← held c !! n;
      run (release_residency (E:=FlatError) (range_flat (hold_range h)) (hold_id h)) c
        (fun _ w => mkConf (txs c) (remove_at n (held c)) w)
  | Materialize r => run (FlatRange_materialize r) c (fun h w => mkConf (txs c) (h :: held c) w)
  | Claim src sp tgt tp prepare =>
      run (claim src sp tgt tp prepare) c (fun t w => mkConf (t.1 :: txs c) (held c) w)
  | Commit n =>
      t ← txs c !! n;
      run (commit (E:=TransferError) t) c (fun _ w => mkConf (remove_at n (txs c)) (held c) w)
  | Rollback n =>
      t ← txs c !! n;
      run (rollback (E:=TransferError) t) c (fun _ w => mkConf (remove_at n (txs c)) (held c) w)
  end.

(** What the types of the arguments guarantee: page counts are non-zero,
    ranges lie in their source, imported frames are alive, and a guard is
    used while its owner holds it.  [claim] asserts that the pages belong to
    the ranges. *)
Definition enabled (o : op) (c : Conf) : Prop :=
  let w := world c in
  match o with
  | Acquire pages => 0 < pages <= usize_MAX
  | FromFrames pages frames => 0 < pages <= usize_MAX /\
      Forall (fun x => 0 <= x.1) frames /\ Forall (fun x => is_Some (custody w !! x.2)) frames
  | FromRegion start size => usize start /\ usize size
  | Register f => is_Some (custody w !! f)
  | MarkUntransferable id => is_Some (flats w !! id)
  | Reside r | MaterializeRange r | Materialize r => wf_range w r
  | Release n => is_Some (held c !! n)
  | Claim src sp tgt tp _ =>
      wf_range w src /\ wf_range w tgt /\ owns src sp = true /\ owns tgt tp = true
  | Commit n | Rollback n => is_Some (txs c !! n)
  end.

Definition step (o : op) (c c' : Conf) : Prop := enabled o c /\ exec o c = Some c'.

Inductive reach : Conf -> Conf -> Prop :=
| reach_refl c : reach c c
| reach_step o c1 c2 c3 : reach c1 c2 -> step o c2 c3 -> reach c1 c3.

(** The kernel starts without sources. *)
Definition boot (frames : list Frame) (heap : list bool) : Conf :=
  mkConf [] [] (mkWorld [] ∅ frames heap 1).

(** ** The invariant of a configuration *)

Definition entry (h : Residency) : ResidencyEntry :=
  mkResidency (hold_id h) (range_index (hold_range h)) (range_count (hold_range h)).

Record CInv (c : Conf) : Prop := {
  ci_inv : Inv (txs c) (world c);
  ci_held : forall h, h ∈ held c ->
    is_Some (flats (world c) !! range_flat (hold_range h)) /\
    entry h ∈ res_in (world c) (range_flat (hold_range h));
  ci_keys : NoDup ((fun h => (range_flat (hold_range h), hold_id h)) <$> held c);
  ci_guard : forall i e p s, e ∈ res_in (world c) i -> covers e p ->
    slot_at (world c) i p = Some s -> in_flight s = false
}.

(** The state may have moved its heap script and its transaction counter. *)
Definition quiet (w w' : World) : Prop :=
  exists h n, next_tx w <= n /\ w' = set_heap h (set_next_tx n w).

#[global] Instance quiet_preorder : PreOrder quiet.
Proof.
  split.
  - intros w. exists (heap w), (next_tx w). split; [lia|by destruct w].
  - intros w1 w2 w3 (h & n & ? & ->) (h' & n' & ? & ->). exists h', n'. simpl in *. split; [lia|done].
Qed.

Lemma quiet_heap w h : quiet w (set_heap h w).
Proof. exists h, (next_tx w). split; [lia|done]. Qed.

Lemma quiet_Inv l w w' : Inv l w -> quiet w w' -> Inv l w'.
Proof. intros HI (h & n & ? & ->). by apply set_heap_Inv, set_next_Inv. Qed.

Lemma quiet_same w w' : quiet w w' ->
  flats w' = flats w /\ custody w' = custody w /\ pool w' = pool w.
Proof. by intros (h & n & _ & ->). Qed.

(** Code that does not panic, and is [quiet] when it fails. *)
Definition tame {E A} (m : M World E A) (w : World) : Prop :=
  m w <> None /\ forall e w', m w = Some (Err e, w') -> quiet w w'.

Section tame.
Context {E A B : Type}.

Lemma tame_bind (m : M World E A) (f : A -> M World E B) w :
  tame m w -> (forall a w1, m w = Some (Ok a, w1) -> quiet w w1 /\ tame (f a) w1) ->
  tame (m ≫= f) w.
Proof.
  intros [Hm He] Hf. split.
  - apply bind_safe. split; [done|]. intros a s1 Hr. by apply Hf.
  - intros e w' [Hr|(a & w1 & Hr & Hr')]%bind_err; [eauto|].
  destruct (Hf a w1 Hr) as [? [_ Ht]]. transitivity w1; eauto.
Qed.

Lemma tame_last (m : M World E A) (f : A -> M World E B) w :
  tame m w -> (forall a w1, m w = Some (Ok a, w1) -> exists b w2, f a w1 = Some (Ok b, w2)) ->
  tame (m ≫= f) w.
Proof.
  intros [Hm He] Hf. split.
  - apply bind_safe. split; [done|]. intros a s1 Hr. destruct (Hf a s1 Hr) as (? & ? & ->). done.
  - intros e w' [Hr|(a & w1 & Hr & Hr')]%bind_err; [eauto|].
  destruct (Hf a w1 Hr) as (? & ? & ?). congruence.
Qed.

Lemma tame_still (m : M World E A) w :
  (exists r, m w = Some (r, w)) -> tame m w.
Proof. intros [r Hr]. split; [by rewrite Hr|]. intros e w'. rewrite Hr. intros [= _ <-]. reflexivity. Qed.
End tame.

(** ** Claiming never panics, and a failed claim changes nothing *)

Lemma source_ready_tame w id fl page :
  wf_flats w -> flats w !! id = Some fl -> tame (source_ready (state fl) page) w.
Proof.
  intros Hwf Hfl. apply tame_still. unfold source_ready, plain_origin. munfold.
  destruct (transferable (state fl)); simpl; [|eauto].
  destruct (pinned (state fl) page); [eauto|].
  destruct (source (state fl)) as [s|] eqn:Hsrc; [|eauto].
  pose proof (wf_state_sorted _ _ _ _ Hwf Hfl Hsrc) as Hsort.
  destruct (spot s page) as [i []] eqn:Hsp; simpl; [|eauto].
  destruct (spot_true s page i Hsort Hsp) as (v & Hi & _). rewrite Hi. destruct v; eauto.
Qed.

Lemma target_ready_tame w id fl page :
  wf_flats w -> flats w !! id = Some fl -> tame (target_ready (state fl) page) w.
Proof.
  intros Hwf Hfl. apply tame_still. unfold target_ready, plain_origin. munfold.
  destruct (transferable (state fl)); simpl; [|eauto].
  destruct (pinned (state fl) page); [eauto|].
  destruct (source (state fl)) as [s|] eqn:Hsrc; [|eauto].
  pose proof (wf_state_sorted _ _ _ _ Hwf Hfl Hsrc) as Hsort.
  destruct (spot s page) as [i []] eqn:Hsp; simpl; [|eauto].
  destruct (spot_true s page i Hsort Hsp) as (v & Hi & _). rewrite Hi. destruct v; eauto.
Qed.

Lemma next_transaction_tame w : tame next_transaction w.
Proof.
  unfold next_transaction, next_id. split.
  - munfold. by destruct (negb _ && _).
  - intros e w'. munfold. destruct (negb _ && _); intros [= _ <-]. reflexivity.
Qed.

Lemma reserve_tame st page w : tame (reserve st page) w.
Proof.
  split.
  - unfold reserve. destruct (source st); [|done]. case_match; [done|].
    destruct (try_reserve_run TOutOfMemory w) as [h [-> | ->]]; done.
  - intros e w' [h ->]%reserve_inv. apply quiet_heap.
Qed.

Lemma claim_source_tame w id page tx f :
  wf_flats w -> slot_at w id page = Some (Resident f) -> is_Some (custody w !! f) ->
  tame (claim_source id page tx) w.
Proof.
  intros Hwf Hs [c Hc]. destruct (slot_at_Some _ _ _ _ Hwf Hs) as (s & i & Hin & _ & Hsp & Hi).
  unfold tame, claim_source. pose proof (slots_of_run (E:=TransferError) w id s Hin) as Hrun.
  unfold custody_enter, custody_is_aliased, custody_load, custody_store. mrun.
  case_bool_decide; simpl.
  - rewrite (put_slots_run _ id s) by exact Hin. by split.
  - rewrite Hc. split; [done|]. intros e w' [= _ <-]. reflexivity.
Qed.

Lemma claim_target_runs w id page tx m :
  wf_flats w -> is_Some (slots_in w id) -> slot_at w id page = (if (m : bool) then Some Missing else None) ->
  exists w', claim_target id page tx m w = Some (Ok tt, w').
Proof.
  intros Hwf [s Hin] Hs. unfold claim_target.
  pose proof (slots_of_run (E:=TransferError) w id s Hin) as Hrun. destruct m.
  - destruct (slot_at_Some _ _ _ _ Hwf Hs) as (s' & i & Hin' & _ & Hsp & Hi). simplify_eq.
    mrun. rewrite (put_slots_run _ id s) by exact Hin. eauto.
  - destruct (slot_at_None _ _ _ _ Hwf Hin Hs) as (_ & _ & i & Hsp).
    mrun. rewrite (put_slots_run _ id s) by exact Hin. eauto.
Qed.

Lemma state_of_run {E} w id fl :
  flats w !! id = Some fl -> state_of (E:=E) id w = Some (Ok (state fl), w).
Proof. intros Hfl. unfold state_of, flat_of. munfold. by rewrite Hfl. Qed.

Lemma slots_in_erase w w' id :
  erase <$> flats w' = erase <$> flats w -> is_Some (slots_in w id) -> is_Some (slots_in w' id).
Proof.
  intros He [s Hs]. apply bind_Some in Hs as (fl & Hfl & Hsrc).
  destruct (erase_lookup _ _ _ _ He Hfl) as (fl' & Hfl' & Hee).
  unfold slots_in. rewrite Hfl'. simpl. unfold erase in Hee.
  destruct fl as [? [[] ? ? ?]], fl' as [? [[] ? ? ?]]; simpl in *; by simplify_eq.
Qed.

(** The two writes at the end of [claim]. *)
Lemma claim_tail_tame {C} l w src sp tgt tp id m (t : Transaction * C) f :
  Inv l w -> slot_at w src sp = Some (Resident f) -> is_Some (slots_in w tgt) ->
  slot_at w tgt tp = (if (m : bool) then Some Missing else None) ->
  ~ (src = tgt /\ sp = tp) ->
  tame (claim_source src sp id ;; claim_target tgt tp id m ;; mret t) w.
Proof.
  intros HI Hs Hin Ht Hne. apply tame_last.
  - eapply claim_source_tame; [apply HI|done|]. apply (inv_live _ _ HI src sp). by left.
  - intros [] w1 H1. apply claim_source_inv in H1 as (g & _ & _ & [S1 E1 W1 _ _ _ _]); [|apply HI].
    destruct (claim_target_runs w1 tgt tp id m) as [w2 H2]; [done| | |].
    + by eapply slots_in_erase.
    + rewrite S1. rewrite decide_False by naive_solver. done.
    + exists t, w2. unfold mbind, M_bind. by rewrite H2.
Qed.

Lemma claim_tame {C} l w src sp tgt tp (prep : result TransferError C) :
  Inv l w -> wf_range w src -> wf_range w tgt -> owns src sp = true -> owns tgt tp = true ->
  tame (claim src sp tgt tp prep) w.
Proof.
  intros HI (fs & Hfs & _) (ft & Hft & _) Hos Hot. unfold claim.
  apply tame_bind; [apply tame_still; rewrite Hos; eauto|].
  rewrite Hos, Hot. intros [] w1 [= <-]. split; [reflexivity|].
  apply tame_bind; [apply tame_still; eauto|]. intros [] w1 [= <-]. split; [reflexivity|].
  destruct (bool_decide _ && _) eqn:Hsame; [apply tame_still; unfold fail; eauto|].
  apply tame_bind; [apply next_transaction_tame|].
  intros id w1 (-> & _ & ->)%next_transaction_inv. split.
  { exists (heap w), (next_tx w + 1). split; [lia|by destruct w]. }
  set (w1 := set_next_tx _ w).
  assert (HI1 : Inv l w1) by (apply set_next_Inv; [done|lia]).
  change (flats w) with (flats w1) in Hfs, Hft. clearbody w1.
  apply tame_bind; [apply tame_still; rewrite (state_of_run _ _ _ Hfs); eauto|].
  intros st w2 (-> & fs' & ? & <-)%state_of_inv. simplify_eq. split; [reflexivity|].
  apply tame_bind; [eapply source_ready_tame; [apply HI1|done]|]. intros [] w2 Hsr.
  eapply source_ready_inv in Hsr as (-> & _ & _ & f & Hf); [|apply HI1|done]. split; [reflexivity|].
  apply tame_bind; [apply tame_still; rewrite (state_of_run _ _ _ Hft); eauto|].
  intros st w2 (-> & ft' & ? & <-)%state_of_inv. simplify_eq. split; [reflexivity|].
  apply tame_bind; [eapply target_ready_tame; [apply HI1|done]|]. intros m w2 Htr.
  eapply target_ready_inv in Htr as (-> & _ & _ & Hin & Hm); [|apply HI1|done]. split; [reflexivity|].
  apply tame_bind; [apply reserve_tame|]. intros [] w2 [h ->]%reserve_inv. split; [apply quiet_heap|].
  apply tame_bind; [apply tame_still; unfold lift; eauto|]. intros c w2 [= _ <-]. split; [reflexivity|].
  eapply claim_tail_tame; [by apply set_heap_Inv|done..|].
  intros [Heq ->]. rewrite bool_decide_true in Hsame by done. simpl in Hsame. lia.
Qed.

(** ** Preservation of the invariant *)

Lemma CInv_frame c l w' :
  CInv c -> Inv l w' -> (forall i, res_in w' i = res_in (world c) i) ->
  (forall i, is_Some (flats (world c) !! i) -> is_Some (flats w' !! i)) ->
  (forall i p s, slot_at w' i p = Some s -> in_flight s = true ->
     slot_at (world c) i p = Some s \/ forall e, e ∈ res_in (world c) i -> ~ covers e p) ->
  CInv (mkConf l (held c) w').
Proof.
  intros HC HI Hr Hf Hs. split; simpl; [done| |apply HC|].
  - intros h Hh. destruct (ci_held _ HC h Hh). rewrite Hr. auto.
  - intros i e p s He Hc Hsl. rewrite Hr in He. destruct (in_flight s) eqn:Hfl; [|done].
    destruct (Hs i p s Hsl Hfl) as [Hold|Hun]; [|by destruct (Hun e He)].
    rewrite <- Hfl. by eapply (ci_guard _ HC).
Qed.

Lemma erase_dom w w' i :
  erase <$> flats w' = erase <$> flats w -> is_Some (flats w !! i) -> is_Some (flats w' !! i).
Proof. intros He [fl Hfl]. destruct (erase_lookup _ _ _ _ He Hfl) as (fl' & ? & _). eauto. Qed.

Lemma CInv_erase c l w' :
  CInv c -> Inv l w' -> erase <$> flats w' = erase <$> flats (world c) ->
  (forall i p s, slot_at w' i p = Some s -> in_flight s = true ->
     slot_at (world c) i p = Some s \/ forall e, e ∈ res_in (world c) i -> ~ covers e p) ->
  CInv (mkConf l (held c) w').
Proof.
  intros HC HI He Hs. apply CInv_frame; [done..| | |done].
  - intros i. by apply erase_res.
  - intros i. by apply erase_dom.
Qed.

Lemma CInv_flats c w' :
  CInv c -> Inv (txs c) w' -> flats w' = flats (world c) -> CInv (mkConf (txs c) (held c) w').
Proof.
  intros HC HI Hf. apply CInv_erase; [done..|by rewrite Hf|]. intros i p s Hs _. left.
  unfold slot_at, slots_in in *. by rewrite <- Hf.
Qed.

Lemma CInv_quiet c w' : CInv c -> quiet (world c) w' -> CInv (mkConf (txs c) (held c) w').
Proof.
  intros HC Hq. apply CInv_flats; [done|by eapply quiet_Inv; [apply HC|]|]. by apply quiet_same.
Qed.

Lemma set_state_res w id fl st i :
  flats w !! id = Some fl ->
  res_in (set_flats (<[id := mkFlat (page_count fl) st]> (flats w)) w) i =
  if decide (i = id) then residencies st else res_in w i.
Proof.
  intros Hfl. unfold res_in. simpl. pose proof (lookup_lt_Some _ _ _ Hfl).
  case_decide; [subst i|].
  - by rewrite list_lookup_insert_eq.
  - by rewrite list_lookup_insert_ne.
Qed.

Lemma res_in_Some w id fl : flats w !! id = Some fl -> res_in w id = residencies (state fl).
Proof. intros Hfl. unfold res_in. by rewrite Hfl. Qed.

Lemma insert_dom (w : World) id (fl : Flat) i :
  is_Some (flats w !! i) -> is_Some (<[id := fl]> (flats w) !! i).
Proof.
  intros Hi. apply lookup_lt_is_Some. rewrite length_insert. by apply lookup_lt_is_Some.
Qed.

Lemma CInv_resided c r fl :
  CInv c -> flats (world c) !! range_flat r = Some fl -> wf_range (world c) r ->
  busy (state fl) (range_index r) (range_count r) = false ->
  next_residency (state fl) + 1 <= usize_MAX ->
  CInv (mkConf (txs c) (mkHold r (next_residency (state fl)) :: held c) (resided (world c) r fl)).
Proof.
  intros HC Hfl Hwr Hb Hn. pose proof (ci_inv _ HC) as HI.
  pose proof (wf_flats_flat _ _ _ (inv_wf _ _ HI) Hfl) as [_ _ Hres _ _].
  rewrite Forall_forall in Hres.
  assert (Hri : forall i e, e ∈ res_in (resided (world c) r fl) i <->
    e ∈ res_in (world c) i \/ (i = range_flat r /\
      e = mkResidency (next_residency (state fl)) (range_index r) (range_count r))).
  { intros i e. unfold resided. rewrite set_state_res by done. case_decide; simpl.
    - subst i. rewrite elem_of_app, list_elem_of_singleton. rewrite (res_in_Some _ _ _ Hfl). naive_solver.
    - naive_solver. }
  split; simpl.
  - by apply resided_Inv.
  - intros h [->|Hh]%elem_of_cons; simpl.
    + split; [apply insert_dom; eauto|]. apply Hri. right. done.
    + destruct (ci_held _ HC h Hh). split; [by apply insert_dom|]. apply Hri. by left.
  - constructor; [|apply HC]. intros (h & Heq & Hh)%list_elem_of_fmap. simpl in Heq.
    injection Heq as Hf Hid. destruct (ci_held _ HC h Hh) as [_ He]. rewrite <- Hf in He.
    rewrite (res_in_Some _ _ _ Hfl) in He. destruct (Hres _ He) as [? _]. simpl in *. lia.
  - intros i e p s He Hcov Hs. unfold resided in Hs. rewrite set_state_slot in Hs by done.
    apply Hri in He as [He|[-> ->]]; [by eapply (ci_guard _ HC)|].
    unfold covers in Hcov. simpl in Hcov. destruct (in_flight s) eqn:Hfs; [|done].
    rewrite <- Hb. destruct Hwr as (? & _ & _ & Hc & _). symmetry.
    apply (busy_true (world c) (range_flat r)); [apply HI|done|lia|]. eauto.
Qed.

Lemma CInv_released c n h fl i :
  CInv c -> held c !! n = Some h -> flats (world c) !! range_flat (hold_range h) = Some fl ->
  residencies (state fl) !! i = Some (entry h) ->
  CInv (mkConf (txs c) (remove_at n (held c)) (released (world c) (range_flat (hold_range h)) fl i)).
Proof.
  intros HC Hn Hfl Hi. pose proof (ci_inv _ HC) as HI.
  pose proof (remove_at_perm _ _ _ Hn) as Hp. pose proof (remove_at_perm _ _ _ Hi) as Hpi.
  set (id := range_flat (hold_range h)) in *.
  assert (Hsub : forall j e, e ∈ res_in (released (world c) id fl i) j -> e ∈ res_in (world c) j).
  { intros j e. unfold released. rewrite set_state_res by done. case_decide; [subst j|done]. simpl.
    intros He. rewrite (res_in_Some _ _ _ Hfl), <- Hpi. by right. }
  pose proof (ci_keys _ HC) as Hkeys. rewrite <- Hp in Hkeys. simpl in Hkeys.
  apply NoDup_cons in Hkeys as [Hkey Hkeys].
  split; simpl.
  - by eapply released_Inv.
  - intros h' Hh'. destruct (ci_held _ HC h') as [? He]; [rewrite <- Hp; by right|].
    split; [by apply insert_dom|]. unfold released. rewrite set_state_res by done.
    case_decide as Hid; [|done]. simpl. rewrite Hid, (res_in_Some _ _ _ Hfl), <- Hpi in He.
    apply elem_of_cons in He as [He|He]; [|done]. exfalso. apply Hkey.
    apply list_elem_of_fmap. exists h'. split; [|done]. unfold entry in He.
    injection He as Hhid _ _. unfold id in Hid. congruence.
  - done.
  - intros j e p s He%Hsub Hcov Hs. unfold released in Hs. rewrite set_state_slot in Hs by done.
    by eapply (ci_guard _ HC).
Qed.

Lemma fills_CInv c w' id lo hi :
  CInv c -> Inv (txs c) w' -> fills (world c) w' id lo hi -> CInv (mkConf (txs c) (held c) w').
Proof.
  intros HC HI Hf. apply CInv_erase; [done..|apply Hf|]. intros i p s Hs Hfl.
  destruct (slot_at (world c) i p) as [x|] eqn:Hx.
  - apply (fi_kept _ _ _ _ _ Hf) in Hx. left. congruence.
  - destruct (fi_new _ _ _ _ _ Hf i p Hx) as (_ & _ & f & _ & ?); [congruence|].
    by simplify_eq.
Qed.

Lemma append_CInv c w' fl :
  CInv c -> Inv (txs c) w' -> flats w' = flats (world c) ++ [fl] ->
  residencies (state fl) = [] ->
  (forall s p x, source (state fl) = Managed s -> tmap s !! p = Some x -> in_flight x = false) ->
  CInv (mkConf (txs c) (held c) w').
Proof.
  intros HC HI Hf Hr Hs.
  assert (Hs' : forall j q, slot_at w' j q =
    slot_at (set_flats (flats (world c) ++ [fl]) (world c)) j q).
  { intros j q. unfold slot_at, slots_in. simpl. by rewrite Hf. }
  apply CInv_frame; [done..| | |].
  - intros i. unfold res_in. rewrite Hf. destruct (decide (i < length (flats (world c))))%nat.
    + by rewrite lookup_app_l.
    + rewrite lookup_app_r by lia. rewrite (proj2 (lookup_ge_None (flats (world c)) i)) by lia.
      destruct (i - length _)%nat; simpl; [by rewrite Hr|done].
  - intros i [x Hi]. rewrite Hf. rewrite lookup_app_l by (by eapply lookup_lt_Some). eauto.
  - intros i p s Hi Hfl. left. rewrite Hs', append_slot in Hi. case_decide; [|done].
    destruct (source (state fl)) as [sl|] eqn:Hsrc; [|done].
    rewrite (Hs sl p s) in Hfl by done. done.
Qed.

(** Slots stay as they are, and so do aliased frames. *)
Record kept (w w' : World) : Prop := {
  ke_slot : forall i p s, slot_at w i p = Some s -> slot_at w' i p = Some s;
  ke_alias : forall f, custody w !! f = Some ALIASED -> custody w' !! f = Some ALIASED
}.

(** The same for the slots a residency covers. *)
Record gentle (w w' : World) : Prop := {
  ge_slot : forall i p s e, e ∈ res_in w i -> covers e p ->
    slot_at w i p = Some s -> slot_at w' i p = Some s;
  ge_alias : forall f, custody w !! f = Some ALIASED -> custody w' !! f = Some ALIASED
}.

#[global] Instance kept_preorder : PreOrder kept.
Proof. split; [by split|]. intros w1 w2 w3 [] []. split; eauto. Qed.

Lemma kept_gentle w w' : kept w w' -> gentle w w'.
Proof. intros []. split; eauto. Qed.

Lemma kept_flats w w' : flats w' = flats w -> alias_le (custody w) (custody w') -> kept w w'.
Proof.
  intros Hf Hc. split.
  - intros i p s. unfold slot_at, slots_in. by rewrite Hf.
  - intros f Hf'. destruct (Hc f) as [->|[_ ->]]; done.
Qed.

Lemma kept_quiet w w' : quiet w w' -> kept w w'.
Proof. intros (? & ? & _ & ->). by apply kept_flats. Qed.

Lemma kept_append w w' fl :
  flats w' = flats w ++ [fl] -> alias_le (custody w) (custody w') -> kept w w'.
Proof.
  intros Hf Hc. transitivity (set_flats (flats w') w).
  - split; [|done]. intros i p s Hs. rewrite Hf, append_slot. case_decide; [|done].
    subst. by rewrite slot_at_new in Hs.
  - by apply kept_flats.
Qed.

Lemma kept_state w id fl st :
  flats w !! id = Some fl -> source st = source (state fl) ->
  kept w (set_flats (<[id := mkFlat (page_count fl) st]> (flats w)) w).
Proof. intros Hfl Hs. split; [|done]. intros i p s. by rewrite set_state_slot. Qed.

Lemma kept_fills w w' id lo hi : fills w w' id lo hi -> kept w w'.
Proof. intros []. split; eauto. Qed.

Lemma reside_kept w r fl x w' :
  wf_flats w -> flats w !! range_flat r = Some fl -> reside r w = Some (x, w') -> kept w w'.
Proof.
  intros Hwf Hfl Hr. destruct (reside_run w r fl Hwf Hfl) as [h [[Hx _]|[[Hx _]|[Hx _]]]];
    simplify_eq; [reflexivity|apply kept_quiet, quiet_heap|].
  transitivity (set_heap h w); [apply kept_quiet, quiet_heap|]. by apply kept_state.
Qed.

#[export] Hint Resolve kept_gentle kept_quiet quiet_heap : flat.

(** An operation that terminates, with the invariant in both outcomes, and
    disturbs no slot under a residency. *)
Definition keeps {E A} (m : M World E A) (c : Conf) (k : A -> World -> Conf) : Prop :=
  exists c', run m c k = Some c' /\ CInv c' /\ gentle (world c) (world c').

Lemma keeps_same c : CInv c -> CInv (mkConf (txs c) (held c) (world c)) /\ gentle (world c) (world c).
Proof. intros HC. split; [by destruct c|]. apply kept_gentle. reflexivity. Qed.

Lemma keeps_quiet c w' :
  CInv c -> quiet (world c) w' -> CInv (mkConf (txs c) (held c) w') /\ gentle (world c) w'.
Proof. intros HC Hq. split; [by apply CInv_quiet|]. by apply kept_gentle, kept_quiet. Qed.

Lemma Flat_new_keeps c pages src tr :
  CInv c -> wf_flat (mkFlat pages (FlatState_new src tr)) ->
  (forall s, src = Managed s -> s = []) ->
  keeps (Flat_new pages src tr) c (fun _ w => mkConf (txs c) (held c) w).
Proof.
  intros HC Hwf Hs. unfold keeps, run.
  destruct (Flat_new pages src tr (world c)) as [[r w']|] eqn:Hrun.
  - apply Flat_new_inv in Hrun as [h [[-> ->]|[-> ->]]]; eexists; split; try done.
    + apply (keeps_quiet c); [done|apply quiet_heap].
    + split; [|by eapply kept_gentle, kept_append]. eapply append_CInv; [done| |done|done|].
      * apply (append_Inv _ (set_heap h (world c))); [apply set_heap_Inv, HC|done|exact Hs].
      * simpl. intros s p x ->%Hs. done.
  - exfalso. unfold Flat_new in Hrun. munfold_in Hrun.
    destruct (try_reserve_run OutOfMemory (world c)) as [h [Hr|Hr]]; by rewrite Hr in Hrun.
Qed.

Lemma reside_keeps c r :
  CInv c -> wf_range (world c) r ->
  keeps (reside r) c (fun h w => mkConf (txs c) (h :: held c) w).
Proof.
  intros HC Hwr. pose proof Hwr as (fl & Hfl & _). unfold keeps, run.
  destruct (reside_run (world c) r fl) as [h [[-> _]|[[-> _]|(-> & Hb & Hn)]]];
    [apply HC|done|..]; eexists; split; try done.
  - by apply (keeps_same c).
  - apply (keeps_quiet c); [done|apply quiet_heap].
  - pose proof (CInv_quiet _ _ HC (quiet_heap _ h)) as HC'.
    split; [by apply (CInv_resided _ r fl HC')|]. apply kept_gentle.
    transitivity (set_heap h (world c)); [apply kept_quiet, quiet_heap|]. by apply kept_state.
Qed.

Lemma release_keeps c n h :
  CInv c -> held c !! n = Some h ->
  keeps (release_residency (E:=FlatError) (range_flat (hold_range h)) (hold_id h)) c
    (fun _ w => mkConf (txs c) (remove_at n (held c)) w).
Proof.
  intros HC Hn. destruct (ci_held _ HC h) as [[fl Hfl] He].
  { by eapply list_elem_of_lookup_2. }
  rewrite (res_in_Some _ _ _ Hfl) in He. unfold keeps, run.
  destruct (release_run (E:=FlatError) (world c) _ fl _ (inv_wf _ _ (ci_inv _ HC)) Hfl He)
    as (i & Hi & Hrun). simpl in Hrun. rewrite Hrun. eexists. split; [done|].
  split; [by apply CInv_released|]. by apply kept_gentle, kept_state.
Qed.

Lemma materialize_keeps c r :
  CInv c -> wf_range (world c) r ->
  keeps (FlatRange_materialize r) c (fun h w => mkConf (txs c) (h :: held c) w).
Proof.
  intros HC Hwr. unfold keeps, run, FlatRange_materialize, mbind at 1, M_bind at 1.
  pose proof (reside_keeps c r HC Hwr) as (c1 & Hr1 & HC1 & Hg1). unfold run in Hr1.
  destruct (reside r (world c)) as [[[h|e] w1]|] eqn:Hr; [|eauto|done].
  injection Hr1 as <-. pose proof (ci_held _ HC1 h) as [[fl Hfl] He]; [by left|]. simpl in *.
  assert (Hh : hold_range h = r).
  { destruct Hwr as (fl0 & Hfl0 & _).
    destruct (reside_run (world c) r fl0 (inv_wf _ _ (ci_inv _ HC)) Hfl0)
      as [? [[Hx _]|[[Hx _]|[Hx _]]]]; by simplify_eq. }
  rewrite Hh in Hfl. destruct Hwr as (fl0 & Hfl0 & ? & ? & _).
  pose proof (reside_kept _ _ _ _ _ (inv_wf _ _ (ci_inv _ HC)) Hfl0 Hr) as Hk1.
  destruct (materialize_range_run (txs c) w1 (range_flat r) (range_index r) (range_count r) fl)
    as (r' & w2 & Hrun & HI2 & Hf & _); [apply HC1|done|lia|lia|].
  pose proof (fills_CInv _ _ _ _ _ HC1 HI2 Hf) as HC2. simpl in HC2.
  unfold on_err, mbind at 1, M_bind at 1. rewrite Hrun. destruct r' as [u|e].
  { eexists. split; [done|]. split; [done|]. apply kept_gentle.
    transitivity w1; [done|by eapply kept_fills]. }
  destruct (release_keeps _ 0 h HC2 eq_refl) as (c3 & Hr3 & HC3 & _). unfold run in Hr3. simpl in Hr3.
  rewrite Hh in Hr3. unfold mbind, M_bind.
  destruct (ci_held _ HC2 h) as [[fl2 Hfl2] He2]; [by left|]. simpl in *.
  rewrite (res_in_Some _ _ _ Hfl2) in He2. rewrite Hh in *.
  destruct (release_run (E:=FlatError) w2 _ fl2 _ (inv_wf _ _ HI2) Hfl2 He2) as (i & _ & Hx).
  simpl in Hx. rewrite Hx in Hr3 |- *. simplify_eq/=. eexists. split; [done|]. split; [done|].
  apply kept_gentle. transitivity w1; [done|]. transitivity w2; [by eapply kept_fills|].
  by apply kept_state.
Qed.

Lemma from_frames_keeps c pages frames :
  CInv c -> 0 < pages <= usize_MAX -> Forall (fun x => 0 <= x.1) frames ->
  Forall (fun x => is_Some (custody (world c) !! x.2)) frames ->
  keeps (from_frames pages frames) c (fun _ w => mkConf (txs c) (held c) w).
Proof.
  intros HC Hp Hpos Hlive. pose proof (ci_inv _ HC) as HI.
  unfold keeps, run, from_frames, mbind at 1, M_bind at 1.
  destruct (try_reserve_run OutOfMemory (world c)) as [h [-> | ->]].
  2: { eexists. split; [done|]. apply (keeps_quiet c); [done|apply quiet_heap]. }
  unfold lift, mbind at 1, M_bind at 1. destruct (import_slots pages None frames) as [s|e] eqn:Himp.
  2: { eexists. split; [done|]. apply (keeps_quiet c); [done|apply quiet_heap]. }
  destruct (import_slots_ok _ _ _ _ Himp Hpos) as (-> & Hsort & Hin & _).
  unfold get, mbind at 1, M_bind at 1. set (w0 := set_heap h (world c)).
  unfold mbind at 1, M_bind at 1.
  destruct (Flat_new pages (Managed (imported frames)) false w0) as [[r w1]|] eqn:Hnew.
  2: { exfalso. unfold Flat_new in Hnew. munfold_in Hnew.
       destruct (try_reserve_run OutOfMemory w0) as [h' [Hr|Hr]]; by rewrite Hr in Hnew. }
  apply Flat_new_inv in Hnew as [h' [[-> ->]|[-> ->]]].
  { eexists. split; [done|]. apply (keeps_quiet c); [done|]. apply (quiet_heap (world c) h'). }
  set (fl := mkFlat _ _). set (w1 := set_flats _ _).
  destruct (register_run frames.*2 w1) as (r & cu & Hreg & Hle & Hres).
  { intros f (x & -> & Hx)%list_elem_of_fmap. rewrite Forall_forall in Hlive. by apply (Hlive x). }
  assert (HIc : Inv (txs c) (set_custody cu (set_heap h' w0))).
  { by apply alias_Inv; [do 2 apply set_heap_Inv|]. }
  unfold on_err, mbind at 1, M_bind at 1. rewrite Hreg. destruct r as [u|e].
  - eexists. split; [done|]. split; [|by eapply kept_gentle, kept_append].
    eapply (append_CInv c _ fl); [done| |done|done|].
    + apply (append_import_Inv _ (set_custody cu (set_heap h' w0))); done.
    + simpl. intros ? p x [= <-] Hx%tmap_elem_of; [|done].
      apply list_elem_of_fmap in Hx as ([? ?] & [= -> ->] & _). done.
  - eexists. split; [done|]. split; [|by apply kept_gentle, kept_flats].
    apply CInv_flats; [done|exact HIc|done].
Qed.

Lemma register_keeps c f :
  CInv c -> is_Some (custody (world c) !! f) ->
  keeps (custody_register f) c (fun _ w => mkConf (txs c) (held c) w).
Proof.
  intros HC Hlive. destruct (register_run [f] (world c)) as (r & cu & Hrun & Hle & _).
  { by intros g ->%list_elem_of_singleton. }
  assert (Hres : CInv (mkConf (txs c) (held c) (set_custody cu (world c))) /\
    gentle (world c) (set_custody cu (world c))).
  { split; [|by apply kept_gentle, kept_flats]. apply CInv_flats; [done| |done].
    by apply alias_Inv; [apply HC|]. }
  unfold keeps, run. simpl in Hrun. unfold mbind, M_bind in Hrun.
  destruct (custody_register f (world c)) as [[[] w']|]; simpl in Hrun;
    [munfold_in Hrun|..|done]; simplify_eq; eauto.
Qed.

Lemma materialize_range_keeps c r :
  CInv c -> wf_range (world c) r ->
  keeps (materialize_range (range_flat r) (range_index r) (range_count r)) c
    (fun _ w => mkConf (txs c) (held c) w).
Proof.
  intros HC (fl & Hfl & ? & ? & _).
  destruct (materialize_range_run (txs c) (world c) (range_flat r) (range_index r)
    (range_count r) fl) as (x & w' & Hrun & HI & Hf & _); [apply HC|done|lia|lia|].
  unfold keeps, run. rewrite Hrun.
  assert (CInv (mkConf (txs c) (held c) w') /\ gentle (world c) w') by
    (split; [by eapply fills_CInv|by eapply kept_gentle, kept_fills]).
  destruct x; eauto.
Qed.

Lemma mark_keeps c id fl :
  CInv c -> flats (world c) !! id = Some fl ->
  keeps (mark_untransferable (E:=FlatError) id) c (fun _ w => mkConf (txs c) (held c) w).
Proof.
  intros HC Hfl. unfold keeps, run, mark_untransferable, mbind, M_bind.
  rewrite (state_of_run _ _ _ Hfl). unfold put_state, flat_of. munfold. rewrite Hfl.
  eexists. split; [done|]. pose proof (ci_inv _ HC) as HI.
  pose proof (wf_flats_flat _ _ _ (inv_wf _ _ HI) Hfl) as [? ? ? ? ?].
  split; [|by apply kept_gentle, kept_state].
  apply CInv_frame; [done|by apply set_state_Inv| | |].
  - intros i. rewrite set_state_res by done. case_decide; [subst i|done].
    simpl. by rewrite (res_in_Some _ _ _ Hfl).
  - intros i. apply insert_dom.
  - intros i p s Hs _. left. rewrite set_state_slot in Hs by done. done.
Qed.

Lemma from_region_keeps c start size :
  CInv c -> usize start -> usize size ->
  keeps (r ← BorrowedRegion_new start size; from_region r) c
    (fun _ w => mkConf (txs c) (held c) w).
Proof.
  intros HC [Hs _] [Hz Hz']. unfold keeps, run, mbind at 1, M_bind at 1.
  unfold BorrowedRegion_new. destruct (_ || _) eqn:Hb; [eexists; split; [done|by apply (keeps_same c)]|].
  unfold lift, mbind at 1, M_bind at 1.
  destruct (ok_or _ _) as [u|e]; [|eexists; split; [done|by apply (keeps_same c)]].
  unfold mbind at 1, M_bind at 1.
  destruct (try_reserve_run OutOfMemory (world c)) as [h [-> | ->]].
  2: { eexists. split; [done|]. apply (keeps_quiet c); [done|apply quiet_heap]. }
  pose proof (CInv_quiet _ _ HC (quiet_heap _ h)) as HC'.
  unfold mret, M_ret, from_region, lift, mbind, M_bind. cbn [region_size].
  unfold PageCount_new, ok_or. destruct (Z.eqb_spec (size / PAGE_SIZE) 0).
  { eexists. split; [done|]. apply (keeps_quiet c); [done|apply quiet_heap]. }
  destruct (Flat_new_keeps (mkConf (txs c) (held c) (set_heap h (world c)))
    (size / PAGE_SIZE) (Borrowed (mkRegion start size)) false) as (c' & ? & ? & [Hg Ha]);
    [done| |done|].
  - apply wf_new; [|done]. unfold PAGE_SIZE, usize_MAX in *.
    pose proof (Z.div_pos size 4096 Hz ltac:(lia)).
    pose proof (Z.div_le_upper_bound size 4096 size ltac:(lia) ltac:(lia)). lia.
  - exists c'. split; [done|]. split; [done|]. split; [exact Hg|exact Ha].
Qed.

Lemma claim_keeps {C} c src sp tgt tp (prep : result TransferError C) :
  CInv c -> wf_range (world c) src -> wf_range (world c) tgt ->
  owns src sp = true -> owns tgt tp = true ->
  keeps (claim src sp tgt tp prep) c (fun t w => mkConf (t.1 :: txs c) (held c) w).
Proof.
  intros HC Hs Ht Hos Hot. pose proof (ci_inv _ HC) as HI. unfold keeps, run.
  destruct (claim_tame _ _ _ _ _ _ prep HI Hs Ht Hos Hot) as [Hsafe Hquiet].
  destruct (claim src sp tgt tp prep (world c)) as [[[[t x]|e] w']|] eqn:Hrun; [| |done].
  - eexists. split; [done|]. pose proof Hrun as Hcl.
    apply claim_inv in Hcl as (-> & _ & Hne & (fs & Hfs & _ & Hps) & (ft & Hft & _ & Hpt) & f & m & Hc);
      [|apply HI|done].
    split; [apply CInv_erase; simpl; [done| |apply Hc|]|].
    + eapply claimed_Inv; [done| |exact Hc]. unfold at_target. simpl. naive_solver.
    + intros i p s Hsl Hfl. rewrite (cl_slot _ _ _ _ _ Hc) in Hsl.
      unfold at_target, at_source in Hsl. simpl in Hsl.
      case_decide as H1; [|case_decide as H2; [|by left]]; right.
      * destruct H1 as [<- <-]. rewrite (res_in_Some _ _ _ Hft). by apply is_pinned_false.
      * destruct H2 as [<- <-]. rewrite (res_in_Some _ _ _ Hfs). by apply is_pinned_false.
    + split; simpl.
      * intros i p s e He Hcov Hsl. rewrite (cl_slot _ _ _ _ _ Hc). unfold at_target, at_source.
        simpl. case_decide as H1; [|case_decide as H2; [|done]]; exfalso.
        -- destruct H1 as [<- <-]. rewrite (res_in_Some _ _ _ Hft) in He.
           by apply (proj1 (is_pinned_false _ _) Hpt e He).
        -- destruct H2 as [<- <-]. rewrite (res_in_Some _ _ _ Hfs) in He.
           by apply (proj1 (is_pinned_false _ _) Hps e He).
      * intros g Hg. rewrite (cl_custody _ _ _ _ _ Hc), lookup_insert_ne; [done|].
        intros <-. rewrite (cl_sole _ _ _ _ _ Hc) in Hg. done.
  - eexists. split; [done|]. apply (keeps_quiet c); [done|]. by apply (Hquiet e).
Qed.

Lemma ended_CInv c n t w' f m so to :
  CInv c -> txs c !! n = Some t ->
  slot_at (world c) (tx_source t) (tx_source_page t) = Some (Moving f (tx_id t)) ->
  slot_at (world c) (tx_target t) (tx_target_page t) = Some (Reserved (tx_id t) m) ->
  ended (world c) w' t f so to -> resolved f so to ->
  CInv (mkConf (remove_at n (txs c)) (held c) w') /\ gentle (world c) w'.
Proof.
  intros HC Hn Hs Ht He Hres. split; [apply CInv_erase; [done| |apply He|]|split].
  - eapply ended_Inv; [|done..]. rewrite (remove_at_perm _ _ _ Hn). apply HC.
  - intros i p s Hsl Hfl. left. rewrite (en_slot _ _ _ _ _ _ He) in Hsl.
    case_decide; [|case_decide; [|done]]; subst.
    all: destruct Hres as [[? ?]|[? [?|?]]]; by simplify_eq.
  - intros i p s e Hin Hcov Hsl. rewrite (en_slot _ _ _ _ _ _ He).
    pose proof (ci_guard _ HC i e p s Hin Hcov Hsl) as Hg.
    case_decide as H1; [|case_decide as H2; [|done]]; exfalso.
    + destruct H1 as [<- <-]. rewrite Ht in Hsl. by simplify_eq.
    + destruct H2 as [<- <-]. rewrite Hs in Hsl. by simplify_eq.
  - intros g Hg. rewrite (en_custody _ _ _ _ _ _ He), lookup_insert_ne; [done|].
    intros <-. destruct (inv_moving _ _ (ci_inv _ HC) _ _ _ _ Hs). congruence.
Qed.

Lemma commit_keeps c n t :
  CInv c -> txs c !! n = Some t ->
  keeps (commit (E:=TransferError) t) c (fun _ w => mkConf (remove_at n (txs c)) (held c) w).
Proof.
  intros HC Hn. pose proof (ci_inv _ HC) as HI.
  destruct (Inv_tx _ _ t HI) as (f & m & Hs & Ht & Hcu); [by eapply list_elem_of_lookup_2|].
  destruct (commit_run (E:=TransferError) _ _ _ _ (inv_wf _ _ HI) Hs Ht Hcu) as (w' & Hrun & He).
  unfold keeps, run. rewrite Hrun. eexists. split; [done|].
  eapply ended_CInv; [done..|]. by left.
Qed.

Lemma rollback_keeps c n t :
  CInv c -> txs c !! n = Some t ->
  keeps (rollback (E:=TransferError) t) c (fun _ w => mkConf (remove_at n (txs c)) (held c) w).
Proof.
  intros HC Hn. pose proof (ci_inv _ HC) as HI.
  destruct (Inv_tx _ _ t HI) as (f & m & Hs & Ht & Hcu); [by eapply list_elem_of_lookup_2|].
  destruct (rollback_run (E:=TransferError) _ _ _ _ (inv_wf _ _ HI) Hs Ht Hcu) as (w' & Hrun & He).
  unfold keeps, run. rewrite Hrun. eexists. split; [done|].
  eapply ended_CInv; [done..|]. right. split; [done|]. destruct m; auto.
Qed.

(** Every enabled operation runs and keeps the invariant. *)
Lemma exec_keeps o c :
  CInv c -> enabled o c -> exists c', exec o c = Some c' /\ CInv c' /\ gentle (world c) (world c').
Proof.
  intros HC Hen. destruct o; simpl in *.
  - apply Flat_new_keeps; [done| |by intros ? [= <-]]. apply wf_new; [done|].
    intros s [= <-]. split; constructor.
  - destruct Hen as (? & ? & ?). by apply from_frames_keeps.
  - destruct Hen. by apply from_region_keeps.
  - by apply register_keeps.
  - destruct Hen as [fl ?]. by eapply mark_keeps.
  - by apply reside_keeps.
  - destruct Hen as [h Hh]. rewrite Hh. simpl. by apply release_keeps.
  - by apply materialize_range_keeps.
  - by apply materialize_keeps.
  - destruct Hen as (? & ? & ? & ?). by apply claim_keeps.
  - destruct Hen as [t Ht]. rewrite Ht. simpl. by apply commit_keeps.
  - destruct Hen as [t Ht]. rewrite Ht. simpl. by apply rollback_keeps.
Qed.

Lemma boot_CInv frames heap : NoDup frames -> CInv (boot frames heap).
Proof.
  intros Hnd. split; simpl; [|set_solver|constructor|].
  - split; simpl; try done; try set_solver.
    + constructor.
    + constructor.
    + by intros i p f [?|[? ?]].
    + by intros i p j q f [?|[? ?]].
  - intros i e p s He. by apply not_elem_of_nil in He.
Qed.

Lemma reach_CInv c c' : CInv c -> reach c c' -> CInv c'.
Proof.
  intros HC. induction 1 as [|o c1 c2 c3 _ IH [Hen Hex]]; [done|].
  destruct (exec_keeps o c2 (IH HC) Hen) as (c4 & ? & ? & _). by simplify_eq.
Qed.

(** ** Running a script of operations *)

#[global] Instance wf_range_dec w r : Decision (wf_range w r).
Proof.
  unfold wf_range. destruct (flats w !! range_flat r) as [fl|] eqn:Hfl.
  - destruct (decide (0 <= range_index r /\ 0 < range_count r /\
      range_index r + range_count r <= page_count fl)).
    + left. eauto.
    + right. naive_solver.
  - right. naive_solver.
Defined.

#[global] Instance enabled_dec o c : Decision (enabled o c).
Proof. destruct o; simpl; apply _. Defined.

(** The configuration a script leads to, when each operation is enabled. *)
Fixpoint play (os : list op) (c : Conf) : option Conf :=
  match os with
  | [] => Some c
  | o :: os => if bool_decide (enabled o c) then c' ← exec o c; play os c' else None
  end.

Lemma reach_trans c1 c2 c3 : reach c1 c2 -> reach c2 c3 -> reach c1 c3.
Proof. intros H12. induction 1; [done|]. by eapply reach_step; [auto|]. Qed.

Lemma play_reach os c c' : play os c = Some c' -> reach c c'.
Proof.
  revert c. induction os as [|o os IH]; intros c; simpl; [intros [= <-]; constructor|].
  case_bool_decide as Hen; [|done]. intros (c1 & Hex & Hp)%bind_Some.
  eapply reach_trans; [|by apply IH]. eapply reach_step; [constructor|by split].
Qed.

Lemma reach_boot frames heap c : NoDup frames -> reach (boot frames heap) c -> CInv c.
Proof. intros Hnd. by apply reach_CInv, boot_CInv. Qed.
