(* ===== verification/FlatTheorems.v ===== *)
(** * What the physical sources promise

    The properties of [flat/*.rs] in every reachable configuration. *)

From S2P Require Import Prelude.
From S2P Require Import Table.
From S2P Require Import Flat.
From S2P Require Import Transaction.
From S2P Require Import FlatInv.
From S2P Require Import FlatSteps.
From S2P Require Import FlatSystem.

Open Scope Z_scope.

(** ** Scripts used by the witnesses *)

Definition frames0 : list Frame := [4096; 8192; 12288].

(** Two sources of two pages, the first page of the first one filled. *)
Definition script_filled : list op :=
  [Acquire 2; Acquire 2; Materialize (mkRange 0 0 1)].

(** The same, with that page being handed over to the second source. *)
Definition script_claimed : list op :=
  script_filled ++ [Release 0; Claim (mkRange 0 0 2) 0 (mkRange 1 0 2) 1 (Ok tt)].

Definition played (os : list op) : Conf :=
  match play os (boot frames0 []) with Some c => c | None => boot [] [] end.

Lemma played_reach os :
  (match play os (boot frames0 []) with Some _ => true | None => false end) = true ->
  reach (boot frames0 []) (played os).
Proof.
  unfold played. destruct (play os _) as [c|] eqn:Hp; [|done]. intros _. by eapply play_reach.
Qed.

Lemma frames0_nodup : NoDup frames0.
Proof. apply (bool_decide_unpack _). vm_compute. exact I. Qed.

(** ** Safety of every interleaving *)

(** C1: whatever operations have run before, in whatever order, and however
    metadata allocation fails, an operation with well-typed arguments never
    panics: no [expect], [unwrap], [unreachable!] or assertion of the sources
    and of the transfer protocol is ever hit. *)
Theorem no_panic frames heap c o :
  NoDup frames -> reach (boot frames heap) c -> enabled o c -> exists c', exec o c = Some c'.
Proof.
  intros Hnd Hr Hen. destruct (exec_keeps o c) as (c' & ? & _); eauto.
  by eapply reach_boot.
Qed.

Lemma no_panic_witness :
  exists c', exec (Commit 0) (played script_claimed) = Some c'.
Proof.
  apply (no_panic frames0 []).
  - exact frames0_nodup.
  - apply played_reach. vm_compute. reflexivity.
  - apply (bool_decide_unpack _). vm_compute. exact I.
Defined.

(** C2: a frame that no import ever exposed is held by at most one slot of all
    the sources, also while it is being handed over. *)
Theorem frame_exclusive frames heap c i p j q f :
  NoDup frames -> reach (boot frames heap) c ->
  holds (world c) i p f -> holds (world c) j q f -> custody (world c) !! f <> Some ALIASED ->
  i = j /\ p = q.
Proof. intros Hnd HC%reach_boot; [|done]. by apply (inv_unique _ _ (ci_inv _ HC)). Qed.

Lemma frame_exclusive_witness : (0 = 0)%nat /\ 0 = 0.
Proof.
  apply (frame_exclusive frames0 [] (played script_claimed) 0 0 0 0 4096).
  - exact frames0_nodup.
  - apply played_reach. vm_compute. reflexivity.
  - right. exists 1. vm_compute. reflexivity.
  - right. exists 1. vm_compute. reflexivity.
  - vm_compute. discriminate.
Defined.

(** The slots in flight are exactly the two ends of the transactions that
    are alive; none is ever left behind. *)
Theorem in_flight_owned frames heap c i p :
  NoDup frames -> reach (boot frames heap) c ->
  (exists s, slot_at (world c) i p = Some s /\ in_flight s = true) <->
  exists t, t ∈ txs c /\ (at_source t i p \/ at_target t i p).
Proof.
  intros Hnd HC%reach_boot; [|done]. pose proof (ci_inv _ HC) as HI. split.
  - intros ([f| |f x|x m] & Hs & Hf); try done.
    + destruct (inv_moving _ _ HI _ _ _ _ Hs) as (_ & t & ? & _ & ?). eauto.
    + destruct (inv_reserved _ _ HI _ _ _ _ Hs) as (t & ? & _ & ?). eauto.
  - intros (t & Ht & [[<- <-]|[<- <-]]).
    + destruct (inv_source _ _ HI t Ht) as [f Hf]. eauto.
    + destruct (inv_target _ _ HI t Ht) as [m Hm]. eauto.
Qed.

Lemma in_flight_owned_witness :
  (exists s, slot_at (world (played script_claimed)) 1 1 = Some s /\ in_flight s = true) <->
  exists t, t ∈ txs (played script_claimed) /\ (at_source t 1 1 \/ at_target t 1 1).
Proof.
  apply (in_flight_owned frames0 []).
  - exact frames0_nodup.
  - apply played_reach. vm_compute. reflexivity.
Defined.

(** ** The transfer protocol *)

(** C3: [commit] moves exactly one frame: the carrier leaves the source slot,
    which becomes [Missing], and becomes resident in the target slot; its
    custody returns to [SOLE]; every other slot, custody word, residency and
    page count stays. *)
Theorem commit_hands_over frames heap c n t :
  NoDup frames -> reach (boot frames heap) c -> txs c !! n = Some t ->
  exists f c', carrier (E:=TransferError) t (world c) = Some (Ok f, world c) /\
    exec (Commit n) c = Some c' /\
    (forall i p, slot_at (world c') i p =
       if decide (at_target t i p) then Some (Resident f)
       else if decide (at_source t i p) then Some Missing
       else slot_at (world c) i p) /\
    custody (world c) !! f = Some IN_TRANSIT /\
    custody (world c') = <[f := SOLE]> (custody (world c)) /\
    erase <$> flats (world c') = erase <$> flats (world c) /\
    txs c' = remove_at n (txs c) /\ held c' = held c.
Proof.
  intros Hnd HC%reach_boot Hn; [|done]. pose proof (ci_inv _ HC) as HI.
  destruct (Inv_tx _ _ t HI) as (f & m & Hs & Ht & Hcu); [by eapply list_elem_of_lookup_2|].
  destruct (commit_run (E:=TransferError) _ _ _ _ (inv_wf _ _ HI) Hs Ht Hcu) as (w' & Hrun & He).
  exists f, (mkConf (remove_at n (txs c)) (held c) w').
  split; [eapply carrier_run; [apply HI|done]|]. split.
  { simpl. rewrite Hn. simpl. unfold run. by rewrite Hrun. }
  destruct He. done.
Qed.

Lemma commit_hands_over_witness :
  let c := played script_claimed in let t := mkTx 0 0 1 1 1 in
  exists f c', carrier (E:=TransferError) t (world c) = Some (Ok f, world c) /\
    exec (Commit 0) c = Some c' /\
    (forall i p, slot_at (world c') i p =
       if decide (at_target t i p) then Some (Resident f)
       else if decide (at_source t i p) then Some Missing
       else slot_at (world c) i p) /\
    custody (world c) !! f = Some IN_TRANSIT /\
    custody (world c') = <[f := SOLE]> (custody (world c)) /\
    erase <$> flats (world c') = erase <$> flats (world c) /\
    txs c' = remove_at 0 (txs c) /\ held c' = held c.
Proof.
  apply (commit_hands_over frames0 []).
  - exact frames0_nodup.
  - apply played_reach. vm_compute. reflexivity.
  - vm_compute. reflexivity.
Defined.

(** Sources with equal slot maps and equal remaining state are equal. *)
Lemma flats_ext w w' :
  wf_flats w -> wf_flats w' -> erase <$> flats w' = erase <$> flats w ->
  (forall i p, slot_at w' i p = slot_at w i p) -> flats w' = flats w.
Proof.
  intros Hwf Hwf' He Hs. apply list_eq. intros i. pose proof He as Hei.
  apply (f_equal (fun l => l !! i)) in Hei. rewrite !list_lookup_fmap in Hei.
  destruct (flats w' !! i) as [fl'|] eqn:H', (flats w !! i) as [fl|] eqn:H; simpl in Hei; try done.
  f_equal. injection Hei as Hei. pose proof (wf_flats_flat _ _ _ Hwf H) as [_ Hsl _ _ _].
  pose proof (wf_flats_flat _ _ _ Hwf' H') as [_ Hsl' _ _ _].
  destruct fl as [n [[s|r] rs nx tr]], fl' as [n' [[s'|r'] rs' nx' tr']]; simpl in *;
    unfold erase in Hei; simpl in Hei; simplify_eq; [|done].
  replace s' with s; [done|]. apply sorted_ext; [by apply Hsl|by apply Hsl'|].
  apply map_eq. intros q. specialize (Hs i q).
  unfold slot_at, slots_in in Hs. rewrite H, H' in Hs. by simpl in Hs.
Qed.

(** C4: a claim that is rolled back leaves no trace: the sources, down to the
    layout of their slot tables, and the custody words are what they were. *)
Theorem claim_rollback frames heap c src sp tgt tp c1 c2 :
  NoDup frames -> reach (boot frames heap) c ->
  step (Claim src sp tgt tp (Ok tt)) c c1 -> length (txs c1) = S (length (txs c)) ->
  exec (Rollback 0) c1 = Some c2 ->
  flats (world c2) = flats (world c) /\ custody (world c2) = custody (world c) /\
  pool (world c2) = pool (world c) /\ txs c2 = txs c /\ held c2 = held c.
Proof.
  intros Hnd HC%reach_boot [(Hs & Ht & Hos & Hot) Hex] Hlen Hrb; [|done].
  pose proof (ci_inv _ HC) as HI. simpl in Hex. unfold run in Hex.
  destruct (claim _ _ _ _ _ _) as [[[[t []]|e] w1]|] eqn:Hcl; simplify_eq/=; [|lia].
  apply claim_inv in Hcl as (-> & _ & Hne & _ & _ & f & m & Hc); [|apply HI|done].
  set (t := mkTx _ _ _ _ _) in *.
  assert (Hst : ~ at_target t (tx_source t) (tx_source_page t)).
  { unfold at_target. simpl. naive_solver. }
  assert (Hs1 : slot_at w1 (tx_source t) (tx_source_page t) = Some (Moving f (tx_id t))).
  { rewrite (cl_slot _ _ _ _ _ Hc), decide_False by done. by rewrite decide_True by done. }
  assert (Ht1 : slot_at w1 (tx_target t) (tx_target_page t) = Some (Reserved (tx_id t) m)).
  { rewrite (cl_slot _ _ _ _ _ Hc). by rewrite decide_True by done. }
  destruct (rollback_run (E:=TransferError) w1 t f m) as (w2 & Hrun & He);
    [apply Hc|done|done|rewrite (cl_custody _ _ _ _ _ Hc); apply lookup_insert_eq|].
  unfold run in Hrb. simpl in Hrb. rewrite Hrun in Hrb. simplify_eq/=.
  split_and!; try done.
  - apply flats_ext; [apply HI|apply He| |].
    + rewrite (en_erase _ _ _ _ _ _ He). apply Hc.
    + intros i p. rewrite (en_slot _ _ _ _ _ _ He), (cl_slot _ _ _ _ _ Hc).
      case_decide as H1; [destruct H1 as [<- <-]; by rewrite (cl_tgt _ _ _ _ _ Hc)|].
      case_decide as H2; [destruct H2 as [<- <-]; by rewrite (cl_src _ _ _ _ _ Hc)|].
      by rewrite !decide_False.
  - rewrite (en_custody _ _ _ _ _ _ He), (cl_custody _ _ _ _ _ Hc), insert_insert_eq.
    apply insert_id, Hc.
  - rewrite (en_pool _ _ _ _ _ _ He). apply Hc.
Qed.

Definition released_conf : Conf := played (script_filled ++ [Release 0]).

Lemma claim_rollback_witness :
  let c2 := played (script_claimed ++ [Rollback 0]) in
  flats (world c2) = flats (world released_conf) /\
  custody (world c2) = custody (world released_conf) /\
  pool (world c2) = pool (world released_conf) /\
  txs c2 = txs released_conf /\ held c2 = held released_conf.
Proof.
  apply (claim_rollback frames0 [] released_conf (mkRange 0 0 2) 0 (mkRange 1 0 2) 1
    (played script_claimed)).
  - exact frames0_nodup.
  - apply played_reach. vm_compute. reflexivity.
  - split; [apply (bool_decide_unpack _); vm_compute; exact I|vm_compute; reflexivity].
  - vm_compute. reflexivity.
  - vm_compute. reflexivity.
Defined.

(** A claim that fails, for whatever reason and at whatever point, has not
    changed any source, custody word or guard. *)
Theorem failed_claim frames heap c src sp tgt tp (prepare : result TransferError unit) e w' :
  NoDup frames -> reach (boot frames heap) c ->
  wf_range (world c) src -> wf_range (world c) tgt -> owns src sp = true -> owns tgt tp = true ->
  claim src sp tgt tp prepare (world c) = Some (Err e, w') ->
  flats w' = flats (world c) /\ custody w' = custody (world c) /\ pool w' = pool (world c).
Proof.
  intros Hnd HC%reach_boot Hs Ht Hos Hot Hcl; [|done].
  destruct (claim_tame _ _ _ _ _ _ prepare (ci_inv _ HC) Hs Ht Hos Hot) as [_ Hq].
  by eapply quiet_same, Hq.
Qed.

Lemma failed_claim_witness :
  let w := world (played script_claimed) in let w' := set_next_tx 3 w in
  flats w' = flats w /\ custody w' = custody w /\ pool w' = pool w.
Proof.
  apply (failed_claim frames0 [] (played script_claimed) (mkRange 0 0 2) 0 (mkRange 1 0 2) 0
    (Ok tt) TBusy).
  - exact frames0_nodup.
  - apply played_reach. vm_compute. reflexivity.
  - apply (bool_decide_unpack _). vm_compute. exact I.
  - apply (bool_decide_unpack _). vm_compute. exact I.
  - reflexivity.
  - reflexivity.
  - vm_compute. reflexivity.
Defined.

(** Steps during which the residency [h] stays held. *)
Inductive reach_holding (h : Residency) : Conf -> Conf -> Prop :=
| holding_refl c : h ∈ held c -> reach_holding h c c
| holding_step o c1 c2 c3 :
    reach_holding h c1 c2 -> step o c2 c3 -> h ∈ held c3 -> reach_holding h c1 c3.

Lemma reach_holding_held h c c' : reach_holding h c c' -> h ∈ held c'.
Proof. by destruct 1. Qed.

(** While a residency is held, no interleaving of operations of other
    callers (claims, commits, rollbacks, imports, other residencies coming and
    going) changes a slot of its pages: the physical address behind a mapping
    stays valid. *)
Theorem residency_pins frames heap c c' h p s :
  NoDup frames -> reach (boot frames heap) c -> reach_holding h c c' ->
  range_index (hold_range h) <= p < range_index (hold_range h) + range_count (hold_range h) ->
  slot_at (world c) (range_flat (hold_range h)) p = Some s ->
  slot_at (world c') (range_flat (hold_range h)) p = Some s /\ in_flight s = false.
Proof.
  intros Hnd HC%reach_boot Hr Hp Hs; [|done].
  assert (Hgo : CInv c' /\ slot_at (world c') (range_flat (hold_range h)) p = Some s).
  { induction Hr as [c|o c1 c2 c3 Hr IH [Hen Hex] _]; [done|].
    destruct (IH HC Hs) as [HC2 Hs2].
    destruct (exec_keeps o c2 HC2 Hen) as (c4 & ? & ? & Hg). simplify_eq. split; [done|].
    apply reach_holding_held in Hr. destruct (ci_held _ HC2 h Hr) as [_ He].
    by apply (ge_slot _ _ Hg _ _ _ _ He). }
  destruct Hgo as [HC' Hs']. split; [done|]. apply reach_holding_held in Hr.
  destruct (ci_held _ HC' h Hr) as [_ He]. by apply (ci_guard _ HC' _ _ p s He).
Qed.

Lemma residency_pins_witness :
  let c := played script_filled in
  let c' := played (script_filled ++ [Claim (mkRange 0 0 2) 0 (mkRange 1 0 2) 1 (Ok tt)]) in
  slot_at (world c') 0 0 = Some (Resident 4096) /\ in_flight (Resident 4096) = false.
Proof.
  apply (residency_pins frames0 [] (played script_filled)
    (played (script_filled ++ [Claim (mkRange 0 0 2) 0 (mkRange 1 0 2) 1 (Ok tt)]))
    (mkHold (mkRange 0 0 1) 1)).
  - exact frames0_nodup.
  - apply played_reach. vm_compute. reflexivity.
  - eapply (holding_step _ (Claim (mkRange 0 0 2) 0 (mkRange 1 0 2) 1 (Ok tt))).
    + apply holding_refl. vm_compute. left.
    + split; [apply (bool_decide_unpack _); vm_compute; exact I|vm_compute; reflexivity].
    + vm_compute. left.
  - simpl. lia.
  - vm_compute. reflexivity.
Defined.

(** The pages a transaction has in flight. *)
Definition in_transfer (c : Conf) (i : FlatId) (p : Z) : Prop :=
  exists t, t ∈ txs c /\ (at_source t i p \/ at_target t i p).

Lemma in_transfer_slot c i p :
  CInv c -> in_transfer c i p ->
  exists s, slot_at (world c) i p = Some s /\ in_flight s = true.
Proof.
  intros HC (t & Ht & [[<- <-]|[<- <-]]).
  - destruct (inv_source _ _ (ci_inv _ HC) t Ht) as [f ?]. eauto.
  - destruct (inv_target _ _ (ci_inv _ HC) t Ht) as [m ?]. eauto.
Qed.

(** While a page is being handed over nothing else takes it: a residency
    over it is refused with [Busy], and so is materializing it; no second claim
    of it succeeds; importing the frame that travels is refused with [Busy]. *)
Theorem transfer_excludes frames heap c i p :
  NoDup frames -> reach (boot frames heap) c -> in_transfer c i p ->
  (forall r, wf_range (world c) r -> range_flat r = i ->
     range_index r <= p < range_index r + range_count r ->
     reside r (world c) = Some (Err Busy, world c) /\
     FlatRange_materialize r (world c) = Some (Err Busy, world c)) /\
  (forall src sp tgt tp (prepare : result TransferError unit) x w',
     wf_range (world c) src -> wf_range (world c) tgt ->
     (range_flat src = i /\ sp = p \/ range_flat tgt = i /\ tp = p) ->
     claim src sp tgt tp prepare (world c) <> Some (Ok x, w')) /\
  (forall f tx fs, slot_at (world c) i p = Some (Moving f tx) -> f ∈ fs ->
     (forall g, g ∈ fs -> is_Some (custody (world c) !! g)) ->
     exists w', register fs (world c) = Some (Err Busy, w')).
Proof.
  intros Hnd HC%reach_boot Ht; [|done]. pose proof (ci_inv _ HC) as HI.
  destruct (in_transfer_slot c i p HC Ht) as (s & Hs & Hfl). split_and!.
  - intros r Hwr <- Hp. pose proof Hwr as (fl & Hfl' & _ & ? & _).
    assert (Hb : busy (state fl) (range_index r) (range_count r) = true).
    { apply (busy_true (world c) (range_flat r)); [apply HI|done|lia|]. eauto. }
    assert (Hr : reside r (world c) = Some (Err Busy, world c)).
    { unfold reside, mbind, M_bind. rewrite (state_of_run _ _ _ Hfl'). by rewrite Hb. }
    split; [done|]. unfold FlatRange_materialize, mbind, M_bind. by rewrite Hr.
  - intros src sp tgt tp prep [t x] w' Hws Hwt Hp Hcl.
    apply claim_inv in Hcl as (-> & _ & _ & _ & _ & f & m & Hc); [|apply HI|done].
    destruct Hp as [[<- <-]|[<- <-]].
    + pose proof (cl_src _ _ _ _ _ Hc) as Hx. simpl in Hx. rewrite Hx in Hs. by simplify_eq.
    + pose proof (cl_tgt _ _ _ _ _ Hc) as Hx. simpl in Hx. rewrite Hx in Hs.
      destruct m; by simplify_eq.
  - intros f tx fs Hm Hin Hlive. destruct (inv_moving _ _ HI _ _ _ _ Hm) as [Hcu _].
    destruct (register_run fs (world c) Hlive) as (r & cu & Hrun & Hle & Hres).
    rewrite Hrun. destruct r as [u|e]; [|destruct Hres as [-> _]; eauto]. exfalso.
    specialize (Hres f Hin). destruct (Hle f) as [E|[E _]]; congruence.
Qed.

Lemma transfer_excludes_witness :
  let w := world (played script_claimed) in
  reside (mkRange 0 0 2) w = Some (Err Busy, w) /\
  FlatRange_materialize (mkRange 0 0 2) w = Some (Err Busy, w).
Proof.
  apply (transfer_excludes frames0 [] (played script_claimed) 0 0).
  - exact frames0_nodup.
  - apply played_reach. vm_compute. reflexivity.
  - exists (mkTx 0 0 1 1 1). split; [vm_compute; left|left; done].
  - apply (bool_decide_unpack _). vm_compute. exact I.
  - reflexivity.
  - simpl. lia.
Defined.

(** ** Materialization and lookup *)

(** [FlatRange_materialize] step by step: the residency, the loop, and the
    residency's release when the loop fails. *)
Lemma FlatRange_materialize_run c r fl :
  CInv c -> wf_range (world c) r -> flats (world c) !! range_flat r = Some fl ->
  exists x w', FlatRange_materialize r (world c) = Some (x, w') /\
    (forall i p s, slot_at (world c) i p = Some s -> slot_at w' i p = Some s) /\
    match x with
    | Ok h => h = mkHold r (next_residency (state fl)) /\ entry h ∈ res_in w' (range_flat r) /\
        (is_Some (slots_in (world c) (range_flat r)) ->
         forall p, range_index r <= p < range_index r + range_count r ->
           exists f, slot_at w' (range_flat r) p = Some (Resident f))
    | Err e => reports (world c) (range_flat r) (range_index r) (range_index r + range_count r) e
    end.
Proof.
  intros HC Hwr Hfl. pose proof (ci_inv _ HC) as HI. pose proof Hwr as (fl0 & Hfl0 & Hi & Hc & Hle).
  simplify_eq.
  destruct (reside_run (world c) r fl (inv_wf _ _ HI) Hfl) as [h Hr].
  unfold FlatRange_materialize, mbind at 1, M_bind at 1.
  destruct Hr as [[Hr Hb]|[[Hr Hb]|(Hr & Hb & Hn)]]; rewrite Hr.
  { exists (Err Busy), (world c). split_and!; [done..|]. simpl.
    apply (busy_true (world c) (range_flat r)) in Hb; [done|apply HI|done|lia]. }
  { exists (Err OutOfMemory), (set_heap h (world c)). done. }
  set (w1 := resided _ r fl) in *.
  assert (HI1 : Inv (txs c) w1) by (apply resided_Inv; [by apply set_heap_Inv|done..]).
  assert (Hs1 : forall i p, slot_at w1 i p = slot_at (world c) i p).
  { intros i p. unfold w1, resided. by rewrite set_state_slot. }
  destruct (flats w1 !! range_flat r) as [fl1|] eqn:Hfl1.
  2: { exfalso. apply lookup_ge_None in Hfl1. unfold w1, resided in Hfl1. simpl in Hfl1.
       rewrite length_insert in Hfl1. apply lookup_lt_Some in Hfl. lia. }
  assert (fl1 = mkFlat (page_count fl) (mkState (source (state fl)) (residencies (state fl) ++
    [mkResidency (next_residency (state fl)) (range_index r) (range_count r)])
    (next_residency (state fl) + 1) (transferable (state fl)))) as ->.
  { unfold w1, resided in Hfl1. simpl in Hfl1.
    rewrite list_lookup_insert_eq in Hfl1 by (by eapply lookup_lt_Some). congruence. }
  destruct (materialize_range_run _ w1 _ _ (range_count r) _ HI1 Hfl1 Hi ltac:(lia))
    as (x & w2 & Hm & HI2 & Hf & Hx).
  pose proof (fi_kept _ _ _ _ _ Hf) as Hk.
  pose proof (erase_res _ _ (range_flat r) (fi_erase _ _ _ _ _ Hf)) as Hres2.
  rewrite (res_in_Some _ _ _ Hfl1) in Hres2. simpl in Hres2.
  unfold on_err, mbind at 1, M_bind at 1. rewrite Hm. destruct x as [[]|e].
  - exists (Ok (mkHold r (next_residency (state fl)))), w2. split; [done|].
    split; [intros i p s ?; apply Hk; by rewrite Hs1|]. split; [done|]. split.
    + rewrite Hres2. apply elem_of_app. right. by apply list_elem_of_singleton.
    + intros Hin. apply Hx. unfold slots_in in *. rewrite Hfl1. by rewrite Hfl in Hin.
  - destruct (erase_lookup _ _ _ _ (fi_erase _ _ _ _ _ Hf) Hfl1) as (fl2 & Hfl2 & _).
    destruct (release_run (E:=FlatError) w2 (range_flat r) fl2
      (mkResidency (next_residency (state fl)) (range_index r) (range_count r)))
      as (i & Hi' & Hrel); [apply HI2|done| |].
    { rewrite <- (res_in_Some _ _ _ Hfl2), Hres2. apply elem_of_app. right.
      by apply list_elem_of_singleton. }
    unfold mbind, M_bind. simpl in Hrel |- *. rewrite Hrel.
    exists (Err e), (released w2 (range_flat r) fl2 i). split; [done|]. split.
    + intros j q s Hq. unfold released. rewrite set_state_slot by done. apply Hk. by rewrite Hs1.
    + destruct Hx as [(-> & _ & Hbad)|[_ Hrep]]; [cbn [page_count] in Hbad; lia|].
      destruct e; simpl in *; try done; by setoid_rewrite <- Hs1.
Qed.

(** Materializing a range in any reachable configuration terminates
    without a panic and disturbs no slot that exists.  On success every page of
    a managed range is resident and the residency returned is recorded; a
    failure names its cause: a page handed away ([Missing]), a page in flight
    ([Busy]), or exhausted memory. *)
Theorem materialize_range_ok frames heap c r :
  NoDup frames -> reach (boot frames heap) c -> wf_range (world c) r ->
  exists x w', FlatRange_materialize r (world c) = Some (x, w') /\
    (forall i p s, slot_at (world c) i p = Some s -> slot_at w' i p = Some s) /\
    match x with
    | Ok h => hold_range h = r /\ entry h ∈ res_in w' (range_flat r) /\
        (is_Some (slots_in (world c) (range_flat r)) ->
         forall p, range_index r <= p < range_index r + range_count r ->
           exists f, slot_at w' (range_flat r) p = Some (Resident f))
    | Err e => reports (world c) (range_flat r) (range_index r) (range_index r + range_count r) e
    end.
Proof.
  intros Hnd HC%reach_boot Hwr; [|done]. pose proof Hwr as (fl & Hfl & _).
  destruct (FlatRange_materialize_run c r fl HC Hwr Hfl) as (x & w' & Hrun & Hk & Hx).
  exists x, w'. split; [done|]. split; [done|]. destruct x as [h|e]; [|done].
  by destruct Hx as (-> & ? & ?).
Qed.

Lemma materialize_range_ok_witness :
  let w := world (played script_filled) in let r := mkRange 1 0 2 in
  exists x w', FlatRange_materialize r w = Some (x, w') /\
    (forall i p s, slot_at w i p = Some s -> slot_at w' i p = Some s) /\
    match x with
    | Ok h => hold_range h = r /\ entry h ∈ res_in w' 1 /\
        (is_Some (slots_in w 1) -> forall p, 0 <= p < 0 + 2 ->
           exists f, slot_at w' 1 p = Some (Resident f))
    | Err e => reports w 1 0 (0 + 2) e
    end.
Proof.
  apply (materialize_range_ok frames0 [] (played script_filled) (mkRange 1 0 2)).
  - exact frames0_nodup.
  - apply played_reach. vm_compute. reflexivity.
  - apply (bool_decide_unpack _). vm_compute. exact I.
Defined.

(** [count_expected] over a sorted table counts the resident run from
    [expected] on. *)
Lemma count_expected_mono s e : e <= count_expected e s.
Proof.
  unfold count_expected. revert e. induction s as [|x s IH]; intros e; simpl; [lia|].
  case_match; [specialize (IH (e + 1)); lia|apply IH].
Qed.

Lemma count_expected_run s e hi :
  sorted s -> Forall (fun x => e <= x.1 < hi) s -> e <= hi ->
  count_expected e s <= hi /\
  (count_expected e s = hi <-> forall q, e <= q < hi -> exists f, tmap s !! q = Some (Resident f)).
Proof.
  intros Hs. revert e. induction Hs as [|[k v] s Hs IH Hk]; intros e Hin Hle.
  { unfold count_expected. simpl. split; [done|]. split; [lia|].
    intros Hq. destruct (decide (e = hi)); [done|]. destruct (Hq e ltac:(lia)) as [? ?]. done. }
  apply Forall_cons in Hin as [Hk0 Hin]. simpl in Hk0.
  assert (Hgt : Forall (fun x => k < x.1) s) by exact Hk.
  assert (Hin' : Forall (fun x => k + 1 <= x.1 < hi) s).
  { rewrite Forall_forall in *. intros x Hx. specialize (Hgt x Hx). specialize (Hin x Hx).
    simpl in *. lia. }
  assert (Hsk : tmap ((k, v) :: s) = <[k := v]> (tmap s)) by done.
  assert (Hnk : tmap s !! e = None \/ e = k).
  { destruct (decide (e = k)); [by right|left]. apply tmap_None. intros x Hx.
    rewrite Forall_forall in Hgt. specialize (Hgt _ Hx). simpl in Hgt. lia. }
  rewrite Hsk. unfold count_expected. simpl. fold (count_expected (e + 1) s).
  fold (count_expected e s). destruct (Z.eqb_spec k e) as [->|Hne]; simpl.
  - destruct v as [f| |f x|x m].
    { destruct (IH (e + 1) Hin' ltac:(lia)) as [Hb Hiff]. split; [done|]. rewrite Hiff. split.
      - intros Hq q Hqr. destruct (decide (e = q)) as [<-|]; [rewrite lookup_insert_eq; eauto|].
        rewrite lookup_insert_ne by done. apply Hq. lia.
      - intros Hq q Hqr. destruct (Hq q ltac:(lia)) as [g Hg].
        rewrite lookup_insert_ne in Hg by lia. eauto. }
    all: destruct (IH e Hin Hle) as [Hb Hiff]; split; [done|]; rewrite Hiff; split.
    all: intros Hq; exfalso; destruct (Hq e ltac:(lia)) as [g Hg].
    all: rewrite ?lookup_insert_eq in Hg; try done.
    all: apply elem_of_list_to_map_2 in Hg; rewrite Forall_forall in Hgt.
    all: specialize (Hgt _ Hg); simpl in Hgt; lia.
  - assert (Hf : tmap s !! e = None) by (destruct Hnk; [done|congruence]).
    assert (Hin2 : Forall (fun x => e <= x.1 < hi) s) by exact Hin.
    destruct (IH e Hin2 Hle) as [Hb Hiff]. split; [done|]. rewrite Hiff. split.
    + intros Hq. exfalso. destruct (Hq e ltac:(lia)). congruence.
    + intros Hq. exfalso. destruct (Hq e ltac:(lia)) as [? Hg].
      rewrite lookup_insert_ne in Hg by done. congruence.
Qed.

(** [fully_materialized] answers true exactly when every page of the
    range of a managed source is resident. *)
Theorem fully_materialized_iff frames heap c id index count fl :
  NoDup frames -> reach (boot frames heap) c -> flats (world c) !! id = Some fl ->
  0 <= index -> 0 <= count -> index + count <= page_count fl ->
  exists b, fully_materialized id index count (world c) = Some (Ok b, world c) /\
    (b = true <-> is_Some (slots_in (world c) id) /\
       forall q, index <= q < index + count ->
         exists f, slot_at (world c) id q = Some (Resident f)).
Proof.
  intros Hnd HC%reach_boot Hfl Hi Hc Hle; [|done]. pose proof (ci_inv _ HC) as HI.
  pose proof (wf_pages _ (wf_flats_flat _ _ _ (inv_wf _ _ HI) Hfl)) as Hpc.
  unfold fully_materialized, flat_of. munfold. rewrite Hfl.
  assert (check_window (page_count fl) index count = Ok (index + count)) as ->.
  { unfold check_window, mbind, result_bind, ok_or, checked_add.
    rewrite (proj2 (checked_Some _ _)) by (split; [done|apply usize_iff; lia]).
    by rewrite (proj2 (Z.ltb_ge _ _) Hle). }
  destruct (source (state fl)) as [s|] eqn:Hsrc.
  - eexists. split; [done|]. rewrite Z.eqb_eq.
    destruct (slot_at_state _ _ _ _ 0 Hfl Hsrc) as [Hs _].
    pose proof (wf_state_sorted _ _ _ _ (inv_wf _ _ HI) Hfl Hsrc) as Hsort.
    pose proof (window_sorted s index (index + count) Hsort) as Hws.
    destruct (count_expected_run (window s index (index + count)) index (index + count))
      as [_ Hiff]; [done| |lia|].
    { apply Forall_forall. intros x Hx. by apply window_elem_of in Hx as [_ ?]; [|done|lia]. }
    rewrite Hiff, Hs. split.
    + intros Hq. split; [eauto|]. intros q Hr. destruct (Hq q Hr) as [f Hf]. exists f.
      apply tmap_elem_of in Hf; [|done]. apply window_elem_of in Hf as [Hf _]; [|done|lia].
      rewrite (proj2 (slot_at_state _ _ _ _ q Hfl Hsrc)). by apply tmap_elem_of.
    + intros [_ Hq] q Hr. destruct (Hq q Hr) as [f Hf]. exists f.
      rewrite (proj2 (slot_at_state _ _ _ _ q Hfl Hsrc)) in Hf. apply tmap_elem_of in Hf; [|done].
      apply tmap_elem_of; [done|]. apply window_elem_of; [done|lia|done].
  - exists false. split; [done|]. split; [done|]. intros [[s Hs] _].
    unfold slots_in in Hs. rewrite Hfl in Hs. simpl in Hs. by rewrite Hsrc in Hs.
Qed.

Lemma fully_materialized_iff_witness :
  let w := world (played script_filled) in
  exists b, fully_materialized 0 0 2 w = Some (Ok b, w) /\
    (b = true <-> is_Some (slots_in w 0) /\
       forall q, 0 <= q < 0 + 2 -> exists f, slot_at w 0 q = Some (Resident f)).
Proof.
  eapply (fully_materialized_iff frames0 [] (played script_filled)).
  - exact frames0_nodup.
  - apply played_reach. vm_compute. reflexivity.
  - vm_compute. reflexivity.
  - lia.
  - lia.
  - simpl. lia.
Defined.
