(* ===== verification/Buddy.v ===== *)
(** * The physical frame allocator: [kernel/src/core/memory/flat/allocator/frame]

    A buddy allocator over the page frames of [base, edge).  Free blocks of
    2^power frames sit in one doubly linked list per power; the list nodes
    ([Link]) live in the free memory itself, and [pagemeta] records for the
    first frame of every free block the power it is filed under.

    [memory] holds the links written so far; reading an address that holds no
    link is undefined behaviour in the code and a panic here.  Counters and
    log lines for corrupted lists ([STALE_RM], [BAD], [LOST]) and the frame
    statistics are left out: they do not influence the allocator. *)

From S2P Require Import Prelude.

Open Scope Z_scope.

Record Link := mkLink { prev : option Z; next : option Z }.

Record FrameInner := mkInner {
  freelist : list (option Z);
  pagemeta : list (option Z);
  base : Z;
  edge : Z;
  memory : gmap Z Link
}.

Abbreviation B := (M FrameInner AllocError).

Definition set_freelist (l : list (option Z)) (s : FrameInner) : FrameInner :=
  mkInner l (pagemeta s) (base s) (edge s) (memory s).
Definition set_pagemeta (l : list (option Z)) (s : FrameInner) : FrameInner :=
  mkInner (freelist s) l (base s) (edge s) (memory s).
Definition set_memory (m : gmap Z Link) (s : FrameInner) : FrameInner :=
  mkInner (freelist s) (pagemeta s) (base s) (edge s) m.

(** ** Access *)

Definition frame_index (s : FrameInner) (addr : Z) : Z := (addr - base s) / PAGE_SIZE.
Definition frame_addr (s : FrameInner) (index : Z) : Z := base s + index * PAGE_SIZE.
Definition buddy_index (index power : Z) : Z := Z.lxor index (Z.shiftl 1 power).

Definition head_of (power : Z) : B (option Z) :=
  s ← get; expect (nth_z (freelist s) power).
Definition set_head (power : Z) (h : option Z) : B unit :=
  s ← get; head_of power ≫= fun _ =>
  put (set_freelist (<[Z.to_nat power := h]> (freelist s)) s).
Definition set_meta (index : Z) (o : option Z) : B unit :=
  s ← get; expect (nth_z (pagemeta s) index) ≫= fun _ =>
  put (set_pagemeta (<[Z.to_nat index := o]> (pagemeta s)) s).
Definition clear_head (index : Z) : B unit := set_meta index None.

Definition read_link (addr : Z) : B Link := s ← get; expect (memory s !! addr).
Definition write_link (addr : Z) (l : Link) : B unit :=
  s ← get; put (set_memory (<[addr := l]> (memory s)) s).
Definition set_prev (addr : Z) (p : option Z) : B unit :=
  l ← read_link addr; write_link addr (mkLink p (next l)).
(** [if let Some(n) = h], the [prev] field of the node [n] becomes [p]. *)
Definition back_link (h p : option Z) : B unit :=
  match h with Some n => set_prev n p | None => mret tt end.
Definition set_next (addr : Z) (n : option Z) : B unit :=
  l ← read_link addr; write_link addr (mkLink (prev l) n).

(** ** Link lists *)

Definition pull_link (power : Z) : B (option Z) :=
  h ← head_of power;
  match h with
  | None => mret None
  | Some a =>
      s ← get;
      let index := frame_index s a in
      if len (pagemeta s) <=? index then mret None
      else
        l ← read_link a;
        set_head power (next l) ;;
        back_link (next l) None ;;
        clear_head index ;;
        mret (Some index)
  end.

Definition push_link (index power : Z) : B unit :=
  s ← get;
  let addr := frame_addr s index in
  h ← head_of power;
  write_link addr (mkLink None h) ;;
  back_link h (Some addr) ;;
  set_head power (Some addr) ;;
  set_meta index (Some (power mod 256)).

Definition remove_link (index power : Z) : B unit :=
  s ← get;
  let addr := frame_addr s index in
  l ← read_link addr;
  match prev l with
  | Some p => set_next p (next l)
  | None => set_head power (next l)
  end ;;
  back_link (next l) (prev l).

Fixpoint in_freelist_loop (fuel : nat) (cur : option Z) (target : Z) : B bool :=
  match fuel, cur with
  | _, None => mret false
  | O, Some _ => panic
  | S fuel, Some node =>
      if node =? target then mret true
      else l ← read_link node; in_freelist_loop fuel (next l) target
  end.

(** A list never holds more blocks than there are frames. *)
Definition in_freelist (index power : Z) : B bool :=
  s ← get;
  cur ← head_of power;
  in_freelist_loop (length (pagemeta s)) cur (frame_addr s index).

(** ** Splitting and merging *)

Fixpoint split_down (n : nat) (index power : Z) : B unit :=
  match n with
  | O => mret tt
  | S n =>
      let k := power + Z.of_nat n in
      push_link (buddy_index index k) k ;; split_down n index power
  end.

Definition is_none {A} (o : option A) : bool := match o with None => true | Some _ => false end.

(** The first non-empty list from [power] on, taken apart down to [power]. *)
Definition split_block (power : Z) : B (option Z) :=
  s ← get;
  let k := power + Z.of_nat (partition_point is_none (drop (Z.to_nat power) (freelist s))) in
  if len (freelist s) <=? k then mret None
  else
    i ← pull_link k;
    match i with
    | None => mret None
    | Some index => split_down (Z.to_nat (k - power)) index power ;; mret (Some index)
    end.

Fixpoint merge_loop (n : nat) (index power : Z) : B (Z * Z) :=
  match n with
  | O => mret (index, power)
  | S n =>
      s ← get;
      let buddy := buddy_index index power in
      if len (pagemeta s) <=? buddy then mret (index, power)
      else
        m ← expect (nth_z (pagemeta s) buddy);
        if negb (match m with Some p => p =? power | None => false end)
        then mret (index, power)
        else
          found ← in_freelist buddy power;
          if negb found then mret (index, power)
          else
            remove_link buddy power ;;
            clear_head buddy ;;
            merge_loop n (Z.min index buddy) (power + 1)
  end.

Definition merge_block (index power : Z) : B unit :=
  clear_head index ;;
  s ← get;
  '(index, power) ← merge_loop (Z.to_nat (len (freelist s) - power)) index power;
  push_link index power ;;
  in_freelist index power ≫= fun _ => mret tt.

(** ** [Allocator for FrameAllocator] *)

Definition ilog2 (x : Z) : Z := Z.log2 x.
Definition next_power_of_two (x : Z) : Z := 2 ^ Z.log2_up x.

Definition block_power (size : Z) : Z :=
  ilog2 (next_power_of_two (next_multiple_of (Z.max size PAGE_SIZE) PAGE_SIZE)) - ilog2 PAGE_SIZE.

(** [allocate]: the address and the length of the block handed out. *)
Definition allocate (layout_size : Z) : B (Z * Z) :=
  let size := Z.max layout_size PAGE_SIZE in
  i ← split_block (block_power size);
  index ← lift (ok_or i AllocErr);
  s ← get;
  let addr := frame_addr s index in
  assert_that ((base s <=? addr) && (addr <? edge s)) ;;
  if addr =? 0 then fail AllocErr else mret (addr, size).

Definition deallocate (addr layout_size : Z) : B unit :=
  s ← get;
  let size := Z.max layout_size PAGE_SIZE in
  assert_that ((base s <=? addr) && (addr <? edge s)) ;;
  merge_block (frame_index s addr) (block_power size).

(** ** Initialization *)

Fixpoint pos_trailing_zeros (p : positive) : Z :=
  match p with xO p => 1 + pos_trailing_zeros p | _ => 0 end.
Definition trailing_zeros (x : Z) : Z :=
  match x with Zpos p => pos_trailing_zeros p | _ => 64 end.

(** The frames that reserved memory touches; [reserved] lists the (base, size)
    pairs of the board description.  The end of a region is a checked sum: a region
    that runs past the address space panics.  The code sorts the holes, which neither
    the search below nor the minimum depends on. *)
Definition hole_of (base edge max_frame : Z) (r : Z * Z) : option (option (Z * Z)) :=
  he ← checked_add r.1 r.2;
  let hs := r.1 in
  Some (if (he <=? base) || (edge <=? hs) then None
        else Some (Z.min ((Z.max hs base - base) / PAGE_SIZE) max_frame,
                   Z.min (div_ceil (Z.min he edge - base) PAGE_SIZE) max_frame)).

Definition holes (reserved : list (Z * Z)) (base edge max_frame : Z) : option (list (Z * Z)) :=
  out ← mapM (hole_of base edge max_frame) reserved; Some (omap (fun h => h) out).

Definition hole_containing (hs : list (Z * Z)) (index : Z) : option Z :=
  snd <$> List.find (fun h => (h.1 <=? index) && (index <? h.2)) hs.

Definition hole_limit (hs : list (Z * Z)) (index max_frame : Z) : Z :=
  match List.filter (fun s => index <? s) hs.*1 with
  | [] => max_frame
  | s :: ss => fold_left Z.min ss s
  end.

(** [while index + (1 << power) > limit { power -= 1 }] *)
Fixpoint fit_power (power : nat) (index limit : Z) : option Z :=
  if limit <? index + Z.shiftl 1 (Z.of_nat power)
  then match power with O => None | S p => fit_power p index limit end
  else Some (Z.of_nat power).

Fixpoint init_loop (fuel : nat) (hs : list (Z * Z)) (max_frame max_power index remaining : Z) :
    B unit :=
  if remaining <=? 0 then mret tt
  else match fuel with
  | O => panic
  | S fuel =>
      match hole_containing hs index with
      | Some end_ =>
          let skip := end_ - index in
          remaining ← usub remaining skip;
          init_loop fuel hs max_frame max_power (index + skip) remaining
      | None =>
          let limit := hole_limit hs index max_frame in
          let power := Z.min (Z.min (trailing_zeros index) (ilog2 remaining)) (max_power - 1) in
          power ← expect (fit_power (Z.to_nat power) index limit);
          push_link index power ;;
          remaining ← usub remaining (Z.shiftl 1 power);
          init_loop fuel hs max_frame max_power (index + Z.shiftl 1 power) remaining
      end
  end.

(** [FrameInner::init]: [frontier] is the bump frontier before the tables are
    allocated from it, [frontier'] after, [tables] the outcome of allocating
    the three tables ([freelist], [pagemeta] and the statistics' kinds).  Rounding a
    frontier up to a page panics where that leaves the address space. *)
Definition init (edge frontier frontier' : Z) (tables : result InitError unit)
    (reserved : list (Z * Z)) :
    option (result InitError FrameInner) :=
  prov_base ← checked (next_multiple_of frontier PAGE_SIZE);
  if saturating_sub edge prov_base / PAGE_SIZE =? 0 then Some (Err NoFreeFrames)
  else match tables with Err e => Some (Err e) | Ok _ =>
    base ← checked (next_multiple_of frontier' PAGE_SIZE);
    let max_frame := saturating_sub edge base / PAGE_SIZE in
    if max_frame =? 0 then Some (Err NoFreeFrames)
    else
      let max_power := ilog2 max_frame + 1 in
      let s := mkInner (replicate (Z.to_nat max_power) None)
                 (replicate (Z.to_nat max_frame) None) base edge ∅ in
      hs ← holes reserved base edge max_frame;
      match init_loop (Z.to_nat max_frame) hs max_frame max_power 0 max_frame s with
      | Some (_, s) => Some (Ok s)
      | None => None
      end
  end.

(** The power of the lowest list that is not empty. *)
Definition lowest_free_power (s : FrameInner) : option nat :=
  position (fun h => negb (is_none h)) (freelist s).

(** Sixteen frames with frame 5 reserved: two allocations and a release. *)
Example buddy_demo :
  match init (4096 * 17) 4096 4096 (Ok tt) [(4096 * 6, 100)] with
  | Some (Ok s) =>
      match allocate 4096 s with
      | Some (Ok (a, _), s1) =>
          match allocate 8192 s1 with
          | Some (Ok (b, _), s2) =>
              Some (a, b, match deallocate a 4096 s2 with
                          | Some (Ok _, s3) => freelist s3 | _ => [] end)
          | _ => None
          end
      | _ => None
      end
  | _ => None
  end = Some (4096 * 5, 4096 * 7,
              [Some (4096 * 5); None; Some 4096; Some (4096 * 9); None]).
Proof. vm_compute. reflexivity. Qed.
