(* ===== verification/BuddyInv.v ===== *)
(** * The buddy allocator: representation and invariant

    Doubly linked lists in memory, blocks as sets of frames, and the
    invariant that ties the lists and the page metadata to a partition of
    the managed frames into free and allocated blocks. *)

From S2P Require Import Prelude.
From S2P Require Import Buddy.

Open Scope Z_scope.

(** ** Doubly linked lists *)

(** From [cur] on, [m] links the addresses [l] in order; [p] is what the first
    node's [prev] holds. *)
Fixpoint dll (m : gmap Z Link) (p cur : option Z) (l : list Z) : Prop :=
  match l with
  | [] => cur = None
  | a :: l => cur = Some a /\ exists nx, m !! a = Some (mkLink p nx) /\ dll m (Some a) nx l
  end.

Lemma dll_frame m m' p cur l :
  (forall a, a ∈ l -> m' !! a = m !! a) -> dll m p cur l -> dll m' p cur l.
Proof.
  revert p cur. induction l as [|a l IH]; intros p cur Hf; simpl; [done|].
  intros (-> & nx & Ha & Hd). split; [done|]. exists nx. split.
  - rewrite Hf; [done|by left].
  - apply IH; [|done]. intros b Hb. apply Hf. by right.
Qed.

(** Changing what the first node points back to. *)
Definition set_back (m : gmap Z Link) (h p : option Z) : gmap Z Link :=
  match h with
  | Some a => match m !! a with Some l => <[a := mkLink p (next l)]> m | None => m end
  | None => m
  end.

Lemma dll_set_back m p q cur l :
  NoDup l -> dll m p cur l -> dll (set_back m cur q) q cur l.
Proof.
  destruct l as [|a l]; simpl; [by intros _ ->|].
  intros [Ha _]%NoDup_cons (-> & nx & Hm & Hd). simpl. rewrite Hm. split; [done|].
  exists nx. split; [by rewrite lookup_insert_eq|]. eapply dll_frame; [|done].
  intros b Hb. rewrite lookup_insert_ne; [done|]. by intros ->.
Qed.

Lemma set_back_other m h p a : h <> Some a -> set_back m h p !! a = m !! a.
Proof.
  intros Hne. unfold set_back. destruct h as [b|]; [|done].
  destruct (m !! b) as [l|]; [|done]. rewrite lookup_insert_ne; [done|]. congruence.
Qed.

Lemma dll_head m p cur l a : dll m p cur l -> cur = Some a -> exists l', l = a :: l'.
Proof. destruct l as [|b l]; simpl; [by intros ->|]. intros (-> & _) [= ->]. eauto. Qed.

Lemma dll_node m p cur l1 a l2 :
  dll m p cur (l1 ++ a :: l2) ->
  exists q nx, m !! a = Some (mkLink q nx) /\ dll m (Some a) nx l2 /\
    q = (match last l1 with Some b => Some b | None => p end).
Proof.
  revert p cur. induction l1 as [|b l1 IH]; intros p cur; simpl.
  - intros (-> & nx & ? & ?). eauto 6.
  - intros (-> & nx & Hb & Hd). destruct (IH _ _ Hd) as (q & nx' & ? & ? & ->).
    eexists _, nx'. split_and!; [done..|]. destruct l1 as [|c l1]; [done|]. simpl.
    destruct (last (c :: l1)) eqn:Hl; [done|]. by apply last_None in Hl.
Qed.

Lemma dll_next m p cur l1 a l2 q nx :
  dll m p cur (l1 ++ a :: l2) -> m !! a = Some (mkLink q nx) -> dll m (Some a) nx l2.
Proof. intros Hd Ha. destruct (dll_node _ _ _ _ _ _ Hd) as (? & ? & ? & ? & _). by simplify_eq. Qed.

(** Unlinking [a]: [m'] agrees with [m] except that its neighbours skip it. *)
Lemma dll_unlink m p cur l1 a l2 nx :
  NoDup (l1 ++ a :: l2) -> dll m p cur (l1 ++ a :: l2) ->
  m !! a = Some (mkLink (match last l1 with Some b => Some b | None => p end) nx) ->
  dll (set_back (match last l1 with
                 | Some b => match m !! b with Some l => <[b := mkLink (prev l) nx]> m | None => m end
                 | None => m
                 end) nx (match last l1 with Some b => Some b | None => p end))
    p (match l1 with [] => nx | b :: _ => Some b end) (l1 ++ l2).
Proof.
  revert p cur. induction l1 as [|b l1 IH]; intros p cur Hnd Hd Ha; simpl in *.
  - destruct Hd as (-> & nx' & Ha' & Hd). simplify_eq. apply NoDup_cons in Hnd as [_ Hnd].
    by eapply dll_set_back.
  - destruct Hd as (-> & nb & Hb & Hd). apply NoDup_cons in Hnd as [Hbn Hnd].
    rewrite elem_of_app, elem_of_cons in Hbn. split; [done|].
    pose proof (dll_next _ _ _ _ _ _ _ _ Hd Ha) as Hd2.
    assert (Hnx : nx <> Some b).
    { intros ->. destruct (dll_head _ _ _ _ b Hd2 eq_refl) as [l' ->].
      apply Hbn. right. right. by left. }
    destruct l1 as [|c l1].
    + simpl in *. rewrite Hb. exists nx.
      rewrite set_back_other by done. rewrite lookup_insert_eq. simpl. split; [done|].
      apply NoDup_cons in Hnd as [_ Hnd]. eapply dll_set_back; [done|].
      eapply dll_frame; [|exact Hd2]. intros x Hx. rewrite lookup_insert_ne; [done|].
      intros <-. apply Hbn. auto.
    + destruct (last (b :: c :: l1)) as [d|] eqn:Hl.
      2: { by apply last_None in Hl. }
      assert (Hl' : last (c :: l1) = Some d) by exact Hl.
      rewrite Hl' in IH. specialize (IH (Some b) nb Hnd Hd Ha).
      assert (Hdb : d <> b).
      { intros ->. apply Hbn. left. by apply last_Some_elem_of in Hl'. }
      exists (Some c). split; [|done]. rewrite set_back_other by done.
      destruct Hd as (-> & _). destruct (m !! d) as [ld|]; [|done].
      by rewrite lookup_insert_ne.
Qed.

(** ** Blocks and partitions *)

(** A block is the frames [i, i + 2^k). *)
Abbreviation block := (Z * Z)%type (only parsing).
Definition in_block (p : Z) (b : block) : Prop := b.1 <= p < b.1 + 2 ^ b.2.
Definition aligned (b : block) : Prop := 0 <= b.2 /\ 0 <= b.1 /\ (2 ^ b.2 | b.1).

#[global] Instance in_block_dec p b : Decision (in_block p b).
Proof. unfold in_block. apply _. Defined.

Record partition (bs : gset block) (T : Z -> Prop) : Prop := {
  pa_aligned : forall b, b ∈ bs -> aligned b;
  pa_disjoint : forall b b' p, b ∈ bs -> b' ∈ bs -> in_block p b -> in_block p b' -> b = b';
  pa_cover : forall p, T p <-> exists b, b ∈ bs /\ in_block p b
}.

Lemma pow2_pos k : 0 <= k -> 0 < 2 ^ k.
Proof. intros. apply Z.pow_pos_nonneg; lia. Qed.

Lemma head_in_block b : aligned b -> in_block b.1 b.
Proof. intros (Hk & _ & _). pose proof (pow2_pos _ Hk). unfold in_block. lia. Qed.

(** Index arithmetic of buddies. *)
Lemma aligned_testbit i k j : 0 <= k -> (2 ^ k | i) -> 0 <= j < k -> Z.testbit i j = false.
Proof.
  intros Hk [q ->] Hj. rewrite Z.mul_pow2_bits_low; [done|lia].
Qed.

Lemma buddy_xor i k :
  aligned (i, k) ->
  buddy_index i k = if Z.testbit i k then i - 2 ^ k else i + 2 ^ k.
Proof.
  intros (Hk & Hi & Hd). simpl in *. unfold buddy_index. rewrite Z.shiftl_1_l.
  destruct (Z.testbit i k) eqn:Hb.
  - rewrite Z.lxor_comm. rewrite Z.sub_nocarry_ldiff.
    + apply Z.bits_inj'. intros j Hj.
      rewrite Z.lxor_spec, Z.ldiff_spec, Z.pow2_bits_eqb by done.
      destruct (Z.eqb_spec k j); [subst; by rewrite Hb|].
      by rewrite xorb_false_l, andb_true_r.
    + apply Z.bits_inj'. intros j Hj. rewrite Z.ldiff_spec, Z.pow2_bits_eqb, Z.bits_0 by done.
      destruct (Z.eqb_spec k j); [subst; by rewrite Hb|done].
  - rewrite Z.add_nocarry_lxor; [done|]. apply Z.bits_inj'. intros j Hj.
    rewrite Z.land_spec, Z.pow2_bits_eqb, Z.bits_0 by done.
    destruct (Z.eqb_spec k j); [subst; by rewrite Hb|]. by rewrite andb_false_r.
Qed.

Lemma testbit_parent i k :
  aligned (i, k) -> Z.testbit i k = false <-> (2 ^ (k + 1) | i).
Proof.
  intros (Hk & Hi & Hq). simpl in *. destruct Hq as [q ->].
  rewrite Z.mul_pow2_bits, Z.sub_diag by lia.
  rewrite Z.pow_add_r by lia. change (2 ^ 1) with 2. split.
  - intros Hb. rewrite Z.bit0_odd in Hb. pose proof (Z.negb_odd q) as He.
    rewrite Hb in He. symmetry in He. apply Z.even_spec in He as [r ->].
    exists r. lia.
  - intros [r Hr]. assert (q = r * 2) as ->.
    { apply (Z.mul_reg_r _ _ (2 ^ k)); [pose proof (pow2_pos k Hk); lia|]. lia. }
    rewrite Z.bit0_odd, Z.odd_mul. apply andb_false_r.
Qed.

(** The lower half and the upper half of the parent block. *)
Lemma buddy_lower i k :
  aligned (i, k + 1) -> 0 <= k -> buddy_index i k = i + 2 ^ k /\ aligned (i, k) /\ aligned (i + 2 ^ k, k).
Proof.
  intros (Hk & Hi & Hd) Hk0. simpl in *. pose proof (pow2_pos k Hk0).
  assert (Ha : aligned (i, k)).
  { split_and!; simpl; [lia..|]. destruct Hd as [q ->]. exists (q * 2).
    rewrite Z.pow_add_r by lia. change (2 ^ 1) with 2. lia. }
  split_and!; [|done|].
  - rewrite buddy_xor by done. by rewrite (proj2 (testbit_parent i k Ha)).
  - destruct Ha as (_ & _ & Ha). simpl in Ha. split_and!; simpl; [lia..|].
    apply Z.divide_add_r; [done|]. apply Z.divide_refl.
Qed.

Lemma buddy_parent i k :
  aligned (i, k) ->
  let b := buddy_index i k in
  aligned (Z.min i b, k + 1) /\ aligned (b, k) /\
  (b = Z.min i b + 2 ^ k /\ i = Z.min i b \/ i = Z.min i b + 2 ^ k /\ b = Z.min i b).
Proof.
  intros Ha b. pose proof Ha as (Hk & Hi & Hd). simpl in *. pose proof (pow2_pos k Hk).
  unfold b. rewrite buddy_xor by done. destruct (Z.testbit i k) eqn:Hb.
  - assert (Hge : 2 ^ k <= i).
    { destruct Hd as [q ->]. assert (q <> 0).
      { intros ->. rewrite Z.mul_0_l, Z.bits_0 in Hb. done. }
      assert (0 < q) by (apply (Z.mul_pos_cancel_r q (2 ^ k)); lia). nia. }
    assert (Hp : aligned (i - 2 ^ k, k)).
    { split_and!; simpl; [lia..|]. apply Z.divide_sub_r; [done|apply Z.divide_refl]. }
    rewrite Z.min_r by lia. split_and!; [|done|right; lia].
    split_and!; simpl; [lia..|]. apply testbit_parent; [done|].
    destruct Hd as [q ->]. rewrite <- (Z.mul_1_l (2 ^ k)) at 2. rewrite <- Z.mul_sub_distr_r.
    rewrite Z.mul_pow2_bits, Z.sub_diag in Hb |- * by lia.
    rewrite Z.bit0_odd in Hb |- *. rewrite Z.odd_sub, Hb. done.
  - rewrite Z.min_l by lia. apply testbit_parent in Hb; [|done]. split_and!; [|..|left; lia].
    + split_and!; simpl; [lia..|done].
    + split_and!; simpl; [lia..|]. apply Z.divide_add_r; [done|apply Z.divide_refl].
Qed.

Lemma block_halves i k p :
  0 <= k -> in_block p (i, k + 1) <-> in_block p (i, k) \/ in_block p (i + 2 ^ k, k).
Proof.
  intros Hk. unfold in_block. simpl. rewrite Z.pow_add_r by lia. change (2 ^ 1) with 2.
  pose proof (pow2_pos k Hk). lia.
Qed.

Lemma partition_split bs T i k :
  partition ({[(i, k + 1)]} ∪ bs) T -> (i, k + 1) ∉ bs -> 0 <= k ->
  partition ({[(i, k)]} ∪ ({[(i + 2 ^ k, k)]} ∪ bs)) T.
Proof.
  intros [Ha Hd Hc] Hn Hk. destruct (buddy_lower i k) as (_ & Hl & Hu); [apply Ha; set_solver|done|].
  pose proof (pow2_pos k Hk) as Hpos.
  assert (Hout : forall b p, b ∈ bs -> in_block p b -> ~ in_block p (i, k + 1)).
  { intros b p Hb Hp Hp'. apply Hn. rewrite (Hd (i, k + 1) b p); [done|set_solver..|done|done]. }
  assert (Hhalf : forall p, in_block p (i, k) -> in_block p (i + 2 ^ k, k) -> False).
  { unfold in_block. simpl. lia. }
  split.
  - intros b. rewrite !elem_of_union, !elem_of_singleton. intros [->|[->|Hb]]; [done..|].
    apply Ha. set_solver.
  - intros b b' p. rewrite !elem_of_union, !elem_of_singleton.
    pose proof (block_halves i k p Hk) as Hh.
    intros [->|[->|Hb]] [->|[->|Hb']] Hp Hp'; try done.
    + by destruct (Hhalf p).
    + destruct (Hout b' p Hb' Hp'). apply Hh. by left.
    + by destruct (Hhalf p).
    + destruct (Hout b' p Hb' Hp'). apply Hh. by right.
    + destruct (Hout b p Hb Hp). apply Hh. by left.
    + destruct (Hout b p Hb Hp). apply Hh. by right.
    + apply (Hd _ _ p); [set_solver..|done|done].
  - intros p. rewrite Hc. pose proof (block_halves i k p Hk) as Hh. split.
    + intros (b & [->%elem_of_singleton|Hb]%elem_of_union & Hp).
      * apply Hh in Hp as [Hp|Hp]; eexists; (split; [|exact Hp]); set_solver.
      * exists b. split; [set_solver|done].
    + intros (b & Hb & Hp). rewrite !elem_of_union, !elem_of_singleton in Hb.
      destruct Hb as [->|[->|Hb]].
      * exists (i, k + 1). split; [set_solver|]. apply Hh. by left.
      * exists (i, k + 1). split; [set_solver|]. apply Hh. by right.
      * exists b. split; [set_solver|done].
Qed.

Lemma partition_join bs T i k :
  partition ({[(i, k)]} ∪ ({[(i + 2 ^ k, k)]} ∪ bs)) T -> aligned (i, k + 1) -> 0 <= k ->
  (i, k) ∉ bs -> (i + 2 ^ k, k) ∉ bs ->
  partition ({[(i, k + 1)]} ∪ bs) T.
Proof.
  intros [Ha Hd Hc] Hal Hk Hn1 Hn2.
  assert (Hout : forall b p, b ∈ bs -> in_block p b -> ~ in_block p (i, k + 1)).
  { intros b p Hb Hp [Hp'|Hp']%block_halves; [| |done].
    - apply Hn1. rewrite (Hd (i, k) b p); [done|set_solver..|done|done].
    - apply Hn2. rewrite (Hd (i + 2 ^ k, k) b p); [done|set_solver..|done|done]. }
  split.
  - intros b [->%elem_of_singleton|Hb]%elem_of_union; [done|]. apply Ha. set_solver.
  - intros b b' p. rewrite !elem_of_union, !elem_of_singleton.
    intros [->|Hb] [->|Hb'] Hp Hp'; try done.
    + exfalso. by eapply Hout.
    + exfalso. by eapply Hout.
    + apply (Hd _ _ p); [set_solver..|done|done].
  - intros p. rewrite Hc. pose proof (block_halves i k p Hk) as Hh. split.
    + intros (b & Hb & Hp). rewrite !elem_of_union, !elem_of_singleton in Hb.
      destruct Hb as [->|[->|Hb]].
      * exists (i, k + 1). split; [set_solver|]. apply Hh. by left.
      * exists (i, k + 1). split; [set_solver|]. apply Hh. by right.
      * exists b. split; [set_solver|done].
    + intros (b & [->%elem_of_singleton|Hb]%elem_of_union & Hp).
      * apply Hh in Hp as [Hp|Hp]; eexists; (split; [|exact Hp]); set_solver.
      * exists b. split; [set_solver|done].
Qed.

(** ** The lists and the metadata represent a set of free blocks *)

Definition geometry (s : FrameInner) : Z * Z * nat * nat :=
  (base s, edge s, length (freelist s), length (pagemeta s)).

(** [frame_addr], as a function of the allocator's base. *)
Definition addr_at (b index : Z) : Z := b + index * PAGE_SIZE.

Record Rep (s : FrameInner) (F : gset block) (ls : nat -> list Z) : Prop := {
  rp_dll : forall k h, freelist s !! k = Some h -> dll (memory s) None h (addr_at (base s) <$> ls k);
  rp_mem : forall i k, (i, k) ∈ F <-> 0 <= k < len (freelist s) /\ i ∈ ls (Z.to_nat k);
  rp_nodup : forall k, NoDup (ls k);
  rp_range : forall i k, (i, k) ∈ F -> 0 <= i < len (pagemeta s);
  rp_meta : forall i k, 0 <= i -> nth_z (pagemeta s) i = Some (Some k) <-> (i, k) ∈ F;
  rp_powers : (length (freelist s) <= 256)%nat
}.

Lemma frame_addr_inj b i j : addr_at b i = addr_at b j -> i = j.
Proof. unfold addr_at, PAGE_SIZE. lia. Qed.

#[global] Instance frame_addr_inj' b : Inj (=) (=) (addr_at b).
Proof. intros i j. apply frame_addr_inj. Qed.

Lemma frame_index_addr s i : frame_index s (addr_at (base s) i) = i.
Proof.
  unfold frame_index, addr_at, PAGE_SIZE.
  replace (base s + i * 4096 - base s) with (i * 4096) by lia. by apply Z.div_mul.
Qed.

Lemma Rep_uniq s F ls i k k' : Rep s F ls -> (i, k) ∈ F -> (i, k') ∈ F -> k = k'.
Proof.
  intros HR H1 H2. destruct (rp_range _ _ _ HR i k H1).
  apply (rp_meta _ _ _ HR) in H1, H2; [|done..]. congruence.
Qed.

Definition upd_ls (ls : nat -> list Z) (k : Z) (l : list Z) : nat -> list Z :=
  fun j => if decide (j = Z.to_nat k) then l else ls j.

Lemma elem_of_fmap_addr b i (l : list Z) : addr_at b i ∈ addr_at b <$> l <-> i ∈ l.
Proof.
  split; [|apply list_elem_of_fmap_2].
  intros (j & Hj & Hin)%list_elem_of_fmap. by apply frame_addr_inj in Hj as ->.
Qed.

(** Reading the head list of a power. *)
Lemma head_of_run s k h : nth_z (freelist s) k = Some h -> head_of k s = Some (Ok h, s).
Proof. intros Hh. unfold head_of. munfold. by rewrite Hh. Qed.

Lemma set_head_run s k h h' :
  nth_z (freelist s) k = Some h ->
  set_head k h' s = Some (Ok tt, set_freelist (<[Z.to_nat k := h']> (freelist s)) s).
Proof. intros Hh. unfold set_head. munfold. by rewrite (head_of_run _ _ _ Hh). Qed.

Lemma set_meta_run s i o o' :
  nth_z (pagemeta s) i = Some o ->
  set_meta i o' s = Some (Ok tt, set_pagemeta (<[Z.to_nat i := o']> (pagemeta s)) s).
Proof. intros Hh. unfold set_meta. munfold. by rewrite Hh. Qed.

(** The optional write of a [prev] field. *)
Lemma back_run s h p :
  (forall a, h = Some a -> is_Some (memory s !! a)) ->
  back_link h p s =
  Some (Ok tt, set_memory (set_back (memory s) h p) s).
Proof.
  intros Hh. destruct h as [a|]; simpl; [|by destruct s].
  destruct (Hh a eq_refl) as [l Hl]. unfold set_prev, read_link, write_link. munfold. by rewrite Hl.
Qed.

(** ** List operations on the represented set *)

(** Lists of different powers share no node. *)
Lemma Rep_lists s F ls i j k :
  Rep s F ls -> (j < length (freelist s))%nat -> (k < length (freelist s))%nat ->
  i ∈ ls j -> i ∈ ls k -> j = k.
Proof.
  intros HR Hj Hk H1 H2.
  assert (E : Z.of_nat j = Z.of_nat k); [|lia].
  apply (Rep_uniq s F ls i); [done|..]; apply (rp_mem _ _ _ HR); unfold len;
    rewrite Nat2Z.id; (split; [lia|done]).
Qed.

Lemma Rep_list_mem s F ls i j :
  Rep s F ls -> (j < length (freelist s))%nat -> i ∈ ls j <-> (i, Z.of_nat j) ∈ F.
Proof.
  intros HR Hj. rewrite (rp_mem _ _ _ HR), Nat2Z.id. unfold len. split; [|naive_solver].
  intros. split; [lia|done].
Qed.

Lemma upd_ls_eq ls k l j : j = Z.to_nat k -> upd_ls ls k l j = l.
Proof. intros ->. unfold upd_ls. by rewrite decide_True. Qed.
Lemma upd_ls_ne ls k l j : j <> Z.to_nat k -> upd_ls ls k l j = ls j.
Proof. intros. unfold upd_ls. by rewrite decide_False. Qed.

Lemma push_link_rep s F ls i k :
  Rep s F ls -> 0 <= i < len (pagemeta s) -> 0 <= k < len (freelist s) ->
  (forall k', (i, k') ∉ F) ->
  exists s', push_link i k s = Some (Ok tt, s') /\
    Rep s' ({[(i, k)]} ∪ F) (upd_ls ls k (i :: ls (Z.to_nat k))) /\ geometry s' = geometry s.
Proof.
  intros HR Hi Hk Hfresh. set (a := addr_at (base s) i).
  destruct (nth_z_lt _ _ Hk) as [h Hh]. destruct (nth_z_lt _ _ Hi) as [o Ho].
  pose proof (rp_dll _ _ _ HR _ _ Hh) as Hd. set (l := ls (Z.to_nat k)) in *.
  assert (Hkn : (Z.to_nat k < length (freelist s))%nat) by (unfold len in Hk; lia).
  assert (Hnot : forall j, (j < length (freelist s))%nat -> i ∉ ls j).
  { intros j Hj Hin. apply (Hfresh (Z.of_nat j)). by apply (Rep_list_mem s F ls). }
  assert (Hha : h <> Some a).
  { intros ->. destruct (dll_head _ _ _ _ a Hd eq_refl) as [l' Hl].
    apply (Hnot _ Hkn). apply (elem_of_fmap_addr (base s)). fold l. rewrite Hl. by left. }
  set (m1 := <[a := mkLink None h]> (memory s)).
  assert (Hm1 : forall b, h = Some b -> is_Some (m1 !! b)).
  { intros b ->. destruct l as [|x l']; simpl in Hd; [done|]. destruct Hd as (Hb & nx & Hm & _).
    injection Hb as ->. unfold m1. rewrite lookup_insert_ne; [eauto|]. congruence. }
  eexists. split; [|split].
  { unfold push_link, write_link. munfold. rewrite (head_of_run _ _ _ Hh).
    change (frame_addr s i) with a.
    fold m1.
    rewrite (back_run (set_memory m1 s) h (Some a) Hm1).
    rewrite (set_head_run _ _ h) by done. rewrite (set_meta_run _ _ o) by done. done. }
  2: { unfold geometry. simpl. by rewrite !length_insert. }
  set (m2 := set_back m1 h (Some a)).
  assert (Hother : forall b, b <> a -> h <> Some b -> m2 !! b = memory s !! b).
  { intros b Hb Hhb. unfold m2. rewrite set_back_other by done. unfold m1.
    rewrite lookup_insert_ne; [done|congruence]. }
  split; simpl.
  - intros j h' Hj. rewrite list_lookup_insert in Hj. destruct (decide _) as [[E _]|Hne].
    + injection Hj as <-. rewrite upd_ls_eq by lia. simpl. split; [done|]. exists h. split.
      { change (set_back m1 h (Some a) !! a = Some (mkLink None h)).
        rewrite set_back_other by done. apply lookup_insert_eq. }
      eapply dll_set_back; [apply NoDup_fmap; [apply _|]; apply HR|].
      eapply dll_frame; [|exact Hd]. intros b (x & -> & Hx)%list_elem_of_fmap.
      unfold m1. rewrite lookup_insert_ne; [done|]. intros ->%frame_addr_inj. by apply (Hnot _ Hkn).
    + assert (Hjk : j <> Z.to_nat k) by (intros ->; apply Hne; split; [done|lia]).
      rewrite upd_ls_ne by done.
      pose proof (lookup_lt_Some _ _ _ Hj) as Hjn.
      eapply dll_frame; [|by apply (rp_dll _ _ _ HR)]. intros b (x & -> & Hx)%list_elem_of_fmap.
      apply Hother.
      * intros ->%frame_addr_inj. by apply (Hnot j Hjn).
      * intros ->. destruct (dll_head _ _ _ _ _ Hd eq_refl) as [l' Hl].
        apply Hjk. eapply (Rep_lists s F ls x); [done..|]. fold l.
        apply (elem_of_fmap_addr (base s)). rewrite Hl. by left.
  - intros x k'. rewrite elem_of_union, elem_of_singleton, (rp_mem _ _ _ HR).
    unfold len. rewrite length_insert. destruct (decide (Z.to_nat k' = Z.to_nat k)) as [E|E].
    + rewrite upd_ls_eq by done. rewrite elem_of_cons. rewrite E. fold l.
      unfold len in Hk. split.
      * intros [[= -> ->]|[? ?]]; [split; [lia|by left]|split; [done|by right]].
      * intros [? [->|?]]; [left; f_equal; lia|by right].
    + rewrite upd_ls_ne by done. split; [|naive_solver]. intros [[= -> ->]|?]; done.
  - intros j. unfold upd_ls. case_decide; [|apply HR]. constructor; [by apply Hnot|apply HR].
  - intros x k' [[= -> ->]%elem_of_singleton|Hx]%elem_of_union; unfold len; rewrite length_insert;
      [done|by eapply (rp_range _ _ _ HR)].
  - intros x k' Hx. unfold nth_z. rewrite list_lookup_insert.
    pose proof (rp_powers _ _ _ HR) as Hpow. unfold len in Hk, Hi.
    destruct (decide _) as [[E _]|Hne].
    + assert (x = i) as -> by lia. rewrite Z.mod_small by lia.
      rewrite elem_of_union, elem_of_singleton. split; [intros [= ->]; by left|].
      intros [[= ->]|Hin]; [done|]. by apply Hfresh in Hin.
    + rewrite elem_of_union, elem_of_singleton, <- (rp_meta _ _ _ HR) by done.
      split; [by right|]. intros [[= -> _]|?]; [|done]. exfalso. apply Hne. lia.
  - rewrite length_insert. apply HR.
Qed.

(** The memory after unlinking a node with the links [q] and [nx]. *)
Definition unlinked (m : gmap Z Link) (q nx : option Z) : gmap Z Link :=
  set_back (match q with
            | Some b => match m !! b with Some l => <[b := mkLink (prev l) nx]> m | None => m end
            | None => m
            end) nx q.

Lemma unlinked_other m q nx c : q <> Some c -> nx <> Some c -> unlinked m q nx !! c = m !! c.
Proof.
  intros Hq Hn. unfold unlinked. rewrite set_back_other by done. destruct q as [b|]; [|done].
  destruct (m !! b); [|done]. rewrite lookup_insert_ne; [done|congruence].
Qed.

Lemma remove_link_run s i k h q nx :
  nth_z (freelist s) k = Some h -> memory s !! addr_at (base s) i = Some (mkLink q nx) ->
  (forall b, q = Some b -> is_Some (memory s !! b)) ->
  (forall b, nx = Some b -> is_Some (memory s !! b)) ->
  remove_link i k s = Some (Ok tt,
    set_memory (unlinked (memory s) q nx)
      (match q with
       | Some _ => s
       | None => set_freelist (<[Z.to_nat k := nx]> (freelist s)) s
       end)).
Proof.
  intros Hh Hm Hq Hnx. unfold remove_link, read_link. munfold.
  change (frame_addr s i) with (addr_at (base s) i). rewrite Hm. simpl. destruct q as [b|].
  - destruct (Hq b eq_refl) as [lb Hb]. unfold set_next, read_link, write_link. munfold.
    rewrite Hb. rewrite back_run.
    + unfold unlinked. rewrite Hb. done.
    + intros c ->. simpl. destruct (decide (b = c)) as [->|].
      * rewrite lookup_insert_eq. eauto.
      * rewrite lookup_insert_ne by done. by apply Hnx.
  - rewrite (set_head_run _ _ h) by done. rewrite back_run by exact Hnx. done.
Qed.

Lemma dll_mem m p cur l : dll m p cur l -> forall a, cur = Some a -> a ∈ l /\ is_Some (m !! a).
Proof.
  destruct l as [|b l]; simpl; [by intros ->|]. intros (-> & nx & Hb & _) a [= ->].
  split; [by left|eauto].
Qed.

(** Splitting the list of a free block around it. *)
Lemma Rep_node s F ls i k :
  Rep s F ls -> (i, k) ∈ F ->
  exists l1 l2 h q nx, ls (Z.to_nat k) = l1 ++ i :: l2 /\ nth_z (freelist s) k = Some h /\
    memory s !! addr_at (base s) i = Some (mkLink q nx) /\
    q = last (addr_at (base s) <$> l1) /\
    dll (memory s) (Some (addr_at (base s) i)) nx (addr_at (base s) <$> l2) /\
    dll (memory s) None h ((addr_at (base s) <$> l1) ++ addr_at (base s) i :: (addr_at (base s) <$> l2)).
Proof.
  intros HR Hin. apply (rp_mem _ _ _ HR) in Hin as [Hk Hin].
  apply list_elem_of_split in Hin as (l1 & l2 & Hl).
  destruct (nth_z_lt _ _ Hk) as [h Hh]. pose proof (rp_dll _ _ _ HR _ _ Hh) as Hd.
  rewrite Hl, fmap_app, fmap_cons in Hd.
  destruct (dll_node _ _ _ _ _ _ Hd) as (q & nx & Hm & Hd2 & Hq).
  exists l1, l2, h, q, nx. split_and!; try done. rewrite Hq. by destruct (last _).
Qed.

(** Taking a block out of its list and forgetting its metadata. *)
Lemma Rep_delete s s' F ls i k l1 l2 :
  Rep s F ls -> (i, k) ∈ F -> ls (Z.to_nat k) = l1 ++ i :: l2 -> geometry s' = geometry s ->
  pagemeta s' = <[Z.to_nat i := None]> (pagemeta s) ->
  (forall h, nth_z (freelist s') k = Some h -> dll (memory s') None h (addr_at (base s) <$> (l1 ++ l2))) ->
  (forall j, j <> Z.to_nat k -> freelist s' !! j = freelist s !! j) ->
  (forall x, x ∉ l1 ++ i :: l2 ->
     memory s' !! addr_at (base s) x = memory s !! addr_at (base s) x) ->
  Rep s' (F ∖ {[(i, k)]}) (upd_ls ls k (l1 ++ l2)).
Proof.
  intros HR Hin Hl Hgeo Hpm Hdl Hfl Hother. injection Hgeo as Hb _ Hlf Hlp.
  pose proof Hin as Hin0. apply (rp_mem _ _ _ HR) in Hin0 as [Hk _].
  pose proof (rp_range _ _ _ HR _ _ Hin) as Hi.
  assert (Hkn : (Z.to_nat k < length (freelist s))%nat) by (unfold len in Hk; lia).
  assert (Hnd : NoDup (l1 ++ i :: l2)) by (rewrite <- Hl; apply HR).
  pose proof Hnd as Hnd'. apply NoDup_app in Hnd' as (Hnd1 & Hn1 & [Hn2 Hnd2]%NoDup_cons).
  split; unfold len; rewrite ?Hlf, ?Hlp.
  - intros j h Hj. rewrite Hb. unfold upd_ls. case_decide as E; [subst j; by apply Hdl|].
    assert (Hj' : freelist s !! j = Some h) by (by rewrite <- Hfl).
    eapply dll_frame; [|by apply (rp_dll _ _ _ HR)]. intros c (y & -> & Hy)%list_elem_of_fmap.
    apply Hother. rewrite <- Hl. intros Hy'. apply E. eapply (Rep_lists s F ls y); try done.
    by eapply lookup_lt_Some.
  - intros x k'. rewrite elem_of_difference, elem_of_singleton, (rp_mem _ _ _ HR). unfold len.
    destruct (decide (Z.to_nat k' = Z.to_nat k)) as [E|E].
    + rewrite upd_ls_eq by done. rewrite E, Hl, !elem_of_app, elem_of_cons. split.
      * intros ([? Hx] & Hne). split; [done|]. destruct Hx as [?|[->|?]]; [by left| |by right].
        exfalso. apply Hne. f_equal. lia.
      * intros [? Hx]. split; [naive_solver|]. intros [= -> ->].
        destruct Hx as [Hx|?]; [|done]. apply (Hn1 i Hx). by left.
    + rewrite upd_ls_ne by done. split; [naive_solver|]. intros ?. split; [done|]. by intros [= -> ->].
  - intros j. unfold upd_ls. case_decide; [|apply HR]. apply NoDup_app.
    split_and!; [done| |done]. intros x Hx Hx'. apply (Hn1 x Hx). by right.
  - intros x k' [Hx _]%elem_of_difference. by apply (rp_range _ _ _ HR) in Hx.
  - intros x k' Hx. rewrite elem_of_difference, elem_of_singleton, <- (rp_meta _ _ _ HR) by done.
    rewrite Hpm. unfold nth_z. rewrite list_lookup_insert. unfold len in Hi. case_decide as E.
    + assert (x = i) as -> by lia. split; [done|]. intros [Hx' Hne]. exfalso. apply Hne.
      f_equal. apply (rp_meta _ _ _ HR) in Hx'; [|lia]. by eapply Rep_uniq.
    + split; [|naive_solver]. intros ?. split; [done|]. intros [= -> _]. apply E. lia.
  - apply HR.
Qed.

Lemma remove_link_rep s F ls i k :
  Rep s F ls -> (i, k) ∈ F ->
  exists s' ls', (remove_link i k ;; clear_head i) s = Some (Ok tt, s') /\
    Rep s' (F ∖ {[(i, k)]}) ls' /\ geometry s' = geometry s.
Proof.
  intros HR Hin. pose proof (rp_range _ _ _ HR _ _ Hin) as Hi. destruct (nth_z_lt _ _ Hi) as [o Ho].
  destruct (Rep_node _ _ _ _ _ HR Hin) as (l1 & l2 & h & q & nx & Hl & Hh & Hm & Hq & Hd2 & Hd).
  set (a := addr_at (base s) i) in *. set (ad := addr_at (base s)) in *.
  assert (Hnd : NoDup (ad <$> l1 ++ i :: l2)).
  { rewrite <- Hl. apply NoDup_fmap; [apply _|apply HR]. }
  rewrite fmap_app, fmap_cons in Hnd.
  assert (Hqin : forall b, q = Some b -> b ∈ ad <$> l1).
  { intros b ->. by apply last_Some_elem_of. }
  assert (Hqs : forall b, q = Some b -> is_Some (memory s !! b)).
  { intros b Hb%Hqin. apply list_elem_of_split in Hb as (x & y & Hxy). rewrite Hxy in Hd.
    rewrite <- app_assoc in Hd. destruct (dll_node _ _ _ _ _ _ Hd) as (? & ? & ? & _). eauto. }
  pose proof (remove_link_run s i k h q nx Hh Hm Hqs (fun b Hb => proj2 (dll_mem _ _ _ _ Hd2 b Hb)))
    as Hrun.
  eexists _, (upd_ls ls k (l1 ++ l2)). split; [|split].
  { unfold mbind, M_bind. rewrite Hrun. unfold clear_head. rewrite (set_meta_run _ _ o); [done|].
    by destruct q. }
  2: { unfold geometry. destruct q; simpl; by rewrite !length_insert. }
  assert (Hqm : memory s !! a = Some (mkLink match last (ad <$> l1) with Some b => Some b | None => None end nx)).
  { rewrite Hm, Hq. by destruct (last (ad <$> l1)). }
  pose proof (dll_unlink (memory s) None h (ad <$> l1) a (ad <$> l2) nx Hnd Hd Hqm) as Hu.
  assert (Hu' : dll (unlinked (memory s) q nx) None
    (match ad <$> l1 with [] => nx | b :: _ => Some b end) (ad <$> (l1 ++ l2))).
  { rewrite fmap_app. unfold unlinked. rewrite Hq. by destruct (last (ad <$> l1)). }
  apply (Rep_delete s _ F ls i k l1 l2); try done.
  - unfold geometry. destruct q; simpl; by rewrite !length_insert.
  - by destruct q.
  - intros h' Hh'. simpl in Hh' |- *. replace h' with (match ad <$> l1 with [] => nx | b :: _ => Some b end); [done|].
    unfold nth_z in Hh, Hh'. pose proof (lookup_lt_Some _ _ _ Hh). destruct l1 as [|y l1]; simpl in *.
    + subst q. simpl in Hh'. rewrite list_lookup_insert_eq in Hh' by done. congruence.
    + destruct q as [b|]; [|symmetry in Hq; by apply last_None in Hq]. destruct Hd as (-> & _). congruence.
  - intros j Hj. destruct q; simpl; [done|]. by rewrite list_lookup_insert_ne.
  - intros x Hx. rewrite elem_of_app, elem_of_cons in Hx. apply unlinked_other.
    + intros Hx'%Hqin. apply Hx. left. by apply (elem_of_fmap_addr (base s)).
    + intros Hx'. destruct (dll_mem _ _ _ _ Hd2 _ Hx') as [Hx2 _].
      apply Hx. right. right. by apply (elem_of_fmap_addr (base s)).
Qed.

Lemma pull_link_rep s F ls k a :
  Rep s F ls -> 0 <= k -> nth_z (freelist s) k = Some (Some a) ->
  exists i s' ls', (i, k) ∈ F /\ pull_link k s = Some (Ok (Some i), s') /\
    Rep s' (F ∖ {[(i, k)]}) ls' /\ geometry s' = geometry s.
Proof.
  intros HR Hk0 Ha. pose proof (rp_dll _ _ _ HR _ _ Ha) as Hd.
  pose proof (lookup_lt_Some _ _ _ Ha) as Hlt.
  destruct (ls (Z.to_nat k)) as [|i l] eqn:Hl; simpl in Hd; [done|].
  destruct Hd as (Hai & nx & Hm & _). injection Hai as ->.
  assert (Hin : (i, k) ∈ F).
  { apply (rp_mem _ _ _ HR). unfold len. rewrite Hl. split; [lia|by left]. }
  destruct (remove_link_rep s F ls i k HR Hin) as (s' & ls' & Hrun & HR' & Hgeo).
  exists i, s', ls'. split_and!; try done.
  unfold pull_link. munfold. rewrite (head_of_run _ _ _ Ha), frame_index_addr.
  pose proof (rp_range _ _ _ HR _ _ Hin) as Hi. rewrite (proj2 (Z.leb_gt _ _)) by lia.
  unfold remove_link, read_link in Hrun. munfold_in Hrun.
  change (frame_addr s i) with (addr_at (base s) i) in Hrun. rewrite Hm in Hrun. simpl in Hrun.
  unfold read_link. munfold. rewrite Hm. simpl.
  destruct (set_head k nx s) as [[[] s1]|]; [|done..].
  destruct (back_link nx None s1) as [[[] s2]|]; [|done..].
  destruct (clear_head i s2) as [[[] s3]|]; by simplify_eq.
Qed.

Lemma in_freelist_loop_run s fuel p cur l t :
  dll (memory s) p cur l -> (length l <= fuel)%nat ->
  in_freelist_loop fuel cur t s = Some (Ok (bool_decide (t ∈ l)), s).
Proof.
  revert p cur fuel. induction l as [|a l IH]; intros p cur fuel; simpl.
  { intros -> _. by destruct fuel. }
  intros (-> & nx & Ha & Hd) Hlen. destruct fuel as [|fuel]; [lia|]. simpl.
  destruct (Z.eqb_spec a t) as [->|Hne].
  - munfold. rewrite bool_decide_true; [done|by left].
  - unfold read_link. munfold. rewrite Ha. simpl. rewrite (IH _ _ _ Hd) by lia.
    do 3 f_equal. apply bool_decide_ext. rewrite elem_of_cons. naive_solver.
Qed.

(** A list of distinct frame numbers is not longer than the frames. *)
Lemma NoDup_bound (l : list Z) n :
  NoDup l -> (forall x, x ∈ l -> 0 <= x < n) -> (length l <= Z.to_nat n)%nat.
Proof.
  intros Hnd Hin. assert (Hs : l ⊆+ seqZ 0 n).
  { apply NoDup_submseteq; [done|]. intros x Hx. apply elem_of_seqZ. specialize (Hin x Hx). lia. }
  apply submseteq_length in Hs. by rewrite length_seqZ in Hs.
Qed.

Lemma in_freelist_run s F ls i k :
  Rep s F ls -> 0 <= k < len (freelist s) ->
  in_freelist i k s = Some (Ok (bool_decide ((i, k) ∈ F)), s).
Proof.
  intros HR Hk. destruct (nth_z_lt _ _ Hk) as [h Hh]. unfold in_freelist. munfold.
  rewrite (head_of_run _ _ _ Hh).
  rewrite (in_freelist_loop_run _ _ None _ (addr_at (base s) <$> ls (Z.to_nat k)));
    [|by apply (rp_dll _ _ _ HR)|].
  - do 3 f_equal. apply bool_decide_ext. change (frame_addr s i) with (addr_at (base s) i).
    rewrite elem_of_fmap_addr, (rp_mem _ _ _ HR). naive_solver.
  - rewrite length_fmap. rewrite <- (Nat2Z.id (length (pagemeta s))). apply NoDup_bound; [apply HR|].
    intros x Hx. apply (rp_range _ _ _ HR x k). by apply (rp_mem _ _ _ HR).
Qed.

(** ** The invariant of the allocator *)

(** No two free blocks are buddies of each other. *)
Definition coalesced (F : gset block) : Prop :=
  forall i k, (i, k) ∈ F -> (buddy_index i k, k) ∉ F.

(** [F] are the free blocks, [U] those handed out, [T] the managed frames. *)
Record Buddy (s : FrameInner) (F U : gset block) (T : Z -> Prop) : Prop := {
  bu_rep : exists ls, Rep s F ls;
  bu_disjoint : F ## U;
  bu_partition : partition (F ∪ U) T;
  bu_coalesced : coalesced F;
  bu_frames : forall p, T p -> 0 <= p < len (pagemeta s);
  bu_powers : len (freelist s) = ilog2 (len (pagemeta s)) + 1;
  bu_base : 0 < base s;
  bu_edge : frame_addr s (len (pagemeta s)) <= edge s
}.

Lemma Buddy_block s F U T b :
  Buddy s F U T -> b ∈ F ∪ U ->
  aligned b /\ 0 <= b.1 /\ b.1 + 2 ^ b.2 <= len (pagemeta s) /\ 0 <= b.2 < len (freelist s).
Proof.
  intros HB Hb. pose proof (pa_aligned _ _ (bu_partition _ _ _ _ HB) b Hb) as Ha.
  pose proof Ha as (Hk & Hi & _). pose proof (pow2_pos _ Hk) as Hp.
  assert (Hin : forall p, in_block p b -> 0 <= p < len (pagemeta s)).
  { intros p Hp'. apply (bu_frames _ _ _ _ HB), (pa_cover _ _ (bu_partition _ _ _ _ HB)). eauto. }
  assert (Hlast : b.1 + 2 ^ b.2 - 1 < len (pagemeta s)).
  { apply Hin. unfold in_block. lia. }
  split_and!; try done; try lia. rewrite (bu_powers _ _ _ _ HB). unfold ilog2.
  assert (b.2 <= Z.log2 (len (pagemeta s))); [|lia].
  apply Z.log2_le_pow2; lia.
Qed.

Lemma Buddy_heads s F U T i k k' :
  Buddy s F U T -> (i, k) ∈ F ∪ U -> (i, k') ∈ F ∪ U -> k = k'.
Proof.
  intros HB H1 H2. destruct (Buddy_block _ _ _ _ _ HB H1) as (Ha1 & _).
  destruct (Buddy_block _ _ _ _ _ HB H2) as (Ha2 & _).
  assert (E : (i, k) = (i, k')); [|congruence].
  apply (pa_disjoint _ _ (bu_partition _ _ _ _ HB) _ _ i H1 H2).
  - by apply (head_in_block (i, k)).
  - by apply (head_in_block (i, k')).
Qed.

Lemma buddy_invol i k : buddy_index (buddy_index i k) k = i.
Proof. unfold buddy_index. by rewrite Z.lxor_assoc, Z.lxor_nilpotent, Z.lxor_0_r. Qed.

(** Adding a block whose buddy is not free. *)
Lemma coalesced_add F i k :
  coalesced F -> (buddy_index i k, k) ∉ F -> buddy_index i k <> i -> coalesced ({[(i, k)]} ∪ F).
Proof.
  intros HF Hb Hne j k'. rewrite !elem_of_union, !elem_of_singleton.
  intros [[= -> ->]|Hj] [E|Hbj].
  - injection E as E. done.
  - done.
  - injection E as E ->. apply Hb. by rewrite <- E, buddy_invol.
  - by apply (HF j k').
Qed.

Lemma coalesced_sub F F' : coalesced F -> F' ⊆ F -> coalesced F'.
Proof. intros HF Hs i k Hi Hb. apply (HF i k); set_solver. Qed.

Lemma buddy_ne i k : aligned (i, k) -> buddy_index i k <> i.
Proof.
  intros Ha. pose proof Ha as (Hk & _). pose proof (pow2_pos _ Hk). simpl in *.
  rewrite buddy_xor by done. case_match; lia.
Qed.

Lemma Buddy_geometry s s' F U T F' U' :
  Buddy s F U T -> geometry s' = geometry s -> (exists ls, Rep s' F' ls) -> F' ## U' ->
  partition (F' ∪ U') T -> coalesced F' -> Buddy s' F' U' T.
Proof.
  intros HB Hg HR Hd Hp Hc. injection Hg as Hb He Hf Hm. split; try done; unfold len, frame_addr.
  - rewrite Hm. apply HB.
  - rewrite Hf, Hm. apply HB.
  - rewrite Hb. apply HB.
  - rewrite Hb, Hm, He. apply HB.
Qed.

(** A frame inside an allocated block heads no free block. *)
Lemma used_not_free s F U T b i :
  Buddy s F U T -> b ∈ U -> in_block i b -> forall k, (i, k) ∉ F.
Proof.
  intros HB Hb Hi k Hk.
  destruct (Buddy_block _ _ _ _ (i, k) HB) as (Ha & _); [set_solver|].
  assert (E : b = (i, k)).
  { apply (pa_disjoint _ _ (bu_partition _ _ _ _ HB) _ _ i); [set_solver..|done|].
    by apply (head_in_block (i, k)). }
  subst b. pose proof (bu_disjoint _ _ _ _ HB). set_solver.
Qed.

Lemma split_down_run n i p s F U T :
  Buddy s F ({[(i, p + Z.of_nat n)]} ∪ U) T -> (i, p + Z.of_nat n) ∉ U -> 0 <= p ->
  exists s' F', split_down n i p s = Some (Ok tt, s') /\
    Buddy s' F' ({[(i, p)]} ∪ U) T /\ ((i, p) ∉ U) /\ geometry s' = geometry s.
Proof.
  revert s F. induction n as [|n IH]; intros s F HB Hn Hp.
  { rewrite Z.add_0_r in *. exists s, F. done. }
  simpl. set (k := p + Z.of_nat n). replace (p + Z.of_nat (S n)) with (k + 1) in * by lia.
  destruct (Buddy_block _ _ _ _ (i, k + 1) HB) as (Ha & Hi & Hend & Hk); [set_solver|]. simpl in *.
  destruct (buddy_lower i k Ha ltac:(lia)) as (Hbud & Hal & Hau). rewrite Hbud.
  pose proof (pow2_pos k ltac:(lia)) as Hpos.
  rewrite Z.pow_add_r in Hend by lia. change (2 ^ 1) with 2 in Hend.
  assert (Hnf : forall x, in_block x (i, k + 1) -> forall k', (x, k') ∉ F).
  { intros x Hx. eapply used_not_free; [done| |done]. set_solver. }
  assert (Hx1 : in_block i (i, k + 1)) by (apply block_halves; [lia|]; left; unfold in_block; simpl; lia).
  assert (Hx2 : in_block (i + 2 ^ k) (i, k + 1)) by (apply block_halves; [lia|]; right; unfold in_block; simpl; lia).
  destruct (bu_rep _ _ _ _ HB) as [ls HR].
  destruct (push_link_rep s F ls (i + 2 ^ k) k HR) as (s1 & Hrun & HR1 & Hg1); [lia|lia|by apply Hnf|].
  assert (Hpart : partition ({[(i, k)]} ∪ ({[(i + 2 ^ k, k)]} ∪ (F ∪ U))) T).
  { apply partition_split; [|pose proof (bu_disjoint _ _ _ _ HB); set_solver|lia].
    pose proof (bu_partition _ _ _ _ HB) as HP.
    by replace ({[(i, k + 1)]} ∪ (F ∪ U)) with (F ∪ ({[(i, k + 1)]} ∪ U)) by set_solver. }
  assert (Hnew : forall x, in_block x (i, k + 1) -> (x, k) ∉ U).
  { intros x Hx Hin. assert (E : (x, k) = (i, k + 1)); [|injection E; lia].
    apply (pa_disjoint _ _ (bu_partition _ _ _ _ HB) _ _ x); [set_solver..| |done].
    unfold in_block. simpl. lia. }
  destruct (IH s1 ({[(i + 2 ^ k, k)]} ∪ F)) as (s' & F' & Hrun' & HB' & Hn' & Hg').
  - apply (Buddy_geometry s s1 F _ T _ _ HB Hg1); [eauto| | |].
    + pose proof (bu_disjoint _ _ _ _ HB) as Hdj. intros b Hb1 Hb2.
      rewrite elem_of_union, elem_of_singleton in Hb1, Hb2. fold k in Hb2.
      destruct Hb1 as [->|Hb1], Hb2 as [E|Hb2].
      * injection E. lia.
      * by apply (Hnew (i + 2 ^ k)).
      * subst b. by apply (Hnf i Hx1 k).
      * apply (Hdj b); set_solver.
    + fold k. by replace ({[(i + 2 ^ k, k)]} ∪ F ∪ ({[(i, k)]} ∪ U))
        with ({[(i, k)]} ∪ ({[(i + 2 ^ k, k)]} ∪ (F ∪ U))) by set_solver.
    + apply coalesced_add; [apply HB| |by apply buddy_ne].
      rewrite <- Hbud, buddy_invol. by apply Hnf.
  - by apply Hnew.
  - done.
  - exists s', F'. unfold mbind, M_bind. rewrite Hrun. split_and!; try done. congruence.
Qed.

(** ** Allocation of a block *)

Lemma split_block_run s F U T p :
  Buddy s F U T -> 0 <= p ->
  exists r s', split_block p s = Some (Ok r, s') /\ geometry s' = geometry s /\
    match r with
    | Some i => exists F', Buddy s' F' ({[(i, p)]} ∪ U) T /\ (i, p) ∉ U
    | None => s' = s /\ forall i k, (i, k) ∈ F -> k < p
    end.
Proof.
  intros HB Hp. destruct (bu_rep _ _ _ _ HB) as [ls HR].
  set (d := drop (Z.to_nat p) (freelist s)). set (n := partition_point is_none d).
  assert (Hskip : forall j, (j < n)%nat -> forall o, d !! j = Some o -> o = None).
  { intros j Hj o Ho. pose proof (partition_point_take is_none d) as Ht. fold n in Ht.
    rewrite Forall_forall in Ht. assert (is_none o = true).
    { apply Ht. apply (list_elem_of_lookup_2 _ j). by rewrite lookup_take_lt. }
    by destruct o. }
  assert (Hempty : forall i k, (i, k) ∈ F -> p <= k -> p + Z.of_nat n <= k).
  { intros i k Hin Hle. destruct (Z.le_gt_cases (p + Z.of_nat n) k) as [|Hlt]; [done|]. exfalso.
    apply (rp_mem _ _ _ HR) in Hin as [Hk Hin]. destruct (nth_z_lt _ _ Hk) as [h Hh].
    assert (h = None) as ->.
    { apply (Hskip (Z.to_nat (k - p))); [lia|]. unfold d. rewrite lookup_drop.
      replace (Z.to_nat p + Z.to_nat (k - p))%nat with (Z.to_nat k) by lia. done. }
    pose proof (rp_dll _ _ _ HR _ _ Hh) as Hd.
    destruct (ls (Z.to_nat k)); [by apply not_elem_of_nil in Hin|]. by destruct Hd. }
  unfold split_block. munfold. fold d. fold n.
  destruct (Z.leb_spec (len (freelist s)) (p + Z.of_nat n)) as [Hge|Hlt].
  { exists None, s. split_and!; try done. intros i k Hin.
    destruct (Z.lt_ge_cases k p) as [|Hle]; [done|]. specialize (Hempty i k Hin Hle).
    apply (rp_mem _ _ _ HR) in Hin as [? _]. lia. }
  destruct (nth_z_lt (freelist s) (p + Z.of_nat n)) as [h Hh]; [lia|].
  assert (Hsome : exists a, h = Some a).
  { destruct h as [a|]; [eauto|]. exfalso.
    assert (Hn : d !! n = Some None).
    { unfold d. rewrite lookup_drop. unfold nth_z in Hh.
      by replace (Z.to_nat p + n)%nat with (Z.to_nat (p + Z.of_nat n)) by lia. }
    apply partition_point_at in Hn. done. }
  destruct Hsome as [a ->].
  destruct (pull_link_rep s F ls (p + Z.of_nat n) a HR ltac:(lia) Hh) as (i & s1 & ls1 & Hin & Hrun & HR1 & Hg1).
  set (k := p + Z.of_nat n) in *. rewrite Hrun.
  assert (HB1 : Buddy s1 (F ∖ {[(i, k)]}) ({[(i, k)]} ∪ U) T).
  { pose proof (bu_disjoint _ _ _ _ HB). apply (Buddy_geometry s s1 F U T _ _ HB Hg1); [eauto|set_solver| |].
    - replace (F ∖ {[(i, k)]} ∪ ({[(i, k)]} ∪ U)) with (F ∪ U); [apply HB|].
      apply leibniz_equiv. intros b. destruct (decide (b = (i, k))); set_solver.
    - eapply coalesced_sub; [apply HB|set_solver]. }
  destruct (split_down_run n i p s1 (F ∖ {[(i, k)]}) U T HB1) as (s2 & F2 & Hrun2 & HB2 & Hn2 & Hg2);
    [pose proof (bu_disjoint _ _ _ _ HB); set_solver|done|].
  exists (Some i), s2. replace (Z.to_nat (k - p)) with n by (unfold k; lia).
  rewrite Hrun2. split_and!; [done|congruence|eauto].
Qed.

(** ** Release of a block *)

Lemma merge_loop_run n i p s F U T :
  Buddy s F ({[(i, p)]} ∪ U) T -> (i, p) ∉ U -> n = Z.to_nat (len (freelist s) - p) ->
  exists i' p' s' F', merge_loop n i p s = Some (Ok (i', p'), s') /\
    Buddy s' F' ({[(i', p')]} ∪ U) T /\ ((i', p') ∉ U) /\ ((buddy_index i' p', p') ∉ F') /\
    geometry s' = geometry s.
Proof.
  revert i p s F. induction n as [|n IH]; intros i p s F HB Hn Heq.
  { destruct (Buddy_block _ _ _ _ (i, p) HB) as (_ & _ & _ & ?); [set_solver|]. simpl in *. lia. }
  destruct (Buddy_block _ _ _ _ (i, p) HB) as (Ha & Hi & Hend & Hk); [set_solver|]. cbn [fst snd] in *.
  destruct (bu_rep _ _ _ _ HB) as [ls HR].
  set (b := buddy_index i p). destruct (buddy_parent i p Ha) as (Hpar & Hba & Hpos). fold b in Hpar, Hba, Hpos.
  pose proof Hba as (_ & Hb0 & _). simpl in Hb0.
  assert (Hstop : (b, p) ∉ F -> exists i' p' s' F', Some (Ok (i, p), s) = Some (Ok (E:=AllocError) (i', p'), s') /\
    Buddy s' F' ({[(i', p')]} ∪ U) T /\ ((i', p') ∉ U) /\ ((buddy_index i' p', p') ∉ F') /\
    geometry s' = geometry s).
  { intros Hnb. exists i, p, s, F. done. }
  cbn [merge_loop]. unfold mbind at 1, M_bind at 1, get at 1. fold b.
  destruct (Z.leb_spec (len (pagemeta s)) b) as [Hout|Hin].
  { apply Hstop. intros Hx%(rp_range _ _ _ HR). lia. }
  destruct (nth_z_lt (pagemeta s) b) as [m Hm]; [lia|].
  unfold mbind at 1, M_bind at 1, expect at 1. rewrite Hm.
  destruct (match m with Some p0 => p0 =? p | None => false end) eqn:Hmp; simpl.
  2: { apply Hstop. intros Hx. apply (rp_meta _ _ _ HR) in Hx; [|done].
       rewrite Hx in Hm. injection Hm as <-. simpl in Hmp. lia. }
  unfold mbind at 1, M_bind at 1. rewrite (in_freelist_run s F ls b p HR Hk).
  case_bool_decide as Hbf; simpl; [|by apply Hstop].
  destruct (remove_link_rep s F ls b p HR Hbf) as (s1 & ls1 & Hrun & HR1 & Hg1).
  unfold mbind in Hrun |- *. unfold M_bind in Hrun |- *.
  destruct (remove_link b p s) as [[[u|e] s0]|]; [|done..]. rewrite Hrun.
  set (lo := Z.min i b) in *.
  assert (Hpart : partition ({[(lo, p + 1)]} ∪ ((F ∖ {[(b, p)]}) ∪ U)) T).
  { apply partition_join; [|done|lia| |].
    - replace ({[(lo, p)]} ∪ ({[(lo + 2 ^ p, p)]} ∪ (F ∖ {[(b, p)]} ∪ U)))
        with (F ∪ ({[(i, p)]} ∪ U)); [apply HB|].
      apply leibniz_equiv. intros x. destruct (decide (x = (b, p))); destruct Hpos as [[E1 E2]|[E1 E2]];
        rewrite <- E1, <- E2; set_solver.
    - pose proof (bu_disjoint _ _ _ _ HB). destruct Hpos as [[E1 E2]|[E1 E2]]; rewrite <- E2; set_solver.
    - pose proof (bu_disjoint _ _ _ _ HB). destruct Hpos as [[E1 E2]|[E1 E2]]; rewrite <- E1; set_solver. }
  assert (Hlo : (lo, p + 1) ∉ F ∪ U).
  { intros Hx. assert (E : (i, p) = (lo, p + 1)); [|injection E; lia].
    apply (pa_disjoint _ _ (bu_partition _ _ _ _ HB) _ _ i); [set_solver..| |].
    - by apply (head_in_block (i, p)).
    - apply block_halves; [lia|]. pose proof (pow2_pos p ltac:(lia)). unfold in_block. simpl. lia. }
  destruct (IH lo (p + 1) s1 (F ∖ {[(b, p)]})) as (i' & p' & s' & F' & Hrun' & HB' & Hn' & Hb' & Hg').
  - pose proof (bu_disjoint _ _ _ _ HB). apply (Buddy_geometry s s1 F _ T _ _ HB Hg1); [eauto|set_solver| |].
    + by replace (F ∖ {[(b, p)]} ∪ ({[(lo, p + 1)]} ∪ U))
        with ({[(lo, p + 1)]} ∪ ((F ∖ {[(b, p)]}) ∪ U)) by set_solver.
    + eapply coalesced_sub; [apply HB|set_solver].
  - set_solver.
  - injection Hg1 as _ _ Hf _. unfold len in *. rewrite Hf. lia.
  - exists i', p', s', F'. split_and!; try done. congruence.
Qed.

Lemma merge_block_run s F U T i p :
  Buddy s F ({[(i, p)]} ∪ U) T -> (i, p) ∉ U ->
  exists s' F', merge_block i p s = Some (Ok tt, s') /\ Buddy s' F' U T /\ geometry s' = geometry s.
Proof.
  intros HB Hn. destruct (Buddy_block _ _ _ _ (i, p) HB) as (Ha & Hi & Hend & Hk); [set_solver|].
  cbn [fst snd] in *. pose proof (pow2_pos p ltac:(lia)).
  destruct (nth_z_lt (pagemeta s) i) as [o Ho]; [lia|]. destruct (bu_rep _ _ _ _ HB) as [ls HR].
  assert (o = None) as ->.
  { destruct o as [k|]; [|done]. exfalso. apply (rp_meta _ _ _ HR) in Ho; [|done].
    eapply (used_not_free s F _ T (i, p) i HB); [set_solver| |done]. by apply (head_in_block (i, p)). }
  assert (Hclear : clear_head i s = Some (Ok tt, s)).
  { unfold clear_head. rewrite (set_meta_run _ _ None) by done. unfold nth_z in Ho.
    rewrite list_insert_id by done. by destruct s. }
  unfold merge_block. munfold. rewrite Hclear.
  destruct (merge_loop_run _ i p s F U T HB Hn eq_refl) as (j & k & s1 & F1 & Hrun & HB1 & Hn1 & Hb1 & Hg1).
  rewrite Hrun. destruct (Buddy_block _ _ _ _ (j, k) HB1) as (Haj & Hj & Hendj & Hkj); [set_solver|].
  cbn [fst snd] in *. pose proof (pow2_pos k ltac:(lia)). destruct (bu_rep _ _ _ _ HB1) as [ls1 HR1].
  destruct (push_link_rep s1 F1 ls1 j k HR1) as (s2 & Hrun2 & HR2 & Hg2); [lia|done| |].
  { eapply (used_not_free s1 F1 _ T (j, k) j HB1); [set_solver|]. by apply (head_in_block (j, k)). }
  rewrite Hrun2. assert (Hkj2 : 0 <= k < len (freelist s2)).
  { injection Hg2 as _ _ Hf _. unfold len in *. by rewrite Hf. }
  rewrite (in_freelist_run s2 _ _ j k HR2 Hkj2). exists s2, ({[(j, k)]} ∪ F1). split; [done|].
  split; [|congruence]. pose proof (bu_disjoint _ _ _ _ HB1).
  apply (Buddy_geometry s1 s2 F1 _ T _ _ HB1 Hg2); [eauto|set_solver| |].
  - replace ({[(j, k)]} ∪ F1 ∪ U) with (F1 ∪ ({[(j, k)]} ∪ U)) by set_solver. apply HB1.
  - apply coalesced_add; [apply HB1|done|by apply buddy_ne].
Qed.
