(* ===== verification/BuddyInit.v ===== *)
(** * The buddy allocator: initialization

    [FrameInner::init] files exactly the frames that no reserved region
    touches, as maximal aligned blocks. *)

From S2P Require Import Prelude.
From S2P Require Import Buddy.
From S2P Require Import BuddyInv.

Open Scope Z_scope.

(** ** Arithmetic of the loop *)

Lemma pos_trailing_zeros_spec p :
  0 <= pos_trailing_zeros p /\ (2 ^ pos_trailing_zeros p | Zpos p) /\
  forall q, 0 <= q -> (2 ^ q | Zpos p) -> q <= pos_trailing_zeros p.
Proof.
  assert (Hodd : forall p : positive, Z.odd (Zpos p) = true ->
    forall q, 0 <= q -> (2 ^ q | Zpos p) -> q <= 0).
  { intros r Hr q Hq [c Hc]. destruct (Z.le_gt_cases q 0) as [|Hgt]; [done|]. exfalso.
    replace q with (1 + (q - 1)) in Hc by lia. rewrite Z.pow_add_r in Hc by lia.
    rewrite Hc in Hr. rewrite !Z.odd_mul in Hr. change (Z.odd (2 ^ 1)) with false in Hr.
    by rewrite andb_false_r in Hr. }
  induction p as [p IH|p IH|]; simpl.
  - split_and!; [lia|apply Z.divide_1_l|by apply Hodd].
  - destruct IH as (H0 & [c Hc] & Hmax). split_and!; [lia| |].
    + exists c. rewrite Z.pow_add_r by lia. change (2 ^ 1) with 2. lia.
    + intros q Hq [d Hd]. destruct (decide (q = 0)); [lia|].
      assert (q - 1 <= pos_trailing_zeros p); [|lia]. apply Hmax; [lia|]. exists d.
      replace q with (1 + (q - 1)) in Hd by lia. rewrite Z.pow_add_r in Hd by lia.
      change (2 ^ 1) with 2 in Hd. lia.
  - split_and!; [lia|apply Z.divide_1_l|by apply (Hodd 1%positive)].
Qed.

Lemma trailing_zeros_div i p : 0 <= i -> 0 <= p <= trailing_zeros i -> (2 ^ p | i).
Proof.
  intros Hi Hp. destruct i as [|i|i]; [apply Z.divide_0_r| |lia]. simpl in Hp.
  destruct (pos_trailing_zeros_spec i) as (? & Hd & _). etrans; [|exact Hd].
  exists (2 ^ (pos_trailing_zeros i - p)). rewrite <- Z.pow_add_r by lia. f_equal. lia.
Qed.

Lemma trailing_zeros_max i q : 0 < i -> 0 <= q -> (2 ^ q | i) -> q <= trailing_zeros i.
Proof. intros Hi Hq Hd. destruct i as [|i|i]; [lia| |lia]. by apply pos_trailing_zeros_spec. Qed.

Lemma trailing_zeros_nonneg i : 0 <= trailing_zeros i.
Proof.
  destruct i as [|p|p]; simpl; [lia| |lia]. by destruct (pos_trailing_zeros_spec p) as (? & _).
Qed.

Lemma fit_power_spec n i limit :
  i < limit -> exists p, fit_power n i limit = Some p /\ 0 <= p <= Z.of_nat n /\
    i + 2 ^ p <= limit /\ (p < Z.of_nat n -> limit < i + 2 ^ (p + 1)).
Proof.
  intros Hl. induction n as [|n IH].
  - exists 0. change (2 ^ 0) with 1. split_and!; try lia. cbn [fit_power].
    change (Z.shiftl 1 (Z.of_nat 0)) with 1. by rewrite (proj2 (Z.ltb_ge limit (i + 1))) by lia.
  - cbn [fit_power]. rewrite Z.shiftl_1_l. destruct (Z.ltb_spec limit (i + 2 ^ Z.of_nat (S n))) as [Hgt|Hle].
    + destruct IH as (p & Hp & Hr & Hfit & Hmax). exists p. split_and!; [done|lia|lia|done|].
      intros _. destruct (decide (p = Z.of_nat n)) as [->|]; [|apply Hmax; lia].
      by replace (Z.of_nat n + 1) with (Z.of_nat (S n)) by lia.
    + exists (Z.of_nat (S n)). split_and!; try done; lia.
Qed.

Lemma fold_min_spec l x :
  fold_left Z.min l x ∈ x :: l /\ forall y, y ∈ x :: l -> fold_left Z.min l x <= y.
Proof.
  revert x. induction l as [|a l IH]; intros x; simpl.
  - split; [by left|]. by intros y ->%list_elem_of_singleton.
  - destruct (IH (Z.min x a)) as [Hin Hle]. split.
    + apply elem_of_cons in Hin as [->|Hin]; [|by right; right].
      destruct (Z.min_spec x a) as [[_ ->]|[_ ->]]; [by left|right; by left].
    + intros y [->|[->|Hy]%elem_of_cons]%elem_of_cons.
      * transitivity (Z.min x a); [|lia]. apply Hle. by left.
      * transitivity (Z.min x a); [|lia]. apply Hle. by left.
      * apply Hle. by right.
Qed.

(** ** Holes *)

Definition in_hole (hs : list (Z * Z)) (p : Z) : Prop := exists h, h ∈ hs /\ h.1 <= p < h.2.

Definition holes_wf (hs : list (Z * Z)) (n : Z) : Prop :=
  forall h, h ∈ hs -> 0 <= h.1 <= n /\ h.2 <= n /\ (h.1 < h.2 \/ h.1 = n).

Lemma hole_containing_Some hs i e :
  hole_containing hs i = Some e -> exists s, (s, e) ∈ hs /\ s <= i < e.
Proof.
  unfold hole_containing. intros ([s e'] & Hf & ->)%fmap_Some. apply List.find_some in Hf as [Hin Hb].
  exists s. simpl in *. to_prop. split; [by apply list_elem_of_In|lia].
Qed.

Lemma hole_containing_None hs i : hole_containing hs i = None -> ~ in_hole hs i.
Proof.
  unfold hole_containing. intros Hf%fmap_None (h & Hin & Hr).
  apply list_elem_of_In in Hin. apply (List.find_none _ _ Hf h) in Hin.
  apply andb_false_iff in Hin as [?|?]; to_prop; lia.
Qed.

Lemma hole_limit_spec hs i n :
  i < n -> holes_wf hs n ->
  let l := hole_limit hs i n in
  i < l <= n /\ (l = n \/ in_hole hs l) /\ forall h, h ∈ hs -> i < h.1 -> l <= h.1.
Proof.
  intros Hi Hwf l. unfold l, hole_limit.
  assert (Hfil : forall x, x ∈ List.filter (fun s => i <? s) hs.*1 <-> i < x /\ exists h, h ∈ hs /\ h.1 = x).
  { intros x. rewrite list_elem_of_In, List.filter_In, <- list_elem_of_In, list_elem_of_fmap, Z.ltb_lt.
    naive_solver. }
  destruct (List.filter _ _) as [|x xs].
  - split_and!; [lia..|by left|]. intros h Hh Hlt. exfalso.
    assert (h.1 ∈ @nil Z) as Hx by (apply Hfil; eauto). by apply not_elem_of_nil in Hx.
  - destruct (fold_min_spec xs x) as [Hin Hle]. apply Hfil in Hin as (Hlt & h & Hh & Heq).
    destruct (Hwf h Hh) as (? & ? & Hne). split_and!; [done|lia| |].
    + destruct Hne as [Hne|Hne]; [right|left; lia]. exists h. split; [done|]. lia.
    + intros h' Hh' Hlt'. apply Hle, Hfil. eauto.
Qed.

(** ** The loop *)

(** The frames below [j] that are not reserved. *)
Definition usable (hs : list (Z * Z)) (j p : Z) : Prop := 0 <= p < j /\ ~ in_hole hs p.

(** A lower half is only filed alone when its upper half is not usable. *)
Definition lonely (hs : list (Z * Z)) (n : Z) (F : gset block) : Prop :=
  forall i k, (i, k) ∈ F -> (2 ^ (k + 1) | i) ->
    exists p, in_block p (i + 2 ^ k, k) /\ ~ usable hs n p.

Lemma partition_extend hs F i k :
  partition F (usable hs i) -> aligned (i, k) ->
  (forall p, in_block p (i, k) -> ~ in_hole hs p) ->
  partition ({[(i, k)]} ∪ F) (usable hs (i + 2 ^ k)).
Proof.
  intros [Ha Hd Hc] Hal Hfree. pose proof Hal as (Hk & Hi & _). simpl in *.
  pose proof (pow2_pos k Hk) as Hpos.
  assert (Hold : forall b p, b ∈ F -> in_block p b -> p < i).
  { intros b p Hb Hp. assert (usable hs i p) as [? _]; [apply Hc; eauto|lia]. }
  split.
  - intros b [->%elem_of_singleton|Hb]%elem_of_union; [done|by apply Ha].
  - intros b b' p. rewrite !elem_of_union, !elem_of_singleton. intros [->|Hb] [->|Hb'] Hp Hp'.
    + done.
    + specialize (Hold b' p Hb' Hp'). unfold in_block in Hp. simpl in Hp. lia.
    + specialize (Hold b p Hb Hp). unfold in_block in Hp'. simpl in Hp'. lia.
    + by apply (Hd b b' p).
  - intros p. split.
    + intros [Hp Hh]. destruct (Z.lt_ge_cases p i) as [Hlt|Hge].
      * destruct (proj1 (Hc p)) as (b & Hb & Hin); [split; [lia|done]|]. exists b. set_solver.
      * exists (i, k). split; [set_solver|]. unfold in_block. simpl. lia.
    + intros (b & [->%elem_of_singleton|Hb]%elem_of_union & Hin).
      * split; [unfold in_block in Hin; simpl in Hin; lia|by apply Hfree].
      * assert (usable hs i p) as [? ?]; [apply Hc; eauto|]. split; [lia|done].
Qed.

Lemma partition_skip hs F i e :
  partition F (usable hs i) -> i <= e -> (forall p, i <= p < e -> in_hole hs p) ->
  partition F (usable hs e).
Proof.
  intros [Ha Hd Hc] Hle Hh. split; try done. intros p. rewrite <- Hc. unfold usable. split.
  - intros [? Hn]. split; [|done]. destruct (Z.lt_ge_cases p i); [lia|]. destruct Hn. apply Hh. lia.
  - intros [? ?]. split; [lia|done].
Qed.

Section init.
Context (hs : list (Z * Z)) (n : Z).
Hypothesis Hn : 0 < n < 2 ^ 64.
Hypothesis Hwf : holes_wf hs n.

(** The choice of the power at [index]. *)
Lemma chosen_power index remaining :
  0 <= index -> 0 < remaining -> index + remaining = n -> ~ in_hole hs index ->
  let limit := hole_limit hs index n in
  let power := Z.min (Z.min (trailing_zeros index) (ilog2 remaining)) (ilog2 n + 1 - 1) in
  exists p, fit_power (Z.to_nat power) index limit = Some p /\
  aligned (index, p) /\ index + 2 ^ p <= n /\ p <= ilog2 n /\
  (forall q, in_block q (index, p) -> ~ in_hole hs q) /\
  ((2 ^ (p + 1) | index) -> exists q, in_block q (index + 2 ^ p, p) /\ ~ usable hs n q).
Proof using Hn Hwf.
  intros Hi Hr Hsum Hnot limit power.
  destruct (hole_limit_spec hs index n) as (Hlim & Hlim2 & Hmin); [lia|done|]. fold limit in Hlim, Hlim2, Hmin.
  pose proof (trailing_zeros_nonneg index) as Htz.
  pose proof (Z.log2_nonneg remaining). pose proof (Z.log2_nonneg n).
  destruct (Z.log2_spec remaining Hr) as [Hlr1 Hlr2]. destruct (Z.log2_spec n ltac:(lia)) as [Hln1 Hln2].
  rewrite <- Z.add_1_r in Hlr2, Hln2.
  destruct (fit_power_spec (Z.to_nat power) index limit) as (p & Hp & Hpr & Hfit & Hmax); [lia|].
  rewrite Z2Nat.id in Hpr, Hmax by (unfold power, ilog2; lia).
  pose proof (pow2_pos p ltac:(lia)) as Hpos.
  exists p. split; [done|]. assert (Hal : aligned (index, p)).
  { split_and!; simpl; [lia..|]. apply trailing_zeros_div; [done|]. unfold power in Hpr. lia. }
  split_and!; [done|lia|unfold power in Hpr; unfold ilog2 in *; lia| |].
  - intros q Hq (h & Hh & Hqh). unfold in_block in Hq. simpl in Hq.
  destruct (Z.lt_ge_cases index h.1) as [Hlt|Hge].
  + specialize (Hmin h Hh Hlt). lia.
  + apply Hnot. exists h. split; [done|lia].
  - intros Hdiv. destruct (Z.lt_ge_cases p power) as [Hlt|Hge].
  + specialize (Hmax Hlt). rewrite Z.pow_add_r in Hmax by lia. change (2 ^ 1) with 2 in Hmax.
  exists limit. split; [unfold in_block; simpl; lia|]. intros [? Hnh].
  destruct Hlim2 as [->|?]; [lia|done].
  + assert (Hp' : p = power) by lia.
  assert (Hupper : n < index + 2 ^ (p + 1)).
  { unfold power, ilog2 in Hp'.
  destruct (Z.min_spec (Z.min (trailing_zeros index) (Z.log2 remaining)) (Z.log2 n + 1 - 1)) as [[_ E]|[_ E]].
  - rewrite E in Hp'. destruct (Z.min_spec (trailing_zeros index) (Z.log2 remaining)) as [[Hm E']|[_ E']].
  + rewrite E' in Hp'. destruct (decide (index = 0)) as [->|Hnz].
    * simpl in Hm. assert (Z.log2 remaining < 64) by (apply Z.log2_lt_pow2; lia). lia.
    * assert (p + 1 <= trailing_zeros index) by (apply trailing_zeros_max; [lia..|done]). lia.
  + rewrite E' in Hp'. rewrite Hp'. lia.
  - rewrite E in Hp'. replace (p + 1) with (Z.log2 n + 1) by lia. lia. }
  exists n. rewrite Z.pow_add_r in Hupper by lia. change (2 ^ 1) with 2 in Hupper.
  split; [unfold in_block; simpl; lia|]. intros [? _]. lia.
Qed.

Definition filed (s : FrameInner) (F : gset block) (index : Z) : Prop :=
  (exists ls, Rep s F ls) /\ partition F (usable hs index) /\ lonely hs n F.

Lemma init_loop_run fuel index remaining s F :
  0 <= index -> 0 <= remaining -> index + remaining = n -> remaining <= Z.of_nat fuel ->
  len (pagemeta s) = n -> len (freelist s) = ilog2 n + 1 -> filed s F index ->
  exists s' F', init_loop fuel hs n (ilog2 n + 1) index remaining s = Some (Ok tt, s') /\
  filed s' F' n /\ geometry s' = geometry s.
Proof using Hn Hwf.
  revert index remaining s F.
  induction fuel as [|fuel IH]; intros index remaining s F Hi Hr Hsum Hfuel Hpm Hfl Hfd; simpl.
  { assert (remaining = 0) as -> by lia. assert (index = n) as -> by lia. simpl. eauto. }
  destruct (Z.leb_spec remaining 0) as [Hz|Hpos].
  { assert (index = n) as -> by lia. eauto. }
  assert (Husub : forall x, 0 <= x <= remaining ->
  forall s0 : FrameInner, usub remaining x s0 = Some (Ok (E:=AllocError) (remaining - x), s0)).
  { intros x Hx s0. unfold usub, expect, checked_sub. rewrite (proj2 (checked_Some _ (remaining - x))); [done|].
  split; [done|]. apply usize_iff. unfold usize_MAX, usize_bits. lia. }
  destruct Hfd as (HR & Hpart & Hlone).
  destruct (hole_containing hs index) as [e|] eqn:Hhole.
  - apply hole_containing_Some in Hhole as (st & Hin & Hse). destruct (Hwf _ Hin) as (? & ? & _). simpl in *.
  unfold mbind, M_bind. rewrite Husub by lia.
  apply (IH _ _ s F); try lia; try done. split; [done|]. split; [|done].
  replace (index + (e - index)) with e by lia.
  eapply partition_skip; [done|lia|]. intros p Hp. exists (st, e). split; [done|]. simpl. lia.
  - apply hole_containing_None in Hhole.
  destruct (chosen_power index remaining Hi Hpos Hsum Hhole) as (p & Hp & Hal & Hfit & Hpl & Hfree & Hlo).
  pose proof Hal as (Hp0 & _). simpl in Hp0. pose proof (pow2_pos p Hp0) as Hpp.
  assert (Hold : forall k, (index, k) ∉ F).
  { intros k Hk. pose proof (pa_aligned _ _ Hpart _ Hk) as Hak.
  assert (usable hs index index) as [? _]; [|lia].
  apply (pa_cover _ _ Hpart). exists (index, k). split; [done|]. by apply (head_in_block (index, k)). }
  destruct HR as [ls HR].
  destruct (push_link_rep s F ls index p HR) as (s1 & Hrun & HR1 & Hg1); [lia|lia|done|].
  unfold mbind at 1, M_bind at 1, expect at 1. rewrite Hp. unfold mbind at 1, M_bind at 1. rewrite Hrun.
  unfold mbind, M_bind. rewrite Z.shiftl_1_l, Husub by lia.
  injection Hg1 as Hb1 He1 Hf1 Hm1.
  destruct (IH (index + 2 ^ p) (remaining - 2 ^ p) s1 ({[(index, p)]} ∪ F)) as (s' & F' & Hrun' & Hfd' & Hg');
  try lia; try (unfold len in *; congruence).
  + split; [eauto|]. split; [by apply partition_extend|].
  intros i k [[= -> ->]%elem_of_singleton|Hk]%elem_of_union Hd; [by apply Hlo|by apply Hlone].
  + exists s', F'. split_and!; [done..|]. unfold geometry in *. congruence.
Qed.
End init.

Lemma lonely_coalesced hs n F :
  partition F (usable hs n) -> lonely hs n F -> coalesced F.
Proof.
  intros Hp Hl.
  assert (Hlow : forall i k, (i, k) ∈ F -> (i + 2 ^ k, k) ∈ F -> ~ (2 ^ (k + 1) | i)).
  { intros i k H1 H2 Hd. destruct (Hl i k H1 Hd) as (p & Hin & Hu). apply Hu.
    apply (pa_cover _ _ Hp). eauto. }
  intros i k H1 H2. pose proof (pa_aligned _ _ Hp _ H1) as Ha.
  destruct (buddy_parent i k Ha) as ((_ & _ & Hd) & _ & Hpos). simpl in Hd.
  destruct Hpos as [[E1 E2]|[E1 E2]].
  - apply (Hlow i k H1); [rewrite E1, <- E2 in H2; done|congruence].
  - apply (Hlow (buddy_index i k) k H2); [rewrite E1, <- E2 in H1; done|congruence].
Qed.

(** ** Holes of the board description *)

Definition reserved_byte (reserved : list (Z * Z)) (x : Z) : Prop :=
  exists r, r ∈ reserved /\ r.1 <= x < r.1 + r.2.

(** The holes of regions that end inside the address space. *)
Definition hole_list (reserved : list (Z * Z)) (base edge max_frame : Z) : list (Z * Z) :=
  omap (fun r =>
    if (r.1 + r.2 <=? base) || (edge <=? r.1) then None
    else Some (Z.min ((Z.max r.1 base - base) / PAGE_SIZE) max_frame,
               Z.min (div_ceil (Z.min (r.1 + r.2) edge - base) PAGE_SIZE) max_frame)) reserved.

Definition ends_in (r : Z * Z) : Prop := usize (r.1 + r.2).

Lemma hole_of_run b e n r : ends_in r -> hole_of b e n r = Some
  (if (r.1 + r.2 <=? b) || (e <=? r.1) then None
   else Some (Z.min ((Z.max r.1 b - b) / PAGE_SIZE) n, Z.min (div_ceil (Z.min (r.1 + r.2) e - b) PAGE_SIZE) n)).
Proof. intros Hr. unfold hole_of, checked_add. by rewrite (proj2 (checked_Some (r.1 + r.2) _) (conj eq_refl Hr)). Qed.

Lemma holes_run reserved b e n : Forall ends_in reserved -> holes reserved b e n = Some (hole_list reserved b e n).
Proof.
  unfold holes. induction 1 as [|r l Hr _ IH]; [done|]. cbn [mapM]. rewrite hole_of_run by done. cbn [mbind option_bind] in *.
  destruct (mapM _ l) as [out|]; [|done]. injection IH as IH. cbn. rewrite IH. by destruct (_ || _).
Qed.

Lemma holes_panic reserved b e n : holes reserved b e n = None -> Exists (fun r => ~ ends_in r) reserved.
Proof.
  intros Hn. apply not_Forall_Exists; [intros r; unfold ends_in; apply _|]. intros Hf. by rewrite holes_run in Hn.
Qed.

Lemma holes_ends reserved b e n hs : holes reserved b e n = Some hs -> Forall ends_in reserved.
Proof.
  unfold holes. destruct (mapM _ reserved) as [out|] eqn:Hm; [|done]. intros _. apply mapM_Some in Hm.
  induction Hm as [|r h l out Hr _ IH]; constructor; [|done]. unfold hole_of, checked_add in Hr.
  destruct (checked (r.1 + r.2)) eqn:Hc; [|done]. by apply checked_Some in Hc as [_ ?].
Qed.

Section holes.
Context (reserved : list (Z * Z)) (b e n : Z).
Hypothesis Hsize : Forall (fun r => 0 < r.2) reserved.
Hypothesis Hn : 0 < n.
Hypothesis Hedge : b + n * PAGE_SIZE <= e.

Lemma holes_elem h :
  h ∈ hole_list reserved b e n <-> exists r, r ∈ reserved /\ b < r.1 + r.2 /\ r.1 < e /\
  h = (Z.min ((Z.max r.1 b - b) / PAGE_SIZE) n,
   Z.min (div_ceil (Z.min (r.1 + r.2) e - b) PAGE_SIZE) n).
Proof using Type.
  unfold hole_list. rewrite list_elem_of_omap. split.
  - intros (r & Hr & Hf). exists r. destruct (_ || _) eqn:Hb; [done|]. to_prop. split_and!; (done || lia).
  - intros (r & Hr & H1 & H2 & ->). exists r. split; [done|].
  rewrite (proj2 (Z.leb_gt _ _) H1), (proj2 (Z.leb_gt _ _) H2). done.
Qed.

Lemma div_ceil_lt a p : div_ceil a PAGE_SIZE <= p <-> a <= p * PAGE_SIZE.
Proof using Type.
  unfold div_ceil, PAGE_SIZE. split; intros H.
  - pose proof (Z.div_mod (a + 4096 - 1) 4096). pose proof (Z.mod_pos_bound (a + 4096 - 1) 4096). lia.
  - apply Z.lt_succ_r. apply Z.div_lt_upper_bound; lia.
Qed.

Lemma floor_le a p : a / PAGE_SIZE <= p <-> a < (p + 1) * PAGE_SIZE.
Proof using Type.
  unfold PAGE_SIZE. split; intros H.
  - pose proof (Z.div_mod a 4096). pose proof (Z.mod_pos_bound a 4096). lia.
  - apply Z.lt_succ_r. apply Z.div_lt_upper_bound; lia.
Qed.

Lemma holes_board_wf : holes_wf (hole_list reserved b e n) n.
Proof using Hsize Hn Hedge.
  intros h (r & Hr & H1 & H2 & ->)%holes_elem. rewrite Forall_forall in Hsize.
  specialize (Hsize r Hr). cbn [fst snd]. unfold PAGE_SIZE in Hedge.
  assert (0 <= (Z.max r.1 b - b) / PAGE_SIZE) by (apply Z.div_pos; unfold PAGE_SIZE; lia).
  assert (Hlt : (Z.max r.1 b - b) / PAGE_SIZE < div_ceil (Z.min (r.1 + r.2) e - b) PAGE_SIZE).
  { apply Z.lt_nge. intros Hle. apply div_ceil_lt in Hle.
  assert ((Z.max r.1 b - b) / PAGE_SIZE * PAGE_SIZE <= Z.max r.1 b - b).
  { rewrite Z.mul_comm. apply Z.mul_div_le. unfold PAGE_SIZE. lia. }
  lia. }
  lia.
Qed.

(** A frame is in a hole exactly when some reserved byte lies in it. *)
Lemma in_hole_board p :
  0 <= p < n ->
  in_hole (hole_list reserved b e n) p <->
  exists x, b + p * PAGE_SIZE <= x < b + (p + 1) * PAGE_SIZE /\ reserved_byte reserved x.
Proof using Hsize Hn Hedge.
  intros Hp. assert (Hpe : b + (p + 1) * PAGE_SIZE <= e) by (unfold PAGE_SIZE in *; lia).
  rewrite Forall_forall in Hsize. split.
  - intros (h & (r & Hr & H1 & H2 & ->)%holes_elem & Hin). cbn [fst snd] in Hin.
  assert (Hf : (Z.max r.1 b - b) / PAGE_SIZE <= p) by lia. apply floor_le in Hf.
  assert (Hc : p < div_ceil (Z.min (r.1 + r.2) e - b) PAGE_SIZE) by lia.
  apply Z.lt_nge in Hc. rewrite div_ceil_lt in Hc. specialize (Hsize r Hr). unfold PAGE_SIZE in *.
  exists (Z.max (b + p * 4096) r.1). split; [lia|]. exists r. split; [done|lia].
  - intros (x & Hx & r & Hr & Hxr). eexists. split; [apply holes_elem; exists r; split_and!; [done|..|reflexivity]|].
  + unfold PAGE_SIZE in *. lia.
  + lia.
  + cbn [fst snd]. assert ((Z.max r.1 b - b) / PAGE_SIZE <= p) by (apply floor_le; unfold PAGE_SIZE in *; lia).
  assert (p < div_ceil (Z.min (r.1 + r.2) e - b) PAGE_SIZE).
  { apply Z.lt_nge. rewrite div_ceil_lt. unfold PAGE_SIZE in *. lia. }
  lia.
Qed.
End holes.
