(* ===== verification/BuddyTheorems.v ===== *)
(** * What the frame allocator promises

    Initialization, allocation and release of blocks, and histories of both. *)

From S2P Require Import Prelude.
From S2P Require Import Buddy.
From S2P Require Import BuddyInv.
From S2P Require Import BuddyInit.

Open Scope Z_scope.

(** ** Dyadic blocks *)

Lemma pow2_divide l k : 0 <= l <= k -> (2 ^ l | 2 ^ k).
Proof.
  intros Hl. exists (2 ^ (k - l)). rewrite <- Z.pow_add_r by lia. f_equal. lia.
Qed.

(** Two aligned blocks with a common frame are nested. *)
Lemma dyadic_nested b c p :
  aligned b -> aligned c -> c.2 <= b.2 -> in_block p b -> in_block p c ->
  b.1 <= c.1 /\ c.1 + 2 ^ c.2 <= b.1 + 2 ^ b.2.
Proof.
  intros (Hb0 & _ & Hb) (Hc0 & _ & Hc) Hle Hpb Hpc.
  pose proof (pow2_pos _ Hc0) as Hpos.
  assert (Hd : (2 ^ c.2 | 2 ^ b.2)) by (apply pow2_divide; lia).
  destruct (Z.divide_trans _ _ _ Hd Hb) as [x Hx]. destruct Hc as [y Hy]. destruct Hd as [z Hz].
  unfold in_block in *. rewrite Hx, Hz in Hpb. rewrite Hy in Hpc. rewrite Hx, Hy, Hz.
  set (P := 2 ^ c.2) in *.
  assert (x < y + 1) by (apply (Z.mul_lt_mono_pos_r P); lia).
  assert (y < x + z) by (apply (Z.mul_lt_mono_pos_r P); lia).
  assert (x * P <= y * P) by (apply Z.mul_le_mono_nonneg_r; lia).
  assert ((y + 1) * P <= (x + z) * P) by (apply Z.mul_le_mono_nonneg_r; lia). lia.
Qed.

Lemma dyadic_eq b c p :
  aligned b -> aligned c -> c.2 = b.2 -> in_block p b -> in_block p c -> b = c.
Proof.
  intros Hb Hc E Hpb Hpc. destruct (dyadic_nested b c p) as [? _]; [done..|lia|done|done|].
  destruct (dyadic_nested c b p) as [? _]; [done..|lia|done|done|].
  destruct b, c. simpl in *. f_equal; lia.
Qed.

(** A coalesced partition has no block strictly inside a fully managed one. *)
Lemma no_smaller F T b :
  partition F T -> coalesced F -> aligned b -> (forall p, in_block p b -> T p) ->
  forall n c p, c ∈ F -> c.2 = Z.of_nat n -> c.2 < b.2 -> in_block p b -> in_block p c -> False.
Proof.
  intros HP HC Hb Hall n. induction n as [n IH] using lt_wf_ind. intros c p Hc Hn Hlt Hpb Hpc.
  pose proof (pa_aligned _ _ HP c Hc) as Hca. destruct c as [j l]. cbn [fst snd] in *.
  destruct (buddy_parent j l Hca) as (Hpar & Hba & Hpos). set (j' := buddy_index j l) in *.
  pose proof Hca as (Hl & _). simpl in Hl. pose proof (pow2_pos l Hl) as Hp2.
  assert (Hup : forall q, in_block q (j, l) \/ in_block q (j', l) <-> in_block q (Z.min j j', l + 1)).
  { intros q. rewrite block_halves by done. destruct Hpos as [[E1 E2]|[E1 E2]]; rewrite <- E1, <- E2; tauto. }
  assert (Hinb : in_block j' b).
  { assert (Hj' : in_block j' (Z.min j j', l + 1)).
    { apply Hup. right. by apply (head_in_block (j', l)). }
    destruct (dyadic_nested b (Z.min j j', l + 1) p); [done|done|simpl; lia|done|apply Hup; by left|].
    unfold in_block in Hj' |- *. simpl in *. lia. }
  destruct (proj1 (pa_cover _ _ HP j') (Hall _ Hinb)) as (d & Hd & Hjd).
  pose proof (pa_aligned _ _ HP d Hd) as Hda. pose proof Hda as (Hd0 & _).
  destruct (Z.lt_total d.2 l) as [Hdl|[Hdl|Hdl]].
  - apply (IH (Z.to_nat d.2)) with (c := d) (p := j'); try done; lia.
  - assert (d = (j', l)) as ->.
    { apply (dyadic_eq d (j', l) j'); [done..|simpl; lia|done|]. by apply (head_in_block (j', l)). }
    by apply (HC j l).
  - assert (Hin : in_block j d).
    { destruct (dyadic_nested d (Z.min j j', l + 1) j'); [done|done|simpl; lia|done| |].
      - apply Hup. right. by apply (head_in_block (j', l)).
      - assert (Hj : in_block j (Z.min j j', l + 1)).
        { apply Hup. left. by apply (head_in_block (j, l)). }
        unfold in_block in Hj |- *. simpl in *. lia. }
    assert (E : d = (j, l)).
    { apply (pa_disjoint _ _ HP d (j, l) j); [done..|]. by apply (head_in_block (j, l)). }
    subst d. simpl in Hdl. lia.
Qed.

(** The coalesced partition of a set of frames is unique. *)
Lemma coalesced_unique F1 F2 T :
  partition F1 T -> partition F2 T -> coalesced F1 -> coalesced F2 -> F1 = F2.
Proof.
  assert (Hsub : forall F1 F2 : gset block, partition F1 T -> partition F2 T ->
    coalesced F1 -> coalesced F2 -> F1 ⊆ F2).
  { clear. intros F1 F2 P1 P2 C1 C2 b Hb. pose proof (pa_aligned _ _ P1 b Hb) as Hba.
    assert (Hh : in_block b.1 b) by (by apply head_in_block).
    assert (HT : forall p, in_block p b -> T p) by (intros p Hp; apply (pa_cover _ _ P1); eauto).
    destruct (proj1 (pa_cover _ _ P2 b.1) (HT _ Hh)) as (c & Hc & Hbc).
    pose proof (pa_aligned _ _ P2 c Hc) as Hca.
    destruct (Z.lt_total c.2 b.2) as [Hlt|[E|Hlt]].
    - exfalso. destruct Hca as (? & _).
      apply (no_smaller F2 T b P2 C2 Hba HT (Z.to_nat c.2) c b.1); (done || lia).
    - by rewrite (dyadic_eq b c b.1).
    - exfalso. assert (HTc : forall p, in_block p c -> T p) by (intros p Hp; apply (pa_cover _ _ P2); eauto).
      destruct Hba as (? & _).
      apply (no_smaller F1 T c P1 C1 Hca HTc (Z.to_nat b.2) b b.1); (done || lia). }
  intros. apply leibniz_equiv. apply set_subseteq_antisymm; by apply Hsub.
Qed.

(** ** Sizes *)

Lemma PAGE_SIZE_pow : PAGE_SIZE = 2 ^ 12.
Proof. reflexivity. Qed.

Lemma block_power_eq size :
  0 <= size -> block_power size = Z.log2_up (div_ceil (Z.max size PAGE_SIZE) PAGE_SIZE).
Proof.
  intros Hs. unfold block_power, ilog2, next_power_of_two, next_multiple_of.
  set (q := div_ceil _ _).
  assert (Hq : 0 < q).
  { unfold q, div_ceil, PAGE_SIZE. apply Z.div_str_pos. lia. }
  rewrite Z.log2_pow2 by apply Z.log2_up_nonneg. rewrite PAGE_SIZE_pow, Z.log2_pow2 by lia.
  rewrite <- Z.shiftl_mul_pow2 by lia. rewrite Z.shiftl_mul_pow2 by lia.
  rewrite Z.log2_up_mul_pow2 by lia. lia.
Qed.

Lemma block_power_nonneg size : 0 <= size -> 0 <= block_power size.
Proof. intros. rewrite block_power_eq by done. apply Z.log2_up_nonneg. Qed.

(** [block_power] is the least power whose block holds the request. *)
Theorem block_power_least size :
  0 <= size ->
  size <= 2 ^ block_power size * PAGE_SIZE /\
  forall k, 0 <= k -> size <= 2 ^ k * PAGE_SIZE -> block_power size <= k.
Proof.
  intros Hs. rewrite block_power_eq by done. set (q := div_ceil _ _).
  assert (Hq : 0 < q) by (unfold q, div_ceil, PAGE_SIZE; apply Z.div_str_pos; lia).
  assert (Hqk : forall k, q <= k <-> Z.max size PAGE_SIZE <= k * PAGE_SIZE).
  { intros k. unfold q. by apply div_ceil_lt. }
  split.
  - assert (q <= 2 ^ Z.log2_up q) as Hle%Hqk by (by apply Z.log2_log2_up_spec). lia.
  - intros k Hk Hle. apply Z.log2_up_le_pow2; [done|]. apply Hqk.
    pose proof (pow2_pos k Hk). unfold PAGE_SIZE in *. lia.
Qed.

Lemma block_power_least_witness :
  5000 <= 2 ^ block_power 5000 * PAGE_SIZE /\
  forall k, 0 <= k -> 5000 <= 2 ^ k * PAGE_SIZE -> block_power 5000 <= k.
Proof. apply (block_power_least 5000). lia. Defined.

(** ** Boot *)

Record Board := mkBoard {
  bd_edge : Z;
  bd_frontier : Z;
  bd_frontier' : Z;
  bd_reserved : list (Z * Z)
}.

Definition boot_base (bd : Board) : Z := next_multiple_of (bd_frontier' bd) PAGE_SIZE.
Definition boot_frames (bd : Board) : Z := saturating_sub (bd_edge bd) (boot_base bd) / PAGE_SIZE.
(** [tables] is the answer of the allocations for the tables. *)
Definition boot (bd : Board) (tables : result InitError unit) : option (result InitError FrameInner) :=
  init (bd_edge bd) (bd_frontier bd) (bd_frontier' bd) tables (bd_reserved bd).

Definition board_ok (bd : Board) : Prop :=
  0 < bd_frontier bd <= bd_frontier' bd /\ bd_edge bd <= usize_MAX /\
  Forall (fun r => 0 < r.2) (bd_reserved bd) /\ 0 < boot_frames bd.

(** The frames of [base, edge) without a reserved byte. *)
Definition managed (bd : Board) (p : Z) : Prop :=
  0 <= p < boot_frames bd /\
  forall x, boot_base bd + p * PAGE_SIZE <= x < boot_base bd + (p + 1) * PAGE_SIZE ->
    ~ reserved_byte (bd_reserved bd) x.

Lemma boot_room bd :
  0 < boot_frames bd -> boot_base bd + boot_frames bd * PAGE_SIZE <= bd_edge bd.
Proof.
  unfold boot_frames, saturating_sub, PAGE_SIZE. intros Hf.
  pose proof (Z.mul_div_le (Z.max 0 (bd_edge bd - boot_base bd)) 4096 ltac:(lia)).
  destruct (Z.max_spec 0 (bd_edge bd - boot_base bd)) as [[_ E]|[_ E]]; rewrite E in *; [lia|].
  done.
Qed.

Lemma Rep_empty n k b e : (k <= 256)%nat ->
  Rep (mkInner (replicate k None) (replicate n None) b e ∅) ∅ (fun _ => []).
Proof.
  intros Hk. split; simpl.
  - intros j h Hj. apply lookup_replicate in Hj as [-> _]. done.
  - intros i j. split; [set_solver|]. intros [_ Hi]. by apply not_elem_of_nil in Hi.
  - intros j. constructor.
  - set_solver.
  - intros i j Hi. unfold nth_z. simpl. split; [|set_solver]. by intros [? _]%lookup_replicate.
  - by rewrite length_replicate.
Qed.

(** What [init] comes to, branch by branch. *)
Lemma boot_cases bd tables :
  0 < bd_frontier bd <= bd_frontier' bd ->
  boot bd tables =
    if decide (usize_MAX < next_multiple_of (bd_frontier bd) PAGE_SIZE) then None
    else if decide (saturating_sub (bd_edge bd) (next_multiple_of (bd_frontier bd) PAGE_SIZE) / PAGE_SIZE = 0) then Some (Err NoFreeFrames)
    else match tables with
    | Err e => Some (Err e)
    | Ok _ =>
        if decide (usize_MAX < boot_base bd) then None
        else if decide (boot_frames bd = 0) then Some (Err NoFreeFrames)
        else hs ← holes (bd_reserved bd) (boot_base bd) (bd_edge bd) (boot_frames bd);
          match init_loop (Z.to_nat (boot_frames bd)) hs (boot_frames bd) (ilog2 (boot_frames bd) + 1) 0 (boot_frames bd)
            (mkInner (replicate (Z.to_nat (ilog2 (boot_frames bd) + 1)) None) (replicate (Z.to_nat (boot_frames bd)) None) (boot_base bd) (bd_edge bd) ∅) with
          | Some (_, s) => Some (Ok s)
          | None => None
          end
    end.
Proof.
  intros Hfr. destruct (next_multiple_of_spec (bd_frontier bd) PAGE_SIZE) as [Hb1 _]; [done|].
  destruct (next_multiple_of_spec (bd_frontier' bd) PAGE_SIZE) as [Hb2 _]; [done|]. fold (boot_base bd) in Hb2.
  assert (Hc : forall x, 0 <= x -> checked x = if decide (usize_MAX < x) then None else Some x).
  { intros x Hx. case_decide as Hd; [|apply checked_Some; split; [done|]; apply usize_iff; lia].
    destruct (checked x) eqn:E; [|done]. apply checked_Some in E as [-> E]. apply usize_iff in E. lia. }
  unfold boot, init. fold (boot_base bd). rewrite !Hc by lia. destruct (decide (usize_MAX < next_multiple_of _ _)); [done|]. cbn [mbind option_bind].
  destruct (decide (_ / _ = 0)) as [Hz|Hz]; [by rewrite (proj2 (Z.eqb_eq _ _) Hz)|]. rewrite (proj2 (Z.eqb_neq _ _) Hz). destruct tables as [[]|e]; [|done].
  destruct (decide (usize_MAX < boot_base bd)); [done|]. cbn [mbind option_bind]. fold (boot_frames bd).
  destruct (decide (boot_frames bd = 0)) as [Hf|Hf]; [by rewrite (proj2 (Z.eqb_eq _ _) Hf)|]. by rewrite (proj2 (Z.eqb_neq _ _) Hf).
Qed.

Lemma boot_first bd : 0 < bd_frontier bd <= bd_frontier' bd -> next_multiple_of (bd_frontier bd) PAGE_SIZE <= boot_base bd.
Proof.
  intros Hfr. destruct (next_multiple_of_spec (bd_frontier' bd) PAGE_SIZE) as [Hb2 Hd2]; [done|]. fold (boot_base bd) in *.
  apply next_multiple_of_least; [done|lia|done].
Qed.

(** The loop over the frames, once the holes are known. *)
Lemma boot_loop bd hs :
  board_ok bd -> holes (bd_reserved bd) (boot_base bd) (bd_edge bd) (boot_frames bd) = Some hs ->
  exists s F,
    init_loop (Z.to_nat (boot_frames bd)) hs (boot_frames bd) (ilog2 (boot_frames bd) + 1) 0 (boot_frames bd)
      (mkInner (replicate (Z.to_nat (ilog2 (boot_frames bd) + 1)) None) (replicate (Z.to_nat (boot_frames bd)) None) (boot_base bd) (bd_edge bd) ∅) = Some (Ok tt, s) /\
    Buddy s F ∅ (managed bd) /\ base s = boot_base bd /\ edge s = bd_edge bd /\ len (pagemeta s) = boot_frames bd.
Proof.
  intros (Hfr & Hedge & Hsize & Hfs) Hhs. pose proof (boot_room bd Hfs) as Hroom.
  rewrite holes_run in Hhs by by eapply holes_ends. injection Hhs as <-.
  destruct (next_multiple_of_spec (bd_frontier' bd) PAGE_SIZE) as [Hb2 _]; [done|]. fold (boot_base bd) in Hb2.
  set (n := boot_frames bd) in *.
  assert (Hn64 : 0 < n < 2 ^ 64).
  { split; [lia|]. unfold usize_MAX, usize_bits, PAGE_SIZE in *. lia. }
  assert (Hlog : 0 <= Z.log2 n < 64).
  { split; [apply Z.log2_nonneg|]. apply Z.log2_lt_pow2; lia. }
  assert (Hwf : holes_wf (hole_list (bd_reserved bd) (boot_base bd) (bd_edge bd) n) n).
  { by apply holes_board_wf. }
  destruct (init_loop_run _ n Hn64 Hwf (Z.to_nat n) 0 n
    (mkInner (replicate (Z.to_nat (ilog2 n + 1)) None) (replicate (Z.to_nat n) None)
       (boot_base bd) (bd_edge bd) ∅) ∅) as (s & F & Hrun & (HR & Hpart & Hlone) & Hg);
    try lia; try (unfold len; simpl; rewrite length_replicate; unfold ilog2; lia).
  { split; [eexists; apply Rep_empty; unfold ilog2; lia|]. split; [|intros i k Hk; set_solver].
    split; try set_solver. intros p. split; [intros [? _]; lia|intros (b & Hb & _); set_solver]. }
  exists s, F. injection Hg as Hb He Hfl Hpm. simpl in *.
  rewrite !length_replicate in *.
  assert (Hpml : len (pagemeta s) = n) by (unfold len; rewrite Hpm; lia).
  split_and!; try done. split; try done.
  - replace (F ∪ ∅) with F by set_solver. destruct Hpart as [Ha Hdj Hc]. split; try done.
    intros p. rewrite <- Hc. unfold managed, usable. fold n. split; intros [Hp Hx]; (split; [done|]).
    + intros Hin. apply in_hole_board in Hin as (x & Hx1 & Hx2); [|done..]. by apply (Hx x).
    + intros x Hx1 Hx2. apply Hx. apply in_hole_board; eauto.
  - by eapply lonely_coalesced.
  - intros p [Hp _]. by rewrite Hpml.
  - rewrite Hpml. unfold len. rewrite Hfl. unfold ilog2. lia.
  - rewrite Hb. lia.
  - unfold frame_addr. rewrite Hpml, Hb, He. done.
Qed.

Lemma boot_Buddy bd tables s :
  board_ok bd -> boot bd tables = Some (Ok s) ->
  exists F, Buddy s F ∅ (managed bd) /\ base s = boot_base bd /\ edge s = bd_edge bd /\ len (pagemeta s) = boot_frames bd.
Proof.
  intros Hbd Hs. rewrite boot_cases in Hs by apply Hbd. do 2 (case_decide; [done|]). destruct tables as [[]|e]; [|done].
  do 2 (case_decide; [done|]). destruct (holes _ _ _ _) as [hs|] eqn:Hhs; [|done]. cbn [mbind option_bind] in Hs.
  destruct (boot_loop bd hs Hbd Hhs) as (s' & F & Hrun & HB & Hx). rewrite Hrun in Hs. injection Hs as <-. by exists F.
Qed.

(** ** Histories of allocations and releases *)

Inductive history (bd : Board) : FrameInner -> gset block -> Prop :=
| hi_boot tables s : boot bd tables = Some (Ok s) -> history bd s ∅
| hi_alloc s U size a l s' : history bd s U -> 0 <= size ->
    allocate size s = Some (Ok (a, l), s') ->
    history bd s' ({[(frame_index s a, block_power size)]} ∪ U)
| hi_fail s U size e s' : history bd s U -> 0 <= size ->
    allocate size s = Some (Err e, s') -> history bd s' U
| hi_free s U i size s' : history bd s U -> 0 <= size -> (i, block_power size) ∈ U ->
    deallocate (frame_addr s i) size s = Some (Ok tt, s') ->
    history bd s' (U ∖ {[(i, block_power size)]}).

Lemma block_power_max size : block_power (Z.max size PAGE_SIZE) = block_power size.
Proof. unfold block_power. by rewrite <- Z.max_assoc, Z.max_id. Qed.

Lemma in_range s F U T i k :
  Buddy s F U T -> (i, k) ∈ F ∪ U ->
  ((base s <=? frame_addr s i) && (frame_addr s i <? edge s)) = true /\ frame_addr s i <> 0.
Proof.
  intros HB Hin. destruct (Buddy_block _ _ _ _ _ HB Hin) as (_ & Hi & Hend & Hk). simpl in *.
  pose proof (pow2_pos k ltac:(lia)). pose proof (bu_edge _ _ _ _ HB). pose proof (bu_base _ _ _ _ HB).
  unfold frame_addr, PAGE_SIZE in *. split; [|lia]. apply andb_true_iff. rewrite Z.leb_le, Z.ltb_lt. lia.
Qed.

Lemma allocate_run s F U T size :
  Buddy s F U T -> 0 <= size ->
  exists r s', allocate size s = Some (r, s') /\ geometry s' = geometry s /\
    match r with
    | Ok (a, l) => exists i F', a = frame_addr s i /\ l = Z.max size PAGE_SIZE /\
        Buddy s' F' ({[(i, block_power size)]} ∪ U) T /\ ((i, block_power size) ∉ U)
    | Err _ => s' = s /\ forall i k, (i, k) ∈ F -> k < block_power size
    end.
Proof.
  intros HB Hs. unfold allocate. rewrite block_power_max. munfold.
  destruct (split_block_run s F U T (block_power size) HB (block_power_nonneg _ Hs))
    as ([i|] & s' & Hrun & Hg & Hr); rewrite Hrun; simpl.
  - destruct Hr as (F' & HB' & Hn). destruct (in_range s' F' _ T i (block_power size) HB') as [Hin Hnz]; [set_solver|].
    rewrite Hin. rewrite (proj2 (Z.eqb_neq _ _) Hnz). eexists _, s'. split; [done|]. split; [done|].
    exists i, F'. split_and!; try done. injection Hg as Hb _ _ _. unfold frame_addr. by rewrite Hb.
  - destruct Hr as [-> Hr]. by exists (Err AllocErr), s.
Qed.

Lemma deallocate_run s F U T i size :
  Buddy s F ({[(i, block_power size)]} ∪ U) T -> ((i, block_power size) ∉ U) ->
  exists s' F', deallocate (frame_addr s i) size s = Some (Ok tt, s') /\ Buddy s' F' U T /\
    geometry s' = geometry s.
Proof.
  intros HB Hn. destruct (in_range s F _ T i (block_power size) HB) as [Hin _]; [set_solver|].
  unfold deallocate. munfold. rewrite Hin, block_power_max.
  change (frame_addr s i) with (addr_at (base s) i). rewrite frame_index_addr.
  by apply (merge_block_run s F U T).
Qed.

Lemma history_Buddy bd s U :
  board_ok bd -> history bd s U ->
  exists F, Buddy s F U (managed bd) /\ base s = boot_base bd /\ edge s = bd_edge bd /\
    len (pagemeta s) = boot_frames bd.
Proof.
  intros Hbd. induction 1 as [tables s Hs|s U size a l s' _ IH Hsz Hal|s U size e s' _ IH Hsz Hal
                             |s U i size s' _ IH Hsz Hin Hde].
  - destruct (boot_Buddy bd tables s Hbd Hs) as (F & HB & Hx). eauto.
  - destruct IH as (F & HB & Hb & He & Hl).
    destruct (allocate_run s F U _ size HB Hsz) as (r & s2 & Hrun & Hg & Hr).
    rewrite Hal in Hrun. injection Hrun as <- <-. destruct Hr as (i & F' & -> & _ & HB' & _).
    change (frame_addr s i) with (addr_at (base s) i). rewrite frame_index_addr.
    exists F'. injection Hg as -> -> _ Hpm. unfold len in *. rewrite Hpm. done.
  - destruct IH as (F & HB & Hx). destruct (allocate_run s F U _ size HB Hsz) as (r & s2 & Hrun & Hg & Hr).
    rewrite Hal in Hrun. injection Hrun as <- <-. destruct Hr as [-> _]. eauto.
  - destruct IH as (F & HB & Hb & He & Hl).
    destruct (deallocate_run s F (U ∖ {[(i, block_power size)]}) (managed bd) i size) as (s2 & F' & Hrun & HB' & Hg).
    + replace ({[(i, block_power size)]} ∪ U ∖ {[(i, block_power size)]}) with U; [done|].
      apply leibniz_equiv. intros b. destruct (decide (b = (i, block_power size))); set_solver.
    + set_solver.
    + rewrite Hde in Hrun. simplify_eq. exists F'. unfold geometry in Hg. simplify_eq.
      unfold len in *. split_and!; congruence.
Qed.

Definition board0 : Board := mkBoard (4096 * 17) 4096 4096 [(4096 * 6, 100)].

Lemma board0_ok : board_ok board0.
Proof.
  split_and!; try (vm_compute; congruence).
  repeat constructor.
Qed.

Definition heap0 : FrameInner :=
  match boot board0 (Ok tt) with Some (Ok s) => s | _ => mkInner [] [] 0 0 ∅ end.
Definition heap1 : FrameInner :=
  match allocate 8192 heap0 with Some (_, s) => s | None => heap0 end.

(** What the board and the frontiers of the bump allocator are: regions of at least a
    byte, whose ends may lie anywhere. *)
Definition board_wf (bd : Board) : Prop :=
  0 < bd_frontier bd <= bd_frontier' bd /\ bd_edge bd <= usize_MAX /\ Forall (fun r => 0 <= r.1 /\ 0 < r.2) (bd_reserved bd).

(** C8: [FrameInner::init] on any board description without empty regions, whatever
    the allocations of its tables answer.  It panics only on an overflow: a frontier in
    the last page of the address space, or, once the tables are there, a reserved
    region that ends beyond it.  It reports an error only if the tables got none or if
    no frame is left, and never both succeeds and leaves a frame out: on success the
    free blocks partition exactly the page frames of [base, edge) that contain no
    reserved byte, each is aligned and filed under its power, and no two buddies are
    both free. *)
Theorem boot_files_usable bd tables :
  board_wf bd ->
  match boot bd tables with
  | None => usize_MAX < next_multiple_of (bd_frontier bd) PAGE_SIZE \/
      tables = Ok tt /\ (usize_MAX < boot_base bd \/ Exists (fun r => usize_MAX < r.1 + r.2) (bd_reserved bd))
  | Some (Err e) => tables = Err e \/ e = NoFreeFrames /\ boot_frames bd = 0
  | Some (Ok s) => tables = Ok tt /\ 0 < boot_frames bd /\ Forall (fun r => r.1 + r.2 <= usize_MAX) (bd_reserved bd) /\
      exists F, base s = boot_base bd /\ edge s = bd_edge bd /\
        (forall p, managed bd p <-> exists b, b ∈ F /\ in_block p b) /\
        (forall b b' p, b ∈ F -> b' ∈ F -> in_block p b -> in_block p b' -> b = b') /\
        (forall i k, (i, k) ∈ F -> aligned (i, k) /\ nth_z (pagemeta s) i = Some (Some k)) /\
        coalesced F
  end.
Proof.
  intros (Hfr & Hedge & Hres). rewrite boot_cases by done. pose proof (boot_first bd Hfr) as Hle.
  case_decide as H1; [by left|]. case_decide as H2.
  { right. split; [done|]. unfold boot_frames. assert (0 <= saturating_sub (bd_edge bd) (boot_base bd)) by (unfold saturating_sub; lia).
    pose proof (Z.div_pos (saturating_sub (bd_edge bd) (boot_base bd)) PAGE_SIZE ltac:(done) ltac:(done)).
    pose proof (Z.div_le_mono (saturating_sub (bd_edge bd) (boot_base bd)) (saturating_sub (bd_edge bd) (next_multiple_of (bd_frontier bd) PAGE_SIZE)) PAGE_SIZE ltac:(done) ltac:(unfold saturating_sub; lia)). lia. }
  destruct tables as [[]|e]; [|by left]. case_decide as H3; [right; split; [done|by left]|]. case_decide as H4; [by right|].
  assert (Hn : 0 < boot_frames bd) by (assert (0 <= boot_frames bd); [apply Z.div_pos; [unfold saturating_sub; lia|done]|lia]).
  destruct (holes _ _ _ _) as [hs|] eqn:Hhs; cbn [mbind option_bind].
  2: { right. split; [done|]. right. apply holes_panic in Hhs. apply Exists_exists in Hhs as (r & Hr & Hx). apply Exists_exists. exists r. split; [done|].
    eapply Forall_forall in Hres; [|exact Hr]. unfold ends_in in Hx. rewrite usize_iff in Hx. lia. }
  assert (Hbd : board_ok bd) by (split_and!; try done; try lia; eapply Forall_impl; [exact Hres|]; by intros r [_ ?]).
  destruct (boot_loop bd hs Hbd Hhs) as (s & F & -> & HB & Hb & He & _). split; [done|]. split; [done|].
  split; [apply holes_ends in Hhs; eapply Forall_impl; [exact Hhs|]; intros r Hr; apply usize_iff in Hr; lia|].
  exists F. pose proof (bu_partition _ _ _ _ HB) as HP. replace (F ∪ ∅) with F in HP by set_solver.
  destruct HP as [Ha Hd Hc]. split_and!; try done; [|apply HB].
  intros i k Hik. split; [by apply Ha|]. destruct (bu_rep _ _ _ _ HB) as [ls HR].
  apply (rp_meta _ _ _ HR); [|done]. apply (rp_range _ _ _ HR i k Hik).
Qed.

(** A board whose second region ends beyond the address space, and the first board
    with no memory for the tables. *)
Example boot_overflow : boot (mkBoard (4096 * 17) 4096 4096 [(4096 * 6, 100); (usize_MAX, 2)]) (Ok tt) = None.
Proof. by vm_compute. Qed.

Example boot_no_tables : boot board0 (Err InitOutOfMemory) = Some (Err InitOutOfMemory).
Proof. by vm_compute. Qed.

Lemma boot_files_usable_witness :
  exists F, (forall p, managed board0 p <-> exists b, b ∈ F /\ in_block p b) /\ coalesced F.
Proof.
  assert (Hwf : board_wf board0) by (split; [done|]; split; [done|]; by apply Forall_singleton).
  pose proof (boot_files_usable board0 (Ok tt) Hwf) as H. assert (E : boot board0 (Ok tt) = Some (Ok heap0)) by by vm_compute.
  rewrite E in H. destruct H as (_ & _ & _ & F & _ & _ & H1 & _ & _ & H2). exists F. split; [exact H1|exact H2].
Defined.

(** C5: after any history of allocations and releases an allocation does not
    panic.  A block it returns lies in [base, edge), is aligned to its size
    relative to [base], holds the request, contains no reserved byte and
    overlaps no block handed out before. *)
Theorem allocate_fresh bd s U size :
  board_ok bd -> history bd s U -> 0 <= size ->
  exists r s', allocate size s = Some (r, s') /\
    match r with
    | Err _ => s' = s
    | Ok (a, l) =>
        let bytes := 2 ^ block_power size * PAGE_SIZE in
        l = Z.max size PAGE_SIZE /\ l <= bytes /\ base s <= a /\ a + bytes <= edge s /\
        (bytes | a - base s) /\
        (forall x, a <= x < a + bytes -> ~ reserved_byte (bd_reserved bd) x) /\
        forall j q, (j, q) ∈ U ->
          frame_addr s j + 2 ^ q * PAGE_SIZE <= a \/ a + bytes <= frame_addr s j
    end.
Proof.
  intros Hbd Hh Hs. destruct (history_Buddy bd s U Hbd Hh) as (F & HB & Hb & He & Hl).
  destruct (allocate_run s F U _ size HB Hs) as (r & s' & Hrun & Hg & Hr). exists r, s'.
  split; [done|]. destruct r as [[a l]|e]; [|by destruct Hr].
  destruct Hr as (i & F' & -> & -> & HB' & Hn). set (p := block_power size) in *. set (bytes := 2 ^ p * PAGE_SIZE).
  destruct (Buddy_block _ _ _ _ (i, p) HB') as (Ha & Hi & Hend & Hp); [set_solver|]. cbn [fst snd] in *.
  pose proof (pow2_pos p ltac:(lia)) as Hpos. pose proof Ha as (_ & _ & Hdiv). simpl in Hdiv.
  injection Hg as Hb' He' _ Hpm. assert (Hl' : len (pagemeta s') = len (pagemeta s)) by (unfold len; congruence).
  pose proof (bu_edge _ _ _ _ HB) as Hedge. unfold frame_addr in *. rewrite Hl' in Hend.
  assert (Hsz : size <= bytes /\ PAGE_SIZE <= bytes).
  { split; [|unfold bytes, PAGE_SIZE; nia]. unfold bytes, p. rewrite block_power_eq by done.
    set (q := div_ceil _ _). assert (Hq : 0 < q) by (unfold q, div_ceil, PAGE_SIZE; apply Z.div_str_pos; lia).
    assert (Z.max size PAGE_SIZE <= 2 ^ Z.log2_up q * PAGE_SIZE); [|lia].
    apply div_ceil_lt. by apply Z.log2_log2_up_spec. }
  assert (Hmul : (i + 2 ^ p) * PAGE_SIZE = i * PAGE_SIZE + bytes) by (unfold bytes; lia).
  split_and!; try lia.
  - unfold PAGE_SIZE in *. lia.
  - assert ((i + 2 ^ p) * PAGE_SIZE <= len (pagemeta s) * PAGE_SIZE); [|lia].
    apply Z.mul_le_mono_nonneg_r; [done|lia].
  - replace (base s + i * PAGE_SIZE - base s) with (i * PAGE_SIZE) by lia.
    by apply Z.mul_divide_mono_r.
  - intros x Hx Hres. set (f := (x - base s) / PAGE_SIZE).
    assert (Hf : base s + f * PAGE_SIZE <= x < base s + (f + 1) * PAGE_SIZE).
    { unfold f, PAGE_SIZE. pose proof (Z.div_mod (x - base s) 4096). pose proof (Z.mod_pos_bound (x - base s) 4096). lia. }
    assert (Hin : in_block f (i, p)) by (unfold in_block, bytes, PAGE_SIZE in *; simpl; lia).
    assert (managed bd f) as [_ Hm].
    { apply (pa_cover _ _ (bu_partition _ _ _ _ HB')). exists (i, p). split; [set_solver|done]. }
    apply (Hm x); [by rewrite <- Hb|done].
  - intros j q Hj. destruct (Buddy_block _ _ _ _ (j, q) HB') as (Hja & Hj0 & _ & Hq0); [set_solver|].
    cbn [fst snd] in *. pose proof (pow2_pos q ltac:(lia)).
    assert (Hdis : j + 2 ^ q <= i \/ i + 2 ^ p <= j).
    { destruct (Z.le_gt_cases (j + 2 ^ q) i); [by left|]. destruct (Z.le_gt_cases (i + 2 ^ p) j); [by right|].
      exfalso. apply Hn. replace (i, p) with (j, q); [done|].
      apply (pa_disjoint _ _ (bu_partition _ _ _ _ HB') _ _ (Z.max i j)); [set_solver..| |];
        unfold in_block; simpl; lia. }
    unfold bytes, PAGE_SIZE in *. lia.
Qed.

Lemma history1 : history board0 heap1 ({[(6, 1)]} ∪ ∅).
Proof.
  apply (hi_alloc board0 heap0 ∅ 8192 (4096 * 7) 8192).
  - apply (hi_boot _ (Ok tt)). vm_compute. reflexivity.
  - lia.
  - vm_compute. reflexivity.
Qed.

Lemma allocate_fresh_witness :
  exists r s', allocate 4096 heap1 = Some (r, s') /\
    match r with
    | Err _ => s' = heap1
    | Ok (a, l) =>
        let bytes := 2 ^ block_power 4096 * PAGE_SIZE in
        l = Z.max 4096 PAGE_SIZE /\ l <= bytes /\ base heap1 <= a /\ a + bytes <= edge heap1 /\
        (bytes | a - base heap1) /\
        (forall x, a <= x < a + bytes -> ~ reserved_byte (bd_reserved board0) x) /\
        forall j q, (j, q) ∈ ({[(6, 1)]} ∪ ∅ : gset block) ->
          frame_addr heap1 j + 2 ^ q * PAGE_SIZE <= a \/ a + bytes <= frame_addr heap1 j
    end.
Proof.
  apply (allocate_fresh board0).
  - exact board0_ok.
  - exact history1.
  - lia.
Defined.

(** C6: an allocation fails only when no aligned block of the size it needs is
    free: every such run of managed frames meets a block already handed out. *)
Theorem allocate_complete bd s U size e s' :
  board_ok bd -> history bd s U -> 0 <= size -> allocate size s = Some (Err e, s') ->
  forall i, aligned (i, block_power size) ->
    (forall p, in_block p (i, block_power size) -> managed bd p) ->
    exists b p, b ∈ U /\ in_block p b /\ in_block p (i, block_power size).
Proof.
  intros Hbd Hh Hs Hal i Ha Hm. destruct (history_Buddy bd s U Hbd Hh) as (F & HB & _).
  destruct (allocate_run s F U _ size HB Hs) as (r & s2 & Hrun & _ & Hr).
  rewrite Hal in Hrun. injection Hrun as <- <-. destruct Hr as [_ Hsmall].
  set (P := block_power size) in *.
  destruct (decide (Exists (fun p => Exists (in_block p) (elements U)) (seqZ i (2 ^ P)))) as [Hex|Hno].
  { apply Exists_exists in Hex as (p & Hp%elem_of_seqZ & Hex).
    apply Exists_exists in Hex as (b & Hb & Hpb). exists b, p.
    split; [by apply elem_of_elements|]. split; [done|]. unfold in_block. simpl. lia. }
  exfalso. assert (HPF : partition F (fun p => exists b, b ∈ F /\ in_block p b)).
  { pose proof (bu_partition _ _ _ _ HB) as [Hpa Hpd _]. split; [set_solver|set_solver|done]. }
  assert (Hall : forall p, in_block p (i, P) -> exists b, b ∈ F /\ in_block p b).
  { intros p Hp. destruct (proj1 (pa_cover _ _ (bu_partition _ _ _ _ HB) p) (Hm p Hp)) as (b & Hb & Hpb).
    apply elem_of_union in Hb as [Hb|Hb]; [eauto|]. exfalso. apply Hno. apply Exists_exists. exists p. split.
    - apply elem_of_seqZ. unfold in_block in Hp. simpl in Hp. lia.
    - apply Exists_exists. exists b. split; [by apply elem_of_elements|done]. }
  destruct (Hall i) as ([j k] & Hb & Hib); [by apply (head_in_block (i, P))|].
  pose proof (Hsmall j k Hb) as Hk. pose proof (pa_aligned _ _ HPF _ Hb) as (Hk0 & _). simpl in Hk0.
  eapply (no_smaller F _ (i, P) HPF (bu_coalesced _ _ _ _ HB) Ha Hall (Z.to_nat k) (j, k) i);
    simpl; try done; try lia. by apply (head_in_block (i, P)).
Qed.

Lemma allocate_complete_witness :
  allocate (4096 * 16) heap1 = Some (Err AllocErr, heap1) /\
  forall i, aligned (i, block_power (4096 * 16)) ->
    (forall p, in_block p (i, block_power (4096 * 16)) -> managed board0 p) ->
    exists b p, b ∈ ({[(6, 1)]} ∪ ∅ : gset block) /\ in_block p b /\
      in_block p (i, block_power (4096 * 16)).
Proof.
  split; [vm_compute; reflexivity|]. eapply (allocate_complete board0 heap1 _ (4096 * 16) AllocErr).
  - exact board0_ok.
  - exact history1.
  - lia.
  - vm_compute. reflexivity.
Defined.

(** C7: giving back any block that is out never panics, and once everything
    has been given back the metadata of the free blocks is what it was at boot,
    whatever the order of the operations: all splits have been merged again. *)
Theorem release_restores bd tables s U s0 :
  board_ok bd -> history bd s U -> boot bd tables = Some (Ok s0) ->
  (forall i size, 0 <= size -> (i, block_power size) ∈ U ->
     exists s', deallocate (frame_addr s i) size s = Some (Ok tt, s')) /\
  (U = ∅ -> forall i, 0 <= i -> nth_z (pagemeta s) i = nth_z (pagemeta s0) i).
Proof.
  intros Hbd Hh Hs0. destruct (history_Buddy bd s U Hbd Hh) as (F & HB & Hb & He & Hl). split.
  - intros i size Hsz Hin.
    destruct (deallocate_run s F (U ∖ {[(i, block_power size)]}) (managed bd) i size) as (s' & F' & Hrun & _).
    + replace ({[(i, block_power size)]} ∪ U ∖ {[(i, block_power size)]}) with U; [done|].
      apply leibniz_equiv. intros b. destruct (decide (b = (i, block_power size))); set_solver.
    + set_solver.
    + eauto.
  - intros -> i Hi. destruct (boot_Buddy bd tables s0 Hbd Hs0) as (F0 & HB0 & _ & _ & Hl0). assert (F = F0) as ->.
    { eapply (coalesced_unique F F0 (managed bd)); [| |apply HB|apply HB0].
      - replace F with (F ∪ ∅) by set_solver. apply HB.
      - replace F0 with (F0 ∪ ∅) by set_solver. apply HB0. }
    destruct (bu_rep _ _ _ _ HB) as [ls HR]. destruct (bu_rep _ _ _ _ HB0) as [ls0 HR0].
    assert (Hlen : length (pagemeta s) = length (pagemeta s0)) by (unfold len in *; lia).
    destruct (decide (i < len (pagemeta s))) as [Hlt|Hge].
    + destruct (nth_z_lt (pagemeta s) i ltac:(lia)) as [o Ho].
      destruct (nth_z_lt (pagemeta s0) i) as [o' Ho']; [unfold len in *; lia|]. rewrite Ho, Ho'. f_equal.
      destruct o as [k|], o' as [k'|]; try done.
      * apply (rp_meta _ _ _ HR) in Ho; [|done]. apply (rp_meta _ _ _ HR0) in Ho; [|done]. congruence.
      * apply (rp_meta _ _ _ HR) in Ho; [|done]. apply (rp_meta _ _ _ HR0) in Ho; [|done]. congruence.
      * apply (rp_meta _ _ _ HR0) in Ho'; [|done]. apply (rp_meta _ _ _ HR) in Ho'; [|done]. congruence.
    + unfold nth_z. rewrite !(proj2 (lookup_ge_None _ _)); [done|unfold len in *; lia..].
Qed.

Lemma release_restores_witness :
  exists s', deallocate (frame_addr heap1 6) 8192 heap1 = Some (Ok tt, s').
Proof.
  apply (release_restores board0 (Ok tt) heap1 ({[(6, 1)]} ∪ ∅) heap0).
  - exact board0_ok.
  - exact history1.
  - vm_compute. reflexivity.
  - lia.
  - replace (block_power 8192) with 1 by reflexivity. set_solver.
Defined.
