(* ===== verification/Bitmap.v ===== *)
(** * Bitmap allocator and address-space identifiers

    [kernel/src/core/memory/flat/allocator/bitmap.rs] hands out runs of units
    of a number range by first fit over an array of 64-bit words;
    [kernel/src/core/memory/nest/identity/asid.rs] is its instance for the
    16-bit address-space identifiers. *)

From S2P Require Import Prelude.

Open Scope Z_scope.

Record BitmapAllocator := mkBitmap {
  bm_base : Z;
  bm_edge : Z;
  bm_unit : Z;
  bits : list Z
}.

Abbreviation BM := (M BitmapAllocator AllocError).

Definition BitmapAllocator_new (base edge unit_ : Z) : BitmapAllocator := mkBitmap base edge unit_ [].
Definition set_bits (l : list Z) (s : BitmapAllocator) : BitmapAllocator :=
  mkBitmap (bm_base s) (bm_edge s) (bm_unit s) l.

Definition units (s : BitmapAllocator) : Z := (bm_edge s - bm_base s) / bm_unit s.

(** [ensure]; [grow] is the outcome of the reservation when one is made. *)
Definition ensure (grow : bool) : BM unit :=
  s ← get;
  if (length (bits s) =? 0)%nat && (0 <? units s) then
    if grow then put (set_bits (replicate (Z.to_nat (div_ceil (units s) 64)) 0) s)
    else fail AllocErr
  else mret tt.

Definition bit_mask (i : Z) : Z := Z.shiftl 1 (i mod 64).
Definition not64 (x : Z) : Z := Z.lxor x (2 ^ 64 - 1).

Definition word (i : Z) : BM Z := s ← get; expect (nth_z (bits s) (i / 64)).
Definition put_word (i w : Z) : BM unit :=
  s ← get; word i ≫= fun _ => put (set_bits (<[Z.to_nat (i / 64) := w]> (bits s)) s).
Definition is_free (i : Z) : BM bool := w ← word i; mret (Z.land w (bit_mask i) =? 0).

(** The search loop over [i ..  i + n). *)
Fixpoint scan (n : nat) (i run_start run_len want : Z) : BM (option Z) :=
  match n with
  | O => mret None
  | S n =>
      free ← is_free i;
      if free : bool then
        let run_start := if run_len =? 0 then i else run_start in
        let run_len := run_len + 1 in
        if want <=? run_len then mret (Some run_start)
        else scan n (i + 1) run_start run_len want
      else scan n (i + 1) run_start 0 want
  end.

Fixpoint mark (n : nat) (i : Z) : BM unit :=
  match n with
  | O => mret tt
  | S n => w ← word i; put_word i (Z.lor w (bit_mask i)) ;; mark n (i + 1)
  end.

Fixpoint all_set (n : nat) (i : Z) : BM unit :=
  match n with
  | O => mret tt
  | S n => free ← is_free i; if (free : bool) then fail AllocErr else all_set n (i + 1)
  end.

Fixpoint clear (n : nat) (i : Z) : BM unit :=
  match n with
  | O => mret tt
  | S n => w ← word i; put_word i (Z.land w (not64 (bit_mask i))) ;; clear n (i + 1)
  end.

Definition allocate (grow : bool) (size : Z) : BM (Z * Z) :=
  ensure grow ;;
  s ← get;
  let want := Z.max (div_ceil size (bm_unit s)) 1 in
  found ← scan (Z.to_nat (units s)) 0 0 0 want;
  match found with
  | None => fail AllocErr
  | Some run_start =>
      mark (Z.to_nat want) run_start ;;
      mret (bm_base s + run_start * bm_unit s, want * bm_unit s)
  end.

(** [ensure().is_ok()] keeps going after a failed reservation. *)
Definition deallocate (grow : bool) (addr size : Z) : BM unit :=
  s0 ← get;
  let sized := match ensure grow s0 with Some (Ok _, _) => true | _ => false end in
  (if sized then ensure grow else mret tt) ;;
  s ← get;
  if negb sized || (addr <? bm_base s) then fail AllocErr
  else
  end_ ← uadd addr size;
  if bm_edge s <? end_ then fail AllocErr
  else if negb (addr mod bm_unit s =? 0) || negb (size mod bm_unit s =? 0) then fail AllocErr
  else
    let start := (addr - bm_base s) / bm_unit s in
    let n := size / bm_unit s in
    all_set (Z.to_nat n) start ;; clear (Z.to_nat n) start.

(** ** [asid.rs] *)

Definition ASID_BITS : Z := 16.
Definition VACANT : Z := Z.shiftl 1 ASID_BITS.
Definition ASID_ALLOCATOR : BitmapAllocator := BitmapAllocator_new 1 65536 1.
Definition Asid_kernel : Z := 0.
Definition Asid_from_raw (raw : Z) : Z := Z.land raw 65535.
Definition Asid_is_kernel (asid : Z) : bool := asid =? 0.

Definition Asid_try_allocate (grow : bool) : BM (option Z) := fun s =>
  match allocate grow 1 s with
  | Some (Ok (asid, _), s') => Some (Ok (Some asid), s')
  | Some (Err _, s') => Some (Ok None, s')
  | None => None
  end.

(** [deallocate(..).expect(..)] *)
Definition Asid_release (grow : bool) (asid : Z) : BM unit := fun s =>
  match deallocate grow asid 1 s with Some (Ok u, s') => Some (Ok u, s') | _ => None end.

Definition Asid_release_unpublished (grow : bool) (asid : Z) : BM unit :=
  assert_that (negb (Asid_is_kernel asid)) ;; Asid_release grow asid.

(** ** The set of units in use *)

Definition used (s : BitmapAllocator) (i : Z) : bool :=
  match nth_z (bits s) (i / 64) with Some w => Z.testbit w (i mod 64) | None => false end.

Record wf_bitmap (s : BitmapAllocator) : Prop := {
  wb_unit : 0 < bm_unit s;
  wb_range : 0 <= bm_base s <= bm_edge s;
  wb_edge : bm_edge s <= usize_MAX;
  wb_words : Forall (fits 64) (bits s);
  wb_len : bits s = [] \/ len (bits s) = div_ceil (units s) 64
}.

(** The words are there. *)
Definition sized (s : BitmapAllocator) : Prop := len (bits s) = div_ceil (units s) 64.

Definition same_range (s s' : BitmapAllocator) : Prop :=
  bm_base s' = bm_base s /\ bm_edge s' = bm_edge s /\ bm_unit s' = bm_unit s.

Lemma units_nonneg s : wf_bitmap s -> 0 <= units s.
Proof. intros [? ? _ _ _]. apply Z.div_pos; lia. Qed.

Lemma word_index s i : sized s -> 0 <= i < units s -> 0 <= i / 64 < len (bits s).
Proof.
  unfold sized, div_ceil. intros -> Hi. split; [apply Z.div_pos; lia|].
  apply Z.div_lt_upper_bound; [lia|].
  pose proof (Z.div_mod (units s + 64 - 1) 64). pose proof (Z.mod_pos_bound (units s + 64 - 1) 64). lia.
Qed.

Lemma land_mask w i : (Z.land w (bit_mask i) =? 0) = negb (Z.testbit w (i mod 64)).
Proof.
  unfold bit_mask. rewrite Z.shiftl_1_l. pose proof (Z.mod_pos_bound i 64 ltac:(lia)) as Hm.
  destruct (Z.testbit w (i mod 64)) eqn:Hb; simpl.
  - apply Z.eqb_neq. intros E. apply (f_equal (fun x => Z.testbit x (i mod 64))) in E.
    rewrite Z.land_spec, Hb, Z.pow2_bits_true, Z.bits_0 in E by lia. done.
  - apply Z.eqb_eq. apply Z.bits_inj'. intros j Hj.
    rewrite Z.land_spec, Z.pow2_bits_eqb, Z.bits_0 by lia.
    destruct (Z.eqb_spec (i mod 64) j) as [<-|]; [by rewrite Hb|apply andb_false_r].
Qed.

Lemma word_run s i : sized s -> 0 <= i < units s ->
  exists w, word i s = Some (Ok w, s) /\ nth_z (bits s) (i / 64) = Some w.
Proof.
  intros Hs Hi. destruct (nth_z_lt (bits s) (i / 64)) as [w Hw]; [by apply word_index|].
  exists w. unfold word. munfold. by rewrite Hw.
Qed.

Lemma mask_bit i j : 0 <= j -> Z.testbit (bit_mask i) (j mod 64) = (i mod 64 =? j mod 64).
Proof.
  intros Hj. unfold bit_mask. rewrite Z.shiftl_1_l. apply Z.pow2_bits_eqb.
  apply Z.mod_pos_bound. lia.
Qed.

Lemma mask_fits i : fits 64 (bit_mask i).
Proof.
  unfold bit_mask, fits. rewrite Z.shiftl_1_l. pose proof (Z.mod_pos_bound i 64 ltac:(lia)).
  split; [apply Z.pow_nonneg; lia|]. apply Z.pow_lt_mono_r; lia.
Qed.

Lemma not64_bit x m : 0 <= m < 64 -> Z.testbit (not64 x) m = negb (Z.testbit x m).
Proof.
  intros Hm. unfold not64. rewrite Z.lxor_spec. change (2 ^ 64 - 1) with (Z.ones 64).
  rewrite Z.ones_spec_low by lia. apply xorb_true_r.
Qed.

Lemma fits_lor a b : fits 64 a -> fits 64 b -> fits 64 (Z.lor a b).
Proof.
  intros [Ha Ha'] [Hb Hb']. split; [by apply Z.lor_nonneg|].
  destruct (decide (Z.lor a b = 0)) as [->|Hne]; [lia|].
  assert (0 <= Z.lor a b) by (by apply Z.lor_nonneg).
  apply Z.log2_lt_pow2; [lia|]. rewrite Z.log2_lor by done. apply Z.max_lub_lt.
  - destruct (decide (a = 0)) as [->|]; [done|]. apply Z.log2_lt_pow2; lia.
  - destruct (decide (b = 0)) as [->|]; [done|]. apply Z.log2_lt_pow2; lia.
Qed.

Lemma fits_land a b : fits 64 a -> fits 64 (Z.land a b).
Proof.
  intros [Ha Ha']. assert (Hn : 0 <= Z.land a b) by (apply Z.land_nonneg; by left).
  split; [done|]. destruct (decide (b = 0)) as [->|]; [rewrite Z.land_0_r; lia|].
  enough (Z.land a b <= a) by lia. apply Z.ldiff_le; [done|].
  apply Z.bits_inj'. intros j Hj. rewrite Z.ldiff_spec, Z.land_spec, Z.bits_0.
  by destruct (Z.testbit a j), (Z.testbit b j).
Qed.

(** A state that differs from [s] in the units in use only. *)
Definition marks (s s' : BitmapAllocator) (f : Z -> bool -> bool) : Prop :=
  same_range s s' /\ wf_bitmap s' /\ sized s' /\ forall j, 0 <= j -> used s' j = f j (used s j).

Lemma same_range_units s s' : same_range s s' -> units s' = units s.
Proof. intros (Hb & He & Hu). unfold units. by rewrite Hb, He, Hu. Qed.

Lemma put_word_marks s i w w0 f :
  wf_bitmap s -> sized s -> 0 <= i < units s -> fits 64 w -> nth_z (bits s) (i / 64) = Some w0 ->
  (forall m, 0 <= m < 64 -> Z.testbit w m = if i mod 64 =? m then f (Z.testbit w0 m) else Z.testbit w0 m) ->
  exists s', put_word i w s = Some (Ok tt, s') /\
    marks s s' (fun j b => if j =? i then f b else b).
Proof.
  intros Hwf Hs Hi Hw Hn Hf. exists (set_bits (<[Z.to_nat (i / 64) := w]> (bits s)) s).
  assert (Hidx : 0 <= i / 64) by (apply Z.div_pos; lia).
  pose proof (lookup_lt_Some _ _ _ Hn) as Hlt. split.
  { unfold put_word, word. munfold. by rewrite Hn. }
  split; [done|]. assert (Hs' : sized (set_bits (<[Z.to_nat (i / 64) := w]> (bits s)) s)).
  { unfold sized, len, units in *. simpl. by rewrite length_insert. }
  split_and!; [|done|].
  - destruct Hwf. split; simpl; try done; [by apply Forall_insert|by right].
  - intros j Hj. unfold used, nth_z. simpl. rewrite list_lookup_insert.
    assert (0 <= j / 64) by (apply Z.div_pos; lia).
    pose proof (Z.mod_pos_bound j 64 ltac:(lia)).
    pose proof (Z.div_mod i 64 ltac:(lia)) as Ei. pose proof (Z.div_mod j 64 ltac:(lia)) as Ej.
    case_decide as Hd.
    + destruct Hd as [E _]. apply Z2Nat.inj in E; [|done..]. rewrite Hf by lia.
      unfold nth_z in Hn. rewrite <- E, Hn. destruct (Z.eqb_spec (i mod 64) (j mod 64)) as [E'|E'].
      * by rewrite (proj2 (Z.eqb_eq j i)) by lia.
      * rewrite (proj2 (Z.eqb_neq j i)); [done|]. intros ->. done.
    + rewrite (proj2 (Z.eqb_neq j i)); [done|]. intros ->. apply Hd. done.
Qed.

Lemma marks_trans s1 s2 s3 f g :
  marks s1 s2 f -> marks s2 s3 g -> marks s1 s3 (fun j b => g j (f j b)).
Proof.
  intros ((B1 & E1 & U1) & W1 & Z1 & F1) ((B2 & E2 & U2) & W2 & Z2 & F2).
  split; [split_and!; congruence|]. split_and!; try done. intros j Hj. by rewrite F2, F1.
Qed.

Lemma marks_ext s s' f g :
  marks s s' f -> (forall j b, 0 <= j -> f j b = g j b) -> marks s s' g.
Proof. intros (? & ? & ? & Hf) Hfg. split_and!; try done. intros j Hj. by rewrite Hf, Hfg. Qed.

Lemma marks_refl s : wf_bitmap s -> sized s -> marks s s (fun _ b => b).
Proof. done. Qed.

(** The two marking loops are one: each applies [f] to the units it visits. *)
Lemma loop_marks (loop : nat -> Z -> BM unit) (f : bool -> bool) (upd : Z -> Z -> Z) :
  (forall i, loop 0%nat i = mret tt) ->
  (forall n i, loop (S n) i = (w ← word i; put_word i (upd i w) ;; loop n (i + 1))) ->
  (forall i w, 0 <= i -> fits 64 w -> fits 64 (upd i w) /\ forall m, 0 <= m < 64 ->
     Z.testbit (upd i w) m = if i mod 64 =? m then f (Z.testbit w m) else Z.testbit w m) ->
  forall n i s, wf_bitmap s -> sized s -> 0 <= i -> i + Z.of_nat n <= units s ->
  exists s', loop n i s = Some (Ok tt, s') /\
    marks s s' (fun j b => if (i <=? j) && (j <? i + Z.of_nat n) then f b else b).
Proof.
  intros H0 HS Hupd n. induction n as [|n IH]; intros i s Hwf Hs Hi Hn.
  { rewrite H0. exists s. split; [done|]. eapply marks_ext; [by apply marks_refl|]. intros j b Hj.
    simpl. destruct (Z.leb_spec i j), (Z.ltb_spec j (i + Z.of_nat 0)); simpl; try done; lia. }
  destruct (word_run s i Hs ltac:(lia)) as (w & Hrun & Hw).
  assert (Hfit : fits 64 w).
  { eapply (Forall_lookup_1 _ _ _ _ (wb_words _ Hwf)). exact Hw. }
  destruct (Hupd i w Hi Hfit) as [Hfit' Hbits].
  destruct (put_word_marks s i (upd i w) w f Hwf Hs ltac:(lia) Hfit' Hw Hbits) as (s1 & Hrun1 & Hm1).
  pose proof Hm1 as (Hr1 & Hwf1 & Hs1 & _).
  destruct (IH (i + 1) s1 Hwf1 Hs1 ltac:(lia)) as (s2 & Hrun2 & Hm2).
  { rewrite (same_range_units _ _ Hr1). lia. }
  rewrite HS. exists s2. unfold mbind, M_bind. rewrite Hrun, Hrun1. split; [done|].
  eapply marks_ext; [eapply marks_trans; [exact Hm1|exact Hm2]|].
  intros j b Hj. cbn beta. rewrite Nat2Z.inj_succ.
  destruct (Z.eqb_spec j i) as [->|Hne].
  - rewrite (proj2 (Z.leb_gt (i + 1) i)) by lia. simpl.
    by rewrite (proj2 (Z.leb_le i i)), (proj2 (Z.ltb_lt i (i + Z.succ (Z.of_nat n)))) by lia.
  - destruct (Z.leb_spec (i + 1) j), (Z.leb_spec i j), (Z.ltb_spec j (i + 1 + Z.of_nat n)),
      (Z.ltb_spec j (i + Z.succ (Z.of_nat n))); simpl; try done; lia.
Qed.

Lemma mark_run n i s :
  wf_bitmap s -> sized s -> 0 <= i -> i + Z.of_nat n <= units s ->
  exists s', mark n i s = Some (Ok tt, s') /\
    marks s s' (fun j b => if (i <=? j) && (j <? i + Z.of_nat n) then true else b).
Proof.
  apply (loop_marks mark (fun _ => true) (fun i w => Z.lor w (bit_mask i))); [done..|].
  intros j w Hj Hw. split; [apply fits_lor; [done|apply mask_fits]|]. intros m Hm.
  rewrite Z.lor_spec. rewrite <- (Z.mod_small m 64) at 2 by done. rewrite mask_bit by lia.
  rewrite (Z.mod_small m 64) by done. destruct (j mod 64 =? m); [apply orb_true_r|apply orb_false_r].
Qed.

Lemma clear_run n i s :
  wf_bitmap s -> sized s -> 0 <= i -> i + Z.of_nat n <= units s ->
  exists s', clear n i s = Some (Ok tt, s') /\
    marks s s' (fun j b => if (i <=? j) && (j <? i + Z.of_nat n) then false else b).
Proof.
  apply (loop_marks clear (fun _ => false) (fun i w => Z.land w (not64 (bit_mask i)))); [done..|].
  intros j w Hj Hw. split; [by apply fits_land|]. intros m Hm.
  rewrite Z.land_spec, not64_bit by done. rewrite <- (Z.mod_small m 64) at 2 by done.
  rewrite mask_bit by lia. rewrite (Z.mod_small m 64) by done.
  destruct (j mod 64 =? m); [apply andb_false_r|apply andb_true_r].
Qed.

Lemma is_free_run s i :
  sized s -> 0 <= i < units s -> is_free i s = Some (Ok (negb (used s i)), s).
Proof.
  intros Hs Hi. destruct (word_run s i Hs Hi) as (w & Hrun & Hw). unfold is_free. munfold.
  rewrite Hrun, land_mask. unfold used. by rewrite Hw.
Qed.

Lemma all_set_run n i s :
  sized s -> 0 <= i -> i + Z.of_nat n <= units s ->
  exists r, all_set n i s = Some (r, s) /\
    (r = Ok tt <-> forall j, i <= j < i + Z.of_nat n -> used s j = true).
Proof.
  revert i. induction n as [|n IH]; intros i Hs Hi Hn; simpl.
  { exists (Ok tt). split; [done|]. split; [lia|done]. }
  unfold mbind, M_bind. rewrite is_free_run by (done || lia). destruct (used s i) eqn:Hu; simpl.
  - destruct (IH (i + 1) Hs ltac:(lia) ltac:(lia)) as (r & Hr & Hiff). exists r. split; [done|].
    rewrite Hiff. split; intros Hall j Hj; [destruct (decide (j = i)) as [->|]; [done|]|]; apply Hall; lia.
  - exists (Err AllocErr). split; [done|]. split; [done|]. intros Hall. rewrite Hall in Hu by lia. done.
Qed.

(** ** First fit *)

Definition free_run (s : BitmapAllocator) (r k : Z) : Prop :=
  forall j, r <= j < r + k -> used s j = false.

Lemma scan_run n i rs rl want s :
  sized s -> 0 <= i -> i + Z.of_nat n <= units s -> 0 <= rl < want -> rl <= i ->
  (0 < rl -> rs = i - rl) -> free_run s (i - rl) rl ->
  (rl = i \/ used s (i - rl - 1) = true) ->
  (forall r, 0 <= r -> r + want <= i -> ~ free_run s r want) ->
  exists o, scan n i rs rl want s = Some (Ok o, s) /\
    match o with
    | Some r => 0 <= r /\ r + want <= i + Z.of_nat n /\ free_run s r want /\
        forall r', 0 <= r' < r -> ~ free_run s r' want
    | None => forall r', 0 <= r' -> r' + want <= i + Z.of_nat n -> ~ free_run s r' want
    end.
Proof.
  revert i rs rl. induction n as [|n IH]; intros i rs rl Hs Hi Hn Hrl Hle Hrs Hfree Hstop Hno.
  { exists None. split; [done|]. intros r' Hr'. rewrite Z.add_0_r. by apply Hno. }
  simpl. unfold mbind, M_bind. rewrite is_free_run by (done || lia).
  destruct (used s i) eqn:Hu; simpl.
  - destruct (IH (i + 1) rs 0) as (o & Ho & Hres); try done; try lia.
    + intros j Hj. lia.
    + right. by replace (i + 1 - 0 - 1) with i by lia.
    + intros r Hr Hend Hf. destruct (decide (r + want = i + 1)) as [E|].
      * rewrite Hf in Hu by lia. done.
      * apply (Hno r); [done|lia|done].
    + exists o. split; [done|]. replace (i + Z.of_nat (S n)) with (i + 1 + Z.of_nat n) by lia. done.
  - set (rs' := if rl =? 0 then i else rs).
    assert (Hrs' : rs' = i - rl).
    { unfold rs'. destruct (Z.eqb_spec rl 0); [lia|]. apply Hrs. lia. }
    assert (Hf' : free_run s rs' (rl + 1)).
    { intros j Hj. destruct (decide (j = i)) as [->|]; [done|]. apply Hfree. lia. }
    destruct (Z.leb_spec want (rl + 1)) as [Hgot|Hmore].
    + exists (Some rs'). split; [done|]. split_and!; [lia|lia| |].
      * intros j Hj. apply Hf'. lia.
      * intros r' Hr'. apply Hno; lia.
    + destruct (IH (i + 1) rs' (rl + 1)) as (o & Ho & Hres); try done; try lia.
      * replace (i + 1 - (rl + 1)) with rs' by lia. done.
      * replace (i + 1 - (rl + 1) - 1) with (i - rl - 1) by lia. destruct Hstop; [left; lia|by right].
      * intros r Hr Hend Hf. destruct (decide (r + want = i + 1)) as [E|].
        -- destruct Hstop as [->|Hst]; [lia|]. rewrite Hf in Hst by lia. done.
        -- apply (Hno r); [done|lia|done].
      * exists o. split; [done|]. replace (i + Z.of_nat (S n)) with (i + 1 + Z.of_nat n) by lia. done.
Qed.

Lemma ensure_run grow s :
  wf_bitmap s ->
  exists r s', ensure grow s = Some (r, s') /\ same_range s s' /\ wf_bitmap s' /\
    (forall j, used s' j = used s j) /\ (r = Ok tt -> sized s') /\
    (r <> Ok tt -> s' = s /\ grow = false).
Proof.
  intros Hwf. pose proof (units_nonneg s Hwf) as Hun. unfold ensure. munfold.
  destruct (_ && _) eqn:Hc.
  - to_prop. apply Nat.eqb_eq in H. apply nil_length_inv in H. destruct grow.
    + eexists _, _. split; [done|]. split; [done|]. split_and!.
      * destruct Hwf. split; simpl; try done.
        -- apply Forall_replicate. unfold fits. lia.
        -- right. unfold len, units. simpl. rewrite length_replicate. fold (units s).
           apply Z2Nat.id. unfold div_ceil. apply Z.div_pos; lia.
      * intros j. unfold used, nth_z. simpl. rewrite H. simpl.
        destruct (replicate _ _ !! _) as [w|] eqn:Hw; [|done].
        apply lookup_replicate in Hw as [-> _]. by rewrite Z.bits_0.
      * intros _. unfold sized, len, units. simpl. rewrite length_replicate. fold (units s).
        apply Z2Nat.id. unfold div_ceil. apply Z.div_pos; lia.
      * done.
    + eexists _, s. split_and!; try done.
  - eexists _, s. split_and!; try done. intros _. destruct (wb_len _ Hwf) as [Hnil|]; [|done].
    unfold sized. rewrite Hnil in Hc. simpl in Hc. to_prop. assert (units s = 0) as E by lia.
    rewrite E. rewrite Hnil. done.
Qed.

Lemma bitmap_first_fit_run grow size s :
  wf_bitmap s -> 0 <= size ->
  let want := Z.max (div_ceil size (bm_unit s)) 1 in
  exists r s', allocate grow size s = Some (r, s') /\ same_range s s' /\ wf_bitmap s' /\
    match r with
    | Ok (addr, got) => exists k, addr = bm_base s + k * bm_unit s /\ got = want * bm_unit s /\
        size <= got /\ 0 <= k /\ addr + got <= bm_edge s /\ free_run s k want /\
        (forall k', 0 <= k' < k -> ~ free_run s k' want) /\
        forall j, 0 <= j -> used s' j = ((k <=? j) && (j <? k + want)) || used s j
    | Err _ => (forall j, used s' j = used s j) /\
        (grow = true -> forall k, 0 <= k -> k + want <= units s -> ~ free_run s k want)
    end.
Proof.
  intros Hwf Hsize want. unfold allocate, mbind at 1, M_bind at 1.
  destruct (ensure_run grow s Hwf) as (r & s1 & Hens & Hr1 & Hwf1 & Hu1 & Hok & Herr). rewrite Hens.
  destruct r as [[]|e].
  2: { eexists _, s1. split; [done|]. split; [done|]. split; [done|]. split; [done|].
       intros ->. by destruct Herr as [_ ?]. }
  specialize (Hok eq_refl). munfold. destruct Hr1 as (HB & HE & HU).
  assert (Hunits : units s1 = units s) by (unfold units; congruence).
  rewrite HU, HB. fold want. pose proof (units_nonneg s Hwf) as Hun. pose proof (wb_unit _ Hwf) as Hup.
  assert (Hfr : forall a b, free_run s1 a b <-> free_run s a b).
  { intros a b. unfold free_run. by setoid_rewrite Hu1. }
  destruct (scan_run (Z.to_nat (units s1)) 0 0 0 want s1) as (o & Hscan & Ho);
    [done|lia|lia|lia|lia|lia|intros j Hj; lia|by left|intros r Hr0 Hr1 _; lia|].
  rewrite Hscan. rewrite Z2Nat.id in Ho by lia. destruct o as [k|].
  - destruct Ho as (Hk0 & Hkend & Hfree & Hmin).
    destruct (mark_run (Z.to_nat want) k s1) as (s2 & Hmark & (HB2 & HE2 & HU2) & Hwf2 & _ & Hu2); try done; try lia.
    rewrite Hmark. eexists _, s2. split; [done|]. split; [split_and!; congruence|]. split; [done|].
    exists k. rewrite Z2Nat.id in Hu2 by lia.
    assert (Hgot : size <= want * bm_unit s).
    { unfold want, div_ceil. pose proof (Z.div_mod (size + bm_unit s - 1) (bm_unit s)).
      pose proof (Z.mod_pos_bound (size + bm_unit s - 1) (bm_unit s)). nia. }
    assert (Hend : k * bm_unit s + want * bm_unit s <= bm_edge s - bm_base s).
    { rewrite <- Z.mul_add_distr_r. transitivity (units s * bm_unit s); [apply Z.mul_le_mono_nonneg_r; lia|].
      unfold units. rewrite Z.mul_comm. by apply Z.mul_div_le. }
    split_and!; try done; try lia.
    + by apply Hfr.
    + intros k' Hk'. rewrite <- Hfr. by apply Hmin.
    + intros j Hj. rewrite Hu2, Hu1 by done. by destruct (_ && _).
  - eexists _, s1. split; [done|]. split; [done|]. split; [done|]. split; [done|].
    intros _ k Hk Hkend. rewrite <- Hfr. apply Ho; [done|]. lia.
Qed.

(** [allocate] by first fit.  It returns the lowest run of free units
    that holds the request, marks exactly those units, and fails only if no
    such run exists or its words cannot be reserved; nothing is marked then. *)
Theorem bitmap_first_fit grow size s :
  wf_bitmap s -> 0 <= size ->
  let want := Z.max (div_ceil size (bm_unit s)) 1 in
  exists r s', allocate grow size s = Some (r, s') /\ same_range s s' /\ wf_bitmap s' /\
    match r with
    | Ok (addr, got) => exists k, addr = bm_base s + k * bm_unit s /\ got = want * bm_unit s /\
        size <= got /\ 0 <= k /\ addr + got <= bm_edge s /\ free_run s k want /\
        (forall k', 0 <= k' < k -> ~ free_run s k' want) /\
        forall j, 0 <= j -> used s' j = ((k <=? j) && (j <? k + want)) || used s j
    | Err _ => (forall j, used s' j = used s j) /\
        (grow = true -> forall k, 0 <= k -> k + want <= units s -> ~ free_run s k want)
    end.
Proof. apply bitmap_first_fit_run. Qed.

Definition bitmap0 : BitmapAllocator := BitmapAllocator_new 1 10 2.

Lemma bitmap0_wf : wf_bitmap bitmap0.
Proof. split; simpl; [lia|lia|rewrite usize_MAX_eq; lia|constructor|by left]. Qed.

Lemma bitmap_first_fit_witness :
  let want := Z.max (div_ceil 3 (bm_unit bitmap0)) 1 in
  exists r s', allocate true 3 bitmap0 = Some (r, s') /\ same_range bitmap0 s' /\ wf_bitmap s' /\
    match r with
    | Ok (addr, got) => exists k, addr = bm_base bitmap0 + k * bm_unit bitmap0 /\
        got = want * bm_unit bitmap0 /\
        3 <= got /\ 0 <= k /\ addr + got <= bm_edge bitmap0 /\ free_run bitmap0 k want /\
        (forall k', 0 <= k' < k -> ~ free_run bitmap0 k' want) /\
        forall j, 0 <= j -> used s' j = ((k <=? j) && (j <? k + want)) || used bitmap0 j
    | Err _ => (forall j, used s' j = used bitmap0 j) /\
        (true = true -> forall k, 0 <= k -> k + want <= units bitmap0 -> ~ free_run bitmap0 k want)
    end.
Proof. apply (bitmap_first_fit true 3 bitmap0); [exact bitmap0_wf|lia]. Defined.

(** ** Release *)

(** The checks [deallocate] makes on a request. *)
Definition releasable (s : BitmapAllocator) (addr size : Z) : Prop :=
  bm_base s <= addr /\ addr + size <= bm_edge s /\
  (bm_unit s | addr) /\ (bm_unit s | size).

Lemma release_units s addr size :
  wf_bitmap s -> 0 <= size -> releasable s addr size ->
  let start := (addr - bm_base s) / bm_unit s in let n := size / bm_unit s in
  0 <= start /\ 0 <= n /\ start + n <= units s.
Proof.
  intros Hwf Hsz (Hb & He & _ & [q ->]). pose proof (wb_unit _ Hwf) as Hu. simpl.
  rewrite Z.div_mul by lia. split; [apply Z.div_pos; lia|]. split; [nia|].
  rewrite <- Z.div_add by lia. apply Z.div_le_mono; lia.
Qed.

Lemma bitmap_release_run grow addr size s :
  wf_bitmap s -> 0 <= addr -> 0 <= size -> addr + size <= usize_MAX -> sized s ->
  let start := (addr - bm_base s) / bm_unit s in let n := size / bm_unit s in
  exists r s', deallocate grow addr size s = Some (r, s') /\ same_range s s' /\ wf_bitmap s' /\
    (r = Ok tt <-> releasable s addr size /\ forall j, start <= j < start + n -> used s j = true) /\
    forall j, 0 <= j -> used s' j =
      if is_ok r && ((start <=? j) && (j <? start + n)) then false else used s j.
Proof.
  intros Hwf Ha Hsz Hov Hs start n. pose proof (wb_unit _ Hwf) as Hu.
  pose proof (units_nonneg s Hwf) as Hun.
  assert (Hens : ensure grow s = Some (Ok tt, s)).
  { unfold ensure. munfold. destruct (_ && _) eqn:Hc; [|done]. to_prop. apply Nat.eqb_eq in H.
    unfold sized, len in Hs. rewrite H in Hs. unfold div_ceil in Hs.
    pose proof (Z.div_str_pos (units s + 64 - 1) 64). lia. }
  unfold deallocate. munfold. rewrite Hens. simpl. rewrite Hens.
  assert (Hno : forall P : Prop, (releasable s addr size -> P) -> ~ P ->
    exists r s', Some (Err (A:=unit) AllocErr, s) = Some (r, s') /\ same_range s s' /\ wf_bitmap s' /\
    (r = Ok tt <-> releasable s addr size /\ forall j, start <= j < start + n -> used s j = true) /\
    forall j, 0 <= j -> used s' j =
      if is_ok r && ((start <=? j) && (j <? start + n)) then false else used s j).
  { intros P HP Hn. exists (Err AllocErr), s. split; [done|]. split; [done|]. split; [done|]. split.
    - split; [done|]. intros [Hr _]. exfalso. auto.
    - done. }
  destruct (Z.ltb_spec addr (bm_base s)) as [Hlt|Hge].
  { simpl. apply (Hno (bm_base s <= addr)); [by intros (? & _)|lia]. }
  simpl. unfold uadd, checked_add, expect.
  rewrite (proj2 (checked_Some _ (addr + size))) by (split; [done|apply usize_iff; lia]).
  destruct (Z.ltb_spec (bm_edge s) (addr + size)) as [Hlt|Hle].
  { apply (Hno (addr + size <= bm_edge s)); [by intros (_ & ? & _)|lia]. }
  destruct (Z.eqb_spec (addr mod bm_unit s) 0) as [Hma|Hma]; simpl.
  2: { apply (Hno (bm_unit s | addr)); [by intros (_ & _ & ? & _)|]. intros Hd.
       apply Z.mod_divide in Hd; [done|lia]. }
  destruct (Z.eqb_spec (size mod bm_unit s) 0) as [Hms|Hms]; simpl.
  2: { apply (Hno (bm_unit s | size)); [by intros (_ & _ & _ & ?)|]. intros Hd.
       apply Z.mod_divide in Hd; [done|lia]. }
  assert (Hrel : releasable s addr size) by (split_and!; try done; apply Z.mod_divide; (done || lia)).
  destruct (release_units s addr size Hwf Hsz Hrel) as (H0 & Hn0 & Hend). fold start n in H0, Hn0, Hend |- *.
  destruct (all_set_run (Z.to_nat n) start s Hs H0 ltac:(lia)) as (r & Hr & Hiff).
  rewrite Hr. rewrite Z2Nat.id in Hiff by done. destruct r as [[]|e].
  - destruct (clear_run (Z.to_nat n) start s Hwf Hs H0 ltac:(lia)) as (s' & Hc & (Hr' & Hwf' & _ & Hu')).
    rewrite Z2Nat.id in Hu' by done. exists (Ok tt), s'. split_and!; try done. tauto.
  - exists (Err e), s. split_and!; try done. split; [done|]. intros [_ Hall]. by apply Hiff in Hall.
Qed.

(** [deallocate] clears exactly the units of its range when the range lies
    inside the allocator, is a multiple of the unit and all its units are in
    use; in every other case it reports an error and frees nothing. *)
Theorem bitmap_release grow addr size s :
  wf_bitmap s -> 0 <= addr -> 0 <= size -> addr + size <= usize_MAX -> sized s ->
  let start := (addr - bm_base s) / bm_unit s in let n := size / bm_unit s in
  exists r s', deallocate grow addr size s = Some (r, s') /\ same_range s s' /\ wf_bitmap s' /\
    (r = Ok tt <-> releasable s addr size /\ forall j, start <= j < start + n -> used s j = true) /\
    forall j, 0 <= j -> used s' j =
      if is_ok r && ((start <=? j) && (j <? start + n)) then false else used s j.
Proof. apply bitmap_release_run. Qed.

Definition bitmap1 : BitmapAllocator :=
  match allocate true 3 bitmap0 with Some (_, s) => s | None => bitmap0 end.

Lemma bitmap1_wf : wf_bitmap bitmap1.
Proof.
  split; [vm_compute; done|vm_compute; split; discriminate|vm_compute; discriminate| |by right].
  replace (bits bitmap1) with [3] by (vm_compute; reflexivity).
  constructor; [|constructor]. unfold fits. lia.
Qed.

Lemma bitmap_release_witness :
  let start := (2 - bm_base bitmap1) / bm_unit bitmap1 in let n := 2 / bm_unit bitmap1 in
  exists r s', deallocate true 2 2 bitmap1 = Some (r, s') /\ same_range bitmap1 s' /\ wf_bitmap s' /\
    (r = Ok tt <-> releasable bitmap1 2 2 /\ forall j, start <= j < start + n -> used bitmap1 j = true) /\
    forall j, 0 <= j -> used s' j =
      if is_ok r && ((start <=? j) && (j <? start + n)) then false else used bitmap1 j.
Proof.
  apply (bitmap_release true 2 2 bitmap1); [exact bitmap1_wf|lia|lia|rewrite usize_MAX_eq; lia|].
  vm_compute. reflexivity.
Defined.

(** ** Address-space identifiers *)

(** The allocator after some identifiers were taken and given back; [live] are
    those out. *)
Inductive asid_history : BitmapAllocator -> gset Z -> Prop :=
| ah_start : asid_history ASID_ALLOCATOR ∅
| ah_take grow s live a s' : asid_history s live ->
    Asid_try_allocate grow s = Some (Ok (Some a), s') -> asid_history s' ({[a]} ∪ live)
| ah_full grow s live s' : asid_history s live ->
    Asid_try_allocate grow s = Some (Ok None, s') -> asid_history s' live
| ah_release grow s live a s' : asid_history s live -> a ∈ live ->
    Asid_release grow a s = Some (Ok tt, s') -> asid_history s' (live ∖ {[a]}).

Record asid_inv (s : BitmapAllocator) (live : gset Z) : Prop := {
  ai_wf : wf_bitmap s;
  ai_range : same_range ASID_ALLOCATOR s;
  ai_live : forall a, a ∈ live <-> 1 <= a < 65536 /\ used s (a - 1) = true
}.

Lemma asid_units s : same_range ASID_ALLOCATOR s -> units s = 65535 /\ bm_base s = 1 /\ bm_unit s = 1 /\ bm_edge s = 65536.
Proof. intros (Hb & He & Hu). unfold units. by rewrite Hb, He, Hu. Qed.

Lemma asid_take grow s live :
  asid_inv s live ->
  exists r s', Asid_try_allocate grow s = Some (Ok r, s') /\
    match r with
    | Some a => 1 <= a < 65536 /\ (a ∉ live) /\ (forall b, 1 <= b < a -> b ∈ live) /\
        asid_inv s' ({[a]} ∪ live)
    | None => asid_inv s' live /\ (grow = true -> forall a, 1 <= a < 65536 -> a ∈ live)
    end.
Proof.
  intros [Hwf Hr Hlive]. destruct (asid_units s Hr) as (Hun & Hb & Hu & He).
  destruct (bitmap_first_fit_run grow 1 s Hwf ltac:(lia)) as (r & s' & Hrun & Hr' & Hwf' & Hres).
  unfold Asid_try_allocate. rewrite Hrun. rewrite Hb, Hu in Hres.
  change (Z.max (div_ceil 1 1) 1) with 1 in Hres.
  assert (Hr2 : same_range ASID_ALLOCATOR s').
  { destruct Hr as (? & ? & ?), Hr' as (? & ? & ?). split_and!; congruence. }
  destruct r as [[addr got]|e].
  - destruct Hres as (k & -> & -> & _ & Hk & Hend & Hfree & Hmin & Hu').
    eexists (Some _), s'. split; [done|]. split; [lia|].
    assert (Hfk : used s k = false) by (apply Hfree; lia). split_and!.
    + rewrite Hlive. intros [_ Hx]. replace (1 + k * 1 - 1) with k in Hx by lia. congruence.
    + intros b Hb'. apply Hlive. split; [lia|]. apply not_false_iff_true. intros Hf.
      apply (Hmin (b - 1)); [lia|]. intros j Hj. by replace j with (b - 1) by lia.
    + split; [done|done|]. intros a. rewrite elem_of_union, elem_of_singleton, Hlive. split.
      * intros [->|[Ha Hx]]; (split; [lia|]); rewrite Hu' by lia; apply orb_true_iff.
        -- left. apply andb_true_iff. rewrite Z.leb_le, Z.ltb_lt. lia.
        -- by right.
      * intros [Ha Hx]. rewrite Hu' in Hx by lia. apply orb_true_iff in Hx as [Hx|Hx]; [left|by right].
        to_prop. lia.
  - destruct Hres as [Hu' Hnone]. exists None, s'. split; [done|]. split.
    + split; [done|done|]. intros a. rewrite Hlive. by rewrite Hu'.
    + intros Hg a Ha. apply Hlive. split; [done|]. apply not_false_iff_true. intros Hf.
      apply (Hnone Hg (a - 1)); [lia|lia|]. intros j Hj. by replace j with (a - 1) by lia.
Qed.

Lemma asid_give grow s live a :
  asid_inv s live -> a ∈ live ->
  exists s', Asid_release grow a s = Some (Ok tt, s') /\ asid_inv s' (live ∖ {[a]}).
Proof.
  intros [Hwf Hr Hlive] Ha. destruct (asid_units s Hr) as (Hun & Hb & Hu & He).
  pose proof Ha as Ha'. apply Hlive in Ha' as [Har Hau].
  assert (Hsz : sized s).
  { destruct (wb_len _ Hwf) as [Hnil|]; [|done]. exfalso. unfold used, nth_z in Hau. rewrite Hnil in Hau. done. }
  destruct (bitmap_release_run grow a 1 s Hwf ltac:(lia) ltac:(lia)) as (r & s' & Hrun & Hr' & Hwf' & Hiff & Hu');
    [rewrite usize_MAX_eq; lia|done|].
  rewrite Hb, Hu in Hiff, Hu'. rewrite !Z.div_1_r in Hiff, Hu'.
  assert (r = Ok tt) as ->.
  { apply Hiff. split; [|intros j Hj; by replace j with (a - 1) by lia].
    unfold releasable. rewrite Hb, Hu, He. split_and!; [lia|lia|apply Z.divide_1_l..]. }
  exists s'. unfold Asid_release. rewrite Hrun. split; [done|]. split; [done| |].
  - destruct Hr as (? & ? & ?), Hr' as (? & ? & ?). split_and!; congruence.
  - intros x. rewrite elem_of_difference, elem_of_singleton, Hlive. simpl in Hu'. split.
    + intros [[Hx Hxu] Hne]. split; [done|]. rewrite Hu' by lia.
      destruct (_ && _) eqn:Hc; [|done]. to_prop. lia.
    + intros [Hx Hxu]. rewrite Hu' in Hxu by lia. destruct (_ && _) eqn:Hc; [done|].
      split; [done|]. intros ->. apply andb_false_iff in Hc as [?|?]; to_prop; lia.
Qed.

Lemma asid_history_inv s live : asid_history s live -> asid_inv s live.
Proof.
  induction 1 as [|grow s live a s' _ IH Ht|grow s live s' _ IH Ht|grow s live a s' _ IH Ha Hr].
  - split; [|done|].
    + split; simpl; [lia|lia|rewrite usize_MAX_eq; lia|constructor|by left].
    + intros a. split; [set_solver|]. by intros [_ ?].
  - destruct (asid_take grow s live IH) as (r & s2 & Hrun & Hr). rewrite Ht in Hrun.
    injection Hrun as <- <-. naive_solver.
  - destruct (asid_take grow s live IH) as (r & s2 & Hrun & Hr). rewrite Ht in Hrun.
    injection Hrun as <- <-. naive_solver.
  - destruct (asid_give grow s live a IH Ha) as (s2 & Hrun & Hi). rewrite Hr in Hrun. by simplify_eq.
Qed.

(** Address-space identifiers.  Along every history of takes and releases
    an identifier handed out is a 16-bit number, never the kernel's 0 and never
    one that is in use; taking one fails only when all 65535 are in use (or the
    first reservation of the bitmap fails); releasing one that is out never
    panics. *)
Theorem asid_exclusive s live :
  asid_history s live ->
  (forall grow, exists r s', Asid_try_allocate grow s = Some (Ok r, s') /\
     match r with
     | Some a => Asid_is_kernel a = false /\ Asid_from_raw a = a /\ a ∉ live
     | None => grow = true -> forall a, 1 <= a < VACANT -> a ∈ live
     end) /\
  (forall grow a, a ∈ live -> exists s', Asid_release_unpublished grow a s = Some (Ok tt, s')).
Proof.
  intros HI%asid_history_inv. split.
  - intros grow. destruct (asid_take grow s live HI) as (r & s' & Hrun & Hr). exists r, s'.
    split; [done|]. destruct r as [a|].
    + destruct Hr as (Ha & Hn & _). split_and!; [apply Z.eqb_neq; lia| |done].
      unfold Asid_from_raw. change 65535 with (Z.ones 16). rewrite Z.land_ones by lia.
      apply Z.mod_small. lia.
    + apply Hr.
  - intros grow a Ha. destruct (asid_give grow s live a HI Ha) as (s' & Hrun & _). exists s'.
    unfold Asid_release_unpublished, mbind, M_bind, assert_that.
    apply (ai_live _ _ HI) in Ha as [Ha _].
    unfold Asid_is_kernel. by rewrite (proj2 (Z.eqb_neq a 0)) by lia.
Qed.

Lemma asid_exclusive_witness :
  exists r s', Asid_try_allocate true ASID_ALLOCATOR = Some (Ok r, s') /\
     match r with
     | Some a => Asid_is_kernel a = false /\ Asid_from_raw a = a /\ a ∉ (∅ : gset Z)
     | None => true = true -> forall a, 1 <= a < VACANT -> a ∈ (∅ : gset Z)
     end.
Proof. apply (asid_exclusive ASID_ALLOCATOR ∅). exact ah_start. Defined.
