(* ===== verification/Bump.v ===== *)
(** * The boot-time bump allocator: [flat/allocator/bump]

    One moving frontier over the free memory of the board; the frame
    allocator takes over from its frontier. *)

From S2P Require Import Prelude.

Open Scope Z_scope.

Record BumpInner := mkBump { bp_base : Z; bp_edge : Z; bp_used : Z }.

Abbreviation BP := (M (option BumpInner) AllocError).

(** [BumpInner::init] over the (base, size) of the board's free memory. *)
Definition BumpInner_init (free : Z * Z) : option (result InitError BumpInner) :=
  if free.2 =? 0 then Some (Err NoFreeMemory)
  else match checked_add free.1 free.2 with
  | Some e => Some (Ok (mkBump free.1 e 0))
  | None => None
  end.

(** [BumpAllocator::init] keeps the old state when it fails. *)
Definition bump_init (free : Z * Z) : M (option BumpInner) InitError unit := fun s =>
  match BumpInner_init free with
  | Some (Ok inner) => Some (Ok tt, Some inner)
  | Some (Err e) => Some (Err e, s)
  | None => None
  end.

(** The address and length of the block; [align] is a power of two, and
    [frontier.add(frontier.align_offset(align))] the next multiple of it. *)
Definition bump_allocate (size align : Z) : BP (Z * Z) :=
  s ← get;
  inner ← lift (ok_or s AllocErr);
  frontier ← uadd (bp_base inner) (bp_used inner);
  let next := next_multiple_of frontier align in
  end_ ← uadd next size;
  if bp_edge inner <? end_ then fail AllocErr
  else
    put (Some (mkBump (bp_base inner) (bp_edge inner) (next - bp_base inner + size))) ;;
    if next =? 0 then fail AllocErr else mret (next, size).

Definition bump_boundary : BP Z := s ← get; inner ← expect s; mret (bp_edge inner).
Definition bump_frontier : BP Z :=
  s ← get; inner ← expect s; uadd (bp_base inner) (bp_used inner).

(** ** Properties *)

Definition wf_bump (b : BumpInner) : Prop :=
  0 < bp_base b /\ 0 <= bp_used b /\ bp_base b + bp_used b <= bp_edge b /\ bp_edge b <= usize_MAX.

Lemma bump_allocate_run b size align :
  wf_bump b -> 0 <= size -> 0 < align ->
  next_multiple_of (bp_base b + bp_used b) align + size <= usize_MAX ->
  let a := next_multiple_of (bp_base b + bp_used b) align in
  if decide (a + size <= bp_edge b) then
    exists b', bump_allocate size align (Some b) = Some (Ok (a, size), Some b') /\ wf_bump b' /\
      bp_base b' = bp_base b /\ bp_edge b' = bp_edge b /\ bp_base b' + bp_used b' = a + size
  else bump_allocate size align (Some b) = Some (Err AllocErr, Some b).
Proof.
  intros (Hb & Hu & Hf & He) Hs Ha Hov a.
  destruct (next_multiple_of_spec (bp_base b + bp_used b) align Ha) as [Hr _]. fold a in Hov, Hr.
  unfold bump_allocate, uadd, checked_add. munfold.
  rewrite (proj2 (checked_Some _ (bp_base b + bp_used b))) by (split; [done|apply usize_iff; lia]).
  fold a. rewrite (proj2 (checked_Some _ (a + size))) by (split; [done|apply usize_iff; lia]).
  case_decide as Hd.
  - rewrite (proj2 (Z.ltb_ge _ _) Hd), (proj2 (Z.eqb_neq a 0)) by lia.
    eexists. split; [done|]. unfold wf_bump. simpl. lia.
  - by rewrite (proj2 (Z.ltb_lt (bp_edge b) (a + size))) by lia.
Qed.

(** A sequence of requests, each a (size, align) pair; the blocks granted, in
    order. *)
Fixpoint bump_run (reqs : list (Z * Z)) (s : option BumpInner) :
    option (list (Z * Z) * option BumpInner) :=
  match reqs with
  | [] => Some ([], s)
  | (size, align) :: reqs =>
      match bump_allocate size align s with
      | Some (r, s') =>
          '(bs, s'') ← bump_run reqs s';
          Some (match r with Ok b => b :: bs | Err _ => bs end, s'')
      | None => None
      end
  end.

Definition request_ok (edge : Z) (r : Z * Z) : Prop :=
  0 <= r.1 /\ 0 < r.2 /\ edge + r.2 + r.1 <= usize_MAX.

Lemma bump_run_blocks reqs b :
  wf_bump b -> Forall (request_ok (bp_edge b)) reqs ->
  exists bs b', bump_run reqs (Some b) = Some (bs, Some b') /\ wf_bump b' /\
    bp_base b' = bp_base b /\ bp_edge b' = bp_edge b /\
    bp_base b + bp_used b <= bp_base b' + bp_used b' /\
    Forall (fun x => bp_base b + bp_used b <= x.1 /\ 0 <= x.2 /\ x.1 + x.2 <= bp_base b' + bp_used b') bs /\
    forall i j x y, (i < j)%nat -> bs !! i = Some x -> bs !! j = Some y -> x.1 + x.2 <= y.1.
Proof.
  revert b. induction reqs as [|[size align] reqs IH]; intros b Hwf Hreq.
  { exists [], b. split_and!; try done; try lia. }
  apply Forall_cons in Hreq as [(Hs & Ha & Hov) Hreq]. simpl in Hs, Ha, Hov.
  pose proof Hwf as (? & ? & ? & ?).
  destruct (next_multiple_of_spec (bp_base b + bp_used b) align Ha) as [Hr _].
  pose proof (bump_allocate_run b size align Hwf Hs Ha ltac:(lia)) as Hal. simpl in Hal |- *.
  case_decide as Hd.
  - destruct Hal as (b1 & -> & Hwf1 & HB & HE & Hfr). rewrite <- HE in Hreq.
    destruct (IH b1 Hwf1 Hreq) as (bs & b' & -> & Hwf' & HB' & HE' & Hge & Hall & Hord). simpl.
    eexists _, b'. split; [done|]. split_and!; [done|congruence|congruence|lia| |].
    + constructor; [simpl; lia|]. eapply Forall_impl; [exact Hall|]. intros x. simpl. lia.
    + intros [|i] [|j] x y Hij Hx Hy; simpl in *; try lia.
      * simplify_eq. simpl. rewrite Forall_forall in Hall.
        destruct (Hall y) as (? & _); [by eapply list_elem_of_lookup_2|]. lia.
      * apply (Hord i j); (done || lia).
  - rewrite Hal. destruct (IH b Hwf Hreq) as (bs & b' & -> & Hres). simpl. by exists bs, b'.
Qed.

(** The blocks a run of boot-time requests gets are inside the board's free
    memory, in order and pairwise disjoint, and end below the frontier the frame
    allocator continues from. *)
Theorem bump_disjoint reqs base size b :
  BumpInner_init (base, size) = Some (Ok b) -> 0 < base -> 0 <= size ->
  Forall (request_ok (base + size)) reqs ->
  exists bs b', bump_run reqs (Some b) = Some (bs, Some b') /\
    bump_frontier (Some b') = Some (Ok (bp_base b' + bp_used b'), Some b') /\
    bp_base b' + bp_used b' <= base + size /\
    Forall (fun x => base <= x.1 /\ x.1 + x.2 <= bp_base b' + bp_used b') bs /\
    forall i j x y, (i < j)%nat -> bs !! i = Some x -> bs !! j = Some y -> x.1 + x.2 <= y.1.
Proof.
  unfold BumpInner_init, checked_add. simpl. intros Hi Hb Hs Hreq.
  destruct (size =? 0); [done|]. destruct (checked _) as [e|] eqn:He; [|done]. simplify_eq.
  apply checked_Some in He as [<- He]. apply usize_iff in He.
  destruct (bump_run_blocks reqs (mkBump base (base + size) 0)) as
    (bs & b' & Hrun & (? & ? & ? & ?) & HB & HE & _ & Hall & Hord); [unfold wf_bump; simpl; lia|done|].
  simpl in *. exists bs, b'. split; [done|]. split.
  { unfold bump_frontier, uadd, checked_add. munfold.
    by rewrite (proj2 (checked_Some _ (bp_base b' + bp_used b'))) by (split; [done|apply usize_iff; lia]). }
  split; [lia|]. split; [|done]. eapply Forall_impl; [exact Hall|]. intros x. simpl. lia.
Qed.

Lemma bump_disjoint_witness :
  exists bs b', bump_run [(100, 8); (4096, 4096)] (Some (mkBump 4096 65536 0)) = Some (bs, Some b') /\
    bump_frontier (Some b') = Some (Ok (bp_base b' + bp_used b'), Some b') /\
    bp_base b' + bp_used b' <= 4096 + 61440 /\
    Forall (fun x => 4096 <= x.1 /\ x.1 + x.2 <= bp_base b' + bp_used b') bs /\
    forall i j x y, (i < j)%nat -> bs !! i = Some x -> bs !! j = Some y -> x.1 + x.2 <= y.1.
Proof.
  apply (bump_disjoint _ 4096 61440).
  - vm_compute. reflexivity.
  - lia.
  - lia.
  - repeat constructor; simpl; rewrite ?usize_MAX_eq; lia.
Defined.
