(* ===== verification/Occupancy.v ===== *)
(** * Virtual address occupancy: [kernel/src/core/memory/nest/address]

    One ordered table of occupied address spans for a whole address space.
    Windows only say where dynamic placements may go; exact placements share
    the same table.  Spans include their last byte, so that one may end at
    [usize::MAX].  A retired span keeps its place under a ticket until the
    ticket is reclaimed. *)

From S2P Require Import Prelude.

Open Scope Z_scope.

Inductive NestError :=
| NOutOfMemory | AlreadyMapped | NNotAligned | NotMapped | NoRegion | DramOverlap
| WidenDenied | Shootdown | Pinned | NMissing | NBusy.

Inductive RegionId := Normal | Kernel | Resource | Static.

#[global] Instance RegionId_eq_dec : EqDecision RegionId.
Proof. solve_decision. Defined.

Inductive PlacementAt := Lowest | Highest | Exact (start : Z).

Record Placement := mkPlacement {
  pl_region : RegionId;
  pl_size : Z;
  pl_align : Z;
  pl_at : PlacementAt
}.

Record Slot := mkSlot {
  start : Z;
  last : Z;
  ticket : Z;
  id : Z;
  region : RegionId
}.

Record Window := mkWindow { win_id : RegionId; win_base : Z; win_last : Z }.

(** The occupancy with the global counters of generations and tickets, and the
    outcomes of the metadata allocations to come ([false] fails). *)
Record Occupancy := mkOcc {
  windows : list Window;
  slots : list Slot;
  cleanups : list Z;
  next_gen : Z;
  next_ticket : Z;
  heap : list bool
}.

Abbreviation OC := (M Occupancy NestError).

Definition set_windows (l : list Window) (s : Occupancy) : Occupancy :=
  mkOcc l (slots s) (cleanups s) (next_gen s) (next_ticket s) (heap s).
Definition set_slots (l : list Slot) (s : Occupancy) : Occupancy :=
  mkOcc (windows s) l (cleanups s) (next_gen s) (next_ticket s) (heap s).
Definition set_cleanups (l : list Z) (s : Occupancy) : Occupancy :=
  mkOcc (windows s) (slots s) l (next_gen s) (next_ticket s) (heap s).
Definition set_gen (n : Z) (s : Occupancy) : Occupancy :=
  mkOcc (windows s) (slots s) (cleanups s) n (next_ticket s) (heap s).
Definition set_ticket (n : Z) (s : Occupancy) : Occupancy :=
  mkOcc (windows s) (slots s) (cleanups s) (next_gen s) n (heap s).
Definition set_heap (h : list bool) (s : Occupancy) : Occupancy :=
  mkOcc (windows s) (slots s) (cleanups s) (next_gen s) (next_ticket s) h.

Definition try_reserve : OC unit :=
  s ← get;
  match heap s with
  | [] => mret tt
  | ok :: rest => put (set_heap rest s) ;; if (ok : bool) then mret tt else fail NOutOfMemory
  end.

Definition gen_next : OC Z :=
  s ← get;
  match next_id (next_gen s) with
  | Some (i, n) => put (set_gen n s) ;; mret i
  | None => fail NOutOfMemory
  end.

(** ** [placement.rs] *)

Definition is_power_of_two (x : Z) : bool := (0 <? x) && (Z.land x (x - 1) =? 0).

Definition Placement_new (r : RegionId) (size align : Z) (at_ : PlacementAt) :
    result NestError Placement :=
  if (size =? 0) || negb (size mod PAGE_SIZE =? 0) || negb (is_power_of_two align)
  then Err NNotAligned
  else match at_ with
  | Exact s =>
      if negb (Z.land s (PAGE_SIZE - 1) =? 0) || negb (s mod align =? 0) then Err NNotAligned
      else Ok (mkPlacement r size align at_)
  | _ => Ok (mkPlacement r size align at_)
  end.

Definition Placement_lowest (r : RegionId) (size align : Z) := Placement_new r size align Lowest.
Definition Placement_highest (r : RegionId) (size : Z) := Placement_new r size PAGE_SIZE Highest.
Definition Placement_exact (r : RegionId) (s size : Z) := Placement_new r size PAGE_SIZE (Exact s).

(** ** Windows *)

Definition window_is (r : RegionId) (w : Window) : bool := bool_decide (win_id w = r).

Definition attach (r : RegionId) (base last_ : Z) : OC unit :=
  s ← get;
  if (last_ <? base) || bool_decide (r = Static) || any (window_is r) (windows s)
  then fail NoRegion
  else
    try_reserve ;;
    s ← get; put (set_windows (windows s ++ [mkWindow r base last_]) s).

Definition configure (r : RegionId) (base last_ : Z) : OC unit :=
  if (last_ <? base) || bool_decide (r = Static) then fail NoRegion
  else
    s ← get;
    match position (window_is r) (windows s) with
    | Some i =>
        if any (fun sl => bool_decide (region sl = r) && ((start sl <? base) || (last_ <? last sl)))
             (slots s)
        then fail AlreadyMapped
        else put (set_windows (<[i := mkWindow r base last_]> (windows s)) s)
    | None => attach r base last_
    end.

Definition advance (r : RegionId) (base : Z) : OC unit :=
  s ← get;
  match position (window_is r) (windows s) with
  | None => fail NoRegion
  | Some i =>
      w ← expect (windows s !! i);
      if (base <? win_base w) || (win_last w <? base) then fail NoRegion
      else put (set_windows (<[i := mkWindow (win_id w) base (win_last w)]> (windows s)) s)
  end.

Definition window_of (r : RegionId) (s : Occupancy) : option Window :=
  List.find (window_is r) (windows s).

Definition contains (r : RegionId) (st la : Z) (s : Occupancy) : bool :=
  match window_of r s with
  | Some w => (win_base w <=? st) && (la <=? win_last w)
  | None => false
  end.

(** ** Choosing a span *)

(** The loop of [free_spans] from the candidate [at_] on. *)
Fixpoint spans_from (w_last at_ : Z) (l : list Slot) : list (Z * Z) :=
  let rest := if at_ <=? w_last then [(at_, w_last)] else [] in
  match l with
  | [] => rest
  | s :: l =>
      if last s <? at_ then spans_from w_last at_ l
      else if w_last <? start s then rest
      else
        (if at_ <? start s then [(at_, Z.min (start s - 1) w_last)] else []) ++
        match checked_add (last s) 1 with
        | Some next => spans_from w_last (Z.max at_ next) l
        | None => []
        end
  end.

Definition free_spans (w : Window) : OC (list (Z * Z)) :=
  try_reserve ;;
  s ← get; mret (spans_from (win_last w) (win_base w) (slots s)).

Definition checked_next_multiple_of (x align : Z) : option Z := checked (next_multiple_of x align).

Fixpoint find_map {A B} (f : A -> option B) (l : list A) : option B :=
  match l with
  | [] => None
  | a :: l => match f a with Some b => Some b | None => find_map f l end
  end.

Definition lowest_in (size align : Z) (span : Z * Z) : option Z :=
  at_ ← checked_next_multiple_of span.1 align;
  gap ← checked_sub span.2 at_;
  if size - 1 <=? gap then Some at_ else None.

Definition highest_in (size : Z) (span : Z * Z) : option Z :=
  at_ ← checked_sub span.2 (size - 1);
  if span.1 <=? at_ then Some at_ else None.

Definition insert_slot (r : RegionId) (st la : Z) : OC Z :=
  s ← get;
  let at_ := partition_point (fun sl => start sl <? st) (slots s) in
  let clash_left := match at_ with
                    | O => false
                    | S p => match slots s !! p with Some sl => st <=? last sl | None => false end
                    end in
  let clash_right := match slots s !! at_ with Some sl => start sl <=? la | None => false end in
  if clash_left || clash_right then fail NoRegion
  else
    try_reserve ;;
    i ← gen_next;
    s ← get; put (set_slots (insert_at at_ (mkSlot st la 0 i r) (slots s)) s) ;;
    mret i.

Definition choose (p : Placement) : OC Z :=
  match pl_at p with
  | Exact st => mret st
  | Lowest =>
      s ← get;
      w ← lift (ok_or (window_of (pl_region p) s) NoRegion);
      spans ← free_spans w;
      lift (ok_or (find_map (lowest_in (pl_size p) (pl_align p)) spans) NOutOfMemory)
  | Highest =>
      s ← get;
      w ← lift (ok_or (window_of (pl_region p) s) NoRegion);
      spans ← free_spans w;
      lift (ok_or (find_map (highest_in (pl_size p)) (reverse spans)) NOutOfMemory)
  end.

(** The start of the span and its generation. *)
Definition reserve (p : Placement) : OC (Z * Z) :=
  st ← choose p;
  la ← lift (ok_or (checked_add st (pl_size p - 1)) NoRegion);
  i ← insert_slot (pl_region p) st la;
  mret (st, i).

(** ** Changing a span *)

Definition is_live (st la gen : Z) (sl : Slot) : bool :=
  (start sl =? st) && (last sl =? la) && (ticket sl =? 0) && (id sl =? gen).

Definition split (st la gen left_size : Z) : OC (Z * Z * Z) :=
  width ← usub la st;
  size ← uadd width 1;
  if (left_size =? 0) || (size <=? left_size) || negb (left_size mod PAGE_SIZE =? 0)
     || negb (size mod PAGE_SIZE =? 0)
  then fail NNotAligned
  else
    s ← get;
    at_ ← lift (ok_or (position (is_live st la gen) (slots s)) NoRegion);
    try_reserve ;;
    let right := st + left_size in
    left_id ← gen_next;
    right_id ← gen_next;
    s ← get;
    sl ← expect (slots s !! at_);
    let l := <[at_ := mkSlot st (right - 1) 0 left_id (region sl)]> (slots s) in
    put (set_slots (insert_at (S at_) (mkSlot right la 0 right_id (region sl)) l) s) ;;
    mret (right, left_id, right_id).

Definition release (st la gen : Z) : OC bool :=
  s ← get;
  match position (is_live st la gen) (slots s) with
  | Some at_ =>
      put (set_cleanups (retain (fun i => negb (i =? gen)) (cleanups s))
             (set_slots (remove_at at_ (slots s)) s)) ;;
      mret true
  | None => mret false
  end.

Definition prepare_cleanup (gen : Z) : OC unit :=
  s ← get;
  if any (fun i => i =? gen) (cleanups s) then mret tt
  else
    try_reserve ;;
    try_reserve ;;
    s ← get; put (set_cleanups (cleanups s ++ [gen]) s).

(** [Vec::swap_remove] *)
Definition swap_remove {A} (i : nat) (l : list A) : list A :=
  match l !! (length l - 1)%nat with
  | Some x => if decide (S i = length l) then take i l else <[i := x]> (take (length l - 1) l)
  | None => l
  end.

Definition take_cleanup (gen : Z) : OC bool :=
  s ← get;
  match position (fun i => i =? gen) (cleanups s) with
  | Some at_ => put (set_cleanups (swap_remove at_ (cleanups s)) s) ;; mret true
  | None => mret false
  end.

Definition has_id (gen : Z) (s : Occupancy) : bool := any (fun sl => id sl =? gen) (slots s).

(** The loop of [pieces]; the pieces found so far are [acc]. *)
Fixpoint pieces_from (gen la at_ : Z) (l : list Slot) (acc : list (Z * Z * Z)) :
    result NestError (list (Z * Z * Z)) :=
  match l with
  | [] => Err NoRegion
  | s :: l =>
      if last s <? at_ then pieces_from gen la at_ l acc
      else if la <? start s then Err NoRegion
      else if negb (id s =? gen) || (at_ <? start s) then Err NoRegion
      else
        let hi := Z.min (last s) la in
        let acc := acc ++ [(at_, hi, ticket s)] in
        if hi =? la then Ok acc else pieces_from gen la (hi + 1) l acc
  end.

Definition pieces (st la gen : Z) : OC (list (Z * Z * Z)) :=
  try_reserve ;; s ← get; lift (pieces_from gen la st (slots s) []).

Definition retired_of (gen : Z) : OC (list (Z * Z * Z)) :=
  try_reserve ;;
  s ← get;
  mret ((fun sl => (start sl, last sl, ticket sl)) <$>
        List.filter (fun sl => (id sl =? gen) && negb (ticket sl =? 0)) (slots s)).

Definition reserve_cuts : OC unit := try_reserve.

(** The loop of [retire]: position [i] in the table being rewritten. *)
Fixpoint retire_loop (fuel : nat) (st la gen tk : Z) (i : nat) (l : list Slot) : option (list Slot) :=
  match l !! i with
  | None => Some l
  | Some s =>
      match fuel with
      | O => None
      | S fuel =>
          if negb (ticket s =? 0) || negb (id s =? gen) || (last s <? st) || (la <? start s)
          then retire_loop fuel st la gen tk (S i) l
          else
            let l := remove_at i l in
            let '(l, i) :=
              if start s <? st
              then (insert_at i (mkSlot (start s) (st - 1) 0 (id s) (region s)) l, S i)
              else (l, i) in
            let l := insert_at i (mkSlot (Z.max (start s) st) (Z.min (last s) la) tk (id s) (region s)) l in
            let i := S i in
            let '(l, i) :=
              if la <? last s
              then (insert_at i (mkSlot (la + 1) (last s) 0 (id s) (region s)) l, S i)
              else (l, i) in
            retire_loop fuel st la gen tk i l
      end
  end.

(** [fetch_add] wraps; the assertion rules the wrapped ticket 0 out. *)
Definition retire (st la gen : Z) : OC Z :=
  s ← get;
  let tk := next_ticket s in
  let s := set_ticket ((tk + 1) mod 2 ^ 64) s in
  assert_that (negb (tk =? 0)) ;;
  l ← expect (retire_loop (length (slots s)) st la gen tk 0 (slots s));
  put (set_slots l s) ;;
  mret tk.

Definition reclaim (tk : Z) : OC unit :=
  s ← get;
  let removed := id <$> List.find (fun sl => ticket sl =? tk) (slots s) in
  let l := retain (fun sl => negb (ticket sl =? tk)) (slots s) in
  let s := set_slots l s in
  put match removed with
      | Some gen =>
          if negb (any (fun sl => id sl =? gen) l)
          then set_cleanups (retain (fun i => negb (i =? gen)) (cleanups s)) s
          else s
      | None => s
      end.
