(* ===== verification/OccupancyInv.v ===== *)
(** * Virtual address occupancy: the invariant and the address map

    After the invariant, what each operation does to the map the table stands for:
    a partial map from addresses to tags, which are the retirement ticket (0 while
    live), the generation and the region of the span that covers the address. *)

From stdpp Require Import sorting.
From S2P Require Import Prelude.
From S2P Require Import Occupancy.

Open Scope Z_scope.

(** ** The table *)

Definition before (a b : Slot) : Prop := last a < start b.

Definition wf_slot (s : Slot) : Prop := 0 <= start s <= last s /\ last s <= usize_MAX.

(** Spans in ascending order, none empty, no two overlapping. *)
Definition ordered (l : list Slot) : Prop := StronglySorted before l /\ Forall wf_slot l.

Definition holds_addr (x : Z) (s : Slot) : Prop := start s <= x <= last s.

#[global] Instance holds_addr_dec x s : Decision (holds_addr x s).
Proof. unfold holds_addr. apply _. Defined.

Definition occupied (l : list Slot) (x : Z) : Prop := exists s, s ∈ l /\ holds_addr x s.

(** No address of [a, b] is occupied. *)
Definition vacant (l : list Slot) (a b : Z) : Prop := forall x, a <= x <= b -> ~ occupied l x.

Lemma ordered_nil : ordered [].
Proof. split; constructor. Qed.

Lemma ordered_cons s l :
  ordered (s :: l) <-> wf_slot s /\ ordered l /\ forall t, t ∈ l -> last s < start t.
Proof.
  unfold ordered. rewrite Forall_cons. split.
  - intros [[H1 H2]%StronglySorted_inv [H3 H4]]. rewrite Forall_forall in H2. done.
  - intros (H1 & [H2 H3] & H4). split; [|done]. constructor; [done|]. by apply Forall_forall.
Qed.

Lemma ordered_app l1 l2 :
  ordered (l1 ++ l2) <-> ordered l1 /\ ordered l2 /\
    forall a b, a ∈ l1 -> b ∈ l2 -> last a < start b.
Proof.
  induction l1 as [|s l1 IH]; simpl.
  - split; [intros; split_and!; [apply ordered_nil|done|set_solver]|naive_solver].
  - rewrite !ordered_cons, IH. split.
    + intros (H1 & (H2 & H3 & H4) & H5). split_and!; [done|done| |done|].
      * intros t Ht. apply H5. set_solver.
      * intros a b [->|Ha]%elem_of_cons Hb; [apply H5; set_solver|by apply H4].
    + intros ((H1 & H2 & H3) & H4 & H5). split_and!; [done|done|done| |].
      * intros a b Ha Hb. apply H5; [by right|done].
      * intros t [Ht|Ht]%elem_of_app; [by apply H3|]. apply H5; [by left|done].
Qed.

Lemma ordered_uniq l s t x :
  ordered l -> s ∈ l -> t ∈ l -> holds_addr x s -> holds_addr x t -> s = t.
Proof.
  induction l as [|a l IH]; [set_solver|].
  rewrite ordered_cons. intros (Ha & Hl & Hlt).
  intros [->|Hs]%elem_of_cons [->|Ht]%elem_of_cons; unfold holds_addr; intros Hxs Hxt; [done| | |by apply IH].
  - specialize (Hlt t Ht). lia.
  - specialize (Hlt s Hs). lia.
Qed.

(** ** Free spans *)

(** The spans the loop finds are vacant and in order, and every vacant interval
    lies in one of them. *)
Record spans_ok (l : list Slot) (lo hi : Z) (sp : list (Z * Z)) : Prop := {
  sp_vacant : forall a, a ∈ sp -> lo <= a.1 <= a.2 /\ a.2 <= hi /\ vacant l a.1 a.2;
  sp_sorted : StronglySorted (fun a b => a.2 < b.1) sp;
  sp_all : forall a b, lo <= a <= b -> b <= hi -> vacant l a b ->
    exists c, c ∈ sp /\ c.1 <= a /\ b <= c.2
}.

Lemma spans_tail l lo hi :
  (forall s, s ∈ l -> hi < start s) ->
  spans_ok l lo hi (if lo <=? hi then [(lo, hi)] else []).
Proof.
  intros Hl. destruct (Z.leb_spec lo hi); split.
  - intros a ->%list_elem_of_singleton. simpl. split_and!; [lia..|].
    intros x Hx (s & Hs & Hh). specialize (Hl s Hs). unfold holds_addr in Hh. lia.
  - repeat constructor.
  - intros a b Hab Hb _. exists (lo, hi). split; [by left|]. simpl. lia.
  - intros a Ha. by apply not_elem_of_nil in Ha.
  - constructor.
  - intros a b Hab Hb _. lia.
Qed.

Lemma vacant_cons s l a b :
  vacant (s :: l) a b <-> (b < start s \/ last s < a \/ last s < start s \/ b < a) /\ vacant l a b.
Proof.
  unfold vacant, occupied, holds_addr. split.
  - intros Hv. split.
    + destruct (Z.lt_ge_cases b (start s)); [by left|right].
      destruct (Z.lt_ge_cases (last s) a); [by left|right].
      destruct (Z.lt_ge_cases (last s) (start s)); [by left|right].
      destruct (Z.lt_ge_cases b a); [done|]. exfalso.
      apply (Hv (Z.max a (start s))); [lia|]. exists s. split; [by left|lia].
    + intros x Hx (t & Ht & Hh). apply (Hv x Hx). exists t. split; [by right|done].
  - intros [Hs Hv] x Hx (t & [->|Ht]%elem_of_cons & Hh); [lia|]. apply (Hv x Hx). eauto.
Qed.

Lemma spans_from_ok hi lo l :
  ordered l -> hi <= usize_MAX -> spans_ok l lo hi (spans_from hi lo l).
Proof.
  revert lo. induction l as [|s l IH]; intros lo Hord Hhi; simpl.
  { apply spans_tail. intros s Hs. by apply not_elem_of_nil in Hs. }
  pose proof Hord as Hord'. apply ordered_cons in Hord' as (Hs & Hl & Hlt). destruct Hs as [Hs Hmax].
  destruct (Z.ltb_spec (last s) lo) as [Hskip|Hge].
  { destruct (IH lo Hl Hhi) as [Hv Hso Hall]. split; [|done|].
    - intros a Ha. destruct (Hv a Ha) as (? & ? & ?). split_and!; [lia..|].
      apply vacant_cons. split; [lia|done].
    - intros a b Hab Hb [_ Hvac]%vacant_cons. by apply Hall. }
  destruct (Z.ltb_spec hi (start s)) as [Hbreak|Hin].
  { apply spans_tail. intros t [->|Ht]%elem_of_cons; [done|]. specialize (Hlt t Ht). lia. }
  unfold checked_add. destruct (checked (last s + 1)) as [nx|] eqn:Hnx.
  - apply checked_Some in Hnx as [<- Hnx]. destruct (IH (Z.max lo (last s + 1)) Hl Hhi) as [Hv Hso Hall].
    assert (Hfirst : forall a, a ∈ (if lo <? start s then [(lo, Z.min (start s - 1) hi)] else []) ->
      a = (lo, start s - 1) /\ lo < start s).
    { destruct (Z.ltb_spec lo (start s)); [|intros a Ha; by apply not_elem_of_nil in Ha].
      intros a ->%list_elem_of_singleton. split; [f_equal; lia|done]. }
    split.
    + intros a [Ha|Ha]%elem_of_app.
      * destruct (Hfirst a Ha) as [-> ?]. simpl. split_and!; [lia..|].
        apply vacant_cons. split; [lia|]. intros x Hx (t & Ht & Hh).
        specialize (Hlt t Ht). unfold holds_addr in Hh. lia.
      * destruct (Hv a Ha) as (? & ? & ?). split_and!; [lia..|]. apply vacant_cons. split; [lia|done].
    + destruct (Z.ltb_spec lo (start s)); simpl; [|done]. constructor; [done|].
      apply Forall_forall. intros b Hb. destruct (Hv b Hb) as (? & ? & _). simpl. lia.
    + intros a b Hab Hb [Hc Hvac]%vacant_cons. destruct Hc as [Hc|[Hc|Hc]]; [| |lia].
      * exists (lo, start s - 1). split; [|simpl; lia]. apply elem_of_app. left.
        rewrite (proj2 (Z.ltb_lt lo (start s))) by lia. apply list_elem_of_singleton. f_equal. lia.
      * destruct (Hall a b) as (c & Hc' & ?); [lia|lia|done|]. exists c. split; [|done].
        apply elem_of_app. by right.
  - apply checked_None in Hnx. rewrite usize_iff in Hnx. assert (last s = usize_MAX) as Elast by lia.
    rewrite app_nil_r. destruct (Z.ltb_spec lo (start s)); split.
    + intros a ->%list_elem_of_singleton. simpl. split_and!; [lia..|].
      apply vacant_cons. split; [lia|]. intros x Hx (t & Ht & Hh).
      specialize (Hlt t Ht). unfold holds_addr in Hh. lia.
    + repeat constructor.
    + intros a b Hab Hb [Hc _]%vacant_cons. exists (lo, Z.min (start s - 1) hi).
      split; [by left|]. simpl. lia.
    + intros a Ha. by apply not_elem_of_nil in Ha.
    + constructor.
    + intros a b Hab Hb [Hc _]%vacant_cons. lia.
Qed.

(** ** First fit from either end *)

Lemma find_map_Some {A B} (f : A -> option B) l b :
  find_map f l = Some b ->
  exists l1 a l2, l = l1 ++ a :: l2 /\ f a = Some b /\ Forall (fun x => f x = None) l1.
Proof.
  induction l as [|x l IH]; simpl; [done|]. destruct (f x) as [y|] eqn:Hx.
  - intros [= <-]. by exists [], x, l.
  - intros (l1 & a & l2 & -> & Ha & Hl)%IH. exists (x :: l1), a, l2. split_and!; [done..|by constructor].
Qed.

Lemma find_map_None {A B} (f : A -> option B) l :
  find_map f l = None -> Forall (fun x => f x = None) l.
Proof.
  induction l as [|x l IH]; simpl; [constructor|]. destruct (f x) eqn:Hx; [done|]. constructor; auto.
Qed.

(** [a] starts a vacant aligned span of [size] bytes inside [lo, hi]. *)
Definition fits_at (l : list Slot) (lo hi size align a : Z) : Prop :=
  lo <= a /\ (align | a) /\ a + size - 1 <= hi /\ vacant l a (a + size - 1).

Lemma lowest_in_spec size align c :
  0 < size -> 0 < align -> 0 <= c.1 -> c.2 <= usize_MAX ->
  match lowest_in size align c with
  | Some a => c.1 <= a /\ (align | a) /\ a + size - 1 <= c.2 /\
      forall a', c.1 <= a' -> (align | a') -> a <= a'
  | None => forall a', c.1 <= a' -> (align | a') -> a' + size - 1 <= c.2 -> False
  end.
Proof.
  intros Hs Ha Hlo Hhi. unfold lowest_in, checked_next_multiple_of.
  destruct (next_multiple_of_spec c.1 align Ha) as [Hr Hd].
  assert (Hleast : forall a', c.1 <= a' -> (align | a') -> next_multiple_of c.1 align <= a').
  { intros a' ? ?. by apply next_multiple_of_least. }
  destruct (checked (next_multiple_of c.1 align)) as [a|] eqn:Hc; simpl.
  - apply checked_Some in Hc as [<- _]. unfold checked_sub.
    destruct (checked (c.2 - _)) as [g|] eqn:Hg; simpl.
    + apply checked_Some in Hg as [<- _]. destruct (Z.leb_spec (size - 1) (c.2 - next_multiple_of c.1 align)).
      * split_and!; [lia|done|lia|done].
      * intros a' H1 H2 H3. specialize (Hleast a' H1 H2). lia.
    + apply checked_None in Hg. rewrite usize_iff in Hg. intros a' H1 H2 H3. specialize (Hleast a' H1 H2). lia.
  - apply checked_None in Hc. rewrite usize_iff in Hc. intros a' H1 H2 H3. specialize (Hleast a' H1 H2). lia.
Qed.

Lemma highest_in_spec size c :
  0 < size -> 0 <= c.1 -> c.2 <= usize_MAX ->
  match highest_in size c with
  | Some a => a = c.2 - (size - 1) /\ c.1 <= a
  | None => c.2 - (size - 1) < c.1
  end.
Proof.
  intros Hs Hlo Hhi. unfold highest_in, checked_sub.
  destruct (checked _) as [a|] eqn:Hc; simpl.
  - apply checked_Some in Hc as [<- _]. by destruct (Z.leb_spec c.1 (c.2 - (size - 1))).
  - apply checked_None in Hc. rewrite usize_iff in Hc. lia.
Qed.

Section choose.
Context (l : list Slot) (lo hi : Z) (sp : list (Z * Z)) (size : Z).
Hypothesis Hsp : spans_ok l lo hi sp.
Hypothesis Hlo : 0 <= lo.
Hypothesis Hhi : hi <= usize_MAX.
Hypothesis Hsize : 0 < size.

Lemma lowest_choice align :
  0 < align ->
  match find_map (lowest_in size align) sp with
  | Some a => fits_at l lo hi size align a /\ forall a', fits_at l lo hi size align a' -> a <= a'
  | None => forall a', ~ fits_at l lo hi size align a'
  end.
Proof using Hsp Hlo Hhi Hsize.
  intros Hal. assert (Hb : forall c, c ∈ sp -> 0 <= c.1 /\ c.2 <= usize_MAX).
  { intros c Hc. destruct (sp_vacant _ _ _ _ Hsp c Hc) as (? & ? & _). lia. }
  destruct (find_map _ sp) as [a|] eqn:Hf.
  - apply find_map_Some in Hf as (l1 & c & l2 & E & Hc & Hl1).
  assert (Hcin : c ∈ sp) by (rewrite E; set_solver). destruct (Hb c Hcin) as [Hc1 Hc2].
  pose proof (lowest_in_spec size align c Hsize Hal Hc1 Hc2) as Hspec. rewrite Hc in Hspec.
  destruct Hspec as (H1 & H2 & H3 & H4).
  destruct (sp_vacant _ _ _ _ Hsp c Hcin) as (? & ? & Hv). split.
  + split_and!; [lia|done|lia|]. intros x Hx. apply Hv. lia.
  + intros a' (Ha1 & Ha2 & Ha3 & Ha4).
  destruct (sp_all _ _ _ _ Hsp a' (a' + size - 1)) as (d & Hd & Hd1 & Hd2); [lia|lia|done|].
  rewrite E in Hd. apply elem_of_app in Hd as [Hd|[->|Hd]%elem_of_cons].
  * exfalso. rewrite Forall_forall in Hl1. assert (Hdin : d ∈ sp) by (rewrite E; set_solver).
  destruct (Hb d Hdin) as [Hd0 Hd0']. pose proof (lowest_in_spec size align d Hsize Hal Hd0 Hd0') as Hs.
  rewrite (Hl1 d Hd) in Hs. apply (Hs a'); (done || lia).
  * by apply H4.
  * pose proof (sp_sorted _ _ _ _ Hsp) as Hso. rewrite E in Hso.
  apply StronglySorted_app_1_r in Hso. apply StronglySorted_inv in Hso as [_ Hso].
  rewrite Forall_forall in Hso. specialize (Hso d Hd). simpl in Hso. lia.
  - apply find_map_None in Hf. rewrite Forall_forall in Hf. intros a' (Ha1 & Ha2 & Ha3 & Ha4).
  destruct (sp_all _ _ _ _ Hsp a' (a' + size - 1)) as (d & Hd & Hd1 & Hd2); [lia|lia|done|].
  destruct (Hb d Hd) as [Hd0 Hd0']. pose proof (lowest_in_spec size align d Hsize Hal Hd0 Hd0') as Hs.
  rewrite (Hf d Hd) in Hs. apply (Hs a'); (done || lia).
Qed.

Lemma highest_choice :
  match find_map (highest_in size) (reverse sp) with
  | Some a => fits_at l lo hi size 1 a /\ forall a', fits_at l lo hi size 1 a' -> a' <= a
  | None => forall a', ~ fits_at l lo hi size 1 a'
  end.
Proof using Hsp Hlo Hhi Hsize.
  assert (Hb : forall c, c ∈ sp -> 0 <= c.1 /\ c.2 <= usize_MAX).
  { intros c Hc. destruct (sp_vacant _ _ _ _ Hsp c Hc) as (? & ? & _). lia. }
  destruct (find_map _ (reverse sp)) as [a|] eqn:Hf.
  - apply find_map_Some in Hf as (l1 & c & l2 & E & Hc & Hl1).
  apply (f_equal reverse) in E. rewrite reverse_involutive, reverse_app, reverse_cons in E.
  assert (Hcin : c ∈ sp) by (rewrite E; set_solver). destruct (Hb c Hcin) as [Hc1 Hc2].
  pose proof (highest_in_spec size c Hsize Hc1 Hc2) as Hspec. rewrite Hc in Hspec.
  destruct Hspec as (-> & H1). destruct (sp_vacant _ _ _ _ Hsp c Hcin) as (? & ? & Hv). split.
  + split_and!; [lia|apply Z.divide_1_l|lia|]. intros x Hx. apply Hv. lia.
  + intros a' (Ha1 & Ha2 & Ha3 & Ha4).
  destruct (sp_all _ _ _ _ Hsp a' (a' + size - 1)) as (d & Hd & Hd1 & Hd2); [lia|lia|done|].
  rewrite E, <- app_assoc in Hd. apply elem_of_app in Hd as [Hd|[->|Hd]%elem_of_cons].
  * pose proof (sp_sorted _ _ _ _ Hsp) as Hso. rewrite E, <- app_assoc in Hso. simpl in Hso.
  apply StronglySorted_app in Hso as (Hso & _ & _). specialize (Hso d c Hd ltac:(by left)).
  simpl in Hso. lia.
  * lia.
  * exfalso. rewrite elem_of_reverse in Hd. rewrite Forall_forall in Hl1.
  assert (Hdin : d ∈ sp) by (rewrite E; set_solver).
  destruct (Hb d Hdin) as [Hd0 Hd0']. pose proof (highest_in_spec size d Hsize Hd0 Hd0') as Hs.
  rewrite (Hl1 d Hd) in Hs. lia.
  - apply find_map_None in Hf. rewrite Forall_forall in Hf. intros a' (Ha1 & Ha2 & Ha3 & Ha4).
  destruct (sp_all _ _ _ _ Hsp a' (a' + size - 1)) as (d & Hd & Hd1 & Hd2); [lia|lia|done|].
  destruct (Hb d Hd) as [Hd0 Hd0']. pose proof (highest_in_spec size d Hsize Hd0 Hd0') as Hs.
  rewrite (Hf d) in Hs by (by rewrite elem_of_reverse). lia.
Qed.
End choose.

(** ** Inserting a span *)

(** Everything but the heap script and, possibly, the generation counter. *)
Definition quiet (s s' : Occupancy) : Prop :=
  windows s' = windows s /\ slots s' = slots s /\ cleanups s' = cleanups s /\
  next_ticket s' = next_ticket s /\ next_gen s <= next_gen s' /\ (heap s = [] -> heap s' = []).

#[global] Instance quiet_preorder : PreOrder quiet.
Proof.
  split.
  - intros s. unfold quiet. split_and!; (done || lia).
  - intros s1 s2 s3 (? & ? & ? & ? & ? & ?) (? & ? & ? & ? & ? & ?). unfold quiet. split_and!; auto; congruence || lia.
Qed.

Lemma try_reserve_quiet s : exists r s', try_reserve s = Some (r, s') /\ quiet s s' /\
  next_gen s' = next_gen s /\ (r = Ok tt \/ (r = Err NOutOfMemory /\ heap s <> [])).
Proof.
  unfold try_reserve. munfold.
  destruct (heap s) as [|[] rest] eqn:Hh; eexists _, _; (split; [reflexivity|]);
    unfold quiet; simpl; rewrite ?Hh; (split; [split_and!; (done || lia)|]); (split; [done|]); auto.
Qed.

Lemma gen_next_quiet s : exists r s', gen_next s = Some (r, s') /\ quiet s s' /\
  match r with
  | Ok i => i = next_gen s /\ next_gen s' = next_gen s + 1
  | Err e => e = NOutOfMemory /\ s' = s /\ next_id (next_gen s) = None
  end.
Proof.
  unfold gen_next, next_id. munfold. destruct (_ && _); eexists _, _; (split; [reflexivity|]).
  - split; [|done]. unfold quiet. simpl. split_and!; (done || lia).
  - split; [reflexivity|done].
Qed.

Lemma insert_position l st :
  ordered l ->
  let i := partition_point (fun s => start s <? st) l in
  (forall s, s ∈ take i l -> start s < st) /\ (forall s, s ∈ drop i l -> st <= start s).
Proof.
  intros Hord i. split.
  - intros s Hs. pose proof (partition_point_take (fun s => start s <? st) l) as Ht.
    rewrite Forall_forall in Ht. apply Z.ltb_lt. by apply Ht.
  - intros s Hs. unfold i in *. destruct (drop _ l) as [|a d] eqn:Hd; [by apply not_elem_of_nil in Hs|].
    assert (Ha : l !! partition_point (fun s => start s <? st) l = Some a).
    { rewrite <- (Nat.add_0_r (partition_point _ l)), <- lookup_drop, Hd. done. }
    apply partition_point_at in Ha. apply Z.ltb_ge in Ha.
    rewrite <- (take_drop (partition_point (fun s => start s <? st) l) l), Hd in Hord.
    apply ordered_app in Hord as (_ & Hord & _). apply ordered_cons in Hord as ([? ?] & _ & Hlt).
    apply elem_of_cons in Hs as [->|Hs]; [done|]. specialize (Hlt s Hs). lia.
Qed.

Lemma insert_span_run r st la s :
  ordered (slots s) -> 0 <= st <= la -> la <= usize_MAX ->
  exists x s', insert_slot r st la s = Some (x, s') /\
    match x with
    | Ok i => i = next_gen s /\ next_gen s' = next_gen s + 1 /\ vacant (slots s) st la /\
        ordered (slots s') /\ (forall t, t ∈ slots s' <-> t = mkSlot st la 0 i r \/ t ∈ slots s) /\
        windows s' = windows s /\ cleanups s' = cleanups s /\ next_ticket s' = next_ticket s
    | Err e => quiet s s' /\ 
        ((e = NOutOfMemory /\ (heap s <> [] \/ next_id (next_gen s) = None)) \/
         (e = NoRegion /\ ~ vacant (slots s) st la))
    end.
Proof.
  intros Hord Hst Hla. unfold insert_slot, mbind at 1, M_bind at 1, get at 1.
  set (i := partition_point _ (slots s)).
  destruct (insert_position (slots s) st Hord) as [Hbef Haft]. fold i in Hbef, Haft.
  pose proof (partition_point_le (fun s => start s <? st) (slots s)) as Hile. fold i in Hile.
  set (cl := match i with O => false | S p => _ end). set (cr := match slots s !! i with Some sl => _ | None => _ end).
  pose proof Hord as Hsplit. rewrite <- (take_drop i (slots s)) in Hsplit.
  apply ordered_app in Hsplit as (Ho1 & Ho2 & Hlt12).
  assert (Hcl : if cl then ~ vacant (slots s) st la else forall t, t ∈ take i (slots s) -> last t < st).
  { unfold cl. destruct i as [|p] eqn:Ei; [intros t Ht; by apply not_elem_of_nil in Ht|].
    destruct (slots s !! p) as [t0|] eqn:Hp.
    2: { apply lookup_ge_None in Hp. lia. }
    assert (Htk : take (S p) (slots s) = take p (slots s) ++ [t0]) by (by apply take_S_r).
    destruct (Z.leb_spec st (last t0)) as [Hge|Hlt].
    - intros Hv. apply (Hv st); [lia|]. exists t0. split; [by eapply list_elem_of_lookup_2|].
      assert (start t0 < st); [|unfold holds_addr; lia]. apply Hbef. rewrite Htk. set_solver.
    - intros t. rewrite Htk. intros [Ht| ->%list_elem_of_singleton]%elem_of_app; [|done].
      rewrite Htk in Ho1. apply ordered_app in Ho1 as (_ & Ho & Hl).
      apply ordered_cons in Ho as ([? ?] & _). specialize (Hl t t0 Ht ltac:(by left)). lia. }
  assert (Hcr : if cr then ~ vacant (slots s) st la else forall t, t ∈ drop i (slots s) -> la < start t).
  { unfold cr. destruct (slots s !! i) as [t0|] eqn:Hi.
    - assert (Hdr : drop i (slots s) = t0 :: drop (S i) (slots s)) by (by apply drop_S).
      rewrite Hdr in Haft, Ho2 |- *. apply ordered_cons in Ho2 as ([? ?] & _ & Hl).
      destruct (Z.leb_spec (start t0) la) as [Hle|Hgt].
      + intros Hv. specialize (Haft t0 ltac:(by left)). apply (Hv (start t0)); [lia|]. exists t0.
        split; [by eapply list_elem_of_lookup_2|unfold holds_addr; lia].
      + intros t [->|Ht]%elem_of_cons; [done|]. specialize (Hl t Ht). lia.
    - intros t Ht. rewrite drop_ge in Ht; [by apply not_elem_of_nil in Ht|by apply lookup_ge_None]. }
  destruct (cl || cr) eqn:Hc.
  { exists (Err NoRegion), s. split; [done|]. split; [reflexivity|]. right. split; [done|].
    apply orb_true_iff in Hc as [Hc|Hc]; rewrite Hc in *; done. }
  apply orb_false_iff in Hc as [Hc1 Hc2]. rewrite Hc1 in Hcl. rewrite Hc2 in Hcr.
  destruct (try_reserve_quiet s) as (x & s1 & Hrun & Hq1 & Hg1 & Hx).
  unfold mbind at 1, M_bind at 1. rewrite Hrun. destruct Hx as [-> | [-> Hh]].
  2: { exists (Err NOutOfMemory), s1. split; [done|]. auto. }
  destruct (gen_next_quiet s1) as (y & s2 & Hrun2 & Hq2 & Hy).
  unfold mbind at 1, M_bind at 1. rewrite Hrun2. destruct y as [g|e].
  2: { destruct Hy as (-> & -> & Hn). rewrite Hg1 in Hn. exists (Err NOutOfMemory), s1. split; [done|]. split; [done|]. left. auto. }
  destruct Hy as [-> Hg2]. pose proof Hq1 as (Hw1 & Hs1 & Hcu1 & Ht1 & _).
  pose proof Hq2 as (Hw2 & Hs2 & Hcu2 & Ht2 & _). munfold. eexists _, _. split; [reflexivity|]. simpl.
  rewrite Hs2, Hs1. split_and!; try congruence.
  - intros a Ha (t & Ht & Hh). unfold holds_addr in Hh. rewrite <- (take_drop i (slots s)) in Ht.
    apply elem_of_app in Ht as [Ht|Ht]; [specialize (Hcl t Ht)|specialize (Hcr t Ht)]; lia.
  - unfold insert_at. apply ordered_app. split; [done|]. rewrite ordered_cons. split.
    + split_and!; [split; [simpl; lia|simpl; lia]|done|]. intros t Ht. simpl. by apply Hcr.
    + intros a b Ha [->|Hb]%elem_of_cons; [simpl; by apply Hcl|by apply Hlt12].
  - intros t. rewrite elem_of_insert_at. rewrite Hg1. done.
Qed.

Definition tag (s : Slot) : Z * Z * RegionId := (ticket s, id s, region s).

Definition Own : Type := Z -> option (Z * Z * RegionId).

Definition owner (l : list Slot) : Own := fun x =>
  tag <$> List.find (fun s => bool_decide (holds_addr x s)) l.

Lemma owner_cons s l x :
  owner (s :: l) x = if decide (holds_addr x s) then Some (tag s) else owner l x.
Proof. unfold owner. simpl. case_bool_decide; by case_decide. Qed.

Lemma owner_app l1 l2 x :
  owner (l1 ++ l2) x = match owner l1 x with Some d => Some d | None => owner l2 x end.
Proof.
  induction l1 as [|s l1 IH]; [done|]. simpl. rewrite !owner_cons, IH. by case_decide.
Qed.

Lemma owner_inv l x d : owner l x = Some d -> exists s, s ∈ l /\ holds_addr x s /\ tag s = d.
Proof.
  induction l as [|s l IH]; [done|]. rewrite owner_cons. case_decide.
  - intros [= <-]. exists s. split; [by left|done].
  - intros (t & ? & ?)%IH. exists t. split; [by right|done].
Qed.

Lemma owner_intro l x s : ordered l -> s ∈ l -> holds_addr x s -> owner l x = Some (tag s).
Proof.
  intros Hord Hs Hx. destruct (owner l x) as [d|] eqn:Ho.
  - apply owner_inv in Ho as (t & Ht & Hxt & <-). by rewrite (ordered_uniq l s t x).
  - exfalso. clear Hord. induction l as [|t l IH]; [by apply not_elem_of_nil in Hs|].
    rewrite owner_cons in Ho. case_decide; [done|]. apply elem_of_cons in Hs as [->|Hs]; [done|auto].
Qed.

Lemma owner_None l x : owner l x = None <-> ~ occupied l x.
Proof.
  split.
  - intros Ho (s & Hs & Hx). induction l as [|t l IH]; [by apply not_elem_of_nil in Hs|].
    rewrite owner_cons in Ho. case_decide; [done|]. apply elem_of_cons in Hs as [->|Hs]; [done|auto].
  - intros Ho. destruct (owner l x) as [d|] eqn:E; [|done]. exfalso. apply Ho.
    apply owner_inv in E as (s & ? & ? & _). by exists s.
Qed.

(** ** Filtering the table *)

Lemma ordered_filter p l : ordered l -> ordered (retain p l).
Proof.
  unfold retain. induction l as [|s l IH]; simpl; [done|].
  rewrite ordered_cons. intros (Hs & Hl & Hlt). destruct (p s); [|by apply IH].
  apply ordered_cons. split_and!; [done|by apply IH|]. intros t Ht. apply Hlt.
  fold (retain p l) in Ht. by apply elem_of_retain in Ht as [? _].
Qed.

(** ** [retire] *)

Section retire.
Context (st la gen tk : Z).

Definition spared (s : Slot) : bool :=
  negb (ticket s =? 0) || negb (id s =? gen) || (last s <? st) || (la <? start s).

(** The spans that take the place of [s]. *)
Definition cut (s : Slot) : list Slot :=
  if spared s then [s]
  else (if start s <? st then [mkSlot (start s) (st - 1) 0 (id s) (region s)] else []) ++
   mkSlot (Z.max (start s) st) (Z.min (last s) la) tk (id s) (region s) ::
   (if la <? last s then [mkSlot (la + 1) (last s) 0 (id s) (region s)] else []).

Lemma insert_at_end (front back : list Slot) x :
  insert_at (length front) x (front ++ back) = (front ++ [x]) ++ back.
Proof. unfold insert_at. rewrite take_app_length, drop_app_length. by rewrite <- app_assoc. Qed.

Lemma remove_at_end (front back : list Slot) x :
  remove_at (length front) (front ++ x :: back) = front ++ back.
Proof.
  unfold remove_at. rewrite take_app_length.
  replace (front ++ x :: back) with ((front ++ [x]) ++ back) by (by rewrite <- app_assoc).
  replace (S (length front)) with (length (front ++ [x])) by (rewrite length_app; simpl; lia).
  by rewrite drop_app_length.
Qed.

(** The loop ends within one step per span it started with, and rewrites each
of them by [cut]. *)
Lemma retire_loop_cuts fuel front back :
  (length back <= fuel)%nat ->
  retire_loop fuel st la gen tk (length front) (front ++ back) = Some (front ++ flat_map cut back).
Proof.
  revert fuel front. induction back as [|s back IH]; intros fuel front Hf.
  { destruct fuel; simpl; rewrite lookup_ge_None_2 by (rewrite app_nil_r; lia); done. }
  destruct fuel as [|fuel]; simpl in Hf; [lia|]. simpl.
  rewrite lookup_app_r, Nat.sub_diag by lia. simpl. unfold cut at 1, spared at 1.
  destruct (_ || _) eqn:Hsp.
  { replace (S (length front)) with (length (front ++ [s])) by (rewrite length_app; simpl; lia).
  replace (front ++ s :: back) with ((front ++ [s]) ++ back) by (by rewrite <- app_assoc).
  rewrite IH by lia. by rewrite <- app_assoc. }
  rewrite remove_at_end.
  destruct (start s <? st), (la <? last s); simpl; rewrite !insert_at_end;
  repeat match goal with
  | |- context [insert_at (S ?k) ?y ((?f ++ [?x]) ++ back)] =>
  replace (S k) with (length (f ++ [x])) by (rewrite length_app; simpl in *; lia);
  rewrite insert_at_end
  end;
  match goal with |- retire_loop _ _ _ _ _ ?k (?f ++ back) = _ =>
  replace k with (length f) by (rewrite !length_app; simpl; rewrite ?length_app; simpl; lia) end;
  rewrite IH by lia; rewrite <- !app_assoc; done.
Qed.

Lemma elem_of_cuts l t : t ∈ flat_map cut l <-> exists s, s ∈ l /\ t ∈ cut s.
Proof. rewrite !list_elem_of_In, in_flat_map. by setoid_rewrite list_elem_of_In. Qed.

Definition retired_tag (x : Z) (d : Z * Z * RegionId) : Z * Z * RegionId :=
  if (d.1.1 =? 0) && (d.1.2 =? gen) && (st <=? x) && (x <=? la) then (tk, d.1.2, d.2) else d.

Hypothesis Hst : 0 <= st.
Hypothesis Hla : la <= usize_MAX.
Hypothesis Hle : st <= la.

Lemma cut_range s t : wf_slot s -> t ∈ cut s -> start s <= start t /\ last t <= last s /\ id t = id s.
Proof using Hle.
  intros [? ?]. unfold cut, spared. destruct (_ || _) eqn:Hsp.
  - intros ->%list_elem_of_singleton. lia.
  - apply orb_false_iff in Hsp as [Hsp ?]. apply orb_false_iff in Hsp as [_ ?].
  destruct (Z.ltb_spec (start s) st), (Z.ltb_spec la (last s)); simpl; intros Ht;
  rewrite ?elem_of_cons, ?elem_of_nil in Ht; destruct_or?; subst; simpl; (done || lia).
Qed.

Lemma cut_ordered s : wf_slot s -> ordered (cut s).
Proof using Hst Hla Hle.
  intros [? ?]. unfold cut, spared. destruct (_ || _) eqn:Hsp.
  - apply ordered_cons. split; [done|]. split; [apply ordered_nil|]. intros t Ht. by apply not_elem_of_nil in Ht.
  - apply orb_false_iff in Hsp as [Hsp Ha%Z.ltb_ge]. apply orb_false_iff in Hsp as [_ Hb%Z.ltb_ge].
  destruct (Z.ltb_spec (start s) st), (Z.ltb_spec la (last s)); simpl;
  repeat (rewrite ordered_cons); unfold wf_slot; simpl; split_and!;
  try apply ordered_nil; try lia; intros t Ht;
  rewrite ?elem_of_cons, ?elem_of_nil in Ht; destruct_or?; subst; simpl; (done || lia).
Qed.

Lemma cut_owner s x :
  wf_slot s -> owner (cut s) x = if decide (holds_addr x s) then Some (retired_tag x (tag s)) else None.
Proof using Hle.
  intros [? ?]. unfold cut, spared, retired_tag, tag. simpl. destruct (_ || _) eqn:Hsp.
  - rewrite owner_cons. case_decide as Hx; [|done]. unfold holds_addr in Hx. simpl.
  destruct (Z.eqb_spec (ticket s) 0), (Z.eqb_spec (id s) gen), (Z.leb_spec st x), (Z.leb_spec x la),
  (Z.ltb_spec (last s) st), (Z.ltb_spec la (start s)); simpl in *; (done || lia).
  - repeat (apply orb_false_iff in Hsp as [Hsp ?]). apply negb_false_iff in Hsp.
  assert (Hid : (id s =? gen) = true) by (by apply negb_false_iff).
  rewrite Hsp, Hid. simpl. apply Z.eqb_eq in Hsp. apply Z.ltb_ge in H1, H2.
  destruct (Z.ltb_spec (start s) st), (Z.ltb_spec la (last s)); simpl;
  rewrite ?owner_cons; unfold holds_addr, tag; simpl; rewrite ?Hsp;
  repeat case_decide; simpl; try lia; try done;
  destruct (Z.leb_spec st x), (Z.leb_spec x la); simpl; (done || lia).
Qed.

Lemma retire_ordered l : ordered l -> ordered (flat_map cut l).
Proof using Hst Hla Hle.
  induction l as [|s l IH]; [done|]. rewrite ordered_cons. intros (Hs & Hl & Hlt). simpl.
  apply ordered_app. split_and!; [by apply cut_ordered|by apply IH|]. intros a b Ha Hb.
  apply elem_of_cuts in Hb as (t & Ht & Hb).
  assert (Hwt : wf_slot t). { destruct Hl as [_ Hl]. rewrite Forall_forall in Hl. by apply Hl. }
  destruct (cut_range s a Hs Ha) as (_ & ? & _), (cut_range t b Hwt Hb) as (? & _ & _).
  specialize (Hlt t Ht). lia.
Qed.

Lemma retire_owner l x : ordered l -> owner (flat_map cut l) x = retired_tag x <$> owner l x.
Proof using Hle.
  induction l as [|s l IH]; [done|]. rewrite ordered_cons. intros (Hs & Hl & _). simpl.
  rewrite owner_app, owner_cons, cut_owner, IH by done. by case_decide.
Qed.

Lemma cut_ticket s t : t ∈ cut s -> ticket t = ticket s \/ ticket t = tk \/ ticket t = 0.
Proof using.
  unfold cut. destruct (spared s); [intros ->%list_elem_of_singleton; auto|].
  destruct (start s <? st), (la <? last s); simpl; intros Ht;
  rewrite ?elem_of_cons, ?elem_of_nil in Ht; destruct_or?; subst; simpl; auto; done.
Qed.
End retire.
