(* ===== verification/OccupancySystem.v ===== *)
(** * Virtual address occupancy: operations, invariant and refinement

    Every operation of [occupancy.rs] as a step of one machine, the invariant
    of its states, and what each step does to the address map. *)

From stdpp Require Import sorting.
From S2P Require Import Prelude.
From S2P Require Import Occupancy.
From S2P Require Import OccupancyInv.

Open Scope Z_scope.

Inductive op :=
| Attach (r : RegionId) (base last_ : Z)
| Configure (r : RegionId) (base last_ : Z)
| Advance (r : RegionId) (base : Z)
| Reserve (p : Placement)
| Split (st la gen left_size : Z)
| Release (st la gen : Z)
| PrepareCleanup (gen : Z)
| TakeCleanup (gen : Z)
| Retire (st la gen : Z)
| Reclaim (tk : Z).

Inductive answer :=
| Done
| Span (st gen : Z)
| Halves (right left_id right_id : Z)
| Flag (b : bool)
| Ticket (tk : Z).

Definition exec (o : op) : OC answer :=
  match o with
  | Attach r b l => attach r b l ;; mret Done
  | Configure r b l => configure r b l ;; mret Done
  | Advance r b => advance r b ;; mret Done
  | Reserve p => x ← reserve p; mret (Span x.1 x.2)
  | Split st la gen n => x ← split st la gen n; mret (Halves x.1.1 x.1.2 x.2)
  | Release st la gen => b ← release st la gen; mret (Flag b)
  | PrepareCleanup gen => prepare_cleanup gen ;; mret Done
  | TakeCleanup gen => b ← take_cleanup gen; mret (Flag b)
  | Retire st la gen => t ← retire st la gen; mret (Ticket t)
  | Reclaim tk => reclaim tk ;; mret Done
  end.

(** The arguments a caller can pass: addresses are [usize], placements come
    from [Placement_new], spans are not empty and do not cover the whole
    address range, and the ticket counter has not wrapped. *)
Definition enabled (o : op) (s : Occupancy) : Prop :=
  match o with
  | Attach _ b l | Configure _ b l => 0 <= b /\ l <= usize_MAX
  | Advance _ b => 0 <= b
  | Reserve p =>
      0 < pl_size p <= usize_MAX /\ 0 < pl_align p /\
      match pl_at p with Exact st => 0 <= st <= usize_MAX | _ => True end
  | Split st la _ n => 0 <= st <= la /\ la <= usize_MAX /\ la - st < usize_MAX /\ 0 <= n
  | Retire st la _ => 0 <= st <= la /\ la <= usize_MAX /\ next_ticket s <> 0
  | Release _ _ _ | PrepareCleanup _ | TakeCleanup _ | Reclaim _ => True
  end.

#[global] Instance enabled_dec o s : Decision (enabled o s).
Proof. destruct o; simpl; try apply _. destruct (pl_at p); apply _. Defined.

(** ** Invariant *)

(** Tickets below this bound have been handed out; after the last one the
    counter has wrapped to 0. *)
Definition ticket_bound (s : Occupancy) : Z :=
  if next_ticket s =? 0 then 2 ^ 64 else next_ticket s.

Record OInv (s : Occupancy) : Prop := {
  oi_ordered : ordered (slots s);
  oi_issued : forall t, t ∈ slots s -> 0 <= ticket t < ticket_bound s /\ id t < next_gen s;
  oi_windows : forall w, w ∈ windows s -> 0 <= win_base w /\ win_last w <= usize_MAX;
  oi_counters : 0 <= next_ticket s < 2 ^ 64
}.

Definition boot : Occupancy := mkOcc [] [] [] 1 1 [].

Lemma boot_inv (h : list bool) : OInv (set_heap h boot).
Proof.
  split; simpl; [apply ordered_nil| | |lia]; intros x Hx; by apply not_elem_of_nil in Hx.
Qed.

Lemma quiet_inv s s' : OInv s -> quiet s s' -> OInv s'.
Proof.
  intros [Ho Hi Hw Hc] (Ew & Es & _ & Et & Hg & _). split; [by rewrite Es| |by rewrite Ew|by rewrite Et].
  intros t Ht. rewrite Es in Ht. destruct (Hi t Ht). unfold ticket_bound. rewrite Et.
  fold (ticket_bound s). split; [done|lia].
Qed.

(** Changes of windows, cleanups and heap leave the spans alone. *)
Lemma slots_inv s s' :
  OInv s -> slots s' = slots s -> next_gen s' = next_gen s -> next_ticket s' = next_ticket s ->
  (forall w, w ∈ windows s' -> 0 <= win_base w /\ win_last w <= usize_MAX) -> OInv s'.
Proof.
  intros [Ho Hi Hw Hc] Es Eg Et Hw'. split; [by rewrite Es| |done|by rewrite Et].
  intros t Ht. rewrite Es in Ht. unfold ticket_bound. rewrite Et, Eg. by apply Hi.
Qed.

(** ** The abstract machine *)

Definition reid (gen : Z) (d : Z * Z * RegionId) : Z * Z * RegionId := (d.1.1, gen, d.2).

(** What an operation that answered [a] does to the address map. *)
Definition effect (o : op) (a : answer) (own : Own) : Own :=
  match o, a with
  | Reserve p, Span st gen => fun x =>
      if decide (st <= x <= st + pl_size p - 1) then Some (0, gen, pl_region p) else own x
  | Split st la _ _, Halves mid gl gr => fun x =>
      if decide (st <= x < mid) then reid gl <$> own x
      else if decide (mid <= x <= la) then reid gr <$> own x
      else own x
  | Release st la _, Flag true => fun x => if decide (st <= x <= la) then None else own x
  | Retire st la gen, Ticket tk => fun x => retired_tag st la gen tk x <$> own x
  | Reclaim tk, _ => fun x => match own x with
      | Some d => if d.1.1 =? tk then None else Some d
      | None => None
      end
  | _, _ => own
  end.

(** What must hold of the map for an operation to answer [a]. *)
Definition admits (o : op) (a : answer) (own : Own) (s : Occupancy) : Prop :=
  match o, a with
  | Reserve p, Span st gen =>
      0 <= st /\ st + pl_size p - 1 <= usize_MAX /\ gen = next_gen s /\
      (forall x, st <= x <= st + pl_size p - 1 -> own x = None)
  | Split st la gen n, Halves mid gl gr =>
      mid = st + n /\ st < mid <= la /\ gl = next_gen s /\ gr = next_gen s + 1 /\
      exists r, forall x, st <= x <= la -> own x = Some (0, gen, r)
  | Release st la gen, Flag true =>
      exists r, forall x, st <= x <= la -> own x = Some (0, gen, r)
  | Retire _ _ _, Ticket tk => tk = next_ticket s /\ (forall x d, own x = Some d -> d.1.1 <> tk)
  | _, _ => True
  end.

Definition holds_op (o : op) (s : Occupancy) : Prop :=
  exists r s', exec o s = Some (r, s') /\ OInv s' /\ next_gen s <= next_gen s' /\
    match r with
    | Ok a => admits o a (owner (slots s)) s /\
        forall x, owner (slots s') x = effect o a (owner (slots s)) x
    | Err _ => slots s' = slots s
    end.

(** ** Windows *)

Lemma attach_op r b l s : OInv s -> enabled (Attach r b l) s -> holds_op (Attach r b l) s.
Proof.
  intros HI [Hb Hl]. unfold holds_op. simpl. unfold attach.
  unfold mbind at 1, M_bind at 1, mbind at 1, M_bind at 1, get at 1.
  destruct (_ || _); [eexists _, _; split; [reflexivity|]; by split_and!|].
  destruct (try_reserve_quiet s) as (x & s1 & Hrun & Hq & Hg & [-> | [-> _]]); munfold; rewrite Hrun.
  - eexists _, _. split; [reflexivity|]. pose proof Hq as (Ew & Es & Ec & Et & _). simpl.
    split_and!; [|lia|done|by rewrite Es].
    apply (slots_inv s); simpl; [done..|]. intros w. rewrite Ew.
    intros [Hw| ->%list_elem_of_singleton]%elem_of_app; [by apply (oi_windows _ HI)|simpl; lia].
  - eexists _, _. split; [reflexivity|]. split_and!; [by eapply quiet_inv|lia|]. by destruct Hq as (_ & -> & _).
Qed.

Lemma elem_of_list_insert {A} (i : nat) (x y : A) (l : list A) : y ∈ <[i := x]> l -> y = x \/ y ∈ l.
Proof.
  intros [j Hj]%list_elem_of_lookup. apply list_lookup_insert_Some in Hj as [(_ & -> & _)|[_ Hj]]; [by left|].
  right. by eapply list_elem_of_lookup_2.
Qed.

Lemma configure_op r b l s : OInv s -> enabled (Configure r b l) s -> holds_op (Configure r b l) s.
Proof.
  intros HI [Hb Hl]. unfold holds_op. simpl. unfold configure.
  destruct (_ || _) eqn:Hg; [munfold; eexists _, _; split; [reflexivity|]; by split_and!|].
  destruct (position (window_is r) (windows s)) as [i|] eqn:Hp.
  - munfold. rewrite Hp. destruct (any _ _); (eexists _, _; split; [reflexivity|]); [by split_and!|].
    simpl. split_and!; [|lia|done|done]. apply (slots_inv s); simpl; [done..|].
    intros w [->|Hw]%elem_of_list_insert; [simpl; lia|by apply (oi_windows _ HI)].
  - destruct (attach_op r b l s HI (conj Hb Hl)) as (x & s' & Hrun & Hrest). exists x, s'.
    split; [|by destruct x]. revert Hrun. simpl. munfold. rewrite Hp. done.
Qed.

Lemma advance_op r b s : OInv s -> enabled (Advance r b) s -> holds_op (Advance r b) s.
Proof.
  intros HI Hb. unfold holds_op. simpl. unfold advance. munfold.
  destruct (position (window_is r) (windows s)) as [i|] eqn:Hp.
  2: { eexists _, _. split; [reflexivity|]. by split_and!. }
  apply position_Some in Hp as (w & Hw & _). rewrite Hw.
  destruct (_ || _) eqn:Hg; (eexists _, _; split; [reflexivity|]); [by split_and!|].
  simpl. split_and!; [|lia|done|done]. apply (slots_inv s); simpl; [done..|].
  intros v [->|Hv]%elem_of_list_insert; [simpl|by apply (oi_windows _ HI)].
  simpl in Hb. apply list_elem_of_lookup_2 in Hw. destruct (oi_windows _ HI w Hw). done.
Qed.

(** ** Cleanup payloads *)

Lemma prepare_cleanup_op g s : OInv s -> holds_op (PrepareCleanup g) s.
Proof.
  intros HI. unfold holds_op. simpl. unfold prepare_cleanup.
  unfold mbind at 1, M_bind at 1, mbind at 1, M_bind at 1, get at 1.
  destruct (any _ _); [eexists _, _; split; [reflexivity|]; by split_and!|].
  destruct (try_reserve_quiet s) as (x & s1 & Hrun & Hq & Hg & [-> | [-> _]]); munfold; rewrite Hrun.
  2: { eexists _, _. split; [reflexivity|]. split_and!; [by eapply quiet_inv|lia|]. by destruct Hq as (_ & -> & _). }
  destruct (try_reserve_quiet s1) as (x & s2 & Hrun2 & Hq2 & Hg2 & [-> | [-> _]]); munfold; rewrite Hrun2.
  - pose proof (quiet_inv _ _ (quiet_inv _ _ HI Hq) Hq2) as HI2. pose proof Hq as (_ & Es & _).
    pose proof Hq2 as (Ew2 & Es2 & _). eexists _, _. split; [reflexivity|]. simpl.
    split_and!; [|lia|done|by rewrite Es2, Es]. apply (slots_inv s2); [done..|apply HI2].
  - eexists _, _. split; [reflexivity|]. split_and!; [eapply quiet_inv; [by eapply quiet_inv|done]|lia|].
    destruct Hq as (_ & Es & _), Hq2 as (_ & Es2 & _). congruence.
Qed.

Lemma take_cleanup_op g s : OInv s -> holds_op (TakeCleanup g) s.
Proof.
  intros HI. unfold holds_op. simpl. unfold take_cleanup. munfold.
  destruct (position _ _); (eexists _, _; split; [reflexivity|]); [|by split_and!].
  simpl. split_and!; [|lia|done|done]. apply (slots_inv s); [done..|apply HI].
Qed.

(** ** [reserve] *)

(** The span of [a] in the window of [p], vacant. *)
Definition window_fit (p : Placement) (s : Occupancy) (align a : Z) : Prop :=
  exists w, window_of (pl_region p) s = Some w /\
    fits_at (slots s) (win_base w) (win_last w) (pl_size p) align a.

(** The start the placement policy asks for. *)
Definition chosen (p : Placement) (s : Occupancy) (a : Z) : Prop :=
  match pl_at p with
  | Exact st => a = st
  | Lowest => window_fit p s (pl_align p) a /\ forall b, window_fit p s (pl_align p) b -> a <= b
  | Highest => window_fit p s 1 a /\ forall b, window_fit p s 1 b -> b <= a
  end.

(** Why a dynamic placement finds no start. *)
Definition unplaceable (p : Placement) (s : Occupancy) (e : NestError) : Prop :=
  match pl_at p with
  | Exact _ => False
  | Lowest => (e = NoRegion /\ window_of (pl_region p) s = None) \/
      (e = NOutOfMemory /\ forall a, ~ window_fit p s (pl_align p) a)
  | Highest => (e = NoRegion /\ window_of (pl_region p) s = None) \/
      (e = NOutOfMemory /\ forall a, ~ window_fit p s 1 a)
  end.

Lemma window_of_elem r s w : window_of r s = Some w -> w ∈ windows s.
Proof. intros [? _]%List.find_some. by apply list_elem_of_In. Qed.

Lemma free_spans_run s w : OInv s -> w ∈ windows s ->
  exists x s', free_spans w s = Some (x, s') /\ quiet s s' /\ next_gen s' = next_gen s /\
    match x with
    | Ok sp => spans_ok (slots s) (win_base w) (win_last w) sp
    | Err e => e = NOutOfMemory /\ heap s <> []
    end.
Proof.
  intros HI Hw. destruct (oi_windows _ HI w Hw) as [Hb Hl]. unfold free_spans.
  destruct (try_reserve_quiet s) as (x & s1 & Hrun & Hq & Hg & [-> | [-> Hh]]); munfold; rewrite Hrun;
    (eexists _, _; split; [reflexivity|]); (split; [done|]); (split; [done|]); [|done].
  destruct Hq as (_ & -> & _). apply spans_from_ok; [apply HI|done].
Qed.

(** A search over the free spans of the window, by either rule. *)
Lemma search_run s p (f : list (Z * Z) -> option Z) (align : Z) (best : Z -> Z -> Prop) :
  OInv s ->
  (forall w sp, w ∈ windows s -> spans_ok (slots s) (win_base w) (win_last w) sp ->
     match f sp with
     | Some a => fits_at (slots s) (win_base w) (win_last w) (pl_size p) align a /\
         forall b, fits_at (slots s) (win_base w) (win_last w) (pl_size p) align b -> best a b
     | None => forall b, ~ fits_at (slots s) (win_base w) (win_last w) (pl_size p) align b
     end) ->
  exists x s', (s0 ← get; w ← lift (ok_or (window_of (pl_region p) s0) NoRegion);
                spans ← free_spans w; lift (ok_or (f spans) NOutOfMemory) : OC Z) s = Some (x, s') /\
    quiet s s' /\ next_gen s' = next_gen s /\
    match x with
    | Ok a => window_fit p s align a /\ forall b, window_fit p s align b -> best a b
    | Err e => (e = NOutOfMemory /\ heap s <> []) \/
        (e = NoRegion /\ window_of (pl_region p) s = None) \/
        (e = NOutOfMemory /\ forall a, ~ window_fit p s align a)
    end.
Proof.
  intros HI Hf. munfold. destruct (window_of (pl_region p) s) as [w|] eqn:Hw; simpl.
  2: { eexists _, _. split; [reflexivity|]. split; [reflexivity|]. split; [done|]. auto. }
  destruct (free_spans_run s w HI (window_of_elem _ _ _ Hw)) as (x & s1 & Hrun & Hq & Hg & Hx).
  rewrite Hrun. destruct x as [sp|e].
  2: { eexists _, _. split; [reflexivity|]. split; [done|]. split; [done|]. auto. }
  specialize (Hf w sp (window_of_elem _ _ _ Hw) Hx).
  eexists _, _. split; [reflexivity|]. split; [done|]. split; [done|].
  destruct (f sp) as [a|]; simpl.
  - destruct Hf as [Hfit Hbest]. split; [by exists w|]. intros b (w' & Hw' & Hb).
    assert (w' = w) as -> by congruence. by apply Hbest.
  - right; right. split; [done|]. intros a (w' & Hw' & Ha).
    assert (w' = w) as -> by congruence. by apply (Hf a).
Qed.

Lemma choose_run p s : OInv s -> enabled (Reserve p) s ->
  exists x s', choose p s = Some (x, s') /\ quiet s s' /\ next_gen s' = next_gen s /\
    match x with
    | Ok a => chosen p s a /\ 0 <= a <= usize_MAX
    | Err e => (e = NOutOfMemory /\ heap s <> []) \/ unplaceable p s e
    end.
Proof.
  intros HI (Hsize & Halign & Hat). unfold choose, chosen, unplaceable.
  assert (Hwin : forall align a, window_fit p s align a -> 0 <= a <= usize_MAX).
  { intros align a (w & Hw & H1 & _ & H2 & _). destruct (oi_windows _ HI w (window_of_elem _ _ _ Hw)). lia. }
  destruct (pl_at p) as [| |st].
  - destruct (search_run s p (find_map (lowest_in (pl_size p) (pl_align p))) (pl_align p) Z.le HI)
      as (x & s' & Hrun & Hq & Hg & Hx).
    { intros w sp Hw Hsp. destruct (oi_windows _ HI w Hw). eapply lowest_choice; (done || lia). }
    exists x, s'. split; [done|]. split; [done|]. split; [done|]. destruct x; [|done].
    split; [done|]. eapply Hwin, Hx.
  - destruct (search_run s p (fun sp => find_map (highest_in (pl_size p)) (reverse sp)) 1 (fun a b => b <= a) HI)
      as (x & s' & Hrun & Hq & Hg & Hx).
    { intros w sp Hw Hsp. destruct (oi_windows _ HI w Hw). eapply highest_choice; (done || lia). }
    exists x, s'. split; [done|]. split; [done|]. split; [done|]. destruct x; [|done].
    split; [done|]. eapply Hwin, Hx.
  - eexists _, _. split; [reflexivity|]. split; [reflexivity|]. split; [done|]. done.
Qed.

Lemma reserve_run p s : OInv s -> enabled (Reserve p) s ->
  exists x s', reserve p s = Some (x, s') /\
    match x with
    | Ok (a, gen) => chosen p s a /\ 0 <= a /\ a + pl_size p - 1 <= usize_MAX /\
        gen = next_gen s /\ next_gen s' = next_gen s + 1 /\ vacant (slots s) a (a + pl_size p - 1) /\
        ordered (slots s') /\ windows s' = windows s /\ cleanups s' = cleanups s /\
        next_ticket s' = next_ticket s /\
        (forall t, t ∈ slots s' <-> t = mkSlot a (a + pl_size p - 1) 0 gen (pl_region p) \/ t ∈ slots s)
    | Err e => quiet s s' /\
        ((e = NOutOfMemory /\ (heap s <> [] \/ next_id (next_gen s) = None)) \/
         unplaceable p s e \/
         (e = NoRegion /\ exists a, chosen p s a /\
            (usize_MAX < a + pl_size p - 1 \/ ~ vacant (slots s) a (a + pl_size p - 1))))
    end.
Proof.
  intros HI Hen. destruct (choose_run p s HI Hen) as (x & s1 & Hrun & Hq & Hg & Hx).
  unfold reserve, mbind at 1, M_bind at 1. rewrite Hrun. destruct x as [a|e].
  2: { eexists _, _. split; [reflexivity|]. split; [done|]. destruct Hx as [[-> ?]|?]; auto. }
  destruct Hx as [Hch Ha]. destruct Hen as (Hsize & _). unfold mbind at 1, M_bind at 1, lift at 1.
  unfold checked_add. replace (a + (pl_size p - 1)) with (a + pl_size p - 1) by lia.
  destruct (checked (a + pl_size p - 1)) as [la|] eqn:Hla; simpl.
  2: { apply checked_None in Hla. rewrite usize_iff in Hla. eexists _, _. split; [reflexivity|].
       split; [done|]. right; right. split; [done|]. exists a. split; [done|]. lia. }
  apply checked_Some in Hla as [<- Hla]. rewrite usize_iff in Hla.
  pose proof (quiet_inv _ _ HI Hq) as HI1. pose proof Hq as (Ew & Es & Ec & Et & _ & Hh).
  destruct (insert_span_run (pl_region p) a (a + pl_size p - 1) s1 (oi_ordered _ HI1) ltac:(lia) ltac:(lia))
    as (y & s2 & Hrun2 & Hy).
  unfold mbind, M_bind. rewrite Hrun2. destruct y as [gen|e].
  - destruct Hy as (-> & Hg2 & Hv & Hord & Hel & Hw & Hcu & Htk). eexists _, _. split; [reflexivity|]. simpl.
    rewrite Hg in *. rewrite Es in *. split_and!; (done || lia || congruence).
  - destruct Hy as [Hq2 Hy]. eexists _, _. split; [reflexivity|]. rewrite Es, Hg in Hy. split; [by etrans|].
    destruct Hy as [[-> [Hy|Hy]]|[-> Hy]]; [left; split; [done|]; left; auto|left; auto|]. right; right. split; [done|]. by eauto.
Qed.

Lemma reserve_op p s : OInv s -> enabled (Reserve p) s -> holds_op (Reserve p) s.
Proof.
  intros HI Hen. destruct (reserve_run p s HI Hen) as (x & s' & Hrun & Hx).
  unfold holds_op. simpl. unfold mbind, M_bind. rewrite Hrun. destruct x as [[a gen]|e].
  2: { destruct Hx as [Hq _]. eexists _, _. split; [reflexivity|]. split_and!; [by eapply quiet_inv| |]; apply Hq. }
  destruct Hx as (_ & Ha & Hla & -> & Hg & Hv & Hord & Hw & _ & Ht & Hel). destruct Hen as (Hsize & _).
  assert (HI' : OInv s').
  { destruct HI as [Ho Hi Hwin Hc]. split; [done| |by rewrite Hw|by rewrite Ht].
    unfold ticket_bound. rewrite Ht, Hg. fold (ticket_bound s).
    intros t [->|Hin]%Hel; [|destruct (Hi t Hin); split; lia]. simpl. unfold ticket_bound. case_match; lia. }
  eexists _, _. split; [reflexivity|]. split; [done|]. split; [lia|]. simpl. split.
  - split_and!; [done..|]. intros x Hx. apply owner_None. by apply Hv.
  - intros x. case_decide as Hx.
    + rewrite (owner_intro _ x (mkSlot a (a + pl_size p - 1) 0 (next_gen s) (pl_region p))); [done|done| |done].
      apply Hel. by left.
    + destruct (owner (slots s) x) as [d|] eqn:E.
      * apply owner_inv in E as (t & Hin & Hh & <-). apply owner_intro; [done| |done]. apply Hel. by right.
      * apply owner_None. apply owner_None in E. intros (t & [->|Hin]%Hel & Hh); [done|]. apply E. by exists t.
Qed.

(** ** [split] and [release] *)

Lemma live_slot st la gen l i :
  position (is_live st la gen) l = Some i ->
  exists r, l !! i = Some (mkSlot st la 0 gen r) /\
    l = take i l ++ mkSlot st la 0 gen r :: drop (S i) l.
Proof.
  intros (sl & Hsl & Hp & _)%position_Some. unfold is_live in Hp.
  repeat (apply andb_true_iff in Hp as [Hp ?]). apply Z.eqb_eq in Hp.
  destruct sl as [a b t g r]. simpl in *. to_prop. subst. exists r. split; [done|].
  by rewrite take_drop_middle.
Qed.

(** A span in the middle of an ordered table, and the map around it. *)
Lemma owner_middle l1 s l2 x :
  ordered (l1 ++ s :: l2) ->
  owner (l1 ++ s :: l2) x = if decide (holds_addr x s) then Some (tag s) else owner (l1 ++ l2) x.
Proof.
  intros Hord. case_decide as Hx.
  - apply owner_intro; [done| |done]. set_solver.
  - rewrite !owner_app, owner_cons. by case_decide.
Qed.

(** Replacing a span by spans inside it. *)
Lemma ordered_replace l1 s l2 m :
  ordered (l1 ++ s :: l2) -> ordered m -> (forall t, t ∈ m -> start s <= start t /\ last t <= last s) ->
  ordered (l1 ++ m ++ l2).
Proof.
  rewrite ordered_app, ordered_cons. intros (H1 & (_ & H2 & H3) & H4) Hm Hin.
  rewrite !ordered_app. split_and!; [done..| |].
  - intros a b Ha Hb. destruct (Hin a Ha). specialize (H3 b Hb). lia.
  - intros a b Ha [Hb|Hb]%elem_of_app.
    + destruct (Hin b Hb). specialize (H4 a s Ha ltac:(by left)). lia.
    + apply H4; [done|by right].
Qed.

Lemma ordered_drop_middle l1 s l2 : ordered (l1 ++ s :: l2) -> ordered (l1 ++ l2).
Proof.
  intros H. apply (ordered_replace l1 s l2 []) in H; [done|apply ordered_nil|].
  intros t Ht. by apply not_elem_of_nil in Ht.
Qed.

Lemma insert_after i (x y : Slot) l : (i < length l)%nat ->
  insert_at (S i) y (<[i := x]> l) = take i l ++ [x; y] ++ drop (S i) l.
Proof.
  intros Hi. rewrite insert_take_drop by done. unfold insert_at.
  assert (Hl : length (take i l ++ [x]) = S i) by (rewrite length_app, length_take; simpl; lia).
  replace (take i l ++ x :: drop (S i) l) with ((take i l ++ [x]) ++ drop (S i) l) by (by rewrite <- app_assoc).
  rewrite take_app_length', drop_app_length', <- app_assoc by done. done.
Qed.

Lemma split_run st la gen n s :
  OInv s -> enabled (Split st la gen n) s -> exists x s', split st la gen n s = Some (x, s') /\
    match x with
    | Ok (mid, gl, gr) => mid = st + n /\ st < mid <= la /\ n mod PAGE_SIZE = 0 /\ gl = next_gen s /\ gr = next_gen s + 1 /\ next_gen s' = next_gen s + 2 /\
        windows s' = windows s /\ next_ticket s' = next_ticket s /\
        exists l1 r l2, slots s = l1 ++ mkSlot st la 0 gen r :: l2 /\
          slots s' = l1 ++ [mkSlot st (st + n - 1) 0 (next_gen s) r; mkSlot (st + n) la 0 (next_gen s + 1) r] ++ l2
    | Err _ => quiet s s'
    end.
Proof.
  intros HI (Hst & Hla & Hw & Hn). unfold split.
  assert (Hsz : la - st + 1 <= usize_MAX) by lia.
  unfold usub, uadd, checked_sub, checked_add. unfold mbind at 1, M_bind at 1, mbind at 1, M_bind at 1.
  rewrite (proj2 (checked_Some (la - st) (la - st))) by (rewrite usize_iff; lia).
  unfold expect at 1, mbind at 1, M_bind at 1.
  rewrite (proj2 (checked_Some (la - st + 1) (la - st + 1))) by (rewrite usize_iff; lia).
  unfold expect at 1. destruct (_ || _) eqn:Hg; [by eexists _, _|].
  repeat (apply orb_false_iff in Hg as [Hg ?]). apply Z.eqb_neq in Hg. apply Z.leb_gt in H1. apply negb_false_iff, Z.eqb_eq in H0.
  unfold mbind at 1, M_bind at 1, get at 1, mbind at 1, M_bind at 1, lift at 1.
  destruct (position (is_live st la gen) (slots s)) as [i|] eqn:Hp; simpl; [|by eexists _, _].
  destruct (live_slot _ _ _ _ _ Hp) as (r & Hi & Hmid). apply lookup_lt_Some in Hi as Hilt.
  destruct (try_reserve_quiet s) as (x & s1 & Hrun & Hq1 & Hg1 & Hx).
  unfold mbind at 1, M_bind at 1. rewrite Hrun. destruct Hx as [-> | [-> Hh]]; [|by eexists _, _].
  destruct (gen_next_quiet s1) as (y & s2 & Hrun2 & Hq2 & Hy).
  unfold mbind at 1, M_bind at 1. rewrite Hrun2. pose proof (transitivity Hq1 Hq2) as Hq12. destruct y as [g|e]; [|by eexists _, _].
  destruct Hy as [-> Hg2]. destruct (gen_next_quiet s2) as (y & s3 & Hrun3 & Hq3 & Hy).
  unfold mbind at 1, M_bind at 1. rewrite Hrun3. pose proof (transitivity Hq12 Hq3) as Hq. destruct y as [g|e]; [|by eexists _, _].
  destruct Hy as [-> Hg3]. pose proof Hq as (Ew & Es & _ & Et & _). munfold. rewrite Es, Hi. simpl.
  rewrite insert_after by done. eexists _, _. split; [reflexivity|]. rewrite Hg2, Hg1 in *. simpl. split_and!; try (done || lia).
  eexists _, _, _. split; [exact Hmid|done].
Qed.

Lemma split_op st la gen n s :
  OInv s -> enabled (Split st la gen n) s -> holds_op (Split st la gen n) s.
Proof.
  intros HI Hen. destruct (split_run st la gen n s HI Hen) as (x & s' & Hrun & Hx). unfold holds_op. simpl. unfold mbind, M_bind. rewrite Hrun.
  destruct x as [[[mid gl] gr]|e]; (eexists _, _; split; [reflexivity|]); [|split_and!; [by eapply quiet_inv| |]; apply Hx].
  destruct Hx as (-> & Hmid & _ & -> & -> & Hg & Ew & Et & l1 & r & l2 & El & El'). simpl. destruct Hen as (Hst & Hla & Hw & Hn).
  destruct HI as [Ho Hiss Hwin Hc]. rewrite El in Ho. rewrite El'.
  set (a := mkSlot st (st + n - 1) 0 (next_gen s) r) in *. set (b := mkSlot (st + n) la 0 (next_gen s + 1) r) in *.
  assert (Hab : ordered [a; b]).
  { rewrite !ordered_cons. unfold wf_slot, a, b. simpl. split_and!; try lia; try apply ordered_nil.
    all: intros t Ht; rewrite ?elem_of_cons, elem_of_nil in Ht; destruct_or?; subst; simpl; (done || lia). }
  assert (Ho' : ordered (l1 ++ [a; b] ++ l2)).
  { eapply ordered_replace; [exact Ho|done|]. intros t Ht. unfold a, b in Ht.
    rewrite !elem_of_cons, elem_of_nil in Ht; destruct_or?; subst; simpl; (done || lia). }
  assert (Hown : forall x, owner (slots s) x = if decide (holds_addr x (mkSlot st la 0 gen r))
    then Some (0, gen, r) else owner (l1 ++ l2) x).
  { intros x. rewrite El. by rewrite owner_middle. }
  split_and!; try lia.
  - split; [by rewrite El'| |by rewrite Ew|by rewrite Et]. unfold ticket_bound. rewrite Et, El'.
    fold (ticket_bound s). assert (0 < ticket_bound s) by (unfold ticket_bound; case_match; lia).
    intros t Ht. rewrite Hg. assert (t = a \/ t = b \/ t ∈ slots s) as [->|[->|Hin]].
    { rewrite El. set_solver. }
    1,2: unfold a, b; simpl; lia. destruct (Hiss t Hin). split; lia.
  - exists r. intros x Hx. rewrite Hown. case_decide as Hd; [done|]. unfold holds_addr in Hd. simpl in Hd. lia.
  - intros x. rewrite Hown. simpl in Ho' |- *. rewrite owner_middle by done.
    apply ordered_drop_middle in Ho'. rewrite owner_middle by done.
    unfold holds_addr, tag, reid, a, b. simpl. repeat case_decide; simpl; (done || lia).
Qed.

Lemma release_op st la gen s : OInv s -> holds_op (Release st la gen) s.
Proof.
  intros HI. unfold holds_op. simpl. unfold release. munfold.
  destruct (position (is_live st la gen) (slots s)) as [i|] eqn:Hp; (eexists _, _; split; [reflexivity|]).
  2: { by split_and!. }
  destruct (live_slot _ _ _ _ _ Hp) as (r & Hi & Hmid). simpl.
  destruct HI as [Ho Hiss Hwin Hc]. rewrite Hmid in Ho.
  assert (Hown : forall x, owner (slots s) x = if decide (holds_addr x (mkSlot st la 0 gen r))
    then Some (0, gen, r) else owner (remove_at i (slots s)) x).
  { intros x. rewrite Hmid at 1. by rewrite owner_middle. }
  split_and!; [|lia| |].
  - split; simpl; [by eapply ordered_drop_middle| |done|done].
    intros t Ht. apply Hiss. rewrite Hmid. unfold remove_at in Ht. set_solver.
  - exists r. intros x Hx. rewrite Hown. by rewrite decide_True.
  - intros x. rewrite Hown. unfold holds_addr. simpl. case_decide as Hd; [|by rewrite decide_False].
    apply owner_None. intros (t & Ht & Hh).
    assert (t = mkSlot st la 0 gen r) as ->.
    { eapply ordered_uniq; [exact Ho| | |exact Hh|done]; [|set_solver]. unfold remove_at in Ht. set_solver. }
    clear -Ho Ht Hd. apply ordered_app in Ho as (_ & (_ & _ & H1)%ordered_cons & H2).
    apply elem_of_app in Ht as [Ht|Ht]; [specialize (H2 _ _ Ht ltac:(by left))|specialize (H1 _ Ht)];
      simpl in *; lia.
Qed.

(** ** [retire] and [reclaim] *)

Lemma retire_run st la gen s : next_ticket s <> 0 ->
  retire st la gen s = Some (Ok (next_ticket s),
    set_slots (flat_map (cut st la gen (next_ticket s)) (slots s))
      (set_ticket ((next_ticket s + 1) mod 2 ^ 64) s)).
Proof.
  intros Ht. unfold retire. munfold. apply Z.eqb_neq in Ht. rewrite Ht. simpl.
  pose proof (retire_loop_cuts st la gen (next_ticket s) (length (slots s)) [] (slots s) (Nat.le_refl _)) as Hl.
  simpl in Hl. rewrite Hl. done.
Qed.

Lemma retire_op st la gen s :
  OInv s -> enabled (Retire st la gen) s -> holds_op (Retire st la gen) s.
Proof.
  intros [Ho Hiss Hwin Hc] (Hst & Hla & Ht). unfold holds_op. simpl. unfold mbind, M_bind.
  rewrite retire_run by done. eexists _, _. split; [reflexivity|]. simpl.
  assert (Hb : ticket_bound s = next_ticket s) by (unfold ticket_bound; by apply Z.eqb_neq in Ht as ->).
  split_and!; [|lia|done| |].
  - split; simpl; [apply retire_ordered; (done || lia)| |done|apply Z.mod_pos_bound; lia].
    assert (Hb' : ticket_bound (set_ticket ((next_ticket s + 1) mod 2 ^ 64) s) = next_ticket s + 1).
    { unfold ticket_bound. simpl. destruct (Z.eq_dec (next_ticket s + 1) (2 ^ 64)) as [->|Hne].
      - done.
      - rewrite Z.mod_small by lia. destruct (Z.eqb_spec (next_ticket s + 1) 0); lia. }
    intros t (u & Hu & Htu)%elem_of_cuts. destruct (Hiss u Hu) as [? ?].
    change (ticket_bound _) with (ticket_bound (set_ticket ((next_ticket s + 1) mod 2 ^ 64) s)). rewrite Hb'.
    assert (Hwf : wf_slot u). { destruct Ho as [_ Hwf]. rewrite Forall_forall in Hwf. by apply Hwf. }
    destruct (cut_range st la gen (next_ticket s) ltac:(lia) u t Hwf Htu) as (_ & _ & ->).
    apply cut_ticket in Htu as [-> | [-> | ->]]; lia.
  - intros x d (t & Hin & _ & <-)%owner_inv. destruct (Hiss t Hin). simpl. lia.
  - intros x. apply retire_owner; [lia|done].
Qed.

Lemma reclaim_owner tk l x : ordered l ->
  owner (retain (fun sl => negb (ticket sl =? tk)) l) x =
  match owner l x with Some d => if d.1.1 =? tk then None else Some d | None => None end.
Proof.
  induction l as [|s l IH]; [done|]. rewrite ordered_cons. intros (Hs & Hl & Hlt). simpl.
  fold (retain (fun sl => negb (ticket sl =? tk)) l). rewrite owner_cons.
  destruct (Z.eqb_spec (ticket s) tk) as [E|E]; simpl.
  - case_decide as Hx; simpl; [|by apply IH]. rewrite E, Z.eqb_refl. apply owner_None.
    intros (t & [Ht _]%elem_of_retain & Hh). specialize (Hlt t Ht). unfold holds_addr in *. lia.
  - rewrite owner_cons. case_decide as Hx; simpl; [|by apply IH]. by apply Z.eqb_neq in E as ->.
Qed.

Lemma reclaim_op tk s : OInv s -> holds_op (Reclaim tk) s.
Proof.
  intros [Ho Hiss Hwin Hc]. unfold holds_op. simpl. unfold reclaim. munfold.
  eexists _, _. split; [reflexivity|].
  assert (Hall : forall s', slots s' = retain (fun sl => negb (ticket sl =? tk)) (slots s) ->
    windows s' = windows s -> next_gen s' = next_gen s -> next_ticket s' = next_ticket s ->
    OInv s' /\ next_gen s <= next_gen s' /\ admits (Reclaim tk) Done (owner (slots s)) s /\
    forall x, owner (slots s') x = effect (Reclaim tk) Done (owner (slots s)) x).
  { intros s' Es Ew Eg Et. rewrite Es. split_and!; [|lia|done|intros x; by apply reclaim_owner].
    split; [rewrite Es; by apply ordered_filter| |by rewrite Ew|by rewrite Et].
    intros t. rewrite Es. intros [Ht _]%elem_of_retain. unfold ticket_bound. rewrite Et, Eg. by apply Hiss. }
  destruct (id <$> _) as [g|]; [destruct (negb _)|]; by apply Hall.
Qed.

Lemma exec_holds o s : OInv s -> enabled o s -> holds_op o s.
Proof.
  destruct o; intros HI Hen.
  - by apply attach_op.
  - by apply configure_op.
  - by apply advance_op.
  - by apply reserve_op.
  - by apply split_op.
  - by apply release_op.
  - by apply prepare_cleanup_op.
  - by apply take_cleanup_op.
  - by apply retire_op.
  - by apply reclaim_op.
Qed.

(** ** Runs *)

Inductive reach : Occupancy -> Prop :=
| reach_boot h : reach (set_heap h boot)
| reach_step s o r s' : reach s -> enabled o s -> exec o s = Some (r, s') -> reach s'.

Lemma reach_inv s : reach s -> OInv s.
Proof.
  induction 1 as [h|s o r s' _ IH Hen Hrun]; [apply boot_inv|].
  destruct (exec_holds o s IH Hen) as (r' & s'' & Hrun' & HI & _). congruence.
Qed.

(** Running a sequence of operations, as long as each is enabled. *)
Fixpoint play (s : Occupancy) (l : list op) : option Occupancy :=
  match l with
  | [] => Some s
  | o :: l => if decide (enabled o s) then
                match exec o s with Some (_, s') => play s' l | None => None end
              else None
  end.

Lemma occ_play_reach l s s' : reach s -> play s l = Some s' -> reach s'.
Proof.
  revert s. induction l as [|o l IH]; simpl; intros s Hs; [by intros [= <-]|].
  case_decide as Hen; [|done]. destruct (exec o s) as [[r s1]|] eqn:Hrun; [|done].
  apply IH. by eapply reach_step.
Qed.
