(* ===== verification/OccupancyTheorems.v ===== *)
(** * Virtual address occupancy: theorems *)

From stdpp Require Import sorting.
From S2P Require Import Prelude.
From S2P Require Import Occupancy.
From S2P Require Import OccupancyInv.
From S2P Require Import OccupancySystem.

Open Scope Z_scope.

Lemma Placement_new_ok r size align at_ p :
  0 <= size -> Placement_new r size align at_ = Ok p ->
  p = mkPlacement r size align at_ /\ 0 < size /\ 0 < align /\
  (forall st, at_ = Exact st -> (align | st)).
Proof.
  intros Hs. unfold Placement_new. destruct (_ || _) eqn:Hg; [done|].
  repeat (apply orb_false_iff in Hg as [Hg ?]). apply Z.eqb_neq in Hg.
  apply negb_false_iff in H. unfold is_power_of_two in H. apply andb_true_iff in H as [Ha%Z.ltb_lt _].
  destruct at_ as [| |st].
  - intros [= <-]. split_and!; [done|lia|done|done].
  - intros [= <-]. split_and!; [done|lia|done|done].
  - destruct (negb _ || _) eqn:Hst; [done|]. apply orb_false_iff in Hst as [_ Hst%negb_false_iff%Z.eqb_eq].
    intros [= <-]. split_and!; [done|lia|done|]. intros ? [= <-]. by apply Z.mod_divide; [lia|].
Qed.

Definition at_usize (at_ : PlacementAt) : Prop :=
  match at_ with Exact st => 0 <= st <= usize_MAX | _ => True end.

(** ** Pieces *)

(** The pieces run from [a] to [b] without a gap. *)
Fixpoint tiles (a b : Z) (ps : list (Z * Z * Z)) : Prop :=
  match ps with
  | [] => False
  | (lo, hi, _) :: ps =>
      lo = a /\ lo <= hi /\ match ps with [] => hi = b | _ => hi < b /\ tiles (hi + 1) b ps end
  end.

Lemma tiles_cons a b lo hi t ps :
  lo = a -> lo <= hi -> hi < b -> tiles (hi + 1) b ps -> tiles a b ((lo, hi, t) :: ps).
Proof. intros -> Hle Hlt Hps. simpl. split_and!; [done..|]. by destruct ps. Qed.

(** Every address of a piece carries the generation and the piece's ticket. *)
Definition carries (l : list Slot) (gen : Z) (p : Z * Z * Z) : Prop :=
  forall x, p.1.1 <= x <= p.1.2 -> exists r, owner l x = Some (p.2, gen, r).

Definition foreign (l : list Slot) (gen x : Z) : Prop := forall d, owner l x = Some d -> d.1.2 <> gen.

(** The map of a table whose first span ends before [x]. *)
Lemma owner_skip s l x : last s < x -> owner (s :: l) x = owner l x.
Proof. intros Hx. rewrite owner_cons, decide_False; [done|]. unfold holds_addr. lia. Qed.

Lemma owner_early s l x : ordered (s :: l) -> x < start s -> owner (s :: l) x = None.
Proof.
  rewrite ordered_cons. intros ([? ?] & _ & Hlt) Hx. apply owner_None. unfold holds_addr.
  intros (t & [->|Ht]%elem_of_cons & Hh); unfold holds_addr in Hh; [lia|]. specialize (Hlt t Ht). lia.
Qed.

Lemma tiles_from a b ps q : tiles a b ps -> q ∈ ps -> a <= q.1.1.
Proof.
  revert a. induction ps as [|[[lo hi] t] ps IH]; intros a Ht; [done|].
  destruct Ht as (-> & Hle & Ht). intros [->|Hq]%elem_of_cons; simpl; [lia|].
  destruct ps as [|p ps]; [by apply not_elem_of_nil in Hq|]. destruct Ht as [_ Ht].
  specialize (IH _ Ht Hq). lia.
Qed.

Lemma carries_skip s l gen a b qs :
  last s < a -> tiles a b qs -> Forall (carries l gen) qs -> Forall (carries (s :: l) gen) qs.
Proof.
  rewrite !Forall_forall. intros Hlt Ht Hc q Hq x Hx. pose proof (tiles_from _ _ _ _ Ht Hq).
  rewrite owner_skip by lia. by apply Hc.
Qed.

Lemma foreign_skip s l gen x : last s < x -> foreign l gen x -> foreign (s :: l) gen x.
Proof. intros Hlt Hf. unfold foreign. by rewrite owner_skip. Qed.

Lemma pieces_from_spec gen la l at_ acc :
  ordered l -> at_ <= la ->
  match pieces_from gen la at_ l acc with
  | Ok ps => exists qs, ps = acc ++ qs /\ tiles at_ la qs /\ Forall (carries l gen) qs
  | Err e => e = NoRegion /\ exists x, at_ <= x <= la /\ foreign l gen x
  end.
Proof.
  revert at_ acc. induction l as [|s l IH]; intros at_ acc Hord Hle; simpl.
  { split; [done|]. exists at_. split; [lia|]. by intros d. }
  pose proof Hord as Hord'. apply ordered_cons in Hord' as ([Hs1 Hs2] & Hl & Hlt).
  destruct (Z.ltb_spec (last s) at_) as [Hskip|Hge].
  { specialize (IH at_ acc Hl Hle). destruct (pieces_from gen la at_ l acc) as [ps|e].
    - destruct IH as (qs & -> & Ht & Hc). exists qs. split_and!; [done..|]. by eapply carries_skip.
    - destruct IH as (-> & x & Hx & Hf). split; [done|]. exists x. split; [done|].
      apply foreign_skip; [lia|done]. }
  destruct (Z.ltb_spec la (start s)) as [Hout|Hin].
  { split; [done|]. exists at_. split; [lia|]. intros d. by rewrite owner_early by (done || lia). }
  destruct (Z.eqb_spec (id s) gen) as [<-|Hid]; simpl.
  2: { split; [done|]. exists (Z.max at_ (start s)). split; [lia|]. intros d.
       rewrite owner_cons, decide_True by (unfold holds_addr; lia). by intros [= <-]. }
  destruct (Z.ltb_spec at_ (start s)) as [Hgap|Hfrom].
  { split; [done|]. exists at_. split; [lia|]. intros d. by rewrite owner_early by (done || lia). }
  assert (Hfirst : carries (s :: l) (id s) (at_, Z.min (last s) la, ticket s)).
  { intros x Hx. simpl in *. exists (region s). by rewrite owner_cons, decide_True by (unfold holds_addr; lia). }
  destruct (Z.eqb_spec (Z.min (last s) la) la) as [Hend|Hmore].
  { eexists. split; [done|]. simpl. split; [lia|]. by constructor. }
  specialize (IH (Z.min (last s) la + 1) (acc ++ [(at_, Z.min (last s) la, ticket s)]) Hl ltac:(lia)).
  destruct (pieces_from _ _ _ l _) as [ps|e].
  - destruct IH as (qs & -> & Ht & Hc). exists ((at_, Z.min (last s) la, ticket s) :: qs).
    split_and!; [by rewrite <- app_assoc|apply tiles_cons; (done || lia)|]. constructor; [done|].
    eapply carries_skip; [|done|done]. lia.
  - destruct IH as (-> & x & Hx & Hf). split; [done|]. exists x. split; [lia|].
    apply foreign_skip; [lia|done].
Qed.

(** ** Claims *)

(** C10: [reserve] of a placement accepted by [Placement::new], in any state
    the operations can reach: it never panics.  When it answers, the start is
    the one the policy asks for (the least aligned fit of the region's window
    for [Lowest], the greatest fit for [Highest], the given address for
    [Exact]), the whole span was vacant, and the generation is new.  When it
    fails and neither an allocation nor the generation counter is to blame, a
    dynamic placement has no window or no fit, and an exact one overflows or
    overlaps; the table is unchanged. *)
Theorem reserve_places r size align at_ p s :
  reach s -> 0 <= size <= usize_MAX -> at_usize at_ -> Placement_new r size align at_ = Ok p ->
  exists x s', reserve p s = Some (x, s') /\
    match x with
    | Ok (a, gen) => chosen p s a /\ vacant (slots s) a (a + size - 1) /\
        0 <= a /\ a + size - 1 <= usize_MAX /\ has_id gen s = false /\
        forall y, owner (slots s') y =
          if decide (a <= y <= a + size - 1) then Some (0, gen, r) else owner (slots s) y
    | Err e => slots s' = slots s /\
        (heap s = [] -> next_id (next_gen s) <> None ->
         unplaceable p s e \/
         e = NoRegion /\ exists a, chosen p s a /\
           (usize_MAX < a + size - 1 \/ ~ vacant (slots s) a (a + size - 1)))
    end.
Proof.
  intros Hr Hs Hat Hp. pose proof (reach_inv s Hr) as HI.
  destruct (Placement_new_ok _ _ _ _ _ (proj1 Hs) Hp) as (-> & Hs0 & Ha0 & _).
  assert (Hen : enabled (Reserve (mkPlacement r size align at_)) s).
  { simpl. split; [lia|]. split; [done|]. by destruct at_. }
  destruct (reserve_run _ s HI Hen) as (x & s' & Hrun & Hx).
  destruct (reserve_op _ s HI Hen) as (x' & s'' & Hrun' & _ & _ & Hx').
  simpl in Hrun'. unfold mbind, M_bind in Hrun'. rewrite Hrun in Hrun'. unfold mret, M_ret in Hrun'.
  exists x, s'. split; [done|]. destruct x as [[a gen]|e]; simplify_eq; simpl in *.
  - destruct Hx as (Hc & H1 & H2 & -> & _ & Hv & _). split_and!; try done; [|apply Hx'].
    apply any_false, Forall_forall. intros t Ht. destruct (oi_issued _ HI t Ht). apply Z.eqb_neq. lia.
  - destruct Hx as [(_ & Es & _) Hx]. split; [done|]. intros Hh Hn.
    destruct Hx as [[_ [?|?]]|[?|?]]; [done|done|by left|by right].
Qed.

Definition example_boot : Occupancy := set_heap [] boot.

Lemma example_boot_reach : reach example_boot.
Proof. apply (reach_boot []). Qed.

(** The normal window attached, and one page taken at its start. *)
Definition example_ops : list op :=
  [Attach Normal 4096 16383; Reserve (mkPlacement Normal 4096 4096 Lowest)].
Definition example_state : Occupancy :=
  mkOcc [mkWindow Normal 4096 16383] [mkSlot 4096 8191 0 1 Normal] [] 2 1 [].

Lemma example_reach : reach example_state.
Proof. eapply (occ_play_reach example_ops); [apply example_boot_reach|]. by vm_compute. Qed.

Lemma reserve_places_witness :
  exists x s', reserve (mkPlacement Normal 4096 4096 Lowest) example_state = Some (x, s') /\
    x = Ok (8192, 2) /\ has_id 2 example_state = false.
Proof.
  destruct (reserve_places Normal 4096 4096 Lowest (mkPlacement Normal 4096 4096 Lowest) example_state
    example_reach) as (x & s' & Hrun & Hx).
  - rewrite usize_MAX_eq. lia.
  - exact I.
  - reflexivity.
  - exists x, s'. split; [exact Hrun|]. vm_compute in Hrun. simplify_eq. split; [done|apply Hx].
Defined.

(** C9: the table implements an address map.  In any reachable state every
    operation returns (no panic), keeps the state reachable, and changes the
    map exactly as [effect] says: a reservation fills a vacant span with a new
    generation, a split renames the two halves of one live span, a release
    empties one live span, a retirement tickets the live addresses of one
    generation with an unused ticket, a reclaim empties the addresses of one
    ticket; any other operation and any error leaves the map alone. *)
Theorem occupancy_refines s o :
  reach s -> enabled o s ->
  exists r s', exec o s = Some (r, s') /\ reach s' /\
    match r with
    | Ok a => admits o a (owner (slots s)) s /\
        forall x, owner (slots s') x = effect o a (owner (slots s)) x
    | Err _ => slots s' = slots s
    end.
Proof.
  intros Hr Hen. destruct (exec_holds o s (reach_inv s Hr) Hen) as (r & s' & Hrun & _ & _ & Hx).
  exists r, s'. split; [done|]. split; [by eapply reach_step|done].
Qed.

Lemma occupancy_refines_witness :
  exists r s', exec (Retire 4096 8191 1) example_state = Some (r, s') /\ reach s'.
Proof.
  destruct (occupancy_refines example_state (Retire 4096 8191 1) example_reach) as (r & s' & Hrun & Hr & _).
  - simpl. rewrite usize_MAX_eq. lia.
  - by exists r, s'.
Defined.

(** Steps of the occupancy machine, any number. *)
Inductive steps : Occupancy -> Occupancy -> Prop :=
| steps_refl s : steps s s
| steps_cons s o r s1 s' : enabled o s -> exec o s = Some (r, s1) -> steps s1 s' -> steps s s'.

Definition gone (gen : Z) (s : Occupancy) : Prop := gen < next_gen s /\ forall x, foreign (slots s) gen x.

Lemma effect_foreign o a own gen s x :
  admits o a own s -> gen < next_gen s -> (forall y d, own y = Some d -> d.1.2 <> gen) ->
  forall d, effect o a own x = Some d -> d.1.2 <> gen.
Proof.
  intros Had Hg Hf d. destruct o, a; simpl in *; try (by apply Hf).
  - case_decide; [|by apply Hf]. intros [= <-]. simpl. lia.
  - destruct Had as (_ & _ & -> & -> & _). repeat case_decide; [| |by apply Hf];
      intros (d' & Hd & ->)%fmap_Some; simpl; lia.
  - destruct b; [|by apply Hf]. case_decide; [done|by apply Hf].
  - intros (d' & Hd & ->)%fmap_Some. unfold retired_tag. case_match; simpl; by eapply Hf.
  - destruct (own x) as [d'|] eqn:E; [|done]. case_match; [done|]. intros [= <-]. by eapply Hf.
  - destruct (own x) as [d'|] eqn:E; [|done]. case_match; [done|]. intros [= <-]. by eapply Hf.
  - destruct (own x) as [d'|] eqn:E; [|done]. case_match; [done|]. intros [= <-]. by eapply Hf.
  - destruct (own x) as [d'|] eqn:E; [|done]. case_match; [done|]. intros [= <-]. by eapply Hf.
  - destruct (own x) as [d'|] eqn:E; [|done]. case_match; [done|]. intros [= <-]. by eapply Hf.
Qed.

Lemma gone_step s o r s' gen :
  OInv s -> enabled o s -> exec o s = Some (r, s') -> gone gen s -> OInv s' /\ gone gen s'.
Proof.
  intros HI Hen Hrun [Hg Hf]. destruct (exec_holds o s HI Hen) as (r' & s'' & Hrun' & HI' & Hle & Hx).
  simplify_eq. split; [done|]. split; [lia|]. intros x d. destruct r as [a|e]; [|rewrite Hx; apply Hf].
  destruct Hx as [Had Hx]. rewrite Hx. by eapply effect_foreign.
Qed.

Lemma has_id_foreign gen s : ordered (slots s) ->
  has_id gen s = false <-> forall x, foreign (slots s) gen x.
Proof.
  intros Ho. unfold has_id. rewrite any_false, Forall_forall. split.
  - intros H x d (t & Ht & _ & <-)%owner_inv. simpl. apply Z.eqb_neq. by apply H.
  - intros H t Ht. apply Z.eqb_neq.
    assert (Hwf : wf_slot t). { destruct Ho as [_ Hwf]. rewrite Forall_forall in Hwf. by apply Hwf. }
    destruct Hwf. apply (H (start t) (tag t)). apply owner_intro; [done|done|]. unfold holds_addr. lia.
Qed.

(** A generation that was handed out and has left the table never comes
    back: after any further operations a credential of it still matches no
    span, so it can release, split or retire nothing. *)
Theorem generation_never_returns s s' gen :
  reach s -> gen < next_gen s -> has_id gen s = false -> steps s s' ->
  has_id gen s' = false /\
  forall st la, release st la gen s' = Some (Ok false, s').
Proof.
  intros Hr Hg Hid Hst. pose proof (reach_inv s Hr) as HI.
  assert (Hgone : gone gen s) by (split; [done|apply has_id_foreign; [apply HI|done]]). clear Hr Hg Hid.
  assert (H : OInv s' /\ gone gen s').
  { induction Hst as [|s o r s1 s' Hen Hrun _ IH]; [done|].
    destruct (gone_step s o r s1 gen HI Hen Hrun Hgone). by apply IH. }
  destruct H as [HI' [_ Hf]]. assert (Hid : has_id gen s' = false) by (apply has_id_foreign; [apply HI'|done]).
  split; [done|]. intros st la. unfold release. munfold.
  destruct (position _ _) as [i|] eqn:Hp; [|done]. exfalso.
  destruct (live_slot _ _ _ _ _ Hp) as (r & Hi & _). apply list_elem_of_lookup_2 in Hi.
  unfold has_id in Hid. rewrite any_false, Forall_forall in Hid. specialize (Hid _ Hi). simpl in Hid. lia.
Qed.

Definition example_freed : Occupancy := mkOcc [mkWindow Normal 4096 16383] [] [] 2 1 [].

Lemma generation_never_returns_witness :
  exists s', steps example_freed s' /\ slots s' <> [] /\ has_id 1 s' = false.
Proof.
  assert (Hst : steps example_freed (set_gen 3 (set_slots [mkSlot 4096 8191 0 2 Normal] example_freed))).
  { eapply (steps_cons _ (Reserve (mkPlacement Normal 4096 4096 Lowest))); [simpl; rewrite usize_MAX_eq; lia| |apply steps_refl].
    by vm_compute. }
  eexists. split; [exact Hst|]. split; [done|].
  apply (generation_never_returns example_freed _ 1); [|reflexivity|reflexivity|exact Hst].
  eapply (occ_play_reach [Release 4096 8191 1]); [apply example_reach|]. by vm_compute.
Defined.

(** Retiring a range of a generation and reclaiming the ticket frees
    exactly the addresses of the range that the generation held live, however
    many spans they were in; between the two, none of them can be reserved. *)
Theorem retire_reclaim st la gen s :
  reach s -> enabled (Retire st la gen) s ->
  exists tk s1 s2, retire st la gen s = Some (Ok tk, s1) /\ reclaim tk s1 = Some (Ok tt, s2) /\
    (forall x, owner (slots s1) x = None <-> owner (slots s) x = None) /\
    forall x, owner (slots s2) x =
      match owner (slots s) x with
      | Some d => if (d.1.1 =? 0) && (d.1.2 =? gen) && (st <=? x) && (x <=? la) then None else Some d
      | None => None
      end.
Proof.
  intros Hr Hen. pose proof (reach_inv s Hr) as HI. pose proof Hen as (Hst & Hla & Ht).
  pose proof (retire_run st la gen s Ht) as Hrun.
  destruct (retire_op st la gen s HI Hen) as (r & s1 & Hrun1 & HI1 & _ & Hx).
  simpl in Hrun1. unfold mbind, M_bind, mret, M_ret in Hrun1. rewrite Hrun in Hrun1. simplify_eq.
  destruct Hx as [[_ Hfresh] Hown]. simpl in Hown.
  set (s1 := set_slots _ _) in *. destruct (reclaim_op (next_ticket s) s1 HI1) as (r & s2 & Hrun2 & _ & _ & Hx).
  assert (Hok : exists s2', reclaim (next_ticket s) s1 = Some (Ok tt, s2')) by (unfold reclaim; munfold; by eexists).
  destruct Hok as [s2' Hok]. simpl in Hrun2. unfold mbind, M_bind, mret, M_ret in Hrun2. rewrite Hok in Hrun2. simplify_eq.
  destruct Hx as [_ Hown2]. exists (next_ticket s), s1, s2. split_and!; [done|done| |].
  - intros x. rewrite Hown. destruct (owner (slots s) x); simpl; done.
  - intros x. rewrite Hown2. simpl. rewrite Hown. destruct (owner (slots s) x) as [d|] eqn:E; simpl; [|done].
    specialize (Hfresh x d E). unfold retired_tag. destruct (_ && _); simpl.
    + by rewrite Z.eqb_refl.
    + by apply Z.eqb_neq in Hfresh as ->.
Qed.

Lemma retire_reclaim_witness :
  exists tk s1 s2, retire 4096 8191 1 example_state = Some (Ok tk, s1) /\ reclaim tk s1 = Some (Ok tt, s2) /\
    owner (slots example_state) 5000 = Some (0, 1, Normal) /\ owner (slots s2) 5000 = None.
Proof.
  destruct (retire_reclaim 4096 8191 1 example_state example_reach) as (tk & s1 & s2 & H1 & H2 & _ & H3).
  - simpl. rewrite usize_MAX_eq. lia.
  - exists tk, s1, s2. split_and!; [done|done|reflexivity|]. rewrite H3. reflexivity.
Defined.

(** [pieces] of a range answers exactly when every address of the range
    belongs to the generation, live or retired; the pieces then run through
    the range in order without a gap, each with the ticket its addresses
    carry. *)
Theorem pieces_cover st la gen s :
  reach s -> heap s = [] -> st <= la ->
  exists x, pieces st la gen s = Some (x, s) /\
    match x with
    | Ok ps => tiles st la ps /\ Forall (carries (slots s) gen) ps
    | Err e => e = NoRegion /\ exists y, st <= y <= la /\ foreign (slots s) gen y
    end.
Proof.
  intros Hr Hh Hle. pose proof (pieces_from_spec gen la (slots s) st [] (oi_ordered _ (reach_inv s Hr)) Hle) as Hp.
  unfold pieces, try_reserve. munfold. rewrite Hh. eexists. split; [reflexivity|].
  destruct (pieces_from _ _ _ _ _) as [ps|e]; [|done]. by destruct Hp as (qs & -> & ? & ?).
Qed.

Lemma pieces_cover_witness :
  pieces 4096 8191 1 example_state = Some (Ok [(4096, 8191, 0)], example_state) /\
  tiles 4096 8191 [(4096, 8191, 0)].
Proof.
  destruct (pieces_cover 4096 8191 1 example_state example_reach) as (x & Hrun & Hx); [reflexivity|lia|].
  assert (x = Ok [(4096, 8191, 0)]) as -> by (vm_compute in Hrun; by simplify_eq).
  split; [exact Hrun|apply Hx].
Defined.
