(* ===== verification/Spans.v ===== *)
(** * Tables of disjoint address spans

    A list of spans in ascending order, none empty and no two overlapping,
    stands for a partial map from addresses to the tags of the spans.  The
    interface [Spanned] says how a record is such a span; rewriting every span
    of a table into pieces of itself rewrites the map pointwise. *)

From stdpp Require Import sorting.
From S2P Require Import Prelude.

Open Scope Z_scope.

Class Spanned (A B : Type) := { s_lo : A -> Z; s_hi : A -> Z; s_tag : A -> B }.

Section spans.
Context {A B : Type} `{Spanned A B}.

Definition on_span (x : Z) (a : A) : Prop := s_lo a <= x <= s_hi a.

#[global] Instance on_span_dec x a : Decision (on_span x a).
Proof. unfold on_span. apply _. Defined.

Definition span_ok (a : A) : Prop := 0 <= s_lo a <= s_hi a /\ s_hi a <= usize_MAX.

Definition spans_sorted (l : list A) : Prop :=
  StronglySorted (fun a b => s_hi a < s_lo b) l /\ Forall span_ok l.

(** The tag of the span that covers an address. *)
Definition span_at (l : list A) (x : Z) : option B :=
  s_tag <$> List.find (fun a => bool_decide (on_span x a)) l.

Lemma spans_sorted_nil : spans_sorted [].
Proof. split; constructor. Qed.

Lemma spans_sorted_cons a l :
  spans_sorted (a :: l) <-> span_ok a /\ spans_sorted l /\ forall b, b ∈ l -> s_hi a < s_lo b.
Proof.
  unfold spans_sorted. rewrite Forall_cons. split.
  - intros [[H1 H2]%StronglySorted_inv [H3 H4]]. rewrite Forall_forall in H2. done.
  - intros (H1 & [H2 H3] & H4). split; [|done]. constructor; [done|]. by apply Forall_forall.
Qed.

Lemma spans_sorted_app l1 l2 :
  spans_sorted (l1 ++ l2) <-> spans_sorted l1 /\ spans_sorted l2 /\
  forall a b, a ∈ l1 -> b ∈ l2 -> s_hi a < s_lo b.
Proof.
  unfold spans_sorted. rewrite Forall_app, StronglySorted_app. naive_solver.
Qed.

Lemma span_at_cons a l x :
  span_at (a :: l) x = if decide (on_span x a) then Some (s_tag a) else span_at l x.
Proof. unfold span_at. simpl. case_bool_decide; by case_decide. Qed.

Lemma span_at_app l1 l2 x :
  span_at (l1 ++ l2) x = match span_at l1 x with Some d => Some d | None => span_at l2 x end.
Proof.
  induction l1 as [|a l1 IH]; [done|]. simpl. rewrite !span_at_cons, IH. by case_decide.
Qed.

Lemma span_at_inv l x d : span_at l x = Some d -> exists a, a ∈ l /\ on_span x a /\ s_tag a = d.
Proof.
  induction l as [|a l IH]; [done|]. rewrite span_at_cons. case_decide.
  - intros [= <-]. exists a. split; [by left|done].
  - intros (b & ? & ?)%IH. exists b. split; [by right|done].
Qed.

Lemma span_at_None l x : span_at l x = None <-> forall a, a ∈ l -> ~ on_span x a.
Proof.
  induction l as [|a l IH]; [split; [intros _ a Ha; by apply not_elem_of_nil in Ha|done]|].
  rewrite span_at_cons. case_decide as Hx.
  - split; [done|]. intros Hn. exfalso. apply (Hn a); [by left|done].
  - rewrite IH. split.
  + intros Hn b [->|Hb]%elem_of_cons; [done|by apply Hn].
  + intros Hn b Hb. apply Hn. by right.
Qed.

Lemma span_at_Some l x a : spans_sorted l -> a ∈ l -> on_span x a -> span_at l x = Some (s_tag a).
Proof.
  induction l as [|b l IH]; [intros _ Ha; by apply not_elem_of_nil in Ha|].
  rewrite spans_sorted_cons, span_at_cons. intros (Hb & Hl & Hlt) Ha Hx.
  apply elem_of_cons in Ha as [->|Ha]; [by rewrite decide_True|].
  rewrite decide_False; [by apply IH|]. specialize (Hlt a Ha). unfold on_span in *. lia.
Qed.

Lemma span_at_early l x : (forall a, a ∈ l -> x < s_lo a) -> span_at l x = None.
Proof. intros Hl. apply span_at_None. intros a Ha. specialize (Hl a Ha). unfold on_span. lia. Qed.

Lemma spans_sorted_elem l a : spans_sorted l -> a ∈ l -> span_ok a.
Proof. intros [_ Hl]. rewrite Forall_forall in Hl. apply Hl. Qed.

(** ** Rewriting every span into pieces of itself *)

Section rewrite_spans.
Context (f : A -> list A) (P : A -> Prop).
Hypothesis Hf : forall a, P a -> span_ok a -> spans_sorted (f a) /\
  forall b, b ∈ f a -> s_lo a <= s_lo b /\ s_hi b <= s_hi a.

Lemma elem_of_flat_map b l : b ∈ flat_map f l <-> exists a, a ∈ l /\ b ∈ f a.
Proof using. rewrite !list_elem_of_In, in_flat_map. by setoid_rewrite list_elem_of_In. Qed.

Lemma flat_map_after a l c :
  Forall P l -> spans_sorted l -> (forall b, b ∈ l -> s_hi a < s_lo b) -> c ∈ flat_map f l -> s_hi a < s_lo c.
Proof using Hf.
  intros HP Hl Hlt (d & Hd & Hc)%elem_of_flat_map. rewrite Forall_forall in HP.
  destruct (Hf d (HP d Hd) (spans_sorted_elem _ _ Hl Hd)) as [_ Hd'].
  destruct (Hd' c Hc). specialize (Hlt d Hd). lia.
Qed.

Lemma flat_map_sorted l : Forall P l -> spans_sorted l -> spans_sorted (flat_map f l).
Proof using Hf.
  induction l as [|a l IH]; [done|]. rewrite Forall_cons, spans_sorted_cons. intros [Pa Pl] (Ha & Hl & Hlt). simpl.
  apply spans_sorted_app. split_and!; [by apply Hf|by apply IH|].
  intros b c Hb Hc. destruct (Hf a Pa Ha) as [_ Ha']. destruct (Ha' b Hb).
  pose proof (flat_map_after a l c Pl Hl Hlt Hc). lia.
Qed.

Lemma flat_map_at g l x :
  (forall a, P a -> span_ok a ->
   span_at (f a) x = if decide (on_span x a) then g (s_tag a) else None) ->
  Forall P l -> spans_sorted l -> span_at (flat_map f l) x = span_at l x ≫= g.
Proof using Hf.
  intros Hg. induction l as [|a l IH]; [done|]. rewrite Forall_cons, spans_sorted_cons.
  intros [Pa Pl] (Ha & Hl & Hlt). simpl.
  rewrite span_at_app, span_at_cons, Hg by done. case_decide as Hx; simpl; [|by rewrite IH].
  destruct (g (s_tag a)) as [d|]; [done|]. apply span_at_early.
  intros c Hc. pose proof (flat_map_after a l c Pl Hl Hlt Hc). unfold on_span in Hx. lia.
Qed.
End rewrite_spans.
End spans.
