(* ===== verification/Active.v ===== *)
(** * Virtual addresses, access rights and active ranges

    [core/memory/address/virt.rs], [nest/view/access.rs] and
    [nest/view/active.rs]: the canonical form of virtual addresses, the RWX
    bits and their page-table form, and the lists of active ranges of a view,
    with the ceiling and the current rights of each. *)

From S2P Require Import Prelude.
From S2P Require Import Spans.
From S2P Require Import Occupancy.

Open Scope Z_scope.

(** ** [VirtAddr] *)

Definition signed (x : Z) : Z := if x <? 2 ^ 63 then x else x - 2 ^ 64.
Definition wrap64 (x : Z) : Z := x mod 2 ^ 64.

(** [bit] is the split bit of the paging mode: 38, 47 or 56. *)
Definition VirtAddr_from_raw (bit addr : Z) : Z :=
  wrap64 (Z.shiftr (signed (wrap64 (Z.shiftl (signed addr) (63 - bit)))) (63 - bit)).

Definition VirtAddr_vpn (addr level : Z) : Z :=
  Z.land (Z.shiftr addr (PAGE_SHIFT + level * 9)) 511.

Definition VirtAddr_offset (addr : Z) : Z := Z.land addr (PAGE_SIZE - 1).
Definition VirtAddr_is_user (bit addr : Z) : bool := Z.land (Z.shiftr addr bit) 1 =? 0.
Definition VirtAddr_page_align (addr : Z) : Z := Z.land addr (2 ^ 64 - 1 - (PAGE_SIZE - 1)).

(** ** [Access] *)

Definition READ : Z := 1.
Definition WRITE : Z := 2.
Definition EXECUTE : Z := 4.
Definition WIRE_MASK : Z := 14.

Definition Access_contains (a b : Z) : bool := Z.land a b =? b.

Definition Access_from_wire (flags : Z) : option Z :=
  if negb (Z.land flags (2 ^ 64 - 1 - WIRE_MASK) =? 0) then None
  else
    let bits := Z.shiftr flags 1 in
    if Z.land bits 7 =? bits then Some bits else None.

Definition Access_from_pte (flags : Z) : Z := Z.land (Z.shiftr flags 1) 7.
Definition Access_to_pte (a : Z) : Z := Z.land (Z.shiftl a 1) 255.
Definition is_leaf_set (a : Z) : bool :=
  negb (a =? 0) && negb (Access_contains a WRITE && negb (Access_contains a READ)).

(** ** [ActiveRange] *)

Record ActiveRange := mkRange { a_start : Z; a_size : Z; a_ceiling : Z; a_current : Z }.

Definition ActiveRange_new (st size ceiling current : Z) : result NestError ActiveRange :=
  if size =? 0 then Err NNotAligned
  else if negb (VirtAddr_offset st =? 0) || negb (size mod PAGE_SIZE =? 0)
          || negb (Access_contains ceiling current) || negb (is_leaf_set current)
  then Err NNotAligned
  else Ok (mkRange st size ceiling current).

Definition a_end (r : ActiveRange) : Z := saturating_add (a_start r) (a_size r - 1).
Definition a_contains (r : ActiveRange) (address : Z) : bool :=
  (a_start r <=? address) && (address <=? a_end r).
Definition a_overlaps (lo hi : Z) (r : ActiveRange) : bool := (a_start r <=? hi) && (lo <=? a_end r).
Definition a_intersection (r : ActiveRange) (lo hi : Z) : option (Z * Z) :=
  let lo := Z.max (a_start r) lo in
  let hi := Z.min (a_end r) hi in
  if lo <=? hi then Some (lo, hi) else None.

(** [ActiveRange::cover]: the loop with the address reached so far. *)
Fixpoint cover (ranges : list ActiveRange) (at_ hi : Z) : bool :=
  match ranges with
  | [] => false
  | r :: ranges =>
      if a_end r <? at_ then cover ranges at_ hi
      else if at_ <? a_start r then false
      else if hi <=? a_end r then true
      else cover ranges (a_end r + 1) hi
  end.

Definition range_at (ranges : list ActiveRange) (address : Z) : option ActiveRange :=
  List.find (fun r => a_contains r address) ranges.
Definition current_at (ranges : list ActiveRange) (address : Z) : option Z :=
  a_current <$> range_at ranges address.

Section ranges.
Context (bit : Z).

(** The parts of [r] outside [lo, hi], the middle part (if any) between them. *)
Definition part (r : ActiveRange) (lo hi : Z) (mid : option ActiveRange) : list ActiveRange :=
  (if a_start r <? lo
   then [mkRange (a_start r) (lo - a_start r) (a_ceiling r) (a_current r)] else []) ++
  match mid with Some m => [m] | None => [] end ++
  (if hi <? a_end r
   then [mkRange (VirtAddr_from_raw bit (hi + 1)) (a_end r - (hi + 1) + 1) (a_ceiling r) (a_current r)]
   else []).

Definition middle (r : ActiveRange) (lo hi ceiling current : Z) : ActiveRange :=
  let part_lo := Z.max (a_start r) lo in
  mkRange (VirtAddr_from_raw bit part_lo) (Z.min (a_end r) hi - part_lo + 1) ceiling current.

Definition split_range (lo hi : Z) (access : option Z) (r : ActiveRange) : list ActiveRange :=
  if negb (a_overlaps lo hi r) then [r]
  else part r lo hi (middle r lo hi (a_ceiling r) <$> access).

(** [grow] is the outcome of reserving the output. *)
Definition ActiveRange_split (grow : bool) (ranges : list ActiveRange) (lo hi : Z) (access : option Z) :
  result NestError (list ActiveRange) :=
  if grow then Ok (flat_map (split_range lo hi access) ranges) else Err NOutOfMemory.

Fixpoint narrow_loop (ranges : list ActiveRange) (lo hi ceiling : Z) : result NestError (list ActiveRange) :=
  match ranges with
  | [] => Ok []
  | r :: ranges =>
  if negb (a_overlaps lo hi r) then
  next ← narrow_loop ranges lo hi ceiling; Ok (r :: next)
  else if negb (Access_contains (a_ceiling r) ceiling) then Err WidenDenied
  else
  let current := Z.land (a_current r) ceiling in
  if negb (is_leaf_set current) then Err WidenDenied
  else
    next ← narrow_loop ranges lo hi ceiling;
    Ok (part r lo hi (Some (middle r lo hi ceiling current)) ++ next)
  end.

Definition ActiveRange_narrow (grow : bool) (ranges : list ActiveRange) (lo hi ceiling : Z) :
  result NestError (list ActiveRange) :=
  if grow then narrow_loop ranges lo hi ceiling else Err NOutOfMemory.
End ranges.

Example split_demo :
  ActiveRange_split 38 true [mkRange 4096 12288 7 3] 8192 12287 None =
  Ok [mkRange 4096 4096 7 3; mkRange 12288 4096 7 3].
Proof. vm_compute. reflexivity. Qed.

Example narrow_demo :
  ActiveRange_narrow 38 true [mkRange 4096 12288 7 3] 8192 12287 1 =
  Ok [mkRange 4096 4096 7 3; mkRange 8192 4096 1 1; mkRange 12288 4096 7 3].
Proof. vm_compute. reflexivity. Qed.
