(* ===== verification/ActiveInv.v ===== *)
(** * Active ranges: what splitting and narrowing do to the rights map *)

From stdpp Require Import sorting.
From S2P Require Import Prelude.
From S2P Require Import Spans.
From S2P Require Import Occupancy.
From S2P Require Import Active.

Open Scope Z_scope.

#[global] Instance range_spanned : Spanned ActiveRange (Z * Z) :=
  { s_lo := a_start; s_hi := a_end; s_tag := fun r => (a_ceiling r, a_current r) }.

(** ** Canonical addresses *)

(** Both ends in the lower or both in the upper half. *)
Definition one_half (bit lo hi : Z) : Prop := hi < 2 ^ bit \/ 2 ^ 64 - 2 ^ bit <= lo.

Definition canonical (bit x : Z) : Prop := 0 <= x < 2 ^ 64 /\ one_half bit x x.

Definition good_bit (bit : Z) : Prop := 12 <= bit <= 62.

Lemma pow_split bit : good_bit bit -> 2 ^ bit * 2 ^ (63 - bit) = 2 ^ 63 /\ 0 < 2 ^ bit <= 2 ^ 62 /\ 0 < 2 ^ (63 - bit).
Proof.
  unfold good_bit. intros Hb. rewrite <- Z.pow_add_r by lia. split; [f_equal; lia|].
  pose proof (Z.pow_pos_nonneg 2 bit). pose proof (Z.pow_pos_nonneg 2 (63 - bit)).
  pose proof (Z.pow_le_mono_r 2 bit 62). lia.
Qed.

Lemma from_raw_canonical bit x : good_bit bit -> canonical bit x -> VirtAddr_from_raw bit x = x.
Proof.
  intros Hb [Hx Hh]. destruct (pow_split bit Hb) as (Hp & Hb1 & Hk). unfold VirtAddr_from_raw, signed, wrap64.
  rewrite Z.shiftl_mul_pow2, Z.shiftr_div_pow2 by (unfold good_bit in Hb; lia).
  set (k := 2 ^ (63 - bit)) in *. change (2 ^ 64) with 18446744073709551616 in *.
  change (2 ^ 63) with 9223372036854775808 in *. change (2 ^ 62) with 4611686018427387904 in *.
  unfold one_half in Hh. change (2 ^ 64) with 18446744073709551616 in *. destruct Hh as [Hl|Hh].
  - rewrite (proj2 (Z.ltb_lt x _)) by lia. rewrite (Z.mod_small (x * k)) by nia.
    rewrite (proj2 (Z.ltb_lt (x * k) _)) by nia. rewrite Z.div_mul by lia. apply Z.mod_small. lia.
  - rewrite (proj2 (Z.ltb_ge x _)) by lia. set (y := x - _).
    assert (Hy : - 2 ^ bit <= y < 0) by (unfold y; lia).
    assert (Hyk : (y * k) mod 18446744073709551616 = y * k + 18446744073709551616).
    { symmetry. apply (Z.mod_unique _ _ (-1)); [left; nia|lia]. }
    rewrite Hyk. rewrite (proj2 (Z.ltb_ge _ _)) by nia.
    replace (y * k + 18446744073709551616 - 18446744073709551616) with (y * k) by lia.
    rewrite Z.div_mul by lia. symmetry. apply (Z.mod_unique _ _ (-1)); [left; lia|unfold y; lia].
Qed.

(** ** Well-formed ranges *)

Record range_ok (bit : Z) (r : ActiveRange) : Prop := {
  ro_start : 0 <= a_start r;
  ro_size : 0 < a_size r;
  ro_end : a_start r + a_size r - 1 <= usize_MAX;
  ro_half : one_half bit (a_start r) (a_start r + a_size r - 1);
  ro_rights : Access_contains (a_ceiling r) (a_current r) = true /\ is_leaf_set (a_current r) = true
}.

Definition ranges_ok (bit : Z) (l : list ActiveRange) : Prop :=
  spans_sorted l /\ Forall (range_ok bit) l.

Lemma a_end_eq bit r : range_ok bit r -> a_end r = a_start r + a_size r - 1.
Proof. intros [? ? ? _ _]. unfold a_end, saturating_add. lia. Qed.

Lemma range_span_ok bit r : range_ok bit r -> span_ok r.
Proof.
  intros Hr. pose proof (a_end_eq bit r Hr) as He. destruct Hr. unfold span_ok. simpl. rewrite He. lia.
Qed.

Lemma a_contains_true r x : a_contains r x = true <-> on_span x r.
Proof. unfold a_contains, on_span. simpl. rewrite andb_true_iff, !Z.leb_le. done. Qed.

Lemma current_at_span l x : current_at l x = snd <$> span_at l x.
Proof.
  unfold current_at, range_at, span_at. induction l as [|r l IH]; simpl; [done|].
  destruct (a_contains r x) eqn:Hc.
  - apply a_contains_true in Hc. by rewrite bool_decide_true.
  - rewrite bool_decide_false; [done|]. intros Hx%a_contains_true. congruence.
Qed.

(** A piece of a range: narrower bounds inside it, rights of its own. *)
Lemma piece_ok bit r lo hi c a :
  good_bit bit -> range_ok bit r -> a_start r <= lo <= hi -> hi <= a_end r ->
  Access_contains c a = true -> is_leaf_set a = true ->
  VirtAddr_from_raw bit lo = lo /\
  range_ok bit (mkRange lo (hi - lo + 1) c a) /\ a_end (mkRange lo (hi - lo + 1) c a) = hi.
Proof.
  intros Hb Hr Hlo Hhi Hc Ha. rewrite (a_end_eq bit r Hr) in Hhi. destruct Hr as [H1 H2 H3 H4 H5].
  rewrite usize_MAX_eq in H3.
  assert (Hok : range_ok bit (mkRange lo (hi - lo + 1) c a)).
  { split; simpl; [lia|lia|rewrite usize_MAX_eq; lia| |done]. unfold one_half in *. lia. }
  split_and!; [|done|].
  - apply from_raw_canonical; [done|]. split; [lia|]. unfold one_half in *. lia.
  - rewrite (a_end_eq bit _ Hok). simpl. lia.
Qed.

(** The right a middle part has, when there is one. *)
Definition mid_ok (bit : Z) (r : ActiveRange) (lo hi : Z) (mid : option ActiveRange) : Prop :=
  match mid with
  | None => True
  | Some m => exists c a, m = middle bit r lo hi c a /\
      Access_contains c a = true /\ is_leaf_set a = true
  end.

Record parts_ok (bit : Z) (r : ActiveRange) (lo hi : Z) (mid : option ActiveRange) (l : list ActiveRange) : Prop := {
  pa_sorted : spans_sorted l;
  pa_ok : Forall (range_ok bit) l;
  pa_in : forall b, b ∈ l -> a_start r <= a_start b /\ a_end b <= a_end r;
  pa_at : forall x, span_at l x =
    if decide (on_span x r) then (if decide (lo <= x <= hi) then s_tag <$> mid else Some (s_tag r)) else None
}.

(** Up to three well-formed pieces, in order. *)
Lemma pieces_sorted bit (l : list ActiveRange) :
  Forall (range_ok bit) l -> StronglySorted (fun a b => a_end a < a_start b) l -> spans_sorted l.
Proof.
  intros Hok Hs. split; [done|]. eapply Forall_impl; [exact Hok|]. intros r. apply range_span_ok.
Qed.

Ltac list_ok := repeat (apply Forall_nil_2 || (apply Forall_cons_2; [done|])).
Ltac sorted_ok :=
  repeat (apply SSorted_nil || (apply SSorted_cons; [|repeat (apply Forall_nil_2 || (apply Forall_cons_2; [simpl; lia|]))])).

Lemma part_parts bit r lo hi mid :
  good_bit bit -> range_ok bit r -> a_overlaps lo hi r = true -> lo <= hi -> mid_ok bit r lo hi mid ->
  parts_ok bit r lo hi mid (part bit r lo hi mid).
Proof.
  intros Hb Hr Hov Hle Hm. unfold a_overlaps in Hov. apply andb_true_iff in Hov as [Ho1%Z.leb_le Ho2%Z.leb_le].
  pose proof (range_span_ok bit r Hr) as [Hs1 Hs2]. simpl in Hs1, Hs2. pose proof (ro_rights _ _ Hr) as [Hc Ha].
  set (pl := if a_start r <? lo then [mkRange (a_start r) (lo - a_start r) (a_ceiling r) (a_current r)] else []).
  assert (Hpl : Forall (fun b => range_ok bit b /\ a_start b = a_start r /\ a_end b = lo - 1 /\ s_tag b = s_tag r) pl /\
                (pl = [] /\ lo <= a_start r \/ a_start r < lo /\ exists b, pl = [b])).
  { unfold pl. destruct (Z.ltb_spec (a_start r) lo); [|auto]. split; [|eauto]. constructor; [|done].
    replace (lo - a_start r) with (lo - 1 - a_start r + 1) by lia.
    destruct (piece_ok bit r (a_start r) (lo - 1) (a_ceiling r) (a_current r)) as (_ & ? & ?); try done; lia. }
  set (pr := if hi <? a_end r then [mkRange (VirtAddr_from_raw bit (hi + 1)) (a_end r - (hi + 1) + 1) (a_ceiling r) (a_current r)] else []).
  assert (Hpr : Forall (fun b => range_ok bit b /\ a_start b = hi + 1 /\ a_end b = a_end r /\ s_tag b = s_tag r) pr /\
                (pr = [] /\ a_end r <= hi \/ hi < a_end r /\ exists b, pr = [b])).
  { unfold pr. destruct (Z.ltb_spec hi (a_end r)); [|auto]. split; [|eauto]. constructor; [|done].
    destruct (piece_ok bit r (hi + 1) (a_end r) (a_ceiling r) (a_current r)) as (-> & ? & ?); try done; lia. }
  assert (Hmid : match mid with
    | None => True
    | Some m => range_ok bit m /\ a_start m = Z.max (a_start r) lo /\ a_end m = Z.min (a_end r) hi end).
  { destruct mid as [m|]; [|done]. destruct Hm as (c & a & -> & Hc' & Ha'). unfold middle.
    destruct (piece_ok bit r (Z.max (a_start r) lo) (Z.min (a_end r) hi) c a) as (-> & ? & ?); try done; lia. }
  unfold part. fold pl pr. clearbody pl pr.
  destruct Hpl as [Fl [[-> Hl]|[Hl [b1 ->]]]], Hpr as [Fr [[-> Hr']|[Hr' [b2 ->]]]], mid as [m|]; simpl;
    rewrite ?Forall_cons in Fl; rewrite ?Forall_cons in Fr; destruct_and?; split;
    try (apply (pieces_sorted bit); [by list_ok|sorted_ok]);
    try (by list_ok);
    try (intros b Hb'; rewrite ?elem_of_cons, elem_of_nil in Hb'; destruct_or?; subst; (done || lia));
    intros x; rewrite ?span_at_cons; unfold on_span in *; simpl in *; repeat case_decide; simpl in *;
    try lia; try congruence; done.
Qed.

(** ** [split] *)

Section active.
Context (bit lo hi : Z).
Hypothesis Hbit : good_bit bit.
Hypothesis Hle : lo <= hi.

(** The effect on one address of replacing the current rights by [access], or
of removing the address. *)
Definition split_tag (x : Z) (access : option Z) (d : Z * Z) : option (Z * Z) :=
  if decide (lo <= x <= hi) then (fun a => (d.1, a)) <$> access else Some d.

Lemma not_overlap_at r x : a_overlaps lo hi r = false -> on_span x r -> ~ (lo <= x <= hi).
Proof using Hle.
  unfold a_overlaps. intros [H|H]%andb_false_iff Hx; unfold on_span in Hx; simpl in Hx; lia.
Qed.

Lemma single_parts r : range_ok bit r -> a_overlaps lo hi r = false -> parts_ok bit r lo hi None [r].
Proof using Hle.
  intros Hr Hov. split.
  - apply (pieces_sorted bit); [by list_ok|sorted_ok].
  - by list_ok.
  - intros b ->%list_elem_of_singleton. lia.
  - intros x. rewrite span_at_cons. case_decide as Hx; [|done]. rewrite decide_False; [done|].
  by eapply not_overlap_at.
Qed.

(** A right that may be given to [r]: inside the ceiling and a leaf right. *)
Definition may_hold (r : ActiveRange) (access : option Z) : Prop :=
  match access with
  | None => True
  | Some a => a_overlaps lo hi r = true -> Access_contains (a_ceiling r) a = true /\ is_leaf_set a = true
  end.

Lemma split_range_parts r access : range_ok bit r -> may_hold r access ->
  exists mid, parts_ok bit r lo hi mid (split_range bit lo hi access r) /\
  (a_overlaps lo hi r = true -> s_tag <$> mid = (fun a => (a_ceiling r, a)) <$> access).
Proof using Hbit Hle.
  intros Hr Hm. unfold split_range. destruct (a_overlaps lo hi r) eqn:Hov; simpl.
  - eexists. split; [apply part_parts; try done|by destruct access].
  destruct access as [a|]; simpl; [|done]. destruct (Hm Hov). by eexists _, _.
  - exists None. split; [by apply single_parts|done].
Qed.

Lemma split_range_at r access x : range_ok bit r -> may_hold r access ->
  span_at (split_range bit lo hi access r) x =
  if decide (on_span x r) then split_tag x access (s_tag r) else None.
Proof using Hbit Hle.
  intros Hr Hm. destruct (split_range_parts r access Hr Hm) as (mid & Hp & Ht).
  rewrite (pa_at _ _ _ _ _ _ Hp). case_decide as Hx; [|done]. unfold split_tag. case_decide as Hd; [|done].
  apply Ht. destruct (a_overlaps lo hi r) eqn:Hov; [done|]. by eapply not_overlap_at in Hov.
Qed.

Definition all_hold (l : list ActiveRange) (access : option Z) : Prop :=
  Forall (fun r => range_ok bit r /\ may_hold r access) l.

Lemma split_ok l access : ranges_ok bit l -> all_hold l access ->
  exists l', ActiveRange_split bit true l lo hi access = Ok l' /\ ranges_ok bit l' /\
  forall x, span_at l' x = span_at l x ≫= split_tag x access.
Proof using Hbit Hle.
  intros [Hs _] Hall. eexists. split; [reflexivity|].
  assert (Hf : forall a, range_ok bit a /\ may_hold a access -> span_ok a ->
  spans_sorted (split_range bit lo hi access a) /\
  forall b, b ∈ split_range bit lo hi access a -> s_lo a <= s_lo b /\ s_hi b <= s_hi a).
  { intros a [Ha Hm] _. destruct (split_range_parts a access Ha Hm) as (mid & [? ? ? ?] & _). done. }
  split; [split|].
  - by apply (flat_map_sorted _ (fun r => range_ok bit r /\ may_hold r access)).
  - apply Forall_forall. intros b (a & Ha & Hb)%elem_of_flat_map.
  unfold all_hold in Hall. rewrite Forall_forall in Hall. destruct (Hall a Ha) as [Hra Hma].
  destruct (split_range_parts a access Hra Hma) as (mid & Hp & _).
  pose proof (pa_ok _ _ _ _ _ _ Hp) as Hok. rewrite Forall_forall in Hok. by apply Hok.
  - intros x. eapply flat_map_at; [exact Hf| |exact Hall|done].
  intros a [Ha Hm] _. by apply split_range_at.
Qed.

(** ** [narrow] *)

Context (ceiling : Z).

Definition narrow_tag (x : Z) (d : Z * Z) : Z * Z :=
  if decide (lo <= x <= hi) then (ceiling, Z.land d.2 ceiling) else d.

Lemma contains_land a b : Access_contains b (Z.land a b) = true.
Proof using. unfold Access_contains. apply Z.eqb_eq. by rewrite Z.land_comm, <- Z.land_assoc, Z.land_diag. Qed.

(** A range that [narrow] refuses. *)
Definition refuses (r : ActiveRange) : Prop :=
  a_overlaps lo hi r = true /\
  (Access_contains (a_ceiling r) ceiling = false \/ is_leaf_set (Z.land (a_current r) ceiling) = false).

Definition narrow_range (r : ActiveRange) : list ActiveRange :=
  if a_overlaps lo hi r
  then part bit r lo hi (Some (middle bit r lo hi ceiling (Z.land (a_current r) ceiling)))
  else [r].

Lemma narrow_loop_spec l :
  match narrow_loop bit l lo hi ceiling with
  | Ok l' => l' = flat_map narrow_range l /\ Forall (fun r => ~ refuses r) l
  | Err e => e = WidenDenied /\ Exists refuses l
  end.
Proof using.
  induction l as [|r l IH]; simpl; [done|]. unfold narrow_range at 1.
  destruct (a_overlaps lo hi r) eqn:Hov; simpl.
  - destruct (Access_contains (a_ceiling r) ceiling) eqn:Hc; simpl; [|split; [done|left; split; auto]].
  destruct (is_leaf_set (Z.land (a_current r) ceiling)) eqn:Hl; simpl; [|split; [done|left; split; auto]].
  unfold mbind, result_bind. destruct (narrow_loop bit l lo hi ceiling) as [l'|e].
  + destruct IH as [-> IH]. split; [done|]. constructor; [|done]. intros [_ [?|?]]; congruence.
  + destruct IH as [-> IH]. split; [done|by right].
  - unfold mbind, result_bind. destruct (narrow_loop bit l lo hi ceiling) as [l'|e].
  + destruct IH as [-> IH]. split; [done|]. constructor; [|done]. intros [? _]; congruence.
  + destruct IH as [-> IH]. split; [done|by right].
Qed.

Lemma narrow_range_parts r : range_ok bit r -> ~ refuses r ->
  exists mid, parts_ok bit r lo hi mid (narrow_range r) /\
  (a_overlaps lo hi r = true -> s_tag <$> mid = Some (ceiling, Z.land (a_current r) ceiling)).
Proof using Hbit Hle.
  intros Hr Hn. unfold narrow_range. destruct (a_overlaps lo hi r) eqn:Hov.
  - eexists. split; [apply part_parts; try done|done]. eexists _, _. split; [done|].
  split; [apply contains_land|]. destruct (is_leaf_set _) eqn:Hl; [done|]. exfalso. apply Hn. split; auto.
  - exists None. split; [by apply single_parts|done].
Qed.

Lemma narrow_ok l : ranges_ok bit l ->
  match ActiveRange_narrow bit true l lo hi ceiling with
  | Ok l' => Forall (fun r => ~ refuses r) l /\ ranges_ok bit l' /\
  forall x, span_at l' x = narrow_tag x <$> span_at l x
  | Err e => e = WidenDenied /\ Exists refuses l
  end.
Proof using Hbit Hle.
  intros [Hs Hok]. unfold ActiveRange_narrow. pose proof (narrow_loop_spec l) as Hn.
  destruct (narrow_loop bit l lo hi ceiling) as [l'|e]; [|done]. destruct Hn as [-> Hn].
  assert (HP : Forall (fun r => range_ok bit r /\ ~ refuses r) l) by (by apply Forall_and).
  assert (Hf : forall a, range_ok bit a /\ ~ refuses a -> span_ok a ->
  spans_sorted (narrow_range a) /\ forall b, b ∈ narrow_range a -> s_lo a <= s_lo b /\ s_hi b <= s_hi a).
  { intros a [Ha Hm] _. destruct (narrow_range_parts a Ha Hm) as (mid & [? ? ? ?] & _). done. }
  split; [done|]. split; [split|].
  - by apply (flat_map_sorted _ (fun r => range_ok bit r /\ ~ refuses r)).
  - apply Forall_forall. intros b (a & Ha & Hb)%elem_of_flat_map.
  rewrite Forall_forall in HP. destruct (HP a Ha) as [Hra Hma].
  destruct (narrow_range_parts a Hra Hma) as (mid & Hp & _).
  pose proof (pa_ok _ _ _ _ _ _ Hp) as Hok'. rewrite Forall_forall in Hok'. by apply Hok'.
  - intros x. rewrite (flat_map_at _ (fun r => range_ok bit r /\ ~ refuses r) Hf (fun d => Some (narrow_tag x d))); [|  |done|done].
  { by destruct (span_at l x). }
  intros a [Ha Hm] _. destruct (narrow_range_parts a Ha Hm) as (mid & Hp & Ht).
  rewrite (pa_at _ _ _ _ _ _ Hp). case_decide as Hx; [|done]. unfold narrow_tag. case_decide as Hd; [|done].
  apply Ht. destruct (a_overlaps lo hi a) eqn:Hov; [done|]. by eapply not_overlap_at in Hov.
Qed.
End active.

(** ** [cover] *)

Lemma cover_true l at_ hi :
  spans_sorted l -> at_ <= hi ->
  cover l at_ hi = true <-> forall x, at_ <= x <= hi -> is_Some (span_at l x).
Proof.
  revert at_. induction l as [|r l IH]; intros at_; simpl.
  { intros _ Hle. split; [done|]. intros H. destruct (H at_ ltac:(lia)) as [? ?]. done. }
  rewrite spans_sorted_cons. intros (Hr & Hl & Hlt) Hle. destruct Hr as [Hr _]. simpl in Hr, Hlt.
  destruct (Z.ltb_spec (a_end r) at_) as [Hskip|Hge].
  { rewrite (IH at_ Hl Hle). split; intros H x Hx; specialize (H x Hx); revert H;
      rewrite span_at_cons, decide_False by (unfold on_span; simpl; lia); done. }
  destruct (Z.ltb_spec at_ (a_start r)) as [Hgap|Hfrom].
  { split; [done|]. intros H. destruct (H at_ ltac:(lia)) as [d Hd]. exfalso. revert Hd.
    rewrite span_at_cons, decide_False by (unfold on_span; simpl; lia).
    rewrite span_at_early; [done|]. intros a Ha. specialize (Hlt a Ha). simpl. lia. }
  destruct (Z.leb_spec hi (a_end r)) as [Hend|Hmore].
  { split; [|done]. intros _ x Hx. rewrite span_at_cons, decide_True by (unfold on_span; simpl; lia). by eexists. }
  rewrite (IH (a_end r + 1) Hl ltac:(lia)). split.
  - intros H x Hx. rewrite span_at_cons. case_decide as Hd; [by eexists|].
    unfold on_span in Hd. simpl in Hd. apply H. lia.
  - intros H x Hx. specialize (H x ltac:(lia)). revert H.
    rewrite span_at_cons, decide_False by (unfold on_span; simpl; lia). done.
Qed.
