(* ===== verification/Index.v ===== *)
(** * The view index of an address space: [nest/index]

    An AVL tree over the views of an address space.  The key of a view is the
    least start of its active ranges; every node caches its key, its height and
    the greatest end of its subtree.  The active ranges live in the views
    themselves, which others change: here in a store from view identities to
    range lists, passed to every operation. *)

From S2P Require Import Prelude.
From S2P Require Import Occupancy.
From S2P Require Import Active.

Open Scope Z_scope.

Abbreviation Store := (gmap Z (list ActiveRange)).

Record IndexNode := mkNode { n_view : Z; n_start : Z; n_height : Z; n_max_end : Z }.

Inductive tree := Leaf | Node (left : tree) (node : IndexNode) (right : tree).

Record Index := mkIndex { root : tree; index_len : Z }.

Fixpoint min_of (l : list Z) : option Z :=
  match l with
  | [] => None
  | x :: l => Some match min_of l with Some y => Z.min x y | None => x end
  end.

Fixpoint max_of (l : list Z) : option Z :=
  match l with
  | [] => None
  | x :: l => Some match max_of l with Some y => Z.max x y | None => x end
  end.

(** ** [node.rs] *)

Definition span (ranges : list ActiveRange) : result NestError (Z * Z) :=
  start ← ok_or (min_of (a_start <$> ranges)) NoRegion;
  max_end ← ok_or (max_of (a_end <$> ranges)) NoRegion;
  Ok (start, max_end).

Definition cached (view start max_end : Z) : IndexNode := mkNode view start 1 max_end.

Definition height (t : tree) : Z := match t with Leaf => 0 | Node _ n _ => n_height n end.

Definition raise_end (t : tree) (e : Z) : Z :=
  match t with Leaf => e | Node _ n _ => Z.max e (n_max_end n) end.

Section with_store.
Context (st : Store).

(** The active ranges of a view, under its lock. *)
Definition active (v : Z) : list ActiveRange := default [] (st !! v).

Definition IndexNode_new (v : Z) : result NestError IndexNode :=
  s ← span (active v); Ok (cached v s.1 s.2).

Definition IndexNode_with_ranges (v : Z) (ranges : list ActiveRange) : result NestError IndexNode :=
  s ← span ranges; Ok (cached v s.1 s.2).

Definition overlaps (lo hi v : Z) : bool := any (a_overlaps lo hi) (active v).

Definition update (l : tree) (n : IndexNode) (r : tree) : tree :=
  let ranges := active (n_view n) in
  let start := match min_of (a_start <$> ranges) with Some s => s | None => n_start n end in
  let max_end := match max_of (a_end <$> ranges) with Some e => e | None => 0 end in
  Node l (mkNode (n_view n) start (1 + Z.max (height l) (height r)) (raise_end r (raise_end l max_end))) r.

Definition rotate_left (t : tree) : option tree :=
  match t with
  | Node l n (Node rl rn rr) => Some (update (update l n rl) rn rr)
  | _ => None
  end.

Definition rotate_right (t : tree) : option tree :=
  match t with
  | Node (Node ll ln lr) n r => Some (update ll ln (update lr n r))
  | _ => None
  end.

(** [update], then the rotations.  [None] is a panic of [unwrap] or [expect]. *)
Definition balance (l : tree) (n : IndexNode) (r : tree) : option tree :=
  match update l n r with
  | Leaf => None
  | Node l n r =>
  if height r + 1 <? height l then
  match l with
  | Leaf => None
  | Node ll _ lr =>
      l ← (if height ll <? height lr then rotate_left l else Some l);
      rotate_right (Node l n r)
  end
  else if height l + 1 <? height r then
  match r with
  | Leaf => None
  | Node rl _ rr =>
      r ← (if height rr <? height rl then rotate_right r else Some r);
      rotate_left (Node l n r)
  end
  else Some (Node l n r)
  end.

(** The subtree without its least node, and that node's data. *)
Fixpoint take_min (l : tree) (n : IndexNode) (r : tree) : option (tree * IndexNode) :=
  match l with
  | Leaf => Some (r, n)
  | Node ll ln lr =>
  '(l, min) ← take_min ll ln lr;
  t ← balance l n r;
  Some (t, min)
  end.

Definition detach (l r : tree) : option tree :=
  match l, r with
  | Leaf, r => Some r
  | l, Leaf => Some l
  | l, Node rl rn rr =>
  '(r, next) ← take_min rl rn rr;
  balance l next r
  end.

(** ** [mod.rs] *)

Fixpoint insert_node (t : tree) (node : IndexNode) : option tree :=
  match t with
  | Leaf => Some (Node Leaf node Leaf)
  | Node l n r =>
  if n_start node <? n_start n
  then l ← insert_node l node; balance l n r
  else r ← insert_node r node; balance l n r
  end.

Fixpoint remove_view (t : tree) (v : Z) : option (tree * bool) :=
  match t with
  | Leaf => Some (Leaf, false)
  | Node l n r =>
  if n_view n =? v then t ← detach l r; Some (t, true)
  else
  '(l, found) ← remove_view l v;
  if (found : bool) then t ← balance l n r; Some (t, true)
  else
    '(r, found) ← remove_view r v;
    if (found : bool) then t ← balance l n r; Some (t, true)
    else Some (Node l n r, false)
  end.

Definition reaches (t : tree) (lo : Z) : bool :=
  match t with Leaf => false | Node _ n _ => lo <=? n_max_end n end.

Fixpoint find_view (t : tree) (address : Z) : option Z :=
  match t with
  | Leaf => None
  | Node l n r =>
  match (if reaches l address then find_view l address else None) with
  | Some v => Some v
  | None =>
    if overlaps address address (n_view n) then Some (n_view n)
    else if n_start n <=? address then find_view r address else None
  end
  end.

Fixpoint first_overlap (t : tree) (lo hi : Z) : option Z :=
  match t with
  | Leaf => None
  | Node l n r =>
  if n_max_end n <? lo then None
  else match (if reaches l lo then first_overlap l lo hi else None) with
  | Some v => Some v
  | None =>
    if overlaps lo hi (n_view n) then Some (n_view n)
    else if n_start n <=? hi then first_overlap r lo hi else None
  end
  end.

Fixpoint collect_views (t : tree) (views : list Z) : list Z :=
  match t with
  | Leaf => views
  | Node l n r => collect_views r (collect_views l views ++ [n_view n])
  end.

Fixpoint refresh_node (t : tree) (v : Z) : tree * bool :=
  match t with
  | Leaf => (Leaf, false)
  | Node l n r =>
  if n_view n =? v then (update l n r, true)
  else
  let '(l, found) := refresh_node l v in
  if found then (update l n r, true)
  else
    let '(r, found) := refresh_node r v in
    if found then (update l n r, true) else (Node l n r, false)
  end.

Definition Index_new : Index := mkIndex Leaf 0.

Definition Index_insert (node : IndexNode) (i : Index) : option Index :=
  t ← insert_node (root i) node; Some (mkIndex t (index_len i + 1)).

Definition Index_remove (v : Z) (i : Index) : option (Index * bool) :=
  '(t, removed) ← remove_view (root i) v;
  n ← (if (removed : bool) then checked_sub (index_len i) 1 else Some (index_len i));
  Some (mkIndex t n, removed).

Definition Index_find (address : Z) (i : Index) : option Z := find_view (root i) address.
Definition Index_first_overlap (lo hi : Z) (i : Index) : option Z := first_overlap (root i) lo hi.
Definition Index_collect (views : list Z) (i : Index) : list Z := collect_views (root i) views.
Definition Index_refresh (v : Z) (i : Index) : Index * bool :=
  let '(t, found) := refresh_node (root i) v in (mkIndex t (index_len i), found).
Definition Index_clear (i : Index) : Index := Index_new.

(** ** The audit of debug builds *)

Fixpoint overlaps_other (t : tree) (v lo hi : Z) : bool :=
  match t with
  | Leaf => false
  | Node l n r =>
  if n_max_end n <? lo then false
  else if reaches l lo && overlaps_other l v lo hi then true
  else if negb (n_view n =? v) && overlaps lo hi (n_view n) then true
  else (n_start n <=? hi) && overlaps_other r v lo hi
  end.

Fixpoint ascending (l : list (Z * Z)) : bool :=
  match l with
  | a :: (b :: _) as l => (a.2 <? b.1) && ascending l
  | _ => true
  end.

(** [assert!] *)
Definition must (b : bool) : option unit := if b then Some tt else None.

(** Height, greatest end and count, or [None] where an assertion fails. *)
Fixpoint audit_index (t : tree) (lower upper : option Z) : option (Z * Z * Z) :=
  match t with
  | Leaf => Some (0, 0, 0)
  | Node l n r =>
  let key := n_start n in
  must match lower with None => true | Some lo => lo <? key end ;;
  must match upper with None => true | Some hi => key <? hi end ;;
  '(lh, le, lc) ← audit_index l lower (Some key);
  '(rh, re, rc) ← audit_index r (Some key) upper;
  let local := (fun a => (a_start a, a_end a)) <$> active (n_view n) in
  must (negb (bool_decide (local = []))) ;;
  must (ascending local) ;;
  must (negb (any (fun s => overlaps_other (Node l n r) (n_view n) s.1 s.2) local)) ;;
  start ← min_of local.*1;
  must (key =? start) ;;
  local_end ← max_of local.*2;
  let expected_height := 1 + Z.max lh rh in
  must (n_height n =? expected_height) ;;
  must (Z.abs (lh - rh) <=? 1) ;;
  let expected_end := Z.max (Z.max local_end le) re in
  must (n_max_end n =? expected_end) ;;
  Some (expected_height, expected_end, lc + rc + 1)
  end.

Definition Index_audit (i : Index) : option unit :=
  '(_, _, count) ← audit_index (root i) None None;
  must (count =? index_len i) ;; Some tt.
End with_store.
