(* ===== verification/IndexInv.v ===== *)
(** * The view index: balance, caches and order *)

From stdpp Require Import sorting.
From S2P Require Import Prelude.
From S2P Require Import Occupancy.
From S2P Require Import Active.
From S2P Require Import Index.

Open Scope Z_scope.

Lemma min_of_spec l m : min_of l = Some m -> m ∈ l /\ forall x, x ∈ l -> m <= x.
Proof.
  revert m. induction l as [|a l IH]; simpl; intros m; [done|]. intros [= <-].
  destruct (min_of l) as [y|] eqn:E.
  - destruct (IH y eq_refl) as [Hin Hmin]. split.
    + destruct (Z.min_spec a y) as [[_ ->]|[_ ->]]; [by left|by right].
    + intros x [->|Hx]%elem_of_cons; [lia|]. specialize (Hmin x Hx). lia.
  - destruct l; [|done]. split; [by left|]. intros x ->%list_elem_of_singleton. lia.
Qed.

Lemma max_of_spec l m : max_of l = Some m -> m ∈ l /\ forall x, x ∈ l -> x <= m.
Proof.
  revert m. induction l as [|a l IH]; simpl; intros m; [done|]. intros [= <-].
  destruct (max_of l) as [y|] eqn:E.
  - destruct (IH y eq_refl) as [Hin Hmax]. split.
    + destruct (Z.max_spec a y) as [[_ ->]|[_ ->]]; [by right|by left].
    + intros x [->|Hx]%elem_of_cons; [lia|]. specialize (Hmax x Hx). lia.
  - destruct l; [|done]. split; [by left|]. intros x ->%list_elem_of_singleton. lia.
Qed.

Lemma min_of_Some l : l <> [] -> is_Some (min_of l).
Proof. destruct l; [done|]. by eexists. Qed.

Lemma max_of_Some l : l <> [] -> is_Some (max_of l).
Proof. destruct l; [done|]. by eexists. Qed.

#[local] Arguments update : simpl never.
#[local] Arguments balance : simpl never.

(** The views of a tree, from left to right. *)
Fixpoint views (t : tree) : list Z :=
  match t with
  | Leaf => []
  | Node l n r => views l ++ n_view n :: views r
  end.

Section store.
Context (st : Store).

Definition key (v : Z) : Z := default 0 (min_of (a_start <$> active st v)).
Definition vend (v : Z) : Z := default 0 (max_of (a_end <$> active st v)).

(** The caches of one node are right. *)
Definition node_ok (l : tree) (n : IndexNode) (r : tree) : Prop :=
  active st (n_view n) <> [] /\ n_start n = key (n_view n) /\
  n_height n = 1 + Z.max (height l) (height r) /\
  n_max_end n = raise_end r (raise_end l (vend (n_view n))).

(** All caches right and every node balanced. *)
Fixpoint good (t : tree) : Prop :=
  match t with
  | Leaf => True
  | Node l n r => good l /\ good r /\ node_ok l n r /\ Z.abs (height l - height r) <= 1
  end.

Definition by_key (vs : list Z) : Prop := StronglySorted (fun v w => key v < key w) vs.

Lemma good_height t : good t -> 0 <= height t /\ (height t = 0 -> t = Leaf).
Proof.
  induction t as [|l IHl n r IHr]; simpl; [done|]. intros (Hl & Hr & (_ & _ & Hh & _) & _).
  specialize (IHl Hl). specialize (IHr Hr). split; [lia|]. lia.
Qed.

Lemma update_eq l n r : active st (n_view n) <> [] ->
  exists n', update st l n r = Node l n' r /\ n_view n' = n_view n /\ node_ok l n' r /\
  n_height n' = 1 + Z.max (height l) (height r).
Proof.
  intros Hne. unfold update, node_ok, key, vend.
  destruct (min_of_Some (a_start <$> active st (n_view n))) as [s Hs]; [by destruct (active st (n_view n))|].
  destruct (max_of_Some (a_end <$> active st (n_view n))) as [e He]; [by destruct (active st (n_view n))|].
  eexists. split; [reflexivity|]. simpl. rewrite Hs, He. done.
Qed.

(** What [balance] gives back. *)
Record balanced (l : tree) (v : Z) (r t : tree) : Prop := {
  bl_good : good t;
  bl_views : views t = views l ++ v :: views r;
  bl_height : Z.max (height l) (height r) <= height t <= 1 + Z.max (height l) (height r);
  bl_even : Z.abs (height l - height r) <= 1 -> height t = 1 + Z.max (height l) (height r)
  }.

Lemma rotate_right_ok ll ln lr n r :
  good ll -> good lr -> good r -> active st (n_view ln) <> [] -> active st (n_view n) <> [] ->
  height ll = height r + 1 -> height ll - 1 <= height lr <= height ll ->
  exists t, rotate_right st (Node (Node ll ln lr) n r) = Some t /\ good t /\
  views t = views ll ++ n_view ln :: views lr ++ n_view n :: views r /\
  height t = 2 + height lr.
Proof.
  intros Gll Glr Gr Aln An H1 H2. simpl.
  destruct (update_eq lr n r An) as (n' & -> & V & K & Hh).
  destruct (update_eq ll ln (Node lr n' r) Aln) as (n2 & -> & V2 & K2 & Hh2).
  eexists. split; [reflexivity|]. simpl in *. rewrite V, V2.
  split; [|split; [done|lia]]. split; [done|]. split; [split_and!; (done || lia)|]. split; [done|]. lia.
Qed.

Lemma rotate_left_ok l n rl rn rr :
  good l -> good rl -> good rr -> active st (n_view rn) <> [] -> active st (n_view n) <> [] ->
  height rr = height l + 1 -> height rr - 1 <= height rl <= height rr ->
  exists t, rotate_left st (Node l n (Node rl rn rr)) = Some t /\ good t /\
  views t = views l ++ n_view n :: views rl ++ n_view rn :: views rr /\
  height t = 2 + height rl.
Proof.
  intros Gl Grl Grr Arn An H1 H2. simpl.
  destruct (update_eq l n rl An) as (n' & -> & V & K & Hh).
  destruct (update_eq (Node l n' rl) rn rr Arn) as (n2 & -> & V2 & K2 & Hh2).
  eexists. split; [reflexivity|]. simpl in *. rewrite V, V2, <- app_assoc.
  split; [|split; [done|lia]]. split; [split_and!; (done || lia)|]. split; [done|]. split; [done|]. lia.
Qed.

(** The double rotations. *)
Lemma rotate_left_right_ok ll ln lrl lrn lrr n r :
  good ll -> good lrl -> good lrr -> good r ->
  active st (n_view ln) <> [] -> active st (n_view lrn) <> [] -> active st (n_view n) <> [] ->
  height ll = height r -> Z.max (height lrl) (height lrr) = height r ->
  Z.abs (height lrl - height lrr) <= 1 ->
  exists t, (l ← rotate_left st (Node ll ln (Node lrl lrn lrr)); rotate_right st (Node l n r)) = Some t /\
  good t /\
  views t = views ll ++ n_view ln :: views lrl ++ n_view lrn :: views lrr ++ n_view n :: views r /\
  height t = 2 + height r.
Proof.
  intros G1 G2 G3 G4 A1 A2 A3 H1 H2 H3. cbn [rotate_left mbind option_bind].
  destruct (update_eq ll ln lrl A1) as (n1 & -> & V1 & K1 & Hh1).
  destruct (update_eq (Node ll n1 lrl) lrn lrr A2) as (n2 & -> & V2 & K2 & Hh2). cbn [rotate_right].
  destruct (update_eq lrr n r A3) as (n3 & -> & V3 & K3 & Hh3).
  assert (A2' : active st (n_view n2) <> []) by (by rewrite V2).
  destruct (update_eq (Node ll n1 lrl) n2 (Node lrr n3 r) A2') as (n4 & -> & V4 & K4 & Hh4).
  eexists. split; [reflexivity|]. simpl in *. rewrite V1, V3, V4, V2, <- app_assoc.
  split; [|split; [done|lia]]. split; [split_and!; (done || lia)|]. split; [split_and!; (done || lia)|]. split; [done|]. lia.
Qed.

Lemma rotate_right_left_ok l n rll rln rlr rn rr :
  good l -> good rll -> good rlr -> good rr ->
  active st (n_view n) <> [] -> active st (n_view rln) <> [] -> active st (n_view rn) <> [] ->
  height rr = height l -> Z.max (height rll) (height rlr) = height l ->
  Z.abs (height rll - height rlr) <= 1 ->
  exists t, (r ← rotate_right st (Node (Node rll rln rlr) rn rr); rotate_left st (Node l n r)) = Some t /\
  good t /\
  views t = views l ++ n_view n :: views rll ++ n_view rln :: views rlr ++ n_view rn :: views rr /\
  height t = 2 + height l.
Proof.
  intros G1 G2 G3 G4 A1 A2 A3 H1 H2 H3. cbn [rotate_right mbind option_bind].
  destruct (update_eq rlr rn rr A3) as (n1 & -> & V1 & K1 & Hh1).
  destruct (update_eq rll rln (Node rlr n1 rr) A2) as (n2 & -> & V2 & K2 & Hh2). cbn [rotate_left].
  destruct (update_eq l n rll A1) as (n3 & -> & V3 & K3 & Hh3).
  assert (A2' : active st (n_view n2) <> []) by (by rewrite V2).
  destruct (update_eq (Node l n3 rll) n2 (Node rlr n1 rr) A2') as (n4 & -> & V4 & K4 & Hh4).
  eexists. split; [reflexivity|]. simpl in *. rewrite V1, V3, V4, V2, <- app_assoc.
  split; [|split; [done|lia]]. split; [split_and!; (done || lia)|]. split; [split_and!; (done || lia)|]. split; [done|]. lia.
Qed.

Lemma balance_ok l n r :
  good l -> good r -> active st (n_view n) <> [] -> Z.abs (height l - height r) <= 2 ->
  exists t, balance st l n r = Some t /\ balanced l (n_view n) r t.
Proof.
  intros Gl Gr An Hd. unfold balance.
  destruct (update_eq l n r An) as (n' & -> & V & K & Hh). rewrite <- V in *.
  destruct (good_height l Gl) as [Hl0 _], (good_height r Gr) as [Hr0 _].
  destruct (Z.ltb_spec (height r + 1) (height l)) as [Hlt|Hge].
  { destruct l as [|ll ln lr]; [simpl in Hlt; lia|].
  pose proof Gl as (Gll & Glr & (Aln & _ & Hhl & _) & Hbl). simpl in Hlt, Hd.
  destruct (Z.ltb_spec (height ll) (height lr)) as [Hin|Hout].
  - destruct lr as [|lrl lrn lrr]; [simpl in *; destruct (good_height ll Gll); lia|].
  pose proof Glr as (G1 & G2 & (A2 & _ & Hhlr & _) & Hblr). simpl in Hin, Hhl, Hbl.
  destruct (rotate_left_right_ok ll ln lrl lrn lrr n' r) as (t & Ht & Gt & Vt & Hht); try done; try lia.
  exists t. split; [done|]. split; simpl; [done|rewrite Vt; by simplify_list_eq|lia|lia].
  - destruct (rotate_right_ok ll ln lr n' r) as (t & Ht & Gt & Vt & Hht); try done; try lia.
  exists t. split; [done|]. split; simpl; [done|rewrite Vt; by simplify_list_eq|lia|lia]. }
  destruct (Z.ltb_spec (height l + 1) (height r)) as [Hlt|Hge'].
  { destruct r as [|rl rn rr]; [simpl in Hlt; lia|].
  pose proof Gr as (Grl & Grr & (Arn & _ & Hhr & _) & Hbr). simpl in Hlt, Hd.
  destruct (Z.ltb_spec (height rr) (height rl)) as [Hin|Hout].
  - destruct rl as [|rll rln rlr]; [simpl in *; destruct (good_height rr Grr); lia|].
  pose proof Grl as (G1 & G2 & (A2 & _ & Hhrl & _) & Hbrl). simpl in Hin, Hhr, Hbr.
  destruct (rotate_right_left_ok l n' rll rln rlr rn rr) as (t & Ht & Gt & Vt & Hht); try done; try lia.
  exists t. split; [done|]. split; simpl; [done|rewrite Vt; by simplify_list_eq|lia|lia].
  - destruct (rotate_left_ok l n' rl rn rr) as (t & Ht & Gt & Vt & Hht); try done; try lia.
  exists t. split; [done|]. split; simpl; [done|rewrite Vt; by simplify_list_eq|lia|lia]. }
  eexists. split; [reflexivity|]. split; simpl; [split_and!; (done || lia)|done|lia|lia].
Qed.

(** ** Removing the least node, and a node *)

Lemma take_min_ok l n r :
  good l -> good r -> active st (n_view n) <> [] -> Z.abs (height l - height r) <= 1 ->
  exists t m, take_min st l n r = Some (t, m) /\ good t /\ active st (n_view m) <> [] /\
  n_view m :: views t = views l ++ n_view n :: views r /\
  Z.max (height l) (height r) <= height t <= 1 + Z.max (height l) (height r).
Proof.
  revert n r. induction l as [|ll IHl ln lr IHr]; intros n r Gl Gr An Hd; simpl.
  - exists r, n. destruct (good_height r Gr). simpl in Hd |- *. split_and!; (done || lia).
  - destruct Gl as (Gll & Glr & (Aln & _ & Hhl & _) & Hbl). simpl in Hd.
  destruct (IHl ln lr Gll Glr Aln Hbl) as (l' & m & -> & Gl' & Am & Vl & Hl). simpl.
  destruct (balance_ok l' n r Gl' Gr An ltac:(lia)) as (t & -> & [Gt Vt Ht He]). simpl.
  exists t, m. split; [done|]. split; [done|]. split; [done|]. split; [|lia].
  rewrite Vt, app_comm_cons, Vl. done.
Qed.

Lemma detach_ok l r :
  good l -> good r -> Z.abs (height l - height r) <= 1 ->
  exists t, detach st l r = Some t /\ good t /\ views t = views l ++ views r /\
  Z.max (height l) (height r) <= height t <= 1 + Z.max (height l) (height r).
Proof.
  intros Gl Gr Hd. destruct (good_height l Gl) as [? _], (good_height r Gr) as [? _].
  destruct l as [|ll ln lr]; simpl.
  { exists r. split_and!; (done || (simpl in *; lia)). }
  destruct r as [|rl rn rr].
  { exists (Node ll ln lr). split; [done|]. split; [done|]. simpl. split; [by rewrite app_nil_r|simpl in *; lia]. }
  pose proof Gr as (Grl & Grr & (Arn & _ & Hhr & _) & Hbr).
  destruct (take_min_ok rl rn rr Grl Grr Arn Hbr) as (r' & m & -> & Gr' & Am & Vr & Hr'). simpl in *.
  destruct (balance_ok (Node ll ln lr) m r' Gl Gr' Am) as (t & -> & [Gt Vt Ht He]); [simpl; lia|].
  exists t. split; [done|]. split; [done|]. simpl in Vt, Ht, He. split; [by rewrite Vt, Vr|lia].
Qed.

(** ** Inserting a node *)

Lemma insert_ok t v :
  good t -> active st v <> [] -> by_key (views t) -> (forall w, w ∈ views t -> key w <> key v) ->
  exists t', insert_node st t (cached v (key v) (vend v)) = Some t' /\ good t' /\ by_key (views t') /\
  views t' ≡ₚ v :: views t /\ height t <= height t' <= height t + 1.
Proof.
  intros Gt Av. induction t as [|l IHl n r IHr]; simpl; intros Hs Hne.
  { eexists. split; [reflexivity|]. simpl.
  split; [split; [done|]; split; [done|]; split; [done|simpl; lia]|].
  split; [by repeat constructor|]. split; [done|lia]. }
  destruct Gt as (Gl & Gr & (An & Kn & Hh & _) & Hb).
  apply StronglySorted_app in Hs as (Hlr & Hsl & Hsr). apply StronglySorted_inv in Hsr as [Hsr Hnr].
  rewrite Forall_forall in Hnr. rewrite Kn.
  assert (Hnl : forall w, w ∈ views l -> key w < key (n_view n)) by (intros w Hw; apply Hlr; [done|by left]).
  assert (Hkn : key (n_view n) <> key v) by (apply Hne; set_solver).
  destruct (Z.ltb_spec (key v) (key (n_view n))) as [Hlt|Hge].
  - destruct (IHl Gl Hsl) as (l' & -> & Gl' & Hsl' & Vl & Hl); [intros w Hw; apply Hne; set_solver|]. simpl.
  destruct (balance_ok l' n r Gl' Gr An ltac:(lia)) as (t & -> & [Gt Vt Ht He]).
  exists t. split; [done|]. split; [done|]. rewrite Vt. split_and!; [|by rewrite Vl|lia|lia].
  apply StronglySorted_app. split_and!; [|done|].
  + intros x y. rewrite Vl. intros [->|Hx]%elem_of_cons [->|Hy]%elem_of_cons; [done| | |].
  * specialize (Hnr y Hy). lia.
  * by apply Hnl.
  * apply Hlr; [done|by right].
  + constructor; [done|by apply Forall_forall].
  - destruct (IHr Gr Hsr) as (r' & -> & Gr' & Hsr' & Vr & Hr); [intros w Hw; apply Hne; set_solver|]. simpl.
  destruct (balance_ok l n r' Gl Gr' An ltac:(lia)) as (t & -> & [Gt Vt Ht He]).
  exists t. split; [done|]. split; [done|]. rewrite Vt. split_and!; [| |lia|lia].
  + apply StronglySorted_app. split_and!; [|done|].
  * intros x y Hx. rewrite elem_of_cons, Vr, elem_of_cons. intros [->|[->|Hy]].
  -- by apply Hnl.
  -- specialize (Hnl x Hx). lia.
  -- apply Hlr; [done|by right].
  * constructor; [done|]. apply Forall_forall. intros y. rewrite Vr, elem_of_cons.
  intros [->|Hy]; [lia|by apply Hnr].
  + rewrite Vr. by rewrite <- !Permutation_middle, (Permutation_swap (n_view n) v).
Qed.
End store.

(** ** Changing the ranges of one view *)

(** The two stores differ at most in the view [v]. *)
Definition agree_but (v : Z) (st0 st : Store) : Prop := forall w, w <> v -> active st w = active st0 w.

Lemma node_ok_agree st0 st l n r :
  active st (n_view n) = active st0 (n_view n) -> node_ok st0 l n r -> node_ok st l n r.
Proof. intros E. unfold node_ok, key, vend. by rewrite E. Qed.

Lemma good_agree v st0 st t : agree_but v st0 st -> v ∉ views t -> good st0 t -> good st t.
Proof.
  intros Ha. induction t as [|l IHl n r IHr]; simpl; [done|]. intros Hv (Gl & Gr & Hn & Hb).
  split_and!; [apply IHl; set_solver|apply IHr; set_solver| |done].
  eapply node_ok_agree; [|done]. apply Ha. set_solver.
Qed.

(** Removing [v] after its ranges have changed: the caches that were right
    before the change are right after the removal. *)
Lemma remove_ok v st0 st t :
  agree_but v st0 st -> good st0 t -> NoDup (views t) ->
  exists t' b, remove_view st t v = Some (t', b) /\ good st t' /\
    height t - 1 <= height t' <= height t /\
    if (b : bool) then exists vs1 vs2, views t' = vs1 ++ vs2 /\ views t = vs1 ++ v :: vs2
    else (v ∉ views t) /\ t' = t.
Proof.
  intros Ha. induction t as [|l IHl n r IHr]; simpl; intros Gt Hnd.
  { exists Leaf, false. simpl. split_and!; [done|done|lia|lia|by apply not_elem_of_nil|done]. }
  destruct Gt as (Gl & Gr & Hn & Hb). apply NoDup_app in Hnd as (Ndl & Hlr & [Hnr Ndr]%NoDup_cons).
  pose proof Hn as (An & _ & Hh & _). destruct (Z.eqb_spec (n_view n) v) as [<-|Hv].
  { assert (Hvl : n_view n ∉ views l) by (intros Hin; apply (Hlr _ Hin); by left).
    destruct (detach_ok st l r) as (t' & -> & Gt' & Vt & Ht);
      [by eapply good_agree|by eapply good_agree|done|]. simpl.
    exists t', true. split; [done|]. split; [done|]. split; [lia|]. by exists (views l), (views r). }
  assert (An' : active st (n_view n) <> []) by (by rewrite Ha).
  destruct (IHl Gl Ndl) as (l' & b & -> & Gl' & Hl & Hbl). simpl. destruct b.
  { destruct Hbl as (v1 & v2 & E1 & E2).
    assert (Hvr : v ∉ views r) by (intros Hin; apply (Hlr v); [rewrite E2; set_solver|by right]).
    destruct (balance_ok st l' n r Gl') as (t' & -> & [Gt' Vt Ht He]);
      [by eapply good_agree|done|lia|]. simpl.
    exists t', true. split; [done|]. split; [done|]. split; [lia|].
    exists v1, (v2 ++ n_view n :: views r). rewrite Vt, E1, E2. split; by simplify_list_eq. }
  destruct Hbl as [Hvl ->].
  destruct (IHr Gr Ndr) as (r' & b & -> & Gr' & Hr & Hbr). simpl. destruct b.
  { destruct Hbr as (w1 & w2 & E3 & E4).
    destruct (balance_ok st l n r' Gl' Gr' An') as (t' & -> & [Gt' Vt Ht He]); [lia|]. simpl.
    exists t', true. split; [done|]. split; [done|]. split; [lia|].
    exists (views l ++ n_view n :: w1), w2. rewrite Vt, E3, E4. split; by simplify_list_eq. }
  destruct Hbr as [Hvr ->]. eexists _, false. split; [reflexivity|]. simpl.
  split_and!; try done; [|lia|set_solver]. eapply node_ok_agree; [|done]. by apply Ha.
Qed.

(** Recomputing the caches above [v] after its ranges have changed. *)
Lemma refresh_ok v st0 st t :
  agree_but v st0 st -> active st v <> [] -> good st0 t -> NoDup (views t) ->
  let '(t', b) := refresh_node st t v in
  good st t' /\ views t' = views t /\ height t' = height t /\
  if (b : bool) then v ∈ views t else (v ∉ views t) /\ t' = t.
Proof.
  intros Ha Av. induction t as [|l IHl n r IHr]; simpl; intros Gt Hnd.
  { split_and!; try done. by apply not_elem_of_nil. }
  destruct Gt as (Gl & Gr & Hn & Hb). apply NoDup_app in Hnd as (Ndl & Hlr & [Hnr Ndr]%NoDup_cons).
  pose proof Hn as (An & _ & Hh & _). specialize (IHl Gl Ndl). specialize (IHr Gr Ndr).
  assert (Hup : forall l' r', good st l' -> good st r' -> views l' = views l -> views r' = views r ->
    height l' = height l -> height r' = height r -> active st (n_view n) <> [] ->
    good st (update st l' n r') /\ views (update st l' n r') = views l ++ n_view n :: views r /\
    height (update st l' n r') = n_height n).
  { intros l' r' G1 G2 E1 E2 E3 E4 A. destruct (update_eq st l' n r' A) as (n' & -> & V & K & Hh').
    simpl. rewrite V, E1, E2. split_and!; try done; lia. }
  destruct (Z.eqb_spec (n_view n) v) as [<-|Hv].
  { destruct (Hup l r) as (? & ? & ?); try done; [eapply good_agree; [done| |done]|by eapply good_agree|].
    - intros Hin. apply (Hlr _ Hin). by left.
    - split_and!; try done. set_solver. }
  assert (An' : active st (n_view n) <> []) by (by rewrite Ha).
  destruct (refresh_node st l v) as [l' bl]. destruct IHl as (Gl' & Vl & Hl & Hbl). destruct bl.
  { destruct (Hup l' r) as (? & ? & ?); try done; [|split_and!; try done; set_solver].
    eapply good_agree; [done| |done]. intros Hin. apply (Hlr _ Hbl). by right. }
  destruct Hbl as [Hvl ->].
  destruct (refresh_node st r v) as [r' br]. destruct IHr as (Gr' & Vr & Hr & Hbr). destruct br.
  { destruct (Hup l r') as (? & ? & ?); try done. split_and!; try done; set_solver. }
  destruct Hbr as [Hvr ->]. simpl. split_and!; try done; [|set_solver].
  eapply node_ok_agree; [|done]. by apply Ha.
Qed.

(** ** Looking up *)

Lemma find_first {A} (p : A -> bool) l x :
  List.find p l = Some x -> exists l1 l2, l = l1 ++ x :: l2 /\ p x = true /\ Forall (fun y => p y = false) l1.
Proof.
  induction l as [|a l IH]; simpl; [done|]. destruct (p a) eqn:Hp.
  - intros [= <-]. by exists [], l.
  - intros (l1 & l2 & -> & Hx & Hl)%IH. exists (a :: l1), l2. split_and!; [done..|by constructor].
Qed.

Section lookup.
Context (st : Store).

Lemma overlaps_bounds lo hi v : overlaps st lo hi v = true -> key st v <= hi /\ lo <= vend st v.
Proof.
  unfold overlaps, key, vend. intros (r & Hr & Ho)%any_true. unfold a_overlaps in Ho.
  apply andb_true_iff in Ho as [H1%Z.leb_le H2%Z.leb_le].
  destruct (min_of_Some (a_start <$> active st v)) as [s Hs]; [by destruct (active st v); [apply not_elem_of_nil in Hr|]|].
  destruct (max_of_Some (a_end <$> active st v)) as [e He]; [by destruct (active st v); [apply not_elem_of_nil in Hr|]|].
  rewrite Hs, He. simpl. apply min_of_spec in Hs as [_ Hs]. apply max_of_spec in He as [_ He].
  specialize (Hs (a_start r) (list_elem_of_fmap_2 _ _ _ Hr)). specialize (He (a_end r) (list_elem_of_fmap_2 _ _ _ Hr)). lia.
Qed.

(** Nothing in a subtree reaches past its cached end. *)
Lemma reaches_false t lo v : good st t -> reaches t lo = false -> v ∈ views t -> vend st v < lo.
Proof.
  assert (Hmax : good st t -> v ∈ views t -> match t with Leaf => False | Node _ n _ => vend st v <= n_max_end n end).
  { induction t as [|l IHl n r IHr]; simpl; [intros _ Hv; by apply not_elem_of_nil in Hv|].
  intros (Gl & Gr & (_ & _ & _ & ->) & _) [Hv|[->|Hv]%elem_of_cons]%elem_of_app.
  - specialize (IHl Gl Hv). destruct l; [done|]. destruct r; simpl; lia.
  - destruct l, r; simpl; lia.
  - specialize (IHr Gr Hv). destruct r; [done|]. destruct l; simpl; lia. }
  intros Gt Hr Hv. specialize (Hmax Gt Hv). destruct t; [done|]. simpl in Hr. lia.
Qed.

Lemma find_none lo hi vs :
  (forall v, v ∈ vs -> hi < key st v \/ vend st v < lo) -> List.find (overlaps st lo hi) vs = None.
Proof.
  induction vs as [|v vs IH]; simpl; intros Hvs; [done|]. destruct (overlaps st lo hi v) eqn:Ho.
  - apply overlaps_bounds in Ho. specialize (Hvs v ltac:(by left)). lia.
  - apply IH. intros w Hw. apply Hvs. by right.
Qed.

Lemma find_app {A} (p : A -> bool) l1 l2 :
  List.find p (l1 ++ l2) = match List.find p l1 with Some x => Some x | None => List.find p l2 end.
Proof. induction l1 as [|a l1 IH]; simpl; [done|]. by destruct (p a). Qed.

(** The pruned search of a subtree is the search of its views in order. *)
Lemma prune_left lo hi t (f : option Z) :
  good st t -> f = List.find (overlaps st lo hi) (views t) ->
  (if reaches t lo then f else None) = List.find (overlaps st lo hi) (views t).
Proof.
  intros Gt ->. destruct (reaches t lo) eqn:Hr; [done|]. symmetry. apply find_none.
  intros v Hv. right. by eapply reaches_false.
Qed.

Lemma find_view_eq t a :
  good st t -> by_key st (views t) -> find_view st t a = List.find (overlaps st a a) (views t).
Proof.
  induction t as [|l IHl n r IHr]; simpl; [done|]. intros (Gl & Gr & (_ & Kn & _) & _) Hs.
  apply StronglySorted_app in Hs as (_ & Hsl & [Hsr Hnr]%StronglySorted_inv).
  rewrite find_app, (prune_left a a l) by auto. destruct (List.find _ (views l)) as [v|]; [done|]. simpl.
  destruct (overlaps st a a (n_view n)); [done|]. rewrite Kn.
  destruct (Z.leb_spec (key st (n_view n)) a); [by apply IHr|]. symmetry. apply find_none.
  intros v Hv. rewrite Forall_forall in Hnr. specialize (Hnr v Hv). lia.
Qed.

Lemma first_overlap_eq t lo hi :
  good st t -> by_key st (views t) -> first_overlap st t lo hi = List.find (overlaps st lo hi) (views t).
Proof.
  induction t as [|l IHl n r IHr]; simpl; [done|]. intros Gt Hs. pose proof Gt as (Gl & Gr & (_ & Kn & _) & _).
  destruct (Z.ltb_spec (n_max_end n) lo) as [Hlt|Hge].
  { symmetry. apply (find_none lo hi (views (Node l n r))). intros v Hv. right.
  eapply (reaches_false (Node l n r)); [done| |done]. simpl. lia. }
  apply StronglySorted_app in Hs as (_ & Hsl & [Hsr Hnr]%StronglySorted_inv).
  rewrite find_app, (prune_left lo hi l) by auto. destruct (List.find _ (views l)) as [v|]; [done|]. simpl.
  destruct (overlaps st lo hi (n_view n)); [done|]. rewrite Kn.
  destruct (Z.leb_spec (key st (n_view n)) hi); [by apply IHr|]. symmetry. apply find_none.
  intros v Hv. rewrite Forall_forall in Hnr. specialize (Hnr v Hv). lia.
Qed.
End lookup.

Lemma collect_views_eq t vs : collect_views t vs = vs ++ views t.
Proof.
  revert vs. induction t as [|l IHl n r IHr]; simpl; intros vs; [by rewrite app_nil_r|].
  rewrite IHr, IHl. by simplify_list_eq.
Qed.

(** ** Height *)

(** A balanced tree of height [h] has at least [2 ^ (h / 2) - 1] nodes. *)
Lemma height_bound st t : good st t -> 2 ^ (height t / 2) <= Z.of_nat (length (views t)) + 1.
Proof.
  induction t as [|l IHl n r IHr]; simpl; [intros _; vm_compute; discriminate|]. intros (Gl & Gr & (_ & _ & Hh & _) & Hb).
  specialize (IHl Gl). specialize (IHr Gr). rewrite length_app. simpl. rewrite Hh.
  destruct (good_height st l Gl) as [Hl _], (good_height st r Gr) as [Hr _].
  set (m := Z.max (height l) (height r)) in *.
  assert (Hsmall : forall k, 0 <= k -> (1 + m) / 2 - 1 <= k / 2 -> 2 ^ ((1 + m) / 2) <= 2 * 2 ^ (k / 2)).
  { intros k Hk Hle. rewrite <- Z.pow_succ_r by (apply Z.div_pos; lia). apply Z.pow_le_mono_r; lia. }
  assert ((1 + m) / 2 - 1 <= height l / 2) by (unfold m; Z.div_mod_to_equations; lia).
  assert ((1 + m) / 2 - 1 <= height r / 2) by (unfold m; Z.div_mod_to_equations; lia).
  pose proof (Hsmall (height l) Hl). pose proof (Hsmall (height r) Hr). lia.
Qed.
