(* ===== verification/IndexSystem.v ===== *)
(** * The view index along the operations of an address space

    The operations of a nest change the ranges of one view and the index in the
    same critical section: a commit adds a view that overlaps no other, a
    withdrawal cuts its ranges and files it again, a change of rights refreshes
    its node.  Their index side is one machine here; its invariant says that
    the caches are right, the tree is balanced and in order, and that no two
    views share an address. *)

From stdpp Require Import sorting.
From S2P Require Import Prelude.
From S2P Require Import Spans.
From S2P Require Import Occupancy.
From S2P Require Import Active.
From S2P Require Import ActiveInv.
From S2P Require Import Index.
From S2P Require Import IndexInv.

Open Scope Z_scope.

Record Space := mkSpace { sp_store : Store; sp_index : Index }.

Abbreviation IX := (M Space NestError).

Inductive op :=
| Commit (v : Z) (ranges : list ActiveRange) (lo hi : Z)
| Withdraw (v lo hi : Z)
| SetAccess (v lo hi access : Z)
| Narrow (v lo hi ceiling : Z)
| Close.

Section system.
Context (bit : Z).

Definition commit_view (v : Z) (ranges : list ActiveRange) (lo hi : Z) : IX unit :=
  s ← get;
  let st := <[v := ranges]> (sp_store s) in
  node ← lift (IndexNode_new st v);
  match Index_first_overlap st lo hi (sp_index s) with
  | Some _ => fail AlreadyMapped
  | None => i ← expect (Index_insert st node (sp_index s)); put (mkSpace st i)
  end.

Definition withdraw_view (v lo hi : Z) : IX unit :=
  s ← get;
  next ← lift (ActiveRange_split bit true (active (sp_store s) v) lo hi None);
  let st := <[v := next]> (sp_store s) in
  if bool_decide (next = []) then
  i ← expect (Index_remove st v (sp_index s)); put (mkSpace st i.1)
  else
  node ← lift (IndexNode_with_ranges v next);
  i ← expect (Index_remove st v (sp_index s));
  i ← expect (Index_insert st node i.1); put (mkSpace st i).

(** New ranges for a view whose extent stays the same. *)
Definition refresh_view (v : Z) (next : list ActiveRange) : IX unit :=
  s ← get;
  let st := <[v := next]> (sp_store s) in
  put (mkSpace st (Index_refresh st v (sp_index s)).1).

Definition set_access_view (v lo hi access : Z) : IX unit :=
  s ← get;
  let ranges := active (sp_store s) v in
  if negb (is_leaf_set access) then fail NNotAligned
  else if negb (cover ranges lo hi) then fail NoRegion
  else if any (fun r => a_overlaps lo hi r && negb (Access_contains (a_ceiling r) access)) ranges
  then fail WidenDenied
  else next ← lift (ActiveRange_split bit true ranges lo hi (Some access)); refresh_view v next.

Definition narrow_view (v lo hi ceiling : Z) : IX unit :=
  s ← get;
  let ranges := active (sp_store s) v in
  if negb (cover ranges lo hi) then fail NoRegion
  else next ← lift (ActiveRange_narrow bit true ranges lo hi ceiling); refresh_view v next.

Definition close_views : IX unit :=
  s ← get; put (mkSpace ((fun _ => []) <$> sp_store s) (Index_clear (sp_index s))).

Definition exec (o : op) : IX unit :=
  match o with
  | Commit v ranges lo hi => commit_view v ranges lo hi
  | Withdraw v lo hi => withdraw_view v lo hi
  | SetAccess v lo hi a => set_access_view v lo hi a
  | Narrow v lo hi c => narrow_view v lo hi c
  | Close => close_views
  end.

(** The callers' side: a committed view is new and its ranges are what
[View::new] accepts; the other operations name a view of the index. *)
Definition enabled (o : op) (s : Space) : Prop :=
  match o with
  | Commit v ranges lo hi => (v ∉ views (root (sp_index s))) /\ ranges_ok bit ranges /\ ranges <> [] /\
  lo <= hi /\ Forall (fun r => lo <= a_start r /\ a_end r <= hi) ranges /\
  index_len (sp_index s) < usize_MAX
  | Withdraw v lo hi | SetAccess v lo hi _ | Narrow v lo hi _ =>
  v ∈ views (root (sp_index s)) /\ lo <= hi
  | Close => True
  end.

(** ** Invariant *)

Definition covered (st : Store) (v x : Z) : Prop := is_Some (span_at (active st v) x).

Record IInv (s : Space) : Prop := {
  ii_good : good (sp_store s) (root (sp_index s));
  ii_order : by_key (sp_store s) (views (root (sp_index s)));
  ii_len : index_len (sp_index s) = Z.of_nat (length (views (root (sp_index s))));
  ii_room : index_len (sp_index s) <= usize_MAX;
  ii_ranges : forall v, v ∈ views (root (sp_index s)) -> ranges_ok bit (active (sp_store s) v);
  ii_apart : forall v w x, v ∈ views (root (sp_index s)) -> w ∈ views (root (sp_index s)) ->
  covered (sp_store s) v x -> covered (sp_store s) w x -> v = w
  }.

Definition space0 : Space := mkSpace ∅ Index_new.

Lemma space0_inv : IInv space0.
Proof.
  split; simpl; [done|apply SSorted_nil|done|rewrite usize_MAX_eq; lia| |].
  - intros v Hv. by apply not_elem_of_nil in Hv.
  - intros v w x Hv. by apply not_elem_of_nil in Hv.
Qed.

(** ** Extents *)

Lemma active_insert_eq st v l : active (<[v := l]> st) v = l.
Proof. unfold active. by rewrite lookup_insert_eq. Qed.

Lemma active_insert_ne st v w l : w <> v -> active (<[v := l]> st) w = active st w.
Proof. intros Hne. unfold active. by rewrite lookup_insert_ne. Qed.

Lemma agree_insert st v l : agree_but v st (<[v := l]> st).
Proof. intros w Hw. by apply active_insert_ne. Qed.

Lemma good_nonempty st t v : good st t -> v ∈ views t -> active st v <> [].
Proof.
  induction t as [|l IHl n r IHr]; simpl; [intros _ Hv; by apply not_elem_of_nil in Hv|].
  intros (Gl & Gr & (An & _) & _) [Hv|[->|Hv]%elem_of_cons]%elem_of_app; auto.
Qed.

Lemma by_key_NoDup st vs : by_key st vs -> NoDup vs.
Proof.
  induction 1 as [|v vs Hs IH Hv]; constructor; [|done]. rewrite Forall_forall in Hv. intros Hin.
  specialize (Hv v Hin). lia.
Qed.

Lemma range_covers st v r x : r ∈ active st v -> a_start r <= x <= a_end r -> covered st v x.
Proof.
  intros Hr Hx. unfold covered. destruct (span_at (active st v) x) eqn:E; [by eexists|].
  rewrite span_at_None in E. by destruct (E r Hr).
Qed.

(** The key of a view is its least address. *)
Lemma key_least st v :
  ranges_ok bit (active st v) -> active st v <> [] ->
  covered st v (key st v) /\ forall x, covered st v x -> key st v <= x.
Proof.
  intros [Hs Hok] Hne. unfold key.
  destruct (min_of_Some (a_start <$> active st v)) as [m Hm]; [by destruct (active st v)|]. rewrite Hm. simpl.
  apply min_of_spec in Hm as [Hin Hmin]. split.
  - apply list_elem_of_fmap in Hin as (r & -> & Hr). apply (range_covers st v r); [done|].
  destruct (spans_sorted_elem _ _ Hs Hr) as [? _]. simpl in *. lia.
  - intros x [d (r & Hr & Hx & _)%span_at_inv]. specialize (Hmin (a_start r) (list_elem_of_fmap_2 _ _ _ Hr)).
  unfold on_span in Hx. simpl in Hx. lia.
Qed.

Lemma key_ext st st' v :
  ranges_ok bit (active st v) -> ranges_ok bit (active st' v) -> active st v <> [] -> active st' v <> [] ->
  (forall x, covered st' v x <-> covered st v x) -> key st' v = key st v.
Proof.
  intros H1 H2 N1 N2 Hx. destruct (key_least st v H1 N1) as [C1 L1], (key_least st' v H2 N2) as [C2 L2].
  specialize (L1 _ (proj1 (Hx _) C2)). specialize (L2 _ (proj2 (Hx _) C1)). lia.
Qed.

Lemma overlaps_covered st lo hi v :
  ranges_ok bit (active st v) -> lo <= hi ->
  overlaps st lo hi v = true <-> exists x, lo <= x <= hi /\ covered st v x.
Proof.
  intros [Hs Hok] Hle. unfold overlaps. rewrite any_true. split.
  - intros (r & Hr & [H1%Z.leb_le H2%Z.leb_le]%andb_true_iff).
  destruct (spans_sorted_elem _ _ Hs Hr) as [H3 _]. simpl in H3.
  exists (Z.max lo (a_start r)). split; [lia|]. apply (range_covers st v r); [done|]. lia.
  - intros (x & Hx & [d (r & Hr & Hxr & _)%span_at_inv]). exists r. split; [done|].
  unfold on_span in Hxr. simpl in Hxr. unfold a_overlaps. apply andb_true_iff. rewrite !Z.leb_le. lia.
Qed.

Lemma key_agree v st st' w : agree_but v st st' -> w <> v -> key st' w = key st w.
Proof. intros Ha Hw. unfold key. by rewrite Ha. Qed.

Lemma covered_agree v st st' w x : agree_but v st st' -> w <> v -> covered st' w x <-> covered st w x.
Proof. intros Ha Hw. unfold covered. by rewrite Ha. Qed.

Lemma by_key_ext st st' vs : (forall v, v ∈ vs -> key st' v = key st v) -> by_key st vs -> by_key st' vs.
Proof.
  intros He Hs. induction Hs as [|v vs Hs IH Hv]; constructor.
  - apply IH. intros w Hw. apply He. by right.
  - rewrite Forall_forall in Hv |- *. intros w Hw. rewrite !He; [by apply Hv|by right|by left].
Qed.

Lemma node_of st v : active st v <> [] -> IndexNode_new st v = Ok (cached v (key st v) (vend st v)).
Proof.
  intros Hne. unfold IndexNode_new, span, key, vend.
  destruct (min_of_Some (a_start <$> active st v)) as [m ->]; [by destruct (active st v)|].
  destruct (max_of_Some (a_end <$> active st v)) as [e ->]; [by destruct (active st v)|]. done.
Qed.

(** ** Filing a view *)

(** A view of new ranges goes into an index it is not in. *)
Lemma file_view v st i :
  good st (root i) -> by_key st (views (root i)) -> (v ∉ views (root i)) ->
  index_len i = Z.of_nat (length (views (root i))) -> index_len i < usize_MAX ->
  (forall w, w ∈ v :: views (root i) -> ranges_ok bit (active st w)) -> active st v <> [] ->
  (forall w w' x, w ∈ v :: views (root i) -> w' ∈ v :: views (root i) ->
   covered st w x -> covered st w' x -> w = w') ->
  exists i', Index_insert st (cached v (key st v) (vend st v)) i = Some i' /\ IInv (mkSpace st i') /\
  views (root i') ≡ₚ v :: views (root i).
Proof.
  intros Gt Hs Hv Hlen Hroom Hr Hne Hap. unfold Index_insert.
  destruct (insert_ok st (root i) v Gt Hne Hs) as (t' & -> & Gt' & Hs' & Hp & _).
  { intros w Hw E. destruct (key_least st v (Hr v ltac:(by left)) Hne) as [Cv _].
  destruct (key_least st w (Hr w ltac:(by right)) (good_nonempty st _ w Gt Hw)) as [Cw _].
  apply Hv. rewrite E in Cw. by rewrite (Hap v w (key st v)) by (by left || by right || done). }
  simpl. eexists. split; [reflexivity|]. split; [|done]. split; simpl; [done|done| |lia| |].
  - rewrite Hp. simpl. lia.
  - intros w. rewrite Hp. apply Hr.
  - intros w w' x. rewrite Hp. apply Hap.
Qed.

(** Taking a view out, after its ranges have changed. *)
Lemma unfile_view v st st' i :
  agree_but v st st' -> IInv (mkSpace st i) -> v ∈ views (root i) ->
  exists i', Index_remove st' v i = Some (i', true) /\ IInv (mkSpace st' i') /\
  (v ∉ views (root i')) /\ views (root i) ≡ₚ v :: views (root i') /\ index_len i' < usize_MAX.
Proof.
  intros Ha HI Hv. destruct HI as [Gt Hs Hlen Hroom Hr Hap]. simpl in *.
  pose proof (by_key_NoDup _ _ Hs) as Hnd. unfold Index_remove.
  destruct (remove_ok v st st' (root i) Ha Gt Hnd) as (t' & b & -> & Gt' & _ & Hb). simpl.
  destruct b; [|by destruct Hb]. destruct Hb as (v1 & v2 & E1 & E2).
  assert (Hp : views (root i) ≡ₚ v :: views t') by (by rewrite E1, E2, Permutation_middle).
  assert (Hnv : v ∉ views t') by (rewrite Hp in Hnd; by apply NoDup_cons in Hnd as [? _]).
  rewrite Hp in Hlen. simpl in Hlen. unfold checked_sub.
  rewrite (proj2 (checked_Some (index_len i - 1) (index_len i - 1))) by (rewrite usize_iff; lia). simpl.
  eexists. split; [reflexivity|]. split; [|simpl; split_and!; (done || lia)].
  assert (Hin : forall w, w ∈ views t' -> w ∈ views (root i) /\ w <> v).
  { intros w Hw. split; [rewrite Hp; by right|]. intros ->. done. }
  split; simpl; [done| |lia|lia| |].
  - apply (by_key_ext st); [intros w Hw; destruct (Hin w Hw); by eapply key_agree|].
  rewrite E1. rewrite E2 in Hs. apply StronglySorted_app in Hs as (H1 & H2 & [H3 _]%StronglySorted_inv).
  apply StronglySorted_app. split_and!; [|done|done]. intros x y Hx Hy. apply H1; [done|by right].
  - intros w Hw. destruct (Hin w Hw) as [Hw1 Hw2]. rewrite Ha by done. by apply Hr.
  - intros w w' x Hw Hw'. destruct (Hin w Hw), (Hin w' Hw').
  rewrite !(covered_agree v st st') by done. by apply Hap.
Qed.

(** Ranges of a view outside the index. *)
Lemma store_agree v st st' i : (v ∉ views (root i)) -> agree_but v st st' -> IInv (mkSpace st i) -> IInv (mkSpace st' i).
Proof.
  intros Hv Ha [Gt Hs Hlen Hroom Hr Hap]. simpl in *.
  assert (Hne : forall w, w ∈ views (root i) -> w <> v) by (intros w Hw ->; done).
  split; simpl; [by eapply good_agree| |done|done| |].
  - apply (by_key_ext st); [|done]. intros w Hw. eapply key_agree; [done|by apply Hne].
  - intros w Hw. rewrite Ha by (by apply Hne). by apply Hr.
  - intros w w' x Hw Hw'. rewrite !(covered_agree v st st') by (done || by apply Hne). by apply Hap.
Qed.

Lemma store_inv v l st i : (v ∉ views (root i)) -> IInv (mkSpace st i) -> IInv (mkSpace (<[v := l]> st) i).
Proof. intros Hv. apply (store_agree v); [done|apply agree_insert]. Qed.

Lemma first_overlap_None st i lo hi :
  IInv (mkSpace st i) -> lo <= hi -> Index_first_overlap st lo hi i = None ->
  forall w x, w ∈ views (root i) -> lo <= x <= hi -> ~ covered st w x.
Proof.
  intros [Gt Hs _ _ Hr _] Hle. simpl in *. unfold Index_first_overlap. rewrite first_overlap_eq by done.
  intros Hf w x Hw Hx Hc. pose proof (List.find_none _ _ Hf w (proj1 (list_elem_of_In _ _) Hw)) as Ho.
  simpl in Ho. rewrite (proj2 (overlaps_covered st lo hi w (Hr w Hw) Hle)) in Ho; [done|by exists x].
Qed.

Definition runs (o : op) (s : Space) : Prop :=
  exists r s', exec o s = Some (r, s') /\ IInv s' /\ match r with Err _ => s' = s | Ok _ => True end.

Lemma commit_runs v ranges lo hi s : IInv s -> enabled (Commit v ranges lo hi) s -> runs (Commit v ranges lo hi) s.
Proof.
  destruct s as [st i]. intros HI (Hv & Hok & Hne & Hle & Hin & Hroom). unfold runs. simpl in *.
  unfold commit_view. munfold. simpl. set (st' := <[v := ranges]> st).
  assert (Ev : active st' v = ranges) by apply active_insert_eq.
  rewrite node_of by (by rewrite Ev). pose proof (store_inv v ranges st i Hv HI) as HI'. fold st' in HI'.
  destruct (Index_first_overlap st' lo hi i) as [w|] eqn:Hf.
  { eexists _, _. split; [reflexivity|]. done. }
  pose proof (first_overlap_None st' i lo hi HI' Hle Hf) as Hno. destruct HI' as [Gt Hs Hlen Hroom' Hr Hap]. simpl in *.
  assert (Hvin : forall x, covered st' v x -> lo <= x <= hi).
  { intros x [d (r & Hr' & Hx & _)%span_at_inv]. rewrite Ev in Hr'. rewrite Forall_forall in Hin.
  destruct (Hin r Hr'). unfold on_span in Hx. simpl in Hx. lia. }
  destruct (file_view v st' i) as (i' & -> & HI'' & _); try done.
  - intros w [->|Hw]%elem_of_cons; [by rewrite Ev|by apply Hr].
  - by rewrite Ev.
  - intros w w' x [->|Hw]%elem_of_cons [->|Hw']%elem_of_cons Cx Cx'; [done| | |by eapply Hap].
  + destruct (Hno w' x Hw' (Hvin x Cx) Cx').
  + destruct (Hno w x Hw (Hvin x Cx') Cx).
  - eexists _, _. split; [reflexivity|]. done.
Qed.

(** A view whose ranges shrink to [next], taken out and filed again. *)
Lemma shrink_view v next st i :
  IInv (mkSpace st i) -> (active st v <> [] -> v ∈ views (root i)) -> ranges_ok bit next ->
  (forall x, is_Some (span_at next x) -> covered st v x) -> let st' := <[v := next]> st in
  exists i1 b, Index_remove st' v i = Some (i1, b) /\
    if bool_decide (next = []) then IInv (mkSpace st' i1) /\ forall u, u ∈ views (root i1) <-> u <> v /\ u ∈ views (root i)
    else IndexNode_with_ranges v next = Ok (cached v (key st' v) (vend st' v)) /\
      exists i2, Index_insert st' (cached v (key st' v) (vend st' v)) i1 = Some i2 /\ IInv (mkSpace st' i2) /\ forall u, u ∈ views (root i2) <-> u ∈ views (root i).
Proof.
  intros HI Hin Hok Hsub st'. pose proof (agree_insert st v next) as Ha. fold st' in Ha.
  assert (Ev : active st' v = next) by apply active_insert_eq.
  destruct (decide (v ∈ views (root i))) as [Hv|Hv].
  - destruct (unfile_view v st st' i Ha HI Hv) as (i1 & Hrm & HI1 & Hv1 & Hp & Hroom1). exists i1, true. split; [done|]. case_bool_decide as Hn.
    { split; [done|]. intros u. rewrite Hp, elem_of_cons. naive_solver. }
    split. { rewrite <- node_of by (by rewrite Ev). unfold IndexNode_new. by rewrite Ev. }
    destruct HI1 as [Gt1 Hs1 Hlen1 _ Hr1 Hap1]. simpl in *.
    assert (Hsub' : forall w x, w ∈ v :: views (root i1) -> covered st' w x -> covered st w x).
    { intros w x Hw Hc. destruct (decide (w = v)) as [->|Hwv]; [|by apply (covered_agree v st st' w x Ha Hwv)]. apply Hsub. revert Hc. unfold covered. by rewrite Ev. }
    destruct (file_view v st' i1) as (i' & E & HI'' & Hp'); try done.
    + intros w [->|Hw]%elem_of_cons; [by rewrite Ev|by apply Hr1].
    + by rewrite Ev.
    + intros w w' x Hw Hw' Cx Cx'. apply (ii_apart _ HI w w' x); simpl; [by rewrite Hp|by rewrite Hp|by apply Hsub'|by apply Hsub'].
    + exists i'. split; [done|]. split; [done|]. intros u. by rewrite Hp', Hp.
  - assert (Hne : active st v = []) by (destruct (active st v) eqn:E; [done|exfalso; by apply Hv, Hin]).
    assert (next = []) as En.
    { destruct (decide (next = [])) as [|Hn]; [done|]. assert (Hr' : ranges_ok bit (active st' v)) by by rewrite Ev.
      destruct (key_least st' v Hr' ltac:(by rewrite Ev)) as [Hc _]. unfold covered in Hc. rewrite Ev in Hc. apply Hsub in Hc. unfold covered in Hc. rewrite Hne in Hc. by destruct Hc. }
    destruct HI as [Gt Hs Hlen Hroom Hr Hap]. simpl in *.
    destruct (remove_ok v st st' (root i) Ha Gt (by_key_NoDup _ _ Hs)) as (t' & b & Hrm & _ & _ & Hb). destruct b; [destruct Hb as (vs1 & vs2 & _ & E2); exfalso; apply Hv; rewrite E2; set_solver|].
    destruct Hb as [_ ->]. unfold Index_remove. rewrite Hrm. simpl. eexists _, _. split; [reflexivity|]. rewrite bool_decide_eq_true_2 by done.
    assert (Hcov : forall w x, w ∈ views (root i) -> covered st' w x <-> covered st w x) by (intros w x Hw; apply (covered_agree v st st'); [done|by intros ->]).
    split; [|intros u; simpl; naive_solver]. split; simpl; [by eapply good_agree|apply (by_key_ext st); [|done]|done|done| |].
    + intros w Hw. unfold key. rewrite Ha; [done|by intros ->].
    + intros w Hw. rewrite Ha; [by apply Hr|by intros ->].
    + intros w w' x Hw Hw'. rewrite !Hcov by done. by apply Hap.
Qed.

Lemma withdraw_runs v lo hi s : good_bit bit -> IInv s -> enabled (Withdraw v lo hi) s -> runs (Withdraw v lo hi) s.
Proof.
  destruct s as [st i]. intros Hb HI [Hv Hle]. simpl in Hv. unfold runs. simpl. unfold withdraw_view. munfold. simpl.
  pose proof (ii_ranges _ HI v Hv) as Hrv. simpl in Hrv.
  destruct (split_ok bit lo hi Hb Hle (active st v) None Hrv) as (next & Hsp & Hok & Hat).
  { unfold all_hold. destruct Hrv as [_ Hrv]. eapply Forall_impl; [exact Hrv|]. done. }
  unfold ActiveRange_split in Hsp. injection Hsp as ->.
  destruct (shrink_view v next st i HI) as (i1 & b & Hrm & Hn); [done|done| |].
  { intros x. unfold covered. rewrite Hat. destruct (span_at (active st v) x); [by eexists|by intros [? ?]]. }
  rewrite !Hrm. case_bool_decide.
  - eexists _, _. split; [reflexivity|]. by destruct Hn.
  - destruct Hn as (-> & i2 & E2 & HI2 & _). simpl. rewrite E2. eexists _, _. split; [reflexivity|]. done.
Qed.

Lemma refresh_inv v next st i :
  IInv (mkSpace st i) -> v ∈ views (root i) -> ranges_ok bit next ->
  (forall x, is_Some (span_at next x) <-> covered st v x) ->
  IInv (mkSpace (<[v := next]> st) (Index_refresh (<[v := next]> st) v i).1).
Proof.
  intros [Gt Hs Hlen Hroom Hr Hap] Hv Hok Hx. simpl in *. set (st' := <[v := next]> st).
  pose proof (agree_insert st v next) as Ha. fold st' in Ha.
  assert (Ev : active st' v = next) by apply active_insert_eq.
  assert (Hcov : forall w x, covered st' w x <-> covered st w x).
  { intros w x. destruct (decide (w = v)) as [->|Hw]; [|by eapply covered_agree]. unfold covered at 1. by rewrite Ev, Hx. }
  pose proof (good_nonempty st _ v Gt Hv) as Hne0.
  assert (Hne : next <> []).
  { destruct (key_least st v (Hr v Hv) Hne0) as [[d Hd] _]. intros ->.
  destruct (proj2 (Hx (key st v))) as [? ?]; [by eexists|done]. }
  pose proof (refresh_ok v st st' (root i) Ha ltac:(by rewrite Ev) Gt (by_key_NoDup _ _ Hs)) as Hre.
  unfold Index_refresh. destruct (refresh_node st' (root i) v) as [t' b]. destruct Hre as (Gt' & Vt & _ & _).
  assert (Hr' : forall w, w ∈ views (root i) -> ranges_ok bit (active st' w)).
  { intros w Hw. destruct (decide (w = v)) as [->|Hwv]; [by rewrite Ev|]. rewrite Ha by done. by apply Hr. }
  split; simpl; rewrite ?Vt; [done| |done|done|done|].
  - apply (by_key_ext st); [|done]. intros w Hw. apply key_ext; [by apply Hr|by apply Hr'|by eapply good_nonempty| |apply Hcov].
  eapply good_nonempty; [done|by rewrite Vt].
  - intros w w' x Hw Hw'. rewrite !Hcov. by apply Hap.
Qed.

Lemma set_access_runs v lo hi a s :
  good_bit bit -> IInv s -> enabled (SetAccess v lo hi a) s -> runs (SetAccess v lo hi a) s.
Proof.
  destruct s as [st i]. intros Hb HI [Hv Hle]. simpl in Hv. unfold runs. simpl. unfold set_access_view. munfold. simpl.
  destruct (is_leaf_set a) eqn:Hl; simpl; [|eexists _, _; split; [reflexivity|]; done].
  destruct (cover (active st v) lo hi); simpl; [|eexists _, _; split; [reflexivity|]; done].
  destruct (any _ _) eqn:Hany; [eexists _, _; split; [reflexivity|]; done|].
  pose proof (ii_ranges _ HI v Hv) as Hrv. simpl in Hrv.
  destruct (split_ok bit lo hi Hb Hle (active st v) (Some a) Hrv) as (next & Hsp & Hok & Hat).
  { destruct Hrv as [_ Hrv]. rewrite any_false in Hany. apply Forall_and. split; [done|].
  eapply Forall_impl; [exact Hany|]. intros r Hr Ho. simpl in Hr. rewrite Ho in Hr. simpl in Hr.
  by apply negb_false_iff in Hr. }
  unfold ActiveRange_split in Hsp. injection Hsp as ->. unfold refresh_view. munfold. simpl. eexists _, _. split; [reflexivity|]. split; [|done].
  apply refresh_inv; [done|done|done|]. intros x. unfold covered. rewrite Hat.
  destruct (span_at (active st v) x) as [d|]; simpl; [|by split; intros [? ?]]. unfold split_tag.
  by case_decide; split; intros _; eexists.
Qed.

Lemma narrow_runs v lo hi c s :
  good_bit bit -> IInv s -> enabled (Narrow v lo hi c) s -> runs (Narrow v lo hi c) s.
Proof.
  destruct s as [st i]. intros Hb HI [Hv Hle]. simpl in Hv. unfold runs. simpl. unfold narrow_view. munfold. simpl.
  destruct (cover (active st v) lo hi); simpl; [|eexists _, _; split; [reflexivity|]; done].
  pose proof (narrow_ok bit lo hi Hb Hle c (active st v) (ii_ranges _ HI v Hv)) as Hn.
  unfold ActiveRange_narrow in Hn. destruct (narrow_loop bit (active st v) lo hi c) as [next|e]; simpl.
  2: { eexists _, _. split; [reflexivity|]. done. }
  unfold refresh_view. munfold. destruct Hn as (_ & Hok & Hat). eexists _, _. split; [reflexivity|]. split; [|done].
  apply refresh_inv; [done|done|done|]. intros x. unfold covered. rewrite Hat. by rewrite fmap_is_Some.
Qed.

Lemma close_runs s : IInv s -> runs Close s.
Proof.
  intros _. unfold runs. simpl. unfold close_views. munfold. eexists _, _. split; [reflexivity|]. split; [|done].
  split; simpl; [done|apply SSorted_nil|done|rewrite usize_MAX_eq; lia| |].
  - intros v Hv. by apply not_elem_of_nil in Hv.
  - intros v w x Hv. by apply not_elem_of_nil in Hv.
Qed.

Lemma exec_runs o s : good_bit bit -> IInv s -> enabled o s -> runs o s.
Proof.
  intros Hb HI. destruct o; intros Hen.
  - by apply commit_runs.
  - by apply withdraw_runs.
  - by apply set_access_runs.
  - by apply narrow_runs.
  - by apply close_runs.
Qed.

Inductive reach : Space -> Prop :=
| reach_start : reach space0
| reach_op s o r s' : reach s -> enabled o s -> exec o s = Some (r, s') -> reach s'.

Lemma reach_IInv s : good_bit bit -> reach s -> IInv s.
Proof.
  intros Hb. induction 1 as [|s o r s' _ IH Hen Hrun]; [apply space0_inv|].
  destruct (exec_runs o s Hb IH Hen) as (r' & s'' & Hrun' & HI & _). congruence.
Qed.
End system.
