(* ===== verification/IndexTheorems.v ===== *)
(** * The view index and the active ranges: theorems *)

From stdpp Require Import sorting.
From S2P Require Import Prelude.
From S2P Require Import Spans.
From S2P Require Import Occupancy.
From S2P Require Import Active.
From S2P Require Import ActiveInv.
From S2P Require Import Index.
From S2P Require Import IndexInv.
From S2P Require Import IndexSystem.

Open Scope Z_scope.

(** ** The audit *)

Lemma overlaps_other_sound st t v lo hi :
  overlaps_other st t v lo hi = true -> exists w, w ∈ views t /\ w <> v /\ overlaps st lo hi w = true.
Proof.
  induction t as [|l IHl n r IHr]; simpl; [done|]. destruct (n_max_end n <? lo); [done|].
  destruct (reaches l lo && overlaps_other st l v lo hi) eqn:El.
  { intros _. apply andb_true_iff in El as [_ El]. destruct (IHl El) as (w & Hw & ? & ?). exists w. split_and!; [set_solver|done|done]. }
  destruct (negb (n_view n =? v) && overlaps st lo hi (n_view n)) eqn:En.
  { intros _. apply andb_true_iff in En as [Hv Ho]. exists (n_view n). split_and!; [set_solver| |done].
    apply negb_true_iff in Hv. lia. }
  intros [_ Hr]%andb_true_iff. destruct (IHr Hr) as (w & Hw & ? & ?). exists w. split_and!; [set_solver|done|done].
Qed.

Lemma ascending_sorted (l : list ActiveRange) :
  spans_sorted l -> ascending ((fun a => (a_start a, a_end a)) <$> l) = true.
Proof.
  induction l as [|a l IH]; [done|]. rewrite spans_sorted_cons. intros (_ & Hl & Hlt). specialize (IH Hl).
  destruct l as [|b l]; [done|]. simpl in *. rewrite IH. specialize (Hlt b ltac:(by left)). simpl in Hlt.
  by rewrite (proj2 (Z.ltb_lt _ _)).
Qed.

Definition cached_end (t : tree) : Z := match t with Leaf => 0 | Node _ n _ => n_max_end n end.

Definition above (o : option Z) (k : Z) : bool := match o with None => true | Some lo => lo <? k end.
Definition below (o : option Z) (k : Z) : bool := match o with None => true | Some hi => k <? hi end.

Section audit.
Context (bit : Z) (st : Store).

Lemma vend_nonneg v : ranges_ok bit (active st v) -> 0 <= vend st v.
Proof.
  intros [Hs _]. unfold vend. destruct (max_of _) as [e|] eqn:He; simpl; [|lia].
  apply max_of_spec in He as [(r & -> & Hr)%list_elem_of_fmap _].
  destruct (spans_sorted_elem _ _ Hs Hr) as [? _]. simpl in *. lia.
Qed.

Lemma cached_end_nonneg t : good st t -> (forall v, v ∈ views t -> ranges_ok bit (active st v)) -> 0 <= cached_end t.
Proof.
  destruct t as [|l n r]; simpl; [lia|]. intros (_ & _ & (_ & _ & _ & ->) & _) Hr.
  pose proof (vend_nonneg (n_view n) (Hr (n_view n) ltac:(set_solver))). destruct l, r; simpl; lia.
Qed.

Lemma fsts (l : list ActiveRange) : ((fun a => (a_start a, a_end a)) <$> l).*1 = a_start <$> l.
Proof. induction l; simpl; [done|]. by f_equal. Qed.

Lemma snds (l : list ActiveRange) : ((fun a => (a_start a, a_end a)) <$> l).*2 = a_end <$> l.
Proof. induction l; simpl; [done|]. by f_equal. Qed.

(** The node-local assertions. *)
Lemma audit_local v :
  ranges_ok bit (active st v) -> active st v <> [] ->
  min_of ((fun a => (a_start a, a_end a)) <$> active st v).*1 = Some (key st v) /\
  max_of ((fun a => (a_start a, a_end a)) <$> active st v).*2 = Some (vend st v).
Proof.
  intros Hr Hne. rewrite fsts, snds. unfold key, vend.
  destruct (min_of_Some (a_start <$> active st v)) as [m ->]; [by destruct (active st v)|].
  destruct (max_of_Some (a_end <$> active st v)) as [e ->]; [by destruct (active st v)|]. done.
Qed.

Lemma audit_apart t v :
  v ∈ views t -> (forall w, w ∈ views t -> ranges_ok bit (active st w)) ->
  (forall w w' x, w ∈ views t -> w' ∈ views t -> covered st w x -> covered st w' x -> w = w') ->
  any (fun s => overlaps_other st t v s.1 s.2) ((fun a => (a_start a, a_end a)) <$> active st v) = false.
Proof.
  intros Hv Hr Hap. apply any_false, Forall_forall. intros s (r & -> & Hin)%list_elem_of_fmap. simpl.
  destruct (overlaps_other st t v (a_start r) (a_end r)) eqn:Ho; [|done]. exfalso.
  apply overlaps_other_sound in Ho as (w & Hw & Hne & Ho).
  destruct (spans_sorted_elem _ _ (proj1 (Hr v Hv)) Hin) as [Hle _]. simpl in Hle.
  apply (overlaps_covered bit st (a_start r) (a_end r) w (Hr w Hw)) in Ho as (x & Hx & Hc); [|lia].
  apply Hne. apply (Hap w v x); try done. by apply (range_covers st v r).
Qed.

Lemma audit_ok t lower upper :
  good st t -> by_key st (views t) ->
  Forall (fun v => above lower (key st v) && below upper (key st v) = true) (views t) ->
  (forall v, v ∈ views t -> ranges_ok bit (active st v)) ->
  (forall w w' x, w ∈ views t -> w' ∈ views t -> covered st w x -> covered st w' x -> w = w') ->
  audit_index st t lower upper = Some (height t, cached_end t, Z.of_nat (length (views t))).
Proof.
  revert lower upper. induction t as [|l IHl n r IHr]; intros lower upper Gt Hs Hb Hr Hap; [done|].
  pose proof Gt as (Gl & Gr & (An & Kn & Hh & He) & Hbal). cbn [views] in *.
  apply StronglySorted_app in Hs as (Hlr & Hsl & [Hsr Hnr]%StronglySorted_inv).
  rewrite Forall_app, Forall_cons in Hb. destruct Hb as (Hbl & Hbn & Hbr).
  assert (Hnl : forall w, w ∈ views l -> key st w < key st (n_view n)) by (intros w Hw; apply Hlr; [done|by left]).
  rewrite Forall_forall in Hnr, Hbl, Hbr. apply andb_true_iff in Hbn as [Hbn1 Hbn2].
  cbn [audit_index]. rewrite Kn. fold (above lower (key st (n_view n))). fold (below upper (key st (n_view n))).
  rewrite Hbn1, Hbn2. simpl.
  rewrite IHl; try done; cycle 1.
  { apply Forall_forall. intros w Hw. specialize (Hbl w Hw). apply andb_true_iff in Hbl as [-> _]. simpl.
  apply Z.ltb_lt. by apply Hnl. }
  { intros w Hw. apply Hr. set_solver. }
  { intros w w' x Hw Hw'. apply Hap; set_solver. }
  simpl. rewrite IHr; try done; cycle 1.
  { apply Forall_forall. intros w Hw. specialize (Hbr w Hw). apply andb_true_iff in Hbr as [_ ->]. simpl.
  rewrite andb_true_r. apply Z.ltb_lt. by apply Hnr. }
  { intros w Hw. apply Hr. set_solver. }
  { intros w w' x Hw Hw'. apply Hap; set_solver. }
  simpl. rewrite bool_decide_false by (by destruct (active st (n_view n))). simpl.
  pose proof (Hr (n_view n) ltac:(set_solver)) as Hrn.
  rewrite ascending_sorted by apply Hrn. simpl.
  pose proof (audit_apart (Node l n r) (n_view n) ltac:(simpl; set_solver) Hr Hap) as Hno. simpl in Hno. rewrite Hno. simpl.
  destruct (audit_local (n_view n) Hrn An) as [Hmin Hmax]. rewrite Hmin. simpl. rewrite Z.eqb_refl. simpl.
  rewrite Hmax. simpl. rewrite Hh, Z.eqb_refl. simpl. rewrite (proj2 (Z.leb_le _ _)) by done. simpl.
  pose proof (vend_nonneg (n_view n) Hrn) as Hv0.
  assert (Hend : n_max_end n = Z.max (Z.max (vend st (n_view n)) (cached_end l)) (cached_end r)).
  { rewrite He. destruct l, r; simpl; lia. }
  rewrite Hend at 1. rewrite Z.eqb_refl. simpl. rewrite <- Hend, length_app. simpl. do 3 f_equal. lia.
Qed.
End audit.

Lemma IInv_audit bit s : IInv bit s -> Index_audit (sp_store s) (sp_index s) = Some tt.
Proof.
  intros [Gt Hs Hlen _ Hr Hap]. unfold Index_audit. rewrite (audit_ok bit); try done.
  - simpl. by rewrite Hlen, Z.eqb_refl.
  - by apply Forall_forall.
Qed.

(** [usize] many views make a tree of height at most 129. *)
Lemma IInv_height bit s : IInv bit s -> 0 <= height (root (sp_index s)) < 130.
Proof.
  intros [Gt _ Hlen Hroom _ _]. destruct (good_height _ _ Gt) as [Hh _]. split; [done|].
  pose proof (height_bound _ _ Gt) as Hb. rewrite <- Hlen in Hb. rewrite usize_MAX_eq in Hroom.
  destruct (Z.lt_ge_cases (height (root (sp_index s))) 130) as [|Hge]; [done|]. exfalso.
  assert (2 ^ 65 <= 2 ^ (height (root (sp_index s)) / 2)).
  { apply Z.pow_le_mono_r; [lia|]. apply Z.div_le_lower_bound; lia. }
  change (2 ^ 65) with 36893488147419103232 in *. lia.
Qed.

(** ** Example: two views, the first with a hole *)

Definition range_a : ActiveRange := mkRange 4096 12288 7 3.
Definition range_b : ActiveRange := mkRange 65536 4096 7 1.

Lemma single_ranges_ok r : range_ok 38 r -> ranges_ok 38 [r].
Proof. intros Hr. split; [apply (pieces_sorted 38); [by list_ok|sorted_ok]|by list_ok]. Qed.

Lemma range_a_ok : range_ok 38 range_a.
Proof. split; simpl; rewrite ?usize_MAX_eq; try lia; [left; lia|done]. Qed.

Lemma range_b_ok : range_ok 38 range_b.
Proof. split; simpl; rewrite ?usize_MAX_eq; try lia; [left; lia|done]. Qed.

Definition space1 : Space := mkSpace {[ 1 := [range_a] ]} (mkIndex (Node Leaf (cached 1 4096 16383) Leaf) 1).

Lemma space1_reach : reach 38 space1.
Proof.
  eapply (reach_op 38 space0 (Commit 1 [range_a] 4096 16383)); [constructor| |vm_compute; reflexivity].
  simpl. split_and!; [by apply not_elem_of_nil|apply single_ranges_ok, range_a_ok|done|lia| |rewrite usize_MAX_eq; lia].
  apply Forall_cons_2; [|done]. split; by vm_compute.
Qed.

Definition space2 : Space :=
  mkSpace {[ 1 := [range_a]; 2 := [range_b] ]}
    (mkIndex (Node Leaf (mkNode 1 4096 2 69631) (Node Leaf (cached 2 65536 69631) Leaf)) 2).

Lemma space2_reach : reach 38 space2.
Proof.
  eapply (reach_op 38 space1 (Commit 2 [range_b] 65536 69631)); [apply space1_reach| |vm_compute; reflexivity].
  simpl. split_and!; [|apply single_ranges_ok, range_b_ok|done|lia| |rewrite usize_MAX_eq; lia].
  - intros [?|?%not_elem_of_nil]%elem_of_cons; done.
  - apply Forall_cons_2; [|done]. split; by vm_compute.
Qed.

(** ** Claims *)

(** C11: in every state the operations of an address space can reach, commits,
    withdrawals, changes of rights and the close return without a panic of the
    tree code; an error leaves index and ranges as they were; and the new
    state passes the kernel's own audit, with a height that fits its [u8]. *)
Theorem index_operations_safe bit s o :
  good_bit bit -> reach bit s -> enabled bit o s ->
  exists r s', exec bit o s = Some (r, s') /\ reach bit s' /\
    match r with Err _ => s' = s | Ok _ => True end /\
    Index_audit (sp_store s') (sp_index s') = Some tt /\
    height (root (sp_index s')) < 2 ^ 8 - 1.
Proof.
  intros Hb Hr Hen. destruct (exec_runs bit o s Hb (reach_IInv bit s Hb Hr) Hen) as (r & s' & Hrun & HI & Hx).
  exists r, s'. split; [done|]. split; [by eapply reach_op|]. split; [done|]. split; [by eapply IInv_audit|].
  destruct (IInv_height bit s' HI). lia.
Qed.

Lemma good_bit_38 : good_bit 38.
Proof. unfold good_bit. lia. Qed.

Lemma index_operations_safe_witness :
  exists r s', exec 38 (Withdraw 1 8192 12287) space2 = Some (r, s') /\ reach 38 s' /\
    Index_audit (sp_store s') (sp_index s') = Some tt.
Proof.
  destruct (index_operations_safe 38 space2 (Withdraw 1 8192 12287) good_bit_38 space2_reach)
    as (r & s' & Hrun & Hr & _ & Ha & _).
  - simpl. split; [|lia]. left.
  - exists r, s'. split; [exact Hrun|]. split; [exact Hr|exact Ha].
Defined.

(** Looking up an address in the index is looking at every view: in every
    reachable state [find] answers the view that has the address active, and
    there is at most one; [first_overlap] answers the view of least start among
    those with an active address in the interval, and none only if there is
    none; [collect] lists all views by start. *)
Theorem index_lookup bit s a lo hi v :
  good_bit bit -> reach bit s -> lo <= hi ->
  let st := sp_store s in let i := sp_index s in
  let meets w := exists x, lo <= x <= hi /\ covered st w x in
  (Index_find st a i = Some v <-> v ∈ Index_collect [] i /\ covered st v a) /\
  match Index_first_overlap st lo hi i with
  | Some w => w ∈ Index_collect [] i /\ meets w /\
      forall u, u ∈ Index_collect [] i -> meets u -> key st w <= key st u
  | None => forall u, u ∈ Index_collect [] i -> ~ meets u
  end /\
  by_key st (Index_collect [] i).
Proof.
  intros Hb Hr Hle. destruct (reach_IInv bit s Hb Hr) as [Gt Hs Hlen Hroom Hok Hap]. destruct s as [st i].
  cbn [sp_store sp_index] in *. unfold Index_find, Index_first_overlap, Index_collect.
  rewrite find_view_eq, first_overlap_eq, collect_views_eq by done. simpl.
  split; [|split; [|done]].
  - split.
    + intros [Hv%list_elem_of_In Ho]%List.find_some. split; [done|].
      apply (overlaps_covered bit) in Ho as (x & Hx & Hc); [|by apply Hok|lia]. by replace a with x by lia.
    + intros [Hv Hc]. destruct (List.find _ _) as [w|] eqn:Hf.
      * apply List.find_some in Hf as [Hw%list_elem_of_In Ho].
        apply (overlaps_covered bit) in Ho as (x & Hx & Hcw); [|by apply Hok|lia].
        f_equal. apply (Hap w v x Hw Hv Hcw). by replace x with a by lia.
      * pose proof (List.find_none _ _ Hf v (proj1 (list_elem_of_In _ _) Hv)) as Ho.
        rewrite (proj2 (overlaps_covered bit st a a v (Hok v Hv) ltac:(lia))) in Ho; [done|]. exists a. split; [lia|done].
  - destruct (List.find _ _) as [w|] eqn:Hf.
    + apply find_first in Hf as (l1 & l2 & E & Ho & Hl1).
      assert (Hw : w ∈ views (root i)) by (rewrite E; set_solver). split; [done|].
      split; [by apply (overlaps_covered bit); [apply Hok| |]|].
      intros u Hu Hm%(overlaps_covered bit); [|by apply Hok|done].
      rewrite E in Hu, Hs. apply elem_of_app in Hu as [Hu|[->|Hu]%elem_of_cons]; [|lia|].
      * rewrite Forall_forall in Hl1. specialize (Hl1 u Hu). simpl in Hl1. congruence.
      * apply StronglySorted_app in Hs as (_ & _ & [_ Hs]%StronglySorted_inv).
        rewrite Forall_forall in Hs. specialize (Hs u Hu). lia.
    + intros u Hu Hm. apply (overlaps_covered bit) in Hm; [|by apply Hok|done].
      pose proof (List.find_none _ _ Hf u (proj1 (list_elem_of_In _ _) Hu)). simpl in *. congruence.
Qed.

Lemma index_lookup_witness :
  Index_find (sp_store space2) 65540 (sp_index space2) = Some 2 /\ covered (sp_store space2) 2 65540.
Proof.
  split; [vm_compute; reflexivity|].
  apply (index_lookup 38 space2 65540 0 0 2 good_bit_38 space2_reach); [lia|vm_compute; reflexivity].
Defined.

(** [ActiveRange::split] on the range list of a view changes the rights of
    exactly the addresses of the interval: without an access right it removes
    them, with one it replaces their current right and keeps the ceiling.  The
    list stays in order, inside one half of the address space and with legal
    rights. *)
Theorem split_exact bit l lo hi access :
  good_bit bit -> ranges_ok bit l -> lo <= hi -> all_hold bit lo hi l access ->
  exists l', ActiveRange_split bit true l lo hi access = Ok l' /\ ranges_ok bit l' /\
    forall x, span_at l' x =
      if decide (lo <= x <= hi)
      then d ← span_at l x; a ← access; Some (d.1, a)
      else span_at l x.
Proof.
  intros Hb Hok Hle Hall. destruct (split_ok bit lo hi Hb Hle l access Hok Hall) as (l' & Hs & Hok' & Hat).
  exists l'. split; [done|]. split; [done|]. intros x. rewrite Hat. unfold split_tag.
  destruct (span_at l x) as [d|]; simpl; case_decide; try done.
Qed.

Lemma split_exact_witness :
  exists l', ActiveRange_split 38 true [range_a] 8192 12287 None = Ok l' /\ ranges_ok 38 l' /\
    span_at l' 9000 = None /\ span_at l' 5000 = Some (7, 3).
Proof.
  destruct (split_exact 38 [range_a] 8192 12287 None good_bit_38) as (l' & H1 & H2 & H3).
  - apply single_ranges_ok, range_a_ok.
  - lia.
  - apply Forall_cons_2; [|done]. split; [apply range_a_ok|done].
  - exists l'. split; [exact H1|]. split; [exact H2|]. split; rewrite H3; vm_compute; reflexivity.
Defined.

(** [ActiveRange::narrow] never gives a right.  On success every address
    keeps its coverage, its new ceiling is contained in the old one and its
    new current right in the old current right and in the new ceiling, and
    outside the interval nothing changes; it is refused exactly when an
    overlapping range has a smaller ceiling or would be left without a legal
    right. *)
Theorem narrow_never_widens bit l lo hi ceiling :
  good_bit bit -> ranges_ok bit l -> lo <= hi ->
  match ActiveRange_narrow bit true l lo hi ceiling with
  | Ok l' => ranges_ok bit l' /\ Forall (fun r => ~ refuses lo hi ceiling r) l /\
      forall x, match span_at l x, span_at l' x with
      | Some (c, a), Some (c', a') => Access_contains c c' = true /\ Access_contains a a' = true /\
          Access_contains c' a' = true /\
          if decide (lo <= x <= hi) then c' = ceiling /\ a' = Z.land a ceiling else (c', a') = (c, a)
      | None, None => True
      | _, _ => False
      end
  | Err e => e = WidenDenied /\ Exists (refuses lo hi ceiling) l
  end.
Proof.
  intros Hb Hok Hle. pose proof (narrow_ok bit lo hi Hb Hle ceiling l Hok) as Hn.
  destruct (ActiveRange_narrow bit true l lo hi ceiling) as [l'|e]; [|done]. destruct Hn as (Hno & Hok' & Hat).
  split; [done|]. split; [done|]. intros x. rewrite Hat. destruct (span_at l x) as [[c a]|] eqn:Hx; simpl; [|done].
  apply span_at_inv in Hx as (r & Hr & Hxr & [= <- <-]). destruct Hok as [_ Hok].
  rewrite Forall_forall in Hok, Hno. destruct (ro_rights _ _ (Hok r Hr)) as [Hc Ha].
  unfold narrow_tag. case_decide as Hd; simpl.
  - split_and!; [| |apply contains_land|done|done].
    + destruct (Access_contains (a_ceiling r) ceiling) eqn:E; [done|]. exfalso. apply (Hno r Hr). split; [|by left].
      destruct (a_overlaps lo hi r) eqn:Ho; [done|]. by eapply not_overlap_at in Ho.
    + rewrite Z.land_comm. apply contains_land.
  - unfold Access_contains. rewrite !Z.land_diag, !Z.eqb_refl. done.
Qed.

Lemma narrow_never_widens_witness :
  ActiveRange_narrow 38 true [range_a] 8192 12287 1 =
    Ok [mkRange 4096 4096 7 3; mkRange 8192 4096 1 1; mkRange 12288 4096 7 3] /\
  ranges_ok 38 [mkRange 4096 4096 7 3; mkRange 8192 4096 1 1; mkRange 12288 4096 7 3].
Proof.
  pose proof (narrow_never_widens 38 [range_a] 8192 12287 1 good_bit_38) as H.
  assert (E : ActiveRange_narrow 38 true [range_a] 8192 12287 1 =
    Ok [mkRange 4096 4096 7 3; mkRange 8192 4096 1 1; mkRange 12288 4096 7 3]) by (vm_compute; reflexivity).
  rewrite E in H. split; [exact E|]. apply H; [apply single_ranges_ok, range_a_ok|lia].
Defined.

(** [ActiveRange::cover] says of an ordered list whether every address of
    the interval is active. *)
Theorem cover_iff bit l lo hi :
  ranges_ok bit l -> lo <= hi ->
  cover l lo hi = true <-> forall x, lo <= x <= hi -> is_Some (current_at l x).
Proof.
  intros [Hs _] Hle. rewrite cover_true by done.
  split; intros H x Hx; specialize (H x Hx); rewrite current_at_span, fmap_is_Some in *; done.
Qed.

Lemma cover_iff_witness :
  cover [range_a] 8192 12287 = true /\ is_Some (current_at [range_a] 9000).
Proof.
  split; [vm_compute; reflexivity|].
  apply (proj1 (cover_iff 38 [range_a] 8192 12287 (single_ranges_ok _ range_a_ok) ltac:(lia))); [vm_compute; reflexivity|lia].
Defined.
