(* ===== verification/Paging.v ===== *)
(** * Page tables ([core/memory/nest/table])

    The owned tree of page tables: every table is a page of 512 entries and the
    list of the child tables its branch entries point at.  The operations are
    the kernel's: walking, splitting superpages, preparing and mapping a range
    with superpages where they fit, changing permissions, unmapping, and
    pruning empty tables.  A [&mut] entry is the path that leads to it.  The
    page-frame and heap allocators are the answers they give, in order. *)

From S2P Require Import Prelude.
From S2P Require Import Occupancy.
From S2P Require Import Active.

Open Scope Z_scope.

(** ** Entries ([table/entry.rs], [table/flags.rs]) *)

Definition PTE_V : Z := 1.
Definition PTE_R : Z := 2.
Definition PTE_W : Z := 4.
Definition PTE_X : Z := 8.
Definition PTE_RWX : Z := Z.lor PTE_R (Z.lor PTE_W PTE_X).
Definition PTE_ALL : Z := 255.
Definition FLAGS_MASK : Z := 1023.
Definition PPN_SHIFT : Z := 10.

Definition pte_flags (bits : Z) : Z := Z.land (Z.land bits FLAGS_MASK) PTE_ALL.
Definition is_valid (bits : Z) : bool := Z.land (pte_flags bits) PTE_V =? PTE_V.
Definition is_leaf (bits : Z) : bool := negb (Z.land (pte_flags bits) PTE_RWX =? 0).
Definition is_branch (bits : Z) : bool := is_valid bits && negb (is_leaf bits).
Definition pte_ppn (bits : Z) : Z := Z.shiftr bits PPN_SHIFT.
Definition pte_paddr (bits : Z) : Z := wrap64 (Z.shiftl (pte_ppn bits) 12).
Definition pte_set (ppn flags : Z) : Z := Z.lor (wrap64 (Z.shiftl ppn PPN_SHIFT)) flags.
Definition pte_set_flags (bits flags : Z) : Z := Z.lor (Z.ldiff bits FLAGS_MASK) flags.

#[global] Arguments pte_flags : simpl never.
#[global] Arguments is_valid : simpl never.
#[global] Arguments is_leaf : simpl never.
#[global] Arguments pte_ppn : simpl never.
#[global] Arguments pte_paddr : simpl never.
#[global] Arguments pte_set : simpl never.
#[global] Arguments pte_set_flags : simpl never.

(** ** Tables *)

Record Geo := mkGeo { levels : nat; va_bits : Z }.

Inductive Mode := Sv39 | Sv48 | Sv57.

Definition geometry (mode : Mode) : Geo :=
  match mode with
  | Sv39 => mkGeo 3 39
  | Sv48 => mkGeo 4 48
  | Sv57 => mkGeo 5 57
  end.

Definition split_bit (geo : Geo) : Z := va_bits geo - 1.

(** [page] is the address of the table's page. *)
Inductive TableNode := mkNode (page : Z) (entries : list Z) (children : list (Z * TableNode)).

Definition page (node : TableNode) : Z := let 'mkNode p _ _ := node in p.
Definition entries (node : TableNode) : list Z := let 'mkNode _ e _ := node in e.
Definition children (node : TableNode) : list (Z * TableNode) := let 'mkNode _ _ c := node in c.

(** The answers of the frame allocator ([None] when it has no page) and of the
    heap, the live-table counter, and the list the pruned tables go to with
    its capacity. *)
Record World := mkWorld {
  tables : list (option Z);
  grants : list bool;
  live : Z;
  retired : list TableNode;
  room : Z
}.

Abbreviation PT := (M (TableNode * World) NestError).

Definition put_node (node : TableNode) : PT unit := s ← get; put (node, s.2).
Definition put_world (w : World) : PT unit := s ← get; put (s.1, w).

Definition table_ppn (node : TableNode) : Z := Z.shiftr (page node) PAGE_SHIFT.

Fixpoint node_count (node : TableNode) : Z :=
  let 'mkNode _ _ cs := node in
  1 + (fix sum l := match l with [] => 0 | (_, c) :: l => node_count c + sum l end) cs.

(** [PageTable::new]: a zeroed page. *)
Definition PageTable_new : PT Z :=
  s ← get;
  let w := s.2 in
  match tables w with
  | Some p :: rest => _ ← put_world (mkWorld rest (grants w) (live w + 1) (retired w) (room w)); mret p
  | None :: rest => _ ← put_world (mkWorld rest (grants w) (live w) (retired w) (room w)); fail NOutOfMemory
  | [] => fail NOutOfMemory
  end.

Definition zero_page : list Z := replicate 512 0.
#[global] Arguments zero_page : simpl never.

Definition TableNode_leaf : PT TableNode := p ← PageTable_new; mret (mkNode p zero_page []).

Definition TableNode_root : PT TableNode := TableNode_leaf.

(** [Drop] of a table with its children. *)
Definition drop_table (node : TableNode) : PT unit :=
  s ← get;
  let w := s.2 in
  put_world (mkWorld (tables w) (grants w) (live w - node_count node) (retired w) (room w)).

Definition table_try_reserve : PT unit :=
  s ← get;
  let w := s.2 in
  match grants w with
  | true :: rest => put_world (mkWorld (tables w) rest (live w) (retired w) (room w))
  | false :: rest => _ ← put_world (mkWorld (tables w) rest (live w) (retired w) (room w)); fail NOutOfMemory
  | [] => fail NOutOfMemory
  end.

Definition span_of (level : nat) : Z := Z.shiftl 1 (PAGE_SHIFT + 9 * Z.of_nat level).
Definition index_at (va : Z) (level : nat) : Z := VirtAddr_vpn va (Z.of_nat level).

#[global] Arguments span_of : simpl never.
#[global] Arguments index_at : simpl never.

(** The first child filed under [idx], and the children with it replaced. *)
Fixpoint find_child (idx : Z) (cs : list (Z * TableNode)) : option TableNode :=
  match cs with
  | [] => None
  | (i, c) :: cs => if i =? idx then Some c else find_child idx cs
  end.

Fixpoint put_child (idx : Z) (child : TableNode) (cs : list (Z * TableNode)) : list (Z * TableNode) :=
  match cs with
  | [] => []
  | (i, c) :: cs => if i =? idx then (i, child) :: cs else (i, c) :: put_child idx child cs
  end.

(** Run on the child filed under [idx], which has to be there. *)
Definition zoom {A} (idx : Z) (m : PT A) : PT A := fun s =>
  let '(mkNode p es cs, w) := s in
  match find_child idx cs with
  | None => None
  | Some c =>
      match m (c, w) with
      | None => None
      | Some (r, (c', w')) => Some (r, (mkNode p es (put_child idx c' cs), w'))
      end
  end.

Definition read_entry (idx : Z) : PT Z := s ← get; expect (nth_z (entries s.1) idx).
Definition write_entry (idx bits : Z) : PT unit :=
  s ← get;
  let 'mkNode p es cs := s.1 in
  _ ← expect (nth_z es idx);
  put_node (mkNode p (<[Z.to_nat idx := bits]> es) cs).
Definition push_child (idx : Z) (child : TableNode) : PT unit :=
  s ← get;
  let 'mkNode p es cs := s.1 in
  put_node (mkNode p es (cs ++ [(idx, child)])).

(** File [child] under [idx] and make the entry a branch to it. *)
Definition link_child (idx : Z) (child : TableNode) : PT unit :=
  _ ← on_err table_try_reserve (drop_table child);
  _ ← push_child idx child;
  write_entry idx (pte_set (table_ppn child) PTE_V).

(** ** Walking *)

Fixpoint entry_at (n : nat) (va : Z) (target : nat) (alloc : bool) : PT Z :=
  match n with
  | O => panic
  | S level =>
      let idx := index_at va level in
      entry ← read_entry idx;
      if (level =? target)%nat then mret entry
      else if is_leaf entry && is_valid entry then fail AlreadyMapped
      else
        _ ← (if negb (is_valid entry) then
               if negb alloc then fail NotMapped
               else child ← TableNode_leaf; link_child idx child
             else mret tt);
        zoom idx (entry_at level va target alloc)
  end.

(** The write through the reference that [entry_at] returned. *)
Fixpoint store_at_path (n : nat) (va : Z) (target : nat) (bits : Z) : PT unit :=
  match n with
  | O => panic
  | S level =>
      let idx := index_at va level in
      if (level =? target)%nat then write_entry idx bits
      else zoom idx (store_at_path level va target bits)
  end.

Definition walk_mut (va : Z) (alloc : bool) (levels : nat) : PT Z := entry_at levels va 0 alloc.

(** [None] is an index out of the table. *)
Fixpoint leaf_ref_geometry (n : nat) (va : Z) (node : TableNode) : option (result NestError (Z * nat)) :=
  match n with
  | O => Some (Err NotMapped)
  | S level =>
      let idx := index_at va level in
      entry ← nth_z (entries node) idx;
      if negb (is_valid entry) || is_leaf entry then Some (Ok (entry, level))
      else match find_child idx (children node) with
      | None => Some (Err NotMapped)
      | Some child => leaf_ref_geometry level va child
      end
  end.

Definition leaf_ref (geo : Geo) (va : Z) : PT (Z * nat) :=
  s ← get; r ← expect (leaf_ref_geometry (levels geo) va s.1); lift r.

Definition page_offset (va : Z) (level : nat) : Z :=
  Z.ldiff (Z.land va (span_of level - 1)) (PAGE_SIZE - 1).

Definition walk_ref_geometry (geo : Geo) (va : Z) (node : TableNode) : option (result NestError (Z * Z)) :=
  r ← leaf_ref_geometry (levels geo) va node;
  match r with
  | Err e => Some (Err e)
  | Ok (entry, level) =>
      if negb (is_valid entry) || negb (is_leaf entry) then Some (Err NotMapped)
      else
        let base := pte_paddr entry in
        if negb (Z.land base (span_of level - 1) =? 0) then Some (Err NotMapped)
        else Some (Ok (base + page_offset va level, pte_flags entry))
  end.

(** The same walk over raw memory: [load] reads a 64-bit word, [ok] says which
    physical addresses may be read. *)
Fixpoint walk_raw_loop (load : Z -> Z) (ok : Z -> bool) (n : nat) (tbl va : Z) : option (Z * Z) :=
  match n with
  | O => None
  | S level =>
      let pte := load (tbl + index_at va level * 8) in
      if negb (is_valid pte) then None
      else if is_leaf pte then
        let base := pte_paddr pte in
        if negb (Z.land base (span_of level - 1) =? 0) then None
        else
          let pa := base + page_offset va level in
          if ok pa then Some (pa, pte_flags pte) else None
      else
        let tbl := pte_paddr pte in
        if negb (ok tbl) then None else walk_raw_loop load ok level tbl va
  end.

Definition walk_raw (geo : Geo) (load : Z -> Z) (ok : Z -> bool) (root va : Z) : option (Z * Z) :=
  if negb (ok root) then None else walk_raw_loop load ok (levels geo) root va.

Definition leaf_span_geometry (geo : Geo) (va : Z) (node : TableNode) : option (option Z) :=
  r ← leaf_ref_geometry (levels geo) va node;
  match r with
  | Ok (entry, level) => Some (if is_valid entry && is_leaf entry then Some (span_of level) else None)
  | Err _ => Some None
  end.

(** ** Splitting superpages *)

(** The 512 entries that say together what the superpage entry said. *)
Definition split_entries (entry : Z) (level : nat) : list Z :=
  (fun i => pte_set (Z.shiftr (pte_paddr entry + i * span_of level) PAGE_SHIFT) (pte_flags entry)) <$> seqZ 0 512.

Fixpoint split_at_geometry (n : nat) (va : Z) (target : nat) : PT unit :=
  match n with
  | O => mret tt
  | S level =>
      if (level <=? target)%nat then mret tt
      else
        let idx := index_at va level in
        entry ← read_entry idx;
        if negb (is_valid entry) then mret tt
        else
          _ ← (if is_leaf entry then
                 child ← TableNode_leaf;
                 link_child idx (mkNode (page child) (split_entries entry (level - 1)) (children child))
               else mret tt);
          zoom idx (split_at_geometry level va target)
  end.

(** One end of the range: split until the leaf there lies inside it.  A split
    lowers the level of the leaf, so [levels] rounds and one more suffice. *)
Fixpoint prepare_loop (geo : Geo) (fuel : nat) (point remaining : Z) (at_start : bool) : PT unit :=
  match fuel with
  | O => panic
  | S fuel =>
      r ← leaf_ref geo point;
      let '(entry, level) := r in
      if negb (is_valid entry) || (level =? 0)%nat then mret tt
      else
        let span := span_of level in
        let offset := Z.land point (span - 1) in
        let covered :=
          if at_start then (offset =? 0) && (span <=? remaining)
          else (offset + PAGE_SIZE =? span) && (span <=? remaining) in
        if covered then mret tt
        else
          _ ← split_at_geometry (levels geo) point (level - 1);
          prepare_loop geo fuel point remaining at_start
  end.

(** [prepare_with] at the allocator [prepare_geometry] gives it. *)
Definition prepare_geometry (geo : Geo) (va size : Z) : PT unit :=
  if negb (VirtAddr_offset va =? 0) || negb (Z.land size (PAGE_SIZE - 1) =? 0) then fail NNotAligned
  else if size =? 0 then mret tt
  else
    _ ← prepare_loop geo (S (levels geo)) va size true;
    last ← uadd va (size - PAGE_SIZE);
    prepare_loop geo (S (levels geo)) last size false.

(** ** Mapping *)

Fixpoint pick_target (target : nat) (rest vp : Z) : nat :=
  match target with
  | O => O
  | S t =>
      if (rest <? span_of target) || negb (Z.land vp (span_of target - 1) =? 0) then pick_target t rest vp
      else target
  end.

Definition first_target (geo : Geo) (rest v p : Z) : nat := pick_target (Nat.min 2 (levels geo - 1)) rest (Z.lor v p).

(** The span of the first free entry at [v], from [target] down. *)
Fixpoint probe (geo : Geo) (v : Z) (target : nat) : PT Z :=
  entry ← entry_at (levels geo) v target true;
  if negb (is_valid entry) then mret (span_of target)
  else match target with
  | O => fail AlreadyMapped
  | S t => if is_leaf entry then fail AlreadyMapped else probe geo v t
  end.

Fixpoint prepare_range_loop (geo : Geo) (fuel : nat) (va pa size offset : Z) : PT unit :=
  match fuel with
  | O => panic
  | S fuel =>
      if offset <? size then
        v ← uadd va offset;
        p ← uadd pa offset;
        step ← probe geo v (first_target geo (size - offset) v p);
        prepare_range_loop geo fuel va pa size (offset + step)
      else mret tt
  end.

(** Every round takes at least a page. *)
Definition rounds (size : Z) : nat := S (Z.to_nat (size / PAGE_SIZE)).

Definition PhysAddr_is_aligned (pa : Z) : bool := Z.land pa (PAGE_SIZE - 1) =? 0.

Definition prepare_range_geometry (geo : Geo) (va pa size : Z) : PT unit :=
  if negb (VirtAddr_offset va =? 0) || negb (PhysAddr_is_aligned pa) || (size =? 0)
     || negb (Z.land size (PAGE_SIZE - 1) =? 0)
  then fail NNotAligned
  else prepare_range_loop geo (rounds size) va pa size 0.

(** [Result::expect]. *)
Definition unwrap {A} (m : PT A) : PT A := fun s =>
  match m s with Some (Ok a, s') => Some (Ok a, s') | _ => None end.

Fixpoint map_range_loop (geo : Geo) (fuel : nat) (va pa size flags offset : Z) : PT unit :=
  match fuel with
  | O => panic
  | S fuel =>
      if offset <? size then
        v ← uadd va offset;
        p ← uadd pa offset;
        let target := first_target geo (size - offset) v p in
        entry ← unwrap (entry_at (levels geo) v target false);
        _ ← assert_that (negb (is_valid entry));
        _ ← store_at_path (levels geo) v target (pte_set (Z.shiftr p PAGE_SHIFT) (Z.lor flags PTE_V));
        map_range_loop geo fuel va pa size flags (offset + span_of target)
      else mret tt
  end.

Definition map_range_prepared_geometry (geo : Geo) (va pa size flags : Z) : PT unit :=
  _ ← assert_that (VirtAddr_offset va =? 0);
  _ ← assert_that (PhysAddr_is_aligned pa);
  map_range_loop geo (rounds size) va pa size flags 0.

(** ** Permissions *)

Definition with_permissions (bits flags : Z) : Z :=
  pte_set_flags bits (Z.lor (Z.ldiff (pte_flags bits) PTE_RWX) flags).

Definition set_permissions_prepared_geometry (geo : Geo) (va flags : Z) : PT unit :=
  entry ← unwrap (walk_mut va false (levels geo));
  _ ← assert_that (is_valid entry && is_leaf entry);
  store_at_path (levels geo) va 0 (with_permissions entry flags).

Fixpoint protect_check (geo : Geo) (fuel : nat) (va size offset : Z) : PT unit :=
  match fuel with
  | O => panic
  | S fuel =>
      if offset <? size then
        v ← uadd va offset;
        r ← leaf_ref geo v;
        let '(entry, level) := r in
        if negb (is_valid entry) || negb (is_leaf entry) then fail NotMapped
        else protect_check geo fuel va size (offset + span_of level)
      else mret tt
  end.

Fixpoint protect_write (geo : Geo) (fuel : nat) (va size flags offset : Z) : PT unit :=
  match fuel with
  | O => panic
  | S fuel =>
      if offset <? size then
        point ← uadd va offset;
        r ← leaf_ref geo point;
        let level := r.2 in
        entry ← entry_at (levels geo) point level false;
        _ ← store_at_path (levels geo) point level (with_permissions entry flags);
        protect_write geo fuel va size flags (offset + span_of level)
      else mret tt
  end.

Definition protect_permissions_geometry (geo : Geo) (va size flags : Z) : PT unit :=
  _ ← prepare_geometry geo va size;
  _ ← protect_check geo (rounds size) va size 0;
  protect_write geo (rounds size) va size flags 0.

(** ** Unmapping *)

Fixpoint each {A} (f : A -> PT unit) (l : list A) : PT unit :=
  match l with [] => mret tt | a :: l => _ ← f a; each f l end.

Fixpoint clear_leaf_range (n : nat) (node_va start_ end_ : Z) : PT unit :=
  match n with
  | O => panic
  | S level =>
      let span := span_of level in
      let node_end := node_va + span * 512 in
      if (end_ <=? node_va) || (node_end <=? start_) then mret tt
      else
        let first := (Z.max start_ node_va - node_va) / span in
        let last := (Z.min end_ node_end - node_va - 1) / span in
        each (fun slot =>
          entry ← read_entry slot;
          if negb (is_valid entry) then mret tt
          else if is_leaf entry then
            let base := node_va + slot * span in
            _ ← assert_that ((start_ <=? base) && (base + span <=? end_));
            write_entry slot 0
          else
            s ← get;
            match find_child slot (children s.1) with
            | Some _ => zoom slot (clear_leaf_range level (node_va + slot * span) start_ end_)
            | None => mret tt
            end) (seqZ first (last - first + 1))
  end.

Definition unmap_prepared_geometry (geo : Geo) (va size : Z) : PT unit :=
  let mask := Z.shiftl 1 (va_bits geo) - 1 in
  let start_ := Z.land va mask in
  clear_leaf_range (levels geo) 0 start_ (start_ + size).

Definition unmap_keep_tables_geometry (geo : Geo) (va size : Z) : PT unit :=
  _ ← prepare_geometry geo va size;
  unmap_prepared_geometry geo va size.

(** ** Pruning *)

Definition reserve_retired_tables : PT unit :=
  s ← get;
  _ ← table_try_reserve;
  s' ← get;
  let w := s'.2 in
  put_world (mkWorld (tables w) (grants w) (live w) (retired w)
               (Z.max (room w) (len (retired w) + node_count s.1))).

Definition retire_table (node : TableNode) : PT unit :=
  s ← get;
  let w := s.2 in
  put_world (mkWorld (tables w) (grants w) (live w) (retired w ++ [node]) (room w)).

(** [Vec::swap_remove]. *)
Definition swap_remove {A} (i : nat) (l : list A) : option (A * list A) :=
  x ← l !! i;
  y ← l !! pred (length l);
  Some (x, removelast (<[i := y]> l)).

(** Run on the child at position [i]. *)
Definition zoom_nth {A} (i : nat) (m : PT A) : PT A := fun s =>
  let '(mkNode p es cs, w) := s in
  match cs !! i with
  | None => None
  | Some (slot, c) =>
      match m (c, w) with
      | None => None
      | Some (r, (c', w')) => Some (r, (mkNode p es (<[i := (slot, c')]> cs), w'))
      end
  end.

(** The child at position [index] leaves its parent for the retired list. *)
Definition retire_child (index : nat) : PT unit :=
  s ← get;
  let 'mkNode p es cs := s.1 in
  r ← expect (swap_remove index cs);
  let '((slot, child), cs') := r in
  _ ← put_node (mkNode p es cs');
  _ ← write_entry slot 0;
  retire_table child.

(** Every round either removes a child or passes one. *)
Fixpoint prune_loop (prune : PT bool) (fuel index : nat) : PT unit :=
  s ← get;
  if (length (children s.1) <=? index)%nat then mret tt
  else match fuel with
  | O => panic
  | S fuel =>
      gone ← zoom_nth index prune;
      if (gone : bool) then
        _ ← retire_child index;
        prune_loop prune fuel index
      else prune_loop prune fuel (S index)
  end.

Fixpoint prune_empty (n : nat) : PT bool :=
  match n with
  | O => panic
  | S level =>
      s ← get;
      _ ← prune_loop (prune_empty level) (length (children s.1)) 0;
      s ← get;
      mret (forallb (fun e => negb (is_valid e)) (entries s.1))
  end.

Definition reclaim_empty_tables (geo : Geo) : PT unit :=
  s ← get;
  _ ← assert_that (node_count s.1 <=? room s.2 - len (retired s.2));
  _ ← prune_empty (levels geo);
  mret tt.
