(* ===== verification/PagingInv.v ===== *)
(** * Page tables: translation and well-formedness

    [translate] is what a tree of tables maps, [wf] what every tree satisfies;
    the lemmas say how they change by writing an entry, filing a child and
    working inside a child.  Then the entry that covers a page, and the two walks
    of the code against [translate]. *)

From S2P Require Import Prelude.
From S2P Require Import Occupancy.
From S2P Require Import Active.
From S2P Require Import Paging.

Open Scope Z_scope.

(** ** Arithmetic of levels *)

(** Pages under an entry of level [k]. *)
Definition pg (k : nat) : Z := 512 ^ Z.of_nat k.

#[global] Arguments pg : simpl never.

Lemma pg_S k : pg (S k) = 512 * pg k.
Proof. unfold pg. rewrite Nat2Z.inj_succ, Z.pow_succ_r; lia. Qed.

Lemma pg_pos k : 0 < pg k.
Proof. unfold pg. apply Z.pow_pos_nonneg; lia. Qed.

Lemma pg_pow k : pg k = 2 ^ (9 * Z.of_nat k).
Proof. unfold pg. rewrite Z.pow_mul_r by lia. done. Qed.

Lemma span_eq k : span_of k = 4096 * pg k.
Proof.
  unfold span_of, PAGE_SHIFT. rewrite Z.shiftl_mul_pow2, pg_pow, Z.pow_add_r by lia. change (2 ^ 12) with 4096. lia.
Qed.

Lemma pg_le j k : (j <= k)%nat -> pg j <= pg k.
Proof. intros H. unfold pg. apply Z.pow_le_mono_r; lia. Qed.

Lemma pg_divide j k : (j <= k)%nat -> (pg j | pg k).
Proof.
  intros H. exists (pg (k - j)). unfold pg. rewrite <- Z.pow_add_r by lia. f_equal. lia.
Qed.

Lemma land_span x k : Z.land x (span_of k - 1) = x mod span_of k.
Proof.
  unfold span_of, PAGE_SHIFT. rewrite Z.shiftl_1_l, <- Z.land_ones, Z.ones_equiv by lia. f_equal.
Qed.

Lemma land_page x : Z.land x (PAGE_SIZE - 1) = x mod PAGE_SIZE.
Proof. exact (land_span x 0). Qed.

(** [va] leads to page [v] of a table with [n] levels below it. *)
Definition at_page (n : nat) (va v : Z) : Prop := 0 <= va /\ v = (va / 4096) mod pg n.

Lemma at_page_range n va v : at_page n va v -> 0 <= v < pg n.
Proof. intros [_ ->]. apply Z.mod_pos_bound, pg_pos. Qed.

Lemma at_page_index n va v : at_page (S n) va v -> index_at va n = v / pg n.
Proof.
  intros [Hva ->]. unfold index_at, VirtAddr_vpn, PAGE_SHIFT. change 511 with (Z.ones 9).
  rewrite Z.land_ones, Z.shiftr_div_pow2 by lia. rewrite Z.pow_add_r by lia. change (2 ^ 12) with 4096.
  rewrite <- Z.div_div by (try apply Z.pow_nonzero; lia). rewrite (Z.mul_comm (Z.of_nat n)), <- pg_pow.
  pose proof (pg_pos n). rewrite pg_S, (Z.mul_comm 512), Z.rem_mul_r by lia.
  rewrite Z.add_comm, Z.mul_comm, Z.div_add_l by lia. rewrite (Z.div_small (_ mod pg n)) by (apply Z.mod_pos_bound; lia).
  change (2 ^ 9) with 512. lia.
Qed.

Lemma at_page_down n va v : at_page (S n) va v -> at_page n va (v mod pg n).
Proof.
  intros [Hva ->]. split; [done|]. pose proof (pg_pos n).
  rewrite pg_S, (Z.mul_comm 512), Z.rem_mul_r by lia. by rewrite (Z.mul_comm (pg n) (_ mod 512)), Z.mod_add, Z.mod_mod by lia.
Qed.

Lemma index_range n v : 0 <= v < pg (S n) -> 0 <= v / pg n < 512.
Proof.
  rewrite pg_S. intros Hv. pose proof (pg_pos n). split; [apply Z.div_pos; lia|]. apply Z.div_lt_upper_bound; lia.
Qed.

Lemma mod_range n v : 0 <= v mod pg n < pg n.
Proof. apply Z.mod_pos_bound, pg_pos. Qed.

(** ** Entries *)

Lemma lor_add a b k : 0 <= k -> 0 <= b < 2 ^ k -> Z.lor (a * 2 ^ k) b = a * 2 ^ k + b.
Proof.
  intros Hk Hb. assert (Hz : Z.land (a * 2 ^ k) b = 0).
  { apply Z.bits_inj'. intros i Hi. rewrite Z.land_spec, Z.bits_0. destruct (Z.lt_ge_cases i k).
    - by rewrite Z.mul_pow2_bits_low.
    - destruct (Z.eq_dec b 0) as [->|Hb0]; [by rewrite Z.bits_0, andb_false_r|].
      rewrite (Z.bits_above_log2 b i), andb_false_r; [done|lia|]. apply Z.log2_lt_pow2; [lia|].
      apply Z.lt_le_trans with (2 ^ k); [lia|]. apply Z.pow_le_mono_r; lia. }
  rewrite <- Z.lxor_lor, <- Z.add_nocarry_lxor by done. done.
Qed.

Lemma flags_mod bits : pte_flags bits = bits mod 256.
Proof.
  unfold pte_flags, FLAGS_MASK, PTE_ALL. rewrite <- Z.land_assoc. change (Z.land 1023 255) with (Z.ones 8).
  by rewrite Z.land_ones.
Qed.

Lemma flags_range bits : 0 <= pte_flags bits < 256.
Proof. rewrite flags_mod. apply Z.mod_pos_bound. lia. Qed.

Lemma pte_set_eq ppn fl : 0 <= ppn < 2 ^ 54 -> 0 <= fl < 256 -> pte_set ppn fl = ppn * 1024 + fl.
Proof.
  intros Hp Hf. unfold pte_set, PPN_SHIFT, wrap64. rewrite Z.shiftl_mul_pow2 by lia.
  rewrite Z.mod_small by (change (2 ^ 64) with (2 ^ 54 * 2 ^ 10); nia). by apply (lor_add ppn fl 10); lia.
Qed.

Lemma pte_set_flags_eq ppn fl : 0 <= ppn < 2 ^ 54 -> 0 <= fl < 256 -> pte_flags (pte_set ppn fl) = fl.
Proof.
  intros Hp Hf. rewrite pte_set_eq, flags_mod by done. replace (ppn * 1024) with (ppn * 4 * 256) by lia.
  rewrite Z.add_comm, Z.mod_add, Z.mod_small; lia.
Qed.

Lemma pte_set_ppn ppn fl : 0 <= ppn < 2 ^ 54 -> 0 <= fl < 256 -> pte_ppn (pte_set ppn fl) = ppn.
Proof.
  intros Hp Hf. rewrite pte_set_eq by done. unfold pte_ppn, PPN_SHIFT. rewrite Z.shiftr_div_pow2 by lia.
  change (2 ^ 10) with 1024. rewrite Z.div_add_l, Z.div_small; lia.
Qed.

Lemma paddr_eq bits : 0 <= pte_ppn bits < 2 ^ 52 -> pte_paddr bits = pte_ppn bits * 4096.
Proof.
  intros Hp. unfold pte_paddr, wrap64. rewrite Z.shiftl_mul_pow2 by lia. rewrite Z.mod_small; [done|].
  change (2 ^ 64) with (2 ^ 52 * 2 ^ 12). nia.
Qed.

(** Whether an entry is valid or a leaf depends on its flags alone. *)
Lemma valid_flags a b : pte_flags a = pte_flags b -> is_valid a = is_valid b.
Proof. unfold is_valid. by intros ->. Qed.

Lemma leaf_flags a b : pte_flags a = pte_flags b -> is_leaf a = is_leaf b.
Proof. unfold is_leaf. by intros ->. Qed.

Lemma branch_entry ppn : 0 <= ppn < 2 ^ 52 ->
  is_valid (pte_set ppn PTE_V) = true /\ is_leaf (pte_set ppn PTE_V) = false /\ pte_paddr (pte_set ppn PTE_V) = ppn * 4096.
Proof.
  intros Hp. unfold is_valid, is_leaf. rewrite pte_set_flags_eq, paddr_eq; rewrite ?pte_set_ppn; unfold PTE_V; try done; lia.
Qed.

(** ** Translation *)

Fixpoint translate (n : nat) (node : TableNode) (v : Z) : option (Z * Z) :=
  match n with
  | O => None
  | S level =>
      e ← nth_z (entries node) (v / pg level);
      if negb (is_valid e) then None
      else if is_leaf e then Some (pte_ppn e + v mod pg level, pte_flags e)
      else c ← find_child (v / pg level) (children node); translate level c (v mod pg level)
  end.

(** ** Well-formed tables *)

Definition page_ok (p : Z) : Prop := 0 <= p < 2 ^ 56 /\ p mod 4096 = 0.

(** A leaf of level [k] is aligned to its size. *)
Definition frame_ok (k : nat) (ppn : Z) : Prop := 0 <= ppn /\ ppn + pg k <= 2 ^ 44 /\ ppn mod pg k = 0.

Definition slot_ok (W : TableNode -> Prop) (k : nat) (e : Z) (c : option TableNode) : Prop :=
  if is_valid e then
    if is_leaf e then c = None /\ frame_ok k (pte_ppn e)
    else exists c', c = Some c' /\ W c' /\ pte_paddr e = page c'
  else c = None.

Fixpoint wf (n : nat) (node : TableNode) : Prop :=
  match n with
  | O => False
  | S level =>
      page_ok (page node) /\ len (entries node) = 512 /\
      NoDup (children node).*1 /\ Forall (fun i => 0 <= i < 512) (children node).*1 /\
      forall i e, 0 <= i < 512 -> nth_z (entries node) i = Some e ->
        slot_ok (wf level) level e (find_child i (children node))
  end.

Lemma wf_entry n node i : wf (S n) node -> 0 <= i < 512 ->
  exists e, nth_z (entries node) i = Some e /\ slot_ok (wf n) n e (find_child i (children node)).
Proof.
  intros (_ & Hl & _ & _ & Hs) Hi. destruct (nth_z_lt (entries node) i) as [e He]; [lia|]. eauto.
Qed.

Lemma wf_page n node : wf n node -> page_ok (page node).
Proof. destruct n; [done|]. by intros [H _]. Qed.

(** ** Child lists *)

Lemma find_child_elem i c cs : find_child i cs = Some c -> (i, c) ∈ cs.
Proof.
  induction cs as [|[j d] cs IH]; [done|]. simpl. destruct (Z.eqb_spec j i) as [->|Hne].
  - intros [= ->]. by constructor.
  - intros H. constructor. by apply IH.
Qed.

Lemma find_child_None i cs : find_child i cs = None <-> i ∉ cs.*1.
Proof.
  induction cs as [|[j d] cs IH]; simpl; [by split; [intros _ H; apply elem_of_nil in H|]|].
  rewrite elem_of_cons. destruct (Z.eqb_spec j i) as [->|Hne].
  - split; [done|]. intros H. exfalso. by apply H; left.
  - rewrite IH. split; intros H; [by intros [->|?]|]. intros ?. by apply H; right.
Qed.

Lemma find_child_In i c cs : NoDup cs.*1 -> (i, c) ∈ cs -> find_child i cs = Some c.
Proof.
  induction cs as [|[j d] cs IH]; simpl; [intros _ H; by apply elem_of_nil in H|].
  intros Hnd Hin. apply NoDup_cons in Hnd as [Hj Hnd]. apply elem_of_cons in Hin as [[= <- <-]|Hin]; [by rewrite Z.eqb_refl|].
  destruct (Z.eqb_spec j i) as [->|]; [|by apply IH]. exfalso. apply Hj. apply list_elem_of_fmap. by exists (i, c).
Qed.

Lemma put_child_keys i c cs : (put_child i c cs).*1 = cs.*1.
Proof. induction cs as [|[j d] cs IH]; simpl; [done|]. case_match; csimpl; [done|by f_equal]. Qed.

Lemma find_put_child i j c cs :
  find_child j (put_child i c cs) =
  if j =? i then (if find_child i cs is Some _ then Some c else None) else find_child j cs.
Proof.
  induction cs as [|[k d] cs IH]; simpl; [by case_match|].
  destruct (Z.eqb_spec k i) as [->|Hki]; simpl.
  - destruct (Z.eqb_spec i j) as [->|Hij]; [by rewrite Z.eqb_refl|]. rewrite (proj2 (Z.eqb_neq j i)) by done. done.
  - rewrite IH. destruct (Z.eqb_spec k j) as [->|Hkj]; [by rewrite (proj2 (Z.eqb_neq j i))|]. done.
Qed.

Lemma put_child_same i c cs : find_child i cs = Some c -> put_child i c cs = cs.
Proof.
  induction cs as [|[j d] cs IH]; simpl; [done|]. destruct (Z.eqb_spec j i) as [->|]; [by intros [= ->]|].
  intros Hc. f_equal. by apply IH.
Qed.

Lemma wf_child n node i c : wf (S n) node -> find_child i (children node) = Some c -> 0 <= i < 512 /\ wf n c.
Proof.
  intros Hwf Hc. assert (Hi : 0 <= i < 512).
  { destruct Hwf as (_ & _ & _ & Hr & _). rewrite Forall_forall in Hr. apply Hr. apply list_elem_of_fmap.
    exists (i, c). split; [done|]. by apply find_child_elem. }
  split; [done|]. destruct (wf_entry n node i Hwf Hi) as (e & _ & Hok). unfold slot_ok in Hok. rewrite Hc in Hok.
  destruct (is_valid e), (is_leaf e); naive_solver.
Qed.

Lemma find_child_app i cs1 cs2 :
  find_child i (cs1 ++ cs2) = match find_child i cs1 with Some c => Some c | None => find_child i cs2 end.
Proof. induction cs1 as [|[j d] cs1 IH]; simpl; [done|]. destruct (j =? i); [done|apply IH]. Qed.

Fixpoint count_children (cs : list (Z * TableNode)) : Z :=
  match cs with [] => 0 | (_, c) :: cs => node_count c + count_children cs end.

Lemma node_count_eq node : node_count node = 1 + count_children (children node).
Proof. by destruct node. Qed.

Lemma count_app cs1 cs2 : count_children (cs1 ++ cs2) = count_children cs1 + count_children cs2.
Proof. induction cs1 as [|[i c] cs1 IH]; simpl; [done|lia]. Qed.

Lemma count_put i c d cs : find_child i cs = Some d ->
  count_children (put_child i c cs) = count_children cs + node_count c - node_count d.
Proof.
  induction cs as [|[j e] cs IH]; simpl; [done|]. case_match; simpl; [intros [= ->]; lia|]. intros H'. rewrite IH by done. lia.
Qed.

Lemma nth_z_insert {A} (l : list A) i j x :
  0 <= i < len l -> 0 <= j -> nth_z (<[Z.to_nat i := x]> l) j = if j =? i then Some x else nth_z l j.
Proof.
  intros Hi Hj. unfold nth_z, len in *. destruct (Z.eqb_spec j i) as [->|Hne].
  - by rewrite list_lookup_insert_eq by lia.
  - by rewrite list_lookup_insert_ne by lia.
Qed.

(** ** Allocation *)

Definition supply_ok (w : World) : Prop :=
  Forall (fun o : option Z => if o is Some p then page_ok p else True) (tables w).

(** From [w] to [w'] the number of live tables changed by [d] and nothing was
    retired. *)
Record kept (w w' : World) (d : Z) : Prop := {
  k_live : live w' = live w + d;
  k_retired : retired w' = retired w;
  k_room : room w' = room w;
  k_supply : supply_ok w'
}.

Lemma kept_refl w : supply_ok w -> kept w w 0.
Proof. split; [lia|done..]. Qed.

Lemma kept_trans w1 w2 w3 d1 d2 : kept w1 w2 d1 -> kept w2 w3 d2 -> kept w1 w3 (d1 + d2).
Proof. intros [] []. split; [lia|congruence..|done]. Qed.

Lemma kept_eq w w' d d' : kept w w' d -> d = d' -> kept w w' d'.
Proof. by intros ? <-. Qed.

Definition zero_table (p : Z) : TableNode := mkNode p zero_page [].

Lemma leaf_wp node w (Q : result NestError TableNode -> TableNode * World -> Prop) :
  supply_ok w ->
  (forall p w', page_ok p -> kept w w' 1 -> Q (Ok (zero_table p)) (node, w')) ->
  (forall w', kept w w' 0 -> Q (Err NOutOfMemory) (node, w')) ->
  wp TableNode_leaf (node, w) Q.
Proof.
  intros Hs Hok Herr. unfold wp, TableNode_leaf, PageTable_new, put_world. munfold. unfold supply_ok in *.
  destruct (tables w) as [|[p|] ts] eqn:Ht; munfold.
  - apply Herr. split; [lia|done..|]. unfold supply_ok. by rewrite Ht.
  - apply Forall_cons in Hs as [Hp Hs]. apply Hok; [done|]. by split.
  - apply Forall_cons in Hs as [_ Hs]. apply Herr. by split; [simpl; lia| | |].
Qed.

Definition linked (node : TableNode) (idx : Z) (child : TableNode) : TableNode :=
  mkNode (page node) (<[Z.to_nat idx := pte_set (table_ppn child) PTE_V]> (entries node)) (children node ++ [(idx, child)]).
Definition filled (node : TableNode) (idx : Z) (child : TableNode) : TableNode :=
  mkNode (page node) (entries node) (put_child idx child (children node)).
Definition stored (node : TableNode) (idx bits : Z) : TableNode :=
  mkNode (page node) (<[Z.to_nat idx := bits]> (entries node)) (children node).

Lemma read_wp node w idx e Q : nth_z (entries node) idx = Some e -> Q (Ok e) (node, w) -> wp (read_entry idx) (node, w) Q.
Proof. intros He HQ. unfold wp, read_entry. munfold. by rewrite He. Qed.

Lemma write_wp node w idx bits e Q :
  nth_z (entries node) idx = Some e -> Q (Ok tt) (stored node idx bits, w) -> wp (write_entry idx bits) (node, w) Q.
Proof. intros He HQ. unfold wp, write_entry, put_node. munfold. destruct node as [p es cs]. simpl in *. by rewrite He. Qed.

Lemma link_wp node w idx child e (Q : result NestError () -> TableNode * World -> Prop) :
  supply_ok w -> nth_z (entries node) idx = Some e ->
  (forall w', kept w w' 0 -> Q (Ok tt) (linked node idx child, w')) ->
  (forall w', kept w w' (- node_count child) -> Q (Err NOutOfMemory) (node, w')) ->
  wp (link_child idx child) (node, w) Q.
Proof.
  intros Hs He Hok Herr. destruct node as [p es cs]. simpl in He.
  unfold wp, link_child, table_try_reserve, push_child, write_entry, put_node, drop_table, put_world, on_err. munfold.
  destruct (grants w) as [|[|] gs] eqn:Hg; munfold.
  - apply Herr. split; simpl; [lia|done..].
  - rewrite He. munfold. apply Hok. by split; [simpl; lia| | |].
  - apply Herr. split; simpl; [lia|done..].
Qed.

Lemma zoom_wp {A} node w idx c (m : PT A) Q :
  find_child idx (children node) = Some c ->
  wp m (c, w) (fun r s => Q r (filled node idx s.1, s.2)) -> wp (zoom idx m) (node, w) Q.
Proof.
  intros Hc Hm. unfold wp, zoom in *. destruct node as [p es cs]. simpl in Hc. rewrite Hc.
  by destruct (m (c, w)) as [[r [c' w']]|].
Qed.

(** ** One table changed *)

Lemma table_ppn_ok c : page_ok (page c) -> 0 <= table_ppn c < 2 ^ 44 /\ table_ppn c * 4096 = page c.
Proof.
  intros [Hp Hm]. unfold table_ppn, PAGE_SHIFT. rewrite Z.shiftr_div_pow2 by lia. change (2 ^ 12) with 4096.
  pose proof (Z.div_mod (page c) 4096). split; [|lia]. split; [apply Z.div_pos; lia|].
  apply Z.div_lt_upper_bound; [lia|]. change (4096 * 2 ^ 44) with (2 ^ 56). lia.
Qed.

Lemma branch_slot (W : TableNode -> Prop) k c :
  W c -> page_ok (page c) -> slot_ok W k (pte_set (table_ppn c) PTE_V) (Some c).
Proof.
  intros Hc Hp. destruct (table_ppn_ok c Hp) as [Hr Hm]. destruct (branch_entry (table_ppn c)) as (H1 & H2 & H3); [lia|].
  unfold slot_ok. rewrite H1, H2, H3. eauto.
Qed.

Lemma wf_link n node idx child :
  wf (S n) node -> 0 <= idx < 512 -> find_child idx (children node) = None -> wf n child -> wf (S n) (linked node idx child).
Proof.
  intros (Hp & Hl & Hnd & Hr & Hs) Hi Hn Hc. unfold linked. simpl. split_and!.
  - done.
  - unfold len. by rewrite length_insert.
  - rewrite fmap_app. simpl. apply NoDup_app. split; [done|]. split; [|by apply NoDup_singleton].
    intros x Hx Hx'. apply list_elem_of_singleton in Hx' as ->. by apply find_child_None in Hn.
  - rewrite fmap_app. apply Forall_app. split; [done|]. by constructor.
  - intros i e Hir. rewrite nth_z_insert, find_child_app by lia. simpl. destruct (Z.eqb_spec i idx) as [->|Hne].
    + intros [= <-]. rewrite Hn, Z.eqb_refl. apply branch_slot; [done|by eapply wf_page].
    + rewrite (proj2 (Z.eqb_neq idx i)) by done. intros He. specialize (Hs i e Hir He). by destruct (find_child i (children node)).
Qed.

Lemma translate_link n node idx child v :
  wf (S n) node -> 0 <= v < pg (S n) -> 0 <= idx < 512 -> find_child idx (children node) = None -> page_ok (page child) ->
  translate (S n) (linked node idx child) v =
  if v / pg n =? idx then translate n child (v mod pg n) else translate (S n) node v.
Proof.
  intros (Hp & Hl & _) Hv Hi Hn Hc. pose proof (index_range n v Hv). cbn [translate linked entries children].
  destruct (table_ppn_ok child Hc) as [Hr _]. destruct (branch_entry (table_ppn child)) as (H1 & H2 & _); [lia|].
  rewrite nth_z_insert, find_child_app by lia. simpl. destruct (Z.eqb_spec (v / pg n) idx) as [E|Hne]; [subst idx|].
  - cbn [mbind option_bind]. by rewrite H1, H2, Hn, Z.eqb_refl.
  - rewrite (proj2 (Z.eqb_neq idx _)) by done. destruct (nth_z (entries node) (v / pg n)); [|done]. simpl.
    by destruct (find_child (v / pg n) (children node)).
Qed.

Lemma wf_fill n node idx c child :
  wf (S n) node -> find_child idx (children node) = Some c -> wf n child -> page child = page c -> wf (S n) (filled node idx child).
Proof.
  intros (Hp & Hl & Hnd & Hr & Hs) Hf Hc Hpg. unfold filled. simpl. rewrite put_child_keys. split_and!; try done.
  intros i e Hir He. specialize (Hs i e Hir He). rewrite find_put_child, Hf. destruct (Z.eqb_spec i idx) as [->|]; [|done].
  unfold slot_ok in *. rewrite Hf in Hs. repeat case_match; [naive_solver| |done].
  destruct Hs as (? & [= <-] & _ & Hs). exists child. by rewrite Hpg.
Qed.

Lemma translate_fill n node idx c child v :
  wf (S n) node -> 0 <= v < pg (S n) -> find_child idx (children node) = Some c ->
  translate (S n) (filled node idx child) v =
  if v / pg n =? idx then translate n child (v mod pg n) else translate (S n) node v.
Proof.
  intros Hwf Hv Hf. pose proof (index_range n v Hv) as Hi. cbn [translate filled entries children].
  destruct (wf_entry n node _ Hwf Hi) as (e & He & Hs). rewrite He. simpl. rewrite find_put_child, Hf.
  destruct (Z.eqb_spec (v / pg n) idx) as [E|]; [|done]. unfold slot_ok in Hs. rewrite E, Hf in Hs.
  destruct (is_valid e); [|done]. simpl. by destruct (is_leaf e); [destruct Hs|].
Qed.

Lemma wf_store n node idx bits :
  wf (S n) node -> 0 <= idx < 512 -> slot_ok (wf n) n bits (find_child idx (children node)) -> wf (S n) (stored node idx bits).
Proof.
  intros (Hp & Hl & Hnd & Hr & Hs) Hi Hb. unfold stored. simpl. split_and!; try done.
  - unfold len. by rewrite length_insert.
  - intros i e Hir. rewrite nth_z_insert by lia. destruct (Z.eqb_spec i idx) as [->|]; [by intros [= <-]|by apply Hs].
Qed.

Lemma translate_store n node idx bits v :
  wf (S n) node -> 0 <= v < pg (S n) -> 0 <= idx < 512 -> is_branch bits = false ->
  translate (S n) (stored node idx bits) v =
  if v / pg n =? idx then if is_valid bits then Some (pte_ppn bits + v mod pg n, pte_flags bits) else None
  else translate (S n) node v.
Proof.
  intros (Hp & Hl & _) Hv Hi Hb. pose proof (index_range n v Hv). cbn [translate stored entries children].
  rewrite nth_z_insert by lia. destruct (Z.eqb_spec (v / pg n) idx) as [->|]; [|reflexivity]. simpl.
  unfold is_branch in Hb. destruct (is_valid bits); [|done]. simpl in *. by destruct (is_leaf bits).
Qed.

(** The entry of level [t] on the path of page [v], where the path gets that
    far. *)
Fixpoint slot_on (n : nat) (node : TableNode) (v : Z) (t : nat) : option Z :=
  match n with
  | O => None
  | S level =>
      e ← nth_z (entries node) (v / pg level);
      if (level =? t)%nat then Some e
      else if is_branch e then c ← find_child (v / pg level) (children node); slot_on level c (v mod pg level) t
      else None
  end.

(** Nothing is in the way of an entry of level [t] for page [v]: the path ends
    at an invalid entry, there or above. *)
Fixpoint open_at (n : nat) (node : TableNode) (v : Z) (t : nat) : Prop :=
  match n with
  | O => False
  | S level =>
      forall e, nth_z (entries node) (v / pg level) = Some e ->
      if (level =? t)%nat then is_valid e = false
      else is_valid e = true ->
        exists c, find_child (v / pg level) (children node) = Some c /\ open_at level c (v mod pg level) t
  end.

(** The block of level [t] that page [v] lies in is [v / pg t]; a table below
    keeps the blocks apart that its parent keeps apart. *)
Lemma block_same n t v v' :
  (t <= n)%nat -> v / pg n = v' / pg n -> v / pg t = v' / pg t <-> (v mod pg n) / pg t = (v' mod pg n) / pg t.
Proof.
  intros Ht E. destruct (pg_divide t n Ht) as [k Hk]. pose proof (pg_pos t). pose proof (pg_pos n).
  rewrite (Z.div_mod v (pg n)) at 1 by lia. rewrite (Z.div_mod v' (pg n)) at 1 by lia. rewrite E.
  replace (pg n * (v' / pg n)) with (k * (v' / pg n) * pg t) by (rewrite Hk; ring).
  rewrite !Z.div_add_l by lia. lia.
Qed.

Lemma block_up n t v v' : (t <= n)%nat -> v / pg t = v' / pg t -> v / pg n = v' / pg n.
Proof.
  intros Ht E. destruct (pg_divide t n Ht) as [k Hk]. pose proof (pg_pos t). pose proof (pg_pos n).
  assert (0 < k) by nia. rewrite Hk, (Z.mul_comm k), <- !Z.div_div, E by lia. done.
Qed.

Lemma mod_mod_pg n t v : (t <= n)%nat -> (v mod pg n) mod pg t = v mod pg t.
Proof.
  intros Ht. destruct (pg_divide t n Ht) as [k Hk]. pose proof (pg_pos t). pose proof (pg_pos n).
  rewrite (Z.div_mod v (pg n)) at 2 by lia. replace (pg n * (v / pg n)) with ((v / pg n) * k * pg t) by (rewrite Hk; ring).
  rewrite Z.add_comm, Z.mod_add by lia. done.
Qed.

Lemma slot_on_level n node v t e : slot_on n node v t = Some e -> (t < n)%nat.
Proof.
  revert node v. induction n as [|n IH]; intros node v; [done|]. cbn [slot_on].
  destruct (nth_z (entries node) (v / pg n)); [|done]. simpl. destruct (Nat.eqb_spec n t); [lia|]. case_match; [|done].
  destruct (find_child _ _) as [c|]; [|done]. simpl. intros Hs. apply IH in Hs. lia.
Qed.

(** What an entry that is not a branch says of the pages under it. *)
Definition says (e : Z) (t : nat) (v : Z) : option (Z * Z) :=
  if is_valid e then Some (pte_ppn e + v mod pg t, pte_flags e) else None.

Lemma slot_on_says n node v t e v' :
  slot_on n node v t = Some e -> is_branch e = false -> v' / pg t = v / pg t -> translate n node v' = says e t v'.
Proof.
  revert node v v'. induction n as [|n IH]; intros node v v' Hs Hb Hblk; [done|].
  pose proof (slot_on_level _ _ _ _ _ Hs) as Hlt. pose proof (block_up n t v' v ltac:(lia) Hblk) as Hup.
  cbn [slot_on translate] in *. rewrite Hup. destruct (nth_z (entries node) (v / pg n)) as [e0|]; [|done]. simpl in *.
  destruct (Nat.eqb_spec n t) as [->|Hne].
  - injection Hs as ->. unfold says, is_branch in *. destruct (is_valid e); [|done]. simpl in *. by destruct (is_leaf e).
  - destruct (is_branch e0) eqn:Hb0; [|done]. unfold is_branch in Hb0. to_prop. destruct (is_valid e0), (is_leaf e0); try done. simpl.
    destruct (find_child (v / pg n) (children node)) as [c|]; [|done]. simpl in *.
    rewrite (IH c (v mod pg n) (v' mod pg n)); [|done|done|by apply (block_same n t v' v); [lia|done|]].
    unfold says. rewrite mod_mod_pg by lia. done.
Qed.

Lemma slot_on_frame n node v t e :
  wf n node -> 0 <= v < pg n -> slot_on n node v t = Some e -> is_valid e = true -> is_leaf e = true -> frame_ok t (pte_ppn e).
Proof.
  revert node v. induction n as [|n IH]; intros node v Hwf Hv; [done|]. cbn [slot_on].
  destruct (wf_entry n node (v / pg n) Hwf (index_range n v Hv)) as (e0 & -> & Hs). simpl. unfold slot_ok in Hs.
  destruct (Nat.eqb_spec n t) as [->|Hne].
  - intros [= ->] Hval Hleaf. rewrite Hval, Hleaf in Hs. by destruct Hs.
  - unfold is_branch. destruct (is_valid e0), (is_leaf e0); try done. simpl. destruct Hs as (c & -> & Hc & _). simpl.
    apply IH; [done|apply mod_range].
Qed.

(** ** The walks *)

Lemma leaf_ref_run n va v node :
  wf n node -> at_page n va v -> exists e t,
    leaf_ref_geometry n va node = Some (Ok (e, t)) /\ slot_on n node v t = Some e /\ is_branch e = false.
Proof.
  revert node v. induction n as [|n IH]; intros node v Hwf Hat; [done|]. pose proof (at_page_range _ _ _ Hat) as Hv.
  destruct (wf_entry n node (v / pg n) Hwf (index_range n v Hv)) as (e & He & Hs).
  cbn [leaf_ref_geometry slot_on]. rewrite (at_page_index _ _ _ Hat), !He. simpl. unfold slot_ok in Hs.
  destruct (is_valid e) eqn:Hval; simpl.
  - destruct (is_leaf e) eqn:Hleaf.
    + exists e, n. rewrite Nat.eqb_refl. unfold is_branch. by rewrite Hval, Hleaf.
    + destruct Hs as (c & Hc & Hwc & _). rewrite Hc. destruct (IH c (v mod pg n) Hwc (at_page_down _ _ _ Hat)) as (e' & t & H1 & H2 & H3).
      exists e', t. split; [done|]. split; [|done]. apply slot_on_level in H2 as Hlt.
      rewrite (proj2 (Nat.eqb_neq n t)) by lia. unfold is_branch. by rewrite Hval, Hleaf.
  - exists e, n. rewrite Nat.eqb_refl. unfold is_branch. by rewrite Hval.
Qed.

Lemma page_offset_eq n va v t : at_page n va v -> (t <= n)%nat -> page_offset va t = (v mod pg t) * 4096.
Proof.
  intros [Hva ->] Ht. unfold page_offset. rewrite land_span, span_eq. rewrite mod_mod_pg by done.
  change (PAGE_SIZE - 1) with (Z.ones 12). rewrite Z.ldiff_ones_r, Z.shiftr_div_pow2, Z.shiftl_mul_pow2 by lia.
  change (2 ^ 12) with 4096. f_equal. pose proof (pg_pos t).
  rewrite Z.rem_mul_r by lia. rewrite Z.add_comm, Z.mul_comm, Z.div_add_l by lia.
  rewrite (Z.div_small (va mod 4096)) by (apply Z.mod_pos_bound; lia). lia.
Qed.

Lemma leaf_frame e t : is_leaf e = true -> frame_ok t (pte_ppn e) ->
  pte_paddr e = pte_ppn e * 4096 /\ Z.land (pte_paddr e) (span_of t - 1) = 0.
Proof.
  intros _ (H0 & H1 & H2). pose proof (pg_pos t). assert (E : pte_paddr e = pte_ppn e * 4096) by (apply paddr_eq; lia).
  split; [done|]. rewrite E, land_span, span_eq, (Z.mul_comm 4096), Z.mul_mod_distr_r by lia. lia.
Qed.

(** What the walk answers for page [v]. *)
Definition answer (r : option (Z * Z)) : result NestError (Z * Z) :=
  if r is Some (p, f) then Ok (p * 4096, f) else Err NotMapped.

Lemma walk_ref_run geo va v node :
  wf (levels geo) node -> at_page (levels geo) va v ->
  walk_ref_geometry geo va node = Some (answer (translate (levels geo) node v)).
Proof.
  intros Hwf Hat. pose proof (at_page_range _ _ _ Hat) as Hv.
  destruct (leaf_ref_run _ _ _ _ Hwf Hat) as (e & t & Hr & Hs & Hb). unfold walk_ref_geometry. rewrite Hr. simpl.
  rewrite (slot_on_says _ _ _ _ _ v Hs Hb eq_refl). unfold says, is_branch in *.
  destruct (is_valid e) eqn:Hval; [|done]. simpl in *. destruct (is_leaf e) eqn:Hleaf; [|done]. simpl.
  pose proof (slot_on_frame _ _ _ _ _ Hwf Hv Hs Hval Hleaf) as Hf. destruct (leaf_frame e t Hleaf Hf) as [E1 E2].
  rewrite E2, E1. simpl. apply slot_on_level in Hs. rewrite (page_offset_eq _ _ _ t Hat) by lia. do 3 f_equal. lia.
Qed.

(** [load] reads the tables of the tree, all of which [ok] allows. *)
Fixpoint in_memory (n : nat) (load : Z -> Z) (ok : Z -> bool) (node : TableNode) : Prop :=
  match n with
  | O => True
  | S level =>
      ok (page node) = true /\
      (forall i e, 0 <= i < 512 -> nth_z (entries node) i = Some e -> load (page node + i * 8) = e) /\
      (forall i c, find_child i (children node) = Some c -> in_memory level load ok c)
  end.

Lemma walk_raw_run n load ok va v node :
  wf n node -> at_page n va v -> in_memory n load ok node ->
  walk_raw_loop load ok n (page node) va =
  if translate n node v is Some (p, f) then if ok (p * 4096) then Some (p * 4096, f) else None else None.
Proof.
  revert node v. induction n as [|n IH]; intros node v Hwf Hat Hm; [done|]. pose proof (at_page_range _ _ _ Hat) as Hv.
  destruct (wf_entry n node (v / pg n) Hwf (index_range n v Hv)) as (e & He & Hs). destruct Hm as (Hok & Hload & Hch).
  cbn [walk_raw_loop translate]. rewrite (at_page_index _ _ _ Hat), (Hload _ e (index_range n v Hv) He), He. simpl.
  unfold slot_ok in Hs. destruct (is_valid e) eqn:Hval; [|done]. simpl. destruct (is_leaf e) eqn:Hleaf.
  - destruct Hs as [_ Hf]. destruct (leaf_frame e n Hleaf Hf) as [E1 E2]. rewrite E2, E1. simpl.
    rewrite (page_offset_eq _ _ _ n Hat) by lia. by rewrite Z.mul_add_distr_r.
  - destruct Hs as (c & Hc & Hwc & Hpa). rewrite Hc, Hpa. simpl. pose proof (Hch _ _ Hc) as Hmc.
    destruct n as [|n]; [done|]. assert (ok (page c) = true) as -> by (by destruct Hmc). simpl.
    apply (IH c (v mod pg (S n)) Hwc); [by apply at_page_down|done].
Qed.
