(* ===== verification/PagingStep.v ===== *)
(** * Page tables: the walk that makes tables, and the write at its end

    [entry_at] only adds empty tables: no page translates differently, and the
    entries of other blocks stay where they are.  [store_at_path] changes the
    block of its entry and nothing else.  A split replaces a leaf by a table of 512
    leaves that say the same, so it changes no translation and leaves only get
    finer; [prepare_geometry] splits until no leaf straddles an end of the range. *)

From S2P Require Import Prelude.
From S2P Require Import Occupancy.
From S2P Require Import Active.
From S2P Require Import Paging.
From S2P Require Import PagingInv.

Open Scope Z_scope.

(** [node'] translates like [node] and the counter follows the tables. *)
Record keeps (n : nat) (node : TableNode) (w : World) (node' : TableNode) (w' : World) : Prop := {
  kp_page : page node' = page node;
  kp_wf : wf n node';
  kp_same : forall v, 0 <= v < pg n -> translate n node' v = translate n node v;
  kp_kept : kept w w' (node_count node' - node_count node)
}.

Lemma keeps_refl n node w w' : wf n node -> kept w w' 0 -> keeps n node w node w'.
Proof. intros Hwf Hk. split; [done|done|done|]. eapply kept_eq; [done|lia]. Qed.

Lemma keeps_trans n a wa b wb c wc : keeps n a wa b wb -> keeps n b wb c wc -> keeps n a wa c wc.
Proof.
  intros [P1 W1 S1 K1] [P2 W2 S2 K2]. split; [congruence|done|intros v Hv; by rewrite S2, S1|].
  eapply kept_eq; [by eapply kept_trans|lia].
Qed.

(** Blocks that page [v] is not in keep their entries and stay free. *)
Definition others (n : nat) (v : Z) (node node' : TableNode) : Prop :=
  forall v2 t, 0 <= v2 < pg n -> v / pg t <> v2 / pg t ->
    (forall e, slot_on n node v2 t = Some e -> slot_on n node' v2 t = Some e) /\
    ((t < n)%nat -> open_at n node v2 t -> open_at n node' v2 t).

Lemma others_refl n v node : others n v node node.
Proof. by intros v2 t _ _. Qed.

Lemma others_trans n v a b c : others n v a b -> others n v b c -> others n v a c.
Proof.
  intros H1 H2 v2 t Hv Hne. destruct (H1 v2 t Hv Hne) as [A1 B1], (H2 v2 t Hv Hne) as [A2 B2]. auto.
Qed.

Lemma zero_entry i : 0 <= i < 512 -> nth_z zero_page i = Some 0.
Proof. intros Hi. unfold nth_z, zero_page. apply lookup_replicate. split; [done|lia]. Qed.

Lemma zero_wf n p : page_ok p -> wf (S n) (zero_table p).
Proof.
  intros Hp. cbn [wf zero_table page entries children]. split_and!; [done|reflexivity|constructor|constructor|].
  intros i e Hi. rewrite zero_entry by done. by intros [= <-].
Qed.

Lemma zero_translate n p v : 0 <= v < pg n -> translate n (zero_table p) v = None.
Proof.
  destruct n as [|n]; [done|]. intros Hv. cbn [translate zero_table entries]. by rewrite zero_entry by by apply index_range.
Qed.

Lemma zero_open n p v t : 0 <= v < pg n -> (t < n)%nat -> open_at n (zero_table p) v t.
Proof.
  destruct n as [|n]; [lia|]. intros Hv _. cbn [open_at zero_table entries]. intros e. rewrite zero_entry by by apply index_range.
  intros [= <-]. by case_match.
Qed.

Lemma count_linked node idx c : node_count (linked node idx c) = node_count node + node_count c.
Proof. rewrite !node_count_eq. simpl. rewrite count_app. simpl. rewrite (node_count_eq c). lia. Qed.

Lemma count_filled node idx c d : find_child idx (children node) = Some d ->
  node_count (filled node idx c) = node_count node + node_count c - node_count d.
Proof. intros Hd. rewrite !(node_count_eq node), (node_count_eq (filled _ _ _)). simpl. rewrite (count_put _ _ d) by done. lia. Qed.

Lemma find_linked node idx c i : find_child idx (children node) = None ->
  find_child i (children (linked node idx c)) = if i =? idx then Some c else find_child i (children node).
Proof.
  intros Hn. simpl. rewrite find_child_app. simpl. rewrite (Z.eqb_sym idx i). destruct (Z.eqb_spec i idx) as [->|]; [by rewrite Hn|].
  by destruct (find_child i (children node)).
Qed.

(** An empty table under an invalid entry changes no translation. *)
Lemma link_keeps n node w w' idx p :
  wf (S (S n)) node -> 0 <= idx < 512 -> find_child idx (children node) = None -> page_ok p ->
  (exists e, nth_z (entries node) idx = Some e /\ is_valid e = false) -> kept w w' 1 ->
  keeps (S (S n)) node w (linked node idx (zero_table p)) w'.
Proof.
  intros Hwf Hi Hn Hp (e & He & Hval) Hk. split; [done|apply wf_link; [done..|by apply zero_wf]| |].
  - intros v Hv. rewrite translate_link by done. destruct (Z.eqb_spec (v / pg (S n)) idx) as [E|]; [|done].
    rewrite zero_translate by apply mod_range. cbn [translate]. rewrite E, He. simpl. by rewrite Hval.
  - eapply kept_eq; [done|]. rewrite count_linked. simpl. lia.
Qed.

Lemma link_others n node v p :
  wf (S n) node -> 0 <= v < pg (S n) -> find_child (v / pg n) (children node) = None -> page_ok p ->
  (exists e, nth_z (entries node) (v / pg n) = Some e /\ is_valid e = false) ->
  others (S n) v node (linked node (v / pg n) (zero_table p)).
Proof.
  intros Hwf Hv Hn Hp (e & He & Hval) v2 t Hv2 Hne. pose proof (index_range n v Hv) as Hi.
  pose proof (index_range n v2 Hv2) as Hi2. destruct Hwf as (_ & Hl & _). cbn [slot_on open_at]. rewrite find_linked by done.
  cbn [linked entries]. rewrite nth_z_insert by lia.
  destruct (Z.eqb_spec (v2 / pg n) (v / pg n)) as [E|]; [|by split].
  rewrite E, He. cbn [mbind option_bind]. destruct (Nat.eqb_spec n t) as [->|Hnt]; [done|]. split.
  - intros e'. unfold is_branch. by rewrite Hval.
  - intros Hlt _ e' [= <-] _. eexists. split; [done|]. apply zero_open; [apply mod_range|lia].
Qed.

(** Work inside a child shows outside only through what it does there. *)
Lemma fill_keeps n node w w' idx c c' :
  wf (S n) node -> find_child idx (children node) = Some c -> keeps n c w c' w' ->
  keeps (S n) node w (filled node idx c') w'.
Proof.
  intros Hwf Hc [Hp Hw Hs Hk]. split; [done|by eapply wf_fill| |].
  - intros v Hv. rewrite (translate_fill _ _ _ c) by done. destruct (Z.eqb_spec (v / pg n) idx) as [E|]; [|done].
    rewrite Hs by apply mod_range. pose proof (index_range n v Hv) as Hi. rewrite E in Hi.
    destruct (wf_entry n node idx Hwf Hi) as (e & He & Hok). cbn [translate]. rewrite E, He, Hc. simpl.
    unfold slot_ok in Hok. rewrite Hc in Hok. destruct (is_valid e), (is_leaf e); naive_solver.
  - eapply kept_eq; [done|]. rewrite (count_filled _ _ _ c) by done. lia.
Qed.

Lemma fill_others n node v c c' :
  find_child (v / pg n) (children node) = Some c -> others n (v mod pg n) c c' ->
  others (S n) v node (filled node (v / pg n) c').
Proof.
  intros Hc Ho v2 t Hv2 Hne. cbn [slot_on open_at filled entries children]. rewrite find_put_child, Hc.
  destruct (Z.eqb_spec (v2 / pg n) (v / pg n)) as [E|]; [|by split]. rewrite E, Hc.
  destruct (nth_z (entries node) (v / pg n)) as [e|]; [|by split]. simpl.
  destruct (Nat.eqb_spec n t) as [->|Hnt]; [done|]. split.
  - intros e'. destruct (is_branch e); [|done]. intros Hs. pose proof (slot_on_level _ _ _ _ _ Hs). 
    apply (Ho (v2 mod pg n) t); [apply mod_range| |done]. intros E'. apply Hne.
    apply (block_same n t v v2); [lia|done|done].
  - intros Hlt Hop e' [= <-] Hval. destruct (Hop e eq_refl Hval) as (c0 & [= <-] & Hop'). eexists. split; [done|].
    apply (Ho (v2 mod pg n) t); [apply mod_range| |lia|done]. intros E'. apply Hne. apply (block_same n t v v2); [lia|done|done].
Qed.

(** What the walk with allocation may do. *)
Definition walked (n : nat) (v : Z) (t : nat) (node : TableNode) (w : World)
    (r : result NestError Z) (s : TableNode * World) : Prop :=
  keeps n node w s.1 s.2 /\ others n v node s.1 /\
  match r with
  | Ok e => slot_on n s.1 v t = Some e /\ (open_at n node v t -> is_valid e = false)
  | Err AlreadyMapped => is_Some (translate n node v) /\ ~ open_at n node v t
  | Err NOutOfMemory => True
  | Err _ => False
  end.

(** One level: from [node] to [node1], which has the child [c] on the path. *)
Lemma walked_fill n v t node w node1 w1 c r s :
  (t < n)%nat -> 0 <= v < pg (S n) ->
  keeps (S n) node w node1 w1 -> others (S n) v node node1 ->
  find_child (v / pg n) (children node1) = Some c ->
  (open_at (S n) node v t -> open_at n c (v mod pg n) t) ->
  (forall u, translate n c (v mod pg n) = Some u -> is_Some (translate (S n) node v)) ->
  walked n (v mod pg n) t c w1 r s -> walked (S n) v t node w r (filled node1 (v / pg n) s.1, s.2).
Proof.
  intros Hlt Hv K1 O1 Hc Hop Htr (K2 & O2 & Hr). pose proof (kp_wf _ _ _ _ _ K1) as W1.
  split; [|split]; cbn [fst snd].
  - eapply keeps_trans; [exact K1|]. by eapply fill_keeps.
  - eapply others_trans; [exact O1|]. by eapply fill_others.
  - destruct r as [e|[]]; try done.
    + destruct Hr as [Hs Hi]. split; [|by auto]. cbn [slot_on filled entries children]. rewrite find_put_child, Hc, Z.eqb_refl.
      destruct (wf_entry n node1 _ W1 (index_range n v Hv)) as (e0 & -> & Hok). simpl.
      rewrite (proj2 (Nat.eqb_neq n t)) by lia. unfold slot_ok in Hok. rewrite Hc in Hok. unfold is_branch.
      destruct (is_valid e0), (is_leaf e0); naive_solver.
    + destruct Hr as [[u Hu] Hno]. split; [by eapply Htr|]. intros Ho. by apply Hno, Hop.
Qed.

Lemma entry_at_wp n va v t node w :
  wf n node -> at_page n va v -> (t < n)%nat -> supply_ok w ->
  wp (entry_at n va t true) (node, w) (walked n v t node w).
Proof.
  revert node w v. induction n as [|n IH]; intros node w v Hwf Hat Hlt Hsup; [lia|].
  pose proof (at_page_range _ _ _ Hat) as Hv. pose proof (index_range n v Hv) as Hi.
  destruct (wf_entry n node _ Hwf Hi) as (e & He & Hok). cbn [entry_at]. rewrite (at_page_index _ _ _ Hat).
  apply wp_bind. eapply read_wp; [exact He|]. unfold slot_ok in Hok.
  destruct (Nat.eqb_spec n t) as [->|Hnt].
  { split; [by apply keeps_refl, kept_refl|]. split; [apply others_refl|]. cbn [fst]. split.
    - cbn [slot_on]. rewrite He. simpl. by rewrite Nat.eqb_refl.
    - cbn [open_at]. intros Ho. specialize (Ho e He). by rewrite Nat.eqb_refl in Ho. }
  destruct (is_valid e) eqn:Hval; simpl.
  - destruct (is_leaf e) eqn:Hleaf; simpl.
    + split; [by apply keeps_refl, kept_refl|]. split; [apply others_refl|]. split.
      * cbn [translate]. rewrite He. simpl. rewrite Hval, Hleaf. by eexists.
      * cbn [open_at]. intros Ho. specialize (Ho e He). rewrite (proj2 (Nat.eqb_neq n t) Hnt) in Ho.
        destruct (Ho Hval) as (c & Hc & _). destruct Hok as [Hnone _]. congruence.
    + destruct Hok as (c & Hc & Hwc & _). apply wp_bind, wp_ret. eapply zoom_wp; [exact Hc|].
      eapply wp_mono; [apply (IH c w (v mod pg n)); [done|by apply at_page_down|lia|done]|]. intros r s Hr.
      eapply (walked_fill n v t node w node w c); [lia|done|by apply keeps_refl, kept_refl|apply others_refl|done| | |done].
      * cbn [open_at]. intros Ho. specialize (Ho e He). rewrite (proj2 (Nat.eqb_neq n t) Hnt) in Ho.
        destruct (Ho Hval) as (c' & Hc' & Ho'). congruence.
      * intros u Hu. cbn [translate]. rewrite He, Hc. simpl. rewrite Hval, Hleaf. simpl. rewrite Hu. by eexists.
  - rewrite andb_false_r. destruct n as [|n]; [lia|]. apply wp_bind, wp_bind. apply leaf_wp; [done| |].
    + intros p w1 Hp K1. apply (link_wp _ _ _ _ e); [by destruct K1|done| |].
      * intros w2 K2. pose proof (kept_trans _ _ _ _ _ K1 K2) as K12.
        eapply zoom_wp; [by rewrite find_linked, Z.eqb_refl|].
        eapply wp_mono; [apply (IH (zero_table p) w2 (v mod pg (S n))); [by apply zero_wf|by apply at_page_down|lia|by destruct K2]|].
        intros r s Hr. eapply (walked_fill (S n) v t node w _ w2); [lia|done| | | | | |exact Hr].
        -- apply link_keeps; [done..|by eauto|]. eapply kept_eq; [exact K12|lia].
        -- apply link_others; eauto.
        -- by rewrite find_linked, Z.eqb_refl.
        -- intros _. apply zero_open; [apply mod_range|lia].
        -- intros u. by rewrite zero_translate by apply mod_range.
      * intros w2 K2. split; [|split; [apply others_refl|done]]. apply keeps_refl; [done|].
        eapply kept_eq; [by eapply kept_trans|]. simpl. lia.
    + intros w1 K1. split; [by apply keeps_refl|]. split; [apply others_refl|done].
Qed.

(** Without allocation the walk only reads. *)
Lemma entry_at_read n va v t node w e :
  wf n node -> at_page n va v -> slot_on n node v t = Some e -> entry_at n va t false (node, w) = Some (Ok e, (node, w)).
Proof.
  revert node v. induction n as [|n IH]; intros node v Hwf Hat Hs; [done|]. cbn [entry_at slot_on] in *.
  rewrite (at_page_index _ _ _ Hat). unfold read_entry. munfold.
  destruct (nth_z (entries node) (v / pg n)) as [e0|]; [|done]. simpl in *.
  destruct (Nat.eqb_spec n t) as [->|Hnt]; [by injection Hs as ->|]. unfold is_branch in Hs.
  destruct (is_valid e0), (is_leaf e0); try done. simpl in Hs.
  destruct (find_child (v / pg n) (children node)) as [c|] eqn:Hc; [|done]. simpl in Hs.
  destruct (wf_child n node _ c Hwf Hc) as [_ Hwc]. munfold. destruct node as [p es cs]. unfold zoom. simpl in Hc. rewrite Hc.
  rewrite (IH c (v mod pg n)); [|done|by apply at_page_down|done]. by rewrite put_child_same.
Qed.

(** Blocks apart from the block of level [t] that [v] is in. *)
Definition apart (n : nat) (v : Z) (t : nat) (node node' : TableNode) : Prop :=
  forall v2 t2, 0 <= v2 < pg n -> v / pg (t `max` t2) <> v2 / pg (t `max` t2) ->
    (forall e, slot_on n node v2 t2 = Some e -> slot_on n node' v2 t2 = Some e) /\
    ((t2 < n)%nat -> open_at n node v2 t2 -> open_at n node' v2 t2).

Lemma others_apart n v t node node' : others n v node node' -> apart n v t node node'.
Proof.
  intros Ho v2 t2 Hv Hne. apply Ho; [done|]. intros E. apply Hne. apply (block_up _ t2); [lia|done].
Qed.

Lemma fill_apart n node v t c c' :
  (t < n)%nat -> find_child (v / pg n) (children node) = Some c -> apart n (v mod pg n) t c c' ->
  apart (S n) v t node (filled node (v / pg n) c').
Proof.
  intros Hlt Hc Ho v2 t2 Hv2 Hne. cbn [slot_on open_at filled entries children]. rewrite find_put_child, Hc.
  destruct (Z.eqb_spec (v2 / pg n) (v / pg n)) as [E|]; [|by split]. rewrite E, Hc.
  destruct (nth_z (entries node) (v / pg n)) as [e|]; [|by split]. simpl.
  destruct (Nat.eqb_spec n t2) as [->|Hnt]; [exfalso; apply Hne; by rewrite Nat.max_r by lia|].
  assert (Hne' : (t2 < n)%nat -> (v mod pg n) / pg (t `max` t2) <> (v2 mod pg n) / pg (t `max` t2)).
  { intros Hlt2 E'. apply Hne. apply (block_same n _ v v2); [lia|done|done]. }
  split.
  - intros e'. destruct (is_branch e); [|done]. intros Hs. pose proof (slot_on_level _ _ _ _ _ Hs).
    apply (Ho (v2 mod pg n) t2); [apply mod_range|by apply Hne'|done].
  - intros Hlt2 Hop e' [= <-] Hval. destruct (Hop e eq_refl Hval) as (c0 & [= <-] & Hop'). eexists. split; [done|].
    apply (Ho (v2 mod pg n) t2); [apply mod_range|apply Hne'; lia|lia|done].
Qed.

(** A table whose entry of level [t] on the path of [v] became [bits]. *)
Record rewritten (n : nat) (v : Z) (t : nat) (bits : Z) (node node' : TableNode) : Prop := {
  rw_page : page node' = page node;
  rw_wf : wf n node';
  rw_count : node_count node' = node_count node;
  rw_translate : forall v', 0 <= v' < pg n ->
    translate n node' v' = if v' / pg t =? v / pg t then says bits t v' else translate n node v';
  rw_apart : apart n v t node node';
  rw_slot : slot_on n node' v t = Some bits
}.

(** The write at the end of a path: the block of the entry and no other. *)
Lemma store_wp n va v t bits node w e :
  wf n node -> at_page n va v -> slot_on n node v t = Some e -> is_branch e = false -> is_branch bits = false ->
  (is_valid bits = true -> frame_ok t (pte_ppn bits)) ->
  wp (store_at_path n va t bits) (node, w) (fun r s => r = Ok tt /\ s.2 = w /\ rewritten n v t bits node s.1).
Proof.
  intros Hwf Hat Hs Hbe Hbb Hf. revert node v Hwf Hat Hs. induction n as [|n IH]; intros node v Hwf Hat Hs; [done|].
  pose proof (at_page_range _ _ _ Hat) as Hv. pose proof (index_range n v Hv) as Hi.
  destruct (wf_entry n node _ Hwf Hi) as (e0 & He & Hok). cbn [store_at_path].
  pose proof (slot_on_level _ _ _ _ _ Hs) as Hlt. cbn [slot_on] in Hs.
  rewrite (at_page_index _ _ _ Hat). rewrite He in Hs. simpl in Hs. destruct (Nat.eqb_spec n t) as [->|Hnt].
  - injection Hs as ->. eapply write_wp; [exact He|]. cbn [fst snd]. split; [done|]. split; [done|]. split; [done| | | | |].
    + apply wf_store; [done..|]. unfold slot_ok, is_branch in *. destruct (is_valid bits); [|destruct (is_valid e); [destruct (is_leaf e)|]; naive_solver].
      destruct (is_leaf bits); [|done]. split; [|by apply Hf]. destruct (is_valid e); [destruct (is_leaf e)|]; naive_solver.
    + by rewrite !node_count_eq.
    + intros v' Hv'. by rewrite translate_store.
    + intros v2 t2 Hv2 Hne. destruct Hwf as (_ & Hl & _). cbn [slot_on open_at stored entries children]. pose proof (index_range t v2 Hv2).
      rewrite nth_z_insert by lia. destruct (Z.eqb_spec (v2 / pg t) (v / pg t)) as [E|]; [|done].
      exfalso. apply Hne. apply (block_up _ t); [lia|done].
    + cbn [slot_on stored entries]. destruct Hwf as (_ & Hl & _). rewrite nth_z_insert by lia. rewrite Z.eqb_refl. simpl. by rewrite Nat.eqb_refl.
  - destruct (is_branch e0) eqn:Hbr; [|done]. unfold slot_ok, is_branch in Hok, Hbr. destruct (is_valid e0) eqn:Hval, (is_leaf e0) eqn:Hleaf; try done.
    destruct Hok as (c & Hc & Hwc & _). rewrite Hc in Hs. simpl in Hs. eapply zoom_wp; [exact Hc|].
    eapply wp_mono; [apply (IH c (v mod pg n)); [done|by apply at_page_down|done]|]. cbn [fst snd].
    intros r s (-> & -> & [Hp Hw Hn Ht Ha Hsl]). split; [done|]. split; [done|]. split.
    + done.
    + by eapply wf_fill.
    + rewrite (count_filled _ _ _ c) by done. lia.
    + intros v' Hv'. rewrite (translate_fill _ _ _ c) by done. destruct (Z.eqb_spec (v' / pg n) (v / pg n)) as [E|E].
      * rewrite Ht by apply mod_range. unfold says. rewrite mod_mod_pg by lia.
        assert (translate (S n) node v' = translate n c (v' mod pg n)) as -> by (cbn [translate]; rewrite E, He, Hc; simpl; by rewrite Hval, Hleaf).
        destruct (Z.eqb_spec (v' mod pg n / pg t) (v mod pg n / pg t)) as [E2|E2], (Z.eqb_spec (v' / pg t) (v / pg t)) as [E3|E3]; try done.
        -- exfalso. apply E3. apply (block_same n t v' v); [lia|done|done].
        -- exfalso. apply E2. apply (block_same n t v' v); [lia|done|done].
      * destruct (Z.eqb_spec (v' / pg t) (v / pg t)) as [E3|E3]; [|done]. exfalso. apply E. apply (block_up n t); [lia|done].
    + apply (fill_apart n node v t c); [lia|done|done].
    + cbn [slot_on filled entries children]. rewrite find_put_child, Hc, Z.eqb_refl, He. simpl.
      rewrite (proj2 (Nat.eqb_neq n t) Hnt). unfold is_branch. by rewrite Hval, Hleaf.
Qed.

(** A leaf of level [t] covers page [v]. *)
Definition leaf_at (n : nat) (node : TableNode) (v : Z) (t : nat) : Prop :=
  exists e, slot_on n node v t = Some e /\ is_valid e = true /\ is_leaf e = true.

Definition finer (n : nat) (node node' : TableNode) : Prop :=
  forall v t, 0 <= v < pg n -> leaf_at n node' v t -> exists t0, (t <= t0)%nat /\ leaf_at n node v t0.

Lemma finer_refl n node : finer n node node.
Proof. intros v t _ Hl. by exists t. Qed.

Lemma finer_trans n a b c : finer n a b -> finer n b c -> finer n a c.
Proof.
  intros H1 H2 v t Hv Hl. destruct (H2 v t Hv Hl) as (t1 & ? & Hl1). destruct (H1 v t1 Hv Hl1) as (t0 & ? & Hl0).
  exists t0. split; [lia|done].
Qed.

Lemma slot_on_above n node v t : (n <= t)%nat -> slot_on n node v t = None.
Proof. intros Hle. destruct (slot_on n node v t) eqn:Hs; [|done]. apply slot_on_level in Hs. lia. Qed.

Lemma slot_on_block n node v v' t : v / pg t = v' / pg t -> slot_on n node v t = slot_on n node v' t.
Proof.
  revert node v v'. induction n as [|n IH]; intros node v v' E; [done|]. destruct (Nat.lt_ge_cases n t) as [Hlt|Hge].
  - by rewrite !slot_on_above by lia.
  - pose proof (block_up n t v v' ltac:(lia) E) as Eu. cbn [slot_on]. rewrite Eu.
    destruct (nth_z (entries node) (v' / pg n)) as [e|]; [|done]. simpl. repeat case_match; try done.
    destruct (find_child _ _) as [c|]; [|done]. simpl. apply IH. by apply (block_same n t v v'); [lia|done|].
Qed.

Lemma leaf_at_block n node v v' t : v / pg t = v' / pg t -> leaf_at n node v t -> leaf_at n node v' t.
Proof. intros E (e & Hs & He). exists e. by rewrite <- (slot_on_block n node v v'). Qed.

(** ** The table a leaf becomes *)

Lemma split_entry e k i : frame_ok (S k) (pte_ppn e) -> 0 <= i < 512 ->
  nth_z (split_entries e k) i = Some (pte_set (pte_ppn e + i * pg k) (pte_flags e)).
Proof.
  intros (H0 & H1 & _) Hi. unfold nth_z, split_entries. pose proof (pg_pos (S k)). pose proof (pg_pos k).
  rewrite list_lookup_fmap. rewrite (proj2 (lookup_seqZ 0 512 (Z.to_nat i) i)) by lia. simpl. do 2 f_equal.
  rewrite paddr_eq by lia. rewrite span_eq. unfold PAGE_SHIFT. rewrite Z.shiftr_div_pow2 by lia. change (2 ^ 12) with 4096.
  replace (pte_ppn e * 4096 + i * (4096 * pg k)) with ((pte_ppn e + i * pg k) * 4096) by ring. by rewrite Z.div_mul.
Qed.

Definition split_table (p e : Z) (k : nat) : TableNode := mkNode p (split_entries e k) [].

Section split_table.
Context (p e : Z) (k : nat).
Context (Hp : page_ok p) (Hf : frame_ok (S k) (pte_ppn e)) (Hval : is_valid e = true) (Hleaf : is_leaf e = true).

Lemma split_entry_ok i : 0 <= i < 512 -> let e' := pte_set (pte_ppn e + i * pg k) (pte_flags e) in
  is_valid e' = true /\ is_leaf e' = true /\ pte_ppn e' = pte_ppn e + i * pg k /\ pte_flags e' = pte_flags e /\ frame_ok k (pte_ppn e').
Proof.
  intros Hi e'. destruct Hf as (H0 & H1 & H2). pose proof (pg_pos k). rewrite pg_S in H1, H2.
  assert (Hr : 0 <= pte_ppn e + i * pg k < 2 ^ 54) by nia. pose proof (flags_range e) as Hfl.
  assert (Ef : pte_flags e' = pte_flags e) by by apply pte_set_flags_eq.
  assert (Ep : pte_ppn e' = pte_ppn e + i * pg k) by by apply pte_set_ppn.
  rewrite (valid_flags _ _ Ef), (leaf_flags _ _ Ef). split_and!; try done. rewrite Ep. split; [nia|]. split; [nia|].
  rewrite Z.mod_add by lia. apply Z.mod_divide in H2; [|lia]. destruct H2 as [q Hq]. apply Z.mod_divide; [lia|].
  exists (q * 512). lia.
Qed.

Lemma split_wf : wf (S k) (split_table p e k).
Proof.
  cbn [wf split_table page entries children]. split_and!; [done|reflexivity|constructor|constructor|].
  intros i e' Hi. rewrite split_entry by done. intros [= <-]. destruct (split_entry_ok i Hi) as (H1 & H2 & _ & _ & H3).
  unfold slot_ok. by rewrite H1, H2.
Qed.

Lemma split_translate u : 0 <= u < pg (S k) -> translate (S k) (split_table p e k) u = Some (pte_ppn e + u, pte_flags e).
Proof.
  intros Hu. cbn [translate split_table entries children]. pose proof (index_range k u Hu) as Hi. rewrite split_entry by done.
  destruct (split_entry_ok _ Hi) as (H1 & H2 & H3 & H4 & _). cbn [mbind option_bind]. rewrite H1, H2, H3, H4. simpl. do 2 f_equal.
  pose proof (Z.div_mod u (pg k)). pose proof (pg_pos k). lia.
Qed.

Lemma split_leaf u : 0 <= u < pg (S k) -> leaf_at (S k) (split_table p e k) u k.
Proof.
  intros Hu. pose proof (index_range k u Hu) as Hi. destruct (split_entry_ok _ Hi) as (H1 & H2 & _).
  eexists. cbn [slot_on split_table entries]. rewrite split_entry by done. cbn [mbind option_bind]. rewrite Nat.eqb_refl. done.
Qed.
End split_table.

Lemma leaf_not_branch e : is_leaf e = true -> is_branch e = false.
Proof. unfold is_branch. intros ->. apply andb_false_r. Qed.

Lemma leaf_at_top n node v e : nth_z (entries node) (v / pg n) = Some e -> is_valid e = true -> is_leaf e = true -> leaf_at (S n) node v n.
Proof. intros He H1 H2. exists e. cbn [slot_on]. rewrite He. simpl. by rewrite Nat.eqb_refl. Qed.

Section split_link.
Context (k : nat) (node : TableNode) (v e p : Z).
Context (Hwf : wf (S (S k)) node) (Hv : 0 <= v < pg (S (S k))).
Context (He : nth_z (entries node) (v / pg (S k)) = Some e) (Hval : is_valid e = true) (Hleaf : is_leaf e = true).
Context (Hp : page_ok p).
Let node' := linked node (v / pg (S k)) (split_table p e k).

Lemma split_slot : find_child (v / pg (S k)) (children node) = None /\ frame_ok (S k) (pte_ppn e).
Proof.
  destruct Hwf as (_ & _ & _ & _ & Hs). specialize (Hs _ e (index_range _ _ Hv) He). unfold slot_ok in Hs. by rewrite Hval, Hleaf in Hs.
Qed.

Lemma split_keeps w w' : kept w w' 1 -> keeps (S (S k)) node w node' w'.
Proof.
  intros Hk. destruct split_slot as [Hn Hf]. pose proof (index_range _ _ Hv) as Hi. split; [done|apply wf_link; [done..|by apply split_wf]| |].
  - intros v' Hv'. unfold node'. rewrite translate_link by done. destruct (Z.eqb_spec (v' / pg (S k)) (v / pg (S k))) as [E|]; [|done].
  rewrite split_translate by (done || apply mod_range). cbn [translate]. rewrite E, He. simpl. by rewrite Hval, Hleaf.
  - eapply kept_eq; [done|]. unfold node'. rewrite count_linked. simpl. lia.
Qed.

Lemma split_finer : finer (S (S k)) node node'.
Proof.
  intros v' t Hv' (e' & Hs & He'). destruct split_slot as [Hn Hf]. pose proof (index_range _ _ Hv) as Hi. pose proof (index_range _ _ Hv') as Hi'.
  destruct (Z.eq_dec (v' / pg (S k)) (v / pg (S k))) as [E|Hne].
  - exists (S k). split; [apply slot_on_level in Hs; lia|]. apply (leaf_at_top _ _ _ e); [by rewrite E|done..].
  - exists t. split; [done|]. exists e'. split; [|done]. cbn [slot_on] in Hs |- *. unfold node' in Hs. rewrite find_linked in Hs by done.
  cbn [linked entries] in Hs. destruct Hwf as (_ & Hl & _). rewrite nth_z_insert in Hs by lia. by rewrite (proj2 (Z.eqb_neq _ _) Hne) in Hs.
Qed.
End split_link.

Lemma fill_finer n node idx c c' :
  wf (S n) node -> find_child idx (children node) = Some c -> finer n c c' -> finer (S n) node (filled node idx c').
Proof.
  intros Hwf Hc Hf v t Hv (e & Hs & He). cbn [slot_on filled entries children] in Hs. rewrite find_put_child, Hc in Hs.
  destruct (Z.eqb_spec (v / pg n) idx) as [E|Hne].
  - destruct (wf_entry n node _ Hwf (index_range _ _ Hv)) as (e0 & He0 & Hok). rewrite He0 in Hs. simpl in Hs.
    unfold slot_ok in Hok. rewrite E, Hc in Hok. destruct (is_valid e0) eqn:Hv0; [|done]. destruct (is_leaf e0) eqn:Hl0; [by destruct Hok|].
    destruct (Nat.eqb_spec n t) as [->|Hnt]; [injection Hs as ->; destruct He; congruence|].
    unfold is_branch in Hs. rewrite Hv0, Hl0 in Hs. simpl in Hs.
    destruct (Hf (v mod pg n) t (mod_range _ _)) as (t0 & Hle & e1 & Hs1 & He1); [by exists e|].
    exists t0. split; [done|]. exists e1. split; [|done]. cbn [slot_on]. rewrite He0. simpl. apply slot_on_level in Hs1 as Hlt.
    rewrite (proj2 (Nat.eqb_neq n t0)) by lia. unfold is_branch. rewrite Hv0, Hl0. simpl. by rewrite E, Hc.
  - exists t. split; [done|]. by exists e.
Qed.

(** What one split does: the leaf at [v] goes one level down. *)
Lemma split_at_wp n va v k node w :
  wf n node -> at_page n va v -> supply_ok w -> leaf_at n node v (S k) ->
  wp (split_at_geometry n va k) (node, w) (fun r s =>
    keeps n node w s.1 s.2 /\ finer n node s.1 /\
    match r with Ok _ => leaf_at n s.1 v k | Err x => x = NOutOfMemory end).
Proof.
  revert node w v. induction n as [|n IH]; intros node w v Hwf Hat Hsup Hl; [done|].
  pose proof (at_page_range _ _ _ Hat) as Hv. pose proof (index_range n v Hv) as Hi.
  destruct (wf_entry n node _ Hwf Hi) as (e & He & Hok). destruct Hl as (el & Hsl & Hvl & Hll).
  pose proof (slot_on_level _ _ _ _ _ Hsl) as Hlt. cbn [split_at_geometry]. rewrite (at_page_index _ _ _ Hat).
  rewrite (proj2 (Nat.leb_gt n k)) by lia. apply wp_bind. eapply read_wp; [exact He|].
  cbn [slot_on] in Hsl. rewrite He in Hsl. simpl in Hsl. destruct (Nat.eqb_spec n (S k)) as [->|Hnt].
  - injection Hsl as ->. rewrite Hvl, Hll. simpl negb. cbv iota. apply wp_bind, wp_bind. apply leaf_wp; [done| |].
    + intros p w1 Hp K1. cbn [zero_table page children]. apply (link_wp _ _ _ _ el); [by destruct K1|done| |].
      * intros w2 K2. change (mkNode p (split_entries el (S k - 1)) []) with (split_table p el (S k - 1)).
        replace (S k - 1)%nat with k by lia. destruct (split_slot k node v el Hwf Hv He Hvl Hll) as [Hn Hf].
        eapply zoom_wp; [by rewrite find_linked, Z.eqb_refl|]. cbn [split_at_geometry]. rewrite Nat.leb_refl. apply wp_ret. cbn [fst snd].
        assert (Ef : forall c, find_child (v / pg (S k)) (children (linked node (v / pg (S k)) c)) = Some c) by (intros c; by rewrite find_linked, Z.eqb_refl).
        assert (filled (linked node (v / pg (S k)) (split_table p el k)) (v / pg (S k)) (split_table p el k) = linked node (v / pg (S k)) (split_table p el k)) as ->.
        { unfold filled. rewrite put_child_same by done. done. }
        split; [|split].
        -- apply split_keeps; [done..|]. eapply kept_eq; [by eapply kept_trans|lia].
        -- by apply split_finer.
        -- destruct (split_leaf p el k Hf Hvl Hll (v mod pg (S k)) (mod_range _ _)) as (e' & Hs' & He'). exists e'. split; [|done].
           cbn [slot_on]. rewrite Ef. cbn [linked entries]. destruct Hwf as (_ & Hlen & _). rewrite nth_z_insert, Z.eqb_refl by lia.
           cbn [mbind option_bind]. rewrite (proj2 (Nat.eqb_neq (S k) k)) by lia.
           destruct (branch_entry (table_ppn (split_table p el k))) as (H1 & H2 & _); [pose proof (table_ppn_ok (split_table p el k) Hp); lia|].
           unfold is_branch. rewrite H1, H2. simpl andb. cbv iota. done.
      * intros w2 K2. split; [|by split; [apply finer_refl|]]. apply keeps_refl; [done|]. eapply kept_eq; [by eapply kept_trans|]. simpl. lia.
    + intros w1 K1. split; [by apply keeps_refl|]. by split; [apply finer_refl|].
  - destruct (is_branch e) eqn:Hb; [|done]. unfold slot_ok, is_branch in *. destruct (is_valid e) eqn:Hve, (is_leaf e) eqn:Hle; try done.
    destruct Hok as (c & Hc & Hwc & _). rewrite Hc in Hsl. simpl in Hsl. simpl negb. cbv iota. apply wp_bind, wp_ret.
    eapply zoom_wp; [exact Hc|]. eapply wp_mono; [apply (IH c w (v mod pg n)); [done|by apply at_page_down|done|by exists el]|].
    intros r s (K & F & Hr). cbn [fst snd]. split; [by eapply fill_keeps|]. split; [by eapply fill_finer|].
    destruct r; [|done]. destruct Hr as (e' & Hs' & He'). exists e'. split; [|done].
    cbn [slot_on filled entries children]. rewrite find_put_child, Hc, Z.eqb_refl, He. simpl. apply slot_on_level in Hs' as Hlt'.
    rewrite (proj2 (Nat.eqb_neq n k)) by lia. unfold is_branch. by rewrite Hve, Hle.
Qed.

(** ** The ends of a range *)

(** The path of a page ends at its first entry that is not a branch. *)
Lemma slot_stop n node v t t' e e' :
  slot_on n node v t = Some e -> is_branch e = false -> slot_on n node v t' = Some e' -> (t <= t')%nat.
Proof.
  revert node v. induction n as [|n IH]; intros node v Hs Hb Hs'; [done|]. cbn [slot_on] in *.
  destruct (nth_z (entries node) (v / pg n)) as [e0|]; [|done]. simpl in *.
  destruct (Nat.eqb_spec n t) as [E|], (Nat.eqb_spec n t') as [E'|]; [lia| | |].
  - injection Hs as ->. by rewrite Hb in Hs'.
  - destruct (is_branch e0); [|done]. destruct (find_child _ _); [|done]. simpl in Hs. apply slot_on_level in Hs. lia.
  - destruct (is_branch e0); [|done]. destruct (find_child _ _) as [c|]; [|done]. by apply (IH c (v mod pg n)).
Qed.

(** The leaf of page [v], if there is one, lies inside [lo, hi). *)
Definition inside (n : nat) (lo hi v : Z) (node : TableNode) : Prop :=
  forall t, leaf_at n node v t -> lo <= v / pg t * pg t /\ v / pg t * pg t + pg t <= hi.

Lemma block_shrink v t t0 : (t <= t0)%nat ->
  v / pg t0 * pg t0 <= v / pg t * pg t /\ v / pg t * pg t + pg t <= v / pg t0 * pg t0 + pg t0.
Proof.
  intros Hle. destruct (pg_divide t t0 Hle) as [k Hk]. pose proof (pg_pos t). pose proof (pg_pos t0). assert (0 < k) by nia.
  rewrite Hk, (Z.mul_comm k), <- Z.div_div by lia. set (q := v / pg t).
  pose proof (Z.div_mod q k). pose proof (Z.mod_pos_bound q k). nia.
Qed.

Lemma inside_finer n lo hi v node node' : 0 <= v < pg n -> finer n node node' -> inside n lo hi v node -> inside n lo hi v node'.
Proof.
  intros Hv Hf Hin t Hl. destruct (Hf v t Hv Hl) as (t0 & Hle & Hl0). destruct (Hin t0 Hl0). pose proof (block_shrink v t t0 Hle). lia.
Qed.

(** Both ends suffice for the whole range. *)
Lemma inside_all n lo hi node v :
  inside n lo hi lo node -> inside n lo hi (hi - 1) node -> lo <= v < hi -> inside n lo hi v node.
Proof.
  intros Hlo Hhi Hv t Hl. pose proof (pg_pos t). pose proof (Z.div_mod v (pg t)). pose proof (Z.mod_pos_bound v (pg t)).
  assert (Hq : forall u, v / pg t * pg t <= u < v / pg t * pg t + pg t -> u / pg t = v / pg t).
  { intros u Hu. symmetry. apply (Z.div_unique u (pg t) (v / pg t) (u - v / pg t * pg t)); lia. }
  destruct (Z.lt_ge_cases (v / pg t * pg t) lo) as [C1|C1].
  - assert (E : lo / pg t = v / pg t) by (apply Hq; lia). rewrite <- E. apply Hlo. by apply (leaf_at_block n node v lo).
  - destruct (Z.lt_ge_cases (hi - 1) (v / pg t * pg t + pg t)) as [C2|C2]; [|lia].
    assert (E : (hi - 1) / pg t = v / pg t) by (apply Hq; lia). rewrite <- E. apply Hhi. by apply (leaf_at_block n node v (hi - 1)).
Qed.

Lemma aligned_mod n va v t : at_page n va v -> va mod 4096 = 0 -> (t <= n)%nat -> va mod span_of t = 4096 * (v mod pg t).
Proof.
  intros [Hva ->] Hal Ht. rewrite span_eq, mod_mod_pg by done. pose proof (pg_pos t). rewrite Z.rem_mul_r by lia. lia.
Qed.

(** The ends the loop is run at: the first page or the last of [lo, lo + m). *)
Definition end_page (lo m : Z) (at_start : bool) : Z := if at_start then lo else lo + m - 1.

Lemma prepare_loop_wp geo fuel point lo m at_start node w :
  let n := levels geo in let v := end_page lo m at_start in
  wf n node -> at_page n point v -> point mod 4096 = 0 -> 0 < m -> supply_ok w ->
  (forall t, leaf_at n node v t -> (t < fuel)%nat) -> (0 < fuel)%nat ->
  wp (prepare_loop geo fuel point (m * 4096) at_start) (node, w) (fun r s =>
    keeps n node w s.1 s.2 /\ finer n node s.1 /\
    match r with Ok _ => inside n lo (lo + m) v s.1 | Err x => x = NOutOfMemory end).
Proof.
  intros n v. revert node w. induction fuel as [|fuel IH]; intros node w Hwf Hat Hal Hm Hsup Hfuel Hpos; [lia|].
  destruct (leaf_ref_run n point v node Hwf Hat) as (e & t & Hr & Hs & Hb). pose proof (slot_on_level _ _ _ _ _ Hs) as Hlt.
  assert (Honly : forall t', leaf_at n node v t' -> t' = t /\ is_valid e = true).
  { intros t' (e' & Hs' & Hv' & Hl'). pose proof (slot_stop _ _ _ _ _ _ _ Hs Hb Hs').
    pose proof (slot_stop _ _ _ _ _ _ _ Hs' (leaf_not_branch _ Hl') Hs). assert (t' = t) as -> by lia.
    split; [done|]. rewrite Hs in Hs'. by injection Hs' as ->. }
  assert (Hdone : keeps n node w node w /\ finer n node node) by (split; [by apply keeps_refl, kept_refl|apply finer_refl]).
  cbn [prepare_loop]. apply wp_bind. unfold wp at 1, leaf_ref. munfold. fold n. rewrite Hr. munfold.
  destruct (is_valid e) eqn:Hval; simpl.
  2: { split_and!; [apply Hdone..|]. intros t' Hl'. by destruct (Honly t' Hl'). }
  assert (Hleaf : is_leaf e = true) by (unfold is_branch in Hb; rewrite Hval in Hb; by destruct (is_leaf e)).
  assert (Hl : leaf_at n node v t) by by exists e.
  destruct (Nat.eqb_spec t 0) as [->|Ht0].
  { split_and!; [apply Hdone..|]. intros t' Hl'. destruct (Honly t' Hl') as [-> _]. change (pg 0) with 1.
    rewrite Z.div_1_r. unfold v, end_page. destruct at_start; lia. }
  rewrite land_span, (aligned_mod n point v t Hat Hal) by lia. rewrite span_eq. case_match eqn:Hcov.
  - split_and!; [apply Hdone..|]. intros t' Hl'. destruct (Honly t' Hl') as [-> _]. pose proof (pg_pos t).
    pose proof (Z.div_mod v (pg t)). destruct at_start; to_prop; unfold PAGE_SIZE, v, end_page in *; lia.
  - apply wp_bind. destruct t as [|k]; [done|]. replace (S k - 1)%nat with k by lia.
    eapply wp_mono; [by apply (split_at_wp n point v k)|]. intros [[]|x] [node1 w1] (K1 & F1 & H1); cbn [fst snd] in *; [|done].
    destruct H1 as (e1 & Hs1 & Hv1 & Hl1).
    eapply wp_mono; [apply IH; [by destruct K1|done|done|done|by destruct K1 as [_ _ _ []]| |]|].
    + intros t' (e' & Hs' & Hv' & Hl'). pose proof (slot_stop _ _ _ _ _ _ _ Hs' (leaf_not_branch _ Hl') Hs1).
      specialize (Hfuel _ Hl). lia.
    + specialize (Hfuel _ Hl). lia.
    + intros r [node2 w2] (K2 & F2 & H2). split; [by eapply keeps_trans|]. split; [by eapply finer_trans|done].
Qed.
