(* ===== verification/PagingUnmap.v ===== *)
(** * Page tables: unmapping and pruning

    Clearing a prepared range takes exactly its pages out of the translation;
    pruning takes out exactly the tables that translate nothing. *)

From S2P Require Import Prelude.
From S2P Require Import Occupancy.
From S2P Require Import Active.
From S2P Require Import Paging.
From S2P Require Import PagingInv.
From S2P Require Import PagingStep.

Open Scope Z_scope.

(** ** Ranges *)

(** [size] bytes from [va] on are the [m] pages from [lo] on, inside the
    address space. *)
Record range_ok (geo : Geo) (va size lo m : Z) : Prop := {
  rg_page : at_page (levels geo) va lo;
  rg_aligned : va mod 4096 = 0;
  rg_size : size = m * 4096;
  rg_some : 0 < m;
  rg_space : lo + m <= pg (levels geo);
  rg_word : va + size <= 2 ^ 64
}.

Lemma at_page_add n va lo k :
  at_page n va lo -> va mod 4096 = 0 -> 0 <= k -> lo + k < pg n -> at_page n (va + k * 4096) (lo + k).
Proof.
  intros [Hva ->] Hal Hk Hlt. split; [lia|]. rewrite Z.div_add by lia. pose proof (pg_pos n).
  pose proof (Z.mod_pos_bound (va / 4096) (pg n)). rewrite <- Zplus_mod_idemp_l. symmetry. apply Z.mod_small. lia.
Qed.

Lemma uadd_run {S E} x y (s : S) : 0 <= x + y < 2 ^ 64 -> uadd (E := E) x y s = Some (Ok (x + y), s).
Proof.
  intros H. unfold uadd, checked_add. assert (checked (x + y) = Some (x + y)) as E1.
  { apply checked_Some. split; [done|]. done. }
  munfold. by rewrite E1.
Qed.

Lemma prepare_wp geo va size lo m node w :
  let n := levels geo in
  range_ok geo va size lo m -> wf n node -> supply_ok w ->
  wp (prepare_geometry geo va size) (node, w) (fun r s =>
    keeps n node w s.1 s.2 /\ finer n node s.1 /\
    match r with
    | Ok _ => forall v, lo <= v < lo + m -> inside n lo (lo + m) v s.1
    | Err x => x = NOutOfMemory
    end).
Proof.
  intros n [Hat Hal -> Hm Hsp Hw] Hwf Hsup. pose proof (at_page_range _ _ _ Hat) as Hlo. pose proof (proj1 Hat) as Hva.
  unfold prepare_geometry, VirtAddr_offset. rewrite !land_page. change PAGE_SIZE with 4096. rewrite Hal, Z.mod_mul by lia. simpl negb. cbn [orb].
  rewrite (proj2 (Z.eqb_neq (m * 4096) 0)) by lia. apply wp_bind.
  assert (Hlev : forall nd v t, leaf_at n nd v t -> (t < S n)%nat) by (intros nd v t (e & Hs & _); apply slot_on_level in Hs; lia).
  eapply wp_mono; [apply (prepare_loop_wp geo _ va lo m true); [done|done|done|done|done|by apply Hlev|lia]|].
  intros [[]|x] [node1 w1] (K1 & F1 & H1); cbn [fst snd] in *; [|done]. apply wp_bind.
  unfold wp at 1. rewrite uadd_run by lia. replace (va + (m * 4096 - 4096)) with (va + (m - 1) * 4096) by lia.
  eapply wp_mono; [apply (prepare_loop_wp geo _ _ lo m false); [by destruct K1| | |done|by destruct K1 as [_ _ _ []]|by apply Hlev|lia]|].
  - unfold end_page. replace (lo + m - 1) with (lo + (m - 1)) by lia. apply at_page_add; (done || lia).
  - by rewrite Z.mod_add.
  - intros r [node2 w2] (K2 & F2 & H2). cbn [fst snd] in *. split; [by eapply keeps_trans|]. split; [by eapply finer_trans|].
    destruct r as [[]|]; [|done]. intros v Hv. apply inside_all; [|done|done].
    eapply inside_finer; [exact Hlo|exact F2|exact H1].
Qed.

(** ** Clearing *)

Definition in_range (lo hi v : Z) : bool := (lo <=? v) && (v <? hi).

(** [node'] is [node] without the pages from [lo] to [hi]. *)
Record cut (n : nat) (lo hi : Z) (node node' : TableNode) : Prop := {
  ct_page : page node' = page node;
  ct_wf : wf n node';
  ct_count : node_count node' = node_count node;
  ct_translate : forall v, 0 <= v < pg n -> translate n node' v = if in_range lo hi v then None else translate n node v;
  ct_finer : finer n node node'
}.

(** The same for one slot of a table; the other slots keep entry and child. *)
Record slot_cut (n : nat) (lo hi i : Z) (node node' : TableNode) : Prop := {
  sc_page : page node' = page node;
  sc_wf : wf (S n) node';
  sc_count : node_count node' = node_count node;
  sc_translate : forall v, 0 <= v < pg (S n) -> translate (S n) node' v =
    if (v / pg n =? i) && in_range lo hi v then None else translate (S n) node v;
  sc_other : forall j, 0 <= j -> j <> i ->
    nth_z (entries node') j = nth_z (entries node) j /\ find_child j (children node') = find_child j (children node);
  sc_finer : finer (S n) node node'
}.

(** A leaf under slot [i] is inside the range if it meets it. *)
Definition slot_inside (n : nat) (lo hi i : Z) (node : TableNode) : Prop :=
  forall v, 0 <= v < pg (S n) -> v / pg n = i -> lo <= v < hi -> inside (S n) lo hi v node.

(** The loop body of [clear_leaf_range]. *)
Definition clear_slot (level : nat) (node_va start_ end_ slot : Z) : PT unit :=
  let span := span_of level in
  entry ← read_entry slot;
  if negb (is_valid entry) then mret tt
  else if is_leaf entry then
    let base := node_va + slot * span in
    _ ← assert_that ((start_ <=? base) && (base + span <=? end_));
    write_entry slot 0
  else
    s ← get;
    match find_child slot (children s.1) with
    | Some _ => zoom slot (clear_leaf_range level (node_va + slot * span) start_ end_)
    | None => mret tt
    end.

Lemma slot_cut_same n lo hi i node :
  wf (S n) node -> (forall v, 0 <= v < pg (S n) -> v / pg n = i -> lo <= v < hi -> translate (S n) node v = None) ->
  slot_cut n lo hi i node node.
Proof.
  intros Hwf Ht. split; [done..| |done|apply finer_refl]. intros v Hv. unfold in_range. destruct (Z.eqb_spec (v / pg n) i); [|done].
  destruct (Z.leb_spec lo v), (Z.ltb_spec v hi); try done. simpl. by apply Ht.
Qed.

Lemma block_bounds v k : v / pg k * pg k <= v < v / pg k * pg k + pg k.
Proof. pose proof (Z.div_mod v (pg k)). pose proof (pg_pos k). pose proof (Z.mod_pos_bound v (pg k)). lia. Qed.

Lemma block_at i u k : 0 <= u < pg k -> (i * pg k + u) / pg k = i /\ (i * pg k + u) mod pg k = u.
Proof.
  intros Hu. pose proof (pg_pos k). rewrite Z.div_add_l, (Z.div_small u), Z.add_0_r by lia. split; [done|].
  by rewrite Z.add_comm, Z.mod_add, Z.mod_small by lia.
Qed.

Lemma zero_invalid : is_valid 0 = false /\ is_branch 0 = false.
Proof. done. Qed.

(** Clearing an entry makes no leaf. *)
Lemma clear_finer n node i : wf (S n) node -> 0 <= i < 512 -> finer (S n) node (stored node i 0).
Proof.
  intros Hwf Hi v t Hv (e & Hs & Hval & Hl). exists t. split; [done|]. pose proof (index_range n v Hv) as Hr.
  destruct Hwf as (_ & Hlen & _). cbn [slot_on stored entries children] in Hs. rewrite nth_z_insert in Hs by lia.
  destruct (Z.eqb_spec (v / pg n) i).
  - simpl in Hs. destruct (n =? t)%nat; [by injection Hs as <-|done].
  - exists e. done.
Qed.

Section clear_step.
Context (n : nat) (B lo hi : Z).
Context (IH : forall B' node w, wf n node ->
  (forall v, 0 <= v < pg n -> lo <= B' + v < hi -> inside n (lo - B') (hi - B') v node) ->
  wp (clear_leaf_range n (4096 * B') (4096 * lo) (4096 * hi)) (node, w) (fun r s =>
  r = Ok tt /\ s.2 = w /\ cut n (lo - B') (hi - B') node s.1)).

Lemma clear_slot_wp i node w :
  wf (S n) node -> 0 <= i < 512 -> slot_inside n (lo - B) (hi - B) i node ->
  (exists v, 0 <= v < pg (S n) /\ v / pg n = i /\ lo <= B + v < hi) ->
  wp (clear_slot n (4096 * B) (4096 * lo) (4096 * hi) i) (node, w) (fun r s =>
  r = Ok tt /\ s.2 = w /\ slot_cut n (lo - B) (hi - B) i node s.1).
Proof.
  intros Hwf Hi Hin (u & Hu & Hui & Hur). unfold clear_slot. destruct (wf_entry n node i Hwf Hi) as (e & He & Hok).
  apply wp_bind. eapply read_wp; [exact He|]. unfold slot_ok in Hok. destruct (is_valid e) eqn:Hval; simpl negb; cbv iota.
  2: { apply wp_ret. cbn [fst snd]. split; [done|]. split; [done|]. apply slot_cut_same; [done|]. intros v Hv Hvi _.
     cbn [translate]. rewrite Hvi, He. simpl. by rewrite Hval. }
  destruct (is_leaf e) eqn:Hleaf.
  - assert (Hl : leaf_at (S n) node u n) by (apply (leaf_at_top _ _ _ e); [by rewrite Hui|done..]).
  destruct (Hin u Hu Hui ltac:(lia) n Hl) as [Hlo Hhi]. rewrite Hui in *. apply wp_bind. unfold wp at 1, assert_that. rewrite span_eq.
  rewrite (proj2 (Z.leb_le (4096 * lo) _)), (proj2 (Z.leb_le _ (4096 * hi))) by lia. simpl andb. cbv iota.
  eapply write_wp; [exact He|]. split; [done|]. split; [done|]. destruct Hok as [Hn _]. split; cbn [fst].
  + done.
  + apply wf_store; [done|done|]. unfold slot_ok. by rewrite (proj1 zero_invalid).
  + by rewrite !node_count_eq.
  + intros v Hv. rewrite translate_store by (done || apply zero_invalid). destruct (Z.eqb_spec (v / pg n) i) as [E|]; [|done].
    rewrite (proj1 zero_invalid). pose proof (block_bounds v n) as Hb. rewrite E in Hb. unfold in_range.
    by rewrite (proj2 (Z.leb_le _ v)), (proj2 (Z.ltb_lt v _)) by lia.
  + intros j Hj Hne. cbn [stored entries children]. destruct Hwf as (_ & Hlen & _). rewrite nth_z_insert by lia.
    by rewrite (proj2 (Z.eqb_neq j i)).
  + by apply clear_finer.
  - destruct Hok as (c & Hc & Hwc & _). apply wp_bind. unfold wp at 1. munfold. rewrite Hc. eapply zoom_wp; [exact Hc|].
  rewrite span_eq. replace (4096 * B + i * (4096 * pg n)) with (4096 * (B + i * pg n)) by ring.
  eapply wp_mono; [apply IH; [done|]|].
  + intros v Hv Hr. destruct (block_at i v n Hv) as [Ed Em]. intros t (el & Hs & Hel). pose proof (slot_on_level _ _ _ _ _ Hs) as Hlt.
    assert (Hrg : 0 <= i * pg n + v < pg (S n)) by (rewrite pg_S; nia).
    destruct (Hin (i * pg n + v) Hrg Ed ltac:(lia) t) as [H1 H2].
    { exists el. split; [|done]. cbn [slot_on]. rewrite Ed, Em, He, Hc. simpl. rewrite (proj2 (Nat.eqb_neq n t)) by lia.
      unfold is_branch. by rewrite Hval, Hleaf. }
    destruct (pg_divide t n ltac:(lia)) as [k Hk]. pose proof (pg_pos t).
    assert (E : (i * pg n + v) / pg t = i * k + v / pg t) by (rewrite Hk, Z.mul_assoc, Z.div_add_l; lia).
    rewrite E in *. rewrite Hk in *. lia.
  + cbn [fst snd]. intros r s (-> & -> & [Hp Hw Hn Ht Hf]). split; [done|]. split; [done|]. split.
    * done.
    * by eapply wf_fill.
    * rewrite (count_filled _ _ _ c) by done. lia.
    * intros v Hv. rewrite (translate_fill _ _ _ c) by done. destruct (Z.eqb_spec (v / pg n) i) as [E|]; [|done]. cbn [andb].
      rewrite Ht by apply mod_range. assert (translate (S n) node v = translate n c (v mod pg n)) as ->.
      { cbn [translate]. rewrite E, He, Hc. simpl. by rewrite Hval, Hleaf. }
      pose proof (Z.div_mod v (pg n)) as Hdm. rewrite E in Hdm. pose proof (pg_pos n). unfold in_range.
      replace (lo - (B + i * pg n) <=? v mod pg n) with (lo - B <=? v) by (destruct (Z.leb_spec (lo - B) v), (Z.leb_spec (lo - (B + i * pg n)) (v mod pg n)); (done || lia)).
      by replace (v mod pg n <? hi - (B + i * pg n)) with (v <? hi - B) by (destruct (Z.ltb_spec v (hi - B)), (Z.ltb_spec (v mod pg n) (hi - (B + i * pg n))); (done || lia)).
    * intros j Hj Hne. cbn [filled entries children]. rewrite find_put_child. by rewrite (proj2 (Z.eqb_neq j i)).
    * by eapply fill_finer.
Qed.
End clear_step.

(** Slots with the same entry and child have the same leaves. *)
Lemma slot_inside_other n lo hi j node node' :
  nth_z (entries node') j = nth_z (entries node) j -> find_child j (children node') = find_child j (children node) ->
  slot_inside n lo hi j node -> slot_inside n lo hi j node'.
Proof.
  intros E1 E2 Hin v Hv Hj Hr t (e & Hs & He). apply (Hin v Hv Hj Hr t). exists e. split; [|done].
  cbn [slot_on] in *. by rewrite Hj, E1, E2 in *.
Qed.

Lemma each_clear_wp n B lo hi l node w
  (IH : forall B' node w, wf n node ->
    (forall v, 0 <= v < pg n -> lo <= B' + v < hi -> inside n (lo - B') (hi - B') v node) ->
    wp (clear_leaf_range n (4096 * B') (4096 * lo) (4096 * hi)) (node, w) (fun r s =>
      r = Ok tt /\ s.2 = w /\ cut n (lo - B') (hi - B') node s.1)) :
  wf (S n) node -> NoDup l ->
  (forall i, i ∈ l -> 0 <= i < 512 /\ slot_inside n (lo - B) (hi - B) i node /\
    exists v, 0 <= v < pg (S n) /\ v / pg n = i /\ lo <= B + v < hi) ->
  wp (each (clear_slot n (4096 * B) (4096 * lo) (4096 * hi)) l) (node, w) (fun r s =>
    r = Ok tt /\ s.2 = w /\ page s.1 = page node /\ wf (S n) s.1 /\ node_count s.1 = node_count node /\
    finer (S n) node s.1 /\ forall v, 0 <= v < pg (S n) -> translate (S n) s.1 v =
      if bool_decide (v / pg n ∈ l) && in_range (lo - B) (hi - B) v then None else translate (S n) node v).
Proof.
  revert node. induction l as [|i l IHl]; intros node Hwf Hnd Hl; cbn [each].
  { apply wp_ret. split_and!; try done. apply finer_refl. }
  apply NoDup_cons in Hnd as [Hil Hnd]. destruct (Hl i) as (Hi & Hin & Hv0); [by constructor|]. apply wp_bind.
  eapply wp_mono; [by apply (clear_slot_wp n B lo hi IH i)|]. intros r [node1 w1] (-> & Hw & Hcut). cbn [fst snd] in *. subst w1. destruct Hcut as [Hp1 Hw1 Hc1 Ht1 Ho1 Hf1].
  eapply wp_mono; [apply IHl; [done|done|]|].
  - intros j Hj. destruct (Hl j) as (Hjr & Hjin & Hjv); [by constructor|]. split; [done|]. split; [|done].
    assert (Hne : j <> i) by (intros ->; done). destruct (Ho1 j ltac:(lia) Hne) as [E1 E2]. by eapply slot_inside_other.
  - intros r [node2 w2] (-> & Hw & Hp2 & Hw2 & Hc2 & Hf2 & Ht2). cbn [fst snd] in *.
    split_and!; [done|done|congruence|done|lia|by eapply finer_trans|].
    intros v Hv. rewrite Ht2, Ht1 by done. destruct (Z.eqb_spec (v / pg n) i) as [E|Hne].
    + rewrite (bool_decide_eq_true_2 (v / pg n ∈ i :: l)) by (rewrite E; by constructor). cbn [andb]. by destruct (in_range (lo - B) (hi - B) v), (bool_decide (v / pg n ∈ l)).
    + replace (bool_decide (v / pg n ∈ i :: l)) with (bool_decide (v / pg n ∈ l)); [done|].
      apply bool_decide_ext. rewrite elem_of_cons. naive_solver.
Qed.

(** The slots that the loop visits are those that meet the range. *)
Lemma clear_slots p B lo hi i :
  0 < p -> let node_end := 4096 * B + 4096 * p * 512 in
  ~ (4096 * hi <= 4096 * B \/ node_end <= 4096 * lo) -> lo < hi ->
  (Z.max (4096 * lo) (4096 * B) - 4096 * B) / (4096 * p) <= i <= (Z.min (4096 * hi) node_end - 4096 * B - 1) / (4096 * p) <->
  exists v, 0 <= v < 512 * p /\ v / p = i /\ lo <= B + v < hi.
Proof.
  intros Hp node_end Hno Hlt. set (x := Z.max lo B - B). set (y := Z.min hi (B + 512 * p) - B).
  assert (E1 : (Z.max (4096 * lo) (4096 * B) - 4096 * B) / (4096 * p) = x / p).
  { replace (Z.max (4096 * lo) (4096 * B) - 4096 * B) with (4096 * x) by (unfold x; lia). by rewrite Z.div_mul_cancel_l by lia. }
  assert (E2 : (Z.min (4096 * hi) node_end - 4096 * B - 1) / (4096 * p) = (y - 1) / p).
  { replace (Z.min (4096 * hi) node_end - 4096 * B - 1) with ((y - 1) * 4096 + 4095) by (unfold y, node_end; lia).
    rewrite <- Z.div_div by lia. rewrite Z.div_add_l by lia. change (4095 / 4096) with 0. by rewrite Z.add_0_r. }
  rewrite E1, E2. assert (0 <= x <= y - 1 /\ y <= 512 * p) by (unfold x, y, node_end in *; lia). split.
  - intros [H1 H2]. exists (Z.max (i * p) x). pose proof (Z.mul_div_le (y - 1) p). pose proof (Z.mul_succ_div_gt x p).
    assert (i * p <= y - 1) by nia. assert (x < i * p + p) by nia. split; [lia|]. split; [|unfold x, y in *; lia].
    symmetry. apply (Z.div_unique _ p i (Z.max (i * p) x - i * p)); lia.
  - intros (v & Hv & <- & Hr). unfold x, y. split; apply Z.div_le_mono; lia.
Qed.

Lemma clear_wp n B lo hi node w :
  wf n node -> lo < hi ->
  (forall v, 0 <= v < pg n -> lo <= B + v < hi -> inside n (lo - B) (hi - B) v node) ->
  wp (clear_leaf_range n (4096 * B) (4096 * lo) (4096 * hi)) (node, w) (fun r s =>
    r = Ok tt /\ s.2 = w /\ cut n (lo - B) (hi - B) node s.1).
Proof.
  intros Hwf Hlt. revert B node w Hwf. induction n as [|n IH]; intros B node w Hwf Hin; [done|].
  cbn [clear_leaf_range]. pose proof (pg_pos n) as Hpg. pose proof (clear_slots (pg n) B lo hi) as Hsl. cbv zeta in Hsl.
  pose proof (span_eq n) as Esp. rewrite <- Esp in Hsl.
  destruct ((4096 * hi <=? 4096 * B) || (4096 * B + span_of n * 512 <=? 4096 * lo)) eqn:Hout.
  { apply wp_ret. split; [done|]. split; [done|]. split; [done..| |apply finer_refl]. intros v Hv. rewrite pg_S in Hv. apply orb_true_iff in Hout. unfold in_range.
    cbn [fst]. destruct (Z.leb_spec (lo - B) v), (Z.ltb_spec v (hi - B)); try done. destruct Hout; to_prop; lia. }
  apply orb_false_iff in Hout as [H1 H2]. apply Z.leb_gt in H1, H2. set (l := seqZ _ _).
  assert (Hl : forall i, i ∈ l <-> exists v, 0 <= v < pg (S n) /\ v / pg n = i /\ lo <= B + v < hi).
  { intros i. unfold l. rewrite elem_of_seqZ, pg_S. rewrite <- Hsl by lia. lia. }
  eapply (wp_mono (each (clear_slot n (4096 * B) (4096 * lo) (4096 * hi)) l)); [apply each_clear_wp; [|done|apply NoDup_seqZ|]|].
  - intros B' node' w' Hwf' Hin'. by apply IH.
  - intros i Hi. apply Hl in Hi as Hv. destruct Hv as (v & Hv & <- & Hr). split; [by apply index_range|]. split; [|by exists v].
    intros u Hu _ Hur. apply Hin; [done|lia].
  - intros r s (-> & Hw & Hp & Hwf' & Hc & Hf & Ht). split; [done|]. split; [done|]. split; [done..| |done]. intros v Hv. rewrite Ht by done.
    destruct (in_range (lo - B) (hi - B) v) eqn:Hr; [|by rewrite andb_false_r]. rewrite bool_decide_eq_true_2; [done|].
    apply Hl. exists v. unfold in_range in Hr. to_prop. split; [done|]. split; [done|lia].
Qed.

Lemma unmap_wp geo va size lo m node w :
  let n := levels geo in
  va_bits geo = 12 + 9 * Z.of_nat n -> range_ok geo va size lo m -> wf n node ->
  (forall v, lo <= v < lo + m -> inside n lo (lo + m) v node) ->
  wp (unmap_prepared_geometry geo va size) (node, w) (fun r s => r = Ok tt /\ s.2 = w /\ cut n lo (lo + m) node s.1).
Proof.
  intros n Hbits [Hat Hal -> Hm Hsp Hw] Hwf Hin. unfold unmap_prepared_geometry.
  assert (Hst : Z.land va (Z.shiftl 1 (va_bits geo) - 1) = 4096 * lo).
  { rewrite Hbits. change (Z.shiftl 1 (12 + 9 * Z.of_nat n)) with (span_of n). rewrite land_span, (aligned_mod n va lo n) by done.
    pose proof (at_page_range _ _ _ Hat). by rewrite Z.mod_small. }
  rewrite Hst. replace (4096 * lo + m * 4096) with (4096 * (lo + m)) by ring. fold n.
  pose proof (clear_wp n 0 lo (lo + m) node w Hwf ltac:(lia)) as Hc. rewrite !Z.sub_0_r in Hc. change (4096 * 0) with 0 in Hc.
  apply Hc. intros v _ Hv. apply Hin. lia.
Qed.

(** ** Pruning *)

(** Some entry of the table is in use. *)
Definition used (node : TableNode) : Prop := exists i e, 0 <= i < 512 /\ nth_z (entries node) i = Some e /\ is_valid e = true.

(** No table below is empty. *)
Fixpoint full (n : nat) (node : TableNode) : Prop :=
  match n with
  | O => True
  | S level => forall i c, find_child i (children node) = Some c -> used c /\ full level c
  end.

(** Tables went from [node] to the retired list, and nothing else happened. *)
Definition pruned (n : nat) (node : TableNode) (w : World) (s : TableNode * World) : Prop :=
  exists gone,
    page s.1 = page node /\ wf n s.1 /\ (forall v, 0 <= v < pg n -> translate n s.1 v = translate n node v) /\
    s.2 = mkWorld (tables w) (grants w) (live w) (retired w ++ gone) (room w) /\
    node_count s.1 + len gone = node_count node /\ Forall (fun g => children g = []) gone.

Lemma pruned_refl n node w : wf n node -> pruned n node w (node, w).
Proof. intros Hwf. exists []. split_and!; try done; [destruct w; simpl; by rewrite app_nil_r|]. unfold len. simpl. lia. Qed.

Lemma pruned_trans n a wa b wb s : pruned n a wa (b, wb) -> pruned n b wb s -> pruned n a wa s.
Proof.
  intros (g1 & P1 & W1 & T1 & E1 & C1 & F1) (g2 & P2 & W2 & T2 & E2 & C2 & F2). cbn [fst snd] in *. exists (g1 ++ g2). split_and!.
  - congruence.
  - done.
  - intros v Hv. by rewrite T2, T1.
  - rewrite E2, E1. simpl. by rewrite app_assoc.
  - rewrite len_app. lia.
  - by apply Forall_app.
Qed.

Lemma find_child_perm i cs cs' : NoDup cs.*1 -> cs ≡ₚ cs' -> find_child i cs' = find_child i cs.
Proof.
  intros Hnd Hp. assert (Hnd' : NoDup cs'.*1) by by rewrite <- Hp.
  destruct (find_child i cs) as [c|] eqn:Hc.
  - apply find_child_In; [done|]. rewrite <- Hp. by apply find_child_elem.
  - apply find_child_None in Hc. apply find_child_None. by rewrite <- Hp.
Qed.

Lemma swap_remove_perm {A} i (l : list A) x : l !! i = Some x ->
  exists l', swap_remove i l = Some (x, l') /\ l ≡ₚ x :: l' /\ forall k, (k < i)%nat -> l' !! k = l !! k.
Proof.
  intros Hx. pose proof (lookup_lt_Some _ _ _ Hx) as Hlt. unfold swap_remove. rewrite Hx. simpl.
  destruct l as [|y l _] using rev_ind; [simpl in Hlt; lia|]. rewrite length_app in *. simpl in *.
  replace (pred (length l + 1)) with (length l) by lia. rewrite list_lookup_middle by done. simpl. eexists. split; [done|].
  destruct (Nat.eq_dec i (length l)) as [->|Hne].
  - rewrite list_lookup_middle in Hx by done. injection Hx as ->.
    rewrite insert_app_r_alt, Nat.sub_diag by lia. simpl. rewrite removelast_last. split; [symmetry; apply Permutation_cons_append|].
    intros k Hk. by rewrite lookup_app_l.
  - rewrite lookup_app_l in Hx by lia. rewrite insert_app_l by lia. rewrite removelast_last. split.
    + rewrite <- (take_drop_middle l i x Hx) at 1. rewrite (insert_take_drop l i y) by lia. rewrite <- !app_assoc. cbn [app].
      etrans; [symmetry; apply Permutation_middle|]. constructor. apply Permutation_app_head. symmetry. apply Permutation_cons_append.
    + intros k Hk. rewrite list_lookup_insert_ne by lia. by rewrite lookup_app_l by lia.
Qed.

Lemma insert_put cs i slot c c' : NoDup cs.*1 -> cs !! i = Some (slot, c) ->
  <[i := (slot, c')]> cs = put_child slot c' cs /\ find_child slot cs = Some c.
Proof.
  intros Hnd Hi. split; [|apply find_child_In; [done|by eapply list_elem_of_lookup_2]].
  revert i Hi. induction cs as [|[j d] cs IH]; intros i Hi; [done|]. simpl in Hnd. apply NoDup_cons in Hnd as [Hj Hnd].
  destruct i as [|i]; simpl in *; [injection Hi as -> ->; by rewrite Z.eqb_refl|].
  destruct (Z.eqb_spec j slot) as [->|]; [|by rewrite IH].
  exfalso. apply Hj. apply list_elem_of_fmap. exists (slot, c). split; [done|]. by eapply list_elem_of_lookup_2.
Qed.

Lemma count_perm cs cs' : cs ≡ₚ cs' -> count_children cs = count_children cs'.
Proof. induction 1 as [|[i c] cs cs' _ IH|[i c] [j d] cs|cs1 cs2 cs3 _ IH1 _ IH2]; simpl; lia. Qed.

(** An unused table has no children: taking it out of its parent changes no
    translation. *)
Lemma unused_childless n c : wf (S n) c -> ~ used c -> children c = [].
Proof.
  intros Hwf Hu. destruct (children c) as [|[i d] cs] eqn:Hcs; [done|]. exfalso. apply Hu.
  assert (Hd : find_child i (children c) = Some d) by (rewrite Hcs; simpl; by rewrite Z.eqb_refl).
  destruct (wf_child n c i d Hwf Hd) as [Hi _]. destruct (wf_entry n c i Hwf Hi) as (e & He & Hok). exists i, e.
  unfold slot_ok in Hok. rewrite Hd in Hok. by destruct (is_valid e).
Qed.

Lemma unused_translate n c v : wf n c -> ~ used c -> 0 <= v < pg n -> translate n c v = None.
Proof.
  destruct n as [|n]; [done|]. intros Hwf Hu Hv. cbn [translate]. pose proof (index_range n v Hv) as Hi.
  destruct (wf_entry n c _ Hwf Hi) as (e & He & _). rewrite He. simpl. destruct (is_valid e) eqn:Hval; [|done].
  exfalso. apply Hu. by exists (v / pg n), e.
Qed.

Lemma used_dec n node : wf (S n) node ->
  if forallb (fun e => negb (is_valid e)) (entries node) then ~ used node else used node.
Proof.
  intros (_ & Hl & _). destruct (forallb _ _) eqn:Hf.
  - rewrite List.forallb_forall in Hf. intros (i & e & Hi & He & Hval).
    specialize (Hf e (proj1 (list_elem_of_In _ _) (list_elem_of_lookup_2 _ _ _ He))). by rewrite Hval in Hf.
  - assert (exists k e, entries node !! k = Some e /\ is_valid e = true) as (k & e & He & Hval).
    { clear Hl. induction (entries node) as [|e es IH]; [done|]. simpl in Hf. destruct (is_valid e) eqn:Hval; [by exists 0%nat, e|].
      destruct (IH Hf) as (k & e' & He). by exists (S k), e'. }
    exists (Z.of_nat k), e. apply lookup_lt_Some in He as Hlt. unfold nth_z, len in *. rewrite Nat2Z.id. split; [lia|done].
Qed.

(** The child of slot [slot] taken out and its entry cleared. *)
Definition unlinked (node : TableNode) (slot : Z) (cs : list (Z * TableNode)) : TableNode :=
  mkNode (page node) (<[Z.to_nat slot := 0]> (entries node)) cs.

Lemma unlink_ok n node slot c cs :
  wf (S n) node -> find_child slot (children node) = Some c -> ~ used c -> children node ≡ₚ (slot, c) :: cs ->
  wf (S n) (unlinked node slot cs) /\
  (forall v, 0 <= v < pg (S n) -> translate (S n) (unlinked node slot cs) v = translate (S n) node v) /\
  node_count (unlinked node slot cs) + node_count c = node_count node /\
  forall i, find_child i cs = if i =? slot then None else find_child i (children node).
Proof.
  intros Hwf Hc Hu Hp. destruct (wf_child n node slot c Hwf Hc) as [Hi Hwc]. pose proof Hwf as (Hpg & Hl & Hnd & Hr & Hs).
  pose proof Hnd as Hnd'. rewrite Hp in Hnd'. simpl in Hnd'. apply NoDup_cons in Hnd' as [Hno Hnd'].
  assert (Hfind : forall i, find_child i cs = if i =? slot then None else find_child i (children node)).
  { intros i. destruct (Z.eqb_spec i slot) as [->|Hne]; [by apply find_child_None|].
    rewrite <- (find_child_perm i _ _ Hnd Hp). simpl. by rewrite (proj2 (Z.eqb_neq slot i)). }
  split_and!.
  - cbn [wf unlinked page entries children]. split_and!; [done|unfold len; by rewrite length_insert|done| |].
    + rewrite Hp in Hr. simpl in Hr. by apply Forall_cons in Hr as [_ Hr].
    + intros i e Hir. rewrite nth_z_insert, Hfind by lia. destruct (Z.eqb_spec i slot); [|by apply Hs].
      intros [= <-]. unfold slot_ok. by rewrite (proj1 zero_invalid).
  - intros v Hv. pose proof (index_range n v Hv) as Hiv. cbn [translate unlinked entries children].
    rewrite nth_z_insert, Hfind by lia. destruct (Z.eqb_spec (v / pg n) slot) as [E|]; [|done].
    cbn [mbind option_bind]. rewrite (proj1 zero_invalid). simpl negb. cbv iota. rewrite E, Hc.
    destruct (wf_entry n node slot Hwf Hi) as (e & He & Hok). rewrite He. simpl. unfold slot_ok in Hok. rewrite Hc in Hok.
    destruct (is_valid e); [|done]. destruct (is_leaf e); [by destruct Hok|]. simpl. by rewrite unused_translate by (done || apply mod_range).
  - rewrite !(node_count_eq node), (node_count_eq (unlinked _ _ _)). cbn [unlinked children]. rewrite (count_perm _ _ Hp). simpl. lia.
  - done.
Qed.

Lemma zoom_nth_wp {A} node w i slot c (m : PT A) Q :
  NoDup (children node).*1 -> children node !! i = Some (slot, c) ->
  wp m (c, w) (fun r s => Q r (filled node slot s.1, s.2)) -> wp (zoom_nth i m) (node, w) Q.
Proof.
  intros Hnd Hi Hm. unfold wp, zoom_nth, filled in *. destruct node as [p es cs]. cbn [page entries children] in *. rewrite Hi.
  destruct (m (c, w)) as [[r [c' w']]|]; [|done]. by rewrite (proj1 (insert_put cs i slot c c' Hnd Hi)).
Qed.

Lemma fill_pruned n node w slot c s :
  wf (S n) node -> find_child slot (children node) = Some c -> pruned n c w s -> pruned (S n) node w (filled node slot s.1, s.2).
Proof.
  intros Hwf Hc (gone & P & W & T & E & C & F). destruct (wf_child n node slot c Hwf Hc) as [Hi Hwc].
  exists gone. cbn [fst snd]. split_and!; try done.
  - by eapply wf_fill.
  - intros v Hv. rewrite (translate_fill _ _ _ c) by done. destruct (Z.eqb_spec (v / pg n) slot) as [Es|]; [|done].
    rewrite T by apply mod_range. destruct (wf_entry n node slot Hwf Hi) as (e & He & Hok). cbn [translate]. rewrite Es, He, Hc. simpl.
    unfold slot_ok in Hok. rewrite Hc in Hok. destruct (is_valid e), (is_leaf e); naive_solver.
  - rewrite (count_filled _ _ _ c) by done. lia.
Qed.

(** What the loop does with the child it has just found empty. *)
Lemma drop_child_wp n node w index slot c Q :
  wf (S n) node -> children node !! index = Some (slot, c) -> ~ used c -> wf n c ->
  (forall cs, pruned (S n) node w (unlinked node slot cs, mkWorld (tables w) (grants w) (live w) (retired w ++ [c]) (room w)) ->
     S (length cs) = length (children node) -> (forall k, (k < index)%nat -> cs !! k = children node !! k) ->
     Q (Ok tt) (unlinked node slot cs, mkWorld (tables w) (grants w) (live w) (retired w ++ [c]) (room w))) ->
  wp (retire_child index) (node, w) Q.
Proof.
  intros Hwf Hk Hu Hwc HQ. pose proof Hwf as (_ & _ & Hnd & _). pose proof (insert_put _ _ _ c c Hnd Hk) as [_ Hc].
  destruct (wf_child n node slot c Hwf Hc) as [Hi _]. destruct (wf_entry n node slot Hwf Hi) as (e & He & _).
  destruct (swap_remove_perm index (children node) (slot, c) Hk) as (cs' & Hsw & Hp & Hpre).
  destruct (unlink_ok n node slot c cs' Hwf Hc Hu Hp) as (W & T & C & _).
  destruct n as [|n]; [done|]. pose proof (unused_childless n c Hwc Hu) as Hno.
  assert (Hone : node_count c = 1) by (rewrite node_count_eq, Hno; reflexivity).
  unfold wp, retire_child, write_entry, put_node, retire_table, put_world. munfold. destruct node as [p es cs]. cbn [page entries children] in *.
  rewrite Hsw. munfold. rewrite He. munfold. apply (HQ cs').
  - exists [c]. cbn [fst snd]. split_and!; try done; [|by constructor]. change (len [c]) with 1. lia.
  - apply Permutation_length in Hp. by rewrite Hp.
  - done.
Qed.

Definition prefix_full (n index : nat) (node : TableNode) : Prop :=
  forall k i c, (k < index)%nat -> children node !! k = Some (i, c) -> used c /\ full n c.

Lemma prefix_filled n index node slot c c' :
  NoDup (children node).*1 -> children node !! index = Some (slot, c) -> prefix_full n index node ->
  prefix_full n index (filled node slot c') /\ children (filled node slot c') !! index = Some (slot, c').
Proof.
  intros Hnd Hk Hpre. cbn [filled children]. destruct (insert_put _ _ _ c c' Hnd Hk) as [<- _].
  apply lookup_lt_Some in Hk as Hlt. split; [|by rewrite list_lookup_insert_eq].
  intros k i d Hki. cbn [filled children]. destruct (insert_put _ _ _ c c' Hnd Hk) as [<- _].
  rewrite list_lookup_insert_ne by lia. by apply Hpre.
Qed.

Lemma prune_loop_wp n fuel index node w
  (IH : forall node w, wf n node -> wp (prune_empty n) (node, w) (fun r s =>
    exists b, r = Ok b /\ pruned n node w s /\ full n s.1 /\ if b : bool then ~ used s.1 else used s.1)) :
  wf (S n) node -> (length (children node) <= index + fuel)%nat -> prefix_full n index node ->
  wp (prune_loop (prune_empty n) fuel index) (node, w) (fun r s => r = Ok tt /\ pruned (S n) node w s /\ full (S n) s.1).
Proof.
  revert index node w. induction fuel as [|fuel IHf]; intros index node w Hwf Hfuel Hpre; cbn [prune_loop]; apply wp_bind; unfold wp at 1; munfold.
  all: destruct (Nat.leb_spec (length (children node)) index) as [Hle|Hgt].
  1, 3: split; [done|]; split; [by apply pruned_refl|]; intros i c Hc; apply find_child_elem, list_elem_of_lookup in Hc as [k Hk];
        apply (Hpre k i c); [apply lookup_lt_Some in Hk; cbn [fst] in Hk; lia|done].
  - lia.
  - destruct (lookup_lt_is_Some_2 (children node) index Hgt) as [[slot c] Hk]. pose proof Hwf as (_ & _ & Hnd & _).
    destruct (insert_put _ _ _ c c Hnd Hk) as [_ Hc]. destruct (wf_child n node slot c Hwf Hc) as [_ Hwc].
    apply wp_bind. eapply zoom_nth_wp; [done|exact Hk|]. eapply wp_mono; [by apply IH|]. intros r [c' w'] (b & -> & Hpr & Hfull & Hb).
    cbn [fst snd] in *. pose proof (fill_pruned n node w slot c (c', w') Hwf Hc Hpr) as Hpr1. cbn [fst snd] in Hpr1.
    pose proof Hpr1 as (_ & _ & Hwf1 & _). cbn [fst] in Hwf1.
    destruct (prefix_filled n index node slot c c' Hnd Hk Hpre) as [Hpre1 Hk1].
    assert (Hlen : length (children (filled node slot c')) = length (children node)).
    { cbn [filled children]. by rewrite <- (length_fmap fst), put_child_keys, length_fmap. }
    destruct b.
    + assert (Hu : ~ used c') by done.
      apply wp_bind. eapply (drop_child_wp n); [done|exact Hk1|done|by destruct Hpr as (_ & _ & Hw' & _)|].
      intros cs Hpr2 Hcs Hsame. pose proof Hpr2 as (_ & _ & Hwf2 & _). cbn [fst] in Hwf2.
      eapply wp_mono; [apply IHf; [done|cbn [unlinked children]; lia|]|].
      * intros k i d Hki Hd. cbn [unlinked children] in Hd. rewrite Hsame in Hd by done. by apply (Hpre1 k i d).
      * intros r s (-> & Hpr3 & Hf3). split; [done|]. split; [|done].
        eapply pruned_trans; [exact Hpr1|]. by eapply pruned_trans.
    + eapply wp_mono; [apply IHf; [done|lia|]|].
      * intros k i d Hki Hd. destruct (Nat.eq_dec k index) as [->|]; [|apply (Hpre1 k i d); [lia|done]].
        rewrite Hk1 in Hd. injection Hd as <- <-. done.
      * intros r s (-> & Hpr2 & Hf2). split; [done|]. split; [by eapply pruned_trans|done].
Qed.

Lemma prune_wp n node w : wf n node -> wp (prune_empty n) (node, w) (fun r s =>
  exists b, r = Ok b /\ pruned n node w s /\ full n s.1 /\ if b : bool then ~ used s.1 else used s.1).
Proof.
  revert node w. induction n as [|n IH]; intros node w Hwf; [done|]. cbn [prune_empty]. apply wp_bind. unfold wp at 1. munfold.
  apply wp_bind. eapply wp_mono; [apply prune_loop_wp; [done|done|simpl; lia|]|].
  - intros k i c Hk. lia.
  - intros r s (-> & Hpr & Hf). unfold wp. munfold. eexists. split; [done|]. split; [done|]. split; [done|].
    apply (used_dec n). by destruct Hpr as (_ & _ & Hw & _).
Qed.
