(* ===== verification/PagingMap.v ===== *)
(** * Page tables: preparing and mapping a range

    The chunks of a range are the blocks the loops take, superpages where the
    alignment of both addresses and the length left allow.  Preparing makes a
    free entry for every chunk, mapping fills them. *)

From S2P Require Import Prelude.
From S2P Require Import Occupancy.
From S2P Require Import Active.
From S2P Require Import Paging.
From S2P Require Import PagingInv.
From S2P Require Import PagingStep.
From S2P Require Import PagingUnmap.

Open Scope Z_scope.

(** ** Full trees have room where nothing is mapped *)

Lemma full_mapped n node : wf n node -> full n node -> used node -> exists v, 0 <= v < pg n /\ is_Some (translate n node v).
Proof.
  revert node. induction n as [|n IH]; intros node Hwf Hfull (i & e & Hi & He & Hval); [done|].
  pose proof (pg_pos n). destruct (wf_entry n node i Hwf Hi) as (e' & He' & Hok). rewrite He in He'. injection He' as <-.
  unfold slot_ok in Hok. rewrite Hval in Hok. destruct (is_leaf e) eqn:Hleaf.
  - exists (i * pg n + 0). destruct (block_at i 0 n ltac:(lia)) as [E1 E2]. split; [rewrite pg_S; nia|].
    cbn [translate]. rewrite E1, He. simpl. rewrite Hval, Hleaf. by eexists.
  - destruct Hok as (c & Hc & Hwc & _). destruct (Hfull i c Hc) as [Hu Hf]. destruct (IH c Hwc Hf Hu) as (u & Hur & Ht).
    exists (i * pg n + u). destruct (block_at i u n Hur) as [E1 E2]. split; [rewrite pg_S; nia|].
    cbn [translate]. rewrite E1, E2, He, Hc. simpl. by rewrite Hval, Hleaf.
Qed.

Lemma full_open n node v t :
  wf n node -> full n node -> 0 <= v < pg n -> (t < n)%nat ->
  (forall v', 0 <= v' < pg n -> v' / pg t = v / pg t -> translate n node v' = None) -> open_at n node v t.
Proof.
  revert node v. induction n as [|n IH]; intros node v Hwf Hfull Hv Hlt Hno; [lia|].
  pose proof (index_range n v Hv) as Hi. cbn [open_at]. intros e He. destruct (wf_entry n node _ Hwf Hi) as (e' & He' & Hok).
  rewrite He in He'. injection He' as <-. unfold slot_ok in Hok. pose proof (pg_pos n).
  assert (Hat : forall c, find_child (v / pg n) (children node) = Some c -> is_valid e = true -> is_leaf e = false ->
    forall u, 0 <= u < pg n -> translate (S n) node (v / pg n * pg n + u) = translate n c u).
  { intros c Hc H1 H2 u Hu. destruct (block_at (v / pg n) u n Hu) as [E1 E2]. cbn [translate]. rewrite E1, E2, He, Hc. simpl. by rewrite H1, H2. }
  assert (Hleaf : is_valid e = true -> is_leaf e = true -> False).
  { intros H1 H2. specialize (Hno v Hv eq_refl). cbn [translate] in Hno. rewrite He in Hno. simpl in Hno. by rewrite H1, H2 in Hno. }
  destruct (Nat.eqb_spec n t) as [->|Hnt].
  - destruct (is_valid e) eqn:Hval; [|done]. exfalso. destruct (is_leaf e) eqn:Hlf; [by apply Hleaf|].
    destruct Hok as (c & Hc & Hwc & _). destruct (Hfull _ c Hc) as [Hu Hf]. destruct (full_mapped t c Hwc Hf Hu) as (u & Hur & [x Hx]).
    destruct (block_at (v / pg t) u t Hur) as [E1 _]. rewrite <- (Hat c Hc eq_refl eq_refl u Hur), Hno in Hx; [done| |done].
    rewrite pg_S. nia.
  - intros Hval. destruct (is_leaf e) eqn:Hlf; [by exfalso; apply Hleaf|]. rewrite Hval in Hok. destruct Hok as (c & Hc & Hwc & _).
    exists c. split; [done|]. destruct (Hfull _ c Hc) as [_ Hf]. apply IH; [done|done|apply mod_range|lia|].
    intros u Hur Eu. rewrite <- (Hat c Hc Hval eq_refl u Hur). destruct (block_at (v / pg n) u n Hur) as [E1 E2]. apply Hno.
    + rewrite pg_S. nia.
    + apply (block_same n t _ v); [lia|done|]. by rewrite E2.
Qed.

(** Every table below is used or covers a page of the set [D]. *)
Fixpoint full_but (n : nat) (D : Z -> Prop) (node : TableNode) : Prop :=
  match n with
  | O => True
  | S level => forall i c, find_child i (children node) = Some c ->
      (used c \/ exists u, 0 <= u < pg level /\ D (i * pg level + u)) /\
      full_but level (fun u => D (i * pg level + u)) c
  end.

Lemma full_full_but n D node : full n node -> full_but n D node.
Proof.
  revert D node. induction n as [|n IH]; intros D node Hf; [done|]. intros i c Hc. destruct (Hf i c Hc) as [Hu Hf'].
  split; [by left|by apply IH].
Qed.

Lemma full_but_full n (D : Z -> Prop) node :
  wf n node -> full_but n D node -> (forall v, 0 <= v < pg n -> D v -> is_Some (translate n node v)) -> full n node.
Proof.
  revert D node. induction n as [|n IH]; intros D node Hwf Hfb Hall; [done|]. intros i c Hc.
  destruct (wf_child n node i c Hwf Hc) as [Hi Hwc]. destruct (Hfb i c Hc) as [Hu Hf]. destruct (wf_entry n node i Hwf Hi) as (e & He & Hok).
  unfold slot_ok in Hok. rewrite Hc in Hok.
  assert (Hat : forall u, 0 <= u < pg n -> D (i * pg n + u) -> is_Some (translate n c u)).
  { intros u Hur Hr. destruct (block_at i u n Hur) as [E1 E2]. destruct (Hall (i * pg n + u)) as [x Hx]; [rewrite pg_S; nia|done|].
    cbn [translate] in Hx. rewrite E1, E2, He, Hc in Hx. simpl in Hx. destruct (is_valid e); [|done]. destruct (is_leaf e); [by destruct Hok|].
    by exists x. }
  split.
  - destruct Hu as [Hu|(u & Hur & Hr)]; [done|]. destruct (Hat u Hur Hr) as [x Hx]. destruct n as [|n]; [done|]. cbn [translate] in Hx.
    destruct (nth_z (entries c) (u / pg n)) as [e1|] eqn:He1; [|done]. simpl in Hx. destruct (is_valid e1) eqn:Hv1; [|done].
    exists (u / pg n), e1. split; [by apply index_range|done].
  - apply (IH (fun u => D (i * pg n + u))); [done|done|]. intros u Hur Hr. by apply Hat.
Qed.

Lemma zero_full_but n D p : full_but n D (zero_table p).
Proof. destruct n; done. Qed.

Lemma fill_full_but n (D : Z -> Prop) node idx c c' :
  find_child idx (children node) = Some c -> full_but (S n) D node -> (used c -> used c') ->
  full_but n (fun u => D (idx * pg n + u)) c' -> full_but (S n) D (filled node idx c').
Proof.
  intros Hc Hf Hu Hf' i d. cbn [filled children]. rewrite find_put_child, Hc. destruct (Z.eqb_spec i idx) as [->|]; [|by apply Hf].
  intros [= <-]. split; [|done]. destruct (Hf idx c Hc) as [[?|?] _]; [left; by apply Hu|by right].
Qed.

(** The walk to a page of the range makes tables that cover it. *)
Lemma entry_at_full n va v t (D : Z -> Prop) node w :
  wf n node -> at_page n va v -> (t < n)%nat -> supply_ok w -> full_but n D node -> D v ->
  wp (entry_at n va t true) (node, w) (fun r s => full_but n D s.1 /\ (used node -> used s.1)).
Proof.
  revert D node w v. induction n as [|n IH]; intros D node w v Hwf Hat Hlt Hsup Hf Hr; [lia|].
  pose proof (at_page_range _ _ _ Hat) as Hv. pose proof (index_range n v Hv) as Hi.
  assert (Hdm : v = v / pg n * pg n + v mod pg n) by (pose proof (pg_pos n); pose proof (Z.div_mod v (pg n)); lia).
  destruct (wf_entry n node _ Hwf Hi) as (e & He & Hok). cbn [entry_at]. rewrite (at_page_index _ _ _ Hat).
  apply wp_bind. eapply read_wp; [exact He|]. unfold slot_ok in Hok.
  destruct (Nat.eqb_spec n t) as [->|Hnt]; [done|]. destruct (is_valid e) eqn:Hval; simpl.
  - destruct (is_leaf e) eqn:Hleaf; simpl; [done|]. destruct Hok as (c & Hc & Hwc & _). apply wp_bind, wp_ret.
    eapply zoom_wp; [exact Hc|]. destruct (Hf _ c Hc) as [_ Hfc].
    eapply wp_mono; [apply (IH (fun u => D (v / pg n * pg n + u)) c w (v mod pg n)); [done|by apply at_page_down|lia|done|done|by rewrite <- Hdm]|].
    intros r s [Hfs Hus]. cbn [fst]. split; [by eapply fill_full_but|]. by intros (i & e' & ?); exists i, e'.
  - rewrite andb_false_r. apply wp_bind, wp_bind. apply leaf_wp; [done| |done].
    intros p w1 Hp K1. apply (link_wp _ _ _ _ e); [by destruct K1|done| |done].
    intros w2 K2. destruct n as [|n]; [lia|]. assert (Efc : find_child (v / pg (S n)) (children (linked node (v / pg (S n)) (zero_table p))) = Some (zero_table p))
      by by rewrite find_linked, Z.eqb_refl.
    eapply zoom_wp; [exact Efc|].
    eapply wp_mono; [apply (IH (fun u => D (v / pg (S n) * pg (S n) + u)) (zero_table p) w2 (v mod pg (S n)));
      [by apply zero_wf|by apply at_page_down|lia|by destruct K2|apply zero_full_but|by rewrite <- Hdm]|].
    intros r s [Hfs Hus]. cbn [fst]. split.
    + eapply fill_full_but; [exact Efc| |done|done]. intros i c. rewrite find_linked by done. destruct (Z.eqb_spec i (v / pg (S n))) as [->|]; [|by apply Hf].
      intros [= <-]. split; [|apply zero_full_but]. right. exists (v mod pg (S n)). split; [apply mod_range|by rewrite <- Hdm].
    + intros _. destruct (branch_entry (table_ppn (zero_table p))) as (H1 & _); [pose proof (table_ppn_ok (zero_table p) Hp); lia|].
      exists (v / pg (S n)), (pte_set (table_ppn (zero_table p)) PTE_V). split; [done|]. cbn [filled linked entries]. destruct Hwf as (_ & Hl & _).
      by rewrite nth_z_insert, Z.eqb_refl by lia.
Qed.

Lemma store_full n va v t bits (D : Z -> Prop) node w e :
  wf n node -> at_page n va v -> slot_on n node v t = Some e -> is_branch e = false -> is_valid bits = true -> full_but n D node ->
  wp (store_at_path n va t bits) (node, w) (fun _ s => full_but n D s.1 /\ used s.1).
Proof.
  intros Hwf Hat Hs Hb Hval Hf. revert D node v Hwf Hat Hs Hf. induction n as [|n IH]; intros D node v Hwf Hat Hs Hf; [done|].
  pose proof (at_page_range _ _ _ Hat) as Hv. pose proof (index_range n v Hv) as Hi.
  destruct (wf_entry n node _ Hwf Hi) as (e0 & He & Hok). cbn [store_at_path slot_on] in *. rewrite (at_page_index _ _ _ Hat).
  rewrite He in Hs. simpl in Hs. destruct (Nat.eqb_spec n t) as [->|Hnt].
  - eapply write_wp; [exact He|]. cbn [fst]. split; [exact Hf|]. exists (v / pg t), bits. split; [done|]. cbn [stored entries].
    destruct Hwf as (_ & Hl & _). by rewrite nth_z_insert, Z.eqb_refl by lia.
  - destruct (is_branch e0) eqn:Hb0; [|done]. destruct (find_child (v / pg n) (children node)) as [c|] eqn:Hc; [|done]. simpl in Hs.
    destruct (wf_child n node _ c Hwf Hc) as [_ Hwc]. destruct (Hf _ c Hc) as [_ Hfc].
    eapply zoom_wp; [exact Hc|]. eapply wp_mono; [by apply (IH (fun u => D (v / pg n * pg n + u)) c (v mod pg n)); [|apply at_page_down| |]|].
    intros r s [Hfs Hus]. cbn [fst]. split; [by eapply fill_full_but|]. exists (v / pg n), e0. split; [done|]. split; [done|].
    unfold is_branch in Hb0. by apply andb_true_iff in Hb0 as [? _].
Qed.

(** ** Chunks *)

Lemma pick_target_spec target rest vp :
  let t := pick_target target rest vp in
  (t <= target)%nat /\ (t = 0%nat \/ span_of t <= rest /\ vp mod span_of t = 0).
Proof.
  induction target as [|t IH]; cbn [pick_target]; [by split; [|left]|]. destruct (_ || _) eqn:H; simpl in *.
  - destruct IH as [H1 H2]. split; [lia|done].
  - apply orb_false_iff in H as [H1 H2]. apply Z.ltb_ge in H1. apply negb_false_iff, Z.eqb_eq in H2. rewrite land_span in H2.
    split; [done|]. by right.
Qed.

Lemma lor_mod a b k : Z.lor a b mod span_of k = 0 -> a mod span_of k = 0 /\ b mod span_of k = 0.
Proof. rewrite <- !land_span, Z.land_lor_distr_l. apply Z.lor_eq_0_iff. Qed.

(** Aligned blocks that start later do not share a block with an earlier
    page. *)
Lemma block_before v v' t : v < v' -> v' mod pg t = 0 -> v / pg t <> v' / pg t.
Proof.
  intros Hlt Hm E. pose proof (pg_pos t). pose proof (Z.div_mod v' (pg t)). pose proof (Z.mul_div_le v (pg t)).
  pose proof (Z.mul_succ_div_gt v (pg t)). rewrite E in *. lia.
Qed.

Lemma block_after v v' t : v' / pg t * pg t + pg t <= v -> v / pg t <> v' / pg t.
Proof. intros Hle E. pose proof (block_bounds v t). rewrite E in *. lia. Qed.

Lemma leaf_bits flags ppn :
  0 <= flags < 256 -> Z.land flags PTE_RWX <> 0 -> 0 <= ppn < 2 ^ 54 -> let bits := pte_set ppn (Z.lor flags PTE_V) in
  is_valid bits = true /\ is_leaf bits = true /\ pte_ppn bits = ppn /\ pte_flags bits = Z.lor flags PTE_V.
Proof.
  intros Hflags Hrwx Hp bits. assert (Hr : 0 <= Z.lor flags PTE_V < 256).
  { assert (Hnn : 0 <= Z.lor flags PTE_V) by (apply Z.lor_nonneg; unfold PTE_V; lia).
  split; [done|]. destruct (Z.eq_dec flags 0) as [->|]; [done|].
  apply (Z.log2_lt_pow2 _ 8); [|rewrite Z.log2_lor by (done || lia); apply Z.max_lub_lt; [apply Z.log2_lt_pow2; lia|done]].
  assert (Z.lor flags PTE_V <> 0); [|lia]. intros E. by apply Z.lor_eq_0_iff in E as [_ E]. }
  assert (Ef : pte_flags bits = Z.lor flags PTE_V) by by apply pte_set_flags_eq. split_and!; [| |by apply pte_set_ppn|done].
  - unfold is_valid. rewrite Ef, Z.land_lor_distr_l. change (Z.land PTE_V PTE_V) with 1. apply Z.eqb_eq.
  pose proof (Z.land_ones flags 1 ltac:(lia)) as Eo. change (Z.ones 1) with PTE_V in Eo. change (2 ^ 1) with 2 in Eo. rewrite Eo.
  pose proof (Z.mod_pos_bound flags 2). assert (flags mod 2 = 0 \/ flags mod 2 = 1) as [->| ->] by lia; done.
  - unfold is_leaf. rewrite Ef, Z.land_lor_distr_l. change (Z.land PTE_V PTE_RWX) with 0. rewrite Z.lor_0_r.
  by rewrite (proj2 (Z.eqb_neq _ 0)).
Qed.

(** The whole of a mapping request: the range, and frames that exist. *)
Record request_ok (geo : Geo) (va pa size lo m : Z) : Prop := {
  rq_range : range_ok geo va size lo m;
  rq_aligned : pa mod 4096 = 0;
  rq_frames : 0 <= pa /\ pa + size <= 2 ^ 56;
  rq_levels : (0 < levels geo)%nat
}.

Section request.
Context (geo : Geo) (va pa size lo m : Z).
Context (Hreq : request_ok geo va pa size lo m).
Let n := levels geo.
Let p0 := pa / 4096.
Context (D : Z -> Prop) (HD : forall v, lo <= v < lo + m -> D v).

(** The level of the chunk at page [o] of the range. *)
Definition chunk_level (o : Z) : nat := first_target geo (size - o * 4096) (va + o * 4096) (pa + o * 4096).

Fixpoint chunks (fuel : nat) (o : Z) : list (Z * nat) :=
  match fuel with
  | O => []
  | S fuel => if o <? m then (o, chunk_level o) :: chunks fuel (o + pg (chunk_level o)) else []
  end.

Lemma chunk_ok o : 0 <= o < m ->
  let t := chunk_level o in
  (t < n)%nat /\ o + pg t <= m /\ (lo + o) mod pg t = 0 /\ (p0 + o) mod pg t = 0 /\
  at_page n (va + o * 4096) (lo + o) /\ 0 <= va + o * 4096 < 2 ^ 64 /\ 0 <= pa + o * 4096 < 2 ^ 64.
Proof.
  intros Ho t. destruct Hreq as [[Hat Hal Hsz Hm Hsp Hw] Hpa [Hp0 Hp1] Hlev]. pose proof (proj1 Hat) as Hva.
  assert (Hato : at_page n (va + o * 4096) (lo + o)) by (unfold n; apply at_page_add; (done || lia)).
  destruct (pick_target_spec (Nat.min 2 (levels geo - 1)) (size - o * 4096) (Z.lor (va + o * 4096) (pa + o * 4096))) as [Hle Hor].
  change (pick_target _ _ _) with t in Hle, Hor. assert (Hlt : (t < n)%nat) by (unfold n; lia). split; [done|].
  assert (Hwords : 0 <= va + o * 4096 < 2 ^ 64 /\ 0 <= pa + o * 4096 < 2 ^ 64) by lia.
  destruct Hor as [E|[Hspan Hmod]].
  - rewrite E. change (pg 0) with 1. rewrite !Z.mod_1_r. split_and!; try done; lia.
  - apply lor_mod in Hmod as [Hv Hp]. rewrite (aligned_mod n _ (lo + o)) in Hv; [|done|by rewrite Z.mod_add|lia].
  rewrite span_eq in Hspan, Hp. pose proof (pg_pos t). split; [lia|]. split; [lia|]. split; [|done].
  assert (E : pa + o * 4096 = 4096 * (p0 + o)) by (pose proof (Z.div_mod pa 4096); unfold p0; lia).
  rewrite E, Z.mul_mod_distr_l in Hp by lia. lia.
Qed.

Lemma chunks_ge fuel o c : c ∈ chunks fuel o -> 0 <= o -> o <= c.1 < m /\ c.2 = chunk_level c.1.
Proof.
  revert o. induction fuel as [|fuel IH]; intros o; cbn [chunks]; [intros H; by apply elem_of_nil in H|].
  destruct (Z.ltb_spec o m); [|intros H'; by apply elem_of_nil in H']. intros Hc Ho. apply elem_of_cons in Hc as [->|Hc]; [simpl; split; [lia|done]|].
  pose proof (pg_pos (chunk_level o)). destruct (IH _ Hc); [lia|]. split; [lia|done].
Qed.

Definition ready (node : TableNode) (o : Z) (t : nat) : Prop :=
  exists e, slot_on n node (lo + o) t = Some e /\ is_valid e = false.

(** Blocks that end before page [o] of the range keep their entries. *)
Definition before_kept (o : Z) (node node' : TableNode) : Prop :=
  forall v t e, 0 <= v < pg n -> v / pg t * pg t + pg t <= lo + o -> slot_on n node v t = Some e -> slot_on n node' v t = Some e.

Lemma lo_range o : 0 <= o < m -> 0 <= lo + o < pg n.
Proof. intros Ho. destruct Hreq as [[Hat _ _ _ Hsp _] _ _ _]. pose proof (at_page_range _ _ _ Hat). fold n in Hsp. lia. Qed.

(** Where the way to every chunk is free, preparing makes them all ready. *)
Lemma prepare_open_wp fuel o node w :
  wf n node -> supply_ok w -> 0 <= o <= m -> m - o < Z.of_nat fuel ->
  (forall c, c ∈ chunks fuel o -> open_at n node (lo + c.1) c.2) ->
  wp (prepare_range_loop geo fuel va pa size (o * 4096)) (node, w) (fun r s =>
  before_kept o node s.1 /\
  match r with Ok _ => forall c, c ∈ chunks fuel o -> ready s.1 c.1 c.2 | Err x => x = NOutOfMemory end).
Proof.
  revert o node w. induction fuel as [|fuel IH]; intros o node w Hwf Hsup Ho Hfuel Hopen; [lia|]. cbn [prepare_range_loop chunks] in *.
  destruct (rq_range _ _ _ _ _ _ Hreq) as [_ _ Hsz _ _ _]. rewrite Hsz at 1.
  destruct (Z.ltb_spec o m) as [Hlt|Hge].
  2: { rewrite (proj2 (Z.ltb_ge (o * 4096) (m * 4096))) by lia. apply wp_ret. split; [by intros v t e|]. intros c Hc. by apply elem_of_nil in Hc. }
  rewrite (proj2 (Z.ltb_lt (o * 4096) (m * 4096))) by lia.
  destruct (chunk_ok o) as (Ht & Hend & Hal & _ & Hat & Hw1 & Hw2); [lia|]. set (t := chunk_level o) in *. pose proof (pg_pos t) as Hpg.
  apply wp_bind. unfold wp at 1. rewrite uadd_run by done. apply wp_bind. unfold wp at 1. rewrite uadd_run by done.
  change (first_target geo (size - o * 4096) (va + o * 4096) (pa + o * 4096)) with t.
  assert (Hop : open_at n node (lo + o) t) by (apply (Hopen (o, t)); by constructor).
  apply wp_bind. assert (Hprobe : forall Q, wp (entry_at n (va + o * 4096) t true) (node, w)
  (fun r s => match r with Ok e => is_valid e = false /\ Q (Ok (span_of t)) s | Err x => Q (Err x) s end) -> wp (probe geo (va + o * 4096) t) (node, w) Q).
  { intros Q HQ. destruct t; cbn [probe]; apply wp_bind; (eapply wp_mono; [exact HQ|]); intros [e|x] s; try done; intros [-> Hq]; done. }
  apply Hprobe. eapply wp_mono; [by apply (entry_at_wp n _ (lo + o) t)|]. intros r [node1 w1] (K & Oth & Hr). cbn [fst snd] in *.
  assert (Hbk : before_kept o node node1).
  { intros v2 t2 e2 Hv2 Hb Hs2. apply (Oth v2 t2); [done| |done]. by apply block_after. }
  destruct r as [e|x].
  2: { split; [done|]. destruct x; try done. by destruct Hr as [_ []]. }
  destruct Hr as [Hs Hinv]. split; [by apply Hinv|].
  replace (o * 4096 + span_of t) with ((o + pg t) * 4096) by (rewrite span_eq; ring).
  eapply wp_mono; [apply (IH (o + pg t) node1 w1); [by destruct K|by destruct K as [_ _ _ []]|lia|lia|]|].
  - intros c Hc. destruct (chunks_ge _ _ _ Hc) as [Hcr Ecl]; [lia|]. destruct (chunk_ok c.1) as (Htc & _ & Halc & _); [lia|]. rewrite <- Ecl in *.
  apply (Oth (lo + c.1) c.2); [apply lo_range; lia| |done|apply Hopen; by constructor]. apply block_before; [lia|done].
  - intros r [node2 w2] [Hbk2 Hr2]. cbn [fst snd] in *. split.
  + intros v2 t2 e2 Hv2 Hb Hs2. apply (Hbk2 v2 t2 e2); [done|lia|]. by apply (Hbk v2 t2).
  + destruct r; [|done]. intros c Hc. apply elem_of_cons in Hc as [->|Hc]; [|by apply Hr2]. exists e. cbn [fst snd]. split; [|by apply Hinv].
    apply Hbk2; [apply lo_range; lia| |done]. pose proof (Z.div_mod (lo + o) (pg t)). lia.
Qed.

(** A valid entry of level 0 is a leaf. *)
Lemma level0_leaf node v e : wf n node -> 0 <= v < pg n -> slot_on n node v 0 = Some e -> is_branch e = false.
Proof.
  clear Hreq. generalize n. clear. intros n. revert node v. induction n as [|n IH]; intros node v Hwf Hv; [done|].
  pose proof (index_range n v Hv) as Hi. destruct (wf_entry n node _ Hwf Hi) as (e0 & He & Hok). cbn [slot_on]. rewrite He. simpl.
  unfold slot_ok in Hok. unfold is_branch. destruct n as [|n].
  - simpl. intros [= <-]. destruct (is_valid e0), (is_leaf e0); try done. by destruct Hok as (c & _ & [] & _).
  - destruct (is_valid e0), (is_leaf e0); simpl; try done. destruct Hok as (c & -> & Hwc & _). simpl. apply IH; [done|apply mod_range].
Qed.

Lemma probe_wp va' v t node w :
  wf n node -> at_page n va' v -> (t < n)%nat -> supply_ok w -> full_but n D node -> lo <= v < lo + m ->
  wp (probe geo va' t) (node, w) (fun r s =>
  keeps n node w s.1 s.2 /\ full_but n D s.1 /\
  match r with
  | Ok step => exists t', (t' <= t)%nat /\ step = span_of t' /\ exists e, slot_on n s.1 v t' = Some e /\ is_valid e = false
  | Err AlreadyMapped => is_Some (translate n node v)
  | Err x => x = NOutOfMemory
  end).
Proof.
  revert node w. induction t as [|t IH]; intros node w Hwf Hat Ht Hsup Hfb Hr; pose proof (at_page_range _ _ _ Hat) as Hv; cbn [probe]; apply wp_bind.
  all: eapply wp_mono; [apply wp_and; [by apply (entry_at_wp n va' v)|by apply (entry_at_full n va' v _ D); [..|apply HD]]|].
  all: intros [e|x] [node1 w1] [(K & _ & Hres) [Hfb1 _]]; cbn [fst snd] in *.
  2, 4: split; [done|]; split; [done|]; destruct x; naive_solver.
  all: destruct Hres as [Hs _]; destruct (is_valid e) eqn:Hval; simpl negb; cbv iota.
  2, 4: apply wp_ret; split; [done|]; split; [done|]; eexists; (split; [reflexivity || lia|]); split; [done|]; by exists e.
  - pose proof (level0_leaf node1 v e (kp_wf _ _ _ _ _ K) Hv Hs) as Hb. split; [done|]. split; [done|].
  rewrite <- (kp_same _ _ _ _ _ K v Hv), (slot_on_says _ _ _ _ _ v Hs Hb eq_refl). unfold says. rewrite Hval. by eexists.
  - destruct (is_leaf e) eqn:Hleaf.
  + split; [done|]. split; [done|]. rewrite <- (kp_same _ _ _ _ _ K v Hv), (slot_on_says _ _ _ _ _ v Hs (leaf_not_branch _ Hleaf) eq_refl).
    unfold says. rewrite Hval. by eexists.
  + eapply wp_mono; [apply (IH node1 w1); [by destruct K|done|lia|by destruct K as [_ _ _ []]|done|done]|].
    intros r [node2 w2] (K2 & Hfb2 & Hres). cbn [fst snd] in *. split; [by eapply keeps_trans|]. split; [done|].
    destruct r as [step|[]]; try done.
    * destruct Hres as (t' & Hle & Hst & He'). exists t'. split; [lia|done].
    * by rewrite <- (kp_same _ _ _ _ _ K v Hv).
Qed.

(** Preparing, whatever was there: no page translates differently, and success
means that the whole range was free. *)
Lemma prepare_range_wp fuel o node w :
  wf n node -> supply_ok w -> 0 <= o <= m -> m - o < Z.of_nat fuel -> full_but n D node ->
  wp (prepare_range_loop geo fuel va pa size (o * 4096)) (node, w) (fun r s =>
  keeps n node w s.1 s.2 /\ full_but n D s.1 /\
  match r with
  | Ok _ => forall v, lo + o <= v < lo + m -> translate n node v = None
  | Err AlreadyMapped => exists v, lo + o <= v < lo + m /\ is_Some (translate n node v)
  | Err x => x = NOutOfMemory
  end).
Proof.
  revert o node w. induction fuel as [|fuel IH]; intros o node w Hwf Hsup Ho Hfuel Hfb; [lia|]. cbn [prepare_range_loop].
  destruct (rq_range _ _ _ _ _ _ Hreq) as [_ _ Hsz _ _ _]. rewrite Hsz at 1.
  destruct (Z.ltb_spec (o * 4096) (m * 4096)) as [Hlt|Hge].
  2: { apply wp_ret. split; [by apply keeps_refl, kept_refl|]. split; [done|]. intros v Hv. lia. }
  destruct (chunk_ok o) as (Ht & Hend & Hal & _ & Hat & Hw1 & Hw2); [lia|]. set (t := chunk_level o) in *.
  apply wp_bind. unfold wp at 1. rewrite uadd_run by done. apply wp_bind. unfold wp at 1. rewrite uadd_run by done.
  change (first_target geo (size - o * 4096) (va + o * 4096) (pa + o * 4096)) with t.
  apply wp_bind. eapply wp_mono; [apply (probe_wp _ (lo + o) t); (done || lia)|]. intros r [node1 w1] (K & Hfb1 & Hr). cbn [fst snd] in *.
  destruct r as [step|x].
  2: { split; [done|]. split; [done|]. destruct x; try done. exists (lo + o). split; [lia|done]. }
  destruct Hr as (t' & Hle & -> & e & Hs & Hinv). pose proof (pg_pos t'). pose proof (pg_le t' t Hle).
  assert (Hal' : (lo + o) mod pg t' = 0) by (rewrite <- (mod_mod_pg t t') by lia; by rewrite Hal).
  replace (o * 4096 + span_of t') with ((o + pg t') * 4096) by (rewrite span_eq; ring).
  eapply wp_mono; [apply (IH (o + pg t') node1 w1); [by destruct K|by destruct K as [_ _ _ []]|lia|lia|done]|].
  intros r [node2 w2] (K2 & Hfb2 & Hr2). cbn [fst snd] in *. split; [by eapply keeps_trans|]. split; [done|].
  destruct r as [|[]]; try done.
  - intros v Hv. destruct (lo_range o ltac:(lia)) as [Hlo _]. assert (Hvr : 0 <= v < pg n) by (split; [lia|]; destruct (lo_range (m - 1) ltac:(lia)); lia).
  rewrite <- (kp_same _ _ _ _ _ K v Hvr). destruct (Z.lt_ge_cases v (lo + (o + pg t'))) as [Hin|Hout]; [|apply Hr2; lia].
  assert (Hb : is_branch e = false) by (unfold is_branch; by rewrite Hinv). rewrite (slot_on_says _ _ _ _ _ v Hs Hb); [unfold says; by rewrite Hinv|].
  pose proof (Z.div_mod (lo + o) (pg t')). symmetry. apply (Z.div_unique _ _ _ (v - (lo + o))); lia.
  - destruct Hr2 as (v & Hv & Hx). exists v. split; [lia|]. rewrite <- (kp_same _ _ _ _ _ K v); [done|].
  destruct (lo_range o ltac:(lia)), (lo_range (m - 1) ltac:(lia)). lia.
Qed.

(** ** Mapping *)

Context (flags : Z) (Hflags : 0 <= flags < 256) (Hrwx : Z.land flags PTE_RWX <> 0).

Lemma map_loop_wp fuel o node w :
  wf n node -> 0 <= o <= m -> m - o < Z.of_nat fuel -> full_but n D node ->
  (forall c, c ∈ chunks fuel o -> ready node c.1 c.2) ->
  wp (map_range_loop geo fuel va pa size flags (o * 4096)) (node, w) (fun r s =>
  r = Ok tt /\ s.2 = w /\ page s.1 = page node /\ wf n s.1 /\ node_count s.1 = node_count node /\ full_but n D s.1 /\
  forall v, 0 <= v < pg n -> translate n s.1 v =
    if in_range (lo + o) (lo + m) v then Some (p0 + (v - lo), Z.lor flags PTE_V) else translate n node v).
Proof.
  revert o node. induction fuel as [|fuel IH]; intros o node Hwf Ho Hfuel Hfb Hready; [lia|]. cbn [map_range_loop chunks] in *.
  destruct (rq_range _ _ _ _ _ _ Hreq) as [_ _ Hsz _ _ _]. rewrite Hsz at 1.
  destruct (Z.ltb_spec o m) as [Hlt|Hge].
  2: { rewrite (proj2 (Z.ltb_ge (o * 4096) (m * 4096))) by lia. apply wp_ret. split_and!; try done. intros v Hv. unfold in_range. cbn [fst].
     destruct (Z.leb_spec (lo + o) v), (Z.ltb_spec v (lo + m)); (done || lia). }
  rewrite (proj2 (Z.ltb_lt (o * 4096) (m * 4096))) by lia.
  destruct (chunk_ok o) as (Ht & Hend & Hal & Halp & Hat & Hw1 & Hw2); [lia|]. set (t := chunk_level o) in *. pose proof (pg_pos t) as Hpg.
  apply wp_bind. unfold wp at 1. rewrite uadd_run by done. apply wp_bind. unfold wp at 1. rewrite uadd_run by done.
  change (first_target geo (size - o * 4096) (va + o * 4096) (pa + o * 4096)) with t.
  destruct (Hready (o, t)) as (e & Hs & Hinv); [by constructor|]. cbn [fst snd] in Hs.
  assert (Hb : is_branch e = false) by (unfold is_branch; by rewrite Hinv).
  apply wp_bind. unfold wp at 1, unwrap. rewrite (entry_at_read n _ (lo + o) t node w e) by done.
  apply wp_bind. unfold wp at 1, assert_that. rewrite Hinv. simpl negb. cbv iota.
  destruct (rq_frames _ _ _ _ _ _ Hreq) as [Hpa Hpe]. pose proof (Z.div_mod pa 4096) as Hdm. pose proof (rq_aligned _ _ _ _ _ _ Hreq) as Hpal.
  assert (Ep : Z.shiftr (pa + o * 4096) PAGE_SHIFT = p0 + o).
  { unfold PAGE_SHIFT. rewrite Z.shiftr_div_pow2 by lia. change (2 ^ 12) with 4096. rewrite Z.div_add by lia. done. }
  rewrite Ep. assert (Hpr : 0 <= p0 /\ p0 + m <= 2 ^ 44) by (assert (E56 : 2 ^ 56 = 2 ^ 44 * 4096) by done; unfold p0; lia).
  destruct (leaf_bits flags (p0 + o) Hflags Hrwx) as (Hbv & Hbl & Hbp & Hbf); [lia|]. set (bits := pte_set (p0 + o) _) in *.
  apply wp_bind. eapply wp_mono; [apply wp_and; [apply (store_wp n _ (lo + o) t bits node w e)|
  apply (store_full n _ (lo + o) t bits D node w e)]; try done|].
  { by apply leaf_not_branch. }
  { intros _. rewrite Hbp. split; [lia|]. split; [lia|done]. }
  intros r [node1 w1] [(-> & Hw & R) [Hfb1 _]]. cbn [fst snd] in *. subst w1.
  replace (o * 4096 + span_of t) with ((o + pg t) * 4096) by (rewrite span_eq; ring).
  eapply wp_mono; [apply (IH (o + pg t) node1); [by destruct R|lia|lia|done|]|].
  - intros c Hc. destruct (chunks_ge _ _ _ Hc) as [Hcr Ecl]; [lia|]. destruct (chunk_ok c.1) as (Htc & _ & Halc & _); [lia|]. rewrite <- Ecl in *.
  destruct (Hready c) as (e2 & Hs2 & Hi2); [by constructor|]. exists e2. split; [|done].
  apply (rw_apart _ _ _ _ _ _ R (lo + c.1) c.2); [apply lo_range; lia| |done].
  destruct (Nat.max_spec t c.2) as [[_ ->]|[Hge2 ->]]; [apply block_before; [lia|done]|].
  intros E. pose proof (Z.div_mod (lo + o) (pg t)). pose proof (block_bounds (lo + c.1) t). lia.
  - intros r [node2 w2] (-> & Hw & Hp2 & Hwf2 & Hc2 & Hfb2 & Ht2). cbn [fst snd] in *. destruct R as [Rp Rw Rc Rt _ _].
  split_and!; [done|done|congruence|done|congruence|done|]. intros v Hv. rewrite Ht2, Rt by done.
  pose proof (Z.div_mod (lo + o) (pg t)) as Hblk. unfold in_range.
  destruct (Z.eqb_spec (v / pg t) ((lo + o) / pg t)) as [E|Hne].
  + pose proof (block_bounds v t) as Hvb. rewrite E in Hvb. pose proof (Z.div_mod v (pg t)) as Hvd. rewrite E in Hvd.
    rewrite (proj2 (Z.leb_gt (lo + (o + pg t)) v)), (proj2 (Z.leb_le (lo + o) v)), (proj2 (Z.ltb_lt v (lo + m))) by lia. simpl andb. cbv iota.
    unfold says. rewrite Hbv, Hbp, Hbf. do 2 f_equal. lia.
  + assert (v < lo + o \/ lo + o + pg t <= v).
    { destruct (Z.lt_ge_cases v (lo + o)); [by left|]. destruct (Z.lt_ge_cases v (lo + o + pg t)); [|by right]. exfalso. apply Hne.
      symmetry. apply (Z.div_unique _ _ _ (v - (lo + o))); lia. }
    destruct (Z.leb_spec (lo + (o + pg t)) v), (Z.leb_spec (lo + o) v); (done || lia).
Qed.
End request.
