(* ===== verification/PagingRuns.v ===== *)
(** * Page tables: several runs, and page by page

    An address space installs a list of runs: it prepares all of them before it
    maps the first.  Preparing or mapping one run leaves the entries that lie
    outside it alone ([spares]), so the runs do not disturb each other.  It changes
    permissions and takes mappings out page by page or range by range in the same
    way: what is prepared stays prepared ([finer]).  Last: tables in the way of a
    superpage. *)

From S2P Require Import Prelude.
From S2P Require Import Occupancy.
From S2P Require Import Active.
From S2P Require Import Paging.
From S2P Require Import PagingInv.
From S2P Require Import PagingStep.
From S2P Require Import PagingUnmap.
From S2P Require Import PagingMap.

Open Scope Z_scope.

Lemma full_but_all n node : full_but n (fun _ => True) node.
Proof.
  revert node. induction n as [|n IH]; intros node; [done|]. intros i c Hc. split; [|apply IH].
  right. exists 0. pose proof (pg_pos n). by split; [lia|].
Qed.

(** ** Outside a range *)

(** Entries and free ways of blocks that do not meet [lo, hi) stay. *)
Definition spares (n : nat) (lo hi : Z) (node node' : TableNode) : Prop :=
  forall v t, 0 <= v < pg n -> (forall u, lo <= u < hi -> u / pg t <> v / pg t) ->
    (forall e, slot_on n node v t = Some e -> slot_on n node' v t = Some e) /\
    ((t < n)%nat -> open_at n node v t -> open_at n node' v t).

Lemma spares_refl n lo hi node : spares n lo hi node node.
Proof. by intros v t Hv Hu; split. Qed.

Lemma spares_trans n lo hi a b c : spares n lo hi a b -> spares n lo hi b c -> spares n lo hi a c.
Proof.
  intros H1 H2 v t Hv Hu. destruct (H1 v t Hv Hu) as [A1 A2], (H2 v t Hv Hu) as [B1 B2].
  split; [intros e He; by apply B1, A1|intros Ht Ho; by apply B2, A2].
Qed.

Lemma others_spares n lo hi u node node' : lo <= u < hi -> others n u node node' -> spares n lo hi node node'.
Proof. intros Hu H v t Hv Hne. apply H; [done|by apply Hne]. Qed.

(** A change inside an aligned block inside the range. *)
Lemma apart_spares n lo hi u t node node' :
  lo <= u -> u / pg t * pg t = u -> u + pg t <= hi -> apart n u t node node' -> spares n lo hi node node'.
Proof.
  intros Hlo Hal Hhi H v t2 Hv Hne. apply H; [done|]. pose proof (pg_pos t) as Hp.
  destruct (Nat.max_spec t t2) as [[_ ->]|[_ ->]]; [by apply Hne; lia|].
  intros E. apply (Hne v); [|done]. pose proof (block_bounds v t). rewrite <- E in *. lia.
Qed.

Section request.
Context (geo : Geo) (va pa size lo m : Z).
Context (Hreq : request_ok geo va pa size lo m).
Let n := levels geo.

Lemma probe_spares va' v t node w :
  wf n node -> at_page n va' v -> (t < n)%nat -> supply_ok w -> lo <= v < lo + m ->
  wp (probe geo va' t) (node, w) (fun r s => spares n lo (lo + m) node s.1).
Proof.
  revert node w. induction t as [|t IH]; intros node w Hwf Hat Ht Hsup Hr; cbn [probe]; apply wp_bind.
  all: eapply wp_mono; [by apply (entry_at_wp n va' v)|]; intros [e|x] [node1 w1] (K & Oth & Hres); cbn [fst snd] in *.
  all: pose proof (others_spares n lo (lo + m) v node node1 Hr Oth) as Hs; try done.
  all: destruct (is_valid e); simpl; try done. destruct (is_leaf e); [done|].
  eapply wp_mono; [apply (IH node1 w1); [by destruct K|done|lia|by destruct K as [_ _ _ []]|done]|].
  intros r [node2 w2] Hs2. by eapply spares_trans.
Qed.

Lemma prepare_range_spares fuel o node w :
  wf n node -> supply_ok w -> 0 <= o <= m -> m - o < Z.of_nat fuel ->
  wp (prepare_range_loop geo fuel va pa size (o * 4096)) (node, w) (fun r s => spares n lo (lo + m) node s.1).
Proof.
  revert o node w. induction fuel as [|fuel IH]; intros o node w Hwf Hsup Ho Hfuel; [lia|]. cbn [prepare_range_loop].
  destruct (rq_range _ _ _ _ _ _ Hreq) as [_ _ Hsz _ _ _]. rewrite Hsz at 1.
  destruct (Z.ltb_spec (o * 4096) (m * 4096)) as [Hlt|Hge]; [|apply wp_ret; apply spares_refl].
  destruct (chunk_ok geo va pa size lo m Hreq o) as (Ht & Hend & Hal & _ & Hat & Hw1 & Hw2); [lia|].
  apply wp_bind. unfold wp at 1. rewrite uadd_run by done. apply wp_bind. unfold wp at 1. rewrite uadd_run by done.
  apply wp_bind. change (first_target geo _ _ _) with (chunk_level geo va pa size o).
  eapply wp_mono; [apply wp_and; [apply (probe_wp geo va lo m (fun _ => True) (fun _ _ => I) _ (lo + o)); (done || lia || apply full_but_all)|
    apply (probe_spares _ (lo + o)); (done || lia)]|].
  intros r [node1 w1] [(K & _ & Hr) Hs]. cbn [fst snd] in *. destruct r as [step|x]; [|done].
  destruct Hr as (t' & Hle & -> & _). pose proof (pg_pos t'). pose proof (pg_le t' _ Hle).
  replace (o * 4096 + span_of t') with ((o + pg t') * 4096) by (rewrite span_eq; ring).
  eapply wp_mono; [apply (IH (o + pg t') node1 w1); [by destruct K|by destruct K as [_ _ _ []]|lia|lia]|].
  intros r [node2 w2] Hs2. by eapply spares_trans.
Qed.

(** ** Mapping, prepared or not *)

Context (flags : Z) (Hflags : 0 <= flags < 256) (Hrwx : Z.land flags PTE_RWX <> 0).

(** A tree that maps the range and is otherwise as before. *)
Record mapped (o : Z) (node node' : TableNode) : Prop := {
  mp_page : page node' = page node;
  mp_wf : wf n node';
  mp_count : node_count node' = node_count node;
  mp_full : forall D, full_but n D node -> full_but n D node';
  mp_spares : spares n (lo + o) (lo + m) node node';
  mp_translate : forall v, 0 <= v < pg n -> translate n node' v =
    if in_range (lo + o) (lo + m) v then Some (pa / 4096 + (v - lo), Z.lor flags PTE_V) else translate n node v
}.

Lemma spares_shrink lo' hi node node' : lo <= lo' -> spares n lo' hi node node' -> spares n lo hi node node'.
Proof. intros Hlo H v t Hv Hne. apply H; [done|]. intros u Hu. apply Hne. lia. Qed.

(** The walk without allocation answers the entry or an error, and reads only. *)
Lemma entry_at_looks k va' v t node w :
  wf k node -> at_page k va' v -> (t < k)%nat ->
  exists r, entry_at k va' t false (node, w) = Some (r, (node, w)) /\
    match r with Ok e => slot_on k node v t = Some e | Err _ => True end.
Proof.
  clear. revert node w v. induction k as [|k IH]; intros node w v Hwf Hat Ht; [lia|].
  pose proof (at_page_range _ _ _ Hat) as Hv. pose proof (index_range k v Hv) as Hi.
  destruct (wf_entry k node _ Hwf Hi) as (e & He & Hok). cbn [entry_at slot_on]. rewrite (at_page_index _ _ _ Hat).
  unfold mbind at 1, M_bind at 1, read_entry at 1. cbn. unfold mbind, M_bind, get, expect. cbn [fst]. rewrite He. simpl.
  destruct (Nat.eqb_spec k t) as [->|Hne]; [eexists; split; [reflexivity|done]|].
  unfold slot_ok in Hok. unfold is_branch. destruct (is_valid e) eqn:Hval; simpl.
  - destruct (is_leaf e) eqn:Hleaf; simpl; [by eexists|]. destruct Hok as (c & Hc & Hwc & _). rewrite Hc. simpl.
    destruct (IH c w (v mod pg k) Hwc) as (r & Hr & Hres); [by apply at_page_down|lia|].
    exists r. unfold zoom. destruct node as [p es cs]. simpl in Hc |- *. rewrite Hc, Hr. split; [|done].
    by rewrite put_child_same.
  - rewrite andb_false_r. simpl. by eexists.
Qed.

(** Mapping panics only where some chunk was not prepared. *)
Lemma map_loop_gp (P : Prop) fuel o node w :
  wf n node -> 0 <= o <= m -> m - o < Z.of_nat fuel ->
  (P -> forall c, c ∈ chunks geo va pa size m fuel o -> ready geo lo node c.1 c.2) ->
  gp P (map_range_loop geo fuel va pa size flags (o * 4096)) (node, w) (fun r s =>
    r = Ok tt /\ s.2 = w /\ mapped o node s.1).
Proof.
  revert o node. induction fuel as [|fuel IH]; intros o node Hwf Ho Hfuel Hready; [lia|]. cbn [map_range_loop chunks] in *.
  destruct (rq_range _ _ _ _ _ _ Hreq) as [_ _ Hsz _ _ _]. rewrite Hsz at 1.
  destruct (Z.ltb_spec o m) as [Hlt|Hge].
  2: { rewrite (proj2 (Z.ltb_ge (o * 4096) (m * 4096))) by lia. apply gp_ret. split; [done|]. split; [done|].
    split; [done|done|done|done|apply spares_refl|]. intros v Hv. unfold in_range. cbn [fst].
    destruct (Z.leb_spec (lo + o) v), (Z.ltb_spec v (lo + m)); (done || lia). }
  rewrite (proj2 (Z.ltb_lt (o * 4096) (m * 4096))) by lia.
  destruct (chunk_ok geo va pa size lo m Hreq o) as (Ht & Hend & Hal & Halp & Hat & Hw1 & Hw2); [lia|].
  set (t := chunk_level geo va pa size o) in *. pose proof (pg_pos t) as Hpg.
  apply gp_bind. unfold gp at 1. rewrite uadd_run by done. apply gp_bind. unfold gp at 1. rewrite uadd_run by done.
  change (first_target geo (size - o * 4096) (va + o * 4096) (pa + o * 4096)) with t.
  assert (Hhead : P -> exists e, slot_on n node (lo + o) t = Some e /\ is_valid e = false).
  { intros HP. apply (Hready HP (o, t)). by constructor. }
  destruct (entry_at_looks n (va + o * 4096) (lo + o) t node w Hwf Hat Ht) as (r & Hr & Hres).
  apply gp_bind. unfold gp at 1, unwrap. fold n. rewrite Hr.
  destruct r as [e|x].
  2: { intros HP. destruct (Hhead HP) as (e & Hs & _). by rewrite (entry_at_read n _ (lo + o) t node w e) in Hr. }
  apply gp_bind. unfold gp at 1, assert_that. destruct (is_valid e) eqn:Hinv; simpl negb; cbv iota.
  { intros HP. destruct (Hhead HP) as (e' & Hs & Hi). congruence. }
  assert (Hb : is_branch e = false) by (unfold is_branch; by rewrite Hinv).
  destruct (rq_frames _ _ _ _ _ _ Hreq) as [Hpa Hpe]. pose proof (Z.div_mod pa 4096) as Hdm. pose proof (rq_aligned _ _ _ _ _ _ Hreq) as Hpal.
  assert (Ep : Z.shiftr (pa + o * 4096) PAGE_SHIFT = pa / 4096 + o).
  { unfold PAGE_SHIFT. rewrite Z.shiftr_div_pow2 by lia. change (2 ^ 12) with 4096. by rewrite Z.div_add by lia. }
  rewrite Ep. assert (Hpr : 0 <= pa / 4096 /\ pa / 4096 + m <= 2 ^ 44) by (assert (E56 : 2 ^ 56 = 2 ^ 44 * 4096) by done; lia).
  destruct (leaf_bits flags (pa / 4096 + o) Hflags Hrwx) as (Hbv & Hbl & Hbp & Hbf); [lia|]. set (bits := pte_set (pa / 4096 + o) _) in *.
  assert (Hframe : is_valid bits = true -> frame_ok t (pte_ppn bits)).
  { intros _. rewrite Hbp. split; [lia|]. split; [lia|done]. }
  pose proof (store_wp n _ (lo + o) t bits node w e Hwf Hat Hres Hb (leaf_not_branch _ Hbl) Hframe) as Hst.
  assert (Hfb : wp (store_at_path n (va + o * 4096) t bits) (node, w) (fun _ s => forall D, full_but n D node -> full_but n D s.1)).
  { clear -Hwf Hat Hres Hb Hbv. assert (H : forall D, wp (store_at_path n (va + o * 4096) t bits) (node, w) (fun _ s => full_but n D node -> full_but n D s.1)).
    { intros D. destruct (store_at_path n (va + o * 4096) t bits (node, w)) as [[r s]|] eqn:E.
      - unfold wp. rewrite E. intros Hf. pose proof (store_full n _ (lo + o) t bits D node w e Hwf Hat Hres Hb Hbv Hf) as H.
        unfold wp in H. rewrite E in H. by destruct H.
      - pose proof (store_full n _ (lo + o) t bits (fun _ => True) node w e Hwf Hat Hres Hb Hbv (full_but_all _ _)) as H.
        unfold wp in H. by rewrite E in H. }
    unfold wp in *. destruct (store_at_path n (va + o * 4096) t bits (node, w)) as [[r s]|]; [done|by apply (H (fun _ => True))]. }
  apply gp_bind. eapply gp_mono; [apply wp_gp, wp_and; [exact Hst|exact Hfb]|].
  intros r [node1 w1] [(-> & Hw & R) Hfb1]. cbn [fst snd] in *. subst w1.
  assert (Hsp1 : spares n (lo + o) (lo + m) node node1).
  { eapply apart_spares; [| | |exact (rw_apart _ _ _ _ _ _ R)]; [lia| |lia]. pose proof (Z.div_mod (lo + o) (pg t)). lia. }
  replace (o * 4096 + span_of t) with ((o + pg t) * 4096) by (rewrite span_eq; ring).
  eapply gp_mono; [apply (IH (o + pg t) node1); [by destruct R|lia|lia|]|].
  - intros HP c Hc. destruct (chunks_ge _ _ _ _ _ _ _ _ Hc) as [Hcr Ecl]; [lia|].
    destruct (chunk_ok geo va pa size lo m Hreq c.1) as (Htc & _ & Halc & _); [lia|]. rewrite <- Ecl in *.
    destruct (Hready HP c) as (e2 & Hs2 & Hi2); [by constructor|]. exists e2. split; [|done].
    apply (rw_apart _ _ _ _ _ _ R (lo + c.1) c.2); [apply (lo_range geo va pa size lo m Hreq); lia| |done].
    destruct (Nat.max_spec t c.2) as [[_ ->]|[Hge2 ->]]; [apply block_before; [lia|done]|].
    intros E. pose proof (Z.div_mod (lo + o) (pg t)). pose proof (block_bounds (lo + c.1) t). lia.
  - intros r [node2 w2] (-> & Hw & [Mp Mw Mc Mf Ms Mt]). cbn [fst snd] in *. destruct R as [Rp Rw Rc Rt _ _].
    split; [done|]. split; [done|]. split; [congruence|done|congruence|by intros D HD; apply Mf, Hfb1| |].
    + eapply spares_trans; [exact Hsp1|]. intros v t2 Hv Hne. apply Ms; [done|]. intros u Hu. apply Hne. lia.
    + intros v Hv. rewrite Mt, Rt by done. pose proof (Z.div_mod (lo + o) (pg t)) as Hblk. unfold in_range.
      destruct (Z.eqb_spec (v / pg t) ((lo + o) / pg t)) as [E|Hne].
      * pose proof (block_bounds v t) as Hvb. rewrite E in Hvb. pose proof (Z.div_mod v (pg t)) as Hvd. rewrite E in Hvd.
        rewrite (proj2 (Z.leb_gt (lo + (o + pg t)) v)), (proj2 (Z.leb_le (lo + o) v)), (proj2 (Z.ltb_lt v (lo + m))) by lia. simpl andb. cbv iota.
        unfold says. rewrite Hbv, Hbp, Hbf. do 2 f_equal. lia.
      * assert (v < lo + o \/ lo + o + pg t <= v).
        { destruct (Z.lt_ge_cases v (lo + o)); [by left|]. destruct (Z.lt_ge_cases v (lo + o + pg t)); [|by right]. exfalso. apply Hne.
          symmetry. apply (Z.div_unique _ _ _ (v - (lo + o))); lia. }
        destruct (Z.leb_spec (lo + (o + pg t)) v), (Z.leb_spec (lo + o) v); (done || lia).
Qed.
End request.

(** ** Lists of runs *)

(** The page number of an address in the space. *)
Definition page_no (geo : Geo) (va : Z) : Z := (va / 4096) mod pg (levels geo).

Record Piece := mkPiece { p_va : Z; p_pa : Z; p_size : Z; p_flags : Z }.

Definition prepare_piece (geo : Geo) (p : Piece) : PT unit := prepare_range_geometry geo (p_va p) (p_pa p) (p_size p).
Definition map_piece (geo : Geo) (p : Piece) : PT unit :=
  map_range_prepared_geometry geo (p_va p) (p_pa p) (p_size p) (p_flags p).

Definition p_lo (geo : Geo) (p : Piece) : Z := page_no geo (p_va p).
Definition p_len (p : Piece) : Z := p_size p / 4096.
Definition p_in (geo : Geo) (p : Piece) (v : Z) : bool := in_range (p_lo geo p) (p_lo geo p + p_len p) v.

Record piece_ok (geo : Geo) (p : Piece) : Prop := {
  po_req : request_ok geo (p_va p) (p_pa p) (p_size p) (p_lo geo p) (p_len p);
  po_flags : 0 <= p_flags p < 256;
  po_leaf : Z.land (p_flags p) PTE_RWX <> 0
}.

Definition p_apart (geo : Geo) (p q : Piece) : Prop := forall v, p_in geo p v = true -> p_in geo q v = false.

(** What the pieces say of a page. *)
Definition p_says (geo : Geo) (p : Piece) (v : Z) : Z * Z := (p_pa p / 4096 + (v - p_lo geo p), Z.lor (p_flags p) PTE_V).
Definition says_of (geo : Geo) (l : list Piece) (v : Z) : option (Z * Z) :=
  (fun p => p_says geo p v) <$> List.find (fun p => p_in geo p v) l.

(** Every chunk of the piece has a free entry. *)
Definition p_ready (geo : Geo) (node : TableNode) (p : Piece) : Prop :=
  forall c, c ∈ chunks geo (p_va p) (p_pa p) (p_size p) (p_len p) (rounds (p_size p)) 0 -> ready geo (p_lo geo p) node c.1 c.2.

(** The way to every chunk of the piece is free. *)
Definition p_open (geo : Geo) (node : TableNode) (p : Piece) : Prop :=
  forall c, c ∈ chunks geo (p_va p) (p_pa p) (p_size p) (p_len p) (rounds (p_size p)) 0 -> open_at (levels geo) node (p_lo geo p + c.1) c.2.

Section pieces.
Context (geo : Geo).
Let n := levels geo.

Lemma in_range_true lo hi v : in_range lo hi v = true <-> lo <= v < hi.
Proof using. unfold in_range. rewrite andb_true_iff, Z.leb_le, Z.ltb_lt. done. Qed.

Lemma p_fuel p : piece_ok geo p -> p_size p = p_len p * 4096 /\ 0 < p_len p /\ p_len p - 0 < Z.of_nat (rounds (p_size p)) /\ 0 <= p_lo geo p /\ p_lo geo p + p_len p <= pg n.
Proof using.
  intros [[[Hat _ Hsz Hm Hsp _] _ _ _] _ _]. pose proof (at_page_range _ _ _ Hat). unfold rounds, n. change PAGE_SIZE with 4096.
  fold (p_len p). split; [done|]. split; [done|]. lia.
Qed.

Lemma p_in_page p v : piece_ok geo p -> p_in geo p v = true -> 0 <= v < pg n.
Proof using. intros Hp Hv%in_range_true. destruct (p_fuel p Hp) as (_ & _ & _ & H1 & H2). lia. Qed.

(** The block of a chunk lies inside its piece. *)
Lemma chunk_inside p c : piece_ok geo p ->
  c ∈ chunks geo (p_va p) (p_pa p) (p_size p) (p_len p) (rounds (p_size p)) 0 ->
  0 <= p_lo geo p + c.1 < pg n /\ (c.2 < n)%nat /\
  forall u, u / pg c.2 = (p_lo geo p + c.1) / pg c.2 -> p_in geo p u = true.
Proof using.
  intros Hp Hc. pose proof (po_req _ _ Hp) as Hreq. destruct (chunks_ge _ _ _ _ _ _ _ _ Hc) as [Hcr Ecl]; [lia|].
  destruct (chunk_ok _ _ _ _ _ _ Hreq c.1) as (Ht & Hend & Hal & _); [lia|]. rewrite <- Ecl in *.
  split; [by apply (lo_range _ _ _ _ _ _ Hreq)|]. split; [done|]. intros u E. apply in_range_true.
  pose proof (block_bounds u c.2) as Hb. rewrite E in Hb. pose proof (Z.div_mod (p_lo geo p + c.1) (pg c.2)). pose proof (pg_pos c.2). lia.
Qed.

Lemma ready_spared p q node node' : piece_ok geo p -> p_apart geo p q ->
  spares n (p_lo geo q) (p_lo geo q + p_len q) node node' -> p_ready geo node p -> p_ready geo node' p.
Proof using.
  intros Hp Hap Hs Hr c Hc. destruct (Hr c Hc) as (e & He & Hi). destruct (chunk_inside p c Hp Hc) as (Hv & _ & Hin).
  exists e. split; [|done]. destruct (Hs (p_lo geo p + c.1) c.2 Hv) as [H _]; [|by apply H].
  intros u Hu E. apply in_range_true in Hu. specialize (Hap u (Hin u E)). unfold p_in in Hap. congruence.
Qed.

Lemma open_spared p q node node' : piece_ok geo p -> p_apart geo p q ->
  spares n (p_lo geo q) (p_lo geo q + p_len q) node node' -> p_open geo node p -> p_open geo node' p.
Proof using.
  intros Hp Hap Hs Ho c Hc. destruct (chunk_inside p c Hp Hc) as (Hv & Ht & Hin).
  destruct (Hs (p_lo geo p + c.1) c.2 Hv) as [_ H]; [|by apply H, Ho].
  intros u Hu E. apply in_range_true in Hu. specialize (Hap u (Hin u E)). unfold p_in in Hap. congruence.
Qed.

Lemma full_p_open p node : wf n node -> full n node -> piece_ok geo p ->
  (forall v, p_in geo p v = true -> translate n node v = None) -> p_open geo node p.
Proof using.
  intros Hwf Hf Hp Hfree c Hc. destruct (chunk_inside p c Hp Hc) as (Hv & Ht & Hin).
  apply full_open; [done|done|done|done|]. intros v' Hv' E. apply Hfree, Hin. done.
Qed.

(** What preparing one free piece does. *)
Record prepared (p : Piece) (node : TableNode) (w : World) (node' : TableNode) (w' : World) : Prop := {
  pr_keeps : keeps n node w node' w';
  pr_spares : spares n (p_lo geo p) (p_lo geo p + p_len p) node node';
  pr_full : forall D : Z -> Prop, (forall v, p_in geo p v = true -> D v) -> full_but n D node -> full_but n D node'
}.

Lemma prepare_piece_wp p node w :
  piece_ok geo p -> wf n node -> supply_ok w -> (forall v, p_in geo p v = true -> translate n node v = None) ->
  wp (prepare_piece geo p) (node, w) (fun r s =>
    prepared p node w s.1 s.2 /\
    match r with Ok _ => p_open geo node p -> p_ready geo s.1 p | Err x => x = NOutOfMemory end).
Proof using.
  intros Hp Hwf Hsup Hfree. pose proof (po_req _ _ Hp) as Hreq. destruct (p_fuel p Hp) as (Hsz & Hm & Hfuel & _ & _).
  pose proof (rq_range _ _ _ _ _ _ Hreq) as [_ Hal _ _ _ _]. pose proof (rq_aligned _ _ _ _ _ _ Hreq) as Hpal.
  unfold prepare_piece, prepare_range_geometry, VirtAddr_offset, PhysAddr_is_aligned. rewrite !land_page. change PAGE_SIZE with 4096.
  rewrite Hal, Hpal, Hsz, Z.mod_mul by done. rewrite (proj2 (Z.eqb_neq (p_len p * 4096) 0)) by lia. simpl orb. cbv iota. rewrite <- Hsz.
  assert (Hrun : forall D : Z -> Prop, (forall v, p_in geo p v = true -> D v) -> full_but n D node ->
    wp (prepare_range_loop geo (rounds (p_size p)) (p_va p) (p_pa p) (p_size p) 0) (node, w) (fun r s =>
      keeps n node w s.1 s.2 /\ full_but n D s.1 /\ match r with Err x => x = NOutOfMemory | Ok _ => True end)).
  { intros D HD Hfb. eapply wp_mono; [apply (prepare_range_wp _ _ _ _ _ _ Hreq D) with (o := 0) (fuel := rounds (p_size p)) (w := w)|].
    - intros v Hv. by apply HD, in_range_true.
    - exact Hwf.
    - done.
    - lia.
    - done.
    - done.
    - intros r s (K & F & Hr). split; [done|]. split; [done|]. destruct r as [|[]]; try done.
      destruct Hr as (v & Hv & Hx). rewrite Hfree in Hx; [by destruct Hx|]. apply in_range_true. lia. }
  pose proof (prepare_range_spares _ _ _ _ _ _ Hreq (rounds (p_size p)) 0 node w Hwf Hsup ltac:(lia) Hfuel) as Hsp.
  pose proof (fun H => prepare_open_wp _ _ _ _ _ _ Hreq (rounds (p_size p)) 0 node w Hwf Hsup ltac:(lia) Hfuel H) as Hopen.
  fold n in Hsp. change (0 * 4096) with 0 in *. unfold wp in *.
  destruct (prepare_range_loop geo (rounds (p_size p)) (p_va p) (p_pa p) (p_size p) 0 (node, w)) as [[r s]|] eqn:E.
  2: { exact (Hrun (fun _ => True) (fun _ _ => I) (full_but_all _ _)). }
  destruct (Hrun (fun _ => True) (fun _ _ => I) (full_but_all _ _)) as (K & _ & Hr). split.
  - split; [done|done|]. intros D HD Hfb. by destruct (Hrun D HD Hfb) as (_ & ? & _).
  - destruct r; [|done]. intros Ho. by destruct (Hopen Ho) as [_ Hr'].
Qed.

Definition all_apart (l : list Piece) : Prop := ForallOrdPairs (fun p q => p_apart geo p q /\ p_apart geo q p) l.

Lemma all_apart_cons p l : all_apart (p :: l) <-> (forall q, q ∈ l -> p_apart geo p q /\ p_apart geo q p) /\ all_apart l.
Proof using.
  unfold all_apart. split.
  - intros H. inversion H; subst. split; [|done]. by apply Forall_forall.
  - intros [H1 H2]. constructor; [by apply Forall_forall|done].
Qed.

(** Preparing all the pieces: no page translates differently. *)
Lemma prepare_pieces_wp l node w :
  Forall (piece_ok geo) l -> all_apart l -> wf n node -> supply_ok w ->
  (forall p v, p ∈ l -> p_in geo p v = true -> translate n node v = None) ->
  wp (each (prepare_piece geo) l) (node, w) (fun r s =>
    keeps n node w s.1 s.2 /\
    (forall D : Z -> Prop, (forall p v, p ∈ l -> p_in geo p v = true -> D v) -> full_but n D node -> full_but n D s.1) /\
    (forall q, piece_ok geo q -> (forall p, p ∈ l -> p_apart geo q p) -> p_ready geo node q -> p_ready geo s.1 q) /\
    match r with Ok _ => Forall (p_open geo node) l -> Forall (p_ready geo s.1) l | Err x => x = NOutOfMemory end).
Proof using.
  revert node w. induction l as [|p l IH]; intros node w Hok Hap Hwf Hsup Hfree; cbn [each].
  { apply wp_ret. split; [by apply keeps_refl, kept_refl|]. split; [done|]. split; [done|]. by intros _. }
  apply Forall_cons in Hok as [Hp Hok]. apply all_apart_cons in Hap as [Hpq Hap].
  apply wp_bind. eapply wp_mono; [apply prepare_piece_wp; [done|done|done|intros v; apply Hfree; constructor]|].
  intros r [node1 w1] ([K Hs Hfb] & Hr). cbn [fst snd] in *. destruct r as [[]|x].
  2: { split; [done|]. split; [intros D HD; apply Hfb; intros v Hv; apply (HD p); [constructor|done]|]. split; [|done].
    intros q Hq Hqa. apply (ready_spared q p); [done|apply Hqa; constructor|done]. }
  eapply wp_mono; [apply (IH node1 w1); [done|done|by destruct K|by destruct K as [_ _ _ []]|]|].
  { intros q v Hq Hv. rewrite (kp_same _ _ _ _ _ K) by (eapply p_in_page; [|exact Hv]; by eapply Forall_forall in Hok).
    apply (Hfree q); [by constructor|done]. }
  intros r [node2 w2] (K2 & Hfb2 & Hrd2 & Hr2). cbn [fst snd] in *. split; [by eapply keeps_trans|]. split; [|split].
  - intros D HD Hf. apply Hfb2; [intros q v Hq; apply HD; by constructor|]. apply Hfb; [intros v; apply HD; constructor|done].
  - intros q Hq Hqa Hrq. apply Hrd2; [done|intros p' Hp'; apply Hqa; by constructor|].
    apply (ready_spared q p node); [done|apply Hqa; constructor|done|done].
  - destruct r; [|done]. intros [Hop Hol]%Forall_cons. constructor.
    + apply Hrd2; [done|intros q Hq; by apply Hpq|by apply Hr].
    + apply Hr2. apply Forall_forall. intros q Hq. apply (open_spared q p node node1).
      * by eapply Forall_forall in Hok.
      * by apply Hpq.
      * done.
      * by eapply Forall_forall in Hol.
Qed.

(** A tree in which the pieces are mapped. *)
Record installed_all (l : list Piece) (node node' : TableNode) : Prop := {
  ia_page : page node' = page node;
  ia_wf : wf n node';
  ia_count : node_count node' = node_count node;
  ia_full : forall D, full_but n D node -> full_but n D node';
  ia_translate : forall v, 0 <= v < pg n -> translate n node' v =
    match says_of geo l v with Some x => Some x | None => translate n node v end
}.

Lemma says_of_cons p l v :
  says_of geo (p :: l) v = if p_in geo p v then Some (p_says geo p v) else says_of geo l v.
Proof using. unfold says_of. simpl. by destruct (p_in geo p v). Qed.

Lemma says_of_apart p l v : (forall q, q ∈ l -> p_apart geo p q) -> p_in geo p v = true -> says_of geo l v = None.
Proof using.
  intros Hap Hv. unfold says_of. destruct (List.find _ l) as [q|] eqn:E; [|done].
  apply List.find_some in E as [Hq%list_elem_of_In Hin]. rewrite (Hap q Hq v Hv) in Hin. done.
Qed.

Lemma map_piece_gp (P : Prop) p node w :
  piece_ok geo p -> wf n node -> (P -> p_ready geo node p) ->
  gp P (map_piece geo p) (node, w) (fun r s => r = Ok tt /\ s.2 = w /\
    mapped geo (p_pa p) (p_lo geo p) (p_len p) (p_flags p) 0 node s.1).
Proof using.
  intros Hp Hwf Hrd. destruct (p_fuel p Hp) as (Hsz & Hm & Hfuel & _ & _). destruct Hp as [Hreq Hfl Hlf].
  pose proof (rq_range _ _ _ _ _ _ Hreq) as [_ Hal _ _ _ _]. pose proof (rq_aligned _ _ _ _ _ _ Hreq) as Hpal.
  unfold map_piece, map_range_prepared_geometry, VirtAddr_offset, PhysAddr_is_aligned. rewrite !land_page. change PAGE_SIZE with 4096.
  rewrite Hal, Hpal. simpl Z.eqb. apply gp_bind. unfold gp at 1, assert_that. apply gp_bind. unfold gp at 1.
  apply (map_loop_gp _ _ _ _ _ _ Hreq _ Hfl Hlf P _ 0); [done|lia|done|exact Hrd].
Qed.

Lemma map_pieces_gp (P : Prop) l node w :
  Forall (piece_ok geo) l -> all_apart l -> wf n node -> (P -> Forall (p_ready geo node) l) ->
  gp P (each (map_piece geo) l) (node, w) (fun r s => r = Ok tt /\ s.2 = w /\ installed_all l node s.1).
Proof using.
  revert node. induction l as [|p l IH]; intros node Hok Hap Hwf Hrd; cbn [each].
  { apply gp_ret. split_and!; try done. }
  apply Forall_cons in Hok as [Hp Hok]. apply all_apart_cons in Hap as [Hpq Hap].
  apply gp_bind. eapply gp_mono; [apply (map_piece_gp P); [done|done|]|].
  { intros HP. by apply Forall_cons in Hrd as [? _]. }
  intros r [node1 w1] (-> & Hw & [Mp Mw Mc Mf Ms Mt]). cbn [fst snd] in *. subst w1. rewrite Z.add_0_r in *.
  eapply gp_mono; [apply (IH node1); [done|done|done|]|].
  { intros HP. apply Hrd, Forall_cons in HP as [_ Hl]. apply Forall_forall. intros q Hq. apply (ready_spared q p node).
    - by eapply Forall_forall in Hok.
    - by apply Hpq.
    - done.
    - by eapply Forall_forall in Hl. }
  intros r [node2 w2] (-> & Hw & [Ip Iw Ic If It]). cbn [fst snd] in *. split; [done|]. split; [done|].
  split; [congruence|done|congruence|by intros D HD; apply If, Mf|]. intros v Hv. rewrite It, Mt, says_of_cons by done.
  unfold p_in. destruct (in_range _ _ v) eqn:Hin; [|done].
  rewrite (says_of_apart p l v); [done|intros q Hq; by apply Hpq|done].
Qed.

(** Installing pieces on a tree without empty tables leaves none. *)
Lemma installed_all_full l node node1 node2 :
  Forall (piece_ok geo) l -> full n node ->
  (forall D : Z -> Prop, (forall p v, p ∈ l -> p_in geo p v = true -> D v) -> full_but n D node -> full_but n D node1) ->
  installed_all l node1 node2 -> full n node2.
Proof using.
  intros Hok Hf Hfb [_ Hwf _ Hfb2 Ht]. apply (full_but_full n (fun v => exists p, p ∈ l /\ p_in geo p v = true)); [done| |].
  - apply Hfb2, Hfb; [|by apply full_full_but]. intros p v Hp Hv. by exists p.
  - intros v Hv (p & Hp & Hin). rewrite Ht by done. unfold says_of.
    destruct (List.find _ l) as [q|] eqn:E; [by eexists|].
    apply list_elem_of_In in Hp. pose proof (List.find_none _ _ E p Hp). congruence.
Qed.
End pieces.

(** ** Permission bits *)

Definition merge (f flags : Z) : Z := Z.lor (Z.ldiff f PTE_RWX) flags.

(** Over the flag bytes the mask arithmetic is a finite matter. *)
Definition merge_ok (f flags : Z) : bool :=
  let g := merge f flags in
  (0 <=? g) && (g <? 256) && ((Z.land g PTE_V =? PTE_V) || negb (Z.land f PTE_V =? PTE_V))
  && (negb (Z.land g PTE_RWX =? 0) || (Z.land flags PTE_RWX =? 0)).

Lemma merge_spec f flags : 0 <= f < 256 -> 0 <= flags < 256 -> merge_ok f flags = true.
Proof.
  intros Hf Hg. assert (H : forallb (fun f => forallb (merge_ok f) (seqZ 0 256)) (seqZ 0 256) = true) by (vm_compute; reflexivity).
  rewrite List.forallb_forall in H. assert (Hin : In f (seqZ 0 256)) by (apply list_elem_of_In, elem_of_seqZ; lia).
  specialize (H f Hin). rewrite List.forallb_forall in H. apply H. apply list_elem_of_In, elem_of_seqZ. lia.
Qed.

Lemma set_flags_spec bits g : 0 <= g < 256 ->
  pte_flags (pte_set_flags bits g) = g /\ pte_ppn (pte_set_flags bits g) = pte_ppn bits.
Proof.
  intros Hg. unfold pte_set_flags, pte_ppn, PPN_SHIFT, FLAGS_MASK. change 1023 with (Z.ones 10).
  assert (E : Z.lor (Z.ldiff bits (Z.ones 10)) g = Z.shiftr bits 10 * 2 ^ 10 + g).
  { rewrite Z.ldiff_ones_r, Z.shiftl_mul_pow2 by lia. apply lor_add; [lia|]. change (2 ^ 10) with 1024. lia. }
  rewrite E, flags_mod. change (2 ^ 10) with 1024. split.
  - replace (Z.shiftr bits 10 * 1024 + g) with (g + Z.shiftr bits 10 * 4 * 256) by lia. rewrite Z.mod_add, Z.mod_small; lia.
  - rewrite (Z.shiftr_div_pow2 (_ + g)) by lia. change (2 ^ 10) with 1024. rewrite Z.div_add_l, Z.div_small; lia.
Qed.

Lemma with_permissions_spec bits flags :
  is_valid bits = true -> 0 <= flags < 256 -> Z.land flags PTE_RWX <> 0 -> let e := with_permissions bits flags in
  is_valid e = true /\ is_leaf e = true /\ pte_ppn e = pte_ppn bits /\ pte_flags e = merge (pte_flags bits) flags.
Proof.
  intros Hval Hfl Hrwx e. pose proof (merge_spec (pte_flags bits) flags (flags_range bits) Hfl) as Hm. unfold merge_ok in Hm.
  repeat (apply andb_true_iff in Hm as [Hm ?]). to_prop. destruct (set_flags_spec bits (merge (pte_flags bits) flags)) as [E1 E2]; [lia|].
  change (pte_flags e = merge (pte_flags bits) flags) in E1. change (pte_ppn e = pte_ppn bits) in E2. split_and!; try done.
  - unfold is_valid in *. rewrite E1. by rewrite Hval, orb_false_r in *.
  - unfold is_leaf. rewrite E1. by rewrite (proj2 (Z.eqb_neq _ 0) Hrwx), orb_false_r in *.
Qed.

(** ** Splitting makes no empty table *)

Lemma fill_full n node idx c c' :
  find_child idx (children node) = Some c -> full (S n) node -> used c' -> full n c' -> full (S n) (filled node idx c').
Proof.
  intros Hc Hf Hu Hc' i d. cbn [filled children]. rewrite find_put_child, Hc. destruct (Z.eqb_spec i idx) as [->|]; [|by apply Hf].
  by intros [= <-].
Qed.

Lemma split_at_full n va v k node w :
  wf n node -> at_page n va v -> supply_ok w -> leaf_at n node v (S k) -> full n node ->
  wp (split_at_geometry n va k) (node, w) (fun _ s => full n s.1 /\ (used node -> used s.1)).
Proof.
  revert node w v. induction n as [|n IH]; intros node w v Hwf Hat Hsup Hl Hf; [done|].
  pose proof (at_page_range _ _ _ Hat) as Hv. pose proof (index_range n v Hv) as Hi.
  destruct (wf_entry n node _ Hwf Hi) as (e & He & Hok). destruct Hl as (el & Hsl & Hvl & Hll).
  pose proof (slot_on_level _ _ _ _ _ Hsl) as Hlt. cbn [split_at_geometry]. rewrite (at_page_index _ _ _ Hat).
  rewrite (proj2 (Nat.leb_gt n k)) by lia. apply wp_bind. eapply read_wp; [exact He|].
  cbn [slot_on] in Hsl. rewrite He in Hsl. simpl in Hsl. destruct (Nat.eqb_spec n (S k)) as [->|Hnt].
  - injection Hsl as ->. rewrite Hvl, Hll. simpl negb. cbv iota. apply wp_bind, wp_bind. apply leaf_wp; [done| |done].
    intros p w1 Hp K1. cbn [zero_table page children]. apply (link_wp _ _ _ _ el); [by destruct K1|done| |done].
    intros w2 K2. change (mkNode p (split_entries el (S k - 1)) []) with (split_table p el (S k - 1)).
    replace (S k - 1)%nat with k by lia. destruct (split_slot k node v el Hwf Hv He Hvl Hll) as [Hn Hfr].
    assert (Ef : find_child (v / pg (S k)) (children (linked node (v / pg (S k)) (split_table p el k))) = Some (split_table p el k)) by by rewrite find_linked, Z.eqb_refl.
    eapply zoom_wp; [exact Ef|]. cbn [split_at_geometry]. rewrite Nat.leb_refl. apply wp_ret. cbn [fst snd].
    assert (Hus : used (split_table p el k)).
    { exists 0. eexists. split; [lia|]. split; [by apply split_entry; [|lia]|]. by apply (split_entry_ok el k). }
    split.
    + eapply fill_full; [exact Ef| |done|done]. intros i c. rewrite find_linked by done. destruct (Z.eqb_spec i (v / pg (S k))) as [->|]; [by intros [= <-]|apply Hf].
    + intros _. destruct (branch_entry (table_ppn (split_table p el k))) as (H1 & _); [pose proof (table_ppn_ok (split_table p el k) Hp); lia|].
      exists (v / pg (S k)), (pte_set (table_ppn (split_table p el k)) PTE_V). split; [done|]. cbn [filled linked entries]. destruct Hwf as (_ & Hlen & _).
      by rewrite nth_z_insert, Z.eqb_refl by lia.
  - destruct (is_branch e) eqn:Hb; [|done]. unfold slot_ok, is_branch in *. destruct (is_valid e) eqn:Hve, (is_leaf e) eqn:Hle; try done.
    destruct Hok as (c & Hc & Hwc & _). rewrite Hc in Hsl. simpl in Hsl. simpl negb. cbv iota. apply wp_bind, wp_ret.
    eapply zoom_wp; [exact Hc|]. destruct (Hf _ _ Hc) as [Huc Hfc].
    eapply wp_mono; [apply (IH c w (v mod pg n)); [done|by apply at_page_down|done|by exists el|done]|].
    intros r s [Hfs Hus]. cbn [fst snd]. split; [by eapply fill_full; eauto|]. by intros (i & e' & ?); exists i, e'.
Qed.

Lemma prepare_loop_full geo fuel point lo m at_start node w :
  let n := levels geo in let v := end_page lo m at_start in
  wf n node -> at_page n point v -> point mod 4096 = 0 -> 0 < m -> supply_ok w ->
  (forall t, leaf_at n node v t -> (t < fuel)%nat) -> (0 < fuel)%nat -> full n node ->
  wp (prepare_loop geo fuel point (m * 4096) at_start) (node, w) (fun _ s => full n s.1).
Proof.
  intros n v. revert node w. induction fuel as [|fuel IH]; intros node w Hwf Hat Hal Hm Hsup Hfuel Hpos Hf; [lia|].
  destruct (leaf_ref_run n point v node Hwf Hat) as (e & t & Hr & Hs & Hb). pose proof (slot_on_level _ _ _ _ _ Hs) as Hlt.
  cbn [prepare_loop]. apply wp_bind. unfold wp at 1, leaf_ref. munfold. fold n. rewrite Hr. munfold.
  destruct (is_valid e) eqn:Hval; simpl; [|done].
  assert (Hleaf : is_leaf e = true) by (unfold is_branch in Hb; rewrite Hval in Hb; by destruct (is_leaf e)).
  assert (Hl : leaf_at n node v t) by by exists e. destruct (Nat.eqb_spec t 0) as [->|Ht0]; [done|].
  case_match; [done|]. apply wp_bind. destruct t as [|k]; [done|]. replace (S k - 1)%nat with k by lia.
  eapply wp_mono; [apply wp_and; [by apply (split_at_wp n point v k)|by apply (split_at_full n point v k)]|].
  intros [[]|x] [node1 w1] [(K1 & F1 & H1) [Hf1 _]]; cbn [fst snd] in *; [|done]. destruct H1 as (e1 & Hs1 & Hv1 & Hl1). specialize (Hfuel _ Hl).
  apply IH; [by destruct K1|done|done|done|by destruct K1 as [_ _ _ []]| |lia|done].
  intros t' (e' & Hs' & Hv' & Hl'). pose proof (slot_stop _ _ _ _ _ _ _ Hs' (leaf_not_branch _ Hl') Hs1). lia.
Qed.

Lemma prepare_full geo va size lo m node w :
  let n := levels geo in range_ok geo va size lo m -> wf n node -> supply_ok w -> full n node ->
  wp (prepare_geometry geo va size) (node, w) (fun _ s => full n s.1).
Proof.
  intros n [Hat Hal -> Hm Hsp Hw] Hwf Hsup Hf. pose proof (at_page_range _ _ _ Hat) as Hlo. pose proof (proj1 Hat) as Hva.
  unfold prepare_geometry, VirtAddr_offset. rewrite !land_page. change PAGE_SIZE with 4096. rewrite Hal, Z.mod_mul by lia. simpl negb. cbn [orb].
  rewrite (proj2 (Z.eqb_neq (m * 4096) 0)) by lia. apply wp_bind.
  assert (Hlev : forall nd v t, leaf_at n nd v t -> (t < S n)%nat) by (intros nd v t (e & Hs & _); apply slot_on_level in Hs; lia).
  eapply wp_mono; [apply wp_and; [apply (prepare_loop_wp geo _ va lo m true)|apply (prepare_loop_full geo _ va lo m true)];
    [done|done|done|done|done|by apply Hlev|lia|done|done|done|done|done|by apply Hlev|lia|done]|].
  intros [[]|x] [node1 w1] [(K1 & F1 & H1) Hf1]; cbn [fst snd] in *; [|done]. apply wp_bind.
  unfold wp at 1. rewrite uadd_run by lia. replace (va + (m * 4096 - 4096)) with (va + (m - 1) * 4096) by lia.
  apply (prepare_loop_full geo _ _ lo m false); [by destruct K1| | |done|by destruct K1 as [_ _ _ []]|by apply Hlev|lia|done].
  - unfold end_page. replace (lo + m - 1) with (lo + (m - 1)) by lia. apply at_page_add; (done || lia).
  - by rewrite Z.mod_add.
Qed.

(** ** Room for the tables to retire *)

Lemma reserve_retired_wp node w Q :
  supply_ok w ->
  (forall w', live w' = live w -> retired w' = retired w -> supply_ok w' -> node_count node <= room w' - len (retired w') -> Q (Ok tt) (node, w')) ->
  (forall w', live w' = live w -> retired w' = retired w -> supply_ok w' -> Q (Err NOutOfMemory) (node, w')) ->
  wp reserve_retired_tables (node, w) Q.
Proof.
  intros Hsup Hok Herr. unfold wp, reserve_retired_tables, table_try_reserve, put_world. munfold.
  destruct (grants w) as [|[|] gs] eqn:Hg; munfold; [by apply Herr|apply Hok; try done; simpl; lia|by apply Herr].
Qed.

(** ** Page by page *)

Section pages.
Context (geo : Geo).
Let n := levels geo.

(** Page [v] is mapped by a leaf of its own. *)
Definition lone (node : TableNode) (v : Z) : Prop := leaf_at n node v 0.

Lemma lone_mapped node v : lone node v -> is_Some (translate n node v).
Proof using.
  intros (e & Hs & Hv & Hl). rewrite (slot_on_says n node v 0 e v Hs (leaf_not_branch _ Hl) eq_refl). unfold says. rewrite Hv. by eexists.
Qed.

Lemma mapped_leaf node v : wf n node -> 0 <= v < pg n -> is_Some (translate n node v) -> exists t, leaf_at n node v t.
Proof using.
  intros Hwf Hv [x Hx]. assert (Hat : at_page n (v * 4096) v).
  { split; [lia|]. rewrite Z.div_mul by done. by rewrite Z.mod_small. }
  destruct (leaf_ref_run n _ v node Hwf Hat) as (e & t & _ & Hs & Hb). exists t, e. split; [done|].
  rewrite (slot_on_says n node v t e v Hs Hb eq_refl) in Hx. unfold says in Hx. destruct (is_valid e) eqn:Hval; [|done].
  split; [done|]. unfold is_branch in Hb. rewrite Hval in Hb. by destruct (is_leaf e).
Qed.

Lemma lone_finer node node' v : 0 <= v < pg n -> wf n node' -> finer n node node' ->
  is_Some (translate n node' v) -> lone node v -> lone node' v.
Proof using.
  intros Hv Hwf Hf Ht (e & Hs & Hval & Hl). destruct (mapped_leaf node' v Hwf Hv Ht) as (t & Hlt).
  destruct (Hf v t Hv Hlt) as (t0 & Hle & (e0 & Hs0 & Hv0 & Hl0)).
  pose proof (slot_stop n node v t0 0 e0 e Hs0 (leaf_not_branch _ Hl0) Hs). assert (t = 0%nat) as -> by lia. done.
Qed.

(** Preparing one page gives it a leaf of its own, and takes none away. *)
Lemma prepare_page_wp va lo node w :
  range_ok geo va PAGE_SIZE lo 1 -> wf n node -> supply_ok w ->
  wp (prepare_geometry geo va PAGE_SIZE) (node, w) (fun r s =>
    keeps n node w s.1 s.2 /\ finer n node s.1 /\
    (forall v, 0 <= v < pg n -> lone node v -> lone s.1 v) /\
    match r with Ok _ => is_Some (translate n node lo) -> lone s.1 lo | Err x => x = NOutOfMemory end).
Proof using.
  intros Hrg Hwf Hsup. pose proof Hrg as [Hat _ _ _ Hsp _]. pose proof (at_page_range _ _ _ Hat) as Hlo.
  eapply wp_mono; [by apply (prepare_wp geo va PAGE_SIZE lo 1)|]. intros r [node1 w1] (K & F & Hr). cbn [fst snd] in *.
  split; [done|]. split; [done|]. split.
  - intros v Hv Hl. apply (lone_finer node); [done|by destruct K|done| |done]. rewrite (kp_same _ _ _ _ _ K) by done. by apply lone_mapped.
  - destruct r; [|done]. intros Ht. rewrite <- (kp_same _ _ _ _ _ K) in Ht by done.
    destruct (mapped_leaf node1 lo (kp_wf _ _ _ _ _ K) Hlo Ht) as (t & Hl). destruct (Hr lo ltac:(lia) t Hl) as [H1 H2].
    destruct t as [|t]; [done|]. rewrite pg_S in H1, H2. pose proof (pg_pos t). lia.
Qed.

(** New permissions for a page with a leaf of its own. *)
Lemma set_permissions_wp va lo flags node w :
  at_page n va lo -> wf n node -> lone node lo -> 0 <= flags < 256 -> Z.land flags PTE_RWX <> 0 ->
  wp (set_permissions_prepared_geometry geo va flags) (node, w) (fun r s =>
    r = Ok tt /\ s.2 = w /\ page s.1 = page node /\ wf n s.1 /\ node_count s.1 = node_count node /\
    (forall D, full_but n D node -> full_but n D s.1) /\
    (forall v, 0 <= v < pg n -> lone node v -> lone s.1 v) /\
    forall v, 0 <= v < pg n -> translate n s.1 v =
      if v =? lo then (fun x => (x.1, merge x.2 flags)) <$> translate n node v else translate n node v).
Proof using.
  intros Hat Hwf (e & Hs & Hval & Hleaf) Hfl Hrwx. pose proof (at_page_range _ _ _ Hat) as Hlo.
  pose proof (leaf_not_branch _ Hleaf) as Hb. destruct (with_permissions_spec e flags Hval Hfl Hrwx) as (Ev & El & Ep & Ef).
  pose proof (slot_on_level _ _ _ _ _ Hs) as Hlev.
  unfold set_permissions_prepared_geometry, walk_mut. apply wp_bind. unfold wp at 1, unwrap. rewrite (entry_at_read _ _ lo 0 node w e) by done.
  apply wp_bind. unfold wp at 1, assert_that. rewrite Hval, Hleaf. simpl andb. cbv iota.
  pose proof (store_wp n va lo 0 (with_permissions e flags) node w e Hwf Hat Hs Hb (leaf_not_branch _ El)) as Hst.
  pose proof (fun D => store_full n va lo 0 (with_permissions e flags) D node w e Hwf Hat Hs Hb Ev) as Hfb. fold n.
  unfold wp in *. destruct (store_at_path n va 0 (with_permissions e flags) (node, w)) as [[r s]|].
  2: { apply Hst. intros _. rewrite Ep. by apply (slot_on_frame _ _ _ _ _ Hwf Hlo Hs). }
  destruct Hst as (-> & Hw & [Rp Rw Rc Rt Ra Rs]).
  { intros _. rewrite Ep. by apply (slot_on_frame _ _ _ _ _ Hwf Hlo Hs). }
  split_and!; try done.
  - intros D HD. by apply Hfb.
  - intros v Hv (e1 & Hs1 & Hv1). destruct (Z.eq_dec v lo) as [->|Hne]; [by exists (with_permissions e flags)|].
    exists e1. split; [|done]. apply (Ra v 0%nat); [done| |done]. change (pg (0 `max` 0)) with 1. rewrite !Z.div_1_r. done.
  - intros v Hv. rewrite Rt by done. change (pg 0) with 1. rewrite !Z.div_1_r. destruct (Z.eqb_spec v lo) as [->|]; [|done].
    rewrite (slot_on_says _ _ _ _ _ lo Hs Hb eq_refl). unfold says. rewrite Ev, Ep, Ef, Hval. simpl. done.
Qed.

(** A page prepared and found mapped, as the loops over pages do it. *)
Definition touch_page (va : Z) : PT unit :=
  _ ← prepare_geometry geo va PAGE_SIZE;
  s ← get;
  r ← expect (walk_ref_geometry geo va s.1);
  _ ← lift r;
  mret tt.

Definition page_at_ok (va : Z) : Prop := range_ok geo va PAGE_SIZE (page_no geo va) 1.

Lemma touch_pages_wp l node w :
  Forall page_at_ok l -> wf n node -> supply_ok w -> Forall (fun va => is_Some (translate n node (page_no geo va))) l ->
  wp (each touch_page l) (node, w) (fun r s =>
    keeps n node w s.1 s.2 /\ (full n node -> full n s.1) /\ (forall v, 0 <= v < pg n -> lone node v -> lone s.1 v) /\
    match r with Ok _ => Forall (fun va => lone s.1 (page_no geo va)) l | Err x => x = NOutOfMemory end).
Proof using.
  revert node w. induction l as [|va l IH]; intros node w Hok Hwf Hsup Hm; cbn [each].
  { apply wp_ret. split; [by apply keeps_refl, kept_refl|]. done. }
  apply Forall_cons in Hok as [Hva Hok]. apply Forall_cons in Hm as [Hmva Hm]. pose proof (rg_page _ _ _ _ _ Hva) as Hat.
  pose proof (at_page_range _ _ _ Hat) as Hlo. apply wp_bind. unfold touch_page at 1. apply wp_bind.
  eapply wp_mono; [apply (wp_when (full n node)); [by apply (prepare_page_wp va (page_no geo va))|intros Hfu; by apply (prepare_full geo va PAGE_SIZE (page_no geo va) 1)]|].
  intros r [node1 w1] [(K & _ & Hl1 & Hr) Hf1]. cbn [fst snd] in *.
  destruct r as [[]|x]; [|done]. apply wp_bind. unfold wp at 1, get. apply wp_bind. unfold wp at 1, expect. cbn [fst].
  rewrite (walk_ref_run geo va (page_no geo va) node1) by (done || by destruct K). apply wp_bind. unfold wp at 1, lift.
  fold n. rewrite (kp_same _ _ _ _ _ K) by done. destruct Hmva as [[p f] Hx]. rewrite Hx. cbn [answer]. apply wp_ret.
  eapply wp_mono; [apply (IH node1 w1); [done|by destruct K|by destruct K as [_ _ _ []]|]|].
  { apply Forall_forall. intros u Hu. eapply Forall_forall in Hm; [|exact Hu]. eapply Forall_forall in Hok; [|exact Hu].
    rewrite (kp_same _ _ _ _ _ K); [done|]. apply (at_page_range _ _ _ (rg_page _ _ _ _ _ Hok)). }
  intros r [node2 w2] (K2 & Hf2 & Hl2 & Hr2). cbn [fst snd] in *. split; [by eapply keeps_trans|]. split; [auto|]. split; [intros v Hv Hl; by apply Hl2, Hl1|].
  destruct r; [|done]. constructor; [|done]. apply Hl2; [done|]. apply Hr. by eexists.
Qed.

(** The loop that then writes the permissions. *)
Lemma set_pages_wp l node w :
  Forall (fun x => page_at_ok x.1 /\ 0 <= x.2 < 256 /\ Z.land x.2 PTE_RWX <> 0) l -> NoDup ((fun x => page_no geo x.1) <$> l) ->
  wf n node -> Forall (fun x => lone node (page_no geo x.1)) l ->
  wp (each (fun x => set_permissions_prepared_geometry geo x.1 x.2) l) (node, w) (fun r s =>
    r = Ok tt /\ s.2 = w /\ page s.1 = page node /\ wf n s.1 /\ node_count s.1 = node_count node /\
    (forall D, full_but n D node -> full_but n D s.1) /\
    forall v, 0 <= v < pg n -> translate n s.1 v =
      match List.find (fun x => page_no geo x.1 =? v) l with
      | Some x => (fun y => (y.1, merge y.2 x.2)) <$> translate n node v
      | None => translate n node v
      end).
Proof using.
  revert node. induction l as [|x l IH]; intros node Hok Hnd Hwf Hl; cbn [each].
  { apply wp_ret. by split_and!. }
  apply Forall_cons in Hok as [(Hx & Hf1 & Hf2) Hok]. apply NoDup_cons in Hnd as [Hni Hnd]. apply Forall_cons in Hl as [Hlx Hl].
  pose proof (rg_page _ _ _ _ _ Hx) as Hat. apply wp_bind.
  eapply wp_mono; [by apply (set_permissions_wp x.1 (page_no geo x.1) x.2 node w)|].
  intros r [node1 w1] (-> & Hw & Hp & Hwf1 & Hc & Hfb & Hln & Ht). cbn [fst snd] in *. subst w1.
  eapply wp_mono; [apply (IH node1); [done|done|done|]|].
  { apply Forall_forall. intros u Hu. eapply Forall_forall in Hl; [|exact Hu]. eapply Forall_forall in Hok; [|exact Hu].
    apply Hln; [|done]. apply (at_page_range _ _ _ (rg_page _ _ _ _ _ (proj1 Hok))). }
  intros r [node2 w2] (-> & Hw & Hp2 & Hwf2 & Hc2 & Hfb2 & Ht2). cbn [fst snd] in *. split_and!; [done|done|congruence|done|congruence|by intros D HD; apply Hfb2, Hfb|].
  intros v Hv. rewrite Ht2, Ht by done. simpl. rewrite Z.eqb_sym. destruct (Z.eqb_spec (page_no geo x.1) v) as [E|Hne]; [|done].
  destruct (List.find _ l) as [y|] eqn:Ey; [|done]. exfalso. apply Hni. apply List.find_some in Ey as [Hy Ey%Z.eqb_eq].
  apply list_elem_of_fmap. exists y. split; [congruence|by apply list_elem_of_In].
Qed.

(** ** Several ranges *)

Definition range_at_ok (r : Z * Z) : Prop := range_ok geo r.1 r.2 (page_no geo r.1) (r.2 / 4096).
Definition r_in (r : Z * Z) (v : Z) : bool := in_range (page_no geo r.1) (page_no geo r.1 + r.2 / 4096) v.
Definition r_inside (node : TableNode) (r : Z * Z) : Prop :=
  forall v, r_in r v = true -> inside n (page_no geo r.1) (page_no geo r.1 + r.2 / 4096) v node.

Lemma r_in_page r v : range_at_ok r -> r_in r v = true -> 0 <= v < pg n.
Proof using. intros [Hat _ _ _ Hsp _] Hv%in_range_true. pose proof (at_page_range _ _ _ Hat). fold n in Hsp. lia. Qed.

Lemma r_inside_finer node node' r : range_at_ok r -> finer n node node' -> r_inside node r -> r_inside node' r.
Proof using. intros Hr Hf Hi v Hv. eapply inside_finer; [by eapply r_in_page|exact Hf|by apply Hi]. Qed.

Lemma prepare_ranges_wp l node w :
  Forall range_at_ok l -> wf n node -> supply_ok w ->
  wp (each (fun r => prepare_geometry geo r.1 r.2) l) (node, w) (fun r s =>
    keeps n node w s.1 s.2 /\ finer n node s.1 /\
    match r with Ok _ => Forall (r_inside s.1) l | Err x => x = NOutOfMemory end).
Proof using.
  revert node w. induction l as [|r l IH]; intros node w Hok Hwf Hsup; cbn [each].
  { apply wp_ret. split; [by apply keeps_refl, kept_refl|]. split; [apply finer_refl|done]. }
  apply Forall_cons in Hok as [Hr Hok]. apply wp_bind. eapply wp_mono; [by apply (prepare_wp geo r.1 r.2)|].
  intros x [node1 w1] (K & F & Hx). cbn [fst snd] in *. destruct x as [[]|x]; [|done].
  eapply wp_mono; [apply (IH node1 w1); [done|by destruct K|by destruct K as [_ _ _ []]]|].
  intros y [node2 w2] (K2 & F2 & Hy). cbn [fst snd] in *. split; [by eapply keeps_trans|]. split; [by eapply finer_trans|].
  destruct y; [|done]. constructor; [|done]. apply (r_inside_finer node1); [done|done|]. intros v Hv. by apply Hx, in_range_true.
Qed.

(** Preparing a prepared range does nothing. *)
Lemma prepare_loop_again fuel point lo m at_start node w :
  let v := end_page lo m at_start in
  wf n node -> at_page n point v -> point mod 4096 = 0 -> 0 < m -> inside n lo (lo + m) v node ->
  wp (prepare_loop geo (S fuel) point (m * 4096) at_start) (node, w) (fun r s => r = Ok tt /\ s = (node, w)).
Proof using.
  intros v Hwf Hat Hal Hm Hin. cbn [prepare_loop]. apply wp_bind. unfold wp at 1, leaf_ref, mbind, M_bind, get. cbn [fst].
  destruct (leaf_ref_run n point v node Hwf Hat) as (e & t & Hrun & Hs & Hb). fold n. rewrite Hrun. unfold expect, lift.
  destruct (is_valid e) eqn:Hval; simpl; [|by apply wp_ret]. destruct (Nat.eqb_spec t 0) as [->|Ht]; simpl; [by apply wp_ret|].
  assert (Hleaf : is_leaf e = true) by (unfold is_branch in Hb; rewrite Hval in Hb; by destruct (is_leaf e)).
  pose proof (slot_on_level _ _ _ _ _ Hs) as Hlev. destruct (Hin t) as [H1 H2]; [by exists e|]. pose proof (block_bounds v t) as Hbb.
  rewrite land_span, (aligned_mod n point v t) by (done || lia). rewrite span_eq. change PAGE_SIZE with 4096.
  pose proof (Z.div_mod v (pg t)) as Hdm. pose proof (pg_pos t). destruct at_start; unfold v, end_page in *.
  - rewrite (proj2 (Z.eqb_eq _ 0)), (proj2 (Z.leb_le _ _)) by lia. simpl. by apply wp_ret.
  - rewrite (proj2 (Z.eqb_eq _ _)), (proj2 (Z.leb_le _ _)) by lia. simpl. by apply wp_ret.
Qed.

Lemma prepare_again r node w :
  range_at_ok r -> wf n node -> r_inside node r ->
  wp (prepare_geometry geo r.1 r.2) (node, w) (fun x s => x = Ok tt /\ s = (node, w)).
Proof using.
  intros [Hat Hal Hsz Hm Hsp Hw] Hwf Hin. unfold prepare_geometry, VirtAddr_offset. rewrite !land_page. change PAGE_SIZE with 4096.
  set (m := r.2 / 4096) in *. rewrite Hal, Hsz, Z.mod_mul by done. rewrite (proj2 (Z.eqb_neq (m * 4096) 0)) by lia. simpl orb. cbv iota.
  assert (Hin' : forall v, page_no geo r.1 <= v < page_no geo r.1 + m -> inside n (page_no geo r.1) (page_no geo r.1 + m) v node).
  { intros v Hv. by apply Hin, in_range_true. }
  apply wp_bind. eapply wp_mono; [apply (prepare_loop_again (levels geo) r.1 (page_no geo r.1) m true); [done|done|done|done|apply Hin'; unfold end_page; lia]|].
  intros x s [-> ->]. assert (Hv0 : 0 <= r.1) by apply Hat. apply wp_bind. unfold wp at 1.
  rewrite uadd_run by lia. replace (r.1 + (m * 4096 - 4096)) with (r.1 + (m - 1) * 4096) by ring.
  apply (prepare_loop_again (levels geo) (r.1 + (m - 1) * 4096) (page_no geo r.1) m false); [done| | |done|apply Hin'; unfold end_page; lia].
  - unfold end_page. replace (page_no geo r.1 + m - 1) with (page_no geo r.1 + (m - 1)) by lia. apply at_page_add; [done|done|lia|].
    unfold n. lia.
  - by rewrite Z.mod_add.
Qed.

Definition none_of (l : list (Z * Z)) (v : Z) : bool := negb (existsb (fun r => r_in r v) l).

(** Taking out prepared ranges one after the other. *)
Lemma unmap_ranges_wp l node w :
  va_bits geo = 12 + 9 * Z.of_nat n -> Forall range_at_ok l -> wf n node -> Forall (r_inside node) l ->
  wp (each (fun r => unmap_keep_tables_geometry geo r.1 r.2) l) (node, w) (fun r s =>
    r = Ok tt /\ s.2 = w /\ page s.1 = page node /\ wf n s.1 /\ node_count s.1 = node_count node /\
    forall v, 0 <= v < pg n -> translate n s.1 v = if none_of l v then translate n node v else None).
Proof using.
  intros Hbits. revert node. induction l as [|r l IH]; intros node Hok Hwf Hin; cbn [each].
  { apply wp_ret. by split_and!. }
  apply Forall_cons in Hok as [Hr Hok]. apply Forall_cons in Hin as [Hri Hin]. apply wp_bind.
  unfold unmap_keep_tables_geometry at 1. apply wp_bind. eapply wp_mono; [by apply (prepare_again r)|]. intros x s [-> ->].
  eapply wp_mono; [apply (unmap_wp geo r.1 r.2 (page_no geo r.1) (r.2 / 4096)); [done|done|done|]|].
  { intros v Hv. by apply Hri, in_range_true. }
  intros x [node1 w1] (-> & Hw & [Cp Cw Cc Ct Cf]). cbn [fst snd] in *. subst w1.
  eapply wp_mono; [apply (IH node1); [done|done|]|].
  { apply Forall_forall. intros q Hq. eapply Forall_forall in Hok; [|exact Hq]. eapply Forall_forall in Hin; [|exact Hq].
    by apply (r_inside_finer node). }
  intros x [node2 w2] (-> & Hw & Hp2 & Hwf2 & Hc2 & Ht2). cbn [fst snd] in *. split_and!; [done|done|congruence|done|congruence|].
  intros v Hv. rewrite Ht2, Ct by done. unfold none_of. simpl. fold (r_in r v). by destruct (r_in r v), (existsb _ l).
Qed.

(** ** Pruning *)

Lemma reclaim_wp node w :
  wf n node -> node_count node <= room w - len (retired w) ->
  wp (reclaim_empty_tables geo) (node, w) (fun r s =>
    r = Ok tt /\ pruned n node w s /\ full n s.1).
Proof using.
  intros Hwf Hroom. unfold reclaim_empty_tables. apply wp_bind. unfold wp at 1, get. apply wp_bind. unfold wp at 1, assert_that. cbn [fst snd].
  rewrite (proj2 (Z.leb_le _ _)) by done. apply wp_bind. eapply wp_mono; [by apply (prune_wp n)|].
  intros r [node1 w1] (b & -> & Hpr & Hf & _). by apply wp_ret.
Qed.
End pages.

(** ** Tables in the way of a superpage

    A table that covers pages none of which is mapped takes the place where the
    loops want a superpage.  Preparing walks below it and leaves it where it is
    ([grows]); mapping then trips over it.  Where no chunk meets such a table the
    way is open. *)

(** Valid entries stay. *)
Definition grows (n : nat) (node node' : TableNode) : Prop :=
  forall v t e, 0 <= v < pg n -> slot_on n node v t = Some e -> is_valid e = true -> slot_on n node' v t = Some e.

Lemma grows_refl n node : grows n node node.
Proof. by intros v t e. Qed.

Lemma grows_trans n a b c : grows n a b -> grows n b c -> grows n a c.
Proof. intros H1 H2 v t e Hv Hs Hval. apply H2; [done| |done]. by apply H1. Qed.

Lemma link_grows n node idx c e :
  wf (S n) node -> 0 <= idx < 512 -> find_child idx (children node) = None ->
  nth_z (entries node) idx = Some e -> is_valid e = false -> grows (S n) node (linked node idx c).
Proof.
  intros Hwf Hi Hn He Hval v t e' Hv Hs Hval'. destruct Hwf as (_ & Hl & _). pose proof (index_range n v Hv).
  cbn [slot_on] in *. rewrite find_linked by done. cbn [linked entries]. rewrite nth_z_insert by lia.
  destruct (Z.eqb_spec (v / pg n) idx) as [E|]; [|done]. exfalso. rewrite E, He in Hs. cbn [mbind option_bind] in Hs.
  destruct (n =? t)%nat; [congruence|]. unfold is_branch in Hs. by rewrite Hval in Hs.
Qed.

Lemma fill_grows n node idx c c' :
  find_child idx (children node) = Some c -> grows n c c' -> grows (S n) node (filled node idx c').
Proof.
  intros Hc Hg v t e Hv. cbn [slot_on filled entries children]. rewrite find_put_child, Hc.
  destruct (Z.eqb_spec (v / pg n) idx) as [E|]; [|done]. rewrite E, Hc.
  destruct (nth_z (entries node) idx) as [e0|]; [|done]. simpl. destruct (n =? t)%nat; [done|].
  destruct (is_branch e0); [|done]. apply Hg, mod_range.
Qed.

Lemma entry_at_grows n va v t node w :
  wf n node -> at_page n va v -> (t < n)%nat -> supply_ok w ->
  wp (entry_at n va t true) (node, w) (fun r s => grows n node s.1).
Proof.
  revert node w v. induction n as [|n IH]; intros node w v Hwf Hat Hlt Hsup; [lia|].
  pose proof (at_page_range _ _ _ Hat) as Hv. pose proof (index_range n v Hv) as Hi.
  destruct (wf_entry n node _ Hwf Hi) as (e & He & Hok). cbn [entry_at]. rewrite (at_page_index _ _ _ Hat).
  apply wp_bind. eapply read_wp; [exact He|]. unfold slot_ok in Hok.
  destruct (Nat.eqb_spec n t) as [->|Hnt]; [apply grows_refl|]. destruct (is_valid e) eqn:Hval; simpl.
  - destruct (is_leaf e); simpl; [apply grows_refl|]. destruct Hok as (c & Hc & Hwc & _). apply wp_bind, wp_ret.
    eapply zoom_wp; [exact Hc|]. eapply wp_mono; [apply (IH c w (v mod pg n)); [done|by apply at_page_down|lia|done]|].
    intros r s Hg. by eapply fill_grows.
  - rewrite andb_false_r. apply wp_bind, wp_bind. apply leaf_wp; [done| |intros w1 _; apply grows_refl].
    intros p w1 Hp K1. apply (link_wp _ _ _ _ e); [by destruct K1|done| |intros w2 _; apply grows_refl].
    intros w2 K2. destruct n as [|n]; [lia|]. eapply zoom_wp; [by rewrite find_linked, Z.eqb_refl|].
    eapply wp_mono; [apply (IH (zero_table p) w2 (v mod pg (S n))); [by apply zero_wf|by apply at_page_down|lia|by destruct K2]|].
    intros r s Hg. eapply grows_trans; [by apply (link_grows (S n) node (v / pg (S n)) (zero_table p) e)|].
    eapply fill_grows; [|exact Hg]. by rewrite find_linked, Z.eqb_refl.
Qed.

(** Where a chunk meets neither a page nor a table, its way is open. *)
Lemma free_open n node v t :
  wf n node -> 0 <= v < pg n -> (t < n)%nat -> translate n node v = None ->
  (forall e, slot_on n node v t = Some e -> is_branch e = false) -> open_at n node v t.
Proof.
  revert node v. induction n as [|n IH]; intros node v Hwf Hv Hlt Ht Hb; [lia|].
  destruct (wf_entry n node _ Hwf (index_range n v Hv)) as (e0 & He & Hok). unfold slot_ok in Hok.
  cbn [open_at translate slot_on] in *. rewrite He in *. intros e [= <-]. simpl in *. unfold is_branch in *.
  destruct (Nat.eqb_spec n t) as [->|Hnt].
  - specialize (Hb _ eq_refl). destruct (is_valid e0); [|done]. simpl in *. by destruct (is_leaf e0).
  - intros Hval. rewrite Hval in *. simpl in *. destruct (is_leaf e0); [done|]. destruct Hok as (c & Hc & Hwc & _).
    rewrite Hc in *. exists c. split; [done|]. apply IH; [done|apply mod_range|lia|done|exact Hb].
Qed.

Section blocked.
Context (geo : Geo) (va pa size lo m : Z).
Context (Hreq : request_ok geo va pa size lo m).
Let n := levels geo.

(** Some chunk of what is left from page [o] on finds a valid entry in its
    place. *)
Definition blocked (fuel : nat) (o : Z) (node : TableNode) : Prop :=
  exists c e, c ∈ chunks geo va pa size m fuel o /\ slot_on n node (lo + c.1) c.2 = Some e /\ is_valid e = true.

Lemma probe_grows va' v t node w :
  wf n node -> at_page n va' v -> (t < n)%nat -> supply_ok w ->
  wp (probe geo va' t) (node, w) (fun r s => grows n node s.1).
Proof.
  revert node w. induction t as [|t IH]; intros node w Hwf Hat Ht Hsup; cbn [probe]; apply wp_bind.
  all: eapply wp_mono; [apply wp_and; [by apply (entry_at_wp n va' v)|by apply (entry_at_grows n va' v)]|].
  all: intros [e|x] [node1 w1] [(K & _) Hg]; cbn [fst snd] in *; try done.
  all: destruct (is_valid e); simpl; try done. destruct (is_leaf e); [done|].
  eapply wp_mono; [apply (IH node1 w1); [by destruct K|done|lia|by destruct K as [_ _ _ []]]|].
  intros r [node2 w2] Hg2. by eapply grows_trans.
Qed.

Lemma prepare_range_grows fuel o node w :
  wf n node -> supply_ok w -> 0 <= o <= m -> m - o < Z.of_nat fuel ->
  wp (prepare_range_loop geo fuel va pa size (o * 4096)) (node, w) (fun r s => grows n node s.1).
Proof.
  revert o node w. induction fuel as [|fuel IH]; intros o node w Hwf Hsup Ho Hfuel; [lia|]. cbn [prepare_range_loop].
  destruct (rq_range _ _ _ _ _ _ Hreq) as [_ _ Hsz _ _ _]. rewrite Hsz at 1.
  destruct (Z.ltb_spec (o * 4096) (m * 4096)) as [Hlt|Hge]; [|apply wp_ret; apply grows_refl].
  destruct (chunk_ok geo va pa size lo m Hreq o) as (Ht & Hend & Hal & _ & Hat & Hw1 & Hw2); [lia|].
  apply wp_bind. unfold wp at 1. rewrite uadd_run by done. apply wp_bind. unfold wp at 1. rewrite uadd_run by done.
  apply wp_bind. change (first_target geo _ _ _) with (chunk_level geo va pa size o).
  eapply wp_mono; [apply wp_and; [apply (probe_wp geo va lo m (fun _ => True) (fun _ _ => I) _ (lo + o)); (done || lia || apply full_but_all)|
    apply (probe_grows _ (lo + o)); (done || lia)]|].
  intros r [node1 w1] [(K & _ & Hr) Hg]. cbn [fst snd] in *. destruct r as [step|x]; [|done].
  destruct Hr as (t' & Hle & -> & _). pose proof (pg_pos t'). pose proof (pg_le t' _ Hle).
  replace (o * 4096 + span_of t') with ((o + pg t') * 4096) by (rewrite span_eq; ring).
  eapply wp_mono; [apply (IH (o + pg t') node1 w1); [by destruct K|by destruct K as [_ _ _ []]|lia|lia]|].
  intros r [node2 w2] Hg2. by eapply grows_trans.
Qed.

Context (flags : Z) (Hflags : 0 <= flags < 256) (Hrwx : Z.land flags PTE_RWX <> 0).

(** The leaf that mapping writes at page [o] of the request. *)
Lemma chunk_bits o : 0 <= o < m ->
  let bits := pte_set (Z.shiftr (pa + o * 4096) PAGE_SHIFT) (Z.lor flags PTE_V) in
  is_leaf bits = true /\ frame_ok (chunk_level geo va pa size o) (pte_ppn bits).
Proof.
  intros Ho. destruct (chunk_ok geo va pa size lo m Hreq o) as (Ht & Hend & Hal & Halp & Hat & _); [lia|].
  destruct (rq_frames _ _ _ _ _ _ Hreq) as [Hpa Hpe]. pose proof (Z.div_mod pa 4096) as Hdm. pose proof (rq_aligned _ _ _ _ _ _ Hreq) as Hpal.
  destruct (rq_range _ _ _ _ _ _ Hreq) as [_ _ Hsz _ _ _]. pose proof (pg_pos (chunk_level geo va pa size o)).
  assert (Ep : Z.shiftr (pa + o * 4096) PAGE_SHIFT = pa / 4096 + o).
  { unfold PAGE_SHIFT. rewrite Z.shiftr_div_pow2 by lia. change (2 ^ 12) with 4096. by rewrite Z.div_add by lia. }
  rewrite Ep. assert (Hpr : 0 <= pa / 4096 /\ pa / 4096 + m <= 2 ^ 44) by (assert (E56 : 2 ^ 56 = 2 ^ 44 * 4096) by done; lia).
  destruct (leaf_bits flags (pa / 4096 + o) Hflags Hrwx) as (_ & Hbl & Hbp & _); [lia|].
  split; [done|]. rewrite Hbp. split; [lia|]. split; [lia|done].
Qed.

Lemma map_loop_stuck fuel o node w :
  wf n node -> 0 <= o <= m -> blocked fuel o node ->
  gp False (map_range_loop geo fuel va pa size flags (o * 4096)) (node, w) (fun _ _ => False).
Proof.
  revert o node. induction fuel as [|fuel IH]; intros o node Hwf Ho (c & e & Hc & Hs & Hval); cbn [map_range_loop chunks] in *.
  { by apply elem_of_nil in Hc. }
  destruct (rq_range _ _ _ _ _ _ Hreq) as [_ _ Hsz _ _ _]. rewrite Hsz at 1.
  destruct (Z.ltb_spec o m) as [Hlt|Hge]; [|by apply elem_of_nil in Hc].
  rewrite (proj2 (Z.ltb_lt (o * 4096) (m * 4096))) by lia.
  destruct (chunk_ok geo va pa size lo m Hreq o) as (Ht & Hend & Hal & Halp & Hat & Hw1 & Hw2); [lia|].
  destruct (chunk_bits o ltac:(lia)) as [Hbl Hframe].
  set (t := chunk_level geo va pa size o) in *. pose proof (pg_pos t) as Hpg.
  apply gp_bind. unfold gp at 1. rewrite uadd_run by done. apply gp_bind. unfold gp at 1. rewrite uadd_run by done.
  change (first_target geo (size - o * 4096) (va + o * 4096) (pa + o * 4096)) with t.
  destruct (entry_at_looks n (va + o * 4096) (lo + o) t node w Hwf Hat Ht) as (r & Hr & Hres).
  apply gp_bind. unfold gp at 1, unwrap. fold n. rewrite Hr. destruct r as [e0|x]; [|by intros []].
  apply gp_bind. unfold gp at 1, assert_that. destruct (is_valid e0) eqn:Hinv; simpl negb; cbv iota; [by intros []|].
  apply elem_of_cons in Hc as [->|Hc]; [cbn [fst snd] in Hs; congruence|].
  assert (Hb : is_branch e0 = false) by (unfold is_branch; by rewrite Hinv).
  apply gp_bind. eapply gp_mono; [apply wp_gp, (store_wp n _ (lo + o) t _ node w e0 Hwf Hat Hres Hb (leaf_not_branch _ Hbl)); done|].
  intros r [node1 w1] (-> & Hw & R). cbn [fst snd] in *. subst w1.
  replace (o * 4096 + span_of t) with ((o + pg t) * 4096) by (rewrite span_eq; ring).
  apply (IH (o + pg t) node1); [by destruct R|lia|]. exists c, e. split; [done|]. split; [|done].
  destruct (chunks_ge _ _ _ _ _ _ _ _ Hc) as [Hcr Ecl]; [lia|].
  destruct (chunk_ok geo va pa size lo m Hreq c.1) as (Htc & _ & Halc & _); [lia|]. rewrite <- Ecl in *.
  apply (rw_apart _ _ _ _ _ _ R (lo + c.1) c.2); [apply (lo_range geo va pa size lo m Hreq); lia| |done].
  destruct (Nat.max_spec t c.2) as [[_ ->]|[Hge2 ->]]; [apply block_before; [lia|done]|].
  intros E. pose proof (Z.div_mod (lo + o) (pg t)). pose proof (block_bounds (lo + c.1) t). lia.
Qed.
End blocked.
