(* ===== verification/PagingTheorems.v ===== *)
(** * Page tables: claims

    The operations of [nest/table] as the address-space code composes them:
    both walks agree, a mapping request maps its range or nothing, unmapping
    takes out its range and the tables it leaves empty, and changing the
    permissions of a page changes that page. *)

From S2P Require Import Prelude.
From S2P Require Import Occupancy.
From S2P Require Import Active.
From S2P Require Import Paging.
From S2P Require Import PagingInv.
From S2P Require Import PagingStep.
From S2P Require Import PagingUnmap.
From S2P Require Import PagingMap.
From S2P Require Import PagingRuns.

Open Scope Z_scope.

(** A tree between operations. *)
Record tree_ok (geo : Geo) (node : TableNode) (w : World) : Prop := {
  tr_wf : wf (levels geo) node;
  tr_full : full (levels geo) node;
  tr_supply : supply_ok w
}.

(** Live tables that are neither in the tree nor retired. *)
Definition elsewhere (node : TableNode) (w : World) : Z := live w - node_count node - len (retired w).

Definition same_pages (geo : Geo) (node node' : TableNode) : Prop :=
  forall v, 0 <= v < pg (levels geo) -> translate (levels geo) node' v = translate (levels geo) node v.

Lemma keeps_elsewhere n node w node' w' : keeps n node w node' w' -> elsewhere node' w' = elsewhere node w.
Proof. intros [_ _ _ [Hl Hr _ _]]. unfold elsewhere. rewrite Hl, Hr. lia. Qed.

(** How the address space installs a range ([nest/mod.rs], [attach] and
    [publish_span]): all fallible preparation first, then the entries. *)
Definition install (geo : Geo) (va pa size flags : Z) : PT unit :=
  _ ← prepare_range_geometry geo va pa size;
  map_range_prepared_geometry geo va pa size flags.

(** How it withdraws one ([withdraw]). *)
Definition withdraw (geo : Geo) (va size : Z) : PT unit :=
  _ ← prepare_geometry geo va size;
  _ ← reserve_retired_tables;
  _ ← unmap_prepared_geometry geo va size;
  reclaim_empty_tables geo.

(** How it changes the permissions of a page ([narrow]). *)
Definition protect_page (geo : Geo) (va flags : Z) : PT unit :=
  _ ← prepare_geometry geo va PAGE_SIZE;
  s ← get;
  r ← expect (walk_ref_geometry geo va s.1);
  _ ← lift r;
  set_permissions_prepared_geometry geo va flags.

(** The kernel's walk over its own tables and the walk over raw memory, as
    the hardware does it, agree: each answers what the tree says of the page,
    the second as far as the memory may be read. *)
Theorem walks_agree geo node load ok va v :
  wf (levels geo) node -> at_page (levels geo) va v -> in_memory (levels geo) load ok node ->
  walk_ref_geometry geo va node = Some (answer (translate (levels geo) node v)) /\
  walk_raw geo load ok (page node) va =
    if translate (levels geo) node v is Some (p, f) then if ok (p * 4096) then Some (p * 4096, f) else None else None.
Proof.
  intros Hwf Hat Hm. split; [by apply walk_ref_run|]. unfold walk_raw. rewrite <- (walk_raw_run (levels geo) load ok va v node) by done.
  assert (ok (page node) = true) as -> by (destruct (levels geo); [done|by destruct Hm]). done.
Qed.

Lemma install_prepare geo va pa size lo m node w :
  request_ok geo va pa size lo m -> tree_ok geo node w ->
  wp (prepare_range_geometry geo va pa size) (node, w) (fun r s =>
    keeps (levels geo) node w s.1 s.2 /\ full_but (levels geo) (fun v => lo <= v < lo + m) s.1 /\
    match r with
    | Ok _ => (forall v, lo <= v < lo + m -> translate (levels geo) node v = None) /\
        forall c, c ∈ chunks geo va pa size m (rounds size) 0 -> ready geo lo s.1 c.1 c.2
    | Err AlreadyMapped => exists v, lo <= v < lo + m /\ is_Some (translate (levels geo) node v)
    | Err x => x = NOutOfMemory
    end).
Proof.
  intros Hreq [Hwf Hfull Hsup]. pose proof Hreq as [[Hat Hal Hsz Hm Hsp Hw] Hpal _ _]. unfold prepare_range_geometry, VirtAddr_offset, PhysAddr_is_aligned.
  rewrite !land_page. change PAGE_SIZE with 4096. rewrite Hal, Hpal. rewrite Hsz at 1 2. rewrite Z.mod_mul by lia.
  rewrite (proj2 (Z.eqb_neq (m * 4096) 0)) by lia. simpl orb. cbv iota.
  assert (Hfuel : m - 0 < Z.of_nat (rounds size)) by (unfold rounds; change PAGE_SIZE with 4096; rewrite Hsz, Z.div_mul by lia; lia).
  pose proof (prepare_range_wp geo va pa size lo m Hreq (fun v => lo <= v < lo + m) (fun v H => H) (rounds size) 0 node w Hwf Hsup ltac:(lia) Hfuel (full_full_but _ _ _ Hfull)) as Hgen.
  rewrite Z.add_0_r in Hgen. change (0 * 4096) with 0 in Hgen.
  destruct (wp_run _ _ _ Hgen) as (r & s & Hrun & K & Hfb & Hr). unfold wp. rewrite Hrun. split; [done|]. split; [done|].
  destruct r as [[]|x]; [|done]. split; [done|].
  assert (Hopen : forall c, c ∈ chunks geo va pa size m (rounds size) 0 -> open_at (levels geo) node (lo + c.1) c.2).
  { intros c Hc. destruct (chunks_ge geo va pa size m (rounds size) 0 c Hc) as [Hcr Ecl]; [lia|].
    destruct (chunk_ok geo va pa size lo m Hreq c.1) as (Ht & Hend & Hal' & _); [lia|]. rewrite <- Ecl in *.
    pose proof (at_page_range _ _ _ Hat). pose proof (pg_pos c.2).
    apply full_open; [done|done|lia|done|]. intros v' Hv' Ev. apply Hr. pose proof (block_bounds v' c.2). rewrite Ev in *.
    pose proof (Z.div_mod (lo + c.1) (pg c.2)). lia. }
  pose proof (prepare_open_wp geo va pa size lo m Hreq (rounds size) 0 node w Hwf Hsup ltac:(lia) Hfuel Hopen) as Hop.
  change (0 * 4096) with 0 in Hop. unfold wp in Hop. rewrite Hrun in Hop. by destruct Hop.
Qed.

(** What an installation of the [m] pages from [lo] on with frames from [p0]
    on may come to. *)
Definition installed (geo : Geo) (lo m p0 fl : Z) (node node' : TableNode) (r : result NestError unit) : Prop :=
  match r with
  | Ok _ => full (levels geo) node' /\ (forall v, lo <= v < lo + m -> translate (levels geo) node v = None) /\
      forall v, 0 <= v < pg (levels geo) -> translate (levels geo) node' v =
        if in_range lo (lo + m) v then Some (p0 + (v - lo), fl) else translate (levels geo) node v
  | Err AlreadyMapped => same_pages geo node node' /\
      exists v, lo <= v < lo + m /\ is_Some (translate (levels geo) node v)
  | Err x => same_pages geo node node' /\ x = NOutOfMemory
  end.

(** C12: an installation maps its whole range or nothing.  From a tree without
    empty tables it never panics; if it succeeds, the pages of the range were
    free and now translate to the requested frames in order with the requested
    flags, with every other page as before; if it fails, no page translates
    differently, and the reason is a page already mapped or memory run out.
    Every table that was made is accounted for. *)
Theorem install_exact geo va pa size lo m flags node w :
  request_ok geo va pa size lo m -> tree_ok geo node w -> 0 <= flags < 256 -> Z.land flags PTE_RWX <> 0 ->
  wp (install geo va pa size flags) (node, w) (fun r s =>
    page s.1 = page node /\ wf (levels geo) s.1 /\ supply_ok s.2 /\ elsewhere s.1 s.2 = elsewhere node w /\
    installed geo lo m (pa / 4096) (Z.lor flags PTE_V) node s.1 r).
Proof.
  intros Hreq Htree Hfl Hrwx. pose proof Hreq as [[Hat Hal Hsz Hm Hsp Hw] Hpal _ _].
  unfold install. apply wp_bind. eapply wp_mono; [by apply (install_prepare geo va pa size lo m)|].
  intros r [node1 w1] (K & Hfb & Hr). cbn [fst snd] in *. pose proof (keeps_elsewhere _ _ _ _ _ K) as Hel. pose proof K as [Kp Kw Ks [_ _ _ Ksup]].
  destruct r as [[]|x].
  2: { cbn [fst snd]. split_and!; try done. destruct x; done. }
  destruct Hr as [Hfree Hready]. unfold map_range_prepared_geometry, VirtAddr_offset, PhysAddr_is_aligned.
  rewrite !land_page. change PAGE_SIZE with 4096. rewrite Hal, Hpal. simpl Z.eqb. apply wp_bind. unfold wp at 1, assert_that.
  apply wp_bind. unfold wp at 1.
  eapply wp_mono; [apply (map_loop_wp geo va pa size lo m Hreq (fun v => lo <= v < lo + m) flags Hfl Hrwx (rounds size) 0 node1 w1 Kw); [lia| |done|done]|].
  { unfold rounds. change PAGE_SIZE with 4096. rewrite Hsz, Z.div_mul by lia. lia. }
  intros r [node2 w2] (-> & Hw2 & Hp2 & Hwf2 & Hc2 & Hfb2 & Ht2). cbn [fst snd] in *. subst w2. rewrite Z.add_0_r in Ht2.
  assert (Htr : forall v, 0 <= v < pg (levels geo) -> translate (levels geo) node2 v =
    if in_range lo (lo + m) v then Some (pa / 4096 + (v - lo), Z.lor flags PTE_V) else translate (levels geo) node v).
  { intros v Hv. rewrite Ht2 by done. destruct (in_range _ _ v); [done|by apply Ks]. }
  split_and!; [congruence|done|done|unfold elsewhere in *; lia|]. split_and!; [|done|done].
  eapply full_but_full; [done|exact Hfb2|]. intros v Hv [Hr1 Hr2]. rewrite Htr by done. unfold in_range.
  rewrite (proj2 (Z.leb_le lo v)), (proj2 (Z.ltb_lt v (lo + m))) by lia. by eexists.
Qed.

(** ** Tables left over *)

(** A table, with or without entries, lies where the loops take a chunk of the
    request in one entry. *)
Definition leftover (geo : Geo) (va pa size lo m : Z) (node : TableNode) : bool :=
  any (fun c => if slot_on (levels geo) node (lo + c.1) c.2 is Some e then is_branch e else false)
    (chunks geo va pa size m (rounds size) 0).

Lemma branch_valid e : is_branch e = true -> is_valid e = true.
Proof. unfold is_branch. by destruct (is_valid e). Qed.

(** Mapping, from where preparation left the tree. *)
Lemma map_prepared geo va pa size lo m flags s : request_ok geo va pa size lo m ->
  map_range_prepared_geometry geo va pa size flags s = map_range_loop geo (rounds size) va pa size flags 0 s.
Proof.
  intros [[_ Hal _ _ _ _] Hpal _ _]. unfold map_range_prepared_geometry, VirtAddr_offset, PhysAddr_is_aligned.
  rewrite !land_page. change PAGE_SIZE with 4096. by rewrite Hal, Hpal.
Qed.

Lemma prepare_run geo va pa size lo m s : request_ok geo va pa size lo m ->
  prepare_range_geometry geo va pa size s = prepare_range_loop geo (rounds size) va pa size 0 s.
Proof.
  intros [[_ Hal Hsz Hm _ _] Hpal _ _]. unfold prepare_range_geometry, VirtAddr_offset, PhysAddr_is_aligned.
  rewrite !land_page. change PAGE_SIZE with 4096. rewrite Hal, Hpal.
  assert (size mod 4096 = 0) as -> by (rewrite Hsz; by apply Z.mod_mul).
  by rewrite (proj2 (Z.eqb_neq size 0)) by lia.
Qed.

(** C14: over a range of which no page is mapped, preparation only fails for
    want of memory and changes no translation; but the entries that then have
    to be made panic, although everything was prepared, exactly when a table lies
    where the request takes a superpage: preparation goes below such a table,
    mapping asserts that its entry is free.  A preparation that ran out of memory
    leaves such a table behind. *)
Theorem leftover_table_panics geo va pa size lo m flags node w :
  request_ok geo va pa size lo m -> wf (levels geo) node -> supply_ok w ->
  0 <= flags < 256 -> Z.land flags PTE_RWX <> 0 ->
  (forall v, lo <= v < lo + m -> translate (levels geo) node v = None) ->
  wp (prepare_range_geometry geo va pa size) (node, w) (fun r s =>
    same_pages geo node s.1 /\
    match r with
    | Ok _ => map_range_prepared_geometry geo va pa size flags s = None <-> leftover geo va pa size lo m node = true
    | Err x => x = NOutOfMemory
    end).
Proof.
  intros Hreq Hwf Hsup Hfl Hrwx Hfree. pose proof Hreq as [[Hat Hal Hsz Hm Hsp _] _ _ _].
  pose proof (at_page_range _ _ _ Hat) as Hlo.
  assert (Hfuel : m - 0 < Z.of_nat (rounds size)) by (unfold rounds; change PAGE_SIZE with 4096; rewrite Hsz, Z.div_mul by lia; lia).
  unfold wp. rewrite (prepare_run geo va pa size lo m) by done.
  pose proof (prepare_range_wp geo va pa size lo m Hreq (fun _ => True) (fun _ _ => I) (rounds size) 0 node w Hwf Hsup ltac:(lia) Hfuel (full_but_all _ _)) as Hp.
  pose proof (prepare_range_grows geo va pa size lo m Hreq (rounds size) 0 node w Hwf Hsup ltac:(lia) Hfuel) as Hg.
  pose proof (prepare_open_wp geo va pa size lo m Hreq (rounds size) 0 node w Hwf Hsup ltac:(lia) Hfuel) as Ho.
  change (0 * 4096) with 0 in *. unfold wp in Hp, Hg, Ho.
  destruct (prepare_range_loop geo (rounds size) va pa size 0 (node, w)) as [[r [node1 w1]]|]; [|done].
  destruct Hp as ([_ Kw Ks _] & _ & Hr). cbn [fst snd] in *. split; [exact Ks|]. rewrite Z.add_0_r in Hr. destruct r as [[]|x].
  2: { destruct x; try done. destruct Hr as (v & Hv & Hx). rewrite Hfree in Hx by done. by destruct Hx. }
  rewrite (map_prepared geo va pa size lo m) by done. split.
  - intros Hnone. destruct (leftover geo va pa size lo m node) eqn:Hl; [done|]. exfalso.
    apply any_false in Hl. rewrite Forall_forall in Hl. destruct Ho as [_ Hready].
    { intros c Hc. destruct (chunks_ge geo va pa size m (rounds size) 0 c Hc) as [Hcr Ecl]; [lia|].
      destruct (chunk_ok geo va pa size lo m Hreq c.1) as (Ht & _); [lia|]. rewrite <- Ecl in Ht.
      apply free_open; [done|lia|done|apply Hfree; lia|]. intros e He. specialize (Hl c Hc). by rewrite He in Hl. }
    pose proof (map_loop_wp geo va pa size lo m Hreq (fun _ => True) flags Hfl Hrwx (rounds size) 0 node1 w1 Kw ltac:(lia) Hfuel (full_but_all _ _) Hready) as Hmap.
    change (0 * 4096) with 0 in Hmap. unfold wp in Hmap. by rewrite Hnone in Hmap.
  - intros (c & Hc & Hb)%any_true. destruct (slot_on (levels geo) node (lo + c.1) c.2) as [e|] eqn:Hs; [|done].
    pose proof (map_loop_stuck geo va pa size lo m Hreq flags Hfl Hrwx (rounds size) 0 node1 w1 Kw ltac:(lia)) as Hst.
    change (0 * 4096) with 0 in Hst. unfold gp in Hst.
    destruct (map_range_loop geo (rounds size) va pa size flags 0 (node1, w1)) as [[r s]|]; [|done]. destruct Hst.
    exists c, e. apply branch_valid in Hb. split; [done|]. split; [|done].
    destruct (chunks_ge geo va pa size m (rounds size) 0 c Hc) as [Hcr _]; [lia|]. apply Hg; [lia|done|done].
Qed.

(** ** Withdrawing *)

(** C13: a withdrawal takes its whole range out or nothing.  It never panics: in
    particular the bound checked before clearing and the room checked before
    pruning always hold.  If it succeeds, no page of the range translates,
    every other page translates as before, superpages across the ends
    included, and no empty table is left; if it fails, no page translates
    differently and memory has run out.  Every table is in the tree, retired
    or was alive elsewhere before. *)
Theorem withdraw_exact geo va size lo m node w :
  va_bits geo = 12 + 9 * Z.of_nat (levels geo) -> range_ok geo va size lo m ->
  wf (levels geo) node -> supply_ok w ->
  wp (withdraw geo va size) (node, w) (fun r s =>
    page s.1 = page node /\ wf (levels geo) s.1 /\ supply_ok s.2 /\ elsewhere s.1 s.2 = elsewhere node w /\
    match r with
    | Ok _ => full (levels geo) s.1 /\ forall v, 0 <= v < pg (levels geo) ->
        translate (levels geo) s.1 v = if in_range lo (lo + m) v then None else translate (levels geo) node v
    | Err x => x = NOutOfMemory /\ same_pages geo node s.1
    end).
Proof.
  intros Hbits Hrg Hwf Hsup. unfold withdraw. apply wp_bind. eapply wp_mono; [by apply (prepare_wp geo va size lo m)|].
  intros r [node1 w1] (K & _ & Hr). cbn [fst snd] in *. pose proof (keeps_elsewhere _ _ _ _ _ K) as Hel. pose proof K as [Kp Kw Ks [_ _ _ Ksup]].
  destruct r as [[]|x]; [|by split_and!]. apply wp_bind. apply reserve_retired_wp; [done| |].
  2: { intros w2 Hl2 Hr2 Hs2. split_and!; try done. cbn [fst snd]. unfold elsewhere in *. rewrite Hl2, Hr2. lia. }
  intros w2 Hl2 Hr2 Hs2 Hroom. apply wp_bind. eapply wp_mono; [by apply (unmap_wp geo va size lo m)|].
  intros r [node3 w3] (-> & Hw3 & [Cp Cw Cc Ct]). cbn [fst snd] in *. subst w3.
  unfold reclaim_empty_tables. apply wp_bind. unfold wp at 1. munfold. apply wp_bind. unfold wp at 1, assert_that.
  rewrite (proj2 (Z.leb_le _ _)) by lia. apply wp_bind. eapply wp_mono; [by apply prune_wp|].
  intros r [node4 w4] (b & -> & (gone & Pp & Pw & Pt & Pe & Pc & _) & Hfull & _). cbn [fst snd] in *. apply wp_ret. cbn [fst snd].
  split_and!; [congruence|done|by rewrite Pe| |done|].
  - unfold elsewhere in *. rewrite Pe. simpl. rewrite len_app, Hr2, Hl2. lia.
  - intros v Hv. rewrite Pt, Ct by done. by destruct (in_range lo (lo + m) v); [|apply Ks].
Qed.

(** ** Permissions *)

(** Changing the permissions of a page changes that page and nothing else.
    A mapped page keeps its frame and its other flags and gets the new
    permissions, whatever the size of the superpage it was part of; a page
    that is not mapped is reported, and on any error no page translates
    differently. *)
Theorem protect_exact geo va lo flags node w :
  range_ok geo va PAGE_SIZE lo 1 -> wf (levels geo) node -> supply_ok w ->
  0 <= flags < 256 -> Z.land flags PTE_RWX <> 0 ->
  wp (protect_page geo va flags) (node, w) (fun r s =>
    page s.1 = page node /\ wf (levels geo) s.1 /\ supply_ok s.2 /\ elsewhere s.1 s.2 = elsewhere node w /\
    match r with
    | Ok _ => exists p f, translate (levels geo) node lo = Some (p, f) /\
        forall v, 0 <= v < pg (levels geo) -> translate (levels geo) s.1 v =
          if v =? lo then Some (p, merge f flags) else translate (levels geo) node v
    | Err NotMapped => same_pages geo node s.1 /\ translate (levels geo) node lo = None
    | Err x => same_pages geo node s.1 /\ x = NOutOfMemory
    end).
Proof.
  intros Hrg Hwf Hsup Hfl Hrwx. pose proof Hrg as [Hat Hal _ _ Hsp _]. pose proof (at_page_range _ _ _ Hat) as Hlo.
  unfold protect_page. apply wp_bind. eapply wp_mono; [by apply (prepare_wp geo va PAGE_SIZE lo 1)|].
  intros r [node1 w1] (K & _ & Hr). cbn [fst snd] in *. pose proof (keeps_elsewhere _ _ _ _ _ K) as Hel. pose proof K as [Kp Kw Ks [_ _ _ Ksup]].
  destruct r as [[]|x]; [|split_and!; try done; by subst x]. apply wp_bind. unfold wp at 1, get. apply wp_bind. unfold wp at 1, expect. cbn [fst].
  rewrite (walk_ref_run geo va lo node1) by done. apply wp_bind. unfold wp at 1, lift.
  destruct (translate (levels geo) node1 lo) as [[p f]|] eqn:Ht; cbn [answer fst snd].
  2: { split_and!; try done. by rewrite <- Ks. }
  destruct (leaf_ref_run (levels geo) va lo node1 Kw Hat) as (e & t & _ & Hs & Hb).
  rewrite (slot_on_says _ _ _ _ _ lo Hs Hb eq_refl) in Ht. unfold says in Ht. destruct (is_valid e) eqn:Hval; [|done].
  assert (Hleaf : is_leaf e = true) by (unfold is_branch in Hb; rewrite Hval in Hb; by destruct (is_leaf e)).
  destruct (Hr lo ltac:(lia) t) as [H1 H2]; [by exists e|]. assert (t = 0%nat) as ->.
  { destruct t as [|t]; [done|]. rewrite pg_S in H1, H2. pose proof (pg_pos t). lia. }
  change (pg 0) with 1 in *. rewrite Z.mod_1_r, Z.add_0_r in Ht. injection Ht as <- <-.
  destruct (with_permissions_spec e flags Hval Hfl Hrwx) as (Ev & El & Ep & Ef).
  unfold set_permissions_prepared_geometry, walk_mut. apply wp_bind. unfold wp at 1, unwrap. rewrite (entry_at_read _ _ lo 0 node1 w1 e) by done.
  apply wp_bind. unfold wp at 1, assert_that. rewrite Hval, Hleaf. simpl andb. cbv iota.
  eapply wp_mono; [apply (store_wp _ _ lo 0 (with_permissions e flags) node1 w1 e); [done..|by apply leaf_not_branch|]|].
  { intros _. rewrite Ep. by apply (slot_on_frame _ _ _ _ _ Kw Hlo Hs). }
  intros r [node2 w2] (-> & Hw2 & [Rp Rw Rc Rt _ _]). cbn [fst snd] in *. subst w2.
  split_and!; [congruence|done|done|unfold elsewhere in *; lia|]. exists (pte_ppn e), (pte_flags e). split.
  - rewrite <- Ks, (slot_on_says _ _ _ _ _ lo Hs Hb eq_refl) by done. unfold says. rewrite Hval. change (pg 0) with 1. by rewrite Z.mod_1_r, Z.add_0_r.
  - intros v Hv. rewrite Rt by done. change (pg 0) with 1. rewrite !Z.div_1_r. destruct (v =? lo); [|by apply Ks].
    unfold says. rewrite Ev, Ep, Ef. change (pg 0) with 1. by rewrite Z.mod_1_r, Z.add_0_r.
Qed.

(** ** Examples: an empty Sv39 tree and one with a gigabyte leaf at 0 *)

Definition sv39 : Geo := geometry Sv39.
Definition root0 : TableNode := zero_table 4096.
Definition giga : Z := pte_set 524288 (Z.lor PTE_R PTE_V).
Definition root1 : TableNode := stored root0 0 giga.
Definition world0 : World := mkWorld [Some 8192; Some 12288] [true; true; true; true] 1 [] 0.

Lemma root0_wf : wf 3 root0.
Proof. apply zero_wf. split; [lia|reflexivity]. Qed.

Lemma giga_ok : is_valid giga = true /\ is_leaf giga = true /\ frame_ok 2 (pte_ppn giga).
Proof. split; [vm_compute; reflexivity|]. split; [vm_compute; reflexivity|]. unfold frame_ok. split_and!; vm_compute; (reflexivity || discriminate). Qed.

Lemma root1_wf : wf 3 root1.
Proof.
  apply wf_store; [exact root0_wf|lia|]. destruct giga_ok as (H1 & H2 & H3). unfold slot_ok. rewrite H1, H2. by split.
Qed.

Lemma world0_ok : supply_ok world0.
Proof. repeat constructor; unfold page_ok; simpl; lia. Qed.

Lemma range_2m : range_ok sv39 2097152 2097152 512 512.
Proof. split; [split; [lia|reflexivity]|reflexivity|reflexivity|lia|vm_compute; discriminate|lia]. Qed.

Lemma range_page : range_ok sv39 2097152 PAGE_SIZE 512 1.
Proof. split; [split; [lia|reflexivity]|reflexivity|reflexivity|lia|vm_compute; discriminate|vm_compute; discriminate]. Qed.

Definition load1 (a : Z) : Z := if a =? 4096 then giga else 0.

Lemma walks_agree_witness :
  walk_ref_geometry sv39 2097152 root1 = Some (Ok ((524288 + 512) * 4096, 3)) /\
  walk_raw sv39 load1 (fun _ => true) 4096 2097152 = Some ((524288 + 512) * 4096, 3).
Proof.
  destruct (walks_agree sv39 root1 load1 (fun _ => true) 2097152 512) as [H1 H2].
  - exact root1_wf.
  - split; [lia|reflexivity].
  - split; [reflexivity|]. split.
    + intros i e Hi He. unfold root1, stored in He. cbn [entries] in He. rewrite nth_z_insert in He; [|vm_compute; split; [discriminate|reflexivity]|lia].
      unfold load1. cbn [page root1 stored root0 zero_table]. destruct (Z.eqb_spec i 0) as [->|Hne]; [by injection He as <-|].
      cbn [root0 zero_table entries] in He. rewrite zero_entry in He by done. injection He as <-. by rewrite (proj2 (Z.eqb_neq _ 4096)) by lia.
    + intros i c Hc. discriminate Hc.
  - split; [rewrite H1; vm_compute; reflexivity|]. etrans; [exact H2|]. vm_compute. reflexivity.
Defined.

Lemma install_exact_witness :
  exists node w, install sv39 2097152 2149580800 2097152 PTE_R (root0, world0) = Some (Ok tt, (node, w)) /\ wf 3 node /\ full 3 node.
Proof.
  pose proof (install_exact sv39 2097152 2149580800 2097152 512 512 PTE_R root0 world0) as H.
  destruct (wp_run _ _ _ (H ltac:(split; [exact range_2m|reflexivity|lia|vm_compute; lia])
    ltac:(split; [exact root0_wf|intros i c Hc; discriminate Hc|exact world0_ok]) ltac:(unfold PTE_R; lia) ltac:(discriminate)))
    as (r & [node w] & Hrun & _ & Hwf & _ & _ & Hres).
  assert (r = Ok tt) as -> by (vm_compute in Hrun; congruence). exists node, w. split; [exact Hrun|]. split; [exact Hwf|exact (proj1 Hres)].
Defined.

Lemma withdraw_exact_witness :
  exists node w, withdraw sv39 2097152 2097152 (root1, world0) = Some (Ok tt, (node, w)) /\
    translate 3 node 512 = None /\ translate 3 node 511 = Some (524288 + 511, 3).
Proof.
  destruct (wp_run _ _ _ (withdraw_exact sv39 2097152 2097152 512 512 root1 world0 eq_refl range_2m root1_wf world0_ok))
    as (r & [node w] & Hrun & _ & _ & _ & _ & Hres).
  assert (r = Ok tt) as -> by (vm_compute in Hrun; congruence). exists node, w. split; [exact Hrun|]. destruct Hres as [_ Ht].
  cbn [fst levels sv39 geometry] in Ht. rewrite !Ht by (vm_compute; split; [discriminate|reflexivity]). split; vm_compute; reflexivity.
Defined.

Lemma protect_exact_witness :
  exists node w, protect_page sv39 2097152 PTE_X (root1, world0) = Some (Ok tt, (node, w)) /\
    translate 3 node 512 = Some (524288 + 512, 9) /\ translate 3 node 513 = Some (524288 + 513, 3).
Proof.
  destruct (wp_run _ _ _ (protect_exact sv39 2097152 512 PTE_X root1 world0 range_page root1_wf world0_ok ltac:(unfold PTE_X; lia) ltac:(discriminate)))
    as (r & [node w] & Hrun & _ & _ & _ & _ & Hres).
  assert (r = Ok tt) as -> by (vm_compute in Hrun; congruence). exists node, w. split; [exact Hrun|]. destruct Hres as (p & f & Hpf & Ht).
  cbn [fst levels sv39 geometry] in Ht, Hpf. rewrite !Ht by (vm_compute; split; [discriminate|reflexivity]).
  split; [|vm_compute; reflexivity]. vm_compute in Hpf. injection Hpf as <- <-. vm_compute. reflexivity.
Defined.

(** A preparation of the next two megabytes but one page runs out of memory after its first
    table; the superpage over that table is then prepared without fail, and
    mapping it panics. *)
Lemma leftover_table_panics_witness :
  exists s1 s2, prepare_range_geometry sv39 2101248 2149584896 2097152 (root0, world0) = Some (Err NOutOfMemory, s1) /\
    prepare_range_geometry sv39 2097152 2149580800 2097152 s1 = Some (Ok tt, s2) /\
    map_range_prepared_geometry sv39 2097152 2149580800 2097152 PTE_R s2 = None.
Proof.
  assert (request_ok sv39 2101248 2149584896 2097152 513 512) as Hreq0.
  { split; [split; [split; [lia|reflexivity]|reflexivity|reflexivity|lia|vm_compute; discriminate|lia]|reflexivity|lia|vm_compute; lia]. }
  assert (request_ok sv39 2097152 2149580800 2097152 512 512) as Hreq.
  { split; [exact range_2m|reflexivity|lia|vm_compute; lia]. }
  pose proof (prepare_range_wp sv39 2101248 2149584896 2097152 513 512 Hreq0 (fun _ => True) (fun _ _ => I) (rounds 2097152) 0 root0 world0
    root0_wf world0_ok ltac:(lia) ltac:(vm_compute; reflexivity) (full_but_all _ _)) as H1.
  destruct (wp_run _ _ _ H1) as (r1 & [node1 w1] & Hrun1 & K & _ & _). clear H1.
  assert (r1 = Err NOutOfMemory) as -> by (vm_compute in Hrun1; congruence).
  assert (leftover sv39 2097152 2149580800 2097152 512 512 node1 = true) as Hl.
  { vm_compute in Hrun1. injection Hrun1 as <- <-. vm_compute. reflexivity. }
  assert (exists s2, prepare_range_geometry sv39 2097152 2149580800 2097152 (node1, w1) = Some (Ok tt, s2)) as [s2 Hrun2].
  { vm_compute in Hrun1. injection Hrun1 as <- <-. eexists. vm_compute. reflexivity. }
  exists (node1, w1), s2. rewrite (prepare_run _ _ _ _ _ _ _ Hreq0). split; [exact Hrun1|]. split; [exact Hrun2|].
  pose proof (leftover_table_panics sv39 2097152 2149580800 2097152 512 512 PTE_R node1 w1 Hreq (kp_wf _ _ _ _ _ K)) as H.
  cbn [fst snd] in H. unfold wp in H. rewrite Hrun2 in H. clear Hrun1 Hrun2.
  apply H; [by destruct K as [_ _ _ []]|unfold PTE_R; lia|discriminate| |exact Hl].
  intros v Hv. change (levels sv39) with 3%nat. rewrite (kp_same _ _ _ _ _ K) by (change (pg (levels sv39)) with 134217728; lia).
  apply zero_translate. change (pg (levels sv39)) with 134217728. lia.
Defined.
