(* ===== verification/View.v ===== *)
(** * Views of an address space ([core/memory/nest/view])

    A view ties a reservation of addresses to a range of pages of a source.  It
    keeps its active ranges and, for a source with frames of its own, the pages it
    has published with their frames.  An [Arc<View>] is the generation of its
    reservation, an [Arc<Frame>] the physical address of the frame. *)

From S2P Require Import Prelude.
From S2P Require Import Flat.
From S2P Require Import Occupancy.
From S2P Require Import Active.
From S2P Require Import Index.
From S2P Require Import Paging.

Open Scope Z_scope.

(** ** Reservations ([reservation.rs]) *)

(** [res_nest] is the address space that the weak reference leads to. *)
Record Reservation := mkRes {
  res_nest : Z;
  res_region : RegionId;
  res_start : Z;
  res_size : Z;
  res_gen : Z
}.

Definition res_last (r : Reservation) : Z := res_start r + (res_size r - 1).

(** ** Flags of a view's leaves *)

Definition PTE_U : Z := 16.
Definition PTE_G : Z := 32.
Definition PTE_A : Z := 64.
Definition PTE_D : Z := 128.

Definition contains_flags (flags need : Z) : bool := Z.land flags need =? need.

(** ** [View] with its [ViewState] *)

Record View := mkView {
  v_res : Reservation;
  v_attrs : Z;
  v_active : list ActiveRange;
  v_source : FlatRange;
  v_published : list (Z * Z)
}.

Definition set_active (l : list ActiveRange) (w : View) : View :=
  mkView (v_res w) (v_attrs w) l (v_source w) (v_published w).
Definition set_published (l : list (Z * Z)) (w : View) : View :=
  mkView (v_res w) (v_attrs w) (v_active w) (v_source w) l.

Definition initial_start (w : View) : Z := res_start (v_res w).
Definition initial_size (w : View) : Z := res_size (v_res w).
Definition identity (w : View) : Z := res_gen (v_res w).

Definition leaf_flags (w : View) (current : Z) : Z := Z.lor PTE_V (Z.lor (Access_to_pte current) (v_attrs w)).
Definition attrs_are_architectural (attrs : Z) : bool := Z.land attrs (Z.lor PTE_V PTE_RWX) =? 0.
Definition is_global (w : View) : bool := contains_flags (v_attrs w) PTE_G.

(** The caller sees to it that the address is not before the view. *)
Definition page_index (w : View) (address : Z) : option Z :=
  d ← checked_sub address (initial_start w); Some (d / PAGE_SIZE).

Definition covers (w : View) (lo hi : Z) : bool := cover (v_active w) lo hi.
Definition publishes (w : View) (page : Z) : bool := any (fun p => p.1 =? page) (v_published w).

(** [ViewState::publish]: by page number, after those that are less. *)
Definition publish_page (page frame : Z) (w : View) : View :=
  let at_ := partition_point (fun p => p.1 <? page) (v_published w) in
  set_published (insert_at at_ (page, frame) (v_published w)) w.

(** [page_count().checked_bytes()] of a source. *)
Definition checked_bytes (pages : Z) : option Z := checked_mul pages PAGE_SIZE.

(** ** Runs of frames ([run.rs], [runs.rs]) *)

Record FrameRun := mkRun {
  run_start : Z;
  run_physical : Z;
  run_size : Z;
  run_current : Z
}.

Section runs.
Context (base : Z) (active : list ActiveRange).

(** Plain arithmetic: [None] where it leaves [usize]. *)
Definition frame_address (page : Z) : option Z :=
  d ← checked_mul page PAGE_SIZE; checked_add base d.

(** [FrameRuns::joins]: the frame after [previous] continues the run. *)
Definition joins (previous next : Z * Z) (current : Z) : option bool :=
  if negb (next.1 =? previous.1 + 1) || negb (next.2 =? previous.2 + PAGE_SIZE) then Some false
  else a ← frame_address next.1; Some (bool_decide (current_at active a = Some current)).

(** How many of [frames] continue the run that ends with [previous]. *)
Fixpoint joined (previous : Z * Z) (current : Z) (frames : list (Z * Z)) : option nat :=
  match frames with
  | [] => Some O
  | next :: frames =>
      j ← joins previous next current;
      if (j : bool) then k ← joined next current frames; Some (S k) else Some O
  end.

(** One call of the iterator: the item and the frames left. *)
Definition next_run (first : Z * Z) (frames : list (Z * Z)) : option (result NestError FrameRun * list (Z * Z)) :=
  a ← frame_address first.1;
  match current_at active a with
  | None => Some (Err NoRegion, frames)
  | Some current =>
      k ← joined first current frames;
      Some (Ok (mkRun a first.2 (Z.of_nat (S k) * PAGE_SIZE) current), drop k frames)
  end.

(** All items; each takes at least one frame. *)
Fixpoint frame_runs (fuel : nat) (frames : list (Z * Z)) : option (list (result NestError FrameRun)) :=
  match frames, fuel with
  | [], _ => Some []
  | _, O => None
  | first :: frames, S fuel =>
      x ← next_run first frames;
      rest ← frame_runs fuel x.2;
      Some (x.1 :: rest)
  end.
End runs.

(** [ViewState::runs]. *)
Definition runs (w : View) (base : Z) (frames : list (Z * Z)) : option (list (result NestError FrameRun)) :=
  frame_runs base (v_active w) (length frames) frames.

(** ** Selections ([range.rs]) *)

Inductive ViewRange := Whole (view : Z) | Pages (view offset count : Z).

Definition sel_view (r : ViewRange) : Z := match r with Whole v => v | Pages v _ _ => v end.
Definition is_pages (r : ViewRange) : bool := match r with Whole _ => false | Pages _ _ _ => true end.

Definition ViewRange_pages (v : Z) (w : View) (offset count : Z) : result NestError ViewRange :=
  end_ ← ok_or (checked_add offset count) NNotAligned;
  match checked_mul end_ PAGE_SIZE with
  | Some bytes => if initial_size w <? bytes then Err NoRegion else Ok (Pages v offset count)
  | None => Err NoRegion
  end.

(** The first and the last byte of the selection. *)
Definition sel_window (w : View) (r : ViewRange) : Z * Z :=
  match r with
  | Whole _ => (initial_start w, initial_start w + (initial_size w - 1))
  | Pages _ offset count =>
      let start := initial_start w + offset * PAGE_SIZE in (start, start + (count * PAGE_SIZE - 1))
  end.
