(* ===== verification/ViewInv.v ===== *)
(** * Views: canonical addresses, well-formedness and runs

    In each half of the address space the page numbers of the tables follow the
    addresses ([page_no_add], [page_no_in]), so a run of addresses is a run of
    pages.  [view_ok] is the invariant of one view; [runs_pieces] says that the runs
    of a list of frames are exactly the frames, page by page. *)

From stdpp Require Import sorting.
From S2P Require Import Prelude.
From S2P Require Import Table.
From S2P Require Import Flat.
From S2P Require Import Spans.
From S2P Require Import Occupancy.
From S2P Require Import Active.
From S2P Require Import ActiveInv.
From S2P Require Import Index.
From S2P Require Import Paging.
From S2P Require Import PagingInv.
From S2P Require Import PagingStep.
From S2P Require Import PagingUnmap.
From S2P Require Import PagingMap.
From S2P Require Import PagingRuns.
From S2P Require Import View.

Open Scope Z_scope.

(** The tables of a paging mode. *)
Record geo_ok (geo : Geo) : Prop := {
  go_bits : va_bits geo = 12 + 9 * Z.of_nat (levels geo);
  go_levels : (0 < levels geo <= 5)%nat
}.

Lemma geometry_ok mode : geo_ok (geometry mode).
Proof. destruct mode; split; simpl; lia. Qed.

Section canonical.
Context (geo : Geo) (Hgeo : geo_ok geo).
Let bit := split_bit geo.
Let n := levels geo.

Lemma good_split : good_bit bit.
Proof. destruct Hgeo as [Hb Hl]. unfold good_bit, bit, split_bit. lia. Qed.

(** Half of the space, in bytes and in pages. *)
Lemma half_pages : exists k, 2 ^ bit = 4096 * k /\ pg n = 2 * k /\ 0 < k /\ 2 ^ 52 = 2 * k * 2 ^ (52 - 9 * Z.of_nat n) /\ 1 <= 2 ^ (52 - 9 * Z.of_nat n).
Proof.
  destruct Hgeo as [Hb Hl]. exists (2 ^ (9 * Z.of_nat n - 1)). unfold bit, split_bit. fold n in Hb, Hl.
  set (j := 9 * Z.of_nat n - 1). assert (Hj : 0 <= j /\ j <= 44) by lia.
  replace (va_bits geo - 1) with (12 + j) by lia. rewrite pg_pow. replace (9 * Z.of_nat n) with (1 + j) by lia.
  assert (E52 : 2 ^ 52 = 2 ^ (1 + j + (52 - (1 + j)))) by (f_equal; lia).
  rewrite E52, !(Z.pow_add_r 2) by lia. pose proof (Z.pow_pos_nonneg 2 j). pose proof (Z.pow_pos_nonneg 2 (52 - (1 + j))).
  change (2 ^ 12) with 4096. change (2 ^ 1) with 2. lia.
Qed.

(** The page number is the address in pages, less a constant for each half. *)
Lemma page_no_low a : 0 <= a < 2 ^ bit -> page_no geo a = a / 4096.
Proof. intros Ha. destruct half_pages as (k & E1 & E2 & Hk & _). unfold page_no. fold n. rewrite E1 in Ha.
  apply Z.mod_small. rewrite E2. split; [apply Z.div_pos; lia|apply Z.div_lt_upper_bound; lia].
Qed.

Lemma page_no_high a : 2 ^ 64 - 2 ^ bit <= a < 2 ^ 64 -> page_no geo a = a / 4096 - (2 ^ 52 - pg n).
Proof.
  intros Ha. destruct half_pages as (k & E1 & E2 & Hk & E52 & Hq). unfold page_no. fold n. rewrite E2. rewrite E1 in Ha.
  set (q := 2 ^ (52 - 9 * Z.of_nat n)) in *. symmetry. clear E1 E2. change (2 ^ 64) with 18446744073709551616 in Ha.
  change (2 ^ 52) with 4503599627370496 in *.
  assert (Hd : 4503599627370496 - k <= a / 4096 < 4503599627370496).
  { split; [apply Z.div_le_lower_bound; lia|apply Z.div_lt_upper_bound; lia]. }
  apply (Z.mod_unique _ _ (q - 1)); [left; lia|]. rewrite E52. ring.
Qed.

Lemma page_no_half a : canonical bit a -> page_no geo a < pg n / 2 <-> a < 2 ^ bit.
Proof.
  intros [Ha Hh]. pose proof (page_no_low a) as Hlow. pose proof (page_no_high a) as Hhigh.
  destruct half_pages as (k & E1 & E2 & Hk & E52 & Hq). rewrite E2, Z.mul_comm, Z.div_mul by done. unfold one_half in Hh.
  rewrite E1, ?E2 in *. change (2 ^ 64) with 18446744073709551616 in *. change (2 ^ 52) with 4503599627370496 in *.
  clear E1 E2 E52 Hq. assert (4096 * k <= 9223372036854775808 \/ 9223372036854775808 < 4096 * k) by lia.
  pose proof (Z.div_mod a 4096 ltac:(lia)). pose proof (Z.mod_pos_bound a 4096 ltac:(lia)). destruct Hh as [Hl|Hl].
  - rewrite Hlow by lia. lia.
  - rewrite Hhigh by lia. lia.
Qed.

(** [m] pages from [s] on, inside one half. *)
Record canon_range (s m : Z) : Prop := {
  cr_start : 0 <= s;
  cr_aligned : s mod 4096 = 0;
  cr_some : 0 < m;
  cr_half : one_half bit s (s + m * 4096 - 1);
  cr_word : s + m * 4096 <= 2 ^ 64
}.

Lemma canon_at s m i : canon_range s m -> 0 <= i < m -> canonical bit (s + i * 4096).
Proof. intros [Hs Ha Hm Hh Hw] Hi. split; [lia|]. unfold one_half in *. lia. Qed.

Lemma page_no_add s m i : canon_range s m -> 0 <= i < m -> page_no geo (s + i * 4096) = page_no geo s + i.
Proof.
  intros [Hs Ha Hm Hh Hw] Hi. pose proof (Z.div_mod s 4096) as Hd. destruct Hh as [Hlo|Hhi].
  - rewrite !page_no_low by lia. rewrite Z.div_add by done. done.
  - rewrite !page_no_high by lia. rewrite Z.div_add by done. lia.
Qed.

Lemma page_no_range a : 0 <= page_no geo a < pg n.
Proof. unfold page_no. fold n. apply Z.mod_pos_bound, pg_pos. Qed.

Lemma page_no_inj a b : canonical bit a -> canonical bit b -> a mod 4096 = 0 -> b mod 4096 = 0 -> page_no geo a = page_no geo b -> a = b.
Proof.
  intros Ha Hb Ma Mb E. pose proof (page_no_half a Ha) as Ka. pose proof (page_no_half b Hb) as Kb.
  pose proof (Z.div_mod a 4096). pose proof (Z.div_mod b 4096). destruct Ha as [Ra Hha], Hb as [Rb Hhb].
  destruct (Z.lt_ge_cases a (2 ^ bit)) as [La|La].
  - assert (Lb : b < 2 ^ bit) by (apply Kb; rewrite <- E; by apply Ka). rewrite !page_no_low in E by lia. lia.
  - assert (Lb : 2 ^ bit <= b) by (apply Z.le_ngt; intros H1%Kb; rewrite <- E in H1; apply Ka in H1; lia).
    unfold one_half in *. rewrite !page_no_high in E by lia. lia.
Qed.

Lemma canon_paging s m : canon_range s m -> range_ok geo s (m * 4096) (page_no geo s) m.
Proof.
  intros Hc. pose proof Hc as [Hs Ha Hm Hh Hw]. split; [by split|done|done|done| |done].
  pose proof (page_no_add s m (m - 1) Hc ltac:(lia)) as E. pose proof (page_no_range (s + (m - 1) * 4096)). fold n. lia.
Qed.

Lemma canon_part s m i j : canon_range s m -> 0 <= i -> 0 < j -> i + j <= m -> canon_range (s + i * 4096) j.
Proof.
  intros [Hs Ha Hm Hh Hw] Hi Hj Hij. split; [lia|by rewrite Z.mod_add|done| |lia]. unfold one_half in *. lia.
Qed.

(** Which canonical pages a range of page numbers names. *)
Lemma page_no_in s m a : canon_range s m -> canonical bit a -> a mod 4096 = 0 ->
  in_range (page_no geo s) (page_no geo s + m) (page_no geo a) = bool_decide (s <= a < s + m * 4096).
Proof.
  intros Hc Ha Hal. pose proof Hc as [Hs Hsa Hm Hh Hw]. apply eq_bool_prop_intro. rewrite bool_decide_spec.
  rewrite Is_true_true, in_range_true. split.
  - intros Hr. pose proof (page_no_add s m (page_no geo a - page_no geo s) Hc ltac:(lia)) as E.
    assert (a = s + (page_no geo a - page_no geo s) * 4096) as ->; [|lia]. apply page_no_inj; [done| |done| |lia].
    + apply (canon_at s m); [done|lia].
    + by rewrite Z.mod_add.
  - intros Hr. pose proof (Z.div_mod (a - s) 4096) as Hd. assert (Hz : (a - s) mod 4096 = 0) by (rewrite Zminus_mod, Hal, Hsa; done).
    assert (E : a = s + ((a - s) / 4096) * 4096) by lia. rewrite E, (page_no_add s m) by (done || lia). lia.
Qed.
End canonical.

(** ** Frames by page *)

Definition frame_of (fs : list (Z * Z)) (i : Z) : option Z := snd <$> List.find (fun p => p.1 =? i) fs.

Definition by_page (fs : list (Z * Z)) : Prop := StronglySorted (fun p q => p.1 < q.1) fs.

Lemma frame_of_cons p fs i : frame_of (p :: fs) i = if p.1 =? i then Some p.2 else frame_of fs i.
Proof. unfold frame_of. simpl. by destruct (p.1 =? i). Qed.

Lemma frame_of_elem fs i f : frame_of fs i = Some f -> (i, f) ∈ fs.
Proof.
  unfold frame_of. intros ([j g] & Hf & [= ->])%fmap_Some. apply List.find_some in Hf as [Hin Hj%Z.eqb_eq]. simpl in Hj. subst j.
  by apply list_elem_of_In.
Qed.

Lemma frame_of_None fs i : frame_of fs i = None <-> i ∉ fs.*1.
Proof.
  induction fs as [|p fs IH]; [split; [intros _ H; by apply elem_of_nil in H|done]|]. rewrite frame_of_cons, fmap_cons, not_elem_of_cons, <- IH.
  destruct (Z.eqb_spec p.1 i) as [->|]; naive_solver.
Qed.

Lemma by_page_NoDup fs : by_page fs -> NoDup fs.*1.
Proof.
  induction fs as [|p fs IH]; intros H; [constructor|]. apply StronglySorted_inv in H as [H1 H2]. rewrite fmap_cons. constructor; [|by apply IH].
  intros (q & E & Hq)%list_elem_of_fmap. eapply Forall_forall in H2; [|exact Hq]. simpl in *. lia.
Qed.

Lemma elem_frame_of fs i f : by_page fs -> (i, f) ∈ fs -> frame_of fs i = Some f.
Proof.
  intros Hs%by_page_NoDup. induction fs as [|p fs IH]; intros H; [by apply elem_of_nil in H|]. rewrite fmap_cons in Hs. apply NoDup_cons in Hs as [Hni Hs].
  rewrite frame_of_cons. apply elem_of_cons in H as [<-|H]; [by rewrite Z.eqb_refl|].
  destruct (Z.eqb_spec p.1 i) as [E|]; [|by apply IH]. exfalso. apply Hni, list_elem_of_fmap. by exists (i, f).
Qed.

Lemma page_ok_end p : page_ok p -> 0 <= p /\ p + 4096 <= 2 ^ 56.
Proof.
  intros [Hr Hm]. change (2 ^ 56) with (4096 * 17592186044416) in *. pose proof (Z.div_mod p 4096 ltac:(lia)). split; [lia|].
  assert (p / 4096 < 17592186044416) by (apply Z.div_lt_upper_bound; lia). lia.
Qed.

Lemma frame_of_app fs1 fs2 i : frame_of (fs1 ++ fs2) i = match frame_of fs1 i with Some f => Some f | None => frame_of fs2 i end.
Proof. induction fs1 as [|p fs1 IH]; [done|]. rewrite <- app_comm_cons, !frame_of_cons. by destruct (p.1 =? i). Qed.

(** ** One view *)

(** The pages of a range of a view. *)
Record page_range (w : View) (r : ActiveRange) : Prop := {
  pr_start : a_start r mod 4096 = 0;
  pr_size : a_size r mod 4096 = 0;
  pr_in : initial_start w <= a_start r /\ a_end r <= res_last (v_res w);
  pr_bits : 0 <= a_current r < 8
}.

Definition view_pages (w : View) : Z := initial_size w / 4096.
Definition page_addr (w : View) (i : Z) : Z := initial_start w + i * 4096.

Section view.
Context (geo : Geo) (Hgeo : geo_ok geo).
Let bit := split_bit geo.
Let n := levels geo.

(** A page that can be mapped: in the view, covered, with a frame that exists. *)
Definition mappable (w : View) (p : Z * Z) : Prop :=
  0 <= p.1 < view_pages w /\ page_ok p.2 /\ is_Some (current_at (v_active w) (page_addr w p.1)).

Record view_ok (w : View) : Prop := {
  vo_space : canon_range geo (initial_start w) (view_pages w);
  vo_size : initial_size w = view_pages w * 4096;
  vo_ranges : ranges_ok bit (v_active w);
  vo_aligned : Forall (page_range w) (v_active w);
  vo_attrs : 0 <= v_attrs w < 256 /\ attrs_are_architectural (v_attrs w) = true;
  vo_count : range_count (v_source w) = view_pages w;
  vo_published : by_page (v_published w);
  vo_frames : Forall (mappable w) (v_published w)
}.

Definition piece_of (w : View) (r : FrameRun) : Piece :=
  mkPiece (run_start r) (run_physical r) (run_size r) (leaf_flags w (run_current r)).

Lemma page_addr_no w i : view_ok w -> 0 <= i < view_pages w -> page_no geo (page_addr w i) = page_no geo (initial_start w) + i.
Proof. intros [Hs _ _ _ _ _ _ _] Hi. unfold page_addr. by apply (page_no_add geo Hgeo _ (view_pages w)). Qed.

(** The rights bits in a leaf. *)
Lemma leaf_flags_ok w a : 0 <= v_attrs w < 256 -> attrs_are_architectural (v_attrs w) = true -> 0 <= a < 8 -> is_leaf_set a = true ->
  0 <= leaf_flags w a < 256 /\ Z.land (leaf_flags w a) PTE_RWX <> 0 /\ Z.lor (leaf_flags w a) PTE_V = leaf_flags w a /\
  Z.land (leaf_flags w a) (Z.lor PTE_V PTE_RWX) = Z.lor PTE_V (Access_to_pte a).
Proof.
  clear. intros Ha Hb Hr Hl. unfold leaf_flags, attrs_are_architectural in *. apply Z.eqb_eq in Hb. set (x := v_attrs w) in *. clearbody x.
  assert (Hall : forallb (fun a => forallb (fun x => negb (Z.land x (Z.lor PTE_V PTE_RWX) =? 0) || negb (is_leaf_set a) ||
    let f := Z.lor PTE_V (Z.lor (Access_to_pte a) x) in
    (0 <=? f) && (f <? 256) && negb (Z.land f PTE_RWX =? 0) && (Z.lor f PTE_V =? f) && (Z.land f (Z.lor PTE_V PTE_RWX) =? Z.lor PTE_V (Access_to_pte a)))
    (seqZ 0 256)) (seqZ 0 8) = true) by by vm_compute.
  rewrite forallb_forall in Hall. specialize (Hall a). rewrite forallb_forall in Hall. specialize (Hall ltac:(by apply list_elem_of_In, elem_of_seqZ) x ltac:(apply list_elem_of_In, elem_of_seqZ; lia)).
  rewrite Hb, Hl in Hall. simpl in Hall. to_prop. split_and!; (done || lia).
Qed.

Lemma current_rights w x a : view_ok w -> current_at (v_active w) x = Some a -> 0 <= a < 8 /\ is_leaf_set a = true.
Proof.
  intros [_ _ [_ Hok] Hal _ _ _ _] H. unfold current_at, range_at in H. apply fmap_Some in H as (r & Hf & ->).
  apply List.find_some in Hf as [Hin%list_elem_of_In _]. eapply Forall_forall in Hok; [|exact Hin]. eapply Forall_forall in Hal; [|exact Hin].
  split; [apply Hal|apply (ro_rights _ _ Hok)].
Qed.

Lemma address_run w i : view_ok w -> 0 <= i < view_pages w -> frame_address (initial_start w) i = Some (page_addr w i).
Proof.
  intros [[Hs _ _ _ Hw] _ _ _ _ _ _ _] Hi. unfold frame_address, checked_mul, checked_add, checked, page_addr. change PAGE_SIZE with 4096.
  unfold fitsb, usize_bits. assert (i * 4096 < 2 ^ 64) by lia.
  rewrite (proj2 (Z.leb_le _ _)), (proj2 (Z.ltb_lt _ _)) by lia. simpl.
  by rewrite (proj2 (Z.leb_le _ _)), (proj2 (Z.ltb_lt _ _)) by lia.
Qed.

Section runs.
Context (w : View) (Hw : view_ok w).
Let act := v_active w.
Let P := page_no geo (initial_start w).

(** [k] frames that continue after [previous] under the right [cur]. *)
Definition continues (previous : Z * Z) (cur : Z) (fs : list (Z * Z)) : Prop :=
  forall j p, fs !! j = Some p -> p.1 = previous.1 + 1 + Z.of_nat j /\ p.2 = previous.2 + (1 + Z.of_nat j) * 4096 /\
    current_at act (page_addr w p.1) = Some cur.

Lemma joined_ok previous cur fs :
  Forall (mappable w) fs -> exists k, joined (initial_start w) act previous cur fs = Some k /\ (k <= length fs)%nat /\ continues previous cur (take k fs).
Proof using Hw.
  revert previous. induction fs as [|p fs IH]; intros previous Hfs; simpl; [exists 0%nat; split; [done|]; split; [done|]; by intros j p|].
  apply Forall_cons in Hfs as [Hp Hfs]. unfold joins at 1. change PAGE_SIZE with 4096.
  destruct (Z.eqb_spec p.1 (previous.1 + 1)) as [E1|]; simpl; [|exists 0%nat; split; [done|]; split; [lia|]; by intros j q].
  destruct (Z.eqb_spec p.2 (previous.2 + 4096)) as [E2|]; simpl; [|exists 0%nat; split; [done|]; split; [lia|]; by intros j q].
  rewrite address_run by (done || apply Hp). simpl. destruct (bool_decide _) eqn:Hc; [|exists 0%nat; split; [done|]; split; [lia|]; by intros j q].
  apply bool_decide_eq_true in Hc. destruct (IH p Hfs) as (k & -> & Hk & Hcont). exists (S k). split; [done|]. split; [lia|].
  intros [|j] q; simpl; [intros [= <-]; split; [lia|]; split; [lia|done]|]. intros Hq. destruct (Hcont j q Hq) as (H1 & H2 & H3).
  split; [lia|]. split; [lia|done].
Qed.

(** What one run says of a page. *)
Lemma run_piece first k cur rest :
  by_page (first :: rest) -> Forall (mappable w) (first :: rest) -> (k <= length rest)%nat -> continues first cur (take k rest) ->
  current_at act (page_addr w first.1) = Some cur ->
  let q := piece_of w (mkRun (page_addr w first.1) first.2 (Z.of_nat (S k) * PAGE_SIZE) cur) in
  piece_ok geo q /\
  (forall v, p_in geo q v = bool_decide (first.1 <= v - P <= first.1 + Z.of_nat k)) /\
  (forall v, first.1 <= v - P <= first.1 + Z.of_nat k ->
    frame_of (first :: rest) (v - P) = Some (first.2 + (v - P - first.1) * 4096) /\
    current_at act (page_addr w (v - P)) = Some cur /\
    p_says geo q v = ((first.2 + (v - P - first.1) * 4096) / 4096, leaf_flags w cur)) /\
  (forall i, ~ (first.1 <= i <= first.1 + Z.of_nat k) -> frame_of (first :: rest) i = frame_of (drop k rest) i) /\
  (forall p, p ∈ drop k rest -> first.1 + Z.of_nat k < p.1).
Proof using Hgeo Hw.
  intros Hs Hfs Hk Hcont Hcur q. pose proof Hw as [Hsp Hsz _ _ [Hat1 Hat2] _ _ _].
  destruct (current_rights w _ _ Hw Hcur) as [Hr1 Hr2]. destruct (leaf_flags_ok w cur Hat1 Hat2 Hr1 Hr2) as (F1 & F2 & F3 & _).
  pose proof (proj1 (Forall_cons _ _ _) Hfs) as [(Hf1 & Hf2 & _) Hrest]. pose proof (StronglySorted_inv Hs) as [Hs' Hgt].
  (* the last frame of the run *)
  assert (Hlook : forall j, (j < k)%nat -> exists p, rest !! j = Some p /\ p.1 = first.1 + 1 + Z.of_nat j /\ p.2 = first.2 + (1 + Z.of_nat j) * 4096 /\
    current_at act (page_addr w p.1) = Some cur).
  { intros j Hj. destruct (lookup_lt_is_Some_2 rest j ltac:(lia)) as [p Hp]. exists p. split; [done|]. apply Hcont. by rewrite lookup_take_lt. }
  assert (Hlast : first.1 + Z.of_nat k < view_pages w /\ first.2 + Z.of_nat (S k) * 4096 <= 2 ^ 56).
  { destruct k as [|k]; [pose proof (page_ok_end _ Hf2); lia|]. destruct (Hlook k ltac:(lia)) as (p & Hp & E1 & E2 & _).
    eapply Forall_lookup_1 in Hrest; [|exact Hp]. destruct Hrest as (H1 & H2 & _). pose proof (page_ok_end _ H2). lia. }
  assert (Hpno : page_no geo (page_addr w first.1) = P + first.1) by by apply page_addr_no.
  assert (Elen : p_len q = Z.of_nat (S k)) by (unfold p_len; cbn; change PAGE_SIZE with 4096; by rewrite Z.div_mul).
  assert (Elo : p_lo geo q = P + first.1) by exact Hpno.
  assert (Hin : forall v, p_in geo q v = bool_decide (first.1 <= v - P <= first.1 + Z.of_nat k)).
  { intros v. unfold p_in. rewrite Elo, Elen. unfold in_range. apply eq_bool_prop_intro. rewrite bool_decide_spec, Is_true_true, andb_true_iff, Z.leb_le, Z.ltb_lt. lia. }
  split_and!.
  - split; [|done|done]. split.
    + rewrite Elo, Elen, <- Hpno. apply (canon_paging geo Hgeo (page_addr w first.1) (Z.of_nat (S k))). apply (canon_part geo _ (view_pages w)); [done|lia|lia|lia].
    + apply Hf2.
    + cbn. change PAGE_SIZE with 4096. pose proof (page_ok_end _ Hf2). lia.
    + destruct Hgeo. unfold n in *. lia.
  - exact Hin.
  - intros v Hv. destruct (Z.eq_dec (v - P) first.1) as [E|Hne].
    + rewrite E, Z.sub_diag, Z.add_0_r, frame_of_cons, Z.eqb_refl. split; [done|]. split; [done|]. unfold p_says. rewrite Elo. cbn. rewrite F3. f_equal. lia.
    + destruct (Hlook (Z.to_nat (v - P - first.1 - 1)) ltac:(lia)) as ([i f] & Hp & E1 & E2 & E3). simpl in *.
      assert (i = v - P) as -> by lia. assert (f = first.2 + (v - P - first.1) * 4096) as -> by lia.
      split; [|split; [done|]].
      * apply elem_frame_of; [done|]. apply elem_of_cons. right. by eapply list_elem_of_lookup_2.
      * unfold p_says. rewrite Elo. cbn. rewrite F3, Z.div_add by done. f_equal. lia.
  - intros i Hi. rewrite frame_of_cons, (proj2 (Z.eqb_neq _ _)) by lia. rewrite <- (take_drop k rest) at 1.
    rewrite frame_of_app. assert (frame_of (take k rest) i = None) as ->; [|done]. apply frame_of_None.
    intros (p & -> & (j & Hp)%list_elem_of_lookup)%list_elem_of_fmap. destruct (Hcont j p Hp) as (E1 & _).
    pose proof (lookup_lt_Some _ _ _ Hp) as Hl. rewrite length_take in Hl. lia.
  - intros p Hp. destruct k as [|k]; [rewrite drop_0 in Hp; eapply Forall_forall in Hgt; [|exact Hp]; lia|].
    destruct (Hlook k ltac:(lia)) as (q0 & Hq0 & E1 & _). rewrite <- (take_drop (S k) rest) in Hs'.
    pose proof (StronglySorted_app_1_elem_of _ _ _ q0 p Hs') as H. simpl in H. enough (q0.1 < p.1) by lia. apply H; [|done].
    eapply (list_elem_of_lookup_2 _ k). by rewrite lookup_take_lt by lia.
Qed.

(** What the frames say of page [v] of the space. *)
Definition frames_say (fs : list (Z * Z)) (v : Z) : option (Z * Z) :=
  f ← frame_of fs (v - P);
  cur ← current_at act (page_addr w (v - P));
  Some (f / 4096, leaf_flags w cur).

(** The runs of a list of frames, as pieces to map: in order, apart, and together
they say of every page what the frames say. *)
Lemma frame_runs_pieces fuel fs :
  by_page fs -> Forall (mappable w) fs -> (length fs <= fuel)%nat ->
  exists rs, frame_runs (initial_start w) act fuel fs = Some (Ok <$> rs) /\
    let l := piece_of w <$> rs in
    Forall (piece_ok geo) l /\ all_apart geo l /\
    (forall v, says_of geo l v = frames_say fs v) /\
    forall q v, q ∈ l -> p_in geo q v = true -> is_Some (frame_of fs (v - P)).
Proof using Hgeo Hw.
  revert fs. induction fuel as [|fuel IH]; intros [|first rest] Hs Hfs Hlen; simpl in Hlen; try lia.
  1, 2: exists []; split; [done|]; split; [constructor|]; split; [constructor|]; split; [done|]; intros q v Hq; by apply elem_of_nil in Hq.
  pose proof (proj1 (Forall_cons _ _ _) Hfs) as [(Hf1 & Hf2 & [cur Hcur]) Hrest]. destruct (joined_ok first cur rest Hrest) as (k & Hj & Hk & Hcont).
  destruct (run_piece first k cur rest Hs Hfs Hk Hcont Hcur) as (Hq & Hqin & Hqsay & Hqout & Hqgt).
  set (run := mkRun (page_addr w first.1) first.2 (Z.of_nat (S k) * PAGE_SIZE) cur) in *.
  destruct (IH (drop k rest)) as (rs & Hrs & Hok & Hap & Hsay & Hcov).
  { apply StronglySorted_inv in Hs as [Hs _]. rewrite <- (take_drop k rest) in Hs. by apply StronglySorted_app_1_r in Hs. }
  { by apply Forall_drop. }
  { rewrite length_drop. lia. }
  exists (run :: rs). split; [|split; [|split; [|split]]].
  - cbn [frame_runs]. unfold next_run. rewrite address_run by done. fold act. cbn. fold act in Hcur. rewrite Hcur. cbn. rewrite Hj. cbn. by rewrite Hrs.
  - by constructor.
  - rewrite fmap_cons. apply all_apart_cons. split; [|done]. intros q Hq2.
    assert (Hdis : forall v, p_in geo (piece_of w run) v = true -> p_in geo q v = true -> False).
    { intros v H1 H2. rewrite Hqin, bool_decide_eq_true in H1. destruct (Hcov q v Hq2 H2) as [f Hf].
      apply frame_of_elem, Hqgt in Hf. simpl in Hf. lia. }
    split; intros v Hv; apply not_true_is_false; intros Hv'; by eapply Hdis.
  - intros v. rewrite fmap_cons, says_of_cons, Hqin, Hsay. unfold frames_say. destruct (bool_decide _) eqn:Hb.
    + apply bool_decide_eq_true in Hb. destruct (Hqsay v Hb) as (-> & -> & ->). done.
    + apply bool_decide_eq_false in Hb. by rewrite Hqout.
  - rewrite fmap_cons. intros q v [->|Hq2]%elem_of_cons Hv.
    + rewrite Hqin, bool_decide_eq_true in Hv. destruct (Hqsay v Hv) as (-> & _). by eexists.
    + destruct (Hcov q v Hq2 Hv) as [f Hf]. rewrite Hqout; [by exists f|]. apply frame_of_elem, Hqgt in Hf. simpl in Hf. lia.
Qed.

Lemma runs_pieces fs :
  by_page fs -> Forall (mappable w) fs ->
  exists rs, runs w (initial_start w) fs = Some (Ok <$> rs) /\
    let l := piece_of w <$> rs in
    Forall (piece_ok geo) l /\ all_apart geo l /\
    (forall v, says_of geo l v = frames_say fs v) /\
    forall q v, q ∈ l -> p_in geo q v = true -> is_Some (frame_of fs (v - P)).
Proof using Hgeo Hw. intros Hs Hfs. by apply frame_runs_pieces. Qed.
End runs.
End view.
