(* ===== verification/Nest.v ===== *)
(** * Address spaces ([core/memory/nest/mod.rs], [state.rs], [unpublish.rs])

    An address space puts the parts together: the table of occupied addresses,
    the tree of page tables, the index of views, the views with their sources,
    and what has to wait until the other harts have forgotten a mapping.  Every
    operation is the code's: all that can fail is prepared first, then the page
    tables, the views and the index change, then the translation is invalidated
    on the other harts, and only then are frames, tables and addresses given back.

    The state holds one address space with the sources of pages it maps.  What the
    allocators, the frame allocator of tables and the other harts answer is a
    script in the state. *)

From stdpp Require Import sorting.
From S2P Require Import Prelude.
From S2P Require Import Table.
From S2P Require Import Flat.
From S2P Require Import Occupancy.
From S2P Require Import Active.
From S2P Require Import Index.
From S2P Require Import Paging.
From S2P Require Import PagingRuns.
From S2P Require Import View.

Open Scope Z_scope.

(** ** State ([kind.rs], [synchronize], [state.rs]) *)

Inductive SpaceKind := Supervisor | User.

Definition is_supervisor (k : SpaceKind) : bool := match k with Supervisor => true | User => false end.

Inductive Invalidation := Clean | Dirty | Fencing | Failed.

Definition is_clean (i : Invalidation) : bool := match i with Clean => true | _ => false end.
Definition is_fencing (i : Invalidation) : bool := match i with Fencing => true | _ => false end.

Inductive ClosePhase := Open | Closing | Closed.

Definition phase_closed (p : ClosePhase) : bool := match p with Closed => true | _ => false end.
Definition phase_settle (p : ClosePhase) : ClosePhase := match p with Closing => Closed | p => p end.

(** [fault.rs], [fault_outcome.rs]. *)
Inductive FaultKind := Instruction | Load | FaultKind_Store.
Inductive FaultOutcome := Resolved | Wait (view : Z) | Materialize | Invalid.

(** [ns_tables] holds the retired tables with the answers of their allocators. *)
Record NestState := mkNS {
  ns_root : TableNode;
  ns_tables : Paging.World;
  ns_index : Index;
  ns_retired_frames : list Z;
  ns_invalidation : Invalidation;
  ns_pending_views : list Z;
  ns_retirement : list Z;
  ns_phase : ClosePhase
}.

(** [self] is the identity of the space, [cleanup] the chain of views whose
    withdrawal is still to be finished, newest first; [nest_views] are the views
    that exist, [registry] the association of sources and views, [held] the
    residencies alive; [mem] is physical memory; [grant] and [deaf] are the
    outcomes of the allocations and of the shootdowns to come ([false] fails, and
    past the end they succeed). *)
Record Nest := mkNest {
  self : Z;
  asid : Z;
  kind : SpaceKind;
  occ : Occupancy;
  cleanup : list Z;
  ns : NestState;
  asid_released : bool;
  nest_views : gmap Z View;
  registry : list (nat * Z);
  flat : Flat.World;
  held : list Residency;
  mem : gmap Z Z;
  grant : list bool;
  deaf : list bool
}.

Abbreviation NM := (M Nest NestError).

Definition set_occ (x : Occupancy) (s : Nest) : Nest :=
  mkNest (self s) (asid s) (kind s) x (cleanup s) (ns s) (asid_released s) (nest_views s) (registry s) (flat s) (held s) (mem s) (grant s) (deaf s).
Definition set_cleanup (x : list Z) (s : Nest) : Nest :=
  mkNest (self s) (asid s) (kind s) (occ s) x (ns s) (asid_released s) (nest_views s) (registry s) (flat s) (held s) (mem s) (grant s) (deaf s).
Definition set_ns (x : NestState) (s : Nest) : Nest :=
  mkNest (self s) (asid s) (kind s) (occ s) (cleanup s) x (asid_released s) (nest_views s) (registry s) (flat s) (held s) (mem s) (grant s) (deaf s).
Definition set_released (x : bool) (s : Nest) : Nest :=
  mkNest (self s) (asid s) (kind s) (occ s) (cleanup s) (ns s) x (nest_views s) (registry s) (flat s) (held s) (mem s) (grant s) (deaf s).
Definition set_views (x : gmap Z View) (s : Nest) : Nest :=
  mkNest (self s) (asid s) (kind s) (occ s) (cleanup s) (ns s) (asid_released s) x (registry s) (flat s) (held s) (mem s) (grant s) (deaf s).
Definition set_registry (x : list (nat * Z)) (s : Nest) : Nest :=
  mkNest (self s) (asid s) (kind s) (occ s) (cleanup s) (ns s) (asid_released s) (nest_views s) x (flat s) (held s) (mem s) (grant s) (deaf s).
Definition set_flat (x : Flat.World) (h : list Residency) (s : Nest) : Nest :=
  mkNest (self s) (asid s) (kind s) (occ s) (cleanup s) (ns s) (asid_released s) (nest_views s) (registry s) x h (mem s) (grant s) (deaf s).
Definition set_mem (x : gmap Z Z) (s : Nest) : Nest :=
  mkNest (self s) (asid s) (kind s) (occ s) (cleanup s) (ns s) (asid_released s) (nest_views s) (registry s) (flat s) (held s) x (grant s) (deaf s).
Definition set_grant (x : list bool) (s : Nest) : Nest :=
  mkNest (self s) (asid s) (kind s) (occ s) (cleanup s) (ns s) (asid_released s) (nest_views s) (registry s) (flat s) (held s) (mem s) x (deaf s).
Definition set_deaf (x : list bool) (s : Nest) : Nest :=
  mkNest (self s) (asid s) (kind s) (occ s) (cleanup s) (ns s) (asid_released s) (nest_views s) (registry s) (flat s) (held s) (mem s) (grant s) x.

Definition with_root (t : TableNode) (w : Paging.World) (n : NestState) : NestState :=
  mkNS t w (ns_index n) (ns_retired_frames n) (ns_invalidation n) (ns_pending_views n) (ns_retirement n) (ns_phase n).
Definition with_index (i : Index) (n : NestState) : NestState :=
  mkNS (ns_root n) (ns_tables n) i (ns_retired_frames n) (ns_invalidation n) (ns_pending_views n) (ns_retirement n) (ns_phase n).
Definition with_frames (l : list Z) (n : NestState) : NestState :=
  mkNS (ns_root n) (ns_tables n) (ns_index n) l (ns_invalidation n) (ns_pending_views n) (ns_retirement n) (ns_phase n).
Definition with_invalidation (i : Invalidation) (n : NestState) : NestState :=
  mkNS (ns_root n) (ns_tables n) (ns_index n) (ns_retired_frames n) i (ns_pending_views n) (ns_retirement n) (ns_phase n).
Definition with_pending (l : list Z) (n : NestState) : NestState :=
  mkNS (ns_root n) (ns_tables n) (ns_index n) (ns_retired_frames n) (ns_invalidation n) l (ns_retirement n) (ns_phase n).
Definition with_retirement (l : list Z) (n : NestState) : NestState :=
  mkNS (ns_root n) (ns_tables n) (ns_index n) (ns_retired_frames n) (ns_invalidation n) (ns_pending_views n) l (ns_phase n).
Definition with_phase (p : ClosePhase) (n : NestState) : NestState :=
  mkNS (ns_root n) (ns_tables n) (ns_index n) (ns_retired_frames n) (ns_invalidation n) (ns_pending_views n) (ns_retirement n) p.

Definition NestState_new (root : TableNode) (w : Paging.World) : NestState :=
  mkNS root w Index_new [] Clean [] [] Open.

(** ** Running the parts *)

Definition modify (f : Nest -> Nest) : NM unit := s ← get; put (f s).
Definition modify_ns (f : NestState -> NestState) : NM unit := modify (fun s => set_ns (f (ns s)) s).

Definition on_occ {A} (m : OC A) : NM A := fun s =>
  match m (occ s) with None => None | Some (r, o) => Some (r, set_occ o s) end.

Definition on_tables {A} (m : PT A) : NM A := fun s =>
  match m (ns_root (ns s), ns_tables (ns s)) with
  | None => None
  | Some (r, (t, w)) => Some (r, set_ns (with_root t w (ns s)) s)
  end.

(** [From<FlatError>] of [error.rs]. *)
Definition NestError_from (e : FlatError) : NestError :=
  match e with
  | OutOfMemory => NOutOfMemory
  | NotAligned => NNotAligned
  | OutOfRange => NoRegion
  | MissingError => NMissing
  | Busy => NBusy
  end.

Definition on_flat {A} (m : M Flat.World FlatError A) : NM A := fun s =>
  match m (flat s) with None => None | Some (r, w) => Some (map_err NestError_from r, set_flat w (held s) s) end.

(** A residency that the caller holds from here on, and its destructor. *)
Definition holding (m : M Flat.World FlatError Residency) : NM Residency :=
  h ← on_flat m; s ← get; put (set_flat (flat s) (h :: held s) s) ;; mret h.

Definition same_hold (a b : Residency) : bool :=
  bool_decide (range_flat (hold_range a) = range_flat (hold_range b)) && (hold_id a =? hold_id b).

Definition drop_hold (h : Residency) : NM unit :=
  on_flat (release_residency (range_flat (hold_range h)) (hold_id h)) ;;
  s ← get;
  put (set_flat (flat s) (match position (same_hold h) (held s) with Some i => remove_at i (held s) | None => held s end) s).

(** [m], and [c] when it is over, with a value or an error. *)
Definition finally {A} (m : NM A) (c : NM unit) : NM A := fun s =>
  match m s with
  | None => None
  | Some (r, s') => match c s' with None => None | Some (_, s'') => Some (r, s'') end
  end.

(** Going on with the outcome of [m], whatever it is. *)
Definition catch {A B} (m : NM A) (k : result NestError A -> NM B) : NM B := fun s =>
  match m s with None => None | Some (r, s') => k r s' end.

Fixpoint iter {A} (f : A -> NM unit) (l : list A) : NM unit :=
  match l with [] => mret tt | a :: l => f a ;; iter f l end.

Definition try_reserve : NM unit :=
  s ← get;
  match grant s with
  | [] => mret tt
  | ok :: rest => put (set_grant rest s) ;; if (ok : bool) then mret tt else fail NOutOfMemory
  end.

Definition get_view (v : Z) : NM View := s ← get; expect (nest_views s !! v).
Definition put_view (v : Z) (w : View) : NM unit := modify (fun s => set_views (<[v := w]> (nest_views s)) s).

(** The active ranges the index looks at. *)
Definition store (s : Nest) : Store := v_active <$> nest_views s.

Definition is_closed (s : Nest) : bool := phase_closed (ns_phase (ns s)).
Definition is_kernel (s : Nest) : bool := asid s =? 0.

Definition mark_dirty : NM unit := modify_ns (with_invalidation Dirty).

(** ** Invalidation *)

(** The answer of [identity::shootdown]. *)
Definition shootdown : NM bool :=
  s ← get;
  match deaf s with
  | [] => mret true
  | ok :: rest => put (set_deaf rest s) ;; mret ok
  end.

Definition fence : NM unit := modify_ns (with_invalidation Fencing).

(** Dropping the retired tables: the tables are no longer alive. *)
Definition drop_tables (w : Paging.World) : Paging.World :=
  Paging.mkWorld (tables w) (grants w) (live w - fold_right (fun t n => node_count t + n) 0 (Paging.retired w)) [] 0.

(** [NestState::settle], and what the caller then takes out and drops. *)
Definition settle (n : NestState) : NestState :=
  mkNS (ns_root n) (drop_tables (ns_tables n)) (ns_index n) [] Clean [] (ns_retirement n) (phase_settle (ns_phase n)).

(** The critical section after the shootdown. *)
Definition finish_fence (ok : bool) : NM unit :=
  if ok then modify_ns settle
  else modify_ns (with_invalidation Failed) ;; fail Shootdown.

(** While another caller fences, the loop waits for that caller to finish; what
    that caller is told is not its business.  Afterwards the space is clean or the
    shootdown has failed, so two rounds suffice. *)
Fixpoint finish_loop (fuel : nat) : NM unit :=
  match fuel with
  | O => panic
  | S fuel =>
      s ← get;
      if is_clean (ns_invalidation (ns s)) then mret tt
      else if is_fencing (ns_invalidation (ns s)) then
        ok ← shootdown;
        catch (finish_fence ok) (fun _ => finish_loop fuel)
      else
        fence ;;
        ok ← shootdown;
        finish_fence ok
  end.

Definition finish_invalidation : NM unit := finish_loop 2.

(** [ready_state]: returns with the space clean and not closed. *)
Fixpoint ready_loop (fuel : nat) : NM unit :=
  match fuel with
  | O => panic
  | S fuel =>
      s ← get;
      if is_closed s then fail NoRegion
      else match ns_invalidation (ns s) with
      | Clean => mret tt
      | Failed => fail Shootdown
      | Dirty | Fencing => finish_invalidation ;; ready_loop fuel
      end
  end.

Definition ready_state : NM unit := ready_loop 2.

(** ** A new space ([machine/layout.rs]) *)

Definition IMAGE_BASE : Z := 65536.
Definition MAX_HART_SLOTS : Z := 4096.
Definition TRAMPOLINE : Z := 2 ^ 64 - 4096.
Definition KERNEL_TOP : Z := TRAMPOLINE - (2 * 1024 * 1024 - PAGE_SIZE).
Definition HART_FRAME_BASE : Z := KERNEL_TOP - MAX_HART_SLOTS * PAGE_SIZE.
Definition TEAM_FRAME_WINDOW_SIZE : Z := 64 * 1024 * 1024.
Definition TEAM_FRAME_BASE : Z := HART_FRAME_BASE - TEAM_FRAME_WINDOW_SIZE.
Definition TRAP_STACK_BASE : Z := TEAM_FRAME_BASE - Z.shiftl MAX_HART_SLOTS 16.

(** [lower()] and [upper()] of [machine/mode/mod.rs]. *)
Definition mode_lower (bit : Z) : Z := VirtAddr_from_raw bit (Z.shiftl 1 bit).
Definition mode_upper (bit : Z) : Z := Z.shiftl 1 bit.

(** The windows of a space; [dram] is the base and the size of the memory. *)
Definition attach_windows (bit : Z) (kernel : bool) (dram : Z * Z) : OC unit :=
  attach Normal IMAGE_BASE (mode_upper bit - 1) ;;
  attach Kernel TEAM_FRAME_BASE (TEAM_FRAME_BASE + TEAM_FRAME_WINDOW_SIZE - 1) ;;
  if kernel then
    base ← lift (ok_or (base ← checked_add (mode_lower bit) dram.1; checked_add base dram.2) DramOverlap);
    attach Resource base (TRAP_STACK_BASE - 1)
  else mret tt.

(** [Nest::build], from the answers of the allocators: [asid] is the identifier
    [Asid::try_allocate] gives, [arc] whether the [Arc] can be made.  [s] carries
    the identity, the table of addresses, the tables' allocator and the sources the
    space starts from. *)
Definition build (bit : Z) (kernel : bool) (k : SpaceKind) (dram : Z * Z) (new_asid : option Z) (arc : bool) : NM unit :=
  root ← on_tables TableNode_root;
  modify (fun s => set_ns (NestState_new root (ns_tables (ns s))) s) ;;
  on_occ (attach_windows bit kernel dram) ;;
  a ← lift (if kernel then Ok 0 else ok_or new_asid NOutOfMemory);
  if arc then
    modify (fun s => mkNest (self s) a k (occ s) [] (ns s) kernel ∅ [] (flat s) (held s) (mem s) (grant s) (deaf s))
  else fail NOutOfMemory.

(** ** Owners and reservations *)

Definition check_owner (r : Reservation) : NM unit :=
  s ← get; if res_nest r =? self s then mret tt else fail NoRegion.

Definition ensure_owned (w : View) : NM unit :=
  s ← get;
  if is_closed s || negb (res_nest (v_res w) =? self s) then fail NoRegion else mret tt.

Definition check_reservation (r : Reservation) : NM unit :=
  check_owner r ;;
  s ← get; if has_id (res_gen r) (occ s) then mret tt else fail NoRegion.

Definition give_back (r : Reservation) : NM bool :=
  on_occ (release (res_start r) (res_start r + (res_size r - 1)) (res_gen r)).

(** A reservation of another space goes back there. *)
Definition give_back_unpublished (r : Reservation) : NM unit :=
  s ← get; if res_nest r =? self s then give_back r ;; mret tt else mret tt.

Definition abandon {A} (r : Reservation) (e : NestError) : NM A := give_back_unpublished r ;; fail e.

Definition attrs (region : RegionId) (k : SpaceKind) : Z :=
  let base := Z.lor PTE_A PTE_D in
  if negb (is_supervisor k) && bool_decide (region = Normal) then Z.lor base PTE_U else base.

Definition nest_overlaps (start size : Z) : NM bool :=
  if (size =? 0) || negb (VirtAddr_offset start =? 0) || negb (size mod PAGE_SIZE =? 0) then fail NNotAligned
  else
    end_ ← lift (ok_or (checked_add start (size - 1)) NNotAligned);
    s ← get;
    mret (bool_decide (is_Some (Index_first_overlap (store s) start end_ (ns_index (ns s))))).

(** [bit] is the split bit of the paging mode, [geo] its tables. *)
Section nest.
Context (geo : Geo).
Let bit : Z := split_bit geo.

Definition nest_reserve (p : Placement) : NM Reservation :=
  x ← on_occ (reserve p);
  s ← get;
  mret (mkRes (self s) (pl_region p) (VirtAddr_from_raw bit x.1) (pl_size p) x.2).

Definition split_reservation (r : Reservation) (left_size : Z) : NM (Reservation * Reservation) :=
  check_reservation r ;;
  x ← on_err (on_occ (split (res_start r) (res_last r) (res_gen r) left_size)) (give_back r ;; mret tt);
  s ← get;
  mret (mkRes (self s) (res_region r) (res_start r) left_size x.1.2,
        mkRes (self s) (res_region r) (VirtAddr_from_raw bit x.1.1) (res_size r - left_size) x.2).

Definition release_reserved (r : Reservation) : NM unit :=
  check_reservation r ;;
  mapped ← nest_overlaps (res_start r) (res_size r);
  if (mapped : bool) then fail AlreadyMapped
  else
    given ← give_back r;
    if (given : bool) then mret tt else fail NoRegion.

(** ** The cleanup chain *)

Definition enqueue_cleanup (v : Z) : NM unit :=
  modify (fun s => if is_closed s then s else set_cleanup (v :: cleanup s) s).

Definition drain_closed : NM unit :=
  modify (fun s => if is_closed s then set_cleanup [] s else s).

Definition next_cleanup : NM (option Z) :=
  s ← get;
  match cleanup s with
  | [] => mret None
  | v :: rest => put (set_cleanup rest s) ;; mret (Some v)
  end.

(** ** Views and the registry of sources *)

(** A caller gives up its [Arc] of a view.  If no other is left, in the index, among
    the pending views or in the cleanup chain, the view is dropped, and its [Drop]
    takes it out of the registry. *)
Definition referenced (s : Nest) (v : Z) : bool :=
  any (fun u => u =? v) (Index_collect [] (ns_index (ns s)) ++ ns_pending_views (ns s) ++ cleanup s).

Definition drop_view (v : Z) : NM unit :=
  modify (fun s =>
    if referenced s v then s
    else set_registry (retain (fun r => negb (r.2 =? v)) (registry s)) (set_views (delete v (nest_views s)) s)).

(** [source_views::register]. *)
Definition register (source : FlatRange) (v : Z) : NM unit :=
  try_reserve ;;
  modify (fun s =>
    if any (fun r => bool_decide (r.1 = range_flat source) && (r.2 =? v)) (registry s) then s
    else set_registry ((range_flat source, v) :: registry s) s).

Fixpoint overlapping (l : list ActiveRange) : bool :=
  match l with
  | a :: (b :: _) as l => (a_start b <=? a_end a) || overlapping l
  | _ => false
  end.

(** [View::new]; the view is known by the generation of its reservation. *)
Definition View_new (r : Reservation) (at_ : Z) (active : list ActiveRange) (source : FlatRange) : NM Z :=
  match checked_add (res_start r) (res_size r - 1) with
  | None => abandon r NNotAligned
  | Some end_ =>
      if (res_size r =? 0) || negb (res_size r mod PAGE_SIZE =? 0) || bool_decide (active = [])
         || negb (bool_decide (checked_bytes (range_count source) = Some (res_size r)))
      then abandon r NNotAligned
      else if any (fun a => (a_start a <? res_start r) || (end_ <? a_end a)) active then abandon r NoRegion
      else if overlapping active then abandon r AlreadyMapped
      else
        on_err try_reserve (give_back_unpublished r) ;;
        put_view (res_gen r) (mkView r at_ active source []) ;;
        mret (res_gen r)
  end.

(** ** Installing runs *)

Definition prepare_run (run : FrameRun) : PT unit :=
  prepare_range_geometry geo (run_start run) (run_physical run) (run_size run).
Definition map_run (w : View) (run : FrameRun) : PT unit :=
  map_range_prepared_geometry geo (run_start run) (run_physical run) (run_size run) (leaf_flags w (run_current run)).

(** [for run in runs { let run = run?; ... }] *)
Definition each_run (f : FrameRun -> PT unit) (l : list (result NestError FrameRun)) : PT unit :=
  each (fun r => run ← lift r; f run) l.

(** The physical address behind an active range of a view of a borrowed source. *)
Definition borrowed_at (w : View) (at_ : Z) : NM Z :=
  i ← expect (page_index w at_); on_flat (FlatRange_physical (v_source w) i).

Definition push_pending (v : Z) : NM unit := modify_ns (fun n => with_pending (ns_pending_views n ++ [v]) n).

(** The frames of [materialized_frames] at the pages that are active. *)
Fixpoint publishable (w : View) (l : list (Z * Z)) : option (list (Z * Z)) :=
  match l with
  | [] => Some []
  | (page, f) :: l =>
      a ← frame_address (initial_start w) page;
      rest ← publishable w l;
      Some (if covers w a a then (page, f) :: rest else rest)
  end.

(** ** [commit] *)

(** From the frames to map on, under the lock of the space: [borrowed] are the
    active ranges to map where the source is borrowed. *)
Definition install (v : Z) (published : list (Z * Z)) (borrowed : list ActiveRange) : NM unit :=
  w ← get_view v;
  let start := res_start (v_res w) in
  try_reserve ;;
  s ← get;
  node ← lift (IndexNode_new (store s) v);
  try_reserve ;;
  ready_state ;;
  s ← get;
  match Index_first_overlap (store s) start (res_last (v_res w)) (ns_index (ns s)) with
  | Some _ => fail AlreadyMapped
  | None =>
      try_reserve ;;
      register (v_source w) v ;;
      rs ← expect (runs w start published);
      on_tables (each_run prepare_run rs) ;;
      iter (fun r => pa ← borrowed_at w (a_start r); on_tables (prepare_range_geometry geo (a_start r) pa (a_size r))) borrowed ;;
      s ← get;
      (if is_kernel s || is_global w then on_flat (mark_untransferable (range_flat (v_source w))) else mret tt) ;;
      push_pending v ;;
      on_tables (each_run (map_run w) rs) ;;
      iter (fun r => pa ← borrowed_at w (a_start r);
                     on_tables (map_range_prepared_geometry geo (a_start r) pa (a_size r) (leaf_flags w (a_current r)))) borrowed ;;
      put_view v (fold_left (fun w p => publish_page p.1 p.2 w) published w) ;;
      s ← get;
      i ← expect (Index_insert (store s) node (ns_index (ns s)));
      modify_ns (with_index i) ;;
      mark_dirty
  end.

(** Up to the end of the critical section; a borrowed source stays resident. *)
Definition commit_locked (v : Z) : NM (option Residency) :=
  w ← get_view v;
  let src := v_source w in
  borrowed ← on_flat (is_borrowed (range_flat src));
  if (borrowed : bool) then
    pages ← holding (FlatRange_materialize src);
    on_err (try_reserve ;; install v [] (v_active w) ;; mret (Some pages)) (drop_hold pages)
  else
    fs ← on_flat (materialized (range_flat src) (range_index src) (range_count src));
    try_reserve ;;
    published ← expect (publishable w fs);
    install v published [] ;;
    mret None.

Definition drop_pages (pages : option Residency) : NM unit :=
  match pages with Some h => drop_hold h | None => mret tt end.

Definition commit (v : Z) : NM unit :=
  w ← get_view v;
  s ← get;
  if negb (has_id (res_gen (v_res w)) (occ s)) then fail NoRegion
  else
    on_occ (prepare_cleanup (res_gen (v_res w))) ;;
    lease ← holding (reside (v_source w));
    pages ← finally (commit_locked v) (drop_hold lease);
    finally finish_invalidation (drop_pages pages).

Definition settle_failed_install (v : Z) : NM unit :=
  w ← get_view v;
  s ← get;
  if bool_decide (Index_find (store s) (initial_start w) (ns_index (ns s)) = Some v) then
    found ← on_occ (take_cleanup (res_gen (v_res w)));
    if (found : bool) then enqueue_cleanup v else mret tt
  else give_back_unpublished (v_res w) ;; drop_view v.

Definition attach_shaped (r : Reservation) (source : FlatRange) (at_ : Z) (active : list ActiveRange) : NM Z :=
  on_err (check_owner r) (give_back_unpublished r) ;;
  if negb (attrs_are_architectural at_) then abandon r NNotAligned
  else
    on_err try_reserve (give_back_unpublished r) ;;
    v ← View_new r at_ active source;
    on_err (commit v) (settle_failed_install v) ;;
    mret v.

Definition attach_view (r : Reservation) (source : FlatRange) (ceiling current : Z) : NM Z :=
  on_err (check_owner r) (give_back_unpublished r) ;;
  s ← get;
  let at_ := attrs (res_region r) (kind s) in
  match ActiveRange_new (res_start r) (res_size r) ceiling current with
  | Err e => abandon r e
  | Ok a => attach_shaped r source at_ [a]
  end.

(** ** Publishing pages *)

(** [false] where nothing was changed. *)
Definition publish_locked (v start size : Z) : NM bool :=
  w ← get_view v;
  end_ ← lift (ok_or (checked_add start (size - 1)) NNotAligned);
  ready_state ;;
  ensure_owned w ;;
  if negb (covers w start end_) then fail NoRegion
  else
    borrowed ← on_flat (is_borrowed (range_flat (v_source w)));
    if (borrowed : bool) then mret false
    else
      first ← expect (page_index w start);
      count ← lift (ok_or (PageCount_new (size / PAGE_SIZE)) NNotAligned);
      window ← on_flat (FlatRange_range (v_source w) first count);
      lease ← holding (reside window);
      finally (
        fs ← on_flat (materialized (range_flat window) (range_index window) (range_count window));
        try_reserve ;;
        let fresh := retain (fun p => negb (publishes w p.1)) ((fun p => (first + p.1, p.2)) <$> fs) in
        if bool_decide (fresh = []) then mret false
        else
          try_reserve ;;
          try_reserve ;;
          rs ← expect (runs w (initial_start w) fresh);
          on_tables (each_run prepare_run rs) ;;
          s ← get;
          (if is_kernel s || is_global w then on_flat (mark_untransferable (range_flat (v_source w))) else mret tt) ;;
          push_pending v ;;
          on_tables (each_run (map_run w) rs) ;;
          put_view v (fold_left (fun w p => publish_page p.1 p.2 w) fresh w) ;;
          mark_dirty ;;
          mret true) (drop_hold lease).

Definition publish_span (v start size : Z) : NM unit :=
  if (size =? 0) || negb (VirtAddr_offset start =? 0) || negb (size mod PAGE_SIZE =? 0) then fail NNotAligned
  else
    changed ← publish_locked v start size;
    if (changed : bool) then finish_invalidation else mret tt.

Definition active_spans (sel : ViewRange) : NM (list (Z * Z)) :=
  w ← get_view (sel_view sel);
  let '(lo, hi) := sel_window w sel in
  ready_state ;;
  ensure_owned w ;;
  w ← get_view (sel_view sel);
  if bool_decide (v_active w = []) || (is_pages sel && negb (covers w lo hi)) then fail NoRegion
  else
    try_reserve ;;
    mret (omap (fun r => (fun x => (VirtAddr_from_raw bit x.1, x.2 - x.1 + 1)) <$> a_intersection r lo hi) (v_active w)).

Definition publish (sel : ViewRange) : NM unit :=
  spans ← active_spans sel;
  iter (fun x => publish_span (sel_view sel) x.1 x.2) spans.

(** [ViewRange::source]. *)
Definition sel_source (sel : ViewRange) : NM FlatRange :=
  w ← get_view (sel_view sel);
  match sel with
  | Whole _ =>
      count ← lift (ok_or (PageCount_new (initial_size w / PAGE_SIZE)) NNotAligned);
      on_flat (FlatRange_range (v_source w) 0 count)
  | Pages _ offset count => on_flat (FlatRange_range (v_source w) offset count)
  end.

Definition materialize_active (sel : ViewRange) : NM unit :=
  w ← get_view (sel_view sel);
  spans ← active_spans sel;
  iter (fun x =>
    offset ← expect (page_index w x.1);
    count ← lift (ok_or (PageCount_new (x.2 / PAGE_SIZE)) NNotAligned);
    part ← lift (ViewRange_pages (sel_view sel) w offset count);
    source ← sel_source part;
    pages ← holding (FlatRange_materialize source);
    drop_hold pages ;;
    publish part) spans.

(** ** Rights *)

(** The loop of [set_access] over the pages of the window: those that are mapped
    are prepared and found. *)
Fixpoint touch_loop (w : View) (borrowed : bool) (pages : list Z) : PT (list Z) :=
  match pages with
  | [] => mret []
  | page :: pages =>
      va ← expect (frame_address (initial_start w) page);
      if borrowed || publishes w page then
        touch_page geo va ;;
        rest ← touch_loop w borrowed pages; mret (va :: rest)
      else touch_loop w borrowed pages
  end.

(** The loop of [narrow], with the right that [next] gives each page. *)
Fixpoint narrow_pages (w : View) (borrowed : bool) (next : list ActiveRange) (pages : list Z) : PT (list (Z * Z)) :=
  match pages with
  | [] => mret []
  | page :: pages =>
      va ← expect (frame_address (initial_start w) page);
      match range_at next va with
      | None => fail NoRegion
      | Some r =>
          if borrowed || publishes w page then
            touch_page geo va ;;
            rest ← narrow_pages w borrowed next pages; mret ((va, a_current r) :: rest)
          else narrow_pages w borrowed next pages
      end
  end.

Definition window_pages (w : View) (lo hi : Z) : NM (list Z) :=
  first ← expect (page_index w (VirtAddr_from_raw bit lo));
  mret (seqZ first ((hi - lo + 1) / PAGE_SIZE)).

(** The end of both: the rights are written, the view and its node are brought up
    to date. *)
Definition rewrite_rights (v : Z) (w : View) (updates : list (Z * Z)) (next : list ActiveRange) : NM unit :=
  try_reserve ;;
  push_pending v ;;
  on_tables (each (fun x => set_permissions_prepared_geometry geo x.1 (leaf_flags w x.2)) updates) ;;
  put_view v (set_active next w) ;;
  modify (fun s => set_ns (with_index (Index_refresh (store s) v (ns_index (ns s))).1 (ns s)) s) ;;
  mark_dirty.

(** The outcome of the allocation inside [ActiveRange::split] and [narrow]. *)
Definition grows : NM bool :=
  s ← get;
  match grant s with
  | [] => mret true
  | ok :: rest => put (set_grant rest s) ;; mret ok
  end.

Definition set_access_locked (sel : ViewRange) (access : Z) : NM unit :=
  w ← get_view (sel_view sel);
  let '(lo, hi) := sel_window w sel in
  ready_state ;;
  ensure_owned w ;;
  w ← get_view (sel_view sel);
  if negb (covers w lo hi) then fail NoRegion
  else if any (fun r => a_overlaps lo hi r && negb (Access_contains (a_ceiling r) access)) (v_active w) then fail WidenDenied
  else
    g ← grows;
    next ← lift (ActiveRange_split bit g (v_active w) lo hi (Some access));
    pages ← window_pages w lo hi;
    borrowed ← on_flat (is_borrowed (range_flat (v_source w)));
    try_reserve ;;
    vas ← on_tables (touch_loop w borrowed pages);
    rewrite_rights (sel_view sel) w ((fun va => (va, access)) <$> vas) next.

Definition set_access (sel : ViewRange) (access : Z) : NM unit :=
  if negb (is_leaf_set access) then fail NNotAligned
  else set_access_locked sel access ;; finish_invalidation.

Definition narrow_locked (sel : ViewRange) (ceiling : Z) : NM unit :=
  w ← get_view (sel_view sel);
  let '(lo, hi) := sel_window w sel in
  ready_state ;;
  ensure_owned w ;;
  w ← get_view (sel_view sel);
  if negb (covers w lo hi) then fail NoRegion
  else
    g ← grows;
    next ← lift (ActiveRange_narrow bit g (v_active w) lo hi ceiling);
    pages ← window_pages w lo hi;
    borrowed ← on_flat (is_borrowed (range_flat (v_source w)));
    try_reserve ;;
    updates ← on_tables (narrow_pages w borrowed next pages);
    rewrite_rights (sel_view sel) w updates next.

Definition narrow (sel : ViewRange) (ceiling : Z) : NM unit :=
  narrow_locked sel ceiling ;; finish_invalidation.

(** ** Withdrawing *)

Fixpoint owed_loop (strict : bool) (hi floor : Z) (owned : list (Z * Z)) : result NestError (list (Z * Z)) :=
  match owned with
  | [] => if strict then Err NoRegion else Ok []
  | (start, last) :: owned =>
      if last <? floor then owed_loop strict hi floor owned
      else if (floor <? start) && strict then Err NoRegion
      else
        let floor := Z.max floor start in
        let span := (VirtAddr_from_raw bit floor, last - floor + 1) in
        if hi <=? last then Ok [span]
        else rest ← owed_loop strict hi (last + 1) owned; Ok (span :: rest)
  end.

Definition by_start (a b : Z * Z) : Prop := a.1 <= b.1.
#[local] Instance by_start_dec a b : Decision (by_start a b).
Proof. unfold by_start. apply _. Defined.

(** Parts of the window that the view still owes: active, or retired and not yet
    settled. *)
Definition owed_spans (sel : ViewRange) : NM (list (Z * Z)) :=
  w ← get_view (sel_view sel);
  let '(lo, hi) := sel_window w sel in
  try_reserve ;;
  let live := omap (fun r => a_intersection r lo hi) (v_active w) in
  ret ← on_occ (retired_of (res_gen (v_res w)));
  let gone := omap (fun x => if Z.max x.1.1 lo <=? Z.min x.1.2 hi then Some (Z.max x.1.1 lo, Z.min x.1.2 hi) else None) ret in
  try_reserve ;;
  lift (owed_loop (is_pages sel) hi lo (merge_sort by_start (live ++ gone))).

(** Tickets for the pieces: an old one where there is one. *)
Fixpoint retire_pieces (gen : Z) (l : list (Z * Z * Z)) : OC (list Z) :=
  match l with
  | [] => mret []
  | (lo, hi, tk) :: l =>
      t ← (if tk =? 0 then retire lo hi gen else mret tk);
      rest ← retire_pieces gen l;
      mret (t :: rest)
  end.

(** The critical section of [withdraw]; the tickets to settle afterwards. *)
Definition withdraw_locked (v start len : Z) : NM (list Z) :=
  w ← get_view v;
  let gen := res_gen (v_res w) in
  last ← lift (ok_or (checked_add start (len - 1)) NNotAligned);
  pieces ← on_occ (pieces start last gen);
  on_occ reserve_cuts ;;
  try_reserve ;;
  s ← get;
  if is_closed s then fail NoRegion
  else if negb (is_clean (ns_invalidation (ns s))) then fail Shootdown
  else
    ensure_owned w ;;
    g ← grows;
    next ← lift (ActiveRange_split bit g (v_active w) start last None);
    first_page ← expect (page_index w start);
    last_page ← expect (page_index w (VirtAddr_from_raw bit last));
    node ← (if bool_decide (next = []) then mret None
            else node ← lift (IndexNode_with_ranges v next); try_reserve ;; mret (Some node));
    try_reserve ;;
    try_reserve ;;
    try_reserve ;;
    on_tables (prepare_geometry geo start len ;; reserve_retired_tables) ;;
    tickets ← on_occ (retire_pieces gen pieces);
    on_tables (unmap_prepared_geometry geo start len ;; reclaim_empty_tables geo) ;;
    push_pending v ;;
    let inside p := (first_page <=? p.1) && (p.1 <=? last_page) in
    modify_ns (fun n => with_frames (ns_retired_frames n ++ reverse (snd <$> retain inside (v_published w))) n) ;;
    put_view v (set_active next (set_published (retain (fun p => negb (inside p)) (v_published w)) w)) ;;
    s ← get;
    x ← expect (Index_remove (store s) v (ns_index (ns s)));
    i ← (match node with Some node => expect (Index_insert (store s) node x.1) | None => mret x.1 end);
    modify_ns (with_index i) ;;
    modify_ns (fun n => with_retirement (ns_retirement n ++ tickets) n) ;;
    mark_dirty ;;
    mret tickets.

(** After the shootdown: the tickets are taken back, first from the list of those
    that wait, then from the table. *)
Definition settle_tickets (tickets : list Z) : NM unit :=
  modify_ns (fun n => with_retirement (retain (fun t => negb (any (fun u => u =? t) tickets)) (ns_retirement n)) n) ;;
  iter (fun t => on_occ (reclaim t)) tickets.

Definition withdraw (v start len : Z) : NM unit :=
  if (len =? 0) || negb (VirtAddr_offset start =? 0) || negb (len mod PAGE_SIZE =? 0) then fail NNotAligned
  else
    lift (ok_or (checked_add start (len - 1)) NNotAligned) ≫= fun _ =>
    ready_state ;;
    tickets ← withdraw_locked v start len;
    finish_invalidation ;;
    settle_tickets tickets.

Definition detach_view (sel : ViewRange) : NM unit :=
  w ← get_view (sel_view sel);
  check_owner (v_res w) ;;
  s ← get;
  if is_closed s then fail NoRegion
  else
    (if is_clean (ns_invalidation (ns s)) then mret tt else finish_invalidation) ;;
    spans ← owed_spans sel;
    iter (fun x => withdraw (sel_view sel) x.1 x.2) spans.

Definition dispose (v : Z) : NM unit :=
  w ← get_view v;
  check_owner (v_res w) ;;
  found ← on_occ (take_cleanup (res_gen (v_res w)));
  if (found : bool) then on_err (detach_view (Whole v)) (enqueue_cleanup v)
  else detach_view (Whole v).

(** ** Retrying *)

Fixpoint retry_loop (fuel : nat) : NM unit :=
  match fuel with
  | O => panic
  | S fuel =>
      x ← next_cleanup;
      match x with
      | None => mret tt
      | Some v =>
          catch (detach_view (Whole v)) (fun r =>
            match r with
            | Ok _ => retry_loop fuel
            | Err e =>
                enqueue_cleanup v ;;
                s ← get;
                if is_closed s then drain_closed else fail e
            end)
      end
  end.

Definition retry_invalidation : NM unit :=
  finish_invalidation ;;
  s ← get;
  if is_closed s then drain_closed
  else
    let tickets := ns_retirement (ns s) in
    modify_ns (with_retirement []) ;;
    iter (fun t => on_occ (reclaim t)) tickets ;;
    s ← get;
    retry_loop (S (length (cleanup s))).

(** ** Closing *)

Definition views_of (s : Nest) : list Z := Index_collect [] (ns_index (ns s)).
Definition ranges_of (ws : list View) : list (Z * Z) := flat_map (fun w => (fun r => (a_start r, a_size r)) <$> v_active w) ws.

Fixpoint get_views (l : list Z) : NM (list View) :=
  match l with [] => mret [] | v :: l => w ← get_view v; ws ← get_views l; mret (w :: ws) end.

Definition clear_view (v : Z) : NM unit :=
  push_pending v ;;
  w ← get_view v;
  modify_ns (fun n => with_frames (ns_retired_frames n ++ (snd <$> v_published w)) n) ;;
  put_view v (set_active [] (set_published [] w)).

Definition close_locked : NM unit :=
  s ← get;
  try_reserve ;;
  let vs := views_of s in
  ws ← get_views vs;
  try_reserve ;;
  try_reserve ;;
  on_tables (
    each (fun r => prepare_geometry geo r.1 r.2) (ranges_of ws) ;;
    reserve_retired_tables ;;
    each (fun r => unmap_keep_tables_geometry geo r.1 r.2) (ranges_of ws) ;;
    reclaim_empty_tables geo) ;;
  iter clear_view vs ;;
  modify_ns (fun n => with_index (Index_clear (ns_index n)) n) ;;
  mark_dirty ;;
  modify_ns (with_phase Closing).

(** Waits until the space is clean; [false] if it was closed meanwhile. *)
Fixpoint close_ready (fuel : nat) : NM bool :=
  match fuel with
  | O => panic
  | S fuel =>
      s ← get;
      if is_closed s then drain_closed ;; mret false
      else if is_clean (ns_invalidation (ns s)) then mret true
      else finish_invalidation ;; close_ready fuel
  end.

Definition close : NM unit :=
  s ← get;
  if is_kernel s then fail Pinned
  else
    open ← close_ready 2;
    if (open : bool) then close_locked ;; finish_invalidation ;; drain_closed else mret tt.

(** [retire], with [identity::deallocate]. *)
Definition retire_space : NM unit :=
  close ;;
  s ← get;
  if asid_released s then mret tt
  else
    ok ← shootdown;
    if (ok : bool) then modify (set_released true) else fail Shootdown.

(** ** Taking one page out for a transfer ([unpublish.rs]) *)

Definition unpublish_locked (v address expected : Z) : NM bool :=
  s ← get;
  if negb (is_clean (ns_invalidation (ns s))) then fail Shootdown
  else
    w ← get_view v;
    page ← expect (page_index w address);
    match position (fun p => p.1 =? page) (v_published w) with
    | None => mret false
    | Some at_ =>
        if is_closed s then fail Pinned
        else
          p ← expect (v_published w !! at_);
          assert_that (p.2 =? expected) ;;
          assert_that (covers w address address) ;;
          try_reserve ;;
          try_reserve ;;
          on_tables (prepare_geometry geo address PAGE_SIZE ;; reserve_retired_tables) ;;
          on_tables (unmap_prepared_geometry geo address PAGE_SIZE ;; reclaim_empty_tables geo) ;;
          push_pending v ;;
          put_view v (set_published (remove_at at_ (v_published w)) w) ;;
          modify_ns (fun n => with_frames (ns_retired_frames n ++ [p.2]) n) ;;
          mark_dirty ;;
          mret true
    end.

Definition unpublish_page (v address expected : Z) : NM unit :=
  s ← get;
  w ← get_view v;
  if is_kernel s || is_global w then fail Pinned
  else
    assert_that (VirtAddr_offset address =? 0) ;;
    assert_that (res_nest (v_res w) =? self s) ;;
    finish_invalidation ;;
    changed ← unpublish_locked v address expected;
    if (changed : bool) then finish_invalidation else mret tt.

(** ** Reading and writing through the space *)

Definition translate_address (address : Z) : NM (option (Z * Z)) :=
  catch ready_state (fun r =>
    match r with
    | Err _ => mret None
    | Ok _ =>
        s ← get;
        match Index_find (store s) address (ns_index (ns s)) with
        | None => mret None
        | Some _ =>
            walk ← expect (walk_ref_geometry geo address (ns_root (ns s)));
            mret match walk with
                 | Err _ => None
                 | Ok (pa, flags) => Some (pa + VirtAddr_offset address, flags)
                 end
        end
    end).

(** One page of the check of [access_range]: [Some (Some pa)] where it passes. *)
Definition check_page (need : Z) (s : Nest) (at_ : Z) : option (option Z) :=
  match Index_find (store s) at_ (ns_index (ns s)) with
  | None => Some None
  | Some v =>
      w ← nest_views s !! v;
      match range_at (v_active w) at_ with
      | None => Some None
      | Some r =>
          walk ← walk_ref_geometry geo (VirtAddr_page_align at_) (ns_root (ns s));
          Some match walk with
          | Err _ => None
          | Ok (pa, hardware) =>
              if negb (Access_contains (a_current r) need)
                 || negb (contains_flags hardware (Z.lor (Access_to_pte need) PTE_V))
                 || contains_flags hardware PTE_G
                 || negb (is_supervisor (kind s)) && negb (contains_flags hardware PTE_U)
              then None else Some pa
          end
      end
  end.

(** The pages of the range with the bytes of each: physical address and count. *)
Fixpoint access_pages (need : Z) (s : Nest) (fuel : nat) (at_ left_ : Z) : option (option (list (Z * Z))) :=
  match fuel with
  | O => None
  | S fuel =>
      if left_ <=? 0 then Some (Some [])
      else
        x ← check_page need s at_;
        match x with
        | None => Some None
        | Some pa =>
            let within := Z.land at_ (PAGE_SIZE - 1) in
            let count := Z.min (PAGE_SIZE - within) left_ in
            rest ← access_pages need s fuel (at_ + count) (left_ - count);
            Some match rest with Some l => Some ((pa + within, count) :: l) | None => None end
        end
  end.

Definition access_rounds (size : Z) : nat := (2 + Z.to_nat (size / PAGE_SIZE + 1))%nat.

(** [access_range]: the check of all pages comes before the first byte. *)
Definition access_range (start size need : Z) : NM (option (list (Z * Z))) :=
  match checked_add start size with
  | None => mret None
  | Some _ =>
      catch ready_state (fun r =>
        match r with
        | Err _ => mret None
        | Ok _ => s ← get; expect (access_pages need s (access_rounds size) start size)
        end)
  end.

Definition check_access (start size need : Z) : NM bool :=
  x ← access_range start size need; mret (bool_decide (is_Some x)).

Definition byte_addresses (l : list (Z * Z)) : list Z := flat_map (fun x => seqZ x.1 x.2) l.

(** [copy_from] and [copy_to]: the bytes, one at a time. *)
Definition copy_from (start size need : Z) : NM (option (list Z)) :=
  x ← access_range start size need;
  s ← get;
  mret ((fun l => (fun a => default 0 (mem s !! a)) <$> byte_addresses l) <$> x).

Definition copy_to (start : Z) (src : list Z) (need : Z) : NM bool :=
  x ← access_range start (len src) need;
  match x with
  | None => mret false
  | Some l =>
      modify (fun s => set_mem (fold_left (fun m p => <[p.1 := p.2]> m) (zip (byte_addresses l) src) (mem s)) s) ;;
      mret true
  end.

(** ** Page faults *)

Definition satisfies (flags : Z) (k : FaultKind) : bool :=
  contains_flags flags (Z.lor PTE_V match k with Instruction => PTE_X | Load => PTE_R | FaultKind_Store => PTE_W end).
Definition satisfies_access (access : Z) (k : FaultKind) : bool :=
  Access_contains access match k with Instruction => EXECUTE | Load => READ | FaultKind_Store => WRITE end.

Definition probe_fault (address : Z) (k : FaultKind) : NM FaultOutcome :=
  s ← get;
  if negb (is_clean (ns_invalidation (ns s))) then mret Materialize
  else match Index_find (store s) address (ns_index (ns s)) with
  | None => mret Invalid
  | Some v =>
      w ← get_view v;
      match range_at (v_active w) address with
      | None => mret Invalid
      | Some r =>
          if negb (satisfies_access (a_current r) k) then mret Invalid
          else
            let page := VirtAddr_page_align address in
            offset ← expect (page_index w page);
            catch (on_flat (FlatRange_can_materialize (v_source w) offset)) (fun r =>
              match r with
              | Err _ => mret Invalid
              | Ok false => mret (Wait (identity w))
              | Ok true =>
                  s ← get;
                  walk ← expect (walk_ref_geometry geo page (ns_root (ns s)));
                  mret match walk with
                       | Ok (_, flags) => if satisfies flags k then Resolved else Materialize
                       | Err _ => Materialize
                       end
              end)
      end
  end.

Definition materialize_page (address : Z) : NM unit :=
  s ← get;
  v ← lift (ok_or (Index_find (store s) address (ns_index (ns s))) NoRegion);
  w ← get_view v;
  offset ← expect (page_index w (VirtAddr_page_align address));
  part ← lift (ViewRange_pages v w offset 1);
  materialize_active part.

Definition resolve_fault (address : Z) (k : FaultKind) : NM FaultOutcome :=
  s ← get;
  (if is_clean (ns_invalidation (ns s)) then mret tt else retry_invalidation) ;;
  o ← probe_fault address k;
  (match o with
   | Materialize =>
       catch (materialize_page address) (fun r =>
         match r with
         | Ok _ | Err NBusy | Err NMissing | Err NoRegion => mret tt
         | Err e => fail e
         end)
   | _ => mret tt
   end) ;;
  probe_fault address k.
End nest.
