(* ===== verification/NestFlat.v ===== *)
(** * Address spaces: what they ask of the sources of pages

    The calls an address space makes on its sources ([reside], [materialize],
    [materialized], [physical]) as steps of the space: they keep the invariant of
    the sources, the extent and kind of every source, and hand out frames that are
    physical pages. *)

From stdpp Require Import sorting.
From S2P Require Import Prelude.
From S2P Require Import Table.
From S2P Require Import PagingInv.
From S2P Require Import Flat.
From S2P Require Import Transaction.
From S2P Require Import FlatInv.
From S2P Require Import FlatSteps.
From S2P Require Import FlatSystem.
From S2P Require Import Occupancy.
From S2P Require Import Active.
From S2P Require Import Index.
From S2P Require Import Paging.
From S2P Require Import PagingRuns.
From S2P Require Import View.
From S2P Require Import ViewInv.
From S2P Require Import Nest.

Open Scope Z_scope.

(** ** Extents and frames *)

(** The page count of a source, and its region where it is borrowed. *)
Definition geom (w : Flat.World) (id : nat) : option (Z * option BorrowedRegion) :=
  (fun fl => (page_count fl, match Flat.source (Flat.state fl) with Borrowed r => Some r | Managed _ => None end)) <$> flats w !! id.

Definition same_geom (w w' : Flat.World) : Prop := forall id g, geom w id = Some g -> geom w' id = Some g.

#[global] Instance same_geom_preorder : PreOrder same_geom.
Proof. split; [by intros w id g|]. intros a b c H1 H2 id g H. by apply H2, H1. Qed.

Lemma erase_geom w w' : erase <$> flats w' = erase <$> flats w -> same_geom w w'.
Proof.
  intros E id g Hg. unfold geom in *. apply fmap_Some in Hg as (fl & Hfl & ->). destruct (erase_lookup w w' id fl E Hfl) as (fl' & -> & Ee).
  simpl. f_equal. rewrite (erase_pages _ _ Ee). f_equal. unfold erase in Ee.
  destruct (Flat.source (Flat.state fl)) eqn:E1, (Flat.source (Flat.state fl')) eqn:E2; try done; subst; simpl in *; congruence.
Qed.

(** Frames and regions lie in physical memory. *)
Record grounded (w : Flat.World) : Prop := {
  ft_pool : forall f, f ∈ pool w -> page_ok f;
  ft_slot : forall i p f, holds w i p f -> page_ok f;
  ft_region : forall id count r, geom w id = Some (count, Some r) ->
    0 <= region_start r /\ region_start r mod 4096 = 0 /\ region_start r + count * 4096 <= 2 ^ 56
}.

Definition sound (w : Flat.World) (hs : list Residency) : Prop := (exists txs, CInv (mkConf txs hs w)) /\ grounded w.

(** [w'] has the sources of [w] with all their pages. *)
Record tended (w w' : Flat.World) : Prop := {
  te_geom : same_geom w w';
  te_slot : forall i p x, slot_at w i p = Some x -> slot_at w' i p = Some x;
  te_fits : grounded w -> grounded w'
}.

#[global] Instance tended_preorder : PreOrder tended.
Proof. split; [by split|]. intros a b c [A1 A2 A3] [B1 B2 B3]. split; [by etransitivity|auto..]. Qed.

(** The pages of [w'] are those of [w], or come from the pool. *)
Lemma tended_slots w w' :
  (forall id, geom w' id = geom w id) -> (forall f, f ∈ pool w' -> f ∈ pool w) ->
  (forall i p x, slot_at w i p = Some x -> slot_at w' i p = Some x) ->
  (forall i p f, holds w' i p f -> holds w i p f \/ f ∈ pool w) -> tended w w'.
Proof.
  intros E1 E2 E4 E3. split; [intros id g; by rewrite E1|done|]. intros [F1 F2 F3]. split; [eauto| |].
  - intros i p f [H|H]%E3; eauto.
  - intros id c r. rewrite E1. apply F3.
Qed.

Lemma tended_same w w' : flats w' = flats w -> pool w' = pool w -> tended w w'.
Proof.
  intros E1 E2. apply tended_slots; [intros id; unfold geom; by rewrite E1|by rewrite E2|intros i p x; unfold slot_at, slots_in; by rewrite E1|].
  intros i p f Hf. left. revert Hf. unfold holds, slot_at, slots_in. by rewrite E1.
Qed.

Lemma tended_state w id fl st :
  flats w !! id = Some fl -> Flat.source st = Flat.source (Flat.state fl) ->
  tended w (Flat.set_flats (<[id := mkFlat (page_count fl) st]> (flats w)) w).
Proof.
  intros Hfl Hs. apply tended_slots; [|done|intros i p x; by rewrite set_state_slot|].
  - intros j. unfold geom, Flat.set_flats. simpl. destruct (decide (j = id)) as [->|]; [|by rewrite list_lookup_insert_ne].
    rewrite list_lookup_insert_eq by by eapply lookup_lt_Some. rewrite Hfl. simpl. by rewrite Hs.
  - intros i p f Hf. left. revert Hf. unfold holds. by rewrite !set_state_slot.
Qed.

Lemma tended_fills w w' id lo hi : fills w w' id lo hi -> tended w w'.
Proof.
  intros [K N P E _ _]. apply tended_slots.
  - intros j. destruct (geom w j) as [g|] eqn:Hg; [by eapply erase_geom|].
    destruct (geom w' j) as [g|] eqn:Hg'; [|done]. rewrite <- Hg. symmetry. by apply (erase_geom w' w (eq_sym E)) in Hg'.
  - intros f Hf. destruct P as [l ->]. apply elem_of_app. by right.
  - exact K.
  - intros i p f Hf. unfold holds in *. destruct (slot_at w i p) as [sl|] eqn:Hs; [left; by rewrite (K _ _ _ Hs) in Hf|].
    right. destruct (N i p Hs) as (_ & _ & g & Hg & Hr); [destruct Hf as [->|[x ->]]; done|].
    destruct Hf as [Hf|[x Hf]]; congruence.
Qed.

(** ** Each call *)

Section calls.
Context (txs : list Transaction).

Lemma reside_tended hs w r :
  CInv (mkConf txs hs w) -> wf_range w r ->
  exists x w', reside r w = Some (x, w') /\ tended w w' /\ (forall i p, slot_at w' i p = slot_at w i p) /\
    match x with
    | Ok h => hold_range h = r /\ CInv (mkConf txs (h :: hs) w')
    | Err e => CInv (mkConf txs hs w')
    end.
Proof using.
  intros HC Hr. pose proof Hr as (fl & Hfl & _). destruct (reside_keeps _ r HC Hr) as (c' & Hrun & HC' & _).
  unfold run in Hrun. simpl in Hrun. pose proof (inv_wf _ _ (ci_inv _ HC)) as Hwf. simpl in Hwf.
  destruct (reside_run w r fl Hwf Hfl) as (h & [[E _]|[[E _]|(E & _)]]); rewrite E in *; simplify_eq; simpl in *.
  - eexists _, _. split; [reflexivity|]. split; [reflexivity|]. by split.
  - eexists _, _. split; [reflexivity|]. split; [by apply tended_same|]. split; [|done]. intros i p. apply set_heap_slot.
  - eexists _, _. split; [reflexivity|]. split; [|split; [|done]].
    + etransitivity; [apply (tended_same w (Flat.set_heap h w)); done|]. by apply tended_state.
    + intros i p. unfold resided. rewrite set_state_slot by done. apply set_heap_slot.
Qed.

Lemma release_tended w h l1 l2 :
  CInv (mkConf txs (l1 ++ h :: l2) w) ->
  exists w', release_residency (E := FlatError) (range_flat (hold_range h)) (hold_id h) w = Some (Ok tt, w') /\
    tended w w' /\ (forall i p, slot_at w' i p = slot_at w i p) /\ CInv (mkConf txs (l1 ++ l2) w').
Proof using.
  intros HC. assert (Hn : FlatSystem.held (mkConf txs (l1 ++ h :: l2) w) !! length l1 = Some h) by (simpl; by rewrite list_lookup_middle).
  destruct (release_keeps _ (length l1) h HC Hn) as (c' & Hrun & HC' & _). unfold run in Hrun. simpl in Hrun.
  destruct (ci_held _ HC h) as [[fl Hfl] He]; [simpl; apply elem_of_app; right; by constructor|]. simpl in Hfl.
  pose proof (inv_wf _ _ (ci_inv _ HC)) as Hwf. simpl in Hwf.
  rewrite (res_in_Some _ _ fl) in He by done. destruct (release_run (E := FlatError) w _ fl (entry h) Hwf Hfl He) as (i & Hi & E).
  change (res_id (entry h)) with (hold_id h) in E. rewrite E in *. simplify_eq. eexists. split; [reflexivity|]. split_and!.
  - by apply tended_state.
  - intros j p. unfold released. by rewrite set_state_slot.
  - unfold remove_at in HC'. by rewrite take_app_length, drop_app_ge, Nat.sub_succ_l, Nat.sub_diag in HC' by lia.
Qed.

Lemma materialize_tended hs w r :
  CInv (mkConf txs hs w) -> wf_range w r ->
  exists x w', FlatRange_materialize r w = Some (x, w') /\ tended w w' /\
    (forall i p s, slot_at w i p = Some s -> slot_at w' i p = Some s) /\
    match x with
    | Ok h => hold_range h = r /\ CInv (mkConf txs (h :: hs) w') /\
        (is_Some (slots_in w (range_flat r)) -> forall q, range_index r <= q < range_index r + range_count r ->
          exists f, slot_at w' (range_flat r) q = Some (Resident f))
    | Err e => CInv (mkConf txs hs w')
    end.
Proof using.
  intros HC Hr. destruct (reside_tended hs w r HC Hr) as (x & w1 & E1 & T1 & S1 & P1). unfold FlatRange_materialize, mbind at 1, M_bind at 1. rewrite E1.
  destruct x as [h|e]; [|eexists _, _; split; [reflexivity|]; split_and!; [done|intros; by rewrite S1|done]].
  destruct P1 as [Hh HC1]. destruct Hr as (fl & Hfl & Hi & Hc & Hle).
  assert (exists fl1, flats w1 !! range_flat r = Some fl1) as [fl1 Hfl1].
  { destruct (ci_held _ HC1 h) as [[fl1 H1] _]; [by left|]. exists fl1. by rewrite <- Hh. }
  destruct (materialize_range_run txs w1 (range_flat r) (range_index r) (range_count r) fl1) as (y & w2 & E2 & I2 & F2 & P2);
    [apply HC1|done|lia|lia|].
  pose proof (fills_CInv _ _ _ _ _ HC1 I2 F2) as HC2. simpl in HC2. pose proof (tended_fills _ _ _ _ _ F2) as T2.
  unfold on_err, mbind at 1, M_bind at 1. rewrite E2. destruct y as [u|e].
  - eexists _, _. split; [reflexivity|]. split_and!; [by etransitivity| |done|done|].
    + intros i p s Hs. apply (fi_kept _ _ _ _ _ F2). by rewrite S1.
    + intros [sl Hsl]. apply P2. unfold slots_in in *. rewrite Hfl in Hsl. simpl in Hsl. rewrite Hfl1. simpl.
      assert (Hg : geom w (range_flat r) = Some (page_count fl, None)) by (unfold geom; rewrite Hfl; simpl; by destruct (Flat.source (Flat.state fl))).
      apply (te_geom _ _ T1) in Hg. unfold geom in Hg. rewrite Hfl1 in Hg. simpl in Hg. destruct (Flat.source (Flat.state fl1)); [eauto|simplify_eq].
  - destruct (release_tended w2 h [] hs HC2) as (w3 & E3 & T3 & S3 & HC3). rewrite Hh in E3. unfold mbind, M_bind. rewrite E3.
    eexists _, _. split; [reflexivity|]. split_and!; [by etransitivity; [|etransitivity]| |done].
    intros i p s Hs. rewrite S3. apply (fi_kept _ _ _ _ _ F2). by rewrite S1.
Qed.

Lemma mark_tended hs w id :
  CInv (mkConf txs hs w) -> is_Some (geom w id) ->
  exists w', mark_untransferable (E := FlatError) id w = Some (Ok tt, w') /\ tended w w' /\
    (forall i p, slot_at w' i p = slot_at w i p) /\ CInv (mkConf txs hs w').
Proof using.
  intros HC [g Hg]. unfold geom in Hg. apply fmap_Some in Hg as (fl & Hfl & ->).
  destruct (mark_keeps (mkConf txs hs w) id fl HC Hfl) as (c' & Hrun & HC' & _). unfold run in Hrun. simpl in Hrun. revert Hrun.
  unfold mark_untransferable, state_of, put_state, flat_of. munfold. rewrite Hfl. munfold. rewrite Hfl. intros Hrun. simplify_eq/=.
  eexists. split; [reflexivity|]. split_and!; [by apply tended_state| |done]. intros i p. by rewrite set_state_slot.
Qed.
End calls.

(** ** Calls that only read *)

Lemma is_borrowed_run w id c o :
  geom w id = Some (c, o) -> is_borrowed (E := FlatError) id w = Some (Ok (bool_decide (is_Some o)), w).
Proof.
  intros Hg. unfold geom in Hg. apply fmap_Some in Hg as (fl & Hfl & ?). simplify_eq.
  unfold is_borrowed, state_of, flat_of. munfold. rewrite Hfl. by destruct (Flat.source (Flat.state fl)).
Qed.

Lemma geom_range w r : wf_range w r -> exists c o, geom w (range_flat r) = Some (c, o) /\ 0 <= range_index r /\ 0 < range_count r /\ range_index r + range_count r <= c.
Proof. intros (fl & Hfl & H). unfold geom. rewrite Hfl. simpl. eauto. Qed.

Lemma range_geom w r c o : geom w (range_flat r) = Some (c, o) -> 0 <= range_index r -> 0 < range_count r -> range_index r + range_count r <= c -> wf_range w r.
Proof. intros Hg ???. unfold geom in Hg. apply fmap_Some in Hg as (fl & Hfl & ?). simplify_eq. by exists fl. Qed.

Lemma wf_range_tended w w' r : tended w w' -> wf_range w r -> wf_range w' r.
Proof. intros T (c & o & Hg & ?)%geom_range. by eapply range_geom; [by apply T| | |]; try lia. Qed.

(** The page count of a source is a [usize]. *)
Lemma geom_bound hs w id c o : sound w hs -> geom w id = Some (c, o) -> 0 < c <= usize_MAX.
Proof.
  intros [[txs HC] _] Hg. unfold geom in Hg. apply fmap_Some in Hg as (fl & Hfl & ?). simplify_eq.
  eapply wf_pages, Forall_lookup_1; [apply (inv_wf _ _ (ci_inv _ HC))|done].
Qed.

Lemma physical_run hs w r i c reg :
  sound w hs -> wf_range w r -> geom w (range_flat r) = Some (c, Some reg) -> 0 <= i < range_count r ->
  FlatRange_physical r i w = Some (Ok (region_start reg + (range_index r + i) * 4096), w).
Proof.
  intros HS Hr Hg Hi. pose proof (geom_bound _ _ _ _ _ HS Hg) as Hc. destruct (geom_range _ _ Hr) as (c' & o & Hg' & H0 & H1 & H2). simplify_eq.
  destruct HS as [_ HF]. destruct (ft_region _ HF _ _ _ Hg) as (F1 & F2 & F3). pose proof Hg as Hg'. unfold geom in Hg'. apply fmap_Some in Hg' as (fl & Hfl & ?).
  assert (Hm : 2 ^ 56 <= usize_MAX) by done.
  unfold FlatRange_physical, page_at. rewrite (proj2 (Z.leb_gt _ _)) by lia. unfold checked_add. 
  unfold physical_at, flat_of. destruct (Flat.source (Flat.state fl)) eqn:Es; [done|]. simplify_eq. rewrite checked_in by lia. munfold. rewrite Hfl. munfold.
  rewrite (proj2 (Z.leb_gt _ _)) by lia. rewrite Es. munfold. unfold checked_mul, checked_add. change PAGE_SIZE with 4096. rewrite checked_in by lia. munfold. rewrite checked_in by lia. done.
Qed.

(** A part of a range. *)
Lemma range_run hs w r off count :
  sound w hs -> wf_range w r -> 0 <= off -> 0 < count ->
  exists x, FlatRange_range r off count w = Some (x, w) /\
    match x with
    | Ok p => p = Flat.mkRange (range_flat r) (range_index r + off) count /\ wf_range w p /\ off + count <= range_count r
    | Err e => e = OutOfRange /\ range_count r < off + count
    end.
Proof.
  intros HS Hr H0 H1. destruct (geom_range _ _ Hr) as (c & o & Hg & I0 & I1 & I2). pose proof (geom_bound _ _ _ _ _ HS Hg) as Hc.
  unfold FlatRange_range, checked_add. destruct (checked (off + count)) as [e|] eqn:Ee.
  2: { munfold. eexists. split; [reflexivity|]. split; [done|]. apply checked_None in Ee. rewrite usize_iff in Ee. lia. }
  apply checked_Some in Ee as [<- _]. munfold. destruct (Z.ltb_spec (range_count r) (off + count)); [eexists; split; [reflexivity|]; done|].
  rewrite checked_in by lia. munfold. unfold Flat_range, flat_of. pose proof Hg as Hg'. unfold geom in Hg'. apply fmap_Some in Hg' as (fl & Hfl & ?). simplify_eq.
  munfold. rewrite Hfl. munfold. unfold check_window, checked_add. rewrite checked_in by lia. simpl.
  rewrite (proj2 (Z.ltb_ge _ _)) by lia. simpl. eexists. split; [reflexivity|]. split_and!; [done| |done]. exists fl. simpl. split_and!; [done|lia..].
Qed.

(** The table of a source with frames. *)
Lemma geom_table hs w id c :
  sound w hs -> geom w id = Some (c, None) -> exists fl sl, flats w !! id = Some fl /\ Flat.source (Flat.state fl) = Managed sl /\
    page_count fl = c /\ sorted sl /\ forall p, slot_at w id p = tmap sl !! p.
Proof.
  intros [[txs HC] _] Hg. unfold geom in Hg. apply fmap_Some in Hg as (fl & Hfl & ?).
  destruct (Flat.source (Flat.state fl)) as [sl|] eqn:Es; simplify_eq. exists fl, sl. split_and!; [done..| |].
  - by eapply wf_state_sorted; [apply (inv_wf _ _ (ci_inv _ HC))|..].
  - intros p. by apply slot_at_state with fl.
Qed.

Lemma can_materialize_run hs w r i :
  sound w hs -> wf_range w r -> 0 <= i ->
  exists x, FlatRange_can_materialize r i w = Some (x, w).
Proof.
  intros HS Hr Hi. destruct (geom_range _ _ Hr) as (c & o & Hg & I0 & I1 & I2).
  unfold FlatRange_can_materialize. destruct (page_at r i) as [p|e]; munfold; [|eauto]. unfold can_materialize, flat_of. munfold.
  assert (exists fl, flats w !! range_flat r = Some fl) as [fl Hfl] by (destruct Hr as (fl & ? & _); eauto). rewrite Hfl. munfold.
  destruct (_ <=? p); munfold; [eauto|]. destruct (Flat.source (Flat.state fl)) as [sl|] eqn:Es; munfold; [|eauto].
  destruct (spot sl p) as [at_ []] eqn:Ep; munfold; [|eauto].
  destruct (spot_true sl p at_) as (x & -> & _); [|done|eauto].
  destruct HS as [[txs HC] _]. by eapply wf_state_sorted; [apply (inv_wf _ _ (ci_inv _ HC))|..].
Qed.

Definition resident_page (index : Z) (s : Z * Flat.Slot) : option (Z * Z) := match s.2 with Resident f => Some (s.1 - index, f) | _ => None end.

Lemma resident_sorted index l : sorted l -> by_page (omap (resident_page index) l).
Proof.
  induction l as [|[p sl] l IH]; intros Hs; [by constructor|]. apply StronglySorted_inv in Hs as [Hs Hlt]. specialize (IH Hs). simpl.
  unfold resident_page at 1. simpl. destruct sl; try done. constructor; [done|]. apply Forall_forall. intros [q g] Hq.
  apply list_elem_of_omap in Hq as ([q' sl] & Hq & E). rewrite Forall_forall in Hlt. specialize (Hlt _ Hq).
  unfold resident_page, key_lt in *. simpl in *. destruct sl; simplify_eq. simpl. lia.
Qed.

(** The frames of a range, by page. *)
Lemma materialized_run hs w r c :
  sound w hs -> wf_range w r -> geom w (range_flat r) = Some (c, None) ->
  exists x w', materialized (range_flat r) (range_index r) (range_count r) w = Some (x, w') /\
    tended w w' /\ (forall i p, slot_at w' i p = slot_at w i p) /\ sound w' hs /\
    match x with
    | Ok fs => by_page fs /\ Forall (fun p => 0 <= p.1 < range_count r /\ page_ok p.2) fs /\
        forall i f, frame_of fs i = Some f <-> slot_at w (range_flat r) (range_index r + i) = Some (Resident f) /\ 0 <= i < range_count r
    | Err e => e = OutOfMemory
    end.
Proof.
  intros HS Hr Hg. destruct (geom_range _ _ Hr) as (c' & o & Hg' & I0 & I1 & I2). simplify_eq. pose proof (geom_bound _ _ _ _ _ HS Hg) as Hc.
  destruct (geom_table _ _ _ _ HS Hg) as (fl & sl & Hfl & Es & Ec & Hsl & Hat).
  unfold materialized, flat_of. munfold. rewrite Hfl. munfold. unfold check_window, checked_add. rewrite checked_in by lia. simpl.
  rewrite (proj2 (Z.ltb_ge _ _)) by lia. simpl. rewrite Es. munfold.
  assert (Hq : forall h, sound (Flat.set_heap h w) hs).
  { intros h. destruct HS as [[txs HC] [F1 F2 F3]]. split; [|by split]. exists txs. apply (CInv_quiet _ _ HC), quiet_heap. }
  destruct (try_reserve_run OutOfMemory w) as [h [E|E]]; rewrite E; eexists _, _; (split; [reflexivity|]);
    (split; [by apply tended_same|]); (split; [intros; apply set_heap_slot|]); (split; [apply Hq|]); [|done].
  set (fs := omap _ _). assert (Hby : by_page fs) by apply (resident_sorted (range_index r)), window_sorted, Hsl.
  assert (Hin : forall i f, (i, f) ∈ fs <-> slot_at w (range_flat r) (range_index r + i) = Some (Resident f) /\ 0 <= i < range_count r).
  { intros i f. unfold fs. rewrite list_elem_of_omap. rewrite Hat. rewrite tmap_elem_of by done. split.
    - intros ([p s] & Hp & E'). apply window_elem_of in Hp as [Hp Hb]; [|done|lia]. simpl in *. destruct s; simplify_eq.
      replace (range_index r + (p - range_index r)) with p by lia. split; [done|lia].
    - intros [Hp Hi]. eexists. split; [apply window_elem_of; [done|lia|]; split; [done|simpl; lia]|]. simpl. f_equal. f_equal. lia. }
  split; [done|]. split.
  - apply Forall_forall. intros [i f] Hi. pose proof (proj1 (Hin _ _) Hi) as [Hs ?]. split; [done|]. destruct HS as [_ [_ F2 _]]. by eapply F2; left.
  - intros i f. rewrite <- Hin. split; [apply frame_of_elem|by apply elem_frame_of].
Qed.
