(* ===== verification/NestInv.v ===== *)
(** * Address spaces: the invariant

    [wants s a] is what the views of a space say about the page at [a]: the view
    that has the address active, its frame and its rights.  The invariant [NInv]
    says that the page tables translate every page exactly so, with the invariants
    of the index, the sources and the occupied addresses.

    [tend m s Q] is the triple the operations are specified with: they may panic only
    where the tree of tables has empty tables left over from a failed allocation, or
    where the tickets run out ([able]); and [able] lasts until an operation reports
    that memory is exhausted. *)

From stdpp Require Import sorting.
From S2P Require Import Prelude.
From S2P Require Import Table.
From S2P Require Import Flat.
From S2P Require Import FlatInv.
From S2P Require Import FlatSystem.
From S2P Require Import Spans.
From S2P Require Import Occupancy.
From S2P Require Import OccupancyInv.
From S2P Require Import OccupancySystem.
From S2P Require Import Active.
From S2P Require Import ActiveInv.
From S2P Require Import Index.
From S2P Require Import IndexInv.
From S2P Require Import IndexSystem.
From S2P Require Import Paging.
From S2P Require Import PagingInv.
From S2P Require Import PagingStep.
From S2P Require Import PagingUnmap.
From S2P Require Import PagingMap.
From S2P Require Import PagingRuns.
From S2P Require Import View.
From S2P Require Import ViewInv.
From S2P Require Import Nest.
From S2P Require Import NestFlat.

Open Scope Z_scope.

(** ** What the views say *)

(** The region behind a view of a borrowed source. *)
Definition region_of (s : Nest) (w : View) : option BorrowedRegion :=
  g ← geom (flat s) (range_flat (v_source w)); g.2.

Definition frame_at (s : Nest) (w : View) (i : Z) : option Z :=
  match region_of s w with
  | Some r => Some (region_start r + (range_index (v_source w) + i) * 4096)
  | None => frame_of (v_published w) i
  end.

Definition view_says (s : Nest) (w : View) (a : Z) : option (Z * Z) :=
  f ← frame_at s w ((a - initial_start w) / 4096);
  c ← current_at (v_active w) a;
  Some (f / 4096, leaf_flags w c).

Definition wants (s : Nest) (a : Z) : option (Z * Z) :=
  v ← Index_find (store s) a (ns_index (ns s));
  w ← nest_views s !! v;
  view_says s w a.

Definition indexed (s : Nest) (v : Z) : Prop := v ∈ views (root (ns_index (ns s))).

(** Views that the space still holds outside the index. *)
Definition refs (s : Nest) : list Z := ns_pending_views (ns s) ++ cleanup s.

#[global] Instance indexed_dec s v : Decision (indexed s v).
Proof. unfold indexed. apply _. Defined.

Definition live_bytes (l : list Slot) : Z :=
  fold_right (fun sl n => (if ticket sl =? 0 then last sl - start sl + 1 else 0) + n) 0 l.

(** ** The invariant *)

Section inv.
Context (geo : Geo) (Hgeo : geo_ok geo).
Let bit := split_bit geo.
Let n := levels geo.

Record known (s : Nest) (v : Z) (w : View) : Prop := {
  kn_ok : view_ok geo w;
  kn_id : identity w = v;
  kn_source : wf_range (flat s) (v_source w);
  kn_borrowed : is_Some (region_of s w) -> v_published w = []
}.

(** [fresh] is a view that is being attached and not yet in the index. *)
Record NInv (fresh : option Z) (s : Nest) : Prop := {
  ni_index : IInv bit (mkSpace (store s) (ns_index (ns s)));
  ni_views : forall v w, nest_views s !! v = Some w -> known s v w;
  ni_filed : forall v w, nest_views s !! v = Some w -> v_active w <> [] -> fresh <> Some v -> indexed s v;
  ni_idle : forall v w, nest_views s !! v = Some w -> v_published w <> [] -> indexed s v;
  ni_refs : forall v, v ∈ refs s -> is_Some (nest_views s !! v) /\ fresh <> Some v;
  ni_fresh : forall v, fresh = Some v -> ~ indexed s v;
  ni_wf : wf n (ns_root (ns s));
  ni_supply : supply_ok (ns_tables (ns s));
  ni_maps : forall a, canonical bit a -> a mod 4096 = 0 -> translate n (ns_root (ns s)) (page_no geo a) = wants s a;
  ni_flat : sound (flat s) (held s);
  ni_occ : OInv (occ s)
}.

Record able (s : Nest) : Prop := {
  ab_full : full n (ns_root (ns s));
  ab_tickets : ticket_bound (occ s) + live_bytes (slots (occ s)) <= 2 ^ 64
}.

Definition stays {A} (s : Nest) (r : result NestError A) (s' : Nest) : Prop :=
  able s -> r <> Err NOutOfMemory \/ is_closed s' = true -> able s'.

Definition tend {A} (m : NM A) (s : Nest) (Q : result NestError A -> Nest -> Prop) : Prop :=
  gp (able s) m s (fun r s' => stays s r s' /\ Q r s').

(** ** Rules *)

Lemma tend_mono {A} (m : NM A) s (Q Q' : result NestError A -> Nest -> Prop) :
  tend m s Q -> (forall r s', Q r s' -> Q' r s') -> tend m s Q'.
Proof using. intros H HQ. eapply gp_mono; [exact H|]. intros r s' [? ?]. auto. Qed.

Lemma tend_bind {A B} (m : NM A) (f : A -> NM B) s Q :
  tend m s (fun r s' => match r with Ok a => tend (f a) s' Q | Err e => Q (Err e) s' end) -> tend (m ≫= f) s Q.
Proof using.
  intros H. apply gp_bind. eapply gp_mono; [exact H|]. intros [a|e] s1 [H1 H2].
  - unfold tend, gp in *. destruct (f a s1) as [[r s2]|]; [|intros Ha; apply H2, H1; [done|by left]].
    destruct H2 as [H2 H3]. split; [|done]. intros Ha. apply H2, H1; [done|by left].
  - split; [|done]. intros Ha [|]; apply H1; [done| |done|]; [|by right]. left. congruence.
Qed.

Lemma tend_ret {A} (a : A) s (Q : result NestError A -> Nest -> Prop) : Q (Ok a) s -> tend (mret a) s Q.
Proof using. intros H. apply gp_ret. split; [|done]. by intros Ha _. Qed.

Lemma tend_fail {A} e s (Q : result NestError A -> Nest -> Prop) : Q (Err e) s -> tend (fail e) s Q.
Proof using. intros H. unfold tend, gp, fail. split; [|done]. by intros Ha _. Qed.

Lemma tend_get s (Q : result NestError Nest -> Nest -> Prop) : Q (Ok s) s -> tend get s Q.
Proof using. intros H. unfold tend, gp, get. split; [|done]. by intros Ha _. Qed.

Lemma tend_lift {A} (x : result NestError A) s (Q : result NestError A -> Nest -> Prop) : Q x s -> tend (lift x) s Q.
Proof using. intros H. unfold tend, gp, lift. split; [|done]. by intros Ha _. Qed.

Lemma tend_expect {A} (o : option A) a s (Q : result NestError A -> Nest -> Prop) : o = Some a -> Q (Ok a) s -> tend (expect o) s Q.
Proof using. intros -> H. unfold tend, gp, expect. split; [|done]. by intros Ha _. Qed.

Lemma tend_assert b s (Q : result NestError unit -> Nest -> Prop) : b = true -> Q (Ok tt) s -> tend (assert_that b) s Q.
Proof using. intros -> H. unfold tend, gp, assert_that. split; [|done]. by intros Ha _. Qed.

(** The tables and the occupied addresses stay as they are. *)
Definition same_able (s s' : Nest) : Prop := ns_root (ns s') = ns_root (ns s) /\ occ s' = occ s.

Lemma same_able_stays s s' : same_able s s' -> able s -> able s'.
Proof using. intros [E1 E2] [F T]. split; rewrite ?E1, ?E2; done. Qed.

Lemma tend_modify f s (Q : result NestError unit -> Nest -> Prop) : (able s -> able (f s)) -> Q (Ok tt) (f s) -> tend (modify f) s Q.
Proof using. intros H1 H2. unfold tend, gp, modify. munfold. split; [|done]. by intros Ha _; auto. Qed.

Lemma tend_set f s (Q : result NestError unit -> Nest -> Prop) : same_able s (f s) -> Q (Ok tt) (f s) -> tend (modify f) s Q.
Proof using. intros H. apply tend_modify. intros Ha. by eapply same_able_stays. Qed.

(** A step that cannot panic and leaves tables and addresses alone. *)
Lemma tend_run {A} (m : NM A) s r s' (Q : result NestError A -> Nest -> Prop) :
  m s = Some (r, s') -> same_able s s' -> Q r s' -> tend m s Q.
Proof using. intros E Hs H. unfold tend, gp. rewrite E. split; [|done]. intros Ha _. by eapply same_able_stays. Qed.

Lemma tend_finally {A} (m : NM A) c s Q :
  tend m s (fun r s' => exists s2, c s' = Some (Ok tt, s2) /\ same_able s' s2 /\ is_closed s2 = is_closed s' /\ Q r s2) -> tend (finally m c) s Q.
Proof using.
  intros H. unfold tend, gp, finally in *. destruct (m s) as [[r s1]|]; [|done]. destruct H as [H1 (s2 & -> & H2 & H3 & H4)].
  split; [|done]. intros Ha. rewrite H3. intros Hr. by eapply same_able_stays, H1.
Qed.

Lemma tend_on_err {A} (m : NM A) c s Q :
  tend m s (fun r s' => match r with
    | Ok _ => Q r s'
    | Err e => exists x s2, c s' = Some (x, s2) /\ (able s' -> able s2) /\ is_closed s2 = is_closed s' /\
        match x with Ok _ => Q (Err e) s2 | Err e' => False end
    end) -> tend (on_err m c) s Q.
Proof using.
  intros H. unfold tend, gp, on_err in *. destruct (m s) as [[[a|e] s1]|]; [done| |done]. destruct H as [H1 (x & s2 & E & H2 & H3 & H4)].
  unfold mbind, M_bind. rewrite E. destruct x as [[]|]; [|done]. unfold fail. split; [|done]. intros Ha. rewrite H3. intros Hr. apply H2, H1; [done|].
  destruct Hr; [left; congruence|by right].
Qed.

(** Going on after an error: a failed allocation is passed on, or the space is closed. *)
Lemma tend_catch {A B} (m : NM A) (k : result NestError A -> NM B) s Q :
  tend m s (fun r s' => match r with
    | Ok a => tend (k (Ok a)) s' Q
    | Err e => exists x s2, k (Err e) s' = Some (x, s2) /\ (able s' -> able s2) /\ is_closed s2 = is_closed s' /\
        (x = Err NOutOfMemory \/ is_closed s' = true \/ e <> NOutOfMemory) /\ Q x s2
    end) -> tend (catch m k) s Q.
Proof using.
  intros H. unfold tend, gp, catch in *. destruct (m s) as [[[a|e] s1]|]; [| |done].
  - destruct H as [H1 H2]. destruct (k (Ok a) s1) as [[r s2]|].
    + destruct H2 as [H2 HQ]. split; [|done]. intros Ha Hr. apply H2; [|done]. apply H1; [done|by left].
    + intros Ha. apply H2, H1; [done|by left].
  - destruct H as [H1 (x & s2 & -> & H2 & H3 & H4 & HQ)]. split; [|done]. intros Ha Hr. apply H2, H1; [done|]. rewrite H3 in Hr. destruct H4 as [->|[?|?]]; [by destruct Hr; auto|by right|left; congruence].
Qed.

(** A loop, with an invariant on what is left. *)
Lemma tend_iter {A} (f : A -> NM unit) (I : list A -> Nest -> Prop) l s (Q : result NestError unit -> Nest -> Prop) :
  I l s ->
  (forall a l' s', I (a :: l') s' -> tend (f a) s' (fun r s2 => match r with Ok _ => I l' s2 | Err e => Q (Err e) s2 end)) ->
  (forall s', I [] s' -> Q (Ok tt) s') -> tend (iter f l) s Q.
Proof using.
  intros HI Hf HQ. revert s HI. induction l as [|a l IH]; intros s HI; [by apply tend_ret, HQ|]. cbn [iter]. apply tend_bind.
  eapply tend_mono; [by apply Hf|]. intros [u|e] s' Hr; [by apply IH|done].
Qed.

Lemma tend_on_tables {A} (m : PT A) s (Q : result NestError A -> Nest -> Prop) :
  gp (full n (ns_root (ns s))) m (ns_root (ns s), ns_tables (ns s)) (fun r st =>
    (full n (ns_root (ns s)) -> r <> Err NOutOfMemory -> full n st.1) /\
    (r = Err NOutOfMemory -> is_closed s = false) /\
    Q r (set_ns (with_root st.1 st.2 (ns s)) s)) ->
  tend (on_tables m) s Q.
Proof using.
  intros H. unfold tend, gp, on_tables in *. destruct (m _) as [[r [t w]]|]; [|intros Ha; by apply H, Ha].
  destruct H as (H1 & H2 & H3). split; [|done]. intros [F T] Hr. split; [|done]. simpl in *. apply H1; [done|]. intros E. specialize (H2 E).
  destruct Hr as [Hr|Hr]; [done|]. unfold is_closed in *. simpl in Hr. congruence.
Qed.

Lemma tend_on_occ {A} (m : OC A) s r o (Q : result NestError A -> Nest -> Prop) :
  m (occ s) = Some (r, o) ->
  (ticket_bound (occ s) + live_bytes (slots (occ s)) <= 2 ^ 64 -> ticket_bound o + live_bytes (slots o) <= 2 ^ 64) ->
  Q r (set_occ o s) -> tend (on_occ m) s Q.
Proof using. intros E H1 H2. unfold tend, gp, on_occ. rewrite E. split; [|done]. intros [F T] _. split; [done|auto]. Qed.

(** ** Views and the index *)

Lemma store_active s v w : nest_views s !! v = Some w -> active (store s) v = v_active w.
Proof using. intros H. unfold active, store. by rewrite lookup_fmap, H. Qed.

Lemma store_put s s' v w : nest_views s' = <[v := w]> (nest_views s) -> store s' = <[v := v_active w]> (store s).
Proof using. intros E. unfold store. by rewrite E, fmap_insert. Qed.

Definition active_in (w : View) (a : Z) : Prop := is_Some (current_at (v_active w) a).

#[global] Instance active_in_dec w a : Decision (active_in w a).
Proof. unfold active_in. apply _. Defined.

Lemma active_covered s v w a : nest_views s !! v = Some w -> covered (store s) v a <-> active_in w a.
Proof using. intros H. unfold covered, active_in. rewrite (store_active s v w H), current_at_span. by rewrite fmap_is_Some. Qed.

Lemma indexed_view s v : IInv bit (mkSpace (store s) (ns_index (ns s))) -> indexed s v -> exists w, nest_views s !! v = Some w /\ v_active w <> [].
Proof using.
  intros HI Hv. pose proof (good_nonempty _ _ _ (ii_good _ _ HI) Hv) as Hne. simpl in Hne. unfold active, store in Hne. rewrite lookup_fmap in Hne.
  destruct (nest_views s !! v) as [w|]; [by exists w|done].
Qed.

Lemma find_iff st i a v : IInv bit (mkSpace st i) -> Index_find st a i = Some v <-> v ∈ views (root i) /\ covered st v a.
Proof using.
  intros HI. unfold Index_find. rewrite (find_view_eq st (root i) a (ii_good _ _ HI) (ii_order _ _ HI)).
  assert (Hov : forall u, u ∈ views (root i) -> overlaps st a a u = true <-> covered st u a).
  { intros u Hu. rewrite (overlaps_covered bit) by (apply (ii_ranges _ _ HI u Hu) || lia). split; [|exists a; by split; [lia|]].
    intros (x & Hx & Hc). by replace a with x by lia. }
  split.
  - intros Hf. apply find_some in Hf as [Hin Ho]. apply list_elem_of_In in Hin. split; [done|]. by apply Hov.
  - intros [Hin Hc]. destruct (List.find _ _) as [u|] eqn:Ef.
    + apply find_some in Ef as [Hu Ho]. apply list_elem_of_In in Hu. f_equal. apply (ii_apart _ _ HI u v a); [done..| |done]. by apply Hov.
    + exfalso. apply list_elem_of_In in Hin. pose proof (List.find_none _ _ Ef _ Hin) as E. simpl in E. apply list_elem_of_In in Hin. apply Hov in Hc; [congruence|done].
Qed.

Lemma wants_in s a v w :
  IInv bit (mkSpace (store s) (ns_index (ns s))) -> indexed s v -> nest_views s !! v = Some w -> active_in w a ->
  Index_find (store s) a (ns_index (ns s)) = Some v /\ wants s a = view_says s w a.
Proof using.
  intros HI Hv Hw Ha. assert (Hf : Index_find (store s) a (ns_index (ns s)) = Some v) by (apply find_iff; [done|]; split; [done|by eapply active_covered]).
  split; [done|]. unfold wants. rewrite Hf. simpl. by rewrite Hw.
Qed.

Lemma wants_out s a :
  IInv bit (mkSpace (store s) (ns_index (ns s))) -> (forall v w, indexed s v -> nest_views s !! v = Some w -> ~ active_in w a) ->
  Index_find (store s) a (ns_index (ns s)) = None /\ wants s a = None.
Proof using.
  intros HI Hn. destruct (Index_find _ _ _) as [v|] eqn:Hf; [|split; [done|]; unfold wants; by rewrite Hf].
  exfalso. apply find_iff in Hf as [Hv Hc]; [|done]. destruct (indexed_view s v HI Hv) as (w & Hw & _). apply (Hn v w Hv Hw). by eapply active_covered.
Qed.

Lemma wants_cases s a :
  IInv bit (mkSpace (store s) (ns_index (ns s))) ->
  (exists v w, indexed s v /\ nest_views s !! v = Some w /\ active_in w a /\ Index_find (store s) a (ns_index (ns s)) = Some v /\ wants s a = view_says s w a) \/
  ((forall v w, indexed s v -> nest_views s !! v = Some w -> ~ active_in w a) /\ Index_find (store s) a (ns_index (ns s)) = None /\ wants s a = None).
Proof using.
  intros HI. destruct (Index_find (store s) a (ns_index (ns s))) as [v|] eqn:Hf.
  - left. pose proof Hf as Hf'. apply find_iff in Hf' as [Hv Hc]; [|done]. destruct (indexed_view s v HI Hv) as (w & Hw & _). exists v, w.
    apply (active_covered s v w a Hw) in Hc as Ha. split_and!; try done. by apply (wants_in s a v w).
  - right. split; [|split; [done|unfold wants; by rewrite Hf]]. intros v w Hv Hw Ha. destruct (wants_in s a v w HI Hv Hw Ha). congruence.
Qed.

Lemma view_says_out s w a : ~ active_in w a -> view_says s w a = None.
Proof using. intros Ha. unfold view_says. destruct (frame_at _ _ _); [|done]. simpl. unfold active_in in Ha. destruct (current_at _ _); [|done]. by destruct Ha; eauto. Qed.

(** ** Changes *)

Lemma region_tended s s' w : tended (flat s) (flat s') -> wf_range (flat s) (v_source w) -> region_of s' w = region_of s w.
Proof using.
  intros T (c & o & Hg & _)%geom_range. unfold region_of. by rewrite (te_geom _ _ T _ _ Hg), Hg.
Qed.

Lemma known_tended s s' v w : tended (flat s) (flat s') -> known s v w -> known s' v w.
Proof using.
  intros T [K1 K2 K3 K4]. split; [done|done|by eapply wf_range_tended|]. by rewrite (region_tended s s').
Qed.

Lemma says_tended s s' w a : tended (flat s) (flat s') -> wf_range (flat s) (v_source w) -> view_says s' w a = view_says s w a.
Proof using. intros T K. unfold view_says, frame_at. by rewrite (region_tended s s'). Qed.

(** Views, index and tables stay. *)
Record calm (s s' : Nest) : Prop := {
  ca_root : ns_root (ns s') = ns_root (ns s);
  ca_index : ns_index (ns s') = ns_index (ns s);
  ca_views : nest_views s' = nest_views s;
  ca_flat : tended (flat s) (flat s');
  ca_refs : forall v, v ∈ refs s' -> v ∈ refs s
}.

#[global] Instance calm_preorder : PreOrder calm.
Proof. split; [by split|]. intros a b c [] []. split; [congruence..|by etransitivity|auto]. Qed.

Lemma NInv_calm f s s' :
  NInv f s -> calm s s' -> supply_ok (ns_tables (ns s')) -> sound (flat s') (held s') -> OInv (occ s') -> NInv f s'.
Proof using.
  intros [I1 I2 I3 I4 J1 J2 I5 I6 I7 I8 I9] [E1 E2 E3 T Er] Hs Hf Ho.
  assert (Est : store s' = store s) by (unfold store; by rewrite E3).
  assert (Hix : forall v, indexed s' v <-> indexed s v) by (intros v; unfold indexed; by rewrite E2).
  split; try done.
  - by rewrite Est, E2.
  - intros v w Hw. rewrite E3 in Hw. by eapply known_tended, I2.
  - intros v w Hw. rewrite E3 in Hw. rewrite Hix. eauto.
  - intros v w Hw. rewrite E3 in Hw. rewrite Hix. eauto.
  - intros v Hv. rewrite E3. auto.
  - intros v Hv. rewrite Hix. auto.
  - by rewrite E1.
  - intros a Ha Hal. rewrite E1, I7 by done. unfold wants. rewrite Est, E2, E3. destruct (Index_find _ _ _) as [v|]; [|done]. simpl.
    destruct (nest_views s !! v) as [w|] eqn:Hw; [|done]. simpl. symmetry. eapply says_tended; [done|apply (I2 v w Hw)].
Qed.

(** One view changes from [w] to [w']. *)
Record turned (f : option Z) (s s' : Nest) (v : Z) (w w' : View) : Prop := {
  tu_old : nest_views s !! v = Some w;
  tu_views : nest_views s' = <[v := w']> (nest_views s);
  tu_flat : tended (flat s) (flat s');
  tu_known : known s' v w';
  tu_index : IInv bit (mkSpace (store s') (ns_index (ns s')));
  tu_indexed : forall u, u <> v -> indexed s' u <-> indexed s u;
  tu_filed : v_active w' <> [] -> indexed s' v;
  tu_fresh : f = None \/ f = Some v;
  tu_refs : forall u, u ∈ refs s' -> u = v \/ u ∈ refs s;
  tu_wf : wf n (ns_root (ns s'));
  tu_maps : forall a, canonical bit a -> a mod 4096 = 0 -> translate n (ns_root (ns s')) (page_no geo a) =
    if decide (active_in w' a \/ active_in w a /\ indexed s v) then view_says s' w' a else translate n (ns_root (ns s)) (page_no geo a)
}.

Lemma published_active w : view_ok geo w -> v_published w <> [] -> v_active w <> [].
Proof using.
  intros Hw Hp Ha. destruct (v_published w) as [|p l] eqn:E; [done|]. pose proof (vo_frames _ _ Hw) as Hf. rewrite E in Hf.
  apply Forall_cons in Hf as [(_ & _ & [c Hc]) _]. by rewrite Ha in Hc.
Qed.

Lemma NInv_turned f s s' v w w' :
  NInv f s -> turned f s s' v w w' -> supply_ok (ns_tables (ns s')) -> sound (flat s') (held s') -> OInv (occ s') ->
  NInv None s'.
Proof using.
  intros HN [Old Ev T Kn HI Hix Hfi Hfr Hrf Hwf Hmap] Hs Hf Ho. pose proof HN as [I1 I2 I3 I4 J1 J2 I5 I6 I7 I8 I9].
  assert (Hlk : forall u w0, nest_views s' !! u = Some w0 -> (u = v /\ w0 = w') \/ (u <> v /\ nest_views s !! u = Some w0)).
  { intros u w0. rewrite Ev. rewrite lookup_insert_Some. intros [[<- <-]|[? ?]]; [by left|by right]. }
  assert (Hne : forall u w0, u <> v -> nest_views s !! u = Some w0 -> nest_views s' !! u = Some w0) by (intros u w0 Hu Hw0; by rewrite Ev, lookup_insert_ne).
  assert (Hvv : nest_views s' !! v = Some w') by by rewrite Ev, lookup_insert_eq.
  split; try done.
  - intros u w0 [[-> ->]|[Hu Hw0]]%Hlk; [done|]. by eapply known_tended, I2.
  - intros u w0 [[-> ->]|[Hu Hw0]]%Hlk Ha Hnf; [by apply Hfi|]. apply Hix; [done|]. apply (I3 u w0 Hw0 Ha). destruct Hfr as [-> | ->]; congruence.
  - intros u w0 [[-> ->]|[Hu Hw0]]%Hlk Hp; [apply Hfi; eapply published_active; [apply Kn|done]|]. apply Hix; [done|]. eauto.
  - intros u [-> |Hu]%Hrf; [by rewrite Hvv|]. destruct (J1 u Hu) as [[w0 Hw0] _]. split; [|done].
    destruct (decide (u = v)) as [-> |Hn]; [by rewrite Hvv|]. by rewrite (Hne u w0 Hn Hw0).
  - intros a Ha Hal. rewrite Hmap by done. destruct (decide (active_in w' a)) as [Hin|Hout].
    { rewrite decide_True by by left. symmetry. apply (wants_in s' a v w'); [done|apply Hfi|done|done].
      intros E. unfold active_in in Hin. rewrite E in Hin. by destruct Hin. }
    destruct (wants_cases s' a HI) as [(u & w0 & Hu & Hw0 & Hin & _ & ->)|(Hno & _ & ->)].
    + destruct (Hlk _ _ Hw0) as [[-> ->]|[Huv Hold]]; [done|]. apply Hix in Hu as Hu'; [|done].
      rewrite decide_False; [rewrite I7 by done|].
      * destruct (wants_in s a u w0 I1 Hu' Hold Hin) as [_ ->]. symmetry. eapply says_tended; [done|apply (I2 u w0 Hold)].
      * intros [?|[Hin' Hv]]; [done|]. apply Huv. apply (ii_apart _ _ I1 u v a); [done|done|by eapply active_covered..].
    + case_decide as Hd; [by apply view_says_out|]. rewrite I7 by done. apply wants_out; [done|]. intros u w0 Hu Hw0 Hin.
      destruct (decide (u = v)) as [->|Huv]; [|apply (Hno u w0); [by apply Hix|by apply Hne|done]].
      apply Hd. right. split; [congruence|done].
Qed.
End inv.
