(* ===== verification/NestSteps.v ===== *)
(** * Address spaces: the steps the operations are made of

    Waiting for an invalidation, asking for memory, residencies, tickets and the
    registry of sources change nothing of what a page translates to.  The pieces a
    view maps are the runs of its frames, or, for a region the kernel does not own,
    one piece for each active range: they follow one another and say of every page
    what the view says.

    At the end, what the operations do to the table of occupied addresses, slot by
    slot: giving a reservation back, tickets for the pieces of a window, settling
    them.  [moved] says that slots were only cut and dropped, and that the live slots
    of other generations are as before. *)

From stdpp Require Import sorting.
From S2P Require Import Prelude.
From S2P Require Import Table.
From S2P Require Import Flat.
From S2P Require Import FlatInv.
From S2P Require Import FlatSystem.
From S2P Require Import Spans.
From S2P Require Import Occupancy.
From S2P Require Import OccupancyInv.
From S2P Require Import OccupancySystem.
From S2P Require Import Active.
From S2P Require Import ActiveInv.
From S2P Require Import Index.
From S2P Require Import IndexInv.
From S2P Require Import IndexSystem.
From S2P Require Import Paging.
From S2P Require Import PagingInv.
From S2P Require Import PagingUnmap.
From S2P Require Import PagingRuns.
From S2P Require Import View.
From S2P Require Import ViewInv.
From S2P Require Import Nest.
From S2P Require Import NestFlat.
From S2P Require Import NestInv.
From S2P Require Import PagingStep.
From S2P Require Import PagingMap.
From S2P Require Import OccupancyTheorems.

Open Scope Z_scope.

(** ** Invalidation *)

(** What waiting for an invalidation can change. *)
Record fenced (s s' : Nest) : Prop := {
  fe_root : ns_root (ns s') = ns_root (ns s);
  fe_tables : tables (ns_tables (ns s')) = tables (ns_tables (ns s));
  fe_index : ns_index (ns s') = ns_index (ns s);
  fe_retirement : ns_retirement (ns s') = ns_retirement (ns s);
  fe_phase : ns_phase (ns s') = ns_phase (ns s) \/ ns_phase (ns s) = Closing /\ ns_phase (ns s') = Closed;
  fe_pending : forall v, v ∈ ns_pending_views (ns s') -> v ∈ ns_pending_views (ns s);
  fe_nest : set_deaf (deaf s) (set_ns (ns s) s') = s
}.

Lemma fenced_calm s s' : fenced s s' -> calm s s' /\ occ s' = occ s /\ held s' = held s /\ flat s' = flat s /\ nest_views s' = nest_views s.
Proof.
  intros [E1 _ E2 _ _ Ep E3]. assert (Hf : flat s' = flat s) by (rewrite <- E3; done). assert (Hv : nest_views s' = nest_views s) by (rewrite <- E3; done).
  split; [|split_and!; [rewrite <- E3; done..|done|done]]. split; [done|done|done|by rewrite Hf|]. intros v. unfold refs. rewrite !elem_of_app.
  assert (cleanup s' = cleanup s) as -> by (rewrite <- E3; done). naive_solver.
Qed.

#[global] Instance fenced_preorder : PreOrder fenced.
Proof.
  split; [intros s; split; try done; [by left|by destruct s as [????? []]]|]. intros a b c [A1 A2 A3 A4 A5 Ap A6] [B1 B2 B3 B4 B5 Bp B6].
  split; [congruence..| |auto|].
  - destruct A5 as [A5|[A5 A7]], B5 as [B5|[B5 B7]]; [left; congruence|right; split; congruence|right; split; congruence|congruence].
  - rewrite <- B6 in A6 at 1. etransitivity; [|exact A6]. done.
Qed.

Lemma fenced_same s s' : fenced s s' -> same_able s s'.
Proof. intros F. destruct (fenced_calm _ _ F) as (_ & E & _). split; [apply F|done]. Qed.

Lemma settle_tables w : tables (drop_tables w) = tables w.
Proof. done. Qed.

(** The end of a shootdown, whatever it answered. *)
Lemma finish_fence_run ok s : exists r s', finish_fence ok s = Some (r, s') /\ fenced s s' /\
  match r with
  | Ok _ => ns_invalidation (ns s') = Clean /\ ns_phase (ns s') = phase_settle (ns_phase (ns s))
  | Err e => e = Shootdown /\ ns_invalidation (ns s') = Failed /\ ns_phase (ns s') = ns_phase (ns s) /\ ns_retired_frames (ns s') = ns_retired_frames (ns s)
  end.
Proof.
  destruct ok; eexists _, _; (split; [reflexivity|]).
  - split; [|done]. split; try done; [|by intros v H; apply elem_of_nil in H|by destruct s as [????? []]]. simpl. destruct (ns_phase (ns s)); simpl; auto.
  - split; [|done]. split; try done; [by left|by destruct s as [????? []]].
Qed.

Lemma shootdown_run s : exists ok s', shootdown s = Some (Ok ok, s') /\ fenced s s' /\ ns s' = ns s.
Proof.
  unfold shootdown. munfold. destruct (deaf s) as [|b l]; munfold; eexists _, _; (split; [reflexivity|]); (split; [|done]); [reflexivity|].
  split; try done; [by left|]. by destruct s as [????? []].
Qed.

Lemma fence_run s : exists s', fence s = Some (Ok tt, s') /\ fenced s s' /\ ns_phase (ns s') = ns_phase (ns s) /\ ns_retired_frames (ns s') = ns_retired_frames (ns s).
Proof. eexists. split; [reflexivity|]. split; [|done]. split; try done; [by left|by destruct s as [????? []]]. Qed.

Definition fence_post (s : Nest) (r : result NestError unit) (s' : Nest) : Prop :=
  fenced s s' /\
  match r with
  | Ok _ => ns_invalidation (ns s') = Clean /\ (ns_invalidation (ns s) <> Clean -> ns_phase (ns s') = phase_settle (ns_phase (ns s)))
  | Err e => e = Shootdown /\ ns_invalidation (ns s') = Failed /\ ns_retired_frames (ns s') = ns_retired_frames (ns s)
  end.

(** Fencing, the shootdown and its end; a failure keeps the frames that wait. *)
Lemma fence_all s : exists r s', (fence ;; ok ← shootdown; finish_fence ok) s = Some (r, s') /\ fence_post s r s'.
Proof.
  destruct (fence_run s) as (s1 & E1 & F1 & H1 & R1). destruct (shootdown_run s1) as (ok & s2 & E2 & F2 & N2). destruct (finish_fence_run ok s2) as (r & s3 & E3 & F3 & P3).
  exists r, s3. unfold mbind, M_bind. rewrite E1, E2. split; [exact E3|]. split; [by etransitivity; [|etransitivity]|]. destruct r; [destruct P3 as [? P3]; split; [done|]; intros _; by rewrite P3, N2, H1|]. by destruct P3 as (? & ? & _ & ->); rewrite N2, R1.
Qed.

Lemma finish_step k s : finish_loop (S k) s =
  if is_clean (ns_invalidation (ns s)) then Some (Ok tt, s)
  else if is_fencing (ns_invalidation (ns s)) then (ok ← shootdown; catch (finish_fence ok) (fun _ => finish_loop k)) s
  else (fence ;; ok ← shootdown; finish_fence ok) s.
Proof. cbn [finish_loop]. unfold mbind at 1, M_bind at 1, get at 1. by destruct (ns_invalidation (ns s)). Qed.

Lemma finish_run s : exists r s', finish_invalidation s = Some (r, s') /\ fence_post s r s'.
Proof.
  unfold finish_invalidation. rewrite finish_step.
  destruct (ns_invalidation (ns s)) eqn:Ei; simpl is_clean; simpl is_fencing; cbv iota; [|apply fence_all| |apply fence_all].
  - eexists _, _. split; [reflexivity|]. split; [done|]. by split.
  - unfold mbind at 1, M_bind at 1. destruct (shootdown_run s) as (ok & s1 & E1 & F1 & N1). rewrite E1. unfold catch.
    destruct (finish_fence_run ok s1) as (r & s2 & E2 & F2 & P2). rewrite E2, finish_step.
    assert (F : fenced s s2) by by etransitivity. destruct r as [[]|e].
    + destruct P2 as [P2 H2]. rewrite P2. eexists _, _. split; [reflexivity|]. split; [done|]. split; [done|]. intros _. by rewrite H2, N1.
    + destruct P2 as (-> & Ef & H2 & R2). rewrite Ef. simpl is_clean; simpl is_fencing; cbv iota. destruct (fence_all s2) as (r & s3 & E3 & F3 & P3).
      exists r, s3. split; [exact E3|]. split; [by etransitivity|]. destruct r; [|destruct P3 as (? & ? & ->); by rewrite R2, N1].
      destruct P3 as [? P3]. split; [done|]. intros _. rewrite P3, H2, N1; [done|]. by rewrite Ef.
Qed.

(** The space clean and open, or an error that says which is not so. *)
Lemma ready_run s : exists r s', ready_state s = Some (r, s') /\ fenced s s' /\
  match r with
  | Ok _ => ns_invalidation (ns s') = Clean /\ is_closed s' = false
  | Err e => e = NoRegion /\ is_closed s' = true \/ e = Shootdown /\ ns_invalidation (ns s') = Failed
  end.
Proof.
  assert (Hgo : forall s k, exists r s', (finish_invalidation ;; ready_loop (S k)) s = Some (r, s') /\ fenced s s' /\
    match r with
    | Ok _ => ns_invalidation (ns s') = Clean /\ is_closed s' = false
    | Err e => e = NoRegion /\ is_closed s' = true \/ e = Shootdown /\ ns_invalidation (ns s') = Failed
    end).
  { clear s. intros s k. destruct (finish_run s) as (r & s1 & E1 & F1 & P1). unfold mbind, M_bind. rewrite E1. destruct r as [[]|e].
    - cbn [ready_loop]. unfold mbind at 1, M_bind at 1, get. destruct (is_closed s1) eqn:Ec; [eexists _, _; split; [reflexivity|]; by split; [|left]|].
      destruct P1 as [P1 _]. rewrite P1. eexists _, _. split; [reflexivity|]. by split.
    - eexists _, _. split; [reflexivity|]. split; [done|]. right. by destruct P1 as (-> & ? & _). }
  unfold ready_state. cbn [ready_loop]. unfold mbind at 1, M_bind at 1, get at 1.
  destruct (is_closed s) eqn:Ec; [eexists _, _; split; [reflexivity|]; by split; [|left]|].
  destruct (ns_invalidation (ns s)) eqn:Ei; [eexists _, _; split; [reflexivity|]; by split|apply (Hgo s 0%nat)..|].
  eexists _, _. split; [reflexivity|]. by split; [|right].
Qed.

(** What lies outside the critical section of a view operation. *)
Definition outer (s : Nest) :=
  (self s, asid s, kind s, occ s, cleanup s, asid_released s, held s, mem s, ns_retirement (ns s)).

(** The same without the residencies. *)
Definition core (s : Nest) := (self s, asid s, kind s, occ s, cleanup s, asid_released s, mem s, ns_retirement (ns s)).

Lemma outer_core s s' : outer s' = outer s <-> core s' = core s /\ held s' = held s.
Proof. unfold outer, core. split; [intros; simplify_eq; split; congruence|intros [? ?]; simplify_eq; congruence]. Qed.

(** Up to the cleanup payloads and the allocations of the table of addresses. *)
Definition table_of (o : Occupancy) := (windows o, slots o, next_gen o, next_ticket o).
Definition near (s : Nest) := (self s, asid s, kind s, table_of (occ s), cleanup s, asid_released s, held s, mem s, ns_retirement (ns s)).

(** Without the table and the cleanup chain. *)
Definition rest (s : Nest) := (self s, asid s, kind s, asid_released s, held s, mem s, ns_retirement (ns s)).

Lemma near_rest s s' : near s' = near s -> rest s' = rest s /\ table_of (occ s') = table_of (occ s) /\ cleanup s' = cleanup s.
Proof. unfold near, rest. intros [= ? ? ? ? ? ? ? ? ? ? ? ?]. split_and!; unfold table_of; congruence. Qed.

Lemma outer_near s s' : outer s' = outer s -> near s' = near s.
Proof. unfold outer, near. intros. simplify_eq. congruence. Qed.

Lemma fenced_outer s s' : fenced s s' -> outer s' = outer s.
Proof. intros [_ _ _ E4 _ _ E6]. unfold outer. rewrite E4. rewrite <- E6. done. Qed.

(** ** Steps that keep every translation *)

Section steps.
Context (geo : Geo) (Hgeo : geo_ok geo).
Let n := levels geo.

Lemma NInv_fenced f s s' : NInv geo f s -> fenced s s' -> NInv geo f s'.
Proof using.
  intros HN F. destruct (fenced_calm _ _ F) as (C & Eo & Eh & Ef & _). apply (NInv_calm geo f s); [done|done| | |].
  - unfold supply_ok. rewrite (fe_tables _ _ F). apply HN.
  - rewrite Ef, Eh. apply HN.
  - rewrite Eo. apply HN.
Qed.

Lemma tend_finish f s (Q : result NestError unit -> Nest -> Prop) :
  NInv geo f s -> (forall r s', NInv geo f s' -> fence_post s r s' -> Q r s') -> tend geo finish_invalidation s Q.
Proof using.
  intros HN HQ. destruct (finish_run s) as (r & s' & E & P). eapply tend_run; [exact E|by apply fenced_same, P|]. apply HQ; [|done].
  by eapply NInv_fenced, P.
Qed.

Lemma tend_ready f s (Q : result NestError unit -> Nest -> Prop) :
  NInv geo f s ->
  (forall s', NInv geo f s' -> fenced s s' -> ns_invalidation (ns s') = Clean -> is_closed s' = false -> Q (Ok tt) s') ->
  (forall e s', NInv geo f s' -> fenced s s' -> e = NoRegion /\ is_closed s' = true \/ e = Shootdown /\ ns_invalidation (ns s') = Failed -> Q (Err e) s') ->
  tend geo ready_state s Q.
Proof using.
  intros HN H1 H2. destruct (ready_run s) as (r & s' & E & F & P). eapply tend_run; [exact E|by apply fenced_same|].
  pose proof (NInv_fenced _ _ _ HN F). destruct r as [[]|e]; [destruct P|]; auto.
Qed.

(** A change of the script of allocations. *)
Lemma NInv_grant f s g : NInv geo f s -> NInv geo f (set_grant g s).
Proof using. intros HN. apply (NInv_calm geo f s); [done|by split|apply HN..]. Qed.

Lemma tend_try s (Q : result NestError unit -> Nest -> Prop) :
  (forall g, Q (Ok tt) (set_grant g s)) -> (forall g, Q (Err NOutOfMemory) (set_grant g s)) -> tend geo try_reserve s Q.
Proof using.
  intros H1 H2. unfold tend, gp, try_reserve. munfold. destruct (grant s) as [|[] l] eqn:E; munfold.
  - split; [by intros Ha _|]. replace s with (set_grant (grant s) s) by (by destruct s). apply H1.
  - split; [|apply H1]. intros Ha _. by apply (same_able_stays geo s).
  - split; [|apply H2]. intros Ha _. by apply (same_able_stays geo s).
Qed.

Lemma tend_grows s (Q : result NestError bool -> Nest -> Prop) :
  (forall b g, Q (Ok b) (set_grant g s)) -> tend geo grows s Q.
Proof using.
  intros H1. unfold tend, gp, grows. munfold. destruct (grant s) as [|b l] eqn:E; munfold.
  - split; [by intros Ha _|]. replace s with (set_grant (grant s) s) by (by destruct s). apply H1.
  - split; [|apply H1]. intros Ha _. by apply (same_able_stays geo s).
Qed.

Lemma NInv_flat f s w hs : NInv geo f s -> tended (flat s) w -> sound w hs -> NInv geo f (set_flat w hs s).
Proof using. intros HN T HS. apply (NInv_calm geo f s); [done|by split|apply HN|done|apply HN]. Qed.

Lemma tend_get_view v w s (Q : result NestError View -> Nest -> Prop) : nest_views s !! v = Some w -> Q (Ok w) s -> tend geo (get_view v) s Q.
Proof using.
  intros Hw HQ. unfold get_view. apply tend_bind, tend_get. eapply tend_expect; [exact Hw|done].
Qed.

(** A call that only reads the sources. *)
Lemma tend_reads {A} (m : M Flat.World FlatError A) s x (Q : result NestError A -> Nest -> Prop) :
  m (flat s) = Some (x, flat s) -> Q (map_err NestError_from x) s -> tend geo (on_flat m) s Q.
Proof using.
  intros E HQ. eapply tend_run; [unfold on_flat; rewrite E; reflexivity|done|]. by destruct s.
Qed.

Lemma tend_is_borrowed f s v w (Q : result NestError bool -> Nest -> Prop) :
  NInv geo f s -> nest_views s !! v = Some w -> Q (Ok (bool_decide (is_Some (region_of s w)))) s ->
  tend geo (on_flat (is_borrowed (range_flat (v_source w)))) s Q.
Proof using.
  intros HN Hw HQ. destruct (ni_views _ _ _ HN v w Hw) as [_ _ Hr _]. destruct (geom_range _ _ Hr) as (c & o & Hg & _).
  eapply tend_reads; [by apply (is_borrowed_run _ _ c o)|]. unfold region_of in HQ. rewrite Hg in HQ. done.
Qed.

Lemma tend_mark f s v w (Q : result NestError unit -> Nest -> Prop) :
  NInv geo f s -> nest_views s !! v = Some w ->
  (forall w', tended (flat s) w' -> NInv geo f (set_flat w' (held s) s) -> Q (Ok tt) (set_flat w' (held s) s)) ->
  tend geo (on_flat (mark_untransferable (range_flat (v_source w)))) s Q.
Proof using.
  intros HN Hw HQ. destruct (ni_views _ _ _ HN v w Hw) as [_ _ Hr _]. destruct (geom_range _ _ Hr) as (c & o & Hg & _).
  pose proof (ni_flat _ _ _ HN) as [[txs HC] HF]. destruct (mark_tended txs (held s) (flat s) (range_flat (v_source w)) HC) as (w' & E & T & _ & HC'); [by eexists|].
  eapply tend_run; [unfold on_flat; rewrite E; reflexivity|done|]. apply HQ; [done|]. apply NInv_flat; [done|done|]. split; [by eexists|by apply T].
Qed.

(** ** The cleanup payloads *)

Lemma quiet_table o o' : OccupancyInv.quiet o o' -> next_gen o' = next_gen o -> table_of o' = table_of o.
Proof using. intros (E1 & E2 & _ & E3 & _) E4. unfold table_of. congruence. Qed.

Lemma OInv_table o o' : table_of o' = table_of o -> OInv o -> OInv o'.
Proof using. unfold table_of. intros [= E1 E2 E3 E4] HO. apply (slots_inv o); [done..|]. rewrite E1. apply HO. Qed.

Lemma prepare_cleanup_run gen o : exists r o', prepare_cleanup gen o = Some (r, o') /\ table_of o' = table_of o.
Proof using.
  unfold prepare_cleanup, mbind, M_bind, get. destruct (any _ _); [by eexists _, _|].
  destruct (try_reserve_quiet o) as (x & o1 & E1 & Q1 & G1 & _). rewrite E1. pose proof (quiet_table _ _ Q1 G1) as T1. destruct x as [[]|e]; [|by eexists _, _].
  destruct (try_reserve_quiet o1) as (x & o2 & E2 & Q2 & G2 & _). rewrite E2. pose proof (quiet_table _ _ Q2 G2) as T2.
  destruct x as [[]|e]; eexists _, _; (split; [reflexivity|]); rewrite <- T1, <- T2; done.
Qed.

Lemma take_cleanup_run gen o : exists b o', take_cleanup gen o = Some (Ok b, o') /\ table_of o' = table_of o.
Proof using. unfold take_cleanup, mbind, M_bind, get. destruct (position _ _); by eexists _, _. Qed.

Lemma NInv_occ f s o : NInv geo f s -> OInv o -> NInv geo f (set_occ o s).
Proof using. intros HN HO. apply (NInv_calm geo f s); [done|by split|apply HN|apply HN|done]. Qed.

Lemma table_tickets o o' : table_of o' = table_of o ->
  ticket_bound o + live_bytes (slots o) <= 2 ^ 64 -> ticket_bound o' + live_bytes (slots o') <= 2 ^ 64.
Proof using. unfold table_of, ticket_bound. intros [= E1 E2 E3 E4]. by rewrite E2, E4. Qed.

(** ** Residencies *)

Lemma holding_run (m : M Flat.World FlatError Residency) s x w :
  m (flat s) = Some (x, w) ->
  holding m s = Some (map_err NestError_from x, set_flat w (match x with Ok h => h :: held s | Err _ => held s end) s).
Proof using. intros E. unfold holding, on_flat. munfold. rewrite E. by destruct x. Qed.

Lemma tend_reside f s r (Q : result NestError Residency -> Nest -> Prop) :
  NInv geo f s -> wf_range (flat s) r ->
  (forall h w, hold_range h = r -> tended (flat s) w -> (forall i p, slot_at w i p = slot_at (flat s) i p) ->
    NInv geo f (set_flat w (h :: held s) s) -> Q (Ok h) (set_flat w (h :: held s) s)) ->
  (forall e w, tended (flat s) w -> NInv geo f (set_flat w (held s) s) -> Q (Err e) (set_flat w (held s) s)) ->
  tend geo (holding (reside r)) s Q.
Proof using.
  intros HN Hr H1 H2. pose proof (ni_flat _ _ _ HN) as [[txs HC] HF]. destruct (reside_tended txs (held s) (flat s) r HC Hr) as (x & w & E & T & S & P).
  eapply tend_run; [by apply holding_run|by destruct x|]. assert (grounded w) by by apply T. destruct x as [h|e].
  - destruct P as [Hh HC']. apply H1; [done|done|done|]. apply NInv_flat; [done|done|]. split; [by eexists|done].
  - apply H2; [done|]. apply NInv_flat; [done|done|]. split; [by eexists|done].
Qed.

Lemma tend_materialize f s r (Q : result NestError Residency -> Nest -> Prop) :
  NInv geo f s -> wf_range (flat s) r ->
  (forall h w, hold_range h = r -> tended (flat s) w -> (forall i p x, slot_at (flat s) i p = Some x -> slot_at w i p = Some x) ->
    (is_Some (slots_in (flat s) (range_flat r)) -> forall q, range_index r <= q < range_index r + range_count r ->
      exists fr, slot_at w (range_flat r) q = Some (Resident fr)) ->
    NInv geo f (set_flat w (h :: held s) s) -> Q (Ok h) (set_flat w (h :: held s) s)) ->
  (forall e w, tended (flat s) w -> NInv geo f (set_flat w (held s) s) -> Q (Err e) (set_flat w (held s) s)) ->
  tend geo (holding (FlatRange_materialize r)) s Q.
Proof using.
  intros HN Hr H1 H2. pose proof (ni_flat _ _ _ HN) as [[txs HC] HF]. destruct (materialize_tended txs (held s) (flat s) r HC Hr) as (x & w & E & T & S & P).
  eapply tend_run; [by apply holding_run|by destruct x|]. assert (grounded w) by by apply T. destruct x as [h|e].
  - destruct P as (Hh & HC' & Hm). apply H1; [done|done|done|done|]. apply NInv_flat; [done|done|]. split; [by eexists|done].
  - apply H2; [done|]. apply NInv_flat; [done|done|]. split; [by eexists|done].
Qed.

Lemma same_hold_true a b : same_hold a b = true <-> range_flat (hold_range a) = range_flat (hold_range b) /\ hold_id a = hold_id b.
Proof using. unfold same_hold. by rewrite andb_true_iff, bool_decide_eq_true, Z.eqb_eq. Qed.

Lemma drop_position h l1 l2 :
  NoDup ((fun h => (range_flat (hold_range h), hold_id h)) <$> (l1 ++ h :: l2)) -> position (same_hold h) (l1 ++ h :: l2) = Some (length l1).
Proof using.
  induction l1 as [|k l1 IH]; simpl; intros Hn.
  - rewrite (proj2 (same_hold_true h h)) by done. done.
  - apply NoDup_cons in Hn as [Hk Hn]. destruct (same_hold h k) eqn:E.
    + exfalso. apply Hk. apply same_hold_true in E as [E1 E2]. apply list_elem_of_fmap. exists h. split; [by rewrite E1, E2|]. apply elem_of_app. right. by left.
    + by rewrite IH.
Qed.

Lemma drop_run f s h l1 l2 :
  NInv geo f s -> held s = l1 ++ h :: l2 ->
  exists w, drop_hold h s = Some (Ok tt, set_flat w (l1 ++ l2) s) /\ tended (flat s) w /\
    (forall i p, slot_at w i p = slot_at (flat s) i p) /\ NInv geo f (set_flat w (l1 ++ l2) s).
Proof using.
  intros HN Hh. pose proof (ni_flat _ _ _ HN) as [[txs HC] HF]. rewrite Hh in HC. destruct (release_tended txs (flat s) h l1 l2 HC) as (w & E & T & S & HC').
  exists w. split_and!; [|done|done|].
  - unfold drop_hold, on_flat. munfold. rewrite E. simpl. rewrite Hh. rewrite (drop_position h l1 l2) by apply (ci_keys _ HC). unfold remove_at. simpl.
    by rewrite take_app_length, drop_app_ge, Nat.sub_succ_l, Nat.sub_diag by lia.
  - apply NInv_flat; [done|done|]. split; [by eexists|by apply T].
Qed.

Lemma tend_register s source v (Q : result NestError unit -> Nest -> Prop) :
  (forall g r, Q (Ok tt) (set_registry r (set_grant g s))) -> (forall g, Q (Err NOutOfMemory) (set_grant g s)) -> tend geo (register source v) s Q.
Proof using.
  intros H1 H2. unfold register. apply tend_bind, tend_try; [|done]. intros g. apply tend_modify; [intros Ha; case_match; by apply (same_able_stays geo (set_grant g s))|].
  case_match; [|apply H1]. replace (set_grant g s) with (set_registry (registry s) (set_grant g s)) by (by destruct s). apply H1.
Qed.
End steps.

(** What a view says of the page at [a], from the frames of its pages. *)
Definition says (w : View) (fr : Z -> option Z) (a : Z) : option (Z * Z) :=
  f ← fr ((a - initial_start w) / 4096);
  c ← current_at (v_active w) a;
  Some (f / 4096, leaf_flags w c).

Lemma view_says_eq s w a : view_says s w a = says w (frame_at s w) a.
Proof. done. Qed.

Lemma page_addr_back w i : (page_addr w i - initial_start w) / 4096 = i.
Proof. unfold page_addr. replace (initial_start w + i * 4096 - initial_start w) with (i * 4096) by lia. by apply Z.div_mul. Qed.

Section pieces.
Context (geo : Geo) (Hgeo : geo_ok geo).
Let bit := split_bit geo.
Let n := levels geo.

Section view.
Context (w : View) (Hw : view_ok geo w).
Let P := page_no geo (initial_start w).

(** Active addresses lie in the view. *)
Lemma active_bounds a : active_in w a -> initial_start w <= a < initial_start w + view_pages w * 4096.
Proof using Hw.
  intros [c Hc]. unfold current_at, range_at in Hc. apply fmap_Some in Hc as (r & Hf & _). apply List.find_some in Hf as [Hin%list_elem_of_In Hr].
  pose proof Hw as [_ Hs _ Ha _ _ _ _]. eapply Forall_forall in Ha; [|exact Hin]. destruct Ha as [_ _ [H1 H2] _]. unfold a_contains in Hr. to_prop.
  unfold res_last, initial_size, initial_start in *. lia.
Qed.

Lemma window_page a : a mod 4096 = 0 -> initial_start w <= a < initial_start w + view_pages w * 4096 ->
  let i := (a - initial_start w) / 4096 in a = page_addr w i /\ 0 <= i < view_pages w.
Proof using Hw.
  intros Ha Hb i. pose proof (cr_aligned _ _ _ (vo_space _ _ Hw)) as Hs.
  assert (E : a - initial_start w = i * 4096).
  { assert (Hm : (a - initial_start w) mod 4096 = 0) by by rewrite Zminus_mod, Ha, Hs. unfold i.
    pose proof (Z.div_mod (a - initial_start w) 4096 ltac:(lia)). lia. }
  unfold page_addr. split; [lia|]. unfold i in *. split; [apply Z.div_pos; lia|]. apply Z.div_lt_upper_bound; lia.
Qed.

Lemma page_addr_ok i : 0 <= i < view_pages w -> canonical bit (page_addr w i) /\ page_addr w i mod 4096 = 0.
Proof using Hgeo Hw.
  intros Hi. pose proof (vo_space _ _ Hw) as Hs. split; [by apply (canon_at geo _ (view_pages w))|].
  unfold page_addr. rewrite Z.mod_add by lia. apply Hs.
Qed.

Record describes (fr : Z -> option Z) (l : list Piece) : Prop := {
  ds_ok : Forall (piece_ok geo) l;
  ds_apart : all_apart geo l;
  ds_in : forall q v, q ∈ l -> p_in geo q v = true ->
    0 <= v - P < view_pages w /\ active_in w (page_addr w (v - P)) /\ is_Some (fr (v - P));
  ds_say : forall i, 0 <= i < view_pages w -> says_of geo l (P + i) = says w fr (page_addr w i)
}.

Lemma describes_at fr l a : describes fr l -> canonical bit a -> a mod 4096 = 0 -> says_of geo l (page_no geo a) = says w fr a.
Proof using Hgeo Hw.
  intros D Hc Ha. destruct (decide (initial_start w <= a < initial_start w + view_pages w * 4096)) as [Hin|Hout].
  - destruct (window_page a Ha Hin) as [E Hi]. rewrite E at 1. rewrite (page_addr_no geo Hgeo w _ Hw Hi), (ds_say _ _ D) by done. by rewrite <- E.
  - assert (says w fr a = None) as ->.
    { unfold says. destruct (fr _); [|done]. simpl. destruct (current_at (v_active w) a) eqn:Ec; [|done]. destruct Hout. apply active_bounds. by eexists. }
    unfold says_of. destruct (List.find _ l) as [q|] eqn:Ef; [|done]. apply List.find_some in Ef as [Hq%list_elem_of_In Hv].
    destruct (ds_in _ _ D q _ Hq Hv) as (Hi & _). exfalso. apply Hout. destruct (page_addr_ok _ Hi) as [Hc' Ha'].
    assert (a = page_addr w (page_no geo a - P)) as ->.
    { apply (page_no_inj geo Hgeo); [done..|]. rewrite (page_addr_no geo Hgeo w _ Hw Hi). unfold P. lia. }
    unfold page_addr. lia.
Qed.

(** The runs of frames. *)
Lemma runs_describe fs :
  by_page fs -> Forall (mappable w) fs ->
  exists rs, runs w (initial_start w) fs = Some (Ok <$> rs) /\ describes (frame_of fs) (piece_of w <$> rs).
Proof using Hgeo Hw.
  intros Hs Hf. destruct (runs_pieces geo Hgeo w Hw fs Hs Hf) as (rs & Hrs & Hok & Hap & Hsay & Hin). exists rs. split; [done|]. split; [done|done| |].
  - intros q v Hq Hv. destruct (Hin q v Hq Hv) as [f Hfr]. fold P in Hfr. apply frame_of_elem in Hfr as Hel. eapply Forall_forall in Hf; [|exact Hel].
    destruct Hf as (H1 & _ & H2). simpl in *. split; [done|]. split; [done|by eexists].
  - intros i Hi. rewrite Hsay. unfold frames_say, says. fold P. replace (P + i - P) with i by lia. by rewrite page_addr_back.
Qed.

(** The active ranges of a view of a region whose page 0 is at [base]. *)
Definition region_piece (base : Z) (r : ActiveRange) : Piece :=
  mkPiece (a_start r) (base + (a_start r - initial_start w)) (a_size r) (leaf_flags w (a_current r)).

Lemma range_pages r : r ∈ v_active w -> exists i m, a_start r = page_addr w i /\ a_size r = m * 4096 /\ 0 <= i /\ 0 < m /\ i + m <= view_pages w /\
  a_end r = page_addr w (i + m) - 1.
Proof using Hw.
  intros Hr. pose proof Hw as [Hsp Hsz [_ Hok] Hal _ _ _ _]. eapply Forall_forall in Hok; [|exact Hr]. eapply Forall_forall in Hal; [|exact Hr].
  pose proof (a_end_eq _ _ Hok) as He. destruct Hok as [O1 O2 O3 _ _]. destruct Hal as [A1 A2 [A3 A4] _].
  unfold res_last in A4. fold (initial_start w) (initial_size w) in A4.
  destruct (window_page (a_start r) A1 ltac:(lia)) as [E Hi]. exists ((a_start r - initial_start w) / 4096), (a_size r / 4096).
  assert (Em : a_size r = a_size r / 4096 * 4096) by (apply Zmod_divides in A2 as [k ->]; [|lia]; rewrite Z.mul_comm, Z.div_mul; lia).
  set (i := (a_start r - initial_start w) / 4096) in *. set (m := a_size r / 4096) in *. unfold page_addr in *. split_and!; try lia.
Qed.

Lemma region_describe base :
  0 <= base -> base mod 4096 = 0 -> base + view_pages w * 4096 <= 2 ^ 56 ->
  describes (fun i => Some (base + i * 4096)) (region_piece base <$> v_active w).
Proof using Hgeo Hw.
  intros Hb0 Hba Hbe. pose proof Hw as [Hsp Hsz [Hso Hok] Hal [Hat1 Hat2] _ _ _].
  assert (Hpc : forall r, r ∈ v_active w -> exists i m, piece_ok geo (region_piece base r) /\
    (forall v, p_in geo (region_piece base r) v = true <-> i <= v - P < i + m) /\
    (forall j, a_contains r (page_addr w j) = true <-> i <= j < i + m) /\ 0 <= i /\ i + m <= view_pages w /\
    p_lo geo (region_piece base r) = P + i /\ a_start r = page_addr w i /\
    forall v, i <= v - P < i + m -> p_says geo (region_piece base r) v = ((base + (v - P) * 4096) / 4096, leaf_flags w (a_current r))).
  { intros r Hr. destruct (range_pages r Hr) as (i & m & E1 & E2 & Hi & Hm & Hle & E3). exists i, m.
    pose proof (proj1 (Forall_forall _ _) Hok r Hr) as Hrok. pose proof (proj1 (Forall_forall _ _) Hal r Hr) as [_ _ _ Hbits].
    destruct (ro_rights _ _ Hrok) as [_ Hleaf]. destruct (leaf_flags_ok w _ Hat1 Hat2 Hbits Hleaf) as (F1 & F2 & F3 & _).
    assert (Elo : p_lo geo (region_piece base r) = P + i).
    { unfold p_lo. cbn. rewrite E1. apply (page_addr_no geo Hgeo w i Hw). lia. }
    assert (Elen : p_len (region_piece base r) = m) by (unfold p_len; cbn; rewrite E2; by apply Z.div_mul).
    split_and!; try done.
    - split; [|done|done]. split.
      + rewrite Elen. cbn. unfold p_lo. cbn. rewrite E1, E2. apply (canon_paging geo Hgeo (page_addr w i) m). by apply (canon_part geo _ (view_pages w)); [|lia..].
      + cbn. rewrite E1. unfold page_addr. replace (base + (initial_start w + i * 4096 - initial_start w)) with (base + i * 4096) by lia. by rewrite Z.mod_add.
      + cbn. rewrite E1, E2. unfold page_addr. lia.
      + destruct Hgeo. lia.
    - intros v. unfold p_in. rewrite Elo, Elen, in_range_true. lia.
    - intros j. unfold a_contains. rewrite E1, E3. unfold page_addr. rewrite andb_true_iff, !Z.leb_le. lia.
    - intros v Hv. unfold p_says. rewrite Elo. cbn. rewrite F3, E1. unfold page_addr. f_equal.
      replace (base + (initial_start w + i * 4096 - initial_start w)) with (base + i * 4096) by lia. rewrite !Z.div_add by done. lia. }
  assert (Hsay : forall l, (forall r, r ∈ l -> r ∈ v_active w) -> forall v,
    says_of geo (region_piece base <$> l) v = (fun r => ((base + (v - P) * 4096) / 4096, leaf_flags w (a_current r))) <$> List.find (fun r => a_contains r (page_addr w (v - P))) l).
  { induction l as [|r l IH]; intros Hl v; [done|]. rewrite fmap_cons, says_of_cons, IH by (intros; apply Hl; by right).
    destruct (Hpc r (Hl r ltac:(by left))) as (i & m & _ & Hin & Hct & _ & _ & _ & _ & Hs). simpl. destruct (p_in geo _ v) eqn:Ep.
    - apply Hin in Ep. rewrite (proj2 (Hct _) Ep). simpl. by rewrite Hs.
    - destruct (a_contains r _) eqn:Ec; [|done]. apply Hct, Hin in Ec. congruence. }
  split.
  - apply Forall_forall. intros q (r & -> & Hr)%list_elem_of_fmap. by destruct (Hpc r Hr) as (i & m & Hq & _).
  - assert (Hap : forall l, spans_sorted l -> (forall r, r ∈ l -> r ∈ v_active w) -> all_apart geo (region_piece base <$> l)); [|by apply Hap].
    induction l as [|r l IH]; intros Hl Hsub; [constructor|]. apply spans_sorted_cons in Hl as (_ & Hl & Hlt). rewrite fmap_cons. apply all_apart_cons.
    split; [|apply IH; [done|intros; apply Hsub; by right]]. intros q (b & -> & Hb)%list_elem_of_fmap.
    assert (Hdis : forall v, p_in geo (region_piece base r) v = true -> p_in geo (region_piece base b) v = true -> False).
    { intros v H1 H2. destruct (Hpc r (Hsub r ltac:(by left))) as (i & m & _ & Hin & Hct & _). destruct (Hpc b (Hsub b ltac:(by right))) as (i' & m' & _ & Hin' & Hct' & _).
      apply Hin, Hct in H1. apply Hin', Hct' in H2. specialize (Hlt b Hb). unfold a_contains in *. simpl in Hlt. to_prop. lia. }
    split; intros v Hv; apply not_true_is_false; intros Hv'; by eapply Hdis.
  - intros q v (r & -> & Hr)%list_elem_of_fmap Hv. destruct (Hpc r Hr) as (i & m & _ & Hin & Hct & Hi & Hle & _). apply Hin in Hv as Hv'. split; [lia|]. split; [|by eexists].
    unfold active_in, current_at, range_at. destruct (List.find _ (v_active w)) as [r'|] eqn:Ef; [by eexists|].
    pose proof (List.find_none _ _ Ef r ltac:(by apply list_elem_of_In)) as Hno. simpl in Hno. apply Hct in Hv'. congruence.
  - intros i Hi. rewrite Hsay by done. unfold says, current_at, range_at. replace (P + i - P) with i by lia. rewrite page_addr_back. simpl.
    by destruct (List.find _ _).
Qed.
End view.

(** ** Running lists of pieces *)

Lemma each_run_ok (f : FrameRun -> PT unit) rs st : each_run f (Ok <$> rs) st = each f rs st.
Proof using. revert st. unfold each_run. induction rs as [|r rs IH]; intros st; [done|]. cbn. munfold. destruct (f r st) as [[[]]|]; [apply IH|done|done]. Qed.

Lemma each_fmap {A B} (f : B -> PT unit) (g : A -> B) l st : each f (g <$> l) st = each (fun a => f (g a)) l st.
Proof using. revert st. induction l as [|a l IH]; intros st; [done|]. cbn. munfold. destruct (f (g a) st) as [[[]]|]; [apply IH|done|done]. Qed.

Lemma each_app {A} (f : A -> PT unit) l1 l2 st : each f (l1 ++ l2) st = (each f l1 ≫= fun _ => each f l2) st.
Proof using. revert st. induction l1 as [|a l1 IH]; intros st; [done|]. cbn. munfold. destruct (f a st) as [[[]]|]; [|done|done]. rewrite IH. munfold. done. Qed.

Lemma on_tables_app (m k : PT unit) s : (on_tables m ;; on_tables k) s = on_tables (m ≫= fun _ => k) s.
Proof using.
  unfold on_tables. munfold. destruct (m _) as [[[u|e] [t w]]|]; [|done|done]. cbn. by destruct (k (t, w)) as [[r [t' w']]|].
Qed.

Lemma iter_tables {A} (f : A -> NM unit) (g : A -> PT unit) l s :
  (forall a s', a ∈ l -> flat s' = flat s -> f a s' = on_tables (g a) s') -> iter f l s = on_tables (each g l) s.
Proof using.
  revert s. induction l as [|a l IH]; intros s H; [cbn; unfold on_tables; cbn; by destruct s as [????? []]|]. cbn [iter each].
  rewrite <- on_tables_app. unfold mbind, M_bind. rewrite H by (done || by left). destruct (on_tables (g a) s) as [[[u|e] s1]|] eqn:E; [|done|done].
  assert (Ef : flat s1 = flat s) by (unfold on_tables in E; destruct (g a _) as [[? []]|]; by simplify_eq).
  apply IH. intros b s' Hb Hf. apply H; [by right|congruence].
Qed.

Lemma bind_eq {A B} (m m' : NM A) (k : A -> NM B) s : m s = m' s -> (m ≫= k) s = (m' ≫= k) s.
Proof using. unfold mbind, M_bind. by intros ->. Qed.

Lemma bind_assoc {A B C} (m : NM A) (k : A -> NM B) (h : B -> NM C) s : (m ≫= fun a => k a ≫= h) s = ((m ≫= k) ≫= h) s.
Proof using. unfold mbind, M_bind. by destruct (m s) as [[[]]|]. Qed.

Lemma tend_eq {A} (m m' : NM A) s Q : m s = m' s -> tend geo m' s Q -> tend geo m s Q.
Proof using. unfold tend, gp. by intros ->. Qed.

Lemma gp_run {S E A} (P : Prop) (m : M S E A) s r s' (Q : result E A -> S -> Prop) : m s = Some (r, s') -> Q r s' -> gp P m s Q.
Proof using. unfold gp. by intros ->. Qed.

Lemma says_of_in l v : is_Some (says_of geo l v) -> exists q, q ∈ l /\ p_in geo q v = true.
Proof using. intros [x Hx]. unfold says_of in Hx. apply fmap_Some in Hx as (q & Hf & _). apply List.find_some in Hf as [Hq%list_elem_of_In Hv]. by exists q. Qed.

(** Mark, if need be, and note the view. *)
Definition announce (v : Z) (w : View) : NM unit :=
  s ← get;
  (if is_kernel s || is_global w then on_flat (mark_untransferable (range_flat (v_source w))) else mret tt) ;;
  push_pending v.

Lemma announce_run f s v w v' :
  NInv geo f s -> nest_views s !! v' = Some w -> exists fw, announce v w s =
    Some (Ok tt, set_ns (with_pending (ns_pending_views (ns s) ++ [v]) (ns s)) (set_flat fw (held s) s)) /\ tended (flat s) fw /\ sound fw (held s).
Proof using.
  intros HN Hw. destruct (ni_views _ _ _ HN v' w Hw) as [_ _ Hr _]. destruct (geom_range _ _ Hr) as (c & o & Hg & _).
  pose proof (ni_flat _ _ _ HN) as [[txs HC] HF]. destruct (mark_tended txs (held s) (flat s) (range_flat (v_source w)) HC) as (fw & E & T & _ & HC'); [by eexists|].
  unfold announce, push_pending, modify_ns, modify. munfold. destruct (_ || _).
  - exists fw. unfold on_flat. rewrite E. split_and!; [done|done|]. split; [by eexists|by apply T].
  - exists (flat s). munfold. split_and!; [by destruct s|done|]. split; [by eexists|done].
Qed.

(** The tables after the pieces have been mapped. *)
Record laid (s : Nest) (l : list Piece) (t : TableNode) (tw : Paging.World) (fw : Flat.World) : Prop := {
  la_wf : wf n t;
  la_supply : supply_ok tw;
  la_maps : forall x, 0 <= x < pg n -> translate n t x = match says_of geo l x with Some y => Some y | None => translate n (ns_root (ns s)) x end;
  la_full : full n (ns_root (ns s)) -> full n t;
  la_flat : tended (flat s) fw;
  la_sound : sound fw (held s)
}.

(** The state once the pieces are mapped. *)
Definition mapped_state (s : Nest) (v : Z) (t : TableNode) (tw : Paging.World) (fw : Flat.World) : Nest :=
  set_ns (with_root t tw (with_pending (ns_pending_views (ns s) ++ [v]) (ns s))) (set_flat fw (held s) s).

Lemma NInv_tables f s t tw : NInv geo f s -> wf n t -> supply_ok tw -> (forall x, 0 <= x < pg n -> translate n t x = translate n (ns_root (ns s)) x) ->
  NInv geo f (set_ns (with_root t tw (ns s)) s).
Proof using.
  intros [I1 I2 I3 I4 J1 J2 I5 I6 I7 I8 I9] Hwf Hs Ht. split; try done; [intros v w Hw; by apply (known_tended geo s); [|by apply I2]|]. intros a Ha Hal. change (translate n t (page_no geo a) = wants s a). rewrite Ht; [by apply I7|]. apply page_no_range.
Qed.

Lemma tend_lay {A} f s v w fr l (prep mapm : NM unit) (rest : NM A) Q :
  NInv geo f s -> nest_views s !! v = Some w -> describes w fr l -> is_closed s = false ->
  (forall q x, q ∈ l -> p_in geo q x = true -> translate n (ns_root (ns s)) x = None) ->
  prep s = on_tables (each (prepare_piece geo) l) s ->
  (forall s', tended (flat s) (flat s') -> sound (flat s') (held s') -> mapm s' = on_tables (each (map_piece geo) l) s') ->
  (forall t tw, NInv geo f (set_ns (with_root t tw (ns s)) s) -> Q (Err NOutOfMemory) (set_ns (with_root t tw (ns s)) s)) ->
  (forall t tw fw, laid s l t tw fw -> tend geo rest (mapped_state s v t tw fw) Q) ->
  tend geo (prep ;; announce v w ;; mapm ;; rest) s Q.
Proof using.
  intros HN Hw D Hcl Hfree Ep Em Herr Hrest. pose proof D as [Dok Dap _ _].
  eapply tend_eq; [apply bind_eq; exact Ep|]. unfold tend. apply gp_bind. unfold gp at 1, on_tables at 1.
  pose proof (prepare_pieces_wp geo l (ns_root (ns s)) (ns_tables (ns s)) Dok Dap (ni_wf _ _ _ HN) (ni_supply _ _ _ HN) Hfree) as Hp. unfold wp in Hp.
  destruct (each (prepare_piece geo) l _) as [[r [t1 w1]]|]; [|done]. cbn [fst snd] in Hp. destruct Hp as (K & Hfb & _ & Hr).
  pose proof K as [K1 K2 K3 [_ _ _ K4]]. set (s1 := set_ns (with_root t1 w1 (ns s)) s).
  assert (HN1 : NInv geo f s1) by (apply NInv_tables; [done..|by intros; apply K3]).
  destruct r as [[]|e].
  2: { subst e. split; [|by apply Herr]. intros _ [?|Hc]; [done|]. unfold is_closed in *. cbn in Hc. congruence. }
  destruct (announce_run f s1 v w v HN1 Hw) as (fw & Ea & T & S). apply gp_bind. eapply gp_run; [exact Ea|]. cbv beta iota.
  set (s2 := set_ns _ _). apply gp_bind. unfold gp at 1. rewrite (Em s2 T S). unfold on_tables.
  assert (Hrd : able geo s -> Forall (p_ready geo t1) l).
  { intros [Hfu _]. apply Hr. apply Forall_forall. intros q Hq. apply (full_p_open geo q); [apply HN|done|by eapply Forall_forall in Dok|]. intros x Hx. by eapply Hfree. }
  pose proof (map_pieces_gp geo (able geo s) l t1 w1 Dok Dap K2 Hrd) as Hm. unfold gp in Hm. cbn [s2 ns set_ns set_flat with_pending ns_root ns_tables s1 with_root].
  destruct (each (map_piece geo) l (t1, w1)) as [[r [t2 w2]]|]; [|done]. cbn [fst snd] in Hm. destruct Hm as (-> & -> & IA).
  assert (HL : laid s l t2 w1 fw).
  { split; [apply IA|done| | |exact T|exact S].
    - intros x Hx. rewrite (ia_translate _ _ _ _ IA) by done. by rewrite K3.
    - intros Hfu. by eapply (installed_all_full geo l (ns_root (ns s)) t1). }
  specialize (Hrest _ _ _ HL). unfold tend, gp in *. cbv beta iota.
  match goal with |- context [rest ?x] => change x with (mapped_state s v t2 w1 fw) end. destruct (rest (mapped_state s v t2 w1 fw)) as [[r s3]|].
  - destruct Hrest as [H1 H2]. split; [|done]. intros Ha. apply H1. destruct Ha as [Hfu Htk]. by split; [apply HL|].
  - intros [Hfu Htk]. apply Hrest. by split; [apply HL|].
Qed.
End pieces.

(** ** Live addresses and tickets *)

Lemma live_bytes_cons sl l : live_bytes (sl :: l) = (if ticket sl =? 0 then last sl - start sl + 1 else 0) + live_bytes l.
Proof. done. Qed.

Lemma live_bytes_app l1 l2 : live_bytes (l1 ++ l2) = live_bytes l1 + live_bytes l2.
Proof. induction l1; simpl; [lia|]. unfold live_bytes in *. simpl. lia. Qed.

Lemma live_bytes_nonneg l : Forall wf_slot l -> 0 <= live_bytes l.
Proof.
  intros H. induction H as [|sl l [Hs _] _ IH]; [done|]. unfold live_bytes in *. simpl. destruct (ticket sl =? 0); lia.
Qed.

(** The tickets left for the addresses that are live. *)
Definition spare_tickets (o : Occupancy) : Prop := ticket_bound o + live_bytes (slots o) <= 2 ^ 64.

(** ** What happens to the slots *)

(** A slot of whole pages. *)
Definition paged (sl : Slot) : Prop := start sl mod 4096 = 0 /\ (last sl + 1) mod 4096 = 0.

Record moved (g : Z) (o o' : Occupancy) : Prop := {
  mv_gen : next_gen o' = next_gen o;
  mv_windows : windows o' = windows o;
  mv_part : forall sl, sl ∈ slots o' -> exists sl0, sl0 ∈ slots o /\ id sl = id sl0 /\ start sl0 <= start sl /\ last sl <= last sl0 /\ (ticket sl = 0 -> ticket sl0 = 0);
  mv_paged : Forall paged (slots o) -> Forall paged (slots o');
  mv_live : forall sl, sl ∈ slots o -> ticket sl = 0 -> id sl <> g -> sl ∈ slots o'
}.

#[global] Instance moved_preorder g : PreOrder (moved g).
Proof.
  split.
  - intros o. split; try done. intros sl Hs. exists sl. split_and!; (done || lia).
  - intros a b c [A1 A2 A3 A4 A5] [B1 B2 B3 B4 B5]. split; [congruence|congruence| |auto|auto].
    intros sl Hs. destruct (B3 sl Hs) as (s1 & H1 & E1 & L1 & R1 & T1). destruct (A3 s1 H1) as (s0 & H0 & E0 & L0 & R0 & T0). exists s0. split_and!; (done || congruence || lia || auto).
Qed.

Lemma moved_slots g o o' : next_gen o' = next_gen o -> windows o' = windows o -> (forall sl, sl ∈ slots o' -> sl ∈ slots o) ->
  (forall sl, sl ∈ slots o -> ticket sl = 0 -> id sl <> g -> sl ∈ slots o') -> moved g o o'.
Proof.
  intros E1 E2 Hs Hl. split; try done.
  - intros sl H. exists sl. split_and!; (done || lia || auto).
  - rewrite !Forall_forall. auto.
Qed.

Lemma moved_table g o o' : table_of o' = table_of o -> moved g o o'.
Proof. unfold table_of. intros [= E1 E2 E3 E4]. by apply moved_slots; rewrite ?E2. Qed.

Lemma release_moved st la gen o b o' : release st la gen o = Some (Ok b, o') -> moved gen o o'.
Proof.
  unfold release. munfold. destruct (position _ (slots o)) as [i|] eqn:Hp; intros [= <- <-]; [|reflexivity].
  apply live_slot in Hp as (rg & Hi & El). apply moved_slots; try done; cbn [slots set_cleanups set_slots]; unfold remove_at.
  - intros sl Hs. rewrite El. set_solver.
  - intros sl Hs _ Hid. rewrite El in Hs. apply elem_of_app in Hs as [Hs|[->|Hs]%elem_of_cons]; [set_solver|done|set_solver].
Qed.

Lemma cut_part st la gen tk s sl : wf_slot s -> st <= la -> tk <> 0 -> sl ∈ OccupancyInv.cut st la gen tk s ->
  id sl = id s /\ start s <= start sl /\ last sl <= last s /\ (ticket sl = 0 -> ticket s = 0) /\
  (st mod 4096 = 0 -> (la + 1) mod 4096 = 0 -> paged s -> paged sl).
Proof.
  intros [Hw _] Hle Htk. unfold OccupancyInv.cut. destruct (spared st la gen s) eqn:Hsp; [intros ->%list_elem_of_singleton; split_and!; (done || lia)|].
  unfold spared in Hsp. to_prop. unfold paged.
  destruct (Z.ltb_spec (start s) st), (Z.ltb_spec la (last s)); cbn [app]; intros Hs; set_unfold in Hs; destruct_or? Hs; subst sl; cbn [start last id ticket];
    (split; [done|]; split; [lia|]; split; [lia|]; split; [by auto|]; intros ? ? [? ?]; split; try done);
    try (by rewrite Z.max_r by lia); try (by rewrite Z.max_l by lia); try (by rewrite Z.min_r by lia); try (by rewrite Z.min_l by lia); try (by rewrite Z.sub_add).
Qed.

Lemma cut_other st la gen tk s : id s <> gen -> OccupancyInv.cut st la gen tk s = [s].
Proof. intros Hid. unfold OccupancyInv.cut, spared. rewrite (proj2 (Z.eqb_neq _ _) Hid). cbn [negb]. by rewrite orb_true_r. Qed.

Lemma retire_moved st la gen o t o' :
  OInv o -> st <= la -> retire st la gen o = Some (Ok t, o') -> next_ticket o <> 0 -> st mod 4096 = 0 -> (la + 1) mod 4096 = 0 -> moved gen o o'.
Proof.
  intros HO Hle Hr Ht Hst Hla. rewrite retire_run in Hr by done. injection Hr as <- <-. pose proof (proj2 (oi_ordered _ HO)) as Hwf. rewrite Forall_forall in Hwf.
  assert (Hin : forall sl, sl ∈ flat_map (OccupancyInv.cut st la gen (next_ticket o)) (slots o) <-> exists s, s ∈ slots o /\ sl ∈ OccupancyInv.cut st la gen (next_ticket o) s).
  { intros sl. rewrite list_elem_of_In, in_flat_map. by setoid_rewrite <- list_elem_of_In. }
  split; try done; cbn [slots set_slots].
  - intros sl (s & Hs & Hc)%Hin. destruct (cut_part st la gen _ s sl (Hwf s Hs) Hle Ht Hc) as (? & ? & ? & ? & _). by exists s.
  - rewrite !Forall_forall. intros Hp sl (s & Hs & Hc)%Hin. destruct (cut_part st la gen _ s sl (Hwf s Hs) Hle Ht Hc) as (_ & _ & _ & _ & H). by apply H, Hp.
  - intros sl Hs _ Hid. apply Hin. exists sl. split; [done|]. rewrite cut_other by done. by apply list_elem_of_singleton.
Qed.

Lemma reclaim_moved t g o o' : t <> 0 -> reclaim t o = Some (Ok tt, o') -> moved g o o'.
Proof.
  intros Ht. unfold reclaim. munfold. intros [= <-]. set (o' := match _ with Some _ => _ | None => _ end).
  assert (E : slots o' = retain (fun sl => negb (ticket sl =? t)) (slots o) /\ next_gen o' = next_gen o /\ windows o' = windows o) by (unfold o'; destruct (id <$> _) as [gg|]; [destruct (negb _)|]; done).
  destruct E as (E1 & E2 & E3). apply moved_slots; [done|done|rewrite E1..].
  - intros sl Hs. by apply elem_of_retain in Hs as [? _].
  - intros sl Hs H0 _. apply elem_of_retain. split; [done|]. rewrite H0. apply negb_true_iff, Z.eqb_neq. congruence.
Qed.

Definition whole_pages (p : Z * Z * Z) : Prop := p.1.1 mod 4096 = 0 /\ (p.1.2 + 1) mod 4096 = 0.

Lemma pieces_from_paged gen la l at_ acc ps :
  Forall paged l -> at_ mod 4096 = 0 -> (la + 1) mod 4096 = 0 -> Forall whole_pages acc -> pieces_from gen la at_ l acc = Ok ps -> Forall whole_pages ps.
Proof.
  intros Hl. revert at_ acc. induction Hl as [|s l [Hs1 Hs2] _ IH]; intros at_ acc Hat Hla Hacc; cbn [pieces_from]; [done|].
  destruct (last s <? at_); [by apply IH|]. destruct (la <? start s); [done|]. destruct (_ || _); [done|].
  assert (Hm : (Z.min (last s) la + 1) mod 4096 = 0) by (destruct (Z.min_spec (last s) la) as [[_ ->]|[_ ->]]; done).
  assert (Hacc' : Forall whole_pages (acc ++ [(at_, Z.min (last s) la, ticket s)])) by (apply Forall_app; split; [done|]; by apply Forall_singleton).
  destruct (_ =? la); [by intros [= <-]|by apply IH].
Qed.

(** ** Giving a reservation back *)

Lemma release_spare st la gen o : OInv o -> exists b o', release st la gen o = Some (Ok b, o') /\ OInv o' /\
  moved gen o o' /\ (spare_tickets o -> spare_tickets o') /\
  forall x, owner (slots o') x = if b then (if decide (st <= x <= la) then None else owner (slots o) x) else owner (slots o) x.
Proof.
  intros HO. destruct (release_op st la gen o HO) as (r & o' & E & HO' & _ & H). pose proof (fun b o' => release_moved st la gen o b o') as Hmv. revert E H Hmv. unfold OccupancySystem.exec, release. munfold.
  destruct (position _ (slots o)) as [i|] eqn:Hp; intros [= <- <-] [_ Hx] Hmv; eexists _, _; (split; [reflexivity|]); (split; [done|]); (split; [by eapply Hmv|]).
  - split; [|by intros x; rewrite Hx]. unfold spare_tickets. cbn. apply live_slot in Hp as (rg & Hi & El).
    pose proof (proj2 (oi_ordered _ HO)) as Hwf. rewrite El in Hwf. apply Forall_app in Hwf as [H1 [H2 H3]%Forall_cons].
    unfold remove_at. rewrite El at 1. rewrite !live_bytes_app, live_bytes_cons. unfold ticket_bound. cbn. destruct H2 as [? _]. cbn in *. lia.
  - by split_and!.
Qed.

(** ** Tickets *)

(** A retirement takes at least as many bytes out of the live ones as it takes
    tickets. *)
Lemma cut_live st la gen tk s : wf_slot s -> st <= la -> tk <> 0 ->
  live_bytes (OccupancyInv.cut st la gen tk s) + (if spared st la gen s then 0 else 1) <= live_bytes [s].
Proof.
  intros [Hs _] Hle Htk. unfold OccupancyInv.cut. destruct (spared st la gen s) eqn:Hsp; [lia|]. unfold spared in Hsp. to_prop.
  rewrite live_bytes_app, !live_bytes_cons. cbn [ticket start last]. rewrite (proj2 (Z.eqb_neq tk 0)) by done. rewrite (proj2 (Z.eqb_eq (ticket s) 0)) by done.
  destruct (Z.ltb_spec (start s) st), (Z.ltb_spec la (last s)); rewrite ?live_bytes_cons; cbn [ticket start last live_bytes fold_right]; rewrite ?Z.eqb_refl; cbn; lia.
Qed.

Lemma cuts_live st la gen tk l : Forall wf_slot l -> st <= la -> tk <> 0 ->
  live_bytes (flat_map (OccupancyInv.cut st la gen tk) l) <= live_bytes l /\
  (forall s, s ∈ l -> spared st la gen s = false -> live_bytes (flat_map (OccupancyInv.cut st la gen tk) l) + 1 <= live_bytes l).
Proof.
  intros Hl Hle Htk. induction Hl as [|s l Hs Hl [IH1 IH2]]; [split; [done|]; intros s H; by apply elem_of_nil in H|]. cbn [flat_map].
  pose proof (cut_live st la gen tk s Hs Hle Htk) as Hc. rewrite live_bytes_app. change (s :: l) with ([s] ++ l). rewrite live_bytes_app. split.
  - destruct (spared st la gen s); lia.
  - intros t [->|Ht]%elem_of_cons Hsp; [rewrite Hsp in Hc; lia|]. specialize (IH2 t Ht Hsp). destruct (spared st la gen s); lia.
Qed.

Lemma retire_spare st la gen o :
  OInv o -> 0 <= st <= la -> la <= usize_MAX -> (exists r, owner (slots o) st = Some (0, gen, r)) ->
  gp (spare_tickets o) (retire st la gen) o (fun x o' =>
    x = Ok (next_ticket o) /\ next_ticket o <> 0 /\ OInv o' /\ (spare_tickets o -> spare_tickets o') /\
    (st mod 4096 = 0 -> (la + 1) mod 4096 = 0 -> moved gen o o') /\
    forall a, owner (slots o') a = retired_tag st la gen (next_ticket o) a <$> owner (slots o) a).
Proof.
  intros HO Hst Hla [r Hown]. pose proof (oi_ordered _ HO) as Hord. pose proof (proj2 Hord) as Hwf.
  apply owner_inv in Hown as (sl & Hin & Hh & Ht). unfold tag in Ht. injection Ht as T1 T2 T3. unfold holds_addr in Hh.
  assert (Hsp : spared st la gen sl = false) by (unfold spared; rewrite T1, T2, Z.eqb_refl, Z.eqb_refl; cbn; apply orb_false_iff; split; apply Z.ltb_ge; lia).
  destruct (decide (next_ticket o = 0)) as [E|E].
  - unfold gp, retire. munfold. rewrite E. cbn. intros Hb. unfold spare_tickets, ticket_bound in Hb. rewrite E in Hb. cbn in Hb.
    assert (0 < live_bytes (slots o)); [|lia]. apply list_elem_of_split in Hin as (l1 & l2 & El). rewrite El in *. apply Forall_app in Hwf as [W1 [W2 W3]%Forall_cons].
    rewrite live_bytes_app, live_bytes_cons, T1. cbn. pose proof (live_bytes_nonneg _ W1). pose proof (live_bytes_nonneg _ W3). destruct W2 as [? _]. lia.
  - unfold gp. rewrite retire_run by done. split; [done|]. split; [done|].
    destruct (retire_op st la gen o HO) as (x & o' & Ex & HO' & _ & Hx); [split; [lia|]; split; [lia|done]|].
    cbn [OccupancySystem.exec] in Ex. unfold mbind, M_bind in Ex. rewrite retire_run in Ex by done. cbn in Ex. injection Ex as <- <-. split; [done|]. split.
    + unfold spare_tickets, ticket_bound. cbn [slots set_slots next_ticket set_ticket]. intros Hb. destruct (cuts_live st la gen (next_ticket o) (slots o) Hwf ltac:(lia) E) as [_ Hlt]. specialize (Hlt sl Hin Hsp).
      rewrite (proj2 (Z.eqb_neq _ 0) E) in Hb. pose proof (oi_counters _ HO) as Hc. destruct (Z.eqb_spec ((next_ticket o + 1) mod 2 ^ 64) 0) as [E0|E0]; [|rewrite Z.mod_small; [lia|]].
      * assert (next_ticket o + 1 = 2 ^ 64); [|lia]. destruct (decide (next_ticket o + 1 = 2 ^ 64)); [done|]. rewrite Z.mod_small in E0 by lia. lia.
      * assert (next_ticket o + 1 <> 2 ^ 64) by (intros E1; rewrite E1, Z.mod_same in E0; lia). lia.
    + split; [intros H1 H2; eapply (retire_moved st la gen o); [done|lia|by apply retire_run|done..]|]. destruct Hx as [_ Hx]. intros a. by rewrite Hx.
Qed.

(** ** Pieces *)

Definition in_piece (x : Z) (p : Z * Z * Z) : Prop := p.1.1 <= x <= p.1.2.

Record pieced (a b : Z) (ps : list (Z * Z * Z)) : Prop := {
  pi_sorted : StronglySorted (fun p q => p.1.2 < q.1.1) ps;
  pi_in : Forall (fun p => a <= p.1.1 <= p.1.2 /\ p.1.2 <= b) ps;
  pi_all : forall x, a <= x <= b -> exists p, p ∈ ps /\ in_piece x p
}.

Lemma tiles_pieced a b ps : tiles a b ps -> pieced a b ps.
Proof.
  revert a. induction ps as [|[[lo hi] t] ps IH]; intros a; [done|]. cbn [tiles]. intros (-> & Hle & Hr). destruct ps as [|q ps].
  { subst hi. split; [repeat constructor|apply Forall_singleton; cbn; lia|]. intros x Hx. exists (a, b, t). split; [by left|done]. }
  destruct Hr as [Hlt Ht]. destruct (IH _ Ht) as [S I A]. split.
  - constructor; [done|]. apply Forall_forall. intros p Hp. cbn. rewrite Forall_forall in I. specialize (I p Hp). lia.
  - constructor; [cbn; lia|]. eapply Forall_impl; [exact I|]. cbn. lia.
  - intros x Hx. destruct (decide (x <= hi)) as [H|H]; [exists (a, hi, t); split; [by left|by split; cbn; lia]|].
    destruct (A x ltac:(lia)) as (p & Hp & Hi). exists p. split; [by right|done].
Qed.

(** Tickets for all the pieces. *)
Record ticketed (o o' : Occupancy) (gen : Z) (ps : list (Z * Z * Z)) (tks : list Z) : Prop := {
  tk_inv : OInv o';
  tk_spare : spare_tickets o -> spare_tickets o';
  tk_moved : Forall whole_pages ps -> moved gen o o';
  tk_nonzero : Forall (fun t => t <> 0) tks;
  tk_in : forall x p, p ∈ ps -> in_piece x p -> exists tk r, tk ∈ tks /\ owner (slots o') x = Some (tk, gen, r);
  tk_out : forall x, (forall p, p ∈ ps -> ~ in_piece x p) -> owner (slots o') x = owner (slots o) x
}.

Lemma retire_pieces_gp gen a b ps o :
  OInv o -> 0 <= a -> b <= usize_MAX -> StronglySorted (fun p q => p.1.2 < q.1.1) ps -> Forall (fun p => a <= p.1.1 <= p.1.2 /\ p.1.2 <= b) ps ->
  Forall (carries (slots o) gen) ps ->
  gp (spare_tickets o) (retire_pieces gen ps) o (fun x o' => exists tks, x = Ok tks /\ ticketed o o' gen ps tks).
Proof.
  intros HO Ha Hb. revert o HO. induction ps as [|[[lo hi] t] ps IH]; intros o HO Hs Hi Hc.
  { exists []. split; [done|]. split; try done. intros x p H. by apply elem_of_nil in H. }
  apply StronglySorted_inv in Hs as [Hs Hlt]. apply Forall_cons in Hi as [Hi1 Hi]. apply Forall_cons in Hc as [Hc1 Hc]. cbn in Hi1.
  set (o1ok := fun o1 t1 => OInv o1 /\ (spare_tickets o -> spare_tickets o1) /\ (lo mod 4096 = 0 -> (hi + 1) mod 4096 = 0 -> moved gen o o1) /\ t1 <> 0 /\
    (forall x, lo <= x <= hi -> exists r, owner (slots o1) x = Some (t1, gen, r)) /\ forall x, ~ lo <= x <= hi -> owner (slots o1) x = owner (slots o) x).
  cbn [retire_pieces]. apply gp_bind. eapply (gp_mono _ _ _ (fun x o1 => exists t1, x = Ok t1 /\ o1ok o1 t1)).
  { destruct (Z.eqb_spec t 0) as [->|Ht].
    - eapply gp_mono; [apply retire_spare; [done|lia|lia|]|].
      + by apply (Hc1 lo); cbn; lia.
      + intros x o1 (-> & T1 & T2 & T3 & T4 & T7). exists (next_ticket o). split; [done|]. split_and!; try done.
        * intros x Hx. destruct (Hc1 x Hx) as [r Hr]. exists r. rewrite T7, Hr. cbn. unfold retired_tag. cbn. rewrite Z.eqb_refl. cbn.
          rewrite (proj2 (Z.leb_le _ _)), (proj2 (Z.leb_le _ _)) by lia. done.
        * intros x Hx. rewrite T7. destruct (owner (slots o) x) as [d|]; [|done]. cbn. unfold retired_tag. f_equal.
          destruct (Z.leb_spec lo x), (Z.leb_spec x hi); rewrite ?andb_false_r; cbn; [lia|reflexivity|reflexivity|reflexivity].
    - apply gp_ret. exists t. split; [done|]. by split_and!. }
  intros x o1 (t1 & -> & O1 & O2 & O3 & O4 & O5 & O6). apply gp_bind.
  assert (Hc' : Forall (carries (slots o1) gen) ps).
  { apply Forall_forall. intros p Hp y Hy. rewrite Forall_forall in Hlt, Hc, Hi. specialize (Hlt p Hp). cbn in Hlt. destruct (Hc p Hp y Hy) as [r Hr]. exists r. rewrite O6; [done|lia]. }
  specialize (IH o1 O1 Hs Hi Hc'). unfold gp in *. destruct (retire_pieces gen ps o1) as [[x o2]|]; [|auto].
  destruct IH as (tks & -> & [K1 K2 K3 K4 K5 K6]). exists (t1 :: tks). split; [done|]. split.
  - done.
  - auto.
  - intros [[Q1 Q2] Hq]%Forall_cons. etransitivity; [by apply O3|by apply K3].
  - by constructor.
  - intros y p [->|Hp]%elem_of_cons Hy.
    + destruct (O5 y Hy) as [r Hr]. exists t1, r. split; [by left|]. rewrite K6; [done|]. intros q Hq Hyq. rewrite Forall_forall in Hlt. specialize (Hlt q Hq).
      unfold in_piece in *. cbn in *. lia.
    + destruct (K5 y p Hp Hy) as (tk & r & Htk & Hr). exists tk, r. split; [by right|done].
  - intros y Hy. rewrite K6 by (intros p Hp; apply Hy; by right). apply O6. apply (Hy (lo, hi, t)). by left.
Qed.

(** Settling tickets. *)
Definition settled (tks : list Z) (own : Own) : Own := fun x =>
  match own x with Some d => if bool_decide (d.1.1 ∈ tks) then None else Some d | None => None end.

Lemma reclaim_spare t o : OInv o -> t <> 0 -> exists o', reclaim t o = Some (Ok tt, o') /\ OInv o' /\ (spare_tickets o -> spare_tickets o') /\
  (forall g, moved g o o') /\ forall x, owner (slots o') x = settled [t] (owner (slots o)) x.
Proof.
  intros HO Ht. destruct (reclaim_op t o HO) as (x & o' & Ex & HO' & _ & Hx). revert Ex Hx. cbn [OccupancySystem.exec]. unfold reclaim. munfold. intros Ex Hx.
  eexists. split; [reflexivity|]. injection Ex as <- <-. split; [done|]. set (o' := match _ with Some _ => _ | None => _ end) in *.
  assert (E : slots o' = retain (fun sl => negb (ticket sl =? t)) (slots o) /\ next_ticket o' = next_ticket o /\ next_gen o' = next_gen o /\ windows o' = windows o).
  { unfold o'. destruct (id <$> _) as [g|]; [destruct (negb _)|]; done. }
  destruct E as (E1 & E2 & E3 & E4). split.
  - unfold spare_tickets, ticket_bound. rewrite E1, E2. intros Hb. enough (live_bytes (retain (fun sl => negb (ticket sl =? t)) (slots o)) <= live_bytes (slots o)) by lia.
    clear -Ht. unfold retain. induction (slots o) as [|sl l IH]; [done|]. cbn [List.filter]. rewrite live_bytes_cons. destruct (Z.eqb_spec (ticket sl) t) as [->|]; cbn [negb].
    + rewrite (proj2 (Z.eqb_neq t 0)) by done. lia.
    + rewrite live_bytes_cons. lia.
  - split; [intros g; by apply (reclaim_moved t g o)|]. destruct Hx as [_ Hx]. intros a. rewrite Hx. unfold effect, settled. destruct (owner (slots o) a) as [d|]; [|done].
    destruct (Z.eqb_spec (d.1.1) t) as [E|E]; [rewrite bool_decide_eq_true_2; [done|by rewrite E; left]|rewrite bool_decide_eq_false_2; [done|]]. by intros H%list_elem_of_singleton.
Qed.

Lemma reclaim_all tks s :
  OInv (occ s) -> Forall (fun t => t <> 0) tks -> exists o', iter (fun t => on_occ (reclaim t)) tks s = Some (Ok tt, set_occ o' s) /\
    OInv o' /\ (spare_tickets (occ s) -> spare_tickets o') /\ (forall g, moved g (occ s) o') /\
    forall x, owner (slots o') x = settled tks (owner (slots (occ s))) x.
Proof.
  revert s. induction tks as [|t tks IH]; intros s HO Hn.
  { exists (occ s). split; [by destruct s|]. split_and!; try done. intros x. unfold settled. by destruct (owner _ x). }
  apply Forall_cons in Hn as [Ht Hn]. destruct (reclaim_spare t (occ s) HO Ht) as (o1 & E1 & H1 & H2 & H3 & H5).
  destruct (IH (set_occ o1 s) H1 Hn) as (o2 & E2 & K1 & K2 & K3 & K5). exists o2. cbn [iter]. unfold mbind, M_bind, on_occ at 1. rewrite E1, E2. split; [done|].
  split_and!; [done|auto|intros g; etransitivity; [apply H3|apply K3]|]. intros x. rewrite K5. unfold settled. cbn [occ set_occ]. rewrite H5. unfold settled. destruct (owner (slots (occ s)) x) as [d|]; [|done].
  case_bool_decide as C1; [apply list_elem_of_singleton in C1; by rewrite bool_decide_eq_true_2 by (rewrite C1; left)|].
  rewrite list_elem_of_singleton in C1. case_bool_decide as C2; [by rewrite bool_decide_eq_true_2 by by right|]. rewrite bool_decide_eq_false_2; [done|]. by intros [?|?]%elem_of_cons.
Qed.

(** The calls that only ask for memory. *)
Lemma occ_reserve_run o : exists x o', Occupancy.try_reserve o = Some (x, o') /\ table_of o' = table_of o /\ match x with Ok _ => True | Err e => e = NOutOfMemory end.
Proof. unfold Occupancy.try_reserve. munfold. destruct (heap o) as [|[] rest]; eexists _, _; (split; [reflexivity|done]). Qed.

Lemma pieces_run st la gen o : OInv o -> st <= la -> exists x o', pieces st la gen o = Some (x, o') /\ table_of o' = table_of o /\
  match x with
  | Ok ps => tiles st la ps /\ Forall (carries (slots o) gen) ps /\ (Forall paged (slots o) -> st mod 4096 = 0 -> (la + 1) mod 4096 = 0 -> Forall whole_pages ps)
  | Err _ => True
  end.
Proof.
  intros HO Hle. unfold pieces. destruct (occ_reserve_run o) as (x & o1 & E & Et & _). munfold. rewrite E. cbn. destruct x as [[]|e]; [|by eexists _, _].
  assert (Es : slots o1 = slots o) by (unfold table_of in Et; congruence).
  pose proof (pieces_from_spec gen la (slots o1) st [] (oi_ordered _ (OInv_table _ _ Et HO)) Hle) as Hp. eexists _, _. split; [reflexivity|]. split; [done|].
  destruct (pieces_from _ _ _ _ _) as [ps|e] eqn:Ep; [|done]. destruct Hp as (qs & -> & ? & ?). rewrite <- Es. split; [done|]. split; [done|].
  intros Hpg H1 H2. by apply (pieces_from_paged gen la (slots o1) st [] qs).
Qed.
