(* ===== verification/NestCommit.v ===== *)
(** * Address spaces: installing a view

    Filing a new view in the index and in the page tables, and the critical section
    of [commit] around it; then [attach], from the reservation to the view. *)

From stdpp Require Import sorting.
From S2P Require Import Prelude.
From S2P Require Import Table.
From S2P Require Import Flat.
From S2P Require Import FlatInv.
From S2P Require Import FlatSystem.
From S2P Require Import Spans.
From S2P Require Import Occupancy.
From S2P Require Import OccupancyInv.
From S2P Require Import OccupancySystem.
From S2P Require Import Active.
From S2P Require Import ActiveInv.
From S2P Require Import Index.
From S2P Require Import IndexInv.
From S2P Require Import IndexSystem.
From S2P Require Import Paging.
From S2P Require Import PagingInv.
From S2P Require Import PagingStep.
From S2P Require Import PagingUnmap.
From S2P Require Import PagingRuns.
From S2P Require Import View.
From S2P Require Import ViewInv.
From S2P Require Import Nest.
From S2P Require Import NestFlat.
From S2P Require Import NestInv.
From S2P Require Import NestSteps.

Open Scope Z_scope.

(** ** Publishing in the list of a view *)

Lemma by_page_insert fs page f :
  by_page fs -> page ∉ fs.*1 ->
  let l := insert_at (partition_point (fun p => p.1 <? page) fs) (page, f) fs in by_page l /\ l ≡ₚ (page, f) :: fs.
Proof.
  intros Hs Hn l. destruct (partition_point_sorted fs page Hs) as [Hl Hg]. set (k := partition_point _ fs) in *.
  assert (Hp : l ≡ₚ (page, f) :: fs) by (unfold l, insert_at; rewrite <- Permutation_middle; by rewrite take_drop).
  split; [|done]. unfold l, insert_at. assert (Hs2 : by_page (take k fs ++ drop k fs)) by by rewrite take_drop.
  apply (sorted_app (take k fs)) in Hs2 as (H1 & H2 & H3). apply (sorted_app (take k fs)). split; [done|].
  assert (Hgt : forall q, q ∈ drop k fs -> page < q.1).
  { intros q Hq. eapply Forall_forall in Hg; [|exact Hq]. destruct (decide (q.1 = page)) as [E|]; [|lia]. destruct Hn. rewrite <- E. apply list_elem_of_fmap.
    exists q. split; [done|]. rewrite <- (take_drop k fs). apply elem_of_app. by right. }
  split; [constructor; [done|]; by apply Forall_forall|].
  intros a b Ha [->|Hb]%elem_of_cons; [|by apply H3]. simpl. by eapply Forall_forall in Hl.
Qed.

Lemma page_range_res w w' r : v_res w' = v_res w -> page_range w r -> page_range w' r.
Proof. intros E [A1 A2 A3 A4]. split; try done. unfold initial_start. by rewrite E. Qed.

(** All the frames of a list. *)
Definition publish_all (fs : list (Z * Z)) (w : View) : View := fold_left (fun w p => publish_page p.1 p.2 w) fs w.

Lemma publish_all_list fs w :
  by_page (v_published w) -> NoDup fs.*1 -> (forall p, p ∈ fs -> p.1 ∉ (v_published w).*1) ->
  exists l, publish_all fs w = set_published l w /\ by_page l /\ l ≡ₚ fs ++ v_published w.
Proof.
  revert w. induction fs as [|[i f] fs IH]; intros w Hs Hn Hd; [exists (v_published w); by destruct w|].
  rewrite fmap_cons in Hn. apply NoDup_cons in Hn as [Hi Hn]. destruct (by_page_insert (v_published w) i f Hs) as [Hs1 Hp1]; [by apply (Hd (i, f)); left|].
  change (publish_all ((i, f) :: fs) w) with (publish_all fs (publish_page i f w)).
  destruct (IH (publish_page i f w)) as (l & -> & Hl & Hp); [done|done| |].
  - intros p Hp (q & E & Hq)%list_elem_of_fmap. cbn in Hq. rewrite Hp1 in Hq. apply elem_of_cons in Hq as [->|Hq].
    + apply Hi. apply list_elem_of_fmap. by exists p.
    + apply (Hd p); [by right|]. apply list_elem_of_fmap. by exists q.
  - exists l. split; [done|]. split; [done|]. rewrite Hp. cbn. rewrite Hp1. by rewrite Permutation_middle.
Qed.

Lemma frame_of_perm l fs gs i :
  by_page l -> by_page fs -> by_page gs -> l ≡ₚ fs ++ gs -> frame_of l i = match frame_of fs i with Some f => Some f | None => frame_of gs i end.
Proof.
  intros Hl Hf Hg Hp. destruct (frame_of fs i) as [f|] eqn:E1.
  { apply elem_frame_of; [done|]. rewrite Hp. apply elem_of_app. left. by apply frame_of_elem. }
  destruct (frame_of gs i) as [f|] eqn:E2.
  { apply elem_frame_of; [done|]. rewrite Hp. apply elem_of_app. right. by apply frame_of_elem. }
  apply frame_of_None. rewrite Hp, fmap_app. apply frame_of_None in E1, E2. by intros [|]%elem_of_app.
Qed.

Lemma publish_all_ok geo fs w :
  view_ok geo w -> by_page fs -> Forall (mappable w) fs -> (forall p, p ∈ fs -> p.1 ∉ (v_published w).*1) ->
  exists l, publish_all fs w = set_published l w /\ view_ok geo (set_published l w) /\
    forall i, frame_of l i = match frame_of fs i with Some f => Some f | None => frame_of (v_published w) i end.
Proof.
  intros [W1 W2 W3 W4 W5 W6 W7 W8] Hs Hm Hd. destruct (publish_all_list fs w W7) as (l & E & Hl & Hp); [by apply by_page_NoDup|done|].
  exists l. split; [done|]. split; [|intros i; by apply frame_of_perm].
  split; try done; [eapply Forall_impl; [exact W4|]; intros r; by apply page_range_res|]. change (Forall (mappable w) l). rewrite Hp. by apply Forall_app.
Qed.

(** ** Room in the index *)

Lemma keys_bound {A} (k : A -> Z) lo hi l : lo <= hi -> StronglySorted (fun a b => k a < k b) l -> Forall (fun a => lo <= k a < hi) l -> Z.of_nat (length l) <= hi - lo.
Proof.
  revert lo. induction l as [|a l IH]; intros lo Hle Hs Hb; [simpl; lia|]. apply StronglySorted_inv in Hs as [Hs Hlt]. apply Forall_cons in Hb as [Ha Hb].
  cbn [length]. enough (Z.of_nat (length l) <= hi - (k a + 1)) by lia. apply IH; [lia|done|].
  apply Forall_forall. intros b Hb'. eapply Forall_forall in Hlt; [|exact Hb']. eapply Forall_forall in Hb; [|exact Hb']. lia.
Qed.

Section install.
Context (geo : Geo) (Hgeo : geo_ok geo).
Let bit := split_bit geo.
Let n := levels geo.

Lemma index_room f s : NInv geo f s -> index_len (ns_index (ns s)) < usize_MAX.
Proof using.
  intros HN. pose proof (ni_index _ _ _ HN) as HI. pose proof (ii_len _ _ HI) as El. cbn in El. rewrite El.
  assert (Hk : forall v, v ∈ views (root (ns_index (ns s))) -> exists q, key (store s) v = q * 4096 /\ 0 <= q < 2 ^ 52).
  { intros v Hv. destruct (indexed_view geo s v HI Hv) as (w & Hw & Hne). pose proof (ni_views _ _ _ HN v w Hw) as [Ok _ _ _].
    unfold key. rewrite (store_active s v w Hw). destruct (min_of_Some (a_start <$> v_active w)) as [m Hm]; [by destruct (v_active w)|]. rewrite Hm. simpl.
    apply min_of_spec in Hm as [(r & -> & Hr)%list_elem_of_fmap _].
    pose proof (vo_aligned _ _ Ok) as Hal. eapply Forall_forall in Hal; [|exact Hr]. destruct (vo_ranges _ _ Ok) as [_ Hok]. eapply Forall_forall in Hok; [|exact Hr].
    destruct Hal as [A1 _ _ _]. destruct Hok as [O1 O2 O3 _ _]. exists (a_start r / 4096).
    pose proof (Z.div_mod (a_start r) 4096 ltac:(lia)). rewrite usize_MAX_eq in O3. lia. }
  assert (Z.of_nat (length (views (root (ns_index (ns s))))) <= 2 ^ 52 - 0); [|rewrite usize_MAX_eq; lia].
  apply (keys_bound (fun v => key (store s) v / 4096)); [lia| |].
  - pose proof (ii_order _ _ HI) as Ho. cbn in Ho. unfold by_key in Ho. revert Ho Hk. generalize (views (root (ns_index (ns s)))). intros l Ho Hk.
    induction Ho as [|v l Ho IH Hlt]; constructor; [apply IH; intros; apply Hk; by right|]. apply Forall_forall. intros u Hu. eapply Forall_forall in Hlt; [|exact Hu].
    destruct (Hk v ltac:(by left)) as (q & E & _). destruct (Hk u ltac:(by right)) as (q' & E' & _). rewrite E, E', !Z.div_mul by lia. lia.
  - apply Forall_forall. intros v Hv. destruct (Hk v Hv) as (q & E & ?). rewrite E, Z.div_mul by lia. lia.
Qed.

(** No indexed view meets the window of [w]: its pages are not mapped. *)
Lemma window_free f s w :
  NInv geo f s -> view_ok geo w ->
  Index_first_overlap (store s) (res_start (v_res w)) (res_last (v_res w)) (ns_index (ns s)) = None ->
  forall a, active_in w a -> (forall v u, indexed s v -> nest_views s !! v = Some u -> ~ active_in u a) /\ wants s a = None.
Proof using.
  intros HN Hw Hov a Ha. pose proof (active_bounds geo w Hw a Ha) as Hb. pose proof (vo_size _ _ Hw) as Hs. unfold initial_start, initial_size in *.
  assert (Hno : forall v u, indexed s v -> nest_views s !! v = Some u -> ~ active_in u a).
  { intros v u Hv Hu Hin. eapply (first_overlap_None (split_bit geo)); [apply HN| |exact Hov|exact Hv| |by eapply active_covered]; unfold res_last; lia. }
  split; [done|]. apply (wants_out geo); [apply HN|done].
Qed.

Lemma install_shape {A} (p1 p2 m1 m2 : NM unit) v w (rest : NM A) s :
  (p1 ;; p2 ;; (get ≫= fun s : Nest =>
     (if is_kernel s || is_global w then on_flat (mark_untransferable (range_flat (v_source w))) else mret tt) ;;
     push_pending v ;; m1 ;; m2 ;; rest)) s = ((p1 ;; p2) ;; announce v w ;; (m1 ;; m2) ;; rest) s.
Proof using.
  unfold announce, mbind, M_bind, get. destruct (p1 s) as [[[u|e] s1]|]; [|done|done]. destruct (p2 s1) as [[[u'|e] s2]|]; [|done|done].
  match goal with |- context [match ?x with _ => _ end] => destruct x as [[[u2|e] s3]|]; [|done|done] end. destruct (push_pending v s3) as [[[u3|e] s4]|]; [|done|done].
  destruct (m1 s4) as [[[u4|e] s5]|]; done.
Qed.

Lemma each_ext {A} (f g : A -> PT unit) l st : (forall a st, f a st = g a st) -> each f l st = each g l st.
Proof using. intros E. revert st. induction l as [|a l IH]; intros st; [done|]. cbn. munfold. rewrite E. by destruct (g a st) as [[[]]|]. Qed.

(** The frames that a new view maps. *)
Definition to_map (s : Nest) (w : View) (pub : list (Z * Z)) (bor : list ActiveRange) : Prop :=
  (region_of s w = None /\ bor = [] /\ by_page pub /\ Forall (mappable w) pub) \/
  (is_Some (region_of s w) /\ pub = [] /\ bor = v_active w).

(** The address of page 0 of a view of a borrowed source. *)
Definition region_base (s : Nest) (w : View) : Z :=
  match region_of s w with Some r => region_start r + range_index (v_source w) * 4096 | None => 0 end.

Lemma region_grounds f s v w :
  NInv geo f s -> nest_views s !! v = Some w -> is_Some (region_of s w) ->
  0 <= region_base s w /\ region_base s w mod 4096 = 0 /\ region_base s w + view_pages w * 4096 <= 2 ^ 56.
Proof using.
  intros HN Hw [r Hr]. destruct (ni_views _ _ _ HN v w Hw) as [Ok _ Hs _]. unfold region_base. rewrite Hr. unfold region_of in Hr.
  destruct (geom_range _ _ Hs) as (c & o & Hg & I0 & I1 & I2). rewrite Hg in Hr. simpl in Hr. subst o.
  destruct (ni_flat _ _ _ HN) as [_ HF]. destruct (ft_region _ HF _ _ _ Hg) as (F1 & F2 & F3). rewrite (vo_count _ _ Ok) in *.
  split; [lia|]. split; [by rewrite Z.mod_add|lia].
Qed.

(** Where an active range of a borrowed view is. *)
Lemma borrowed_at_run hs s w r :
  view_ok geo w -> sound (flat s) hs -> wf_range (flat s) (v_source w) -> is_Some (region_of s w) -> r ∈ v_active w ->
  borrowed_at w (a_start r) s = Some (Ok (region_base s w + (a_start r - initial_start w)), s).
Proof using.
  intros Ok HS Hs [reg Hr] Hin. destruct (range_pages geo w Ok r Hin) as (i & m & E1 & _ & Hi & Hm & Hle & _).
  destruct (geom_range _ _ Hs) as (c & o & Hg & I0 & I1 & I2). unfold region_base. rewrite Hr. unfold region_of in Hr. rewrite Hg in Hr. simpl in Hr. subst o.
  assert (Ha : 0 <= initial_start w /\ initial_start w + view_pages w * 4096 <= 2 ^ 64) by (split; apply (vo_space _ _ Ok)).
  unfold borrowed_at, page_index, checked_sub. rewrite E1. unfold page_addr in *. rewrite checked_in by (rewrite usize_MAX_eq; lia).
  cbn. unfold on_flat. munfold. replace (initial_start w + i * 4096 - initial_start w) with (i * 4096) by lia. change PAGE_SIZE with 4096. rewrite Z.div_mul by lia.
  rewrite (physical_run hs _ _ _ _ _ HS Hs Hg) by (rewrite (vo_count _ _ Ok); lia). cbn. f_equal. f_equal; [f_equal; lia|by destruct s].
Qed.

Lemma says_ext w fr fr' a : (forall i, fr i = fr' i) -> says w fr a = says w fr' a.
Proof using. intros E. unfold says. by rewrite E. Qed.

(** The pieces of a new view, and the two loops over them. *)
Lemma pieces_of_new f s v w pub bor :
  NInv geo f s -> nest_views s !! v = Some w -> to_map s w pub bor ->
  exists rs l fr, runs w (res_start (v_res w)) pub = Some rs /\ describes geo w fr l /\
    (forall i, fr i = match region_of s w with Some r => Some (region_start r + (range_index (v_source w) + i) * 4096) | None => frame_of pub i end) /\
    forall (op : Piece -> PT unit) (fr' : FrameRun -> PT unit) (fb : Z -> Z -> Z -> Z -> PT unit) s',
      (forall run st, fr' run st = op (piece_of w run) st) ->
      (forall r pa st, fb (a_start r) pa (a_size r) (a_current r) st = op (mkPiece (a_start r) pa (a_size r) (leaf_flags w (a_current r))) st) ->
      tended (flat s) (flat s') -> sound (flat s') (held s') ->
      (on_tables (each_run fr' rs) ;; iter (fun r => pa ← borrowed_at w (a_start r); on_tables (fb (a_start r) pa (a_size r) (a_current r))) bor) s' =
      on_tables (each op l) s'.
Proof using Hgeo.
  intros HN Hw Hto. destruct (ni_views _ _ _ HN v w Hw) as [Kw _ Hs _]. destruct Hto as [(Hr & -> & Hby & Hmap)|(Hr & -> & ->)].
  - destruct (runs_describe geo Hgeo w Kw pub Hby Hmap) as (rs & Hrs & D). exists (Ok <$> rs), (piece_of w <$> rs), (frame_of pub).
    split_and!; [done|done|by rewrite Hr|]. intros op fr' fb s' E1 _ _ _. cbn [iter]. unfold mbind, M_bind, on_tables.
    rewrite each_run_ok, each_fmap, (each_ext _ _ rs _ E1). by destruct (each _ rs _) as [[[[]|] []]|].
  - destruct (region_grounds f s v w HN Hw Hr) as (B0 & B1 & B2). pose proof (region_describe geo Hgeo w Kw _ B0 B1 B2) as D.
    exists [], (region_piece w (region_base s w) <$> v_active w), (fun i => Some (region_base s w + i * 4096)).
    split_and!; [done|done| |].
    + intros i. unfold region_base. destruct Hr as [r ->]. f_equal. lia.
    + intros op fr' fb s' _ E2 T S. unfold mbind at 1, M_bind at 1, on_tables at 1. cbn. replace (set_ns _ s') with s' by (by destruct s' as [????? []]).
      rewrite (iter_tables _ (fun r => op (region_piece w (region_base s w) r))).
      { unfold on_tables. by rewrite each_fmap. }
      intros r s1 Hin Ef. unfold mbind, M_bind.
      assert (T1 : tended (flat s) (flat s1)) by by rewrite Ef.
      assert (Er : region_of s1 w = region_of s w) by by apply region_tended.
      rewrite (borrowed_at_run (held s') s1 w r); [|done|by rewrite Ef|by eapply wf_range_tended|by rewrite Er|done].
      assert (region_base s1 w = region_base s w) as -> by (unfold region_base; by rewrite Er).
      unfold on_tables. rewrite E2. done.
Qed.

(** Nothing but the sources changed. *)
Definition untouched (s s' : Nest) : Prop :=
  outer s' = outer s /\ tended (flat s) (flat s') /\ nest_views s' = nest_views s /\ ns_index (ns s') = ns_index (ns s).

Record placed (s s' : Nest) (v : Z) (w : View) (pub : list (Z * Z)) : Prop := {
  pl_inv : NInv geo None s';
  pl_view : exists l, nest_views s' = <[v := set_published l w]> (nest_views s) /\ forall i, frame_of l i = frame_of pub i;
  pl_indexed : forall u, indexed s' u <-> u = v \/ indexed s u;
  pl_outer : outer s' = outer s;
  pl_flat : tended (flat s) (flat s')
}.

(** The end of [install], once the pieces are mapped. *)
Lemma file_tend f s v w pub l fr t tw fw node :
  node = cached v (key (store s) v) (vend (store s) v) -> NInv geo f s -> (f = None \/ f = Some v) -> nest_views s !! v = Some w -> ~ indexed s v -> v_published w = [] -> v_active w <> [] ->
  by_page pub -> Forall (mappable w) pub -> (is_Some (region_of s w) -> pub = []) ->
  Index_first_overlap (store s) (res_start (v_res w)) (res_last (v_res w)) (ns_index (ns s)) = None ->
  describes geo w fr l -> (forall i, fr i = frame_at s (set_published pub w) i) -> laid geo s l t tw fw ->
  tend geo (put_view v (publish_all pub w) ;; s ← get;
            i ← expect (Index_insert (store s) node (ns_index (ns s)));
            modify_ns (with_index i) ;; mark_dirty) (mapped_state s v t tw fw) (fun r s' => r = Ok tt /\ placed s s' v w pub).
Proof using Hgeo.
  intros -> HN Hf Hw Hni Hp Ha Hby Hmap Hreg Hov D Hfr L. destruct (ni_views _ _ _ HN v w Hw) as [Kw Kid Ks Kb].
  destruct (publish_all_ok geo pub w Kw Hby Hmap) as (pl & -> & Kw' & Hfo); [rewrite Hp; intros ? ? H; by apply elem_of_nil in H|].
  rewrite Hp in Hfo. assert (Hfo' : forall i, frame_of pl i = frame_of pub i) by (intros i; rewrite Hfo; by destruct (frame_of pub i)). clear Hfo.
  unfold put_view. apply tend_bind, tend_set; [done|]. apply tend_bind, tend_get.
  set (s1 := set_views _ _).
  assert (Est : store s1 = store s).
  { transitivity (<[v := v_active w]> (store s)); [by apply (store_put s s1 v (set_published pl w))|]. apply insert_id. unfold store. by rewrite lookup_fmap, Hw. }
  rewrite Est. change (ns_index (ns s1)) with (ns_index (ns s)). pose proof (ni_index _ _ _ HN) as HI.
  assert (Hva : active (store s) v = v_active w) by by apply store_active.
  assert (Hap : forall u x, u ∈ views (root (ns_index (ns s))) -> covered (store s) u x -> covered (store s) v x -> False).
  { intros u x Hu Hc Hc'. destruct (indexed_view geo s u HI Hu) as (w0 & Hw0 & _). apply (active_covered s v w x Hw) in Hc'. apply (active_covered s u w0 x Hw0) in Hc.
    by destruct (window_free f s w HN Kw Hov x Hc') as [Hno _]; eapply Hno. }
  destruct (file_view (split_bit geo) v (store s) (ns_index (ns s))) as (i' & Hins & HI' & Hperm);
    [apply HI|apply HI|done|apply HI|by eapply index_room| |by rewrite Hva| |].
  { intros u [->|Hu]%elem_of_cons; [rewrite Hva; apply Kw|by apply (ii_ranges _ _ HI)]. }
  { intros u u' x [->|Hu]%elem_of_cons [->|Hu']%elem_of_cons Hc Hc'; [done|by destruct (Hap u' x)|by destruct (Hap u x)|by eapply (ii_apart _ _ HI)]. }
  apply tend_bind. eapply tend_expect; [exact Hins|]. unfold mark_dirty, modify_ns. apply tend_bind, tend_set; [done|]. apply tend_set; [done|].
  set (s2 := set_ns _ _). assert (Hix : forall u, indexed s2 u <-> u = v \/ indexed s u).
  { intros u. unfold indexed. change (ns_index (ns s2)) with i'. rewrite Hperm. apply elem_of_cons. }
  split; [done|].
  assert (Hst2 : store s2 = store s) by exact Est.
  assert (Hkn : known geo s2 v (set_published pl w)).
  { split; [done|done|by eapply wf_range_tended; [apply L|]|]. intros Hr. change (region_of s2 (set_published pl w)) with (region_of s2 w) in Hr.
    rewrite (region_tended s s2) in Hr by (apply L || done). rewrite Hreg in Hfo' by done. cbn. destruct pl as [|p pl]; [done|].
    specialize (Hfo' p.1). rewrite frame_of_cons, Z.eqb_refl in Hfo'. done. }
  assert (HT : turned geo f s s2 v w (set_published pl w)).
  { split; [done|done|apply L|done|by rewrite Hst2|intros u Hu; rewrite Hix; naive_solver|intros _; apply Hix; by left|done| |apply L|].
    { intros u. unfold refs. cbn. rewrite !elem_of_app, list_elem_of_singleton. naive_solver. }
    intros a Hca Hal. change (ns_root (ns s2)) with t. rewrite (la_maps _ _ _ _ _ _ L) by apply page_no_range. rewrite (describes_at geo Hgeo w Kw fr l a D Hca Hal).
    assert (Hsay : says w fr a = view_says s2 (set_published pl w) a).
    { transitivity (says w (frame_at s2 (set_published pl w)) a); [apply says_ext|done]. intros i. rewrite Hfr. unfold frame_at. change (region_of s2 (set_published pl w)) with (region_of s2 w).
      rewrite (region_tended s s2) by (apply L || done). change (region_of s (set_published pub w)) with (region_of s w). destruct (region_of s w); [done|]. symmetry. apply Hfo'. }
    rewrite Hsay. case_decide as Hd.
    - assert (Hact : active_in w a) by (destruct Hd as [?|[? ?]]; done). destruct (view_says s2 _ a) eqn:Ev; [done|].
      rewrite (ni_maps _ _ _ HN a Hca Hal). by apply (window_free f s w HN Kw Hov a).
    - rewrite (view_says_out s2) by (intros ?; apply Hd; by left). done. }
  pose proof (NInv_turned geo f s s2 v w _ HN HT (la_supply _ _ _ _ _ _ L) (la_sound _ _ _ _ _ _ L) (ni_occ _ _ _ HN)) as HN2.
  split; [done|by exists pl|done|done|apply L].
Qed.

Lemma untouched_fenced s s' : fenced s s' -> untouched s s'.
Proof using.
  intros F. destruct (fenced_calm _ _ F) as ([C1 C2 C3 C4 _] & _). split_and!; [by apply fenced_outer|done..].
Qed.

Lemma to_map_same s s' w pub bor : tended (flat s) (flat s') -> wf_range (flat s) (v_source w) -> to_map s w pub bor -> to_map s' w pub bor.
Proof using. intros T Hs. unfold to_map. by rewrite (region_tended s s' w T Hs). Qed.

Lemma install_tend s v w pub bor :
  NInv geo (Some v) s -> nest_views s !! v = Some w -> ~ indexed s v -> v_published w = [] -> v_active w <> [] -> to_map s w pub bor ->
  tend geo (install geo v pub bor) s (fun r s' =>
    match r with Ok _ => placed s s' v w pub | Err _ => NInv geo (Some v) s' /\ untouched s s' end).
Proof using Hgeo.
  intros HN Hw Hni Hp Ha Hto. unfold install. apply tend_bind. eapply tend_get_view; [exact Hw|]. cbv beta iota zeta.
  apply tend_bind, tend_try; [|by intros g; split; [by apply NInv_grant|]]. intros g1. apply tend_bind, tend_get. apply tend_bind, tend_lift.
  change (store (set_grant g1 s)) with (store s). assert (Hva : active (store s) v = v_active w) by by apply store_active.
  rewrite node_of by by rewrite Hva. apply tend_bind, tend_try; [|by intros g; split; [by do 2 apply NInv_grant|]]. intros g2.
  apply tend_bind. eapply (tend_ready geo (Some v)); [by do 2 apply NInv_grant| |].
  2: { intros e s1 HN1 F _. split; [done|]. apply (untouched_fenced _ _) in F. done. }
  intros s1 HN1 F Hcl Hop. destruct (fenced_calm _ _ F) as ([_ Ei Ev T _] & Eo & Eh & Ef & _). pose proof (fenced_outer _ _ F) as Eu. cbn in Ei, Ev, Ef. change (outer s1 = outer s) in Eu.
  clear F Hcl. apply tend_bind, tend_get.
  assert (Est : store s1 = store s) by (unfold store; by rewrite Ev). assert (Hix : forall u, indexed s1 u <-> indexed s u) by (intros u; unfold indexed; by rewrite Ei).
  destruct (Index_first_overlap _ _ _ _) eqn:Hov; [by apply tend_fail|].
  apply tend_bind, tend_try; [|by intros g; split; [by apply NInv_grant|]]. intros g3. apply tend_bind, tend_register; [|by intros g; split; [by do 2 apply NInv_grant|]].
  intros g4 rg. set (s2 := set_registry rg _).
  assert (HN2 : NInv geo (Some v) s2) by (apply (NInv_calm geo _ s1); [done|by split|apply HN1..]).
  assert (Hw2 : nest_views s2 !! v = Some w) by (change (nest_views s2) with (nest_views s1); by rewrite Ev).
  assert (Hto2 : to_map s2 w pub bor).
  { eapply (to_map_same s); [by change (flat s2) with (flat s1); rewrite Ef|apply (ni_views _ _ _ HN v w Hw)|done]. }
  destruct (pieces_of_new _ s2 v w pub bor HN2 Hw2 Hto2) as (rs & l & fr & Hrs & D & Hfr & Hloop).
  apply tend_bind. eapply tend_expect; [exact Hrs|]. cbv beta iota.
  eapply tend_eq; [apply install_shape|].
  assert (Hfree : forall q x, q ∈ l -> p_in geo q x = true -> translate n (ns_root (ns s2)) x = None).
  { intros q x Hq Hx. destruct (ds_in _ _ _ _ D q x Hq Hx) as (Hi & Hact & _). destruct (ni_views _ _ _ HN2 v w Hw2) as [Kw _ _ _].
    destruct (page_addr_ok geo Hgeo w Kw _ Hi) as [Hc Hal]. pose proof (ni_maps _ _ _ HN2 _ Hc Hal) as Hm. rewrite (page_addr_no geo Hgeo w _ Kw Hi) in Hm.
    replace (page_no geo (initial_start w) + (x - page_no geo (initial_start w))) with x in Hm by lia. etransitivity; [exact Hm|]. by apply (window_free (Some v) s2 w HN2 Kw). }
  apply (tend_lay geo (Some v) s2 v w fr l); [done|done|done|done|done| | | |].
  { apply (Hloop (prepare_piece geo) (prepare_run geo) (fun a pa sz _ => prepare_range_geometry geo a pa sz)); [done|done|done|apply HN2]. }
  { intros s' T' S'. apply (Hloop (map_piece geo) (map_run geo w) (fun a pa sz c => map_range_prepared_geometry geo a pa sz (leaf_flags w c))); done. }
  { intros t tw HN3. split; [done|]. by split_and!; [|rewrite <- Ef| |]. }
  intros t tw fw L. assert (Hpub : by_page pub /\ Forall (mappable w) pub /\ (is_Some (region_of s2 w) -> pub = [])).
  { destruct Hto2 as [(E & _ & ? & ?)|(_ & -> & _)]; [|split_and!; [constructor|done|done]]. split_and!; [done|done|]. rewrite E. by intros []. }
  rewrite <- Est. eapply tend_mono; [apply (file_tend (Some v) s2 v w pub l fr t tw fw _ eq_refl); try done; [by right|intros Hin; apply Hni; by apply Hix|apply Hpub..]|].
  intros r s' [-> [P1 (pl & P2 & P2') P3 P4 P5]]. split; [done| |intros u; rewrite P3; change (indexed s2 u) with (indexed s1 u); by rewrite Hix|by etransitivity; [exact P4|exact Eu]|by rewrite <- Ef].
  exists pl. split; [|done]. rewrite P2. by rewrite <- Ev.
Qed.
End install.

Section commit.
Context (geo : Geo) (Hgeo : geo_ok geo).
Let bit := split_bit geo.
Let n := levels geo.

(** ** The frames to publish *)

Lemma covers_one w a : view_ok geo w -> covers w a a = true <-> active_in w a.
Proof using.
  intros Hw. unfold covers. rewrite (cover_true _ a a) by (apply (vo_ranges _ _ Hw) || lia). unfold active_in. rewrite current_at_span, fmap_is_Some. split.
  - intros H. apply H. lia.
  - intros H x Hx. by replace x with a by lia.
Qed.

Lemma publishable_ok w fs :
  view_ok geo w -> by_page fs -> Forall (fun p => 0 <= p.1 < view_pages w /\ page_ok p.2) fs ->
  exists l, publishable w fs = Some l /\ by_page l /\ Forall (mappable w) l /\
    forall i f, frame_of l i = Some f <-> frame_of fs i = Some f /\ active_in w (page_addr w i).
Proof using Hgeo.
  intros Hw Hs Hf.
  assert (exists l, publishable w fs = Some l /\ (forall p, p ∈ l <-> p ∈ fs /\ active_in w (page_addr w p.1)) /\ by_page l) as (l & Hl & Hin & Hby).
  { induction fs as [|[i f] fs IH]; [exists []; split; [done|]; split; [intros p; rewrite elem_of_nil; naive_solver|constructor]|].
    apply StronglySorted_inv in Hs as [Hs Hlt]. apply Forall_cons in Hf as [[Hi _] Hf]. destruct (IH Hs Hf) as (l & Hl & Hin & Hby). cbn [publishable].
    rewrite (address_run geo w i Hw Hi). cbn. rewrite Hl. cbn. destruct (covers w _ _) eqn:Hc.
    - exists ((i, f) :: l). apply covers_one in Hc; [|done]. split; [done|]. split.
      + intros p. rewrite !elem_of_cons, Hin. split; [intros [-> |]; naive_solver|naive_solver].
      + constructor; [done|]. apply Forall_forall. intros p Hp. apply Hin in Hp as [Hp _]. by eapply Forall_forall in Hlt.
    - exists l. split; [done|]. split; [|done]. intros p. rewrite elem_of_cons, Hin. split; [naive_solver|]. intros [[->|] Ha]; [|done].
      apply covers_one in Ha; [cbn in *; congruence|done]. }
  exists l. split; [done|]. split; [done|]. split.
  - apply Forall_forall. intros p [Hp Ha]%Hin. eapply Forall_forall in Hf; [|exact Hp]. by destruct Hf.
  - intros i f. split.
    + intros H%frame_of_elem%Hin. destruct H as [H1 H2]. split; [by apply elem_frame_of|done].
    + intros [H1%frame_of_elem H2]. apply elem_frame_of; [done|]. by apply Hin.
Qed.

(** ** [commit_locked] *)

(** The view is in place: it shows the frames its source had. *)
Record committed (s s' : Nest) (v : Z) (w : View) : Prop := {
  cm_inv : NInv geo None s';
  cm_view : exists l, nest_views s' = <[v := set_published l w]> (nest_views s) /\
    forall i f, region_of s w = None -> frame_of l i = Some f <->
      slot_at (flat s) (range_flat (v_source w)) (range_index (v_source w) + i) = Some (Resident f) /\ 0 <= i < view_pages w /\ active_in w (page_addr w i);
  cm_indexed : forall u, indexed s' u <-> u = v \/ indexed s u;
  cm_core : core s' = core s;
  cm_flat : tended (flat s) (flat s')
}.

Definition kept_off (s s' : Nest) (v : Z) : Prop := NInv geo (Some v) s' /\ untouched s s'.

Lemma untouched_set s w hs g : tended (flat s) w -> hs = held s -> untouched s (set_grant g (set_flat w hs s)).
Proof using. intros T ->. by split_and!. Qed.

Lemma untouched_trans s1 s2 s3 : untouched s1 s2 -> untouched s2 s3 -> untouched s1 s3.
Proof using. intros (A1 & A2 & A3 & A4) (B1 & B2 & B3 & B4). split_and!; [congruence|by etransitivity|congruence..]. Qed.

Lemma commit_locked_tend s v w :
  NInv geo (Some v) s -> nest_views s !! v = Some w -> v_published w = [] -> v_active w <> [] ->
  tend geo (commit_locked geo v) s (fun r s' =>
    match r with
    | Ok pages => committed s s' v w /\ held s' = match pages with Some h => h :: held s | None => held s end
    | Err _ => kept_off s s' v
    end).
Proof using Hgeo.
  intros HN Hw Hp Ha. destruct (ni_views _ _ _ HN v w Hw) as [Kw Kid Ks Kb]. pose proof (ni_fresh _ _ _ HN v eq_refl) as Hni.
  unfold commit_locked. apply tend_bind. eapply tend_get_view; [exact Hw|]. cbv beta iota zeta. apply tend_bind. eapply tend_is_borrowed; [exact HN|exact Hw|].
  case_bool_decide as Hb.
  - apply tend_bind. eapply tend_materialize; [exact HN|exact Ks| |].
    2: { intros e fw T HN1. by split; [|split_and!]. }
    intros h fw Hh T _ _ HN1. set (s1 := set_flat fw _ s) in *. apply tend_on_err. apply tend_bind.
    assert (Hdrop : forall s2, NInv geo (Some v) s2 -> untouched s1 s2 -> exists x s3, drop_hold h s2 = Some (x, s3) /\
      (able geo s2 -> able geo s3) /\ is_closed s3 = is_closed s2 /\ match x with Ok _ => kept_off s s3 v | Err _ => False end).
    { intros s2 HN2 (U1 & U2 & U3 & U4). apply outer_core in U1 as [U1 U5]. destruct (drop_run geo (Some v) s2 h [] (held s) HN2 U5) as (fw2 & E & T2 & _ & HN3).
      eexists _, _. split; [exact E|]. split; [intros Hab; by apply (same_able_stays geo s2)|]. split; [done|]. split; [done|]. split_and!.
      - apply outer_core. split; [exact U1|done].
      - by etransitivity; [exact T|etransitivity].
      - exact U3.
      - exact U4. }
    apply tend_try.
    2: { intros g. apply Hdrop; [by apply NInv_grant|by split_and!]. }
    intros g. apply tend_bind. eapply tend_mono; [apply (install_tend geo Hgeo _ v w [] (v_active w)); [by apply NInv_grant|done..|]|].
    { right. split; [|done]. by rewrite (region_tended s). }
    intros r s2 Hr. destruct r as [[]|e].
    + apply tend_ret. destruct Hr as [P1 (l & P2 & P3) P4 P5 P6]. apply outer_core in P5 as [P5 P7]. split; [|done]. split; [done| |done|exact P5|by etransitivity].
      exists l. split; [done|]. intros i f Hno. exfalso. rewrite Hno in Hb. by destruct Hb.
    + apply Hdrop; [apply Hr|]. apply (untouched_trans _ (set_grant g s1)); [by split_and!|apply Hr].
  - assert (Hno : region_of s w = None) by (destruct (region_of s w); [by destruct Hb; eauto|done]).
    destruct (geom_range _ _ Ks) as (c & o & Hg & _). assert (o = None) as -> by (unfold region_of in Hno; by rewrite Hg in Hno).
    destruct (materialized_run (held s) (flat s) (v_source w) c (ni_flat _ _ _ HN) Ks Hg) as (x & fw & E & T & Sl & So & Hx).
    apply tend_bind. eapply tend_run; [unfold on_flat; rewrite E; reflexivity|done|]. set (s1 := set_flat fw (held s) s).
    assert (HN1 : NInv geo (Some v) s1) by by apply NInv_flat. destruct x as [fs|e]; [|by split; [|split_and!]]. destruct Hx as (Hby & Hfs & Hfr).
    rewrite (vo_count _ _ Kw) in Hfs, Hfr. apply tend_bind, tend_try; [|by intros g; split; [by apply NInv_grant|split_and!]]. intros g.
    destruct (publishable_ok w fs Kw Hby Hfs) as (l & Hl & Hlb & Hlm & Hlf). apply tend_bind. eapply tend_expect; [exact Hl|]. apply tend_bind.
    eapply tend_mono; [apply (install_tend geo Hgeo _ v w l []); [by apply NInv_grant|done..|]|].
    { left. split; [|done]. by rewrite (region_tended s). }
    intros r s2 Hr. destruct r as [[]|e].
    + apply tend_ret. destruct Hr as [P1 (pl & P2 & P3) P4 P5 P6]. apply outer_core in P5 as [P5 P7]. split; [|done]. split; [done| |done|exact P5|by etransitivity].
      exists pl. split; [done|]. intros i f _. rewrite P3, Hlf, Hfr. naive_solver.
    + split; [apply Hr|]. apply (untouched_trans _ (set_grant g s1)); [by split_and!|apply Hr].
Qed.

(** ** [commit] *)

(** A view that is in place, with nothing else moved. *)
Record attached (s s' : Nest) (v : Z) (w : View) : Prop := {
  at_inv : NInv geo None s';
  at_view : exists l, nest_views s' = <[v := set_published l w]> (nest_views s) /\
    forall i f, region_of s w = None -> frame_of l i = Some f <->
      slot_at (flat s) (range_flat (v_source w)) (range_index (v_source w) + i) = Some (Resident f) /\ 0 <= i < view_pages w /\ active_in w (page_addr w i);
  at_indexed : forall u, indexed s' u <-> u = v \/ indexed s u;
  at_near : near s' = near s;
  at_flat : tended (flat s) (flat s')
}.

(** A view that is not in place. *)
Record held_off (s s' : Nest) (v : Z) : Prop := {
  ho_inv : NInv geo (Some v) s';
  ho_views : nest_views s' = nest_views s;
  ho_index : ns_index (ns s') = ns_index (ns s);
  ho_near : near s' = near s;
  ho_flat : tended (flat s) (flat s')
}.

Lemma near_core s s' : core s' = core s -> held s' = held s -> near s' = near s.
Proof using. intros. by apply outer_near, outer_core. Qed.

Lemma commit_tend s v w :
  NInv geo (Some v) s -> nest_views s !! v = Some w -> v_published w = [] -> v_active w <> [] ->
  tend geo (commit geo v) s (fun r s' =>
    match r with
    | Ok _ => attached s s' v w /\ ns_invalidation (ns s') = Clean
    | Err e => held_off s s' v \/ e = Shootdown /\ attached s s' v w
    end).
Proof using Hgeo.
  intros HN Hw Hp Ha. destruct (ni_views _ _ _ HN v w Hw) as [Kw Kid Ks Kb].
  unfold commit. apply tend_bind. eapply tend_get_view; [exact Hw|]. apply tend_bind, tend_get. cbv beta iota.
  destruct (has_id _ _); cbn [negb]; [|apply tend_fail; left; by split].
  destruct (prepare_cleanup_run (res_gen (v_res w)) (occ s)) as (x & o & E & Et).
  assert (HO : OInv o) by by eapply OInv_table, HN.
  apply tend_bind. eapply tend_on_occ; [exact E|by apply table_tickets|]. set (s1 := set_occ o s). assert (HN1 : NInv geo (Some v) s1) by by apply NInv_occ.
  assert (Hn1 : near s1 = near s) by (unfold near; cbn; by rewrite Et). destruct x as [[]|e]; [|left; by split].
  apply tend_bind. eapply tend_reside; [exact HN1|exact Ks| |].
  2: { intros e fw T HN2. left. by split. }
  intros lease fw Hl T Sl HN2. set (s2 := set_flat fw _ s1) in *. apply tend_bind, tend_finally.
  eapply tend_mono; [apply (commit_locked_tend s2 v w HN2 Hw Hp Ha)|]. intros r s3 Hr. destruct r as [pages|e].
  - destruct Hr as [[C1 (l & C2 & C3) C4 C5 C6] Hh].
    assert (exists l1, held s3 = l1 ++ lease :: held s /\ l1 = match pages with Some h => [h] | None => [] end) as (l1 & Hh3 & El1).
    { destruct pages as [h|]; [exists [h]|exists []]; done. }
    destruct (drop_run geo None s3 lease l1 (held s) C1 Hh3) as (fw3 & E3 & T3 & _ & HN4). set (s4 := set_flat fw3 _ s3) in *.
    exists s4. split; [exact E3|]. split; [done|]. split; [done|]. apply tend_finally.
    assert (Hat : forall s5, NInv geo None s5 -> fenced s4 s5 -> exists fw5, drop_pages pages s5 = Some (Ok tt, set_flat fw5 (held s) s5) /\ attached s (set_flat fw5 (held s) s5) v w).
    { intros s5 HN5 F. destruct (fenced_calm _ _ F) as ([_ Fi Fv Ft _] & Fo & Fh & Ff & _). pose proof (fenced_outer _ _ F) as Fu. apply outer_core in Fu as [Fu _].
      assert (exists fw5, drop_pages pages s5 = Some (Ok tt, set_flat fw5 (held s) s5) /\ tended (flat s5) fw5 /\ NInv geo None (set_flat fw5 (held s) s5)) as (fw5 & E5 & T5 & HN6).
      { cbn in Fh. rewrite El1 in Fh. destruct pages as [h|]; cbn [app] in Fh.
        - destruct (drop_run geo None s5 h [] (held s) HN5 Fh) as (fw5 & E5 & T5 & _ & HN6). by exists fw5.
        - exists (flat s5). rewrite <- Fh. replace (set_flat (flat s5) (held s5) s5) with s5 by (by destruct s5). done. }
      exists fw5. split; [exact E5|]. split.
      - done.
      - exists l. split; [cbn; rewrite Fv; exact C2|]. intros i f Hno.
        assert (Ereg : region_of s2 w = None) by (rewrite (region_tended s s2); [done|exact T|exact Ks]).
        rewrite C3 by done. by rewrite Sl.
      - intros u. unfold indexed at 1. cbn. rewrite Fi. apply C4.
      - rewrite <- Hn1. apply (near_core s1); [|done]. etransitivity; [exact Fu|]. exact C5.
      - cbn. etransitivity; [exact T|]. etransitivity; [exact C6|]. etransitivity; [exact T3|]. by etransitivity. }
    eapply (tend_finish geo None); [exact HN4|]. intros r s5 HN5 [F Hr]. destruct (Hat s5 HN5 F) as (fw5 & E5 & A5).
    eexists. split; [exact E5|]. split; [done|]. split; [done|]. destruct r as [[]|e]; [by destruct Hr as [Hr _]|]. right. by destruct Hr as [-> _].
  - destruct Hr as [HN3 (U1 & U2 & U3 & U4)]. apply outer_core in U1 as [U1 U5].
    destruct (drop_run geo (Some v) s3 lease [] (held s) HN3 U5) as (fw3 & E3 & T3 & _ & HN4).
    eexists. split; [exact E3|]. split; [done|]. split; [done|]. left. split; [done|exact U3|exact U4| |].
    + rewrite <- Hn1. by apply (near_core s1).
    + cbn. etransitivity; [exact T|]. by etransitivity.
Qed.
End commit.

(** ** New views *)

(** What the types of reservations and of active ranges guarantee. *)
Record range_made (a : ActiveRange) : Prop := {
  rm_new : ActiveRange_new (a_start a) (a_size a) (a_ceiling a) (a_current a) = Ok a;
  rm_start : 0 <= a_start a;
  rm_size : 0 < a_size a;
  rm_word : a_start a + a_size a <= 2 ^ 64;
  rm_bits : 0 <= a_current a < 8
}.

Section attach.
Context (geo : Geo) (Hgeo : geo_ok geo).
Let bit := split_bit geo.

Definition reservation_made (r : Reservation) : Prop :=
  canon_range geo (res_start r) (res_size r / 4096) /\ res_size r mod 4096 = 0.

Lemma made_range r a end_ :
  reservation_made r -> range_made a -> end_ = res_start r + (res_size r - 1) -> (a_start a <? res_start r) || (end_ <? a_end a) = false ->
  ActiveInv.range_ok bit a /\ forall at_ act src, page_range (mkView r at_ act src []) a.
Proof using.
  intros [Hc Hm] [R1 R2 R3 R4 R5] -> Hin. to_prop. unfold ActiveRange_new in R1. rewrite (proj2 (Z.eqb_neq _ 0)) in R1 by lia.
  destruct (_ || _) eqn:Hb in R1; [done|]. to_prop. unfold VirtAddr_offset in *. rewrite land_page in *. change PAGE_SIZE with 4096 in *.
  assert (Es : res_size r = res_size r / 4096 * 4096) by (pose proof (Z.div_mod (res_size r) 4096); lia).
  assert (He : a_end a = a_start a + a_size a - 1) by (unfold a_end, saturating_add; rewrite usize_MAX_eq; lia).
  split; [split; [done|done|rewrite usize_MAX_eq; lia| |done]|].
  - pose proof (cr_half _ _ _ Hc) as Hh. unfold bit, one_half in *. generalize dependent (2 ^ split_bit geo). intros p Hh. lia.
  - intros at_ act src. split; [done|done| |done]. unfold initial_start, res_last. cbn. lia.
Qed.

Lemma overlapping_sorted l : Forall (ActiveInv.range_ok bit) l -> overlapping l = false -> spans_sorted l.
Proof using.
  induction l as [|a l IH]; intros Hok Ho; [apply spans_sorted_nil|]. apply Forall_cons in Hok as [Ha Hok]. destruct l as [|b l].
  - apply spans_sorted_cons. split; [by eapply range_span_ok|]. split; [apply spans_sorted_nil|]. intros c Hc. by apply elem_of_nil in Hc.
  - cbn [overlapping] in Ho. apply orb_false_iff in Ho as [Hab Ho]. specialize (IH Hok Ho). apply spans_sorted_cons. split; [by eapply range_span_ok|]. split; [done|].
    apply Z.leb_gt in Hab. intros c [->|Hc]%elem_of_cons; [exact Hab|]. apply spans_sorted_cons in IH as (Hb & _ & Hlt). specialize (Hlt c Hc).
    unfold span_ok in Hb. cbn in *. lia.
Qed.

Lemma NInv_new s v w :
  NInv geo None s -> nest_views s !! v = None -> known geo s v w -> v_published w = [] ->
  NInv geo (Some v) (set_views (<[v := w]> (nest_views s)) s).
Proof using.
  intros HN Hv Kn Hp. pose proof HN as [I1 I2 I3 I4 J1 J2 I5 I6 I7 I8 I9]. set (s' := set_views _ s).
  assert (Hni : ~ indexed s v) by (intros Hi; destruct (indexed_view geo s v I1 Hi) as (w0 & ? & _); congruence).
  assert (Est : store s' = <[v := v_active w]> (store s)) by by apply store_put.
  assert (Hlk : forall u w0, nest_views s' !! u = Some w0 -> (u = v /\ w0 = w) \/ (u <> v /\ nest_views s !! u = Some w0)).
  { intros u w0. unfold s'. cbn. rewrite lookup_insert_Some. intros [[<- <-]|[? ?]]; [by left|by right]. }
  split; try done.
  - rewrite Est. by apply store_inv.
  - intros u w0 [[-> ->]|[Hu Hw0]]%Hlk; by apply (known_tended geo s); [|auto].
  - intros u w0 [[-> ->]|[Hu Hw0]]%Hlk Ha Hf; [done|]. by apply (I3 u w0).
  - intros u w0 [[-> ->]|[Hu Hw0]]%Hlk Hpu; [done|]. by apply (I4 u w0).
  - intros u Hu. destruct (J1 u Hu) as [[w0 Hw0] _]. cbn. assert (u <> v) by congruence. split; [by rewrite lookup_insert_ne|congruence].
  - intros u [= <-]. done.
  - intros a Ha Hal. change (ns_root (ns s')) with (ns_root (ns s)). rewrite I7 by done.
    assert (HI' : IInv bit (mkSpace (store s') (ns_index (ns s')))) by (rewrite Est; by apply store_inv).
    destruct (wants_cases geo s a I1) as [(u & w0 & Hu & Hw0 & Hin & _ & ->)|(Hno & _ & ->)].
    + assert (u <> v) by congruence. destruct (wants_in geo s' a u w0 HI') as [_ ->]; [done|cbn; by rewrite lookup_insert_ne|done|done].
    + symmetry. apply (wants_out geo); [done|]. intros u w0 Hu Hw0. destruct (Hlk _ _ Hw0) as [[-> ->]|[? ?]]; [done|]. by apply (Hno u w0).
Qed.

(** A view that was never in place is dropped. *)
Lemma NInv_drop s v rg : NInv geo (Some v) s -> NInv geo None (set_registry rg (set_views (delete v (nest_views s)) s)).
Proof using.
  intros HN. pose proof HN as [I1 I2 I3 I4 J1 J2 I5 I6 I7 I8 I9]. set (s' := set_registry _ _). pose proof (J2 v eq_refl) as Hni.
  assert (Hlk : forall u w0, nest_views s' !! u = Some w0 -> u <> v /\ nest_views s !! u = Some w0).
  { intros u w0. unfold s'. cbn. rewrite lookup_delete_Some. naive_solver. }
  assert (Hag : agree_but v (store s) (store s')).
  { intros u Hu. unfold active, store, s'. cbn. by rewrite !lookup_fmap, lookup_delete_ne. }
  assert (HI' : IInv bit (mkSpace (store s') (ns_index (ns s')))) by by apply (store_agree _ v (store s)).
  split; try done.
  - intros u w0 [_ Hw0]%Hlk; by apply (known_tended geo s); [|auto].
  - intros u w0 [Hu Hw0]%Hlk Ha _. apply (I3 u w0); [done|done|congruence].
  - intros u w0 [Hu Hw0]%Hlk Hp. by apply (I4 u w0).
  - intros u Hu. destruct (J1 u Hu) as [[w0 Hw0] Hf]. split; [|done]. cbn. rewrite lookup_delete_ne by congruence. by eexists.
  - intros a Ha Hal. change (ns_root (ns s')) with (ns_root (ns s)). rewrite I7 by done.
    destruct (wants_cases geo s a I1) as [(u & w0 & Hu & Hw0 & Hin & _ & ->)|(Hno & _ & ->)].
    + assert (u <> v) by congruence. destruct (wants_in geo s' a u w0 HI') as [_ ->]; [done|cbn; by rewrite lookup_delete_ne|done|done].
    + symmetry. apply (wants_out geo); [done|]. intros u w0 Hu [? Hw0]%Hlk. by apply (Hno u w0).
Qed.

(** ** Failure *)

Lemma give_back_run f s r : NInv geo f s ->
  exists o, give_back_unpublished r s = Some (Ok tt, set_occ o s) /\ OInv o /\ (spare_tickets (occ s) -> spare_tickets o) /\ moved (res_gen r) (occ s) o.
Proof using.
  intros HN. unfold give_back_unpublished, give_back, on_occ. munfold. destruct (_ =? _).
  - destruct (release_spare (res_start r) (res_start r + (res_size r - 1)) (res_gen r) (occ s) (ni_occ _ _ _ HN)) as (b & o & E & HO & Hm & Hs & _).
    exists o. munfold. rewrite E. by split_and!.
  - exists (occ s). munfold. split_and!; [by destruct s|apply HN|done|reflexivity].
Qed.

(** The space as before, up to what the caller gave back and the allocations. *)
Record given_back (g : Z) (s s' : Nest) : Prop := {
  gb_inv : NInv geo None s';
  gb_views : nest_views s' = nest_views s;
  gb_index : ns_index (ns s') = ns_index (ns s);
  gb_rest : rest s' = rest s;
  gb_cleanup : cleanup s' = cleanup s;
  gb_moved : moved g (occ s) (occ s');
  gb_flat : tended (flat s) (flat s')
}.

Lemma given_occ g s o : NInv geo None s -> OInv o -> moved g (occ s) o -> given_back g s (set_occ o s).
Proof using. intros HN HO Hm. split; try done. by apply NInv_occ. Qed.

Lemma able_occ s o : (spare_tickets (occ s) -> spare_tickets o) -> able geo s -> able geo (set_occ o s).
Proof using. intros H [F T]. split; [done|]. by apply H. Qed.

(** [m], or the reservation goes back. *)
Lemma tend_or_give {A} (m : NM A) r s (Q : result NestError A -> Nest -> Prop) :
  tend geo m s (fun x s' => match x with Ok a => Q (Ok a) s' | Err e => NInv geo None s' /\ forall o, OInv o -> moved (res_gen r) (occ s') o -> Q (Err e) (set_occ o s') end) ->
  tend geo (on_err m (give_back_unpublished r)) s Q.
Proof using.
  intros H. apply tend_on_err. eapply tend_mono; [exact H|]. intros [a|e] s' Hs; [done|]. destruct Hs as [HN HQ].
  destruct (give_back_run None s' r HN) as (o & E & HO & Hsp & Hm). eexists _, _. split; [exact E|]. split; [by apply able_occ|]. split; [done|by apply HQ].
Qed.

Lemma tend_abandon {A} r e s (Q : result NestError A -> Nest -> Prop) :
  NInv geo None s -> (forall o, OInv o -> moved (res_gen r) (occ s) o -> Q (Err e) (set_occ o s)) -> tend geo (abandon r e) s Q.
Proof using.
  intros HN HQ. destruct (give_back_run None s r HN) as (o & E & HO & Hsp & Hm). unfold tend, gp, abandon, mbind, M_bind. rewrite E. unfold fail.
  split; [|by apply HQ]. intros Ha _. by apply able_occ.
Qed.

Lemma referenced_false f s v : NInv geo f s -> f = Some v -> referenced s v = false.
Proof using.
  intros HN ->. unfold referenced. apply not_true_is_false. intros (u & Hu & E)%existsb_exists. apply Z.eqb_eq in E as ->. apply list_elem_of_In in Hu.
  apply elem_of_app in Hu as [Hu|Hu]; [|by destruct (ni_refs _ _ _ HN v Hu)]. apply (ni_fresh _ _ _ HN v eq_refl). unfold indexed. unfold Index_collect in Hu. by rewrite collect_views_eq in Hu.
Qed.

Lemma referenced_true s v : indexed s v -> referenced s v = true.
Proof using.
  intros H. unfold referenced. apply existsb_exists. exists v. split; [|apply Z.eqb_refl]. apply list_elem_of_In, elem_of_app. left. unfold Index_collect. by rewrite collect_views_eq.
Qed.

Lemma settle_off s v w :
  NInv geo (Some v) s -> nest_views s !! v = Some w ->
  exists o rg, settle_failed_install v s = Some (Ok tt, set_occ o (set_registry rg (set_views (delete v (nest_views s)) s))) /\
    OInv o /\ (spare_tickets (occ s) -> spare_tickets o) /\ moved (res_gen (v_res w)) (occ s) o.
Proof using.
  intros HN Hw. unfold settle_failed_install, get_view. munfold. rewrite Hw. munfold. rewrite bool_decide_eq_false_2.
  2: { intros Hf. apply (find_iff geo) in Hf as [Hf _]; [|apply HN]. by apply (ni_fresh _ _ _ HN v). }
  destruct (give_back_run (Some v) s (v_res w) HN) as (o & E & HO & Hsp & Hm). rewrite E. exists o, (retain (fun r => negb (r.2 =? v)) (registry s)). unfold drop_view, modify. munfold.
  change (referenced (set_occ o s) v) with (referenced s v). rewrite (referenced_false _ s v HN eq_refl). by split_and!.
Qed.

Lemma settle_on s v w :
  NInv geo None s -> nest_views s !! v = Some w -> indexed s v ->
  exists s', settle_failed_install v s = Some (Ok tt, s') /\ NInv geo None s' /\ (able geo s -> able geo s') /\ is_closed s' = is_closed s /\
    nest_views s' = nest_views s /\ ns s' = ns s /\ rest s' = rest s /\ flat s' = flat s /\
    (active_in w (initial_start w) -> table_of (occ s') = table_of (occ s)).
Proof using.
  intros HN Hw Hi. unfold settle_failed_install, get_view. munfold. rewrite Hw. munfold. case_bool_decide as Hfd.
  - destruct (take_cleanup_run (res_gen (v_res w)) (occ s)) as (b & o & E & Et). assert (HO : OInv o) by by eapply OInv_table, HN.
    unfold on_occ. rewrite E. assert (HN1 : NInv geo None (set_occ o s)) by by apply NInv_occ. assert (Hab : able geo s -> able geo (set_occ o s)) by (apply able_occ, table_tickets, Et).
    destruct b; [|eexists; split; [reflexivity|]; by split_and!]. unfold enqueue_cleanup, modify. munfold. eexists. split; [reflexivity|]. case_match; [by split_and!|].
    split_and!; [|intros Ha; by apply (same_able_stays geo (set_occ o s)); [|apply Hab]|done..].
    destruct HN1 as [I1 I2 I3 I4 J1 J2 I5 I6 I7 I8 I9]. split; try done; [intros u w0 Hu; by apply (known_tended geo s); [|apply HN]|].
    intros u Hu. split; [|done]. unfold refs in Hu. cbn in Hu. apply elem_of_app in Hu as [Hu|[->|Hu]%elem_of_cons]; [apply J1; apply elem_of_app; by left|by eexists|apply J1; apply elem_of_app; by right].
  - destruct (give_back_run None s (v_res w) HN) as (o & E & HO & Hsp & Hm). rewrite E. unfold drop_view, modify. munfold.
    change (referenced (set_occ o s) v) with (referenced s v). rewrite (referenced_true s v Hi). eexists. split; [reflexivity|].
    split_and!; [by apply NInv_occ|by apply able_occ|done..|]. intros Ha. destruct Hfd. apply (find_iff geo); [apply HN|]. split; [done|]. by apply (active_covered s v w).
Qed.

(** ** [attach_shaped] and [attach] *)

Lemma new_view_known s r at_ act src end_ :
  reservation_made r -> Forall range_made act -> wf_range (flat s) src -> 0 <= at_ < 256 -> attrs_are_architectural at_ = true ->
  checked_add (res_start r) (res_size r - 1) = Some end_ -> checked_bytes (range_count src) = Some (res_size r) ->
  any (fun a => (a_start a <? res_start r) || (end_ <? a_end a)) act = false -> overlapping act = false ->
  known geo s (res_gen r) (mkView r at_ act src []).
Proof using.
  intros Hr Ha Hs Hb Hat Hend Hcnt Hin Hov. pose proof Hr as [Hc Hm]. apply checked_Some in Hend as [<- _]. unfold checked_bytes, checked_mul in Hcnt. apply checked_Some in Hcnt as [Hcnt _].
  assert (Hok : Forall (fun a => ActiveInv.range_ok bit a /\ page_range (mkView r at_ act src []) a) act).
  { apply Forall_forall. intros a Hel. eapply Forall_forall in Ha; [|exact Hel].
    assert (Hx : (a_start a <? res_start r) || (res_start r + (res_size r - 1) <? a_end a) = false).
    { apply not_true_is_false. intros Hx. assert (any (fun a => (a_start a <? res_start r) || (res_start r + (res_size r - 1) <? a_end a)) act = true); [|congruence].
      apply existsb_exists. exists a. split; [by apply list_elem_of_In|done]. }
    destruct (made_range r a _ Hr Ha eq_refl Hx) as [H1 H2]. split; [done|apply H2]. }
  apply Forall_and in Hok as [Hok1 Hok2]. split; [|done|done|done]. split; try done.
  - unfold view_pages, initial_size. cbn. pose proof (Z.div_mod (res_size r) 4096). lia.
  - split; [by apply overlapping_sorted|done].
  - unfold view_pages, initial_size. cbn. change PAGE_SIZE with 4096 in Hcnt. rewrite <- Hcnt. by rewrite Z.div_mul.
  - constructor.
Qed.

Definition new_view (r : Reservation) (at_ : Z) (act : list ActiveRange) (src : FlatRange) : View := mkView r at_ act src [].

Record attach_done (s s' : Nest) (v : Z) (w : View) : Prop := {
  ad_inv : NInv geo None s';
  ad_view : exists l, nest_views s' = <[v := set_published l w]> (nest_views s) /\
    forall i f, region_of s w = None -> frame_of l i = Some f <->
      slot_at (flat s) (range_flat (v_source w)) (range_index (v_source w) + i) = Some (Resident f) /\ 0 <= i < view_pages w /\ active_in w (page_addr w i);
  ad_indexed : forall u, indexed s' u <-> u = v \/ indexed s u;
  ad_rest : rest s' = rest s;
  ad_table : active_in w (initial_start w) -> table_of (occ s') = table_of (occ s);
  ad_flat : tended (flat s) (flat s')
}.

Lemma attach_shaped_tend s r src at_ act :
  NInv geo None s -> nest_views s !! res_gen r = None -> reservation_made r -> Forall range_made act -> wf_range (flat s) src -> 0 <= at_ < 256 ->
  tend geo (attach_shaped geo r src at_ act) s (fun x s' =>
    match x with
    | Ok v => v = res_gen r /\ attach_done s s' v (new_view r at_ act src) /\ near s' = near s /\ ns_invalidation (ns s') = Clean
    | Err e => given_back (res_gen r) s s' \/ e = Shootdown /\ attach_done s s' (res_gen r) (new_view r at_ act src)
    end).
Proof using Hgeo.
  intros HN Hv Hr Ha Hs Hb. unfold attach_shaped. apply tend_bind, tend_or_give. unfold check_owner. apply tend_bind, tend_get.
  destruct (_ =? _); [apply tend_ret|apply tend_fail; split; [done|]; intros o HO Hm; left; by apply given_occ].
  destruct (attrs_are_architectural at_) eqn:Hat; cbn [negb]; [|apply tend_abandon; [done|]; intros o HO Hm; left; by apply given_occ].
  apply tend_bind, tend_or_give, tend_try.
  2: { intros g. split; [by apply NInv_grant|]. intros o HO Hm. left. split; try done. by apply NInv_occ; [apply NInv_grant|]. }
  intros g. set (s1 := set_grant g s). assert (HN1 : NInv geo None s1) by by apply NInv_grant.
  assert (Hab : forall o, OInv o -> moved (res_gen r) (occ s) o -> given_back (res_gen r) s (set_occ o s1)) by (intros o HO Hm; split; try done; by apply NInv_occ).
  unfold View_new. apply tend_bind. destruct (checked_add _ _) as [end_|] eqn:Hend; [|apply tend_abandon; [done|]; intros o HO Hm; left; by apply Hab].
  destruct (_ || _) eqn:Hck; [apply tend_abandon; [done|]; intros o HO Hm; left; by apply Hab|].
  destruct (any _ act) eqn:Hin; [apply tend_abandon; [done|]; intros o HO Hm; left; by apply Hab|].
  destruct (overlapping act) eqn:Hov; [apply tend_abandon; [done|]; intros o HO Hm; left; by apply Hab|].
  apply orb_false_iff in Hck as [Hck Hcnt]. apply orb_false_iff in Hck as [_ Hne]. apply negb_false_iff, bool_decide_eq_true in Hcnt. apply bool_decide_eq_false in Hne.
  apply tend_bind, tend_or_give, tend_try.
  2: { intros g'. split; [by apply NInv_grant|]. intros o HO Hm. left. split; try done. by apply NInv_occ; [apply NInv_grant|]. }
  intros g'. set (s2 := set_grant g' s1). assert (HN2 : NInv geo None s2) by by apply NInv_grant.
  pose proof (new_view_known s2 r at_ act src end_ Hr Ha Hs Hb Hat Hend Hcnt Hin Hov) as Kn. set (w := mkView r at_ act src []) in *. set (v := res_gen r) in *.
  apply tend_bind. unfold put_view. apply tend_set; [done|]. apply tend_ret. set (s3 := set_views _ s2).
  assert (HN3 : NInv geo (Some v) s3) by by apply NInv_new.
  assert (Hw3 : nest_views s3 !! v = Some w) by (cbn; by rewrite lookup_insert_eq).
  assert (Hdone : forall s4, attached geo s3 s4 v w -> attach_done s s4 v w /\ near s4 = near s).
  { intros s4 [A1 (l & A2 & A3) A4 A5 A6]. split; [|exact A5]. destruct (near_rest s3 s4 A5) as (N1 & N2 & _). split; [done| |exact A4|exact N1|by intros _|exact A6].
    exists l. split; [rewrite A2; cbn; by rewrite insert_insert_eq|done]. }
  apply tend_bind, tend_on_err. eapply tend_mono; [by apply (commit_tend geo Hgeo s3 v w)|]. intros x s4 Hx. destruct x as [[]|e].
  { apply tend_ret. destruct Hx as [Hx Hc]. destruct (Hdone s4 Hx). by split_and!. }
  destruct Hx as [[O1 O2 O3 O4 O5]|[-> Hx]].
  - assert (Hw4 : nest_views s4 !! v = Some w) by by rewrite O2. destruct (settle_off s4 v w O1 Hw4) as (o & rg & E & HO & Hsp & Hm).
    eexists _, _. split; [exact E|]. split; [intros Hab4; apply able_occ; [exact Hsp|]; by apply (same_able_stays geo s4)|]. split; [done|]. left. split.
    + apply NInv_occ; [by apply NInv_drop|done].
    + cbn. rewrite O2. cbn. by rewrite delete_insert_id.
    + exact O3.
    + destruct (near_rest s3 s4 O4) as (N1 & _ & _). exact N1.
    + destruct (near_rest s3 s4 O4) as (_ & _ & N3). exact N3.
    + cbn [occ set_occ]. etransitivity; [|exact Hm]. destruct (near_rest s3 s4 O4) as (_ & N2 & _). exact (moved_table _ _ _ N2).
    + exact O5.
  - destruct (Hdone s4 Hx) as [[D1 (l & D2 & D3) D4 D5 D5' D6] _]. assert (Hw4 : nest_views s4 !! v = Some (set_published l w)) by (rewrite D2; by rewrite lookup_insert_eq).
    destruct (settle_on s4 v _ D1 Hw4 ltac:(apply D4; by left)) as (s5 & E & HN5 & Hab5 & Hc5 & E1 & E2 & E3 & E4 & E5). eexists _, _. split; [exact E|]. split; [done|]. split; [done|].
    right. split; [done|]. split; [done| | |congruence|intros Hat'; rewrite E5 by done; by apply D5'|by rewrite E4].
    + exists l. split; [by rewrite E1|done].
    + intros u. unfold indexed at 1. rewrite E2. apply D4.
Qed.

Lemma attach_view_tend s r src ceiling current :
  NInv geo None s -> nest_views s !! res_gen r = None -> reservation_made r -> wf_range (flat s) src ->
  0 <= current < 8 -> let w := new_view r (attrs (res_region r) (kind s)) [Active.mkRange (res_start r) (res_size r) ceiling current] src in
  tend geo (attach_view geo r src ceiling current) s (fun x s' =>
    match x with
    | Ok v => v = res_gen r /\ attach_done s s' v w /\ near s' = near s /\ ns_invalidation (ns s') = Clean
    | Err e => given_back (res_gen r) s s' \/ e = Shootdown /\ attach_done s s' (res_gen r) w
    end).
Proof using Hgeo.
  intros HN Hv Hr Hs Hc w. unfold attach_view. apply tend_bind, tend_or_give. unfold check_owner. apply tend_bind, tend_get.
  destruct (_ =? _); [apply tend_ret|apply tend_fail; split; [done|]; intros o HO Hm; left; by apply given_occ]. apply tend_bind, tend_get.
  destruct (ActiveRange_new _ _ _ _) as [a|e] eqn:Ea; [|apply tend_abandon; [done|]; intros o HO Hm; left; by apply given_occ].
  assert (a = Active.mkRange (res_start r) (res_size r) ceiling current) as Eq.
  { revert Ea. unfold ActiveRange_new. destruct (_ =? 0); [done|]. destruct (_ || _); [done|]. by intros [= <-]. }
  subst a. apply attach_shaped_tend; try done.
  - apply Forall_singleton. destruct Hr as [Hcr Hm]. destruct Hcr. pose proof (Z.div_mod (res_size r) 4096). split; [exact Ea|cbn; lia..].
  - unfold attrs, PTE_A, PTE_D, PTE_U. destruct (_ && _); vm_compute; split; congruence.
Qed.
End attach.
