(* ===== verification/NestPublish.v ===== *)
(** * Address spaces: publishing the pages a source has *)

From stdpp Require Import sorting.
From S2P Require Import Prelude.
From S2P Require Import Table.
From S2P Require Import Flat.
From S2P Require Import FlatInv.
From S2P Require Import FlatSystem.
From S2P Require Import Spans.
From S2P Require Import Occupancy.
From S2P Require Import OccupancyInv.
From S2P Require Import OccupancySystem.
From S2P Require Import Active.
From S2P Require Import ActiveInv.
From S2P Require Import Index.
From S2P Require Import IndexInv.
From S2P Require Import IndexSystem.
From S2P Require Import Paging.
From S2P Require Import PagingInv.
From S2P Require Import PagingUnmap.
From S2P Require Import PagingRuns.
From S2P Require Import View.
From S2P Require Import ViewInv.
From S2P Require Import Nest.
From S2P Require Import NestFlat.
From S2P Require Import NestInv.
From S2P Require Import NestSteps.
From S2P Require Import NestCommit.

Open Scope Z_scope.

(** ** Lists of frames *)

Lemma frame_shift fs k i : frame_of ((fun p => (k + p.1, p.2)) <$> fs) i = frame_of fs (i - k).
Proof.
  induction fs as [|[j f] fs IH]; [done|]. rewrite fmap_cons, !frame_of_cons, IH. cbn. destruct (Z.eqb_spec (k + j) i), (Z.eqb_spec j (i - k)); (done || lia).
Qed.

Lemma by_page_shift fs k : by_page fs -> by_page ((fun p => (k + p.1, p.2)) <$> fs).
Proof.
  induction 1 as [|[j f] fs Hs IH Hlt]; [constructor|]. rewrite fmap_cons. constructor; [done|]. apply Forall_forall. intros q (p & -> & Hp)%list_elem_of_fmap.
  eapply Forall_forall in Hlt; [|exact Hp]. cbn in *. lia.
Qed.

Lemma by_page_retain q fs : by_page fs -> by_page (retain q fs).
Proof.
  induction 1 as [|p fs Hs IH Hlt]; [constructor|]. unfold retain in *. cbn. destruct (q p); [|done]. constructor; [done|]. apply Forall_forall. intros x Hx.
  apply list_elem_of_In, filter_In in Hx as [Hx%list_elem_of_In _]. by eapply Forall_forall in Hlt.
Qed.

Lemma publishes_frame w i : publishes w i = false <-> frame_of (v_published w) i = None.
Proof.
  unfold publishes. rewrite frame_of_None. rewrite <- not_true_iff_false. unfold any. rewrite existsb_exists. split.
  - intros H (p & -> & Hp)%list_elem_of_fmap. apply H. exists p. split; [by apply list_elem_of_In|apply Z.eqb_refl].
  - intros H (p & Hp & E). apply Z.eqb_eq in E as <-. apply H. apply list_elem_of_fmap. exists p. split; [done|by apply list_elem_of_In].
Qed.

Lemma fresh_frames w fs k i f : by_page fs ->
  frame_of (retain (fun p => negb (publishes w p.1)) ((fun p => (k + p.1, p.2)) <$> fs)) i = Some f <->
  frame_of (v_published w) i = None /\ frame_of fs (i - k) = Some f.
Proof.
  intros Hs. rewrite <- frame_shift. pose proof (by_page_shift fs k Hs) as Hs'. set (gs := _ <$> fs) in *. rewrite <- publishes_frame. split.
  - intros H%frame_of_elem. apply list_elem_of_In, filter_In in H as [H1%list_elem_of_In H2]. cbn in H2. split; [by apply negb_true_iff|by apply elem_frame_of].
  - intros [H1 H2%frame_of_elem]. apply elem_frame_of; [by apply by_page_retain|]. apply list_elem_of_In, filter_In. split; [by apply list_elem_of_In|]. cbn. by rewrite H1.
Qed.
(** The frames of the window that are not published yet. *)
Definition fresh_of (w : View) (i : Z) (fs : list (Z * Z)) : list (Z * Z) :=
  retain (fun p => negb (publishes w p.1)) ((fun p => (i + p.1, p.2)) <$> fs).

Lemma fresh_mappable w i m fs :
  0 <= i -> i + m <= view_pages w -> (forall j, i <= j < i + m -> active_in w (page_addr w j)) ->
  by_page fs -> Forall (fun p => 0 <= p.1 < m /\ page_ok p.2) fs ->
  by_page (fresh_of w i fs) /\ Forall (mappable w) (fresh_of w i fs) /\ forall p, p ∈ fresh_of w i fs -> p.1 ∉ (v_published w).*1.
Proof.
  intros Hi Hle Hact Hby Hfs. split; [by apply by_page_retain, by_page_shift|].
  assert (Hin : forall p, p ∈ fresh_of w i fs -> mappable w p /\ publishes w p.1 = false).
  { intros p [(q & -> & Hq)%list_elem_of_fmap Hp]%elem_of_retain. cbn in *. apply negb_true_iff in Hp. split; [|done].
    eapply Forall_forall in Hfs; [|exact Hq]. destruct Hfs as [H1 H2]. unfold mappable. cbn. split; [lia|]. split; [done|]. apply Hact. lia. }
  split; [apply Forall_forall; intros p Hp; by apply Hin|]. intros p Hp. apply frame_of_None, publishes_frame. by apply Hin.
Qed.

(** All pages of the spans [l] of [w] satisfy [P]. *)
Definition over_spans (w : View) (l : list (Z * Z)) (P : Z -> Prop) : Prop :=
  forall k q j, (page_addr w k, q * 4096) ∈ l -> k <= j < k + q -> P j.

Lemma over_spans_snoc w l k q (P : Z -> Prop) : over_spans w l P -> (forall j, k <= j < k + q -> P j) -> over_spans w (l ++ [(page_addr w k, q * 4096)]) P.
Proof.
  intros H1 H2 k' q' j [H|H%list_elem_of_singleton]%elem_of_app Hj; [by eapply H1|]. injection H as E1 E2. unfold page_addr in E1. apply H2. lia.
Qed.

Section publish.
Context (geo : Geo) (Hgeo : geo_ok geo).
Let bit := split_bit geo.
Let n := levels geo.

Lemma publish_shape {A} (p m : NM unit) v w (rest : NM A) s :
  (p ;; (get ≫= fun s : Nest =>
     (if is_kernel s || is_global w then on_flat (mark_untransferable (range_flat (v_source w))) else mret tt) ;;
     push_pending v ;; m ;; rest)) s = (p ;; announce v w ;; m ;; rest) s.
Proof using.
  unfold announce, mbind, M_bind, get. destruct (p s) as [[[u|e] s1]|]; [|done|done].
  match goal with |- context [match ?x with _ => _ end] => destruct x as [[[u2|e] s3]|]; [|done|done] end.
  by destruct (push_pending v s3) as [[[u3|e] s4]|].
Qed.

(** The pages [lo, lo + m) of the view that the source has are now published. *)
Record shows (s s' : Nest) (v : Z) (w : View) (lo m : Z) : Prop := {
  sh_inv : NInv geo None s';
  sh_view : exists l, nest_views s' = <[v := set_published l w]> (nest_views s) /\
    forall i f, frame_of l i = Some f <-> frame_of (v_published w) i = Some f \/
      frame_of (v_published w) i = None /\ lo <= i < lo + m /\ region_of s w = None /\
      slot_at (flat s) (range_flat (v_source w)) (range_index (v_source w) + i) = Some (Resident f);
  sh_indexed : forall u, indexed s' u <-> indexed s u;
  sh_outer : outer s' = outer s;
  sh_flat : tended (flat s) (flat s')
}.

Lemma covers_window w lo hi : view_ok geo w -> lo <= hi -> covers w lo hi = true <-> forall x, lo <= x <= hi -> active_in w x.
Proof using.
  intros Hw Hle. unfold covers. rewrite (cover_true _ lo hi) by (apply (vo_ranges _ _ Hw) || lia).
  assert (E : forall x, is_Some (span_at (v_active w) x) <-> active_in w x) by (intros x; unfold active_in; by rewrite current_at_span, fmap_is_Some).
  setoid_rewrite E. done.
Qed.

(** A covered window of whole pages. *)
Lemma window_pages_of w start size :
  view_ok geo w -> start mod 4096 = 0 -> 0 < size -> size mod 4096 = 0 -> covers w start (start + (size - 1)) = true ->
  exists i m, start = page_addr w i /\ size = m * 4096 /\ 0 <= i /\ 0 < m /\ i + m <= view_pages w /\ forall j, i <= j < i + m -> active_in w (page_addr w j).
Proof using.
  intros Hw Hs Hp Hm Hc. rewrite covers_window in Hc by (done || lia).
  pose proof (active_bounds geo w Hw start ltac:(apply Hc; lia)) as B1. pose proof (active_bounds geo w Hw (start + (size - 1)) ltac:(apply Hc; lia)) as B2.
  destruct (window_page geo w Hw start Hs B1) as [E Hi]. exists ((start - initial_start w) / 4096), (size / 4096).
  assert (Em : size = size / 4096 * 4096) by (pose proof (Z.div_mod size 4096); lia). set (i := (start - initial_start w) / 4096) in *. set (m := size / 4096) in *.
  unfold page_addr in *. split_and!; try lia. intros j Hj. apply Hc. lia.
Qed.

Lemma page_index_of w i : view_ok geo w -> 0 <= i < view_pages w -> page_index w (page_addr w i) = Some i.
Proof using.
  intros Hw Hi. unfold page_index, checked_sub. assert (Ha : 0 <= initial_start w /\ initial_start w + view_pages w * 4096 <= 2 ^ 64) by (split; apply (vo_space _ _ Hw)).
  unfold page_addr. rewrite checked_in by (rewrite usize_MAX_eq; lia). cbn. change PAGE_SIZE with 4096.
  replace (initial_start w + i * 4096 - initial_start w) with (i * 4096) by lia. by rewrite Z.div_mul.
Qed.


Lemma indexed_live s v w : NInv geo None s -> nest_views s !! v = Some w -> v_active w <> [] -> indexed s v.
Proof using. intros HN Hw Ha. by apply (ni_filed _ _ _ HN v w). Qed.

Lemma active_nonempty w a : active_in w a -> v_active w <> [].
Proof using. intros [c Hc] E. by rewrite E in Hc. Qed.

(** A change of the published pages of a view that stays indexed. *)
Lemma turned_published s s' v w l :
  NInv geo None s -> nest_views s !! v = Some w -> indexed s v -> nest_views s' = <[v := set_published l w]> (nest_views s) ->
  tended (flat s) (flat s') -> view_ok geo (set_published l w) -> (is_Some (region_of s w) -> l = []) ->
  ns_index (ns s') = ns_index (ns s) -> (forall u, u ∈ refs s' -> u = v \/ u ∈ refs s) -> wf n (ns_root (ns s')) ->
  (forall a, canonical bit a -> a mod 4096 = 0 -> translate n (ns_root (ns s')) (page_no geo a) =
    if decide (active_in w a) then view_says s' (set_published l w) a else translate n (ns_root (ns s)) (page_no geo a)) ->
  turned geo None s s' v w (set_published l w).
Proof using.
  intros HN Hw Hi Ev T Kw Hreg Ei Hrf Hwf Hm. destruct (ni_views _ _ _ HN v w Hw) as [_ Kid Ks _].
  assert (Est : store s' = store s).
  { transitivity (<[v := v_active w]> (store s)); [by apply (store_put s s' v (set_published l w))|]. apply insert_id. unfold store. by rewrite lookup_fmap, Hw. }
  assert (Hix : forall u, indexed s' u <-> indexed s u) by (intros u; unfold indexed; by rewrite Ei).
  split; try done.
  - split; [done|done|by eapply wf_range_tended|]. intros Hr. apply Hreg. by rewrite <- (region_tended s s').
  - rewrite Est, Ei. apply HN.
  - intros _. by apply Hix.
  - by left.
  - intros a Hc Ha. rewrite Hm by done. destruct (decide (active_in w a)) as [Hin|Hin].
    + rewrite decide_True by by left. done.
    + rewrite decide_False; [done|]. intros [H|[H _]]; by apply Hin.
Qed.


(** [fresh] has been added to what [v] publishes. *)
Record added (s s' : Nest) (v : Z) (w : View) (fresh : list (Z * Z)) : Prop := {
  ad_inv' : NInv geo None s';
  ad_list : exists l, nest_views s' = <[v := set_published l w]> (nest_views s) /\
    forall k, frame_of l k = match frame_of fresh k with Some f => Some f | None => frame_of (v_published w) k end;
  ad_index : ns_index (ns s') = ns_index (ns s);
  ad_outer : outer s' = outer s;
  ad_tended : tended (flat s) (flat s')
}.

Lemma fresh_free s v w fs l :
  NInv geo None s -> nest_views s !! v = Some w -> region_of s w = None -> describes geo w (frame_of fs) l ->
  (forall p, p ∈ fs -> p.1 ∉ (v_published w).*1) ->
  forall q x, q ∈ l -> p_in geo q x = true -> translate n (ns_root (ns s)) x = None.
Proof using Hgeo.
  intros HN Hw Hno D Hd q x Hq Hx. destruct (ds_in _ _ _ _ D q x Hq Hx) as (Hi & Hact & [f Hf]).
  destruct (ni_views _ _ _ HN v w Hw) as [Kw _ _ _]. pose proof (indexed_live s v w HN Hw (active_nonempty w _ Hact)) as Hix.
  destruct (page_addr_ok geo Hgeo w Kw _ Hi) as [Hc Hal]. pose proof (ni_maps _ _ _ HN _ Hc Hal) as Hm. rewrite (page_addr_no geo Hgeo w _ Kw Hi) in Hm.
  replace (page_no geo (initial_start w) + (x - page_no geo (initial_start w))) with x in Hm by lia. etransitivity; [exact Hm|].
  destruct (wants_in geo s _ v w (ni_index _ _ _ HN) Hix Hw Hact) as [_ ->]. unfold view_says, frame_at. rewrite Hno, page_addr_back.
  rewrite (proj2 (frame_of_None _ _)); [done|]. apply frame_of_elem in Hf. by apply (Hd _ Hf).
Qed.

Lemma show_fresh_tend s v w i m fs :
  NInv geo None s -> nest_views s !! v = Some w -> is_closed s = false -> region_of s w = None ->
  0 <= i -> 0 < m -> i + m <= view_pages w -> (forall j, i <= j < i + m -> active_in w (page_addr w j)) ->
  by_page fs -> Forall (fun p => 0 <= p.1 < m /\ page_ok p.2) fs ->
  tend geo (
    let fresh := fresh_of w i fs in
    if bool_decide (fresh = []) then mret false
    else
      try_reserve ;;
      try_reserve ;;
      rs ← expect (runs w (initial_start w) fresh);
      on_tables (each_run (prepare_run geo) rs) ;;
      s ← get;
      (if is_kernel s || is_global w then on_flat (mark_untransferable (range_flat (v_source w))) else mret tt) ;;
      push_pending v ;;
      on_tables (each_run (map_run geo w) rs) ;;
      put_view v (fold_left (fun w p => publish_page p.1 p.2 w) fresh w) ;;
      mark_dirty ;;
      mret true) s (fun r s' => match r with Ok _ => added s s' v w (fresh_of w i fs) | Err _ => NInv geo None s' /\ untouched s s' end).
Proof using Hgeo.
  intros HN Hw Hcl Hno Hi Hm Hle Hact Hby Hfs. cbv zeta. set (fresh := fresh_of w i fs). destruct (ni_views _ _ _ HN v w Hw) as [Kw Kid Ks Kb].
  destruct (fresh_mappable w i m fs Hi Hle Hact Hby Hfs) as (Fby & Fmap & Fnew). fold fresh in Fby, Fmap, Fnew |- *.
  assert (Hix : indexed s v) by (eapply indexed_live; [done|done|eapply active_nonempty, (Hact i); lia]).
  case_bool_decide as Hemp.
  { apply tend_ret. rewrite Hemp. split; [done| |done|done|done]. exists (v_published w). split; [symmetry; apply insert_id; by destruct w|done]. }
  apply tend_bind, tend_try; [|by intros g; split; [by apply NInv_grant|split_and!]]. intros g1.
  apply tend_bind, tend_try; [|by intros g; split; [by do 2 apply NInv_grant|split_and!]]. intros g2. set (s1 := set_grant g2 _).
  assert (HN1 : NInv geo None s1) by by do 2 apply NInv_grant.
  destruct (runs_describe geo Hgeo w Kw fresh Fby Fmap) as (rs & Hrs & D). apply tend_bind. eapply tend_expect; [exact Hrs|].
  eapply tend_eq; [apply publish_shape|].
  apply (tend_lay geo None s1 v w _ _ _ _ _ _ HN1 Hw D Hcl (fresh_free s1 v w fresh _ HN1 Hw Hno D Fnew)).
  { unfold on_tables. by rewrite each_run_ok, each_fmap. }
  { intros s' _ _. unfold on_tables. by rewrite each_run_ok, each_fmap. }
  { intros t tw HN2. by split; [|split_and!]. }
  intros t tw fw L. destruct (publish_all_ok geo fresh w Kw Fby Fmap Fnew) as (l & El & Kw' & Hfo). change (fold_left _ fresh w) with (publish_all fresh w). rewrite El.
  unfold put_view, mark_dirty, modify_ns. apply tend_bind, tend_set; [done|]. apply tend_bind, tend_set; [done|]. apply tend_ret. set (s2 := set_ns _ _).
  assert (HT : turned geo None s1 s2 v w (set_published l w)).
  { apply turned_published; try done; [apply L|intros Hr; change (is_Some (region_of s w)) in Hr; rewrite Hno in Hr; by destruct Hr| |apply L|].
    { intros u. unfold refs. cbn. rewrite !elem_of_app, list_elem_of_singleton. naive_solver. }
    intros a Hca Hal. change (ns_root (ns s2)) with t. rewrite (la_maps _ _ _ _ _ _ L) by apply page_no_range. rewrite (describes_at geo Hgeo w Kw _ _ a D Hca Hal).
    pose proof (ni_maps _ _ _ HN1 a Hca Hal) as Hold. case_decide as Hd.
    - destruct (wants_in geo s1 a v w (ni_index _ _ _ HN1) Hix Hw Hd) as [_ Hwant]. rewrite Hwant in Hold. rewrite Hold.
      unfold view_says, says, frame_at. change (region_of s2 (set_published l w)) with (region_of s2 w). rewrite (region_tended s1 s2) by (apply L || done).
      change (region_of s1 w) with (region_of s w). rewrite Hno. cbn [v_published set_published]. change (initial_start (set_published l w)) with (initial_start w). rewrite Hfo.
      change (v_active (set_published l w)) with (v_active w). destruct Hd as [c Hc]. rewrite Hc. by destruct (frame_of fresh _).
    - assert (says w (frame_of fresh) a = None) as ->; [|done]. unfold says. destruct (frame_of fresh _); [|done]. cbn. destruct (current_at _ a) eqn:Hc; [|done]. by destruct Hd; eexists. }
  pose proof (NInv_turned geo None s1 s2 v w _ HN1 HT (la_supply _ _ _ _ _ _ L) (la_sound _ _ _ _ _ _ L) (ni_occ _ _ _ HN1)) as HN2.
  split; [done|by exists l|done|done|apply L].
Qed.

(** Nothing was to be shown. *)
Lemma shows_none s s' v w i m :
  NInv geo None s' -> nest_views s !! v = Some w -> untouched s s' ->
  (forall j f, region_of s w = None -> i <= j < i + m -> frame_of (v_published w) j = None ->
    slot_at (flat s) (range_flat (v_source w)) (range_index (v_source w) + j) <> Some (Resident f)) -> shows s s' v w i m.
Proof using.
  intros HN Hw (U1 & U2 & U3 & U4) Hnone. split; [done| |intros u; unfold indexed; by rewrite U4|done|done].
  exists (v_published w). split; [rewrite U3; symmetry; apply insert_id; by destruct w|]. intros j f. split; [by left|]. intros [?|(E1 & E2 & E3 & E4)]; [done|].
  by destruct (Hnone j f).
Qed.

(** The residency of the window, while the pages are shown. *)
Lemma publish_window_tend s v w i m :
  NInv geo None s -> nest_views s !! v = Some w -> is_closed s = false -> region_of s w = None ->
  0 <= i -> 0 < m -> i + m <= view_pages w -> (forall j, i <= j < i + m -> active_in w (page_addr w j)) ->
  let window := Flat.mkRange (range_flat (v_source w)) (range_index (v_source w) + i) m in
  wf_range (flat s) window ->
  tend geo (
    lease ← holding (reside window);
    finally (
      fs ← on_flat (materialized (range_flat window) (range_index window) (range_count window));
      try_reserve ;;
      let fresh := fresh_of w i fs in
      if bool_decide (fresh = []) then mret false
      else
        try_reserve ;;
        try_reserve ;;
        rs ← expect (runs w (initial_start w) fresh);
        on_tables (each_run (prepare_run geo) rs) ;;
        s ← get;
        (if is_kernel s || is_global w then on_flat (mark_untransferable (range_flat (v_source w))) else mret tt) ;;
        push_pending v ;;
        on_tables (each_run (map_run geo w) rs) ;;
        put_view v (fold_left (fun w p => publish_page p.1 p.2 w) fresh w) ;;
        mark_dirty ;;
        mret true) (drop_hold lease)) s
    (fun r s' => match r with Ok _ => shows s s' v w i m | Err _ => NInv geo None s' /\ untouched s s' end).
Proof using Hgeo.
  intros HN Hw Hcl Hno Hi Hm Hle Hact window Hwr. apply tend_bind. eapply (tend_reside geo None s window); [done|done| |].
  2: { intros e fw T1 HN2. by split; [|split_and!]. }
  intros lease fw Hl T1 Sl HN2. set (s2 := set_flat fw _ s) in *.
  assert (Hdrop : forall s3, NInv geo None s3 -> outer s3 = outer s2 -> tended (flat s2) (flat s3) -> exists fw4, drop_hold lease s3 = Some (Ok tt, set_flat fw4 (held s) s3) /\
    NInv geo None (set_flat fw4 (held s) s3) /\ outer (set_flat fw4 (held s) s3) = outer s /\ tended (flat s) fw4).
  { intros s3 HN3 V1 V2. apply outer_core in V1 as [V1 V5]. destruct (drop_run geo None s3 lease [] (held s) HN3 V5) as (fw3 & E3 & T3 & _ & HN4).
    exists fw3. split; [exact E3|]. split; [done|]. split; [apply outer_core; by split|]. etransitivity; [exact T1|]. by etransitivity. }
  assert (Hoff : forall s3, NInv geo None s3 /\ untouched s2 s3 -> exists s4, drop_hold lease s3 = Some (Ok tt, s4) /\ same_able s3 s4 /\ is_closed s4 = is_closed s3 /\
    NInv geo None s4 /\ untouched s s4).
  { intros s3 [HN3 (V1 & V2 & V3 & V4)]. destruct (Hdrop s3 HN3 V1 V2) as (fw4 & E4 & HN4 & O4 & T4). eexists. by split_and!; [exact E4|..]. }
  apply tend_finally. destruct (geom_range _ _ (kn_source _ _ _ _ (ni_views _ _ _ HN v w Hw))) as (c & o & Hg & _).
  assert (o = None) as -> by (unfold region_of in Hno; by rewrite Hg in Hno).
  destruct (materialized_run (held s2) (flat s2) window c (ni_flat _ _ _ HN2) ltac:(by eapply wf_range_tended) (te_geom _ _ T1 _ _ Hg)) as (x & fw2 & E & T2 & Sl2 & So2 & Hx).
  apply tend_bind. eapply tend_run; [unfold on_flat; rewrite E; reflexivity|done|]. set (s3 := set_flat fw2 (held s2) s2).
  assert (HN3 : NInv geo None s3) by by apply NInv_flat.
  destruct x as [fs|e]; [|apply Hoff; by split; [|split_and!]]. cbn [map_err]. destruct Hx as (Hby & Hfs & Hfr).
  apply tend_bind, tend_try; [|intros g; apply Hoff; by split; [apply NInv_grant|split_and!]]. intros g. set (s4 := set_grant g s3).
  assert (Hno4 : region_of s4 w = None) by (unfold region_of; change (flat s4) with fw2; by rewrite (te_geom _ _ T2 _ _ (te_geom _ _ T1 _ _ Hg))).
  eapply tend_mono; [apply (show_fresh_tend s4 v w i m fs); [by apply NInv_grant|done..]|].
  intros r s5 Hr. destruct r as [b|e]; [|apply Hoff; split; [apply Hr|]; apply (untouched_trans s2 s4); [by split_and!|apply Hr]].
  destruct Hr as [A1 (l & A2 & A3) A4 A5 A6]. destruct (Hdrop s5 A1 A5) as (fw6 & E6 & HN6 & O6 & T6); [by etransitivity|].
  eexists. split; [exact E6|]. split; [done|]. split; [done|]. split; [done| |intros u; unfold indexed; cbn; by rewrite A4|done|done].
  exists l. split; [exact A2|]. intros k f. rewrite A3. pose proof (fresh_frames w fs i k f Hby) as Hff. fold (fresh_of w i fs) in Hff. rewrite Hfr in Hff. cbn in Hff.
  rewrite Sl in Hff. replace (range_index (v_source w) + i + (k - i)) with (range_index (v_source w) + k) in Hff by lia.
  destruct (frame_of (fresh_of w i fs) k) as [f'|] eqn:Ef.
  - assert (Hk : frame_of (v_published w) k = None) by (by apply (fresh_frames w fs i k f' Hby)). rewrite Hk. split.
    { intros H; right; apply Hff in H as (_ & H1 & H2). split; [done|]. split; [lia|]. done. }
    intros [?|(_ & H1 & _ & H2)]; [done|]. apply Hff. split; [done|]. split; [done|lia].
  - split; [by left|]. intros [?|(Hk & H1 & _ & H2)]; [done|]. exfalso. assert (None = Some f) by (apply Hff; split; [done|]; split; [done|lia]). done.
Qed.

Lemma publish_locked_tend s v w start size :
  NInv geo None s -> nest_views s !! v = Some w -> 0 <= start -> start mod 4096 = 0 -> 0 < size -> size mod 4096 = 0 ->
  tend geo (publish_locked geo v start size) s (fun r s' =>
    match r with
    | Ok _ => exists i m, start = page_addr w i /\ size = m * 4096 /\ shows s s' v w i m /\ forall j, i <= j < i + m -> active_in w (page_addr w j)
    | Err _ => NInv geo None s' /\ untouched s s'
    end).
Proof using Hgeo.
  intros HN Hw H0 Hal Hsz Hsm. destruct (ni_views _ _ _ HN v w Hw) as [Kw Kid Ks Kb].
  unfold publish_locked. apply tend_bind. eapply tend_get_view; [exact Hw|]. apply tend_bind, tend_lift. unfold checked_add.
  destruct (checked (start + (size - 1))) as [end_|] eqn:Ee; cbn [ok_or]; [|by split].
  apply checked_Some in Ee as [<- _]. apply tend_bind. eapply (tend_ready geo None); [exact HN| |].
  2: { intros e s1 HN1 F _. split; [done|by apply untouched_fenced]. }
  intros s1 HN1 F _ Hop. pose proof (untouched_fenced s s1 F) as U. pose proof U as (Eu & T & Ev & Ei).
  assert (Hw1 : nest_views s1 !! v = Some w) by by rewrite Ev. assert (Ef : flat s1 = flat s) by by destruct (fenced_calm _ _ F) as (_ & _ & _ & ? & _). clear F.
  apply tend_bind. unfold ensure_owned. apply tend_bind, tend_get. rewrite Hop. cbn [orb]. destruct (negb (_ =? self s1)); [by apply tend_fail|apply tend_ret].
  destruct (covers w start _) eqn:Hc; cbn [negb]; [|by apply tend_fail].
  destruct (window_pages_of w start size Kw Hal Hsz Hsm Hc) as (i & m & Es & Em & Hi & Hm & Hle & Hact).
  assert (Hne : v_active w <> []) by (eapply active_nonempty, (Hact i); lia). pose proof (indexed_live s v w HN Hw Hne) as Hix.
  assert (Hix1 : indexed s1 v) by (unfold indexed; by rewrite Ei).
  assert (Ereg : region_of s1 w = region_of s w) by by apply region_tended.
  apply tend_bind. eapply (tend_is_borrowed geo None s1 v w); [done|done|]. rewrite Ereg. case_bool_decide as Hb.
  { apply tend_ret. exists i, m. split_and!; [done|done| |done]. apply shows_none; [done|done|done|]. intros j f E. rewrite E in Hb. by destruct Hb. }
  assert (Hno : region_of s w = None) by (destruct (region_of s w); [by destruct Hb; eauto|done]). clear Hb.
  apply tend_bind. eapply tend_expect; [rewrite Es; apply page_index_of; [done|lia]|].
  apply tend_bind, tend_lift. unfold PageCount_new. rewrite Em. change PAGE_SIZE with 4096. rewrite Z.div_mul by lia. rewrite (proj2 (Z.eqb_neq m 0)) by lia. cbn [ok_or].
  assert (Ks1 : wf_range (flat s1) (v_source w)) by by rewrite Ef.
  destruct (range_run (held s1) (flat s1) (v_source w) i m (ni_flat _ _ _ HN1) Ks1 Hi Hm) as (x & Ex & Hx).
  apply tend_bind. eapply (tend_reads geo _ s1 x); [exact Ex|]. destruct x as [win|e].
  2: { destruct Hx as [_ Hx]. rewrite (vo_count _ _ Kw) in Hx. lia. }
  destruct Hx as (-> & Hwr & _). cbn [map_err].
  eapply tend_mono; [apply (publish_window_tend s1 v w i m); [done|done|done|by rewrite Ereg|done..]|].
  intros r s2 Hr. destruct r as [b|e]; [|split; [apply Hr|]; by apply (untouched_trans s s1); [|apply Hr]].
  exists i, m. split_and!; [done|done| |done]. destruct Hr as [R1 (l & R2 & R3) R4 R5 R6]. split; [done| | |by etransitivity|by rewrite <- Ef].
  - exists l. rewrite R2, Ev. split; [done|]. intros k f. by rewrite R3, Ereg, Ef.
  - intros u. rewrite R4. unfold indexed. by rewrite Ei.
Qed.

(** ** Windows of a view *)

(** The pages a selection names. *)
Definition sel_pages (w : View) (sel : ViewRange) : Z * Z :=
  match sel with Whole _ => (0, view_pages w) | Pages _ offset count => (offset, count) end.

Definition sel_ok (w : View) (sel : ViewRange) : Prop :=
  let '(i, m) := sel_pages w sel in 0 <= i /\ 0 < m /\ i + m <= view_pages w.

Lemma sel_window_pages w sel : view_ok geo w ->
  sel_window w sel = (page_addr w (sel_pages w sel).1, page_addr w ((sel_pages w sel).1 + (sel_pages w sel).2) - 1).
Proof using.
  intros Kw. unfold page_addr. destruct sel as [v|v i m]; cbn; [rewrite (vo_size _ _ Kw)|]; f_equal; change PAGE_SIZE with 4096; lia.
Qed.

(** The part of an active range in a window of whole pages. *)
Lemma span_pages w r i0 m0 x y :
  view_ok geo w -> r ∈ v_active w -> a_intersection r (page_addr w i0) (page_addr w (i0 + m0) - 1) = Some (x, y) ->
  exists i m, x = page_addr w i /\ y = page_addr w (i + m) - 1 /\ i0 <= i /\ 0 < m /\ i + m <= i0 + m0 /\ 0 <= i /\ i + m <= view_pages w /\
    (forall j, i <= j < i + m -> active_in w (page_addr w j)) /\ VirtAddr_from_raw bit x = x /\ 0 <= x.
Proof using Hgeo.
  intros Kw Hr. destruct (range_pages geo w Kw r Hr) as (k & q & E1 & E2 & Hk & Hq & Hle & E3). unfold a_intersection. rewrite E1, E3. destruct (Z.leb_spec (Z.max (page_addr w k) (page_addr w i0)) (Z.min (page_addr w (k + q) - 1) (page_addr w (i0 + m0) - 1))) as [Hxy|]; [|done].
  intros [= <- <-]. unfold page_addr in Hxy. exists (Z.max k i0), (Z.min (k + q) (i0 + m0) - Z.max k i0).
  assert (Ex : Z.max (page_addr w k) (page_addr w i0) = page_addr w (Z.max k i0)) by (unfold page_addr; lia). rewrite Ex.
  assert (Hpos : 0 <= Z.max k i0 < view_pages w) by lia.
  split; [done|]. split; [unfold page_addr; lia|]. do 5 (split; [lia|]). split.
  - intros j Hj. unfold active_in. rewrite current_at_span. apply fmap_is_Some. exists (s_tag r). apply span_at_Some; [apply (vo_ranges _ _ Kw)|done|].
    unfold on_span. cbn. rewrite E1, E3. unfold page_addr. lia.
  - destruct (page_addr_ok geo Hgeo w Kw _ Hpos) as [Hc _]. split; [apply from_raw_canonical; [by apply good_split|done]|]. by destruct Hc as [Hc _]; lia.
Qed.

(** The spans of a window: blocks of active pages that make up what is active in it. *)
Definition spans_of (w : View) (i m : Z) : list (Z * Z) :=
  omap (fun r => (fun x => (VirtAddr_from_raw bit x.1, x.2 - x.1 + 1)) <$> a_intersection r (page_addr w i) (page_addr w (i + m) - 1)) (v_active w).

Lemma spans_of_in w i0 m0 x : view_ok geo w -> x ∈ spans_of w i0 m0 ->
  exists i m, x = (page_addr w i, m * 4096) /\ i0 <= i /\ 0 < m /\ i + m <= i0 + m0 /\ 0 <= i /\ i + m <= view_pages w /\
    (forall j, i <= j < i + m -> active_in w (page_addr w j)).
Proof using Hgeo.
  intros Kw (r & Hr & E)%list_elem_of_omap. apply fmap_Some in E as ([a b] & Hi & ->). destruct (span_pages w r i0 m0 a b Kw Hr Hi) as (i & m & -> & -> & H1 & H2 & H3 & H4 & H5 & H6 & H7 & _).
  exists i, m. cbn. rewrite H7. split; [f_equal; unfold page_addr; lia|]. done.
Qed.

Lemma spans_of_all w i0 m0 j : view_ok geo w -> i0 <= j < i0 + m0 -> active_in w (page_addr w j) ->
  exists i m, (page_addr w i, m * 4096) ∈ spans_of w i0 m0 /\ i <= j < i + m.
Proof using Hgeo.
  intros Kw Hj Ha. unfold active_in in Ha. rewrite current_at_span in Ha. apply fmap_is_Some in Ha as [t Ht]. apply span_at_inv in Ht as (r & Hr & Hon & _).
  assert (Hx : exists x y, a_intersection r (page_addr w i0) (page_addr w (i0 + m0) - 1) = Some (x, y) /\ x <= page_addr w j <= y).
  { unfold a_intersection, on_span in *. cbn in Hon. unfold page_addr in *. eexists _, _. rewrite (proj2 (Z.leb_le _ _)) by lia. split; [done|]. lia. }
  destruct Hx as (x & y & Hx & Hin). destruct (span_pages w r i0 m0 x y Kw Hr Hx) as (i & m & -> & -> & H1 & H2 & H3 & H4 & H5 & H6 & H7 & _).
  exists i, m. split; [|unfold page_addr in Hin; lia]. apply list_elem_of_omap. exists r. split; [done|]. rewrite Hx. cbn. rewrite H7. f_equal. f_equal. unfold page_addr. lia.
Qed.

(** ** Pages that are shown *)

(** View [v] shows a frame for its page [j]. *)
Definition shown (s : Nest) (v j : Z) : Prop := exists w, nest_views s !! v = Some w /\ is_Some (frame_at s w j).

(** The source of [w] has a frame for page [j]. *)
Definition backed (s : Nest) (w : View) (j : Z) : Prop :=
  is_Some (region_of s w) \/ exists f, slot_at (flat s) (range_flat (v_source w)) (range_index (v_source w) + j) = Some (Resident f).

(** View [v] shows what it did, and perhaps more; nothing else has changed. *)
Record grown (s s' : Nest) (v : Z) (w : View) : Prop := {
  gr_inv : NInv geo None s';
  gr_view : exists l, nest_views s' = <[v := set_published l w]> (nest_views s) /\
    forall k f, frame_of (v_published w) k = Some f -> frame_of l k = Some f;
  gr_indexed : forall u, indexed s' u <-> indexed s u;
  gr_outer : outer s' = outer s;
  gr_flat : tended (flat s) (flat s')
}.

Lemma grown_same s s' v w : NInv geo None s' -> nest_views s !! v = Some w -> untouched s s' -> grown s s' v w.
Proof using.
  intros HN Hw (U1 & U2 & U3 & U4). split; [done| |intros u; unfold indexed; by rewrite U4|done|done].
  exists (v_published w). split; [|done]. rewrite U3. symmetry. apply insert_id. by destruct w.
Qed.

Lemma grown_look s s' v w : grown s s' v w -> exists l, nest_views s' !! v = Some (set_published l w) /\ forall k f, frame_of (v_published w) k = Some f -> frame_of l k = Some f.
Proof using. intros [_ (l & -> & Hl) _ _ _]. exists l. by rewrite lookup_insert_eq. Qed.

Lemma grown_trans s s1 s2 v w w1 : grown s s1 v w -> nest_views s1 !! v = Some w1 -> grown s1 s2 v w1 -> grown s s2 v w.
Proof using.
  intros [A1 (l & A2 & A3) A4 A5 A6] Hw1 [B1 (l2 & B2 & B3) B4 B5 B6]. rewrite A2, lookup_insert_eq in Hw1. injection Hw1 as <-.
  split; [done| |intros u; by rewrite B4|by rewrite B5|by etransitivity]. exists l2. rewrite B2, A2, insert_insert_eq. split; [done|]. intros k f Hk. by apply B3, A3.
Qed.

Lemma shows_grown s s' v w i m : shows s s' v w i m -> grown s s' v w.
Proof using. intros [A1 (l & A2 & A3) A4 A5 A6]. split; try done. exists l. split; [done|]. intros k f Hk. apply A3. by left. Qed.

Lemma grown_fenced s s1 s2 v w : nest_views s !! v = Some w -> grown s s1 v w -> NInv geo None s2 -> fenced s1 s2 -> grown s s2 v w.
Proof using.
  intros Hw Hg HN F. destruct (grown_look _ _ _ _ Hg) as (l & Hl & _). eapply grown_trans; [exact Hg|exact Hl|]. by apply grown_same; [|done|apply untouched_fenced].
Qed.

Lemma shown_grown s s' v w j : wf_range (flat s) (v_source w) -> nest_views s !! v = Some w -> grown s s' v w -> shown s v j -> shown s' v j.
Proof using.
  intros Ks Hw Hg (w0 & Hw0 & Hf). assert (w0 = w) as -> by congruence. destruct (grown_look _ _ _ _ Hg) as (l & Hl & Hk). exists (set_published l w). split; [done|].
  unfold frame_at in *. change (region_of s' (set_published l w)) with (region_of s' w). rewrite (region_tended s s') by (apply Hg || done).
  destruct (region_of s w); [by eexists|]. destruct Hf as [f Hf]. exists f. by apply Hk.
Qed.

Lemma backed_tended s s' w w' j : tended (flat s) (flat s') -> wf_range (flat s) (v_source w) -> v_source w' = v_source w -> backed s w j -> backed s' w' j.
Proof using.
  intros T Ks E [Hr|[f Hf]]; [left|right; exists f; rewrite E; by apply (te_slot _ _ T)].
  assert (region_of s' w' = region_of s' w) as -> by (unfold region_of; by rewrite E). by rewrite (region_tended s s').
Qed.

Lemma shows_backed s s' v w i m j :
  NInv geo None s -> nest_views s !! v = Some w -> shows s s' v w i m -> i <= j < i + m -> backed s w j -> shown s' v j.
Proof using.
  intros HN Hw [A1 (l & A2 & A3) A4 A5 A6] Hj Hb. exists (set_published l w). rewrite A2, lookup_insert_eq. split; [done|]. unfold frame_at.
  change (region_of s' (set_published l w)) with (region_of s' w). rewrite (region_tended s s') by (done || apply (ni_views _ _ _ HN v w Hw)).
  destruct (region_of s w) eqn:Hr; [by eexists|]. destruct Hb as [Hb|[f Hf]]; [rewrite Hr in Hb; by destruct Hb|].
  destruct (frame_of (v_published w) j) as [f'|] eqn:E; [exists f'|exists f]; apply A3; [by left|by right].
Qed.

Lemma publish_span_tend s v w i m :
  NInv geo None s -> nest_views s !! v = Some w -> 0 <= i -> 0 < m -> i + m <= view_pages w ->
  tend geo (publish_span geo v (page_addr w i) (m * 4096)) s (fun r s' =>
    grown s s' v w /\ match r with Ok _ => forall j, i <= j < i + m -> backed s w j -> shown s' v j | Err _ => True end).
Proof using Hgeo.
  intros HN Hw Hi Hm Hle. destruct (ni_views _ _ _ HN v w Hw) as [Kw _ Ks _]. destruct (page_addr_ok geo Hgeo w Kw i ltac:(lia)) as [[Hc _] Hal].
  unfold publish_span. destruct (_ || _); [by apply tend_fail; split; [apply grown_same|]|]. apply tend_bind.
  eapply tend_mono; [apply (publish_locked_tend s v w); [done|done|lia|done|lia|by rewrite Z.mod_mul]|].
  intros [changed|e] s1 Hr; [|by split; [apply grown_same; [apply Hr|done|apply Hr]|]].
  destruct Hr as (i' & m' & Ei & Em & Hsh & _). assert (i' = i) as -> by (unfold page_addr in Ei; lia). assert (m' = m) as -> by lia.
  pose proof (shows_grown _ _ _ _ _ _ Hsh) as Hg. assert (Hall : forall j, i <= j < i + m -> backed s w j -> shown s1 v j) by (intros j; by apply shows_backed).
  destruct changed; [|by apply tend_ret]. eapply (tend_finish geo None); [apply Hg|]. intros r s2 HN2 [F _]. split; [by eapply grown_fenced|].
  destruct r; [|done]. intros j Hj Hb. destruct (Hall j Hj Hb) as (w1 & Hw1 & Hf). exists w1. destruct (fenced_calm _ _ F) as (_ & _ & _ & Ef & Ev). rewrite Ev. split; [done|].
  unfold frame_at, region_of in *. by rewrite Ef.
Qed.

Lemma active_spans_tend s sel w :
  NInv geo None s -> nest_views s !! sel_view sel = Some w -> sel_ok w sel ->
  tend geo (active_spans geo sel) s (fun r s' =>
    NInv geo None s' /\ untouched s s' /\
    match r with
    | Ok l => l = spans_of w (sel_pages w sel).1 (sel_pages w sel).2 /\ is_closed s' = false /\
        (is_pages sel = true -> forall j, (sel_pages w sel).1 <= j < (sel_pages w sel).1 + (sel_pages w sel).2 -> active_in w (page_addr w j))
    | Err _ => True
    end).
Proof using Hgeo.
  intros HN Hw Hok. destruct (ni_views _ _ _ HN _ w Hw) as [Kw _ Ks _]. unfold active_spans. apply tend_bind. eapply tend_get_view; [exact Hw|]. rewrite sel_window_pages by done.
  apply tend_bind. eapply (tend_ready geo None); [exact HN| |].
  2: { intros e s1 HN1 F _. split; [done|]. split; [by apply untouched_fenced|done]. }
  intros s1 HN1 F _ Hop. pose proof (untouched_fenced s s1 F) as U. destruct (fenced_calm _ _ F) as (_ & _ & _ & Ef & Ev).
  apply tend_bind. unfold ensure_owned. apply tend_bind, tend_get. rewrite Hop. cbn [orb]. destruct (negb (_ =? self s1)); [by apply tend_fail|apply tend_ret].
  apply tend_bind. eapply tend_get_view; [rewrite Ev; exact Hw|]. destruct (bool_decide (v_active w = []) || _) eqn:Hc; [by apply tend_fail|].
  apply orb_false_iff in Hc as [_ Hc]. apply tend_bind, tend_try; [intros g; apply tend_ret|intros g; split; [by apply NInv_grant|by split]].
  split; [by apply NInv_grant|]. split; [done|]. split; [done|]. split; [done|]. intros Hp j Hj. rewrite Hp in Hc. cbn [andb] in Hc. apply negb_false_iff in Hc.
  unfold sel_ok in Hok. destruct (sel_pages w sel) as [i m]. cbn [fst snd] in *. assert (page_addr w i <= page_addr w (i + m) - 1) by (unfold page_addr; lia).
  apply (proj1 (covers_window w _ _ Kw H) Hc). unfold page_addr. lia.
Qed.

(** A view is smaller than the address space. *)
Lemma view_bytes w : view_ok geo w -> 0 < view_pages w /\ view_pages w * 4096 < 2 ^ 63.
Proof using Hgeo.
  intros Kw. pose proof (vo_space _ _ Kw) as [H1 _ H2 H3 H4]. destruct (pow_split _ (good_split geo Hgeo)) as (_ & Hb & _). unfold one_half in H3. split; [done|]. lia.
Qed.

Lemma range_of_pages v w k q : view_ok geo w -> 0 <= k -> 0 < q -> k + q <= view_pages w -> ViewRange_pages v w k q = Ok (Pages v k q).
Proof using Hgeo.
  intros Kw Hk Hq Hle. pose proof (view_bytes w Kw) as [_ Hb]. unfold ViewRange_pages, checked_add, checked_mul. rewrite checked_in by (rewrite usize_MAX_eq; lia). munfold. change PAGE_SIZE with 4096.
  rewrite checked_in by (rewrite usize_MAX_eq; lia). rewrite (vo_size _ _ Kw). by rewrite (proj2 (Z.ltb_ge _ _)) by lia.
Qed.

(** The spans of a window that are still to be worked on, after those done. *)
Lemma span_left w i m x l done_ : view_ok geo w -> spans_of w i m = done_ ++ x :: l ->
  exists k q, x = (page_addr w k, q * 4096) /\ i <= k /\ 0 < q /\ k + q <= i + m /\ 0 <= k /\ k + q <= view_pages w /\
    (forall j, k <= j < k + q -> active_in w (page_addr w j)).
Proof using Hgeo. intros Kw E. apply (spans_of_in w i m x Kw). rewrite E. apply elem_of_app. right. by left. Qed.

Lemma over_spans_all w i m (P : Z -> Prop) : view_ok geo w -> over_spans w (spans_of w i m) P ->
  forall j, i <= j < i + m -> active_in w (page_addr w j) -> P j.
Proof using Hgeo. intros Kw H j Hj Ha. destruct (spans_of_all w i m j Kw Hj Ha) as (k & q & Hin & Hk). by apply (H k q). Qed.

Lemma publish_tend s sel w :
  NInv geo None s -> nest_views s !! sel_view sel = Some w -> sel_ok w sel ->
  tend geo (publish geo sel) s (fun r s' =>
    grown s s' (sel_view sel) w /\
    match r with
    | Ok _ => forall j, (sel_pages w sel).1 <= j < (sel_pages w sel).1 + (sel_pages w sel).2 -> active_in w (page_addr w j) -> backed s w j -> shown s' (sel_view sel) j
    | Err _ => True
    end).
Proof using Hgeo.
  intros HN Hw Hok. set (v := sel_view sel) in *. destruct (ni_views _ _ _ HN v w Hw) as [Kw _ Ks _]. unfold publish. apply tend_bind.
  eapply tend_mono; [by apply (active_spans_tend s sel w)|]. intros [l|e] s1 (HN1 & U & Hl); [|by split; [apply grown_same|]]. destruct Hl as (-> & _ & _).
  set (i := (sel_pages w sel).1). set (m := (sel_pages w sel).2).
  apply (tend_iter geo _ (fun l s' => grown s s' v w /\ exists d, spans_of w i m = d ++ l /\ over_spans w d (fun j => backed s w j -> shown s' v j))).
  - split; [by apply grown_same|]. exists []. split; [done|]. intros k q j H. by apply elem_of_nil in H.
  - intros x l s2 [Hg (d & E & Hd)]. destruct (span_left w i m x l d Kw E) as (k & q & -> & H1 & H2 & H3 & H4 & H5 & _).
    destruct (grown_look _ _ _ _ Hg) as (pl & Hpl & _). set (w2 := set_published pl w) in *. cbn [fst snd].
    eapply tend_mono; [apply (publish_span_tend s2 v w2 k q); [apply Hg|done..]|]. intros r s3 [Hg3 Hr].
    assert (Hg' : grown s s3 v w) by by eapply grown_trans. destruct r as [u|e]; [|done]. split; [done|].
    exists (d ++ [(page_addr w k, q * 4096)]). split; [by rewrite <- app_assoc|]. apply over_spans_snoc.
    + intros k' q' j Hin Hj Hb. apply (shown_grown s2 s3 v w2); [|done|done|by eapply Hd]. by eapply wf_range_tended; [apply Hg|].
    + intros j Hj Hb. apply Hr; [done|]. by apply (backed_tended s s2 w w2); [apply Hg|..].
  - intros s2 [Hg (d & E & Hd)]. split; [done|]. rewrite app_nil_r in E. subst d. intros j Hj Ha. exact (over_spans_all w i m _ Kw Hd j Hj Ha).
Qed.

(** Materializing and publishing one span. *)
Lemma materialize_span_tend s v w k q :
  NInv geo None s -> nest_views s !! v = Some w -> 0 <= k -> 0 < q -> k + q <= view_pages w -> (forall j, k <= j < k + q -> active_in w (page_addr w j)) ->
  tend geo (
    source ← sel_source (Pages v k q);
    pages ← holding (FlatRange_materialize source);
    drop_hold pages ;;
    publish geo (Pages v k q)) s (fun r s' =>
    grown s s' v w /\ match r with Ok _ => forall j, k <= j < k + q -> shown s' v j | Err _ => True end).
Proof using Hgeo.
  intros HN Hw H4 H2 H5 Hact. destruct (ni_views _ _ _ HN v w Hw) as [Kw _ Ks _]. apply tend_bind. unfold sel_source. apply tend_bind. eapply tend_get_view; [exact Hw|].
  destruct (range_run (held s) (flat s) (v_source w) k q (ni_flat _ _ _ HN) Ks H4 H2) as (x & Ex & Hx). eapply (tend_reads geo _ s x); [exact Ex|]. destruct x as [win|e].
  2: { destruct Hx as [_ Hx]. rewrite (vo_count _ _ Kw) in Hx. lia. }
  destruct Hx as (-> & Hwr & _). cbn [map_err]. set (win := Flat.mkRange _ _ _) in *. apply tend_bind. eapply (tend_materialize geo None s win); [done|done| |].
  2: { intros e fw T1 HN2. split; [|done]. apply grown_same; [done|done|by split_and!]. }
  intros h fw Hh T1 _ Hres HN2. set (s2 := set_flat fw _ s) in *. destruct (drop_run geo None s2 h [] (held s) HN2 eq_refl) as (fw3 & E3 & T3 & Sl3 & HN3).
  apply tend_bind. eapply tend_run; [exact E3|done|]. cbn [app]. set (s3 := set_flat fw3 (held s) s2) in *.
  assert (U3 : untouched s s3) by (split_and!; [done|by etransitivity|done|done]). assert (Hw3 : nest_views s3 !! v = Some w) by done.
  assert (Hb : forall j, k <= j < k + q -> backed s3 w j).
  { intros j Hj. destruct (region_of s w) as [r|] eqn:Hr; [left; rewrite (region_tended s s3); [by rewrite Hr|apply U3|done]|]. right.
    destruct (geom_range _ _ Ks) as (c & o & Hg & _). assert (o = None) as -> by (unfold region_of in Hr; by rewrite Hg in Hr).
    destruct (geom_table _ _ _ _ (ni_flat _ _ _ HN) Hg) as (fl & sl & Hfl & Es & _). destruct (Hres ltac:(exists sl; unfold slots_in; cbn [range_flat win]; rewrite Hfl; cbn; by rewrite Es) (range_index (v_source w) + j)) as [f Hf]; [cbn; lia|].
    exists f. change (flat s3) with fw3. rewrite Sl3. exact Hf. }
  eapply tend_mono; [apply (publish_tend s3 (Pages v k q) w HN3 Hw3); by unfold sel_ok|]. intros r s4 [Hg Hr]. cbn [sel_view] in Hg. split.
  { eapply grown_trans; [by apply (grown_same s s3 v w)|done|done]. }
  destruct r as [u|e]; [|done]. intros j Hj. apply Hr; [done|by apply Hact|by apply Hb].
Qed.

Lemma materialize_active_tend s sel w :
  NInv geo None s -> nest_views s !! sel_view sel = Some w -> sel_ok w sel ->
  tend geo (materialize_active geo sel) s (fun r s' =>
    grown s s' (sel_view sel) w /\
    match r with
    | Ok _ => forall j, (sel_pages w sel).1 <= j < (sel_pages w sel).1 + (sel_pages w sel).2 -> active_in w (page_addr w j) -> shown s' (sel_view sel) j
    | Err _ => True
    end).
Proof using Hgeo.
  intros HN Hw Hok. set (v := sel_view sel) in *. destruct (ni_views _ _ _ HN v w Hw) as [Kw _ Ks _]. unfold materialize_active. apply tend_bind. eapply tend_get_view; [exact Hw|]. apply tend_bind.
  eapply tend_mono; [by apply (active_spans_tend s sel w)|]. intros [l|e] s1 (HN1 & U & Hl); [|by split; [apply grown_same|]]. destruct Hl as (-> & _ & _).
  set (i := (sel_pages w sel).1). set (m := (sel_pages w sel).2).
  apply (tend_iter geo _ (fun l s' => grown s s' v w /\ exists d, spans_of w i m = d ++ l /\ over_spans w d (shown s' v))).
  - split; [by apply grown_same|]. exists []. split; [done|]. intros k q j H. by apply elem_of_nil in H.
  - intros x l s2 [Hg (d & E & Hd)]. destruct (span_left w i m x l d Kw E) as (k & q & -> & H1 & H2 & H3 & H4 & H5 & Hact).
    destruct (grown_look _ _ _ _ Hg) as (pl & Hpl & _). set (w2 := set_published pl w) in *. cbn [fst snd].
    apply tend_bind. eapply tend_expect; [apply page_index_of; [done|lia]|]. apply tend_bind, tend_lift. unfold PageCount_new. change PAGE_SIZE with 4096.
    rewrite Z.div_mul by lia. rewrite (proj2 (Z.eqb_neq q 0)) by lia. cbn [ok_or]. apply tend_bind, tend_lift. fold v.
    rewrite range_of_pages by done. eapply tend_mono; [apply (materialize_span_tend s2 v w2 k q); [apply Hg|done..]|]. intros r s3 [Hg3 Hr].
    assert (Hg' : grown s s3 v w) by by eapply grown_trans. destruct r as [u|e]; [|done]. split; [done|].
    exists (d ++ [(page_addr w k, q * 4096)]). split; [by rewrite <- app_assoc|]. apply over_spans_snoc; [|by apply Hr].
    intros k' q' j Hin Hj. apply (shown_grown s2 s3 v w2); [|done|done|by eapply Hd]. by eapply wf_range_tended; [apply Hg|].
  - intros s2 [Hg (d & E & Hd)]. split; [done|]. rewrite app_nil_r in E. subst d. intros j Hj Ha. exact (over_spans_all w i m _ Kw Hd j Hj Ha).
Qed.
End publish.
