(* ===== verification/NestRights.v ===== *)
(** * Address spaces: changing rights

    [set_access] and [narrow] give new rights to a window of a view: the pages that
    are mapped get new permission bits, the view new ranges.  Both are one lemma
    about ranges that cover the same addresses. *)

From stdpp Require Import sorting.
From S2P Require Import Prelude.
From S2P Require Import Table.
From S2P Require Import Flat.
From S2P Require Import FlatInv.
From S2P Require Import Spans.
From S2P Require Import Occupancy.
From S2P Require Import Active.
From S2P Require Import ActiveInv.
From S2P Require Import Index.
From S2P Require Import IndexInv.
From S2P Require Import IndexSystem.
From S2P Require Import Paging.
From S2P Require Import PagingInv.
From S2P Require Import PagingStep.
From S2P Require Import PagingUnmap.
From S2P Require Import PagingMap.
From S2P Require Import PagingRuns.
From S2P Require Import View.
From S2P Require Import ViewInv.
From S2P Require Import Nest.
From S2P Require Import NestFlat.
From S2P Require Import NestInv.
From S2P Require Import NestSteps.
From S2P Require Import NestCommit.
From S2P Require Import NestPublish.

Open Scope Z_scope.

(** ** Permission bits *)

(** Writing the rights [b] over a leaf of the view gives the leaf of [b]. *)
Lemma leaf_merge w a b : 0 <= v_attrs w < 256 -> attrs_are_architectural (v_attrs w) = true -> 0 <= a < 8 -> 0 <= b < 8 ->
  PagingRuns.merge (leaf_flags w a) (leaf_flags w b) = leaf_flags w b.
Proof.
  intros Hx Hb Ha Hb8. unfold leaf_flags, attrs_are_architectural in *. apply Z.eqb_eq in Hb. set (x := v_attrs w) in *. clearbody x.
  assert (Hall : forallb (fun a => forallb (fun b => forallb (fun x => negb (Z.land x (Z.lor PTE_V PTE_RWX) =? 0) ||
    (PagingRuns.merge (Z.lor PTE_V (Z.lor (Access_to_pte a) x)) (Z.lor PTE_V (Z.lor (Access_to_pte b) x)) =? Z.lor PTE_V (Z.lor (Access_to_pte b) x)))
    (seqZ 0 256)) (seqZ 0 8)) (seqZ 0 8) = true) by by vm_compute.
  assert (Hin : forall y k, 0 <= y < k -> In y (seqZ 0 k)) by (intros y k Hy; apply list_elem_of_In, elem_of_seqZ; lia).
  rewrite forallb_forall in Hall. specialize (Hall a (Hin a 8 Ha)). rewrite forallb_forall in Hall. specialize (Hall b (Hin b 8 Hb8)).
  rewrite forallb_forall in Hall. specialize (Hall x (Hin x 256 Hx)). rewrite Hb in Hall. simpl in Hall. by apply Z.eqb_eq in Hall.
Qed.

Lemma land_small a b : 0 <= a < 8 -> 0 <= Z.land a b < 8.
Proof.
  intros Ha. assert (E : a = Z.land a (Z.ones 3)) by (rewrite Z.land_ones by lia; rewrite Z.mod_small; lia). rewrite E, <- Z.land_assoc, (Z.land_comm (Z.ones 3)), Z.land_assoc, Z.land_ones by lia.
  apply Z.mod_pos_bound. lia.
Qed.

(** ** Ranges of whole pages *)

Section rights.
Context (geo : Geo) (Hgeo : geo_ok geo).
Let bit := split_bit geo.
Let n := levels geo.

Section parts.
Context (w : View) (Hw : view_ok geo w) (lo hi : Z).
Context (Hlo : lo mod 4096 = 0) (Hhi : (hi + 1) mod 4096 = 0) (Hle : lo <= hi).

(** A piece between page bounds inside a range. *)
Lemma piece_paged r x y c a :
  ActiveInv.range_ok bit r -> page_range w r -> a_start r <= x <= y -> y <= a_end r -> x mod 4096 = 0 -> (y + 1) mod 4096 = 0 -> 0 <= a < 8 ->
  page_range w (Active.mkRange x (y - x + 1) c a) /\ VirtAddr_from_raw bit x = x.
Proof using Hgeo.
  intros Hr [P1 P2 P3 P4] Hx Hy Mx My Ha. pose proof (a_end_eq bit r Hr) as Ee. destruct Hr as [R1 R2 R3 R4 R5]. split.
  - split; cbn [a_start a_size a_current]; [done| | |done].
    + replace (y - x + 1) with (y + 1 - x) by lia. by rewrite Zminus_mod, My, Mx.
    + unfold a_end at 1, saturating_add. cbn [a_start a_size]. replace (x + (y - x + 1 - 1)) with y by lia. lia.
  - apply from_raw_canonical; [by apply good_split|]. rewrite usize_MAX_eq in R3. split; [lia|]. unfold one_half in *. lia.
Qed.

Lemma part_paged r mid : ActiveInv.range_ok bit r -> page_range w r -> a_overlaps lo hi r = true ->
  Forall (page_range w) (match mid with Some q => [q] | None => [] end) -> Forall (page_range w) (part bit r lo hi mid).
Proof using Hgeo Hlo Hhi Hle.
  intros Hr Hp Ho Hm. unfold part. apply Forall_app. unfold a_overlaps in Ho. apply andb_true_iff in Ho as [Ho1%Z.leb_le Ho2%Z.leb_le].
  pose proof (a_end_eq bit r Hr) as Ee. pose proof Hp as [P1 P2 _ P4].
  assert (Me : (a_end r + 1) mod 4096 = 0) by (rewrite Ee; replace (a_start r + a_size r - 1 + 1) with (a_start r + a_size r) by lia; by rewrite Zplus_mod, P1, P2).
  split; [|apply Forall_app; split; [done|]].
  - destruct (Z.ltb_spec (a_start r) lo); [|done]. apply Forall_singleton. replace (lo - a_start r) with (lo - 1 - a_start r + 1) by lia.
    apply (piece_paged r); try done; try lia. by replace (lo - 1 + 1) with lo by lia.
  - destruct (Z.ltb_spec hi (a_end r)); [|done]. apply Forall_singleton. destruct (piece_paged r (hi + 1) (a_end r) (a_ceiling r) (a_current r)) as [H1 H2]; try done; try lia. by rewrite H2.
Qed.

Lemma middle_paged r c a : ActiveInv.range_ok bit r -> page_range w r -> a_overlaps lo hi r = true -> 0 <= a < 8 -> page_range w (middle bit r lo hi c a).
Proof using Hgeo Hlo Hhi Hle.
  intros Hr Hp Ho Ha. unfold a_overlaps in Ho. apply andb_true_iff in Ho as [Ho1%Z.leb_le Ho2%Z.leb_le].
  pose proof (a_end_eq bit r Hr) as Ee. pose proof Hp as [P1 P2 _ P4]. pose proof (ro_size _ _ Hr).
  assert (Me : (a_end r + 1) mod 4096 = 0) by (rewrite Ee; replace (a_start r + a_size r - 1 + 1) with (a_start r + a_size r) by lia; by rewrite Zplus_mod, P1, P2).
  unfold middle. destruct (piece_paged r (Z.max (a_start r) lo) (Z.min (a_end r) hi) c a) as [H1 H2]; try done; try lia; [by destruct (Z.max_spec (a_start r) lo) as [[_ ->]|[_ ->]]|by destruct (Z.min_spec (a_end r) hi) as [[_ ->]|[_ ->]]|].
  by rewrite H2.
Qed.

Lemma split_paged l access :
  Forall (ActiveInv.range_ok bit) l -> Forall (page_range w) l -> (forall a, access = Some a -> 0 <= a < 8) -> Forall (page_range w) (flat_map (split_range bit lo hi access) l).
Proof using Hgeo Hlo Hhi Hle.
  intros Hr Hp Ha. apply Forall_forall. intros q (r & Hin & Hq)%elem_of_flat_map. eapply Forall_forall in Hr; [|exact Hin]. eapply Forall_forall in Hp; [|exact Hin].
  unfold split_range in Hq. destruct (a_overlaps lo hi r) eqn:Ho; cbn [negb] in Hq; [|by apply list_elem_of_singleton in Hq as ->].
  eapply Forall_forall; [|exact Hq]. apply part_paged; [done..|]. destruct access as [a|]; [|done]. apply Forall_singleton, middle_paged; auto.
Qed.

Lemma narrow_paged l ceiling :
  Forall (ActiveInv.range_ok bit) l -> Forall (page_range w) l -> Forall (page_range w) (flat_map (narrow_range bit lo hi ceiling) l).
Proof using Hgeo Hlo Hhi Hle.
  intros Hr Hp. apply Forall_forall. intros q (r & Hin & Hq)%elem_of_flat_map. eapply Forall_forall in Hr; [|exact Hin]. eapply Forall_forall in Hp; [|exact Hin].
  unfold narrow_range in Hq. destruct (a_overlaps lo hi r) eqn:Ho; [|by apply list_elem_of_singleton in Hq as ->].
  eapply Forall_forall; [|exact Hq]. apply part_paged; [done..|]. apply Forall_singleton, middle_paged; [done..|]. apply land_small, Hp.
Qed.
End parts.

(** ** The pages to write *)

(** The pages of the window that the view maps. *)
Definition mapped_pages (w : View) (b : bool) (i m : Z) : list Z := filter (fun j => b || publishes w j) (seqZ i m).

Lemma elem_mapped w b i m j : j ∈ mapped_pages w b i m <-> i <= j < i + m /\ b || publishes w j = true.
Proof using. unfold mapped_pages. rewrite list_elem_of_filter, elem_of_seqZ. rewrite Is_true_true. tauto. Qed.

Lemma mapped_frame s w b i m j :
  b = bool_decide (is_Some (region_of s w)) -> i <= j < i + m -> j ∈ mapped_pages w b i m <-> is_Some (frame_at s w j).
Proof using.
  intros -> Hj. rewrite elem_mapped. unfold frame_at. destruct (region_of s w) as [r|]; [rewrite bool_decide_eq_true_2 by (by eexists); split; [by eexists|done]|].
  rewrite bool_decide_eq_false_2 by (by intros []). cbn [orb].
  pose proof (publishes_frame w j) as Hp. destruct (publishes w j); [|rewrite (proj1 Hp) by done; split; [by intros [_ ?]|by intros [? ?]]].
  split; [|done]. intros _. destruct (frame_of (v_published w) j); [by eexists|]. by discriminate (proj2 Hp eq_refl).
Qed.

Lemma touch_loop_run w b l st :
  view_ok geo w -> Forall (fun j => 0 <= j < view_pages w) l ->
  touch_loop geo w b l st = (each (touch_page geo) (page_addr w <$> filter (fun j => b || publishes w j) l) ;; mret (page_addr w <$> filter (fun j => b || publishes w j) l)) st.
Proof using.
  intros Kw Hl. revert st. induction Hl as [|j l Hj Hl IH]; intros st; [done|]. cbn [touch_loop]. rewrite (address_run geo w j Kw Hj). munfold.
  rewrite filter_cons. destruct (b || publishes w j) eqn:E.
  - rewrite decide_True by done. cbn. munfold. destruct (touch_page geo _ st) as [[[u|e] st']|]; [|done|done]. cbn. rewrite IH. munfold. by destruct (each _ _ st') as [[[u'|e] st2]|].
  - rewrite decide_False by (by intros []). apply IH.
Qed.

Lemma narrow_pages_run w b next g l st :
  view_ok geo w -> Forall (fun j => 0 <= j < view_pages w /\ exists r, range_at next (page_addr w j) = Some r /\ a_current r = g j) l ->
  narrow_pages geo w b next l st =
  (each (touch_page geo) (page_addr w <$> filter (fun j => b || publishes w j) l) ;; mret ((fun j => (page_addr w j, g j)) <$> filter (fun j => b || publishes w j) l)) st.
Proof using.
  intros Kw Hl. revert st. induction Hl as [|j l [Hj (r & Hr & Eg)] Hl IH]; intros st; [done|]. cbn [narrow_pages]. rewrite (address_run geo w j Kw Hj). munfold. rewrite Hr, Eg.
  rewrite filter_cons. destruct (b || publishes w j) eqn:E.
  - rewrite decide_True by done. cbn. munfold. destruct (touch_page geo _ st) as [[[u|e] st']|]; [|done|done]. cbn. rewrite IH. munfold. by destruct (each _ _ st') as [[[u'|e] st2]|].
  - rewrite decide_False by (by intros []). apply IH.
Qed.

(** Finding a page among those written. *)
Lemma find_page w l (f : Z -> Z) k :
  view_ok geo w -> Forall (fun j => 0 <= j < view_pages w) l -> 0 <= k < view_pages w ->
  List.find (fun x => page_no geo x.1 =? page_no geo (page_addr w k)) ((fun j => (page_addr w j, f j)) <$> l) = if decide (k ∈ l) then Some (page_addr w k, f k) else None.
Proof using Hgeo.
  intros Kw Hl Hk. induction Hl as [|j l Hj Hl IH]; [by rewrite decide_False by apply not_elem_of_nil|]. cbn. rewrite !(page_addr_no geo Hgeo w) by done.
  rewrite !(page_addr_no geo Hgeo w) in IH by done. destruct (Z.eqb_spec (page_no geo (initial_start w) + j) (page_no geo (initial_start w) + k)) as [E|E].
  - assert (j = k) as -> by lia. by rewrite decide_True by by left.
  - rewrite IH. case_decide as H1; case_decide as H2; [done| | |done]; [destruct H2; by right|]. apply elem_of_cons in H2 as [->|]; [lia|done].
Qed.

(** ** New ranges for the same addresses *)

Record regranted (w : View) (next : list ActiveRange) (i m : Z) (g : Z -> Z) : Prop := {
  rg_ok : view_ok geo (set_active next w);
  rg_same : forall x, is_Some (span_at next x) <-> is_Some (span_at (v_active w) x);
  rg_in : forall j, i <= j < i + m -> current_at next (page_addr w j) = Some (g j);
  rg_out : forall a, ~ page_addr w i <= a < page_addr w (i + m) -> current_at next a = current_at (v_active w) a
}.

Lemma regranted_active w next i m g a : regranted w next i m g -> active_in (set_active next w) a <-> active_in w a.
Proof using. intros [_ H _ _]. unfold active_in. cbn [v_active set_active]. rewrite !current_at_span, !fmap_is_Some. apply H. Qed.

(** The view has the new ranges, and nothing else has changed. *)
Record ranged (s s' : Nest) (v : Z) (w : View) (next : list ActiveRange) : Prop := {
  ra_inv : NInv geo None s';
  ra_view : nest_views s' = <[v := set_active next w]> (nest_views s);
  ra_indexed : forall u, indexed s' u <-> indexed s u;
  ra_outer : outer s' = outer s;
  ra_flat : flat s' = flat s
}.

(** The tables after the rights were written. *)
Record rewritten (s : Nest) (w : View) (l : list Z) (g : Z -> Z) (t : TableNode) : Prop := {
  rw_wf : wf n t;
  rw_full : full n (ns_root (ns s)) -> full n t;
  rw_maps : forall v, 0 <= v < pg n -> translate n t v =
    match List.find (fun x => page_no geo x.1 =? v) ((fun j => (page_addr w j, g j)) <$> l) with
    | Some x => (fun y => (y.1, PagingRuns.merge y.2 (leaf_flags w x.2))) <$> translate n (ns_root (ns s)) v
    | None => translate n (ns_root (ns s)) v
    end
}.

(** The end: the view takes its new ranges. *)
Lemma finish_rights s s' v w next i m g b t tw :
  NInv geo None s -> nest_views s !! v = Some w -> 0 <= i -> i + m <= view_pages w -> (forall j, i <= j < i + m -> active_in w (page_addr w j)) -> v_active w <> [] ->
  regranted w next i m g -> b = bool_decide (is_Some (region_of s w)) -> rewritten s w (mapped_pages w b i m) g t -> supply_ok tw ->
  ns_root (ns s') = t -> ns_tables (ns s') = tw -> nest_views s' = <[v := set_active next w]> (nest_views s) ->
  ns_index (ns s') = (Index_refresh (store s') v (ns_index (ns s))).1 -> flat s' = flat s -> outer s' = outer s -> (forall u, u ∈ refs s' -> u = v \/ u ∈ refs s) ->
  ranged s s' v w next.
Proof using Hgeo.
  intros HN Hw Hi Hle Hact Hne RG Hb [Rwf Rfull Rmaps] Hsup Et Etw Ev Ei Ef Eo Er. destruct (ni_views _ _ _ HN v w Hw) as [Kw Kid Ks Kb].
  pose proof (indexed_live geo s v w HN Hw Hne) as Hix. pose proof RG as [Gok Gs Gin Gout]. apply outer_core in Eo as Eo'. destruct Eo' as [Ec Eh].
  assert (Est : store s' = <[v := next]> (store s)) by by apply (store_put s s' v (set_active next w)).
  assert (Hva : active (store s) v = v_active w) by by apply store_active.
  assert (Hcov : forall x, is_Some (span_at next x) <-> covered (store s) v x) by (intros x; unfold covered; by rewrite Hva, Gs).
  assert (HI : IInv bit (mkSpace (store s') (ns_index (ns s')))) by (rewrite Ei, Est; apply refresh_inv; [apply HN|done|apply Gok|done]).
  assert (Hnx : next <> []).
  { destruct (v_active w) as [|r l] eqn:El; [done|]. intros ->. pose proof (vo_ranges _ _ Kw) as [Hs Hok]. rewrite El in *.
    destruct (proj2 (Gs (a_start r))) as [y Hy]; [|done]. exists (s_tag r). apply span_at_Some; [done|by left|]. apply Forall_cons in Hok as [Hr _].
    unfold on_span. cbn. rewrite (a_end_eq _ _ Hr). pose proof (ro_size _ _ Hr). lia. }
  assert (Hviews : views (root (ns_index (ns s'))) = views (root (ns_index (ns s)))).
  { rewrite Ei, Est. pose proof (refresh_ok v (store s) (<[v := next]> (store s)) (root (ns_index (ns s))) (agree_insert _ _ _)) as Hre.
    rewrite active_insert_eq in Hre. specialize (Hre Hnx (ii_good _ _ (ni_index _ _ _ HN)) (by_key_NoDup _ _ (ii_order _ _ (ni_index _ _ _ HN)))).
    unfold Index_refresh. destruct (refresh_node _ _ v) as [t' b']. cbn. by destruct Hre as (_ & -> & _). }
  assert (Hixs : forall u, indexed s' u <-> indexed s u) by (intros u; unfold indexed; by rewrite Hviews).
  assert (HT : turned geo None s s' v w (set_active next w)).
  { split; [done|done|by rewrite Ef| |done|intros u _; apply Hixs|intros _; by apply Hixs|by left|done|by rewrite Et|].
    - split; [done|done|by rewrite Ef|]. intros Hr. apply Kb. unfold region_of in *. by rewrite Ef in Hr.
    - intros a Hc Hal. rewrite Et, Rmaps by apply page_no_range. case_decide as Hd.
      2: { destruct (List.find _ _) as [x|] eqn:Hf; [|done]. exfalso. apply Hd. left. apply (regranted_active w next i m g a RG).
           apply find_some in Hf as [Hin Hp]. apply list_elem_of_In, list_elem_of_fmap in Hin as (j & -> & Hj%elem_mapped). cbn in Hp. apply Z.eqb_eq in Hp.
           destruct Hj as [Hj _]. destruct (page_addr_ok geo Hgeo w Kw j ltac:(lia)) as [Hcj Halj].
           rewrite <- (page_no_inj geo Hgeo _ _ Hcj Hc Halj Hal Hp). by apply Hact. }
      assert (Ha : active_in w a) by (destruct Hd as [H|[H _]]; [by apply (regranted_active w next i m g a RG)|done]).
      destruct (window_page geo w Kw a Hal (active_bounds geo w Kw a Ha)) as [Ea Hk]. set (k := (a - initial_start w) / 4096) in *.
      pose proof (ni_maps _ _ _ HN a Hc Hal) as Hold. fold n in Hold. rewrite Hold. destruct (wants_in geo s a v w (ni_index _ _ _ HN) Hix Hw Ha) as [_ ->].
      rewrite Ea, find_page by (done || (apply Forall_forall; intros j [? _]%elem_mapped; lia)). rewrite <- Ea. unfold view_says.
      change (initial_start (set_active next w)) with (initial_start w). fold k.
      assert (Efr : frame_at s' (set_active next w) k = frame_at s w k) by (unfold frame_at, region_of; by rewrite Ef). rewrite Efr. cbn [v_active set_active].
      case_decide as Hin.
      + apply elem_mapped in Hin as Hkm. destruct Hkm as [Hkm _]. apply (mapped_frame s w b i m k Hb Hkm) in Hin as [f Hf]. rewrite Hf. destruct Ha as [c Hcur]. cbn. rewrite Hcur.
        rewrite Ea, (Gin k Hkm). cbn. rewrite (leaf_merge w c (g k)); [done|apply (vo_attrs _ _ Kw)..| |].
        * by apply (current_rights geo w a c Kw).
        * by apply (current_rights geo (set_active next w) (page_addr w k) (g k) Gok), Gin.
      + destruct (decide (i <= k < i + m)) as [Hkm|Hkm].
        * destruct (frame_at s w k) eqn:Hf; [|done]. exfalso. apply Hin. apply (mapped_frame s w b i m k Hb Hkm). by rewrite Hf.
        * rewrite Gout; [done|]. rewrite Ea. unfold page_addr. lia. }
  assert (HN' : NInv geo None s').
  { eapply (NInv_turned geo None s s' v w); [done|done|by rewrite Etw|rewrite Ef, Eh; apply HN|]. assert (occ s' = occ s) as -> by (unfold core in Ec; congruence). apply HN. }
  by split.
Qed.

(** One page of a view, as the tables see it. *)
Lemma page_at_view w j : view_ok geo w -> 0 <= j < view_pages w -> page_at_ok geo (page_addr w j).
Proof using Hgeo.
  intros Kw Hj. unfold page_at_ok. change PAGE_SIZE with (1 * 4096). apply canon_paging; [done|]. apply (canon_part _ _ (view_pages w)); [apply Kw|lia..].
Qed.

(** Touching the pages of the window that are mapped, then writing their rights. *)
Lemma rights_tend {A} s v w next i m g b (touch : PT A) (x : A) (upd : A -> list (Z * Z)) :
  NInv geo None s -> nest_views s !! v = Some w -> is_closed s = false -> 0 <= i -> 0 < m -> i + m <= view_pages w ->
  (forall j, i <= j < i + m -> active_in w (page_addr w j)) -> regranted w next i m g -> b = bool_decide (is_Some (region_of s w)) ->
  (forall st, touch st = (each (touch_page geo) (page_addr w <$> mapped_pages w b i m) ;; mret x) st) ->
  upd x = (fun j => (page_addr w j, g j)) <$> mapped_pages w b i m ->
  tend geo (y ← on_tables touch; rewrite_rights geo v w (upd y) next) s (fun r s' =>
    match r with Ok _ => ranged s s' v w next | Err _ => NInv geo None s' /\ untouched s s' end).
Proof using Hgeo.
  intros HN Hw Hcl Hi Hm Hle Hact RG Hb Et Eu. destruct (ni_views _ _ _ HN v w Hw) as [Kw Kid Ks Kb]. set (l := mapped_pages w b i m) in *.
  assert (Hin : forall j, j ∈ l -> i <= j < i + m /\ 0 <= j < view_pages w) by (intros j [? _]%elem_mapped; lia).
  assert (Hpg : Forall (page_at_ok geo) (page_addr w <$> l)) by (apply Forall_fmap, Forall_forall; intros j Hj; apply page_at_view; [done|by apply Hin]).
  assert (Hix : indexed s v) by (eapply indexed_live; [done|done|eapply active_nonempty, (Hact i); lia]).
  assert (Hmap : Forall (fun va => is_Some (translate n (ns_root (ns s)) (page_no geo va))) (page_addr w <$> l)).
  { apply Forall_fmap, Forall_forall. intros j Hj. destruct (Hin j Hj) as [Hjm Hjv]. destruct (page_addr_ok geo Hgeo w Kw j Hjv) as [Hc Hal].
    pose proof (ni_maps _ _ _ HN _ Hc Hal) as Hold. fold n in Hold. cbn. rewrite Hold. destruct (wants_in geo s _ v w (ni_index _ _ _ HN) Hix Hw (Hact j Hjm)) as [_ ->].
    unfold view_says. rewrite page_addr_back. apply (mapped_frame s w b i m j Hb Hjm) in Hj as [f ->]. destruct (Hact j Hjm) as [c ->]. by eexists. }
  pose proof (touch_pages_wp geo _ _ _ Hpg (ni_wf _ _ _ HN) (ni_supply _ _ _ HN) Hmap) as Htp. unfold wp in Htp.
  apply tend_bind. apply tend_on_tables. unfold gp. rewrite Et. munfold. destruct (each (touch_page geo) _ _) as [[r [t1 w1]]|]; [|done]. cbn [fst snd] in Htp.
  destruct Htp as ([_ K2 K3 K4] & Hfull & _ & Hr). assert (Hsup : supply_ok w1) by apply K4.
  assert (HN1 : NInv geo None (set_ns (with_root t1 w1 (ns s)) s)) by by apply NInv_tables.
  destruct r as [u|e]; cbn [fst snd].
  2: { split; [auto|]. split; [done|]. by split; [|split_and!]. }
  split; [auto|]. split; [done|]. rewrite Eu. set (s1 := set_ns _ s) in *. unfold rewrite_rights.
  apply tend_bind, tend_try; [|intros g0; by split; [apply NInv_grant|split_and!]]. intros g0. set (s2 := set_grant g0 s1).
  unfold push_pending, modify_ns. apply tend_bind, tend_set; [done|]. apply tend_bind, tend_on_tables. unfold gp. cbn [ns ns_root ns_tables set_ns set_grant s2 s1 with_pending with_root].
  assert (Hok : Forall (fun y => page_at_ok geo y.1 /\ 0 <= leaf_flags w y.2 < 256 /\ Z.land (leaf_flags w y.2) PTE_RWX <> 0) ((fun j => (page_addr w j, g j)) <$> l)).
  { apply Forall_fmap, Forall_forall. intros j Hj. cbn. destruct (Hin j Hj) as [Hjm Hjv]. split; [by apply page_at_view|].
    pose proof (current_rights geo (set_active next w) _ _ (rg_ok _ _ _ _ _ RG) (rg_in _ _ _ _ _ RG j Hjm)) as [H1 H2].
    destruct (leaf_flags_ok w (g j)) as (? & ? & _); [apply (vo_attrs _ _ Kw)..|done|done|done]. }
  pose proof (set_pages_wp geo ((fun y => (y.1, leaf_flags w y.2)) <$> ((fun j => (page_addr w j, g j)) <$> l)) t1 w1) as Hset.
  unfold wp in Hset. rewrite <- list_fmap_compose in Hset. cbn [compose fst snd] in Hset.
  match type of Hset with ?P1 -> ?P2 -> ?P3 -> ?P4 -> _ => assert (H1 : P1); [|assert (H2 : P2); [|assert (H4 : P4); [|specialize (Hset H1 H2 K2 H4)]]] end.
  { rewrite Forall_fmap in Hok. apply Forall_fmap. eapply Forall_impl; [exact Hok|]. done. }
  { rewrite <- list_fmap_compose. cbn. apply NoDup_fmap_2_strong; [|apply NoDup_filter, NoDup_seqZ]. intros j j' Hj Hj' E. cbn in E.
    rewrite !(page_addr_no geo Hgeo w) in E by (done || by apply Hin). lia. }
  { apply Forall_fmap, Forall_forall. intros j Hj. cbn. eapply Forall_forall in Hr; [exact Hr|]. apply list_elem_of_fmap. by exists j. }
  assert (Eeach : each (fun x0 => set_permissions_prepared_geometry geo x0.1 (leaf_flags w x0.2)) ((fun j => (page_addr w j, g j)) <$> l) (t1, w1) =
    each (fun x0 => set_permissions_prepared_geometry geo x0.1 x0.2) ((fun j => (page_addr w j, leaf_flags w (g j))) <$> l) (t1, w1)) by by rewrite !each_fmap.
  rewrite Eeach. destruct (each _ _ (t1, w1)) as [[r [t2 w2]]|]; [|done]. cbn [fst snd] in Hset. destruct Hset as (-> & -> & _ & W2 & _ & F2 & M2).
  assert (F2' : full n t1 -> full n t2) by (intros Hf; apply (full_but_full n (fun _ => False)); [done|by apply F2, full_full_but|done]).
  cbn [fst snd]. split; [auto|]. split; [done|].
  unfold put_view, mark_dirty, modify_ns. apply tend_bind, tend_set; [done|]. apply tend_bind, tend_set; [done|]. apply tend_set; [done|].
  eapply (finish_rights s _ v w next i m g b t2 w1); try done; [eapply active_nonempty, (Hact i); lia| |].
  - split; [done|auto|]. intros p Hp. rewrite M2 by done. rewrite K3 by done.
    clear -Hp. fold l. induction l as [|j l' IH]; [done|]. cbn. by destruct (page_no geo (page_addr w j) =? p).
  - intros u'. unfold refs. cbn. rewrite !elem_of_app, list_elem_of_singleton. naive_solver.
Qed.

(** ** [set_access] and [narrow] *)

Lemma reranged_ok w next pub :
  view_ok geo w -> ranges_ok bit next -> Forall (page_range w) next -> by_page pub ->
  (forall p, p ∈ pub -> p ∈ v_published w /\ is_Some (span_at next (page_addr w p.1))) -> view_ok geo (set_active next (set_published pub w)).
Proof using.
  intros [W1 W2 W3 W4 W5 W6 W7 W8] Hr Hp Hby Hpub. split; try done.
  - eapply Forall_impl; [exact Hp|]. intros r. by apply page_range_res.
  - apply Forall_forall. intros p Hin. destruct (Hpub p Hin) as [H1 H2]. eapply Forall_forall in W8; [|exact H1]. destruct W8 as (M1 & M2 & _).
    split; [done|]. split; [done|]. change (is_Some (current_at next (page_addr w p.1))). rewrite current_at_span. by apply fmap_is_Some.
Qed.

Lemma frame_active w p : view_ok geo w -> p ∈ v_published w -> is_Some (span_at (v_active w) (page_addr w p.1)).
Proof using.
  intros Kw Hp. pose proof (vo_frames _ _ Kw) as Hf. eapply Forall_forall in Hf; [|exact Hp]. destruct Hf as (_ & _ & Ha).
  rewrite current_at_span in Ha. by apply fmap_is_Some in Ha.
Qed.

(** Ranges that cover what [w] covers, with other rights inside the window. *)
Lemma regrant w next i m (f : Z * Z -> Z * Z) (g : Z -> Z) :
  view_ok geo w -> ranges_ok bit next -> Forall (page_range w) next -> 0 < m ->
  (forall x, span_at next x = (if decide (page_addr w i <= x <= page_addr w (i + m) - 1) then f else (fun d => d)) <$> span_at (v_active w) x) ->
  (forall j, i <= j < i + m -> snd <$> (f <$> span_at (v_active w) (page_addr w j)) = Some (g j)) ->
  regranted w next i m g.
Proof using.
  intros Kw Hr Hp Hm Hs Hg. split.
  - replace (set_active next w) with (set_active next (set_published (v_published w) w)) by (by destruct w). apply reranged_ok; [done..|apply Kw|].
    intros p Hin. split; [done|]. rewrite Hs, fmap_is_Some. by apply frame_active.
  - intros x. by rewrite Hs, fmap_is_Some.
  - intros j Hj. rewrite current_at_span, Hs, decide_True by (unfold page_addr; lia). by apply Hg.
  - intros a Ha. rewrite !current_at_span, Hs, decide_False by lia. by destruct (span_at _ a).
Qed.

(** What holds on the way to the change of rights. *)
Lemma window_locked {A} s sel w (k : View -> NM A) Q :
  NInv geo None s -> nest_views s !! sel_view sel = Some w -> sel_ok w sel -> let i := (sel_pages w sel).1 in let m := (sel_pages w sel).2 in
  (forall e s', NInv geo None s' -> untouched s s' -> Q (Err e) s') ->
  (forall s', NInv geo None s' -> untouched s s' -> flat s' = flat s -> is_closed s' = false -> (forall j, i <= j < i + m -> active_in w (page_addr w j)) -> tend geo (k w) s' Q) ->
  tend geo (ready_state ;; ensure_owned w ;; w' ← get_view (sel_view sel);
            if negb (covers w' (page_addr w i) (page_addr w (i + m) - 1)) then fail NoRegion else k w') s Q.
Proof using.
  intros HN Hw Hok i m Herr Hk. destruct (ni_views _ _ _ HN _ w Hw) as [Kw _ _ _]. apply tend_bind. eapply (tend_ready geo None); [exact HN| |].
  2: { intros e s1 HN1 F _. apply Herr; [done|by apply untouched_fenced]. }
  intros s1 HN1 F _ Hop. pose proof (untouched_fenced s s1 F) as U. destruct (fenced_calm _ _ F) as (_ & _ & _ & Ef & Ev).
  apply tend_bind. unfold ensure_owned. apply tend_bind, tend_get. rewrite Hop. cbn [orb]. destruct (negb (_ =? self s1)); [by apply tend_fail, Herr|apply tend_ret].
  apply tend_bind. eapply tend_get_view; [rewrite Ev; exact Hw|]. destruct (covers w _ _) eqn:Hc; cbn [negb]; [|by apply tend_fail, Herr].
  apply Hk; [done..|]. unfold sel_ok in Hok. subst i m. destruct (sel_pages w sel) as [i m]. cbn [fst snd] in *. intros j Hj.
  assert (page_addr w i <= page_addr w (i + m) - 1) as Hle by (unfold page_addr; lia). apply (proj1 (covers_window geo w _ _ Kw Hle) Hc). unfold page_addr. lia.
Qed.

Lemma window_pages_run w i m s (Q : result NestError (list Z) -> Nest -> Prop) :
  view_ok geo w -> 0 <= i -> 0 < m -> i + m <= view_pages w -> Q (Ok (seqZ i m)) s -> tend geo (window_pages geo w (page_addr w i) (page_addr w (i + m) - 1)) s Q.
Proof using Hgeo.
  intros Kw Hi Hm Hle HQ. unfold window_pages. apply tend_bind. destruct (page_addr_ok geo Hgeo w Kw i ltac:(lia)) as [Hc _].
  rewrite from_raw_canonical by (done || by apply good_split). eapply tend_expect; [apply (page_index_of geo); [done|lia]|]. apply tend_ret.
  replace ((page_addr w (i + m) - 1 - page_addr w i + 1) / PAGE_SIZE) with m; [done|]. change PAGE_SIZE with 4096. unfold page_addr.
  replace (initial_start w + (i + m) * 4096 - 1 - (initial_start w + i * 4096) + 1) with (m * 4096) by lia. by rewrite Z.div_mul.
Qed.

(** The ranges after [set_access] and after [narrow]. *)
Definition access_set (w : View) (next : list ActiveRange) (lo hi access : Z) : Prop :=
  forall x, span_at next x = (if decide (lo <= x <= hi) then (fun d => (d.1, access)) else (fun d => d)) <$> span_at (v_active w) x.

Definition narrowed (w : View) (next : list ActiveRange) (lo hi ceiling : Z) : Prop :=
  forall x, span_at next x = (if decide (lo <= x <= hi) then (fun d => (ceiling, Z.land d.2 ceiling)) else (fun d => d)) <$> span_at (v_active w) x.
Lemma window_bounds w i m : view_ok geo w -> 0 < m -> let lo := page_addr w i in let hi := page_addr w (i + m) - 1 in
  lo mod 4096 = 0 /\ (hi + 1) mod 4096 = 0 /\ lo <= hi.
Proof using.
  intros Kw Hm. pose proof (cr_aligned _ _ _ (vo_space _ _ Kw)) as Ha. unfold page_addr. split_and!; [by rewrite Z.mod_add| |lia].
  replace (initial_start w + (i + m) * 4096 - 1 + 1) with (initial_start w + (i + m) * 4096) by lia. by rewrite Z.mod_add.
Qed.

Lemma untouched_before s s1 s2 v w next : untouched s s1 -> flat s1 = flat s -> ranged s1 s2 v w next -> ranged s s2 v w next.
Proof using.
  intros (U1 & U2 & U3 & U4) Ef [R1 R2 R3 R4 R5]. split; [done|by rewrite R2, U3|intros u; rewrite R3; unfold indexed; by rewrite U4|by rewrite R4|by rewrite R5].
Qed.

Lemma set_access_locked_tend s sel w access :
  NInv geo None s -> nest_views s !! sel_view sel = Some w -> sel_ok w sel -> 0 <= access < 8 -> is_leaf_set access = true ->
  tend geo (set_access_locked geo sel access) s (fun r s' =>
    match r with
    | Ok _ => exists next, ranged s s' (sel_view sel) w next /\ access_set w next (sel_window w sel).1 (sel_window w sel).2 access
    | Err _ => NInv geo None s' /\ untouched s s'
    end).
Proof using Hgeo.
  intros HN Hw Hok Ha Hl. destruct (ni_views _ _ _ HN _ w Hw) as [Kw _ Ks _]. unfold set_access_locked. apply tend_bind. eapply tend_get_view; [exact Hw|].
  rewrite (sel_window_pages geo w sel Kw). cbn [fst snd]. assert (Hok' := Hok). unfold sel_ok in Hok'. set (i := (sel_pages w sel).1) in *. set (m := (sel_pages w sel).2) in *.
  assert (Hb : 0 <= i /\ 0 < m /\ i + m <= view_pages w) by (subst i m; by destruct (sel_pages w sel)). clear Hok'. destruct Hb as (Hi & Hm & Hle).
  eapply (window_locked s sel w _ _ HN Hw Hok); [done|]. intros s1 HN1 U1 Ef Hcl Hact.
  destruct (window_bounds w i m Kw Hm) as (B1 & B2 & B3). set (lo := page_addr w i) in *. set (hi := page_addr w (i + m) - 1) in *.
  destruct (any _ (v_active w)) eqn:Hany; [by apply tend_fail|]. apply tend_bind, tend_grows. intros gr g0. apply tend_bind, tend_lift.
  destruct gr; [|split; [by apply NInv_grant|done]]. set (s2 := set_grant g0 s1). assert (HN2 : NInv geo None s2) by by apply NInv_grant.
  destruct (split_ok bit lo hi (good_split geo Hgeo) B3 (v_active w) (Some access) (vo_ranges _ _ Kw)) as (next & En & Hnx & Hsp).
  { apply Forall_forall. intros r Hr. pose proof (proj2 (vo_ranges _ _ Kw)) as Hrs. eapply Forall_forall in Hrs; [|exact Hr]. split; [done|]. intros Ho. split; [|done].
    pose proof (proj1 (any_false _ _) Hany) as Hx. eapply Forall_forall in Hx; [|exact Hr]. cbn in Hx. rewrite Ho in Hx. cbn in Hx. by apply negb_false_iff in Hx. }
  assert (Hset : access_set w next lo hi access).
  { intros x. rewrite Hsp. unfold split_tag. destruct (span_at (v_active w) x); [|done]. cbn. by case_decide. }
  fold bit. rewrite En. assert (Hpg : Forall (page_range w) next).
  { injection En as <-. apply split_paged; [done..|apply (vo_ranges _ _ Kw)|apply (vo_aligned _ _ Kw)|]. by intros a [= <-]. }
  assert (RG : regranted w next i m (fun _ => access)).
  { apply (regrant w next i m (fun d => (d.1, access))); [done..|]. intros j Hj. destruct (Hact j Hj) as [c Hc]. rewrite current_at_span in Hc. apply fmap_Some in Hc as (d & -> & _). done. }
  assert (Hw2 : nest_views s2 !! sel_view sel = Some w) by (change (nest_views s2) with (nest_views s1); by destruct U1 as (_ & _ & -> & _)).
  apply tend_bind, window_pages_run; [done..|]. apply tend_bind. eapply (tend_is_borrowed geo None s2 _ w); [exact HN2|exact Hw2|]. set (b := bool_decide (is_Some (region_of s2 w))).
  apply tend_bind, tend_try; [|intros g1; by split; [apply NInv_grant|]]. intros g1. set (s3 := set_grant g1 s2). assert (HN3 : NInv geo None s3) by by apply NInv_grant.
  eapply tend_mono; [apply (rights_tend s3 (sel_view sel) w next i m (fun _ => access) b _ (page_addr w <$> mapped_pages w b i m) (fun vas => (fun va => (va, access)) <$> vas) HN3 Hw2); try done|].
  { intros st. apply touch_loop_run; [done|]. apply Forall_forall. intros j Hj%elem_of_seqZ. lia. }
  { by rewrite <- list_fmap_compose. }
  intros [u|e] s4 Hr; [|split; [apply Hr|]; by apply (untouched_trans s s1); [|apply Hr]]. exists next. split; [|done]. by apply (untouched_before s s3).
Qed.

Lemma narrow_locked_tend s sel w ceiling :
  NInv geo None s -> nest_views s !! sel_view sel = Some w -> sel_ok w sel ->
  tend geo (narrow_locked geo sel ceiling) s (fun r s' =>
    match r with
    | Ok _ => exists next, ranged s s' (sel_view sel) w next /\ narrowed w next (sel_window w sel).1 (sel_window w sel).2 ceiling
    | Err _ => NInv geo None s' /\ untouched s s'
    end).
Proof using Hgeo.
  intros HN Hw Hok. destruct (ni_views _ _ _ HN _ w Hw) as [Kw _ Ks _]. unfold narrow_locked. apply tend_bind. eapply tend_get_view; [exact Hw|].
  rewrite (sel_window_pages geo w sel Kw). cbn [fst snd]. assert (Hok' := Hok). unfold sel_ok in Hok'. set (i := (sel_pages w sel).1) in *. set (m := (sel_pages w sel).2) in *.
  assert (Hb : 0 <= i /\ 0 < m /\ i + m <= view_pages w) by (subst i m; by destruct (sel_pages w sel)). clear Hok'. destruct Hb as (Hi & Hm & Hle).
  eapply (window_locked s sel w _ _ HN Hw Hok); [done|]. intros s1 HN1 U1 Ef Hcl Hact.
  destruct (window_bounds w i m Kw Hm) as (B1 & B2 & B3). set (lo := page_addr w i) in *. set (hi := page_addr w (i + m) - 1) in *.
  apply tend_bind, tend_grows. intros gr g0. apply tend_bind, tend_lift.
  destruct gr; [|split; [by apply NInv_grant|done]]. set (s2 := set_grant g0 s1). assert (HN2 : NInv geo None s2) by by apply NInv_grant.
  pose proof (narrow_ok bit lo hi (good_split geo Hgeo) B3 ceiling (v_active w) (vo_ranges _ _ Kw)) as Hno. pose proof (narrow_loop_spec bit lo hi ceiling (v_active w)) as Hnl.
  fold bit. destruct (ActiveRange_narrow bit true (v_active w) lo hi ceiling) as [next|e] eqn:En; [|by split]. unfold ActiveRange_narrow in En. rewrite En in Hnl.
  destruct Hno as (_ & Hnx & Hsp). destruct Hnl as [-> _]. set (next := flat_map _ _) in *.
  assert (Hset : narrowed w next lo hi ceiling).
  { intros x. rewrite Hsp. unfold narrow_tag. destruct (span_at (v_active w) x); [|done]. cbn. by case_decide. }
  assert (Hpg : Forall (page_range w) next) by (apply narrow_paged; [done..|apply (vo_ranges _ _ Kw)|apply (vo_aligned _ _ Kw)]).
  set (g := fun j => default 0 (current_at next (page_addr w j))).
  assert (Hgin : forall j, i <= j < i + m -> current_at next (page_addr w j) = Some (g j)).
  { intros j Hj. unfold g. destruct (Hact j Hj) as [c Hc]. rewrite current_at_span in Hc. apply fmap_Some in Hc as (d & Hd & _). rewrite current_at_span, Hset, Hd. done. }
  assert (RG : regranted w next i m g).
  { apply (regrant w next i m (fun d => (ceiling, Z.land d.2 ceiling))); [done..|]. intros j Hj. rewrite <- Hgin by done. rewrite current_at_span, Hset, decide_True by (unfold lo, hi, page_addr; lia). done. }
  assert (Hw2 : nest_views s2 !! sel_view sel = Some w) by (change (nest_views s2) with (nest_views s1); by destruct U1 as (_ & _ & -> & _)).
  apply tend_bind, window_pages_run; [done..|]. apply tend_bind. eapply (tend_is_borrowed geo None s2 _ w); [exact HN2|exact Hw2|]. set (b := bool_decide (is_Some (region_of s2 w))).
  apply tend_bind, tend_try; [|intros g1; by split; [apply NInv_grant|]]. intros g1. set (s3 := set_grant g1 s2). assert (HN3 : NInv geo None s3) by by apply NInv_grant.
  eapply tend_mono; [apply (rights_tend s3 (sel_view sel) w next i m g b _ ((fun j => (page_addr w j, g j)) <$> mapped_pages w b i m) (fun u => u) HN3 Hw2); try done|].
  { intros st. apply narrow_pages_run; [done|]. apply Forall_forall. intros j Hj%elem_of_seqZ. split; [lia|]. pose proof (Hgin j Hj) as Hc. unfold current_at in Hc.
    apply fmap_Some in Hc as (r & Hr & ->). by exists r. }
  intros [u|e] s4 Hr; [|split; [apply Hr|]; by apply (untouched_trans s s1); [|apply Hr]]. exists next. split; [|done]. by apply (untouched_before s s3).
Qed.

(** The invalidation at the end may fail: the change stays. *)
Lemma ranged_fenced s s1 s2 v w next : ranged s s1 v w next -> NInv geo None s2 -> fenced s1 s2 -> ranged s s2 v w next.
Proof using.
  intros [R1 R2 R3 R4 R5] HN F. destruct (fenced_calm _ _ F) as ([_ Ei _ _ _] & _ & _ & Ef & Ev).
  split; [done|by rewrite Ev|intros u; unfold indexed; rewrite Ei; apply R3|by rewrite (fenced_outer _ _ F)|by rewrite Ef].
Qed.

Lemma then_finish (m : NM unit) s v w (P : list ActiveRange -> Prop) :
  tend geo m s (fun r s' => match r with Ok _ => exists next, ranged s s' v w next /\ P next | Err _ => NInv geo None s' /\ untouched s s' end) ->
  tend geo (m ;; finish_invalidation) s (fun r s' =>
    match r with
    | Ok _ => ns_invalidation (ns s') = Clean /\ exists next, ranged s s' v w next /\ P next
    | Err e => (NInv geo None s' /\ untouched s s') \/ (e = Shootdown /\ exists next, ranged s s' v w next /\ P next)
    end).
Proof using.
  intros H. apply tend_bind. eapply tend_mono; [exact H|]. intros [u|e] s1 Hr; [|by left]. destruct Hr as (next & R & HP).
  eapply (tend_finish geo None); [apply R|]. intros r s2 HN2 [F Hr]. pose proof (ranged_fenced s s1 s2 v w next R HN2 F) as R2.
  destruct r as [[]|e]; [split; [apply Hr|by exists next]|]. right. destruct Hr as [-> _]. split; [done|by exists next].
Qed.

Lemma set_access_tend s sel w access :
  NInv geo None s -> nest_views s !! sel_view sel = Some w -> sel_ok w sel -> 0 <= access < 8 ->
  tend geo (set_access geo sel access) s (fun r s' =>
    match r with
    | Ok _ => ns_invalidation (ns s') = Clean /\ exists next, ranged s s' (sel_view sel) w next /\ access_set w next (sel_window w sel).1 (sel_window w sel).2 access
    | Err e => (NInv geo None s' /\ untouched s s') \/
        (e = Shootdown /\ exists next, ranged s s' (sel_view sel) w next /\ access_set w next (sel_window w sel).1 (sel_window w sel).2 access)
    end).
Proof using Hgeo.
  intros HN Hw Hok Ha. unfold set_access. destruct (is_leaf_set access) eqn:Hl; cbn [negb]; [|apply tend_fail; left; by split].
  apply (then_finish _ s _ w (fun next => access_set w next _ _ access)). by apply set_access_locked_tend.
Qed.

Lemma narrow_tend s sel w ceiling :
  NInv geo None s -> nest_views s !! sel_view sel = Some w -> sel_ok w sel ->
  tend geo (narrow geo sel ceiling) s (fun r s' =>
    match r with
    | Ok _ => ns_invalidation (ns s') = Clean /\ exists next, ranged s s' (sel_view sel) w next /\ narrowed w next (sel_window w sel).1 (sel_window w sel).2 ceiling
    | Err e => (NInv geo None s' /\ untouched s s') \/
        (e = Shootdown /\ exists next, ranged s s' (sel_view sel) w next /\ narrowed w next (sel_window w sel).1 (sel_window w sel).2 ceiling)
    end).
Proof using Hgeo.
  intros HN Hw Hok. apply (then_finish _ s _ w (fun next => narrowed w next _ _ ceiling)). by apply narrow_locked_tend.
Qed.
End rights.
