(* ===== verification/NestWithdraw.v ===== *)
(** * Address spaces: withdrawing

    [withdraw] takes a span of a view out: its addresses get tickets, its pages
    leave the tables, the view and the index, and once the other harts have
    forgotten them the tickets are settled.  [owns] is what keeps the spans of
    different views apart: an active address is occupied by the generation of its
    view. *)

From stdpp Require Import sorting.
From S2P Require Import Prelude.
From S2P Require Import Table.
From S2P Require Import Flat.
From S2P Require Import FlatInv.
From S2P Require Import Spans.
From S2P Require Import Occupancy.
From S2P Require Import OccupancyInv.
From S2P Require Import OccupancySystem.
From S2P Require Import OccupancyTheorems.
From S2P Require Import Active.
From S2P Require Import ActiveInv.
From S2P Require Import Index.
From S2P Require Import IndexInv.
From S2P Require Import IndexSystem.
From S2P Require Import Paging.
From S2P Require Import PagingInv.
From S2P Require Import PagingStep.
From S2P Require Import PagingUnmap.
From S2P Require Import PagingMap.
From S2P Require Import PagingRuns.
From S2P Require Import View.
From S2P Require Import ViewInv.
From S2P Require Import Nest.
From S2P Require Import NestFlat.
From S2P Require Import NestInv.
From S2P Require Import NestSteps.
From S2P Require Import NestCommit.
From S2P Require Import NestPublish.
From S2P Require Import NestRights.

Open Scope Z_scope.

(** ** Whose addresses *)

(** An active address is occupied by the generation of its view. *)
Record owns (s : Nest) : Prop := {
  ow_live : forall v w x, nest_views s !! v = Some w -> active_in w x -> exists r, owner (slots (occ s)) x = Some (0, v, r);
  ow_tickets : Forall (fun t => t <> 0) (ns_retirement (ns s));
  ow_paged : Forall paged (slots (occ s));
  ow_inside : forall v w sl, nest_views s !! v = Some w -> sl ∈ slots (occ s) -> id sl = v -> initial_start w <= start sl /\ last sl <= res_last (v_res w);
  ow_gen : forall v, is_Some (nest_views s !! v) -> v < next_gen (occ s)
}.

(** The views of [s'] are those of [s], no more active than before. *)
Definition fewer (s s' : Nest) : Prop := forall v w', nest_views s' !! v = Some w' ->
  exists w, nest_views s !! v = Some w /\ v_res w' = v_res w /\ forall x, active_in w' x -> active_in w x.

Lemma owns_moved g s s' :
  owns s -> OInv (occ s') -> moved g (occ s) (occ s') -> fewer s s' -> (forall t, t ∈ ns_retirement (ns s') -> t <> 0) ->
  (forall w' x, nest_views s' !! g = Some w' -> active_in w' x -> exists r, owner (slots (occ s')) x = Some (0, g, r)) -> owns s'.
Proof.
  intros [O1 O2 O3 O4 O5] HO' [M1 M2 M3 M4 M5] Hf Ht Hg. split.
  - intros v w' x Hw Ha. destruct (decide (v = g)) as [->|Hne]; [by apply (Hg w')|]. destruct (Hf v w' Hw) as (w & Hw0 & _ & Hact).
    destruct (O1 v w x Hw0 (Hact x Ha)) as [r Hr]. apply owner_inv in Hr as (sl & Hs & Hh & Htag). unfold tag in Htag. injection Htag as T1 T2 T3. exists r.
    rewrite (owner_intro _ x sl (oi_ordered _ HO')); [by unfold tag; rewrite T1, T2, T3|by apply M5; congruence|done].
  - by apply Forall_forall.
  - by apply M4.
  - intros v w' sl Hw Hs Hid. destruct (Hf v w' Hw) as (w & Hw0 & Hres & _). destruct (M3 sl Hs) as (s0 & H0 & Eid & L & R & _).
    unfold initial_start. rewrite Hres. destruct (O4 v w s0 Hw0 H0 ltac:(congruence)) as [? ?]. unfold initial_start in *. lia.
  - intros v [w' Hw]. destruct (Hf v w' Hw) as (w & Hw0 & _ & _). rewrite M1. apply O5. by eexists.
Qed.

Lemma owns_table s s' : owns s -> table_of (occ s') = table_of (occ s) -> fewer s s' -> ns_retirement (ns s') = ns_retirement (ns s) -> owns s'.
Proof.
  intros [O1 O2 O3 O4 O5] Et Hf Er. unfold table_of in Et. injection Et as E1 E2 E3 E4. split; rewrite ?E2, ?E3, ?Er; try done.
  - intros v w' x Hw Ha. destruct (Hf v w' Hw) as (w & Hw0 & _ & Hact). apply (O1 v w x Hw0). by apply Hact.
  - intros v w' sl Hw. destruct (Hf v w' Hw) as (w & Hw0 & Hres & _). unfold initial_start. rewrite Hres. by apply (O4 v w).
  - intros v [w' Hw]. destruct (Hf v w' Hw) as (w & Hw0 & _ & _). apply O5. by eexists.
Qed.

Lemma fewer_same s s' : nest_views s' = nest_views s -> fewer s s'.
Proof. intros E v w. rewrite E. intros H. by exists w. Qed.

(** ** The tables *)

Section withdraw.
Context (geo : Geo) (Hgeo : geo_ok geo).
Let bit := split_bit geo.
Let n := levels geo.

(** The tables once the window of [m] pages at [va] is prepared. *)
Record readied (s : Nest) (va m : Z) (t : TableNode) (tw : Paging.World) : Prop := {
  rd_wf : wf n t;
  rd_supply : supply_ok tw;
  rd_same : forall x, 0 <= x < pg n -> translate n t x = translate n (ns_root (ns s)) x;
  rd_inside : forall x, page_no geo va <= x < page_no geo va + m -> inside n (page_no geo va) (page_no geo va + m) x t;
  rd_room : node_count t <= room tw - len (Paging.retired tw)
}.

Lemma ready_window_tend f s va m (Q : result NestError unit -> Nest -> Prop) :
  NInv geo f s -> is_closed s = false -> canon_range geo va m ->
  (forall t tw, readied s va m t tw -> NInv geo f (set_ns (with_root t tw (ns s)) s) -> Q (Ok tt) (set_ns (with_root t tw (ns s)) s)) ->
  (forall t tw, NInv geo f (set_ns (with_root t tw (ns s)) s) -> Q (Err NOutOfMemory) (set_ns (with_root t tw (ns s)) s)) ->
  tend geo (on_tables (prepare_geometry geo va (m * 4096) ;; reserve_retired_tables)) s Q.
Proof using Hgeo.
  intros HN Hcl Hc HQ HE. pose proof (canon_paging geo Hgeo va m Hc) as Hr. apply tend_on_tables. fold n.
  set (t0 := ns_root (ns s)). set (w0 := ns_tables (ns s)). pose proof (ni_wf _ _ _ HN) as Hwf. pose proof (ni_supply _ _ _ HN) as Hsup. fold n t0 in Hwf. fold w0 in Hsup.
  apply gp_bind. pose proof (prepare_wp geo va (m * 4096) _ m t0 w0 Hr Hwf Hsup) as Hp. pose proof (prepare_full geo va (m * 4096) _ m t0 w0 Hr Hwf Hsup) as Hf.
  unfold wp in Hp, Hf. unfold gp at 1. destruct (prepare_geometry geo va (m * 4096) (t0, w0)) as [[r [t1 w1]]|]; [|done]. cbn [fst snd] in *.
  destruct Hp as ([_ K2 K3 K4] & Hfi & Hr1). assert (Hs1 : supply_ok w1) by apply K4.
  destruct r as [[]|e].
  2: { subst e. split; [done|]. split; [done|]. by apply HE, NInv_tables. }
  apply wp_gp, reserve_retired_wp; [done| |].
  - intros w2 _ _ Hs2 Hroom. cbn [fst snd]. split; [by intros Hfull _; apply Hf|]. split; [done|]. apply HQ; [|by apply NInv_tables]. by split.
  - intros w2 _ _ Hs2. cbn [fst snd]. split; [done|]. split; [done|]. by apply HE, NInv_tables.
Qed.

(** Taking the window out leaves no empty table, whatever was there. *)
Lemma clear_window_tend s0 s va m (Q : result NestError unit -> Nest -> Prop) :
  canon_range geo va m -> readied s0 va m (ns_root (ns s)) (ns_tables (ns s)) ->
  (forall t tw, wf n t -> supply_ok tw -> full n t ->
    (forall x, 0 <= x < pg n -> translate n t x = if in_range (page_no geo va) (page_no geo va + m) x then None else translate n (ns_root (ns s)) x) ->
    Q (Ok tt) (set_ns (with_root t tw (ns s)) s)) ->
  tend geo (on_tables (unmap_prepared_geometry geo va (m * 4096) ;; reclaim_empty_tables geo)) s Q.
Proof using Hgeo.
  intros Hc [R1 R2 R3 R4 R5] HQ. pose proof (canon_paging geo Hgeo va m Hc) as Hr. apply tend_on_tables. fold n.
  apply wp_gp, wp_bind. eapply wp_mono; [apply (unmap_wp geo va (m * 4096) (page_no geo va) m); [apply Hgeo|done|done|done]|]. intros r [t1 w1] (-> & E & [C1 C2 C3 C4 C5]). cbn [fst snd] in *. subst w1.
  eapply wp_mono; [apply (reclaim_wp geo); [done|by rewrite C3]|]. intros r [t2 w2] (-> & Hpr & Hf). cbn [fst snd] in *.
  split; [done|]. split; [done|]. destruct Hpr as (gone & _ & P1 & P2 & E2 & _). cbn [fst snd] in *. subst w2.
  apply HQ; [done|done|done|]. intros x Hx. by rewrite P2, C4.
Qed.
(** ** The view *)

(** The window [i, i + m) of [w] is taken out. *)
Record shrunk (w : View) (i m : Z) (next : list ActiveRange) (pub : list (Z * Z)) : Prop := {
  sk_spans : forall x, span_at next x = if decide (page_addr w i <= x < page_addr w (i + m)) then None else span_at (v_active w) x;
  sk_frames : forall j, frame_of pub j = if decide (i <= j < i + m) then None else frame_of (v_published w) j;
  sk_ok : view_ok geo (set_active next (set_published pub w));
  sk_pub : forall p, p ∈ pub -> p ∈ v_published w
}.

Definition shrink (next : list ActiveRange) (pub : list (Z * Z)) (w : View) : View := set_active next (set_published pub w).

Lemma shrunk_current w i m next pub x : shrunk w i m next pub ->
  current_at next x = if decide (page_addr w i <= x < page_addr w (i + m)) then None else current_at (v_active w) x.
Proof using. intros [Hs _ _ _]. rewrite !current_at_span, Hs. by case_decide. Qed.

Lemma frame_of_retain q fs j : (forall p p', p.1 = p'.1 -> q p = q p') -> frame_of (retain q fs) j = if q (j, 0) then frame_of fs j else None.
Proof using.
  intros Hq. unfold frame_of, retain. induction fs as [|p fs IH]; cbn [List.filter List.find]; [by destruct (q _)|].
  destruct (Z.eqb_spec p.1 j) as [E|E].
  - rewrite (Hq p (j, 0)) by done. destruct (q (j, 0)) eqn:Eq; cbn [List.find]; [by rewrite (proj2 (Z.eqb_eq _ _) E)|]. exact IH.
  - destruct (q p); cbn [List.find]; [rewrite (proj2 (Z.eqb_neq _ _) E)|]; exact IH.
Qed.

(** What [ActiveRange::split] and the loop over the published pages leave. *)
Lemma shrink_ok w i m :
  view_ok geo w -> 0 <= i -> 0 < m -> i + m <= view_pages w ->
  exists next, ActiveRange_split bit true (v_active w) (page_addr w i) (page_addr w (i + m) - 1) None = Ok next /\
    shrunk w i m next (retain (fun p => negb ((i <=? p.1) && (p.1 <=? i + m - 1))) (v_published w)).
Proof using Hgeo.
  intros Kw Hi Hm Hle. destruct (window_bounds geo w i m Kw Hm) as (B1 & B2 & B3). pose proof (vo_ranges _ _ Kw) as Hr.
  destruct (split_ok bit _ _ (good_split geo Hgeo) B3 (v_active w) None Hr) as (next & Hsp & Hok & Hat).
  { unfold all_hold. destruct Hr as [_ Hr]. eapply Forall_impl; [exact Hr|]. done. }
  assert (Hspan : forall x, span_at next x = if decide (page_addr w i <= x < page_addr w (i + m)) then None else span_at (v_active w) x).
  { intros x. rewrite Hat. unfold split_tag. destruct (span_at (v_active w) x) as [d|]; cbn; [|by case_decide].
    destruct (decide (page_addr w i <= x <= _)), (decide (page_addr w i <= x < _)); try lia; done. }
  exists next. split; [done|]. set (pub := retain _ _).
  assert (Hfr : forall j, frame_of pub j = if decide (i <= j < i + m) then None else frame_of (v_published w) j).
  { intros j. unfold pub. rewrite frame_of_retain by (by intros p p' ->). cbn [fst]. destruct (Z.leb_spec i j), (Z.leb_spec j (i + m - 1)); cbn [negb andb]; case_decide; (done || lia). }
  assert (Hsub : forall p, p ∈ pub -> p ∈ v_published w) by (intros p Hp; by apply elem_of_retain in Hp as [? _]).
  split; [done|done| |done]. apply reranged_ok; [done|done| |by apply by_page_retain, Kw|].
  - unfold ActiveRange_split in Hsp. injection Hsp as <-. apply (split_paged geo Hgeo w _ _ B1 B2 B3); [apply Hr|apply Kw|done].
  - intros p Hp. split; [by apply Hsub|]. apply elem_of_retain in Hp as [Hp Hin]. cbn beta in Hin. to_prop. rewrite Hspan, decide_False by (unfold page_addr; lia). exact (frame_active geo w p Kw Hp).
Qed.

Lemma shrink_active w i m next pub x : shrunk w i m next pub -> active_in (shrink next pub w) x <-> active_in w x /\ ~ page_addr w i <= x < page_addr w (i + m).
Proof using.
  intros SK. unfold active_in. cbn [v_active shrink set_active]. rewrite (shrunk_current w i m next pub x SK). case_decide; [|by split; [|intros [? _]]].
  split; [by intros [? ?]|by intros [_ ?]].
Qed.

Lemma finish_withdraw s s' v w i m next pub :
  NInv geo None s -> nest_views s !! v = Some w -> 0 <= i -> 0 < m -> i + m <= view_pages w -> shrunk w i m next pub ->
  (forall u wu x, nest_views s !! u = Some wu -> page_addr w i <= x < page_addr w (i + m) -> active_in wu x -> u = v) ->
  (forall x, 0 <= x < pg n -> translate n (ns_root (ns s')) x =
    if in_range (page_no geo (page_addr w i)) (page_no geo (page_addr w i) + m) x then None else translate n (ns_root (ns s)) x) ->
  wf n (ns_root (ns s')) -> supply_ok (ns_tables (ns s')) -> nest_views s' = <[v := shrink next pub w]> (nest_views s) ->
  IInv bit (mkSpace (store s') (ns_index (ns s'))) -> (forall u, indexed s' u <-> (u = v -> next <> []) /\ indexed s u) ->
  flat s' = flat s -> held s' = held s -> OInv (occ s') -> (forall u, u ∈ refs s' -> u = v \/ u ∈ refs s) -> NInv geo None s'.
Proof using Hgeo.
  intros HN Hw Hi Hm Hle SK Hoth Hmap Hwf Hsup Ev HI Hix Ef Eh HO Er. destruct (ni_views _ _ _ HN v w Hw) as [Kw Kid Ks Kb].
  assert (Hreg : region_of s' (shrink next pub w) = region_of s w) by (unfold region_of; by rewrite Ef).
  pose proof (canon_part geo _ _ i m (vo_space _ _ Kw) Hi Hm Hle) as Hcr.
  pose proof (fun a => shrink_active w i m next pub a SK) as Hact.
  apply (NInv_turned geo None s s' v w (shrink next pub w)); [done| |done|by rewrite Ef, Eh; apply HN|done].
  split; [done|done|by rewrite Ef| |done| | |by left|done|done|].
  - split; [apply SK|done|by rewrite Ef|]. rewrite Hreg. intros Hr. specialize (Kb Hr). cbn [v_published shrink set_active set_published].
    destruct pub as [|p pub]; [done|]. pose proof (sk_pub _ _ _ _ _ SK p ltac:(by left)) as Hp. rewrite Kb in Hp. by apply elem_of_nil in Hp.
  - intros u Hu. rewrite Hix. naive_solver.
  - cbn [v_active shrink set_active]. intros Hne. rewrite Hix. split; [done|]. apply (ni_filed _ _ _ HN v w Hw); [|done]. intros E0. destruct next as [|r l]; [done|].
    pose proof (vo_ranges _ _ (sk_ok _ _ _ _ _ SK)) as [Hs Hok]. cbn in Hs, Hok. apply Forall_cons in Hok as [Hr _].
    pose proof (sk_spans _ _ _ _ _ SK (a_start r)) as Hx. rewrite E0 in Hx. rewrite (span_at_Some _ _ _ Hs (list_elem_of_here _ _)) in Hx; [by case_decide|].
    unfold on_span. cbn. rewrite (a_end_eq _ _ Hr). pose proof (ro_size _ _ Hr). lia.
  - intros a Hc Hal. rewrite Hmap by apply page_no_range. rewrite (page_no_in geo Hgeo _ m a) by (done || exact Hcr).
    replace (page_addr w i + m * 4096) with (page_addr w (i + m)) by (unfold page_addr; lia).
    pose proof (ni_maps _ _ _ HN a Hc Hal) as Hold. fold n in Hold.
    destruct (decide (active_in (shrink next pub w) a)) as [Ha|Ha]; [|destruct (decide (active_in w a /\ indexed s v)) as [Hb|Hb]].
    + rewrite decide_True by by left. apply Hact in Ha as [Ha Hout]. rewrite bool_decide_eq_false_2 by done. rewrite Hold.
      assert (Hiv : indexed s v) by (apply (ni_filed _ _ _ HN v w Hw); [by eapply active_nonempty|done]).
      destruct (wants_in geo s a v w (ni_index _ _ _ HN) Hiv Hw Ha) as [_ ->]. unfold view_says. cbn [v_active shrink set_active].
      change (initial_start (shrink next pub w)) with (initial_start w). rewrite (shrunk_current w i m next pub a SK), decide_False by done.
      destruct (window_page geo w Kw a Hal (active_bounds geo w Kw a Ha)) as [Ea Hk]. set (k := (a - initial_start w) / 4096) in *.
      unfold frame_at. rewrite Hreg. cbn [v_published shrink set_active set_published v_source]. rewrite (sk_frames _ _ _ _ _ SK), decide_False; [done|].
      intros Hik. apply Hout. rewrite Ea. unfold page_addr. lia.
    + rewrite decide_True by by right. rewrite bool_decide_eq_true_2; [by rewrite view_says_out|]. destruct (decide (page_addr w i <= a < page_addr w (i + m))); [done|]. exfalso. apply Ha, Hact. by split; [apply Hb|].
    + rewrite decide_False by tauto. case_bool_decide as Hin; [|done]. symmetry. fold n. rewrite Hold.
      destruct (wants_cases geo s a (ni_index _ _ _ HN)) as [(u & wu & U1 & U2 & U3 & _)|(_ & _ & ->)]; [|done].
      exfalso. apply Hb. pose proof (Hoth u wu a U2 Hin U3) as ->. assert (wu = w) as -> by congruence. done.
Qed.
(** ** [withdraw_locked] *)

Lemma tend_occ {A} (m : OC A) s (Q : result NestError A -> Nest -> Prop) :
  gp (spare_tickets (occ s)) m (occ s) (fun r o => (spare_tickets (occ s) -> spare_tickets o) /\ Q r (set_occ o s)) -> tend geo (on_occ m) s Q.
Proof using.
  unfold tend, gp, on_occ. destruct (m (occ s)) as [[r o]|].
  - intros [Hs HQ]. split; [|done]. intros [Hf Ht] _. split; [done|by apply Hs].
  - intros Hn Hab. apply Hn. apply Hab.
Qed.

(** Nothing has changed but the allocations and the tables. *)
Record passed (s s' : Nest) : Prop := {
  pa_inv : NInv geo None s';
  pa_near : near s' = near s;
  pa_flat : flat s' = flat s;
  pa_views : nest_views s' = nest_views s;
  pa_index : ns_index (ns s') = ns_index (ns s)
}.

Lemma passed_trans s1 s2 s3 : passed s1 s2 -> passed s2 s3 -> passed s1 s3.
Proof using. intros [A1 A2 A3 A4 A5] [B1 B2 B3 B4 B5]. split; [done|by rewrite B2|by rewrite B3|by rewrite B4|by rewrite B5]. Qed.

Lemma passed_grant s s' g : passed s s' -> passed s (set_grant g s').
Proof using Hgeo. intros [A1 A2 A3 A4 A5]. split; [by apply NInv_grant|done..]. Qed.

Lemma passed_occ s s' o : passed s s' -> table_of o = table_of (occ s') -> passed s (set_occ o s').
Proof using Hgeo.
  intros [A1 A2 A3 A4 A5] Et. split; [apply NInv_occ; [done|]; eapply OInv_table; [exact Et|apply A1]| |done..].
  rewrite <- A2. unfold near. cbn [self asid kind occ cleanup asid_released held mem ns set_occ]. by rewrite Et.
Qed.

Lemma passed_fenced s s' : NInv geo None s' -> fenced s s' -> passed s s'.
Proof using.
  intros HN Hf. destruct (fenced_calm s s' Hf) as ([_ C2 C3 _ _] & _ & _ & F4 & _). split; [done|by apply outer_near, fenced_outer|done..].
Qed.

Definition away (s : Nest) := (self s, asid s, kind s, cleanup s, asid_released s, held s, mem s, flat s).

(** The window is out; its addresses wait under the tickets [tks]. *)
Record withdrawn (s s' : Nest) (v : Z) (w : View) (i m : Z) (tks : list Z) : Prop := {
  wd_inv : NInv geo None s';
  wd_view : exists next pub, shrunk w i m next pub /\ nest_views s' = <[v := shrink next pub w]> (nest_views s) /\
    forall u, indexed s' u <-> (u = v -> next <> []) /\ indexed s u;
  wd_owned : forall x, page_addr w i <= x < page_addr w (i + m) -> exists t r, owner (slots (occ s)) x = Some (t, v, r);
  wd_nonzero : Forall (fun t => t <> 0) tks;
  wd_in : forall x, page_addr w i <= x < page_addr w (i + m) -> exists t r, t ∈ tks /\ owner (slots (occ s')) x = Some (t, v, r);
  wd_out : forall x, ~ page_addr w i <= x < page_addr w (i + m) -> owner (slots (occ s')) x = owner (slots (occ s)) x;
  wd_retirement : ns_retirement (ns s') = ns_retirement (ns s) ++ tks;
  wd_moved : moved v (occ s) (occ s');
  wd_away : away s' = away s
}.

(** The frames of the window are still held. *)
Definition frames_wait (s' : Nest) (w : View) (i m : Z) : Prop :=
  forall j f, i <= j < i + m -> frame_of (v_published w) j = Some f -> f ∈ ns_retired_frames (ns s').

Lemma owns_passed s s' : owns s -> passed s s' -> owns s'.
Proof using.
  intros HO [A1 A2 A3 A4 A5]. destruct (near_rest _ _ A2) as (N1 & N2 & _). apply (owns_table s); [done|done|by apply fewer_same|]. unfold rest in N1. congruence.
Qed.

(** A withdrawn window was no other view's. *)
Lemma owns_alone s v w i m u wu x :
  owns s -> (forall x, page_addr w i <= x < page_addr w (i + m) -> exists t r, owner (slots (occ s)) x = Some (t, v, r)) ->
  nest_views s !! u = Some wu -> page_addr w i <= x < page_addr w (i + m) -> active_in wu x -> u = v.
Proof using. intros [O1 _ _ _ _] Ho Hu Hx Ha. destruct (O1 u wu x Hu Ha) as [r Hr]. destruct (Ho x Hx) as (t & r' & Hr'). congruence. Qed.

Lemma shrunk_fewer s s' v w i m next pub : nest_views s !! v = Some w -> shrunk w i m next pub -> nest_views s' = <[v := shrink next pub w]> (nest_views s) -> fewer s s'.
Proof using.
  intros Hw SK Ev u wu. rewrite Ev, lookup_insert_Some. intros [[<- <-]|[Hne Hu]]; [|by exists wu]. exists w. split; [done|]. split; [done|]. intros x Hx. by apply (shrink_active w i m next pub x SK).
Qed.

Lemma owns_withdrawn s s' v w i m tks : nest_views s !! v = Some w -> owns s -> withdrawn s s' v w i m tks -> owns s'.
Proof using.
  intros Hw HO [W1 (next & pub & SK & Ev & _) W3 W4 W5 W6 W7 W9 _]. apply (owns_moved v s); [done|apply W1|done|by eapply shrunk_fewer| |].
  - rewrite W7. intros t [Ht|Ht]%elem_of_app; [exact (proj1 (Forall_forall _ _) (ow_tickets _ HO) t Ht)|exact (proj1 (Forall_forall _ _) W4 t Ht)].
  - intros w' x. rewrite Ev, lookup_insert_eq. intros [= <-] Ha. apply (shrink_active w i m next pub x SK) in Ha as [Ha Hout]. rewrite W6 by done. by apply (ow_live _ HO v w).
Qed.
(** The tail of [withdraw_locked], once the new ranges and the pieces are known. *)
Definition withdraw_tail (v : Z) (w : View) (start len first_page last_page : Z) (ps : list (Z * Z * Z)) (next : list ActiveRange) (node : option IndexNode) : NM (list Z) :=
  on_tables (prepare_geometry geo start len ;; reserve_retired_tables) ;;
  tickets ← on_occ (retire_pieces (res_gen (v_res w)) ps);
  on_tables (unmap_prepared_geometry geo start len ;; reclaim_empty_tables geo) ;;
  push_pending v ;;
  let inside p := (first_page <=? p.1) && (p.1 <=? last_page) in
  modify_ns (fun n => with_frames (ns_retired_frames n ++ reverse (snd <$> retain inside (v_published w))) n) ;;
  put_view v (set_active next (set_published (retain (fun p => negb (inside p)) (v_published w)) w)) ;;
  s ← get;
  x ← expect (Index_remove (store s) v (ns_index (ns s)));
  i ← (match node with Some node => expect (Index_insert (store s) node x.1) | None => mret x.1 end);
  modify_ns (with_index i) ;;
  modify_ns (fun n => with_retirement (ns_retirement n ++ tickets) n) ;;
  mark_dirty ;;
  mret tickets.

(** The node to file the view with again. *)
Definition node_for (st : Store) (v : Z) (next : list ActiveRange) : option IndexNode :=
  if bool_decide (next = []) then None else Some (cached v (key (<[v := next]> st) v) (vend (<[v := next]> st) v)).

Lemma withdraw_tail_tend s v w i m ps next :
  NInv geo None s -> owns s -> nest_views s !! v = Some w -> is_closed s = false -> 0 <= i -> 0 < m -> i + m <= view_pages w ->
  let pub := retain (fun p => negb ((i <=? p.1) && (p.1 <=? i + m - 1))) (v_published w) in
  shrunk w i m next pub -> tiles (page_addr w i) (page_addr w (i + m) - 1) ps -> Forall (carries (slots (occ s)) v) ps -> Forall whole_pages ps ->
  tend geo (withdraw_tail v w (page_addr w i) (m * 4096) i (i + m - 1) ps next (node_for (store s) v next)) s (fun r s' =>
    match r with Ok tks => withdrawn s s' v w i m tks /\ frames_wait s' w i m | Err _ => passed s s' end).
Proof using Hgeo.
  intros HN HO Hw Hcl Hi Hm Hle pub SK Hti Hca Hpg. destruct (ni_views _ _ _ HN v w Hw) as [Kw Kid Ks Kb]. pose proof (canon_part geo _ _ i m (vo_space _ _ Kw) Hi Hm Hle) as Hcr.
  change (canon_range geo (page_addr w i) m) in Hcr. pose proof Hcr as [C1 C2 C3 C4 C5]. destruct (tiles_pieced _ _ _ Hti) as [P1 P2 P3].
  assert (Hend : page_addr w (i + m) = page_addr w i + m * 4096) by (unfold page_addr; lia).
  assert (Hown : forall x, page_addr w i <= x < page_addr w (i + m) -> exists t r, owner (slots (occ s)) x = Some (t, v, r)).
  { intros x Hx. destruct (P3 x ltac:(lia)) as (q & Hq & Hin). rewrite Forall_forall in Hca. destruct (Hca q Hq x Hin) as [r Hr]. by exists q.2, r. }
  pose proof (fun u wu x => owns_alone s v w i m u wu x HO Hown) as Hal.
  unfold withdraw_tail. apply tend_bind. eapply ready_window_tend; [exact HN|done|done| |]; intros t1 tw1.
  2: { intros HN1. by split. }
  intros Hrd HN1. set (s1 := set_ns (with_root t1 tw1 (ns s)) s) in *. unfold identity in Kid. rewrite Kid.
  apply tend_bind, tend_occ. change (occ s1) with (occ s).
  eapply gp_mono; [apply (retire_pieces_gp v (page_addr w i) (page_addr w (i + m) - 1) ps (occ s)); [apply HN|done|unfold usize_MAX, usize_bits; lia|done|done|done]|].
  intros x o' (tks & -> & [T1 T2 T3 T4 T5 T6]). split; [done|]. cbv beta iota.
  apply tend_bind. eapply (clear_window_tend s _ _ m); [done|exact Hrd|]. intros t2 tw2 Hwf2 Hs2 Hf2 Hmap2. cbn [ns ns_root set_occ set_ns with_root] in Hmap2.
  set (s2 := set_ns (with_root t2 tw2 _) _).
  unfold push_pending, modify_ns, put_view, mark_dirty. apply tend_bind, tend_set; [done|]. apply tend_bind, tend_set; [done|]. apply tend_bind, tend_set; [done|].
  fold pub. fold (shrink next pub w). apply tend_bind, tend_get. cbv beta iota. set (s3 := set_views _ _).
  assert (Est : store s3 = <[v := next]> (store s)) by by apply (store_put s s3 v (shrink next pub w)).
  assert (Hva : active (store s) v = v_active w) by by apply store_active.
  destruct (shrink_view bit v next (store s) (ns_index (ns s)) (ni_index _ _ _ HN)) as (i1 & b & Erm & Hn).
  { rewrite Hva. intros Hne. by apply (ni_filed _ _ _ HN v w Hw). }
  { apply (vo_ranges _ _ (sk_ok _ _ _ _ _ SK)). }
  { intros x. rewrite (sk_spans _ _ _ _ _ SK). unfold covered. rewrite Hva. case_decide; [by intros [? ?]|done]. }
  apply tend_bind. eapply tend_expect; [rewrite Est; exact Erm|]. cbn [fst]. apply tend_bind.
  apply (tend_mono geo _ _ (fun r s' => s' = s3 /\ exists i2, r = Ok i2 /\ IInv bit (mkSpace (store s3) i2) /\
    forall u, u ∈ views (root i2) <-> (u = v -> next <> []) /\ u ∈ views (root (ns_index (ns s))))).
  { unfold node_for. rewrite Est. case_bool_decide as En.
    - apply tend_ret. split; [done|]. exists i1. split; [done|]. destruct Hn as [Hn1 Hn2]. split; [done|]. intros u. rewrite Hn2. naive_solver.
    - destruct Hn as (_ & i2 & Ein & HI2 & Hn2). eapply tend_expect; [exact Ein|]. split; [done|]. exists i2. split; [done|]. split; [done|]. intros u. rewrite Hn2. naive_solver. }
  intros r s' [-> (i2 & -> & HI2 & Hv2)]. apply tend_bind, tend_set; [done|]. apply tend_bind, tend_set; [done|]. apply tend_bind, tend_set; [done|]. apply tend_ret.
  set (s5 := set_ns _ _). assert (Hix : forall u, indexed s5 u <-> (u = v -> next <> []) /\ indexed s u) by done.
  split; [split; [|by exists next, pub|done|done| | |done|by apply T3|done]|].
  - apply (finish_withdraw s s5 v w i m next pub); try done.
    + intros x Hx. cbn [ns_root ns s5 set_ns with_invalidation with_retirement with_index]. rewrite Hmap2 by done. destruct (in_range _ _ x); [done|]. by apply (rd_same _ _ _ _ _ Hrd).
    + intros u. unfold refs. cbn. rewrite !elem_of_app, list_elem_of_singleton. tauto.
  - intros x Hx. destruct (P3 x ltac:(lia)) as (q & Hq & Hin). by apply (T5 x q).
  - intros x Hx. apply T6. intros q Hq Hin. apply Hx. rewrite Forall_forall in P2. specialize (P2 q Hq). unfold in_piece in Hin. lia.
  - intros j f Hj Hf. cbn. apply elem_of_app. right. apply elem_of_reverse, list_elem_of_fmap. exists (j, f). split; [done|]. apply elem_of_retain. split; [by apply frame_of_elem|].
    cbn. apply andb_true_iff. lia.
Qed.
Lemma withdrawn_passed s s1 s2 v w i m tks : passed s s1 -> withdrawn s1 s2 v w i m tks -> withdrawn s s2 v w i m tks.
Proof using.
  intros [A1 A2 A3 A4 A5] [W1 (next & pub & W2 & W2' & W2'') W3 W4 W5 W6 W7 W9 W10]. unfold near, table_of in A2.
  assert (E : slots (occ s1) = slots (occ s) /\ ns_retirement (ns s1) = ns_retirement (ns s) /\ table_of (occ s1) = table_of (occ s) /\ away s1 = away s)
    by (unfold away, table_of; split_and!; congruence).
  destruct E as (E1 & E2 & E3 & E5). rewrite E1 in *. rewrite E2 in *. split; try done; [|etransitivity; [by apply (moved_table v), E3|done]|by rewrite W10].
  exists next, pub. split; [done|]. split; [by rewrite W2', A4|]. intros u. rewrite W2''. unfold indexed. by rewrite A5.
Qed.

(** The last page of a window. *)
Lemma window_last w i m : view_ok geo w -> 0 <= i -> 0 < m -> i + m <= view_pages w ->
  checked_add (page_addr w i) (m * 4096 - 1) = Some (page_addr w (i + m) - 1) /\
  page_index w (page_addr w i) = Some i /\ page_index w (VirtAddr_from_raw bit (page_addr w (i + m) - 1)) = Some (i + m - 1).
Proof using Hgeo.
  intros Kw Hi Hm Hle. pose proof (canon_part geo _ _ i m (vo_space _ _ Kw) Hi Hm Hle) as [C1 C2 C3 C4 C5]. pose proof (vo_space _ _ Kw) as [D1 _ _ _ _].
  assert (Hend : page_addr w (i + m) = page_addr w i + m * 4096) by (unfold page_addr; lia). fold (page_addr w i) in C1, C2, C4, C5.
  split; [|split; [apply (page_index_of geo); [done|lia]|]].
  - unfold checked_add. rewrite Hend. apply checked_Some. rewrite usize_iff. unfold usize_MAX, usize_bits. lia.
  - rewrite from_raw_canonical; [|by apply good_split|].
    + unfold page_index, checked_sub. rewrite (proj2 (checked_Some (page_addr w (i + m) - 1 - initial_start w) (page_addr w (i + m) - 1 - initial_start w))).
      * cbn. f_equal. change PAGE_SIZE with 4096. replace (page_addr w (i + m) - 1 - initial_start w) with ((i + m - 1) * 4096 + 4095) by (unfold page_addr; lia).
        rewrite Z.div_add_l by lia. change (4095 / 4096) with 0. lia.
      * rewrite usize_iff. split; [done|]. unfold usize_MAX, usize_bits. unfold page_addr in *. lia.
    + unfold canonical, one_half in *. fold bit in C4. rewrite Hend. lia.
Qed.

Lemma tend_ensure s w (Q : result NestError unit -> Nest -> Prop) :
  Q (Ok tt) s -> Q (Err NoRegion) s -> tend geo (ensure_owned w) s Q.
Proof using. intros H1 H2. unfold ensure_owned. apply tend_bind, tend_get. destruct (_ || _); [by apply tend_fail|by apply tend_ret]. Qed.

Lemma withdraw_locked_tend s v w i m :
  NInv geo None s -> owns s -> nest_views s !! v = Some w -> 0 <= i -> 0 < m -> i + m <= view_pages w ->
  tend geo (withdraw_locked geo v (page_addr w i) (m * 4096)) s (fun r s' =>
    match r with Ok tks => withdrawn s s' v w i m tks /\ frames_wait s' w i m | Err _ => passed s s' end).
Proof using Hgeo.
  intros HN HO Hw Hi Hm Hle. destruct (ni_views _ _ _ HN v w Hw) as [Kw Kid Ks Kb]. destruct (window_last w i m Kw Hi Hm Hle) as (L1 & L2 & L3).
  assert (P0 : passed s s) by by split. unfold withdraw_locked. apply tend_bind. eapply tend_get_view; [exact Hw|]. cbv zeta.
  apply tend_bind, tend_lift. rewrite L1. cbn [ok_or]. unfold identity in Kid. rewrite Kid.
  assert (Hlt : page_addr w i <= page_addr w (i + m) - 1) by (unfold page_addr; lia).
  destruct (pieces_run (page_addr w i) (page_addr w (i + m) - 1) v (occ s) (ni_occ _ _ _ HN) Hlt) as (x & o1 & E1 & Et1 & Hx).
  apply tend_bind. eapply tend_on_occ; [exact E1|by apply table_tickets|]. assert (P1 : passed s (set_occ o1 s)) by by apply passed_occ. destruct x as [ps|e]; [|done].
  destruct Hx as (Hti & Hca & Hpg). destruct (window_bounds geo w i m Kw Hm) as (B1 & B2 & _). specialize (Hpg (ow_paged _ HO) B1 B2). destruct (occ_reserve_run o1) as (x & o2 & E2 & Et2 & _). apply tend_bind. eapply tend_on_occ; [exact E2|by apply table_tickets|].
  assert (P2 : passed s (set_occ o2 (set_occ o1 s))) by by apply passed_occ. set (s2 := set_occ o2 _) in *. destruct x as [[]|e]; [|done].
  apply tend_bind, tend_try; intros g; [|by apply passed_grant]. apply passed_grant with (g := g) in P2 as P3. set (s3 := set_grant g s2) in *.
  apply tend_bind, tend_get. destruct (is_closed s3) eqn:Hcl; [by apply tend_fail|]. destruct (negb _); [by apply tend_fail|].
  apply tend_bind, tend_ensure; [|done]. apply tend_bind, tend_grows. intros b g1. apply passed_grant with (g := g1) in P3 as P4. set (s4 := set_grant g1 s3) in *.
  destruct (shrink_ok w i m Kw Hi Hm Hle) as (next & Esp & SK). apply tend_bind, tend_lift. destruct b; [|done]. fold bit. rewrite Esp.
  apply tend_bind. eapply tend_expect; [exact L2|]. apply tend_bind. eapply tend_expect; [exact L3|]. apply tend_bind.
  apply (tend_mono geo _ _ (fun r s' => passed s s' /\ is_closed s' = false /\ match r with Ok node => node = node_for (store s) v next | Err _ => True end)).
  { unfold node_for. destruct (bool_decide (next = [])) eqn:En; [by apply tend_ret|].
    destruct (shrink_view bit v next (store s) (ns_index (ns s)) (ni_index _ _ _ HN)) as (i1 & b & _ & Hn).
    { rewrite (store_active s v w Hw). intros Hne. by apply (ni_filed _ _ _ HN v w Hw). }
    { apply (vo_ranges _ _ (sk_ok _ _ _ _ _ SK)). }
    { intros x. rewrite (sk_spans _ _ _ _ _ SK). unfold covered. rewrite (store_active s v w Hw). case_decide; [by intros [? ?]|done]. }
    rewrite En in Hn. destruct Hn as [Hn _]. apply tend_bind, tend_lift. rewrite Hn. apply tend_bind, tend_try; intros g2; [apply tend_ret|]; by split; [apply passed_grant|]. }
  intros r s5 (P5 & Hcl5 & Hr). destruct r as [node|e]; [|done]. subst node.
  apply tend_bind, tend_try; intros g2; [|by apply passed_grant]. apply tend_bind, tend_try; intros g3; [|by repeat apply passed_grant].
  apply tend_bind, tend_try; intros g4; [|by repeat apply passed_grant]. set (s6 := set_grant g4 _). assert (P6 : passed s s6) by by repeat apply passed_grant.
  assert (Ev6 : nest_views s6 = nest_views s) by apply P6. assert (Es6 : slots (occ s6) = slots (occ s)) by (pose proof (pa_near _ _ P6) as Hn; unfold near, table_of in Hn; congruence).
  eapply tend_mono.
  - replace (store s) with (store s6) by (unfold store; by rewrite Ev6).
    pose proof (withdraw_tail_tend s6 v w i m ps next (pa_inv _ _ P6) (owns_passed _ _ HO P6)) as Ht. unfold withdraw_tail in Ht. rewrite Kid in Ht.
    apply Ht; [by rewrite Ev6|done|done|done|done|done|done|by rewrite Es6|done].
  - intros r s7 Hr. destruct r as [tks|e]; [destruct Hr as [W Hfr]; split; [by eapply withdrawn_passed|done]|by eapply passed_trans].
Qed.
(** ** [withdraw] *)

Lemma withdrawn_fenced s s1 s2 v w i m tks : NInv geo None s2 -> withdrawn s s1 v w i m tks -> fenced s1 s2 -> withdrawn s s2 v w i m tks.
Proof using.
  intros HN [W1 (next & pub & W2 & W2' & W2'') W3 W4 W5 W6 W7 W9 W10] F. pose proof (fenced_outer _ _ F) as Eo. destruct (fenced_calm _ _ F) as ([_ C2 _ _ _] & E1 & E2 & E3 & E4).
  split; [done| |done|done|by rewrite E1|by rewrite E1|by rewrite (fe_retirement _ _ F)|by rewrite E1|].
  - exists next, pub. split; [done|]. split; [by rewrite E4|]. intros u. rewrite <- W2''. unfold indexed. by rewrite C2.
  - rewrite <- W10. unfold away, outer in *. congruence.
Qed.

(** The window is out and its addresses are free. *)
Record released (s s' : Nest) (v : Z) (w : View) (i m : Z) : Prop := {
  rl_inv : NInv geo None s';
  rl_view : exists next pub, shrunk w i m next pub /\ nest_views s' = <[v := shrink next pub w]> (nest_views s) /\
    forall u, indexed s' u <-> (u = v -> next <> []) /\ indexed s u;
  rl_free : forall x, page_addr w i <= x < page_addr w (i + m) -> owner (slots (occ s')) x = None;
  rl_live : forall x u r, ~ page_addr w i <= x < page_addr w (i + m) -> owner (slots (occ s)) x = Some (0, u, r) -> owner (slots (occ s')) x = Some (0, u, r);
  rl_owner : forall x d, owner (slots (occ s')) x = Some d -> owner (slots (occ s)) x = Some d;
  rl_tickets : forall t, t ∈ ns_retirement (ns s') -> t ∈ ns_retirement (ns s);
  rl_moved : moved v (occ s) (occ s');
  rl_away : away s' = away s
}.

(** The tickets of a withdrawn window that the shootdown has covered. *)
Lemma settle_tend s s1 v w i m tks :
  withdrawn s s1 v w i m tks -> tend geo (settle_tickets tks) s1 (fun r s' => r = Ok tt /\ released s s' v w i m /\ ns_invalidation (ns s') = ns_invalidation (ns s1)).
Proof using.
  intros [W1 (next & pub & W2 & W2' & W2'') W3 W4 W5 W6 W7 W9 W10]. unfold settle_tickets, modify_ns. apply tend_bind, tend_set; [done|]. set (s2 := set_ns _ s1).
  destruct (reclaim_all tks s2 (ni_occ _ _ _ W1) W4) as (o & E & K1 & K2 & K3 & K5). unfold tend, gp. rewrite E. split.
  { intros [Hf Ht] _. split; [done|by apply K2]. }
  split; [done|]. split; [|done]. assert (Hown : forall x, owner (slots o) x = settled tks (owner (slots (occ s1))) x) by done. split.
  - apply (NInv_calm geo None s1); [done| |apply W1|apply W1|done]. by split.
  - by exists next, pub.
  - intros x Hx. cbn [occ set_occ]. rewrite Hown. unfold settled. destruct (W5 x Hx) as (t & r & Ht & ->). by rewrite bool_decide_eq_true_2.
  - intros x u r Hx Hl. cbn [occ set_occ]. rewrite Hown. unfold settled. rewrite W6, Hl by done. cbn. rewrite bool_decide_eq_false_2; [done|]. intros Hz. rewrite Forall_forall in W4. by apply (W4 0).
  - intros x d. cbn [occ set_occ]. rewrite Hown. unfold settled. destruct (owner (slots (occ s1)) x) as [d'|] eqn:Hd; [|done]. case_bool_decide as Hb; [done|]. intros [= ->].
    rewrite <- W6; [done|]. intros Hx. destruct (W5 x Hx) as (t & r & Ht & Hd'). rewrite Hd' in Hd. injection Hd as <-. by apply Hb.
  - intros t. cbn. intros Ht. apply elem_of_retain in Ht as [Ht Hn]. rewrite W7 in Ht. apply elem_of_app in Ht as [Ht|Ht]; [done|]. exfalso.
    apply negb_true_iff in Hn. rewrite any_false in Hn. rewrite Forall_forall in Hn. specialize (Hn t Ht). by apply Z.eqb_neq in Hn.
  - cbn [occ set_occ]. etransitivity; [exact W9|apply K3].
  - done.
Qed.

Lemma withdraw_tend s v w i m :
  NInv geo None s -> owns s -> nest_views s !! v = Some w -> 0 <= i -> 0 < m -> i + m <= view_pages w ->
  tend geo (withdraw geo v (page_addr w i) (m * 4096)) s (fun r s' =>
    match r with
    | Ok _ => released s s' v w i m /\ ns_invalidation (ns s') = Clean
    | Err e => passed s s' \/ e = Shootdown /\ frames_wait s' w i m /\ exists tks, withdrawn s s' v w i m tks
    end).
Proof using Hgeo.
  intros HN HO Hw Hi Hm Hle. destruct (ni_views _ _ _ HN v w Hw) as [Kw Kid Ks Kb]. destruct (window_last w i m Kw Hi Hm Hle) as (L1 & L2 & L3).
  destruct (window_bounds geo w i m Kw Hm) as (B1 & _ & _). unfold withdraw, VirtAddr_offset. rewrite land_page. change PAGE_SIZE with 4096.
  rewrite B1, Z.mod_mul, (proj2 (Z.eqb_neq (m * 4096) 0)) by lia. cbn [Z.eqb negb orb]. apply tend_bind, tend_lift. rewrite L1. cbn [ok_or].
  apply tend_bind. eapply (tend_ready geo None); [exact HN| |]; [|intros e s1 HN1 F _; left; by apply passed_fenced]. intros s1 HN1 F Hcln Hcl.
  pose proof (passed_fenced _ _ HN1 F) as P1. assert (Hw1 : nest_views s1 !! v = Some w) by by rewrite (pa_views _ _ P1). apply tend_bind.
  eapply tend_mono; [apply (withdraw_locked_tend s1 v w i m HN1 (owns_passed _ _ HO P1) Hw1 Hi Hm Hle)|]. intros r s2 Hr. destruct r as [tks|e]; [|left; by eapply passed_trans].
  apply tend_bind. destruct Hr as [W Hfr]. apply (withdrawn_passed _ _ _ _ _ _ _ _ P1) in W.
  eapply (tend_finish geo None); [apply W|]. intros r s3 HN3 [F3 Hr3]. pose proof (withdrawn_fenced _ _ _ _ _ _ _ _ HN3 W F3) as W3. destruct r as [[]|e].
  - eapply tend_mono; [by apply settle_tend|]. intros r s4 (-> & R & Ei). rewrite Ei. by split; [|apply Hr3].
  - right. destruct Hr3 as (-> & _ & Er). split; [done|]. split; [|by exists tks]. intros j f Hj Hf. rewrite Er. by apply (Hfr j).
Qed.
End withdraw.
