(* ===== verification/NestDetach.v ===== *)
(** * Address spaces: detaching, retrying, closing

    [detach] withdraws every part of a window that a view still owes, whether active
    or waiting for a shootdown.  [lessened] is what all operations other than
    reserving and attaching do: views are no more active than before, slots are cut
    or dropped, and the addresses of reservations stay. *)

From stdpp Require Import sorting.
From S2P Require Import Prelude.
From S2P Require Import Table.
From S2P Require Import Flat.
From S2P Require Import FlatInv.
From S2P Require Import Spans.
From S2P Require Import Occupancy.
From S2P Require Import OccupancyInv.
From S2P Require Import OccupancySystem.
From S2P Require Import OccupancyTheorems.
From S2P Require Import Active.
From S2P Require Import ActiveInv.
From S2P Require Import Index.
From S2P Require Import IndexInv.
From S2P Require Import IndexSystem.
From S2P Require Import Paging.
From S2P Require Import PagingInv.
From S2P Require Import PagingStep.
From S2P Require Import PagingUnmap.
From S2P Require Import PagingMap.
From S2P Require Import PagingRuns.
From S2P Require Import View.
From S2P Require Import ViewInv.
From S2P Require Import Nest.
From S2P Require Import NestFlat.
From S2P Require Import NestInv.
From S2P Require Import NestSteps.
From S2P Require Import NestCommit.
From S2P Require Import NestPublish.
From S2P Require Import NestRights.
From S2P Require Import NestWithdraw.

Open Scope Z_scope.

(** ** Owed spans *)

#[local] Existing Instance by_start_dec.
#[local] Instance by_start_total : Total by_start.
Proof. intros a b. unfold by_start. lia. Qed.
#[local] Instance by_start_trans : Transitive by_start.
Proof. intros a b c. unfold by_start. lia. Qed.

Section owed.
Context (geo : Geo) (Hgeo : geo_ok geo) (w : View) (Hw : view_ok geo w).
Let bit := split_bit geo.

(** A block of whole pages of the view: its first and its last byte. *)
Definition block (p : Z * Z) : Prop := exists k q, p = (page_addr w k, page_addr w (k + q) - 1) /\ 0 <= k /\ 0 < q /\ k + q <= view_pages w.
(** The same as start and size. *)
Definition span_of_pages (p : Z * Z) : Prop := exists k q, p = (page_addr w k, q * 4096) /\ 0 <= k /\ 0 < q /\ k + q <= view_pages w.

Lemma block_intro a b : a mod 4096 = 0 -> (b + 1) mod 4096 = 0 -> initial_start w <= a -> a <= b -> b <= res_last (v_res w) -> block (a, b).
Proof using Hw.
  intros Ha Hb H1 H2 H3. pose proof (cr_aligned _ _ _ (vo_space _ _ Hw)) as Hal. pose proof (vo_size _ _ Hw) as Hsz. unfold res_last in H3. unfold initial_size in Hsz. fold (initial_start w) in H3.
  exists ((a - initial_start w) / 4096), ((b + 1 - a) / 4096). unfold page_addr.
  assert ((a - initial_start w) mod 4096 = 0) as M1 by (rewrite Zminus_mod, Ha, Hal; done). assert ((b + 1 - a) mod 4096 = 0) as M2 by (rewrite Zminus_mod, Hb, Ha; done).
  pose proof (Z.div_mod (a - initial_start w) 4096). pose proof (Z.div_mod (b + 1 - a) 4096). split; [f_equal; lia|]. lia.
Qed.

Lemma view_block_bounds p : block p -> p.1 mod 4096 = 0 /\ (p.2 + 1) mod 4096 = 0 /\ initial_start w <= p.1 <= p.2 /\ p.2 <= res_last (v_res w).
Proof using Hw.
  intros (k & q & -> & Hk & Hq & Hle). cbn [fst snd]. destruct (window_bounds geo w k q Hw Hq) as (B1 & B2 & B3). pose proof (vo_size _ _ Hw) as Hsz. unfold res_last. fold (initial_size w) (initial_start w).
  rewrite Hsz. split_and!; [done|done|unfold page_addr; lia..].
Qed.

Lemma block_span a b : block (a, b) -> span_of_pages (VirtAddr_from_raw bit a, b - a + 1).
Proof using Hgeo Hw.
  intros (k & q & [= -> ->] & Hk & Hq & Hle). exists k, q. destruct (page_addr_ok geo Hgeo w Hw k ltac:(lia)) as [Hc _]. rewrite from_raw_canonical by (done || by apply good_split).
  split; [f_equal; unfold page_addr; lia|done].
Qed.

Lemma owed_loop_in strict hi floor owned l :
  floor mod 4096 = 0 -> initial_start w <= floor -> Forall block owned -> owed_loop geo strict hi floor owned = Ok l -> Forall span_of_pages l.
Proof using Hgeo Hw.
  intros Hf Hlo Ho. revert floor l Hf Hlo. induction Ho as [|[a b] owned Hb _ IH]; intros floor l Hf Hlo; cbn [owed_loop]; [by destruct strict; intros [= <-]|].
  pose proof (view_block_bounds _ Hb) as (A1 & A2 & A3 & A4). cbn [fst snd] in *. destruct (Z.ltb_spec b floor); [by apply IH|]. destruct (_ && strict); [done|].
  assert (Hm : block (Z.max floor a, b)) by (apply block_intro; [by destruct (Z.max_spec floor a) as [[_ ->]|[_ ->]]|done|lia..]). apply block_span in Hm. fold bit.
  destruct (hi <=? b); [intros [= <-]; by apply Forall_singleton|]. destruct (owed_loop geo strict hi (b + 1) owned) as [rest|e] eqn:Er; [|done]. intros [= <-]. constructor; [done|].
  apply (IH (b + 1)); [done|lia|done].
Qed.

Lemma owed_loop_all strict hi floor owned l :
  floor mod 4096 = 0 -> initial_start w <= floor -> StronglySorted by_start owned -> Forall block owned -> Forall (fun p => p.2 <= hi) owned -> owed_loop geo strict hi floor owned = Ok l ->
  forall p x, p ∈ owned -> p.1 <= x <= p.2 -> floor <= x -> exists y, y ∈ l /\ y.1 <= x < y.1 + y.2.
Proof using Hgeo Hw.
  intros Hf Hlo Hs Ho Hh. revert floor l Hf Hlo. induction Hs as [|[a b] owned Hs IH Hlt]; intros floor l Hf Hlo Hl p x Hp Hx Hfl; [by apply elem_of_nil in Hp|].
  apply Forall_cons in Ho as [Hb Ho]. apply Forall_cons in Hh as [Hh1 Hh]. cbn [owed_loop fst snd] in *. destruct (Z.ltb_spec b floor) as [Hlb|Hlb].
  { apply elem_of_cons in Hp as [->|Hp]; [cbn in Hx; lia|]. by apply (IH Ho Hh floor l Hf Hlo Hl p). }
  destruct (_ && strict); [done|]. assert (Hax : a <= x).
  { apply elem_of_cons in Hp as [->|Hp]; [cbn in Hx; lia|]. rewrite Forall_forall in Hlt. specialize (Hlt p Hp). unfold by_start in Hlt. cbn in Hlt. lia. }
  pose proof (view_block_bounds _ Hb) as (A1 & A2 & A3 & A4). cbn [fst snd] in *.
  assert (Hm : block (Z.max floor a, b)) by (apply block_intro; [by destruct (Z.max_spec floor a) as [[_ ->]|[_ ->]]|done|lia..]).
  assert (Hraw : VirtAddr_from_raw bit (Z.max floor a) = Z.max floor a).
  { destruct Hm as (k & q & [= E _] & Hk & Hq & Hle). rewrite E. destruct (page_addr_ok geo Hgeo w Hw k ltac:(lia)) as [Hc _]. by rewrite from_raw_canonical by (done || by apply good_split). }
  fold bit in Hl. rewrite Hraw in Hl.
  assert (Hhit : x <= b -> exists y, y = (Z.max floor a, b - Z.max floor a + 1) /\ y.1 <= x < y.1 + y.2) by (intros Hxb; eexists; split; [reflexivity|]; cbn [fst snd]; lia).
  destruct (Z.leb_spec hi b) as [Hhb|Hhb].
  { injection Hl as <-. destruct Hhit as (y & -> & Hy); [|eexists; split; [by apply list_elem_of_singleton|done]].
    apply elem_of_cons in Hp as [->|Hp]; [cbn in Hx; lia|]. rewrite Forall_forall in Hh. specialize (Hh p Hp). cbn in Hh. lia. }
  destruct (owed_loop geo strict hi (b + 1) owned) as [rest|e] eqn:Er; [|done]. injection Hl as <-. destruct (Z.le_gt_cases x b) as [Hxb|Hxb].
  { destruct (Hhit Hxb) as (y & -> & Hy). eexists. split; [by left|done]. }
  apply elem_of_cons in Hp as [->|Hp]; [cbn in Hx; lia|]. destruct (IH Ho Hh (b + 1) rest A2 ltac:(lia) Er p x Hp Hx ltac:(lia)) as (y & Hy & Hin). exists y. split; [by right|done].
Qed.
End owed.

(** A page out of the list of a view. *)
Lemma remove_page fs j at_ : by_page fs -> position (fun p => p.1 =? j) fs = Some at_ ->
  exists f, fs !! at_ = Some (j, f) /\ frame_of fs j = Some f /\ remove_at at_ fs = retain (fun p => negb (p.1 =? j)) fs.
Proof.
  intros Hb. revert at_. induction Hb as [|p fs Hb IH Hlt]; intros at_; cbn [position]; [done|]. destruct (Z.eqb_spec p.1 j) as [E|E].
  - intros [= <-]. exists p.2. split; [by destruct p; cbn in *; subst|]. split; [by rewrite frame_of_cons, (proj2 (Z.eqb_eq _ _) E)|]. unfold remove_at, retain. cbn [List.filter take drop app]. rewrite (proj2 (Z.eqb_eq _ _) E). cbn [negb].
    symmetry. apply forallb_filter_id, forallb_forall. intros q Hq. rewrite Forall_forall in Hlt. specialize (Hlt q ltac:(by apply list_elem_of_In)). apply negb_true_iff, Z.eqb_neq. lia.
  - destruct (position _ fs) as [i|] eqn:Hp; [|done]. intros [= <-]. destruct (IH i eq_refl) as (f & H1 & H2 & H3). exists f. split; [done|]. split; [by rewrite frame_of_cons, (proj2 (Z.eqb_neq _ _) E)|].
    unfold remove_at, retain in *. cbn [List.filter take drop app]. rewrite (proj2 (Z.eqb_neq _ _) E). cbn [negb]. by rewrite H3.
Qed.

(** ** [detach] *)

Section detach.
Context (geo : Geo) (Hgeo : geo_ok geo).
Let bit := split_bit geo.
Let n := levels geo.

Lemma retired_run gen o : exists x o', retired_of gen o = Some (x, o') /\ table_of o' = table_of o /\
  match x with
  | Ok l => l = (fun sl => (start sl, last sl, ticket sl)) <$> List.filter (fun sl => (id sl =? gen) && negb (ticket sl =? 0)) (slots o)
  | Err _ => True
  end.
Proof using.
  unfold retired_of. destruct (occ_reserve_run o) as (x & o1 & E & Et & _). munfold. rewrite E. cbn. destruct x as [[]|e]; [|by eexists _, _].
  assert (Es : slots o1 = slots o) by (unfold table_of in Et; congruence). eexists _, _. split; [reflexivity|]. split; [done|]. by rewrite Es.
Qed.

(** Slot [sl] is of generation [v] and holds [x]. *)
Definition waits_at (s : Nest) (v x : Z) : Prop := exists sl, sl ∈ slots (occ s) /\ id sl = v /\ ticket sl <> 0 /\ holds_addr x sl.

Lemma window_block w sel : view_ok geo w -> sel_ok w sel -> block w (sel_window w sel).
Proof using.
  intros Kw Hok. rewrite (sel_window_pages geo w sel Kw). unfold sel_ok in Hok. destruct (sel_pages w sel) as [i m]. cbn [fst snd]. by exists i, m.
Qed.

Lemma owed_spans_tend s sel w :
  NInv geo None s -> owns s -> nest_views s !! sel_view sel = Some w -> sel_ok w sel ->
  tend geo (owed_spans geo sel) s (fun r s' => passed geo s s' /\
    match r with
    | Ok l => Forall (span_of_pages w) l /\
        forall x, (sel_window w sel).1 <= x <= (sel_window w sel).2 -> active_in w x \/ waits_at s (sel_view sel) x -> exists y, y ∈ l /\ y.1 <= x < y.1 + y.2
    | Err _ => True
    end).
Proof using Hgeo.
  intros HN HO Hw Hok. destruct (ni_views _ _ _ HN _ w Hw) as [Kw Kid Ks Kb]. assert (P0 : passed geo s s) by by split.
  pose proof (window_block w sel Kw Hok) as Hblk. pose proof (view_block_bounds geo w Kw _ Hblk) as (B1 & B2 & B3 & B4). unfold owed_spans. apply tend_bind. eapply tend_get_view; [exact Hw|].
  destruct (sel_window w sel) as [lo hi] eqn:Esel. cbn [fst snd] in *. apply tend_bind, tend_try; intros g; [|split; [by apply passed_grant|done]]. apply passed_grant with (g := g) in P0 as P1; [|done].
  cbv zeta. destruct (retired_run (res_gen (v_res w)) (occ s)) as (x & o & E & Et & Hx). apply tend_bind. eapply tend_on_occ; [exact E|by apply table_tickets|].
  apply passed_occ with (o := o) in P1 as P2; [|done|done]. destruct x as [ret|e]; [|done]. apply tend_bind, tend_try; intros g2; [|split; [by apply passed_grant|done]].
  apply tend_lift. split; [by apply passed_grant|]. destruct (owed_loop _ _ _ _ _) as [l|e] eqn:El; [|done].
  set (live := omap (fun r => a_intersection r lo hi) (v_active w)) in *. set (gone := omap _ ret) in *.
  assert (Hgone : forall p, p ∈ gone <-> exists sl, sl ∈ slots (occ s) /\ id sl = sel_view sel /\ ticket sl <> 0 /\ Z.max (start sl) lo <= Z.min (last sl) hi /\ p = (Z.max (start sl) lo, Z.min (last sl) hi)).
  { intros p. unfold gone. rewrite list_elem_of_omap. unfold identity in Kid. rewrite Hx. split.
    - intros (y & Hy & Ep). apply list_elem_of_fmap in Hy as (sl & -> & Hs). apply list_elem_of_In, filter_In in Hs as [Hs Hc]. apply list_elem_of_In in Hs. to_prop. cbn [fst snd] in Ep.
      destruct (Z.leb_spec (Z.max (start sl) lo) (Z.min (last sl) hi)); [|done]. injection Ep as <-. exists sl. split_and!; (done || congruence || lia).
    - intros (sl & Hs & Hi & Ht & Hle & ->). exists (start sl, last sl, ticket sl). split; [apply list_elem_of_fmap; exists sl; split; [done|]; apply list_elem_of_In, filter_In; split; [by apply list_elem_of_In|]|].
      + rewrite Kid, Hi, Z.eqb_refl. cbn. by apply negb_true_iff, Z.eqb_neq.
      + cbn [fst snd]. by rewrite (proj2 (Z.leb_le _ _) Hle). }
  assert (Hlive : forall p, p ∈ live <-> exists r, r ∈ v_active w /\ a_intersection r lo hi = Some p) by (intros p; apply list_elem_of_omap).
  assert (Hall : Forall (fun p => block w p /\ p.2 <= hi) (live ++ gone)).
  { apply Forall_app. split; apply Forall_forall; intros p.
    - intros (r & Hr & Ei)%Hlive. unfold sel_ok in Hok. pose proof (sel_window_pages geo w sel Kw) as Esw. rewrite Esel in Esw. destruct (sel_pages w sel) as [i0 m0]. cbn [fst snd] in *. injection Esw as -> ->.
      destruct p as [x y]. destruct (span_pages geo Hgeo w r i0 m0 x y Kw Hr Ei) as (i & m & -> & -> & ? & ? & ? & ? & ? & _). split; [by exists i, m|]. cbn. unfold page_addr. lia.
    - intros (sl & Hs & Hi & Ht & Hle & ->)%Hgone. pose proof (ow_paged _ HO) as Hpg. rewrite Forall_forall in Hpg. destruct (Hpg sl Hs) as [P3 P4].
      destruct (ow_inside _ HO _ w sl Hw Hs Hi) as [I1 I2]. split; [|cbn; lia].
      apply (block_intro geo w Kw); [by destruct (Z.max_spec (start sl) lo) as [[_ ->]|[_ ->]]|by destruct (Z.min_spec (last sl) hi) as [[_ ->]|[_ ->]]|lia..]. }
  apply Forall_and in Hall as [Hblks Hhis]. pose proof (merge_sort_Permutation by_start (live ++ gone)) as Hperm. set (srt := merge_sort by_start (live ++ gone)) in *.
  rewrite <- Hperm in Hblks, Hhis. split; [eapply (owed_loop_in geo Hgeo w Kw); [exact B1|lia|exact Hblks|exact El]|]. intros x Hx2 Hor.
  assert (exists p, p ∈ srt /\ p.1 <= x <= p.2) as (p & Hp & Hin).
  { setoid_rewrite Hperm. setoid_rewrite elem_of_app. destruct Hor as [Ha|(sl & Hs & Hi & Ht & Hh)].
    - unfold active_in in Ha. rewrite current_at_span in Ha. apply fmap_is_Some in Ha as [d Hd]. apply span_at_inv in Hd as (r & Hr & Hon & _). unfold on_span in Hon. cbn in Hon.
      exists (Z.max (a_start r) lo, Z.min (a_end r) hi). split; [left; apply Hlive; exists r; split; [done|]|cbn; lia].
      unfold a_intersection. by rewrite (proj2 (Z.leb_le _ _)) by lia.
    - exists (Z.max (start sl) lo, Z.min (last sl) hi). unfold holds_addr in Hh. split; [right; apply Hgone; exists sl; split_and!; (done || lia)|cbn; lia]. }
  apply (owed_loop_all geo Hgeo w Kw (is_pages sel) hi lo srt l B1 ltac:(lia)) with (p := p); try done; [|lia].
  apply Sorted_StronglySorted; [apply _|]. apply Sorted_merge_sort. apply _.
Qed.

(** Only view [v] has changed, and it is less active than before. *)
Record reduced (s s' : Nest) (v : Z) (w : View) : Prop := {
  re_inv : NInv geo None s';
  re_owns : owns s';
  re_view : exists next pub, nest_views s' = <[v := shrink next pub w]> (nest_views s) /\
    (forall x, span_at next x = span_at (v_active w) x \/ span_at next x = None) /\
    (forall j, frame_of pub j = frame_of (v_published w) j \/ frame_of pub j = None);
  re_indexed : forall u, u <> v -> indexed s' u <-> indexed s u;
  re_moved : moved v (occ s) (occ s');
  re_away : away s' = away s
}.

Lemma reduced_passed s s' v w : owns s -> nest_views s !! v = Some w -> passed geo s s' -> reduced s s' v w.
Proof using.
  intros HO Hw P. pose proof P as [A1 A2 A3 A4 A5]. destruct (near_rest _ _ A2) as (N1 & N2 & N3). split; [done|by eapply owns_passed| | |by apply moved_table|].
  - exists (v_active w), (v_published w). split; [|auto]. rewrite A4. symmetry. apply insert_id. rewrite Hw. by destruct w.
  - intros u _. unfold indexed. by rewrite A5.
  - unfold away, rest in *. congruence.
Qed.

Lemma reduced_trans s s1 s2 v w w1 : reduced s s1 v w -> nest_views s1 !! v = Some w1 -> reduced s1 s2 v w1 -> reduced s s2 v w.
Proof using.
  intros [A1 A2 (n1 & p1 & A3 & A4 & A5) A6 A7 A8] Hw1 [B1 B2 (n2 & p2 & B3 & B4 & B5) B6 B7 B8]. rewrite A3, lookup_insert_eq in Hw1. injection Hw1 as <-. cbn [v_active v_published shrink set_active set_published] in *.
  split; [done|done| |intros u Hu; rewrite B6, A6 by done; done|by etransitivity|congruence]. exists n2, p2. split; [rewrite B3, A3; by rewrite insert_insert_eq|].
  split; [intros x; destruct (B4 x) as [->|?]; auto|intros j; destruct (B5 j) as [->|?]; auto].
Qed.

Lemma reduced_look s s' v w : reduced s s' v w -> exists w', nest_views s' !! v = Some w' /\ v_res w' = v_res w.
Proof using. intros [_ _ (next & pub & E & _) _ _ _]. exists (shrink next pub w). split; [rewrite E; apply lookup_insert_eq|done]. Qed.

Lemma reduced_withdrawn s s' v w i m tks : owns s -> nest_views s !! v = Some w -> withdrawn geo s s' v w i m tks -> reduced s s' v w.
Proof using.
  intros HO Hw W. pose proof (owns_withdrawn geo s s' v w i m tks Hw HO W) as HO'. destruct W as [W1 (next & pub & SK & Ev & Hix) W3 W4 W5 W6 W7 W9 W10].
  split; [done|done| |intros u Hu; rewrite Hix; naive_solver|done|done]. exists next, pub. split; [done|]. split; [intros x; rewrite (sk_spans _ _ _ _ _ _ SK)|intros j; rewrite (sk_frames _ _ _ _ _ _ SK)]; case_decide; auto.
Qed.

(** The address [x] is neither active in [v] nor held by its generation. *)
Definition gone (s : Nest) (v x : Z) : Prop :=
  (forall w, nest_views s !! v = Some w -> ~ active_in w x) /\ forall sl, sl ∈ slots (occ s) -> id sl = v -> ~ holds_addr x sl.

Lemma reduced_released s s' v w i m : owns s -> nest_views s !! v = Some w -> released geo s s' v w i m ->
  reduced s s' v w /\ forall x, page_addr w i <= x < page_addr w (i + m) -> gone s' v x.
Proof using.
  intros HO Hw [R1 (next & pub & SK & Ev & Hix) R3 R4 R5 R6 R7 R8]. split.
  - split; [done| | |intros u Hu; rewrite Hix; naive_solver|done|done].
    + apply (owns_moved v s); [done|apply R1|done|by eapply (shrunk_fewer geo)|intros t Ht; exact (proj1 (Forall_forall _ _) (ow_tickets _ HO) t (R6 t Ht))|].
      intros w' x. rewrite Ev, lookup_insert_eq. intros [= <-] Ha. apply (shrink_active geo w i m next pub x SK) in Ha as [Ha Hout]. destruct (ow_live _ HO v w x Hw Ha) as [r Hr]. exists r. by apply R4.
    + exists next, pub. split; [done|]. split; [intros x; rewrite (sk_spans _ _ _ _ _ _ SK)|intros j; rewrite (sk_frames _ _ _ _ _ _ SK)]; case_decide; auto.
  - intros x Hx. split.
    + intros w'. rewrite Ev, lookup_insert_eq. intros [= <-] Ha. by apply (shrink_active geo w i m next pub x SK) in Ha as [_ ?].
    + intros sl Hs _ Hh. specialize (R3 x Hx). apply owner_None in R3. apply R3. by exists sl.
Qed.

Lemma gone_reduced s s' v w x : nest_views s !! v = Some w -> reduced s s' v w -> gone s v x -> gone s' v x.
Proof using.
  intros Hw [_ _ (next & pub & Ev & Hsp & _) _ Hm _] [G1 G2]. split.
  - intros w'. rewrite Ev, lookup_insert_eq. intros [= <-] Ha. apply (G1 w Hw). unfold active_in in *. cbn [v_active shrink set_active] in Ha. rewrite current_at_span in *.
    destruct (Hsp x) as [E|E]; rewrite E in Ha; [done|by destruct Ha].
  - intros sl Hs Hid Hh. destruct (mv_part _ _ _ Hm sl Hs) as (s0 & H0 & E & L & R & _). apply (G2 s0 H0); [congruence|]. unfold holds_addr in *. lia.
Qed.

(** What [withdraw] does, as [detach] sees it. *)
Lemma withdraw_reduces s v w k q :
  NInv geo None s -> owns s -> nest_views s !! v = Some w -> 0 <= k -> 0 < q -> k + q <= view_pages w ->
  tend geo (withdraw geo v (page_addr w k) (q * 4096)) s (fun r s' => reduced s s' v w /\
    match r with Ok _ => forall x, page_addr w k <= x < page_addr w (k + q) -> gone s' v x | Err _ => True end).
Proof using Hgeo.
  intros HN HO Hw Hk Hq Hle. eapply tend_mono; [by apply (withdraw_tend geo Hgeo s v w k q)|]. intros r s' Hr. destruct r as [[]|e].
  - destruct Hr as [R _]. by apply (reduced_released s s' v w k q).
  - split; [|done]. destruct Hr as [P|(_ & _ & tks & W)]; [by apply reduced_passed|by eapply reduced_withdrawn].
Qed.

Lemma detach_tend s sel w :
  NInv geo None s -> owns s -> nest_views s !! sel_view sel = Some w -> sel_ok w sel ->
  tend geo (detach_view geo sel) s (fun r s' => reduced s s' (sel_view sel) w /\
    match r with
    | Ok _ => forall x, (sel_window w sel).1 <= x <= (sel_window w sel).2 -> active_in w x \/ waits_at s (sel_view sel) x -> gone s' (sel_view sel) x
    | Err _ => True
    end).
Proof using Hgeo.
  intros HN HO Hw Hok. set (v := sel_view sel) in *. assert (P0 : passed geo s s) by by split. pose proof (fun s' => reduced_passed s s' v w HO Hw) as Hred.
  unfold detach_view. apply tend_bind. eapply tend_get_view; [exact Hw|]. unfold check_owner. apply tend_bind, tend_bind, tend_get. destruct (_ =? _); [apply tend_ret|apply tend_fail; by auto].
  apply tend_bind, tend_get. destruct (is_closed s); [apply tend_fail; by auto|]. apply tend_bind.
  apply (tend_mono geo _ _ (fun _ s1 => passed geo s s1)).
  { destruct (is_clean _); [by apply tend_ret|]. eapply (tend_finish geo None); [done|]. intros r s1 HN1 [F _]. by apply passed_fenced. }
  intros r s1 P1. destruct r as [[]|e]; [|by auto]. apply tend_bind. assert (Hw1 : nest_views s1 !! v = Some w) by by rewrite (pa_views _ _ _ P1).
  eapply tend_mono; [apply (owed_spans_tend s1 sel w); [apply P1|by eapply owns_passed|done|done]|]. intros r s2 [P2 Hr]. apply (passed_trans _ _ _ _ P1) in P2. destruct r as [l|e]; [|by auto].
  destruct Hr as [Hl Hcov].
  apply (tend_iter geo _ (fun left s' => exists done_, l = done_ ++ left /\ reduced s s' v w /\ forall y x, y ∈ done_ -> y.1 <= x < y.1 + y.2 -> gone s' v x)).
  - exists []. split; [done|]. split; [by apply Hred|]. intros y x Hy. by apply elem_of_nil in Hy.
  - intros y left s' (done_ & El & R & Hg). destruct (reduced_look _ _ _ _ R) as (w' & Hw' & Eres). rewrite El in Hl. apply Forall_app in Hl as [_ Hl]. apply Forall_cons in Hl as [(k & q & -> & Hk & Hq & Hle) _].
    assert (Epa : forall j, page_addr w j = page_addr w' j) by (intros j; unfold page_addr, initial_start; by rewrite Eres). assert (Evp : view_pages w = view_pages w') by (unfold view_pages, initial_size; by rewrite Eres).
    cbn [fst snd]. rewrite Epa. eapply tend_mono; [apply (withdraw_reduces s' v w' k q); [apply R|apply R|done|done|done|by rewrite <- Evp]|].
    intros r s3 [R3 Hr]. pose proof (reduced_trans _ _ _ _ _ _ R Hw' R3) as R'. destruct r as [[]|e]; [|done]. exists (done_ ++ [(page_addr w k, q * 4096)]). split; [by rewrite El, <- app_assoc|]. split; [done|].
    intros y x Hy Hx. apply elem_of_app in Hy as [Hy|Hy]; [|apply list_elem_of_singleton in Hy as ->]; [eapply gone_reduced; [exact Hw'|exact R3|by apply (Hg y)]|]. apply Hr. cbn [fst snd] in Hx. rewrite <- !Epa. unfold page_addr in *. lia.
  - intros s' (done_ & El & R & Hg). rewrite app_nil_r in El. subst done_. split; [done|]. intros x Hx Hor. destruct (Hcov x Hx) as (y & Hy & Hin); [|by apply (Hg y)].
    destruct Hor as [?|(sl & Hs & H1)]; [by left|right]. exists sl. split; [|done]. destruct (near_rest _ _ (pa_near _ _ _ P1)) as (_ & N2 & _). unfold table_of in N2. by injection N2 as _ -> _ _.
Qed.
(** ** Less than before *)

(** What the operations other than reserving and attaching do. *)
Record lessened (s s' : Nest) : Prop := {
  ls_inv : NInv geo None s';
  ls_owns : owns s';
  ls_views : forall v w, nest_views s !! v = Some w -> exists w', nest_views s' !! v = Some w' /\ v_res w' = v_res w;
  ls_fewer : fewer s s';
  ls_gen : next_gen (occ s') = next_gen (occ s);
  ls_windows : windows (occ s') = windows (occ s);
  ls_part : forall sl, sl ∈ slots (occ s') -> exists sl0, sl0 ∈ slots (occ s) /\ id sl = id sl0 /\ start sl0 <= start sl /\ last sl <= last sl0;
  ls_out : forall sl, sl ∈ slots (occ s) -> ticket sl = 0 -> nest_views s !! id sl = None -> sl ∈ slots (occ s');
  ls_flat : tended (flat s) (flat s');
  ls_self : (self s', asid s', kind s', held s') = (self s, asid s, kind s, held s)
}.

Lemma lessened_refl s : NInv geo None s -> owns s -> lessened s s.
Proof using. intros HN HO. split; try done; [by intros v w Hw; exists w|by apply fewer_same|intros sl Hs; exists sl; split_and!; (done || lia)]. Qed.

Lemma lessened_trans s1 s2 s3 : lessened s1 s2 -> lessened s2 s3 -> lessened s1 s3.
Proof using.
  intros [A1 A2 A3 A4 A5 A6 A7 A8 A9 A10] [B1 B2 B3 B4 B5 B6 B7 B8 B9 B10]. split; [done|done| | |congruence|congruence| | |by etransitivity|congruence].
  - intros v w Hw. destruct (A3 v w Hw) as (w2 & Hw2 & E2). destruct (B3 v w2 Hw2) as (w3 & Hw3 & E3). exists w3. split; [done|congruence].
  - intros v w3 Hw3. destruct (B4 v w3 Hw3) as (w2 & Hw2 & E2 & H2). destruct (A4 v w2 Hw2) as (w & Hw & E1 & H1). exists w. split; [done|]. split; [congruence|auto].
  - intros sl Hs. destruct (B7 sl Hs) as (s0 & H0 & E0 & ? & ?). destruct (A7 s0 H0) as (s9 & H9 & E9 & ? & ?). exists s9. split_and!; [done|congruence|lia|lia].
  - intros sl Hs H0 Hn. apply B8; [by apply A8|done|]. destruct (nest_views s2 !! id sl) as [w2|] eqn:Hw2; [|done]. destruct (A4 _ _ Hw2) as (w & Hw & _). congruence.
Qed.

(** The table is as it was. *)
Lemma lessened_table s s' :
  NInv geo None s' -> owns s -> table_of (occ s') = table_of (occ s) -> fewer s s' -> ns_retirement (ns s') = ns_retirement (ns s) ->
  (forall v w, nest_views s !! v = Some w -> exists w', nest_views s' !! v = Some w' /\ v_res w' = v_res w) -> tended (flat s) (flat s') ->
  (self s', asid s', kind s', held s') = (self s, asid s, kind s, held s) -> lessened s s'.
Proof using.
  intros HN HO Et Hf Er Hv Hfl Hself. pose proof (owns_table s s' HO Et Hf Er) as HO'. unfold table_of in Et. injection Et as E1 E2 E3 E4. split; try done.
  - rewrite E2. intros sl Hs. exists sl. split_and!; (done || lia).
  - by rewrite E2.
Qed.

Lemma lessened_passed s s' : owns s -> passed geo s s' -> lessened s s'.
Proof using.
  intros HO [A1 A2 A3 A4 A5]. destruct (near_rest _ _ A2) as (N1 & N2 & _). unfold rest in N1. apply lessened_table; try done; [by apply fewer_same|congruence| |by rewrite A3|congruence].
  intros v w Hw. exists w. by rewrite A4.
Qed.

Lemma lessened_reduced s s' v w : nest_views s !! v = Some w -> reduced s s' v w -> lessened s s'.
Proof using.
  intros Hw [R1 R2 (next & pub & Ev & Hsp & _) R4 [M1 M2 M3 M4 M5] R6]. unfold away in R6.
  assert (Ef : (self s', asid s', kind s', held s') = (self s, asid s, kind s, held s) /\ flat s' = flat s) by (split; congruence). destruct Ef as [E1 E2]. split; try done.
  - intros u wu Hu. rewrite Ev. destruct (decide (u = v)) as [->|Hne]; [rewrite lookup_insert_eq|rewrite lookup_insert_ne by done; by exists wu]. eexists. split; [done|]. assert (wu = w) by congruence. by subst.
  - intros u wu. rewrite Ev, lookup_insert_Some. intros [[<- <-]|[Hne Hu]]; [|by exists wu]. exists w. split; [done|]. split; [done|]. intros x. unfold active_in. cbn [v_active shrink set_active]. rewrite !current_at_span.
    destruct (Hsp x) as [-> | ->]; [done|]. by intros [? ?].
  - intros sl Hs. destruct (M3 sl Hs) as (s0 & H0 & E & ? & ? & _). by exists s0.
  - intros sl Hs H0 Hn. apply M5; [done|done|]. congruence.
  - by rewrite E2.
Qed.

(** One view has changed, and is no more active than before. *)
Lemma less_view s s' v w w' :
  NInv geo None s' -> owns s -> nest_views s !! v = Some w -> nest_views s' = <[v := w']> (nest_views s) -> v_res w' = v_res w ->
  (forall x, active_in w' x -> active_in w x) -> outer s' = outer s -> tended (flat s) (flat s') -> lessened s s'.
Proof using.
  intros HN HO Hw Ev Eres Hact Eo Ht. assert (Hq : occ s' = occ s /\ ns_retirement (ns s') = ns_retirement (ns s) /\ (self s', asid s', kind s', held s') = (self s, asid s, kind s, held s)).
  { unfold outer in Eo. split_and!; congruence. }
  destruct Hq as (Q1 & Q2 & Q3). apply lessened_table; try done; [by rewrite Q1| |].
  - intros u wu. rewrite Ev, lookup_insert_Some. intros [[<- <-]|[Hne Hu]]; [by exists w|by exists wu].
  - intros u wu Hu. rewrite Ev. destruct (decide (u = v)) as [->|Hne]; [rewrite lookup_insert_eq|rewrite lookup_insert_ne by done; by exists wu]. eexists. split; [done|]. congruence.
Qed.

Lemma less_untouched s s' : owns s -> NInv geo None s' -> untouched s s' -> lessened s s'.
Proof using.
  intros HO HN (U3 & U2 & U1 & U4). assert (Hq : table_of (occ s') = table_of (occ s) /\ ns_retirement (ns s') = ns_retirement (ns s) /\ (self s', asid s', kind s', held s') = (self s, asid s, kind s, held s)).
  { unfold outer in U3. assert (occ s' = occ s) as -> by congruence. split_and!; congruence. }
  destruct Hq as (Q1 & Q2 & Q3). apply lessened_table; try done; [by apply fewer_same|]. intros u wu Hu. exists wu. by rewrite U1.
Qed.

Lemma less_grown s s' v w : owns s -> nest_views s !! v = Some w -> grown geo s s' v w -> lessened s s'.
Proof using. intros HO Hw [G1 (l & G2 & _) G3 G4 G5]. by apply (less_view s s' v w (set_published l w)). Qed.

(** ** The cleanup chain *)

Lemma NInv_cleanup s l : NInv geo None s -> (forall u, u ∈ l -> is_Some (nest_views s !! u)) -> NInv geo None (set_cleanup l s).
Proof using.
  intros HN Hl. destruct HN as [I1 I2 I3 I4 J1 J2 I5 I6 I7 I8 I9]. split; try done; [intros v w Hw; by apply (known_tended geo s); [|apply I2]|].
  intros u Hu. split; [|done]. unfold refs in Hu. cbn in Hu. apply elem_of_app in Hu as [Hu|Hu]; [apply J1, elem_of_app; by left|by apply Hl].
Qed.

Lemma cleanup_views f s u : NInv geo f s -> u ∈ cleanup s -> is_Some (nest_views s !! u).
Proof using. intros HN Hu. apply (ni_refs _ _ _ HN). apply elem_of_app. by right. Qed.

Lemma lessened_cleanup s s' l : lessened s s' -> (forall u, u ∈ l -> is_Some (nest_views s' !! u)) -> lessened s (set_cleanup l s').
Proof using. intros [A1 A2 A3 A4 A5 A6 A7 A8 A9 A10] Hl. split; try done; [by apply NInv_cleanup|]. by apply (owns_table s'); [|reflexivity|apply fewer_same|]. Qed.

Lemma enqueue_run s v : exists s', enqueue_cleanup v s = Some (Ok tt, s') /\ (s' = s \/ s' = set_cleanup (v :: cleanup s) s).
Proof using. unfold enqueue_cleanup, modify. munfold. eexists. split; [reflexivity|]. case_match; auto. Qed.

Lemma lessened_enqueue s s' v s2 : lessened s s' -> is_Some (nest_views s' !! v) -> (s2 = s' \/ s2 = set_cleanup (v :: cleanup s') s') -> lessened s s2.
Proof using.
  intros L Hv [E|E]; subst s2; [done|]. apply lessened_cleanup; [done|]. intros u [->|Hu]%elem_of_cons; [done|]. eapply cleanup_views; [apply L|done].
Qed.

Lemma drain_run s0 s : lessened s0 s -> tend geo drain_closed s (fun r s' => r = Ok tt /\ lessened s0 s' /\ is_closed s' = is_closed s /\ nest_views s' = nest_views s /\ ns s' = ns s).
Proof using.
  intros L. unfold drain_closed. apply tend_set; [by destruct (is_closed s)|]. split; [done|]. destruct (is_closed s) eqn:Hc; [|done]. split; [|done].
  apply lessened_cleanup; [done|]. intros u Hu. by apply elem_of_nil in Hu.
Qed.

Lemma dispose_tend s v w :
  NInv geo None s -> owns s -> nest_views s !! v = Some w -> tend geo (dispose geo v) s (fun r s' => lessened s s').
Proof using Hgeo.
  intros HN HO Hw. destruct (ni_views _ _ _ HN _ w Hw) as [Kw Kid Ks Kb]. pose proof (lessened_refl s HN HO) as L0.
  unfold dispose. apply tend_bind. eapply tend_get_view; [exact Hw|]. unfold check_owner. apply tend_bind, tend_bind, tend_get. destruct (_ =? _); [apply tend_ret|by apply tend_fail].
  destruct (take_cleanup_run (res_gen (v_res w)) (occ s)) as (b & o & E & Et). apply tend_bind. eapply tend_on_occ; [exact E|by apply table_tickets|].
  assert (P1 : passed geo s (set_occ o s)) by (apply passed_occ; [done|by split|done]). set (s1 := set_occ o s) in *. assert (HO1 : owns s1) by by eapply owns_passed.
  pose proof (lessened_passed _ _ HO P1) as L1. assert (Hok : sel_ok w (Whole v)) by (unfold sel_ok; cbn; pose proof (cr_some _ _ _ (vo_space _ _ Kw)); lia).
  assert (Hd : tend geo (detach_view geo (Whole v)) s1 (fun r s' => lessened s s' /\ is_Some (nest_views s' !! v))).
  { eapply tend_mono; [apply (detach_tend s1 (Whole v) w); [apply P1|done|done|done]|]. intros r s2 [R _]. split; [eapply lessened_trans; [exact L1|by eapply lessened_reduced]|].
    destruct (reduced_look _ _ _ _ R) as (w' & Hw' & _). by exists w'. }
  destruct b; [|by eapply tend_mono; [exact Hd|intros r s2 [? _]]]. apply tend_on_err. eapply tend_mono; [exact Hd|]. intros r s2 [L2 Hv2]. destruct r as [[]|e]; [done|].
  destruct (enqueue_run s2 v) as (s3 & E3 & Hs3). exists (Ok tt), s3. split; [done|]. split; [intros Hab; destruct Hs3 as [E'|E']; subst s3; [done|by apply (same_able_stays geo s2)]|]. split; [destruct Hs3 as [E'|E']; by subst s3|]. by eapply lessened_enqueue.
Qed.

(** ** [retry_invalidation] *)

Lemma retry_loop_tend fuel s0 s :
  lessened s0 s -> (length (cleanup s) < fuel)%nat -> tend geo (retry_loop geo fuel) s (fun r s' => lessened s0 s').
Proof using Hgeo.
  revert s. induction fuel as [|fuel IH]; intros s L Hf; [lia|]. cbn [retry_loop]. unfold next_cleanup. apply tend_bind, tend_bind, tend_get. destruct (cleanup s) as [|v rest] eqn:Ec; [by apply tend_ret, tend_ret|].
  assert (Hvs : forall u, u ∈ v :: rest -> is_Some (nest_views s !! u)) by (intros u Hu; eapply cleanup_views; [apply L|by rewrite Ec]).
  apply tend_bind. apply (tend_set geo (fun _ => set_cleanup rest s)); [done|]. apply tend_ret. set (s1 := set_cleanup rest s).
  assert (L1 : lessened s0 s1) by (apply lessened_cleanup; [done|]; intros u Hu; apply Hvs; by right). destruct (Hvs v ltac:(by left)) as [w Hw]. destruct (ni_views _ _ _ (ls_inv _ _ L) _ w Hw) as [Kw Kid Ks Kb].
  assert (Hok : sel_ok w (Whole v)) by (unfold sel_ok; cbn; pose proof (cr_some _ _ _ (vo_space _ _ Kw)); lia).
  apply tend_catch. eapply tend_mono; [apply (detach_tend s1 (Whole v) w (ls_inv _ _ L1) (ls_owns _ _ L1) Hw Hok)|]. intros r s2 [R _]. cbn [sel_view] in R.
  pose proof (lessened_trans _ _ _ L1 (lessened_reduced s1 s2 v w Hw R)) as L2. destruct (reduced_look _ _ _ _ R) as (w' & Hw' & _).
  assert (Ec2 : cleanup s2 = cleanup s1) by (pose proof (re_away _ _ _ _ R) as Ea; unfold away in Ea; congruence). cbn [cleanup s1 set_cleanup] in Ec2. destruct r as [[]|e].
  - apply IH; [done|]. rewrite Ec2. cbn in Hf. lia.
  - destruct (enqueue_run s2 v) as (s3 & E3 & Hs3). assert (L3 : lessened s0 s3) by (eapply lessened_enqueue; [done|by exists w'|done]).
    assert (Hsame : same_able s2 s3 /\ is_closed s3 = is_closed s2) by (destruct Hs3 as [E'|E']; by subst s3). destruct Hsame as [Hsa Hc3].
    unfold mbind, M_bind, get. rewrite E3. destruct (is_closed s3) eqn:Hcl.
    + unfold drain_closed, modify. munfold. rewrite Hcl. eexists _, _. split; [reflexivity|]. split; [by apply (same_able_stays geo s2)|]. split; [change (is_closed (set_cleanup [] s3)) with (is_closed s3); by rewrite Hcl|]. split; [right; left; by rewrite <- Hc3|].
      apply lessened_cleanup; [done|]. intros u Hu. by apply elem_of_nil in Hu.
    + eexists _, _. split; [reflexivity|]. split; [by apply (same_able_stays geo s2)|]. split; [by rewrite Hcl|]. split; [destruct e; auto|done].
Qed.
(** Settling every ticket that waits. *)
Lemma settle_all_tend s0 s :
  lessened s0 s -> tend geo (let tickets := ns_retirement (ns s) in modify_ns (with_retirement []) ;; iter (fun t => on_occ (reclaim t)) tickets) s (fun r s' =>
    r = Ok tt /\ lessened s0 s' /\ ns_retirement (ns s') = [] /\ forall x, owner (slots (occ s')) x = settled (ns_retirement (ns s)) (owner (slots (occ s))) x).
Proof using.
  intros L. cbv zeta. set (tks := ns_retirement (ns s)). unfold modify_ns. apply tend_bind, tend_set; [done|]. set (s1 := set_ns _ s).
  destruct (reclaim_all tks s1 (ni_occ _ _ _ (ls_inv _ _ L)) (ow_tickets _ (ls_owns _ _ L))) as (o & E & K1 & K2 & K3 & K5). unfold tend, gp. rewrite E. split.
  { intros [Hf Ht] _. split; [done|by apply K2]. }
  split; [done|]. split; [|done]. set (s2 := set_occ o s1). eapply lessened_trans; [exact L|]. assert (Hfew : fewer s s2) by by apply fewer_same.
  assert (HN2 : NInv geo None s2) by (apply (NInv_calm geo None s); [apply L|by split|apply L|apply L|done]).
  destruct (K3 (next_gen (occ s))) as [M1 M2 M3 M4 M5]. split; try done.
  - apply (owns_moved (next_gen (occ s)) s); [apply L|done|apply K3|done|by intros t Ht; apply elem_of_nil in Ht|].
    intros w' x Hw'. pose proof (ow_gen _ (ls_owns _ _ L) (next_gen (occ s)) ltac:(by exists w')). lia.
  - intros v w Hw. by exists w.
  - intros sl Hs. destruct (M3 sl Hs) as (s3 & H3 & E3 & ? & ? & _). by exists s3.
  - intros sl Hs H0 Hn. destruct (K3 (id sl - 1)) as [_ _ _ _ M6]. apply M6; [done|done|lia].
Qed.

Lemma retry_tend s : NInv geo None s -> owns s -> tend geo (retry_invalidation geo) s (fun r s' => lessened s s').
Proof using Hgeo.
  intros HN HO. unfold retry_invalidation. apply tend_bind. eapply (tend_finish geo None); [done|]. intros r s1 HN1 [F _].
  assert (L1 : lessened s s1) by (apply lessened_passed; [done|by apply passed_fenced]). destruct r as [[]|e]; [|done].
  apply tend_bind, tend_get. destruct (is_closed s1); [by eapply tend_mono; [by apply drain_run|intros r s2 (_ & ? & _)]|]. cbv zeta.
  eapply tend_eq; [rewrite bind_assoc; reflexivity|]. apply tend_bind. eapply tend_mono; [apply (settle_all_tend s s1 L1)|]. intros r s2 (-> & L2 & _). apply tend_bind, tend_get. apply retry_loop_tend; [done|lia].
Qed.
(** ** [close] *)

(** An active range, as the tables see it. *)
Lemma active_range_ok w r : view_ok geo w -> r ∈ v_active w ->
  range_at_ok geo (a_start r, a_size r) /\
  forall a, canonical bit a -> a mod 4096 = 0 -> r_in geo (a_start r, a_size r) (page_no geo a) = bool_decide (a_start r <= a <= a_end r).
Proof using Hgeo.
  intros Kw Hr. destruct (range_pages geo w Kw r Hr) as (i & m & E1 & E2 & Hi & Hm & Hle & E3). rewrite E1, E2, E3. unfold range_at_ok, r_in. cbn [fst snd]. rewrite Z.div_mul by lia.
  pose proof (canon_part geo _ _ i m (vo_space _ _ Kw) Hi Hm Hle) as Hcr. change (canon_range geo (page_addr w i) m) in Hcr. split; [by apply canon_paging|]. intros a Hc Hal. rewrite (page_no_in geo Hgeo _ m a Hcr Hc Hal).
  apply bool_decide_ext. unfold page_addr. lia.
Qed.

Lemma get_views_run s vs : (forall v, v ∈ vs -> is_Some (nest_views s !! v)) -> exists ws, get_views vs s = Some (Ok ws, s) /\ Forall2 (fun v w => nest_views s !! v = Some w) vs ws.
Proof using.
  induction vs as [|v vs IH]; intros Hv; [by exists []|]. destruct (Hv v ltac:(by left)) as [w Hw]. destruct IH as (ws & E & H); [intros u Hu; apply Hv; by right|].
  exists (w :: ws). split; [|by constructor]. cbn [get_views]. unfold get_view. munfold. by rewrite Hw, E.
Qed.

(** The tables once nothing is mapped. *)
Lemma clear_tables_tend s ws (Q : result NestError unit -> Nest -> Prop) :
  NInv geo None s -> is_closed s = false -> Forall (fun w => view_ok geo w) ws ->
  (forall t tw, wf n t -> supply_ok tw -> (forall x, 0 <= x < pg n -> translate n t x = if none_of geo (ranges_of ws) x then translate n (ns_root (ns s)) x else None) ->
    Q (Ok tt) (set_ns (with_root t tw (ns s)) s)) ->
  (forall t tw, NInv geo None (set_ns (with_root t tw (ns s)) s) -> Q (Err NOutOfMemory) (set_ns (with_root t tw (ns s)) s)) ->
  tend geo (on_tables (
    each (fun r => prepare_geometry geo r.1 r.2) (ranges_of ws) ;;
    reserve_retired_tables ;;
    each (fun r => unmap_keep_tables_geometry geo r.1 r.2) (ranges_of ws) ;;
    reclaim_empty_tables geo)) s Q.
Proof using Hgeo.
  intros HN Hcl Hws HQ HE. set (t0 := ns_root (ns s)). set (w0 := ns_tables (ns s)). pose proof (ni_wf _ _ _ HN) as Hwf. pose proof (ni_supply _ _ _ HN) as Hsup. fold n t0 in Hwf. fold w0 in Hsup.
  assert (Hok : Forall (range_at_ok geo) (ranges_of ws)).
  { apply Forall_forall. intros x Hx. unfold ranges_of in Hx. apply list_elem_of_In, in_flat_map in Hx as (w & Hw & Hx). apply list_elem_of_In in Hw, Hx. apply list_elem_of_fmap in Hx as (r & -> & Hr).
    rewrite Forall_forall in Hws. by apply (active_range_ok w r (Hws w Hw) Hr). }
  apply tend_on_tables. fold n t0 w0. apply wp_gp, wp_bind. eapply wp_mono; [by apply (prepare_ranges_wp geo)|]. intros r [t1 w1] ([_ K2 K3 K4] & _ & Hr). cbn [fst snd] in *.
  assert (Hs1 : supply_ok w1) by apply K4. destruct r as [[]|e].
  2: { subst e. split; [done|]. split; [done|]. by apply HE, NInv_tables. }
  apply wp_bind, reserve_retired_wp; [done| |].
  2: { intros w2 _ _ Hs2. cbn [fst snd]. split; [done|]. split; [done|]. by apply HE, NInv_tables. }
  intros w2 _ _ Hs2 Hroom. apply wp_bind. eapply wp_mono; [by apply (unmap_ranges_wp geo); [apply Hgeo|..]|]. intros r [t3 w3] (-> & E3 & _ & W3 & C3 & M3). cbn [fst snd] in *. subst w3.
  eapply wp_mono; [apply (reclaim_wp geo); [done|by rewrite C3]|]. intros r [t4 w4] (-> & (gone_ & _ & P1 & P2 & E4 & _) & Hf). cbn [fst snd] in *. subst w4.
  split; [done|]. split; [done|]. apply HQ; [done|done|]. intros x Hx. rewrite P2, M3 by done. destruct (none_of _ _ x); [by apply K3|done].
Qed.

(** The views of [vs] lose their ranges and pages. *)
Record cleared (s s' : Nest) (vs : list Z) : Prop := {
  cl_views : forall u, nest_views s' !! u = if bool_decide (u ∈ vs) then shrink [] [] <$> nest_views s !! u else nest_views s !! u;
  cl_pending : ns_pending_views (ns s') = ns_pending_views (ns s) ++ vs;
  cl_frames : exists l, ns_retired_frames (ns s') = ns_retired_frames (ns s) ++ l /\ forall v w p, v ∈ vs -> nest_views s !! v = Some w -> p ∈ v_published w -> p.2 ∈ l;
  cl_ns : with_frames [] (with_pending [] (ns s')) = with_frames [] (with_pending [] (ns s));
  cl_rest : set_ns (ns s) (set_views (nest_views s) s') = s
}.

Lemma clear_views_run vs s : NoDup vs -> (forall v, v ∈ vs -> is_Some (nest_views s !! v)) -> exists s', iter clear_view vs s = Some (Ok tt, s') /\ cleared s s' vs.
Proof using.
  revert s. induction vs as [|v vs IH]; intros s Hnd Hv.
  { exists s. split; [done|]. split; [done|by rewrite app_nil_r| |done|by destruct s]. exists []. split; [by rewrite app_nil_r|]. intros v w p Hp. by apply elem_of_nil in Hp. }
  apply NoDup_cons in Hnd as [Hni Hnd]. destruct (Hv v ltac:(by left)) as [w Hw].
  set (s1 := set_views (<[v := shrink [] [] w]> (nest_views s)) (set_ns (with_frames (ns_retired_frames (ns s) ++ (snd <$> v_published w)) (with_pending (ns_pending_views (ns s) ++ [v]) (ns s))) s)).
  destruct (IH s1 Hnd) as (s' & E & [C1 C2 (l & C3 & C3') C4 C5]).
  { intros u Hu. cbn. destruct (decide (u = v)) as [->|]; [done|]. rewrite lookup_insert_ne by done. apply Hv. by right. }
  exists s'. split.
  - cbn [iter]. unfold clear_view, push_pending, modify_ns, modify, get_view, put_view, modify. munfold. cbn [nest_views set_ns]. rewrite Hw. exact E.
  - split.
    + intros u. rewrite C1. cbn [nest_views s1 set_views]. destruct (decide (u = v)) as [->|Hne].
      * rewrite bool_decide_eq_false_2, bool_decide_eq_true_2 by (done || by left). by rewrite lookup_insert_eq, Hw.
      * rewrite lookup_insert_ne by done. erewrite bool_decide_ext; [reflexivity|]. rewrite elem_of_cons. naive_solver.
    + rewrite C2. cbn. by rewrite <- app_assoc.
    + exists ((snd <$> v_published w) ++ l). split; [rewrite C3; cbn; by rewrite <- app_assoc|]. intros u wu p [->|Hu]%elem_of_cons Hwu Hp.
      * apply elem_of_app. left. assert (wu = w) as -> by congruence. apply list_elem_of_fmap. by exists p.
      * apply elem_of_app. right. apply (C3' u wu p Hu); [|done]. cbn. rewrite lookup_insert_ne; [done|]. by intros <-.
    + exact C4.
    + transitivity (set_ns (ns s) (set_views (nest_views s) (set_ns (ns s1) (set_views (nest_views s1) s')))); [by destruct s'|]. rewrite C5. by destruct s.
Qed.

(** Nothing is active, published or indexed any more. *)
Record shut (s s' : Nest) : Prop := {
  su_less : lessened s s';
  su_empty : forall v w, nest_views s' !! v = Some w -> v_active w = [] /\ v_published w = [];
  su_index : forall v, ~ indexed s' v
}.

(** In a space that is shut no page is mapped. *)
Lemma shut_unmapped s s' a : shut s s' -> canonical bit a -> a mod 4096 = 0 -> translate n (ns_root (ns s')) (page_no geo a) = None.
Proof using.
  intros [L E Hx] Hc Hal. pose proof (ni_maps _ _ _ (ls_inv _ _ L) a Hc Hal) as Hm. fold n in Hm. rewrite Hm.
  destruct (wants_out geo s' a (ni_index _ _ _ (ls_inv _ _ L))) as [_ ?]; [|done]. intros v w Hi. by destruct (Hx v).
Qed.

Lemma view_empty w : view_ok geo w -> view_ok geo (shrink [] [] w).
Proof using.
  intros [V1 V2 V3 V4 V5 V6 V7 V8]. split; try done; [|constructor..]. split; [apply spans_sorted_nil|constructor].
Qed.

(** The end of [close_locked]. *)
Lemma shut_state s s' vs t tw :
  NInv geo None s -> owns s -> vs = views (root (ns_index (ns s))) -> cleared (set_ns (with_root t tw (ns s)) s) s' vs -> wf n t -> supply_ok tw ->
  (forall a, canonical bit a -> a mod 4096 = 0 -> translate n t (page_no geo a) = None) ->
  forall s2, s2 = set_ns (with_phase Closing (with_invalidation Dirty (with_index (Index_clear (ns_index (ns s'))) (ns s')))) s' -> shut s s2.
Proof using.
  intros HN HO Evs [C1 C2 _ C4 C5] Hwf Hsup Hmap s2 E2. cbn [nest_views ns ns_pending_views set_ns with_root] in C1, C2. pose proof HN as [I1 I2 I3 I4 J1 J2 I5 I6 I7 I8 I9].
  assert (Eq : flat s' = flat s /\ occ s' = occ s /\ held s' = held s /\ cleanup s' = cleanup s /\ (self s', asid s', kind s', held s') = (self s, asid s, kind s, held s)) by (set (sx := set_ns _ s) in C5; change (flat s) with (flat sx); change (occ s) with (occ sx); change (held s) with (held sx); change (cleanup s) with (cleanup sx); change (self s) with (self sx); change (asid s) with (asid sx); change (kind s) with (kind sx); by rewrite <- C5).
  destruct Eq as (Q1 & Q2 & Q3 & Q4 & Q5).
  assert (Er : ns_retirement (ns s') = ns_retirement (ns s) /\ ns_root (ns s') = t /\ ns_tables (ns s') = tw).
  { change (let m := with_frames [] (with_pending [] (ns s')) in ns_retirement m = ns_retirement (ns s) /\ ns_root m = t /\ ns_tables m = tw). by rewrite C4. }
  destruct Er as (Er & Et & Etw).
  assert (Hlk : forall u w', nest_views s2 !! u = Some w' -> exists w, nest_views s !! u = Some w /\ w' = shrink [] [] w).
  { intros u w'. rewrite E2. cbn [nest_views set_ns]. rewrite C1. case_bool_decide as Hu; [intros (w & -> & Hw)%fmap_Some; by exists w|].
    intros Hw. exists w'. split; [done|]. destruct (decide (v_active w' = [])) as [Ea|Ha]; [|exfalso; apply Hu; rewrite Evs; by apply (I3 u w')].
    destruct (decide (v_published w' = [])) as [Ep|Hp]; [by destruct w'; cbn in *; subst|exfalso; apply Hu; rewrite Evs; by apply (I4 u w')]. }
  assert (Hrev : forall u w, nest_views s !! u = Some w -> exists w', nest_views s2 !! u = Some w' /\ v_res w' = v_res w).
  { intros u w Hw. rewrite E2. cbn [nest_views set_ns]. rewrite C1, Hw. case_bool_decide; eexists; by split. }
  assert (Hni : forall u, ~ indexed s2 u) by (intros u; rewrite E2; unfold indexed; cbn; apply not_elem_of_nil).
  assert (HI : IInv bit (mkSpace (store s2) (ns_index (ns s2)))).
  { rewrite E2. split; cbn; [done|apply SSorted_nil|done|rewrite usize_MAX_eq; lia| |]; intros v *; [|intros ?]; intros Hv; by apply not_elem_of_nil in Hv. }
  assert (HN2 : NInv geo None s2).
  { split; [done| | | | | |by rewrite E2; cbn; rewrite Et|by rewrite E2; cbn; rewrite Etw| | |].
    - intros u w' (w & Hw & ->)%Hlk. destruct (I2 u w Hw) as [K1 K2 K3 K4]. split; [by apply view_empty|done|by rewrite E2; cbn; rewrite Q1|done].
    - intros u w' (w & Hw & ->)%Hlk. done.
    - intros u w' (w & Hw & ->)%Hlk. done.
    - intros u Hu. split; [|done]. assert (Hor : u ∈ refs s \/ u ∈ vs).
      { rewrite E2 in Hu. unfold refs in *. cbn in Hu. rewrite C2, Q4 in Hu. rewrite !elem_of_app in Hu. rewrite elem_of_app. tauto. }
      assert (is_Some (nest_views s !! u)) as [w Hw].
      { destruct Hor as [Hr|Hr]; [by apply J1|]. rewrite Evs in Hr. destruct (indexed_view geo s u I1 Hr) as (w & ? & _). by exists w. }
      destruct (Hrev u w Hw) as (w' & ? & _). by exists w'.
    - done.
    - intros a Hc Hal. destruct (wants_out geo s2 a HI) as [_ ->]; [by intros v w Hv; destruct (Hni v)|]. rewrite E2. cbn. rewrite Et. by apply Hmap.
    - rewrite E2. cbn. by rewrite Q1, Q3.
    - rewrite E2. cbn. by rewrite Q2. }
  split; [|intros v w' (w & Hw & ->)%Hlk; done|done].
  apply lessened_table; [done|done|by rewrite E2; cbn; rewrite Q2| |by rewrite E2; cbn|done|by rewrite E2; cbn; rewrite Q1|by rewrite E2; cbn].
  intros u w' (w & Hw & ->)%Hlk. exists w. split; [done|]. split; [done|]. intros x. unfold active_in. cbn. by intros [? ?].
Qed.

Lemma close_locked_tend s :
  NInv geo None s -> owns s -> is_closed s = false -> tend geo (close_locked geo) s (fun r s' =>
    match r with Ok _ => shut s s' /\ ns_phase (ns s') = Closing /\ ns_invalidation (ns s') = Dirty | Err _ => passed geo s s' end).
Proof using Hgeo.
  intros HN HO Hcl. assert (P0 : passed geo s s) by by split. unfold close_locked. apply tend_bind, tend_get. apply tend_bind, tend_try; intros g; [|by apply passed_grant].
  apply passed_grant with (g := g) in P0 as P1; [|done]. set (vs := views_of s). assert (Evs : vs = views (root (ns_index (ns s)))) by (unfold vs, views_of, Index_collect; by rewrite collect_views_eq).
  assert (Hvs : forall v, v ∈ vs -> is_Some (nest_views s !! v)) by (intros v Hv; rewrite Evs in Hv; destruct (indexed_view geo s v (ni_index _ _ _ HN) Hv) as (w & ? & _); by exists w).
  cbv zeta. destruct (get_views_run (set_grant g s) vs Hvs) as (ws & Eg & Hws). apply tend_bind. eapply tend_run; [exact Eg|done|].
  apply tend_bind, tend_try; intros g2; [|by repeat apply passed_grant]. apply tend_bind, tend_try; intros g3; [|by repeat apply passed_grant]. set (s1 := set_grant g3 _).
  assert (P2 : passed geo s s1) by by repeat apply passed_grant. apply tend_bind.
  assert (Hvw : Forall (fun w => view_ok geo w) ws) by (apply Forall_forall; intros w Hw; apply list_elem_of_lookup in Hw as [i Hi]; destruct (Forall2_lookup_r _ _ _ _ _ Hws Hi) as (v & _ & Hv); by apply (ni_views _ _ _ HN v w Hv)).
  apply clear_tables_tend; [apply P2|done|done| |].
  2: { intros t tw HNt. eapply passed_trans; [exact P2|]. by split. }
  intros t tw Hwf Hsup Hmap. cbn [ns set_grant s1] in *. set (s2 := set_ns _ s1).
  destruct (clear_views_run vs s2) as (s3 & E3 & C3); [rewrite Evs; eapply by_key_NoDup, HN|exact Hvs|]. apply tend_bind. pose proof C3 as [_ _ _ C4 C5].
  assert (Hsame : same_able s2 s3).
  { split; [change (ns_root (with_frames [] (with_pending [] (ns s3))) = ns_root (ns s2)); by rewrite C4|by rewrite <- C5]. }
  eapply tend_run; [exact E3|exact Hsame|]. unfold modify_ns, mark_dirty. apply tend_bind, tend_set; [done|]. apply tend_bind, tend_set; [done|]. apply tend_set; [done|].
  split; [|done].
  assert (Hsh : shut s1 (set_ns (with_phase Closing (with_invalidation Dirty (with_index (Index_clear (ns_index (ns s3))) (ns s3)))) s3)).
  { eapply (shut_state s1 s3 vs t tw); [apply P2|by eapply owns_passed|done|done|done|done| |done]. intros a Hc Hal. rewrite Hmap by apply page_no_range.
    destruct (none_of geo (ranges_of ws) (page_no geo a)) eqn:Hn; [|done]. pose proof (ni_maps _ _ _ HN a Hc Hal) as Hm. fold n in Hm. rewrite Hm.
    destruct (wants_cases geo s a (ni_index _ _ _ HN)) as [(u & w & U1 & U2 & U3 & _)|(_ & _ & ->)]; [|done]. exfalso. unfold none_of in Hn. apply negb_true_iff in Hn.
    apply not_true_iff_false in Hn. apply Hn, existsb_exists. unfold active_in in U3. rewrite current_at_span in U3. apply fmap_is_Some in U3 as [d Hd]. apply span_at_inv in Hd as (r & Hr & Hon & _).
    destruct (ni_views _ _ _ HN u w U2) as [Kw _ _ _]. destruct (active_range_ok w r Kw Hr) as [_ Hin]. exists (a_start r, a_size r). split; [|rewrite Hin by done; apply bool_decide_eq_true_2; exact Hon].
    apply in_flat_map. assert (Hu : u ∈ vs) by (by rewrite Evs). apply list_elem_of_lookup in Hu as [i Hi]. destruct (Forall2_lookup_l _ _ _ _ _ Hws Hi) as (w' & Hw' & Hv'). cbn in Hv'.
    exists w. split; [apply list_elem_of_In, list_elem_of_lookup; exists i; congruence|]. apply list_elem_of_In, list_elem_of_fmap. by exists r. }
  destruct Hsh as [L S1 S2]. split; [|done|done]. eapply lessened_trans; [by apply lessened_passed|exact L].
Qed.
Lemma fenced_open s s' : fenced s s' -> ns_phase (ns s) = Open -> ns_phase (ns s') = Open.
Proof using. intros F E. destruct (fe_phase _ _ F) as [H|[H _]]; congruence. Qed.

Lemma close_ready_tend s0 s k :
  lessened s0 s -> (is_clean (ns_invalidation (ns s)) = true \/ is_closed s = true \/ (0 < k)%nat) -> tend geo (close_ready (S k)) s (fun r s' =>
    lessened s0 s' /\
    match r with
    | Ok true => is_closed s' = false /\ (ns_phase (ns s) = Open -> fenced s s')
    | Ok false => is_closed s' = true /\ ns_phase (ns s) <> Open
    | Err _ => True
    end).
Proof using.
  revert s. induction k as [|k IH]; intros s L Hk; cbn [close_ready]; apply tend_bind, tend_get; destruct (is_closed s) eqn:Hcl.
  1, 3: apply tend_bind; eapply tend_mono; [by apply drain_run|]; intros r s1 (-> & L1 & Hc & _); apply tend_ret; split; [done|]; split; [congruence|]; intros E; unfold is_closed in Hcl; by rewrite E in Hcl.
  - destruct (is_clean _) eqn:Hc; [|destruct Hk as [?|[?|?]]; [done|done|lia]]. apply tend_ret. by split.
  - destruct (is_clean _) eqn:Hc; [apply tend_ret; by split|]. apply tend_bind. eapply (tend_finish geo None); [apply L|]. intros r s1 HN1 [F Hr].
    assert (L1 : lessened s0 s1) by (eapply lessened_trans; [exact L|]; apply lessened_passed; [apply L|by apply passed_fenced]). destruct r as [[]|e]; [|done].
    eapply tend_mono; [apply (IH s1 L1); left; by destruct Hr as [-> _]|]. intros r s2 [L2 Hr2]. split; [done|]. destruct r as [[]|e]; [|by destruct Hr2 as [? Hop]; split; [|intros E; apply Hop; by eapply fenced_open]|done].
    destruct Hr2 as [H1 H2]. split; [done|]. intros E. etransitivity; [exact F|]. apply H2. by eapply fenced_open.
Qed.

(** [close] takes everything out, and a space that was open is closed. *)
Lemma close_tend s : NInv geo None s -> owns s -> tend geo (close geo) s (fun r s' => lessened s s' /\
  match r with Ok _ => is_closed s' = true /\ (ns_phase (ns s) = Open -> shut s s') | Err _ => True end).
Proof using Hgeo.
  intros HN HO. pose proof (lessened_refl s HN HO) as L0. unfold close. apply tend_bind, tend_get. destruct (is_kernel s); [by apply tend_fail|]. apply tend_bind.
  eapply tend_mono; [apply (close_ready_tend s s 1 L0); auto|]. intros r s1 [L1 Hr]. destruct r as [[]|e]; [|apply tend_ret; split; [done|]; by destruct Hr as [? ?]|done].
  destruct Hr as [Hop Hfe]. apply tend_bind. eapply tend_mono; [apply (close_locked_tend s1); [apply L1|apply L1|done]|]. intros r s2 Hr. destruct r as [[]|e].
  2: { split; [|done]. eapply lessened_trans; [exact L1|]. apply lessened_passed; [apply L1|done]. }
  destruct Hr as ([L2 S1 S2] & Hph & Hdi). apply (lessened_trans _ _ _ L1) in L2. apply tend_bind. eapply (tend_finish geo None); [apply L2|]. intros r s3 HN3 [F Hr].
  assert (Hsh : shut s s3).
  { destruct (fenced_calm _ _ F) as ([_ C2 C3 _ _] & _). split; [|by rewrite C3|intros v; unfold indexed; rewrite C2; apply S2].
    eapply lessened_trans; [exact L2|]. apply lessened_passed; [apply L2|by apply passed_fenced]. }
  destruct r as [[]|e]; [|by split; [apply Hsh|]]. destruct Hr as [_ Hr]. rewrite Hph in Hr. specialize (Hr ltac:(by rewrite Hdi)).
  eapply tend_mono; [apply drain_run, Hsh|]. intros r s4 (-> & L4 & Hc4 & Hv4 & Hn4). split; [done|]. split; [rewrite Hc4; unfold is_closed; by rewrite Hr|]. intros _.
  destruct Hsh as [_ T1 T2]. split; [done|by rewrite Hv4|intros v; unfold indexed; rewrite Hn4; apply T2].
Qed.
Lemma retire_space_tend s : NInv geo None s -> owns s -> tend geo (retire_space geo) s (fun r s' => lessened s s').
Proof using Hgeo.
  intros HN HO. unfold retire_space. apply tend_bind. eapply tend_mono; [by apply close_tend|]. intros r s1 [L1 _]. destruct r as [[]|e]; [|done].
  apply tend_bind, tend_get. destruct (asid_released s1); [by apply tend_ret|]. destruct (shootdown_run s1) as (ok & s2 & E & F & _). apply tend_bind. eapply tend_run; [exact E|by apply fenced_same|].
  assert (L2 : lessened s s2) by (eapply lessened_trans; [exact L1|]; apply lessened_passed; [apply L1|]; apply passed_fenced; [by eapply NInv_fenced; [apply L1|]|done]).
  destruct ok; [|by apply tend_fail]. apply tend_set; [done|]. destruct L2 as [A1 A2 A3 A4 A5 A6 A7 A8 A9 A10]. split; try done; [by apply (NInv_calm geo None s2); [|by split|apply A1..]|].
  by apply (owns_table s2); [|reflexivity|apply fewer_same|].
Qed.

(** ** Taking one page out *)

(** View [v] no longer shows its page [j]; nothing else has changed. *)
Record hidden (s s' : Nest) (v : Z) (w : View) (j : Z) : Prop := {
  hd_inv : NInv geo None s';
  hd_view : exists l, nest_views s' = <[v := set_published l w]> (nest_views s) /\
    forall k, frame_of l k = if decide (k = j) then None else frame_of (v_published w) k;
  hd_indexed : forall u, indexed s' u <-> indexed s u;
  hd_outer : outer s' = outer s;
  hd_flat : flat s' = flat s
}.

Lemma hide_state s s' v w j :
  NInv geo None s -> nest_views s !! v = Some w -> 0 <= j < view_pages w -> let l := retain (fun p => negb (p.1 =? j)) (v_published w) in
  is_Some (frame_of (v_published w) j) -> wf n (ns_root (ns s')) -> supply_ok (ns_tables (ns s')) ->
  (forall x, 0 <= x < pg n -> translate n (ns_root (ns s')) x = if in_range (page_no geo (page_addr w j)) (page_no geo (page_addr w j) + 1) x then None else translate n (ns_root (ns s)) x) ->
  nest_views s' = <[v := set_published l w]> (nest_views s) -> ns_index (ns s') = ns_index (ns s) -> flat s' = flat s -> outer s' = outer s ->
  (forall u, u ∈ refs s' -> u = v \/ u ∈ refs s) -> hidden s s' v w j.
Proof using Hgeo.
  intros HN Hw Hj l [f Hf] Hwf Hsup Hmap Ev Ei Ef Eo Er. destruct (ni_views _ _ _ HN v w Hw) as [Kw Kid Ks Kb]. apply outer_core in Eo as Eo'. destruct Eo' as [Ec Eh].
  assert (Hfr : forall k, frame_of l k = if decide (k = j) then None else frame_of (v_published w) k).
  { intros k. unfold l. rewrite frame_of_retain by (by intros p p' ->). cbn [fst]. destruct (Z.eqb_spec k j); cbn [negb]; by case_decide. }
  assert (Hsub : forall p, p ∈ l -> p ∈ v_published w) by (intros p Hp; by apply elem_of_retain in Hp as [? _]).
  assert (Hne : v_published w <> []) by (intros E; by rewrite E in Hf). assert (Hix : indexed s v) by by apply (ni_idle _ _ _ HN v w).
  assert (Kl : view_ok geo (set_published l w)).
  { apply (reranged_ok geo w (v_active w) l Kw); [apply Kw|apply Kw|by apply by_page_retain, Kw|]. intros p Hp. split; [by apply Hsub|]. by apply (frame_active geo w), Hsub. }
  assert (Hreg : is_Some (region_of s w) -> l = []) by (intros Hr; by rewrite (Kb Hr) in Hne).
  pose proof (canon_part geo _ _ j 1 (vo_space _ _ Kw) ltac:(lia) ltac:(lia) ltac:(lia)) as Hcr. change (canon_range geo (page_addr w j) 1) in Hcr.
  assert (HT : turned geo None s s' v w (set_published l w)).
  { apply turned_published; try done; [by rewrite Ef|]. intros a Hc Hal. rewrite Hmap by apply page_no_range. rewrite (page_no_in geo Hgeo _ 1 a Hcr Hc Hal).
    pose proof (ni_maps _ _ _ HN a Hc Hal) as Hold. fold n in Hold. case_decide as Ha.
    - rewrite Hold. destruct (wants_in geo s a v w (ni_index _ _ _ HN) Hix Hw Ha) as [_ ->]. destruct (window_page geo w Kw a Hal (active_bounds geo w Kw a Ha)) as [Ea Hk]. unfold view_says.
      change (initial_start (set_published l w)) with (initial_start w). set (k := (a - initial_start w) / 4096) in *. unfold frame_at.
      assert (Hno : region_of s' (set_published l w) = None /\ region_of s w = None).
      { assert (region_of s w = None) as Hn by (destruct (region_of s w); [by rewrite (Kb ltac:(by eexists)) in Hne|done]). split; [|done]. unfold region_of in *. by rewrite Ef. }
      destruct Hno as [-> ->]. cbn [v_published set_published]. rewrite Hfr. destruct (decide (k = j)) as [->|Hkj].
      + rewrite bool_decide_eq_true_2; [done|]. rewrite Ea. unfold page_addr. lia.
      + rewrite bool_decide_eq_false_2; [done|]. rewrite Ea. unfold page_addr. lia.
    - case_bool_decide as Hin; [|done]. exfalso. apply Ha. assert (a = page_addr w j) as ->.
      { pose proof (cr_aligned _ _ _ Hcr) as Hc2. pose proof (Z.div_mod a 4096). pose proof (Z.div_mod (page_addr w j) 4096). lia. }
      apply frame_of_elem in Hf. apply (frame_active geo w _ Kw) in Hf. unfold active_in. rewrite current_at_span. destruct Hf as [? E]. cbn [fst] in E. rewrite E. by eexists. }
  split; [|by exists l| |done|done].
  - eapply NInv_turned; [exact HN|exact HT|done|by rewrite Ef, Eh; apply HN|]. assert (Eoc : occ s' = occ s) by (unfold core in Ec; congruence). rewrite Eoc. apply HN.
  - intros u. unfold indexed. by rewrite Ei.
Qed.

Lemma hidden_less s s' v w j : owns s -> nest_views s !! v = Some w -> hidden s s' v w j -> lessened s s'.
Proof using. intros HO Hw [H1 (l & H2 & _) H3 H4 H5]. apply (less_view s s' v w (set_published l w)); try done. by rewrite H5. Qed.

(** The caller names the page with the frame it shows. *)
Lemma unpublish_tend s v w j expected :
  NInv geo None s -> owns s -> nest_views s !! v = Some w -> 0 <= j < view_pages w -> res_nest (v_res w) = self s ->
  (forall f, frame_of (v_published w) j = Some f -> f = expected) ->
  tend geo (unpublish_page geo v (page_addr w j) expected) s (fun r s' =>
    match r with
    | Ok _ => exists s1, passed geo s s1 /\ (frame_of (v_published w) j = None /\ s' = s1 \/ hidden s1 s' v w j /\ ns_invalidation (ns s') = Clean)
    | Err e => passed geo s s' \/ e = Shootdown /\ expected ∈ ns_retired_frames (ns s') /\ exists s1, passed geo s s1 /\ hidden s1 s' v w j
    end).
Proof using Hgeo.
  intros HN HO Hw Hj Hself Hexp. destruct (ni_views _ _ _ HN v w Hw) as [Kw Kid Ks Kb]. assert (P0 : passed geo s s) by by split. destruct (page_addr_ok geo Hgeo w Kw j Hj) as [Hc Hal].
  unfold unpublish_page. apply tend_bind, tend_get. apply tend_bind. eapply tend_get_view; [exact Hw|]. destruct (_ || _); [apply tend_fail; by left|].
  apply tend_bind, tend_assert; [unfold VirtAddr_offset; rewrite land_page; change PAGE_SIZE with 4096; by rewrite Hal|]. apply tend_bind, tend_assert; [by apply Z.eqb_eq|].
  apply tend_bind. eapply (tend_finish geo None); [done|]. intros r s1 HN1 [F _]. pose proof (passed_fenced geo _ _ HN1 F) as P1. destruct r as [[]|e]; [|by left].
  assert (Hw1 : nest_views s1 !! v = Some w) by by rewrite (pa_views _ _ _ P1). apply tend_bind.
  set (Q := fun (r : result NestError bool) (s' : Nest) => match r with
    | Ok true => exists sa, passed geo s sa /\ hidden sa s' v w j /\ expected ∈ ns_retired_frames (ns s')
    | Ok false => passed geo s s' /\ frame_of (v_published w) j = None | Err _ => passed geo s s' end).
  apply (tend_mono geo _ _ Q).
  - unfold unpublish_locked. apply tend_bind, tend_get. destruct (negb _); [by apply tend_fail|]. apply tend_bind. eapply tend_get_view; [exact Hw1|].
    apply tend_bind. eapply tend_expect; [by apply (page_index_of geo)|]. destruct (position _ (v_published w)) as [at_|] eqn:Hp.
    2: { apply tend_ret. split; [done|]. rewrite position_None in Hp. apply frame_of_None. intros (p & -> & Hp2)%list_elem_of_fmap. rewrite Forall_forall in Hp. specialize (Hp p Hp2). cbn in Hp. by rewrite Z.eqb_refl in Hp. }
    destruct (remove_page _ _ _ (vo_published _ _ Kw) Hp) as (f & Hat & Hfr & Erm). destruct (is_closed s1) eqn:Hcl; [by apply tend_fail|]. apply tend_bind. eapply tend_expect; [exact Hat|].
    apply tend_bind, tend_assert; [cbn; apply Z.eqb_eq; by apply Hexp|]. apply tend_bind, tend_assert.
    { apply (covers_one geo w _ Kw). apply frame_of_elem in Hfr. apply (frame_active geo w _ Kw) in Hfr. unfold active_in. rewrite current_at_span. destruct Hfr as [? E]. cbn [fst] in E. rewrite E. by eexists. }
    apply tend_bind, tend_try; intros g; [|by apply passed_grant]. apply tend_bind, tend_try; intros g2; [|by repeat apply passed_grant]. set (s2 := set_grant g2 _). assert (P2 : passed geo s s2) by by repeat apply passed_grant.
    pose proof (canon_part geo _ _ j 1 (vo_space _ _ Kw) ltac:(lia) ltac:(lia) ltac:(lia)) as Hcr. change (canon_range geo (page_addr w j) 1) in Hcr. change PAGE_SIZE with (1 * 4096).
    apply tend_bind. eapply ready_window_tend; [done|apply P2|done|done| |]; intros t1 tw1.
    2: { intros HNt. eapply passed_trans; [exact P2|]. by split. }
    intros Hrd HN3. apply tend_bind. eapply (clear_window_tend geo Hgeo s2 _ _ 1); [done|exact Hrd|]. intros t2 tw2 Hwf2 Hs2 Hf2 Hmap2. cbn [ns ns_root set_ns with_root] in Hmap2.
    unfold push_pending, modify_ns, put_view, mark_dirty. apply tend_bind, tend_set; [done|]. apply tend_bind, tend_set; [done|]. apply tend_bind, tend_set; [done|]. apply tend_bind, tend_set; [done|]. apply tend_ret.
    rewrite Erm. exists s2. split; [done|]. split.
    + eapply hide_state; try done; [apply P2| |]. 
      * intros x Hx. cbn. rewrite Hmap2 by done. destruct (in_range _ _ x); [done|]. by apply (rd_same _ _ _ _ _ _ Hrd).
      * intros u. unfold refs. cbn. rewrite !elem_of_app, list_elem_of_singleton. tauto.
    + cbn. rewrite (Hexp f Hfr). apply elem_of_app. right. by apply list_elem_of_singleton.
  - intros r s3 Hr. destruct r as [[]|e]; cbn in Hr; [|apply tend_ret; exists s3; split; [apply Hr|]; left; by destruct Hr|by left].
    destruct Hr as (sa & Pa & Hh & Hin). eapply (tend_finish geo None); [apply Hh|]. intros r s4 HN4 [F4 Hr4].
    assert (Hh4 : hidden sa s4 v w j).
    { destruct (fenced_calm _ _ F4) as ([_ C2 _ _ _] & _ & _ & E3 & E4). destruct Hh as [A1 (l & A2 & A3) A4 A5 A6]. split; [done|exists l; by rewrite E4|intros u; rewrite <- A4; unfold indexed; by rewrite C2| |by rewrite E3].
      rewrite <- A5. by apply fenced_outer. }
    destruct r as [[]|e]; [exists sa; split; [done|]; right; split; [done|apply Hr4]|]. right. destruct Hr4 as (-> & _ & ->). split; [done|]. split; [done|]. by exists sa.
Qed.
End detach.
