(* ===== verification/NestRead.v ===== *)
(** * Address spaces: reading and writing through them, page faults

    [grant_at] is what a space lets its caller do with the byte at an address: the
    physical byte, if the rights of the view allow it.  [access_range] finds exactly
    these bytes before the first one is touched, so a copy moves all bytes or none,
    and [translate_address] gives what the views say. *)

From stdpp Require Import sorting.
From S2P Require Import Prelude.
From S2P Require Import Table.
From S2P Require Import Flat.
From S2P Require Import FlatInv.
From S2P Require Import Spans.
From S2P Require Import Occupancy.
From S2P Require Import OccupancyInv.
From S2P Require Import OccupancySystem.
From S2P Require Import OccupancyTheorems.
From S2P Require Import Active.
From S2P Require Import ActiveInv.
From S2P Require Import Index.
From S2P Require Import IndexInv.
From S2P Require Import IndexSystem.
From S2P Require Import Paging.
From S2P Require Import PagingInv.
From S2P Require Import PagingStep.
From S2P Require Import PagingUnmap.
From S2P Require Import PagingMap.
From S2P Require Import PagingRuns.
From S2P Require Import View.
From S2P Require Import ViewInv.
From S2P Require Import Nest.
From S2P Require Import NestFlat.
From S2P Require Import NestInv.
From S2P Require Import NestSteps.
From S2P Require Import NestCommit.
From S2P Require Import NestPublish.
From S2P Require Import NestRights.
From S2P Require Import NestWithdraw.
From S2P Require Import NestDetach.

Open Scope Z_scope.

(** The page of an address. *)
Definition page_of (a : Z) : Z := a / 4096 * 4096.

Lemma page_of_bounds a : page_of a <= a < page_of a + 4096 /\ page_of a mod 4096 = 0 /\ page_of a / 4096 = a / 4096 /\ a = page_of a + a mod 4096.
Proof. unfold page_of. rewrite Z.mod_mul, Z.div_mul by done. pose proof (Z.div_mod a 4096). pose proof (Z.mod_pos_bound a 4096). lia. Qed.

Lemma page_align_eq a : 0 <= a < 2 ^ 64 -> VirtAddr_page_align a = page_of a.
Proof.
  intros Ha. unfold VirtAddr_page_align, page_of. change (2 ^ 64 - 1 - (PAGE_SIZE - 1)) with (Z.ldiff (Z.ones 64) (Z.ones 12)).
  rewrite Z.ldiff_land, Z.land_assoc, Z.land_ones, Z.mod_small by lia. rewrite <- Z.ldiff_land, Z.ldiff_ones_r, Z.shiftr_div_pow2, Z.shiftl_mul_pow2 by lia. done.
Qed.

(** The rights in a leaf are those of the range, with the attributes of the view. *)
Lemma leaf_grants w a need : 0 <= v_attrs w < 256 -> attrs_are_architectural (v_attrs w) = true -> 0 <= a < 8 -> 0 <= need < 8 ->
  contains_flags (leaf_flags w a) (Z.lor (Access_to_pte need) PTE_V) = Access_contains a need /\
  contains_flags (leaf_flags w a) PTE_G = is_global w /\ contains_flags (leaf_flags w a) PTE_U = contains_flags (v_attrs w) PTE_U.
Proof.
  intros Hx Hb Ha Hn. unfold leaf_flags, attrs_are_architectural, is_global in *. set (x := v_attrs w) in *. clearbody x.
  assert (Hall : forallb (fun a => forallb (fun b => forallb (fun x => negb (Z.land x (Z.lor PTE_V PTE_RWX) =? 0) ||
    (eqb (contains_flags (Z.lor PTE_V (Z.lor (Access_to_pte a) x)) (Z.lor (Access_to_pte b) PTE_V)) (Access_contains a b) &&
     eqb (contains_flags (Z.lor PTE_V (Z.lor (Access_to_pte a) x)) PTE_G) (contains_flags x PTE_G) &&
     eqb (contains_flags (Z.lor PTE_V (Z.lor (Access_to_pte a) x)) PTE_U) (contains_flags x PTE_U)))
    (seqZ 0 256)) (seqZ 0 8)) (seqZ 0 8) = true) by by vm_compute.
  assert (Hin : forall y k, 0 <= y < k -> In y (seqZ 0 k)) by (intros y k Hy; apply list_elem_of_In, elem_of_seqZ; lia).
  rewrite forallb_forall in Hall. specialize (Hall a (Hin a 8 Ha)). rewrite forallb_forall in Hall. specialize (Hall need (Hin need 8 Hn)).
  rewrite forallb_forall in Hall. specialize (Hall x (Hin x 256 Hx)). rewrite Hb in Hall. cbn [negb orb] in Hall.
  apply andb_true_iff in Hall as [[H1 H2]%andb_true_iff H3]. by rewrite (eqb_prop _ _ H1), (eqb_prop _ _ H2), (eqb_prop _ _ H3).
Qed.

Section read.
Context (geo : Geo) (Hgeo : geo_ok geo).
Let bit := split_bit geo.
Let n := levels geo.

(** Ranges are made of whole pages. *)
Lemma range_at_page w a : view_ok geo w -> range_at (v_active w) (page_of a) = range_at (v_active w) a.
Proof using.
  intros Hw. unfold range_at. assert (Hall : Forall (fun r => a_contains r (page_of a) = a_contains r a) (v_active w)).
  { apply Forall_forall. intros r Hr. destruct (range_pages geo w Hw r Hr) as (i & m & E1 & _ & _ & _ & _ & E2). pose proof (cr_aligned _ _ _ (vo_space _ _ Hw)) as Hs.
    pose proof (page_of_bounds a) as (B1 & _ & B3 & _). unfold a_contains. rewrite E1, E2. unfold page_addr in *. pose proof (Z.div_mod (initial_start w) 4096 ltac:(lia)) as Hd. rewrite Hs in Hd.
    unfold page_of. pose proof (Z.div_mod a 4096 ltac:(lia)). pose proof (Z.mod_pos_bound a 4096 ltac:(lia)). f_equal; apply eq_bool_prop_intro; rewrite !Is_true_true, !Z.leb_le; lia. }
  induction Hall as [|r l Hr _ IH]; [done|]. cbn. by rewrite Hr, IH.
Qed.

Lemma active_page w a : view_ok geo w -> active_in w (page_of a) <-> active_in w a.
Proof using. intros Hw. unfold active_in, current_at. by rewrite range_at_page. Qed.

(** What is found at an address: its view and range, and what the tables say of its
    page; or nothing. *)
Lemma find_cases s a : NInv geo None s ->
  (exists v w r, nest_views s !! v = Some w /\ range_at (v_active w) a = Some r /\ Index_find (store s) a (ns_index (ns s)) = Some v /\ known geo s v w /\
     0 <= page_of a < 2 ^ 64 - 4095 /\ wants s (page_of a) = view_says s w (page_of a) /\
     forall x, x / 4096 = a / 4096 -> 0 <= x -> walk_ref_geometry geo x (ns_root (ns s)) = Some (answer (view_says s w (page_of a)))) \/
  (Index_find (store s) a (ns_index (ns s)) = None /\ wants s (page_of a) = None).
Proof using Hgeo.
  intros HN. pose proof (ni_index _ _ _ HN) as HI. destruct (wants_cases geo s a HI) as [(v & w & Hi & Hw & Ha & Hf & _)|(Hno & Hf & _)].
  - left. pose proof (ni_views _ _ _ HN v w Hw) as Kn. pose proof (kn_ok _ _ _ _ Kn) as Kw. destruct (range_at (v_active w) a) as [r|] eqn:Er; [|by destruct Ha as [? Ha]; unfold current_at in Ha; rewrite Er in Ha].
    assert (Hp : active_in w (page_of a)) by by apply active_page. destruct (wants_in geo s (page_of a) v w HI Hi Hw Hp) as [_ Ew].
    pose proof (active_bounds geo w Kw _ Hp) as Hb. destruct (window_page geo w Kw (page_of a) (proj1 (proj2 (page_of_bounds a))) Hb) as [Ep Hj]. destruct (page_addr_ok geo Hgeo w Kw _ Hj) as [Hc Hal].
    rewrite <- Ep in Hc, Hal. exists v, w, r. split; [done|]. split; [done|]. split; [done|]. split; [done|]. destruct (vo_space _ _ Kw) as [C1 C2 C3 C4 C5].
    split; [pose proof (Z.div_mod (initial_start w) 4096 ltac:(lia)); unfold page_of in *; lia|]. split; [done|]. intros x Hx Hx0. rewrite <- Ew, <- (ni_maps _ _ _ HN) by done. apply walk_ref_run; [apply HN|]. split; [done|].
    unfold page_no. f_equal. rewrite Hx. apply (page_of_bounds a).
  - right. split; [done|]. apply (wants_out geo); [done|]. intros v w Hi Hw Hp. apply (Hno v w Hi Hw). apply active_page; [|done]. by apply (ni_views _ _ _ HN v w).
Qed.

(** ** What the caller may touch *)

(** The physical byte behind address [a], where the rights allow [need]. *)
Definition grant_at (s : Nest) (need a : Z) : option Z :=
  v ← Index_find (store s) a (ns_index (ns s));
  w ← nest_views s !! v;
  c ← current_at (v_active w) a;
  f ← frame_at s w ((page_of a - initial_start w) / 4096);
  if Access_contains c need && negb (is_global w) && (is_supervisor (kind s) || contains_flags (v_attrs w) PTE_U) then Some (f + a mod 4096) else None.

(** Frames are pages. *)
Lemma frame_at_page s v w j f : NInv geo None s -> known geo s v w -> frame_at s w j = Some f -> f mod 4096 = 0.
Proof using.
  intros HN [K1 K2 K3 K4] Hf. unfold frame_at in Hf. destruct (region_of s w) as [r|] eqn:Er.
  - injection Hf as <-. unfold region_of in Er. destruct (geom (flat s) (range_flat (v_source w))) as [[c o]|] eqn:Eg; [|done]. cbn in Er. subst o.
    destruct (ft_region _ (proj2 (ni_flat _ _ _ HN)) _ _ _ Eg) as (_ & H1 & _). by rewrite Z.add_mod, Z.mod_mul, H1.
  - apply frame_of_elem in Hf. pose proof (vo_frames _ _ K1) as Hall. rewrite Forall_forall in Hall. destruct (Hall _ Hf) as (_ & Hp & _). apply Hp.
Qed.

Lemma check_page_run s need a : NInv geo None s -> 0 <= need < 8 -> 
  check_page geo need s a = Some ((fun p => p - a mod 4096) <$> grant_at s need a).
Proof using Hgeo.
  intros HN Hneed. unfold check_page, grant_at. destruct (find_cases s a HN) as [(v & w & r & Hw & Er & Hf & Kn & Hp & _ & Hwalk)|[Hf _]]; rewrite Hf; [|done].
  cbn. rewrite Hw. cbn. unfold current_at at 1. rewrite Er. cbn. pose proof (page_of_bounds a) as (B1 & B2 & B3 & B4). pose proof (kn_ok _ _ _ _ Kn) as Kw.
  rewrite page_align_eq by lia. rewrite (Hwalk (page_of a) B3) by lia. cbn. f_equal. unfold view_says, current_at. rewrite (range_at_page w a Kw), Er. cbn.
  destruct (frame_at s w _) as [f|] eqn:Hfr; [|done]. cbn. pose proof (frame_at_page s v w _ f HN Kn Hfr) as Hfm. pose proof (Z.div_mod f 4096 ltac:(lia)).
  destruct (current_rights geo w a (a_current r) Kw) as [Hr8 _]; [by unfold current_at; rewrite Er|]. destruct (vo_attrs _ _ Kw) as [Hat Harch].
  destruct (leaf_grants w (a_current r) need Hat Harch Hr8 Hneed) as (-> & -> & ->). destruct (Access_contains _ _), (is_global w), (is_supervisor _), (contains_flags _ _); cbn; try done; f_equal; lia.
Qed.

(** All addresses of a page have the same rights. *)
Lemma grant_page s need a x : NInv geo None s -> x / 4096 = a / 4096 -> grant_at s need x = (fun p => p - a mod 4096 + x mod 4096) <$> grant_at s need a.
Proof using Hgeo.
  intros HN Hx. assert (Ep : page_of x = page_of a) by (unfold page_of; by rewrite Hx). unfold grant_at.
  destruct (find_cases s a HN) as [(v & w & r & Hw & Er & Hf & Kn & _)|[Hf Hno]], (find_cases s x HN) as [(v' & w' & r' & Hw' & Er' & Hf' & Kn' & _)|[Hf' Hno']]; rewrite Hf, Hf'; cbn; [| | |done].
  - pose proof (kn_ok _ _ _ _ Kn) as Kw. rewrite <- (range_at_page w a Kw) in Er. rewrite <- (range_at_page w' x (kn_ok _ _ _ _ Kn')) in Er'. rewrite Ep in Er'.
    assert (v' = v) as ->. { pose proof (find_iff geo _ _ (page_of a) v (ni_index _ _ _ HN)) as F1. pose proof (find_iff geo _ _ (page_of a) v' (ni_index _ _ _ HN)) as F2.
      assert (A1 : active_in w (page_of a)) by (unfold active_in, current_at; by rewrite Er). assert (A2 : active_in w' (page_of a)) by (unfold active_in, current_at; by rewrite Er').
      apply (find_iff geo _ _ a v (ni_index _ _ _ HN)) in Hf as [Hv _]. apply (find_iff geo _ _ x v' (ni_index _ _ _ HN)) in Hf' as [Hv' _].
      pose proof (proj2 F1 (conj Hv (proj2 (active_covered s v w _ Hw) A1))). pose proof (proj2 F2 (conj Hv' (proj2 (active_covered s v' w' _ Hw') A2))). congruence. }
    rewrite Hw. cbn. unfold current_at. rewrite <- (range_at_page w a Kw), <- (range_at_page w x Kw), Ep, Er. cbn. destruct (frame_at s w _); [|done]. cbn. destruct (_ && _); [|done]. cbn. f_equal. lia.
  - exfalso. apply (find_iff geo _ _ a v (ni_index _ _ _ HN)) in Hf as [Hv Hc]. apply (active_covered s v w _ Hw) in Hc. assert (Hx' : active_in w x).
    { apply active_page; [apply Kn|]. rewrite Ep. by apply active_page; [apply Kn|]. }
    pose proof (proj2 (find_iff geo _ _ x v (ni_index _ _ _ HN)) (conj Hv (proj2 (active_covered s v w x Hw) Hx'))). congruence.
  - exfalso. apply (find_iff geo _ _ x v' (ni_index _ _ _ HN)) in Hf' as [Hv Hc]. apply (active_covered s v' w' _ Hw') in Hc. assert (Hx' : active_in w' a).
    { apply active_page; [apply Kn'|]. rewrite <- Ep. by apply active_page; [apply Kn'|]. }
    pose proof (proj2 (find_iff geo _ _ a v' (ni_index _ _ _ HN)) (conj Hv (proj2 (active_covered s v' w' a Hw') Hx'))). congruence.
Qed.

(** ** [access_range] *)

Lemma mapM_app_opt {A B} (f : A -> option B) l1 l2 : mapM f (l1 ++ l2) = (x ← mapM f l1; y ← mapM f l2; Some (x ++ y)).
Proof using. induction l1 as [|a l1 IH]; cbn; [by destruct (mapM f l2)|]. destruct (f a); [|done]. cbn. rewrite IH. destruct (mapM f l1); [|done]. cbn. by destruct (mapM f l2). Qed.

(** The bytes of one page. *)
Lemma grant_chunk s need a count : NInv geo None s -> 0 < count -> a mod 4096 + count <= 4096 ->
  mapM (grant_at s need) (seqZ a count) = (fun p => seqZ p count) <$> grant_at s need a.
Proof using Hgeo.
  intros HN Hc Hle. pose proof (Z.mod_pos_bound a 4096 ltac:(lia)) as Hb. pose proof (Z.div_mod a 4096 ltac:(lia)) as Hd.
  assert (Hk : forall k, 0 <= k < count -> grant_at s need (a + k) = (fun p => p + k) <$> grant_at s need a).
  { intros k Hk. assert (Hm : (a + k) mod 4096 = a mod 4096 + k) by (symmetry; apply (Z.mod_unique _ _ (a / 4096)); lia).
    rewrite (grant_page s need a (a + k) HN) by (symmetry; apply (Z.div_unique _ _ _ (a mod 4096 + k)); lia). rewrite Hm. destruct (grant_at s need a); [|done]. cbn. f_equal. lia. }
  destruct (grant_at s need a) as [p|] eqn:Hp; cbn.
  - apply mapM_Some. clear Hle. unfold seqZ. apply Forall2_fmap, Forall_Forall2_diag, Forall_forall. intros k Hin. apply elem_of_seq in Hin. rewrite !(Z.add_comm (Z.of_nat k)). rewrite Hk by lia. cbn. f_equal.
  - unfold seqZ. destruct (Z.to_nat count) as [|m] eqn:Em; [lia|]. cbn [seq fmap list_fmap mapM]. change (Z.of_nat 0 + a) with a. by rewrite Hp.
Qed.

Lemma access_pages_run s need fuel : NInv geo None s -> 0 <= need < 8 -> forall a left_, 0 <= left_ -> (0 < fuel)%nat -> left_ = 0 \/ a + left_ <= (a / 4096 + (Z.of_nat fuel - 1)) * 4096 ->
  exists x, access_pages geo need s fuel a left_ = Some x /\ byte_addresses <$> x = mapM (grant_at s need) (seqZ a left_).
Proof using Hgeo.
  intros HN Hneed. induction fuel as [|fuel IH]; [lia|]. intros a left_ Hl _ Hle. cbn [access_pages]. destruct (Z.leb_spec left_ 0) as [H0|H0].
  - assert (left_ = 0) as -> by lia. by exists (Some []).
  - rewrite check_page_run by done. cbn. rewrite land_page. change PAGE_SIZE with 4096. set (count := Z.min (4096 - a mod 4096) left_). pose proof (Z.mod_pos_bound a 4096 ltac:(lia)) as Hb. pose proof (Z.div_mod a 4096 ltac:(lia)) as Hd.
    assert (Hsplit : seqZ a left_ = seqZ a count ++ seqZ (a + count) (left_ - count)) by (rewrite <- seqZ_app by (unfold count; lia); f_equal; lia).
    rewrite Hsplit, mapM_app_opt, (grant_chunk s need a count) by (done || unfold count; lia). destruct (grant_at s need a) as [p|]; cbn; [|by exists None].
    assert (Hdiv : left_ - count = 0 \/ (a + count) / 4096 = a / 4096 + 1).
    { unfold count. destruct (Z.min_spec (4096 - a mod 4096) left_) as [[? ->]|[? ->]]; [right|left; lia]. symmetry. apply (Z.div_unique _ _ _ 0); lia. }
    destruct (IH (a + count) (left_ - count)) as (x & Ex & Hx); [unfold count; lia|destruct fuel; [lia|lia]| |].
    { destruct Hdiv as [Hz|Hdv]; [by left|right; rewrite Hdv; lia]. }
    rewrite Ex. cbn. rewrite <- Hx. destruct x as [l|]; cbn; [|by exists None]. eexists. split; [done|]. cbn. f_equal. f_equal. f_equal. lia.
Qed.

(** The space was ready when the check was made. *)
Definition ready (s : Nest) : Prop := ns_invalidation (ns s) = Clean /\ is_closed s = false.

Lemma find_fenced s s' a : fenced s s' -> wants s' a = wants s a /\ forall need, grant_at s' need a = grant_at s need a.
Proof using.
  intros F. destruct (fenced_calm s s' F) as ([_ C2 C3 _ _] & _ & _ & F4 & _). pose proof (fenced_outer s s' F) as Eo. assert (H : kind s' = kind s) by (unfold outer in Eo; congruence).
  assert (Est : store s' = store s) by (unfold store; by rewrite C3). split.
  - unfold wants, view_says, frame_at, region_of. by rewrite Est, C2, C3, F4.
  - intros need. unfold grant_at, frame_at, region_of. by rewrite Est, C2, C3, F4, H.
Qed.

Lemma access_range_tend s start size need :
  NInv geo None s -> 0 <= start -> 0 <= size -> 0 <= need < 8 ->
  tend geo (access_range geo start size need) s (fun r s' => passed geo s s' /\
    exists x, r = Ok x /\ (x = None /\ (usize_MAX < start + size \/ ~ ready s') \/ ready s' /\ byte_addresses <$> x = mapM (grant_at s need) (seqZ start size))).
Proof using Hgeo.
  intros HN Hs Hz Hneed. unfold access_range. assert (Hp0 : passed geo s s) by by split.
  destruct (checked_add start size) as [e|] eqn:Ec.
  2: { apply tend_ret. split; [done|]. exists None. split; [done|]. left. split; [done|]. left. unfold checked_add, checked in Ec. destruct (fitsb _ _) eqn:Hb; [done|]. unfold fitsb in Hb. unfold usize_MAX. apply andb_false_iff in Hb as [Hb%Z.leb_gt|Hb%Z.ltb_ge]; lia. }
  apply tend_catch. apply (tend_ready geo None); [done| |].
  - intros s1 HN1 F Hcl Hop. apply tend_bind, tend_get. destruct (access_pages_run s1 need (access_rounds size) HN1 Hneed start size) as (x & Ex & Hx); [done|unfold access_rounds; lia|right|].
    { unfold access_rounds. change PAGE_SIZE with 4096. pose proof (Z.div_mod size 4096 ltac:(lia)). pose proof (Z.mod_pos_bound size 4096 ltac:(lia)). pose proof (Z.div_mod start 4096 ltac:(lia)). pose proof (Z.mod_pos_bound start 4096 ltac:(lia)).
      assert (0 <= size / 4096) by (apply Z.div_pos; lia). lia. }
    eapply tend_expect; [exact Ex|]. split; [by apply passed_fenced|]. exists x. split; [done|]. right. split; [done|]. rewrite Hx. clear - F. induction (seqZ start size) as [|a l IH]; [done|]. cbn. by rewrite (proj2 (find_fenced s s1 a F)), IH.
  - intros e1 s1 HN1 F He. exists (Ok None), s1. split; [done|]. split; [done|]. split; [done|]. split; [right; destruct He as [[-> ?]|[-> ?]]; [by left|by right]|].
    split; [by apply passed_fenced|]. exists None. split; [done|]. left. split; [done|]. right. unfold ready. destruct He as [[_ ->]|[_ ->]]; intros []; done.
Qed.

Lemma translate_tend s a :
  NInv geo None s -> 0 <= a -> tend geo (translate_address geo a) s (fun r s' => passed geo s s' /\
    exists x, r = Ok x /\ (x = None /\ ~ ready s' \/ ready s' /\ x = (fun y => (y.1 * 4096 + a mod 4096, y.2)) <$> wants s (page_of a))).
Proof using Hgeo.
  intros HN Ha. unfold translate_address. apply tend_catch. apply (tend_ready geo None); [done| |].
  - intros s1 HN1 F Hcl Hop. apply tend_bind, tend_get. rewrite <- (proj1 (find_fenced s s1 (page_of a) F)). assert (Hp : passed geo s s1) by by apply passed_fenced.
    destruct (find_cases s1 a HN1) as [(v & w & r & Hw & Er & Hf & Kn & _ & Ew & Hwalk)|[Hf ->]]; rewrite Hf; [|apply tend_ret; split; [done|]; exists None; split; [done|]; by right].
    eapply tend_bind, tend_expect; [apply (Hwalk a); [done|lia]|]. apply tend_ret. split; [done|]. eexists. split; [done|]. right. split; [done|]. rewrite Ew. destruct (view_says s1 w (page_of a)) as [[f fl]|]; cbn; [|done].
    unfold VirtAddr_offset. by rewrite land_page.
  - intros e1 s1 HN1 F He. exists (Ok None), s1. split; [done|]. split; [done|]. split; [done|]. split; [right; destruct He as [[-> ?]|[-> ?]]; [by left|by right]|].
    split; [by apply passed_fenced|]. exists None. split; [done|]. left. split; [done|]. unfold ready. destruct He as [[_ ->]|[_ ->]]; intros []; done.
Qed.

(** ** Copies *)

Definition stored (m : gmap Z Z) (at_ src : list Z) : gmap Z Z := fold_left (fun m p => <[p.1 := p.2]> m) (zip at_ src) m.

Lemma copy_from_tend s start size need :
  NInv geo None s -> 0 <= start -> 0 <= size -> 0 <= need < 8 ->
  tend geo (copy_from geo start size need) s (fun r s' => passed geo s s' /\
    exists x, r = Ok x /\ (x = None /\ (usize_MAX < start + size \/ ~ ready s') \/
      ready s' /\ x = (fun l => (fun p => default 0 (mem s !! p)) <$> l) <$> mapM (grant_at s need) (seqZ start size))).
Proof using Hgeo.
  intros HN H1 H2 H3. unfold copy_from. eapply tend_bind, tend_mono; [by apply access_range_tend|]. intros r s' (P & x & -> & Hx). apply tend_bind, tend_get, tend_ret. split; [done|].
  assert (Em : mem s' = mem s) by (pose proof (pa_near _ _ _ P) as En; unfold near in En; congruence). eexists. split; [done|]. destruct Hx as [[-> Hx]|[Hr Hx]]; [by left|]. right. split; [done|]. rewrite <- Hx, Em. by destruct x.
Qed.

(** All bytes are stored, or none. *)
Lemma copy_to_tend s start src need :
  NInv geo None s -> 0 <= start -> 0 <= need < 8 ->
  tend geo (copy_to geo start src need) s (fun r s' =>
    exists b s1, r = Ok b /\ passed geo s s1 /\
      match b with
      | true => exists l, ready s' /\ mapM (grant_at s need) (seqZ start (len src)) = Some l /\ s' = set_mem (stored (mem s) l src) s1
      | false => s' = s1 /\ (usize_MAX < start + len src \/ ~ ready s' \/ mapM (grant_at s need) (seqZ start (len src)) = None)
      end).
Proof using Hgeo.
  intros HN H1 H3. unfold copy_to. eapply tend_bind, tend_mono; [apply access_range_tend; [done|done|unfold len; lia|done]|]. intros r s' (P & x & -> & Hx).
  assert (Em : mem s' = mem s) by (pose proof (pa_near _ _ _ P) as En; unfold near in En; congruence). destruct x as [l|].
  - destruct Hx as [[? _]|[Hr Hx]]; [done|]. apply tend_bind, tend_set; [done|]. apply tend_ret. exists true, s'. split; [done|]. split; [done|]. exists (byte_addresses l). split; [done|]. split; [done|]. unfold stored. by rewrite Em.
  - apply tend_ret. exists false, s'. split; [done|]. split; [done|]. split; [done|]. destruct Hx as [[_ [?|?]]|[Hr Hx]]; auto.
Qed.

(** ** Page faults *)

Lemma set_flat_same s : set_flat (flat s) (held s) s = s.
Proof using. by destruct s. Qed.

(** The probe changes nothing.  It answers [Resolved] only for a page that the space
    translates with the right the fault asks for, and [Materialize] or [Wait] only
    where a view grants that right. *)
Definition probed (s : Nest) (a : Z) (k : FaultKind) (o : FaultOutcome) : Prop :=
  match o with
  | Resolved => ns_invalidation (ns s) = Clean /\ exists y, wants s (page_of a) = Some y /\ satisfies y.2 k = true
  | Invalid => True
  | Materialize | Wait _ => ns_invalidation (ns s) <> Clean \/
      exists v w c, Index_find (store s) a (ns_index (ns s)) = Some v /\ nest_views s !! v = Some w /\ current_at (v_active w) a = Some c /\ satisfies_access c k = true
  end.

Lemma page_index_active s v w a : known geo s v w -> active_in w a -> 0 <= page_of a < 2 ^ 64 - 4095 ->
  exists j, page_index w (page_of a) = Some j /\ 0 <= j < view_pages w /\ page_of a = page_addr w j.
Proof using.
  intros Kn Ha Hp. pose proof (kn_ok _ _ _ _ Kn) as Kw. apply active_page in Ha; [|done]. pose proof (active_bounds geo w Kw _ Ha) as Hb.
  destruct (window_page geo w Kw (page_of a) (proj1 (proj2 (page_of_bounds a))) Hb) as [Ep Hj]. eexists. split; [|split; [exact Hj|exact Ep]]. rewrite Ep at 1. by apply (page_index_of geo).
Qed.

Lemma probe_run s a k : NInv geo None s -> 0 <= a < 2 ^ 64 -> exists o, probe_fault geo a k s = Some (Ok o, s) /\ probed s a k o.
Proof using Hgeo.
  intros HN Ha. unfold probe_fault. munfold. unfold get. destruct (is_clean (ns_invalidation (ns s))) eqn:Hcl; cbn [negb].
  2: { exists Materialize. split; [done|]. left. by destruct (ns_invalidation (ns s)). }
  assert (Hc : ns_invalidation (ns s) = Clean) by by destruct (ns_invalidation (ns s)).
  destruct (find_cases s a HN) as [(v & w & r & Hw & Er & Hf & Kn & Hp & Ew & Hwalk)|[Hf _]]; rewrite Hf; [|by exists Invalid].
  unfold get_view. munfold. unfold get, expect. rewrite Hw, Er. destruct (satisfies_access (a_current r) k) eqn:Hsat; cbn [negb]; [|by exists Invalid].
  assert (Hcur : current_at (v_active w) a = Some (a_current r)) by (unfold current_at; by rewrite Er).
  rewrite (page_align_eq a Ha). destruct (page_index_active s v w a Kn) as (j & -> & Hj & _); [by eexists|done|]. unfold catch, on_flat.
  destruct (can_materialize_run (held s) (flat s) (v_source w) j (ni_flat _ _ _ HN) (kn_source _ _ _ _ Kn)) as (x & ->); [lia|].
  assert (Hgr : exists v w c, Index_find (store s) a (ns_index (ns s)) = Some v /\ nest_views s !! v = Some w /\ current_at (v_active w) a = Some c /\ satisfies_access c k = true) by by exists v, w, (a_current r).
  destruct x as [[]|e]; cbn [map_err]; rewrite set_flat_same; [|exists (Wait (identity w)); split; [done|by right]|by exists Invalid].
  rewrite (Hwalk (page_of a)) by (lia || apply (page_of_bounds a)). rewrite <- Ew. destruct (wants s (page_of a)) as [[f fl]|] eqn:Ews; cbn; [|by exists Materialize; split; [|right]].
  destruct (satisfies fl k) eqn:Hs; [exists Resolved|by exists Materialize; split; [|right]]. split; [done|]. split; [done|]. rewrite Ews. by exists (f, fl).
Qed.

Lemma materialize_page_tend s a : NInv geo None s -> owns s -> 0 <= a < 2 ^ 64 ->
  tend geo (materialize_page geo a) s (fun r s' => lessened geo s s' /\ exists v w, (s' = s \/ grown geo s s' v w /\ nest_views s !! v = Some w) /\
    match r with Ok _ => exists j, Index_find (store s) a (ns_index (ns s)) = Some v /\ page_of a = page_addr w j /\ shown s' v j | Err _ => True end).
Proof using Hgeo.
  intros HN HO Ha. unfold materialize_page. apply tend_bind, tend_get. apply tend_bind, tend_lift. destruct (find_cases s a HN) as [(v & w & r & Hw & Er & Hf & Kn & Hp & Ew & Hwalk)|[Hf _]]; rewrite Hf; cbn [ok_or].
  2: { split; [by apply lessened_refl|]. exists 0, (mkView (mkRes 0 Normal 0 0 0) 0 [] (Flat.mkRange 0 0 0) []). split; [by left|done]. }
  eapply tend_bind, tend_get_view; [exact Hw|]. assert (Hact : active_in w a) by (unfold active_in, current_at; by rewrite Er). rewrite page_align_eq by done. destruct (page_index_active s v w a Kn Hact Hp) as (j & Ej & Hj & Ep).
  eapply tend_bind, tend_expect; [exact Ej|]. apply tend_bind, tend_lift. rewrite (range_of_pages geo Hgeo v w j 1 (kn_ok _ _ _ _ Kn)) by lia.
  eapply tend_mono; [apply (materialize_active_tend geo Hgeo s (Pages v j 1) w HN); [done|unfold sel_ok; cbn; lia]|]. cbn [sel_pages fst snd sel_view]. intros x s' [G Hx]. split.
  - by eapply less_grown.
  - exists v, w. split; [by right|]. destruct x; [|done]. exists j. split; [done|]. split; [done|]. apply Hx; [lia|]. rewrite <- Ep. by apply active_page; [apply Kn|].
Qed.

Lemma resolve_tend s a k : NInv geo None s -> owns s -> 0 <= a < 2 ^ 64 ->
  tend geo (resolve_fault geo a k) s (fun r s' => lessened geo s s' /\ match r with Ok o => probed s' a k o | Err _ => True end).
Proof using Hgeo.
  intros HN HO Ha. unfold resolve_fault. apply tend_bind, tend_get. apply tend_bind.
  assert (Hgo : forall s1, lessened geo s s1 -> tend geo (o ← probe_fault geo a k;
    (match o with
     | Materialize => catch (materialize_page geo a) (fun r => match r with Ok _ | Err NBusy | Err NMissing | Err NoRegion => mret tt | Err e => fail e end)
     | _ => mret tt
     end) ;; probe_fault geo a k) s1 (fun r s' => lessened geo s s' /\ match r with Ok o => probed s' a k o | Err _ => True end)).
  { intros s1 L1. destruct (probe_run s1 a k (ls_inv _ _ _ L1) Ha) as (o & Eo & _). eapply tend_bind, tend_run; [exact Eo|done|].
    assert (Hend : forall s2, lessened geo s s2 -> tend geo (probe_fault geo a k) s2 (fun r s' => lessened geo s s' /\ match r with Ok o => probed s' a k o | Err _ => True end)).
    { intros s2 L2. destruct (probe_run s2 a k (ls_inv _ _ _ L2) Ha) as (o2 & E2 & P2). by eapply tend_run. }
    apply tend_bind. destruct o; try (by apply tend_ret, Hend). apply tend_catch. eapply tend_mono; [apply (materialize_page_tend s1 a); [apply L1|apply L1|done]|].
    intros r s2 [L2 _]. assert (L : lessened geo s s2) by by eapply lessened_trans. destruct r as [[]|e]; [by apply tend_ret, Hend|].
    destruct e; eexists _, s2; (split; [done|]; split; [done|]; split; [done|]; split; [by (left; reflexivity) || (right; right; done)|]); (by apply Hend) || done. }
  destruct (is_clean _); [apply tend_ret, Hgo; by apply lessened_refl|]. eapply tend_mono; [by apply (retry_tend geo Hgeo)|]. intros [[]|e] s1 L; [by apply Hgo|done].
Qed.
End read.
