(* ===== verification/NestSystem.v ===== *)
(** * Address spaces: everything a space can do

    All operations of one space, one after the other, with the reservations that its
    callers hold.  The invariant of every state that can be reached gives the
    theorems: what the page tables translate is what the views say, addresses of
    different views do not meet, and each operation does what it promises. *)

From stdpp Require Import sorting.
From S2P Require Import Prelude.
From S2P Require Import Table.
From S2P Require Import Flat.
From S2P Require Import FlatInv.
From S2P Require Import Spans.
From S2P Require Import Occupancy.
From S2P Require Import OccupancyInv.
From S2P Require Import OccupancySystem.
From S2P Require Import OccupancyTheorems.
From S2P Require Import Active.
From S2P Require Import ActiveInv.
From S2P Require Import Index.
From S2P Require Import IndexInv.
From S2P Require Import IndexSystem.
From S2P Require Import Paging.
From S2P Require Import PagingInv.
From S2P Require Import PagingStep.
From S2P Require Import PagingUnmap.
From S2P Require Import PagingMap.
From S2P Require Import PagingRuns.
From S2P Require Import View.
From S2P Require Import ViewInv.
From S2P Require Import Nest.
From S2P Require Import NestFlat.
From S2P Require Import NestInv.
From S2P Require Import NestSteps.
From S2P Require Import NestCommit.
From S2P Require Import NestPublish.
From S2P Require Import NestRights.
From S2P Require Import NestWithdraw.
From S2P Require Import NestDetach.
From S2P Require Import NestRead.

Open Scope Z_scope.

(** ** Reserving whole pages *)

Lemma power_of_two x : is_power_of_two x = true -> exists k, 0 <= k /\ x = 2 ^ k.
Proof.
  unfold is_power_of_two. intros [Hx%Z.ltb_lt Hl%Z.eqb_eq]%andb_true_iff. exists (Z.log2 x). split; [apply Z.log2_nonneg|].
  destruct (Z.log2_spec x Hx) as [L1 L2]. destruct (Z.eq_dec x (2 ^ Z.log2 x)) as [|Hne]; [done|]. exfalso. rewrite <- Z.add_1_r in L2.
  assert (Hlog : Z.log2 (x - 1) = Z.log2 x) by (apply Z.log2_unique; [apply Z.log2_nonneg|lia]).
  assert (Hb : Z.testbit (Z.land x (x - 1)) (Z.log2 x) = true).
  { rewrite Z.land_spec, Z.bit_log2 by done. rewrite <- Hlog. apply Z.bit_log2. assert (1 <= 2 ^ Z.log2 x) by (apply Z.lt_pred_le, Z.pow_pos_nonneg; [lia|apply Z.log2_nonneg]). lia. }
  by rewrite Hl, Z.bits_0 in Hb.
Qed.

(** A power of two divides the page, or the page divides it. *)
Lemma align_page x : is_power_of_two x = true -> (x | 4096) \/ (4096 | x).
Proof.
  intros (k & Hk & ->)%power_of_two. change 4096 with (2 ^ 12). destruct (Z.le_ge_cases k 12) as [H|H]; [left|right].
  - exists (2 ^ (12 - k)). rewrite <- Z.pow_add_r by lia. f_equal. lia.
  - exists (2 ^ (k - 12)). rewrite <- Z.pow_add_r by lia. f_equal. lia.
Qed.

(** Among whole-page slots, what is free is free by whole pages. *)
Lemma vacant_page l a x : Forall paged l -> Forall wf_slot l -> ~ occupied l a -> x / 4096 = a / 4096 -> ~ occupied l x.
Proof.
  intros Hp Hw Ha E (sl & Hs & Hx). apply Ha. exists sl. split; [done|]. rewrite Forall_forall in Hp, Hw. destruct (Hp sl Hs) as [P1 P2]. unfold holds_addr in *.
  pose proof (Z.div_mod x 4096). pose proof (Z.div_mod a 4096). pose proof (Z.div_mod (start sl) 4096). pose proof (Z.div_mod (last sl + 1) 4096). pose proof (Z.mod_pos_bound x 4096). pose proof (Z.mod_pos_bound a 4096). lia.
Qed.

(** A window of whole pages inside one half of the space. *)
Definition window_ok (bit : Z) (w : Window) : Prop :=
  0 <= win_base w /\ win_base w mod 4096 = 0 /\ (win_last w + 1) mod 4096 = 0 /\ win_last w < 2 ^ 64 /\ one_half bit (win_base w) (win_last w).

(** What [Placement::new] lets through; an exact span lies in one half. *)
Definition placement_ok (bit : Z) (p : Placement) : Prop :=
  0 <= pl_size p <= usize_MAX /\ at_usize (pl_at p) /\ Placement_new (pl_region p) (pl_size p) (pl_align p) (pl_at p) = Ok p /\
  match pl_at p with Exact st => one_half bit st (st + pl_size p - 1) | _ => True end.

Lemma chosen_page bit p o a :
  OInv o -> Forall paged (slots o) -> Forall (window_ok bit) (windows o) -> placement_ok bit p -> chosen p o a -> 0 <= a ->
  a mod 4096 = 0 /\ one_half bit a (a + pl_size p - 1) /\ 0 < pl_size p /\ pl_size p mod 4096 = 0.
Proof.
  intros HO Hpg Hwin (Hsz & Hat & Hnew & Hex) Hch Ha0. destruct (Placement_new_ok _ _ _ _ _ (proj1 Hsz) Hnew) as (_ & Hs0 & Hal0 & _).
  assert (Hs4 : pl_size p mod 4096 = 0 /\ is_power_of_two (pl_align p) = true /\ forall st, pl_at p = Exact st -> st mod 4096 = 0).
  { revert Hnew. unfold Placement_new. destruct (_ || _) eqn:Hg; [done|]. apply orb_false_iff in Hg as [Hg Hg3%negb_false_iff]. apply orb_false_iff in Hg as [_ Hg2%negb_false_iff%Z.eqb_eq].
    intros Hnew. split; [done|]. split; [done|]. intros st E. rewrite E in Hnew. destruct (negb _ || _) eqn:Hst; [done|]. apply orb_false_iff in Hst as [Hst%negb_false_iff%Z.eqb_eq _].
    rewrite land_page in Hst. exact Hst. }
  destruct Hs4 as (Hs4 & Hpow & Hst). unfold chosen in Hch. pose proof (proj2 (oi_ordered _ HO)) as Hwf.
  assert (Hhalf : forall align, window_fit p o align a -> one_half bit a (a + pl_size p - 1)).
  { intros align (w & Hw & F1 & _ & F3 & _). rewrite Forall_forall in Hwin. destruct (Hwin w (window_of_elem _ _ _ Hw)) as (_ & _ & _ & _ & Hh). unfold one_half in *. lia. }
  pose proof (Z.div_mod a 4096 ltac:(lia)) as Da. pose proof (Z.mod_pos_bound a 4096 ltac:(lia)) as Ba. pose proof (Z.div_mod (pl_size p) 4096 ltac:(lia)) as Ds.
  destruct (pl_at p) as [| |st] eqn:Eat.
  - destruct Hch as [Hfit Hleast]. split; [|by split; [eapply Hhalf|]]. destruct (align_page _ Hpow) as [Hdiv|Hdiv].
    + specialize (Hleast (a / 4096 * 4096)). assert (Hf : window_fit p o (pl_align p) (a / 4096 * 4096)); [|specialize (Hleast Hf); lia].
      destruct Hfit as (w & Hw & F1 & F2 & F3 & F4). exists w. split; [done|]. rewrite Forall_forall in Hwin. destruct (Hwin w (window_of_elem _ _ _ Hw)) as (W0 & W1 & W2 & _ & _).
      pose proof (Z.div_mod (win_base w) 4096 ltac:(lia)). split; [lia|]. split; [by apply Z.divide_mul_r|]. split; [lia|]. intros x Hx.
      destruct (Z.le_gt_cases a x) as [Hax|Hax]; [apply F4; lia|]. apply (vacant_page _ a); [done|done|apply F4; lia|]. pose proof (Z.div_mod x 4096 ltac:(lia)). pose proof (Z.mod_pos_bound x 4096 ltac:(lia)). lia.
    + destruct Hfit as (w & _ & _ & F2 & _). apply Z.mod_divide; [lia|]. by etransitivity.
  - destruct Hch as [Hfit Hmost]. split; [|by split; [eapply Hhalf|]]. destruct (Z.eq_dec (a mod 4096) 0) as [|Hne]; [done|]. exfalso.
    specialize (Hmost ((a / 4096 + 1) * 4096)). assert (Hf : window_fit p o 1 ((a / 4096 + 1) * 4096)); [|specialize (Hmost Hf); lia].
    destruct Hfit as (w & Hw & F1 & F2 & F3 & F4). exists w. split; [done|]. rewrite Forall_forall in Hwin. destruct (Hwin w (window_of_elem _ _ _ Hw)) as (W0 & W1 & W2 & _ & _).
    pose proof (Z.div_mod (win_last w + 1) 4096 ltac:(lia)). split; [lia|]. split; [apply Z.divide_1_l|]. split; [lia|]. intros x Hx.
    destruct (Z.le_gt_cases x (a + pl_size p - 1)) as [Hax|Hax]; [apply F4; lia|]. apply (vacant_page _ (a + pl_size p - 1)); [done|done|apply F4; lia|].
    pose proof (Z.div_mod x 4096 ltac:(lia)). pose proof (Z.mod_pos_bound x 4096 ltac:(lia)). pose proof (Z.div_mod (a + pl_size p - 1) 4096 ltac:(lia)). pose proof (Z.mod_pos_bound (a + pl_size p - 1) 4096 ltac:(lia)). lia.
  - subst a. split; [by apply Hst|]. by split.
Qed.

(** ** Reservations *)

Section system.
Context (geo : Geo) (Hgeo : geo_ok geo).
Let bit := split_bit geo.
Let n := levels geo.

Definition slot_of (r : Reservation) : Slot := mkSlot (res_start r) (res_last r) 0 (res_gen r) (res_region r).

(** [r] is a reservation of the space that no view uses. *)
Record reserved (s : Nest) (r : Reservation) : Prop := {
  rv_made : reservation_made geo r;
  rv_self : res_nest r = self s;
  rv_slot : slot_of r ∈ slots (occ s);
  rv_only : forall sl, sl ∈ slots (occ s) -> id sl = res_gen r -> sl = slot_of r;
  rv_view : nest_views s !! res_gen r = None
}.

Lemma reserved_kept s s' r :
  reserved s r -> OInv (occ s') -> self s' = self s -> nest_views s' !! res_gen r = None -> slot_of r ∈ slots (occ s') ->
  (forall sl, sl ∈ slots (occ s') -> id sl = res_gen r -> exists sl0, sl0 ∈ slots (occ s) /\ id sl = id sl0 /\ start sl0 <= start sl /\ last sl <= last sl0) -> reserved s' r.
Proof using.
  intros [R1 R2 R3 R4 R5] HO Es Hv Hin Hpart. split; [done|congruence|done| |done]. intros sl Hs Hid. destruct (Hpart sl Hs Hid) as (s0 & H0 & E0 & L & R).
  pose proof (R4 s0 H0 ltac:(congruence)) as ->. pose proof (proj2 (oi_ordered _ HO)) as Hwf. rewrite Forall_forall in Hwf. destruct (Hwf sl Hs) as [Hw _].
  eapply (ordered_uniq (slots (occ s')) sl (slot_of r) (start sl)); [apply HO|done|done|unfold holds_addr; lia|unfold holds_addr; lia].
Qed.

Lemma reserved_lessened s s' r : lessened geo s s' -> reserved s r -> reserved s' r.
Proof using.
  intros L R. pose proof L as [L1 L2 L3 L4 L5 L6 L7 L8 L9 L10]. eapply reserved_kept; [exact R|apply L1|congruence| |apply L8; [apply R|done|apply R]|].
  - destruct (nest_views s' !! res_gen r) as [w'|] eqn:Hw; [|done]. destruct (L4 _ _ Hw) as (w & Hw0 & _). pose proof (rv_view _ _ R). congruence.
  - intros sl Hs _. by apply L7.
Qed.

Lemma reserved_moved g s s' r :
  moved g (occ s) (occ s') -> OInv (occ s') -> self s' = self s -> nest_views s' !! res_gen r = None -> res_gen r <> g -> reserved s r -> reserved s' r.
Proof using.
  intros M HO Es Hv Hg R. eapply reserved_kept; [exact R|done|done|done|apply (mv_live _ _ _ M); [apply R|done|done]|]. intros sl Hs _. destruct (mv_part _ _ _ M sl Hs) as (s0 & ? & ? & ? & ? & _). by exists s0.
Qed.

(** ** The state of a space and its callers *)

Record Tenancy := mkTenancy { space : Nest; leases : list Reservation }.

Record SInv (c : Tenancy) : Prop := {
  si_inv : NInv geo None (space c);
  si_owns : owns (space c);
  si_windows : Forall (window_ok bit) (windows (occ (space c)));
  si_leases : forall r, r ∈ leases c -> reserved (space c) r;
  si_distinct : NoDup (res_gen <$> leases c)
}.

Lemma SInv_lessened c s' : SInv c -> lessened geo (space c) s' -> SInv (mkTenancy s' (leases c)).
Proof using.
  intros [I1 I2 I3 I4 I5] L. split; cbn; [apply L|apply L|by rewrite (ls_windows _ _ _ L)| |done]. intros r Hr. by eapply reserved_lessened, I4.
Qed.

(** The caller gives [r] away. *)
Definition without (r : Reservation) (l : list Reservation) : list Reservation := retain (fun r' => negb (res_gen r' =? res_gen r)) l.

Lemma without_in r l r' : r' ∈ without r l <-> r' ∈ l /\ res_gen r' <> res_gen r.
Proof using. unfold without. rewrite elem_of_retain. by rewrite negb_true_iff, Z.eqb_neq. Qed.

Lemma without_distinct r l : NoDup (res_gen <$> l) -> NoDup (res_gen <$> without r l).
Proof using.
  induction l as [|a l IH]; [done|]. cbn. intros [Ha Hl]%NoDup_cons. unfold without, retain. cbn [List.filter]. destruct (negb _); [|by apply IH]. cbn. apply NoDup_cons. split; [|by apply IH].
  intros (b & E & Hb)%list_elem_of_fmap. apply Ha, list_elem_of_fmap. exists b. split; [done|]. by apply (without_in r l b) in Hb as [? _].
Qed.

(** The addresses of [r] are given back, or they are not; it is no longer the caller's. *)
Lemma SInv_given c s' r :
  SInv c -> r ∈ leases c -> NInv geo None s' -> nest_views s' = nest_views (space c) -> rest s' = rest (space c) -> moved (res_gen r) (occ (space c)) (occ s') ->
  SInv (mkTenancy s' (without r (leases c))).
Proof using.
  intros [I1 I2 I3 I4 I5] Hr HN Ev Er M. pose proof (rv_view _ _ (I4 r Hr)) as Hno. assert (Hq : self s' = self (space c) /\ ns_retirement (ns s') = ns_retirement (ns (space c))) by (unfold rest in Er; split; congruence).
  destruct Hq as [Q1 Q2]. split; cbn.
  - done.
  - apply (owns_moved (res_gen r) (space c)); [done|apply HN|done|by apply fewer_same| |by rewrite Ev, Hno]. intros t Ht. rewrite Q2 in Ht. exact (proj1 (Forall_forall _ _) (ow_tickets _ I2) t Ht).
  - by rewrite (mv_windows _ _ _ M).
  - intros r' [Hr' Hne]%without_in. eapply reserved_moved; [exact M|apply HN|done|rewrite Ev; by apply I4|done|by apply I4].
  - by apply without_distinct.
Qed.
(** ** Operations on reservations *)

(** [m] panics only where the tables have empty tables left or the tickets are
    spent, and leaves empty tables only when it reports that memory is exhausted. *)
Definition works {A} (m : NM A) (s : Nest) (Q : result NestError A -> Nest -> Prop) : Prop :=
  gp (able geo s) m s (fun r s' => (able geo s -> r <> Err NOutOfMemory \/ is_closed s' = true -> full n (ns_root (ns s'))) /\ Q r s').

Lemma tend_works {A} (m : NM A) s Q : tend geo m s Q -> works m s Q.
Proof using. intros H. eapply gp_mono; [exact H|]. intros r s' [H1 H2]. split; [|done]. intros Ha Hr. by apply H1. Qed.

(** A step that leaves the tables alone and does not panic. *)
Lemma works_run {A} (m : NM A) s r s' (Q : result NestError A -> Nest -> Prop) : m s = Some (r, s') -> ns_root (ns s') = ns_root (ns s) -> Q r s' -> works m s Q.
Proof using. intros E Er HQ. unfold works, gp. rewrite E. split; [|done]. intros [Hf _] _. by rewrite Er. Qed.

Lemma quiet_moved g o o' : OccupancyInv.quiet o o' -> next_gen o' = next_gen o -> moved g o o'.
Proof using. intros Hq Hg. by apply moved_table, quiet_table. Qed.

Lemma SInv_quiet c o : SInv c -> OccupancyInv.quiet (occ (space c)) o -> OInv o -> SInv (mkTenancy (set_occ o (space c)) (leases c)).
Proof using.
  intros [I1 [O1 O2 O3 O4 O5] I3 I4 I5] (Q1 & Q2 & _ & _ & Q5 & _) HO. split; cbn [space leases]; [by apply NInv_occ| |cbn; by rewrite Q1| |done].
  - split; cbn [occ set_occ nest_views ns]; rewrite ?Q2; try done. intros v Hv. pose proof (O5 v Hv). lia.
  - intros r Hr. destruct (I4 r Hr) as [R1 R2 R3 R4 R5]. split; cbn [occ set_occ nest_views self]; by rewrite ?Q2.
Qed.

Lemma made_paged r : reservation_made geo r -> paged (slot_of r) /\ res_start r <= res_last r.
Proof using.
  intros [[C1 C2 C3 C4 C5] Hm]. pose proof (Z.div_mod (res_size r) 4096). unfold paged, slot_of, res_last. cbn. split; [|lia]. split; [done|].
  replace (res_start r + (res_size r - 1) + 1) with (res_start r + res_size r) by lia. by rewrite Z.add_mod, C2, Hm.
Qed.

(** New reservations; the slots of generation [g] are gone. *)
Lemma SInv_fresh c o g news left_ :
  SInv c -> OInv o -> windows o = windows (occ (space c)) -> next_gen (occ (space c)) <= next_gen o -> nest_views (space c) !! g = None ->
  (forall sl, sl ∈ slots o <-> (exists r, r ∈ news /\ sl = slot_of r) \/ sl ∈ slots (occ (space c)) /\ id sl <> g) ->
  Forall (fun r => reservation_made geo r /\ res_nest r = self (space c) /\ next_gen (occ (space c)) <= res_gen r) news -> NoDup (res_gen <$> news) ->
  (forall r, r ∈ left_ -> r ∈ leases c /\ res_gen r <> g) -> NoDup (res_gen <$> left_) -> SInv (mkTenancy (set_occ o (space c)) (news ++ left_)).
Proof using.
  intros [I1 [O1 O2 O3 O4 O5] I3 I4 I5] HO Hwin Hng Hg Hsl Hnew Hnd Hleft Hndl. set (s := space c) in *. rewrite Forall_forall in Hnew.
  assert (Hold : forall sl, sl ∈ slots (occ s) -> id sl < next_gen (occ s)) by (intros sl Hs; by apply (oi_issued _ (ni_occ _ _ _ I1))). split; cbn [space leases].
  - by apply NInv_occ.
  - split; [|done| | |].
    + intros v w x Hw Hact. destruct (O1 v w x Hw Hact) as [rg Hr]. apply owner_inv in Hr as (sl & Hs & Hh & Ht). exists rg. rewrite <- Ht. apply owner_intro; [apply HO| |done].
      apply Hsl. right. split; [done|]. unfold tag in Ht. injection Ht as _ <- _. intros Ei. cbn in Hw. congruence.
    + apply Forall_forall. intros sl [(r & Hr & ->)|[Hs _]]%Hsl; [by apply made_paged, Hnew|exact (proj1 (Forall_forall _ _) O3 sl Hs)].
    + intros v w sl Hw [(r & Hr & ->)|[Hs _]]%Hsl Hid; [|by apply (O4 v w)]. cbn in Hid. pose proof (O5 v ltac:(by eexists)). destruct (Hnew r Hr) as (_ & _ & ?). lia.
    + intros v Hv. cbn. pose proof (O5 v Hv). lia.
  - cbn. by rewrite Hwin.
  - intros r [Hr|Hr]%elem_of_app.
    + destruct (Hnew r Hr) as (N1 & N2 & N3). split; [done|done|apply Hsl; left; by exists r| |].
      * intros sl [(r' & Hr' & ->)|[Hs _]]%Hsl Hid; [|pose proof (Hold sl Hs); lia]. cbn in Hid. apply list_elem_of_lookup in Hr as [i Hi]. apply list_elem_of_lookup in Hr' as [j Hj].
        assert (i = j) as <- by (eapply NoDup_lookup; [exact Hnd|by rewrite list_lookup_fmap, Hi|by rewrite list_lookup_fmap, Hj; cbn; f_equal]). congruence.
      * cbn. destruct (nest_views s !! res_gen r) eqn:Hv; [|done]. pose proof (O5 _ ltac:(by eexists)). lia.
    + destruct (Hleft r Hr) as [Hin Hne]. pose proof (I4 r Hin) as R. eapply reserved_kept; [exact R|done|done|apply R|apply Hsl; right; split; [apply R|done]|].
      intros sl [(r' & Hr' & ->)|[Hs _]]%Hsl Hid; [|exists sl; split_and!; (done || lia)]. exfalso. pose proof (Hold _ (rv_slot _ _ R)). destruct (Hnew r' Hr') as (_ & _ & ?). cbn in *. lia.
  - rewrite fmap_app. apply NoDup_app. split; [done|]. split; [|done]. intros x (r & -> & Hr)%list_elem_of_fmap (r' & E & Hr')%list_elem_of_fmap.
    destruct (Hleft r' Hr') as [Hin _]. pose proof (Hold _ (rv_slot _ _ (I4 r' Hin))). destruct (Hnew r Hr) as (_ & _ & ?). cbn in *. lia.
Qed.

Lemma reserve_step c p : SInv c -> placement_ok bit p -> works (nest_reserve geo p) (space c) (fun x s' =>
  match x with
  | Ok r => SInv (mkTenancy s' (r :: leases c)) /\ (forall y, res_start r <= y <= res_last r -> owner (slots (occ (space c))) y = None) /\
      nest_views s' = nest_views (space c) /\ ns s' = ns (space c)
  | Err _ => SInv (mkTenancy s' (leases c)) /\ nest_views s' = nest_views (space c)
  end).
Proof using Hgeo.
  intros HI Hp. pose proof HI as [I1 I2 I3 I4 I5]. set (s := space c) in *. pose proof (ni_occ _ _ _ I1) as HO. pose proof Hp as (Hsz & Hat & Hnew & _). destruct (Placement_new_ok _ _ _ _ _ (proj1 Hsz) Hnew) as (_ & Hs0 & Hal0 & _).
  assert (Hen : OccupancySystem.enabled (Reserve p) (occ s)) by (cbn; split; [lia|]; split; [done|]; by destruct (pl_at p)).
  destruct (OccupancySystem.reserve_run p (occ s) HO Hen) as (x & o & E & Hx). destruct (OccupancySystem.reserve_op p (occ s) HO Hen) as (x' & o' & E' & HO' & _).
  assert (o' = o) as -> by (unfold OccupancySystem.exec, mbind, M_bind in E'; rewrite E in E'; destruct x as [[? ?]|?]; unfold mret, M_ret in E'; congruence). unfold nest_reserve. destruct x as [[a gen]|e].
  - destruct Hx as (Hch & Ha & Hla & -> & Hng & Hvac & _ & Hwin & _ & _ & Hsl). destruct (chosen_page bit p (occ s) a HO (ow_paged _ I2) I3 Hp Hch Ha) as (Hpa & Hhalf & _ & Hs4).
    assert (Hcr : canon_range geo a (pl_size p / 4096)).
    { pose proof (Z.div_mod (pl_size p) 4096). unfold usize_MAX, usize_bits in Hla. split; [done|done|lia| |lia]. replace (a + pl_size p / 4096 * 4096 - 1) with (a + pl_size p - 1) by lia. exact Hhalf. }
    assert (Hraw : VirtAddr_from_raw bit a = a).
    { apply from_raw_canonical; [by apply good_split|]. pose proof (canon_at geo a _ 0 Hcr) as Hc. rewrite Z.mul_0_l, Z.add_0_r in Hc. apply Hc. pose proof (cr_some _ _ _ Hcr). lia. }
    eapply works_run; [unfold on_occ; munfold; rewrite E; reflexivity|done|]. cbn [fst snd]. fold bit. rewrite Hraw. set (r := mkRes _ _ _ _ _). set (s' := set_occ o s).
    assert (Eslot : mkSlot a (a + pl_size p - 1) 0 (next_gen (occ s)) (pl_region p) = slot_of r) by (unfold slot_of, res_last, r; cbn; f_equal; lia). rewrite Eslot in Hsl.
    assert (Hnov : nest_views s !! next_gen (occ s) = None) by (destruct (nest_views s !! next_gen (occ s)) eqn:Hv; [pose proof (ow_gen _ I2 _ ltac:(by eexists)); lia|done]).
    split; [|split; [intros y Hy; apply owner_None, Hvac; unfold res_last, r in Hy; cbn in Hy; lia|done]].
    apply (SInv_fresh c o (next_gen (occ s)) [r] (leases c)); try done; [fold s; lia| |apply Forall_singleton; split; [by split|]; split; [done|]; cbn; fold s; lia|by apply NoDup_singleton|].
    + intros sl. rewrite Hsl. setoid_rewrite list_elem_of_singleton. split; [intros [->|Hs]; [left; by exists r|right; split; [done|]; destruct (oi_issued _ HO sl Hs); lia]|intros [(r' & -> & ->)|[? _]]; auto].
    + intros r' Hr'. split; [done|]. destruct (oi_issued _ HO _ (rv_slot _ _ (I4 r' Hr'))) as [_ Hi]. cbn in Hi. lia.
  - destruct Hx as [Hq _]. eapply works_run; [unfold on_occ; munfold; rewrite E; reflexivity|done|]. split; [|done]. by apply SInv_quiet.
Qed.
Lemma release_step c r : SInv c -> r ∈ leases c -> works (release_reserved r) (space c) (fun x s' => SInv (mkTenancy s' (without r (leases c)))).
Proof using.
  intros HI Hr. pose proof HI as [I1 I2 I3 I4 I5]. set (s := space c) in *.
  assert (H0 : SInv (mkTenancy s (without r (leases c)))) by (apply SInv_given; [done|done|done|done|done|reflexivity]).
  unfold release_reserved, check_reservation, check_owner. apply tend_works. apply tend_bind, tend_bind, tend_bind, tend_get. destruct (_ =? _); [apply tend_ret|by apply tend_fail].
  apply tend_bind, tend_get. destruct (has_id _ _); [apply tend_ret|by apply tend_fail].
  apply tend_bind. unfold nest_overlaps. destruct (_ || _); [by apply tend_fail|]. apply tend_bind, tend_lift. destruct (checked_add _ _); [|done]. cbn [ok_or]. apply tend_bind, tend_get, tend_ret.
  case_bool_decide; [by apply tend_fail|]. unfold give_back.
  destruct (release_spare (res_start r) (res_start r + (res_size r - 1)) (res_gen r) (occ s) (ni_occ _ _ _ I1)) as (b & o & E & HO & Hm & Hs & _).
  apply tend_bind. eapply tend_on_occ; [exact E|exact Hs|]. assert (H1 : SInv (mkTenancy (set_occ o s) (without r (leases c)))) by (apply SInv_given; [done|done|by apply NInv_occ|done|done|done]).
  destruct b; [by apply tend_ret|by apply tend_fail].
Qed.

(** ** Attaching *)

Lemma owns_attached s s' r w l :
  owns s -> reserved s r -> NInv geo None s' -> v_res w = r -> (forall x, active_in w x -> res_start r <= x <= res_last r) ->
  nest_views s' = <[res_gen r := set_published l w]> (nest_views s) -> table_of (occ s') = table_of (occ s) -> rest s' = rest s -> owns s'.
Proof using.
  intros [O1 O2 O3 O4 O5] R HN Eres Hin Ev Et Er. assert (Hret : ns_retirement (ns s') = ns_retirement (ns s)) by (unfold rest in Er; congruence). unfold table_of in Et. injection Et as E1 E2 E3 E4.
  split; [| |by rewrite E2| |].
  - intros v w' x. rewrite Ev, E2. rewrite lookup_insert_Some. intros [[<- <-]|[Hne Hw]] Ha; [|by apply (O1 v w')]. exists (res_region r).
    rewrite (owner_intro _ x (slot_of r)); [done|rewrite <- E2; apply HN|apply R|]. by apply Hin.
  - by rewrite Hret.
  - intros v w' sl. rewrite Ev, E2, lookup_insert_Some. intros [[<- <-]|[Hne Hw]] Hs Hid; [|by apply (O4 v w')]. rewrite (rv_only _ _ R sl Hs Hid). unfold initial_start. cbn. rewrite Eres. done.
  - intros v. rewrite Ev, E3. destruct (decide (v = res_gen r)) as [->|Hne]; [|rewrite lookup_insert_ne by done; apply O5]. intros _.
    pose proof (oi_issued _ (OInv_table _ _ (eq_sym (f_equal4 (fun a b c d => (a, b, c, d)) E1 E2 E3 E4)) (ni_occ _ _ _ HN)) _ (rv_slot _ _ R)) as [_ Hi]. exact Hi.
Qed.
(** The view that [attach] makes. *)
Definition whole_view (s : Nest) (r : Reservation) (src : FlatRange) (ceiling current : Z) : View :=
  new_view r (attrs (res_region r) (kind s)) [Active.mkRange (res_start r) (res_size r) ceiling current] src.

Lemma whole_active s r src ceiling current x : reservation_made geo r ->
  active_in (whole_view s r src ceiling current) x <-> res_start r <= x <= res_last r.
Proof using.
  intros [Hc Hm]. unfold active_in. rewrite current_at_span. cbn [v_active whole_view new_view]. unfold span_at. cbn [List.find]. pose proof (Z.div_mod (res_size r) 4096 ltac:(lia)). destruct Hc as [C1 C2 C3 C4 C5].
  set (a := Active.mkRange _ _ _ _). assert (He : a_end a = a_start a + a_size a - 1) by (unfold a_end, saturating_add; rewrite usize_MAX_eq; cbn; lia).
  assert (Hon : on_span x a <-> res_start r <= x <= res_last r) by (unfold on_span, res_last; change (s_lo a) with (a_start a); change (s_hi a) with (a_end a); rewrite He; cbn [a a_start a_size]; lia).
  rewrite <- Hon. case_bool_decide as Hd; cbn; (split; [intros Hs|intros Hx]).
  - done.
  - by eexists.
  - by destruct Hs.
  - done.
Qed.

(** The new view alone is in place. *)
Lemma SInv_attached c s' r w :
  SInv c -> r ∈ leases c -> v_res w = r -> (forall x, active_in w x -> res_start r <= x <= res_last r) -> active_in w (initial_start w) ->
  attach_done geo (space c) s' (res_gen r) w -> SInv (mkTenancy s' (without r (leases c))).
Proof using.
  intros HI Hr Eres Hin Hst [D1 (l & D2 & _) D3 D4 D5 D6]. pose proof HI as [I1 I2 I3 I4 I5]. specialize (D5 Hst). pose proof (I4 r Hr) as R. assert (Es : self s' = self (space c)) by (unfold rest in D4; congruence).
  assert (Hq : slots (occ s') = slots (occ (space c)) /\ windows (occ s') = windows (occ (space c))) by (unfold table_of in D5; split; congruence). destruct Hq as [Q1 Q2]. split; cbn [space leases].
  - done.
  - by eapply owns_attached.
  - by rewrite Q2.
  - intros r' [Hr' Hne]%without_in. destruct (I4 r' Hr') as [R1 R2 R3 R4 R5]. split; [done|congruence|by rewrite Q1|by rewrite Q1|]. rewrite D2. by rewrite lookup_insert_ne.
  - by apply without_distinct.
Qed.

Lemma attach_step c r src ceiling current :
  SInv c -> r ∈ leases c -> wf_range (flat (space c)) src -> 0 <= current < 8 -> let w := whole_view (space c) r src ceiling current in
  tend geo (attach_view geo r src ceiling current) (space c) (fun x s' =>
    SInv (mkTenancy s' (without r (leases c))) /\
    match x with
    | Ok v => v = res_gen r /\ attach_done geo (space c) s' v w /\ ns_invalidation (ns s') = Clean
    | Err e => nest_views s' = nest_views (space c) /\ tended (flat (space c)) (flat s') \/ e = Shootdown /\ attach_done geo (space c) s' (res_gen r) w
    end).
Proof using Hgeo.
  intros HI Hr Hs Hc w. pose proof HI as [I1 I2 I3 I4 I5]. pose proof (I4 r Hr) as R. eapply tend_mono; [apply (attach_view_tend geo Hgeo (space c) r src ceiling current I1 (rv_view _ _ R) (rv_made _ _ R) Hs Hc)|].
  assert (Hdone : forall s', attach_done geo (space c) s' (res_gen r) w -> SInv (mkTenancy s' (without r (leases c)))).
  { intros s' D. apply (SInv_attached c s' r w); [done|done|done|intros x Hx; by apply (whole_active (space c) r src ceiling current x (rv_made _ _ R))| |done].
    apply (whole_active (space c) r src ceiling current); [apply R|]. destruct (rv_made _ _ R) as [[C1 C2 C3 C4 C5] Hm]. unfold initial_start, res_last. cbn. pose proof (Z.div_mod (res_size r) 4096). lia. }
  intros x s' Hx. destruct x as [v|e].
  - destruct Hx as (-> & D & _ & Hcl). split; [by apply Hdone|done].
  - destruct Hx as [[G1 G2 G3 G4 G5 G6 G7]|[-> D]]; [|by split; [apply Hdone|right]]. split; [|by left]. by apply SInv_given.
Qed.

(** ** Splitting a reservation *)

Lemma split_step c r left_size : SInv c -> r ∈ leases c -> 0 <= left_size -> works (split_reservation geo r left_size) (space c) (fun x s' =>
  match x with
  | Ok (a, b) => SInv (mkTenancy s' (a :: b :: without r (leases c))) /\ res_start a = res_start r /\ res_size a = left_size /\ res_start b = res_start r + left_size /\ res_size a + res_size b = res_size r
  | Err _ => SInv (mkTenancy s' (without r (leases c)))
  end).
Proof using Hgeo.
  intros HI Hr Hl. pose proof HI as [I1 I2 I3 I4 I5]. set (s := space c) in *. pose proof (I4 r Hr) as R. pose proof (ni_occ _ _ _ I1) as HO.
  assert (H0 : SInv (mkTenancy s (without r (leases c)))) by (apply SInv_given; [done|done|done|done|done|reflexivity]).
  destruct (rv_made _ _ R) as [Hcr Hm]. pose proof Hcr as [C1 C2 C3 C4 C5]. pose proof (Z.div_mod (res_size r) 4096 ltac:(lia)) as Dr. pose proof (good_split geo Hgeo) as Hgb.
  assert (Hen : OccupancySystem.enabled (Split (res_start r) (res_last r) (res_gen r) left_size) (occ s)).
  { cbn. unfold res_last, usize_MAX, usize_bits. unfold one_half in C4. fold bit in C4. assert (2 ^ bit <= 2 ^ 63) by (apply Z.pow_le_mono_r; [lia|unfold good_bit in Hgb; lia]). lia. }
  destruct (OccupancySystem.split_run _ _ _ _ (occ s) HO Hen) as (x & o & E & Hx). destruct (OccupancySystem.split_op _ _ _ _ (occ s) HO Hen) as (x' & o' & E' & HO' & _).
  assert (o' = o) as -> by (unfold OccupancySystem.exec, mbind, M_bind in E'; rewrite E in E'; destruct x as [[[? ?] ?]|?]; unfold mret, M_ret in E'; congruence).
  unfold split_reservation, check_reservation, check_owner. destruct (has_id (res_gen r) (occ s)) eqn:Hid.
  2: { apply tend_works, tend_bind, tend_bind, tend_bind, tend_get. destruct (_ =? _); [apply tend_ret|by apply tend_fail]. apply tend_bind, tend_get. rewrite Hid. by apply tend_fail. }
  destruct x as [[[mid gl] gr]|e].
  - eapply works_run; [munfold; rewrite (rv_self _ _ R), Z.eqb_refl, Hid; unfold on_err, on_occ; rewrite E; reflexivity|done|]. cbn [fst snd].
    destruct Hx as (-> & Hmid & Hl4 & -> & -> & Hng & Ew & Et & l1 & rg & l2 & El & El'). change PAGE_SIZE with 4096 in Hl4. pose proof (Z.div_mod left_size 4096 ltac:(lia)) as Dl. unfold res_last in Hmid.
    assert (Hra : canon_range geo (res_start r) (left_size / 4096)) by (replace (res_start r) with (res_start r + 0 * 4096) by lia; apply (canon_part geo _ (res_size r / 4096)); [done|lia..]).
    assert (Hrb : canon_range geo (res_start r + left_size) ((res_size r - left_size) / 4096)).
    { replace (res_start r + left_size) with (res_start r + left_size / 4096 * 4096) by lia. replace ((res_size r - left_size) / 4096) with (res_size r / 4096 - left_size / 4096).
      - apply (canon_part geo _ (res_size r / 4096)); [done|lia..].
      - replace (res_size r - left_size) with ((res_size r / 4096 - left_size / 4096) * 4096) by lia. by rewrite Z.div_mul. }
    assert (Hraw : VirtAddr_from_raw bit (res_start r + left_size) = res_start r + left_size).
    { apply from_raw_canonical; [done|]. pose proof (canon_at geo _ _ 0 Hrb) as Hc. rewrite Z.mul_0_l, Z.add_0_r in Hc. apply Hc. pose proof (cr_some _ _ _ Hrb). lia. }
    fold bit. rewrite Hraw. set (ra := mkRes (self s) (res_region r) (res_start r) left_size (next_gen (occ s))). set (rb := mkRes (self s) (res_region r) (res_start r + left_size) (res_size r - left_size) (next_gen (occ s) + 1)). set (s' := set_occ o s).
    assert (rg = res_region r) as -> by (pose proof (rv_only _ _ R (mkSlot (res_start r) (res_last r) 0 (res_gen r) rg) ltac:(rewrite El; set_solver) eq_refl) as Hs; unfold slot_of in Hs; congruence).
    assert (Ea : mkSlot (res_start r) (res_start r + left_size - 1) 0 (next_gen (occ s)) (res_region r) = slot_of ra) by (unfold slot_of, res_last, ra; cbn; f_equal; lia).
    assert (Eb : mkSlot (res_start r + left_size) (res_last r) 0 (next_gen (occ s) + 1) (res_region r) = slot_of rb) by (unfold slot_of, res_last, rb; cbn; f_equal; lia).
    rewrite Ea, Eb in El'. change (mkSlot (res_start r) (res_last r) 0 (res_gen r) (res_region r)) with (slot_of r) in El.
    assert (Hold : forall sl, sl ∈ slots (occ s) -> id sl < next_gen (occ s)) by (intros sl Hs; by apply (oi_issued _ HO)).
    assert (Hsl : forall sl, sl ∈ slots o <-> sl = slot_of ra \/ sl = slot_of rb \/ sl ∈ slots (occ s) /\ id sl <> res_gen r).
    { intros sl. rewrite El'. rewrite !elem_of_app, !elem_of_cons, elem_of_nil. split.
      - assert (Hno : forall sl, sl ∈ l1 \/ sl ∈ l2 -> sl ∈ slots (occ s) /\ id sl <> res_gen r).
        { intros t Ht. assert (Hs : t ∈ slots (occ s)) by (rewrite El; set_solver). split; [done|]. intros Ei. pose proof (rv_only _ _ R t Hs Ei) as ->. pose proof (oi_ordered _ HO) as Ho. rewrite El in Ho.
          apply ordered_app in Ho as (_ & Ho2 & Ho3). apply ordered_cons in Ho2 as (Hw & _ & Hlt). destruct Hw as [Hw _]. destruct Ht as [Ht|Ht]; [specialize (Ho3 _ (slot_of r) Ht ltac:(by left)); lia|specialize (Hlt _ Ht); lia]. }
        intros [Hs|[[Hs|[Hs|[]]]|Hs]]; auto.
      - intros [Hs|[Hs|[Hs Hne]]]; [tauto|tauto|]. rewrite El in Hs. apply elem_of_app in Hs as [Hs|[->|Hs]%elem_of_cons]; [tauto|done|tauto]. }
    split; [|cbn; split_and!; (done || lia)].
    apply (SInv_fresh c o (res_gen r) [ra; rb] (without r (leases c))); try done; [fold s; lia|apply R| | | | |].
    + intros sl. rewrite Hsl. split; [intros [->|[->|?]]; [left; exists ra|left; exists rb|by right]; split; [set_solver|done|set_solver|done]|].
      intros [(r' & Hr' & ->)|?]; [|by auto]. apply elem_of_cons in Hr' as [->|Hr'%list_elem_of_singleton]; [by left|subst r'; auto].
    + assert (Hmb : (res_size r - left_size) mod 4096 = 0) by (by rewrite Zminus_mod, Hm, Hl4).
      apply Forall_cons; split; [|apply Forall_singleton]; (split; [by split|]; split; [done|]; cbn; fold s; lia).
    + cbn. apply NoDup_cons. split; [rewrite list_elem_of_singleton; lia|apply NoDup_singleton].
    + intros r' [? ?]%without_in. done.
    + by apply without_distinct.
  - assert (H1 : SInv (mkTenancy (set_occ o s) (leases c))) by (by apply (SInv_quiet c o)).
    destruct (release_spare (res_start r) (res_start r + (res_size r - 1)) (res_gen r) o HO') as (b & o2 & E2 & HO2 & Hm2 & _).
    eapply works_run; [munfold; rewrite (rv_self _ _ R), Z.eqb_refl, Hid; unfold on_err, on_occ; rewrite E; munfold; unfold give_back, on_occ; cbn; rewrite E2; reflexivity|done|].
    apply (SInv_given (mkTenancy (set_occ o s) (leases c)) (set_occ o2 (set_occ o s)) r); try done. apply NInv_occ; [|done]. apply H1.
Qed.

(** ** Operations on views *)

Lemma less_ranged s s' v w next :
  owns s -> nest_views s !! v = Some w -> (forall x, active_in (set_active next w) x -> active_in w x) -> ranged geo s s' v w next -> lessened geo s s'.
Proof using. intros HO Hw Ha [R1 R2 R3 R4 R5]. apply (less_view geo s s' v w (set_active next w)); try done. by rewrite R5. Qed.

Lemma spans_active w next (f : Z -> Z * Z -> Z * Z) x :
  (forall x, span_at next x = f x <$> span_at (v_active w) x) -> active_in (set_active next w) x -> active_in w x.
Proof using. intros Hf. unfold active_in. rewrite !current_at_span. cbn [v_active set_active]. rewrite Hf. destruct (span_at (v_active w) x); [by eexists|done]. Qed.

Lemma less_step {A} (m : NM A) c : SInv c -> tend geo m (space c) (fun _ s' => lessened geo (space c) s') -> works m (space c) (fun _ s' => SInv (mkTenancy s' (leases c))).
Proof using. intros HI H. apply tend_works. eapply tend_mono; [exact H|]. intros r s' L. by apply SInv_lessened. Qed.

Section views.
Context (s : Nest) (HN : NInv geo None s) (HO : owns s).

Lemma publish_less sel w : nest_views s !! sel_view sel = Some w -> sel_ok w sel -> tend geo (publish geo sel) s (fun _ s' => lessened geo s s').
Proof using All. intros Hw Hs. eapply tend_mono; [by apply (publish_tend geo Hgeo s sel w)|]. intros r s' [G _]. by eapply less_grown. Qed.

Lemma materialize_less sel w : nest_views s !! sel_view sel = Some w -> sel_ok w sel -> tend geo (materialize_active geo sel) s (fun _ s' => lessened geo s s').
Proof using All. intros Hw Hs. eapply tend_mono; [by apply (materialize_active_tend geo Hgeo s sel w)|]. intros r s' [G _]. by eapply less_grown. Qed.

Lemma set_access_less sel w access : nest_views s !! sel_view sel = Some w -> sel_ok w sel -> 0 <= access < 8 -> tend geo (set_access geo sel access) s (fun _ s' => lessened geo s s').
Proof using All.
  intros Hw Hs Ha. eapply tend_mono; [by apply (set_access_tend geo Hgeo s sel w)|]. intros [[]|e] s'.
  - intros (_ & next & R & Hf). eapply less_ranged; [done|done| |done]. intros x. by apply (spans_active w next _ x Hf).
  - intros [[H1 H2]|(_ & next & R & Hf)]; [by apply less_untouched|]. eapply less_ranged; [done|done| |done]. intros x. by apply (spans_active w next _ x Hf).
Qed.

Lemma narrow_less sel w ceiling : nest_views s !! sel_view sel = Some w -> sel_ok w sel -> tend geo (narrow geo sel ceiling) s (fun _ s' => lessened geo s s').
Proof using All.
  intros Hw Hs. eapply tend_mono; [by apply (narrow_tend geo Hgeo s sel w)|]. intros [[]|e] s'.
  - intros (_ & next & R & Hf). eapply less_ranged; [done|done| |done]. intros x. by apply (spans_active w next _ x Hf).
  - intros [[H1 H2]|(_ & next & R & Hf)]; [by apply less_untouched|]. eapply less_ranged; [done|done| |done]. intros x. by apply (spans_active w next _ x Hf).
Qed.

Lemma detach_less sel w : nest_views s !! sel_view sel = Some w -> sel_ok w sel -> tend geo (detach_view geo sel) s (fun _ s' => lessened geo s s').
Proof using All. intros Hw Hs. eapply tend_mono; [by apply (detach_tend geo Hgeo s sel w)|]. intros r s' [R _]. by eapply lessened_reduced. Qed.

Lemma close_less : tend geo (close geo) s (fun _ s' => lessened geo s s').
Proof using All. eapply tend_mono; [by apply (close_tend geo Hgeo s)|]. by intros r s' [? _]. Qed.

Lemma unpublish_less v w j expected :
  nest_views s !! v = Some w -> 0 <= j < view_pages w -> res_nest (v_res w) = self s -> (forall f, frame_of (v_published w) j = Some f -> f = expected) ->
  tend geo (unpublish_page geo v (page_addr w j) expected) s (fun _ s' => lessened geo s s').
Proof using All.
  intros Hw Hj Hself Hf. eapply tend_mono; [by apply (unpublish_tend geo Hgeo s v w j expected)|].
  assert (Hhid : forall s1 s', passed geo s s1 -> hidden geo s1 s' v w j -> lessened geo s s').
  { intros s1 s' P H. eapply lessened_trans; [by apply lessened_passed|]. eapply hidden_less; [by eapply owns_passed|by rewrite (pa_views _ _ _ P)|exact H]. }
  intros [[]|e] s'; [intros (s1 & P & [[_ ->]|[H _]])|intros [P|(_ & _ & s1 & P & H)]]; (by apply lessened_passed) || by eapply Hhid.
Qed.
End views.

(** ** A caller gives up a view *)

Lemma drop_step c v : SInv c -> works (drop_view v) (space c) (fun x s' => SInv (mkTenancy s' (leases c)) /\ x = Ok tt /\
  occ s' = occ (space c) /\ ns s' = ns (space c) /\ forall u, u <> v -> nest_views s' !! u = nest_views (space c) !! u).
Proof using Hgeo.
  intros HI. pose proof HI as [I1 [O1 O2 O3 O4 O5] I3 I4 I5]. set (s := space c) in *. unfold drop_view. destruct (referenced s v) eqn:Hr.
  { eapply works_run; [unfold modify; munfold; rewrite Hr; reflexivity|done|]. split; [by destruct c|done]. }
  assert (Hoff : ~ indexed s v /\ v ∉ refs s).
  { unfold referenced, Index_collect in Hr. rewrite collect_views_eq in Hr. apply any_false in Hr. rewrite Forall_forall in Hr. unfold indexed, refs.
    split; intros Hin; specialize (Hr v); rewrite Z.eqb_refl in Hr; discriminate Hr; set_solver. }
  destruct Hoff as [Hni Hnr]. eapply works_run; [unfold modify; munfold; rewrite Hr; reflexivity|done|]. set (s' := set_registry _ _).
  assert (HN' : NInv geo None s').
  { apply NInv_drop. destruct I1 as [A1 A2 A3 A4 A5 A6 A7 A8 A9 A10 A11]. split; try done; [intros u w Hu Ha _; by apply (A3 u w)| |by intros u [= <-]]. intros u Hu. split; [by apply A5|]. congruence. }
  assert (Hlk : forall u w, nest_views s' !! u = Some w -> nest_views s !! u = Some w) by (intros u w; unfold s'; cbn; rewrite lookup_delete_Some; tauto).
  split; [|split; [done|]; split; [done|]; split; [done|]; intros u Hu; unfold s'; cbn; by rewrite lookup_delete_ne].
  split; cbn [space leases]; [done| |done| |done].
  - split; [intros u w x Hu; apply (O1 u w); auto|done|done|intros u w sl Hu; apply (O4 u w); auto|]. intros u [w Hu]. apply O5. exists w. auto.
  - intros r Hin. destruct (I4 r Hin) as [R1 R2 R3 R4 R5]. split; try done. unfold s'. cbn. rewrite lookup_delete_None. by right.
Qed.

(** ** A new space *)

(** What [build] starts from: no address is taken, no view and no window exists, and
    the sources are sound. *)
Record blank (s : Nest) : Prop := {
  bl_slots : slots (occ s) = [];
  bl_windows : windows (occ s) = [];
  bl_counters : next_gen (occ s) = 1 /\ next_ticket (occ s) = 1;
  bl_supply : supply_ok (ns_tables (ns s));
  bl_flat : sound (flat s) (held s)
}.

(** The windows of a space, attached one after the other. *)
Definition windowed (o : Occupancy) : Prop := slots o = [] /\ next_gen o = 1 /\ next_ticket o = 1 /\ Forall (window_ok bit) (windows o).

Lemma windowed_inv o : windowed o -> OInv o.
Proof using.
  intros (E1 & E2 & E3 & Hw). split; [rewrite E1; apply ordered_nil|rewrite E1; intros t Ht; by apply not_elem_of_nil in Ht| |rewrite E3; lia].
  rewrite Forall_forall in Hw. intros w Hin. destruct (Hw w Hin) as (W0 & _ & _ & W3 & _). unfold usize_MAX, usize_bits. lia.
Qed.

Lemma attach_windowed r b l o : windowed o -> window_ok bit (mkWindow r b l) -> exists x o', Occupancy.attach r b l o = Some (x, o') /\ windowed o'.
Proof using.
  intros (E1 & E2 & E3 & Hw) Hnew. unfold Occupancy.attach. munfold. unfold get. destruct (_ || _); [by eexists _, o|].
  destruct (try_reserve_quiet o) as (x & o1 & E & (Q1 & Q2 & Q3 & Q4 & _) & Q5 & Hx). rewrite E. destruct x as [[]|e]; [|exists (Err e), o1; split; [done|]; split_and!; try congruence; by rewrite Q1].
  eexists _, _. split; [reflexivity|]. split_and!; cbn; try congruence. rewrite Q1. apply Forall_app. split; [done|]. by apply Forall_singleton.
Qed.
End system.

Lemma windows_run mode kernel dram o :
  windowed (geometry mode) o -> 0 <= dram.1 -> 0 <= dram.2 -> dram.1 mod 4096 = 0 -> dram.2 mod 4096 = 0 ->
  exists x o', attach_windows (split_bit (geometry mode)) kernel dram o = Some (x, o') /\ windowed (geometry mode) o'.
Proof.
  intros Ho H1 H2 M1 M2. set (bit := split_bit (geometry mode)). assert (Hbit : 38 <= bit <= 56) by by destruct mode.
  assert (Hup : mode_upper bit = 2 ^ bit) by (unfold mode_upper; rewrite Z.shiftl_mul_pow2; lia). assert (Hlow : mode_lower bit = 2 ^ 64 - 2 ^ bit) by (unfold bit; destruct mode; by vm_compute).
  assert (Hp : 2 ^ 38 <= 2 ^ bit <= 2 ^ 56) by (split; apply Z.pow_le_mono_r; lia). assert (Hpm : 2 ^ bit mod 4096 = 0) by (unfold bit; destruct mode; by vm_compute). pose proof (Z.div_mod (2 ^ bit) 4096 ltac:(lia)) as Hpd.
  unfold attach_windows. munfold. destruct (attach_windowed (geometry mode) Normal IMAGE_BASE (mode_upper bit - 1) o Ho) as (x & o1 & E1 & Ho1).
  { rewrite Hup. unfold window_ok, one_half, IMAGE_BASE. cbn [win_base win_last]. fold bit. replace (2 ^ bit - 1 + 1) with (2 ^ bit) by lia. split_and!; try done; lia. }
  rewrite E1. destruct x as [[]|e]; [|by eexists _, o1]. destruct (attach_windowed (geometry mode) Kernel TEAM_FRAME_BASE (TEAM_FRAME_BASE + TEAM_FRAME_WINDOW_SIZE - 1) o1 Ho1) as (x & o2 & E2 & Ho2).
  { unfold window_ok, one_half. cbn [win_base win_last]. change TEAM_FRAME_BASE with 18446744073623568384. change TEAM_FRAME_WINDOW_SIZE with 67108864. fold bit. split_and!; try done. right. lia. }
  rewrite E2. destruct x as [[]|e]; [|by eexists _, o2]. destruct kernel; [|by eexists _, o2]. unfold lift, checked_add. rewrite Hlow. destruct (checked (2 ^ 64 - 2 ^ bit + dram.1)) as [b1|] eqn:C1; [|by eexists _, o2]. cbn [mbind option_bind].
  destruct (checked (b1 + dram.2)) as [b2|] eqn:C2; [|by eexists _, o2]. cbn [ok_or]. apply checked_Some in C1 as [<- C1], C2 as [<- C2].
  destruct (Z.le_gt_cases (2 ^ 64 - 2 ^ bit + dram.1 + dram.2) (TRAP_STACK_BASE - 1)) as [Hle|Hgt].
  - destruct (attach_windowed (geometry mode) Resource (2 ^ 64 - 2 ^ bit + dram.1 + dram.2) (TRAP_STACK_BASE - 1) o2 Ho2) as (x & o3 & E3 & Ho3).
    { unfold window_ok, one_half. cbn [win_base win_last]. fold bit. split; [lia|]. split; [|split; [done|split; [done|right; lia]]].
      rewrite Z.add_mod, (Z.add_mod _ (dram.1)), M1, M2, Zminus_mod, Hpm by lia. done. }
    rewrite E3. destruct x; by eexists _, o3.
  - unfold Occupancy.attach. munfold. unfold get. rewrite (proj2 (Z.ltb_lt _ _)) by lia. cbn. by eexists _, o2.
Qed.

Section built.
Context (mode : Mode).
Let geo := geometry mode.

Lemma build_start kernel k dram new_asid arc s0 :
  blank s0 -> 0 <= dram.1 -> 0 <= dram.2 -> dram.1 mod 4096 = 0 -> dram.2 mod 4096 = 0 ->
  exists x s, build (split_bit geo) kernel k dram new_asid arc s0 = Some (x, s) /\
    match x with Ok _ => SInv geo (mkTenancy s []) /\ able geo s | Err _ => True end.
Proof using.
  intros [B1 B2 [B3 B4] B5 B6] H1 H2 M1 M2. unfold build. munfold. unfold on_tables, TableNode_root. destruct (TableNode_leaf _) as [[r [t tw]]|] eqn:E.
  2: { exfalso. pose proof (leaf_wp (ns_root (ns s0)) (ns_tables (ns s0)) (fun _ _ => True) B5 ltac:(done) ltac:(done)) as Hw. unfold wp in Hw. by rewrite E in Hw. }
  assert (Hw : wp TableNode_leaf (ns_root (ns s0), ns_tables (ns s0)) (fun x st => supply_ok st.2 /\ match x with Ok nd => exists p, page_ok p /\ nd = zero_table p | Err _ => True end)).
  { apply leaf_wp; [done| |]; [intros p w' Hp K; split; [apply K|by exists p]|intros w' K; split; [apply K|done]]. }
  unfold wp in Hw. rewrite E in Hw. destruct Hw as [Hs Hr]. destruct r as [nd|e]; [|by eexists _, _]. destruct Hr as (p & Hp & ->). unfold modify, on_occ. munfold. cbn [occ set_ns set_occ].
  destruct (windows_run mode kernel dram (occ s0)) as (x & o & E2 & Ho); [split_and!; try done; by rewrite B2|done..|]. fold geo in E2. rewrite E2. destruct x as [[]|e]; [|by eexists _, _]. unfold lift.
  destruct (if kernel then _ else _) as [a|e]; [|by eexists _, _]. destruct arc; [|by eexists _, _]. eexists _, _. split; [reflexivity|]. cbn. pose proof Ho as (O1 & O2 & O3 & O4).
  assert (Hz : forall a, translate (levels geo) (zero_table p) (page_no geo a) = None) by (intros; apply zero_translate, page_no_range).
  assert (Hno : forall (v : Z) (w : View), (∅ : gmap Z View) !! v = Some w -> False) by (intros v w Hv; by rewrite lookup_empty in Hv).
  split; [split; cbn [space leases]|].
  - split; cbn; try done; try (by intros v w Hv; destruct (Hno v w)); try (intros v Hv; by apply not_elem_of_nil in Hv).
    + unfold store. cbn. rewrite fmap_empty. apply space0_inv.
    + unfold geo. destruct mode; by apply zero_wf.
    + by eapply windowed_inv.
  - split; cbn; [by intros v w x Hv; destruct (Hno v w)|constructor|rewrite O1; constructor|by intros v w sl Hv; destruct (Hno v w)|]. intros v [w Hv]. by destruct (Hno v w).
  - done.
  - intros r Hr. by apply not_elem_of_nil in Hr.
  - constructor.
  - split; cbn; [unfold geo; destruct mode; by intros i c|]. rewrite O1. unfold ticket_bound. rewrite O3. cbn. lia.
Qed.
End built.

(** ** All operations *)

Inductive op :=
| OpReserve (p : Placement)
| OpSplit (r : Reservation) (left_size : Z)
| OpRelease (r : Reservation)
| OpAttach (r : Reservation) (source : FlatRange) (ceiling current : Z)
| OpPublish (sel : ViewRange)
| OpMaterialize (sel : ViewRange)
| OpSetAccess (sel : ViewRange) (access : Z)
| OpNarrow (sel : ViewRange) (ceiling : Z)
| OpDetach (sel : ViewRange)
| OpDispose (v : Z)
| OpRetry
| OpClose
| OpRetire
| OpUnpublish (v address expected : Z)
| OpDrop (v : Z)
| OpTranslate (a : Z)
| OpCopyFrom (start size need : Z)
| OpCopyTo (start : Z) (src : list Z) (need : Z)
| OpFault (a : Z) (k : FaultKind).

Section run.
Context (geo : Geo) (Hgeo : geo_ok geo).
Let bit := split_bit geo.
Let n := levels geo.

(** The view and the window an operation names. *)
Definition selected (c : Tenancy) (sel : ViewRange) : Prop := exists w, nest_views (space c) !! sel_view sel = Some w /\ sel_ok w sel.

Definition enabled (o : op) (c : Tenancy) : Prop :=
  match o with
  | OpReserve p => placement_ok bit p
  | OpSplit r left_size => r ∈ leases c /\ 0 <= left_size
  | OpRelease r => r ∈ leases c
  | OpAttach r source _ current => r ∈ leases c /\ wf_range (flat (space c)) source /\ 0 <= current < 8
  | OpPublish sel | OpMaterialize sel | OpNarrow sel _ | OpDetach sel => selected c sel
  | OpSetAccess sel access => selected c sel /\ 0 <= access < 8
  | OpDispose v => is_Some (nest_views (space c) !! v)
  | OpUnpublish v address expected => exists w j, nest_views (space c) !! v = Some w /\ address = page_addr w j /\ 0 <= j < view_pages w /\
      res_nest (v_res w) = self (space c) /\ forall f, frame_of (v_published w) j = Some f -> f = expected
  | OpTranslate a => 0 <= a
  | OpCopyFrom start size need => 0 <= start /\ 0 <= size /\ 0 <= need < 8
  | OpCopyTo start _ need => 0 <= start /\ 0 <= need < 8
  | OpFault a _ => 0 <= a < 2 ^ 64
  | OpRetry | OpClose | OpRetire | OpDrop _ => True
  end.

(** [m] runs; the caller then holds what [f] or, on an error, [g] says. *)
Definition run {A} (m : NM A) (f : A -> list Reservation) (g : list Reservation) (c : Tenancy) : option (result NestError unit * Tenancy) :=
  match m (space c) with
  | None => None
  | Some (Ok a, s) => Some (Ok tt, mkTenancy s (f a))
  | Some (Err e, s) => Some (Err e, mkTenancy s g)
  end.

Definition keep {A} (m : NM A) (c : Tenancy) := run m (fun _ => leases c) (leases c) c.

Definition exec (o : op) (c : Tenancy) : option (result NestError unit * Tenancy) :=
  match o with
  | OpReserve p => run (nest_reserve geo p) (fun r => r :: leases c) (leases c) c
  | OpSplit r left_size => run (split_reservation geo r left_size) (fun x => x.1 :: x.2 :: without r (leases c)) (without r (leases c)) c
  | OpRelease r => run (release_reserved r) (fun _ => without r (leases c)) (without r (leases c)) c
  | OpAttach r source ceiling current => run (attach_view geo r source ceiling current) (fun _ => without r (leases c)) (without r (leases c)) c
  | OpPublish sel => keep (publish geo sel) c
  | OpMaterialize sel => keep (materialize_active geo sel) c
  | OpSetAccess sel access => keep (set_access geo sel access) c
  | OpNarrow sel ceiling => keep (narrow geo sel ceiling) c
  | OpDetach sel => keep (detach_view geo sel) c
  | OpDispose v => keep (dispose geo v) c
  | OpRetry => keep (retry_invalidation geo) c
  | OpClose => keep (close geo) c
  | OpRetire => keep (retire_space geo) c
  | OpUnpublish v address expected => keep (unpublish_page geo v address expected) c
  | OpDrop v => keep (drop_view v) c
  | OpTranslate a => keep (translate_address geo a) c
  | OpCopyFrom start size need => keep (copy_from geo start size need) c
  | OpCopyTo start src need => keep (copy_to geo start src need) c
  | OpFault a k => keep (resolve_fault geo a k) c
  end.

(** The invariant stays; the step panics, or leaves empty tables behind, only as
    [works] says. *)
Definition goes (c : Tenancy) (o : option (result NestError unit * Tenancy)) : Prop :=
  match o with
  | None => ~ able geo (space c)
  | Some (x, c') => SInv geo c' /\ (able geo (space c) -> x <> Err NOutOfMemory \/ is_closed (space c') = true -> full n (ns_root (ns (space c'))))
  end.

Lemma run_goes {A} (m : NM A) f g c :
  works geo m (space c) (fun x s' => SInv geo (mkTenancy s' match x with Ok a => f a | Err _ => g end)) -> goes c (run m f g c).
Proof using.
  unfold works, gp, goes, run. destruct (m (space c)) as [[[a|e] s']|]; [| |done]; intros [H1 H2]; (split; [done|]); intros Ha Hr; apply H1; try done; destruct Hr as [Hr|Hr]; (by right) || (left; congruence).
Qed.

Lemma less_goes {A} (m : NM A) c : SInv geo c -> tend geo m (space c) (fun _ s' => lessened geo (space c) s') -> goes c (keep m c).
Proof using. intros HI H. apply run_goes. eapply gp_mono; [by apply (less_step geo m c HI)|]. intros x s' [H1 H2]. split; [done|]. by destruct x. Qed.

Lemma works_mono {A} (m : NM A) s (Q Q' : result NestError A -> Nest -> Prop) : works geo m s Q -> (forall x s', Q x s' -> Q' x s') -> works geo m s Q'.
Proof using. intros H HQ. eapply gp_mono; [exact H|]. intros x s' [H1 H2]. split; [done|]. by apply HQ. Qed.

Lemma tend_less {A} (m : NM A) s Q : NInv geo None s -> owns s -> tend geo m s Q -> (forall x s', Q x s' -> exists s1, passed geo s s1 /\ exists l, s' = set_mem l s1) -> tend geo m s (fun _ s' => lessened geo s s').
Proof using.
  intros HN HO H HQ. eapply tend_mono; [exact H|]. intros x s' Hx. destruct (HQ x s' Hx) as (s1 & P & l & ->). eapply lessened_trans; [by apply lessened_passed|]. pose proof (pa_inv _ _ _ P) as HN1. apply lessened_table; try done; [apply (NInv_calm geo None s1); try done; apply HN1|by eapply owns_passed|by apply fewer_same|by intros v w ?; exists w].
Qed.

Lemma set_mem_same s : s = set_mem (mem s) s.
Proof using. by destruct s. Qed.

Theorem exec_goes o c : SInv geo c -> enabled o c -> goes c (exec o c).
Proof using Hgeo.
  intros HI Hen. pose proof HI as [HN HO _ _ _]. destruct o; cbn [exec enabled] in *.
  - apply run_goes. eapply works_mono; [by apply reserve_step|]. intros [r|e] s' H; apply H.
  - destruct Hen as [H1 H2]. apply run_goes. eapply works_mono; [by apply split_step|]. intros [[a b]|e] s' H; [apply H|done].
  - apply run_goes. eapply works_mono; [by apply release_step|]. by intros [r'|e] s' H.
  - destruct Hen as (H1 & H2 & H3). apply run_goes, tend_works. eapply tend_mono; [by apply attach_step|]. by intros [v|e] s' [H _].
  - destruct Hen as (w & H1 & H2). apply less_goes; [done|]. by eapply publish_less.
  - destruct Hen as (w & H1 & H2). apply less_goes; [done|]. by eapply materialize_less.
  - destruct Hen as ((w & H1 & H2) & H3). apply less_goes; [done|]. by eapply set_access_less.
  - destruct Hen as (w & H1 & H2). apply less_goes; [done|]. by eapply narrow_less.
  - destruct Hen as (w & H1 & H2). apply less_goes; [done|]. by eapply detach_less.
  - destruct Hen as [w Hw]. apply less_goes; [done|]. by eapply dispose_tend.
  - apply less_goes; [done|]. by apply retry_tend.
  - apply less_goes; [done|]. by apply close_less.
  - apply less_goes; [done|]. by apply retire_space_tend.
  - destruct Hen as (w & j & H1 & -> & H2 & H3 & H4). apply less_goes; [done|]. by eapply unpublish_less.
  - apply run_goes. eapply works_mono; [by apply drop_step|]. by intros [r'|e] s' [H _].
  - apply less_goes; [done|]. eapply tend_less; [done|done|by apply translate_tend|]. intros x s' [P _]. exists s'. split; [done|]. eexists. apply set_mem_same.
  - destruct Hen as (H1 & H2 & H3). apply less_goes; [done|]. eapply tend_less; [done|done|by apply copy_from_tend|]. intros x s' [P _]. exists s'. split; [done|]. eexists. apply set_mem_same.
  - destruct Hen as (H1 & H3). apply less_goes; [done|]. eapply tend_less; [done|done|by apply copy_to_tend|]. intros x s' ([] & s1 & _ & P & Hx); [destruct Hx as (l & _ & _ & ->)|destruct Hx as [-> _]]; exists s1; (split; [done|]); eexists; [done|apply set_mem_same].
  - apply less_goes; [done|]. eapply tend_mono; [by apply resolve_tend|]. by intros x s' [L _].
Qed.
End run.
