(* ===== verification/NestTheorems.v ===== *)
(** * Address spaces: the theorems

    Everything that can happen to a space after [Nest::build]: any sequence of the
    operations of [NestSystem], and others at work on the sources in between. *)

From stdpp Require Import sorting.
From S2P Require Import Prelude.
From S2P Require Import Table.
From S2P Require Import Flat.
From S2P Require Import FlatInv.
From S2P Require Import FlatSystem.
From S2P Require Import Spans.
From S2P Require Import Occupancy.
From S2P Require Import OccupancyInv.
From S2P Require Import OccupancySystem.
From S2P Require Import OccupancyTheorems.
From S2P Require Import Active.
From S2P Require Import ActiveInv.
From S2P Require Import Index.
From S2P Require Import IndexInv.
From S2P Require Import IndexSystem.
From S2P Require Import Paging.
From S2P Require Import PagingInv.
From S2P Require Import PagingStep.
From S2P Require Import PagingUnmap.
From S2P Require Import PagingMap.
From S2P Require Import PagingRuns.
From S2P Require Import View.
From S2P Require Import ViewInv.
From S2P Require Import Nest.
From S2P Require Import NestFlat.
From S2P Require Import NestInv.
From S2P Require Import NestSteps.
From S2P Require Import NestCommit.
From S2P Require Import NestPublish.
From S2P Require Import NestRights.
From S2P Require Import NestWithdraw.
From S2P Require Import NestDetach.
From S2P Require Import NestRead.
From S2P Require Import NestSystem.

Open Scope Z_scope.

Section space.
Context (mode : Mode).
#[local] Abbreviation geo := (geometry mode).
#[local] Abbreviation bit := (split_bit (geometry mode)).
#[local] Abbreviation n := (levels (geometry mode)).
#[local] Abbreviation Hgeo := (geometry_ok mode).

(** The states of a space.  With [fit] the operations so far had tickets to spend and
    none reported that memory is exhausted, unless it closed the space. *)
Inductive reach (fit : bool) : Tenancy -> Prop :=
| reach_build kernel k dram new_asid arc s0 s :
    blank s0 -> 0 <= dram.1 -> 0 <= dram.2 -> dram.1 mod 4096 = 0 -> dram.2 mod 4096 = 0 ->
    build bit kernel k dram new_asid arc s0 = Some (Ok tt, s) -> reach fit (mkTenancy s [])
| reach_flat c w :
    reach fit c -> tended (flat (space c)) w -> sound w (held (space c)) ->
    reach fit (mkTenancy (set_flat w (held (space c)) (space c)) (leases c))
| reach_step c o x c' :
    reach fit c -> enabled geo o c -> exec geo o c = Some (x, c') ->
    (fit = true -> spare_tickets (occ (space c)) /\ (x <> Err NOutOfMemory \/ is_closed (space c') = true)) -> reach fit c'.

Lemma SInv_flat c w : SInv geo c -> tended (flat (space c)) w -> sound w (held (space c)) ->
  SInv geo (mkTenancy (set_flat w (held (space c)) (space c)) (leases c)).
Proof.
  intros [I1 [O1 O2 O3 O4 O5] I3 I4 I5] Ht Hs. split; cbn [space leases]; [|by split|done| |done].
  - apply (NInv_calm geo None (space c)); [done| |apply I1|done|apply I1]. split; try done.
  - intros r Hr. destruct (I4 r Hr) as [R1 R2 R3 R4 R5]. by split.
Qed.

Lemma space_reach_inv fit c : reach fit c -> SInv geo c /\ (fit = true -> full n (ns_root (ns (space c)))).
Proof.
  induction 1 as [kernel k dram new_asid arc s0 s Hb H1 H2 M1 M2 E|c w _ [IH1 IH2] Ht Hs|c o x c' _ [IH1 IH2] Hen E Hfit].
  - destruct (build_start mode kernel k dram new_asid arc s0 Hb H1 H2 M1 M2) as (x & s' & E' & Hx). rewrite E in E'. injection E' as <- <-. destruct Hx as [HI Ha]. split; [done|]. intros _. apply Ha.
  - split; [by apply SInv_flat|done].
  - pose proof (exec_goes geo Hgeo o c IH1 Hen) as Hg. unfold goes in Hg. rewrite E in Hg. destruct Hg as [HI Hf]. split; [done|]. intros Ht. destruct (Hfit Ht) as [Hs Hx]. apply Hf; [|done]. by split; [apply IH2|].
Qed.

(** A page has the translation that its view wants for it, and no other. *)
Lemma space_maps s a :
  NInv geo None s -> canonical bit a -> a mod 4096 = 0 ->
  (forall v w, nest_views s !! v = Some w -> active_in w a -> translate n (ns_root (ns s)) (page_no geo a) = view_says s w a) /\
  ((forall v w, nest_views s !! v = Some w -> ~ active_in w a) -> translate n (ns_root (ns s)) (page_no geo a) = None).
Proof.
  intros HN Hc Ha. pose proof (ni_index _ _ _ HN) as HI. pose proof (ni_maps _ _ _ HN a Hc Ha) as Hm. rewrite Hm. split.
  - intros v w Hw Hact. by apply (wants_in geo s a v w HI (indexed_live geo s v w HN Hw (active_nonempty w a Hact)) Hw Hact).
  - intros Hno. apply (wants_out geo s a HI). intros v w _. apply Hno.
Qed.

(** C15: the page tables and the views of a space always agree.  After any operations,
    the ones that fail or run out of memory half way included, every page translates
    to what the view says that has its address: the frame the view shows there, with
    the rights of the range and the attributes of the view, or to nothing where the
    view shows none.  A page that no view has active translates to nothing. *)
Theorem space_translates fit c a :
  reach fit c -> canonical bit a -> a mod 4096 = 0 -> let s := space c in
  (forall v w, nest_views s !! v = Some w -> active_in w a -> translate n (ns_root (ns s)) (page_no geo a) = view_says s w a) /\
  ((forall v w, nest_views s !! v = Some w -> ~ active_in w a) -> translate n (ns_root (ns s)) (page_no geo a) = None).
Proof. intros Hr Hc Ha s. apply space_maps; [|done|done]. apply (space_reach_inv _ _ Hr). Qed.

Lemma lease_owner c r x : SInv geo c -> r ∈ leases c -> res_start r <= x <= res_last r -> owner (slots (occ (space c))) x = Some (tag (slot_of r)).
Proof. intros [I1 I2 I3 I4 I5] Hr Hx. apply owner_intro; [apply I1|by apply I4|done]. Qed.

(** C16: addresses have one user.  In every state of a space two views are never active
    at one address, no view is active inside a reservation that a caller still holds,
    and the reservations of the callers do not meet. *)
Theorem space_apart fit c x :
  reach fit c -> let s := space c in
  (forall v w v' w', nest_views s !! v = Some w -> nest_views s !! v' = Some w' -> active_in w x -> active_in w' x -> v = v') /\
  (forall r v w, r ∈ leases c -> res_start r <= x <= res_last r -> nest_views s !! v = Some w -> ~ active_in w x) /\
  (forall r r', r ∈ leases c -> r' ∈ leases c -> res_start r <= x <= res_last r -> res_start r' <= x <= res_last r' -> r = r').
Proof.
  intros [HI _]%space_reach_inv s. pose proof HI as [I1 I2 I3 I4 I5]. fold s in I1, I2, I4. split; [|split].
  - intros v w v' w' Hv Hv' Ha Ha'. destruct (ow_live _ I2 v w x Hv Ha) as [r1 E1]. destruct (ow_live _ I2 v' w' x Hv' Ha') as [r2 E2]. congruence.
  - intros r v w Hr Hx Hv Ha. destruct (ow_live _ I2 v w x Hv Ha) as [r1 E1]. pose proof (lease_owner c r x HI Hr Hx) as E2. fold s in E2. rewrite E1 in E2. injection E2 as -> _. pose proof (rv_view _ _ _ (I4 r Hr)). congruence.
  - intros r r' Hr Hr' Hx Hx'. pose proof (lease_owner c r x HI Hr Hx) as E1. pose proof (lease_owner c r' x HI Hr' Hx') as E2. rewrite E1 in E2. injection E2 as Eg _.
    apply list_elem_of_lookup in Hr as [i Hi]. apply list_elem_of_lookup in Hr' as [j Hj]. assert (i = j) as <- by (eapply NoDup_lookup; [exact I5|by rewrite list_lookup_fmap, Hi|by rewrite list_lookup_fmap, Hj; cbn; f_equal]). congruence.
Qed.

(** C17: the operations of a space do not panic.  As long as no operation has reported
    that memory is exhausted and there are tickets for every live address, each
    operation with arguments from its callers returns: no index, no [expect], no
    arithmetic and no assertion of the code fails, whatever the order of operations,
    the answers of the allocators and the failures of shootdowns. *)
Theorem space_no_panic c o : reach true c -> enabled geo o c -> spare_tickets (occ (space c)) -> exec geo o c <> None.
Proof.
  intros [HI Hf]%space_reach_inv Hen Hs E. pose proof (exec_goes geo Hgeo o c HI Hen) as Hg. unfold goes in Hg. rewrite E in Hg. apply Hg. by split; [apply Hf|].
Qed.

(** ** What the operations do to translations *)

(** The translation of the page at [a]. *)
Definition maps (s : Nest) (a : Z) : option (Z * Z) := translate n (ns_root (ns s)) (page_no geo a).

(** What a step says of its result, when it has one. *)
Lemma tend_out {A} (m : NM A) s Q x s' : tend geo m s Q -> m s = Some (x, s') -> Q x s'.
Proof. unfold tend, gp. intros H E. rewrite E in H. apply H. Qed.

(** One view has changed; where it is not active the translations stay. *)
Lemma maps_same s s' v w' a :
  NInv geo None s -> NInv geo None s' -> nest_views s' = <[v := w']> (nest_views s) -> tended (flat s) (flat s') -> canonical bit a -> a mod 4096 = 0 ->
  (forall w, nest_views s !! v = Some w -> ~ active_in w a) -> ~ active_in w' a -> maps s' a = maps s a.
Proof.
  intros HN HN' Ev Ht Hc Ha Hold Hnew. destruct (space_maps s a HN Hc Ha) as [M1 M2]. destruct (space_maps s' a HN' Hc Ha) as [M1' M2'].
  destruct (wants_cases geo s a (ni_index _ _ _ HN)) as [(u & wu & _ & Hu & Hact & _)|(Hno & _)].
  - assert (u <> v) by (intros ->; by apply (Hold wu)). unfold maps. rewrite (M1 u wu Hu Hact), (M1' u wu); [|by rewrite Ev, lookup_insert_ne|done]. apply says_tended; [done|]. by apply (ni_views _ _ _ HN u wu).
  - assert (Hn : forall u wu, nest_views s !! u = Some wu -> ~ active_in wu a).
    { intros u wu Hu Hact. apply (Hno u wu); [|done|done]. by eapply indexed_live, active_nonempty. }
    unfold maps. rewrite M2, M2'; [done| |done]. intros u wu. rewrite Ev, lookup_insert_Some. intros [[<- <-]|[_ Hu]]; [done|by eapply Hn].
Qed.

(** Where the view is active, they are what it says. *)
Lemma maps_new s s' v w' a :
  NInv geo None s' -> nest_views s' = <[v := w']> (nest_views s) -> canonical bit a -> a mod 4096 = 0 -> active_in w' a -> maps s' a = view_says s' w' a.
Proof. intros HN' Ev Hc Ha Hact. apply (proj1 (space_maps s' a HN' Hc Ha) v w'); [|done]. by rewrite Ev, lookup_insert_eq. Qed.

(** Nothing has changed for the translations. *)
Lemma maps_still s s' a : NInv geo None s -> NInv geo None s' -> nest_views s' = nest_views s -> tended (flat s) (flat s') -> canonical bit a -> a mod 4096 = 0 -> maps s' a = maps s a.
Proof.
  intros HN HN' Ev Ht Hc Ha. destruct (space_maps s a HN Hc Ha) as [M1 M2]. destruct (space_maps s' a HN' Hc Ha) as [M1' M2']. unfold maps.
  destruct (wants_cases geo s a (ni_index _ _ _ HN)) as [(u & wu & _ & Hu & Hact & _)|(Hno & _)].
  - rewrite (M1 u wu Hu Hact), (M1' u wu); [|by rewrite Ev|done]. apply says_tended; [done|]. by apply (ni_views _ _ _ HN u wu).
  - assert (Hn : forall u wu, nest_views s !! u = Some wu -> ~ active_in wu a).
    { intros u wu Hu Hact. apply (Hno u wu); [|done|done]. by eapply indexed_live, active_nonempty. }
    rewrite M2, M2'; [done| |done]. intros u wu. rewrite Ev. apply Hn.
Qed.

(** ** Attaching *)

(** The frame that the range [src] of a source has for its page [i]. *)
Definition source_frame (fw : Flat.World) (src : FlatRange) (i : Z) : option Z :=
  match geom fw (range_flat src) with
  | Some (_, Some r) => Some (region_start r + (range_index src + i) * 4096)
  | Some (_, None) => match slot_at fw (range_flat src) (range_index src + i) with Some (Resident f) => Some f | _ => None end
  | None => None
  end.

(** Pages of the reservation show the frames of the source, all others are as before. *)
Definition attached (s s' : Nest) (r : Reservation) (src : FlatRange) (current : Z) : Prop :=
  exists w, nest_views s' = <[res_gen r := w]> (nest_views s) /\ v_res w = r /\ v_source w = src /\ v_attrs w = attrs (res_region r) (kind s) /\
  forall a, canonical bit a -> a mod 4096 = 0 -> maps s' a =
    if decide (res_start r <= a <= res_last r)
    then (fun f => (f / 4096, leaf_flags w current)) <$> source_frame (flat s) src ((a - res_start r) / 4096)
    else maps s a.

Lemma attach_done_maps c s' r src ceiling current :
  SInv geo c -> r ∈ leases c -> wf_range (flat (space c)) src -> attach_done geo (space c) s' (res_gen r) (whole_view (space c) r src ceiling current) -> attached (space c) s' r src current.
Proof.
  intros [I1 I2 I3 I4 I5] Hr Hs [D1 (l & D2 & D3) D4 D5 D6 D7]. set (s := space c) in *. set (w := whole_view s r src ceiling current) in *. pose proof (I4 r Hr) as R.
  exists (set_published l w). split; [done|]. split; [done|]. split; [done|]. split; [done|]. intros a Hc Ha. pose proof (whole_active geo s r src ceiling current a (rv_made _ _ _ R)) as Hact. fold w in Hact. case_decide as Hin.
  - rewrite (maps_new s s' (res_gen r) (set_published l w) a D1 D2 Hc Ha) by by apply Hact. unfold view_says. change (initial_start (set_published l w)) with (res_start r). set (i := (a - res_start r) / 4096).
    assert (Ecur : current_at (v_active (set_published l w)) a = Some current).
    { unfold current_at, range_at. cbn [v_active set_published w whole_view new_view List.find]. destruct (proj2 Hact Hin) as [y Hy]. unfold current_at, range_at in Hy. cbn [v_active w whole_view new_view List.find] in Hy. by destruct (a_contains _ _). }
    assert (Hview : view_ok geo (set_published l w)) by (apply (ni_views _ _ _ D1 (res_gen r)); by rewrite D2, lookup_insert_eq).
    assert (Hi : 0 <= i < view_pages w /\ a = page_addr w i).
    { pose proof (active_bounds geo _ Hview a ltac:(by eexists)) as Hb. destruct (window_page geo _ Hview a Ha Hb) as [E1 E2]. done. }
    destruct Hi as [Hi Ei]. rewrite Ecur. destruct (geom_range (flat s) src Hs) as (cnt & o & Eg & _). pose proof (te_geom _ _ D7 _ _ Eg) as Eg'.
    assert (Ef : frame_at s' (set_published l w) i = source_frame (flat s) src i); [|rewrite Ef; by destruct (source_frame _ _ _)].
    unfold frame_at, region_of, source_frame. cbn [v_source set_published w whole_view new_view v_published]. rewrite Eg, Eg'. cbn. destruct o as [g|]; [done|].
    assert (Hreg : region_of s w = None) by (unfold region_of; cbn [v_source w whole_view new_view]; rewrite Eg; done). specialize (D3 i). apply option_eq. intros f. rewrite (D3 f Hreg). cbn [v_source w whole_view new_view]. split.
    + intros (-> & _). done.
    + intros Hf. destruct (slot_at _ _ _) as [[f0| | |]|]; try done. injection Hf as ->. split; [done|]. split; [done|]. rewrite <- Ei. by apply Hact.
  - apply (maps_same s s' (res_gen r) (set_published l w)); try done; [|by intros ?%Hact]. intros w0. by rewrite (rv_view _ _ _ R).
Qed.

(** C19: attaching maps what it should and nothing else.  When [attach] answers with a
    view, the pages of the reservation translate to the frames that the source has for
    them, with the rights asked for, a page without a frame to nothing, every other
    page translates as before, and no other hart has a stale translation.  When it
    fails, either no translation and no view has changed, or only the shootdown has
    failed and the view is in place. *)
Theorem attach_exact fit c r src ceiling current x s' :
  reach fit c -> r ∈ leases c -> wf_range (flat (space c)) src -> 0 <= current < 8 -> attach_view geo r src ceiling current (space c) = Some (x, s') ->
  match x with
  | Ok v => v = res_gen r /\ attached (space c) s' r src current /\ ns_invalidation (ns s') = Clean
  | Err e => nest_views s' = nest_views (space c) /\ (forall a, canonical bit a -> a mod 4096 = 0 -> maps s' a = maps (space c) a) \/
      e = Shootdown /\ attached (space c) s' r src current
  end.
Proof.
  intros [HI _]%space_reach_inv Hr Hs Hcur E. pose proof (tend_out _ _ _ _ _ (attach_step geo Hgeo c r src ceiling current HI Hr Hs Hcur) E) as [HI' Hx]. destruct x as [v|e].
  - destruct Hx as (-> & D & Hcl). split; [done|]. split; [by eapply attach_done_maps|done].
  - destruct Hx as [[Hv Hfl]|[-> D]]; [left|right; split; [done|by eapply attach_done_maps]]. split; [done|]. intros a Hc Ha. pose proof HI as [I1 _ _ _ _]. pose proof HI' as [I1' _ _ _ _]. cbn in I1'.
    by apply maps_still.
Qed.

(** ** Materializing *)

Lemma page_here s v w j : NInv geo None s -> nest_views s !! v = Some w -> active_in w (page_addr w j) ->
  0 <= j < view_pages w /\ canonical bit (page_addr w j) /\ page_addr w j mod 4096 = 0.
Proof.
  intros HN Hw Ha. pose proof (kn_ok _ _ _ _ (ni_views _ _ _ HN v w Hw)) as Kw. pose proof (active_bounds geo w Kw _ Ha) as Hb.
  assert (Hj : 0 <= j < view_pages w) by (unfold page_addr in Hb; lia). destruct (page_addr_ok geo Hgeo w Kw j Hj). done.
Qed.

(** C21: materializing gives every page of the window a frame.  Whatever its outcome, a
    page that was mapped stays mapped to its frame with its rights; when
    [materialize_active] succeeds, every active page of the window is mapped, to the
    frame that the view shows for it and with the rights of its range. *)
Theorem materialize_shows fit c sel w x s' :
  reach fit c -> nest_views (space c) !! sel_view sel = Some w -> sel_ok w sel -> materialize_active geo sel (space c) = Some (x, s') ->
  (forall a y, canonical bit a -> a mod 4096 = 0 -> maps (space c) a = Some y -> maps s' a = Some y) /\
  (x = Ok tt -> forall j, (sel_pages w sel).1 <= j < (sel_pages w sel).1 + (sel_pages w sel).2 -> active_in w (page_addr w j) ->
    exists w' f cur, nest_views s' !! sel_view sel = Some w' /\ frame_at s' w' j = Some f /\ current_at (v_active w) (page_addr w j) = Some cur /\
      maps s' (page_addr w j) = Some (f / 4096, leaf_flags w cur)).
Proof.
  intros [HI _]%space_reach_inv Hw Hs E. pose proof HI as [HN HO _ _ _]. destruct (tend_out _ _ _ _ _ (materialize_active_tend geo Hgeo (space c) sel w HN Hw Hs) E) as [G Hx]. pose proof G as [G1 (l & G2 & G3) G4 G5 G6].
  set (s := space c) in *. set (v := sel_view sel) in *. pose proof (ni_views _ _ _ HN v w Hw) as Kn. split.
  - intros a y Hc Ha Hm. destruct (decide (active_in w a)) as [Hact|Hno].
    + rewrite (maps_new s s' v (set_published l w) a G1 G2 Hc Ha Hact). unfold maps in Hm. rewrite (proj1 (space_maps s a HN Hc Ha) v w Hw Hact) in Hm. revert Hm. unfold view_says. change (initial_start (set_published l w)) with (initial_start w).
      change (v_active (set_published l w)) with (v_active w). assert (Hf : forall k f, frame_at s w k = Some f -> frame_at s' (set_published l w) k = Some f).
      { intros k f. unfold frame_at. rewrite (region_tended s s' (set_published l w) G6 (kn_source _ _ _ _ Kn)). change (region_of s (set_published l w)) with (region_of s w). destruct (region_of s w); [done|]. apply G3. }
      destruct (frame_at s w _) as [f|] eqn:Ef; [|done]. by rewrite (Hf _ _ Ef).
    + rewrite (maps_same s s' v (set_published l w) a HN G1 G2 G6 Hc Ha); [done| |done]. intros w0 Hw0. by assert (w0 = w) as -> by congruence.
  - intros -> j Hj Hact. destruct (page_here s v w j HN Hw Hact) as (Hjv & Hc & Ha). destruct (Hx j Hj Hact) as (w' & Hw' & f & Hf). rewrite G2, lookup_insert_eq in Hw'. injection Hw' as <-.
    destruct Hact as [cur Hcur]. exists (set_published l w), f, cur. split; [by rewrite G2, lookup_insert_eq|]. split; [done|]. split; [done|].
    rewrite (maps_new s s' v (set_published l w) _ G1 G2 Hc Ha) by by eexists. unfold view_says. change (initial_start (set_published l w)) with (initial_start w). rewrite page_addr_back. cbn [v_active set_published]. by rewrite Hf, Hcur.
Qed.

(** ** Rights *)

(** The window has the new rights, every other page translates as before. *)
Definition regranted_maps (s s' : Nest) (w : View) (lo hi access : Z) : Prop :=
  forall a, canonical bit a -> a mod 4096 = 0 -> maps s' a =
    if decide (lo <= a <= hi /\ active_in w a) then (fun y => (y.1, leaf_flags w access)) <$> maps s a else maps s a.

Lemma access_set_maps s s' v w next lo hi access :
  NInv geo None s -> nest_views s !! v = Some w -> ranged geo s s' v w next -> access_set w next lo hi access -> regranted_maps s s' w lo hi access.
Proof.
  intros HN Hw [R1 R2 R3 R4 R5] Hset a Hc Ha. pose proof (ni_views _ _ _ HN v w Hw) as Kn. assert (Ht : tended (flat s) (flat s')) by by rewrite R5.
  assert (Hcur : current_at next a = (if decide (lo <= a <= hi) then fun _ => access else fun d => d) <$> current_at (v_active w) a).
  { rewrite !current_at_span, (Hset a). destruct (span_at (v_active w) a) as [[d1 d2]|]; [|by case_decide]. cbn. by case_decide. }
  destruct (decide (active_in w a)) as [Hact|Hno].
  - assert (Hact' : active_in (set_active next w) a) by (unfold active_in; cbn [v_active set_active]; rewrite Hcur; destruct Hact as [d ->]; by eexists).
    rewrite (maps_new s s' v _ a R1 R2 Hc Ha Hact'). unfold maps. rewrite (proj1 (space_maps s a HN Hc Ha) v w Hw Hact). destruct Hact as [d Hd]. rewrite Hd in Hcur.
    assert (Efr : forall k, frame_at s' (set_active next w) k = frame_at s w k).
    { intros k. unfold frame_at. rewrite (region_tended s s' (set_active next w) Ht (kn_source _ _ _ _ Kn)). done. }
    unfold view_says. rewrite Efr. change (initial_start (set_active next w)) with (initial_start w). cbn [v_active set_active]. rewrite Hcur, Hd.
    destruct (frame_at s w _) as [f|]; [|by destruct (decide (lo <= a <= hi /\ active_in w a))]. cbn. destruct (decide (lo <= a <= hi)) as [Hin|Hout].
    + rewrite decide_True by (split; [done|by eexists]). done.
    + by rewrite decide_False by tauto.
  - rewrite decide_False by tauto. apply (maps_same s s' v (set_active next w)); try done.
    + intros w0 Hw0. by assert (w0 = w) as -> by congruence.
    + unfold active_in. cbn [v_active set_active]. rewrite Hcur. intros [d Hd]. destruct (current_at (v_active w) a) eqn:Ec; [|done]. apply Hno. by eexists.
Qed.

(** C20: a change of rights is a change of rights only.  When [set_access] succeeds,
    every mapped page of the window keeps its frame and has the new rights, all other
    pages translate as before, and no hart has a stale translation.  When it fails,
    either no translation has changed, or only the shootdown has failed and the new
    rights are in place. *)
Theorem set_access_exact fit c sel w access x s' :
  reach fit c -> nest_views (space c) !! sel_view sel = Some w -> sel_ok w sel -> 0 <= access < 8 -> set_access geo sel access (space c) = Some (x, s') ->
  let changed := regranted_maps (space c) s' w (sel_window w sel).1 (sel_window w sel).2 access in
  match x with
  | Ok _ => changed /\ ns_invalidation (ns s') = Clean
  | Err e => (forall a, canonical bit a -> a mod 4096 = 0 -> maps s' a = maps (space c) a) \/ e = Shootdown /\ changed
  end.
Proof.
  intros [HI _]%space_reach_inv Hw Hs Hacc E changed. pose proof HI as [HN HO _ _ _]. pose proof (tend_out _ _ _ _ _ (set_access_tend geo Hgeo (space c) sel w access HN Hw Hs Hacc) E) as Hx. destruct x as [[]|e].
  - destruct Hx as (Hcl & next & R & Hset). split; [by eapply access_set_maps|done].
  - destruct Hx as [[HN' (U1 & U2 & U3 & U4)]|(-> & next & R & Hset)]; [left; intros a Hc Ha; by apply maps_still|right; split; [done|by eapply access_set_maps]].
Qed.

(** ** Withdrawing *)

(** The pages from [lo] to [hi] translate to nothing, all others as before. *)
Definition unmapped (s s' : Nest) (lo hi : Z) : Prop :=
  forall a, canonical bit a -> a mod 4096 = 0 -> maps s' a = if decide (lo <= a < hi) then None else maps s a.

Lemma shrunk_maps s s' v w i m next pub :
  NInv geo None s -> NInv geo None s' -> nest_views s !! v = Some w -> shrunk geo w i m next pub -> nest_views s' = <[v := shrink next pub w]> (nest_views s) -> tended (flat s) (flat s') ->
  (forall u wu x, nest_views s !! u = Some wu -> page_addr w i <= x < page_addr w (i + m) -> active_in wu x -> u = v) ->
  unmapped s s' (page_addr w i) (page_addr w (i + m)).
Proof.
  intros HN HN' Hw Hsk Ev Ht Halone a Hc Ha. pose proof (ni_views _ _ _ HN v w Hw) as Kn. pose proof (shrink_active geo w i m next pub a Hsk) as Hact. destruct (decide _) as [Hin|Hout].
  - apply (proj2 (space_maps s' a HN' Hc Ha)). intros u wu. rewrite Ev, lookup_insert_Some. intros [[<- <-]|[Hne Hu]]; [intros [_ ?]%Hact; done|]. intros Hau. by apply Hne, eq_sym, (Halone u wu a).
  - destruct (decide (active_in w a)) as [Hwa|Hno].
    + rewrite (maps_new s s' v _ a HN' Ev Hc Ha) by by apply Hact. unfold maps. rewrite (proj1 (space_maps s a HN Hc Ha) v w Hw Hwa). unfold view_says. change (initial_start (shrink next pub w)) with (initial_start w).
      change (v_active (shrink next pub w)) with next. rewrite (shrunk_current geo w i m next pub a Hsk), decide_False by done. f_equal.
      pose proof (active_bounds geo w (kn_ok _ _ _ _ Kn) a Hwa) as Hb. destruct (window_page geo w (kn_ok _ _ _ _ Kn) a Ha Hb) as [Ea Hj]. set (j := (a - initial_start w) / 4096) in *.
      unfold frame_at. rewrite (region_tended s s' (shrink next pub w) Ht (kn_source _ _ _ _ Kn)). change (region_of s (shrink next pub w)) with (region_of s w). destruct (region_of s w); [done|]. cbn [v_published shrink set_active set_published].
      rewrite (sk_frames _ _ _ _ _ _ Hsk). apply decide_False. intros Hji. apply Hout. rewrite Ea. unfold page_addr. lia.
    + apply (maps_same s s' v (shrink next pub w)); try done; [|by intros [? _]%Hact]. intros w0 Hw0. by assert (w0 = w) as -> by congruence.
Qed.

(** C18: addresses and frames are not used again before the other harts have forgotten
    them.  When [withdraw] succeeds, the window is out of the tables and out of the
    view, its addresses are free, those of others are occupied as before, and the
    shootdown is done.  When it fails, either nothing has changed, or only the
    shootdown has failed: then the window is out of the tables, but every address of it
    is still occupied, under a ticket, and every frame that was mapped there is still
    held. *)
Theorem withdraw_waits fit c v w i m x s' :
  reach fit c -> nest_views (space c) !! v = Some w -> 0 <= i -> 0 < m -> i + m <= view_pages w ->
  withdraw geo v (page_addr w i) (m * 4096) (space c) = Some (x, s') -> let s := space c in let lo := page_addr w i in let hi := page_addr w (i + m) in
  match x with
  | Ok _ => unmapped s s' lo hi /\ ns_invalidation (ns s') = Clean /\ (forall y, lo <= y < hi -> owner (slots (occ s')) y = None) /\
      forall y u r, ~ lo <= y < hi -> owner (slots (occ s)) y = Some (0, u, r) -> owner (slots (occ s')) y = Some (0, u, r)
  | Err e =>
      (nest_views s' = nest_views s /\ (forall a, canonical bit a -> a mod 4096 = 0 -> maps s' a = maps s a) /\ forall y, owner (slots (occ s')) y = owner (slots (occ s)) y) \/
      (e = Shootdown /\ unmapped s s' lo hi /\ (forall y, lo <= y < hi -> exists t r, t <> 0 /\ owner (slots (occ s')) y = Some (t, v, r)) /\
        forall j f, i <= j < i + m -> frame_of (v_published w) j = Some f -> f ∈ ns_retired_frames (ns s'))
  end.
Proof.
  intros [HI _]%space_reach_inv Hw Hi Hm Him E s lo hi. pose proof HI as [HN HO _ _ _]. fold s in HN, HO. pose proof (tend_out _ _ _ _ _ (withdraw_tend geo Hgeo s v w i m HN HO Hw Hi Hm Him) E) as Hx. destruct x as [[]|e].
  - destruct Hx as [L Hcl]. destruct (reduced_released geo s s' v w i m HO Hw L) as [[_ HO' _ _ _ _] _]. destruct L as [L1 (next & pub & Hsk & Ev & _) L3 L4 L5 L6 L7 L8]. assert (Hfl : flat s' = flat s) by (unfold away in L8; congruence).
    split; [|split; [done|by split]]. eapply (shrunk_maps s s' v w i m next pub); try done; [by rewrite Hfl|]. intros u wu y Hu Hy Ha. destruct (decide (u = v)) as [|Hne]; [done|]. exfalso.
    destruct (ow_live _ HO' u wu y) as [r Ho]; [by rewrite Ev, lookup_insert_ne|done|]. rewrite L3 in Ho; done.
  - destruct Hx as [[P1 P2 P3 P4 P5]|(-> & Hfw & tks & [W1 (next & pub & Hsk & Ev & _) W3 W4 W5 W6 W7 W8 W9])]; [left|right].
    + destruct (near_rest _ _ P2) as (_ & Et & _). split; [done|]. split; [intros a Hc Ha; apply maps_still; try done; by rewrite P3|]. intros y. unfold table_of in Et. assert (slots (occ s') = slots (occ s)) as -> by congruence. done.
    + assert (Hfl : flat s' = flat s) by (unfold away in W9; congruence). split; [done|]. split; [|split; [|done]].
      * eapply (shrunk_maps s s' v w i m next pub); try done; [by rewrite Hfl|]. intros u wu y Hu Hy Ha. by eapply (owns_alone s v w i m u wu y).
      * intros y Hy. destruct (W5 y Hy) as (t & r & Ht & Ho). exists t, r. split; [|done]. rewrite Forall_forall in W4. by apply W4.
Qed.

(** C22: closing a space takes everything out.  When [close] of an open space succeeds,
    the space is closed, no page translates to anything any more, no view is active or
    shows a page, and the callers' reservations are still theirs. *)
Theorem close_unmaps fit c s' :
  reach fit c -> ns_phase (ns (space c)) = Open -> close geo (space c) = Some (Ok tt, s') ->
  is_closed s' = true /\ (forall a, canonical bit a -> a mod 4096 = 0 -> maps s' a = None) /\
  (forall v w, nest_views s' !! v = Some w -> v_active w = [] /\ v_published w = []) /\
  forall r x, r ∈ leases c -> res_start r <= x <= res_last r -> owner (slots (occ s')) x = Some (0, res_gen r, res_region r).
Proof.
  intros [HI _]%space_reach_inv Ho E. pose proof HI as [HN HO _ _ _]. destruct (tend_out _ _ _ _ _ (close_tend geo Hgeo (space c) HN HO) E) as [L [Hcl Hs]]. specialize (Hs Ho). split; [done|].
  split; [intros a; by apply (shut_unmapped geo (space c) s' a)|]. split; [apply Hs|]. intros r x Hr Hx.
  exact (lease_owner _ r x (SInv_lessened geo c s' HI L) Hr Hx).
Qed.

(** ** Copies and page faults *)

(** The right to touch the byte at [a], as the view that has the address grants it. *)
Lemma grant_view s need a p : NInv geo None s -> grant_at s need a = Some p ->
  exists v w cur f, nest_views s !! v = Some w /\ current_at (v_active w) a = Some cur /\ Access_contains cur need = true /\ is_global w = false /\
    (is_supervisor (kind s) = true \/ contains_flags (v_attrs w) PTE_U = true) /\ frame_at s w ((page_of a - initial_start w) / 4096) = Some f /\ p = f + a mod 4096.
Proof.
  intros HN. unfold grant_at. destruct (Index_find _ _ _) as [v|]; [|done]. cbn. destruct (nest_views s !! v) as [w|] eqn:Hw; [|done]. cbn. destruct (current_at _ _) as [cur|] eqn:Hc; [|done]. cbn.
  destruct (frame_at _ _ _) as [f|] eqn:Hf; [|done]. cbn. destruct (_ && _) eqn:Hb; [|done]. intros [= <-]. apply andb_true_iff in Hb as [[H1 H2%negb_true_iff]%andb_true_iff H3%orb_true_iff]. exists v, w, cur, f. by split_and!.
Qed.

Lemma mapM_elem {A B} (f : A -> option B) l k i : mapM f l = Some k -> forall a, l !! i = Some a -> exists b, k !! i = Some b /\ f a = Some b.
Proof. rewrite mapM_Some. intros H a Hi. by destruct (Forall2_lookup_l _ _ _ _ _ H Hi) as (b & ? & ?); eauto. Qed.

(** C23: a copy into a space stores all bytes or none, and only where the rights allow
    it.  When [copy_to] answers true, byte [i] has gone to the physical byte behind
    address [start + i], each of these addresses being active in a view that is not
    global, that grants the right asked for and, unless the space is the supervisor's,
    is open to user code; nothing else is stored.  When it answers false, memory is as
    before. *)
Theorem copy_to_all_or_nothing fit c start src need x s' :
  reach fit c -> 0 <= start -> 0 <= need < 8 -> copy_to geo start src need (space c) = Some (x, s') -> let s := space c in
  (x = Ok true /\ exists l, mem s' = stored (mem s) l src /\ length l = length src /\
     forall i, (i < length src)%nat -> let a := start + Z.of_nat i in
       exists v w cur f, nest_views s !! v = Some w /\ current_at (v_active w) a = Some cur /\ Access_contains cur need = true /\ is_global w = false /\
         (is_supervisor (kind s) = true \/ contains_flags (v_attrs w) PTE_U = true) /\
         frame_at s w ((page_of a - initial_start w) / 4096) = Some f /\ l !! i = Some (f + a mod 4096)) \/
  (x = Ok false /\ mem s' = mem s).
Proof.
  intros [HI _]%space_reach_inv Hst Hneed E s. pose proof HI as [HN HO _ _ _]. destruct (tend_out _ _ _ _ _ (copy_to_tend geo Hgeo (space c) start src need HN Hst Hneed) E) as (b & s1 & -> & P & Hb).
  destruct b; [left|right; destruct Hb as [-> _]; split; [done|]; pose proof (pa_near _ _ _ P) as En; unfold near in En; fold s in En; congruence]. destruct Hb as (l & _ & Hm & ->). split; [done|]. exists l. split; [done|]. fold s in Hm.
  assert (Hlen : length l = length src) by (apply length_mapM in Hm; rewrite length_seqZ in Hm; unfold len in Hm; lia). split; [done|]. intros i Hi a.
  assert (Hk : seqZ start (len src) !! i = Some a) by (apply lookup_seqZ; unfold len, a; split; [done|lia]). destruct (mapM_elem _ _ _ i Hm a Hk) as (p & Hp & Hg).
  destruct (grant_view s need a p HN Hg) as (v & w & cur & f & H1 & H2 & H3 & H4 & H5 & H6 & ->). by exists v, w, cur, f.
Qed.

(** A page fault that is reported as resolved is resolved.  When [resolve_fault]
    answers [Resolved], the address is active in a view, its page translates with the
    rights of that view, the right that the fault asks for among them, and no hart has
    a stale translation. *)
Theorem fault_resolved fit c a k s' :
  reach fit c -> 0 <= a < 2 ^ 64 -> resolve_fault geo a k (space c) = Some (Ok Resolved, s') ->
  ns_invalidation (ns s') = Clean /\ exists v w cur y, nest_views s' !! v = Some w /\ current_at (v_active w) a = Some cur /\
    maps s' (page_of a) = Some y /\ y.2 = leaf_flags w cur /\ satisfies y.2 k = true.
Proof.
  intros [HI _]%space_reach_inv Ha E. pose proof HI as [HN HO _ _ _]. destruct (tend_out _ _ _ _ _ (resolve_tend geo Hgeo (space c) a k HN HO Ha) E) as [L [Hcl (y & Hy & Hsat)]]. split; [done|].
  pose proof (ls_inv _ _ _ L) as HN'. destruct (find_cases geo Hgeo s' a HN') as [(v & w & r & Hw & Er & _ & Kn & Hp & Ew & _)|[_ Hno]]; [|congruence]. rewrite Hy in Ew.
  assert (Hact : active_in w a) by (unfold active_in, current_at; by rewrite Er). exists v, w, (a_current r), y. split; [done|]. split; [unfold current_at; by rewrite Er|].
  destruct (page_index_active geo s' v w a Kn Hact Hp) as (j & _ & Hj & Ep). apply (active_page geo w a (kn_ok _ _ _ _ Kn)) in Hact. rewrite Ep in Hact. destruct (page_here s' v w j HN' Hw Hact) as (_ & Hc & Hal). rewrite <- Ep in Hc, Hal, Hact.
  unfold maps. rewrite (proj1 (space_maps s' (page_of a) HN' Hc Hal) v w Hw Hact), <- Ew. split; [done|]. split; [|done]. revert Ew. unfold view_says, current_at. rewrite (range_at_page geo w a (kn_ok _ _ _ _ Kn)), Er. destruct (frame_at _ _ _); [|done]. by intros [= ->].
Qed.
End space.

(** ** A space to try the theorems on

    A space of four reserved pages at 65536 in Sv39, with a source of four pages
    attached, of which three are materialized. *)

Definition example_frames : list Frame := [1048576; 1052672; 1056768; 1060864].
Definition example_sources : FlatSystem.Conf :=
  match FlatSystem.exec (FlatSystem.Acquire 4) (FlatSystem.boot example_frames []) with Some c => c | None => FlatSystem.boot [] [] end.
Definition example_tables : Paging.World :=
  Paging.mkWorld (Some <$> [4096; 8192; 12288; 16384; 20480; 24576; 28672; 32768]) (replicate 60 true) 0 [] 0.
Definition example_blank : Nest :=
  mkNest 7 1 User OccupancySystem.boot [] (NestState_new (mkNode 0 [] []) example_tables) false ∅ [] (FlatSystem.world example_sources) [] ∅ [] [].

Definition sv39 : Geo := geometry Sv39.
Definition after (o : op) (c : Tenancy) : Tenancy := match exec sv39 o c with Some (_, c') => c' | None => c end.

Definition built_space : Tenancy :=
  mkTenancy (match build 38 false User (0, 0) (Some 1) true example_blank with Some (_, s) => s | None => example_blank end) [].
Definition example_placement : Placement := mkPlacement Normal 16384 4096 Lowest.
Definition reserved_space : Tenancy := after (OpReserve example_placement) built_space.
Definition example_lease : Reservation := mkRes 7 Normal 65536 16384 1.
Definition example_source : FlatRange := Flat.mkRange 0 0 4.
Definition attached_space : Tenancy := after (OpAttach example_lease example_source 7 3) reserved_space.
Definition shown_space : Tenancy := after (OpMaterialize (Pages 1 0 3)) attached_space.

(** The step succeeds, with tickets left. *)
Definition fits_in (o : op) (c : Tenancy) : bool :=
  (ticket_bound (occ (space c)) + live_bytes (slots (occ (space c))) <=? 2 ^ 64) &&
  match exec sv39 o c with Some (Ok _, _) => true | _ => false end.

Lemma after_reach o c : reach Sv39 true c -> enabled sv39 o c -> fits_in o c = true -> reach Sv39 true (after o c).
Proof.
  intros Hr Hen [Hs%Z.leb_le Hx]%andb_true_iff. unfold after. destruct (exec sv39 o c) as [[x c']|] eqn:E; [|done]. destruct x; [|done].
  eapply reach_step; [exact Hr|exact Hen|exact E|]. intros _. split; [done|by left].
Qed.

Lemma example_sound : sound (FlatSystem.world example_sources) [].
Proof.
  split.
  - exists []. change (FlatSystem.CInv example_sources). apply (FlatSystem.reach_boot example_frames []); [apply (bool_decide_unpack _); by vm_compute|].
    eapply (FlatSystem.reach_step (FlatSystem.Acquire 4)); [apply FlatSystem.reach_refl|]. split; [|reflexivity]. apply (bool_decide_unpack _). by vm_compute.
  - split.
    + intros f Hf. repeat (apply elem_of_cons in Hf as [-> | Hf]; [by split|]). by apply not_elem_of_nil in Hf.
    + intros i p f. assert (Hno : slot_at (FlatSystem.world example_sources) i p = None) by (unfold slot_at, slots_in; destruct i as [|i]; [cbn; apply lookup_empty|done]). unfold holds. rewrite Hno. intros [?|[? ?]]; done.
    + intros i count r. destruct i as [|i]; done.
Qed.

Lemma built_reach fit : reach Sv39 fit built_space.
Proof.
  eapply (reach_build Sv39 fit false User (0, 0) (Some 1) true example_blank); try done.
  split; try done; [|exact example_sound]. repeat (constructor; [by split|]). constructor.
Qed.


Lemma reserved_reach : reach Sv39 true reserved_space.
Proof. apply after_reach; [apply built_reach| |by vm_compute]. split; [by vm_compute|]. split; [done|]. split; [by vm_compute|done]. Qed.

Lemma lease_held : example_lease ∈ leases reserved_space.
Proof. assert (leases reserved_space = [example_lease]) as -> by by vm_compute. by left. Qed.

Lemma source_there : wf_range (flat (space reserved_space)) example_source.
Proof. apply (bool_decide_unpack _). by vm_compute. Qed.

Lemma attached_reach : reach Sv39 true attached_space.
Proof. apply after_reach; [apply reserved_reach| |by vm_compute]. split; [apply lease_held|]. split; [apply source_there|lia]. Qed.

(** The view of the example, before and after its pages are shown. *)
Definition example_view : View := default (mkView example_lease 0 [] example_source []) (nest_views (space attached_space) !! 1).
Definition shown_view : View := default (mkView example_lease 0 [] example_source []) (nest_views (space shown_space) !! 1).

Lemma example_view_there : nest_views (space attached_space) !! 1 = Some example_view.
Proof. by vm_compute. Qed.

Lemma shown_view_there : nest_views (space shown_space) !! 1 = Some shown_view.
Proof. by vm_compute. Qed.

Lemma shown_reach : reach Sv39 true shown_space.
Proof. apply after_reach; [apply attached_reach| |by vm_compute]. exists example_view. split; [apply example_view_there|by vm_compute]. Qed.

Lemma example_canonical a : 0 <= a < 2 ^ 38 -> canonical (split_bit sv39) a.
Proof. intros Ha. split; [lia|left; exact (proj2 Ha)]. Qed.

Lemma space_translates_witness : maps Sv39 (space shown_space) 69632 = Some (257, 215).
Proof.
  unfold maps. rewrite (proj1 (space_translates Sv39 true shown_space 69632 shown_reach (example_canonical 69632 ltac:(lia)) eq_refl) 1 shown_view shown_view_there ltac:(apply (bool_decide_unpack _); by vm_compute)). by vm_compute.
Defined.

(** The same with a second reservation. *)
Definition second_lease : Reservation := mkRes 7 Normal 81920 16384 2.
Definition second_space : Tenancy := after (OpReserve example_placement) shown_space.

Lemma second_reach : reach Sv39 true second_space.
Proof. apply after_reach; [apply shown_reach| |by vm_compute]. split; [by vm_compute|]. split; [done|]. split; [by vm_compute|done]. Qed.

Lemma second_held : second_lease ∈ leases second_space.
Proof. assert (leases second_space = [second_lease]) as -> by by vm_compute. by left. Qed.

Lemma space_apart_witness : ~ active_in shown_view 81920.
Proof.
  apply (proj1 (proj2 (space_apart Sv39 true second_space 81920 second_reach)) second_lease 1); [apply second_held|by vm_compute|by vm_compute].
Defined.

Lemma space_no_panic_witness : exec sv39 (OpDetach (Pages 1 1 1)) shown_space <> None.
Proof.
  apply (space_no_panic Sv39 shown_space); [apply shown_reach|exists shown_view; split; [apply shown_view_there|by vm_compute]|by vm_compute].
Defined.

(** The results of the operations on the example. *)
Definition result_of {A} (m : NM A) (c : Tenancy) (d : A) : result NestError A * Nest := default (Ok d, space c) (m (space c)).

Lemma attach_exact_witness :
  let y := result_of (attach_view sv39 example_lease example_source 7 3) reserved_space 0 in
  y.1 = Ok 1 /\ attached Sv39 (space reserved_space) y.2 example_lease example_source 3 /\ ns_invalidation (ns y.2) = Clean.
Proof.
  intros y. assert (E : y.1 = Ok 1) by by vm_compute. split; [done|].
  assert (Ey : attach_view sv39 example_lease example_source 7 3 (space reserved_space) = Some (Ok 1, y.2)) by by vm_compute.
  clearbody y. exact (proj2 (attach_exact Sv39 true reserved_space example_lease example_source 7 3 (Ok 1) y.2 reserved_reach lease_held source_there ltac:(lia) Ey)).
Defined.

Lemma example_selected : sel_ok example_view (Pages 1 0 3).
Proof. by vm_compute. Qed.

Lemma materialize_shows_witness :
  let y := result_of (materialize_active sv39 (Pages 1 0 3)) attached_space tt in
  exists w' f cur, nest_views y.2 !! 1 = Some w' /\ frame_at y.2 w' 1 = Some f /\ current_at (v_active example_view) (page_addr example_view 1) = Some cur /\
    maps Sv39 y.2 (page_addr example_view 1) = Some (f / 4096, leaf_flags example_view cur).
Proof.
  intros y. assert (Ey : materialize_active sv39 (Pages 1 0 3) (space attached_space) = Some (Ok tt, y.2)) by by vm_compute.
  clearbody y. pose proof (proj2 (materialize_shows Sv39 true attached_space (Pages 1 0 3) example_view (Ok tt) y.2 attached_reach example_view_there example_selected Ey) eq_refl 1) as H.
  cbn [sel_pages sel_view fst snd] in H. apply H; [lia|apply (bool_decide_unpack _); by vm_compute].
Defined.

Lemma shown_selected : sel_ok shown_view (Pages 1 1 1).
Proof. by vm_compute. Qed.

Lemma shown_window : sel_window shown_view (Pages 1 1 1) = (69632, 73727).
Proof. by vm_compute. Qed.

Lemma shown_pages : page_addr shown_view 1 = 69632 /\ page_addr shown_view (1 + 1) = 73728 /\ 1 + 1 <= view_pages shown_view.
Proof. by vm_compute. Qed.

Lemma set_access_exact_witness :
  let y := result_of (set_access sv39 (Pages 1 1 1) 1) shown_space tt in
  regranted_maps Sv39 (space shown_space) y.2 shown_view 69632 73727 1 /\ ns_invalidation (ns y.2) = Clean.
Proof.
  intros y. assert (Ey : set_access sv39 (Pages 1 1 1) 1 (space shown_space) = Some (Ok tt, y.2)) by by vm_compute.
  clearbody y. assert (Ha : 0 <= 1 < 8) by lia.
  pose proof (set_access_exact Sv39 true shown_space (Pages 1 1 1) shown_view 1 (Ok tt) y.2 shown_reach shown_view_there shown_selected Ha Ey) as H. cbn zeta in H. rewrite shown_window in H. exact H.
Defined.

Lemma withdraw_waits_witness :
  let y := result_of (withdraw sv39 1 69632 4096) shown_space tt in
  unmapped Sv39 (space shown_space) y.2 69632 73728 /\ forall x, 69632 <= x < 73728 -> owner (slots (occ y.2)) x = None.
Proof.
  intros y. assert (Ey : withdraw sv39 1 (page_addr shown_view 1) (1 * 4096) (space shown_space) = Some (Ok tt, y.2)) by by vm_compute.
  clearbody y. destruct shown_pages as (E1 & E2 & E3). pose proof (withdraw_waits Sv39 true shown_space 1 shown_view 1 1 (Ok tt) y.2 shown_reach shown_view_there ltac:(lia) ltac:(lia) E3 Ey) as H. cbn zeta in H. rewrite E1, E2 in H. destruct H as (H1 & _ & H2 & _). split; [exact H1|exact H2].
Defined.

Lemma close_unmaps_witness :
  let y := result_of (close sv39) second_space tt in
  is_closed y.2 = true /\ owner (slots (occ y.2)) 81920 = Some (0, 2, Normal).
Proof.
  intros y. assert (Ey : close sv39 (space second_space) = Some (Ok tt, y.2)) by by vm_compute.
  clearbody y. destruct (close_unmaps Sv39 true second_space y.2 second_reach eq_refl Ey) as (H1 & _ & _ & H4). split; [exact H1|]. apply (H4 second_lease 81920 second_held). unfold res_last. cbn [res_start res_size second_lease]. lia.
Defined.

Lemma copy_to_all_or_nothing_witness :
  let y := result_of (copy_to sv39 69630 [1; 2; 3] 1) shown_space false in
  exists l, mem y.2 = stored (mem (space shown_space)) l [1; 2; 3] /\ length l = 3%nat.
Proof.
  intros y. assert (Ey : copy_to sv39 69630 [1; 2; 3] 1 (space shown_space) = Some (Ok true, y.2)) by by vm_compute.
  clearbody y. destruct (copy_to_all_or_nothing Sv39 true shown_space 69630 [1; 2; 3] 1 (Ok true) y.2 shown_reach ltac:(lia) ltac:(lia) Ey) as [(_ & l & H1 & H2 & _)|[H _]]; [|discriminate H]. exists l. split; [exact H1|exact H2].
Defined.

Lemma fault_resolved_witness :
  let y := result_of (resolve_fault sv39 77830 Load) shown_space Invalid in
  ns_invalidation (ns y.2) = Clean.
Proof.
  intros y. assert (Ey : resolve_fault sv39 77830 Load (space shown_space) = Some (Ok Resolved, y.2)) by by vm_compute.
  clearbody y. exact (proj1 (fault_resolved Sv39 true shown_space 77830 Load y.2 shown_reach ltac:(lia) Ey)).
Defined.
