(* ===== verification/Stream.v ===== *)
(** * Byte streams: [crates/stream]

    A ring of bytes shared by one reader and one writer.  Each side owns one
    cursor; the cursors count bytes and never wrap, a byte lives at its count
    modulo the capacity.  The file has the operations as functions of the
    shared memory and, for the two sides running at once, as threads that make
    one access to it at a time. *)

From S2P Require Import Prelude.

Open Scope Z_scope.

Definition DEFAULT_CAPACITY : Z := 16 * 1024.
Definition MAX_CAPACITY : Z := 1024 * 1024.
Definition MAGIC : Z := 8318561247144800361.
Definition VERSION : Z := 1.

Inductive Direction := DRead | DWrite.
Inductive Fail := Invalid | Corrupt | Closed | BrokenPipe.
Inductive Read := RBytes (n : Z) | REof | RPending.
Inductive Write := WBytes (n : Z) | WPending.

#[global] Instance Direction_eq_dec : EqDecision Direction.
Proof. solve_decision. Defined.

Record Header := mkHeader {
  h_magic : Z; h_version : Z; h_capacity : Z; h_read : Z; h_write : Z;
  h_read_closed : Z; h_write_closed : Z
}.

(** The shared memory: the header and the bytes after it. *)
Record Shared := mkShared { hdr : Header; cells : list Z }.

Definition Header_new (capacity : Z) : result Fail Header :=
  if (capacity =? 0) || (MAX_CAPACITY <? capacity) then Err Invalid
  else Ok (mkHeader MAGIC VERSION capacity 0 0 0 0).

Definition initialize (capacity : Z) (h : Header) : result Fail Header :=
  if (capacity =? 0) || (MAX_CAPACITY <? capacity) then Err Invalid
  else Ok (mkHeader MAGIC VERSION capacity 0 0 0 0).

Definition Header_close (d : Direction) (h : Header) : Header :=
  match d with
  | DRead => mkHeader (h_magic h) (h_version h) (h_capacity h) (h_read h) (h_write h) 1 (h_write_closed h)
  | DWrite => mkHeader (h_magic h) (h_version h) (h_capacity h) (h_read h) (h_write h) (h_read_closed h) 1
  end.

Definition Header_closed (d : Direction) (h : Header) : bool :=
  negb (match d with DRead => h_read_closed h | DWrite => h_write_closed h end =? 0).

Definition store_read (n : Z) (h : Header) : Header :=
  mkHeader (h_magic h) (h_version h) (h_capacity h) n (h_write h) (h_read_closed h) (h_write_closed h).
Definition store_write (n : Z) (h : Header) : Header :=
  mkHeader (h_magic h) (h_version h) (h_capacity h) (h_read h) n (h_read_closed h) (h_write_closed h).

Abbreviation ST := (M Shared Fail).

Section ring.
Context (cap : Z).

Definition intact (h : Header) : bool :=
  (h_magic h =? MAGIC) && (h_version h =? VERSION) && (h_capacity h =? cap).

Definition check : ST unit :=
  s ← get; if negb (intact (hdr s)) then fail Corrupt else mret tt.

Definition attach : ST unit :=
  s ← get;
  if (cap =? 0) || (MAX_CAPACITY <? cap) || (len (cells s) <? cap) then fail Invalid else check.

Definition cursors : ST (Z * Z) :=
  check ;;
  s ← get;
  let r := h_read (hdr s) in
  let w := h_write (hdr s) in
  if (w <? r) || (cap <? w - r) then fail Corrupt else mret (r, w).

Definition load_cell (i : Z) : ST Z := s ← get; expect (nth_z (cells s) (i mod cap)).
Definition store_cell (i b : Z) : ST unit :=
  s ← get;
  expect (nth_z (cells s) (i mod cap)) ;;
  put (mkShared (hdr s) (<[Z.to_nat (i mod cap) := b]> (cells s))).

Fixpoint copy_out (n : nat) (i : Z) : ST (list Z) :=
  match n with
  | O => mret []
  | S n => b ← load_cell i; rest ← copy_out n (i + 1); mret (b :: rest)
  end.

Fixpoint copy_in (l : list Z) (i : Z) : ST unit :=
  match l with
  | [] => mret tt
  | b :: l => store_cell i b ;; copy_in l (i + 1)
  end.

Definition put_hdr (f : Header -> Header) : ST unit :=
  s ← get; put (mkShared (f (hdr s)) (cells s)).

(** [room] is the length of the caller's buffer; the bytes come back with the
answer. *)
Definition read (room : Z) : ST (Read * list Z) :=
  check ;;
  s ← get;
  if Header_closed DRead (hdr s) then fail Closed
  else if room =? 0 then mret (RBytes 0, [])
  else
  '(r, w) ← cursors;
  s ← get;
  let closed := Header_closed DWrite (hdr s) in
  let w := if (w =? r) && closed then h_write (hdr s) else w in
  if (w <? r) || (cap <? w - r) then fail Corrupt
  else if w =? r then mret (if closed then REof else RPending, [])
  else
  let n := Z.min room (w - r) in
  next ← lift (ok_or (checked_add r n) Corrupt);
  out ← copy_out (Z.to_nat n) r;
  put_hdr (store_read next) ;;
  mret (RBytes n, out).

Definition write (input : list Z) : ST Write :=
  check ;;
  s ← get;
  if Header_closed DWrite (hdr s) then fail Closed
  else if Header_closed DRead (hdr s) then fail BrokenPipe
  else match input with
  | [] => mret (WBytes 0)
  | _ =>
  '(r, w) ← cursors;
  let n := Z.min (len input) (cap - (w - r)) in
  if n =? 0 then mret WPending
  else
    next ← lift (ok_or (checked_add w n) Corrupt);
    copy_in (take (Z.to_nat n) input) w ;;
    put_hdr (store_write next) ;;
    mret (WBytes n)
  end.

Definition ready (d : Direction) : ST bool :=
  '(r, w) ← cursors;
  s ← get;
  mret match d with
  | DRead => negb (w =? r) || Header_closed DWrite (hdr s) || Header_closed DRead (hdr s)
  | DWrite => (w - r <? cap) || Header_closed DRead (hdr s) || Header_closed DWrite (hdr s)
  end.

Definition close (d : Direction) : ST unit := put_hdr (Header_close d).
End ring.

Example stream_demo :
  let s0 := mkShared (mkHeader MAGIC VERSION 4 0 0 0 0) [0; 0; 0; 0] in
  match write 4 [1; 2; 3; 4; 5; 6] s0 with
  | Some (Ok a, s1) =>
      match read 4 3 s1 with
      | Some (Ok b, s2) =>
          match write 4 [7; 8; 9] s2 with
          | Some (Ok c, s3) =>
              match read 4 8 s3 with Some (Ok d, _) => Some (a, b, c, d) | _ => None end
          | _ => None
          end
      | _ => None
      end
  | _ => None
  end = Some (WBytes 4, (RBytes 3, [1; 2; 3]), WBytes 3, (RBytes 4, [4; 7; 8; 9])).
Proof. vm_compute. reflexivity. Qed.

(** ** Two threads

    The same operations one access at a time.  Every constructor holds what the
    thread has in its registers.  The magic, version and capacity words never
    change once the ring is set up, so the check of them is part of the step
    that enters an operation, as are the closed flags it tests; a thread's own
    cursor is written by no other thread, so loading it needs no step of its
    own. *)
Inductive Reader :=
| RIdle
| RCursors (room : Z)
| RClosedFlag (room r w : Z)
| RReload (room r : Z)
| RCopy (n r : Z) (done : list Z)
| RPublish (n r : Z) (done : list Z)
| RAnswer (a : result Fail (Read * list Z)).

Inductive Writer :=
| WIdle
| WCursors (input : list Z)
| WCopy (w : Z) (chunk : list Z) (k : nat)
| WPublish (w : Z) (chunk : list Z)
| WAnswer (a : result Fail Write).

Section threads.
Context (cap : Z).

Definition out_of_range (r w : Z) : bool := (w <? r) || (cap <? w - r).

(** [w] bytes are there to take: nothing, or a copy of at most [room]. *)
Definition take_upto (room r w : Z) (closed : bool) : Reader :=
  if out_of_range r w then RAnswer (Err Corrupt)
  else if w =? r then RAnswer (Ok (if closed then REof else RPending, []))
  else
  let n := Z.min room (w - r) in
  match checked_add r n with
  | Some _ => RCopy n r []
  | None => RAnswer (Err Corrupt)
  end.

Definition reader_enter (room : Z) (m : Shared) : Reader :=
  if negb (intact cap (hdr m)) then RAnswer (Err Corrupt)
  else if Header_closed DRead (hdr m) then RAnswer (Err Closed)
  else if room =? 0 then RAnswer (Ok (RBytes 0, []))
  else RCursors room.

Definition reader_step (m : Shared) (t : Reader) : option (Shared * Reader) :=
  match t with
  | RIdle | RAnswer _ => None
  | RCursors room =>
  let r := h_read (hdr m) in
  let w := h_write (hdr m) in
  Some (m, if out_of_range r w then RAnswer (Err Corrupt) else RClosedFlag room r w)
  | RClosedFlag room r w =>
  let closed := Header_closed DWrite (hdr m) in
  Some (m, if (w =? r) && closed then RReload room r else take_upto room r w closed)
  | RReload room r => Some (m, take_upto room r (h_write (hdr m)) true)
  | RCopy n r done =>
  if len done <? n then
    match nth_z (cells m) ((r + len done) mod cap) with
    | Some b => Some (m, RCopy n r (done ++ [b]))
    | None => None
    end
  else Some (m, RPublish n r done)
  | RPublish n r done =>
  Some (mkShared (store_read (r + n) (hdr m)) (cells m), RAnswer (Ok (RBytes n, done)))
  end.

Definition writer_enter (input : list Z) (m : Shared) : Writer :=
  if negb (intact cap (hdr m)) then WAnswer (Err Corrupt)
  else if Header_closed DWrite (hdr m) then WAnswer (Err Closed)
  else if Header_closed DRead (hdr m) then WAnswer (Err BrokenPipe)
  else match input with
  | [] => WAnswer (Ok (WBytes 0))
  | _ => WCursors input
  end.

Definition writer_step (m : Shared) (t : Writer) : option (Shared * Writer) :=
  match t with
  | WIdle | WAnswer _ => None
  | WCursors input =>
  let r := h_read (hdr m) in
  let w := h_write (hdr m) in
  Some (m,
    if out_of_range r w then WAnswer (Err Corrupt)
    else
      let n := Z.min (len input) (cap - (w - r)) in
      if n =? 0 then WAnswer (Ok WPending)
      else match checked_add w n with
      | Some _ => WCopy w (take (Z.to_nat n) input) 0
      | None => WAnswer (Err Corrupt)
      end)
  | WCopy w chunk k =>
  match chunk !! k with
  | Some b =>
      match nth_z (cells m) ((w + Z.of_nat k) mod cap) with
      | Some _ => Some (mkShared (hdr m) (<[Z.to_nat ((w + Z.of_nat k) mod cap) := b]> (cells m)),
                        WCopy w chunk (S k))
      | None => None
      end
  | None => Some (m, WPublish w chunk)
  end
  | WPublish w chunk =>
  Some (mkShared (store_write (w + len chunk) (hdr m)) (cells m), WAnswer (Ok (WBytes (len chunk))))
  end.
End threads.
