(* ===== verification/StreamTheorems.v ===== *)
(** * Byte streams: the queue in the ring, alone and under interleaving *)

From S2P Require Import Prelude.
From S2P Require Import Stream.

Open Scope Z_scope.

Lemma nth_z_app_l {A} (l1 l2 : list A) i : 0 <= i < len l1 -> nth_z (l1 ++ l2) i = nth_z l1 i.
Proof. unfold nth_z, len. intros Hi. rewrite lookup_app_l; [done|lia]. Qed.

Lemma nth_z_app_r {A} (l1 l2 : list A) i : len l1 <= i -> nth_z (l1 ++ l2) i = nth_z l2 (i - len l1).
Proof.
  unfold nth_z, len. intros Hi. rewrite lookup_app_r by lia. f_equal. lia.
Qed.

Lemma nth_z_insert_eq {A} (l : list A) i x : 0 <= i < len l -> nth_z (<[Z.to_nat i := x]> l) i = Some x.
Proof. unfold nth_z, len. intros Hi. apply list_lookup_insert_eq. lia. Qed.

Lemma nth_z_insert_ne {A} (l : list A) i j x : 0 <= i -> 0 <= j -> i <> j -> nth_z (<[Z.to_nat i := x]> l) j = nth_z l j.
Proof. unfold nth_z. intros Hi Hj Hij. apply list_lookup_insert_ne. lia. Qed.

(** Counts less than a lap apart live in different cells. *)
Lemma mod_apart cap i j : 0 < cap -> i < j < i + cap -> i mod cap <> j mod cap.
Proof.
  intros Hc Hij E. assert (Hd : (j - i) mod cap = 0).
  { rewrite Zminus_mod, E, Z.sub_diag. apply Z.mod_0_l. lia. }
  rewrite Z.mod_small in Hd by lia. lia.
Qed.

Section stream.
Context (cap : Z).

(** The cells hold the bytes [l] from count [i] on. *)
Definition holds_from (cs : list Z) (i : Z) (l : list Z) : Prop :=
  forall j, 0 <= j < len l -> nth_z cs ((i + j) mod cap) = nth_z l j.

Hypothesis Hcap : 0 < cap.

Lemma holds_from_app cs i l1 l2 :
  holds_from cs i (l1 ++ l2) <-> holds_from cs i l1 /\ holds_from cs (i + len l1) l2.
Proof using.
  pose proof (len_nonneg l1). pose proof (len_nonneg l2). unfold holds_from. rewrite len_app. split.
  - intros H1. split; intros j Hj.
  + rewrite H1 by lia. by apply nth_z_app_l.
  + rewrite <- Z.add_assoc, H1 by lia. rewrite nth_z_app_r by lia. f_equal. lia.
  - intros [H1 H2] j Hj. destruct (Z.lt_ge_cases j (len l1)).
  + rewrite nth_z_app_l by lia. apply H1. lia.
  + rewrite nth_z_app_r by lia. rewrite <- H2 by lia. f_equal. f_equal. lia.
Qed.

(** Storing outside the window of a lap leaves it. *)
Lemma holds_from_store cs i l k b :
  0 <= i -> holds_from cs i l -> i + len l <= k < i + cap -> cap <= len cs ->
  holds_from (<[Z.to_nat (k mod cap) := b]> cs) i l.
Proof using Hcap.
  intros Hi Hl Hk Hc j Hj. rewrite nth_z_insert_ne; [by apply Hl|apply Z.mod_pos_bound; lia..|].
  intros E. apply (mod_apart cap (i + j) k); [done|lia|done].
Qed.

Lemma holds_from_snoc cs i l b :
  0 <= i -> holds_from cs i l -> len l < cap -> cap <= len cs ->
  holds_from (<[Z.to_nat ((i + len l) mod cap) := b]> cs) i (l ++ [b]).
Proof using Hcap.
  intros Hi Hl Hlt Hc. apply holds_from_app. split.
  - apply holds_from_store; try done. lia.
  - intros j Hj. assert (j = 0) as -> by (unfold len in Hj; simpl in Hj; lia). rewrite Z.add_0_r.
  apply nth_z_insert_eq. pose proof (Z.mod_pos_bound (i + len l) cap). lia.
Qed.

(** ** One side at a time *)

(** The ring of a queue [q] of unread bytes, both cursors at their counts. *)
Record ring_rep (s : Shared) (q : list Z) : Prop := {
  rr_intact : intact cap (hdr s) = true;
  rr_cells : cap <= len (cells s);
  rr_read : 0 <= h_read (hdr s);
  rr_write : h_write (hdr s) = h_read (hdr s) + len q;
  rr_room : len q <= cap;
  rr_queue : holds_from (cells s) (h_read (hdr s)) q
  }.

Lemma copy_out_run s q : holds_from (cells s) (h_read (hdr s)) q ->
  forall n k, Z.of_nat (k + n) <= len q ->
  copy_out cap n (h_read (hdr s) + Z.of_nat k) s = Some (Ok (take n (drop k q)), s).
Proof using.
  intros Hq. induction n as [|n IH]; intros k Hk; [done|]. simpl. unfold load_cell. munfold.
  rewrite (Hq (Z.of_nat k)) by lia.
  destruct (nth_z_lt q (Z.of_nat k)) as [b Hb]; [lia|]. rewrite Hb. simpl.
  replace (h_read (hdr s) + Z.of_nat k + 1) with (h_read (hdr s) + Z.of_nat (S k)) by lia.
  rewrite IH by lia. unfold nth_z in Hb. rewrite Nat2Z.id in Hb. by rewrite (drop_S q b k Hb).
Qed.

Lemma copy_in_run l : forall s i q, 0 <= i -> cap <= len (cells s) -> holds_from (cells s) i q -> len q + len l <= cap ->
  exists cs, copy_in cap l (i + len q) s = Some (Ok tt, mkShared (hdr s) cs) /\
  len cs = len (cells s) /\ holds_from cs i (q ++ l).
Proof using Hcap.
  induction l as [|b l IH]; intros s i q Hi Hc Hq Hroom; simpl.
  { exists (cells s). rewrite app_nil_r. by destruct s. }
  unfold store_cell. munfold. pose proof (len_nonneg l). unfold len in Hroom at 2. simpl in Hroom. fold (len l) in Hroom.
  assert (Hlt : 0 <= (i + len q) mod cap < len (cells s)) by (pose proof (Z.mod_pos_bound (i + len q) cap); lia).
  destruct (nth_z_lt (cells s) ((i + len q) mod cap) Hlt) as [x ->]. simpl.
  set (s' := mkShared (hdr s) (<[Z.to_nat ((i + len q) mod cap) := b]> (cells s))).
  assert (Hlen : len (cells s') = len (cells s)) by (unfold len, s'; simpl; by rewrite length_insert).
  destruct (IH s' i (q ++ [b]) Hi) as (cs & Hrun & Hl & Hcs).
  - lia.
  - apply holds_from_snoc; [done|done|unfold len in *; simpl in *; lia|done].
  - rewrite len_app. unfold len in *. simpl in *. lia.
  - replace (i + len q + 1) with (i + len (q ++ [b])) by (rewrite len_app; unfold len; simpl; lia).
  exists cs. rewrite Hrun. split; [done|]. split; [lia|]. by rewrite <- app_assoc in Hcs.
Qed.

Lemma cursors_run s q : ring_rep s q -> cursors cap s = Some (Ok (h_read (hdr s), h_write (hdr s)), s).
Proof using Hcap.
  intros [H1 H2 H3 H4 H5 H6]. pose proof (len_nonneg q). unfold cursors, check. munfold. rewrite H1. simpl.
  rewrite (proj2 (Z.ltb_ge _ _)) by lia. rewrite (proj2 (Z.ltb_ge cap _)) by lia. done.
Qed.

Lemma write_run s q input :
  ring_rep s q -> Header_closed DWrite (hdr s) = false -> Header_closed DRead (hdr s) = false -> input <> [] ->
  h_write (hdr s) + cap <= usize_MAX ->
  let n := Z.min (len input) (cap - len q) in
  exists s', write cap input s = Some (Ok (if n =? 0 then WPending else WBytes n), s') /\
  ring_rep s' (q ++ take (Z.to_nat n) input) /\ h_read (hdr s') = h_read (hdr s).
Proof using Hcap.
  intros HR Hw Hr Hne Hmax n. pose proof HR as [H1 H2 H3 H4 H5 H6]. pose proof (len_nonneg q).
  assert (Hl : 0 < len input) by (unfold len; destruct input; [done|simpl; lia]).
  unfold write. unfold mbind at 1, M_bind at 1, check at 1. munfold. rewrite H1. simpl. rewrite Hw, Hr.
  destruct input as [|b0 input']; [done|]. set (input := b0 :: input') in *.
  pose proof (cursors_run s q HR) as Hcu. rewrite Hcu. simpl.
  replace (cap - (h_write (hdr s) - h_read (hdr s))) with (cap - len q) by lia. fold n.
  destruct (Z.eqb_spec n 0) as [Hn|Hn].
  { exists s. split; [done|]. rewrite Hn. simpl. by rewrite app_nil_r. }
  assert (Htl : len (take (Z.to_nat n) input) = n) by (unfold len in *; rewrite length_take; lia).
  unfold checked_add. rewrite (proj2 (checked_Some (h_write (hdr s) + n) _)) by (split; [done|rewrite usize_iff; lia]). simpl.
  destruct (copy_in_run (take (Z.to_nat n) input) s (h_read (hdr s)) q H3 H2 H6) as (cs & Hrun & Hlc & Hcs); [lia|].
  rewrite <- H4 in Hrun. rewrite Hrun. munfold. simpl. eexists. split; [reflexivity|]. split; [|done].
  split; simpl; [done|lia|done|rewrite len_app; lia|rewrite len_app; lia|done].
Qed.

Lemma read_run s q room :
  ring_rep s q -> Header_closed DRead (hdr s) = false -> 0 < room -> h_write (hdr s) <= usize_MAX ->
  let n := Z.min room (len q) in
  exists s', read cap room s = Some (Ok (if n =? 0 then (if Header_closed DWrite (hdr s) then REof else RPending, [])
                                    else (RBytes n, take (Z.to_nat n) q)), s') /\
  ring_rep s' (drop (Z.to_nat n) q) /\ h_write (hdr s') = h_write (hdr s).
Proof using Hcap.
  intros HR Hr Hroom Hmax n. pose proof HR as [H1 H2 H3 H4 H5 H6]. pose proof (len_nonneg q).
  unfold read. unfold mbind at 1, M_bind at 1, check at 1. munfold. rewrite H1. simpl. rewrite Hr.
  rewrite (proj2 (Z.eqb_neq room 0)) by lia. rewrite (cursors_run s q HR). simpl.
  replace (if (h_write (hdr s) =? h_read (hdr s)) && Header_closed DWrite (hdr s) then h_write (hdr s)
       else h_write (hdr s)) with (h_write (hdr s)) by (by case_match).
  rewrite (proj2 (Z.ltb_ge (h_write (hdr s)) _)) by lia. rewrite (proj2 (Z.ltb_ge cap _)) by lia. simpl.
  replace (h_write (hdr s) - h_read (hdr s)) with (len q) by lia. fold n.
  destruct (Z.eqb_spec (h_write (hdr s)) (h_read (hdr s))) as [E|E].
  { assert (n = 0) as -> by lia. exists s. split; [done|]. simpl. by rewrite drop_0. }
  rewrite (proj2 (Z.eqb_neq n 0)) by lia. unfold checked_add.
  rewrite (proj2 (checked_Some (h_read (hdr s) + n) _)) by (split; [done|rewrite usize_iff; lia]). simpl.
  pose proof (copy_out_run s q H6 (Z.to_nat n) 0) as Hout. rewrite Z.add_0_r in Hout. rewrite Hout by lia. munfold. simpl.
  rewrite drop_0. eexists. split; [reflexivity|]. split; [|done].
  assert (Hdl : len (drop (Z.to_nat n) q) = len q - n) by (unfold len in *; rewrite length_drop; lia).
  split; simpl; [done|done|lia|lia|lia|].
  rewrite <- (take_drop (Z.to_nat n) q) in H6. apply holds_from_app in H6 as [_ H6].
  replace (len (take (Z.to_nat n) q)) with n in H6 by (unfold len in *; rewrite length_take; lia). done.
Qed.
End stream.

(** ** The two threads together *)

(** The memory, the threads, and what has gone in and come out so far. *)
Record Conf := mkConf {
  mem : Shared; reader : Reader; writer : Writer; sent : list Z; received : list Z
}.

Section conc.
Context (cap : Z).

(** One access of either side, in any order. *)
Inductive step : Conf -> Conf -> Prop :=
  | step_read_call m w snt rcv room : 0 <= room ->
  step (mkConf m RIdle w snt rcv) (mkConf m (reader_enter cap room m) w snt rcv)
  | step_read m r m' r' w snt rcv : reader_step cap m r = Some (m', r') ->
  step (mkConf m r w snt rcv)
     (mkConf m' r' w snt (match r with RPublish _ _ done => rcv ++ done | _ => rcv end))
  | step_read_return m a w snt rcv : step (mkConf m (RAnswer a) w snt rcv) (mkConf m RIdle w snt rcv)
  | step_read_close m w snt rcv :
  step (mkConf m RIdle w snt rcv) (mkConf (mkShared (Header_close DRead (hdr m)) (cells m)) RIdle w snt rcv)
  | step_write_call m r snt rcv input :
  step (mkConf m r WIdle snt rcv) (mkConf m r (writer_enter cap input m) snt rcv)
  | step_write m r m' w w' snt rcv : writer_step cap m w = Some (m', w') ->
  step (mkConf m r w snt rcv)
     (mkConf m' r w' (match w with WPublish _ chunk => snt ++ chunk | _ => snt end) rcv)
  | step_write_return m r a snt rcv : step (mkConf m r (WAnswer a) snt rcv) (mkConf m r WIdle snt rcv)
  | step_write_close m r snt rcv :
  step (mkConf m r WIdle snt rcv) (mkConf (mkShared (Header_close DWrite (hdr m)) (cells m)) r WIdle snt rcv).

Inductive reach (m0 : Shared) : Conf -> Prop :=
| reach_start : reach m0 (mkConf m0 RIdle WIdle [] [])
| reach_step c c' : reach m0 c -> step c c' -> reach m0 c'.

(** ** Invariant *)

Definition wclosed (m : Shared) : bool := Header_closed DWrite (hdr m).

(** The writer has put [k] bytes of its chunk into free cells. *)
Definition copying (m : Shared) (snt rcv : list Z) (w : Z) (chunk : list Z) (k : nat) : Prop :=
  w = len snt /\ (k <= length chunk)%nat /\ len snt + len chunk - len rcv <= cap /\
  holds_from cap (cells m) w (take k chunk).

Definition writer_ok (m : Shared) (t : Writer) (snt rcv : list Z) : Prop :=
  match t with
  | WIdle => True
  | WCursors _ => wclosed m = false
  | WCopy w chunk k => wclosed m = false /\ copying m snt rcv w chunk k
  | WPublish w chunk => wclosed m = false /\ copying m snt rcv w chunk (length chunk)
  | WAnswer (Err Corrupt) => usize_MAX < len snt + cap
  | WAnswer _ => True
  end.

(** The reader has copied [done] of the [n] bytes from count [r] on. *)
Definition taking (snt rcv : list Z) (n r : Z) (done : list Z) : Prop :=
  r = len rcv /\ 0 < n /\ r + n <= len snt /\ len done <= n /\
  forall j, 0 <= j < len done -> nth_z done j = nth_z snt (r + j).

Definition reader_ok (m : Shared) (t : Reader) (snt rcv : list Z) : Prop :=
  match t with
  | RIdle => True
  | RCursors room => 0 < room
  | RClosedFlag room r w => 0 < room /\ r = len rcv /\ r <= w <= len snt /\ w - r <= cap
  | RReload room r => 0 < room /\ r = len rcv /\ wclosed m = true
  | RCopy n r done => taking snt rcv n r done
  | RPublish n r done => taking snt rcv n r done /\ len done = n
  | RAnswer (Ok (REof, _)) => wclosed m = true /\ len rcv = len snt
  | RAnswer (Err Corrupt) => usize_MAX < len snt
  | RAnswer _ => True
  end.

Record CInv (c : Conf) : Prop := {
  ci_intact : intact cap (hdr (mem c)) = true;
  ci_cells : cap <= len (cells (mem c));
  ci_write : h_write (hdr (mem c)) = len (sent c);
  ci_read : h_read (hdr (mem c)) = len (received c);
  ci_prefix : received c `prefix_of` sent c;
  ci_room : len (sent c) - len (received c) <= cap;
  ci_unread : forall i, len (received c) <= i < len (sent c) ->
  nth_z (cells (mem c)) (i mod cap) = nth_z (sent c) i;
  ci_writer : writer_ok (mem c) (writer c) (sent c) (received c);
  ci_reader : reader_ok (mem c) (reader c) (sent c) (received c)
  }.

Hypothesis Hcap : 0 < cap.

Lemma len_snoc (l : list Z) b : len (l ++ [b]) = len l + 1.
Proof using. rewrite len_app. done. Qed.

Lemma prefix_len (l1 l2 : list Z) : l1 `prefix_of` l2 -> len l1 <= len l2.
Proof using. intros H%prefix_length. unfold len. lia. Qed.

Lemma stream_in_range r w : r <= w -> w - r <= cap -> out_of_range cap r w = false.
Proof using. intros H1 H2. unfold out_of_range. apply orb_false_iff. rewrite !Z.ltb_ge. lia. Qed.

Lemma take_upto_ok m snt rcv room w closed :
  0 < room -> len rcv <= w <= len snt -> w - len rcv <= cap ->
  (closed = true -> w = len rcv -> wclosed m = true /\ len rcv = len snt) ->
  reader_ok m (take_upto cap room (len rcv) w closed) snt rcv.
Proof using.
  intros Hroom Hw Hc Hcl. unfold take_upto. rewrite stream_in_range by lia.
  destruct (Z.eqb_spec w (len rcv)) as [E|E].
  - destruct closed; simpl; [by apply Hcl|done].
  - pose proof (len_nonneg rcv). unfold checked_add. destruct (checked _) as [x|] eqn:Hx.
  + simpl. split; [done|]. split; [lia|]. split; [lia|]. split; [unfold len at 1; simpl; lia|].
  intros j Hj. unfold len in Hj. simpl in Hj. lia.
  + apply checked_None in Hx. rewrite usize_iff in Hx. simpl. lia.
Qed.

(** More bytes in the stream do not disturb the reader, unless it has seen the
end of it. *)
Lemma reader_ok_sent m m' t snt rcv chunk :
  wclosed m = false -> wclosed m' = false -> reader_ok m t snt rcv -> reader_ok m' t (snt ++ chunk) rcv.
Proof using.
  intros Hc Hc'. pose proof (len_nonneg chunk). pose proof (len_nonneg rcv).
  assert (Ht : forall n r done, taking snt rcv n r done -> taking (snt ++ chunk) rcv n r done).
  { intros n r done (H1 & H2 & H3 & H4 & H5). unfold taking. rewrite len_app. split_and!; try done; [lia|].
  intros j Hj. rewrite nth_z_app_l by lia. by apply H5. }
  destruct t as [| | | | | |[[[] ?]|[]]]; simpl; rewrite ?len_app; try done.
  - lia.
  - intros (_ & _ & ?). congruence.
  - apply Ht.
  - intros [? ?]. split; [by apply Ht|done].
  - intros [? _]. congruence.
  - lia.
Qed.

(** Bytes taken out only give the writer room. *)
Lemma writer_ok_received m m' t snt rcv done :
  wclosed m' = wclosed m -> cells m' = cells m -> writer_ok m t snt rcv -> writer_ok m' t snt (rcv ++ done).
Proof using.
  intros Hc Hcl. pose proof (len_nonneg done).
  assert (Ht : forall w chunk k, copying m snt rcv w chunk k -> copying m' snt (rcv ++ done) w chunk k).
  { intros w chunk k (H1 & H2 & H3 & H4). unfold copying. rewrite len_app, Hcl. split_and!; (done || lia). }
  destruct t as [| | | |[?|[]]]; simpl; rewrite ?Hc; try done; intros [? ?]; (split; [done|by apply Ht]).
Qed.

Lemma taken_prefix snt rcv n r done :
  rcv `prefix_of` snt -> taking snt rcv n r done -> (rcv ++ done) `prefix_of` snt.
Proof using.
  intros [rest ->] (-> & Hn & Hr & Hd & Hat). rewrite len_app in Hr.
  assert (Hdone : done = take (length done) rest).
  { apply list_eq. intros j. destruct (decide (j < length done)%nat) as [Hj|Hj].
  - rewrite lookup_take_lt by lia. specialize (Hat (Z.of_nat j)). unfold len in Hat.
  specialize (Hat ltac:(lia)). unfold nth_z in Hat. rewrite Nat2Z.id in Hat. rewrite Hat.
  rewrite lookup_app_r by lia. f_equal. lia.
  - rewrite !lookup_ge_None_2; [done|rewrite length_take; lia|lia]. }
  rewrite Hdone. apply prefix_app. apply prefix_take.
Qed.

Lemma reader_enter_ok m snt rcv room : 0 <= room -> intact cap (hdr m) = true ->
  reader_ok m (reader_enter cap room m) snt rcv.
Proof using.
  intros Hroom Hi. unfold reader_enter. rewrite Hi. simpl. destruct (Header_closed DRead (hdr m)); [done|].
  destruct (Z.eqb_spec room 0); simpl; [done|lia].
Qed.

Lemma writer_enter_ok m snt rcv input : intact cap (hdr m) = true ->
  writer_ok m (writer_enter cap input m) snt rcv.
Proof using.
  intros Hi. unfold writer_enter. rewrite Hi. simpl. destruct (Header_closed DWrite (hdr m)) eqn:Hc; [done|].
  destruct (Header_closed DRead (hdr m)); [done|]. destruct input; done.
Qed.

Lemma reader_step_inv c m' r' :
  CInv c -> reader_step cap (mem c) (reader c) = Some (m', r') ->
  CInv (mkConf m' r' (writer c) (sent c)
  (match reader c with RPublish _ _ done => received c ++ done | _ => received c end)).
Proof using Hcap.
  destruct c as [m r w snt rcv]. intros [H1 H2 H3 H4 H5 H6 H7 H8 H9]. simpl in *.
  pose proof (prefix_len _ _ H5) as Hle. pose proof (len_nonneg rcv).
  destruct r as [|room|room r0 w0|room r0|n r0 done|n r0 done|a]; simpl; try discriminate.
  - intros [= <- <-]. split; simpl; try done. rewrite H3, H4, stream_in_range by lia. simpl. split_and!; (done || lia).
  - destruct H9 as (Hroom & -> & Hw & Hc). intros [= <- <-]. split; simpl; try done.
  destruct (Z.eqb_spec w0 (len rcv)) as [E|E]; simpl.
  + destruct (Header_closed DWrite (hdr m)) eqn:Hcl; simpl; [by split_and!|]. apply take_upto_ok; (done || lia).
  + apply take_upto_ok; (done || lia).
  - destruct H9 as (Hroom & -> & Hcl). intros [= <- <-]. split; simpl; try done.
  rewrite H3. apply take_upto_ok; try (done || lia).
  - destruct H9 as (-> & Hn & Hr & Hd & Hat). destruct (Z.ltb_spec (len done) n) as [Hlt|Hge].
  + pose proof (len_nonneg done). rewrite H7 by lia. destruct (nth_z_lt snt (len rcv + len done)) as [b Hb]; [lia|].
  rewrite Hb. intros [= <- <-]. split; simpl; try done. unfold taking. rewrite len_snoc.
  split; [done|]. split; [done|]. split; [done|]. split; [lia|]. intros j Hj.
  destruct (Z.eq_dec j (len done)) as [->|Hne].
  * rewrite nth_z_app_r, Z.sub_diag by lia. by rewrite Hb.
  * rewrite nth_z_app_l by lia. apply Hat. lia.
  + intros [= <- <-]. split; simpl; try done. split; [|lia]. done.
  - destruct H9 as [Ht Hlen]. pose proof (taken_prefix snt rcv n r0 done H5 Ht) as Hp.
  destruct Ht as (-> & Hn & Hr & Hd & Hat). intros [= <- <-].
  split; simpl; [done|done|done|rewrite len_app; lia|done|rewrite len_app; lia| | |done].
  + intros i Hi. rewrite len_app in Hi. apply H7. lia.
  + eapply writer_ok_received; [| |exact H8]; done.
Qed.

Lemma writer_step_inv c m' w' :
  CInv c -> writer_step cap (mem c) (writer c) = Some (m', w') ->
  CInv (mkConf m' (reader c) w'
  (match writer c with WPublish _ chunk => sent c ++ chunk | _ => sent c end) (received c)).
Proof using Hcap.
  destruct c as [m r w snt rcv]. intros [H1 H2 H3 H4 H5 H6 H7 H8 H9]. simpl in *.
  pose proof (prefix_len _ _ H5) as Hle. pose proof (len_nonneg rcv). pose proof (len_nonneg snt).
  destruct w as [|input|w0 chunk k|w0 chunk|a]; simpl; try discriminate.
  - intros [= <- <-]. split; simpl; try done. rewrite H3, H4, stream_in_range by lia.
  destruct (Z.eqb_spec (Z.min (len input) (cap - (len snt - len rcv))) 0) as [Hn|Hn]; [done|].
  pose proof (len_nonneg input). unfold checked_add. destruct (checked _) as [x|] eqn:Hx.
  + simpl. split; [done|]. split; [done|]. split; [lia|]. split.
  * unfold len at 2. rewrite length_take. unfold len in *. lia.
  * rewrite take_0. intros j Hj. unfold len in Hj. simpl in Hj. lia.
  + apply checked_None in Hx. rewrite usize_iff in Hx. simpl. lia.
  - destruct H8 as (Hcl & -> & Hk & Hroom & Hcs). destruct (chunk !! k) as [b|] eqn:Hb.
  + pose proof (lookup_lt_Some _ _ _ Hb) as Hkl.
  assert (Hlt : 0 <= (len snt + Z.of_nat k) mod cap < len (cells m))
    by (pose proof (Z.mod_pos_bound (len snt + Z.of_nat k) cap); lia).
  destruct (nth_z_lt (cells m) _ Hlt) as [x ->]. intros [= <- <-].
  assert (Hkc : Z.of_nat k < len chunk) by (unfold len; lia).
  assert (Htk : len (take k chunk) = Z.of_nat k) by (unfold len; rewrite length_take; lia).
  split; simpl; try done.
  * unfold len. rewrite length_insert. done.
  * intros i Hi. rewrite nth_z_insert_ne; [by apply H7|lia|apply Z.mod_pos_bound; lia|].
    intros E. apply (mod_apart cap i (len snt + Z.of_nat k)); [done|lia|done].
  * split; [done|]. split; [done|]. split; [lia|]. split; [lia|]. simpl.
    rewrite (take_S_r chunk k b) by done. rewrite <- Htk. apply holds_from_snoc; [done|lia|done|lia|done].
  + apply lookup_ge_None in Hb. assert (k = length chunk) as -> by lia. intros [= <- <-]. by split.
  - destruct H8 as (Hcl & -> & _ & Hroom & Hcs). intros [= <- <-]. rewrite firstn_all in Hcs.
  pose proof (len_nonneg chunk). split; simpl; try done.
  + rewrite len_app. lia.
  + by apply prefix_app_r.
  + rewrite len_app. lia.
  + rewrite len_app. intros i Hi. destruct (Z.lt_ge_cases i (len snt)).
  * rewrite nth_z_app_l by lia. apply H7. lia.
  * rewrite nth_z_app_r by lia. rewrite <- Hcs by lia. f_equal. f_equal. lia.
  + by eapply reader_ok_sent.
Qed.

Lemma step_inv c c' : CInv c -> step c c' -> CInv c'.
Proof using Hcap.
  intros HI Hs. destruct Hs.
  - destruct HI; split; simpl in *; try done. by apply reader_enter_ok.
  - by apply (reader_step_inv (mkConf m r w snt rcv)).
  - by destruct HI; split.
  - destruct HI; split; simpl in *; try done.
  - destruct HI; split; simpl in *; try done. by apply writer_enter_ok.
  - by apply (writer_step_inv (mkConf m r w snt rcv)).
  - by destruct HI; split.
  - destruct HI; split; simpl in *; try done. destruct r as [| | | | | |[[[] ?]|[]]]; naive_solver.
Qed.

(** An empty ring of the given capacity. *)
Definition fresh (m : Shared) : Prop :=
  Header_new cap = Ok (hdr m) /\ cap <= len (cells m).

Lemma fresh_inv m : fresh m -> CInv (mkConf m RIdle WIdle [] []).
Proof using Hcap.
  intros [Hn Hc]. unfold Header_new in Hn. destruct (_ || _); [done|]. injection Hn as Hn.
  split; simpl; rewrite <- ?Hn; try done; [|unfold len; simpl; lia|unfold len; simpl; lia].
  unfold intact. simpl. by rewrite Z.eqb_refl.
Qed.

Lemma stream_reach_CInv m c : fresh m -> reach m c -> CInv c.
Proof using Hcap. intros Hm. induction 1 as [|c c' _ IH Hs]; [by apply fresh_inv|]. by eapply step_inv. Qed.
End conc.

(** ** Claims *)

(** C24: a reader and a writer on one ring, their accesses interleaved in any
    way.  The bytes received are always a prefix of the bytes sent, no more
    than the capacity is in flight, no access leaves the ring, an end of file
    is reported only when every byte sent has been received, and no side
    reports corruption before the counters run out. *)
Theorem stream_fifo cap m0 c :
  0 < cap -> fresh cap m0 -> reach cap m0 c ->
  received c `prefix_of` sent c /\ len (sent c) - len (received c) <= cap /\
  match reader c with
  | RIdle => True
  | RAnswer (Ok (REof, _)) => received c = sent c
  | RAnswer (Err Corrupt) => usize_MAX < len (sent c)
  | RAnswer _ => True
  | r => is_Some (reader_step cap (mem c) r)
  end /\
  match writer c with
  | WIdle => True
  | WAnswer (Err Corrupt) => usize_MAX < len (sent c) + cap
  | WAnswer _ => True
  | w => is_Some (writer_step cap (mem c) w)
  end.
Proof.
  intros Hcap Hm Hr. destruct (stream_reach_CInv cap Hcap m0 c Hm Hr) as [H1 H2 H3 H4 H5 H6 H7 H8 H9].
  split; [done|]. split; [done|]. split.
  - destruct (reader c) as [|room|room r0 w0|room r0|n r0 done|n r0 done|[[[] ?]|[]]]; try done; try (by eexists).
    + simpl in *. destruct H9 as (-> & Hn & Hr0 & Hd & _). case_match eqn:E; [|by eexists].
      apply Z.ltb_lt in E. pose proof (len_nonneg done). pose proof (len_nonneg (received c)). rewrite H7 by lia.
      destruct (nth_z_lt (sent c) (len (received c) + len done)) as [b ->]; [lia|by eexists].
    + destruct H9 as [_ Hl]. destruct H5 as [rest E]. rewrite E in *. rewrite len_app in Hl.
      destruct rest; [by rewrite app_nil_r|unfold len in Hl; simpl in Hl; lia].
    + exact H9.
  - destruct (writer c) as [|input|w0 chunk k|w0 chunk|[?|[]]]; try done; try (by eexists).
    + simpl in *. destruct H8 as (_ & -> & _). case_match; [|by eexists].
      pose proof (Z.mod_pos_bound (len (sent c) + Z.of_nat k) cap).
      destruct (nth_z_lt (cells (mem c)) ((len (sent c) + Z.of_nat k) mod cap)) as [x ->]; [lia|by eexists].
Qed.

Definition ring4 : Shared := mkShared (mkHeader MAGIC VERSION 4 0 0 0 0) [0; 0; 0; 0].

(** The writer has stored the first byte of two, the reader has just looked. *)
Definition conf4 : Conf :=
  mkConf (mkShared (mkHeader MAGIC VERSION 4 0 0 0 0) [7; 0; 0; 0])
    (RClosedFlag 3 0 0) (WCopy 0 [7; 8] 1) [] [].

Lemma conf4_reach : reach 4 ring4 conf4.
Proof.
  eapply reach_step; [eapply reach_step; [eapply reach_step; [eapply reach_step;
    [eapply reach_step; [apply reach_start|]|]|]|]|].
  - apply (step_write_call 4 ring4 RIdle [] [] [7; 8]).
  - eapply step_write. vm_compute. reflexivity.
  - apply (step_read_call 4 ring4 (WCopy 0 [7; 8] 0) [] [] 3). lia.
  - apply step_write. vm_compute. reflexivity.
  - apply (step_read 4 _ (RCursors 3)). vm_compute. reflexivity.
Qed.

Lemma stream_fifo_witness :
  received conf4 `prefix_of` sent conf4 /\ len (sent conf4) - len (received conf4) <= 4.
Proof.
  destruct (stream_fifo 4 ring4 conf4) as (H1 & H2 & _).
  - lia.
  - split; [reflexivity|vm_compute; discriminate].
  - exact conf4_reach.
  - split; [exact H1|exact H2].
Defined.

(** Run on its own, the ring is a bounded queue of bytes.  A write appends
    the longest prefix of the input that fits and is pending exactly when none
    does; a read removes and returns as many bytes as the buffer takes; an
    empty queue reads as end of file if the writer has closed and as pending
    otherwise.  Neither touches the other side's cursor. *)
Theorem stream_queue cap s q :
  0 < cap -> ring_rep cap s q -> h_write (hdr s) + cap <= usize_MAX ->
  Header_closed DRead (hdr s) = false ->
  (forall input, Header_closed DWrite (hdr s) = false -> input <> [] ->
     let n := Z.min (len input) (cap - len q) in
     exists s', write cap input s = Some (Ok (if n =? 0 then WPending else WBytes n), s') /\
       ring_rep cap s' (q ++ take (Z.to_nat n) input) /\ h_read (hdr s') = h_read (hdr s)) /\
  (forall room, 0 < room ->
     let n := Z.min room (len q) in
     exists s', read cap room s =
         Some (Ok (if n =? 0 then (if Header_closed DWrite (hdr s) then REof else RPending, [])
                   else (RBytes n, take (Z.to_nat n) q)), s') /\
       ring_rep cap s' (drop (Z.to_nat n) q) /\ h_write (hdr s') = h_write (hdr s)).
Proof.
  intros Hcap HR Hmax Hc. split.
  - intros input Hw Hne. by apply write_run.
  - intros room Hroom. apply read_run; try done. lia.
Qed.

Lemma stream_queue_witness :
  exists s', write 4 [1; 2] ring4 = Some (Ok (WBytes 2), s') /\ ring_rep 4 s' [1; 2].
Proof.
  destruct (stream_queue 4 ring4 []) as [Hw _].
  - lia.
  - split; simpl; try done; unfold len; simpl; try lia. intros j Hj. unfold len in Hj. simpl in Hj. lia.
  - rewrite usize_MAX_eq. simpl. lia.
  - reflexivity.
  - destruct (Hw [1; 2]) as (s' & H1 & H2 & _); [reflexivity|discriminate|].
    exists s'. split; [exact H1|exact H2].
Defined.
