(* ===== verification/Rack.v ===== *)
(** * The rack: numbered slots on a shared page ([crates/ipc/src/rack/ring.rs])

    A ring of sixteen slots, each with its own sequence number.  The writer
    owns the count [r_write], the reader the count [r_read]; when the ring is
    full the writer either overwrites the oldest slot or drops the new frame.
    Operations are atomic here: one side at a time. *)

From S2P Require Import Prelude.

Open Scope Z_scope.

Definition CAP : Z := 16.
Definition SLOT_SIZE : Z := 512.
Definition SLOT : Z := SLOT_SIZE - 64.
Definition MASK : Z := CAP - 1.

Inductive Mode := Oldest | Newest.

Record Slot := mkSlot { seq : Z; slot_len : Z; data : list Z }.

Record Ring := mkRing { r_write : Z; r_read : Z; r_dropped : Z; r_lost : Z; slots : list Slot }.

Definition wrapping_add (x y : Z) : Z := (x + y) mod 2 ^ 64.
Definition wrapping_sub (x y : Z) : Z := (x - y) mod 2 ^ 64.

(** The position of slot number [i]. *)
Definition slot_index (i : Z) : Z := Z.land i MASK.
Definition slot (ring : Ring) (i : Z) : option Slot := nth_z (slots ring) (slot_index i).

Definition payload (s : Slot) : list Z := take (Z.to_nat (Z.min (slot_len s) SLOT)) (data s).

Definition payload_at (ring : Ring) (n : Z) : option (list Z) :=
  if n =? 0 then Some [] else payload <$> slot ring (n - 1).

Definition cursor (ring : Ring) : Z := wrapping_add (r_read ring) 1.
Definition depth (ring : Ring) : Z := Z.min (wrapping_sub (r_write ring) (r_read ring)) CAP.
Definition lost (ring : Ring) : Z := r_lost ring.
Definition dropped (ring : Ring) : Z := r_dropped ring.

Definition publish (n : Z) (ring : Ring) : Ring :=
  mkRing n (r_read ring) (r_dropped ring) (r_lost ring) (slots ring).

(** [None] is an index out of the slots; the flag says whether the frame went
    in. *)
Definition push (mode : Mode) (bytes : list Z) (ring : Ring) : option (Ring * bool) :=
  let w := r_write ring in
  let full := CAP <=? wrapping_sub w (r_read ring) in
  match full, mode with
  | true, Newest =>
      Some (mkRing w (r_read ring) (wrapping_add (r_dropped ring) 1) (r_lost ring) (slots ring), false)
  | _, _ =>
      let lost := if full then wrapping_add (r_lost ring) 1 else r_lost ring in
      let ring := mkRing w (r_read ring) (r_dropped ring) lost (slots ring) in
      at_ ← slot ring w;
      if len (data at_) <? len bytes then Some (ring, false)
      else
        let s := mkSlot (wrapping_add w 1) (len bytes) (bytes ++ drop (length bytes) (data at_)) in
        Some (publish (wrapping_add w 1)
                (mkRing w (r_read ring) (r_dropped ring) lost
                   (<[Z.to_nat (slot_index w) := s]> (slots ring))), true)
  end.

(** The reader's side: its ring, the number it wants next and its own count of
    skipped frames. *)
Record Cursor := mkCursor { c_ring : Ring; c_next : Z; c_skipped : Z }.

Definition advance (c : Cursor) : Cursor :=
  let ring := c_ring c in
  mkCursor (mkRing (r_write ring) (c_next c) (r_dropped ring) (r_lost ring) (slots ring))
    (wrapping_add (c_next c) 1) (c_skipped c).

Definition u64_saturating_add (x y : Z) : Z := Z.min (2 ^ 64 - 1) (x + y).

Fixpoint pop_loop (n : nat) (room : Z) (c : Cursor) : option (Cursor * result Z (option (list Z))) :=
  match n with
  | O => Some (c, Ok None)
  | S n =>
      at_ ← slot (c_ring c) (c_next c - 1);
      if seq at_ =? c_next c then
        let src := payload at_ in
        if room <? len src then Some (advance c, Err (len src))
        else Some (advance c, Ok (Some src))
      else if c_next c <? seq at_ then
        pop_loop n room (mkCursor (c_ring c) (seq at_)
                           (u64_saturating_add (c_skipped c) (seq at_ - c_next c)))
      else Some (c, Ok None)
  end.

(** [room] is the length of the caller's buffer. *)
Definition pop (room : Z) (c : Cursor) : option (Cursor * result Z (option (list Z))) :=
  if r_write (c_ring c) <? c_next c then Some (c, Ok None)
  else pop_loop (Z.to_nat CAP) room c.

Definition empty_ring : Ring :=
  mkRing 0 0 0 0 (replicate (Z.to_nat CAP) (mkSlot 0 0 (replicate (Z.to_nat SLOT) 0))).

(** ** Invariant *)

(** [log] is every frame that went in, in order; a slot holds the last one of
    its residue, as long as there is one. *)
Definition slot_ok (log : list (list Z)) (i : Z) (s : Slot) : Prop :=
  len (data s) = SLOT /\
  ((seq s = 0 /\ len log <= i) \/
   (1 <= seq s <= len log /\ (seq s - 1) mod CAP = i /\ len log - seq s < CAP /\
    nth_z log (seq s - 1) = Some (payload s))).

Record ring_ok (ring : Ring) (log : list (list Z)) : Prop := {
  rk_write : r_write ring = len log;
  rk_read : 0 <= r_read ring <= len log;
  rk_bound : len log < 2 ^ 64 - 1;
  rk_slots : len (slots ring) = CAP;
  rk_slot : forall i s, 0 <= i < CAP -> nth_z (slots ring) i = Some s -> slot_ok log i s
}.

Lemma slot_index_mod i : 0 <= i -> slot_index i = i mod CAP.
Proof. intros Hi. unfold slot_index, MASK, CAP. change (16 - 1) with (Z.ones 4). by rewrite Z.land_ones. Qed.

Lemma slot_get ring log i : ring_ok ring log -> 0 <= i ->
  exists s, slot ring i = Some s /\ slot_ok log (i mod CAP) s.
Proof.
  intros HR Hi. unfold slot. rewrite slot_index_mod by done.
  assert (Hm : 0 <= i mod CAP < CAP) by (apply Z.mod_pos_bound; unfold CAP; lia).
  destruct (nth_z_lt (slots ring) (i mod CAP)) as [s Hs]; [by rewrite (rk_slots _ _ HR)|].
  exists s. split; [done|]. by apply (rk_slot _ _ HR).
Qed.

(** The number in the slot of [n]: [n] itself or a whole number of laps on. *)
Lemma slot_seq ring log n :
  ring_ok ring log -> 1 <= n <= len log ->
  exists s, slot ring (n - 1) = Some s /\ seq s = n + CAP * ((len log - n) / CAP) /\
    nth_z log (seq s - 1) = Some (payload s).
Proof.
  intros HR Hn. destruct (slot_get ring log (n - 1) HR ltac:(lia)) as (s & Hs & _ & Hok). exists s.
  split; [done|]. unfold CAP in *. destruct Hok as [[_ Hlt]|(Hq & Hm & Hl & Hat)].
  - pose proof (Z.mod_le (n - 1) 16). lia.
  - split; [|done]. pose proof (Z.div_mod (len log - n) 16). pose proof (Z.mod_pos_bound (len log - n) 16).
    pose proof (Z.div_mod (seq s - 1) 16). pose proof (Z.div_mod (n - 1) 16). lia.
Qed.

Lemma len_write {A} (l1 l2 : list A) : len l1 <= len l2 -> len (l1 ++ drop (length l1) l2) = len l2.
Proof. unfold len. rewrite length_app, length_drop. lia. Qed.

(** ** What the operations do *)

Definition is_full (ring : Ring) : Prop := CAP <= r_write ring - r_read ring.

Lemma wrap_sub ring log : ring_ok ring log -> wrapping_sub (r_write ring) (r_read ring) = r_write ring - r_read ring.
Proof. intros [H1 H2 H3 _ _]. unfold wrapping_sub. rewrite Z.mod_small; lia. Qed.

Lemma len_cons_app {A} (l : list A) x : len (l ++ [x]) = len l + 1.
Proof. unfold len. rewrite length_app. simpl. lia. Qed.

Lemma push_run mode bytes ring log :
  ring_ok ring log -> len bytes <= SLOT -> len log + 1 < 2 ^ 64 - 1 ->
  exists ring' ok, push mode bytes ring = Some (ring', ok) /\
    ok = negb ((CAP <=? r_write ring - r_read ring) && match mode with Newest => true | Oldest => false end) /\
    ring_ok ring' (if ok then log ++ [bytes] else log) /\ r_read ring' = r_read ring.
Proof.
  intros HR Hb Hmax. unfold push. rewrite (wrap_sub ring log HR).
  pose proof HR as [H1 H2 H3 H4 H5]. set (full := CAP <=? r_write ring - r_read ring).
  set (lost := if full then wrapping_add (r_lost ring) 1 else r_lost ring).
  assert (Hgo : exists ring', (at_ ← slot ring (r_write ring);
    if len (data at_) <? len bytes then Some (mkRing (r_write ring) (r_read ring) (r_dropped ring) lost (slots ring), false)
    else Some (publish (wrapping_add (r_write ring) 1) (mkRing (r_write ring) (r_read ring) (r_dropped ring) lost
      (<[Z.to_nat (slot_index (r_write ring)) :=
         mkSlot (wrapping_add (r_write ring) 1) (len bytes) (bytes ++ drop (length bytes) (data at_))]> (slots ring))), true))
      = Some (ring', true) /\ ring_ok ring' (log ++ [bytes]) /\ r_read ring' = r_read ring).
  { pose proof (Nat2Z.is_nonneg (length log)). fold (len log) in *.
    destruct (slot_get ring log (r_write ring) HR ltac:(lia)) as (s & Hs & Hd & _). rewrite Hs. simpl. rewrite Hd.
    rewrite (proj2 (Z.ltb_ge _ _)) by done. eexists. split; [reflexivity|]. split; [|done].
    rewrite slot_index_mod by lia. assert (Hi : 0 <= r_write ring mod CAP < CAP) by (apply Z.mod_pos_bound; unfold CAP; lia).
    assert (Ew : wrapping_add (r_write ring) 1 = len log + 1) by (unfold wrapping_add; rewrite Z.mod_small; lia).
    split; simpl; rewrite ?len_cons_app; [done|lia|lia|unfold len; by rewrite length_insert|].
    intros i t Hi' Ht. destruct (Z.eq_dec i (r_write ring mod CAP)) as [->|Hne].
    - unfold nth_z in Ht. rewrite list_lookup_insert_eq in Ht by (unfold len, CAP in *; lia). injection Ht as <-.
      split; simpl; [rewrite len_write; lia|]. right. rewrite Ew, len_cons_app, H1. split; [lia|].
      split; [f_equal; lia|]. split; [unfold CAP; lia|]. unfold nth_z. rewrite lookup_app_r by (unfold len; lia).
      replace (Z.to_nat (len log + 1 - 1) - length log)%nat with 0%nat by (unfold len; lia). simpl. f_equal.
      unfold payload. simpl. rewrite Z.min_l by lia. unfold len. by rewrite Nat2Z.id, take_app_length.
    - unfold nth_z in Ht. rewrite list_lookup_insert_ne in Ht by lia. destruct (H5 i t Hi' Ht) as [Hdt Hok].
      split; [done|]. rewrite len_cons_app. unfold CAP in *. rewrite H1 in *. destruct Hok as [[Hq Hl]|(Hq & Hm & Hl & Hat)].
      + left. split; [done|]. rewrite Z.mod_small in Hne by lia. lia.
      + right. split; [lia|]. split; [done|]. split.
        * destruct (Z.eq_dec (len log + 1 - seq t) 16) as [E|E]; [|lia]. exfalso. apply Hne. rewrite <- Hm.
          replace (len log) with (seq t - 1 + 1 * 16) by lia. by rewrite Z.mod_add.
        * unfold nth_z in *. rewrite lookup_app_l; [done|]. unfold len in *. lia. }
  destruct full eqn:Hf; simpl.
  - destruct mode; simpl.
    + destruct Hgo as (ring' & Hrun & HR' & Hrd). exists ring', true. done.
    + eexists _, false. split; [reflexivity|]. split; [done|]. split; [|done]. split; done.
  - destruct Hgo as (ring' & Hrun & HR' & Hrd). exists ring', true. destruct mode; done.
Qed.

Lemma pop_loop_S n room c s : slot (c_ring c) (c_next c - 1) = Some s ->
  pop_loop (S n) room c =
    if seq s =? c_next c then
      if room <? len (payload s) then Some (advance c, Err (len (payload s)))
      else Some (advance c, Ok (Some (payload s)))
    else if c_next c <? seq s then
      pop_loop n room (mkCursor (c_ring c) (seq s) (u64_saturating_add (c_skipped c) (seq s - c_next c)))
    else Some (c, Ok None).
Proof. intros Hs. cbn [pop_loop]. by rewrite Hs. Qed.

(** The reader takes its number if the slot still has it, and otherwise the
    number that has replaced it there, whole laps on. *)
Lemma pop_run room c log :
  ring_ok (c_ring c) log -> 1 <= c_next c <= len log + 1 -> 0 <= c_skipped c ->
  if len log <? c_next c then pop room c = Some (c, Ok None)
  else
    let n := c_next c + CAP * ((len log - c_next c) / CAP) in
    exists b c', nth_z log (n - 1) = Some b /\
      pop room c = Some (c', if room <? len b then Err (len b) else Ok (Some b)) /\
      ring_ok (c_ring c') log /\ r_read (c_ring c') = n /\ c_next c' = n + 1 /\
      c_skipped c' = if n =? c_next c then c_skipped c else u64_saturating_add (c_skipped c) (n - c_next c).
Proof.
  intros HR Hn Hs. unfold pop. pose proof HR as [H1 H2 H3 H4 H5]. rewrite H1.
  destruct (Z.ltb_spec (len log) (c_next c)) as [Hlt|Hge]; [done|]. set (n := c_next c + CAP * ((len log - c_next c) / CAP)).
  destruct (slot_seq (c_ring c) log (c_next c) HR ltac:(lia)) as (s & Hslot & Hseq & Hat). fold n in Hseq.
  assert (Hn1 : c_next c <= n <= len log).
  { unfold n, CAP. pose proof (Z.div_pos (len log - c_next c) 16). pose proof (Z.mul_div_le (len log - c_next c) 16). lia. }
  assert (Hw : wrapping_add n 1 = n + 1) by (unfold wrapping_add; rewrite Z.mod_small; lia).
  rewrite Hseq in Hat. change (Z.to_nat CAP) with (S (S 14)). rewrite (pop_loop_S _ room c s Hslot), Hseq.
  destruct (Z.eqb_spec n (c_next c)) as [E|E].
  - exists (payload s). destruct (room <? len (payload s)); eexists;
      (split; [done|]); (split; [reflexivity|]); simpl; rewrite <- E, Hw; (split; [split; simpl; try done; lia|done]).
  - rewrite (proj2 (Z.ltb_lt _ _)) by lia.
    assert (Hslot' : slot (c_ring c) (n - 1) = Some s).
    { rewrite <- Hslot. unfold slot. rewrite !slot_index_mod by lia. f_equal. unfold n, CAP.
      replace (c_next c + 16 * ((len log - c_next c) / 16) - 1) with (c_next c - 1 + (len log - c_next c) / 16 * 16) by lia.
      by rewrite Z.mod_add. }
    rewrite (pop_loop_S _ room (mkCursor (c_ring c) n _) s Hslot'). cbn [c_next]. rewrite Hseq, Z.eqb_refl.
    exists (payload s). destruct (room <? len (payload s)); eexists;
      (split; [done|]); (split; [reflexivity|]); simpl; rewrite Hw; (split; [split; simpl; try done; lia|done]).
Qed.

Lemma empty_ok : ring_ok empty_ring [].
Proof.
  split; [done|by vm_compute|by vm_compute|by vm_compute|].
  intros i s Hi Hs. unfold nth_z in Hs.
  change (slots empty_ring) with (replicate (Z.to_nat CAP) (mkSlot 0 0 (replicate (Z.to_nat SLOT) 0))) in Hs.
  apply lookup_replicate in Hs as [-> _].
  split; [by vm_compute|]. left. split; [done|]. unfold len. simpl. lia.
Qed.

(** ** Claims *)

(** A history: frames pushed in one mode, popped by one reader that started at
    the page's cursor. *)
Inductive history (mode : Mode) : Cursor -> list (list Z) -> Prop :=
| hist_start : history mode (mkCursor empty_ring (cursor empty_ring) 0) []
| hist_push c log bytes ring ok : history mode c log -> len bytes <= SLOT -> len log + 1 < 2 ^ 64 - 1 ->
    push mode bytes (c_ring c) = Some (ring, ok) ->
    history mode (mkCursor ring (c_next c) (c_skipped c)) (if (ok : bool) then log ++ [bytes] else log)
| hist_pop c log room c' r : history mode c log -> pop room c = Some (c', r) -> history mode c' log.

Record hist_ok (mode : Mode) (c : Cursor) (log : list (list Z)) : Prop := {
  ho_ring : ring_ok (c_ring c) log;
  ho_next : c_next c = r_read (c_ring c) + 1;
  ho_skip : 0 <= c_skipped c;
  ho_newest : mode = Newest -> c_skipped c = 0 /\ len log - r_read (c_ring c) <= CAP
}.

Lemma history_ok mode c log : history mode c log -> hist_ok mode c log.
Proof.
  induction 1 as [|c log bytes ring ok _ [H1 H2 H3 H4] Hb Hmax Hrun|c log room c' r _ [H1 H2 H3 H4] Hrun].
  - split; [apply empty_ok|done|done|]. intros _. unfold len. simpl. unfold CAP. lia.
  - destruct (push_run mode bytes (c_ring c) log H1 Hb Hmax) as (ring' & ok' & Hrun' & Hok & HR & Hrd).
    rewrite Hrun in Hrun'. injection Hrun' as <- <-. split; simpl; [done|lia|done|]. intros Hm.
    destruct (H4 Hm) as [Hs Hc]. rewrite Hrd. split; [done|]. destruct ok; [|done]. rewrite len_cons_app.
    rewrite Hm, andb_true_r in Hok. destruct (Z.leb_spec CAP (r_write (c_ring c) - r_read (c_ring c))); [done|].
    rewrite (rk_write _ _ H1) in *. lia.
  - pose proof (rk_read _ _ H1). pose proof (pop_run room c log H1 ltac:(lia) H3) as Hp.
    destruct (Z.ltb_spec (len log) (c_next c)) as [Hlt|Hge].
    + rewrite Hrun in Hp. injection Hp as -> _. by split.
    + destruct Hp as (b & c2 & _ & Hrun' & HR & Hrd & Hnx & Hsk). rewrite Hrun in Hrun'. injection Hrun' as <- _.
      assert (Hdiv : 0 <= (len log - c_next c) / CAP) by (apply Z.div_pos; unfold CAP; lia).
      split; [done|lia| |].
      * rewrite Hsk. case_match; [done|]. unfold u64_saturating_add, CAP in *. lia.
      * intros Hm. destruct (H4 Hm) as [Hs Hc].
        assert ((len log - c_next c) / CAP = 0) as E by (apply Z.div_small; unfold CAP in *; lia).
        rewrite E, Z.mul_0_r, Z.add_0_r in *. rewrite Z.eqb_refl in Hsk. unfold CAP in *. lia.
Qed.

(** A rack that drops the newest frame when full is a lossless bounded
    queue: a push is refused exactly when sixteen frames are unread, a pop
    answers the frames in the order they went in, none left out, and only a
    buffer too short for the frame loses it. *)
Theorem rack_newest_lossless c log :
  history Newest c log ->
  let unread := drop (Z.to_nat (r_read (c_ring c))) log in
  depth (c_ring c) = len unread /\ c_skipped c = 0 /\
  (forall bytes, len bytes <= SLOT -> len log + 1 < 2 ^ 64 - 1 -> exists ring,
     push Newest bytes (c_ring c) = Some (ring, negb (len unread =? CAP))) /\
  (forall room, exists c', pop room c = Some (c',
     match unread with
     | [] => Ok None
     | b :: _ => if room <? len b then Err (len b) else Ok (Some b)
     end)).
Proof.
  intros Hh unread. destruct (history_ok _ _ _ Hh) as [HR Hn Hs Hnew]. destruct (Hnew eq_refl) as [Hs0 Hc].
  pose proof HR as [H1 H2 H3 _ _].
  assert (Hl : len unread = len log - r_read (c_ring c)) by (unfold unread, len in *; rewrite length_drop; lia).
  split_and!.
  - unfold depth. rewrite (wrap_sub _ log) by done. lia.
  - done.
  - intros bytes Hb Hmax. destruct (push_run Newest bytes (c_ring c) log HR Hb Hmax) as (ring & ok & Hrun & -> & _).
    exists ring. rewrite Hrun. do 2 f_equal. rewrite andb_true_r, H1. f_equal. unfold CAP in *.
    destruct (Z.leb_spec 16 (len log - r_read (c_ring c))), (Z.eqb_spec (len unread) 16); (done || lia).
  - intros room. pose proof (pop_run room c log HR ltac:(lia) Hs) as Hp.
    destruct (Z.ltb_spec (len log) (c_next c)) as [Hlt|Hge].
    + exists c. rewrite Hp. destruct unread; [done|unfold len in Hl at 1; simpl in Hl; lia].
    + assert ((len log - c_next c) / CAP = 0) as E by (apply Z.div_small; unfold CAP in *; lia).
      rewrite E, Z.mul_0_r, Z.add_0_r in Hp. destruct Hp as (b & c' & Hb & Hrun & _). exists c'. rewrite Hrun.
      replace (c_next c - 1) with (r_read (c_ring c)) in Hb by lia. unfold nth_z in Hb.
      unfold unread. by rewrite (drop_S log b) by done.
Qed.

Definition rack1 : Cursor :=
  mkCursor (mkRing 1 0 0 0 (mkSlot 1 2 ([7; 8] ++ replicate 446 0) ::
    replicate 15 (mkSlot 0 0 (replicate (Z.to_nat SLOT) 0)))) 1 0.

Lemma rack1_history mode : history mode rack1 [[7; 8]].
Proof.
  apply (hist_push mode _ [] [7; 8] _ true (hist_start mode)).
  - vm_compute. discriminate.
  - vm_compute. reflexivity.
  - destruct mode; vm_compute; reflexivity.
Qed.

Lemma rack_newest_lossless_witness :
  depth (c_ring rack1) = 1 /\ exists c', pop 16 rack1 = Some (c', Ok (Some [7; 8])).
Proof.
  destruct (rack_newest_lossless rack1 [[7; 8]] (rack1_history Newest)) as (H1 & _ & _ & H2).
  split; [exact H1|]. exact (H2 16).
Defined.

(** What a pop answers in either mode, and at what price.  After any
    history, with [n] the next number and [w] frames gone in, it answers frame
    [n + 16 * ((w - n) / 16)] and counts all numbers before it as skipped.  So
    a reader less than a lap behind gets its next frame; one that is a lap
    behind jumps by whole laps, over the frames [w - 15], ... that are still in
    their slots. *)
Theorem rack_pop_jumps mode c log room :
  history mode c log -> c_next c <= len log ->
  let n := c_next c + CAP * ((len log - c_next c) / CAP) in
  exists b c', nth_z log (n - 1) = Some b /\
    pop room c = Some (c', if room <? len b then Err (len b) else Ok (Some b)) /\
    c_next c' = n + 1 /\
    c_skipped c' = (if n =? c_next c then c_skipped c else u64_saturating_add (c_skipped c) (n - c_next c)) /\
    (forall k, len log - CAP < k <= len log -> 1 <= k ->
       exists b, payload_at (c_ring c) k = Some b /\ nth_z log (k - 1) = Some b).
Proof.
  intros Hh Hle n. destruct (history_ok _ _ _ Hh) as [HR Hn Hs _]. pose proof (rk_read _ _ HR).
  pose proof (pop_run room c log HR ltac:(lia) Hs) as Hp. rewrite (proj2 (Z.ltb_ge _ _)) in Hp by done. fold n in Hp.
  destruct Hp as (b & c' & Hb & Hrun & _ & _ & Hnx & Hsk). exists b, c'. split_and!; try done.
  intros k Hk Hk1. destruct (slot_seq (c_ring c) log k HR ltac:(lia)) as (s & Hs' & Hq & Hat).
  exists (payload s). unfold payload_at. rewrite (proj2 (Z.eqb_neq k 0)), Hs' by lia. split; [done|].
  rewrite <- Hat. f_equal. rewrite Hq, Z.div_small by (unfold CAP in *; lia). lia.
Qed.

Lemma rack_pop_jumps_witness :
  exists b c', nth_z [[7; 8]] 0 = Some b /\ pop 16 rack1 = Some (c', if 16 <? len b then Err (len b) else Ok (Some b)).
Proof.
  destruct (rack_pop_jumps Oldest rack1 [[7; 8]] 16 (rack1_history Oldest)) as (b & c' & H1 & H2 & _).
  - vm_compute. discriminate.
  - exists b, c'. split; [exact H1|exact H2].
Defined.
