(* ===== verification/Wire.v ===== *)
(** * Frame codecs ([crates/wire/src/field.rs])

    A frame is a byte slice that the cells of a protocol write and read at a
    running cursor.  [Field] is the fixed-width cell and [Span] the cell that
    knows its own width; every [Field] is a [Span].  [SpanLaws] is the contract
    the frame code relies on, stated once and discharged by every cell type;
    the claims about runs of cells are proved against it. *)

From S2P Require Import Prelude.

Open Scope Z_scope.

(** ** Slices *)

Definition byte (b : Z) : Prop := 0 <= b < 256.

(** [bytes.get(a..b)]. *)
Definition slice (l : list Z) (a b : Z) : option (list Z) :=
  if (a <=? b) && (b <=? len l) then Some (take (Z.to_nat (b - a)) (drop (Z.to_nat a) l)) else None.

(** The slice with [part] written from [a] on. *)
Definition splice (l : list Z) (a : Z) (part : list Z) : list Z :=
  take (Z.to_nat a) l ++ part ++ drop (Z.to_nat a + length part) l.

(** [to_le_bytes] and [from_le_bytes]. *)
Fixpoint to_le (n : nat) (x : Z) : list Z :=
  match n with O => [] | S n => x mod 256 :: to_le n (x / 256) end.

Fixpoint of_le (l : list Z) : Z :=
  match l with [] => 0 | b :: l => b + 256 * of_le l end.

(** [core::str::from_utf8] accepts exactly these byte strings. *)
Definition within (lo hi b : Z) : bool := (lo <=? b) && (b <=? hi).
Definition cont : Z -> bool := within 128 191.

Fixpoint utf8 (l : list Z) : bool :=
  match l with
  | [] => true
  | a :: l1 =>
      if within 0 127 a then utf8 l1
      else match l1 with
      | [] => false
      | b :: l2 =>
          if within 194 223 a && cont b then utf8 l2
          else match l2 with
          | [] => false
          | c :: l3 =>
              if cont c && ((a =? 224) && within 160 191 b
                            || (within 225 236 a || within 238 239 a) && cont b
                            || (a =? 237) && within 128 159 b)
              then utf8 l3
              else match l3 with
              | [] => false
              | d :: l4 =>
                  if cont c && cont d && ((a =? 240) && within 144 191 b
                                          || within 241 243 a && cont b
                                          || (a =? 244) && within 128 143 b)
                  then utf8 l4
                  else false
              end
          end
      end
  end.

(** ** Cells *)

(** [store] is handed a slice and answers its new content; [None] is a panic
    on a slice of the wrong length. *)
Class Field (T : Type) := {
  WIDTH : Z;
  store : T -> list Z -> option (list Z);
  fetch : list Z -> option T
}.
Arguments WIDTH T {_}.

(** [store_at] answers the buffer and the cursor behind the cell; the outer
    [None] is a panic. *)
Class Span (T : Type) := {
  MAX : option Z;
  store_at : T -> list Z -> Z -> option (list Z * option Z);
  fetch_at : list Z -> Z -> option (T * Z)
}.
Arguments MAX T {_}.

Definition field_store_at {T} `{Field T} (x : T) (out : list Z) (at_ : Z) : option (list Z * option Z) :=
  match checked_add at_ (WIDTH T) with
  | None => Some (out, None)
  | Some end_ =>
      match slice out at_ end_ with
      | None => Some (out, None)
      | Some cell => cell' ← store x cell; Some (splice out at_ cell', Some end_)
      end
  end.

Definition field_fetch_at {T} `{Field T} (bytes : list Z) (at_ : Z) : option (T * Z) :=
  end_ ← checked_add at_ (WIDTH T);
  cell ← slice bytes at_ end_;
  x ← fetch cell;
  Some (x, end_).

#[export] Instance Field_Span {T} `{Field T} : Span T := {
  MAX := Some (WIDTH T);
  store_at := field_store_at;
  fetch_at := field_fetch_at
}.

(** [copy_from_slice]. *)
Definition copy_from_slice (dst src : list Z) : option (list Z) :=
  if len dst =? len src then Some src else None.

Record u8 := U8 { u8_val : Z }.
Record u32 := U32 { u32_val : Z }.
Record u64 := U64 { u64_val : Z }.
Record bytes8 := Bytes8 { bytes8_val : list Z }.
Record Str := mkStr { as_bytes : list Z }.

Definition store_first (b : Z) (out : list Z) : option (list Z) :=
  match out with [] => None | _ :: rest => Some (b :: rest) end.

#[export] Instance u8_Field : Field u8 := {
  WIDTH := 1;
  store x out := store_first (u8_val x) out;
  fetch bytes := b ← head bytes; Some (U8 b)
}.

#[export] Instance bool_Field : Field bool := {
  WIDTH := 1;
  store x out := store_first (if x : bool then 1 else 0) out;
  fetch bytes := b ← head bytes; if b =? 0 then Some false else if b =? 1 then Some true else None
}.

#[export] Instance u32_Field : Field u32 := {
  WIDTH := 4;
  store x out := copy_from_slice out (to_le 4 (u32_val x));
  fetch bytes := raw ← slice bytes 0 4; Some (U32 (of_le raw))
}.

#[export] Instance bytes8_Field : Field bytes8 := {
  WIDTH := 8;
  store x out := copy_from_slice out (bytes8_val x);
  fetch bytes := raw ← slice bytes 0 8; Some (Bytes8 raw)
}.

#[export] Instance u64_Field : Field u64 := {
  WIDTH := 8;
  store x out := copy_from_slice out (to_le 8 (u64_val x));
  fetch bytes := raw ← slice bytes 0 8; Some (U64 (of_le raw))
}.

Definition str_store_at (x : Str) (out : list Z) (at_ : Z) : option (list Z * option Z) :=
  let bytes := as_bytes x in
  if 255 <? len bytes then Some (out, None)
  else match checked_add at_ (1 + len bytes) with
  | None => Some (out, None)
  | Some end_ =>
      match slice out at_ end_ with
      | None => Some (out, None)
      | Some [] => None
      | Some (_ :: rest) => body ← copy_from_slice rest bytes; Some (splice out at_ (len bytes :: body), Some end_)
      end
  end.

Definition str_fetch_at (bytes : list Z) (at_ : Z) : option (Str * Z) :=
  n ← nth_z bytes at_;
  end_ ← checked_add at_ (1 + n);
  text ← slice bytes (at_ + 1) end_;
  if utf8 text then Some (mkStr text, end_) else None.

#[export] Instance Str_Span : Span Str := {
  MAX := None;
  store_at := str_store_at;
  fetch_at := str_fetch_at
}.

(** ** Frame lengths *)

Fixpoint total_from (sum : Z) (parts : list (option Z)) : option Z :=
  match parts with
  | [] => Some sum
  | Some n :: parts => next ← checked_add sum n; total_from next parts
  | None :: _ => None
  end.
Definition total (parts : list (option Z)) : option Z := total_from 0 parts.

Definition times (count : Z) (one : option Z) : option Z := n ← one; checked_mul count n.

(** ** Runs of cells *)

Fixpoint store_tail {T} `{Span T} (out : list Z) (at_ : Z) (items : list T) : option (list Z * option Z) :=
  match items with
  | [] => Some (out, Some at_)
  | item :: items =>
      r ← store_at item out at_;
      match r.2 with
      | None => Some r
      | Some next => store_tail r.1 next items
      end
  end.

Fixpoint fetch_tail {T} `{Span T} (bytes : list Z) (at_ : Z) (into : list T) : list T * option Z :=
  match into with
  | [] => ([], Some at_)
  | old :: into =>
      match fetch_at bytes at_ with
      | None => (old :: into, None)
      | Some (x, next) => let r := fetch_tail bytes next into in (x :: r.1, r.2)
      end
  end.

Definition store_bytes (out : list Z) (at_ : Z) (bytes : list Z) : option (list Z * option Z) :=
  match checked_add at_ (len bytes) with
  | None => Some (out, None)
  | Some end_ =>
      match slice out at_ end_ with
      | None => Some (out, None)
      | Some cell => cell' ← copy_from_slice cell bytes; Some (splice out at_ cell', Some end_)
      end
  end.

Definition fetch_bytes (bytes : list Z) (at_ : Z) : option (list Z) := slice bytes at_ (len bytes).

(** ** Slice lemmas *)

Definition buffer (l : list Z) : Prop := Forall byte l /\ len l <= usize_MAX.

Lemma slice_Some l a b p :
  0 <= a -> slice l a b = Some p <-> a <= b <= len l /\ exists l1 l2, l = l1 ++ p ++ l2 /\ len l1 = a /\ len p = b - a.
Proof.
  intros Ha. unfold slice, len. split.
  - destruct (Z.leb_spec a b), (Z.leb_spec b (Z.of_nat (length l))); intros H'; try done. injection H' as <-. split; [lia|].
    exists (take (Z.to_nat a) l), (drop (Z.to_nat (b - a)) (drop (Z.to_nat a) l)).
    rewrite !take_drop, !length_take, length_drop. split; [done|lia].
  - intros (Hab & l1 & l2 & -> & H1 & H2). rewrite (proj2 (Z.leb_le a b)), (proj2 (Z.leb_le b _)) by lia. simpl.
    f_equal. rewrite drop_app_length' by lia. by rewrite take_app_length' by lia.
Qed.

Lemma slice_fit l a b : 0 <= a <= b -> b <= len l -> exists p, slice l a b = Some p /\ len p = b - a.
Proof.
  intros Ha Hb. unfold slice, len in *. rewrite (proj2 (Z.leb_le a b)), (proj2 (Z.leb_le b _)) by lia. simpl.
  eexists. split; [done|]. rewrite length_take, length_drop. lia.
Qed.

Lemma slice_short l a b : len l < b -> slice l a b = None.
Proof. intros Hb. unfold slice. rewrite (proj2 (Z.leb_gt b _)) by lia. by rewrite andb_false_r. Qed.

Lemma splice_slice l a p : 0 <= a -> a + len p <= len l -> slice (splice l a p) a (a + len p) = Some p.
Proof.
  intros Ha Hp. apply slice_Some; [done|]. unfold splice, len in *. rewrite !length_app, length_take, length_drop.
  split; [lia|]. eexists _, _. split; [done|]. rewrite length_take. lia.
Qed.

Lemma splice_same l a p : 0 <= a -> slice l a (a + len p) = Some p -> splice l a p = l.
Proof.
  intros Ha Hs. apply slice_Some in Hs as (_ & l1 & l2 & -> & H1 & _); [|done]. unfold splice.
  assert (Z.to_nat a = length l1) as -> by (unfold len in H1; lia). rewrite take_app_length.
  rewrite <- (length_app l1 p), (app_assoc l1 p l2), drop_app_length. by rewrite app_assoc.
Qed.

Lemma len_splice l a p : 0 <= a -> a + len p <= len l -> len (splice l a p) = len l.
Proof. intros Ha Hp. unfold splice, len in *. rewrite !length_app, length_take, length_drop. lia. Qed.

Lemma splice_splice l a p q :
  0 <= a -> a + len p + len q <= len l -> splice (splice l a p) (a + len p) q = splice l a (p ++ q).
Proof.
  intros Ha Hp. unfold splice, len in *.
  rewrite (app_assoc (take _ l) p), take_app_length' by (rewrite length_app, length_take; lia).
  rewrite <- !app_assoc. do 3 f_equal. rewrite (app_assoc (take _ l) p), drop_app.
  rewrite drop_ge by (rewrite length_app, length_take; lia). simpl. rewrite drop_drop, !length_app, length_take. f_equal. lia.
Qed.

Lemma slice_app l a p q :
  0 <= a -> slice l a (a + len (p ++ q)) = Some (p ++ q) <->
  slice l a (a + len p) = Some p /\ slice l (a + len p) (a + len p + len q) = Some q.
Proof.
  intros Ha. pose proof (len_nonneg p). pose proof (len_nonneg q). rewrite !slice_Some by lia. rewrite len_app. split.
  - intros (Hb & l1 & l2 & -> & H1 & H2). split; (split; [lia|]).
    + exists l1, (q ++ l2). rewrite <- app_assoc. split; [done|lia].
    + exists (l1 ++ p), l2. rewrite len_app, <- !app_assoc. split; [done|lia].
  - intros ((Hb1 & l1 & l2 & -> & H1 & _) & (Hb2 & l3 & l4 & E & H3 & _)). split; [lia|].
    exists l1. rewrite (app_assoc l1 p l2) in E. apply app_inj_1 in E as [<- ->].
    + exists l4. rewrite <- !app_assoc. split; [done|lia].
    + unfold len in *. rewrite length_app. lia.
Qed.

Lemma buffer_slice l a b p : buffer l -> 0 <= a -> slice l a b = Some p -> buffer p /\ b <= usize_MAX.
Proof.
  intros [Hf Hm] Ha Hs. apply slice_Some in Hs as (Hb & l1 & l2 & -> & H1 & H2); [|done].
  apply Forall_app in Hf as [_ Hf]. apply Forall_app in Hf as [Hf _]. split; [split; [done|lia]|lia].
Qed.

(** ** Contracts *)

Class FieldLaws (T : Type) `{Field T} := {
  f_ok : T -> Prop;
  f_encode : T -> list Z;
  f_width : 0 <= WIDTH T <= 8;
  f_len x : f_ok x -> len (f_encode x) = WIDTH T;
  f_bytes x : f_ok x -> Forall byte (f_encode x);
  f_store x out : f_ok x -> len out = WIDTH T -> store x out = Some (f_encode x);
  f_fetch x bytes : buffer bytes -> len bytes = WIDTH T -> fetch bytes = Some x <-> f_ok x /\ bytes = f_encode x
}.

(** [v_encode] is the bytes of a cell, [None] where there are none that say
    it. *)
Class SpanLaws (T : Type) `{Span T} := {
  v_ok : T -> Prop;
  v_encode : T -> option (list Z);
  v_max x e m : MAX T = Some m -> v_ok x -> v_encode x = Some e -> len e <= m;
  v_known m x : MAX T = Some m -> v_ok x -> is_Some (v_encode x);
  v_bytes x e : v_ok x -> v_encode x = Some e -> Forall byte e;
  v_store x out at_ : v_ok x -> buffer out -> usize at_ -> store_at x out at_ =
    match v_encode x with
    | Some e => if at_ + len e <=? len out then Some (splice out at_ e, Some (at_ + len e)) else Some (out, None)
    | None => Some (out, None)
    end;
  v_fetch x bytes at_ end_ : buffer bytes -> usize at_ -> fetch_at bytes at_ = Some (x, end_) <->
    v_ok x /\ exists e, v_encode x = Some e /\ end_ = at_ + len e /\ slice bytes at_ end_ = Some e
}.

Lemma checked_add_fit x y : 0 <= x + y -> x + y <= usize_MAX -> checked_add x y = Some (x + y).
Proof. intros H0 H1. apply checked_Some. split; [done|]. by apply usize_iff. Qed.

Lemma checked_add_over x y : usize_MAX < x + y -> checked_add x y = None.
Proof. intros H1. apply checked_None. rewrite usize_iff. lia. Qed.

(** Past the buffer, whether or not the addition overflows. *)
Lemma no_room {A} (out : list Z) a n (k : Z -> list Z -> option (list Z * option A)) :
  buffer out -> len out < a + n ->
  match checked_add a n with
  | None => Some (out, None)
  | Some end_ => match slice out a end_ with None => Some (out, None) | Some cell => k end_ cell end
  end = Some (out, None).
Proof.
  intros [_ Hm] Hlt. destruct (checked_add a n) as [e|] eqn:E; [|done].
  apply checked_Some in E as [<- _]. by rewrite slice_short.
Qed.

#[export] Instance Field_SpanLaws {T} `{FieldLaws T} : SpanLaws T.
Proof.
  pose proof (f_width (T := T)) as Hw.
  refine {| v_ok := f_ok; v_encode := fun x => Some (f_encode x) |}.
  - intros x e m Hm Hx He. injection He as <-. injection Hm as <-. by rewrite f_len.
  - done.
  - intros x e Hx He. injection He as <-. by apply f_bytes.
  - intros x out at_ Hx Hb Ha. apply usize_iff in Ha. simpl. unfold field_store_at. rewrite (f_len x) by done.
    destruct (Z.leb_spec (at_ + WIDTH T) (len out)) as [Hle|Hlt].
    + destruct Hb as [_ Hm]. rewrite checked_add_fit by lia.
      destruct (slice_fit out at_ (at_ + WIDTH T)) as (p & -> & Hp); [lia|done|]. by rewrite f_store by (done || lia).
    + by apply no_room.
  - intros x bytes at_ end_ Hb Ha. apply usize_iff in Ha. simpl. unfold field_fetch_at. split.
    + intros Hf. destruct (checked_add at_ (WIDTH T)) as [e|] eqn:Ee; [|done]. apply checked_Some in Ee as [<- Hu]. simpl in Hf.
      destruct (slice bytes at_ (at_ + WIDTH T)) as [p|] eqn:Hp; [|done]. simpl in Hf.
      destruct (fetch p) as [y|] eqn:Hy; [|done]. injection Hf as -> <-.
      pose proof Hp as Hp'. apply slice_Some in Hp' as (_ & _ & _ & _ & _ & Hl); [|lia].
      apply f_fetch in Hy as [Hx ->]; [|by eapply buffer_slice in Hp as [? _]; [| |lia]|lia].
      split; [done|]. exists (f_encode x). rewrite f_len by done. done.
    + intros (Hx & e & He & -> & Hs). injection He as <-. rewrite f_len in * by done.
      destruct (buffer_slice _ _ _ _ Hb (proj1 Ha) Hs) as [Hbe Hm]. rewrite checked_add_fit by lia. simpl. rewrite Hs. simpl.
      rewrite (proj2 (f_fetch x _ Hbe (f_len x Hx))); done.
Defined.

(** ** The cell types keep the contract *)

Lemma len_to_le n x : len (to_le n x) = Z.of_nat n.
Proof. revert x. induction n as [|n IH]; intros x; [done|]. cbn [to_le]. unfold len in *. simpl. rewrite Nat2Z.inj_succ, IH. lia. Qed.

Lemma to_le_bytes n x : Forall byte (to_le n x).
Proof.
  revert x. induction n as [|n IH]; intros x; simpl; constructor; [|done]. apply Z.mod_pos_bound. lia.
Qed.

Lemma of_to_le n x : 0 <= x < 256 ^ Z.of_nat n -> of_le (to_le n x) = x.
Proof.
  revert x. induction n as [|n IH]; intros x Hx; [simpl in *; lia|]. cbn [to_le of_le].
  rewrite Nat2Z.inj_succ, Z.pow_succ_r in Hx by lia. rewrite IH.
  - pose proof (Z.div_mod x 256). lia.
  - split; [apply Z.div_pos; lia|]. apply Z.div_lt_upper_bound; lia.
Qed.

Lemma to_of_le n l : Forall byte l -> length l = n -> to_le n (of_le l) = l /\ 0 <= of_le l < 256 ^ Z.of_nat n.
Proof.
  intros Hf <-. induction Hf as [|b l Hb Hf [IH1 IH2]]; [done|]. cbn [length to_le of_le].
  rewrite Nat2Z.inj_succ, Z.pow_succ_r by lia. unfold byte in Hb.
  rewrite (Z.mul_comm 256 (of_le l)), Z.mod_add, Z.mod_small, Z.div_add, Z.div_small, Z.add_0_l, IH1 by lia. split; [done|lia].
Qed.

Lemma slice_all l n : len l = n -> slice l 0 n = Some l.
Proof.
  intros <-. unfold slice. rewrite (proj2 (Z.leb_le 0 _)), Z.leb_refl by apply len_nonneg. simpl.
  rewrite drop_0, take_ge; [done|]. unfold len. lia.
Qed.

Lemma copy_same dst src : len dst = len src -> copy_from_slice dst src = Some src.
Proof. intros E. unfold copy_from_slice. by rewrite E, Z.eqb_refl. Qed.

Lemma len_one (l : list Z) : len l = 1 -> exists b, l = [b].
Proof. destruct l as [|b [|? ?]]; intros H; unfold len in H; simpl in H; [lia|by eexists|lia]. Qed.

(** The little-endian integers, in one lemma for both widths. *)
Lemma le_fetch (n : nat) x bytes :
  buffer bytes -> len bytes = Z.of_nat n ->
  of_le bytes = x <-> 0 <= x < 256 ^ Z.of_nat n /\ bytes = to_le n x.
Proof.
  intros [Hf _] Hl. destruct (to_of_le n bytes Hf) as [E1 E2]; [unfold len in Hl; lia|]. split.
  - intros <-. by rewrite E1.
  - intros [Hx ->]. by apply of_to_le.
Qed.

#[export] Instance u8_Laws : FieldLaws u8.
Proof.
  refine {| f_ok x := byte (u8_val x); f_encode x := [u8_val x] |}.
  - simpl. lia.
  - done.
  - intros x Hx. by constructor.
  - intros x out _ Hl. apply len_one in Hl as [b ->]. done.
  - intros x bytes [Hf _] Hl. apply len_one in Hl as [b ->]. simpl. rewrite Forall_singleton in Hf. split.
    + injection 1 as <-. by split.
    + intros [_ [= ->]]. by destruct x.
Defined.

#[export] Instance bool_Laws : FieldLaws bool.
Proof.
  refine {| f_ok _ := True; f_encode x := [if x : bool then 1 else 0] |}.
  - simpl. lia.
  - done.
  - intros x Hx. constructor; [destruct x; unfold byte; lia|done].
  - intros x out _ Hl. apply len_one in Hl as [b ->]. done.
  - intros x bytes _ Hl. apply len_one in Hl as [b ->]. simpl.
    destruct (Z.eqb_spec b 0) as [->|H0]; [|destruct (Z.eqb_spec b 1) as [->|H1]]; destruct x; split; intros H; try done; destruct H as [_ [= H]]; lia.
Defined.

#[export] Instance u32_Laws : FieldLaws u32.
Proof.
  refine {| f_ok x := fits 32 (u32_val x); f_encode x := to_le 4 (u32_val x) |}.
  - simpl. lia.
  - intros x _. apply len_to_le.
  - intros x _. apply to_le_bytes.
  - intros x out _ Hl. apply copy_same. by rewrite Hl, len_to_le.
  - intros [x] bytes Hb Hl. cbn [fetch u32_Field]. rewrite (slice_all _ 4) by done.
    rewrite <- (le_fetch 4 x bytes Hb Hl). simpl. split; [by injection 1|by intros ->].
Defined.

#[export] Instance u64_Laws : FieldLaws u64.
Proof.
  refine {| f_ok x := fits 64 (u64_val x); f_encode x := to_le 8 (u64_val x) |}.
  - simpl. lia.
  - intros x _. apply len_to_le.
  - intros x _. apply to_le_bytes.
  - intros x out _ Hl. apply copy_same. by rewrite Hl, len_to_le.
  - intros [x] bytes Hb Hl. cbn [fetch u64_Field]. rewrite (slice_all _ 8) by done.
    rewrite <- (le_fetch 8 x bytes Hb Hl). simpl. split; [by injection 1|by intros ->].
Defined.

#[export] Instance bytes8_Laws : FieldLaws bytes8.
Proof.
  refine {| f_ok x := Forall byte (bytes8_val x) /\ len (bytes8_val x) = 8; f_encode := bytes8_val |}.
  - simpl. lia.
  - by intros x [_ H].
  - by intros x [H _].
  - intros x out [_ Hx] Hl. apply copy_same. by rewrite Hl, Hx.
  - intros [x] bytes [Hb _] Hl. cbn [fetch bytes8_Field bytes8_val]. rewrite (slice_all _ 8) by done.
    simpl in *. split; [by injection 1 as <-|by intros [_ ->]].
Defined.

Definition str_encode (x : Str) : option (list Z) :=
  if 255 <? len (as_bytes x) then None else Some (len (as_bytes x) :: as_bytes x).

Lemma slice_cons l a b x p :
  0 <= a -> slice l a b = Some (x :: p) <-> nth_z l a = Some x /\ a + 1 <= b /\ slice l (a + 1) b = Some p.
Proof.
  intros Ha. rewrite !slice_Some by lia. rewrite len_cons. split.
  - intros (Hb & l1 & l2 & -> & H1 & H2). pose proof (len_nonneg p). split; [|split; [lia|split; [lia|]]].
    + unfold nth_z. unfold len in H1. cbn [app]. by rewrite list_lookup_middle by lia.
    + exists (l1 ++ [x]), l2. rewrite len_app, <- app_assoc. split; [done|]. unfold len in *. simpl. lia.
  - intros (Hx & Hab & Hb & l1 & l2 & -> & H1 & H2). split; [lia|].
    destruct l1 as [|y l1 _] using rev_ind; [unfold len in H1; simpl in H1; lia|]. rewrite len_app in H1.
    change (len [y]) with 1 in H1. unfold nth_z in Hx. rewrite <- app_assoc in Hx. cbn [app] in Hx. unfold len in *.
    rewrite list_lookup_middle in Hx by lia. injection Hx as ->. exists l1, l2. rewrite <- app_assoc. split; [done|lia].
Qed.

#[export] Instance Str_Laws : SpanLaws Str.
Proof.
  refine {| v_ok x := utf8 (as_bytes x) = true /\ Forall byte (as_bytes x); v_encode := str_encode |}.
  - done.
  - done.
  - intros x e [_ Hx]. unfold str_encode. destruct (Z.ltb_spec 255 (len (as_bytes x))); [done|]. intros [= <-].
    constructor; [|done]. pose proof (len_nonneg (as_bytes x)). unfold byte. lia.
  - intros x out at_ _ Hb Ha. apply usize_iff in Ha. pose proof (len_nonneg (as_bytes x)). simpl. unfold str_store_at, str_encode.
    destruct (Z.ltb_spec 255 (len (as_bytes x))) as [Hl|Hl]; [done|]. rewrite len_cons.
    destruct (Z.leb_spec (at_ + (1 + len (as_bytes x))) (len out)) as [Hle|Hlt]; [|by apply no_room].
    destruct Hb as [_ Hm]. rewrite checked_add_fit by lia.
    destruct (slice_fit out at_ (at_ + (1 + len (as_bytes x)))) as (p & -> & Hp); [lia|done|].
    destruct p as [|y p]; [unfold len in Hp; simpl in Hp; unfold len in *; lia|]. rewrite len_cons in Hp.
    by rewrite copy_same by lia.
  - intros [t] bytes at_ end_ Hb Ha. apply usize_iff in Ha. simpl. unfold str_fetch_at, str_encode. simpl. split.
    + intros Hf. destruct (nth_z bytes at_) as [n|] eqn:Hn; [|done]. simpl in Hf.
      destruct (checked_add at_ (1 + n)) as [e|] eqn:Ee; [|done]. apply checked_Some in Ee as [<- Hu]. simpl in Hf.
      destruct (slice bytes (at_ + 1) (at_ + (1 + n))) as [p|] eqn:Hp; [|done]. simpl in Hf.
      destruct (utf8 p) eqn:Hut; [|done]. injection Hf as -> <-.
      assert (Hby : byte n) by (destruct Hb as [Hb _]; eapply Forall_lookup_1; [exact Hb|exact Hn]). unfold byte in Hby.
      destruct (buffer_slice _ (at_ + 1) _ _ Hb ltac:(lia) Hp) as [[Hft _] _].
      pose proof Hp as Hp'. apply slice_Some in Hp' as (? & _ & _ & _ & _ & Hl); [|lia].
      split; [done|]. exists (n :: t). assert (len t = n) as -> by lia. rewrite (proj2 (Z.ltb_ge 255 n)), len_cons by lia.
      split; [done|]. split; [lia|]. apply slice_cons; [lia|]. split; [done|]. split; [lia|done].
    + intros ([Hut Hft] & e & He & -> & Hs). destruct (Z.ltb_spec 255 (len t)); [done|]. injection He as <-.
      pose proof (len_nonneg t). destruct (buffer_slice _ _ _ _ Hb (proj1 Ha) Hs) as [_ Hm].
      apply slice_cons in Hs as (Hn & _ & Hs); [|lia]. rewrite Hn. simpl. rewrite len_cons in *.
      rewrite checked_add_fit by lia. simpl. rewrite Hs. simpl. by rewrite Hut.
Defined.

(** ** Runs of cells, against the contract *)

Section runs.
Context {T : Type} `{SpanLaws T}.

Fixpoint encode_all (items : list T) : option (list Z) :=
  match items with
  | [] => Some []
  | x :: items => e ← v_encode x; es ← encode_all items; Some (e ++ es)
  end.

Lemma buffer_splice out a e : buffer out -> Forall byte e -> 0 <= a -> a + len e <= len out -> buffer (splice out a e).
Proof.
  intros [Hf Hm] He Ha Hl. split; [|by rewrite len_splice].
  unfold splice. apply Forall_app; split; [by apply Forall_take|]. apply Forall_app; split; [done|by apply Forall_drop].
Qed.

Lemma store_tail_run out at_ items :
  Forall v_ok items -> buffer out -> 0 <= at_ <= len out ->
  match encode_all items with
  | Some e =>
  if at_ + len e <=? len out then store_tail out at_ items = Some (splice out at_ e, Some (at_ + len e))
  else exists out', store_tail out at_ items = Some (out', None) /\ len out' = len out
  | None => exists out', store_tail out at_ items = Some (out', None) /\ len out' = len out
  end.
Proof.
  intros Hok. revert out at_. induction Hok as [|x items Hx Hok IH]; intros out at_ Hb Ha.
  - simpl. change (len (@nil Z)) with 0. rewrite Z.add_0_r, (proj2 (Z.leb_le _ _)) by lia. unfold splice. simpl.
  by rewrite Nat.add_0_r, take_drop.
  - assert (Hu : usize at_) by (destruct Hb as [_ Hm]; apply usize_iff; lia).
  cbn [encode_all store_tail]. rewrite (v_store x out at_ Hx Hb Hu).
  destruct (v_encode x) as [e|] eqn:He; simpl; [|by exists out].
  destruct (Z.leb_spec (at_ + len e) (len out)) as [Hle|Hlt]; simpl.
  + pose proof (len_nonneg e). specialize (IH (splice out at_ e) (at_ + len e)).
  assert (Hb' : buffer (splice out at_ e)) by (apply buffer_splice; [done|by eapply v_bytes|lia|done]).
  rewrite len_splice in IH by lia. specialize (IH Hb' ltac:(lia)).
  destruct (encode_all items) as [es|]; simpl; [|done]. rewrite len_app, Z.add_assoc.
  destruct (Z.leb_spec (at_ + len e + len es) (len out)); [|done]. by rewrite splice_splice in IH by lia.
  + destruct (encode_all items) as [es|]; simpl; [|by exists out]. pose proof (len_nonneg es).
  rewrite len_app, (proj2 (Z.leb_gt _ _)) by lia. by exists out.
Qed.

Lemma fetch_tail_run bytes at_ into items end_ :
  buffer bytes -> 0 <= at_ <= len bytes ->
  fetch_tail bytes at_ into = (items, Some end_) <->
  length items = length into /\ Forall v_ok items /\
  exists e, encode_all items = Some e /\ end_ = at_ + len e /\ slice bytes at_ end_ = Some e.
Proof.
  intros Hb. revert at_ items end_. induction into as [|old into IH]; intros at_ items end_ Ha; cbn [fetch_tail].
  - split.
  + intros [= <- <-]. split; [done|]. split; [done|]. exists []. split; [done|]. change (len (@nil Z)) with 0.
  split; [lia|]. apply slice_Some; [lia|]. split; [lia|]. exists (take (Z.to_nat at_) bytes), (drop (Z.to_nat at_) bytes).
  simpl. rewrite take_drop. split; [done|]. unfold len in *. rewrite length_take. simpl. lia.
  + intros (Hl & _ & e & He & -> & _). destruct items; [|done]. injection He as <-. do 2 f_equal. unfold len. simpl. lia.
  - assert (Hu : usize at_) by (destruct Hb as [_ Hm]; apply usize_iff; lia). split.
  + intros Hf. destruct (fetch_at bytes at_) as [[x next]|] eqn:Hx; [|done].
  apply v_fetch in Hx as (Hx & e & He & -> & Hs); [|done|done]. simpl in Hf. injection Hf as <- Hr.
  pose proof Hs as Hs'. apply slice_Some in Hs' as (Hle & _); [|lia].
  destruct (fetch_tail bytes (at_ + len e) into) as [items' c] eqn:Hi. simpl in *. subst c.
  apply IH in Hi as (Hl & Hok & es & Hes & -> & Hss); [|lia]. split; [by rewrite Hl|]. split; [by constructor|].
  exists (e ++ es). rewrite He, Hes. rewrite len_app, Z.add_assoc. split; [done|]. split; [done|].
  rewrite <- Z.add_assoc, <- len_app. by apply slice_app; [lia|].
  + intros (Hl & Hok & e & He & -> & Hs). destruct items as [|x items]; [done|]. injection Hl as Hl.
  apply Forall_cons in Hok as [Hx Hok]. cbn [encode_all] in He. destruct (v_encode x) as [e1|] eqn:E1; [|done].
  destruct (encode_all items) as [es|] eqn:E2; [|done]. injection He as <-. apply slice_app in Hs as [Hs1 Hs2]; [|lia].
  assert (Hf : fetch_at bytes at_ = Some (x, at_ + len e1)) by (apply v_fetch; [done..|]; eauto).
  pose proof Hs1 as Hs'. apply slice_Some in Hs' as (Hle & _); [|lia].
  rewrite Hf. simpl. assert (fetch_tail bytes (at_ + len e1) into = (items, Some (at_ + len e1 + len es))) as ->.
  { apply IH; [lia|]. split_and!; eauto. }
  simpl. rewrite len_app. do 2 f_equal. lia.
Qed.

(** C25: a run of cells written at a cursor reads back as it was, whatever the
cells held that it is read into, and nothing outside the run changes; a
write that answers no cursor is one whose cells do not fit or cannot be
said in a frame.  Nothing panics. *)
Theorem tail_roundtrip out at_ items into :
  Forall v_ok items -> buffer out -> 0 <= at_ <= len out -> length into = length items ->
  match store_tail out at_ items with
  | None => False
  | Some (out', None) =>
  len out' = len out /\ (forall e, encode_all items = Some e -> len out < at_ + len e)
  | Some (out', Some end_) =>
  fetch_tail out' at_ into = (items, Some end_) /\ at_ <= end_ <= len out /\ len out' = len out /\
  take (Z.to_nat at_) out' = take (Z.to_nat at_) out /\ drop (Z.to_nat end_) out' = drop (Z.to_nat end_) out
  end.
Proof.
  intros Hok Hb Ha Hl. pose proof (store_tail_run out at_ items Hok Hb Ha) as Hrun.
  destruct (encode_all items) as [e|] eqn:He.
  - destruct (Z.leb_spec (at_ + len e) (len out)) as [Hle|Hlt].
  + rewrite Hrun. pose proof (len_nonneg e). rewrite len_splice by lia. split; [|split; [lia|split; [done|]]].
  * assert (Hbe : Forall byte e).
    { clear -Hok He. revert e He. induction Hok as [|x items Hx Hok IH]; intros e He; [by injection He as <-|].
      cbn [encode_all] in He. destruct (v_encode x) as [e1|] eqn:E1; [|done].
      destruct (encode_all items) as [es|]; [|done]. injection He as <-. apply Forall_app. split; [by eapply v_bytes|by apply IH]. }
    apply fetch_tail_run; [by apply buffer_splice; [done|done|lia|done]|rewrite len_splice; lia|].
    split; [done|]. split; [done|]. exists e. split; [done|]. split; [done|]. apply splice_slice; lia.
  * unfold splice, len in *. rewrite take_app_length' by (rewrite length_take; lia). split; [done|].
    rewrite app_assoc, drop_app_length' by (rewrite length_app, length_take; lia). f_equal. lia.
  + destruct Hrun as (out' & -> & Hlen). split; [done|]. intros e' [= <-]. done.
  - destruct Hrun as (out' & -> & Hlen). split; [done|]. done.
Qed.

(** What a decoder accepts is canonical.  If a run of cells reads from
arbitrary bytes, every cell is a proper value, the run ends inside the
bytes, and writing the cells back there leaves every byte as it was. *)
Theorem fetch_canonical bytes at_ into items end_ :
  buffer bytes -> 0 <= at_ <= len bytes -> fetch_tail bytes at_ into = (items, Some end_) ->
  Forall v_ok items /\ at_ <= end_ <= len bytes /\ store_tail bytes at_ items = Some (bytes, Some end_).
Proof.
  intros Hb Ha Hf. apply fetch_tail_run in Hf as (_ & Hok & e & He & -> & Hs); [|done|done].
  pose proof Hs as Hs'. apply slice_Some in Hs' as (Hle & _); [|lia].
  pose proof (store_tail_run bytes at_ items Hok Hb Ha) as Hrun. rewrite He, (proj2 (Z.leb_le _ _)) in Hrun by lia.
  by rewrite splice_same in Hrun by (done || lia).
Qed.

(** The length a frame declares is enough.  For cells with a known bound
[times] answers the bound of the whole run unless it overflows, and any
buffer with that much room from the cursor on takes every such run. *)
Theorem times_suffices out at_ items m :
  Forall v_ok items -> buffer out -> 0 <= at_ -> times (len items) (MAX T) = Some m -> at_ + m <= len out ->
  exists out' end_, store_tail out at_ items = Some (out', Some end_) /\ end_ <= at_ + m.
Proof.
  intros Hok Hb Ha Hm Hfit. unfold times in Hm. destruct (MAX T) as [one|] eqn:Hmax; [|done].
  simpl in Hm. apply checked_Some in Hm as [<- Hu]. apply usize_iff in Hu.
  assert (exists e, encode_all items = Some e /\ len e <= len items * one) as (e & He & Hle).
  { clear -Hok Hmax. induction Hok as [|x items Hx Hok (e & IH & Hle)]; [by exists []|].
  destruct (v_known one x Hmax Hx) as [e1 E1]. exists (e1 ++ e). cbn [encode_all]. rewrite E1, IH.
  split; [done|]. pose proof (v_max x e1 one Hmax Hx E1). rewrite len_app, len_cons. lia. }
  pose proof (store_tail_run out at_ items Hok Hb ltac:(lia)) as Hrun. rewrite He, (proj2 (Z.leb_le _ _)) in Hrun by lia.
  eexists _, _. split; [exact Hrun|lia].
Qed.
End runs.

(** The parts of a frame: known bounds add up, and only an unknown one or an
    overflow has no total. *)
Lemma total_from_run parts sum m :
  0 <= sum <= usize_MAX -> Forall (fun p => forall n, p = Some n -> 0 <= n) parts ->
  total_from sum parts = Some m <->
  exists ns, parts = Some <$> ns /\ m = sum + foldr Z.add 0 ns /\ m <= usize_MAX.
Proof.
  intros Hs Hf. revert sum Hs. induction Hf as [|p parts Hp Hf IH]; intros sum Hs; cbn [total_from].
  - split; [intros [= <-]; exists []; simpl; split; [done|lia]|]. intros (ns & E & -> & _). destruct ns; [|done]. simpl. f_equal. lia.
  - destruct p as [n|].
    + specialize (Hp n eq_refl). assert (Hpos : forall ns, parts = Some <$> ns -> 0 <= foldr Z.add 0 ns).
      { intros ns. clear -Hf. revert ns. induction Hf as [|p parts Hp Hf IH]; intros [|k ns] E; try done. injection E as -> E.
        specialize (Hp k eq_refl). specialize (IH ns E). simpl. lia. }
      destruct (checked_add sum n) as [s'|] eqn:E; simpl.
      * apply checked_Some in E as [<- Hu]. apply usize_iff in Hu. rewrite IH by done. split.
        -- intros (ns & -> & -> & Hm). exists (n :: ns). simpl. split; [done|lia].
        -- intros ([|k ns] & E & -> & Hm); [done|]. injection E as <- ->. exists ns. simpl in *. split; [done|lia].
      * apply checked_None in E. rewrite usize_iff in E. split; [done|]. intros ([|k ns] & E' & -> & Hm); [done|].
        injection E' as <- E'. specialize (Hpos ns E'). simpl in *. lia.
    + split; [done|]. intros ([|k ns] & E & _); done.
Qed.

Definition hello : list Str := [mkStr [104; 105]; mkStr []].

Lemma tail_roundtrip_witness :
  store_tail [9; 9; 9; 9; 9; 9] 1 hello = Some ([9; 2; 104; 105; 0; 9], Some 5) /\
  fetch_tail [9; 2; 104; 105; 0; 9] 1 [mkStr []; mkStr []] = (hello, Some 5).
Proof.
  pose proof (tail_roundtrip [9; 9; 9; 9; 9; 9] 1 hello [mkStr []; mkStr []]) as Hrt. split; [reflexivity|].
  apply Hrt.
  - repeat constructor; unfold byte; simpl; lia.
  - split; [repeat constructor; unfold byte; lia|vm_compute; discriminate].
  - vm_compute. split; discriminate.
  - reflexivity.
Defined.

Lemma fetch_canonical_witness :
  fetch_tail [1; 0; 0] 0 [false; false] = ([true; false], Some 2) /\
  store_tail [1; 0; 0] 0 [true; false] = Some ([1; 0; 0], Some 2).
Proof.
  split; [reflexivity|].
  apply (fetch_canonical (T := bool) [1; 0; 0] 0 [false; false] [true; false] 2).
  - split; [repeat constructor; unfold byte; lia|vm_compute; discriminate].
  - vm_compute. split; discriminate.
  - reflexivity.
Defined.

Lemma times_suffices_witness :
  exists out' end_, store_tail [0; 0; 0; 0; 0; 0; 0; 0] 0 [U32 7; U32 258] = Some (out', Some end_) /\ end_ <= 8.
Proof.
  apply (times_suffices [0; 0; 0; 0; 0; 0; 0; 0] 0 [U32 7; U32 258] 8).
  - repeat constructor; vm_compute; reflexivity || discriminate.
  - split; [repeat constructor; unfold byte; lia|vm_compute; discriminate].
  - lia.
  - reflexivity.
  - vm_compute. discriminate.
Defined.
