(* ===== verification/Schedule.v ===== *)
(** * Schedules: resources, systems and the order of steps

    [crates/schedule]: typed resources behind run-time borrow checks
    ([resource.rs]), systems that declare what they access ([system.rs]) and
    the builder that puts named systems in phases and edges into one order
    ([graph.rs], [sequence.rs]).  A type is its [TypeId], a number; the closure
    of a system is a parameter that maps its state and the borrowed values to
    the new state, the new values and its result. *)

From S2P Require Import Prelude.
From stdpp Require Import strings.

Open Scope Z_scope.

(** ** [resource.rs] *)

Inductive AccessError := Missing | Borrowed | Duplicate | Room.

Inductive Value (V : Type) := Owned (v : V) | WriteRef (v : V) | ReadRef (v : V).
Arguments Owned {V} v.
Arguments WriteRef {V} v.
Arguments ReadRef {V} v.

(** The state of a [RefCell]. *)
Inductive Guard := Free | Shared (n : nat) | Unique.

Record Entry (V : Type) := mkEntry { e_id : Z; e_value : Value V; e_cell : Guard }.
Arguments mkEntry {V} e_id e_value e_cell.
Arguments e_id {V} e.
Arguments e_value {V} e.
Arguments e_cell {V} e.

Record Access := mkAccess { a_id : Z; a_write : bool }.

(** [struct Resources] has one field, its entries. *)
Abbreviation Resources V := (list (Entry V)).

Section resources.
Context {V : Type}.

Definition any_of (x : Value V) : V := match x with Owned v | WriteRef v | ReadRef v => v end.
Definition any_mut (x : Value V) : option V := match x with Owned v | WriteRef v => Some v | ReadRef _ => None end.
Definition with_value (x : Value V) (v : V) : Value V :=
  match x with Owned _ => Owned v | WriteRef _ => WriteRef v | ReadRef u => ReadRef u end.

(** [grant] is the answer of [try_reserve]. *)
Definition bind_entry (grant : bool) (id : Z) (x : Value V) (res : Resources V) : Resources V * result AccessError unit :=
  if any (fun e => e_id e =? id) res then (res, Err Duplicate)
  else if negb grant then (res, Err Room)
  else (res ++ [mkEntry id x Free], Ok tt).

Definition insert_resource (grant : bool) (id : Z) (v : V) (res : Resources V) := bind_entry grant id (Owned v) res.
Definition borrow_resource (grant : bool) (id : Z) (v : V) (res : Resources V) := bind_entry grant id (WriteRef v) res.
Definition observe_resource (grant : bool) (id : Z) (v : V) (res : Resources V) := bind_entry grant id (ReadRef v) res.

(** [entries.get(i)]. *)
Definition entry_at (res : Resources V) (i : Z) : option (Entry V) :=
  if (0 <=? i) && (i <? len res) then nth_z res i else None.

Definition index_of (id cached : Z) (res : Resources V) : result AccessError Z :=
  match entry_at res cached with
  | Some e => if e_id e =? id then Ok cached else ok_or (Z.of_nat <$> position (fun e => e_id e =? id) res) Missing
  | None => ok_or (Z.of_nat <$> position (fun e => e_id e =? id) res) Missing
  end.

Definition set_entry (i : Z) (e : Entry V) (res : Resources V) : Resources V := <[Z.to_nat i := e]> res.

(** A shared guard on the value of type [id] at [i]. *)
Definition read_at (id i : Z) (res : Resources V) : Resources V * result AccessError V :=
  match entry_at res i with
  | None => (res, Err Missing)
  | Some e =>
      match e_cell e with
      | Unique => (res, Err Borrowed)
      | Free | Shared _ =>
          if e_id e =? id then
            let n := match e_cell e with Shared n => S n | _ => 1%nat end in
            (set_entry i (mkEntry (e_id e) (e_value e) (Shared n)) res, Ok (any_of (e_value e)))
          else (res, Err Missing)
      end
  end.

(** An exclusive guard. *)
Definition write_at (id i : Z) (res : Resources V) : Resources V * result AccessError V :=
  match entry_at res i with
  | None => (res, Err Missing)
  | Some e =>
      match e_cell e with
      | Free =>
          match any_mut (e_value e) with
          | Some v =>
              if e_id e =? id then (set_entry i (mkEntry (e_id e) (e_value e) Unique) res, Ok v)
              else (res, Err Missing)
          | None => (res, Err Missing)
          end
      | Shared _ | Unique => (res, Err Borrowed)
      end
  end.

Definition Resources_read (id : Z) (res : Resources V) : Resources V * result AccessError V :=
  match index_of id usize_MAX res with Ok i => read_at id i res | Err e => (res, Err e) end.

Definition Resources_write (id : Z) (res : Resources V) : Resources V * result AccessError V :=
  match index_of id usize_MAX res with Ok i => write_at id i res | Err e => (res, Err e) end.

(** Dropping a guard; an exclusive one leaves the value [v] behind. *)
Definition drop_guard (write : bool) (i : Z) (v : V) (res : Resources V) : Resources V :=
  match entry_at res i with
  | None => res
  | Some e =>
      if write then set_entry i (mkEntry (e_id e) (with_value (e_value e) v) Free) res
      else
        let cell := match e_cell e with Shared (S (S n)) => Shared (S n) | _ => Free end in
        set_entry i (mkEntry (e_id e) (e_value e) cell) res
  end.

(** ** [system.rs]: a function system *)

(** [Param::get]. *)
Definition param_get (a : Access) (i : Z) (res : Resources V) : Resources V * result AccessError V :=
  if a_write a then write_at (a_id a) i res else read_at (a_id a) i res.

(** The guards of the parameters, in order; an error drops those taken. *)
Fixpoint take_params (params : list (Access * Z)) (res : Resources V) : Resources V * result AccessError (list V) :=
  match params with
  | [] => (res, Ok [])
  | (a, i) :: params =>
      let '(res1, r) := param_get a i res in
      match r with
      | Err e => (res1, Err e)
      | Ok v =>
          let '(res2, rs) := take_params params res1 in
          match rs with
          | Err e => (drop_guard (a_write a) i v res2, Err e)
          | Ok vs => (res2, Ok (v :: vs))
          end
      end
  end.

Fixpoint drop_params (params : list (Access * Z)) (vs : list V) (res : Resources V) : Resources V :=
  match params, vs with
  | (a, i) :: params, v :: vs => drop_guard (a_write a) i v (drop_params params vs res)
  | _, _ => res
  end.

Inductive Progress := Done | Pending.
End resources.

Inductive DispatchError := Busy | Exhausted | NoResult.

Inductive RunError (E : Type) := RResource (e : AccessError) | RStep (e : E) | UnknownPlan | RDispatch (e : DispatchError).
Arguments RResource {E} e.
Arguments RStep {E} e.
Arguments UnknownPlan {E}.
Arguments RDispatch {E} e.

Definition MAX_PARAMS : Z := 10.

(** A function system: its declared accesses, the slots it found them in last
    and the state of its closure. *)
Record System (F : Type) := mkSystem { s_access : list Access; s_slots : list Z; s_fn : F }.
Arguments mkSystem {F} s_access s_slots s_fn.
Arguments s_access {F} s.
Arguments s_slots {F} s.
Arguments s_fn {F} s.

Section systems.
Context {V F E : Type}.
Context (call : F -> list V -> F * list V * result E Progress).

Definition System_new (access : list Access) (f : F) : System F :=
  mkSystem access (replicate (length access) usize_MAX) f.

(** Bind what is there; what is missing fails when the step runs. *)
Fixpoint prepare_slots (access : list Access) (slots : list Z) (res : Resources V) : list Z :=
  match access, slots with
  | a :: access, s :: slots =>
      match index_of (a_id a) s res with Ok i => i | Err _ => usize_MAX end :: prepare_slots access slots res
  | _, _ => []
  end.

Definition System_prepare (s : System F) (res : Resources V) : System F :=
  mkSystem (s_access s) (prepare_slots (s_access s) (s_slots s) res) (s_fn s).

(** The slots up to the first access that is missing are updated. *)
Fixpoint find_slots (access : list Access) (slots : list Z) (res : Resources V) : list Z * result AccessError unit :=
  match access, slots with
  | a :: access', s :: slots' =>
      match index_of (a_id a) s res with
      | Err e => (slots, Err e)
      | Ok i => let '(rest, r) := find_slots access' slots' res in (i :: rest, r)
      end
  | _, _ => ([], Ok tt)
  end.

Definition System_execute (s : System F) (res : Resources V) : System F * Resources V * result (RunError E) Progress :=
  let '(slots, r) := find_slots (s_access s) (s_slots s) res in
  match r with
  | Err e => (mkSystem (s_access s) slots (s_fn s), res, Err (RResource e))
  | Ok _ =>
      let params := zip (s_access s) slots in
      let '(res1, rs) := take_params params res in
      match rs with
      | Err e => (mkSystem (s_access s) slots (s_fn s), res1, Err (RResource e))
      | Ok vs =>
          let '(f, vs', out) := call (s_fn s) vs in
          (mkSystem (s_access s) slots f, drop_params params vs' res1, map_err RStep out)
      end
  end.
End systems.

(** ** [graph.rs] *)

Inductive BuildError := BDuplicate | BUnknown | BCycle | BBorrowConflict | BRoom.

Record Node (Sy : Type) := mkNode { n_name : string; n_phase : Z; n_system : Sy }.
Arguments mkNode {Sy} n_name n_phase n_system.
Arguments n_name {Sy} n.
Arguments n_phase {Sy} n.
Arguments n_system {Sy} n.

Record Schedule (Sy : Type) := mkSchedule { nodes : list (Node Sy); edges : list (string * string) }.
Arguments mkSchedule {Sy} nodes edges.
Arguments nodes {Sy} s.
Arguments edges {Sy} s.

Section graph.
Context {Sy : Type}.

Definition Schedule_new : Schedule Sy := mkSchedule [] [].

Definition has_name (ns : list (Node Sy)) (name : string) : bool := any (fun n => bool_decide (n_name n = name)) ns.

(** Two accesses to one type, at least one of them to write. *)
Definition clash (a b : Access) : bool := (a_id a =? a_id b) && (a_write a || a_write b).

Fixpoint conflict (earlier access : list Access) : bool :=
  match access with
  | [] => false
  | a :: access => any (clash a) earlier || conflict (earlier ++ [a]) access
  end.

Definition add_node (grant : bool) (name : string) (phase : Z) (system : Sy) (sch : Schedule Sy) : Schedule Sy * result BuildError unit :=
  if has_name (nodes sch) name then (sch, Err BDuplicate)
  else if negb grant then (sch, Err BRoom)
  else (mkSchedule (nodes sch ++ [mkNode name phase system]) (edges sch), Ok tt).

Definition add_system (grant : bool) (name : string) (phase : Z) (access : list Access) (system : Sy) (sch : Schedule Sy)
    : Schedule Sy * result BuildError unit :=
  if has_name (nodes sch) name then (sch, Err BDuplicate)
  else if conflict [] access then (sch, Err BBorrowConflict)
  else add_node grant name phase system sch.

(** [keys] are the keys of the children, [select] and [finish] the accesses of
  the two systems around them. *)
Definition add_subplans (grant : bool) (name : string) (phase : Z) (select finish : list Access) (keys : list Z) (system : Sy)
    (sch : Schedule Sy) : Schedule Sy * result BuildError unit :=
  if conflict [] select || conflict [] finish then (sch, Err BBorrowConflict)
  else if negb (bool_decide (NoDup keys)) then (sch, Err BDuplicate)
  else add_node grant name phase system sch.

Definition before (grant : bool) (first second : string) (sch : Schedule Sy) : Schedule Sy * result BuildError unit :=
  if negb grant then (sch, Err BRoom)
  else (mkSchedule (nodes sch) (edges sch ++ [(first, second)]), Ok tt).

(** No node left has an earlier phase or has to come first. *)
Definition eligible (es : list (string * string)) (ns : list (Node Sy)) (n : Node Sy) : bool :=
  negb (any (fun other => n_phase other <? n_phase n) ns)
  && negb (any (fun e => bool_decide (e.2 = n_name n) && has_name ns e.1) es).

Fixpoint build_loop (fuel : nat) (es : list (string * string)) (ns : list (Node Sy)) : option (result BuildError (list Sy)) :=
  match ns with
  | [] => Some (Ok [])
  | _ =>
      match fuel with
      | O => None
      | S fuel =>
          match position (eligible es ns) ns with
          | None => Some (Err BCycle)
          | Some i =>
              n ← ns !! i;
              r ← build_loop fuel es (remove_at i ns);
              Some (steps ← r; Ok (n_system n :: steps))
          end
      end
  end.

(** The schedule is taken, whatever comes of it; every round takes a node.
    [grant] answers the [try_reserve] of the steps: a vector reserves no memory
    for no elements, so an empty schedule is never refused. *)
Definition build (grant : bool) (sch : Schedule Sy) : Schedule Sy * option (result BuildError (list Sy)) :=
  (Schedule_new,
   if any (fun e => negb (has_name (nodes sch) e.1) || negb (has_name (nodes sch) e.2)) (edges sch) then Some (Err BUnknown)
   else if negb grant && (0 <? length (nodes sch))%nat then Some (Err BRoom)
   else build_loop (length (nodes sch)) (edges sch) (nodes sch)).

(** ** [sequence.rs] *)

Record Sequence := mkSequence { q_schedule : Schedule Sy; q_next : Z }.

Definition sequence : Sequence := mkSequence Schedule_new 0.

Definition sequence_push (add : Z -> Schedule Sy -> Schedule Sy * result BuildError unit) (q : Sequence) : Sequence * result BuildError unit :=
  let '(sch, r) := add (q_next q) (q_schedule q) in
  match r with
  | Ok _ => (mkSequence sch (q_next q + 1), Ok tt)
  | Err e => (mkSequence sch (q_next q), Err e)
  end.

Definition sequence_system grant name access system := sequence_push (fun phase => add_system grant name phase access system).
Definition sequence_plan grant name system := sequence_push (fun phase => add_node grant name phase system).
Definition sequence_subplans grant name select finish keys system :=
  sequence_push (fun phase => add_subplans grant name phase select finish keys system).

Definition sequence_build (grant : bool) (q : Sequence) : Sequence * option (result BuildError (list Sy)) :=
  let '(sch, r) := build grant (q_schedule q) in (mkSequence sch 0, r).
End graph.
