(* ===== verification/ScheduleBuild.v ===== *)
(** * The order a schedule builds

    What [Schedule::build] promises, whatever was configured: the steps of the
    plan are the systems in an order that the phases and the edges allow, when
    there is one, and [Cycle] when there is none; a [Sequence] keeps the order
    of its declarations. *)

From S2P Require Import Prelude Schedule.
From stdpp Require Import strings sorting.

Open Scope Z_scope.

Section order.
Context {Sy : Type}.
Implicit Types (es : list (string * string)) (ns order : list (Node Sy)) (n m : Node Sy).

(** [n] may run before [m]: no earlier phase is kept waiting, no edge is turned. *)
Definition goes es n m : Prop := n_phase n <= n_phase m /\ (n_name m, n_name n) ∉ es.

(** An order of nodes that phases and edges allow. *)
Definition allowed es order : Prop :=
  StronglySorted (goes es) order /\ Forall (fun n => (n_name n, n_name n) ∉ es) order.

Definition known es ns : Prop := forall a b, (a, b) ∈ es -> a ∈ map n_name ns /\ b ∈ map n_name ns.

Lemma has_name_true ns x : has_name ns x = true <-> x ∈ map n_name ns.
Proof.
  unfold has_name. rewrite any_true, list_elem_of_fmap.
  split; intros (n & A & B); exists n; rewrite ?bool_decide_eq_true in *; naive_solver.
Qed.

Lemma eligible_true es ns n :
  eligible es ns n = true <->
  Forall (fun m => n_phase n <= n_phase m /\ (n_name m, n_name n) ∉ es) ns.
Proof.
  unfold eligible. rewrite andb_true_iff, !negb_true_iff, !any_false, !Forall_forall. split.
  - intros [P Q] m Hm. split; [specialize (P m Hm); lia|]. intros He. specialize (Q _ He). simpl in Q.
    rewrite bool_decide_eq_true_2 in Q by done. simpl in Q.
    apply not_true_iff_false in Q. apply Q, has_name_true, list_elem_of_fmap. eauto.
  - intros H. split; [intros m Hm; specialize (H m Hm); lia|].
    intros [a b] He. simpl. apply andb_false_iff.
    destruct (bool_decide_reflect (b = n_name n)) as [->|]; [right|by left].
    apply not_true_iff_false. rewrite has_name_true, list_elem_of_fmap.
    intros (m & -> & Hm). apply (H m Hm). done.
Qed.

Lemma allowed_cons es n order :
  allowed es (n :: order) <->
  ((n_name n, n_name n) ∉ es) /\ Forall (goes es n) order /\ allowed es order.
Proof.
  unfold allowed. split.
  - intros [H1 H2]. inversion H1; inversion H2; subst. done.
  - intros (A & B & C & D). split; constructor; done.
Qed.

Lemma allowed_remove es l1 n l2 : allowed es (l1 ++ n :: l2) -> allowed es (l1 ++ l2).
Proof.
  induction l1 as [|m l1 IH]; simpl.
  - rewrite allowed_cons. tauto.
  - rewrite !allowed_cons, !Forall_app, Forall_cons. tauto.
Qed.

(** The first node of an allowed order is eligible. *)
Lemma allowed_eligible es ns n order :
  n :: order ≡ₚ ns -> allowed es (n :: order) -> eligible es ns n = true.
Proof.
  intros Hp (Hs & Hf & _)%allowed_cons. apply eligible_true. rewrite <- Hp.
  constructor; [split; [lia|done]|done].
Qed.

Lemma pick_allowed es ns i n :
  ns !! i = Some n -> (exists order, order ≡ₚ ns /\ allowed es order) ->
  exists order, order ≡ₚ remove_at i ns /\ allowed es order.
Proof.
  intros Hi (order & Hp & Ha). pose proof (remove_at_perm i n ns Hi) as Hr.
  assert (n ∈ order) as (l1 & l2 & ->)%list_elem_of_split by (rewrite Hp, <- Hr; left).
  exists (l1 ++ l2). split; [|by eapply allowed_remove].
  apply (Permutation_cons_inv (a:=n)). rewrite Hr, <- Hp. apply Permutation_middle.
Qed.

(** The loop ends within as many rounds as there are nodes. *)
Lemma build_loop_spec es fuel : forall ns,
  (length ns <= fuel)%nat ->
  (exists order, build_loop fuel es ns = Some (Ok (map n_system order)) /\ order ≡ₚ ns /\ allowed es order) \/
  (build_loop fuel es ns = Some (Err BCycle) /\ ~ exists order, order ≡ₚ ns /\ allowed es order).
Proof.
  induction fuel as [|fuel IH]; intros [|x ns] Hl; simpl in Hl; try lia.
  1,2: left; exists []; repeat split; constructor.
  set (l := x :: ns) in *. cbn [build_loop]. fold l.
  destruct (position (eligible es l) l) as [i|] eqn:Hi; simpl.
  - apply position_Some in Hi as (n & Hn & He & _). rewrite Hn. simpl.
    pose proof (remove_at_perm i n l Hn) as Hr.
    destruct (IH (remove_at i l)) as [(order & Hb & Hp & Ha)|[Hb Hno]].
    { apply Permutation_length in Hr. simpl in Hr. lia. }
    + left. exists (n :: order). rewrite Hb. split_and!; [done|by rewrite Hp|].
      apply eligible_true in He. rewrite <- Hr, Forall_cons in He. destruct He as [[_ Hself] He].
      apply allowed_cons. split_and!; [done| |done]. by rewrite Hp.
    + right. rewrite Hb. split; [done|]. intros Ho. by apply Hno, (pick_allowed es l i n).
  - right. split; [done|]. intros ([|n order] & Hp & Ha).
    { by apply Permutation_nil_l in Hp. }
    apply position_None in Hi. rewrite Forall_forall in Hi.
    pose proof (allowed_eligible es l n order Hp Ha) as He.
    rewrite Hi in He; [done|]. rewrite <- Hp. left.
Qed.

Lemma known_iff es ns :
  any (fun e => negb (has_name ns e.1) || negb (has_name ns e.2)) es = false <-> known es ns.
Proof.
  rewrite any_false, Forall_forall. unfold known. split.
  - intros H a b He. specialize (H _ He). simpl in H. rewrite orb_false_iff, !negb_false_iff, !has_name_true in H. done.
  - intros H [a b] He. simpl. rewrite orb_false_iff, !negb_false_iff, !has_name_true. eauto.
Qed.

(** The allocator can refuse only what needs memory. *)
Lemma refused_spec grant ns :
  (negb grant && (0 <? length ns)%nat = true /\ grant = false /\ ns <> []) \/
  (negb grant && (0 <? length ns)%nat = false /\ ~ (grant = false /\ ns <> [])).
Proof. destruct grant, ns; naive_solver. Qed.

(** C26: [build] always ends and leaves an empty schedule behind, whatever it
  answers and whatever the allocator answers ([grant]).  The answer is exact:
  [Unknown] when an edge names a node that is not there; otherwise [Room]
  exactly when there are steps to allocate and the allocator refuses them;
  otherwise a plan whose steps are the configured systems in an order that
  respects every phase and every edge, and [Cycle] only when no such order
  exists. *)
Theorem build_exact (grant : bool) (sch : Schedule Sy) :
  exists r, build grant sch = (Schedule_new, Some r) /\
  (r = Err BRoom <-> known (edges sch) (nodes sch) /\ grant = false /\ nodes sch <> []) /\
  match r with
  | Ok steps => known (edges sch) (nodes sch) /\
      exists order, steps = map n_system order /\ order ≡ₚ nodes sch /\ allowed (edges sch) order
  | Err BUnknown => ~ known (edges sch) (nodes sch)
  | Err BCycle => known (edges sch) (nodes sch) /\ ~ exists order, order ≡ₚ nodes sch /\ allowed (edges sch) order
  | Err BRoom => True
  | Err _ => False
  end.
Proof.
  unfold build. case_match eqn:Hk.
  { assert (~ known (edges sch) (nodes sch)) as Hn by (rewrite <- known_iff, Hk; done).
    eexists. split; [done|]. split; [split; [done|tauto]|done]. }
  apply known_iff in Hk.
  destruct (refused_spec grant (nodes sch)) as [(-> & Hg & Hn)|[-> Hn]].
  { eexists. split; [done|]. done. }
  destruct (build_loop_spec (edges sch) _ (nodes sch) (le_n _)) as [(order & -> & ?)|[-> ?]];
    (eexists; split; [done|]; split; [split; [done|tauto]|]); [split; [done|by exists order]|done].
Qed.

(** ** Sequences *)

(** A declaration, with the answer of its [try_reserve]. *)
Inductive Declaration :=
| DSystem (grant : bool) (name : string) (access : list Access) (system : Sy)
| DPlan (grant : bool) (name : string) (system : Sy)
| DSubplans (grant : bool) (name : string) (select finish : list Access) (keys : list Z) (system : Sy).

Definition declare (d : Declaration) : Sequence -> Sequence * result BuildError unit :=
  match d with
  | DSystem grant name access system => sequence_system grant name access system
  | DPlan grant name system => sequence_plan grant name system
  | DSubplans grant name select finish keys system => sequence_subplans grant name select finish keys system
  end.

Definition declared (d : Declaration) : Sy :=
  match d with DSystem _ _ _ s | DPlan _ _ s | DSubplans _ _ _ _ _ s => s end.

(** The sequence after the declarations, and the systems it accepted. *)
Fixpoint declare_all (ds : list Declaration) (q : Sequence) : Sequence * list Sy :=
  match ds with
  | [] => (q, [])
  | d :: ds =>
      let '(q', r) := declare d q in
      let '(q'', rest) := declare_all ds q' in
      (q'', match r with Ok _ => declared d :: rest | Err _ => rest end)
  end.

(** No edges, and every declaration in a phase after the earlier ones. *)
Definition in_order (q : Sequence (Sy:=Sy)) : Prop :=
  edges (q_schedule q) = [] /\ StronglySorted (fun n m => n_phase n <= n_phase m) (nodes (q_schedule q)) /\
  Forall (fun n => n_phase n < q_next q) (nodes (q_schedule q)).

Lemma sorted_snoc (R : Node Sy -> Node Sy -> Prop) l x :
  StronglySorted R l -> Forall (fun y => R y x) l -> StronglySorted R (l ++ [x]).
Proof.
  induction 1 as [|y l Hs IH Hf]; intros Hx; simpl; [repeat constructor|].
  inversion Hx; subst. constructor; [auto|]. apply Forall_app. auto.
Qed.

(** Whatever a declaration checks first, it appends its node or changes nothing. *)
Lemma declare_cases d q :
  (exists name, declare d q =
     (mkSequence (mkSchedule (nodes (q_schedule q) ++ [mkNode name (q_next q) (declared d)]) (edges (q_schedule q))) (q_next q + 1), Ok tt)) \/
  (exists e, declare d q = (q, Err e)).
Proof.
  destruct q as [[ns es] next].
  destruct d; simpl; unfold sequence_system, sequence_plan, sequence_subplans, sequence_push, add_system, add_subplans, add_node; simpl;
    repeat (case_match; simplify_eq/=); eauto.
Qed.

Lemma in_order_snoc q name s :
  in_order q ->
  in_order (mkSequence (mkSchedule (nodes (q_schedule q) ++ [mkNode name (q_next q) s]) (edges (q_schedule q))) (q_next q + 1)).
Proof.
  intros (He & Hs & Hf). split_and!; simpl; [done| |].
  - apply sorted_snoc; [done|]. eapply Forall_impl; [done|]. simpl. lia.
  - apply Forall_app. split; [|repeat constructor; simpl; lia]. eapply Forall_impl; [done|]. simpl. lia.
Qed.

Lemma declare_all_in_order ds : forall q, in_order q ->
  in_order (declare_all ds q).1 /\
  map n_system (nodes (q_schedule (declare_all ds q).1)) = map n_system (nodes (q_schedule q)) ++ (declare_all ds q).2.
Proof.
  induction ds as [|d ds IH]; intros q Hq; simpl; [by rewrite app_nil_r|].
  destruct (declare_cases d q) as [[name ->]|[e ->]].
  - pose proof (IH _ (in_order_snoc q name (declared d) Hq)) as [H1 H2].
    destruct (declare_all ds _) as [q'' rest]. simpl in *. split; [done|].
    rewrite H2, map_app, <- app_assoc. done.
  - destruct (IH q Hq) as [H1 H2]. destruct (declare_all ds q) as [q'' rest]. done.
Qed.

Lemma build_loop_sorted fuel : forall ns, (length ns <= fuel)%nat ->
  StronglySorted (fun n m => n_phase n <= n_phase m) ns ->
  build_loop fuel [] ns = Some (Ok (map n_system ns)).
Proof.
  induction fuel as [|fuel IH]; intros [|n ns] Hl Hs; simpl in Hl; try done; [lia|].
  inversion Hs as [|?? Hs' Hf]; subst. cbn [build_loop position].
  replace (eligible [] (n :: ns) n) with true.
  { simpl. unfold remove_at. simpl. rewrite drop_0, IH by (done || lia). done. }
  symmetry. apply eligible_true. constructor; [split; [lia|]|eapply Forall_impl; [exact Hf|]; split; [done|]].
  all: apply not_elem_of_nil.
Qed.

(** The steps of a [Sequence] run in declaration order: after any
  declarations, [build] gives exactly the systems that were accepted, each
  in its place, unless their allocation is refused, and leaves an empty
  sequence. *)
Theorem sequence_in_order (grant : bool) (ds : list Declaration) :
  sequence_build grant (declare_all ds sequence).1 =
  (sequence, Some (if negb grant && (0 <? length (declare_all ds sequence).2)%nat then Err BRoom
                   else Ok (declare_all ds sequence).2)).
Proof.
  destruct (declare_all_in_order ds sequence) as [(He & Hs & _) Hm].
  { split_and!; [done|constructor|constructor]. }
  unfold sequence_build, build. rewrite He. simpl.
  rewrite build_loop_sorted by done.
  apply (f_equal length) in Hm as Hl. rewrite length_map in Hl. simpl in Hl, Hm.
  rewrite Hl, Hm. by case_match.
Qed.
End order.
