(* ===== verification/ScheduleAccess.v ===== *)
(** * Systems run without borrow errors

    A system takes a guard on each of its parameters, calls its function and
    drops the guards.  What that does is described here without guards: fetch
    the values, call, store the values that were accessed to write. *)

From S2P Require Import Prelude Schedule.
From stdpp Require Import strings.

Open Scope Z_scope.

Section access.
Context {V F E : Type}.
Implicit Types (res : Resources V) (e : Entry V) (a : Access).

(** What holds between two steps of a plan: one entry for a type, no guard. *)
Definition settled res : Prop := NoDup (map e_id res) /\ Forall (fun e => e_cell e = Free) res.

Definition entry_of res (id : Z) : option (Entry V) := List.find (fun e => e_id e =? id) res.

(** The value an access sees; a value that is only observed cannot be written. *)
Definition fetch res a : option V :=
  e ← entry_of res (a_id a); if a_write a then any_mut (e_value e) else Some (any_of (e_value e)).

Definition store_one a (v : V) res : Resources V :=
  if a_write a then
    map (fun e => if e_id e =? a_id a then mkEntry (e_id e) (with_value (e_value e) v) (e_cell e) else e) res
  else res.

Fixpoint store (access : list Access) (vs : list V) res : Resources V :=
  match access, vs with
  | a :: access, v :: vs => store_one a v (store access vs res)
  | _, _ => res
  end.

(** The guards a list of accesses holds on the type [id]. *)
Definition guards (held : list Access) (id : Z) : Guard :=
  if any (fun a => (a_id a =? id) && a_write a) held then Unique
  else match length (retain (fun a => a_id a =? id) held) with O => Free | S n => Shared (S n) end.

Definition hold (held : list Access) res : Resources V :=
  map (fun e => mkEntry (e_id e) (e_value e) (guards held (e_id e))) res.

(** ** Entries and slots *)

(** The slot [i] is where the type [id] is. *)
Definition slot_of res (id i : Z) : Prop := exists e, entry_at res i = Some e /\ e_id e = id.

Lemma entry_at_Some res i e : entry_at res i = Some e <-> 0 <= i /\ res !! Z.to_nat i = Some e.
Proof.
  unfold entry_at, nth_z, len. case_match eqn:H; split; intros Hi; try done; [split; [lia|done]|tauto|].
  destruct Hi as [? Hi]. pose proof (lookup_lt_Some _ _ _ Hi). lia.
Qed.

Lemma ids_inj res i j e e' :
  NoDup (map e_id res) -> res !! i = Some e -> res !! j = Some e' -> e_id e = e_id e' -> i = j.
Proof.
  intros Hn Hi Hj He. eapply NoDup_lookup; [exact Hn| |].
  - rewrite list_lookup_fmap, Hi. simpl. done.
  - rewrite list_lookup_fmap, Hj, He. done.
Qed.

Lemma entry_of_slot res id i e :
  NoDup (map e_id res) -> entry_at res i = Some e -> e_id e = id -> entry_of res id = Some e.
Proof.
  intros Hn (_ & Hi)%entry_at_Some He. unfold entry_of.
  destruct (List.find _ res) as [e'|] eqn:Hf.
  - apply List.find_some in Hf as [Hin He']. apply list_elem_of_In, list_elem_of_lookup in Hin as [j Hj].
    assert (Z.to_nat i = j) as <- by (eapply ids_inj; eauto; lia). congruence.
  - eapply List.find_none in Hf; [|apply list_elem_of_In, list_elem_of_lookup; eauto]. lia.
Qed.

Lemma index_of_spec id cached res :
  match index_of id cached res with
  | Ok i => slot_of res id i
  | Err e => e = Missing /\ entry_of res id = None
  end.
Proof.
  assert (match ok_or (Z.of_nat <$> position (fun e => e_id e =? id) res) Missing with
          | Ok i => slot_of res id i
          | Err e => e = Missing /\ entry_of res id = None
          end) as H.
  { destruct (position _ res) as [i|] eqn:Hp; simpl.
    - apply position_Some in Hp as (e & Hi & He & _). exists e. rewrite entry_at_Some, Nat2Z.id. lia || (split; [split; [lia|done]|lia]).
    - split; [done|]. apply position_None in Hp. unfold entry_of.
      destruct (List.find _ res) as [e|] eqn:Hf; [|done]. apply List.find_some in Hf as [Hin He].
      rewrite Forall_forall in Hp. rewrite Hp in He; [done|]. by apply list_elem_of_In. }
  unfold index_of. destruct (entry_at res cached) as [e|] eqn:Hc; [|done].
  destruct (e_id e =? id) eqn:He; [|done]. exists e. lia || (split; [done|lia]).
Qed.

(** Changing the entry of a slot is changing the entries of its type. *)
Lemma set_entry_map res i e (f : Entry V -> Entry V) :
  NoDup (map e_id res) -> entry_at res i = Some e ->
  set_entry i (f e) res = map (fun x => if e_id x =? e_id e then f x else x) res.
Proof.
  intros Hn (_ & Hi)%entry_at_Some. unfold set_entry. apply list_eq. intros j.
  rewrite list_lookup_fmap. destruct (decide (j = Z.to_nat i)) as [->|Hne].
  - rewrite list_lookup_insert_eq by (by eapply lookup_lt_Some). rewrite Hi. simpl. by rewrite Z.eqb_refl.
  - rewrite list_lookup_insert_ne by done. destruct (res !! j) as [x|] eqn:Hj; [|done]. simpl.
    destruct (e_id x =? e_id e) eqn:He; [|done].
    exfalso. apply Hne. eapply ids_inj; eauto. lia.
Qed.

(** ** Guards *)

Lemma hold_nil res : Forall (fun e => e_cell e = Free) res -> hold [] res = res.
Proof.
  intros H. induction H as [|[id x g] res Hg _ IH]; [done|]. simpl in *. by rewrite IH, Hg.
Qed.

Lemma hold_ids held res : map e_id (hold held res) = map e_id res.
Proof. unfold hold. rewrite map_map. done. Qed.

Lemma store_one_ids a v res : map e_id (store_one a v res) = map e_id res.
Proof. unfold store_one. case_match; [|done]. rewrite map_map. apply map_ext. intros e. by case_match. Qed.

Lemma store_ids access : forall vs res, map e_id (store access vs res) = map e_id res.
Proof. induction access as [|a access IH]; intros [|v vs] res; simpl; [done..|]. by rewrite store_one_ids. Qed.

Lemma guards_other held a id : a_id a <> id -> guards (held ++ [a]) id = guards held id.
Proof.
  intros H. unfold guards, any, retain. rewrite List.existsb_app, List.filter_app. simpl.
  replace (a_id a =? id) with false by lia. simpl. by rewrite orb_false_r, app_nil_r.
Qed.

(** No clash: an access to write finds the type free, one to read no writer. *)
Lemma no_clash a held :
  any (clash a) held = false ->
  if a_write a then guards held (a_id a) = Free /\ guards (held ++ [a]) (a_id a) = Unique
  else guards held (a_id a) <> Unique /\
       guards (held ++ [a]) (a_id a) = Shared (match guards held (a_id a) with Shared n => S n | _ => 1%nat end).
Proof.
  rewrite any_false, Forall_forall. intros H.
  assert (any (fun b => (a_id b =? a_id a) && a_write b) held = false) as Hw.
  { apply any_false, Forall_forall. intros b Hb. specialize (H b Hb). unfold clash in H.
    destruct (a_id b =? a_id a) eqn:Hi, (a_write b); try done. simpl. rewrite orb_true_r in H. lia. }
  unfold guards. rewrite Hw. unfold any, retain in *. rewrite List.existsb_app, Hw, List.filter_app, length_app. simpl.
  rewrite Z.eqb_refl. simpl. destruct (a_write a) eqn:Ha; simpl.
  - split; [|done]. replace (List.filter _ held) with (@nil Access); [done|].
    symmetry. destruct (List.filter _ held) as [|b l] eqn:Hf; [done|].
    assert (List.In b (List.filter (fun b => a_id b =? a_id a) held)) as Hb by (rewrite Hf; left; done).
    apply List.filter_In in Hb as [Hb Hi]. apply list_elem_of_In in Hb. specialize (H b Hb).
    unfold clash in H. rewrite Ha in H. simpl in H. lia.
  - destruct (length (List.filter _ held)) eqn:Hl; simpl; [done|]. split; [done|]. by rewrite Nat.add_1_r.
Qed.

Lemma hold_at held res i e :
  entry_at res i = Some e -> entry_at (hold held res) i = Some (mkEntry (e_id e) (e_value e) (guards held (e_id e))).
Proof. rewrite !entry_at_Some. unfold hold. rewrite list_lookup_fmap. intros [? ->]. done. Qed.

(** One more guard is that guard on the entry of its type. *)
Lemma hold_more held res i e a :
  NoDup (map e_id res) -> entry_at res i = Some e -> e_id e = a_id a ->
  set_entry i (mkEntry (e_id e) (e_value e) (guards (held ++ [a]) (a_id a))) (hold held res) = hold (held ++ [a]) res.
Proof.
  intros Hn Hi He.
  pose proof (set_entry_map (hold held res) i _ (fun x => mkEntry (e_id x) (e_value x) (guards (held ++ [a]) (a_id a)))
                ltac:(by rewrite hold_ids) (hold_at held res i e Hi)) as Hs.
  simpl in Hs. rewrite Hs. unfold hold. rewrite map_map. apply map_ext. intros x. simpl.
  destruct (e_id x =? e_id e) eqn:Hx.
  - f_equal. f_equal. lia.
  - rewrite guards_other; [done|]. lia.
Qed.

(** One guard less, with the value [x] left behind, on the entry of its type. *)
Lemma hold_fewer held res i e a v :
  NoDup (map e_id res) -> entry_at res i = Some e -> e_id e = a_id a ->
  set_entry i (mkEntry (e_id e) (if a_write a then with_value (e_value e) v else e_value e) (guards held (a_id a)))
    (hold (held ++ [a]) res) = hold held (store_one a v res).
Proof.
  intros Hn Hi He.
  pose proof (set_entry_map (hold (held ++ [a]) res) i _
    (fun x => mkEntry (e_id x) (if a_write a then with_value (e_value x) v else e_value x) (guards held (a_id a)))
    ltac:(by rewrite hold_ids) (hold_at (held ++ [a]) res i e Hi)) as Hs. simpl in Hs. rewrite Hs.
  transitivity (map (fun x => mkEntry (e_id x) (if (e_id x =? a_id a) && a_write a then with_value (e_value x) v else e_value x)
                                (guards held (e_id x))) res).
  - unfold hold. rewrite map_map. apply map_ext. intros x. simpl. rewrite He.
    destruct (e_id x =? a_id a) eqn:Hx; simpl.
    + f_equal. f_equal. lia.
    + rewrite guards_other by lia. done.
  - unfold hold, store_one. destruct (a_write a).
    + rewrite map_map. apply map_ext. intros x. by destruct (e_id x =? a_id a).
    + apply map_ext. intros x. by rewrite andb_false_r.
Qed.

Lemma guards_shared held id n : guards held id = Shared n -> n <> O.
Proof. unfold guards. repeat case_match; congruence. Qed.

(** Dropping a guard stores what an exclusive one leaves. *)
Lemma hold_less held res i e a v :
  NoDup (map e_id res) -> entry_at res i = Some e -> e_id e = a_id a -> any (clash a) held = false ->
  drop_guard (a_write a) i v (hold (held ++ [a]) res) = hold held (store_one a v res).
Proof.
  intros Hn Hi He Hc%no_clash. rewrite <- (hold_fewer held res i e a v) by done.
  unfold drop_guard. rewrite (hold_at _ res i e Hi). simpl.
  destruct (a_write a); destruct Hc as [Hg Hg']; [by rewrite Hg|].
  rewrite He, Hg'. do 2 f_equal. pose proof (guards_shared held (a_id a)) as Hp.
  destruct (guards held (a_id a)) as [|[|n]|]; [done| |done|done]. by destruct (Hp O).
Qed.

Lemma param_get_hold held res i a :
  NoDup (map e_id res) -> slot_of res (a_id a) i -> any (clash a) held = false ->
  param_get a i (hold held res) =
  match fetch res a with
  | Some v => (hold (held ++ [a]) res, Ok v)
  | None => (hold held res, Err Missing)
  end.
Proof.
  intros Hn (e & Hi & He) Hc%no_clash. unfold fetch. rewrite (entry_of_slot res (a_id a) i e) by done. simpl.
  unfold param_get. destruct (a_write a) eqn:Ha; destruct Hc as [Hg Hg'].
  - unfold write_at. rewrite (hold_at _ _ _ _ Hi). simpl. rewrite He, Hg, Z.eqb_refl.
    destruct (any_mut (e_value e)); [|done]. f_equal. rewrite <- (hold_more held res i e a) by done. congruence.
  - unfold read_at. rewrite (hold_at _ _ _ _ Hi). simpl. rewrite He, Z.eqb_refl.
    rewrite <- (hold_more held res i e a), Hg', He by done. by destruct (guards held (a_id a)).
Qed.

Lemma store_one_same res a v : fetch res a = Some v -> NoDup (map e_id res) -> store_one a v res = res.
Proof.
  unfold fetch, store_one. intros Hf Hn. destruct (a_write a); [|done].
  destruct (entry_of res (a_id a)) as [e|] eqn:He; [|done]. simpl in Hf.
  apply List.find_some in He as [Hin%list_elem_of_In He].
  apply list_elem_of_lookup in Hin as [i Hi].
  transitivity (map id res); [|apply map_id]. apply map_ext_in. intros x [j Hj]%list_elem_of_In%list_elem_of_lookup.
  destruct (e_id x =? a_id a) eqn:Hx; [|done].
  assert (i = j) as <- by (eapply ids_inj; eauto; lia). assert (x = e) as -> by congruence.
  destruct e as [id [|?|?] g]; simplify_eq/=; done.
Qed.

(** Taking the guards: all of them, or none when a value is missing. *)
Lemma take_params_hold access : forall slots held res,
  NoDup (map e_id res) -> Forall2 (fun a i => slot_of res (a_id a) i) access slots -> conflict held access = false ->
  take_params (zip access slots) (hold held res) =
  match mapM (fetch res) access with
  | Some vs => (hold (held ++ access) res, Ok vs)
  | None => (hold held res, Err Missing)
  end.
Proof.
  induction access as [|a access IH]; intros slots held res Hn Hs Hc; inversion Hs as [|? i ? slots' Hi Hs']; subst; simpl in *.
  { by rewrite app_nil_r. }
  apply orb_false_iff in Hc as [Hc Hc']. rewrite param_get_hold by done.
  destruct (fetch res a) as [v|] eqn:Hf; simpl; [|done].
  rewrite (IH slots' (held ++ [a]) res) by done. destruct (mapM (fetch res) access) as [vs|]; simpl.
  - by rewrite <- app_assoc.
  - destruct Hi as (e & Hi & He). rewrite (hold_less held res i e) by done. by rewrite store_one_same.
Qed.

Lemma slot_of_ids res res' id i : map e_id res = map e_id res' -> slot_of res id i -> slot_of res' id i.
Proof.
  intros Hm (e & (Hp & Hi)%entry_at_Some & <-).
  assert (map e_id res' !! Z.to_nat i = Some (e_id e)) as Hj by (rewrite <- Hm, list_lookup_fmap, Hi; done).
  apply list_lookup_fmap_Some in Hj as (e' & Hj & He'). exists e'. rewrite entry_at_Some. done.
Qed.

Lemma drop_params_hold access : forall slots vs held res,
  NoDup (map e_id res) -> Forall2 (fun a i => slot_of res (a_id a) i) access slots -> conflict held access = false ->
  length vs = length access ->
  drop_params (zip access slots) vs (hold (held ++ access) res) = hold held (store access vs res).
Proof.
  induction access as [|a access IH]; intros slots [|v vs] held res Hn Hs Hc Hl; inversion Hs as [|? i ? slots' Hi Hs']; subst;
    simpl in *; try done; [by rewrite app_nil_r|].
  apply orb_false_iff in Hc as [Hc Hc']. rewrite (cons_middle a held access), app_assoc, IH by (done || lia).
  destruct (slot_of_ids res (store access vs res) (a_id a) i) as (e & Hi' & He); [by rewrite store_ids|done|].
  rewrite (hold_less held _ i e) by (done || by rewrite store_ids). done.
Qed.
(** ** A system *)

Lemma find_slots_spec access : forall slots res,
  length slots = length access ->
  match find_slots access slots res with
  | (slots', Ok _) => Forall2 (fun a i => slot_of res (a_id a) i) access slots'
  | (slots', Err e) => e = Missing /\ length slots' = length access /\ mapM (fetch res) access = None
  end.
Proof.
  induction access as [|a access IH]; intros [|s slots] res Hl; simpl in *; try done.
  pose proof (index_of_spec (a_id a) s res) as Hi. destruct (index_of (a_id a) s res) as [i|e].
  - specialize (IH slots res ltac:(lia)). destruct (find_slots access slots res) as [slots' [u|e]]; [by constructor|].
    destruct IH as (-> & Hl' & IH). rewrite IH. split_and!; simpl; [done|lia|]. by destruct (fetch res a).
  - destruct Hi as [-> Hi]. split_and!; simpl; [done|lia|].
    assert (fetch res a = None) as -> by (unfold fetch; by rewrite Hi). done.
Qed.

Context (call : F -> list V -> F * list V * result E Progress).

(** A call gets its parameters and leaves as many behind. *)
Definition keeps_params : Prop := forall f vs, length (call f vs).1.2 = length vs.

(** What a system does, without guards. *)
Definition run_system (s : System F) res : F * Resources V * result (RunError E) Progress :=
  match mapM (fetch res) (s_access s) with
  | None => (s_fn s, res, Err (RResource Missing))
  | Some vs => let '(f, vs', out) := call (s_fn s) vs in (f, store (s_access s) vs' res, map_err RStep out)
  end.

Lemma settled_store access vs res : settled res -> settled (store access vs res).
Proof.
  intros [Hn Hf]. split; [by rewrite store_ids|]. revert vs.
  induction access as [|a access IH]; intros [|v vs]; simpl; [done..|]. unfold store_one. case_match; [|done].
  apply Forall_fmap. eapply Forall_impl; [apply (IH vs)|]. intros e He. simpl. by case_match.
Qed.

Lemma execute_run s res :
  keeps_params -> settled res -> conflict [] (s_access s) = false -> length (s_slots s) = length (s_access s) ->
  exists slots, length slots = length (s_access s) /\ System_execute call s res =
    (mkSystem (s_access s) slots (run_system s res).1.1, (run_system s res).1.2, (run_system s res).2).
Proof.
  intros Hk [Hn Hf] Hc Hl. unfold System_execute, run_system.
  pose proof (find_slots_spec (s_access s) (s_slots s) res Hl) as Hs.
  destruct (find_slots _ _ _) as [slots [u|e]]; [|destruct Hs as (-> & Hl' & ->); eauto].
  exists slots. split; [symmetry; by eapply Forall2_length|].
  pose proof (take_params_hold (s_access s) slots [] res Hn Hs Hc) as Ht. rewrite hold_nil in Ht by done. rewrite Ht.
  destruct (mapM (fetch res) (s_access s)) as [vs|] eqn:Hm; [|done].
  pose proof (Hk (s_fn s) vs) as Hk'. destruct (call (s_fn s) vs) as [[f vs'] out]. simpl in *.
  pose proof (drop_params_hold (s_access s) slots vs' [] res Hn Hs Hc) as Hd. simpl in Hd. rewrite Hd.
  - rewrite hold_nil; [done|]. by apply (settled_store (s_access s) vs' res).
  - apply length_mapM in Hm. lia.
Qed.
End access.

(** C27: a system whose accesses [add_system] accepts, on resources with one
    entry for a type and no guard outstanding, whatever its cached slots:
    executing it is fetching the values it declares, calling it and storing
    those it accesses to write.  It never fails with [Borrowed], gives every
    guard back on success and on error alike, and a missing or read-only value
    is [Missing] with nothing changed. *)
Theorem execute_exact {V F E} (call : F -> list V -> F * list V * result E Progress) (s : System F) (res : Resources V) :
  keeps_params call -> settled res -> conflict [] (s_access s) = false -> length (s_slots s) = length (s_access s) ->
  let '(s', res', out) := System_execute call s res in
  (s_fn s', res', out) = run_system call s res /\ s_access s' = s_access s /\ length (s_slots s') = length (s_access s) /\
  settled res' /\ out <> Err (RResource Borrowed).
Proof.
  intros Hk Hr Hc Hl. destruct (execute_run call s res Hk Hr Hc Hl) as (slots & Hl' & ->). simpl.
  unfold run_system. destruct (mapM (fetch res) (s_access s)) as [vs|]; [|split_and!; done].
  destruct (call (s_fn s) vs) as [[f vs'] out]. simpl.
  split_and!; [done..|by apply settled_store|]. by destruct out.
Qed.

Definition demo_call (f : Z) (vs : list Z) : Z * list Z * result unit Progress :=
  match vs with
  | [a; b] => (f + 1, [a + b; b], Ok Done)
  | _ => (f, vs, Err tt)
  end.

Definition demo_system : System Z := System_new [mkAccess 7 true; mkAccess 9 false] 0.
Definition demo_resources : Resources Z := [mkEntry 9 (ReadRef 5) Free; mkEntry 7 (Owned 1) Free].

Example execute_exact_witness :
  run_system demo_call demo_system demo_resources =
    (1, [mkEntry 9 (ReadRef 5) Free; mkEntry 7 (Owned 6) Free], Ok Done) /\
  let '(s', res', out) := System_execute demo_call demo_system demo_resources in
  (s_fn s', res', out) = run_system demo_call demo_system demo_resources /\ s_access s' = s_access demo_system /\
  length (s_slots s') = length (s_access demo_system) /\ settled res' /\ out <> Err (RResource Borrowed).
Proof.
  split; [vm_compute; reflexivity|]. apply (execute_exact demo_call demo_system demo_resources).
  - intros f [|? [|? [|??]]]; done.
  - split; [|repeat constructor]. apply (bool_decide_unpack _). vm_compute. exact I.
  - reflexivity.
  - reflexivity.
Defined.
