(* ===== verification/Plan.v ===== *)
(** * Plans, cursors and dispatch rounds

    The part of [crates/schedule] that runs: resumable plans and their cursors
    ([plan.rs]), nested plans and selected children ([compose.rs]) and the
    dispatch rounds that hand children out ([dispatch.rs]).

    A plan owns its systems; here the systems of a plan and of the plans under
    it are kept in one list of the [World], with the cached slots and the
    resources, and a step names its system by its place there.  The error
    types of nested plans are one type [E]. *)

From S2P Require Import Prelude Schedule.
From stdpp Require Import strings.

Open Scope Z_scope.

(** ** [plan.rs]: cursors

    A position is compared with a place in a list and counted up while it is
    one, so it is a [nat]. *)

Inductive Cursor := mkCursor (c_at : nat) (c_nested : option Cursor) (c_finishing : bool).

Definition c_at (c : Cursor) : nat := let 'mkCursor at_ _ _ := c in at_.
Definition c_nested (c : Cursor) : option Cursor := let 'mkCursor _ nested _ := c in nested.
Definition c_finishing (c : Cursor) : bool := let 'mkCursor _ _ finishing := c in finishing.

Definition Cursor_default : Cursor := mkCursor 0 None false.

Fixpoint reset (c : Cursor) : Cursor :=
  let 'mkCursor _ nested _ := c in
  mkCursor 0 (match nested with Some n => Some (reset n) | None => None end) false.

(** A step is done: the next one starts on a clean cursor. *)
Definition cursor_next (c : Cursor) : Cursor := mkCursor (S (c_at c)) (reset <$> c_nested c) false.

(** ** [dispatch.rs] *)

Section dispatch.
Context {E : Type}.

Record Invocation := mkInvocation { key : Z; cursor : Cursor }.
Record Completion := mkCompletion { invocation : Invocation; outcome : result (RunError E) Progress }.

Inductive State := Idle | Selected (i : Invocation) | Running | Finished (c : Completion).

Record Dispatch := mkDispatch { remaining : Z; state : State }.

Definition Dispatch_new : Dispatch := mkDispatch 0 Idle.

Definition is_idle (d : Dispatch) : bool := match state d with Idle => true | _ => false end.
Definition has_selected (d : Dispatch) : bool := match state d with Selected _ => true | _ => false end.

Definition begin (budget : Z) (d : Dispatch) : Dispatch * result DispatchError unit :=
  if negb (is_idle d) then (d, Err Busy) else (mkDispatch budget (state d), Ok tt).

Definition select (i : Invocation) (d : Dispatch) : Dispatch * result DispatchError unit :=
  if negb (is_idle d) then (d, Err Busy)
  else if remaining d =? 0 then (d, Err Exhausted)
  else (mkDispatch (remaining d) (Selected i), Ok tt).

Definition skip (d : Dispatch) : Dispatch * result DispatchError unit :=
  if negb (is_idle d) then (d, Err Busy)
  else match checked_sub (remaining d) 1 with
       | Some r => (mkDispatch r (state d), Ok tt)
       | None => (d, Err Exhausted)
       end.

Definition stop (d : Dispatch) : Dispatch * result DispatchError unit :=
  if negb (is_idle d) then (d, Err Busy) else (mkDispatch 0 (state d), Ok tt).

Definition take_result (d : Dispatch) : Dispatch * result DispatchError Completion :=
  match state d with
  | Finished c => (mkDispatch (remaining d) Idle, Ok c)
  | _ => (d, Err NoResult)
  end.

Definition take_selected (d : Dispatch) : Dispatch * option Invocation :=
  match state d with
  | Selected i => (mkDispatch (remaining d) Running, Some i)
  | _ => (d, None)
  end.

Definition restore_selected (i : Invocation) (d : Dispatch) : Dispatch * result DispatchError unit :=
  match state d with
  | Running => (mkDispatch (remaining d) (Selected i), Ok tt)
  | _ => (d, Err Busy)
  end.

Definition complete (c : Completion) (d : Dispatch) : Dispatch * result DispatchError unit :=
  match state d with
  | Running =>
      match checked_sub (remaining d) 1 with
      | Some r => (mkDispatch r (Finished c), Ok tt)
      | None => (d, Err Exhausted)
      end
  | _ => (d, Err Busy)
  end.
End dispatch.

Arguments Completion E : clear implicits.
Arguments State E : clear implicits.
Arguments Dispatch E : clear implicits.

(** ** Running *)

(** What a resource can be: a dispatch or anything else. *)
Inductive Any (U E : Type) := Plain (u : U) | ADispatch (d : Dispatch E).
Arguments Plain {U E} u.
Arguments ADispatch {U E} d.

(** [Subplans]: its two systems, the type of its dispatch and its cached slot. *)
Record Sub := mkSub { sub_select : nat; sub_finish : nat; sub_id : Z; sub_slot : nat }.

(** The runners of a system. *)
Inductive Step (E : Type) :=
| SFun (system : nat)
| SNested (plan : list (Step E))
| SMapped (map : E -> E) (plan : list (Step E))
| SSub (sub : Sub) (children : list (Z * list (Step E))).
Arguments SFun {E} system.
Arguments SNested {E} plan.
Arguments SMapped {E} map plan.
Arguments SSub {E} sub children.

Section running.
Context {U F E : Type}.
Abbreviation V := (Any U E).
Context (call : F -> list V -> F * list V * result E Progress).

Record World := mkWorld { w_systems : list (System F); w_slots : list Z; w_res : Resources V }.

Definition Out : Type := option (Cursor * World * result (RunError E) Progress).

(** [System::execute] of a function system. *)
Definition execute_system {X} (k : nat) : M (World * X) (RunError E) Progress := fun st =>
  let '(w, x) := st in
  s ← w_systems w !! k;
  let '(s', res', r) := System_execute call s (w_res w) in
  Some (r, (mkWorld (<[k := s']> (w_systems w)) (w_slots w) res', x)).

(** A look at the dispatch in a slot; the guard goes with the statement. *)
Definition read_dispatch {X} (id i : Z) : M (World * X) (RunError E) (Dispatch E) := fun st =>
  let '(w, x) := st in
  let '(res1, r) := read_at id i (w_res w) in
  match r with
  | Err e => Some (Err (RResource e), (mkWorld (w_systems w) (w_slots w) res1, x))
  | Ok v =>
      let w' := mkWorld (w_systems w) (w_slots w) (drop_guard false i v res1) in
      Some (match v with ADispatch d => Ok d | Plain _ => Err (RResource Missing) end, (w', x))
  end.

(** A method that changes it. *)
Definition write_dispatch {X A} (id i : Z) (f : Dispatch E -> Dispatch E * A) : M (World * X) (RunError E) A := fun st =>
  let '(w, x) := st in
  let '(res1, r) := write_at id i (w_res w) in
  match r with
  | Err e => Some (Err (RResource e), (mkWorld (w_systems w) (w_slots w) res1, x))
  | Ok (ADispatch d) =>
      let '(d', a) := f d in
      Some (Ok a, (mkWorld (w_systems w) (w_slots w) (drop_guard true i (ADispatch d') res1), x))
  | Ok (Plain u) => Some (Err (RResource Missing), (mkWorld (w_systems w) (w_slots w) (drop_guard true i (Plain u) res1), x))
  end.

(** The result of a method of the dispatch, its error wrapped. *)
Definition dispatch_result {X A} (r : result DispatchError A) : M (World * X) (RunError E) A := lift (map_err RDispatch r).

Definition get_finishing : M (World * bool) (RunError E) bool := fun st => Some (Ok st.2, st).
Definition set_finishing (b : bool) : M (World * bool) (RunError E) unit := fun st => Some (Ok tt, (st.1, b)).

(** The plan of a child advances on the cursor of its invocation. *)
Definition run_child {X} (run : Cursor -> World -> Out) (i : Invocation) : M (World * X) (RunError E) (Completion E) := fun st =>
  let '(w, x) := st in
  '(c, w', r) ← run (cursor i) w;
  Some (Ok (mkCompletion (mkInvocation (key i) c) r), (w', x)).

(** [resources.index(..)] of a [Subplans], into its cached slot. *)
Definition find_dispatch {X} (s : Sub) : M (World * X) (RunError E) Z := fun st =>
  let '(w, x) := st in
  cached ← w_slots w !! sub_slot s;
  match index_of (sub_id s) cached (w_res w) with
  | Err e => Some (Err (RResource e), st)
  | Ok i => Some (Ok i, (mkWorld (w_systems w) (<[sub_slot s := i]> (w_slots w)) (w_res w), x))
  end.

Section subplans.
Context (s : Sub) (i : Z) (runs : list (Z * (Cursor -> World -> Out))).

Definition sub_body (again : M (World * bool) (RunError E) Progress) : M (World * bool) (RunError E) Progress :=
  d ← read_dispatch (sub_id s) i;
  if remaining d =? 0 then mret Done else
  d ← read_dispatch (sub_id s) i;
  p ← (if has_selected d then mret Done else execute_system (sub_select s));
  match p with
  | Pending => mret Pending
  | Done =>
      inv ← write_dispatch (sub_id s) i take_selected;
      match inv with
      | None => mret Done
      | Some inv =>
          match List.find (fun kr => kr.1 =? key inv) runs with
          | None =>
              r ← write_dispatch (sub_id s) i (restore_selected inv);
              _ ← dispatch_result r;
              fail UnknownPlan
          | Some (_, run) =>
              completion ← run_child run inv;
              r ← write_dispatch (sub_id s) i (complete completion);
              _ ← dispatch_result r;
              _ ← set_finishing true;
              again
          end
      end
  end.

(** The loop of [Subplans::run]. *)
Fixpoint sub_loop (fuel : nat) : M (World * bool) (RunError E) Progress :=
  match fuel with
  | O => panic
  | S fuel =>
      finishing ← get_finishing;
      if finishing : bool then
        p ← execute_system (sub_finish s);
        match p with
        | Pending => mret Pending
        | Done =>
            d ← read_dispatch (sub_id s) i;
            if negb (is_idle d) then fail (RDispatch Busy) else
            _ ← set_finishing false;
            sub_body (sub_loop fuel)
        end
      else sub_body (sub_loop fuel)
  end.
End subplans.

(** [Subplans::run]. *)
Definition sub_run (fuel : nat) (s : Sub) (runs : list (Z * (Cursor -> World -> Out))) : M (World * bool) (RunError E) Progress :=
  i ← find_dispatch s;
  sub_loop s i runs fuel.

(** [Plan::advance], past the [skipped] steps before the cursor. *)
Section steps.
Context (exec : Step E -> Cursor -> World -> Out).

Fixpoint advance_steps (steps : list (Step E)) (skipped : nat) (c : Cursor) (w : World) : Out :=
  match steps with
  | [] => Some (c, w, Ok Done)
  | s :: steps =>
      match skipped with
      | S n => advance_steps steps n c w
      | O =>
          '(c', w', r) ← exec s c w;
          match r with
          | Ok Done => advance_steps steps O (cursor_next c') w'
          | _ => Some (c', w', r)
          end
      end
  end.
End steps.

Definition map_step (f : E -> E) (e : RunError E) : RunError E :=
  match e with RStep e => RStep (f e) | RResource e => RResource e | UnknownPlan => UnknownPlan | RDispatch e => RDispatch e end.

(** [System::execute] of any system; [fuel] bounds the rounds of each
    [Subplans]. *)
Fixpoint execute (fuel : nat) (s : Step E) (c : Cursor) (w : World) : Out :=
  match s with
  | SFun k =>
      '(r, (w', _)) ← execute_system k (w, tt); Some (c, w', r)
  | SNested p =>
      let n := default Cursor_default (c_nested c) in
      '(n', w', r) ← advance_steps (execute fuel) p (c_at n) n w;
      Some (mkCursor (c_at c) (Some n') (c_finishing c), w', r)
  | SMapped f p =>
      let n := default Cursor_default (c_nested c) in
      '(n', w', r) ← advance_steps (execute fuel) p (c_at n) n w;
      Some (mkCursor (c_at c) (Some n') (c_finishing c), w', map_err (map_step f) r)
  | SSub sub children =>
      let runs := map (fun kp => (kp.1, fun c w => advance_steps (execute fuel) kp.2 (c_at c) c w)) children in
      '(r, (w', finishing)) ← sub_run fuel sub runs (w, c_finishing c);
      Some (mkCursor (c_at c) (c_nested c) finishing, w', r)
  end.

(** [Plan::advance]. *)
Definition advance (fuel : nat) (plan : list (Step E)) (c : Cursor) (w : World) : Out :=
  advance_steps (execute fuel) plan (c_at c) c w.

(** ** [prepare]: bind the slots before anything runs *)

Definition prepare_system (k : nat) (w : World) : World :=
  mkWorld (alter (fun s => System_prepare s (w_res w)) k (w_systems w)) (w_slots w) (w_res w).

Fixpoint prepare (s : Step E) (w : World) : World :=
  match s with
  | SFun k => prepare_system k w
  | SNested p | SMapped _ p => foldl (fun w s => prepare s w) w p
  | SSub sub children =>
      let slot cached := match index_of (sub_id sub) cached (w_res w) with Ok i => i | Err _ => usize_MAX end in
      let w := mkWorld (w_systems w) (alter slot (sub_slot sub) (w_slots w)) (w_res w) in
      let w := prepare_system (sub_finish sub) (prepare_system (sub_select sub) w) in
      foldl (fun w kp => foldl (fun w s => prepare s w) w kp.2) w children
  end.

Definition Plan_prepare (plan : list (Step E)) (w : World) : World := foldl (fun w s => prepare s w) w plan.
End running.
