(* ===== verification/PlanRefine.v ===== *)
(** * A plan is the list of its leaves

    Plans nest, and every level keeps its own cursor, reused from one nested
    plan to the next.  Seen from outside none of this shows: a plan with a
    cursor is the list of leaf systems it still has to run, and advancing it
    runs them from the front. *)

From S2P Require Import Prelude Schedule Plan.
From stdpp Require Import strings.

Open Scope Z_scope.

Section step_ind.
Context {E : Type} (P : Step E -> Prop).
Context (Hfun : forall k, P (SFun k)) (Hnested : forall p, Forall P p -> P (SNested p)).
Context (Hmapped : forall f p, Forall P p -> P (SMapped f p)).
Context (Hsub : forall sub children, Forall (fun kp => Forall P kp.2) children -> P (SSub sub children)).

(** Induction on a step, with its hypothesis for every step of a nested plan. *)
Lemma step_induction : forall s, P s.
Proof.
  fix step_induction 1.
  assert (forall p, Forall P p) as plan.
  { fix plan 1. intros [|s p]; constructor; [apply step_induction|apply plan]. }
  intros [k|p|f p|sub children]; [apply Hfun|apply Hnested, plan|apply Hmapped, plan|apply Hsub].
  revert children. fix go 1. intros [|[k p] children]; constructor; [apply plan|apply go].
Qed.
End step_ind.

(** A leaf: a system that runs itself, the error maps around it, innermost
    last, and whether it is finishing a child. *)
Record Leaf (E : Type) := mkLeaf { l_maps : list (E -> E); l_step : Step E; l_finishing : bool }.
Arguments mkLeaf {E} l_maps l_step l_finishing.
Arguments l_maps {E} l.
Arguments l_step {E} l.
Arguments l_finishing {E} l.

Section leaves.
Context {E : Type}.

Definition under (f : E -> E) (l : Leaf E) : Leaf E := mkLeaf (f :: l_maps l) (l_step l) (l_finishing l).

(** The leaves of a plan from its cursor on; later steps start afresh. *)
Fixpoint todo (leaves : Step E -> Cursor -> list (Leaf E)) (steps : list (Step E)) (skipped : nat) (c : Cursor) : list (Leaf E) :=
  match steps with
  | [] => []
  | s :: steps =>
      match skipped with
      | S n => todo leaves steps n c
      | O => leaves s c ++ todo leaves steps O Cursor_default
      end
  end.

Fixpoint leaves (s : Step E) (c : Cursor) : list (Leaf E) :=
  match s with
  | SFun _ | SSub _ _ => [mkLeaf [] s (c_finishing c)]
  | SNested p => let n := default Cursor_default (c_nested c) in todo leaves p (c_at n) n
  | SMapped f p => let n := default Cursor_default (c_nested c) in map (under f) (todo leaves p (c_at n) n)
  end.

Definition plan_leaves (plan : list (Step E)) (c : Cursor) : list (Leaf E) := todo leaves plan (c_at c) c.

(** A cursor that was reset is as good as new, whatever it was used for. *)
Lemma leaves_reset s : forall a n, leaves s (mkCursor a (reset <$> n) false) = leaves s Cursor_default.
Proof.
  assert (forall p, Forall (fun s => forall a n, leaves s (mkCursor a (reset <$> n) false) = leaves s Cursor_default) p ->
          forall n : option Cursor, todo leaves p (c_at (default Cursor_default (reset <$> n))) (default Cursor_default (reset <$> n))
          = todo leaves p 0%nat Cursor_default) as Hp.
  { intros p Hp [[a n f]|]; [|done]. cbn. destruct Hp as [|x p Hs _]; [done|]. cbn. f_equal. apply Hs. }
  induction s as [k|p IH|f p IH|sub children IH] using step_induction; intros a n; [done| | |done].
  - cbn. by rewrite Hp.
  - cbn. by rewrite Hp.
Qed.
End leaves.

Section refine.
Context {U F E : Type}.
Abbreviation V := (Any U E).
Context (call : F -> list V -> F * list V * result E Progress) (fuel : nat).
Abbreviation World := (World (U:=U) (F:=F) (E:=E)).

(** Run the leaves from the front until one is pending or fails. *)
Fixpoint run_leaves (ls : list (Leaf E)) (w : World) : option (list (Leaf E) * World * result (RunError E) Progress) :=
  match ls with
  | [] => Some ([], w, Ok Done)
  | l :: ls =>
      '(c, w', r) ← execute call fuel (l_step l) (mkCursor 0 None (l_finishing l)) w;
      match r with
      | Ok Done => run_leaves ls w'
      | _ => Some (mkLeaf (l_maps l) (l_step l) (c_finishing c) :: ls, w', map_err (fun e => foldr map_step e (l_maps l)) r)
      end
  end.

Lemma run_leaves_done ls : forall w ls' w', run_leaves ls w = Some (ls', w', Ok Done) -> ls' = [].
Proof.
  induction ls as [|l ls IH]; intros w ls' w' H; simpl in H; [by simplify_eq|].
  destruct (execute _ _ _ _ _) as [[[c w1] [[]|e]]|]; simplify_eq/=; eauto.
Qed.

Lemma run_leaves_app l1 l2 : forall w,
  run_leaves (l1 ++ l2) w =
  ('(ls, w', r) ← run_leaves l1 w; match r with Ok Done => run_leaves l2 w' | _ => Some (ls ++ l2, w', r) end).
Proof.
  induction l1 as [|l l1 IH]; intros w; simpl; [done|].
  destruct (execute _ _ _ _ _) as [[[c w1] [[]|e]]|]; simpl; [apply IH|done..].
Qed.

Lemma run_leaves_under f ls : forall w,
  run_leaves (map (under f) ls) w =
  ('(ls', w', r) ← run_leaves ls w; Some (map (under f) ls', w', map_err (map_step f) r)).
Proof.
  induction ls as [|l ls IH]; intros w; simpl; [done|].
  destruct (execute _ _ _ _ _) as [[[c w1] [[]|e]]|]; simpl; [apply IH|done..].
Qed.

(** What executing a step means for its leaves. *)
Definition refines (s : Step E) : Prop := forall c w,
  run_leaves (leaves s c) w =
  ('(c', w', r) ← execute call fuel s c w; Some (match r with Ok Done => [] | _ => leaves s c' end, w', r)) /\
  forall c' w' r, execute call fuel s c w = Some (c', w', r) -> c_at c' = c_at c.

Lemma steps_refine p : Forall refines p -> forall base skipped c w,
  c_at c = (base + skipped)%nat ->
  match advance_steps (execute call fuel) p skipped c w with
  | None => run_leaves (todo leaves p skipped c) w = None
  | Some (c', w', r) =>
      exists skipped', c_at c' = (base + skipped')%nat /\
      run_leaves (todo leaves p skipped c) w = Some (todo leaves p skipped' c', w', r)
  end.
Proof.
  induction 1 as [|s p Hs Hp IH]; intros base skipped c w Hc; simpl; [eauto|].
  destruct skipped as [|n].
  - destruct (Hs c w) as [Hr Hat]. rewrite run_leaves_app, Hr.
    destruct (execute call fuel s c w) as [[[c' w'] r]|]; simpl; [|done].
    specialize (Hat _ _ _ eq_refl).
    assert (match r with Ok Done => True | _ => exists skipped', c_at c' = (base + skipped')%nat /\
        Some (leaves s c' ++ todo leaves p 0 Cursor_default, w', r) = Some (todo leaves (s :: p) skipped' c', w', r) end) as Hstop.
    { destruct r as [[]|e]; [done| |]; exists O; rewrite Hat; done. }
    destruct r as [[]|e]; [clear Hstop|done..].
    replace (todo leaves p 0 Cursor_default) with (todo leaves p 0 (cursor_next c')).
    2: { destruct p as [|s' p]; [done|]. simpl. f_equal. apply leaves_reset. }
    specialize (IH (S base) O (cursor_next c') w'). simpl in IH. rewrite Hat in IH. specialize (IH ltac:(lia)).
    destruct (advance_steps _ p 0 (cursor_next c') w') as [[[c2 w2] r2]|]; [|done].
    destruct IH as (k & Hk & IH). exists (S k). split; [lia|done].
  - specialize (IH (S base) n c w ltac:(lia)).
    destruct (advance_steps _ p n c w) as [[[c2 w2] r2]|]; [|done].
    destruct IH as (k & Hk & IH). exists (S k). split; [lia|done].
Qed.

Lemma advance_refines p : Forall refines p -> forall c w,
  run_leaves (plan_leaves p c) w =
  ('(c', w', r) ← advance call fuel p c w; Some (plan_leaves p c', w', r)).
Proof.
  intros Hp c w. pose proof (steps_refine p Hp O (c_at c) c w eq_refl) as H. unfold advance, plan_leaves in *.
  destruct (advance_steps _ _ _ _ _) as [[[c' w'] r]|]; simpl; [|done]. destruct H as (k & -> & H). done.
Qed.

Lemma step_refines s : refines s.
Proof.
  induction s as [k|p IH|f p IH|sub children IH] using step_induction; intros c w.
  - cbn [leaves run_leaves l_step l_finishing l_maps execute c_finishing].
    destruct (execute_system call k (w, tt)) as [[r [w' []]]|]; simpl; [|by split].
    split; [by destruct r as [[]|]|]. by intros; simplify_eq.
  - cbn [leaves execute]. set (n := default Cursor_default (c_nested c)).
    pose proof (advance_refines p IH n w) as H. unfold advance, plan_leaves in H. rewrite H.
    destruct (advance_steps _ p (c_at n) n w) as [[[n' w'] r]|] eqn:Ha; simpl; [|by split].
    split; [|by intros; simplify_eq]. destruct r as [[]|]; try done.
    by rewrite (run_leaves_done _ _ _ _ H).
  - cbn [leaves execute]. set (n := default Cursor_default (c_nested c)).
    pose proof (advance_refines p IH n w) as H. unfold advance, plan_leaves in H. rewrite run_leaves_under, H.
    destruct (advance_steps _ p (c_at n) n w) as [[[n' w'] r]|] eqn:Ha; simpl; [|by split].
    split; [|by intros; simplify_eq]. destruct r as [[]|]; try done. simpl.
    by rewrite (run_leaves_done _ _ _ _ H).
  - cbn [leaves run_leaves l_step l_finishing l_maps execute c_finishing].
    destruct (sub_run call fuel sub _ (w, c_finishing c)) as [[r [w' fin]]|]; simpl; [|by split].
    split; [by destruct r as [[]|]|]. by intros; simplify_eq.
Qed.

(** C28: advancing a plan, however deep it nests and whatever its cursors hold,
  is running from the front the list of leaf systems it still has to run:
  the same world, the same result with the errors of mapped plans mapped,
  and the cursor left behind stands for exactly the leaves left over.  A
  leaf that is done is never run again, one that is pending or fails stays
  first, and a cursor used by an earlier nested plan skips nothing of the
  next. *)
Theorem advance_is_leaves (plan : list (Step E)) (c : Cursor) (w : World) :
  run_leaves (plan_leaves plan c) w =
  ('(c', w', r) ← advance call fuel plan c w; Some (plan_leaves plan c', w', r)).
Proof. apply advance_refines, Forall_forall. intros s _. apply step_refines. Qed.
End refine.
