(* ===== verification/PlanDispatch.v ===== *)
(** * Dispatch rounds are bounded and never run dry half way

    The closures of a plan reach a dispatch through its public methods only.
    Then its budget and its state stay consistent through every run of a plan,
    an invocation that was taken can always be completed or put back, and,
    when no closure starts a new round, a run ends. *)

From S2P Require Import Prelude Schedule ScheduleAccess Plan PlanRefine.
From stdpp Require Import strings.

Open Scope Z_scope.

(** ** What the public methods do to a dispatch *)

Section methods.
Context {E : Type} (strict : bool).
Implicit Types d : Dispatch E.

(** A public method; [strict] leaves out the one that grants a new budget. *)
Inductive public : Dispatch E -> Dispatch E -> Prop :=
| pub_begin b d : strict = false -> usize b -> public d (begin b d).1
| pub_select i d : public d (select i d).1
| pub_skip d : public d (skip d).1
| pub_stop d : public d (stop d).1
| pub_take d : public d (take_result d).1.

Definition sane d : Prop :=
  usize (remaining d) /\ match state d with Selected _ | Running => 1 <= remaining d | _ => True end.

(** What any run of a plan may do to a dispatch. *)
Definition moves d d' : Prop :=
  (sane d -> sane d') /\ (state d = Running -> d' = d) /\ (strict = true -> remaining d' <= remaining d).

#[global] Instance moves_preorder : PreOrder moves.
Proof.
  split; [intros d; split_and!; auto; lia|].
  intros d1 d2 d3 (A & B & C) (A' & B' & C'). split_and!; auto.
  - intros H. specialize (B H) as ->. auto.
  - intros H. specialize (C H). specialize (C' H). lia.
Qed.

Lemma public_moves d d' : sane d -> public d d' -> moves d d'.
Proof.
  intros [Hu Hr] H. unfold moves, sane.
  destruct H as [b d Hs Hb|i d|d|d|d]; unfold begin, select, skip, stop, take_result, is_idle in *;
    destruct d as [r st]; simpl in *.
  - destruct st; simpl; split_and!; intuition (try done; try lia); congruence.
  - destruct st, (r =? 0) eqn:Hz; simpl; split_and!; intuition (try done; try lia).
    all: apply usize_iff in Hu; lia.
  - destruct st; simpl; destruct (checked_sub r 1) as [r'|] eqn:Hz; simpl; try (apply checked_Some in Hz as [<- ?]);
      split_and!; intuition (try done; try lia).
  - apply usize_iff in Hu. destruct st; simpl; split_and!; intuition (try done; try lia). 
    all: apply usize_iff; rewrite usize_MAX_eq; lia.
  - destruct st; simpl; split_and!; intuition (try done; try lia).
Qed.

Lemma publics_move d d' : sane d -> rtc public d d' -> moves d d'.
Proof.
  intros Hs H. induction H as [d|d1 d2 d3 H _ IH]; [done|].
  pose proof (public_moves _ _ Hs H) as Hm. etransitivity; [done|]. apply IH, Hm, Hs.
Qed.
End methods.

(** ** Worlds *)

Section worlds.
Context {U F E : Type}.
Abbreviation V := (Any U E).
Abbreviation World := (World (U:=U) (F:=F) (E:=E)).
Implicit Types (w : World) (res : Resources V).
Context (call : F -> list V -> F * list V * result E Progress) (strict : bool).

(** What a closure may do to a value it is given. *)
Definition keeps (v v' : V) : Prop :=
  match v, v' with
  | Plain _, Plain _ => True
  | ADispatch d, ADispatch d' => rtc (public strict) d d'
  | _, _ => False
  end.

(** Closures use the public methods of a dispatch, and nothing else of it. *)
Definition polite : Prop := forall f vs, Forall2 keeps vs (call f vs).1.2.

Definition dispatch_in res (id : Z) : option (Dispatch E) :=
  match fetch res (mkAccess id false) with Some (ADispatch d) => Some d | _ => None end.

Definition system_ok (s : System F) : Prop :=
  conflict [] (s_access s) = false /\ length (s_slots s) = length (s_access s).

(** Between two steps: no guards, systems that were accepted, sane dispatches. *)
Definition ready w : Prop :=
  settled (w_res w) /\ Forall system_ok (w_systems w) /\ forall id d, dispatch_in (w_res w) id = Some d -> sane d.

Definition evolves w w' : Prop :=
  ready w' /\ length (w_systems w') = length (w_systems w) /\ length (w_slots w') = length (w_slots w) /\
  map e_id (w_res w') = map e_id (w_res w) /\
  forall id, match dispatch_in (w_res w) id with
             | None => dispatch_in (w_res w') id = None
             | Some d => exists d', dispatch_in (w_res w') id = Some d' /\ moves strict d d'
             end.

Lemma evolves_refl w : ready w -> evolves w w.
Proof. intros H. split_and!; [done..|]. intros id. destruct (dispatch_in _ _) as [d|]; [|done]. by exists d. Qed.

Lemma evolves_trans w1 w2 w3 : evolves w1 w2 -> evolves w2 w3 -> evolves w1 w3.
Proof.
  intros (A1 & A2 & A3 & A4 & A5) (B1 & B2 & B3 & B4 & B5). split_and!; [done|congruence..|]. intros id.
  specialize (A5 id). specialize (B5 id). destruct (dispatch_in (w_res w1) id) as [d|].
  - destruct A5 as (d' & Hd & Hm). rewrite Hd in B5. destruct B5 as (d'' & Hd' & Hm'). exists d''. split; [done|].
    by etransitivity.
  - by rewrite A5 in B5.
Qed.

#[local] Arguments fetch : simpl never.
#[local] Arguments store_one : simpl never.

(** *** Storing what closures leave *)

Lemma entry_of_map (f : Entry V -> Entry V) res id :
  (forall e, e_id (f e) = e_id e) -> entry_of (map f res) id = f <$> entry_of res id.
Proof.
  intros Hf. unfold entry_of. induction res as [|e res IH]; simpl; [done|]. rewrite Hf. by case_match.
Qed.

Lemma fetch_read res id : fetch res (mkAccess id false) = (fun e => any_of (e_value e)) <$> entry_of res id.
Proof. unfold fetch. simpl. by destruct (entry_of res id). Qed.

(** A stored value is the one fetched next; others stay. *)
Lemma fetch_store_one res a v id :
  (a_write a = true -> is_Some (fetch res a)) ->
  fetch (store_one a v res) (mkAccess id false) =
  if a_write a && (id =? a_id a) then Some v else fetch res (mkAccess id false).
Proof.
  intros Hw. rewrite !fetch_read. unfold store_one. destruct (a_write a) eqn:Ha; simpl; [|done].
  rewrite entry_of_map by (intros e; by case_match).
  destruct (Hw eq_refl) as [u Hu]. unfold fetch in Hu. rewrite Ha in Hu.
  destruct (id =? a_id a) eqn:Hi.
  - replace id with (a_id a) by lia. destruct (entry_of res (a_id a)) as [e|] eqn:He; [|done]. simpl in *.
    apply List.find_some in He as [_ He]. rewrite He. simpl. by destruct (e_value e).
  - destruct (entry_of res id) as [e|] eqn:He; [|done]. simpl.
    apply List.find_some in He as [_ He]. by replace (e_id e =? a_id a) with false by lia.
Qed.

Lemma fetch_write_stays a v res id :
  is_Some (fetch res (mkAccess id true)) -> is_Some (fetch (store_one a v res) (mkAccess id true)).
Proof.
  unfold fetch, store_one. simpl. destruct (a_write a); [|done].
  rewrite entry_of_map by (intros e; by case_match).
  destruct (entry_of res id) as [e|]; [|done]. simpl. case_match; [|done]. simpl. by destruct (e_value e).
Qed.

Lemma fetch_any res a : fetch res a = if a_write a then fetch res (mkAccess (a_id a) true) else fetch res (mkAccess (a_id a) false).
Proof. destruct a as [id []]; done. Qed.

Lemma fetch_weaken res id v : fetch res (mkAccess id true) = Some v -> fetch res (mkAccess id false) = Some v.
Proof.
  unfold fetch. simpl. destruct (entry_of res id) as [e|]; [|done]. simpl. by destruct (e_value e).
Qed.

Definition value_keeps (o o' : option V) : Prop := match o, o' with Some v, Some v' => keeps v v' | None, None => True | _, _ => False end.

Lemma value_same v : keeps v v.
Proof. by destruct v; simpl. Qed.

Lemma store_writes access : forall vs res id,
  is_Some (fetch res (mkAccess id true)) -> is_Some (fetch (store access vs res) (mkAccess id true)).
Proof. induction access as [|a access IH]; intros [|v vs] res id H; simpl; [done..|]. apply fetch_write_stays. auto. Qed.

Lemma store_keeps access : forall vs vs' res id,
  mapM (fetch res) access = Some vs -> Forall2 keeps vs vs' ->
  value_keeps (fetch res (mkAccess id false)) (fetch (store access vs' res) (mkAccess id false)).
Proof.
  assert (forall res id, value_keeps (fetch res (mkAccess id false)) (fetch res (mkAccess id false))) as Hrefl.
  { intros res id. destruct (fetch _ _); simpl; [apply value_same|done]. }
  induction access as [|a access IH]; intros vs vs' res id Hm Hk; simpl in *; [by simplify_eq|].
  destruct (fetch res a) as [u|] eqn:Hf; simplify_eq/=. destruct (mapM _ access) as [us|] eqn:Hm'; simplify_eq/=.
  injection Hm as <-. inversion Hk as [|? v ? vs'' Hkv Hks]; subst.
  rewrite fetch_store_one.
  - destruct (a_write a && (id =? a_id a)) eqn:Hw; [|by eapply IH].
    apply andb_true_iff in Hw as [Hw Hi]. rewrite fetch_any, Hw in Hf. apply fetch_weaken in Hf.
    replace id with (a_id a) by lia. by rewrite Hf.
  - intros Hw. rewrite fetch_any, Hw in Hf |- *. by apply store_writes.
Qed.
(** *** The steps of a run *)

Context (Hpolite : polite).

Lemma polite_keeps : keeps_params call.
Proof. intros f vs. pose proof (Forall2_length _ _ _ (Hpolite f vs)). lia. Qed.

Lemma keeps_moves id res res' d :
  value_keeps (fetch res (mkAccess id false)) (fetch res' (mkAccess id false)) ->
  dispatch_in res id = Some d -> sane d ->
  exists d', dispatch_in res' id = Some d' /\ moves strict d d'.
Proof.
  unfold dispatch_in. intros Hk Hd Hs. destruct (fetch res _) as [[u|d0]|]; simplify_eq/=.
  destruct (fetch res' _) as [[u'|d']|]; simpl in Hk; [done| |done]. exists d'. split; [done|]. by apply publics_move.
Qed.

(** A partial outcome: the run may be stopped only when [T] fails. *)
Definition wq {S' X A} (T : Prop) (m : M S' X A) (s : S') (Q : result X A -> S' -> Prop) : Prop :=
  match m s with Some (r, s') => Q r s' | None => ~ T end.

Lemma wq_bind {S' X A B} T (m : M S' X A) (f : A -> M S' X B) s Q :
  wq T m s (fun r s' => match r with Ok a => wq T (f a) s' Q | Err e => Q (Err e) s' end) -> wq T (m ≫= f) s Q.
Proof. unfold wq, mbind, M_bind. destruct (m s) as [[[a|e] s']|]; auto. Qed.

Lemma wq_mono {S' X A} (T T' : Prop) (m : M S' X A) s (Q Q' : result X A -> S' -> Prop) :
  wq T m s Q -> (T' -> T) -> (forall r s', Q r s' -> Q' r s') -> wq T' m s Q'.
Proof. unfold wq. destruct (m s) as [[r s']|]; intuition. Qed.

(** The error that must not happen. *)
Definition sound_error (e : RunError E) : Prop := e <> RDispatch Exhausted.
Definition sound {A} (r : result (RunError E) A) : Prop := match r with Ok _ => True | Err e => sound_error e end.

Lemma ready_evolves w w' :
  ready w -> settled (w_res w') -> Forall system_ok (w_systems w') ->
  length (w_systems w') = length (w_systems w) -> length (w_slots w') = length (w_slots w) ->
  map e_id (w_res w') = map e_id (w_res w) ->
  (forall id, value_keeps (fetch (w_res w) (mkAccess id false)) (fetch (w_res w') (mkAccess id false))) -> evolves w w'.
Proof.
  intros (Hset & Hsys & Hsane) A B C D Hids Hk.
  assert (forall id, match dispatch_in (w_res w) id with
             | None => dispatch_in (w_res w') id = None
             | Some d => exists d', dispatch_in (w_res w') id = Some d' /\ moves strict d d' end) as Hd.
  { intros id. destruct (dispatch_in (w_res w) id) as [d|] eqn:Hd; [eapply keeps_moves; eauto|].
    specialize (Hk id). unfold dispatch_in in *. destruct (fetch (w_res w) _) as [[]|], (fetch (w_res w') _) as [[]|]; done. }
  split_and!; try done. split_and!; try done. intros id d' Hd'. specialize (Hd id).
  destruct (dispatch_in (w_res w) id) as [d|] eqn:Hd0; [|congruence].
  destruct Hd as (d1 & Hd1 & Hm). simplify_eq. apply Hm. eauto.
Qed.

Lemma execute_system_evolves {X} k w (x : X) :
  ready w ->
  wq (k < length (w_systems w))%nat (execute_system call k) (w, x)
    (fun r st => evolves w st.1 /\ st.2 = x /\ sound r).
Proof.
  intros Hr. pose proof Hr as ([Hn Hf] & Hsys & _). unfold wq, execute_system.
  destruct (w_systems w !! k) as [s|] eqn:Hk; simpl; [|apply lookup_ge_None in Hk; lia].
  assert (system_ok s) as [Hc Hl] by (eapply Forall_lookup_1; eauto).
  destruct (execute_run call s (w_res w) polite_keeps (conj Hn Hf) Hc Hl) as (slots & Hl' & ->). unfold run_system.
  assert (forall f, Forall system_ok (<[k := mkSystem (s_access s) slots f]> (w_systems w))) as Hins.
  { intros f. apply Forall_insert; [done|]. done. }
  destruct (mapM (fetch (w_res w)) (s_access s)) as [vs|] eqn:Hm; simpl.
  - pose proof (Hpolite (s_fn s) vs) as Hp. destruct (call (s_fn s) vs) as [[f vs'] out]. simpl in *.
    split_and!; [|done|by destruct out].
    apply ready_evolves; simpl; rewrite ?length_insert; try done; [by apply settled_store|apply store_ids|].
    intros id. by eapply store_keeps.
  - split_and!; [|done|done]. apply ready_evolves; simpl; rewrite ?length_insert; try done.
    intros id. destruct (fetch _ _); simpl; [apply value_same|done].
Qed.

(** Looking at a dispatch changes nothing. *)
Lemma read_dispatch_spec {X} id i w (x : X) :
  settled (w_res w) -> slot_of (w_res w) id i ->
  read_dispatch id i (w, x) =
  Some (match dispatch_in (w_res w) id with Some d => Ok d | None => Err (RResource Missing) end, (w, x)).
Proof.
  intros [Hn Hf] Hs. pose proof (param_get_hold [] (w_res w) i (mkAccess id false) Hn Hs eq_refl) as Hg.
  rewrite hold_nil in Hg by done. unfold param_get in Hg. simpl in Hg. unfold read_dispatch, dispatch_in. rewrite Hg.
  destruct w as [sys slots res]. simpl in *. destruct (fetch res (mkAccess id false)) as [v|]; simpl; [|done].
  destruct Hs as (e & Hi & He).
  pose proof (hold_less [] res i e (mkAccess id false) v Hn Hi He eq_refl) as Hd. simpl in Hd. rewrite Hd.
  unfold store_one. simpl. rewrite hold_nil by done. by destruct v.
Qed.

(** A method changes the dispatch it is called on. *)
Definition updated w id (d : Dispatch E) w' : Prop :=
  settled (w_res w') /\ w_systems w' = w_systems w /\ w_slots w' = w_slots w /\ map e_id (w_res w') = map e_id (w_res w) /\
  forall id', dispatch_in (w_res w') id' = if id' =? id then Some d else dispatch_in (w_res w) id'.

Lemma write_dispatch_spec {X A} id i (f : Dispatch E -> Dispatch E * A) w (x : X) :
  settled (w_res w) -> slot_of (w_res w) id i ->
  write_dispatch id i f (w, x) = Some (Err (RResource Missing), (w, x)) \/
  exists d w', dispatch_in (w_res w) id = Some d /\ write_dispatch id i f (w, x) = Some (Ok (f d).2, (w', x)) /\
             updated w id (f d).1 w'.
Proof.
  intros Hset Hs. pose proof Hset as [Hn Hf]. set (a := mkAccess id true).
  pose proof (param_get_hold [] (w_res w) i a Hn Hs eq_refl) as Hg.
  rewrite hold_nil in Hg by done. unfold param_get in Hg. simpl in Hg. unfold write_dispatch. rewrite Hg.
  destruct w as [sys slots res]. simpl in *. destruct (fetch res a) as [v|] eqn:Hv; simpl; [|by left].
  pose proof Hs as (e & Hi & He).
  assert (forall v', drop_guard true i v' (hold [a] res) = store_one a v' res) as Hd.
  { intros v'. pose proof (hold_less [] res i e a v' Hn Hi He eq_refl) as Hd. simpl in Hd. rewrite Hd.
    apply hold_nil. apply (settled_store [a] [v'] res Hset). }
  destruct v as [u|d].
  - left. rewrite Hd, store_one_same by done. done.
  - right. exists d. destruct (f d) as [d' r] eqn:Hfd. eexists. split_and!; [|done|].
    + unfold dispatch_in. by rewrite (fetch_weaken _ _ _ Hv).
    + rewrite Hd. split_and!; try done; simpl; [apply (settled_store [a] [ADispatch d'] res Hset)|apply store_one_ids|].
      intros id'. unfold dispatch_in. rewrite fetch_store_one by (rewrite Hv; eauto). simpl. by destruct (id' =? id).
Qed.

(** A method call after a run, seen from before the run. *)
Lemma updated_evolves w1 w2 w3 id d d' :
  ready w1 -> evolves w1 w2 -> dispatch_in (w_res w1) id = Some d -> updated w2 id d' w3 -> moves strict d d' -> evolves w1 w3.
Proof.
  intros (_ & _ & Hsane) (Hr2 & A & B & C & D) Hd (Hset & Hsys & Hsl & Hids & Hu) Hm.
  destruct Hr2 as (_ & Hok & Hsane2). split_and!; try congruence; [split_and!; [done|by rewrite Hsys|]|].
  - intros id' d0. rewrite Hu. case_match; intros H0; [|eauto]. simplify_eq. apply Hm. eauto.
  - intros id'. rewrite Hu. destruct (id' =? id) eqn:He; [|apply D].
    replace id' with id by lia. rewrite Hd. eauto.
Qed.

Lemma evolves_slot w w' id i : evolves w w' -> slot_of (w_res w) id i -> slot_of (w_res w') id i.
Proof. intros (_ & _ & _ & Hids & _). by apply slot_of_ids. Qed.

Lemma evolves_ready w w' : evolves w w' -> ready w'.
Proof. intros H. apply H. Qed.

(** ** Enough fuel

  Without new rounds no budget grows, so fuel above every budget is enough. *)
Section fuel.
Context (fuel systems slots : nat).

Definition can w : Prop :=
  strict = true /\ (0 < fuel)%nat /\ (forall id d, dispatch_in (w_res w) id = Some d -> remaining d < Z.of_nat fuel) /\
  length (w_systems w) = systems /\ length (w_slots w) = slots.

Lemma can_evolves w w' : evolves w w' -> can w -> can w'.
Proof.
  intros (_ & A & B & _ & D) (Hs & Hz & Hb & Hl & Hl'). split_and!; [done|done| |congruence..].
  intros id d Hd. specialize (D id). destruct (dispatch_in (w_res w) id) as [d0|] eqn:Hd0; [|congruence].
  destruct D as (d' & Hd' & _ & _ & Hm). simplify_eq. specialize (Hm Hs). specialize (Hb id d0 Hd0). lia.
Qed.

(** A plan whose systems and slots are where it says. *)
Fixpoint placed (s : Step E) : bool :=
  match s with
  | SFun k => bool_decide (k < systems)%nat
  | SNested p | SMapped _ p => forallb placed p
  | SSub sub children =>
      bool_decide (sub_select sub < systems)%nat && bool_decide (sub_finish sub < systems)%nat &&
      bool_decide (sub_slot sub < slots)%nat && forallb (fun kp => forallb placed kp.2) children
  end.

Definition run_ok (T : Prop) (run : Cursor -> World -> Out) : Prop := forall c w, ready w ->
  match run c w with
  | Some (_, w', r) => evolves w w' /\ sound r
  | None => ~ (can w /\ T)
  end.

Section loop.
Context (s : Sub) (i : Z) (runs : list (Z * (Cursor -> World -> Out (U:=U) (F:=F) (E:=E)))) (T : Prop).
Context (Hruns : Forall (fun kr => run_ok T kr.2) runs).

(** When a loop with [n] rounds left must not be stopped. *)
Definition may (n : nat) w : Prop :=
  can w /\ T /\ (sub_select s < systems)%nat /\ (sub_finish s < systems)%nat /\
  (0 < n)%nat /\ forall d, dispatch_in (w_res w) (sub_id s) = Some d -> remaining d < Z.of_nat n.

Lemma may_evolves n w w' : evolves w w' -> may n w -> may n w'.
Proof.
  intros He (A & B & C & D & Hn & H). split_and!; [by eapply can_evolves|done..|]. intros d Hd.
  destruct He as (_ & _ & _ & _ & He). specialize (He (sub_id s)).
  destruct (dispatch_in (w_res w) (sub_id s)) as [d0|] eqn:Hd0; [|congruence].
  destruct He as (d' & Hd' & _ & _ & Hm). simplify_eq. destruct A as (Hs & _). specialize (Hm Hs). specialize (H d0 eq_refl). lia.
Qed.

Definition goes_well w (r : result (RunError E) Progress) (st : World * bool) : Prop := evolves w st.1 /\ sound r.

(** From the selection on: take it, run it, complete it, and go on. *)
Definition taken (again : M (World * bool) (RunError E) Progress) (inv : option Invocation) : M (World * bool) (RunError E) Progress :=
  match inv with
  | None => mret Done
  | Some inv =>
      match List.find (fun kr => kr.1 =? key inv) runs with
      | None =>
          r ← write_dispatch (sub_id s) i (restore_selected inv);
          _ ← dispatch_result r;
          fail UnknownPlan
      | Some (_, run) =>
          completion ← run_child run inv;
          r ← write_dispatch (sub_id s) i (complete completion);
          _ ← dispatch_result r;
          _ ← set_finishing true;
          again
      end
  end.

Lemma taken_ok n again inv w1 w fin d :
  (forall w fin, ready w -> slot_of (w_res w) (sub_id s) i -> wq (may n w) again (w, fin) (goes_well w)) ->
  ready w1 -> evolves w1 w -> slot_of (w_res w1) (sub_id s) i ->
  dispatch_in (w_res w1) (sub_id s) = Some d -> state d = Selected inv ->
  dispatch_in (w_res w) (sub_id s) = Some (mkDispatch (remaining d) Running) ->
  wq (may (S n) w1) (taken again (Some inv)) (w, fin) (goes_well w1).
Proof.
  intros Hagain Hr1 He Hslot Hd Hst Hw. pose proof (evolves_ready _ _ He) as Hr.
  assert (sane d) as [Hu Hone] by (destruct Hr1 as (_ & _ & H); eauto). rewrite Hst in Hone.
  unfold taken. destruct (List.find _ runs) as [[k run]|] eqn:Hfind.
  - apply List.find_some in Hfind as [Hin _]. apply list_elem_of_In in Hin.
    rewrite Forall_forall in Hruns. specialize (Hruns _ Hin). simpl in Hruns.
    apply wq_bind. unfold wq at 1, run_child. specialize (Hruns (cursor inv) w Hr).
    destruct (run (cursor inv) w) as [[[c w'] r]|]; simpl.
    2: { intros (A & B & _). apply Hruns. split; [by eapply can_evolves|done]. }
    destruct Hruns as [He' _]. pose proof (evolves_trans _ _ _ He He') as He1.
    assert (dispatch_in (w_res w') (sub_id s) = Some (mkDispatch (remaining d) Running)) as Hw'.
    { destruct He' as (_ & _ & _ & _ & Hm). specialize (Hm (sub_id s)). rewrite Hw in Hm.
      destruct Hm as (d' & -> & _ & Hrun & _). by rewrite Hrun. }
    apply wq_bind. unfold wq at 1.
    destruct (write_dispatch_spec (sub_id s) i (complete (mkCompletion (mkInvocation (key inv) c) r)) w' fin) as [->|(d0 & w2 & Hd0 & -> & Hup)];
      [apply He'|by eapply evolves_slot|done|].
    rewrite Hw' in Hd0. injection Hd0 as <-. unfold complete in *. simpl in *.
    destruct (checked_sub (remaining d) 1) as [rest|] eqn:Hsub.
    2: { apply checked_None in Hsub. destruct Hsub. apply usize_iff. apply usize_iff in Hu. lia. }
    apply checked_Some in Hsub as [<- Hu']. simpl in *.
    assert (evolves w1 w2) as He2.
    { eapply updated_evolves; eauto. split_and!; [|by rewrite Hst|simpl; lia]. intros _. by split. }
    unfold dispatch_result, lift, set_finishing. apply wq_bind. unfold wq at 1. simpl. apply wq_bind. unfold wq at 1. simpl.
    eapply wq_mono; [apply (Hagain w2 true); [by eapply evolves_ready|by eapply evolves_slot]| |].
    + intros Hmay. pose proof (may_evolves _ _ _ He2 Hmay) as (A & B & C & D & _ & _). split_and!; [done|done|done|done| |].
      1: destruct Hmay as (_ & _ & _ & _ & _ & Hmay); specialize (Hmay d Hd); lia.
      destruct Hup as (_ & _ & _ & _ & Hup). intros d2. rewrite Hup, Z.eqb_refl. intros [= <-]. simpl.
      destruct Hmay as (_ & _ & _ & _ & _ & Hmay). specialize (Hmay d Hd). lia.
    + intros r' [w'' fin'] [Hev Hs]. split; [by eapply evolves_trans|done].
  - apply wq_bind. unfold wq at 1.
    destruct (write_dispatch_spec (sub_id s) i (restore_selected inv) w fin) as [->|(d0 & w2 & Hd0 & -> & Hup)];
      [apply Hr|by eapply evolves_slot|done|].
    rewrite Hw in Hd0. injection Hd0 as <-. unfold restore_selected in *. simpl in *.
    split; [|done]. simpl. eapply updated_evolves; eauto.
    destruct d as [r st]. simpl in *. subst st. reflexivity.
Qed.

Lemma body_ok n again w fin :
  (forall w fin, ready w -> slot_of (w_res w) (sub_id s) i -> wq (may n w) again (w, fin) (goes_well w)) ->
  ready w -> slot_of (w_res w) (sub_id s) i ->
  wq (may (S n) w) (sub_body call s i runs again) (w, fin) (goes_well w).
Proof.
  intros Hagain Hr Hslot. pose proof (evolves_refl w Hr) as Hrefl. unfold sub_body.
  apply wq_bind. unfold wq at 1. rewrite read_dispatch_spec by (done || apply Hr).
  destruct (dispatch_in (w_res w) (sub_id s)) as [d|] eqn:Hd; [|by split].
  destruct (remaining d =? 0); [by split|].
  apply wq_bind. unfold wq at 1. rewrite read_dispatch_spec by (done || apply Hr). rewrite Hd.
  apply wq_bind.
  assert (wq (may (S n) w) (if has_selected d then mret Done else execute_system call (sub_select s)) (w, fin)
            (fun r st => evolves w st.1 /\ st.2 = fin /\ sound r)) as Hsel.
  { destruct (has_selected d); [by split_and!|]. eapply wq_mono; [apply execute_system_evolves, Hr| |done].
    intros ((_ & _ & _ & <- & _) & _ & Hin & _). done. }
  eapply wq_mono; [exact Hsel|done|]. intros [[]|e] [w1 fin1] (He & _ & Hs); simpl in *; [|by split|by split].
  pose proof (evolves_ready _ _ He) as Hr1. pose proof (evolves_slot _ _ _ _ He Hslot) as Hslot1.
  apply wq_bind. unfold wq at 1.
  destruct (write_dispatch_spec (sub_id s) i take_selected w1 fin1) as [->|(d1 & w2 & Hd1 & -> & Hup)]; [apply Hr1|done|by split|].
  cut (wq (may (S n) w1) (taken again (take_selected d1).2) (w2, fin1) (goes_well w1)).
  { intros Hend. eapply wq_mono; [exact Hend|by apply may_evolves|].
    intros r' [w' fin'] [Hev Hs']. split; [by eapply evolves_trans|exact Hs']. }
  assert (moves strict d1 (take_selected d1).1) as Hm.
  { unfold take_selected. destruct (state d1) eqn:Hst; try reflexivity. split_and!; [|congruence|done].
    unfold sane. rewrite Hst. done. }
  pose proof (updated_evolves _ _ _ _ _ _ Hr1 (evolves_refl w1 Hr1) Hd1 Hup Hm) as He2.
  unfold take_selected in *. destruct (state d1) eqn:Hst; simpl in *; try by split.
  eapply taken_ok; eauto. destruct Hup as (_ & _ & _ & _ & Hup). by rewrite Hup, Z.eqb_refl.
Qed.

Lemma loop_ok n : forall w fin, ready w -> slot_of (w_res w) (sub_id s) i ->
  wq (may n w) (sub_loop call s i runs n) (w, fin) (goes_well w).
Proof.
  induction n as [|n IH]; intros w fin Hr Hslot; cbn [sub_loop].
  { unfold wq, panic. intros (_ & _ & _ & _ & Hn & _). lia. }
  apply wq_bind. unfold wq at 1, get_finishing. simpl.
  destruct fin; [|by apply body_ok].
  apply wq_bind. eapply wq_mono; [apply execute_system_evolves, Hr| |].
  { intros ((_ & _ & _ & <- & _) & _ & _ & Hin & _). done. }
  intros [[]|e] [w1 fin1] (He & _ & Hs); simpl in *; [|by split|by split].
  pose proof (evolves_ready _ _ He) as Hr1. pose proof (evolves_slot _ _ _ _ He Hslot) as Hslot1.
  apply wq_bind. unfold wq at 1. rewrite read_dispatch_spec by (done || apply Hr1).
  destruct (dispatch_in (w_res w1) (sub_id s)) as [d|]; [|by split]. destruct (is_idle d); simpl; [|by split].
  apply wq_bind. unfold wq at 1, set_finishing. simpl.
  eapply wq_mono; [by apply body_ok|by apply may_evolves|].
  intros r' [w' fin'] [Hev Hs']. split; [by eapply evolves_trans|exact Hs'].
Qed.
End loop.

Lemma sub_run_ok s runs T w fin :
  Forall (fun kr => run_ok T kr.2) runs -> ready w ->
  wq (can w /\ T /\ (sub_select s < systems)%nat /\ (sub_finish s < systems)%nat /\ (sub_slot s < slots)%nat)
    (sub_run call fuel s runs) (w, fin) (goes_well w).
Proof.
  intros Hruns Hr. apply wq_bind. unfold wq at 1, find_dispatch.
  destruct (w_slots w !! sub_slot s) as [cached|] eqn:Hc; simpl.
  2: { apply lookup_ge_None in Hc. intros ((_ & _ & _ & _ & <-) & _ & _ & _ & Hl). lia. }
  pose proof (index_of_spec (sub_id s) cached (w_res w)) as Hi.
  destruct (index_of (sub_id s) cached (w_res w)) as [i|e]; [|split; [by apply evolves_refl|done]].
  set (w' := mkWorld _ _ _).
  assert (evolves w w') as He.
  { apply ready_evolves; simpl; rewrite ?length_insert; try done; [apply Hr..|].
    intros id. destruct (fetch _ _); simpl; [apply value_same|done]. }
  eapply wq_mono; [apply (loop_ok s i runs T Hruns fuel w')|..].
  - by eapply evolves_ready.
  - done.
  - intros (A & B & C & D & _). split_and!; [by eapply can_evolves|done..|apply A|]. simpl. intros d. apply A.
  - intros r' [w'' fin'] [Hev Hs']. split; [by eapply evolves_trans|exact Hs'].
Qed.

(** ** Steps and plans *)

Definition step_ok (x : Step E) : Prop := run_ok (placed x = true) (execute call fuel x).

Lemma steps_ok p : Forall step_ok p -> forall skipped, run_ok (forallb placed p = true) (advance_steps (execute call fuel) p skipped).
Proof.
  induction 1 as [|x p Hx _ IH]; intros skipped c w Hr; simpl; [split; [by apply evolves_refl|done]|].
  destruct skipped as [|n].
  - specialize (Hx c w Hr). destruct (execute call fuel x c w) as [[[c' w'] r]|]; simpl.
    2: { rewrite andb_true_iff. tauto. }
    destruct Hx as [He Hs]. destruct r as [[]|e]; [|done..].
    specialize (IH O (cursor_next c') w' (evolves_ready _ _ He)).
    destruct (advance_steps _ p 0 (cursor_next c') w') as [[[c2 w2] r2]|].
    + destruct IH as [He2 Hs2]. split; [by eapply evolves_trans|done].
    + rewrite andb_true_iff. intros (Hcan & _ & Hp). apply IH. split; [by eapply can_evolves|done].
  - specialize (IH n c w Hr). destruct (advance_steps _ p n c w) as [[[c2 w2] r2]|]; [done|].
    rewrite andb_true_iff. tauto.
Qed.

Lemma all_steps_ok x : step_ok x.
Proof.
  induction x as [k|p IH|f p IH|sub children IH] using step_induction; intros c w Hr; cbn [execute placed].
  - pose proof (execute_system_evolves k w tt Hr) as H. unfold wq in H.
    destruct (execute_system call k (w, tt)) as [[r [w' []]]|]; simpl in *; [tauto|].
    rewrite bool_decide_eq_true. intros ((_ & _ & _ & <- & _) & Hk). done.
  - pose proof (steps_ok p IH (c_at (default Cursor_default (c_nested c))) (default Cursor_default (c_nested c)) w Hr) as H.
    destruct (advance_steps _ _ _ _ _) as [[[n' w'] r]|]; done.
  - pose proof (steps_ok p IH (c_at (default Cursor_default (c_nested c))) (default Cursor_default (c_nested c)) w Hr) as H.
    destruct (advance_steps _ _ _ _ _) as [[[n' w'] r]|]; simpl; [|done]. destruct H as [He Hs]. split; [done|].
    destruct r as [|[]]; done.
  - set (runs := map _ children).
    assert (Forall (fun kr => run_ok (forallb (fun kp => forallb placed kp.2) children = true) kr.2) runs) as Hruns.
    { subst runs. apply Forall_fmap. apply Forall_forall. intros kp Hin. rewrite Forall_forall in IH.
      intros c' w0 Hr0. simpl. pose proof (steps_ok kp.2 (IH _ Hin) (c_at c') c' w0 Hr0) as H.
      destruct (advance_steps _ _ _ _ _) as [[[n' w'] r]|]; [done|]. intros [Hcan Hall]. apply H. split; [done|].
      rewrite List.forallb_forall in Hall. apply Hall. by apply list_elem_of_In. }
    pose proof (sub_run_ok sub runs _ w (c_finishing c) Hruns Hr) as H. unfold wq in H.
    destruct (sub_run call fuel sub runs (w, c_finishing c)) as [[r [w' fin]]|]; simpl; [done|].
    rewrite !andb_true_iff, !bool_decide_eq_true. tauto.
Qed.

Lemma advance_ok plan : run_ok (forallb placed plan = true) (advance call fuel plan).
Proof. intros c w Hr. apply steps_ok; [|done]. apply Forall_forall. intros x _. apply all_steps_ok. Qed.
End fuel.
End worlds.

(** ** What a run promises *)

Section promises.
Context {U F E : Type}.
Abbreviation V := (Any U E).
Context (call : F -> list V -> F * list V * result E Progress).

(** C29: when closures use a dispatch through its public methods, whatever a
  plan does, its [Subplans] included, leaves every dispatch consistent: a
  selected or running invocation always has budget left, so completing it
  never fails with [Exhausted]; an invocation that an outer plan is running
  is never touched by the plans under it; and no guard is left behind. *)
Theorem advance_keeps_dispatches fuel plan c w c' w' r :
  polite call false -> ready w -> advance call fuel plan c w = Some (c', w', r) ->
  ready w' /\ r <> Err (RDispatch Exhausted) /\
  forall id d, dispatch_in (w_res w) id = Some d ->
    exists d', dispatch_in (w_res w') id = Some d' /\ (state d = Running -> d' = d).
Proof.
  intros Hp Hr Ha. pose proof (advance_ok call false Hp fuel 0 0 plan c w Hr) as H. rewrite Ha in H.
  destruct H as [(Hr' & _ & _ & _ & Hd) Hs]. split_and!; [done|by destruct r as [|e]; [|intros [= ->]; apply Hs]|].
  intros id d Hi. specialize (Hd id). rewrite Hi in Hd. destruct Hd as (d' & Hd' & _ & Hrun & _). eauto.
Qed.

(** C30: a run of a plan ends when no closure grants a new budget: rounds of
  every [Subplans], nested ones included, are bounded by the budget of its
  dispatch, which never grows. *)
Theorem advance_ends fuel plan c w :
  polite call true -> ready w -> (0 < fuel)%nat ->
  forallb (placed (length (w_systems w)) (length (w_slots w))) plan = true ->
  (forall id d, dispatch_in (w_res w) id = Some d -> remaining d < Z.of_nat fuel) ->
  exists c' w' r, advance call fuel plan c w = Some (c', w', r) /\
  forall id d, dispatch_in (w_res w) id = Some d ->
    exists d', dispatch_in (w_res w') id = Some d' /\ remaining d' <= remaining d.
Proof.
  intros Hp Hr Hf Hpl Hb.
  pose proof (advance_ok call true Hp fuel (length (w_systems w)) (length (w_slots w)) plan c w Hr) as H.
  destruct (advance call fuel plan c w) as [[[c' w'] r]|].
  - exists c', w', r. split; [done|]. destruct H as [(_ & _ & _ & _ & Hd) _]. intros id d Hi. specialize (Hd id).
    rewrite Hi in Hd. destruct Hd as (d' & Hd' & _ & _ & Hle). eauto.
  - destruct H. split; [split_and!|]; done.
Qed.
End promises.

(** *** A plan with a selected child *)

Definition demo_closure (f : nat) (vs : list (Any unit unit)) : nat * list (Any unit unit) * result unit Progress :=
  match f, vs with
  | 0%nat, [ADispatch d] => (f, [ADispatch (select (mkInvocation 1 Cursor_default) d).1], Ok Done)
  | 1%nat, [ADispatch d] => (f, [ADispatch (take_result d).1], Ok Done)
  | _, _ => (f, vs, Ok Done)
  end.

Definition demo_world (budget : Z) : World (U:=unit) (F:=nat) (E:=unit) :=
  mkWorld [System_new [mkAccess 5 true] 0%nat; System_new [mkAccess 5 true] 1%nat; System_new [] 2%nat] [usize_MAX]
    [mkEntry 5 (Owned (ADispatch (mkDispatch budget Idle))) Free].

Definition demo_plan : list (Step unit) := [SSub (mkSub 0 1 5 0) [(1, [SFun 2%nat])]; SNested [SFun 2%nat]].

Lemma demo_polite strict : polite demo_closure strict.
Proof.
  assert (forall vs : list (Any unit unit), Forall2 (keeps strict) vs vs) as Hrefl.
  { intros vs. induction vs as [|v vs IH]; constructor; [apply value_same|done]. }
  intros [|[|f]] vs; [| |apply Hrefl]; destruct vs as [|[u|d] [|v vs]]; try apply Hrefl; simpl;
    (constructor; [|constructor]); apply rtc_once; [apply pub_select|apply pub_take].
Qed.

Lemma demo_ready budget : usize budget -> ready (demo_world budget).
Proof.
  intros Hb. split_and!; [split; [|repeat constructor]|repeat constructor|].
  - apply (bool_decide_unpack _). vm_compute. exact I.
  - intros id d. unfold dispatch_in. rewrite fetch_read. unfold entry_of. cbn [List.find demo_world w_res e_id].
    destruct (5 =? id); [|done]. intros [= <-]. by split.
Qed.

Example advance_keeps_dispatches_witness :
  exists c' w' r, advance demo_closure 3 demo_plan Cursor_default (demo_world 2) = Some (c', w', r) /\
  r <> Err (RDispatch Exhausted) /\ dispatch_in (w_res w') 5 = Some (mkDispatch 0 Idle).
Proof.
  destruct (advance demo_closure 3 demo_plan Cursor_default (demo_world 2)) as [[[c' w'] r]|] eqn:Ha;
    [|exfalso; vm_compute in Ha; discriminate Ha].
  exists c', w', r. split; [reflexivity|]. split.
  - apply (advance_keeps_dispatches demo_closure 3 demo_plan Cursor_default (demo_world 2) c' w' r); [apply demo_polite|apply demo_ready|exact Ha].
    apply usize_iff. rewrite usize_MAX_eq. lia.
  - vm_compute in Ha. injection Ha as <- <- <-. reflexivity.
Defined.

Example advance_ends_witness :
  exists c' w' r, advance demo_closure 3 demo_plan Cursor_default (demo_world 2) = Some (c', w', r) /\
  forall id d, dispatch_in (w_res (demo_world 2)) id = Some d ->
    exists d', dispatch_in (w_res w') id = Some d' /\ remaining d' <= remaining d.
Proof.
  apply (advance_ends demo_closure 3 demo_plan Cursor_default (demo_world 2)).
  - apply demo_polite.
  - apply demo_ready. apply usize_iff. rewrite usize_MAX_eq. lia.
  - lia.
  - reflexivity.
  - intros id d. unfold dispatch_in. rewrite fetch_read. unfold entry_of. cbn [List.find demo_world w_res e_id].
    destruct (5 =? id); [|done]. intros [= <-]. simpl. lia.
Defined.
