(* ===== verification/Pend.v ===== *)
(** * The capability ledger: [kernel/src/core/work/pend]

    A task holds resources through _pies_: a pie names a resource (a mail), the
    permissions of its grant, and, when it was handed on, the pie it came from
    ([sire]) and the task that gave it ([lord]).  The giver keeps the pair in
    its [heirs] table, so that what it gave can be taken back, with everything
    given on from there.

    Every change happens inside one critical section, under the locks of the
    tasks it touches and the commit lock; such a section is one step here.
    Looking for the pies under a pie ([collect]) takes one lock at a time and
    is checked again before anything is removed; it is the state of a [Hunt].
    Versions are counted without the 64-bit wrap-around of the code.

    Tasks are known by their number and are in [tasks] as long as somebody
    keeps them; a weak reference upgrades exactly then.  Mails are what the
    ledger reads of the resources: their life, and what a [Pole] says when it
    is asked.  [g_root] and [g_cap] of a grant are not in the code: they record
    the pie it descends from and the permissions that one started with. *)

From S2P Require Import Prelude.

Open Scope Z_scope.

(** ** Permissions and grants: [env/abi/permission.rs], [grant.rs] *)

Definition FETCH : Z := 1.
Definition STORE : Z := 2.
Definition VEST : Z := 4.
Definition ONLY : Z := 8.

Definition contains (p q : Z) : bool := Z.land p q =? q.

Inductive Need := NFetch | NStore | NVest.

Definition allowed_by (n : Need) (p : Z) : bool :=
  contains p (match n with NFetch => FETCH | NStore => STORE | NVest => VEST end).

Definition form_ok (src subset : Z) : bool := Bool.eqb (contains src ONLY) (contains subset ONLY).

Definition narrows (from to : Z) : bool := negb (to =? 0) && contains from to && form_ok from to.

Inductive PieFail := Denied | Dead | Busy | HandedOver | OoM.

#[global] Instance PieFail_eq_dec : EqDecision PieFail.
Proof. solve_decision. Defined.

Record Grant := mkGrant { g_bits : Z; g_window : option (Z * Z); g_root : Z; g_cap : Z }.

(** [Grant::permission], [Grant::narrow], [Grant::invalidate]. *)
Definition grant_permission (g : Grant) : option Z := if g_bits g =? 0 then None else Some (g_bits g).

Definition grant_narrow (subset : Z) (g : Grant) : result PieFail Grant :=
  if g_bits g =? 0 then Err Dead
  else if negb (narrows (g_bits g) subset) then Err Denied
  else Ok (mkGrant (Z.land (g_bits g) subset) (g_window g) (g_root g) (g_cap g)).

Definition grant_invalidate (g : Grant) : Grant := mkGrant 0 (g_window g) (g_root g) (g_cap g).

(** ** Pies, tasks and mails *)

Record Heir := mkHeir { h_task : Z; h_token : Z }.

#[global] Instance Heir_eq_dec : EqDecision Heir.
Proof. solve_decision. Defined.

Record Pie := mkPie {
  p_token : Z;
  p_mark : Z;
  p_sire : option Z;
  p_lord : option Z;
  p_heir : option Heir;
  p_mail : Z
}.

#[global] Instance Pie_eq_dec : EqDecision Pie.
Proof. solve_decision. Defined.

(** [struct Pend]: an entry of [t_heirs] is a pie of this task, the task that
    got one from it and the pie it got. *)
Record Pend := mkPend { t_version : Z; t_pies : list Pie; t_heirs : list (Z * Z * Z) }.

#[global] Instance Pend_eq_dec : EqDecision Pend.
Proof. solve_decision. Defined.

Definition Pend_new : Pend := mkPend 0 [] [].

Inductive Kind := Hole | Pole | Nole | Tole.

#[global] Instance Kind_eq_dec : EqDecision Kind.
Proof. solve_decision. Defined.

(** [m_authorization]: a [Pole] with the record of its source, whether that has
    publications in flight and which ranges it refuses. *)
Record Mail := mkMail {
  m_kind : Kind;
  m_owner : Z;
  m_alive : bool;
  m_operating : bool;
  m_reserved : Z;
  m_pages : Z;
  m_cells : bool;
  m_authorization : option (bool * (Z -> Z -> bool))
}.

Record World := mkWorld {
  tasks : gmap Z Pend;
  dead : gset Z;
  grants : gmap Z Grant;
  mails : Z -> Mail;
  next : Z
}.

Definition set_tasks (ts : gmap Z Pend) (w : World) : World := mkWorld ts (dead w) (grants w) (mails w) (next w).
Definition set_grants (gs : gmap Z Grant) (w : World) : World := mkWorld (tasks w) (dead w) gs (mails w) (next w).

Definition on_task (t : Z) (f : Pend -> Pend) (w : World) : World := set_tasks (alter f t (tasks w)) w.

Definition set_pies (ps : list Pie) (r : Pend) : Pend := mkPend (t_version r) ps (t_heirs r).
Definition set_heirs (hs : list (Z * Z * Z)) (r : Pend) : Pend := mkPend (t_version r) (t_pies r) hs.

(** [changed]. *)
Definition bump (r : Pend) : Pend := mkPend (t_version r + 1) (t_pies r) (t_heirs r).
Definition changed (t : Z) : World -> World := on_task t bump.

Definition pies_of (w : World) (t : Z) : list Pie := match tasks w !! t with Some r => t_pies r | None => [] end.
Definition heirs_of (w : World) (t : Z) : list (Z * Z * Z) := match tasks w !! t with Some r => t_heirs r | None => [] end.

(** [Weak::upgrade]. *)
Definition upgrade (w : World) (t : Z) : bool := bool_decide (is_Some (tasks w !! t)).

Definition live (w : World) (t : Z) : bool := negb (bool_decide (t ∈ dead w)).

Definition has_token (k : Z) (p : Pie) : bool := p_token p =? k.

Definition locate (w : World) (t k : Z) : option Pie := List.find (has_token k) (pies_of w t).

(** ** [pie/snapshot.rs] *)

Definition permission (w : World) (p : Pie) : Z :=
  match grants w !! p_token p with Some g => default 0 (grant_permission g) | None => 0 end.

Definition window_of (w : World) (p : Pie) : option (Z * Z) := g ← grants w !! p_token p; g_window g.

Definition pie_alive (w : World) (p : Pie) : bool :=
  m_alive (mails w (p_mail p)) && match grants w !! p_token p with Some g => negb (g_bits g =? 0) | None => false end.

Definition allows_need (w : World) (p : Pie) (n : Need) : bool := allowed_by n (permission w p).

Definition is_pole (w : World) (p : Pie) : bool := bool_decide (m_kind (mails w (p_mail p)) = Pole).

(** ** Reading: [pie/mod.rs], [mod.rs], [forget.rs] *)

Definition accede (w : World) (t k : Z) (n : Need) : result PieFail Pie :=
  pie ← ok_or (locate w t k) Denied;
  if negb (pie_alive w pie) then Err Dead
  else if negb (allows_need w pie n) then Err Denied
  else Ok pie.

(** [allows]: some pie of the task for this mail that is not handed over. *)
Definition allows (w : World) (t mail : Z) (n : Need) : bool :=
  any (fun p => (p_mail p =? mail) && pie_alive w p && bool_decide (p_heir p = None) && allows_need w p n) (pies_of w t).

Definition available (w : World) (p : Pie) : result PieFail unit :=
  if is_pole w p && negb (m_reserved (mails w (p_mail p)) =? 0) then Err HandedOver
  else match p_heir p with
       | Some h => if bool_decide (is_Some (locate w (h_task h) (h_token h))) then Err HandedOver else Ok tt
       | None => Ok tt
       end.

Definition same (w : World) (t a b : Z) : result PieFail bool :=
  pa ← ok_or (locate w t a) Denied;
  pb ← ok_or (locate w t b) Denied;
  if negb (pie_alive w pa) || negb (pie_alive w pb) then Err Dead else Ok (p_mail pa =? p_mail pb).

(** [vestor], undisturbed. *)
Definition vestor (w : World) (t k : Z) : option Z :=
  pie ← locate w t k;
  parent ← p_sire pie;
  lord ← p_lord pie;
  if upgrade w lord then _ ← locate w lord parent; Some lord else None.

(** ** The [heirs] table *)

Definition source_of (e : Z * Z * Z) : Z := e.1.1.

Definition insert_heir (parent child token : Z) (hs : list (Z * Z * Z)) : list (Z * Z * Z) :=
  insert_at (partition_point (fun e => source_of e <=? parent) hs) (parent, child, token) hs.

(** The entries of one pie lie together. *)
Fixpoint take_while {A} (f : A -> bool) (l : list A) : list A :=
  match l with [] => [] | x :: l => if f x then x :: take_while f l else [] end.

Definition heirs_at (token : Z) (hs : list (Z * Z * Z)) : list (Z * Z * Z) :=
  take_while (fun e => source_of e =? token) (drop (partition_point (fun e => source_of e <? token) hs) hs).

Definition remove_heir (parent token : Z) (hs : list (Z * Z * Z)) : list (Z * Z * Z) :=
  let start := partition_point (fun e => source_of e <? parent) hs in
  match position (fun e => e.2 =? token) (heirs_at parent hs) with
  | Some i => remove_at (start + i) hs
  | None => hs
  end.

(** ** Changing one pie *)

(** The first pie with the token, as [iter_mut().find] and [position] have it. *)
Fixpoint update_first (k : Z) (f : Pie -> Pie) (ps : list Pie) : list Pie :=
  match ps with
  | [] => []
  | p :: ps => if has_token k p then f p :: ps else p :: update_first k f ps
  end.

Fixpoint remove_first (k : Z) (ps : list Pie) : list Pie :=
  match ps with
  | [] => []
  | p :: ps => if has_token k p then ps else p :: remove_first k ps
  end.

Definition update_pie (k : Z) (f : Pie -> Pie) (r : Pend) : Pend := set_pies (update_first k f (t_pies r)) r.

Definition set_heir (h : option Heir) (p : Pie) : Pie :=
  mkPie (p_token p) (p_mark p) (p_sire p) (p_lord p) h (p_mail p).

(** [Pie::parent]. *)
Definition set_parent (token lord : Z) (p : Pie) : Pie :=
  mkPie (p_token p) (p_mark p) (Some token) (Some lord) (p_heir p) (p_mail p).

Definition on_grant (k : Z) (f : Grant -> Grant) (w : World) : World := set_grants (alter f k (grants w)) w.

Abbreviation L := (M World PieFail).

(** [Pie::try_new_window]: a token is used up whether or not there is room for
    the grant; running out of tokens panics. *)
Definition try_new (room : bool) (bits : Z) (window : option (Z * Z)) (origin : Z -> Z * Z) : L Z :=
  w ← get;
  let k := next w in
  n ← expect (checked_add k 1);
  put (mkWorld (tasks w) (dead w) (grants w) (mails w) n) ;;
  if negb room then fail OoM
  else
    w ← get;
    let '(root, cap) := origin k in
    put (set_grants (<[k := mkGrant bits window root cap]> (grants w)) w) ;; mret k.

(** A pie that is dropped takes its grant with it. *)
Definition drop_pie (k : Z) : L unit := w ← get; put (on_grant k grant_invalidate w).

(** [Pie::try_new] and [insert]: a pie for a resource that was just made. *)
Definition pend_insert (room room' : bool) (t mail mark bits : Z) : L Z :=
  k ← try_new room bits None (fun k => (k, bits));
  w ← get;
  if negb (live w t) then drop_pie k ;; fail Dead
  else if negb room' then drop_pie k ;; fail OoM
  else
    let pie := mkPie k mark None None None mail in
    put (changed t (on_task t (fun r => set_pies (t_pies r ++ [pie]) r) w)) ;; mret k.

(** ** [accord.rs] *)

Definition effective_window (w : World) (p : Pie) (requested : option (Z * Z)) : result PieFail (option (Z * Z)) :=
  match requested with
  | None => Ok (window_of w p)
  | Some (offset, count) =>
      if negb (is_pole w p) then Err Denied
      else
        let '(o, c) := default (0, m_pages (mails w (p_mail p))) (window_of w p) in
        match checked_add o c, checked_add offset count with
        | Some outer_end, Some inner_end =>
            if (o <=? offset) && (inner_end <=? outer_end) then Ok (Some (offset, count)) else Err Denied
        | _, _ => Err Denied
        end
  end.

(** Ranges the source of a pole does not give out now. *)
Definition check_publish (w : World) (p : Pie) (window : option (Z * Z)) : result PieFail unit :=
  match is_pole w p, m_authorization (mails w (p_mail p)) with
  | true, Some (_, blocked) =>
      let '(offset, count) := default (0, m_pages (mails w (p_mail p))) window in
      if blocked offset count then Err Busy else Ok tt
  | _, _ => Ok tt
  end.

(** What must hold before a pie is handed on; the mark and window of the new
    one. *)
Definition publish_check (w : World) (caller src target subset mark : Z) (requested : option (Z * Z))
    : result PieFail (Pie * Z * option (Z * Z)) :=
  if negb (live w caller) || negb (live w target) then Err Dead else
  pie ← ok_or (locate w caller src) Denied;
  if is_pole w pie && m_operating (mails w (p_mail pie)) then Err Busy else
  if is_pole w pie && negb (m_reserved (mails w (p_mail pie)) =? 0) then Err HandedOver else
  if negb (pie_alive w pie) then Err Dead else
  if negb (allows_need w pie NVest) || negb (narrows (permission w pie) subset) then Err Denied else
  if bool_decide (is_Some (p_heir pie)) then Err HandedOver else
  if bool_decide (m_kind (mails w (p_mail pie)) = Tole) && m_cells (mails w (p_mail pie)) then Err Denied else
  window ← effective_window w pie requested;
  _ ← check_publish w pie window;
  Ok (pie, (if mark =? 0 then p_mark pie else mark), window).

(** The root and cap a new grant takes from the one it is made from. *)
Definition inherit (w : World) (src : Z) (_ : Z) : Z * Z :=
  match grants w !! src with Some g => (g_root g, g_cap g) | None => (src, 0) end.

(** [rooms]: is there room for the grant, the entry in [heirs], the pie. *)
Definition publish (rooms : bool * bool * bool) (caller src target subset mark : Z) (requested : option (Z * Z)) : L Z :=
  w ← get;
  if negb (upgrade w target) then fail Denied else
  '(pie, mark, window) ← lift (publish_check w caller src target subset mark requested);
  token ← try_new rooms.1.1 subset window (inherit w src);
  if negb rooms.1.2 then drop_pie token ;; fail OoM
  else if negb rooms.2 then drop_pie token ;; fail OoM
  else
    w ← get;
    let w := on_task caller (fun r => set_heirs (insert_heir src target token (t_heirs r)) r) w in
    let w := if contains (permission w pie) ONLY
             then on_task caller (update_pie src (set_heir (Some (mkHeir target token)))) w else w in
    let granted := mkPie token mark (Some src) (Some caller) None (p_mail pie) in
    let w := on_task target (fun r => set_pies (t_pies r ++ [granted]) r) w in
    let w := changed caller w in
    put (if caller =? target then w else changed target w) ;; mret token.

Definition accord rooms caller src target subset mark := publish rooms caller src target subset mark None.
Definition derive rooms caller src subset mark window := publish rooms caller src caller subset mark window.

Definition clear_heir_locked (t k : Z) (expected : Heir) (w : World) : World * bool :=
  match locate w t k with
  | Some pie =>
      if bool_decide (p_heir pie = Some expected)
      then (changed t (on_task t (update_pie k (set_heir None)) w), true)
      else (w, false)
  | None => (w, false)
  end.

Definition clear_heir (t k : Z) (expected : Heir) : L bool :=
  w ← get;
  let child := e ← List.find (fun e => (source_of e =? k) && (e.2 =? h_token expected)) (heirs_of w t);
               if upgrade w e.1.2 then Some e.1.2 else None in
  if match child with Some c => bool_decide (is_Some (locate w c (h_token expected))) | None => false end
  then mret false
  else
    let '(w, cleared) := clear_heir_locked t k expected w in
    put (if cleared then on_task t (fun r => set_heirs (remove_heir k (h_token expected) (t_heirs r)) r) w else w) ;;
    mret cleared.

(** ** Using a pie: [entry/call/gate.rs] and the calls behind it *)

Definition gate_accede (t k : Z) (n : Need) : L Pie := w ← get; lift (accede w t k n).

(** A pie whose heir is gone is put back in use. *)
Definition usable (t : Z) (p : Pie) : L unit :=
  w ← get;
  lift (match available w p with Ok _ => Ok tt | Err _ => Err HandedOver end) ;;
  match p_heir p with
  | None => mret tt
  | Some h => clear_heir t (p_token p) h ;; mret tt
  end.

(** What [with_hole], [with_nole] and [with_pole] do before the operation on
    the resource. *)
Definition enter (t k : Z) (n : Need) : L Pie := p ← gate_accede t k n; usable t p ;; mret p.

(** What [with_group] and the cells of a group do before theirs. *)
Definition group_check (w : World) (t k : Z) (n : Need) : result PieFail Pie :=
  pie ← accede w t k n;
  _ ← available w pie;
  Ok pie.

(** ** [narrow.rs] *)

(** The part under the locks. *)
Definition reduce_commit (t k subset : Z) : L unit :=
  w ← get;
  pie ← lift (ok_or (locate w t k) Denied);
  if negb (pie_alive w pie) then fail Dead
  else if negb (narrows (permission w pie) subset) then fail Denied
  else
    g ← expect (grants w !! k);
    g' ← lift (grant_narrow subset g);
    put (changed t (set_grants (<[k := g']> (grants w)) w)).

(** [reduce_locked]; [clan] says that a reserved pole is reserved for this
    family, [mapped] what came of starting an operation of that family and of
    narrowing the mappings of a pole. *)
Definition reduce (t k subset : Z) (clan : bool) (mapped : result PieFail unit) : L unit :=
  w ← get;
  pie ← lift (ok_or (locate w t k) Denied);
  if negb (pie_alive w pie) then fail Dead
  else if negb (narrows (permission w pie) subset) then fail Denied
  else if negb (is_pole w pie) then reduce_commit t k subset
  else if negb (contains subset FETCH) then fail Denied
  else if m_operating (mails w (p_mail pie)) then fail Busy
  else if negb (m_reserved (mails w (p_mail pie)) =? 0) && negb clan then fail Denied
  else lift mapped ;; reduce_commit t k subset.

(** ** [cull.rs] *)

(** [take], when the pie is there: its grant dies, its giver forgets it, its
    own entries go. *)
Definition take_pie (t k : Z) (p : Pie) (w : World) : World :=
  let w := on_task t (fun r => set_pies (remove_first k (t_pies r)) r) w in
  let w := on_grant k grant_invalidate w in
  let w := match p_sire p, p_lord p with
           | Some parent, Some lord =>
               if upgrade w lord then
                 let w := on_task lord (fun r => set_heirs (remove_heir parent k (t_heirs r)) r) w in
                 let w := (clear_heir_locked lord parent (mkHeir t k) w).1 in
                 changed lord w
               else w
           | _, _ => w
           end in
  changed t (on_task t (fun r => set_heirs (retain (fun e => negb (source_of e =? k)) (t_heirs r)) r) w).

Definition pend_take (t k : Z) (w : World) : World * option Pie :=
  match locate w t k with
  | Some p => (take_pie t k p w, Some p)
  | None => (w, None)
  end.

(** A search for the pies under a pie: the tasks seen with the version each had
    at first, the pies found, how far it got, and the task whose version is to
    be noted next. *)
Record Hunt := mkHunt {
  u_recursive : bool;
  u_tasks : list (Z * Z);
  u_nodes : list (Z * Z);
  u_cursor : nat;
  u_parent : option Z
}.

Definition hunt_start (recursive : bool) (t k : Z) : Hunt := mkHunt recursive [] [(t, k)] 0 None.

Definition observe (ts : list (Z * Z)) (t version : Z) : list (Z * Z) :=
  if any (fun e => e.1 =? t) ts then ts else ts ++ [(t, version)].

(** One round of [collect], under the lock of one task. *)
Definition hunt_visit (w : World) (u : Hunt) : result PieFail Hunt :=
  match u_nodes u !! u_cursor u with
  | None => Ok u
  | Some (t, k) =>
      r ← ok_or (tasks w !! t) Busy;
      pie ← ok_or (locate w t k) Busy;
      let parent := if bool_decide (u_cursor u = O) then l ← p_lord pie; if upgrade w l then Some l else None else None in
      let found := if bool_decide (u_cursor u = O) || u_recursive u
                   then List.filter (fun n => upgrade w n.1) (map (fun e => (e.1.2, e.2)) (heirs_at k (t_heirs r)))
                   else [] in
      Ok (mkHunt (u_recursive u) (observe (u_tasks u) t (t_version r)) (u_nodes u ++ found) (S (u_cursor u)) parent)
  end.

(** The version of another task is noted: the giver of the first pie, or the
    task that asks for the removal. *)
Definition hunt_observe (w : World) (t : Z) (u : Hunt) : Hunt :=
  match tasks w !! t with
  | Some r => mkHunt (u_recursive u) (observe (u_tasks u) t (t_version r)) (u_nodes u) (u_cursor u)
                (if bool_decide (u_parent u = Some t) then None else u_parent u)
  | None => u
  end.

(** The search is over when every pie found was visited. *)
Definition hunt_done (u : Hunt) : bool := bool_decide (u_cursor u = length (u_nodes u) /\ u_parent u = None).

Definition version_is (w : World) (e : Z * Z) : bool :=
  match tasks w !! e.1 with Some r => t_version r =? e.2 | None => false end.

(** [relations_match] for the pie at [index] of the list. *)
Definition node_match (w : World) (u : Hunt) (index : nat) (n : Z * Z) : bool :=
  match locate w n.1 n.2 with
  | None => false
  | Some pie =>
      match p_sire pie with
      | Some parent =>
          match p_lord pie with
          | Some lord =>
              upgrade w lord &&
              (if bool_decide (index = O) then any (fun e => e.1 =? lord) (u_tasks u)
               else any (fun m => (m.2 =? parent) && (m.1 =? lord)) (u_nodes u)) &&
              any (fun e => (source_of e =? parent) && (e.2 =? n.2) && (e.1.2 =? n.1)) (heirs_of w lord)
          | None => false
          end
      | None => bool_decide (index = O)
      end &&
      forallb (fun e => negb (upgrade w e.1.2) || any (fun m => (m.2 =? e.2) && (m.1 =? e.1.2)) (drop 1 (u_nodes u)))
        (heirs_at n.2 (heirs_of w n.1))
  end.

Definition relations_match (w : World) (u : Hunt) : bool := forallb (fun b => b) (imap (node_match w u) (u_nodes u)).

(** [with_tasks_checked]: all versions as they were, or the check given. *)
Definition unchanged (w : World) (u : Hunt) : bool := forallb (version_is w) (u_tasks u).

Fixpoint take_all (ns : list (Z * Z)) (w : World) : World * list Pie :=
  match ns with
  | [] => (w, [])
  | (t, k) :: ns =>
      let '(w1, p) := pend_take t k w in
      let '(w2, ps) := take_all ns w1 in
      (w2, match p with Some p => p :: ps | None => ps end)
  end.

(** The pole of a pie may be busy, and its source may have publications in
    flight. *)
Definition withdraw_check (w : World) (closing : bool) (p : Pie) : result PieFail unit :=
  if is_pole w p && negb closing && (m_operating (mails w (p_mail p)) || negb (m_reserved (mails w (p_mail p)) =? 0)) then Err Busy
  else match is_pole w p, m_authorization (mails w (p_mail p)) with
       | true, Some (true, _) => Err Busy
       | _, _ => Ok tt
       end.

(** The section of [cull] that removes; the first of the nodes is the pie it
    was asked for. *)
Definition cull_commit (room : bool) (u : Hunt) (caller : option Z) (closing : bool) : L (list Pie) :=
  w ← get;
  if negb room then fail OoM else
  if negb (unchanged w u || relations_match w u) then fail Busy else
  '(t, k) ← expect (u_nodes u !! 0%nat);
  root ← lift (ok_or (locate w t k) Denied);
  (match caller with
   | None => mret tt
   | Some c =>
       parent ← lift (ok_or (p_sire root) Denied);
       lord ← lift (ok_or (p_lord root) Denied);
       if negb (upgrade w lord) || negb (lord =? c) || negb (bool_decide (is_Some (locate w c parent))) then fail Denied
       else mret tt
   end) ;;
  lift (withdraw_check w closing root) ;;
  let '(w', removed) := take_all (reverse (u_nodes u)) w in
  put w' ;; mret removed.

(** [reap]: a pie nobody gave and nobody got, and no mappings ([maps]). *)
Definition reap (t k : Z) (maps : bool) : L (option Pie) :=
  w ← get;
  match locate w t k with
  | None => mret None
  | Some pie =>
      if bool_decide (is_Some (p_sire pie)) || bool_decide (is_Some (p_heir pie)) then mret None
      else if any (fun e => source_of e =? k) (heirs_of w t) then mret None
      else if is_pole w pie && (m_operating (mails w (p_mail pie)) || negb (m_reserved (mails w (p_mail pie)) =? 0)) then fail Busy
      else if is_pole w pie && maps then mret None
      else
        lift (withdraw_check w true pie) ;;
        let '(w', p) := pend_take t k w in
        put w' ;; match p with Some p => mret (Some p) | None => fail Denied end
  end.

(** ** [forget.rs] *)

(** A child of the forgotten pie goes to its giver. *)
Definition adopt (lord parent : Z) (n : Z * Z) (w : World) : World :=
  let w := on_task n.1 (update_pie n.2 (set_parent parent lord)) w in
  let w := on_task lord (fun r => set_heirs (insert_heir parent n.1 n.2 (t_heirs r)) r) w in
  changed n.1 w.

(** A child that is not there panics. *)
Fixpoint adopt_all (lord parent : Z) (ns : list (Z * Z)) (w : World) : option World :=
  match ns with
  | [] => Some w
  | n :: ns => _ ← locate w n.1 n.2; adopt_all lord parent ns (adopt lord parent n w)
  end.

(** The section of [forget] that changes; [spaces] is what came of the
    preparation of the source's records. *)
Definition forget_commit (room : bool) (u : Hunt) (spaces : result PieFail unit) : L Pie :=
  w ← get;
  if negb (unchanged w u) then fail Busy else
  '(t, k) ← expect (u_nodes u !! 0%nat);
  pie ← lift (ok_or (locate w t k) Denied);
  if contains (permission w pie) ONLY then fail Denied else
  parent ← lift (ok_or (p_sire pie) Denied);
  lord ← lift (ok_or (p_lord pie) Denied);
  if negb (upgrade w lord) then fail Denied else
  replacement ← lift (ok_or (locate w lord parent) Denied);
  if negb (live w lord) || negb (p_mail replacement =? p_mail pie) then fail Denied else
  (if m_alive (mails w (p_mail pie)) then
     if negb (pie_alive w replacement) then fail Denied
     else if forallb (fun n => match locate w n.1 n.2 with
                               | Some child => contains (permission w replacement) (permission w child)
                               | None => false
                               end) (drop 1 (u_nodes u))
     then mret tt else fail Denied
   else mret tt) ;;
  if negb room then fail OoM else
  lift (if is_pole w pie && bool_decide (is_Some (m_authorization (mails w (p_mail pie)))) then spaces else Ok tt) ;;
  w ← expect (adopt_all lord parent (drop 1 (u_nodes u)) w);
  let '(w', removed) := pend_take t k w in
  put w' ;; expect removed.
