(* ===== verification/PendTables.v ===== *)
(** * The tables of a task: lists of pies and of heirs

    The pies of a task have distinct tokens; its heirs are sorted by the pie
    they come from, so that the entries of one pie lie together and a binary
    search finds them. *)

From S2P Require Import Prelude Pend.
From stdpp Require Import sorting.

Open Scope Z_scope.

#[global] Arguments on_task : simpl never.
#[global] Arguments changed : simpl never.

(** ** Heirs *)

Definition by_source (a b : Z * Z * Z) : Prop := source_of a <= source_of b.
Abbreviation sorted_heirs := (StronglySorted by_source).

Lemma partition_point_split {A} (f : A -> bool) (l : list A) :
  exists x y, l = x ++ y /\ partition_point f l = length x /\ Forall (fun a => f a = true) x /\
              match y with b :: _ => f b = false | [] => True end.
Proof.
  induction l as [|a l IH]; simpl; [by exists [], []|].
  destruct (f a) eqn:Ha; [|by exists [], (a :: l)].
  destruct IH as (x & y & -> & Hp & Hx & Hy). exists (a :: x), y. simpl. rewrite Hp. split_and!; auto.
Qed.

Lemma sorted_heirs_app (l1 l2 : list (Z * Z * Z)) :
  sorted_heirs (l1 ++ l2) <->
  sorted_heirs l1 /\ sorted_heirs l2 /\ forall a b, a ∈ l1 -> b ∈ l2 -> by_source a b.
Proof.
  induction l1 as [|x l1 IH]; simpl.
  - split; [intros H; split_and!; [constructor|done|]; intros a b Ha; by apply not_elem_of_nil in Ha|tauto].
  - split.
    + intros H. inversion H as [|?? Hs Hf]; subst. apply IH in Hs as (A & B & C). rewrite Forall_app in Hf. destruct Hf as [Hf1 Hf2].
      split_and!; [by constructor|done|]. intros a b [->|Ha]%elem_of_cons Hb; [|auto]. rewrite Forall_forall in Hf2. auto.
    + intros (A & B & C). inversion A as [|?? Hs Hf]; subst. constructor.
      * apply IH. split_and!; [done..|]. intros a b Ha Hb. apply C; [by right|done].
      * apply Forall_app. split; [done|]. apply Forall_forall. intros b Hb. apply C; [left|done].
Qed.

(** Under a sorted table the two halves of a binary search are what they say. *)
Lemma sorted_split_lt k hs :
  sorted_heirs hs -> exists x y, hs = x ++ y /\ partition_point (fun e => source_of e <? k) hs = length x /\
    Forall (fun e => source_of e < k) x /\ Forall (fun e => k <= source_of e) y.
Proof.
  intros Hs. destruct (partition_point_split (fun e => source_of e <? k) hs) as (x & y & -> & Hp & Hx & Hy).
  exists x, y. split_and!; [done..| |]; [eapply Forall_impl; [exact Hx|]; simpl; lia|].
  apply sorted_heirs_app in Hs as (_ & Hs & _). destruct y as [|b y]; [constructor|]. inversion Hs as [|?? _ Hf]; subst.
  constructor; [lia|]. eapply Forall_impl; [exact Hf|]. unfold by_source. simpl. lia.
Qed.

Lemma take_while_filter (f : Z * Z * Z -> bool) k l :
  sorted_heirs l -> Forall (fun e => k <= source_of e) l -> (forall e, f e = (source_of e =? k)) ->
  take_while f l = List.filter f l.
Proof.
  intros Hs Hl Hf. induction Hs as [|e l Hs IH He]; simpl; [done|]. inversion Hl; subst.
  destruct (f e) eqn:Hfe; [by rewrite IH|]. symmetry.
  destruct (List.filter f l) as [|b l'] eqn:Hb; [done|]. exfalso.
  assert (List.In b (List.filter f l)) as Hin by (rewrite Hb; by left). apply List.filter_In in Hin as [Hin Hfb].
  rewrite Hf in Hfe, Hfb. apply list_elem_of_In in Hin. rewrite Forall_forall in He.
  specialize (He b Hin). unfold by_source in He. lia.
Qed.

Lemma heirs_at_filter k hs : sorted_heirs hs -> heirs_at k hs = List.filter (fun e => source_of e =? k) hs.
Proof.
  intros Hs. unfold heirs_at. destruct (sorted_split_lt k hs Hs) as (x & y & -> & Hp & Hx & Hy). rewrite Hp, drop_app_length.
  apply sorted_heirs_app in Hs as (_ & Hy' & _). rewrite (take_while_filter _ k y Hy' Hy) by done. rewrite List.filter_app.
  replace (List.filter _ x) with (@nil (Z * Z * Z)); [done|]. symmetry.
  clear Hp. induction Hx as [|e x He _ IH]; simpl; [done|]. rewrite IH. by replace (source_of e =? k) with false by lia.
Qed.

Lemma elem_of_heirs_at k hs e : sorted_heirs hs -> e ∈ heirs_at k hs <-> e ∈ hs /\ source_of e = k.
Proof.
  intros Hs. rewrite heirs_at_filter by done. rewrite !list_elem_of_In, List.filter_In. split; intros [? ?]; (split; [done|lia]).
Qed.

Lemma insert_heir_sorted parent child token hs : sorted_heirs hs -> sorted_heirs (insert_heir parent child token hs).
Proof.
  intros Hs. unfold insert_heir, insert_at.
  destruct (partition_point_split (fun e => source_of e <=? parent) hs) as (x & y & -> & Hp & Hx & Hy).
  rewrite Hp, take_app_length, drop_app_length. apply sorted_heirs_app in Hs as (A & B & C).
  rewrite Forall_forall in Hx. apply sorted_heirs_app. split_and!; [done| |].
  - constructor; [done|]. destruct y as [|b y]; [constructor|]. inversion B as [|?? _ Hf]; subst.
    unfold by_source, source_of in *. simpl in *.
    constructor; [lia|]. eapply Forall_impl; [exact Hf|]. intros e He. simpl in *. lia.
  - intros a b Ha [->|Hb]%elem_of_cons; [|auto]. specialize (Hx a Ha). unfold by_source, source_of in *. simpl in *. lia.
Qed.

Lemma elem_of_insert_heir parent child token hs e : e ∈ insert_heir parent child token hs <-> e = (parent, child, token) \/ e ∈ hs.
Proof. apply elem_of_insert_at. Qed.

Lemma NoDup_insert_heir parent child token hs : (parent, child, token) ∉ hs -> NoDup hs -> NoDup (insert_heir parent child token hs).
Proof. intros Hn Hd. unfold insert_heir. rewrite insert_at_perm. by constructor. Qed.

Lemma remove_at_sublist {A} i (l : list A) : sublist (remove_at i l) l.
Proof.
  unfold remove_at. rewrite <- (take_drop i l) at 3. apply sublist_app; [done|].
  replace (S i) with (i + 1)%nat by lia. rewrite <- drop_drop. destruct (drop i l); simpl; [done|]. rewrite drop_0. by constructor.
Qed.

Lemma sorted_sublist l l' : sublist l l' -> sorted_heirs l' -> sorted_heirs l.
Proof.
  induction 1 as [|x l1 l2 Hs IH|x l1 l2 Hs IH]; intros H; inversion H as [|?? H1 H2]; subst; [constructor| |auto].
  constructor; [auto|]. rewrite Forall_forall in H2 |- *. intros b Hb. apply H2. by eapply elem_of_sublist.
Qed.

Lemma remove_heir_sublist parent token hs : sublist (remove_heir parent token hs) hs.
Proof. unfold remove_heir. case_match; [apply remove_at_sublist|done]. Qed.

(** One entry for a pie and its child: the one that is removed. *)
Lemma elem_of_remove_heir parent token hs e :
  sorted_heirs hs -> NoDup hs ->
  (forall a b, a ∈ hs -> b ∈ hs -> source_of a = source_of b -> a.2 = b.2 -> a = b) ->
  e ∈ remove_heir parent token hs <-> e ∈ hs /\ ~ (source_of e = parent /\ e.2 = token).
Proof.
  intros Hs Hd Hu. unfold remove_heir.
  destruct (sorted_split_lt parent hs Hs) as (x & y & Heq & Hp & Hx & Hy). rewrite Hp.
  destruct (position _ (heirs_at parent hs)) as [i|] eqn:Hi.
  - apply position_Some in Hi as (a & Ha & Hat & _).
    assert (hs !! (length x + i)%nat = Some a) as Hl.
    { unfold heirs_at in Ha. rewrite Hp, Heq, drop_app_length in Ha. rewrite Heq, lookup_app_r by lia.
      replace (length x + i - length x)%nat with i by lia.
      clear -Ha. revert i Ha. induction y as [|b y IH]; intros i Ha; simpl in Ha; [done|].
      destruct (source_of b =? parent); [|done]. destruct i; simpl in *; [done|auto]. }
    assert (source_of a = parent) as Hsa.
    { apply (elem_of_heirs_at parent hs); [done|]. by eapply list_elem_of_lookup_2. }
    pose proof (remove_at_perm _ _ _ Hl) as Hperm.
    assert (a ∉ remove_at (length x + i) hs) as Hna by (rewrite <- Hperm in Hd; by inversion Hd).
    split.
    + intros He. split; [rewrite <- Hperm; by right|]. intros [E1 E2]. assert (e = a) as ->; [|done].
      apply Hu; [rewrite <- Hperm; by right|rewrite <- Hperm; by left|congruence|lia].
    + intros [He Hne]. rewrite <- Hperm in He. apply elem_of_cons in He as [->|He]; [|done]. exfalso. apply Hne. lia.
  - apply position_None in Hi. rewrite Forall_forall in Hi. split; [|tauto]. intros He. split; [done|]. intros [E1 E2].
    specialize (Hi e). rewrite elem_of_heirs_at in Hi by done. specialize (Hi (conj He E1)). lia.
Qed.

(** ** Pies *)

Abbreviation find_pie k := (List.find (has_token k)).
Abbreviation tokens ps := (map p_token ps).

Lemma find_pie_Some k ps p : find_pie k ps = Some p -> p ∈ ps /\ p_token p = k.
Proof. intros [Hin Hk]%List.find_some. apply list_elem_of_In in Hin. unfold has_token in Hk. split; [done|lia]. Qed.

Lemma find_pie_None k ps : find_pie k ps = None <-> k ∉ tokens ps.
Proof.
  rewrite list_elem_of_fmap. split.
  - intros Hf (p & -> & Hp). apply list_elem_of_In in Hp. eapply List.find_none in Hf; [|exact Hp]. unfold has_token in Hf. lia.
  - intros Hn. destruct (find_pie k ps) as [p|] eqn:Hf; [|done]. apply find_pie_Some in Hf as [Hp Hk]. destruct Hn. eauto.
Qed.

Lemma find_update k k' f ps :
  (forall p, p_token (f p) = p_token p) ->
  find_pie k' (update_first k f ps) = if k' =? k then f <$> find_pie k ps else find_pie k' ps.
Proof.
  intros Hf. induction ps as [|p ps IH]; simpl; [by case_match|]. unfold has_token in *.
  destruct (p_token p =? k) eqn:Hk; simpl; rewrite ?Hf.
  - destruct (k' =? k) eqn:Hk'.
    + by replace (p_token p =? k') with true by lia.
    + by replace (p_token p =? k') with false by lia.
  - rewrite IH. destruct (k' =? k) eqn:Hk'; [|done]. by replace (p_token p =? k') with false by lia.
Qed.

Lemma tokens_update k f ps : (forall p, p_token (f p) = p_token p) -> tokens (update_first k f ps) = tokens ps.
Proof. intros Hf. induction ps as [|p ps IH]; simpl; [done|]. case_match; simpl; rewrite ?Hf, ?IH; done. Qed.

Lemma tokens_remove k ps : NoDup (tokens ps) -> NoDup (tokens (remove_first k ps)).
Proof.
  intros H. eapply sublist_NoDup; [exact H|]. clear H.
  induction ps as [|p ps IH]; simpl; [done|]. case_match; simpl; by constructor.
Qed.

Lemma find_remove k k' ps :
  NoDup (tokens ps) -> find_pie k' (remove_first k ps) = if k' =? k then None else find_pie k' ps.
Proof.
  induction ps as [|p ps IH]; simpl; intros Hd; [by case_match|]. inversion Hd as [|?? Hn Hd']; subst. unfold has_token in *.
  destruct (p_token p =? k) eqn:Hk; simpl.
  - destruct (k' =? k) eqn:Hk'; [|by replace (p_token p =? k') with false by lia].
    apply find_pie_None. by replace k' with (p_token p) by lia.
  - destruct (p_token p =? k') eqn:Hp; [|by apply IH]. by replace (k' =? k) with false by lia.
Qed.

Lemma find_snoc k ps p :
  find_pie k (ps ++ [p]) = match find_pie k ps with Some q => Some q | None => if p_token p =? k then Some p else None end.
Proof. induction ps as [|q ps IH]; simpl; [done|]. by destruct (has_token k q). Qed.

(** ** Worlds *)

Section views.
Implicit Types (w : World) (r : Pend).

Definition tidy_pend r : Prop := NoDup (tokens (t_pies r)) /\ sorted_heirs (t_heirs r) /\ NoDup (t_heirs r).
Definition tidy w : Prop := map_Forall (fun _ => tidy_pend) (tasks w).

Lemma tidy_heirs w t : tidy w -> sorted_heirs (heirs_of w t) /\ NoDup (heirs_of w t).
Proof.
  intros H. unfold heirs_of. destruct (tasks w !! t) as [r|] eqn:Ht; [|split; constructor]. by apply (H t r).
Qed.

Lemma tidy_on_task t f w : tidy w -> (forall r, tasks w !! t = Some r -> tidy_pend r -> tidy_pend (f r)) -> tidy (on_task t f w).
Proof.
  intros H Hf t' r'. unfold on_task. simpl. destruct (decide (t = t')) as [<-|Hne].
  - rewrite lookup_alter_eq. destruct (tasks w !! t) as [r|] eqn:Ht; [|done]. simpl. intros [= <-]. apply Hf; [done|]. by apply (H t).
  - rewrite lookup_alter_ne by done. apply H.
Qed.

Lemma tasks_on_task t f w t' : tasks (on_task t f w) !! t' = if decide (t = t') then f <$> tasks w !! t' else tasks w !! t'.
Proof. unfold on_task. simpl. case_decide as Hd; [subst; apply lookup_alter_eq|by apply lookup_alter_ne]. Qed.

Lemma upgrade_on_task t f w t' : upgrade (on_task t f w) t' = upgrade w t'.
Proof.
  unfold upgrade. apply bool_decide_ext. rewrite tasks_on_task. case_decide; [|done]. by rewrite fmap_is_Some.
Qed.

Lemma pies_on_task t f w t' :
  pies_of (on_task t f w) t' =
  if decide (t = t') then match tasks w !! t with Some r => t_pies (f r) | None => [] end else pies_of w t'.
Proof. unfold pies_of. rewrite tasks_on_task. case_decide as Hd; [subst; by destruct (tasks w !! t')|done]. Qed.

Lemma heirs_on_task t f w t' :
  heirs_of (on_task t f w) t' =
  if decide (t = t') then match tasks w !! t with Some r => t_heirs (f r) | None => [] end else heirs_of w t'.
Proof. unfold heirs_of. rewrite tasks_on_task. case_decide as Hd; [subst; by destruct (tasks w !! t')|done]. Qed.

(** A change that leaves the pies, or the heirs, of a task alone. *)
Lemma pies_on_task_same t f w t' : (forall r, t_pies (f r) = t_pies r) -> pies_of (on_task t f w) t' = pies_of w t'.
Proof. intros Hf. rewrite pies_on_task. unfold pies_of. case_decide; [subst|done]. by destruct (tasks w !! t'); rewrite ?Hf. Qed.

Lemma heirs_on_task_same t f w t' : (forall r, t_heirs (f r) = t_heirs r) -> heirs_of (on_task t f w) t' = heirs_of w t'.
Proof. intros Hf. rewrite heirs_on_task. unfold heirs_of. case_decide; [subst|done]. by destruct (tasks w !! t'); rewrite ?Hf. Qed.

Lemma locate_on_task_same t f w t' k : (forall r, t_pies (f r) = t_pies r) -> locate (on_task t f w) t' k = locate w t' k.
Proof. intros Hf. unfold locate. by rewrite pies_on_task_same. Qed.

Lemma locate_update t k f w t' k' :
  (forall p, p_token (f p) = p_token p) ->
  locate (on_task t (update_pie k f) w) t' k' =
  if decide (t = t' /\ k = k') then f <$> locate w t' k' else locate w t' k'.
Proof.
  intros Hf. unfold locate. rewrite pies_on_task. unfold pies_of. destruct (decide (t = t')) as [->|Hne].
  - destruct (tasks w !! t') as [r|]; simpl; [rewrite find_update by done|by case_decide].
    destruct (decide (t' = t' /\ k = k')) as [[_ ->]|Hn]; [by rewrite Z.eqb_refl|].
    by replace (k' =? k) with false by (apply eq_sym, Z.eqb_neq; intros ->; tauto).
  - rewrite decide_False by tauto. done.
Qed.

Lemma locate_remove t k w t' k' :
  tidy w ->
  locate (on_task t (fun r => set_pies (remove_first k (t_pies r)) r) w) t' k' =
  if decide (t = t' /\ k = k') then None else locate w t' k'.
Proof.
  intros Hw. unfold locate. rewrite pies_on_task. unfold pies_of. destruct (decide (t = t')) as [->|Hne].
  - destruct (tasks w !! t') as [r|] eqn:Ht; simpl; [|by case_decide].
    rewrite find_remove by (by apply (Hw t' r)).
    destruct (decide (t' = t' /\ k = k')) as [[_ ->]|Hn]; [by rewrite Z.eqb_refl|].
    by replace (k' =? k) with false by (apply eq_sym, Z.eqb_neq; intros ->; tauto).
  - rewrite decide_False by tauto. done.
Qed.

Lemma locate_push t p w t' k' :
  is_Some (tasks w !! t) -> locate w t (p_token p) = None ->
  locate (on_task t (fun r => set_pies (t_pies r ++ [p]) r) w) t' k' =
  if decide (t = t' /\ p_token p = k') then Some p else locate w t' k'.
Proof.
  intros [r Ht] Hn. unfold locate in *. rewrite pies_on_task. unfold pies_of in *. rewrite Ht in *.
  destruct (decide (t = t')) as [<-|Hne].
  - rewrite Ht. simpl. rewrite find_snoc. destruct (decide (t = t /\ p_token p = k')) as [[_ <-]|Hk].
    + rewrite Hn. by rewrite Z.eqb_refl.
    + replace (p_token p =? k') with false by (apply eq_sym, Z.eqb_neq; intros Heq; apply Hk; done). by destruct (find_pie k' _).
  - rewrite decide_False by tauto. done.
Qed.

Lemma locate_token w t k p : locate w t k = Some p -> p_token p = k.
Proof. apply find_pie_Some. Qed.

(** The pies of a task are found by their tokens. *)
Lemma locate_elem w t p : tidy w -> p ∈ pies_of w t -> locate w t (p_token p) = Some p.
Proof.
  intros Hw. unfold locate, pies_of. destruct (tasks w !! t) as [r|] eqn:Hr; [|by intros ?%not_elem_of_nil].
  destruct (Hw t r Hr) as (Hnd & _). unfold tokens in Hnd. revert Hnd. generalize (t_pies r). intros ps.
  induction ps as [|q ps IH]; simpl; [by intros _ ?%not_elem_of_nil|]. intros [Hn Hnd]%NoDup_cons [->|Hin]%elem_of_cons.
  - unfold has_token. by rewrite Z.eqb_refl.
  - unfold has_token. destruct (p_token q =? p_token p) eqn:E; [|by apply IH].
    apply Z.eqb_eq in E. exfalso. apply Hn. rewrite E. apply list_elem_of_fmap. eauto.
Qed.

Lemma locate_task w t k p : locate w t k = Some p -> is_Some (tasks w !! t).
Proof. unfold locate, pies_of. destruct (tasks w !! t); [eauto|done]. Qed.

Lemma locate_set_grants gs w t k : locate (set_grants gs w) t k = locate w t k.
Proof. done. Qed.

Lemma upgrade_true w t : upgrade w t = true <-> is_Some (tasks w !! t).
Proof. apply bool_decide_eq_true. Qed.
End views.


