(* ===== verification/PendInv.v ===== *)
(** * The forest of pies, and taking a part of it away *)

From S2P Require Import Prelude Pend PendTables.
From stdpp Require Import sorting.

Open Scope Z_scope.

(** ** The invariant *)

Definition only (w : World) (k : Z) : bool := match grants w !! k with Some g => contains (g_bits g) ONLY | None => false end.

(** The part of a source of [pages] pages that a window stands for. *)
Definition extent (pages : Z) (window : option (Z * Z)) : Z * Z := default (0, pages) window.

Definition within (pages : Z) (outer inner : option (Z * Z)) : Prop :=
  let '(o, c) := extent pages outer in
  let '(o', c') := extent pages inner in
  o <= o' /\ o' + c' <= o + c.

(** What the grant of a pie owes to the pie it came from. *)
Definition descends (w : World) (p : Pie) (g : Grant) : Prop :=
  g_bits g <> 0 /\ contains (g_cap g) (g_bits g) = true /\ form_ok (g_cap g) (g_bits g) = true /\
  match p_sire p with
  | None => g_root g = p_token p
  | Some s => exists gs, grants w !! s = Some gs /\ g_root gs = g_root g /\ g_cap gs = g_cap g /\
                within (m_pages (mails w (p_mail p))) (g_window gs) (g_window g)
  end.

Record forest (w : World) : Prop := mkForest {
  f_tidy : tidy w;
  f_next : 1 <= next w;
  f_fresh : forall k, next w <= k -> grants w !! k = None;
  f_token : forall t k p, locate w t k = Some p -> 1 <= k < next w;
  f_unique : forall t t' k p p', locate w t k = Some p -> locate w t' k = Some p' -> t = t';
  f_sire : forall t k p, locate w t k = Some p ->
    match p_sire p with
    | None => p_lord p = None
    | Some s => exists l q, p_lord p = Some l /\ locate w l s = Some q /\ p_mail q = p_mail p /\ s < k /\
                  (s, t, k) ∈ heirs_of w l
    end;
  f_heirs : forall l s c k, (s, c, k) ∈ heirs_of w l ->
    exists p, locate w c k = Some p /\ p_sire p = Some s /\ p_lord p = Some l;
  f_heir : forall t k p h, locate w t k = Some p -> p_heir p = Some h ->
    only w k = true /\ exists q, locate w (h_task h) (h_token h) = Some q /\ p_sire q = Some k /\ p_lord q = Some t;
  f_only : forall t k p c k' q, locate w t k = Some p -> only w k = true ->
    locate w c k' = Some q -> p_sire q = Some k -> p_heir p = Some (mkHeir c k');
  f_grant : forall t k p, locate w t k = Some p -> exists g, grants w !! k = Some g /\ descends w p g
}.

Lemma within_refl pages x : within pages x x.
Proof. unfold within. destruct (extent pages x). lia. Qed.

Lemma within_trans pages x y z : within pages x y -> within pages y z -> within pages x z.
Proof. unfold within. destruct (extent pages x), (extent pages y), (extent pages z). lia. Qed.

(** The parent of a pie is where its child says. *)
Lemma forest_parent w t k p s :
  forest w -> locate w t k = Some p -> p_sire p = Some s ->
  exists l q, p_lord p = Some l /\ locate w l s = Some q /\ p_mail q = p_mail p /\ s < k /\ (s, t, k) ∈ heirs_of w l.
Proof. intros Hw Hp Hs. pose proof (f_sire w Hw t k p Hp) as H. by rewrite Hs in H. Qed.

(** The entries for one child are one. *)
Lemma forest_entry w l a b :
  forest w -> a ∈ heirs_of w l -> b ∈ heirs_of w l -> a.2 = b.2 -> a = b.
Proof.
  intros Hw Ha Hb Hab. destruct a as [[s c] k], b as [[s' c'] k']. simpl in Hab. subst k'.
  destruct (f_heirs w Hw _ _ _ _ Ha) as (p & Hp & Hs & _). destruct (f_heirs w Hw _ _ _ _ Hb) as (p' & Hp' & Hs' & _).
  assert (c = c') as <- by (eapply f_unique; eauto). congruence.
Qed.

(** ** Taking pies away *)

(** [w'] is [w] without the pies of [ns], where nobody knows them any more. *)
Definition forgets (ns : list (Z * Z)) (p : Pie) : Pie :=
  match p_heir p with
  | Some h => if bool_decide ((h_task h, h_token h) ∈ ns) then set_heir None p else p
  | None => p
  end.

Record pruned (w : World) (ns : list (Z * Z)) (w' : World) : Prop := mkPruned {
  pr_locate : forall t k, locate w' t k = if bool_decide ((t, k) ∈ ns) then None else forgets ns <$> locate w t k;
  pr_heirs : forall l s c k, (s, c, k) ∈ heirs_of w' l <-> (s, c, k) ∈ heirs_of w l /\ ((c, k) ∉ ns) /\ ((l, s) ∉ ns);
  pr_tidy : tidy w';
  pr_grants : forall k, grants w' !! k =
    if bool_decide (k ∈ map snd ns) then grant_invalidate <$> grants w !! k else grants w !! k;
  pr_rest : dead w' = dead w /\ mails w' = mails w /\ next w' = next w;
  pr_tasks : forall t, is_Some (tasks w' !! t) <-> is_Some (tasks w !! t)
}.

Lemma forgets_nil p : forgets [] p = p.
Proof. unfold forgets. destruct (p_heir p) as [h|]; [|done]. by rewrite bool_decide_eq_false_2 by apply not_elem_of_nil. Qed.

Lemma pruned_nil w : tidy w -> pruned w [] w.
Proof.
  intros Hw. split; try done.
  - intros t k. rewrite bool_decide_eq_false_2 by apply not_elem_of_nil. destruct (locate w t k) as [p|]; [|done]. simpl. by rewrite forgets_nil.
  - intros l s c k. split; [|tauto]. intros H. split_and!; [done|apply not_elem_of_nil..].
Qed.

(** [pruned] only looks at which pies are in the list. *)
Lemma pruned_ext w ns ns' w' : (forall n, n ∈ ns <-> n ∈ ns') -> pruned w ns w' -> pruned w ns' w'.
Proof.
  intros He [A B C D F G].
  assert (forall n, bool_decide (n ∈ ns') = bool_decide (n ∈ ns)) as Hb by (intros n; apply bool_decide_ext; by rewrite He).
  assert (forall p, forgets ns' p = forgets ns p) as Hf by (intros p; unfold forgets; destruct (p_heir p); by rewrite ?Hb).
  split; try done.
  - intros t k. rewrite Hb, A. case_match; [done|]. destruct (locate w t k); simpl; by rewrite ?Hf.
  - intros l s c k. rewrite B, !He. done.
  - intros k. rewrite D. assert (bool_decide (k ∈ map snd ns) = bool_decide (k ∈ map snd ns')) as ->; [|done].
    apply bool_decide_ext. rewrite !list_elem_of_fmap. split; intros (n & Hk & Hn); exists n; (split; [done|by apply He]).
Qed.

Lemma forgets_sire ns p : p_sire (forgets ns p) = p_sire p /\ p_lord (forgets ns p) = p_lord p /\ p_token (forgets ns p) = p_token p /\ p_mail (forgets ns p) = p_mail p.
Proof. unfold forgets. destruct (p_heir p) as [h|]; [|done]. by case_match. Qed.

(** *** One pie *)

Definition clears (h : Heir) (p : Pie) : Pie := if bool_decide (p_heir p = Some h) then set_heir None p else p.

Lemma locate_changed t w t' k : locate (changed t w) t' k = locate w t' k.
Proof. by apply locate_on_task_same. Qed.

Lemma heirs_changed t w t' : heirs_of (changed t w) t' = heirs_of w t'.
Proof. by apply heirs_on_task_same. Qed.

Lemma tidy_changed t w : tidy w -> tidy (changed t w).
Proof. intros H. by apply tidy_on_task. Qed.

Lemma tasks_some_on_task t f w t' : is_Some (tasks (on_task t f w) !! t') <-> is_Some (tasks w !! t').
Proof. rewrite tasks_on_task. case_decide; [|done]. by rewrite fmap_is_Some. Qed.

Lemma tidy_update t k f w : (forall p, p_token (f p) = p_token p) -> tidy w -> tidy (on_task t (update_pie k f) w).
Proof.
  intros Hf Hw. apply tidy_on_task; [done|]. intros r _ (A & B & C). split_and!; simpl; [|done..]. by rewrite tokens_update.
Qed.

Lemma clear_heir_spec l s h w :
  tidy w ->
  let w' := (clear_heir_locked l s h w).1 in
  (forall t' k', locate w' t' k' = if decide (l = t' /\ s = k') then clears h <$> locate w t' k' else locate w t' k') /\
  (forall t', heirs_of w' t' = heirs_of w t') /\ tidy w' /\ grants w' = grants w /\
  (dead w' = dead w /\ mails w' = mails w /\ next w' = next w) /\ forall t', is_Some (tasks w' !! t') <-> is_Some (tasks w !! t').
Proof.
  intros Hw. unfold clear_heir_locked. destruct (locate w l s) as [q|] eqn:Hq; cbn [fst].
  - case_bool_decide as Hh; cbn [fst].
    + split_and!; try done.
      * intros t' k'. rewrite locate_changed, locate_update by done. case_decide as Hd; [|done]. destruct Hd as [<- <-].
        rewrite Hq. simpl. unfold clears. by rewrite bool_decide_eq_true_2.
      * intros t'. rewrite heirs_changed. by apply heirs_on_task_same.
      * by apply tidy_changed, tidy_update.
      * intros t'. unfold changed. by rewrite !tasks_some_on_task.
    + split_and!; try done. intros t' k'. case_decide as Hd; [|done]. destruct Hd as [<- <-].
      rewrite Hq. simpl. unfold clears. by rewrite bool_decide_eq_false_2.
  - split_and!; try done. intros t' k'. case_decide as Hd; [|done]. destruct Hd as [<- <-]. by rewrite Hq.
Qed.

Lemma tidy_set_heirs t g w :
  tidy w -> (forall hs, sorted_heirs hs -> NoDup hs -> sorted_heirs (g hs) /\ NoDup (g hs)) ->
  tidy (on_task t (fun r => set_heirs (g (t_heirs r)) r) w).
Proof. intros Hw Hg. apply tidy_on_task; [done|]. intros r _ (A & B & C). destruct (Hg _ B C). done. Qed.

Lemma elem_of_set_heirs t g w l e :
  (e ∈ heirs_of (on_task t (fun r => set_heirs (g (t_heirs r)) r) w) l) <->
  if decide (t = l) then is_Some (tasks w !! l) /\ e ∈ g (heirs_of w l) else e ∈ heirs_of w l.
Proof.
  rewrite heirs_on_task. unfold heirs_of. case_decide as Hd; [subst|done]. destruct (tasks w !! l); simpl; [naive_solver|].
  rewrite elem_of_nil. split; [done|]. intros [[? ?] _]. done.
Qed.

Lemma retain_table k hs :
  sorted_heirs hs -> NoDup hs ->
  sorted_heirs (retain (fun e => negb (source_of e =? k)) hs) /\ NoDup (retain (fun e => negb (source_of e =? k)) hs).
Proof.
  intros Hs Hn. assert (sublist (retain (fun e => negb (source_of e =? k)) hs) hs) as Hsub.
  { clear. induction hs as [|e hs IH]; simpl; [done|]. case_match; by constructor. }
  split; [by eapply sorted_sublist|by eapply sublist_NoDup].
Qed.

Lemma remove_table parent token hs :
  sorted_heirs hs -> NoDup hs -> sorted_heirs (remove_heir parent token hs) /\ NoDup (remove_heir parent token hs).
Proof.
  intros Hs Hn. pose proof (remove_heir_sublist parent token hs).
  split; [by eapply sorted_sublist|by eapply sublist_NoDup].
Qed.

(** The giver of a pie forgets it. *)
Definition released (t k : Z) (p : Pie) (w : World) : World :=
  match p_sire p, p_lord p with
  | Some parent, Some lord =>
      if upgrade w lord then
        let w := on_task lord (fun r => set_heirs (remove_heir parent k (t_heirs r)) r) w in
        let w := (clear_heir_locked lord parent (mkHeir t k) w).1 in
        changed lord w
      else w
  | _, _ => w
  end.

Definition gives (l s : Z) (p : Pie) : Prop := p_lord p = Some l /\ p_sire p = Some s.

#[global] Instance gives_dec l s p : Decision (gives l s p).
Proof. unfold gives. apply _. Defined.

Lemma released_spec t k p w :
  tidy w -> (forall l a b, a ∈ heirs_of w l -> b ∈ heirs_of w l -> source_of a = source_of b -> a.2 = b.2 -> a = b) ->
  let w' := released t k p w in
  (forall t' k', locate w' t' k' = if decide (gives t' k' p) then clears (mkHeir t k) <$> locate w t' k' else locate w t' k') /\
  (forall l e, e ∈ heirs_of w' l <-> e ∈ heirs_of w l /\ ~ (gives l (source_of e) p /\ e.2 = k)) /\ tidy w' /\ grants w' = grants w /\
  (dead w' = dead w /\ mails w' = mails w /\ next w' = next w) /\ forall t', is_Some (tasks w' !! t') <-> is_Some (tasks w !! t').
Proof.
  intros Hw Hu. unfold released.
  assert (forall l s, ~ upgrade w l = true -> locate w l s = None /\ heirs_of w l = []) as Hgone.
  { intros l s Hl. rewrite upgrade_true in Hl. unfold locate, pies_of, heirs_of. destruct (tasks w !! l); [|done]. destruct Hl. eauto. }
  assert ((p_sire p = None \/ p_lord p = None \/ exists l, p_lord p = Some l /\ ~ upgrade w l = true) ->
    (forall t' k', locate w t' k' = if decide (gives t' k' p) then clears (mkHeir t k) <$> locate w t' k' else locate w t' k') /\
    (forall l e, e ∈ heirs_of w l <-> e ∈ heirs_of w l /\ ~ (gives l (source_of e) p /\ e.2 = k))) as Hnone.
  { intros Hcase. split.
    - intros t' k'. case_decide as Hd; [|done]. destruct Hd as [Hl Hs]. destruct Hcase as [|[|(l & Hl' & Hup)]]; [congruence..|].
      assert (l = t') as -> by congruence. by rewrite (proj1 (Hgone t' k' Hup)).
    - intros l e. split; [|tauto]. intros He. split; [done|]. intros [[Hl Hs] _]. destruct Hcase as [|[|(l' & Hl' & Hup)]]; [congruence..|].
      assert (l' = l) as -> by congruence. rewrite (proj2 (Hgone l 0 Hup)) in He. by apply not_elem_of_nil in He. }
  destruct (p_sire p) as [s|] eqn:Hs; [|destruct Hnone as [A B]; [auto|split_and!; done]].
  destruct (p_lord p) as [l|] eqn:Hl; [|destruct Hnone as [A B]; [auto|split_and!; done]].
  destruct (upgrade w l) eqn:Hup; [|destruct Hnone as [A B]; [right; right; exists l; by rewrite Hup|split_and!; done]]. clear Hnone Hgone.
  set (w1 := on_task l _ w).
  assert (tidy w1) as Hw1 by (apply tidy_set_heirs; [done|apply remove_table]).
  destruct (clear_heir_spec l s (mkHeir t k) w1 Hw1) as (A & B & C & D & F & G). set (w2 := (clear_heir_locked l s (mkHeir t k) w1).1) in *.
  split_and!; try (apply F); [| |by apply tidy_changed|done|].
  - intros t' k'. rewrite locate_changed, A. subst w1. rewrite locate_on_task_same by done.
    unfold gives. destruct (decide (l = t' /\ s = k')) as [[-> ->]|Hn], (decide _) as [Hg|Hg]; try done.
    + destruct Hg. split; congruence.
    + destruct Hn. destruct Hg. split; congruence.
  - intros l' e. rewrite heirs_changed, B. subst w1. rewrite elem_of_set_heirs. unfold gives. rewrite Hs, Hl.
    destruct (tidy_heirs w l Hw) as [Hsort Hnd]. case_decide as Hd.
    + subst l'. rewrite elem_of_remove_heir; [|done|done|by apply Hu]. apply upgrade_true in Hup.
      split; [intros (_ & He & Hne); split; [done|]; intros [[_ [= Hs']] Hk]; by apply Hne|].
      intros (He & Hne). split_and!; [done..|]. intros [Hs' Hk]. apply Hne. split; [split; [done|congruence]|done].
    + split; [|tauto]. intros He. split; [done|]. intros [[[= <-] _] _]. done.
  - intros t'. unfold changed. rewrite tasks_some_on_task, G. subst w1. by rewrite tasks_some_on_task.
Qed.

(** [take] as it shows in the tables. *)
Lemma take_views t k p w :
  tidy w -> (forall l a b, a ∈ heirs_of w l -> b ∈ heirs_of w l -> source_of a = source_of b -> a.2 = b.2 -> a = b) ->
  let w' := take_pie t k p w in
  (forall t' k', locate w' t' k' = let x := if decide (t = t' /\ k = k') then None else locate w t' k' in
                                   if decide (gives t' k' p) then clears (mkHeir t k) <$> x else x) /\
  (forall l e, e ∈ heirs_of w' l <-> e ∈ heirs_of w l /\ ~ (gives l (source_of e) p /\ e.2 = k) /\ ~ (l = t /\ source_of e = k)) /\
  tidy w' /\ grants w' = alter grant_invalidate k (grants w) /\ (dead w' = dead w /\ mails w' = mails w /\ next w' = next w) /\
  forall t', is_Some (tasks w' !! t') <-> is_Some (tasks w !! t').
Proof.
  intros Hw Hu. unfold take_pie. set (w1 := on_task t (fun r => set_pies _ r) w). set (w2 := on_grant k grant_invalidate w1).
  change (match p_sire p, p_lord p with Some parent, Some lord => _ | _, _ => w2 end) with (released t k p w2).
  assert (tidy w2) as H2.
  { apply (tidy_on_task t _ w Hw). intros r _ (A & B & C). split_and!; [|done..]. simpl. by apply tokens_remove. }
  assert (forall l, heirs_of w2 l = heirs_of w l) as Hh2 by (intros; by apply heirs_on_task_same).
  destruct (released_spec t k p w2 H2) as (A & B & C & D & F & G); [intros l a b; rewrite !Hh2; apply Hu|].
  set (w3 := released t k p w2) in *. split_and!.
  - intros t' k'. rewrite locate_changed, locate_on_task_same, A by done. cbn zeta. change (locate w2 t' k') with (locate w1 t' k').
    subst w1. by rewrite locate_remove.
  - intros l e. rewrite heirs_changed, (elem_of_set_heirs t (retain (fun e => negb (source_of e =? k)))).
    assert (e ∈ heirs_of w l -> is_Some (tasks w3 !! l)) as Hsome.
    { intros He. apply G. change (tasks w2) with (tasks w1). subst w1. rewrite tasks_some_on_task.
      unfold heirs_of in He. destruct (tasks w !! l); [eauto|by apply not_elem_of_nil in He]. }
    case_decide as Hd; rewrite ?elem_of_retain, B, Hh2; [rewrite negb_true_iff, Z.eqb_neq|]; naive_solver.
  - apply tidy_changed, (tidy_set_heirs t (retain (fun e => negb (source_of e =? k)))); [done|apply retain_table].
  - change (grants w3 = alter grant_invalidate k (grants w)). by rewrite D.
  - apply F.
  - apply F.
  - apply F.
  - intros t'. unfold changed. rewrite !tasks_some_on_task, G. change (tasks w2) with (tasks w1). subst w1. by rewrite tasks_some_on_task.
Qed.

(** What is left of a pie when its heir and the heirs [ns] are gone. *)
Lemma take_locate w ns t k p q t' k' :
  forest w -> locate w t k = Some p -> (t, k) ∉ ns -> p_sire q = p_sire p -> p_lord q = p_lord p ->
  (let x := if decide (t = t' /\ k = k') then None
            else if bool_decide ((t', k') ∈ ns) then None else forgets ns <$> locate w t' k' in
   if decide (gives t' k' q) then clears (mkHeir t k) <$> x else x) =
  if bool_decide ((t', k') ∈ (t, k) :: ns) then None else forgets ((t, k) :: ns) <$> locate w t' k'.
Proof.
  intros Hw Hp Hin Hsire Hlord. cbn zeta. destruct (decide (t = t' /\ k = k')) as [[<- <-]|Hne].
  { rewrite (bool_decide_eq_true_2 (_ ∈ _ :: _)) by (by left). by case_decide. }
  assert (bool_decide ((t', k') ∈ (t, k) :: ns) = bool_decide ((t', k') ∈ ns)) as ->.
  { apply bool_decide_ext. rewrite elem_of_cons. split; [|by right]. intros [[= -> ->]|]; [|done]. by destruct Hne. }
  case_bool_decide as Hns; [by case_decide|]. destruct (locate w t' k') as [q0|] eqn:Hq0; simpl; [|by case_decide].
  destruct (p_heir q0) as [[ht hk]|] eqn:Hh.
  - unfold forgets. rewrite Hh. cbn [h_task h_token].
    assert ((ht, hk) = (t, k) -> gives t' k' q) as Hg.
    { intros [= -> ->]. destruct (f_heir w Hw _ _ _ _ Hq0 Hh) as (_ & c & Hc & Hs & Hl). simpl in Hc. unfold gives. split; congruence. }
    assert (bool_decide ((ht, hk) ∈ (t, k) :: ns) = bool_decide ((ht, hk) = (t, k)) || bool_decide ((ht, hk) ∈ ns)) as ->.
    { rewrite <- bool_decide_or. apply bool_decide_ext, elem_of_cons. }
    destruct (bool_decide_reflect ((ht, hk) = (t, k))) as [He|He].
    + rewrite decide_True by auto. injection He as -> ->. rewrite bool_decide_eq_false_2 by done. simpl. unfold clears.
      by rewrite Hh, bool_decide_eq_true_2.
    + simpl. assert (forall x, p_heir x = None \/ x = q0 -> clears (mkHeir t k) x = x) as Hc.
      { intros x Hx. unfold clears. rewrite bool_decide_eq_false_2; [done|].
        destruct Hx as [Hx| ->]; [congruence|]. rewrite Hh. intros [= -> ->]. by apply He. }
      case_decide; [|done]. f_equal. apply Hc. case_bool_decide; [by left|by right].
  - unfold forgets. rewrite Hh. case_decide; [|done]. unfold clears. by rewrite bool_decide_eq_false_2 by congruence.
Qed.

Lemma take_heirs w (ns : list (Z * Z)) t k p l s c j :
  forest w -> locate w t k = Some p ->
  (((s, c, j) ∈ heirs_of w l /\ ((c, j) ∉ ns) /\ ((l, s) ∉ ns)) /\ ~ ((p_lord p = Some l /\ p_sire p = Some s) /\ j = k) /\ ~ (l = t /\ s = k)) <->
  (s, c, j) ∈ heirs_of w l /\ ((c, j) <> (t, k) /\ ((c, j) ∉ ns)) /\ (l, s) <> (t, k) /\ ((l, s) ∉ ns).
Proof.
  intros Hw Hp.
  assert ((s, c, j) ∈ heirs_of w l -> ((p_lord p = Some l /\ p_sire p = Some s) /\ j = k) <-> (c, j) = (t, k)) as Hiff.
  { intros He. destruct (f_heirs w Hw _ _ _ _ He) as (q & Hq & Hs & Hl). split.
    - intros [_ ->]. f_equal. by eapply f_unique.
    - intros [= -> ->]. split; [|done]. assert (q = p) as -> by congruence. done. }
  assert ((l, s) = (t, k) <-> l = t /\ s = k) as Hls by naive_solver.
  rewrite Hls. split.
  - intros ((He & A & B) & C & D). split_and!; [done| |done..]. by rewrite <- Hiff.
  - intros (He & [A B] & C & D). split_and!; [done..| |done]. by rewrite Hiff.
Qed.

(** Taking one more pie away from what is left of a forest. *)
Lemma take_pruned w ns w1 t k p :
  forest w -> pruned w ns w1 -> locate w t k = Some p -> pruned w ((t, k) :: ns) (pend_take t k w1).1.
Proof.
  intros Hw Hpr Hp. unfold pend_take. rewrite (pr_locate _ _ _ Hpr), Hp.
  case_bool_decide as Hin; cbn [fst].
  { eapply pruned_ext; [|exact Hpr]. intros n. rewrite elem_of_cons. split; [by right|]. intros [->|]; done. }
  cbn [fmap option_fmap option_map fst]. set (q := forgets ns p).
  destruct (forgets_sire ns p) as (Hsire & Hlord & _). fold q in Hsire, Hlord.
  destruct (take_views t k q w1 (pr_tidy _ _ _ Hpr)) as (A & B & C & D & F & G).
  { intros l [[s c] j] [[s' c'] j'] Ha%(pr_heirs _ _ _ Hpr) Hb%(pr_heirs _ _ _ Hpr) _ Hab.
    eapply forest_entry; [exact Hw|apply Ha|apply Hb|done]. }
  split.
  - intros t' k'. rewrite A, (pr_locate _ _ _ Hpr t' k'). by eapply take_locate.
  - intros l s c j. rewrite B, !not_elem_of_cons, (pr_heirs _ _ _ Hpr). unfold gives. rewrite Hsire, Hlord. cbn [source_of fst snd].
    by apply (take_heirs w ns t k p).
  - done.
  - intros j. rewrite D. cbn [map snd]. destruct (decide (k = j)) as [<-|Hne].
    + rewrite lookup_alter_eq, (pr_grants _ _ _ Hpr), (bool_decide_eq_true_2 (k ∈ k :: _)) by (by left).
      case_bool_decide; [|done]. by destruct (grants w !! k).
    + rewrite lookup_alter_ne, (pr_grants _ _ _ Hpr) by done.
      assert (bool_decide (j ∈ k :: map snd ns) = bool_decide (j ∈ map snd ns)) as ->; [|done].
      apply bool_decide_ext. rewrite elem_of_cons. naive_solver.
  - destruct F as (-> & -> & ->). apply (pr_rest _ _ _ Hpr).
  - intros t'. rewrite G. apply (pr_tasks _ _ _ Hpr).
Qed.

(** *** A subtree *)

(** Pies that are there, with everything that was given on from them. *)
Definition closed (w : World) (ns : list (Z * Z)) : Prop :=
  (forall t k, (t, k) ∈ ns -> is_Some (locate w t k)) /\
  (forall l s c k, (l, s) ∈ ns -> (s, c, k) ∈ heirs_of w l -> (c, k) ∈ ns).

Lemma take_all_pruned w : forest w -> forall ns acc w1,
  (forall t k, (t, k) ∈ ns -> is_Some (locate w t k)) -> pruned w acc w1 -> pruned w (ns ++ acc) (take_all ns w1).1.
Proof.
  intros Hw. induction ns as [|[t k] ns IH]; intros acc w1 Hns Hpr; [done|]. cbn [take_all].
  destruct (Hns t k) as [p Hp]; [left|]. pose proof (take_pruned w acc w1 t k p Hw Hpr Hp) as Ht.
  destruct (pend_take t k w1) as [w2 o]. cbn [fst] in Ht.
  specialize (IH ((t, k) :: acc) w2). destruct (take_all ns w2) as [w3 ps]. cbn [fst] in *.
  eapply pruned_ext; [|apply IH; [|exact Ht]].
  - intros n. rewrite ?elem_of_app, ?elem_of_cons, ?elem_of_app. tauto.
  - intros t' k' Hin. apply Hns. by right.
Qed.

Lemma pruned_locate w ns w' t k p' :
  pruned w ns w' -> locate w' t k = Some p' -> exists p, locate w t k = Some p /\ ((t, k) ∉ ns) /\ p' = forgets ns p.
Proof.
  intros Hpr H. rewrite (pr_locate _ _ _ Hpr) in H. case_bool_decide; [done|].
  destruct (locate w t k) as [p|]; simplify_eq/=. eauto.
Qed.

Lemma pruned_kept w ns w' t k p : pruned w ns w' -> locate w t k = Some p -> (t, k) ∉ ns -> locate w' t k = Some (forgets ns p).
Proof. intros Hpr Hp Hn. rewrite (pr_locate _ _ _ Hpr), Hp, bool_decide_eq_false_2 by done. done. Qed.

Lemma pruned_grant w ns w' t k p :
  forest w -> (forall t k, (t, k) ∈ ns -> is_Some (locate w t k)) -> pruned w ns w' ->
  locate w t k = Some p -> (t, k) ∉ ns -> grants w' !! k = grants w !! k.
Proof.
  intros Hw Hns Hpr Hp Hn. rewrite (pr_grants _ _ _ Hpr), bool_decide_eq_false_2; [done|].
  rewrite list_elem_of_fmap. intros ([t' k'] & Hk & Hin). simpl in Hk. subst k'. destruct (Hns _ _ Hin) as [p' Hp'].
  assert (t = t') as -> by (eapply f_unique; eauto). done.
Qed.

(** What is left when a whole subtree goes is a forest again. *)
Lemma pruned_forest w ns w' : forest w -> closed w ns -> pruned w ns w' -> forest w'.
Proof.
  intros Hw [Hns Hcl] Hpr. destruct (pr_rest _ _ _ Hpr) as (Hdead & Hmails & Hnext).
  assert (forall t k p, locate w t k = Some p -> (t, k) ∉ ns -> only w' k = only w k) as Honly.
  { intros t k p Hp Hn. unfold only. by erewrite pruned_grant by eauto. }
  assert (forall t k p s l, locate w t k = Some p -> (t, k) ∉ ns -> p_sire p = Some s -> p_lord p = Some l -> (l, s) ∉ ns) as Hup.
  { intros t k p s l Hp Hn Hs Hl Hin. destruct (forest_parent w t k p s Hw Hp Hs) as (l' & q & Hl' & _ & _ & _ & He).
    assert (l' = l) as -> by congruence. by apply Hn, (Hcl l s). }
  split.
  - apply (pr_tidy _ _ _ Hpr).
  - rewrite Hnext. apply Hw.
  - rewrite Hnext. intros k Hk. rewrite (pr_grants _ _ _ Hpr), (f_fresh w Hw k Hk). by case_match.
  - intros t k p' Hp. rewrite Hnext. destruct (pruned_locate _ _ _ _ _ _ Hpr Hp) as (p & Hp0 & _). by eapply f_token.
  - intros t t' k p p' (q & Hq & _)%(pruned_locate _ _ _ _ _ _ Hpr) (q' & Hq' & _)%(pruned_locate _ _ _ _ _ _ Hpr). by eapply f_unique.
  - intros t k p' (p & Hp & Hn & ->)%(pruned_locate _ _ _ _ _ _ Hpr). destruct (forgets_sire ns p) as (-> & -> & _ & ->).
    pose proof (f_sire w Hw t k p Hp) as Hs. destruct (p_sire p) as [s|] eqn:Hsp; [|done].
    destruct Hs as (l & q & Hl & Hq & Hm & Hlt & He). pose proof (Hup _ _ _ _ _ Hp Hn Hsp Hl) as Hls.
    exists l, (forgets ns q). split_and!; [done|by eapply pruned_kept| |done|]; [by destruct (forgets_sire ns q) as (_ & _ & _ & ->)|].
    by apply (pr_heirs _ _ _ Hpr).
  - intros l s c k (He & Hc & Hl)%(pr_heirs _ _ _ Hpr). destruct (f_heirs w Hw _ _ _ _ He) as (p & Hp & Hs & Hlord).
    exists (forgets ns p). destruct (forgets_sire ns p) as (-> & -> & _). split_and!; [by eapply pruned_kept|done..].
  - intros t k p' h (p & Hp & Hn & ->)%(pruned_locate _ _ _ _ _ _ Hpr) Hh.
    assert (p_heir p = Some h /\ (h_task h, h_token h) ∉ ns) as [Hh0 Hhn].
    { unfold forgets in Hh. destruct (p_heir p) as [h0|] eqn:E; [|congruence]. case_bool_decide; [done|]. by simplify_eq. }
    destruct (f_heir w Hw _ _ _ _ Hp Hh0) as (Ho & q & Hq & Hs & Hl). split; [by erewrite Honly|].
    exists (forgets ns q). destruct (forgets_sire ns q) as (-> & -> & _). split_and!; [by eapply pruned_kept|done..].
  - intros t k p' c k' q' (p & Hp & Hn & ->)%(pruned_locate _ _ _ _ _ _ Hpr) Ho (q & Hq & Hn' & ->)%(pruned_locate _ _ _ _ _ _ Hpr) Hs.
    destruct (forgets_sire ns q) as (Hs' & _). rewrite Hs' in Hs. rewrite (Honly _ _ _ Hp Hn) in Ho.
    pose proof (f_only w Hw _ _ _ _ _ _ Hp Ho Hq Hs) as Hh. unfold forgets. rewrite Hh. by rewrite bool_decide_eq_false_2.
  - intros t k p' (p & Hp & Hn & ->)%(pruned_locate _ _ _ _ _ _ Hpr). destruct (f_grant w Hw t k p Hp) as (g & Hg & Hd).
    exists g. rewrite (pruned_grant w ns w' t k p) by done. split; [done|].
    unfold descends in *. destruct (forgets_sire ns p) as (-> & _ & -> & ->). rewrite Hmails.
    destruct Hd as (A & B & C & D). split_and!; [done..|]. destruct (p_sire p) as [s|] eqn:Hs; [|done].
    destruct D as (gs & Hgs & D). exists gs. split; [|done]. destruct (forest_parent w t k p s Hw Hp Hs) as (l & q & Hl & Hq & _).
    rewrite (pruned_grant w ns w' l s q); [done|done|done|done|done|exact (Hup t k p s l Hp Hn Hs Hl)].
Qed.

(** ** Versions *)

(** Records that changed have a new version, but those of [D]. *)
Definition dirty (D : list Z) (w w' : World) : Prop := forall t r, tasks w !! t = Some r ->
  exists r', tasks w' !! t = Some r' /\ t_version r <= t_version r' /\ (t ∈ D \/ r' = r \/ t_version r < t_version r').

Abbreviation versioned := (dirty []).

Lemma dirty_refl w : versioned w w.
Proof. intros t r Hr. exists r. split_and!; [done|lia|]. by right; left. Qed.

Lemma dirty_trans w1 w2 w3 : versioned w1 w2 -> versioned w2 w3 -> versioned w1 w3.
Proof.
  intros A B t r Hr. destruct (A t r Hr) as (r2 & Hr2 & L2 & [H2|C2]); [by apply not_elem_of_nil in H2|].
  destruct (B t r2 Hr2) as (r3 & Hr3 & L3 & [H3|C3]); [by apply not_elem_of_nil in H3|].
  exists r3. split_and!; [done|lia|]. right. destruct C2 as [->|]; [done|]. right. destruct C3 as [->|]; lia.
Qed.

Lemma dirty_on_task D t f w w1 :
  (forall r, t_version (f r) = t_version r) -> dirty D w w1 -> dirty (t :: D) w (on_task t f w1).
Proof.
  intros Hf H t' r Hr. destruct (H t' r Hr) as (r1 & Hr1 & L1 & C1). rewrite tasks_on_task, Hr1. case_decide as Hd.
  - exists (f r1). rewrite Hf. split_and!; [done|lia|]. left. subst. left.
  - exists r1. split_and!; [done|lia|]. destruct C1; [|tauto]. left. by right.
Qed.

Lemma dirty_changed D D' t w w1 :
  (forall x, x ∈ D -> x = t \/ x ∈ D') -> dirty D w w1 -> dirty D' w (changed t w1).
Proof.
  intros HD H t' r Hr. destruct (H t' r Hr) as (r1 & Hr1 & L1 & C1). unfold changed. rewrite tasks_on_task, Hr1. case_decide as Hd.
  - exists (bump r1). simpl. split_and!; [done|lia|]. right. right. lia.
  - exists r1. split_and!; [done|lia|]. destruct C1 as [C1|]; [|tauto]. destruct (HD _ C1); [congruence|tauto].
Qed.

Lemma dirty_more D D' w w1 : (forall x, x ∈ D -> x ∈ D') -> dirty D w w1 -> dirty D' w w1.
Proof. intros HD H t r Hr. destruct (H t r Hr) as (r1 & ? & ? & C). exists r1. split_and!; [done..|]. naive_solver. Qed.

Lemma dirty_same_tasks D w w1 w2 : tasks w2 = tasks w1 -> dirty D w w1 -> dirty D w w2.
Proof. intros He H t r Hr. rewrite He. by apply H. Qed.
