(* ===== verification/PendSteps.v ===== *)
(** * Every change keeps the forest

    Each critical section of the ledger keeps the invariant, gives every task
    it changes a new version, and panics only when the tokens are used up. *)

From S2P Require Import Prelude Pend PendTables PendInv.
From stdpp Require Import sorting.

Open Scope Z_scope.

(** Every pie there is, but those of the mail [fresh], has no more than some pie
    for the same mail had before. *)
Definition attenuates (fresh : option Z) (w w' : World) : Prop := forall t k p, locate w' t k = Some p -> fresh <> Some (p_mail p) ->
  exists t0 k0 p0 g0 g, locate w t0 k0 = Some p0 /\ p_mail p0 = p_mail p /\ grants w !! k0 = Some g0 /\ grants w' !! k = Some g /\
    contains (g_bits g0) (g_bits g) = true /\ within (m_pages (mails w (p_mail p))) (g_window g0) (g_window g).

Definition moves (fresh : option Z) (w w' : World) : Prop := versioned w w' /\ attenuates fresh w w' /\ mails w' = mails w.

(** What every operation that returns keeps; only the tokens may run out. *)
Definition good {A} (m : L A) : Prop := forall w, forest w ->
  match m w with Some (_, w') => forest w' /\ moves None w w' | None => usize_MAX <= next w end.

(** ** Bits *)

Lemma contains_trans a b c : contains a b = true -> contains b c = true -> contains a c = true.
Proof. unfold contains. rewrite !Z.eqb_eq. intros Hab Hbc. by rewrite <- Hbc, Z.land_assoc, Hab, Hbc. Qed.

Lemma contains_refl a : contains a a = true.
Proof. unfold contains. by rewrite Z.land_diag, Z.eqb_refl. Qed.

Lemma permission_land a b : contains a b = true -> Z.land a b = b.
Proof. unfold contains. by rewrite Z.eqb_eq. Qed.

Lemma narrows_true a b : narrows a b = true <-> b <> 0 /\ contains a b = true /\ contains a ONLY = contains b ONLY.
Proof. unfold narrows, form_ok. rewrite !andb_true_iff, negb_true_iff, Z.eqb_neq, eqb_true_iff. tauto. Qed.

Lemma form_ok_true a b : form_ok a b = true <-> contains a ONLY = contains b ONLY.
Proof. apply eqb_true_iff. Qed.

(** ** Attenuation *)

Lemma attenuates_kept w w' :
  forest w -> (forall t k p, locate w' t k = Some p -> exists p0, locate w t k = Some p0 /\ p_mail p0 = p_mail p /\ grants w' !! k = grants w !! k) ->
  attenuates None w w'.
Proof.
  intros Hw H t k p Hp _. destruct (H t k p Hp) as (p0 & Hp0 & Hm & Hg). destruct (f_grant w Hw _ _ _ Hp0) as (g & Hg0 & _).
  exists t, k, p0, g, g. split_and!; [done..|congruence|apply contains_refl|apply within_refl].
Qed.

Lemma attenuates_changed fresh t w w' : attenuates fresh w w' -> attenuates fresh w (changed t w').
Proof. intros H t' k p. rewrite locate_changed. apply H. Qed.

Lemma attenuates_trans fresh w1 w2 w3 :
  (forall m, m_pages (mails w2 m) = m_pages (mails w1 m)) -> attenuates fresh w1 w2 -> attenuates fresh w2 w3 -> attenuates fresh w1 w3.
Proof.
  intros Hm A B t k p Hp Hf. destruct (B t k p Hp Hf) as (t2 & k2 & p2 & g2 & g & Hp2 & Hm2 & Hg2 & Hg & C2 & W2).
  destruct (A t2 k2 p2 Hp2 ltac:(congruence)) as (t1 & k1 & p1 & g1 & g2' & Hp1 & Hm1 & Hg1 & Hg2' & C1 & W1).
  assert (g2' = g2) as -> by congruence. exists t1, k1, p1, g1, g. split_and!; [done|congruence|done|done|by eapply contains_trans|].
  rewrite Hm2 in W1. rewrite Hm in W2. by eapply within_trans.
Qed.

Lemma moves_refl w : forest w -> moves None w w.
Proof. intros Hw. split_and!; [apply dirty_refl|apply attenuates_kept; eauto|done]. Qed.

Lemma moves_weaken fresh w w' : moves None w w' -> moves fresh w w'.
Proof. intros (Hv & Ha & Hm). split_and!; [done| |done]. intros t k p Hp _. by apply (Ha t k p). Qed.

Lemma moves_tasks w w' :
  forest w -> tasks w' = tasks w -> mails w' = mails w -> (forall k, k < next w -> grants w' !! k = grants w !! k) -> moves None w w'.
Proof.
  intros Hw Ht Hm Hg. split_and!; [apply (dirty_same_tasks [] w w); [done|apply dirty_refl]| |done]. apply attenuates_kept; [done|].
  intros t k p. unfold locate, pies_of. rewrite Ht. intros Hp. exists p. split_and!; [done..|]. apply Hg.
  destruct (f_token w Hw t k p Hp). lia.
Qed.

(** ** Grants may weaken, and the world around may change *)

(** What may become of the grant of a pie. *)
Definition weakens (g g' : Grant) : Prop :=
  g_bits g' <> 0 /\ contains (g_bits g) (g_bits g') = true /\ contains (g_bits g) ONLY = contains (g_bits g') ONLY /\
  g_window g' = g_window g /\ g_root g' = g_root g /\ g_cap g' = g_cap g.

Lemma weakens_refl g : g_bits g <> 0 -> weakens g g.
Proof. intros H. split_and!; [done|apply contains_refl|done..]. Qed.

Lemma forest_views w w' :
  forest w -> tidy w' -> (forall t k, locate w' t k = locate w t k) -> (forall t, heirs_of w' t = heirs_of w t) ->
  (forall m, m_pages (mails w' m) = m_pages (mails w m)) -> next w <= next w' ->
  (forall k, next w' <= k -> grants w' !! k = None) ->
  (forall t k p g, locate w t k = Some p -> grants w !! k = Some g -> exists g', grants w' !! k = Some g' /\ weakens g g') ->
  forest w'.
Proof.
  intros Hw Ht Hloc Hhs Hm Hn Hf Hg.
  assert (forall t k p, locate w t k = Some p -> only w' k = only w k) as Ho.
  { intros t k p Hp. destruct (f_grant w Hw t k p Hp) as (g & Hgk & _). destruct (Hg t k p g Hp Hgk) as (g' & Hg' & _ & _ & Ho & _).
    unfold only. by rewrite Hgk, Hg'. }
  split.
  - done.
  - pose proof (f_next w Hw). lia.
  - done.
  - intros t k p. rewrite Hloc. intros Hp. pose proof (f_token w Hw t k p Hp). lia.
  - intros t t' k p p'. rewrite !Hloc. apply (f_unique w Hw).
  - intros t k p. rewrite Hloc. intros Hp. pose proof (f_sire w Hw t k p Hp) as H. destruct (p_sire p) as [s|]; [|done].
    destruct H as (l & q & H). exists l, q. by rewrite Hloc, Hhs.
  - intros l s c k. rewrite Hhs. intros He. destruct (f_heirs w Hw _ _ _ _ He) as (p & H). exists p. by rewrite Hloc.
  - intros t k p h. rewrite Hloc. intros Hp Hh. destruct (f_heir w Hw _ _ _ _ Hp Hh) as (A & q & B). rewrite (Ho _ _ _ Hp).
    split; [done|]. exists q. by rewrite Hloc.
  - intros t k p c k' q. rewrite !Hloc. intros Hp. rewrite (Ho _ _ _ Hp). revert Hp. apply (f_only w Hw).
  - intros t k p. rewrite Hloc. intros Hp. destruct (f_grant w Hw t k p Hp) as (g & Hgk & A & B & C & D).
    destruct (Hg t k p g Hp Hgk) as (g' & Hg' & W1 & W2 & W3 & W4 & W5 & W6). exists g'. split; [done|].
    apply form_ok_true in C. split_and!; [done|rewrite W6; by eapply contains_trans|apply form_ok_true; congruence|].
    pose proof (f_sire w Hw t k p Hp) as Hs. destruct (p_sire p) as [s|]; [|congruence].
    destruct Hs as (l & q & _ & Hq & _). destruct D as (gs & Hgs & D1 & D2 & D3).
    destruct (Hg l s q gs Hq Hgs) as (gs' & Hgs' & _ & _ & _ & V4 & V5 & V6). exists gs'. split_and!; [done|congruence..|].
    by rewrite V4, W4, Hm.
Qed.

Lemma forest_regrant w w' :
  forest w -> tasks w' = tasks w -> (forall m, m_pages (mails w' m) = m_pages (mails w m)) -> next w <= next w' ->
  (forall k, next w' <= k -> grants w' !! k = None) ->
  (forall t k p g, locate w t k = Some p -> grants w !! k = Some g -> exists g', grants w' !! k = Some g' /\ weakens g g') ->
  forest w'.
Proof.
  intros Hw Ht. apply forest_views; [done|unfold tidy; rewrite Ht; apply Hw|intros; unfold locate, pies_of; by rewrite Ht|].
  intros; unfold heirs_of; by rewrite Ht.
Qed.

(** The tables may be kept elsewhere, as long as they say the same. *)
Lemma forest_tables w ts :
  forest w -> tidy (set_tasks ts w) -> (forall t k, locate (set_tasks ts w) t k = locate w t k) ->
  (forall t, heirs_of (set_tasks ts w) t = heirs_of w t) -> forest (set_tasks ts w).
Proof.
  intros Hw Ht Hl Hh. apply (forest_views w); try done; simpl; [apply (f_fresh w Hw)|].
  intros t k p g Hp Hg. exists g. split; [done|]. destruct (f_grant w Hw _ _ _ Hp) as (g' & Hg' & Hb & _). apply weakens_refl. congruence.
Qed.

(** The tables do not depend on the versions. *)
Lemma forest_changed t w : forest w -> forest (changed t w).
Proof.
  intros Hw. apply forest_tables; [done|apply tidy_changed, Hw|intros; apply locate_changed|intros; apply heirs_changed].
Qed.

(** ** Minting *)

Lemma locate_fresh w t : forest w -> locate w t (next w) = None.
Proof. intros Hw. destruct (locate w t (next w)) as [p|] eqn:H; [|done]. pose proof (f_token w Hw _ _ _ H). lia. Qed.

(** A world with one more token, and perhaps a grant for it. *)
Definition minted (w : World) (o : option Grant) : World :=
  mkWorld (tasks w) (dead w) (match o with Some g => <[next w := g]> (grants w) | None => grants w end) (mails w) (next w + 1).

Lemma forest_minted w o : forest w -> forest (minted w o).
Proof.
  intros Hw. apply (forest_regrant w); try done; simpl; [lia| |].
  - intros k Hk. pose proof (f_fresh w Hw k ltac:(lia)). destruct o; [|done]. rewrite lookup_insert_ne by lia. done.
  - intros t k p g Hp Hg. exists g. pose proof (f_token w Hw _ _ _ Hp). destruct (f_grant w Hw _ _ _ Hp) as (g0 & Hg0 & Hb & _).
    split; [|apply weakens_refl; congruence]. destruct o; [|done]. rewrite lookup_insert_ne by lia. done.
Qed.

Lemma moves_minted w o : forest w -> moves None w (minted w o).
Proof. intros Hw. apply moves_tasks; [done..|]. intros k Hk. simpl. destruct o; [|done]. by rewrite lookup_insert_ne by lia. Qed.

Lemma moves_drop w o : forest w -> moves None w (on_grant (next w) grant_invalidate (minted w o)).
Proof.
  intros Hw. apply moves_tasks; [done..|]. intros k Hk. simpl. rewrite lookup_alter_ne by lia. destruct o; [|done].
  by rewrite lookup_insert_ne by lia.
Qed.

Lemma try_new_run room bits window origin w :
  try_new room bits window origin w =
  if fitsb usize_bits (next w + 1) then
    Some (if room then Ok (next w) else Err OoM,
          minted w (if room then Some (mkGrant bits window (origin (next w)).1 (origin (next w)).2) else None))
  else None.
Proof.
  unfold try_new, expect, checked_add, checked, fail, get, put, mret, M_ret, mbind, M_bind. cbn.
  destruct (fitsb usize_bits (next w + 1)); [|done]. destruct room; simpl; [|done].
  by destruct (origin (next w)).
Qed.

Lemma mint_panics w : forest w -> fitsb usize_bits (next w + 1) = false -> usize_MAX <= next w.
Proof.
  intros Hw Hfit. apply not_true_iff_false in Hfit. rewrite fitsb_true in Hfit. pose proof (f_next w Hw).
  unfold fits, usize_bits in Hfit. unfold usize_MAX, usize_bits. lia.
Qed.

(** Dropping a pie that never got into a table. *)
Lemma forest_drop w o : forest w -> forest (on_grant (next w) grant_invalidate (minted w o)).
Proof.
  intros Hw. apply (forest_regrant w); try done; simpl; [lia| |].
  - intros k Hk. rewrite lookup_alter_ne by lia. pose proof (f_fresh w Hw k ltac:(lia)).
    destruct o; [|done]. rewrite lookup_insert_ne by lia. done.
  - intros t k p g Hp Hg. exists g. pose proof (f_token w Hw _ _ _ Hp). destruct (f_grant w Hw _ _ _ Hp) as (g0 & Hg0 & Hb & _).
    split; [|apply weakens_refl; congruence]. rewrite lookup_alter_ne by lia. destruct o; [|done]. by rewrite lookup_insert_ne by lia.
Qed.

(** ** A new pie *)

(** The views of a world with one more pie [n] in the tables of [t], whose
    giver, if any, knows it. *)
Record grown (w : World) (t : Z) (n : Pie) (w' : World) : Prop := mkGrown {
  gr_tidy : tidy w';
  gr_locate : forall t' k', locate w' t' k' =
    if decide (t = t' /\ p_token n = k') then Some n
    else if decide (gives t' k' n /\ only w k' = true) then set_heir (Some (mkHeir t (p_token n))) <$> locate w t' k'
    else locate w t' k';
  gr_heirs : forall l e, e ∈ heirs_of w' l <-> e ∈ heirs_of w l \/ (gives l (source_of e) n /\ e.1.2 = t /\ e.2 = p_token n);
  gr_rest : grants w' = grants w /\ mails w' = mails w /\ next w' = next w
}.

Lemma forest_grown w t n w' :
  forest w -> grown w t n w' -> (forall t', locate w t' (p_token n) = None) -> 1 <= p_token n < next w -> p_heir n = None ->
  match p_sire n with
  | None => p_lord n = None
  | Some s => exists l q, p_lord n = Some l /\ locate w l s = Some q /\ p_mail q = p_mail n /\ s < p_token n /\ p_heir q = None
  end ->
  (exists g, grants w !! p_token n = Some g /\ descends w n g) -> forest w'.
Proof.
  intros Hw [Htidy Hloc Hhs (Hgr & Hma & Hne)] Hfresh Hrange Hh Hs Hg.
  assert (forall k, only w' k = only w k) as Ho by (intros k; unfold only; by rewrite Hgr).
  assert (forall t' k' p', locate w' t' k' = Some p' ->
    (t' = t /\ k' = p_token n /\ p' = n) \/
    exists p, locate w t' k' = Some p /\ k' <> p_token n /\ p_sire p' = p_sire p /\ p_lord p' = p_lord p /\ p_mail p' = p_mail p /\ p_token p' = p_token p /\
      p_heir p' = if decide (gives t' k' n /\ only w k' = true) then Some (mkHeir t (p_token n)) else p_heir p) as Hinv.
  { intros t' k' p' Hp. rewrite Hloc in Hp. case_decide as Hd; [left; destruct Hd; by simplify_eq|right].
    assert (k' <> p_token n \/ locate w t' k' = None) as Hk by (destruct (decide (k' = p_token n)) as [->|]; [right; by apply Hfresh|by left]).
    case_decide as Hd'.
    - destruct (locate w t' k') as [p|]; simplify_eq/=. exists p. destruct Hk; [|done]. split_and!; done.
    - exists p'. destruct Hk as [|Hk]; [|congruence]. split_and!; done. }
  assert (forall t' k' p, locate w t' k' = Some p -> exists p', locate w' t' k' = Some p' /\ p_sire p' = p_sire p /\ p_lord p' = p_lord p /\ p_mail p' = p_mail p) as Hfwd.
  { intros t' k' p Hp. rewrite Hloc, decide_False by (intros [<- <-]; by rewrite Hfresh in Hp).
    case_decide; rewrite ?Hp; simpl; eauto 10. }
  assert (locate w' t (p_token n) = Some n) as Hself by (rewrite Hloc, decide_True by done; done).
  assert (forall t' k' p, locate w t' k' = Some p -> p_sire p <> Some (p_token n)) as Hnochild.
  { intros t' k' p Hp Hsp. destruct (forest_parent w _ _ _ _ Hw Hp Hsp) as (l & q & _ & Hq & _). by rewrite Hfresh in Hq. }
  split; rewrite ?Hgr, ?Hne; try apply Hw; [done| | | | | | |].
  - intros t' k' p'. intros [(-> & -> & ->)|(p & Hp & _)]%Hinv; [done|by eapply f_token].
  - intros t1 t2 k' p1 p2 [(-> & -> & ->)|(q1 & Hq1 & Hk1 & _)]%Hinv [(-> & Hk2 & ->)|(q2 & Hq2 & Hk2' & _)]%Hinv; try done; by eapply f_unique.
  - intros t' k' p' [(-> & -> & ->)|(p & Hp & Hk & -> & -> & -> & _)]%Hinv.
    + destruct (p_sire n) as [s|] eqn:Hsn; [|done]. destruct Hs as (l & q & Hl & Hq & Hm & Hlt & _).
      destruct (Hfwd _ _ _ Hq) as (q' & Hq' & _ & _ & Hm'). exists l, q'. split_and!; [done..|congruence|done|].
      apply Hhs. right. unfold gives. simpl. done.
    + pose proof (f_sire w Hw _ _ _ Hp) as H. destruct (p_sire p) as [s|]; [|done]. destruct H as (l & q & Hl & Hq & Hm & Hlt & He).
      destruct (Hfwd _ _ _ Hq) as (q' & Hq' & _ & _ & Hm'). exists l, q'. split_and!; [done..|congruence|done|]. apply Hhs. by left.
  - intros l s c k' [He|([Hl Hsn] & Hc & Hk)]%Hhs.
    + destruct (f_heirs w Hw _ _ _ _ He) as (p & Hp & Hs1 & Hl1). destruct (Hfwd _ _ _ Hp) as (p' & Hp' & E1 & E2 & _). exists p'. split_and!; congruence.
    + simpl in *. subst. by exists n.
  - intros t' k' p' h [(-> & -> & ->)|(p & Hp & Hk & _ & _ & _ & _ & Hhp)]%Hinv Hh'; [congruence|]. rewrite Ho. rewrite Hhp in Hh'.
    case_decide as Hd.
    + injection Hh' as <-. destruct Hd as [[Hl Hsn] Hon]. split; [done|]. by exists n.
    + destruct (f_heir w Hw _ _ _ _ Hp Hh') as (Hon & q & Hq & E1 & E2). split; [done|].
      destruct (Hfwd _ _ _ Hq) as (q' & Hq' & F1 & F2 & _). exists q'. split_and!; congruence.
  - intros t' k' p' c k'' q'. rewrite Ho. intros Hp' Hon Hq' Hsq.
    destruct (Hinv _ _ _ Hp') as [(-> & -> & ->)|(p & Hp & Hk & _ & _ & _ & _ & Hhp)].
    + exfalso. destruct (Hinv _ _ _ Hq') as [(-> & -> & ->)|(q & Hq & _ & Hsq' & _)].
      * destruct (p_sire n) as [s|]; [|done]. injection Hsq as ->. destruct Hs as (l & q & _ & Hq & _). by rewrite Hfresh in Hq.
      * apply (Hnochild _ _ _ Hq). congruence.
    + rewrite Hhp. destruct (Hinv _ _ _ Hq') as [(-> & -> & ->)|(q & Hq & _ & Hsq' & _)].
      * rewrite Hsq in Hs. destruct Hs as (l & q & Hl & Hq & _). assert (l = t') as -> by (eapply f_unique; eauto).
        rewrite decide_True; [done|]. by unfold gives.
      * rewrite Hsq' in Hsq. pose proof (f_only w Hw _ _ _ _ _ _ Hp Hon Hq Hsq) as Hh0. case_decide as Hd; [|done].
        destruct Hd as [[Hl Hsn] _]. rewrite Hsn in Hs. destruct Hs as (l & q0 & Hl0 & Hq0 & _ & _ & Hh1).
        assert (l = t') as -> by congruence. congruence.
  - intros t' k' p' [(-> & -> & ->)|(p & Hp & Hk & E1 & _ & E3 & E4 & _)]%Hinv.
    + destruct Hg as (g & Hg & Hd). exists g. split; [done|]. unfold descends in *. by rewrite Hgr, Hma.
    + destruct (f_grant w Hw _ _ _ Hp) as (g & Hg0 & Hd). exists g. split; [done|]. unfold descends in *. by rewrite Hgr, Hma, E1, E3, E4.
Qed.

Lemma tidy_push t p w : tidy w -> locate w t (p_token p) = None -> tidy (on_task t (fun r => set_pies (t_pies r ++ [p]) r) w).
Proof.
  intros Hw Hn. apply tidy_on_task; [done|]. intros r Hr (A & B & C). split_and!; simpl; [|done..].
  unfold locate, pies_of in Hn. rewrite Hr in Hn. apply find_pie_None in Hn. rewrite map_app. simpl.
  apply NoDup_app. split_and!; [done| |apply NoDup_singleton]. intros k Hk ->%list_elem_of_singleton. done.
Qed.

(** [insert]. *)
Lemma good_insert room room' t mail mark bits :
  bits <> 0 -> forall w, forest w -> is_Some (tasks w !! t) ->
  match pend_insert room room' t mail mark bits w with
  | Some (_, w') => forest w' /\ moves (Some mail) w w'
  | None => usize_MAX <= next w
  end.
Proof.
  intros Hb w Hw Ht. unfold pend_insert, mbind, M_bind. rewrite try_new_run.
  destruct (fitsb usize_bits (next w + 1)) eqn:Hfit; [|by apply mint_panics].
  set (g := mkGrant _ _ _ _). destruct room; [|split; [by apply forest_minted|by apply moves_weaken, moves_minted]].
  pose proof (forest_minted w (Some g) Hw) as Hm. pose proof (forest_drop w (Some g) Hw) as Hd.
  unfold get, drop_pie, get, put, fail, mret, M_ret, mbind, M_bind.
  destruct (live (minted w (Some g)) t); cbn [negb].
  2: { split; [done|]. by apply moves_weaken, moves_drop. }
  destruct room'; cbn [negb].
  2: { split; [done|]. by apply moves_weaken, moves_drop. }
  set (n := mkPie (next w) mark None None None mail).
  assert (locate (minted w (Some g)) t (p_token n) = None) as Hfr by (by apply (locate_fresh w)).
  split.
  - apply forest_changed. apply (forest_grown (minted w (Some g)) t n); try done.
    + split; [by apply tidy_push; [apply Hm|]| |intros l e; rewrite heirs_on_task_same by done; unfold gives; naive_solver|done].
      intros t' k'. rewrite locate_push by done. case_decide; [done|]. rewrite decide_False; [done|]. unfold gives. naive_solver.
    + intros t'. by apply (locate_fresh w).
    + simpl. pose proof (f_next w Hw). lia.
    + exists g. simpl. rewrite lookup_insert_eq. split; [done|]. split_and!; [done|apply contains_refl|by apply form_ok_true|done].
  - destruct (moves_minted w (Some g) Hw) as (Hv & Ha & _). split_and!.
    + apply (dirty_changed [t]); [intros x ->%list_elem_of_singleton; by left|]. by apply dirty_on_task.
    + apply attenuates_changed. intros t' k' p'. rewrite locate_push by done. case_decide; [by intros [= <-]|]. intros Hp' _. by apply (Ha t' k' p').
    + done.
Qed.

(** ** Handing on *)

Lemma effective_window_within w p requested window :
  effective_window w p requested = Ok window -> within (m_pages (mails w (p_mail p))) (window_of w p) window.
Proof.
  unfold effective_window. destruct requested as [[offset count]|]; [|intros [= <-]; apply within_refl].
  destruct (is_pole w p); simpl; [|done]. unfold within, extent.
  destruct (default (0, m_pages (mails w (p_mail p))) (window_of w p)) as [o c].
  destruct (checked_add o c) as [oe|] eqn:Ho, (checked_add offset count) as [ie|] eqn:Hi; try done.
  apply checked_Some in Ho as [<- _], Hi as [<- _]. case_match eqn:Hin; [|done]. intros [= <-]. simpl. lia.
Qed.

(** What [publish_check] makes sure of. *)
Lemma publish_check_ok w caller src target subset mark requested pie mark' window :
  publish_check w caller src target subset mark requested = Ok (pie, mark', window) ->
  locate w caller src = Some pie /\ p_heir pie = None /\ narrows (permission w pie) subset = true /\
  allows_need w pie NVest = true /\ within (m_pages (mails w (p_mail pie))) (window_of w pie) window.
Proof.
  unfold publish_check. intros H. case_match; [done|]. destruct (locate w caller src) as [p|] eqn:Hp; simpl in H; [|done].
  unfold mbind, result_bind in H. simpl in H. repeat (case_match; try done); simplify_eq.
  all: repeat match goal with
    | H : effective_window _ _ _ = _ |- _ => apply effective_window_within in H
    | H : negb (allows_need _ _ _) || _ = false |- _ => apply orb_false_iff in H as [?%negb_false_iff ?%negb_false_iff]
    | H : bool_decide (is_Some _) = false |- _ => apply bool_decide_eq_false, eq_None_not_Some in H
    end; done.
Qed.

(** The last lines of [publish], from the world with the new grant. *)
Definition published (caller src target mark token : Z) (pie : Pie) (w : World) : World :=
  let w := on_task caller (fun r => set_heirs (insert_heir src target token (t_heirs r)) r) w in
  let w := if contains (permission w pie) ONLY
           then on_task caller (update_pie src (set_heir (Some (mkHeir target token)))) w else w in
  let granted := mkPie token mark (Some src) (Some caller) None (p_mail pie) in
  let w := on_task target (fun r => set_pies (t_pies r ++ [granted]) r) w in
  let w := changed caller w in
  if caller =? target then w else changed target w.

Lemma permission_only w t k p : forest w -> locate w t k = Some p -> contains (permission w p) ONLY = only w k.
Proof.
  intros Hw Hp. destruct (f_grant w Hw t k p Hp) as (g & Hg & Hb & _). unfold permission, only.
  rewrite (locate_token _ _ _ _ Hp), Hg. unfold grant_permission. by destruct (g_bits g =? 0) eqn:Hz; [lia|].
Qed.

Lemma permission_bits w t k p : forest w -> locate w t k = Some p -> exists g, grants w !! k = Some g /\ permission w p = g_bits g /\ descends w p g.
Proof.
  intros Hw Hp. destruct (f_grant w Hw t k p Hp) as (g & Hg & Hd). exists g. split_and!; try done. unfold permission.
  rewrite (locate_token _ _ _ _ Hp), Hg. unfold grant_permission. destruct Hd as [Hb _]. by destruct (g_bits g =? 0) eqn:Hz; [lia|].
Qed.

Lemma published_views caller src target mark token pie w :
  forest w -> locate w caller src = Some pie -> is_Some (tasks w !! target) -> (forall t, locate w t token = None) ->
  let n := mkPie token mark (Some src) (Some caller) None (p_mail pie) in
  exists w', grown w target n w' /\ published caller src target mark token pie w = (if caller =? target then changed caller w' else changed target (changed caller w')).
Proof.
  intros Hw Hp Ht Hfresh n. unfold published.
  set (w1 := on_task caller (fun r => set_heirs (insert_heir src target token (t_heirs r)) r) w).
  assert (contains (permission w1 pie) ONLY = only w src) as -> by (by apply (permission_only w caller)).
  set (w2 := if only w src then _ else w1). fold n. set (w3 := on_task target _ w2).
  assert (forall t' k', locate w1 t' k' = locate w t' k') as Hl1 by (intros; by apply locate_on_task_same).
  assert ((src, target, token) ∉ heirs_of w caller) as Hnew.
  { intros He. destruct (f_heirs w Hw _ _ _ _ He) as (p & Hpp & _). by rewrite Hfresh in Hpp. }
  assert (tidy w1) as Ht1.
  { apply tidy_on_task; [apply Hw|]. intros r Hr (A & B & C). unfold heirs_of in Hnew. rewrite Hr in Hnew.
    split_and!; simpl; [done|by apply insert_heir_sorted|by apply NoDup_insert_heir]. }
  assert (forall t' k', locate w2 t' k' = if decide (gives t' k' n /\ only w k' = true)
            then set_heir (Some (mkHeir target token)) <$> locate w t' k' else locate w t' k') as Hl2.
  { intros t' k'. subst w2. unfold gives. simpl. destruct (only w src) eqn:Ho.
    - rewrite locate_update, !Hl1 by done. destruct (decide (caller = t' /\ src = k')) as [[<- <-]|Hne], (decide _) as [Hd|Hd]; try done.
      + by destruct Hd.
      + destruct Hne, Hd as [[[= ->] [= ->]] _]. done.
    - rewrite Hl1, decide_False; [done|]. intros [[_ [= <-]] Ho']. congruence. }
  assert (tidy w2) as Ht2 by (subst w2; destruct (only w src); [by apply tidy_update|done]).
  assert (forall l, heirs_of w2 l = heirs_of w1 l) as Hh2 by (intros l; subst w2; destruct (only w src); [by apply heirs_on_task_same|done]).
  assert (is_Some (tasks w2 !! target)) as Hs2.
  { subst w2 w1. destruct (only w src); by rewrite ?tasks_some_on_task. }
  assert (locate w2 target token = None) as Hf2 by (rewrite Hl2, Hfresh; by case_decide).
  exists w3. split; [|by destruct (caller =? target)]. split.
  - by apply tidy_push.
  - intros t' k'. subst w3. rewrite locate_push, Hl2 by done. done.
  - intros l e. subst w3. rewrite heirs_on_task_same, Hh2 by done. subst w1.
    rewrite (elem_of_set_heirs caller (insert_heir src target token)). unfold gives. cbn [p_lord p_sire p_token n].
    pose proof (locate_task _ _ _ _ Hp) as Hc. destruct e as [[s c] k]. cbn [source_of fst snd].
    case_decide as Hd; [subst l; rewrite elem_of_insert_heir|].
    + naive_solver.
    + split; [by left|]. intros [He|[[[= ->] _] _]]; [done|]. done.
  - subst w3 w2 w1. by destruct (only w src).
Qed.

Lemma published_versioned caller src target mark token pie w : versioned w (published caller src target mark token pie w).
Proof.
  unfold published. set (w1 := on_task caller _ w). set (w2 := if contains _ ONLY then _ else w1). set (w3 := on_task target _ w2).
  assert (dirty [caller] w w1) as H1 by (apply dirty_on_task; [done|apply dirty_refl]).
  assert (dirty [caller; caller] w w2) as H2.
  { subst w2. destruct (contains _ ONLY); [by apply dirty_on_task|]. eapply dirty_more; [|exact H1]. intros x. rewrite !elem_of_cons. tauto. }
  assert (dirty [target; caller; caller] w w3) as H3 by (by apply dirty_on_task).
  assert (dirty [target] w (changed caller w3)) as H4.
  { apply (dirty_changed [target; caller; caller]); [|done]. intros x. rewrite !elem_of_cons. naive_solver. }
  destruct (caller =? target) eqn:He.
  - apply (dirty_changed [target; caller; caller]); [|done]. intros x. rewrite !elem_of_cons, elem_of_nil. assert (caller = target) by lia. naive_solver.
  - apply (dirty_changed [target]); [|done]. intros x ->%list_elem_of_singleton. by left.
Qed.

(** A pie made from another, once its grant is there. *)
Lemma published_good w caller src target mark pie g :
  forest w -> locate w caller src = Some pie -> p_heir pie = None -> is_Some (tasks w !! target) ->
  (exists gs, grants w !! src = Some gs /\ narrows (g_bits gs) (g_bits g) = true /\ g_root g = g_root gs /\ g_cap g = g_cap gs /\
     within (m_pages (mails w (p_mail pie))) (g_window gs) (g_window g)) ->
  let w' := published caller src target mark (next w) pie (minted w (Some g)) in forest w' /\ moves None w w'.
Proof.
  intros Hw Hp Hh Ht (gs & Hgs & Hnar & Hroot & Hcap & Hwin) w'. subst w'. set (w1 := minted w (Some g)).
  pose proof (forest_minted w (Some g) Hw) as Hm. fold w1 in Hm. destruct (moves_minted w (Some g) Hw) as (Hv & Ha & _).
  pose proof (published_versioned caller src target mark (next w) pie w1) as Hpv.
  destruct (published_views caller src target mark (next w) pie w1 Hm Hp Ht ltac:(intros t; by apply (locate_fresh w))) as (w2 & Hgr & He).
  rewrite He in *. clear He. set (n := mkPie (next w) mark (Some src) (Some caller) None (p_mail pie)) in *.
  pose proof (f_token w Hw _ _ _ Hp) as Hsrc. destruct (f_grant w Hw _ _ _ Hp) as (gs' & Hgs' & A & B & C%form_ok_true & _).
  assert (gs' = gs) as -> by congruence. apply narrows_true in Hnar as (D & F & G). split; [|split_and!].
  - cut (forest w2); [intros H2; destruct (caller =? target); by repeat apply forest_changed|].
    apply (forest_grown w1 target n w2); try done.
    + intros t. by apply (locate_fresh w).
    + simpl. lia.
    + simpl. exists caller, pie. split_and!; [done..|lia|done].
    + exists g. split; [apply lookup_insert_eq|]. unfold descends. rewrite Hcap, Hroot.
      split_and!; [done|by eapply contains_trans|apply form_ok_true; congruence|]. exists gs. split_and!; [|done..].
      simpl. by rewrite lookup_insert_ne by lia.
  - eapply dirty_trans; [exact Hv|exact Hpv].
  - cut (attenuates None w w2); [intros H2; destruct (caller =? target); by repeat apply attenuates_changed|].
    intros t k p. rewrite (gr_locate _ _ _ _ Hgr). destruct (gr_rest _ _ _ _ Hgr) as (-> & _). case_decide as Hd.
    + destruct Hd as [<- <-]. intros [= <-] _. exists caller, src, pie, gs, g. split_and!; try done. apply lookup_insert_eq.
    + case_decide as Hd'; [|apply Ha]. destruct (locate w1 t k) as [q|] eqn:Hq; [|done]. intros [= <-] Hf. exact (Ha t k q Hq Hf).
  - destruct (gr_rest _ _ _ _ Hgr) as (_ & Hma & _). by destruct (caller =? target).
Qed.

Lemma good_publish rooms caller src target subset mark requested : good (publish rooms caller src target subset mark requested).
Proof.
  intros w Hw. pose proof (moves_refl w Hw) as Hrefl.
  unfold publish, mbind, M_bind, get. destruct (upgrade w target) eqn:Hup; cbn [negb]; [|done].
  unfold lift at 1. destruct (publish_check w caller src target subset mark requested) as [[[pie mark'] window]|e] eqn:Hck; [|done].
  apply publish_check_ok in Hck as (Hp & Hh & Hnar & _ & Hwin). rewrite try_new_run.
  destruct (fitsb usize_bits (next w + 1)) eqn:Hfit; [|by apply mint_panics].
  set (g := mkGrant _ _ _ _). destruct rooms as [[r1 r2] r3]. cbn [fst snd].
  destruct r1; [|split; [by apply forest_minted|by apply moves_minted]].
  pose proof (forest_minted w (Some g) Hw) as Hm. pose proof (forest_drop w (Some g) Hw) as Hd.
  unfold drop_pie, get, put, fail, mret, M_ret, mbind, M_bind.
  destruct r2; cbn [negb]; [|split; [done|by apply moves_drop]].
  destruct r3; cbn [negb]; [|split; [done|by apply moves_drop]].
  fold (published caller src target mark' (next w) pie (minted w (Some g))).
  apply (published_good w caller src target mark' pie g Hw Hp Hh); [by apply upgrade_true|].
  destruct (permission_bits w caller src pie Hw Hp) as (gs & Hgs & Hbits & _). exists gs. rewrite Hbits in Hnar.
  subst g. unfold inherit. rewrite Hgs. simpl. split_and!; [done..|]. unfold window_of in Hwin. by rewrite (locate_token _ _ _ _ Hp), Hgs in Hwin.
Qed.

(** ** Narrowing *)

Lemma good_reduce_commit t k subset : good (reduce_commit t k subset).
Proof.
  intros w Hw. pose proof (conj Hw (moves_refl w Hw)) as Hrefl.
  unfold reduce_commit, mbind, M_bind, get. destruct (locate w t k) as [pie|] eqn:Hp; [|done].
  unfold lift at 1. simpl. destruct (pie_alive w pie); simpl; [|done]. destruct (narrows (permission w pie) subset) eqn:Hn; simpl; [|done].
  destruct (permission_bits w t k pie Hw Hp) as (g & Hg & Hbits & A & B & C & _). unfold expect. rewrite Hg. rewrite Hbits in Hn.
  unfold lift, grant_narrow, put. replace (g_bits g =? 0) with false by lia. rewrite Hn. simpl.
  apply narrows_true in Hn as (D & F & G). set (g' := mkGrant _ _ _ _). set (w1 := set_grants _ w).
  assert (weakens g g') as Hwk.
  { subst g'. split_and!; simpl; rewrite ?(permission_land _ _ F); done. }
  split; [|split_and!; [apply (dirty_changed []); [intros x Hx; by apply not_elem_of_nil in Hx|]; by apply (dirty_same_tasks [] w w); [|apply dirty_refl]| |done]].
  2: { apply attenuates_changed. intros t' k' p' Hp' Hf. change (locate w t' k' = Some p') in Hp'. simpl. destruct (decide (k = k')) as [<-|Hne].
    - exists t', k, p', g, g'. rewrite lookup_insert_eq. split_and!; try done; [apply Hwk|]. destruct Hwk as (_ & _ & _ & -> & _). apply within_refl.
    - destruct (f_grant w Hw _ _ _ Hp') as (g0 & Hg0 & _). exists t', k', p', g0, g0. rewrite lookup_insert_ne by done.
      split_and!; try done; [apply contains_refl|apply within_refl]. }
  apply forest_changed, (forest_regrant w); try done.
  - intros k' Hk'. simpl. pose proof (f_fresh w Hw k' Hk'). destruct (decide (k = k')) as [<-|]; [congruence|]. by rewrite lookup_insert_ne.
  - intros t' k' p' g0 Hp' Hg0. simpl. destruct (decide (k = k')) as [<-|Hne].
    + rewrite lookup_insert_eq. exists g'. split; [done|]. congruence.
    + rewrite lookup_insert_ne by done. exists g0. split; [done|]. destruct (f_grant w Hw _ _ _ Hp') as (g1 & Hg1 & Hb1 & _).
      apply weakens_refl. congruence.
Qed.

Lemma good_reduce t k subset clan mapped : good (reduce t k subset clan mapped).
Proof.
  intros w Hw. pose proof (conj Hw (moves_refl w Hw)) as Hrefl.
  pose proof (good_reduce_commit t k subset w Hw) as Hc.
  unfold reduce, mbind, M_bind, get. destruct (locate w t k) as [pie|]; [|done]. unfold lift, fail. cbn [ok_or].
  destruct (negb (pie_alive w pie)); [done|]. destruct (negb (narrows _ _)); [done|]. destruct (negb (is_pole w pie)); [done|].
  destruct (negb (contains subset FETCH)); [done|]. destruct (m_operating _); [done|]. destruct (negb _ && negb clan); [done|].
  by destruct mapped.
Qed.

(** ** Handed-over pies stay so while the heir is there *)

Lemma clear_heir_same t k expected w : forest w -> clear_heir t k expected w = Some (Ok false, w).
Proof.
  intros Hw. unfold clear_heir, mbind, M_bind, get. unfold clear_heir_locked.
  destruct (locate w t k) as [pie|] eqn:Hp.
  2: { by destruct (match _ with Some _ => _ | None => false end). }
  case_bool_decide as Hh.
  2: { by destruct (match _ with Some _ => _ | None => false end). }
  destruct (f_heir w Hw _ _ _ _ Hp Hh) as (_ & q & Hq & Hs & Hl).
  destruct (forest_parent w _ _ _ _ Hw Hq Hs) as (l & _ & Hl' & _ & _ & _ & He). assert (l = t) as -> by congruence.
  destruct (List.find _ (heirs_of w t)) as [[[s c] j]|] eqn:Hf.
  - apply List.find_some in Hf as [Hin Hb]. simpl in Hb. apply list_elem_of_In in Hin.
    assert ((s, c, j) = (k, h_task expected, h_token expected)) as [= -> -> ->].
    { apply (forest_entry w t); [done..|]. simpl. lia. }
    simpl. assert (upgrade w (h_task expected) = true) as -> by (apply upgrade_true; by eapply locate_task).
    rewrite bool_decide_eq_true_2 by (rewrite Hq; eauto). done.
  - eapply List.find_none in Hf; [|apply list_elem_of_In, He]. unfold source_of in Hf. simpl in Hf. lia.
Qed.
