(* ===== verification/PendCull.v ===== *)
(** * Removing a subtree, and leaving one to the giver *)

From S2P Require Import Prelude Pend PendTables PendInv PendSteps.
From stdpp Require Import sorting.

Open Scope Z_scope.

(** ** Versions of the tasks a removal changes *)

Lemma clear_heir_dirty l s h D w w1 : dirty D w w1 -> dirty (l :: D) w (clear_heir_locked l s h w1).1.
Proof.
  intros H. unfold clear_heir_locked. destruct (locate w1 l s) as [q|]; cbn [fst].
  - case_bool_decide; cbn [fst].
    + eapply (dirty_changed (l :: D)); [intros x; rewrite !elem_of_cons; tauto|]. by apply dirty_on_task.
    + eapply dirty_more; [|exact H]. intros x. rewrite elem_of_cons. tauto.
  - eapply dirty_more; [|exact H]. intros x. rewrite elem_of_cons. tauto.
Qed.

Lemma released_dirty t k p D w w1 : dirty D w w1 -> dirty D w (released t k p w1).
Proof.
  intros H. unfold released. destruct (p_sire p) as [s|]; [|done]. destruct (p_lord p) as [l|]; [|done]. destruct (upgrade w1 l); [|done].
  eapply (dirty_changed (l :: l :: D)); [intros x; rewrite !elem_of_cons; tauto|].
  apply clear_heir_dirty. by apply dirty_on_task.
Qed.

Lemma take_versioned t k w : versioned w (pend_take t k w).1.
Proof.
  unfold pend_take. destruct (locate w t k) as [p|]; cbn [fst]; [|apply dirty_refl]. unfold take_pie.
  set (w1 := on_task t _ w). set (w2 := on_grant k grant_invalidate w1).
  change (match p_sire p, p_lord p with Some parent, Some lord => _ | _, _ => w2 end) with (released t k p w2).
  apply (dirty_changed [t; t]); [intros x; rewrite !elem_of_cons; tauto|]. apply dirty_on_task; [done|].
  apply released_dirty. apply (dirty_same_tasks _ w w1); [done|]. apply dirty_on_task; [done|apply dirty_refl].
Qed.

Lemma take_all_versioned ns : forall w, versioned w (take_all ns w).1.
Proof.
  induction ns as [|[t k] ns IH]; intros w; cbn [take_all]; [apply dirty_refl|].
  pose proof (take_versioned t k w) as Ht. destruct (pend_take t k w) as [w1 p]. specialize (IH w1).
  destruct (take_all ns w1) as [w2 ps]. cbn [fst] in *. by eapply dirty_trans.
Qed.

(** ** Removing *)

Lemma take_all_forest w ns : forest w -> closed w ns -> forest (take_all ns w).1 /\ pruned w ns (take_all ns w).1.
Proof.
  intros Hw Hc. pose proof (take_all_pruned w Hw ns [] w (proj1 Hc) (pruned_nil w (f_tidy w Hw))) as Hp.
  rewrite app_nil_r in Hp. split; [by eapply pruned_forest|done].
Qed.

Lemma pruned_attenuates w ns w' : forest w -> closed w ns -> pruned w ns w' -> attenuates None w w'.
Proof.
  intros Hw Hc Hp. apply attenuates_kept; [done|]. intros t k p. rewrite (pr_locate _ _ _ Hp). case_bool_decide as Hn; [done|].
  destruct (locate w t k) as [q|] eqn:Hq; [|done]. intros [= <-]. exists q. destruct (forgets_sire ns q) as (_ & _ & _ & Hm).
  split_and!; [done..|]. apply (pruned_grant w ns w' t k q); [done|apply Hc|done..].
Qed.

Lemma good_reap t k maps : good (reap t k maps).
Proof.
  intros w Hw. pose proof (conj Hw (moves_refl w Hw)) as Hrefl.
  unfold reap, mbind, M_bind, get, mret, M_ret, fail. destruct (locate w t k) as [pie|] eqn:Hp; [|done].
  destruct (bool_decide _ || bool_decide _); [done|]. destruct (any _ (heirs_of w t)) eqn:Hany; [done|].
  destruct (is_pole w pie && _); [done|]. destruct (is_pole w pie && maps); [done|].
  unfold lift. destruct (withdraw_check w true pie); [|done].
  assert (closed w [(t, k)]) as Hcl.
  { split; [intros t' k' [= -> ->]%list_elem_of_singleton; eauto|]. intros l s c j [= -> ->]%list_elem_of_singleton He.
    apply any_false in Hany. rewrite Forall_forall in Hany. specialize (Hany _ He). unfold source_of in Hany. simpl in Hany. lia. }
  destruct (take_all_forest w [(t, k)] Hw Hcl) as [Hf Hpr]. pose proof (pruned_attenuates w _ _ Hw Hcl Hpr) as Ha.
  pose proof (pr_rest _ _ _ Hpr) as (_ & Hma & _). pose proof (take_versioned t k w) as Hv. cbn [take_all] in Hf, Ha, Hma.
  destruct (pend_take t k w) as [w1 [p|]]; cbn [fst] in *; unfold put; done.
Qed.

(** The section of [cull], once its nodes are known to be a whole subtree. *)
Lemma cull_commit_run room u caller closing w r w' :
  forest w -> ((unchanged w u || relations_match w u) = true -> closed w (u_nodes u)) ->
  cull_commit room u caller closing w = Some (r, w') ->
  match r with
  | Err _ => w' = w
  | Ok _ => (unchanged w u || relations_match w u) = true /\ pruned w (u_nodes u) w' /\ forest w' /\ moves None w w'
  end.
Proof.
  intros Hw Hcl. unfold cull_commit, mbind, M_bind, get, fail. destruct room; cbn [negb]; [|by intros [= <- <-]].
  destruct (unchanged w u || relations_match w u); cbn [negb]; [|by intros [= <- <-]]. specialize (Hcl eq_refl).
  unfold expect. destruct (u_nodes u !! 0%nat) as [[t k]|]; [|done]. unfold lift at 1.
  destruct (ok_or (locate w t k) Denied) as [root|e]; [|by intros [= <- <-]].
  set (check := match caller with Some c => _ | None => _ end).
  assert (check w = Some (Ok tt, w) \/ exists e, check w = Some (Err e, w)) as [->|[e ->]]; [|simpl|by intros [= <- <-]].
  { subst check. destruct caller as [c|]; [|by left]. unfold lift, fail, mret, M_ret.
    destruct (p_sire root); cbn; [|eauto]. destruct (p_lord root); cbn; [|eauto]. by destruct (negb _ || _ || _); eauto. }
  unfold lift. destruct (withdraw_check w closing root) as [[]|e]; [|by intros [= <- <-]].
  assert (closed w (reverse (u_nodes u))) as Hcl'.
  { destruct Hcl as [A B]. split; [intros t' k'; rewrite elem_of_reverse; apply A|].
    intros l s c j. rewrite !elem_of_reverse. apply B. }
  destruct (take_all_forest w _ Hw Hcl') as [Hf Hp]. pose proof (pruned_attenuates w _ _ Hw Hcl' Hp) as Ha. pose proof (take_all_versioned (reverse (u_nodes u)) w) as Hv.
  destruct (take_all (reverse (u_nodes u)) w) as [w1 ps]. unfold put, mret, M_ret. intros [= <- <-]. cbn [fst] in *.
  destruct (pr_rest _ _ _ Hp) as (_ & Hma & _). split_and!; try done.
  eapply pruned_ext; [|exact Hp]. intros n. apply elem_of_reverse.
Qed.

(** ** Leaving the children of a pie to its giver *)

Record adopted (w : World) (lord parent : Z) (ns : list (Z * Z)) (w1 : World) : Prop := mkAdopted {
  ad_tidy : tidy w1;
  ad_locate : forall t k, locate w1 t k = if bool_decide ((t, k) ∈ ns) then set_parent parent lord <$> locate w t k else locate w t k;
  ad_heirs : forall l e, e ∈ heirs_of w1 l <-> e ∈ heirs_of w l \/ (l = lord /\ source_of e = parent /\ (e.1.2, e.2) ∈ ns);
  ad_rest : grants w1 = grants w /\ mails w1 = mails w /\ next w1 = next w;
  ad_tasks : forall t, is_Some (tasks w1 !! t) <-> is_Some (tasks w !! t)
}.

Lemma adopt_adopted w lord parent ns w1 n :
  adopted w lord parent ns w1 -> n ∉ ns -> is_Some (tasks w !! lord) -> (parent, n.1, n.2) ∉ heirs_of w lord ->
  adopted w lord parent (n :: ns) (adopt lord parent n w1).
Proof.
  intros [A B C D F] Hn Hl He. unfold adopt. set (w2 := on_task n.1 _ w1). set (w3 := on_task lord _ w2).
  assert (tidy w2) as H2 by (by apply tidy_update).
  assert (forall l, heirs_of w2 l = heirs_of w1 l) as Hh2 by (intros; by apply heirs_on_task_same).
  assert ((parent, n.1, n.2) ∉ heirs_of w2 lord) as Hnew.
  { rewrite Hh2, C. intros [|(_ & _ & Hin)]; [done|]. simpl in Hin. by destruct n. }
  split.
  - apply tidy_changed, tidy_on_task; [done|]. intros r Hr (X & Y & Z'). unfold heirs_of in Hnew. rewrite Hr in Hnew.
    split_and!; simpl; [done|by apply insert_heir_sorted|by apply NoDup_insert_heir].
  - intros t k. rewrite locate_changed. subst w3. rewrite locate_on_task_same by done. subst w2. rewrite locate_update, B by done.
    destruct n as [nt nk]. simpl. case_decide as Hd.
    + destruct Hd as [<- <-]. rewrite bool_decide_eq_false_2, bool_decide_eq_true_2 by (done || by left). done.
    + assert (bool_decide ((t, k) ∈ (nt, nk) :: ns) = bool_decide ((t, k) ∈ ns)) as ->; [|done].
      apply bool_decide_ext. rewrite elem_of_cons. naive_solver.
  - intros l e. rewrite heirs_changed. subst w3. rewrite (elem_of_set_heirs lord (insert_heir parent n.1 n.2)).
    destruct e as [[s c] j], n as [nt nk]. cbn [source_of fst snd]. rewrite elem_of_cons.
    case_decide as Hd; [subst l; rewrite elem_of_insert_heir|]; rewrite Hh2, C; cbn [source_of fst snd].
    + assert (is_Some (tasks w2 !! lord)) by (subst w2; rewrite tasks_some_on_task; by apply F). naive_solver.
    + naive_solver.
  - done.
  - intros t. unfold changed. subst w3 w2. rewrite !tasks_some_on_task. apply F.
Qed.

Lemma adopt_all_adopted w lord parent ns : forall acc w1,
  adopted w lord parent acc w1 -> NoDup (ns ++ acc) -> is_Some (tasks w !! lord) ->
  (forall n, n ∈ ns -> is_Some (locate w n.1 n.2) /\ (parent, n.1, n.2) ∉ heirs_of w lord) ->
  exists w2, adopt_all lord parent ns w1 = Some w2 /\ adopted w lord parent (ns ++ acc) w2 /\
             (forall D, dirty D w w1 -> dirty (lord :: D) w w2).
Proof.
  induction ns as [|n ns IH]; intros acc w1 Had Hnd Hl Hns; simpl.
  { exists w1. split_and!; [done..|]. intros D HD. eapply dirty_more; [|exact HD]. intros x. rewrite elem_of_cons. tauto. }
  inversion Hnd as [|?? Hn Hnd']; subst. rewrite elem_of_app in Hn.
  destruct (Hns n) as [[p Hp] He]; [left|]. destruct n as [t k]. simpl in *.
  rewrite (ad_locate _ _ _ _ _ Had), bool_decide_eq_false_2, Hp by tauto. simpl.
  pose proof (adopt_adopted w lord parent acc w1 (t, k) Had ltac:(tauto) Hl He) as Had'.
  destruct (IH ((t, k) :: acc) (adopt lord parent (t, k) w1) Had') as (w2 & -> & Had2 & Hd2).
  - rewrite <- Permutation_middle. by constructor; [rewrite elem_of_app|].
  - done.
  - intros n Hin. apply Hns. by right.
  - exists w2. split_and!; [done| |].
    + destruct Had2 as [A B C D F].
      assert (forall n, n ∈ ns ++ (t, k) :: acc <-> n ∈ (t, k) :: ns ++ acc) as Hiff.
      { intros n. rewrite ?elem_of_app, ?elem_of_cons, ?elem_of_app. tauto. }
      split; try done.
      * intros t' k'. rewrite B. assert (bool_decide ((t', k') ∈ ns ++ (t, k) :: acc) = bool_decide ((t', k') ∈ (t, k) :: ns ++ acc)) as ->; [|done].
        apply bool_decide_ext, Hiff.
      * intros l e. rewrite C, Hiff. done.
    + intros D HD. eapply dirty_more; [|apply (Hd2 (lord :: D))]; [intros x; rewrite !elem_of_cons; tauto|].
      unfold adopt. cbn [fst snd]. eapply (dirty_changed (lord :: t :: D)); [intros x; rewrite !elem_of_cons; tauto|].
      by apply dirty_on_task, dirty_on_task.
Qed.

Section forgetting.
Context (w : World) (t k lord parent : Z) (p : Pie) (ns : list (Z * Z)) (w1 : World).
Context (Hw : forest w) (Hp : locate w t k = Some p) (Hsire : p_sire p = Some parent) (Hlord : p_lord p = Some lord).
Context (Honly : only w k = false) (Hns : forall c j, (c, j) ∈ ns <-> (k, c, j) ∈ heirs_of w t).
Context (Had : adopted w lord parent ns w1).

Lemma forget_child c j : (c, j) ∈ ns -> exists q, locate w c j = Some q /\ p_sire q = Some k /\ p_lord q = Some t /\ k < j /\ p_mail p = p_mail q.
Proof.
  intros He%Hns. destruct (f_heirs w Hw _ _ _ _ He) as (q & Hq & Hs & Hl). exists q.
  destruct (forest_parent w _ _ _ _ Hw Hq Hs) as (l & q' & Hl' & Hq' & Hm & Hlt & _). assert (l = t) as -> by congruence.
  assert (q' = p) as -> by congruence. done.
Qed.

Lemma forget_parent : exists q, locate w lord parent = Some q /\ p_mail q = p_mail p /\ parent < k /\ (parent, t, k) ∈ heirs_of w lord /\
  p_heir q = None /\ only w parent = false.
Proof.
  destruct (forest_parent w _ _ _ _ Hw Hp Hsire) as (l & q & Hl & Hq & Hm & Hlt & He). assert (l = lord) as -> by congruence.
  assert (only w parent = only w k) as Ho.
  { destruct (f_grant w Hw _ _ _ Hq) as (gs & Hgs & _ & _ & Fs%form_ok_true & _). destruct (f_grant w Hw _ _ _ Hp) as (g & Hg & _ & _ & Fg%form_ok_true & Hd).
    rewrite Hsire in Hd. destruct Hd as (gs' & Hgs' & _ & Hcap & _). unfold only. rewrite Hgs, Hg. congruence. }
  exists q. split_and!; try done; [|congruence]. destruct (p_heir q) as [h|] eqn:Hh; [|done].
  destruct (f_heir w Hw _ _ _ _ Hq Hh) as (Ho' & _). congruence.
Qed.

Lemma forget_self : (t, k) ∉ ns.
Proof. intros Hin. destruct (forget_child _ _ Hin) as (q & Hq & Hs & _ & Hlt & _). lia. Qed.

Lemma forget_unique l a b : a ∈ heirs_of w1 l -> b ∈ heirs_of w1 l -> source_of a = source_of b -> a.2 = b.2 -> a = b.
Proof.
  destruct forget_parent as (q & _ & _ & Hlt & _). destruct a as [[s c] j], b as [[s' c'] j'].
  intros [Ha|(Hla & Hsa & Ha)]%(ad_heirs _ _ _ _ _ Had) [Hb|(Hl & Hsb & Hb)]%(ad_heirs _ _ _ _ _ Had) Hs Hj; unfold source_of in *; cbn [fst snd] in *; subst.
  - by apply (forest_entry w l).
  - subst. destruct (f_heirs w Hw _ _ _ _ Ha) as (x & Hx & Hsx & _). destruct (forget_child _ _ Hb) as (y & Hy & Hsy & _).
    assert (c = c') as <- by (eapply f_unique; eauto). simplify_eq. lia.
  - destruct (f_heirs w Hw _ _ _ _ Hb) as (x & Hx & Hsx & _). destruct (forget_child _ _ Ha) as (y & Hy & Hsy & _).
    assert (c = c') as <- by (eapply f_unique; eauto). simplify_eq. lia.
  - destruct (forget_child _ _ Ha) as (x & Hx & _). destruct (forget_child _ _ Hb) as (y & Hy & _).
    by assert (c = c') as <- by (eapply f_unique; eauto).
Qed.

Let w2 := take_pie t k p w1.

Lemma forget_locate t' k' :
  locate w2 t' k' = if decide (t = t' /\ k = k') then None
                    else if bool_decide ((t', k') ∈ ns) then set_parent parent lord <$> locate w t' k' else locate w t' k'.
Proof.
  destruct (take_views t k p w1 (ad_tidy _ _ _ _ _ Had) forget_unique) as (A & _). subst w2. rewrite A, (ad_locate _ _ _ _ _ Had). cbn zeta.
  destruct (decide (t = t' /\ k = k')); [by case_decide|]. case_decide as Hg; [|done]. destruct Hg as [Hl Hs].
  assert (t' = lord /\ k' = parent) as [-> ->] by (split; congruence). destruct forget_parent as (q & Hq & _ & Hlt & _ & Hh & _).
  rewrite bool_decide_eq_false_2 by (intros Hin; destruct (forget_child _ _ Hin) as (y & _ & _ & _ & ? & _); lia).
  rewrite Hq. simpl. unfold clears. by rewrite Hh, bool_decide_eq_false_2 by done.
Qed.

Lemma forget_heirs l s c j :
  (s, c, j) ∈ heirs_of w2 l <->
  ((s, c, j) ∈ heirs_of w l /\ ~ (l = lord /\ s = parent /\ j = k) /\ ~ (l = t /\ s = k)) \/ (l = lord /\ s = parent /\ (c, j) ∈ ns).
Proof.
  destruct (take_views t k p w1 (ad_tidy _ _ _ _ _ Had) forget_unique) as (_ & B & _). subst w2. rewrite B, (ad_heirs _ _ _ _ _ Had).
  unfold gives. rewrite Hlord, Hsire. cbn [source_of fst snd]. destruct forget_parent as (q & _ & _ & Hlt & _).
  assert ((c, j) ∈ ns -> k < j) as Hj by (intros Hin; destruct (forget_child _ _ Hin) as (y & _ & _ & _ & ? & _); done).
  split.
  - intros [[He|(-> & -> & Hin)] [H1 H2]]; [left; split_and!; [done| |done]|by right].
    intros (-> & -> & ->). by apply H1.
  - intros [(He & H1 & H2)|(-> & -> & Hin)].
    + split_and!; [by left| |done]. intros [[[= ->] [= ->]] ->]. by apply H1.
    + specialize (Hj Hin). split_and!; [by right|intros [_ ->]; lia|intros [_ ->]; lia].
Qed.

(** A pie that is left, and the pie it was. *)
Lemma forget_left t' k' p' : locate w2 t' k' = Some p' ->
  exists q, locate w t' k' = Some q /\ (t', k') <> (t, k) /\ p_heir p' = p_heir q /\ p_mail p' = p_mail q /\ p_token p' = p_token q /\
  (((t', k') ∉ ns) /\ p' = q \/ (t', k') ∈ ns /\ p_sire p' = Some parent /\ p_lord p' = Some lord).
Proof.
  rewrite forget_locate. case_decide as Hd; [done|]. assert ((t', k') <> (t, k)) as Hne by naive_solver.
  case_bool_decide as Hin; [|intros Hq; exists p'; naive_solver]. destruct (locate w t' k') as [q|]; [|done]. simpl. intros [= <-].
  exists q. split_and!; try done. by right.
Qed.

Lemma forget_only j : j <> k -> only w2 j = only w j.
Proof.
  intros Hj. destruct (take_views t k p w1 (ad_tidy _ _ _ _ _ Had) forget_unique) as (_ & _ & _ & D & _). subst w2.
  unfold only. rewrite D, lookup_alter_ne by done. by destruct (ad_rest _ _ _ _ _ Had) as (-> & _).
Qed.

Lemma forget_kept t' k' q : locate w t' k' = Some q -> (t', k') <> (t, k) ->
  exists p', locate w2 t' k' = Some p' /\ p_heir p' = p_heir q /\ p_mail p' = p_mail q /\
  (((t', k') ∉ ns) -> p' = q) /\ ((t', k') ∈ ns -> p_sire p' = Some parent /\ p_lord p' = Some lord).
Proof.
  intros Hq Hne. rewrite forget_locate, decide_False by naive_solver. rewrite Hq. case_bool_decide as Hin; simpl; eexists; split_and!; done.
Qed.

Lemma forget_token t' k' q : locate w t' k' = Some q -> (t', k') <> (t, k) -> k' <> k.
Proof. intros Hq Hne ->. apply Hne. f_equal. by eapply f_unique. Qed.

Lemma forget_grants : mails w2 = mails w /\ next w2 = next w /\ grants w2 = alter grant_invalidate k (grants w).
Proof.
  destruct (take_views t k p w1 (ad_tidy _ _ _ _ _ Had) forget_unique) as (_ & _ & _ & D & (_ & F1 & F2) & _). subst w2.
  rewrite D, F1, F2. by destruct (ad_rest _ _ _ _ _ Had) as (-> & -> & ->).
Qed.

(** The grants of the children of a pie owe to its giver what they owed to it. *)
Lemma forget_descends t' k' q p' : locate w t' k' = Some q -> locate w2 t' k' = Some p' ->
  exists g, grants w2 !! k' = Some g /\ descends w2 p' g.
Proof.
  intros Hq Hp'. destruct (forget_left _ _ _ Hp') as (q' & Hq' & Hne & _ & Hm & Htk & Hcase). assert (q' = q) as -> by congruence.
  pose proof (forget_token _ _ _ Hq Hne) as Hk. destruct forget_grants as (Fm & _ & Fg).
  destruct (f_grant w Hw _ _ _ Hq) as (g & Hg & A & B & C & D). exists g. rewrite Fg, lookup_alter_ne by done. split; [done|].
  split_and!; [done..|]. rewrite Fg, Fm, Hm, Htk. destruct Hcase as [[Hin ->]|(Hin & -> & _)].
  - destruct (p_sire q) as [s|] eqn:Hs; [|done]. destruct D as (gs & Hgs & D). exists gs. rewrite lookup_alter_ne; [done|].
    intros <-. apply Hin, Hns. destruct (forest_parent w _ _ _ _ Hw Hq Hs) as (l & q0 & _ & Hq0 & _ & _ & He).
    by assert (t = l) as -> by (eapply f_unique; eauto).
  - destruct (forget_child _ _ Hin) as (q0 & Hq0 & Hs0 & _ & _ & Hmp). assert (q0 = q) as -> by congruence. rewrite Hs0 in D.
    destruct D as (gk & Hgk & D1 & D2 & D3). destruct (f_grant w Hw _ _ _ Hp) as (gp & Hgp & _ & _ & _ & Dp).
    assert (gp = gk) as -> by congruence. rewrite Hsire in Dp. destruct Dp as (gs & Hgs & E1 & E2 & E3).
    destruct forget_parent as (pq & _ & _ & Hlt & _). exists gs. rewrite lookup_alter_ne by lia. split_and!; [done|congruence..|].
    eapply within_trans; [|exact D3]. by rewrite <- Hmp.
Qed.

Lemma forget_forest : forest w2.
Proof.
  destruct (take_views t k p w1 (ad_tidy _ _ _ _ _ Had) forget_unique) as (_ & _ & C & _). fold w2 in C.
  destruct forget_grants as (Fm & Fn & Fg). destruct forget_parent as (pq & Hpq & Hmq & Hlt & Heq & Hhq & Hoq).
  split.
  - done.
  - rewrite Fn. apply Hw.
  - rewrite Fn, Fg. intros j Hj. pose proof (f_token w Hw _ _ _ Hp). rewrite lookup_alter_ne by lia. by apply Hw.
  - intros t' k' p' (q & Hq & _)%forget_left. rewrite Fn. by eapply f_token.
  - intros t1 t2 k' p1 p2 (q1 & Hq1 & _)%forget_left (q2 & Hq2 & _)%forget_left. by eapply f_unique.
  - intros t' k' p' Hp'. destruct (forget_left _ _ _ Hp') as (q & Hq & Hne & _ & Hm & _ & [[Hin ->]|(Hin & -> & ->)]).
    + pose proof (f_sire w Hw _ _ _ Hq) as H. destruct (p_sire q) as [s|] eqn:Hs; [|done]. destruct H as (l & qs & Hl & Hqs & Hms & Hls & He).
      assert ((l, s) <> (t, k)) as Hnls by (intros [= -> ->]; by apply Hin, Hns).
      destruct (forget_kept _ _ _ Hqs Hnls) as (qs' & Hqs' & _ & Hms' & _). exists l, qs'. split_and!; [done..|congruence|done|].
      apply forget_heirs. left. split_and!; [done| |naive_solver]. intros (_ & _ & ->). exact (forget_token _ _ _ Hq Hne eq_refl).
    + destruct (forget_kept _ _ _ Hpq) as (q' & Hq' & _ & Hm' & _); [intros [= _ ?]; lia|].
      destruct (forget_child _ _ Hin) as (q0 & Hq0 & _ & _ & Hk & Hmp). exists lord, q'. split_and!; [done..|congruence|lia|].
      apply forget_heirs. by right.
  - intros l s c j [(He & H1 & H2)|(-> & -> & Hin)]%forget_heirs.
    + destruct (f_heirs w Hw _ _ _ _ He) as (q & Hq & Hs & Hl).
      assert ((c, j) <> (t, k)) as Hne by (intros [= -> ->]; apply H1; split_and!; congruence).
      destruct (forget_kept _ _ _ Hq Hne) as (q' & Hq' & _ & _ & Hsame & _). exists q.
      assert (q' = q) as ->; [|done]. apply Hsame.
      intros Hin. destruct (forget_child _ _ Hin) as (q0 & Hq0 & Hs0 & Hl0 & _). apply H2. split; congruence.
    + destruct (forget_child _ _ Hin) as (q0 & Hq0 & _). assert ((c, j) <> (t, k)) as Hne by (intros [= -> ->]; by apply forget_self).
      destruct (forget_kept _ _ _ Hq0 Hne) as (q' & Hq' & _ & _ & _ & Hch). exists q'. destruct (Hch Hin). done.
  - intros t' k' p' h Hp' Hh. destruct (forget_left _ _ _ Hp') as (q & Hq & Hne & Hhe & _). rewrite Hhe in Hh.
    destruct (f_heir w Hw _ _ _ _ Hq Hh) as (Ho & c & Hc & Hs & Hl). rewrite forget_only by (by eapply forget_token). split; [done|].
    assert ((h_task h, h_token h) <> (t, k)) as Hnh.
    { intros [= E1 E2]. rewrite E1, E2, Hp in Hc. injection Hc as <-. assert (k' = parent) as -> by congruence. congruence. }
    destruct (forget_kept _ _ _ Hc Hnh) as (c' & Hc' & _ & _ & Hsame & _). exists c.
    assert (c' = c) as ->; [|done]. apply Hsame.
    intros Hin. destruct (forget_child _ _ Hin) as (q0 & Hq0 & Hs0 & Hl0 & _). apply Hne. congruence.
  - intros t' k' p' c j q' Hp' Ho Hq' Hs. destruct (forget_left _ _ _ Hp') as (q & Hq & Hne & Hhe & _).
    rewrite forget_only in Ho by (by eapply forget_token). rewrite Hhe.
    destruct (forget_left _ _ _ Hq') as (c0 & Hc0 & _ & _ & _ & _ & [[Hin ->]|(Hin & Hs' & _)]); [by eapply f_only|].
    rewrite Hs' in Hs. injection Hs as <-. congruence.
  - intros t' k' p' Hp'. destruct (forget_left _ _ _ Hp') as (q & Hq & _). by eapply forget_descends.
Qed.
End forgetting.

(** The children of a pie, as [collect] finds them. *)
Definition children (w : World) (t k : Z) : list (Z * Z) := map (fun e => (e.1.2, e.2)) (heirs_at k (heirs_of w t)).

Lemma elem_of_children w t k c j : forest w -> (c, j) ∈ children w t k <-> (k, c, j) ∈ heirs_of w t.
Proof.
  intros Hw. destruct (tidy_heirs w t (f_tidy w Hw)) as [Hs _]. unfold children. rewrite list_elem_of_fmap. split.
  - intros ([[s c'] j'] & [= <- <-] & [He <-]%elem_of_heirs_at); done.
  - intros He. exists (k, c, j). split; [done|]. by apply elem_of_heirs_at.
Qed.

Lemma NoDup_children w t k : forest w -> NoDup (children w t k).
Proof.
  intros Hw. destruct (tidy_heirs w t (f_tidy w Hw)) as [Hs Hn]. unfold children. rewrite heirs_at_filter by done.
  apply NoDup_fmap_2_strong.
  - intros [[s c] j] [[s' c'] j'] [Ha Hsa]%list_elem_of_In%List.filter_In [Hb Hsb]%list_elem_of_In%List.filter_In [= -> ->].
    unfold source_of in *. simpl in *. f_equal. f_equal. lia.
  - eapply sublist_NoDup; [exact Hn|]. clear. induction (heirs_of w t) as [|e hs IH]; simpl; [done|]. case_match; by constructor.
Qed.

Lemma take_located t k p w : locate w t k = Some p -> pend_take t k w = (take_pie t k p w, Some p).
Proof. intros Hp. unfold pend_take. by rewrite Hp. Qed.

(** What [forget] leaves: the pie is gone, its children are its giver's. *)
Definition forgotten (w : World) (t k lord parent : Z) (w' : World) : Prop := forall t' k',
  locate w' t' k' = if decide (t = t' /\ k = k') then None
                    else if bool_decide ((t', k') ∈ children w t k) then set_parent parent lord <$> locate w t' k' else locate w t' k'.

Lemma forget_take w t k lord parent p :
  forest w -> locate w t k = Some p -> p_sire p = Some parent -> p_lord p = Some lord -> only w k = false ->
  exists w1, adopt_all lord parent (children w t k) w = Some w1 /\ locate w1 t k = Some p /\
  forest (take_pie t k p w1) /\ moves None w (take_pie t k p w1) /\ forgotten w t k lord parent (take_pie t k p w1) /\
  grants (take_pie t k p w1) = alter grant_invalidate k (grants w).
Proof.
  intros Hw Hp Hs Hl Ho. destruct (forget_parent w t k lord parent p Hw Hp Hs Hl Ho) as (q & Hq & _ & Hlt & _).
  assert (forall c j, (c, j) ∈ children w t k <-> (k, c, j) ∈ heirs_of w t) as Hns by (intros; by apply elem_of_children).
  destruct (adopt_all_adopted w lord parent (children w t k) [] w) as (w1 & Hall & Had & Hd).
  { split; [apply Hw|intros; by rewrite bool_decide_eq_false_2 by apply not_elem_of_nil| |done|done].
    intros l e. split; [by left|]. intros [|(_ & _ & He)]; [done|]. by apply not_elem_of_nil in He. }
  { rewrite app_nil_r. by apply NoDup_children. }
  { by eapply locate_task. }
  { intros [c j] Hin. destruct (forget_child w t k p (children w t k) Hw Hp Hns c j Hin) as (y & Hy & Hsy & _). split; [eauto|].
    simpl. intros He. destruct (f_heirs w Hw _ _ _ _ He) as (y' & Hy' & Hsy' & _). simplify_eq. lia. }
  rewrite app_nil_r in Had. exists w1. split; [done|].
  assert (locate w1 t k = Some p) as Hp1.
  { rewrite (ad_locate _ _ _ _ _ Had), bool_decide_eq_false_2; [done|]. by eapply forget_self. }
  split_and!; [done|by eapply forget_forest| |by intros t' k'; eapply forget_locate|by eapply forget_grants]. split_and!; [| |by eapply forget_grants].
  2: { apply attenuates_kept; [done|]. intros t' k' p' Hp'.
    destruct (forget_left w t k lord parent p (children w t k) w1 Hw Hp Hs Hl Ho Hns Had t' k' p' Hp') as (q' & Hq' & Hne & _ & Hm & _).
    exists q'. split_and!; [done..|]. destruct (forget_grants w t k lord parent p (children w t k) w1 Hw Hp Hs Hl Ho Hns Had) as (_ & _ & ->).
    apply lookup_alter_ne. intros <-. apply Hne. f_equal. by eapply (f_unique w Hw). }
  pose proof (Hd [] (dirty_refl w)) as Hd1. unfold take_pie.
  set (w2 := on_task t _ w1). set (w3 := on_grant k grant_invalidate w2).
  change (match p_sire p, p_lord p with Some parent, Some lord => _ | _, _ => w3 end) with (released t k p w3).
  apply (dirty_changed [t; t]); [intros x; rewrite !elem_of_cons; tauto|]. apply dirty_on_task; [done|].
  unfold released. rewrite Hs, Hl.
  assert (upgrade w3 lord = true) as ->.
  { change (upgrade w3 lord) with (upgrade w2 lord). subst w2. rewrite upgrade_on_task. apply upgrade_true.
    rewrite (ad_tasks _ _ _ _ _ Had). by eapply locate_task. }
  apply (dirty_changed [lord; lord; t; lord]); [intros x; rewrite !elem_of_cons; tauto|]. apply clear_heir_dirty, dirty_on_task; [done|].
  apply (dirty_same_tasks _ w w2); [done|]. by apply dirty_on_task.
Qed.

(** The section of [forget], once its nodes are known to be the children. *)
Lemma forget_commit_run room u spaces w t k :
  forest w -> u_nodes u !! 0%nat = Some (t, k) -> (unchanged w u = true -> drop 1 (u_nodes u) = children w t k) ->
  match forget_commit room u spaces w with
  | None => False
  | Some (Err _, w') => w' = w
  | Some (Ok p, w') => forest w' /\ moves None w w' /\ locate w t k = Some p /\ only w k = false /\
      exists lord parent, p_lord p = Some lord /\ p_sire p = Some parent /\ forgotten w t k lord parent w' /\
        grants w' = alter grant_invalidate k (grants w)
  end.
Proof.
  intros Hw Hu Hcl. unfold forget_commit, mbind, M_bind, get, fail. destruct (unchanged w u); cbn [negb]; [|done].
  specialize (Hcl eq_refl). unfold expect at 1. rewrite Hu. unfold lift at 1. destruct (locate w t k) as [p|] eqn:Hp; cbn [ok_or]; [|done].
  rewrite (permission_only w t k p Hw Hp). destruct (only w k) eqn:Ho; [done|].
  unfold lift at 1. destruct (p_sire p) as [parent|] eqn:Hs; cbn [ok_or]; [|done].
  unfold lift at 1. destruct (p_lord p) as [lord|] eqn:Hl; cbn [ok_or]; [|done].
  destruct (negb (upgrade w lord)); [done|]. unfold lift at 1. destruct (locate w lord parent) as [q|]; cbn [ok_or]; [|done].
  destruct (negb (live w lord) || negb (p_mail q =? p_mail p)); [done|].
  set (check := if m_alive _ then _ else _).
  assert (check w = Some (Ok tt, w) \/ exists e, check w = Some (Err e, w)) as [->|[e ->]]; [|simpl|done].
  { subst check. destruct (m_alive _); [|by left]. destruct (negb _); [by right; eexists|]. destruct (forallb _ _); [by left|by right; eexists]. }
  destruct room; cbn [negb]; [|done]. unfold lift. destruct (if is_pole w p && _ then spaces else Ok tt) as [[]|e]; [|done].
  destruct (forget_take w t k lord parent p Hw Hp Hs Hl Ho) as (w1 & Hall & Hp1 & Hf & Hv & Hg & Hgr).
  rewrite Hcl. unfold expect at 1. rewrite Hall, (take_located t k p w1 Hp1). unfold put, expect.
  split_and!; try done. eauto 10.
Qed.
