(* ===== verification/PendHunt.v ===== *)
(** * The search for a subtree, undisturbed or not

    A search takes one lock at a time, so the ledger may change under it.  What
    it found is used only when every task it saw is as it was when first seen,
    or when the relations still hold; either way it found the whole subtree
    and nothing else. *)

From S2P Require Import Prelude Pend PendTables PendInv PendSteps PendCull.
From stdpp Require Import sorting.

Open Scope Z_scope.

(** ** The pies under a pie *)

Inductive under (w : World) (t k : Z) : Z -> Z -> Prop :=
| under_self : under w t k t k
| under_step l s c j : under w t k l s -> (s, c, j) ∈ heirs_of w l -> under w t k c j.

(** Every pie of the list but the first was given by one of the list. *)
Definition rooted (w : World) (ns : list (Z * Z)) : Prop :=
  forall n, n ∈ drop 1 ns -> exists m, m ∈ ns /\ (m.2, n.1, n.2) ∈ heirs_of w m.1.

Lemma closed_under w ns t k c j : closed w ns -> (t, k) ∈ ns -> under w t k c j -> (c, j) ∈ ns.
Proof. intros [_ Hcl] Hin H. induction H as [|l s c j H IH He]; [done|]. by eapply Hcl. Qed.

Lemma elem_of_head {A} (l : list A) x n : l !! 0%nat = Some x -> n ∈ l -> n = x \/ n ∈ drop 1 l.
Proof. destruct l as [|y l]; [done|]. simpl. rewrite drop_0. intros [= ->] [->|]%elem_of_cons; auto. Qed.

Lemma rooted_under w ns t k : forest w -> rooted w ns -> ns !! 0%nat = Some (t, k) -> forall c j, (c, j) ∈ ns -> under w t k c j.
Proof.
  intros Hw Hr H0. assert (forall n : nat, forall c j, Z.to_nat j = n -> (c, j) ∈ ns -> under w t k c j) as H; [|eauto].
  intros n. induction n as [n IH] using lt_wf_ind. intros c j Hj Hin.
  destruct (elem_of_head ns _ _ H0 Hin) as [[= -> ->]|Htl]; [constructor|].
  destruct (Hr _ Htl) as ([l s] & Hm & He). simpl in He. eapply under_step; [|exact He].
  destruct (f_heirs w Hw _ _ _ _ He) as (p & Hp & Hs & _). destruct (forest_parent w _ _ _ _ Hw Hp Hs) as (l' & q & _ & Hq & _ & Hlt & _).
  pose proof (f_token w Hw _ _ _ Hq). apply (IH (Z.to_nat s)); [lia|done|done].
Qed.

(** ** The check of the relations *)

Lemma relations_match_true w u :
  relations_match w u = true -> forall i n, u_nodes u !! i = Some n -> node_match w u i n = true.
Proof.
  unfold relations_match. rewrite List.forallb_forall. intros H i n Hi. apply H, list_elem_of_In.
  apply elem_of_lookup_imap. eauto.
Qed.

Lemma node_match_true w u i n :
  forest w -> node_match w u i n = true ->
  exists p, locate w n.1 n.2 = Some p /\
  (forall c j, (n.2, c, j) ∈ heirs_of w n.1 -> (c, j) ∈ drop 1 (u_nodes u)) /\
  (i <> O -> exists m, m ∈ u_nodes u /\ (m.2, n.1, n.2) ∈ heirs_of w m.1) /\
  (i = O -> forall l, p_lord p = Some l -> exists v, (l, v) ∈ u_tasks u).
Proof.
  intros Hw. unfold node_match. destruct (locate w n.1 n.2) as [p|] eqn:Hp; [|done]. rewrite andb_true_iff. intros [Hup Hdn].
  exists p. split; [done|]. split; [|split].
  - intros c j He. rewrite List.forallb_forall in Hdn. specialize (Hdn (n.2, c, j)). simpl in Hdn.
    destruct (tidy_heirs w n.1 (f_tidy w Hw)) as [Hs _].
    specialize (Hdn ltac:(by apply list_elem_of_In, elem_of_heirs_at)).
    destruct (f_heirs w Hw _ _ _ _ He) as (q & Hq & _). pose proof (locate_task _ _ _ _ Hq) as Hc%upgrade_true. rewrite Hc in Hdn. simpl in Hdn.
    apply any_true in Hdn as ([c' j'] & Hin & Hb). simpl in Hb. assert ((c', j') = (c, j)) as [= -> ->] by (f_equal; lia). done.
  - intros Hi. destruct (p_sire p) as [s|] eqn:Hs; [|rewrite bool_decide_eq_false_2 in Hup by done; done].
    destruct (p_lord p) as [l|]; [|done]. rewrite !andb_true_iff, bool_decide_eq_false_2 in Hup by done. destruct Hup as [[_ Hm] He].
    apply any_true in Hm as ([t' s'] & Hin & Hb). simpl in Hb. assert ((t', s') = (l, s)) as [= -> ->] by (f_equal; lia).
    exists (l, s). split; [done|]. apply any_true in He as ([[s' c'] j'] & He & Hb'). unfold source_of in Hb'. simpl in *.
    assert ((s', c', j') = (s, n.1, n.2)) as [= -> -> ->] by (repeat f_equal; lia). done.
  - intros -> l Hl. rewrite Hl in Hup. destruct (p_sire p) as [s|] eqn:Hs.
    + rewrite !andb_true_iff, bool_decide_eq_true_2 in Hup by done. destruct Hup as [[_ Hm] _].
      apply any_true in Hm as ([l' v] & Hin & Hb). simpl in Hb. exists v. by replace l with l' by lia.
    + pose proof (f_sire w Hw _ _ _ Hp) as Hno. rewrite Hs in Hno. congruence.
Qed.

Lemma matched w u : forest w -> relations_match w u = true -> closed w (u_nodes u) /\ rooted w (u_nodes u).
Proof.
  intros Hw Hm. pose proof (relations_match_true w u Hm) as Hn. split; [split|].
  - intros t k [i Hi]%list_elem_of_lookup. destruct (node_match_true w u i _ Hw (Hn i _ Hi)) as (p & Hp & _). eauto.
  - intros l s c j [i Hi]%list_elem_of_lookup He. destruct (node_match_true w u i _ Hw (Hn i _ Hi)) as (p & _ & Hd & _).
    pose proof (Hd c j He) as Hin. rewrite <- (take_drop 1 (u_nodes u)). apply elem_of_app. by right.
  - intros n [i Hi]%list_elem_of_lookup. rewrite lookup_drop in Hi.
    destruct (node_match_true w u _ _ Hw (Hn _ _ Hi)) as (p & _ & _ & Hp & _). apply Hp. lia.
Qed.

(** ** What a search knows *)

Definition sees (w : World) (u : Hunt) (t : Z) (P : Prop) : Prop :=
  exists v, (t, v) ∈ u_tasks u /\ (version_is w (t, v) = true -> P).

(** Every task noted is still kept, at its version or a later one; what was
    read from a task holds as long as it is at its version. *)
Record snapshot (w : World) (u : Hunt) : Prop := mkSnapshot {
  s_start : u_cursor u = O -> exists n, u_nodes u = [n];
  s_root : exists n, u_nodes u !! 0%nat = Some n;
  s_tasks : forall t v, (t, v) ∈ u_tasks u -> exists r, tasks w !! t = Some r /\ v <= t_version r;
  s_seen : forall i t k, (i < u_cursor u)%nat -> u_nodes u !! i = Some (t, k) ->
    sees w u t (is_Some (locate w t k) /\
      (i = O \/ u_recursive u = true -> forall c j, (k, c, j) ∈ heirs_of w t -> (c, j) ∈ drop 1 (u_nodes u)));
  s_from : forall c j, (c, j) ∈ drop 1 (u_nodes u) ->
    exists l s, (l, s) ∈ u_nodes u /\ sees w u l ((s, c, j) ∈ heirs_of w l);
  s_flat : u_recursive u = false -> u_cursor u <> O -> forall t k, u_nodes u !! 0%nat = Some (t, k) ->
    sees w u t (drop 1 (u_nodes u) = children w t k);
  s_lord : u_cursor u <> O -> forall t k, u_nodes u !! 0%nat = Some (t, k) ->
    sees w u t (forall p l, locate w t k = Some p -> p_lord p = Some l -> l ∈ map fst (u_tasks u) \/ u_parent u = Some l)
}.

Lemma snapshot_start w recursive t k : snapshot w (hunt_start recursive t k).
Proof. split; simpl; try done; eauto; intros; try lia; by apply not_elem_of_nil in H. Qed.

(** Other sections that run meanwhile do not invalidate it. *)
Definition steady (w : World) (u : Hunt) (w' : World) : Prop := forall t v r, (t, v) ∈ u_tasks u -> tasks w !! t = Some r ->
  exists r', tasks w' !! t = Some r' /\ (r' = r \/ t_version r < t_version r').

Lemma versioned_steady w u w' : versioned w w' -> steady w u w'.
Proof. intros H t v r _ Hr. destruct (H t r Hr) as (r' & Hr' & _ & [Hd|Hd]); [by apply not_elem_of_nil in Hd|]. eauto. Qed.

Lemma sees_mono w u w' u' t (P P' : Prop) :
  (forall t v, (t, v) ∈ u_tasks u -> exists r, tasks w !! t = Some r /\ v <= t_version r) -> steady w u w' ->
  (forall e, e ∈ u_tasks u -> e ∈ u_tasks u') -> (tasks w' !! t = tasks w !! t -> P -> P') -> sees w u t P -> sees w' u' t P'.
Proof.
  intros Ht Hst Hsub Hm (v & Hin & HP). exists v. split; [auto|]. unfold version_is in *. simpl in *.
  destruct (Ht t v Hin) as (r & Hr & Hle). destruct (Hst t v r Hin Hr) as (r' & Hr' & Hc). rewrite Hr in HP. rewrite Hr', Hr in *.
  intros Hv. destruct Hc as [->|Hlt]; [|lia]. auto.
Qed.

Lemma same_task w w' t : tasks w' !! t = tasks w !! t ->
  (forall k, locate w' t k = locate w t k) /\ heirs_of w' t = heirs_of w t /\ (forall k, children w' t k = children w t k).
Proof. intros H. unfold locate, children, pies_of, heirs_of. by rewrite H. Qed.

Lemma snapshot_steady w u w' : snapshot w u -> steady w u w' -> snapshot w' u.
Proof.
  intros [A B C D E F G] Hst. split; try done.
  - intros t v Hin. destruct (C t v Hin) as (r & Hr & Hle). destruct (Hst t v r Hin Hr) as (r' & Hr' & Hc).
    exists r'. split; [done|]. destruct Hc as [->|]; lia.
  - intros i t k Hi Hn. eapply sees_mono; [done..|eauto| |by eapply D]. intros (HL & HH & _)%same_task. by rewrite HL, HH.
  - intros c j Hin. destruct (E c j Hin) as (l & s & Hm & Hs). exists l, s. split; [done|].
    eapply sees_mono; [done..|eauto| |done]. intros (_ & -> & _)%same_task. done.
  - intros Hr Hc t k Hn. eapply sees_mono; [done..|eauto| |by eapply F]. by intros (_ & _ & ->)%same_task.
  - intros Hc t k Hn. eapply sees_mono; [done..|eauto| |by eapply G]. intros (HL & _)%same_task. by rewrite HL.
Qed.

(** *** Noting a task *)

Lemma observe_incl ts t v e : e ∈ ts -> e ∈ observe ts t v.
Proof. intros H. unfold observe. case_match; [done|]. apply elem_of_app. by left. Qed.

Lemma observe_noted ts t v : exists v', (t, v') ∈ observe ts t v.
Proof.
  unfold observe. destruct (any _ ts) eqn:Ha.
  - apply any_true in Ha as ([t' v'] & Hin & Ht). simpl in Ht. exists v'. by replace t with t' by lia.
  - exists v. apply elem_of_app. right. by apply list_elem_of_singleton.
Qed.

Lemma observe_inv ts t v t' v' : (t', v') ∈ observe ts t v -> (t', v') ∈ ts \/ (t', v') = (t, v).
Proof. unfold observe. case_match; [by left|]. rewrite elem_of_app, list_elem_of_singleton. tauto. Qed.

(** What is read now is seen. *)
Lemma sees_now w u t (P : Prop) : t ∈ map fst (u_tasks u) -> P -> sees w u t P.
Proof. intros ([t' v] & -> & Hin)%list_elem_of_fmap HP. exists v. done. Qed.

Lemma observe_keys ts t v : t ∈ map fst (observe ts t v).
Proof. destruct (observe_noted ts t v) as [v' Hin]. apply list_elem_of_fmap. by exists (t, v'). Qed.

Lemma observe_tasks (w : World) ts t r :
  tasks w !! t = Some r -> (forall t v, (t, v) ∈ ts -> exists r, tasks w !! t = Some r /\ v <= t_version r) ->
  forall t' v, (t', v) ∈ observe ts t (t_version r) -> exists r, tasks w !! t' = Some r /\ v <= t_version r.
Proof. intros Hr Hts t' v [H|[= -> ->]]%observe_inv; [auto|]. exists r. split; [done|lia]. Qed.

Lemma steady_refl w u : steady w u w.
Proof. apply versioned_steady, dirty_refl. Qed.

Lemma snapshot_observe w u t : snapshot w u -> snapshot w (hunt_observe w t u).
Proof.
  intros Hs. unfold hunt_observe. destruct (tasks w !! t) as [r|] eqn:Hr; [|done]. destruct Hs as [A B C D E F G].
  assert (forall t' (P : Prop), sees w u t' P -> sees w (mkHunt (u_recursive u) (observe (u_tasks u) t (t_version r)) (u_nodes u) (u_cursor u)
    (if bool_decide (u_parent u = Some t) then None else u_parent u)) t' P) as Hm.
  { intros t' P. apply sees_mono; [done|apply steady_refl| |done]. intros e. apply observe_incl. }
  split; simpl; try done.
  - by apply observe_tasks.
  - intros i t' k Hi Hn. by eapply Hm, D.
  - intros c j Hin. destruct (E c j Hin) as (l & s & Hl & Hsee). eauto.
  - intros Hrec Hc t' k Hn. by apply Hm, F.
  - intros Hc t' k Hn. apply Hm. destruct (G Hc t' k Hn) as (v & Hv & HG). exists v. split; [done|]. intros Hver p l Hp Hl.
    destruct (HG Hver p l Hp Hl) as [Hin|Hpar].
    + left. apply list_elem_of_fmap in Hin as (e & -> & He). apply list_elem_of_fmap. exists e. split; [done|]. by apply observe_incl.
    + case_bool_decide as Hb; [|by right]. left. assert (l = t) as -> by congruence. apply observe_keys.
Qed.

(** *** Visiting a pie *)

Lemma found_children w t k r :
  forest w -> tasks w !! t = Some r ->
  List.filter (fun n : Z * Z => upgrade w n.1) (map (fun e : Z * Z * Z => (e.1.2, e.2)) (heirs_at k (t_heirs r))) = children w t k.
Proof.
  intros Hw Hr. assert (t_heirs r = heirs_of w t) as -> by (unfold heirs_of; by rewrite Hr).
  change (map _ _) with (children w t k). apply List.forallb_filter_id, List.forallb_forall.
  intros [c j] Hin%list_elem_of_In%elem_of_children; [|done].
  destruct (f_heirs w Hw _ _ _ _ Hin) as (p & Hp & _). by apply upgrade_true, (locate_task _ _ _ _ Hp).
Qed.

Lemma drop_1_app {A} (x : A) l1 l2 : l1 !! 0%nat = Some x -> drop 1 (l1 ++ l2) = drop 1 l1 ++ l2.
Proof. destruct l1; [done|]. simpl. by rewrite !drop_0. Qed.

Lemma snapshot_visit w u u' : forest w -> snapshot w u -> u_parent u = None -> hunt_visit w u = Ok u' -> snapshot w u'.
Proof.
  intros Hw Hs Hpar. unfold hunt_visit. destruct (u_nodes u !! u_cursor u) as [[t k]|] eqn:Hn; [|by intros [= <-]].
  destruct (tasks w !! t) as [r|] eqn:Hr; [|done]. destruct (locate w t k) as [pie|] eqn:Hp; [|done].
  simpl. rewrite (found_children w t k r Hw Hr). intros [= <-]. destruct Hs as [A B C D E F G]. destruct B as [n0 Hn0].
  set (found := if bool_decide (u_cursor u = O) || u_recursive u then children w t k else []).
  set (par := if bool_decide (u_cursor u = O) then l ← p_lord pie; if upgrade w l then Some l else None else None). set (u' := mkHunt _ _ _ _ par).
  assert (forall t' (P : Prop), sees w u t' P -> sees w u' t' P) as Hm.
  { intros t' P. apply sees_mono; [done|apply steady_refl| |done]. intros e. apply observe_incl. }
  assert (t ∈ map fst (u_tasks u')) as Hk by apply observe_keys.
  assert (drop 1 (u_nodes u') = drop 1 (u_nodes u) ++ found) as Hdrop by by apply (drop_1_app n0).
  assert (forall i n, u_nodes u !! i = Some n -> u_nodes u' !! i = Some n) as Hlk by (intros; by apply lookup_app_l_Some).
  assert (forall i n, (i < S (u_cursor u))%nat -> u_nodes u' !! i = Some n -> u_nodes u !! i = Some n) as Hkl.
  { intros i n Hi Hin. simpl in Hin. rewrite lookup_app_l in Hin; [done|]. apply lookup_lt_Some in Hn. lia. }
  split.
  - done.
  - eauto.
  - by apply observe_tasks.
  - intros i t' k' Hi Hin%Hkl; [|done]. rewrite Hdrop. cbn [u_recursive u']. destruct (decide (i = u_cursor u)) as [->|Hne].
    + assert ((t', k') = (t, k)) as [= -> ->] by congruence. apply sees_now; [done|]. split; [eauto|]. intros Hor c j He.
      apply elem_of_app. right. subst found. rewrite (proj2 (orb_true_iff _ _)); [by apply elem_of_children|].
      destruct Hor as [->|Hrec]; [left; by apply bool_decide_eq_true_2|by right].
    + apply Hm. simpl in Hi. destruct (D i t' k' ltac:(lia) Hin) as (v & Hv & HD). exists v. split; [done|]. intros Hver.
      destruct (HD Hver) as [HL HH]. split; [done|]. intros Hor c j He. apply elem_of_app. left. by apply HH.
  - intros c j. rewrite Hdrop, elem_of_app. intros [Hin|Hin].
    + destruct (E c j Hin) as (l & s & Hl & Hsee). exists l, s. split; [|by apply Hm]. simpl. apply elem_of_app. by left.
    + exists t, k. split; [apply elem_of_app; left; by eapply list_elem_of_lookup_2|]. apply sees_now; [done|].
      subst found. case_match; [by apply elem_of_children|by apply not_elem_of_nil in Hin].
  - simpl. intros Hrec _ t' k' Hin%Hkl; [|lia]. change (drop 1 _) with (drop 1 (u_nodes u')). rewrite Hdrop.
    destruct (decide (u_cursor u = O)) as [Hc|Hc].
    + assert ((t', k') = (t, k)) as [= -> ->] by congruence. apply sees_now; [done|]. subst found.
      rewrite bool_decide_eq_true_2 by done. destruct (A Hc) as [n ->]. done.
    + apply Hm. subst found. rewrite bool_decide_eq_false_2, Hrec by done. simpl. rewrite app_nil_r. by apply F.
  - intros _ t' k' Hin%Hkl; [|lia]. destruct (decide (u_cursor u = O)) as [Hc|Hc].
    + assert ((t', k') = (t, k)) as [= -> ->] by congruence. apply sees_now; [done|]. intros p l Hp' Hl. right. simpl. subst par.
      rewrite bool_decide_eq_true_2 by done. assert (p = pie) as -> by congruence. rewrite Hl. simpl.
      pose proof (f_sire w Hw _ _ _ Hp) as Hsire. destruct (p_sire pie); [|congruence].
      destruct Hsire as (l' & q & Hl' & Hq & _). assert (l' = l) as -> by congruence.
      by rewrite (proj2 (upgrade_true w l) (locate_task _ _ _ _ Hq)).
    + apply Hm. destruct (G Hc t' k' Hin) as (v & Hv & HG). exists v. split; [done|]. intros Hver p l Hp' Hl.
      destruct (HG Hver p l Hp' Hl) as [Hi|Hi]; [|congruence]. left. apply list_elem_of_fmap in Hi as (e & -> & He).
      apply list_elem_of_fmap. exists e. split; [done|]. by apply observe_incl.
Qed.

(** ** What a finished search found *)

Lemma unchanged_true w u t (P : Prop) : unchanged w u = true -> sees w u t P -> P.
Proof. unfold unchanged. rewrite List.forallb_forall. intros H (v & Hin & HP). apply HP, H. by apply list_elem_of_In. Qed.

Lemma hunt_found w u :
  forest w -> snapshot w u -> hunt_done u = true -> u_recursive u = true -> (unchanged w u || relations_match w u) = true ->
  closed w (u_nodes u) /\ rooted w (u_nodes u).
Proof.
  intros Hw Hs Hd Hrec [Hun|Hm]%orb_true_iff; [|by apply matched]. apply bool_decide_eq_true in Hd as [Hc _].
  pose proof (s_root w u Hs) as [n0 H0].
  assert (forall i t k, u_nodes u !! i = Some (t, k) -> is_Some (locate w t k) /\
    forall c j, (k, c, j) ∈ heirs_of w t -> (c, j) ∈ drop 1 (u_nodes u)) as Hseen.
  { intros i t k Hi. pose proof (lookup_lt_Some _ _ _ Hi) as Hlt. rewrite <- Hc in Hlt.
    destruct (unchanged_true w u t _ Hun (s_seen w u Hs i t k Hlt Hi)) as [HL HH]. auto. }
  split; [split|].
  - intros t k [i Hi]%list_elem_of_lookup. by destruct (Hseen i t k Hi).
  - intros l s c j [i Hi]%list_elem_of_lookup He. destruct (Hseen i l s Hi) as [_ HH]. specialize (HH c j He).
    rewrite <- (take_drop 1 (u_nodes u)). apply elem_of_app. by right.
  - intros [c j] Hin. destruct (s_from w u Hs c j Hin) as (l & s & Hl & Hsee). exists (l, s). split; [done|].
    by apply (unchanged_true w u l _ Hun Hsee).
Qed.

Lemma hunt_children w u t k :
  snapshot w u -> hunt_done u = true -> u_recursive u = false -> u_nodes u !! 0%nat = Some (t, k) -> unchanged w u = true ->
  drop 1 (u_nodes u) = children w t k.
Proof.
  intros Hs Hd Hrec H0 Hun. apply bool_decide_eq_true in Hd as [Hc _].
  assert (u_cursor u <> O) as Hne by (pose proof (lookup_lt_Some _ _ _ H0); lia).
  exact (unchanged_true w u t _ Hun (s_flat w u Hs Hrec Hne t k H0)).
Qed.

(** The giver of the first pie is among the tasks that are locked. *)
Lemma hunt_lord w u t k p l :
  forest w -> snapshot w u -> hunt_done u = true -> (unchanged w u || relations_match w u) = true ->
  u_nodes u !! 0%nat = Some (t, k) -> locate w t k = Some p -> p_lord p = Some l -> l ∈ map fst (u_tasks u).
Proof.
  intros Hw Hs Hd Hok H0 Hp Hl. apply bool_decide_eq_true in Hd as [Hc Hpar].
  assert (u_cursor u <> O) as Hne by (pose proof (lookup_lt_Some _ _ _ H0); lia).
  apply orb_true_iff in Hok as [Hun|Hm].
  - destruct (unchanged_true w u t _ Hun (s_lord w u Hs Hne t k H0) p l Hp Hl) as [|Hx]; [done|congruence].
  - destruct (node_match_true w u 0 _ Hw (relations_match_true w u Hm 0%nat _ H0)) as (q & Hq & _ & _ & HL).
    assert (q = p) as -> by (simpl in Hq; congruence). destruct (HL eq_refl l Hl) as [v Hv]. apply list_elem_of_fmap. by exists (l, v).
Qed.

Lemma hunt_holders w u : snapshot w u -> hunt_done u = true -> forall t k, (t, k) ∈ u_nodes u -> t ∈ map fst (u_tasks u).
Proof.
  intros Hs Hd t k [i Hi]%list_elem_of_lookup. apply bool_decide_eq_true in Hd as [Hc _].
  pose proof (lookup_lt_Some _ _ _ Hi) as Hlt. rewrite <- Hc in Hlt. destruct (s_seen w u Hs i t k Hlt Hi) as (v & Hv & _).
  apply list_elem_of_fmap. by exists (t, v).
Qed.
