(* ===== verification/PendSystem.v ===== *)
(** * The ledger in use

    The operations and the searches of all tasks interleave: each critical
    section is one step, and between two visits of a search anything may
    happen.  Around the ledger, tasks come and go and the mails change. *)

From S2P Require Import Prelude Pend PendTables PendInv PendSteps PendCull PendHunt.
From stdpp Require Import sorting.

Open Scope Z_scope.

Record Config := mkConfig { c_world : World; c_hunts : gmap nat Hunt }.

(** The operations that are one section each; what [reduce] looks at before its
    section it looks at again inside. *)
Inductive action :=
| A_insert (room room' : bool) (t mail mark bits : Z)
| A_publish (rooms : bool * bool * bool) (caller src target subset mark : Z) (requested : option (Z * Z))
| A_reduce (t k subset : Z)
| A_clear (t k : Z) (expected : Heir)
| A_reap (t k : Z) (maps : bool).

Definition perform (a : action) : L unit :=
  match a with
  | A_insert room room' t mail mark bits => pend_insert room room' t mail mark bits ;; mret tt
  | A_publish rooms caller src target subset mark requested => publish rooms caller src target subset mark requested ;; mret tt
  | A_reduce t k subset => reduce_commit t k subset
  | A_clear t k expected => clear_heir t k expected ;; mret tt
  | A_reap t k maps => reap t k maps ;; mret tt
  end.

(** A new resource comes with some permission and is put in a task that
    somebody keeps. *)
Definition permitted (w : World) (a : action) : bool :=
  match a with A_insert _ _ t _ _ bits => upgrade w t && negb (bits =? 0) | _ => true end.

Definition mints (a : action) : option Z := match a with A_insert _ _ _ mail _ _ => Some mail | _ => None end.

(** A search keeps the tasks it noted and the tasks of the pies it found. *)
Definition keeps (u : Hunt) (t : Z) : bool := any (fun e => e.1 =? t) (u_tasks u) || any (fun n => n.1 =? t) (u_nodes u).

(** [step fresh c c']: [fresh] is the mail the step makes a first pie for. *)
Inductive step : option Z -> Config -> Config -> Prop :=
| step_action a w hs r w' : permitted w a = true -> perform a w = Some (r, w') -> step (mints a) (mkConfig w hs) (mkConfig w' hs)
| step_around w hs dead' mails' : (forall m, m_pages (mails' m) = m_pages (mails w m)) ->
    step None (mkConfig w hs) (mkConfig (mkWorld (tasks w) dead' (grants w) mails' (next w)) hs)
| step_spawn w hs t : tasks w !! t = None -> step None (mkConfig w hs) (mkConfig (set_tasks (<[t := Pend_new]> (tasks w)) w) hs)
| step_gone w hs t : pies_of w t = [] -> (forall i u, hs !! i = Some u -> keeps u t = false) ->
    step None (mkConfig w hs) (mkConfig (set_tasks (delete t (tasks w)) w) hs)
| step_start w hs i recursive t k : step None (mkConfig w hs) (mkConfig w (<[i := hunt_start recursive t k]> hs))
| step_visit w hs i u u' : hs !! i = Some u -> u_parent u = None -> hunt_visit w u = Ok u' -> step None (mkConfig w hs) (mkConfig w (<[i := u']> hs))
| step_observe w hs i u t : hs !! i = Some u -> step None (mkConfig w hs) (mkConfig w (<[i := hunt_observe w t u]> hs))
| step_abort w hs i : step None (mkConfig w hs) (mkConfig w (delete i hs))
| step_cull w hs i u room caller closing r w' : hs !! i = Some u -> u_recursive u = true -> hunt_done u = true ->
    cull_commit room u caller closing w = Some (r, w') -> step None (mkConfig w hs) (mkConfig w' (delete i hs))
| step_forget w hs i u room spaces r w' : hs !! i = Some u -> u_recursive u = false -> hunt_done u = true ->
    forget_commit room u spaces w = Some (r, w') -> step None (mkConfig w hs) (mkConfig w' (delete i hs)).

Inductive steps : list (option Z) -> Config -> Config -> Prop :=
| steps_refl c : steps [] c c
| steps_step f fs c1 c2 c3 : step f c1 c2 -> steps fs c2 c3 -> steps (f :: fs) c1 c3.

Definition initial (around : Z -> Mail) : Config := mkConfig (mkWorld ∅ ∅ ∅ around 1) ∅.

Definition reachable (c : Config) : Prop := exists around fs, steps fs (initial around) c.

(** ** The invariant *)

Record invariant (c : Config) : Prop := mkInvariant {
  i_forest : forest (c_world c);
  i_hunts : forall i u, c_hunts c !! i = Some u -> snapshot (c_world c) u
}.

Lemma invariant_initial around : invariant (initial around).
Proof.
  split; [|done]. split; simpl; try done.
  - intros l s c k H. by apply not_elem_of_nil in H.
Qed.

Lemma good_perform a w : forest w -> permitted w a = true ->
  match perform a w with Some (_, w') => forest w' /\ moves (mints a) w w' | None => usize_MAX <= next w end.
Proof.
  intros Hw Hok. destruct a; simpl in *; unfold mbind, M_bind.
  - apply andb_true_iff in Hok as [Ht Hb]. pose proof (good_insert room room' t mail mark bits ltac:(lia) w Hw (proj1 (upgrade_true _ _) Ht)) as H.
    by destruct (pend_insert _ _ _ _ _ _ w) as [[[] ?]|].
  - pose proof (good_publish rooms caller src target subset mark requested w Hw) as H. by destruct (publish _ _ _ _ _ _ _ w) as [[[] ?]|].
  - exact (good_reduce_commit t k subset w Hw).
  - rewrite clear_heir_same by done. split; [done|]. by apply moves_refl.
  - pose proof (good_reap t k maps w Hw) as H. by destruct (reap t k maps w) as [[[] ?]|].
Qed.

Lemma forest_spawn w t : forest w -> tasks w !! t = None -> forest (set_tasks (<[t := Pend_new]> (tasks w)) w).
Proof.
  intros Hw Ht. apply forest_tables; [done| | |].
  - intros t' r. simpl. destruct (decide (t = t')) as [<-|Hne]; [rewrite lookup_insert_eq|rewrite lookup_insert_ne by done; apply (f_tidy w Hw)].
    intros [= <-]. split_and!; constructor.
  - intros t' k. unfold locate, pies_of. simpl. destruct (decide (t = t')) as [<-|Hne]; [by rewrite lookup_insert_eq, Ht|by rewrite lookup_insert_ne].
  - intros t'. unfold heirs_of. simpl. destruct (decide (t = t')) as [<-|Hne]; [by rewrite lookup_insert_eq, Ht|by rewrite lookup_insert_ne].
Qed.

(** A task without pies has no entries either. *)
Lemma no_pies_no_heirs w t : forest w -> pies_of w t = [] -> heirs_of w t = [].
Proof.
  intros Hw Hp. destruct (heirs_of w t) as [|[[s c] k] hs] eqn:Hh; [done|].
  assert ((s, c, k) ∈ heirs_of w t) as He by (rewrite Hh; left).
  destruct (f_heirs w Hw _ _ _ _ He) as (p & Hpp & Hs & Hl). destruct (forest_parent w _ _ _ _ Hw Hpp Hs) as (l & q & Hl' & Hq & _).
  assert (l = t) as -> by congruence. unfold locate in Hq. by rewrite Hp in Hq.
Qed.

Lemma forest_gone w t : forest w -> pies_of w t = [] -> forest (set_tasks (delete t (tasks w)) w).
Proof.
  intros Hw Hp. pose proof (no_pies_no_heirs w t Hw Hp) as Hh. apply forest_tables; [done| | |].
  - intros t' r; simpl; intros [_ Hr]%lookup_delete_Some. by apply (f_tidy w Hw t').
  - intros t' k. unfold locate. destruct (decide (t = t')) as [<-|Hne]; [rewrite Hp|]; unfold pies_of; simpl; [by rewrite lookup_delete_eq|by rewrite lookup_delete_ne].
  - intros t'. destruct (decide (t = t')) as [<-|Hne]; [rewrite Hh|]; unfold heirs_of; simpl; [by rewrite lookup_delete_eq|by rewrite lookup_delete_ne].
Qed.

Lemma steady_gone w u t : keeps u t = false -> steady w u (set_tasks (delete t (tasks w)) w).
Proof.
  intros [Hk _]%orb_false_iff t' v r Hin Hr. apply any_false in Hk. rewrite Forall_forall in Hk. specialize (Hk _ Hin). simpl in *.
  exists r. split; [by rewrite lookup_delete_ne by lia|by left].
Qed.

Lemma steady_spawn w u t : tasks w !! t = None -> steady w u (set_tasks (<[t := Pend_new]> (tasks w)) w).
Proof. intros Ht t' v r Hin Hr. exists r. split; [|by left]. simpl. rewrite lookup_insert_ne by congruence. done. Qed.

(** Searches other than the one that changed. *)
Lemma hunts_insert w (hs : gmap nat Hunt) i u' : (forall j u, hs !! j = Some u -> snapshot w u) -> snapshot w u' -> forall j u, <[i := u']> hs !! j = Some u -> snapshot w u.
Proof. intros H Hu j u [[_ <-]|[_ Hj]]%lookup_insert_Some; [done|by eapply H]. Qed.

Lemma hunts_delete w w' (hs : gmap nat Hunt) i :
  (forall j u, hs !! j = Some u -> snapshot w u) -> (forall u, steady w u w') -> forall j u, delete i hs !! j = Some u -> snapshot w' u.
Proof. intros H Hst j u [_ Hj]%lookup_delete_Some. eapply snapshot_steady; [by eapply H|done]. Qed.

(** What a step of the ledger itself does. *)
Lemma step_moves f c c' : invariant c -> step f c c' -> invariant c' /\ attenuates f (c_world c) (c_world c') /\
  forall m, m_pages (mails (c_world c') m) = m_pages (mails (c_world c) m).
Proof.
  intros [Hw Hhs] Hs. destruct Hs as [a w hs r w' Hok Hrun|w hs dead' mails' Hpg|w hs t Ht|w hs t Hp Hk|w hs i rec t k|w hs i u u' Hi Hpar Hv|w hs i u t Hi|w hs i|w hs i u room caller closing r w' Hi Hrec Hd Hrun|w hs i u room spaces r w' Hi Hrec Hd Hrun]; simpl in *;
  pose proof (moves_refl w Hw) as (Hr1 & Hr2 & _).
  - pose proof (good_perform a w Hw Hok) as H. rewrite Hrun in H. destruct H as (Hf & Hv & Ha & Hm). rewrite Hm. split_and!; try done.
    split; [done|]. intros i u Hi. eapply snapshot_steady; [by eapply Hhs|by apply versioned_steady].
  - split_and!; try done. split; [|intros i u Hi; eapply snapshot_steady; [by eapply Hhs|by apply versioned_steady]].
    apply (forest_regrant w); try done; [apply (f_fresh w Hw)|]. intros t k p g Hp Hg. exists g. split; [done|].
    destruct (f_grant w Hw _ _ _ Hp) as (g' & Hg' & Hb & _). apply weakens_refl. congruence.
  - split_and!; try done; [|apply attenuates_kept; [done|]].
    + split; [by apply forest_spawn|]. intros i u Hi. eapply snapshot_steady; [by eapply Hhs|by apply steady_spawn].
    + intros t' k p. unfold locate, pies_of. simpl. destruct (decide (t = t')) as [<-|Hne]; [by rewrite lookup_insert_eq|].
      rewrite lookup_insert_ne by done. eauto.
  - split_and!; try done; [|apply attenuates_kept; [done|]].
    + split; [by apply forest_gone|]. intros i u Hi. eapply snapshot_steady; [by eapply Hhs|]. by eapply steady_gone, Hk.
    + intros t' k p. unfold locate, pies_of. simpl. destruct (decide (t = t')) as [<-|Hne]; [by rewrite lookup_delete_eq|].
      rewrite lookup_delete_ne by done. eauto.
  - split_and!; try done. split; [done|]. apply hunts_insert; [done|apply snapshot_start].
  - split_and!; try done. split; [done|]. apply hunts_insert; [done|]. eapply snapshot_visit; eauto.
  - split_and!; try done. split; [done|]. apply hunts_insert; [done|]. eapply snapshot_observe; eauto.
  - split_and!; try done. split; [done|]. eapply hunts_delete; [done|]. intros u. by apply versioned_steady.
  - pose proof (cull_commit_run room u caller closing w r w' Hw) as H.
    specialize (H ltac:(intros Hok; by eapply hunt_found; eauto) Hrun). destruct r as [ps|e].
    + destruct H as (_ & _ & Hf & Hv & Ha & Hm). rewrite Hm. split_and!; try done. split; [done|].
      eapply hunts_delete; [done|]. intros u'. by apply versioned_steady.
    + subst w'. split_and!; try done. split; [done|]. eapply hunts_delete; [done|]. intros u'. by apply versioned_steady.
  - destruct (s_root w u (Hhs i u Hi)) as [[t k] H0].
    pose proof (forget_commit_run room u spaces w t k Hw H0 ltac:(intros Hun; by eapply hunt_children; eauto)) as H.
    rewrite Hrun in H. destruct r as [p|e].
    + destruct H as (Hf & (Hv & Ha & Hm) & _). rewrite Hm. split_and!; try done. split; [done|].
      eapply hunts_delete; [done|]. intros u'. by apply versioned_steady.
    + subst w'. split_and!; try done. split; [done|]. eapply hunts_delete; [done|]. intros u'. by apply versioned_steady.
Qed.

Lemma steps_invariant fs c c' : steps fs c c' -> invariant c -> invariant c'.
Proof. induction 1 as [|f fs c1 c2 c3 Hs _ IH]; [done|]. intros Hi. by apply IH, (step_moves f c1). Qed.

Lemma reachable_invariant c : reachable c -> invariant c.
Proof. intros (around & fs & Hs). eapply steps_invariant; [done|]. apply invariant_initial. Qed.

(** ** Running the system *)

Inductive command :=
| Act (a : action)
| Spawn (t : Z)
| Start (i : nat) (recursive : bool) (t k : Z)
| Visit (i : nat)
| Observe (i : nat) (t : Z)
| Cull (i : nat) (caller : option Z) (closing : bool)
| Forget (i : nat).

(** The step a command stands for, when it can be taken. *)
Definition drive (x : command) (c : Config) : option (option Z * Config) :=
  let w := c_world c in
  let hs := c_hunts c in
  match x with
  | Act a => if permitted w a then r ← perform a w; Some (mints a, mkConfig r.2 hs) else None
  | Spawn t => match tasks w !! t with None => Some (None, mkConfig (set_tasks (<[t := Pend_new]> (tasks w)) w) hs) | Some _ => None end
  | Start i recursive t k => Some (None, mkConfig w (<[i := hunt_start recursive t k]> hs))
  | Visit i => u ← hs !! i;
      match u_parent u, hunt_visit w u with None, Ok u' => Some (None, mkConfig w (<[i := u']> hs)) | _, _ => None end
  | Observe i t => u ← hs !! i; Some (None, mkConfig w (<[i := hunt_observe w t u]> hs))
  | Cull i caller closing => u ← hs !! i;
      if u_recursive u && hunt_done u then r ← cull_commit true u caller closing w; Some (None, mkConfig r.2 (delete i hs)) else None
  | Forget i => u ← hs !! i;
      if negb (u_recursive u) && hunt_done u then r ← forget_commit true u (Ok tt) w; Some (None, mkConfig r.2 (delete i hs)) else None
  end.

Fixpoint drives (xs : list command) (c : Config) : option (list (option Z) * Config) :=
  match xs with
  | [] => Some ([], c)
  | x :: xs => '(f, c1) ← drive x c; '(fs, c2) ← drives xs c1; Some (f :: fs, c2)
  end.

Lemma drive_step x c f c' : drive x c = Some (f, c') -> step f c c'.
Proof.
  destruct c as [w hs]. destruct x; simpl.
  - destruct (permitted w a) eqn:Ha; [|done]. destruct (perform a w) as [[r w']|] eqn:Hr; [|done]. intros [= <- <-]. by econstructor.
  - destruct (tasks w !! t) eqn:Ht; [done|]. intros [= <- <-]. by constructor.
  - intros [= <- <-]. constructor.
  - destruct (hs !! i) as [u|] eqn:Hi; [|done]. simpl. destruct (u_parent u) eqn:Hp; [done|].
    destruct (hunt_visit w u) eqn:Hv; [|done]. intros [= <- <-]. by eapply step_visit.
  - destruct (hs !! i) as [u|] eqn:Hi; [|done]. intros [= <- <-]. by eapply step_observe.
  - destruct (hs !! i) as [u|] eqn:Hi; [|done]. simpl. destruct (u_recursive u && hunt_done u) eqn:Hu; [|done]. apply andb_true_iff in Hu as [Hr Hd].
    destruct (cull_commit true u caller closing w) as [[r w']|] eqn:Hc; [|done]. intros [= <- <-]. by eapply step_cull.
  - destruct (hs !! i) as [u|] eqn:Hi; [|done]. simpl. destruct (negb _ && _) eqn:Hu; [|done]. apply andb_true_iff in Hu as [Hr%negb_true_iff Hd].
    destruct (forget_commit true u (Ok tt) w) as [[r w']|] eqn:Hc; [|done]. intros [= <- <-]. by eapply step_forget.
Qed.

Lemma drives_steps xs : forall c fs c', drives xs c = Some (fs, c') -> steps fs c c'.
Proof.
  induction xs as [|x xs IH]; simpl; intros c fs c'; [intros [= <- <-]; constructor|].
  destruct (drive x c) as [[f c1]|] eqn:Hd; [|done]. simpl. destruct (drives xs c1) as [[fs' c2]|] eqn:Hds; [|done]. intros [= <- <-].
  econstructor; [by eapply drive_step|by apply IH].
Qed.
