(* ===== verification/PendTheorems.v ===== *)
(** * What the capability ledger guarantees *)

From S2P Require Import Prelude Pend PendTables PendInv PendSteps PendCull PendHunt PendSystem.
From stdpp Require Import sorting.

Open Scope Z_scope.

(** ** A small history

    Task 1 gets a first pie for mail 7 and hands it to task 2, which hands it to
    task 3 and to task 4; pie 4 of task 4 is for mail 8, which is exclusive and
    was handed over by task 1. *)

Definition plain_mail : Mail := mkMail Hole 0 true false 0 0 false None.

Definition history : list command :=
  [Spawn 1; Spawn 2; Spawn 3; Spawn 4;
   Act (A_insert true true 1 7 70 7); Act (A_publish (true, true, true) 1 1 2 7 0 None);
   Act (A_publish (true, true, true) 2 2 3 5 0 None); Act (A_publish (true, true, true) 2 2 4 3 0 None);
   Act (A_insert true true 1 8 80 15); Act (A_publish (true, true, true) 1 5 4 13 0 None)].

Definition after (xs : list command) : list (option Z) * Config := default ([], initial (fun _ => plain_mail)) (drives xs (initial (fun _ => plain_mail))).

Lemma after_reachable xs : is_Some (drives xs (initial (fun _ => plain_mail))) -> reachable (after xs).2.
Proof.
  intros [[fs c] Hd]. exists (fun _ => plain_mail), fs. apply (drives_steps xs). unfold after. by rewrite Hd.
Qed.

(** The history, then a search for all under the pie of task 2. *)
Definition hunted : list command := history ++ [Start 0 true 2 2; Visit 0; Observe 0 1; Visit 0; Visit 0].

(** ** The invariant *)

(** C31: In every state that the tasks can bring the ledger to, interleaved as
    they may be, the pies form a forest: tokens are unique, the giver of a pie
    holds the pie it was made from and lists it, every listed pie is there, an
    exclusive pie that was handed on names its one heir, and no permission is
    outside what the first pie for the resource had; and every search that is
    under way knows the truth about each task still at the version it noted. *)
Theorem pend_invariant c : reachable c -> forest (c_world c) /\ forall i u, c_hunts c !! i = Some u -> snapshot (c_world c) u.
Proof. intros [A B]%reachable_invariant. done. Qed.

Lemma pend_invariant_witness : reachable (after hunted).2 /\ forest (c_world (after hunted).2).
Proof.
  assert (reachable (after hunted).2) as H by (apply after_reachable; vm_compute; eauto).
  split; [done|]. by apply pend_invariant.
Defined.

(** ** Removal *)

(** The tasks a removal touches. *)
Lemma take_touches t k w x p : locate w t k = Some p -> x <> t -> p_lord p <> Some x -> tasks (take_pie t k p w) !! x = tasks w !! x.
Proof.
  intros Hp Ht Hl. unfold take_pie, changed. rewrite !tasks_on_task, !decide_False by done.
  set (w2 := on_grant k grant_invalidate _). assert (tasks w2 !! x = tasks w !! x) as H2.
  { subst w2. simpl. by rewrite lookup_alter_ne. }
  destruct (p_sire p) as [s|]; [|done]. destruct (p_lord p) as [l|]; [|done]. destruct (upgrade w2 l); [|done].
  assert (l <> x) as Hlx by congruence. rewrite tasks_on_task, decide_False by done.
  unfold clear_heir_locked. destruct (locate _ l s); [|cbn [fst]; by rewrite tasks_on_task, decide_False].
  case_bool_decide; cbn [fst]; unfold changed; by rewrite !tasks_on_task, !decide_False.
Qed.

Lemma take_all_touches w x : forest w -> forall ns acc w1, pruned w acc w1 ->
  (forall t k, (t, k) ∈ ns -> t <> x /\ exists p, locate w t k = Some p /\ p_lord p <> Some x) ->
  tasks (take_all ns w1).1 !! x = tasks w1 !! x.
Proof.
  intros Hw. induction ns as [|[t k] ns IH]; intros acc w1 Hpr Hns; [done|].
  destruct (Hns t k ltac:(left)) as (Ht & p & Hp & Hl). cbn [take_all].
  assert (pruned w ([(t, k)] ++ acc) (take_all [(t, k)] w1).1) as Hpr1.
  { apply (take_all_pruned w Hw); [|done]. intros t' k' [= -> ->]%list_elem_of_singleton. eauto. }
  cbn [take_all] in Hpr1. unfold pend_take in *. pose proof (pr_locate _ _ _ Hpr t k) as Hloc. rewrite Hp in Hloc.
  destruct (locate w1 t k) as [q|] eqn:Hq; cbn [fst] in *.
  - specialize (IH _ _ Hpr1 ltac:(intros ?? H; apply Hns; by right)). destruct (take_all ns _) as [w2 ps]. cbn [fst] in *. rewrite IH.
    apply take_touches; [done|congruence|]. case_bool_decide; [done|]. simplify_eq/=. destruct (forgets_sire acc p) as (_ & -> & _). done.
  - specialize (IH _ _ Hpr1 ltac:(intros ?? H; apply Hns; by right)). by destruct (take_all ns _) as [w2 ps].
Qed.

Lemma cull_ok c i u room caller closing ps w' :
  invariant c -> c_hunts c !! i = Some u -> u_recursive u = true -> hunt_done u = true ->
  cull_commit room u caller closing (c_world c) = Some (Ok ps, w') ->
  closed (c_world c) (u_nodes u) /\ rooted (c_world c) (u_nodes u) /\ pruned (c_world c) (u_nodes u) w' /\
  (unchanged (c_world c) u || relations_match (c_world c) u) = true.
Proof.
  intros [Hw Hs] Hi Hrec Hd Hrun.
  pose proof (fun Hok => hunt_found (c_world c) u Hw (Hs i u Hi) Hd Hrec Hok) as Hf.
  pose proof (cull_commit_run room u caller closing _ _ _ Hw (fun Hok => proj1 (Hf Hok)) Hrun) as (Hok & Hpr & _).
  destruct (Hf Hok). done.
Qed.

(** C32: When a search for the pies under a pie is finished and the removal
    goes through, exactly the pies under it are gone, whatever other tasks did
    while the search ran: those pies are in no table and their grants allow
    nothing, and every other pie is where it was with the permission it had. *)
Theorem cull_exact c i u room caller closing ps w' t k :
  reachable c -> c_hunts c !! i = Some u -> u_recursive u = true -> hunt_done u = true -> u_nodes u !! 0%nat = Some (t, k) ->
  cull_commit room u caller closing (c_world c) = Some (Ok ps, w') ->
  forall t' k' p, locate (c_world c) t' k' = Some p ->
    (under (c_world c) t k t' k' /\ locate w' t' k' = None /\ permission w' p = 0) \/
    (~ under (c_world c) t k t' k' /\ exists p', locate w' t' k' = Some p' /\ p_sire p' = p_sire p /\ p_lord p' = p_lord p /\
       permission w' p' = permission (c_world c) p /\ window_of w' p' = window_of (c_world c) p).
Proof.
  intros Hi%reachable_invariant Hu Hrec Hd H0 Hrun t' k' p Hp. destruct (cull_ok _ _ _ _ _ _ _ _ Hi Hu Hrec Hd Hrun) as (Hc & Hr & Hpr & _).
  pose proof (i_forest c Hi) as Hw. destruct (decide ((t', k') ∈ u_nodes u)) as [Hin|Hin]; [left|right].
  - split_and!; [by eapply rooted_under|by rewrite (pr_locate _ _ _ Hpr), bool_decide_eq_true_2|].
    unfold permission. rewrite (locate_token _ _ _ _ Hp), (pr_grants _ _ _ Hpr), bool_decide_eq_true_2.
    + by destruct (grants (c_world c) !! k').
    + apply list_elem_of_fmap. by exists (t', k').
  - split; [intros Hx; apply Hin; eapply closed_under; [done|by eapply list_elem_of_lookup_2|done]|].
    exists (forgets (u_nodes u) p). destruct (forgets_sire (u_nodes u) p) as (A & B & C & _). rewrite (pr_locate _ _ _ Hpr), bool_decide_eq_false_2, Hp by done.
    unfold permission, window_of. rewrite C, (locate_token _ _ _ _ Hp), (pruned_grant _ _ _ t' k' p Hw (proj1 Hc) Hpr Hp Hin). done.
Qed.

Definition found (xs : list command) : Hunt := default (hunt_start true 0 0) (c_hunts (after xs).2 !! 0%nat).
Definition culled (xs : list command) : World :=
  match cull_commit true (found xs) None false (c_world (after xs).2) with Some (_, w) => w | None => c_world (after xs).2 end.

Lemma cull_exact_witness :
  ~ under (c_world (after hunted).2) 2 2 1 1 /\ under (c_world (after hunted).2) 2 2 4 4.
Proof.
  assert (reachable (after hunted).2) as Hr by (apply after_reachable; vm_compute; eauto).
  assert (exists ps, cull_commit true (found hunted) None false (c_world (after hunted).2) = Some (Ok ps, culled hunted)) as [ps Hc].
  { eexists. vm_compute. reflexivity. }
  assert (c_hunts (after hunted).2 !! 0%nat = Some (found hunted)) as H1 by (vm_compute; reflexivity).
  assert (u_recursive (found hunted) = true /\ hunt_done (found hunted) = true /\ u_nodes (found hunted) !! 0%nat = Some (2, 2)) as (H2 & H3 & H4).
  { vm_compute. split_and!; reflexivity. }
  pose proof (cull_exact (after hunted).2 0 (found hunted) true None false ps (culled hunted) 2 2 Hr H1 H2 H3 H4 Hc) as H. clear H1 H2 H3 H4 Hc Hr. split.
  - assert (exists p, locate (c_world (after hunted).2) 1 1 = Some p) as [p Hp] by (vm_compute; eauto).
    assert (exists q, locate (culled hunted) 1 1 = Some q) as [q Hq] by (vm_compute; eauto).
    destruct (H 1 1 p Hp) as [(_ & Hn & _)|[Hn _]]; [rewrite Hn in Hq; discriminate Hq|exact Hn].
  - assert (exists p, locate (c_world (after hunted).2) 4 4 = Some p) as [p Hp] by (vm_compute; eauto).
    assert (locate (culled hunted) 4 4 = None) as Hq by (vm_compute; reflexivity).
    destruct (H 4 4 p Hp) as [(Hn & _)|(_ & p' & Hp' & _)]; [exact Hn|rewrite Hp' in Hq; discriminate Hq].
Defined.

(** A removal changes only tables of tasks whose locks it holds, which
    are those the search noted. *)
Theorem cull_locked c i u room caller closing r w' x :
  reachable c -> c_hunts c !! i = Some u -> u_recursive u = true -> hunt_done u = true ->
  cull_commit room u caller closing (c_world c) = Some (r, w') -> x ∉ map fst (u_tasks u) ->
  tasks w' !! x = tasks (c_world c) !! x.
Proof.
  intros Hi%reachable_invariant Hu Hrec Hd Hrun Hx. destruct r as [ps|e].
  2: { by rewrite (cull_commit_run room u caller closing _ _ _ (i_forest c Hi)
         (fun Hok => proj1 (hunt_found _ u (i_forest c Hi) (i_hunts c Hi i u Hu) Hd Hrec Hok)) Hrun). }
  destruct (cull_ok _ _ _ _ _ _ _ _ Hi Hu Hrec Hd Hrun) as (Hc & Hr & _ & Hok). destruct Hi as [Hw Hs]. pose proof (Hs i u Hu) as Hsn.
  set (w := c_world c) in *. assert (w' = (take_all (reverse (u_nodes u)) w).1) as ->.
  { revert Hrun. unfold cull_commit, mbind, M_bind, get, fail, expect, lift, put, mret, M_ret. intros Hrun.
    repeat (case_match; try done); simplify_eq; done. }
  apply (take_all_touches w x Hw (reverse (u_nodes u)) [] w); [by apply pruned_nil, Hw|].
  intros t k. rewrite elem_of_reverse. intros Hin. destruct (proj1 Hc t k Hin) as [p Hp].
  split; [intros ->; apply Hx; by eapply hunt_holders|]. exists p. split; [done|]. intros Hl. apply Hx.
  destruct (s_root w u Hsn) as [[t0 k0] H0]. destruct (elem_of_head _ _ _ H0 Hin) as [[= -> ->]|Htl]; [by eapply hunt_lord|].
  destruct (Hr _ Htl) as ([l s] & Hm & He). destruct (f_heirs w Hw _ _ _ _ He) as (p' & Hp' & _ & Hl'). simpl in *.
  assert (l = x) as -> by congruence. by eapply hunt_holders.
Qed.

Lemma cull_locked_witness : tasks (culled hunted) !! 9 = tasks (c_world (after hunted).2) !! 9.
Proof.
  assert (reachable (after hunted).2) as Hr by (apply after_reachable; vm_compute; eauto).
  assert (exists ps, cull_commit true (found hunted) None false (c_world (after hunted).2) = Some (Ok ps, culled hunted)) as [ps Hc].
  { eexists. vm_compute. reflexivity. }
  assert (c_hunts (after hunted).2 !! 0%nat = Some (found hunted)) as H1 by (vm_compute; reflexivity).
  assert (u_recursive (found hunted) = true /\ hunt_done (found hunted) = true) as (H2 & H3) by (vm_compute; split_and!; reflexivity).
  assert (bool_decide (9 ∉ map fst (u_tasks (found hunted))) = true) as H4%bool_decide_eq_true by (vm_compute; reflexivity).
  exact (cull_locked (after hunted).2 0 (found hunted) true None false (Ok ps) (culled hunted) 9 Hr H1 H2 H3 Hc H4).
Defined.

(** ** Exclusive resources *)










(** ** Use *)









(** ** Authority *)

Lemma steps_attenuate m fs c c' : steps fs c c' -> invariant c -> Some m ∉ fs -> forall t k p, locate (c_world c') t k = Some p -> p_mail p = m ->
  exists t0 k0 p0, locate (c_world c) t0 k0 = Some p0 /\ p_mail p0 = m /\
    contains (permission (c_world c) p0) (permission (c_world c') p) = true /\
    within (m_pages (mails (c_world c) m)) (window_of (c_world c) p0) (window_of (c_world c') p).
Proof.
  induction 1 as [c|f fs c1 c2 c3 Hs _ IH]; intros Hi Hm t k p Hp Hpm.
  - exists t, k, p. split_and!; [done..|apply contains_refl|apply within_refl].
  - apply not_elem_of_cons in Hm as [Hf Hm]. destruct (step_moves f c1 c2 Hi Hs) as (Hi2 & Ha & Hpg).
    destruct (IH Hi2 Hm t k p Hp Hpm) as (t2 & k2 & p2 & Hp2 & Hm2 & C2 & W2).
    destruct (Ha t2 k2 p2 Hp2 ltac:(congruence)) as (t1 & k1 & p1 & g1 & g2 & Hp1 & Hm1 & Hg1 & Hg2 & C1 & W1).
    destruct (permission_bits _ _ _ _ (i_forest _ Hi) Hp1) as (g & Hg & B1 & _). destruct (permission_bits _ _ _ _ (i_forest _ Hi2) Hp2) as (g' & Hg' & B2 & _).
    simplify_eq. exists t1, k1, p1. unfold window_of in *. rewrite (locate_token _ _ _ _ Hp1), Hg1. rewrite (locate_token _ _ _ _ Hp2), Hg2 in W2.
    rewrite Hm2, Hpg in *. split_and!; [done|done| |by eapply within_trans]. rewrite B2 in C2. rewrite B1. by eapply contains_trans.
Qed.

(** C33: No sequence of operations amplifies authority: as long as no first
    pie is made for a resource, every pie there is for it, with any task and
    however obtained, has a permission that some pie for it had at the start,
    and a window inside the window of that pie. *)
Theorem no_amplification c fs c' m :
  reachable c -> steps fs c c' -> Some m ∉ fs -> forall t k p, locate (c_world c') t k = Some p -> p_mail p = m ->
  exists t0 k0 p0, locate (c_world c) t0 k0 = Some p0 /\ p_mail p0 = m /\
    contains (permission (c_world c) p0) (permission (c_world c') p) = true /\
    within (m_pages (mails (c_world c) m)) (window_of (c_world c) p0) (window_of (c_world c') p).
Proof. intros Hi%reachable_invariant Hs Hm. by apply (steps_attenuate m fs). Qed.

Definition first_pie : list command := take 5 history.
Definition given_on : list command := drop 5 (take 8 history).

Lemma no_amplification_witness : exists t0 k0 p0, locate (c_world (after first_pie).2) t0 k0 = Some p0 /\ p_mail p0 = 7.
Proof.
  assert (reachable (after first_pie).2) as Hr by (apply after_reachable; vm_compute; eauto).
  assert (exists r, drives given_on (after first_pie).2 = Some r) as [[fs c'] Hd] by (eexists; vm_compute; reflexivity).
  assert (bool_decide (Some 7 ∉ fs) = true /\ exists p, locate (c_world c') 3 3 = Some p /\ p_mail p = 7) as [Hm (p & Hp & Hpm)].
  { vm_compute in Hd. injection Hd as <- <-. split; [vm_compute; reflexivity|]. eexists. split; vm_compute; reflexivity. }
  apply bool_decide_eq_true in Hm.
  destruct (no_amplification (after first_pie).2 fs c' 7 Hr (drives_steps _ _ _ _ Hd) Hm 3 3 p Hp Hpm) as (t0 & k0 & p0 & H1 & H2 & _).
  exists t0, k0, p0. split; [exact H1|exact H2].
Defined.

(** ** Leaving one's children to one's giver *)

(** When a search for the children of a pie is finished and [forget] goes
    through, the pie is gone, exactly its children are now its giver's, made
    from the giver's pie and listed by the giver, and every pie that is left
    keeps its permission and window. *)
Theorem forget_exact c i u room spaces q w' t k :
  reachable c -> c_hunts c !! i = Some u -> u_recursive u = false -> hunt_done u = true -> u_nodes u !! 0%nat = Some (t, k) ->
  forget_commit room u spaces (c_world c) = Some (Ok q, w') ->
  locate w' t k = None /\ exists lord parent, p_lord q = Some lord /\ p_sire q = Some parent /\
  forall t' k' p, locate (c_world c) t' k' = Some p -> (t', k') <> (t, k) ->
    exists p', locate w' t' k' = Some p' /\ permission w' p' = permission (c_world c) p /\ window_of w' p' = window_of (c_world c) p /\
    if decide ((k, t', k') ∈ heirs_of (c_world c) t)
    then p_sire p' = Some parent /\ p_lord p' = Some lord /\ (parent, t', k') ∈ heirs_of w' lord
    else p' = p.
Proof.
  intros Hi%reachable_invariant Hu Hrec Hd H0 Hrun. destruct Hi as [Hw Hs]. set (w := c_world c) in *. pose proof (Hs i u Hu) as Hsn.
  pose proof (forget_commit_run room u spaces w t k Hw H0 (fun Hun => hunt_children w u t k Hsn Hd Hrec H0 Hun)) as H. rewrite Hrun in H.
  destruct H as (Hf & _ & Hq & _ & lord & parent & Hl & Hp & Hg & Hgr). split; [by rewrite Hg, decide_True|]. exists lord, parent. split_and!; [done..|].
  intros t' k' p Hpp Hne. assert (k' <> k) as Hk by (intros ->; apply Hne; f_equal; by eapply (f_unique w Hw)).
  assert (locate w' t' k' = Some (if bool_decide ((t', k') ∈ children w t k) then set_parent parent lord p else p)) as Hp'.
  { rewrite Hg, decide_False by naive_solver. rewrite Hpp. by case_bool_decide. }
  eexists. split; [exact Hp'|]. unfold permission, window_of. rewrite (locate_token _ _ _ _ Hp'), (locate_token _ _ _ _ Hpp), Hgr, lookup_alter_ne by done.
  split_and!; [done..|]. rewrite (bool_decide_ext _ _ (elem_of_children w t k t' k' Hw)) in *. case_decide as He; [|by rewrite bool_decide_eq_false_2].
  rewrite bool_decide_eq_true_2 in * by done. split_and!; [done..|].
  destruct (forest_parent w' t' k' _ parent Hf Hp' eq_refl) as (l & _ & Hl' & _ & _ & _ & Hin). simpl in Hl'. congruence.
Qed.

Definition surveyed : list command := history ++ [Start 0 false 2 2; Visit 0; Observe 0 1; Visit 0; Visit 0].

Definition left_over : World :=
  match forget_commit true (found surveyed) (Ok tt) (c_world (after surveyed).2) with Some (_, w) => w | None => c_world (after surveyed).2 end.

Lemma forget_exact_witness : locate left_over 2 2 = None /\ exists p, locate left_over 3 3 = Some p /\ p_sire p = Some 1.
Proof.
  assert (reachable (after surveyed).2) as Hr by (apply after_reachable; vm_compute; eauto).
  assert (exists q, forget_commit true (found surveyed) (Ok tt) (c_world (after surveyed).2) = Some (Ok q, left_over) /\ p_sire q = Some 1) as (q & Hc & Hq).
  { eexists. vm_compute. split; reflexivity. }
  assert (c_hunts (after surveyed).2 !! 0%nat = Some (found surveyed)) as H1 by (vm_compute; reflexivity).
  assert (u_recursive (found surveyed) = false /\ hunt_done (found surveyed) = true /\ u_nodes (found surveyed) !! 0%nat = Some (2, 2)) as (H2 & H3 & H4).
  { vm_compute. split_and!; reflexivity. }
  destruct (forget_exact (after surveyed).2 0 (found surveyed) true (Ok tt) q left_over 2 2 Hr H1 H2 H3 H4 Hc) as [Hn (lord & parent & _ & Hp & H)].
  clear H1 H2 H3 H4 Hc Hr. split; [exact Hn|].
  assert (exists p, locate (c_world (after surveyed).2) 3 3 = Some p) as [p Hl] by (vm_compute; eauto).
  assert (bool_decide ((2, 3, 3) ∈ heirs_of (c_world (after surveyed).2) 2) = true) as He%bool_decide_eq_true by (vm_compute; reflexivity).
  destruct (H 3 3 p Hl ltac:(discriminate)) as (p' & Hp' & _ & _ & Hd). rewrite decide_True in Hd by exact He. destruct Hd as [Hs _].
  exists p'. split; [exact Hp'|]. rewrite Hs, <- Hp. exact Hq.
Defined.
