(* ===== verification/LispSyntax.v ===== *)
(** * The Lisp reader and compiler: [crates/lisp/src/syntax]

    The reader turns tokens into an arena of nodes, with a stack of the lists
    and quotes that are open; the compiler turns the nodes into an arena of
    expressions, with a stack of work.  Both are loops in the code and here.

    Texts are lists of bytes.  The code goes over the characters of string
    literals; everything it looks for there is ASCII, so that going over the
    bytes is the same.  A diagnostic is its kind, its place and its trace;
    message texts are left out.  The tokens come from a generated lexer, which
    is an argument here: a list of tokens (or failures) with their places. *)

From S2P Require Import Prelude.

Open Scope Z_scope.

Definition i64_MIN : Z := - 2 ^ 63.
Definition i64_MAX : Z := 2 ^ 63 - 1.
Definition i64 (x : Z) : option Z := if (i64_MIN <=? x) && (x <=? i64_MAX) then Some x else None.

(** ** [source.rs], [diagnostic.rs] *)

Record Span := mkSpan { start : Z; end_ : Z }.

#[global] Instance Span_eq_dec : EqDecision Span.
Proof. solve_decision. Defined.

Inductive ErrorKind :=
| Lexical | Syntax | Unbound | ArityError | TypeError | Arithmetic | ResourceLimit | Cancelled | Host | Busy | StaleCall | StaleValue.

#[global] Instance ErrorKind_eq_dec : EqDecision ErrorKind.
Proof. solve_decision. Defined.

Record Diagnostic := mkDiagnostic { kind : ErrorKind; at_ : Span; trace : list Span }.

Definition diagnostic (k : ErrorKind) (s : Span) : Diagnostic := mkDiagnostic k s [].

(** The bytes of a place; a place outside the text panics. *)
Definition slice (text : list Z) (from to : Z) : option (list Z) :=
  if (0 <=? from) && (from <=? to) && (to <=? len text)
  then Some (take (Z.to_nat (to - from)) (drop (Z.to_nat from) text)) else None.

(** ** [lexer.rs] *)

Inductive Token := Open | Shut | Quote | Dot | TTrue | TFalse | TBytes | TInteger | TString (closed : bool) | TSymbol.

#[global] Instance Token_eq_dec : EqDecision Token.
Proof. solve_decision. Defined.

Definition BACKSLASH : Z := 92.
Definition QUOTATION : Z := 34.

Definition escape (ch : Z) : option Z :=
  if ch =? 110 then Some 10
  else if ch =? 114 then Some 13
  else if ch =? 116 then Some 9
  else if ch =? QUOTATION then Some QUOTATION
  else if ch =? BACKSLASH then Some BACKSLASH
  else None.

(** The body of [string]: the literal between its quotation marks. *)
Fixpoint unescape (raw : list Z) : option (list Z) :=
  match raw with
  | [] => Some []
  | ch :: raw =>
      if ch =? BACKSLASH then
        match raw with
        | [] => None
        | e :: raw => c ← escape e; out ← unescape raw; Some (c :: out)
        end
      else out ← unescape raw; Some (ch :: out)
  end.

Abbreviation P := (M unit Diagnostic).

Definition string (text : list Z) (span : Span) : P (list Z) :=
  raw ← expect (slice text (start span + 1) (end_ span - 1));
  lift (ok_or (unescape raw) (diagnostic Lexical span)).

(** The body of [unfinished]: an escape may be cut off. *)
Fixpoint escapes_ok (raw : list Z) : bool :=
  match raw with
  | [] => true
  | ch :: raw =>
      if ch =? BACKSLASH then match raw with [] => true | e :: raw => bool_decide (is_Some (escape e)) && escapes_ok raw end
      else escapes_ok raw
  end.

Definition unfinished (text : list Z) (span : Span) : P unit :=
  raw ← expect (slice text (start span + 1) (end_ span));
  if escapes_ok raw then mret tt else fail (diagnostic Lexical span).

(** The callback that finds the end of a string literal: how many bytes of the
    rest belong to it, and whether it is closed. *)
Fixpoint quoted (escaped : bool) (index : Z) (rest : list Z) : Z * bool :=
  match rest with
  | [] => (index, false)
  | byte :: rest =>
      if negb escaped && (byte =? QUOTATION) then (index + 1, true)
      else quoted (if escaped then false else byte =? BACKSLASH) (index + 1) rest
  end.

(** [str::parse::<i64>]. *)
Fixpoint digits (acc : Z) (s : list Z) : option Z :=
  match s with
  | [] => Some acc
  | c :: s => if (48 <=? c) && (c <=? 57) then digits (acc * 10 + (c - 48)) s else None
  end.

Definition parse (s : list Z) : option Z :=
  match s with
  | [] => None
  | c :: r =>
      let '(sign, ds) := if c =? 45 then (-1, r) else if c =? 43 then (1, r) else (1, s) in
      if bool_decide (ds = []) then None else n ← digits 0 ds; i64 (sign * n)
  end.

(** ** [reader.rs] *)

Inductive Atom := AInteger (n : Z) | ABoolean (b : bool) | AString (s : list Z) | ASymbol (s : list Z) | ABytes (b : list Z).

#[global] Instance Atom_eq_dec : EqDecision Atom.
Proof. solve_decision. Defined.

Inductive Datum :=
| DAtom (a : Atom)
| DList (items : list nat) (tail : option nat)
| DQuote (quoted : nat).

Record Node := mkNode { datum : Datum; span : Span }.

Record Form := mkForm { source : list Z; nodes : list Node; root : nat; depth : Z }.

Inductive ReadState := Complete (form : Form) (consumed : Z) | More | End.

Record Reader := mkReader { input_limit : Z; depth_limit : Z }.

Definition Reader_default : Reader := mkReader (64 * 1024) 1024.

Inductive RFrame :=
| FQuote (s : Span)
| FList (s : Span) (items : list nat) (tail : option nat) (dot bytes : bool).

(** The state of the loop; the last frame comes first. *)
Record Reading := mkReading { r_frames : list RFrame; r_nodes : list Node; r_depth : Z }.

(** The numbers of a byte literal. *)
Fixpoint byte_items (ns : list Node) (items : list nat) : P (list Z) :=
  match items with
  | [] => mret []
  | item :: items =>
      n ← expect (ns !! item);
      match datum n with
      | DAtom (AInteger k) =>
          if (0 <=? k) && (k <=? 255) then rest ← byte_items ns items; mret (k :: rest)
          else fail (diagnostic TypeError (span n))
      | _ => fail (diagnostic TypeError (span n))
      end
  end.

(** A finished datum goes to the innermost frame; quotes are finished with it. *)
Fixpoint attach (text : list Z) (d : Z) (sp : Span) (frames : list RFrame) (ns : list Node) (id : nat) : P (Reading + ReadState) :=
  match frames with
  | [] =>
      n ← expect (ns !! id);
      mret (inr (Complete (mkForm text ns id d) (end_ (span n))))
  | FQuote s :: fs =>
      n ← expect (ns !! id);
      attach text d sp fs (ns ++ [mkNode (DQuote id) (mkSpan (start s) (end_ (span n)))]) (length ns)
  | FList s items tail dot bytes :: fs =>
      if dot then
        match tail with
        | Some _ => fail (diagnostic Syntax sp)
        | None => mret (inl (mkReading (FList s items (Some id) dot bytes :: fs) ns d))
        end
      else mret (inl (mkReading (FList s (items ++ [id]) tail dot bytes :: fs) ns d))
  end.

Definition open_frame (r : Reader) (sp : Span) (f : RFrame) (st : Reading) : P (Reading + ReadState) :=
  if depth_limit r <=? len (r_frames st) then fail (diagnostic ResourceLimit sp)
  else mret (inl (mkReading (f :: r_frames st) (r_nodes st) (Z.max (r_depth st) (len (r_frames st) + 1)))).

Definition push_node (text : list Z) (sp : Span) (n : Node) (fs : list RFrame) (st : Reading) : P (Reading + ReadState) :=
  attach text (r_depth st) sp fs (r_nodes st ++ [n]) (length (r_nodes st)).

(** One round of the loop over the tokens. *)
Definition read_token (r : Reader) (text : list Z) (eof : bool) (token : option Token) (sp : Span) (st : Reading) : P (Reading + ReadState) :=
  t ← lift (ok_or token (diagnostic Lexical sp));
  match t with
  | TString false =>
      unfinished text sp ;;
      if eof then fail (diagnostic Syntax sp) else mret (inr More)
  | Open => open_frame r sp (FList sp [] None false false) st
  | TBytes => open_frame r sp (FList sp [] None false true) st
  | Quote => open_frame r sp (FQuote sp) st
  | Dot =>
      match r_frames st with
      | FList s (i :: items) tail false false :: fs => mret (inl (mkReading (FList s (i :: items) tail true false :: fs) (r_nodes st) (r_depth st)))
      | _ => fail (diagnostic Syntax sp)
      end
  | Shut =>
      match r_frames st with
      | FList s items tail dot bytes :: fs =>
          if dot && bool_decide (tail = None) then fail (diagnostic Syntax sp)
          else
            d ← (if bytes : bool then out ← byte_items (r_nodes st) items; mret (DAtom (ABytes out)) else mret (DList items tail));
            push_node text sp (mkNode d (mkSpan (start s) (end_ sp))) fs st
      | _ => fail (diagnostic Syntax sp)
      end
  | TTrue => push_node text sp (mkNode (DAtom (ABoolean true)) sp) (r_frames st) st
  | TFalse => push_node text sp (mkNode (DAtom (ABoolean false)) sp) (r_frames st) st
  | TInteger =>
      raw ← expect (slice text (start sp) (end_ sp));
      n ← lift (ok_or (parse raw) (diagnostic Arithmetic sp));
      push_node text sp (mkNode (DAtom (AInteger n)) sp) (r_frames st) st
  | TString true =>
      s ← string text sp;
      push_node text sp (mkNode (DAtom (AString s)) sp) (r_frames st) st
  | TSymbol =>
      s ← expect (slice text (start sp) (end_ sp));
      push_node text sp (mkNode (DAtom (ASymbol s)) sp) (r_frames st) st
  end.

Fixpoint read_loop (r : Reader) (text : list Z) (eof : bool) (toks : list (option Token * Span)) (st : Reading) : P ReadState :=
  match toks with
  | [] =>
      if bool_decide (r_frames st = []) then mret End
      else if eof then fail (diagnostic Syntax (mkSpan (len text) (len text)))
      else mret More
  | (t, sp) :: toks =>
      next ← read_token r text eof t sp st;
      match next with inl st => read_loop r text eof toks st | inr answer => mret answer end
  end.

Definition read (r : Reader) (text : list Z) (toks : list (option Token * Span)) (eof : bool) : P ReadState :=
  if input_limit r <? len text then fail (diagnostic ResourceLimit (mkSpan 0 0))
  else read_loop r text eof toks (mkReading [] [] 0).

(** ** Running monadic code *)

Section running.
Context {S E A B : Type} (m : M S E A) (g : A -> M S E B) (s s1 : S).

Lemma bind_run a : m s = Some (Ok a, s1) -> (m ≫= g) s = g a s1.
Proof. intros H. unfold mbind, M_bind. by rewrite H. Qed.

Lemma bind_stop e : m s = Some (Err e, s1) -> (m ≫= g) s = Some (Err e, s1).
Proof. intros H. unfold mbind, M_bind. by rewrite H. Qed.

Lemma expect_run (o : option A) a : o = Some a -> expect o s = Some (@Ok E A a, s).
Proof. by intros ->. Qed.
End running.

(** Runs the first operation of the goal by the lemma given. *)
Tactic Notation "run" uconstr(lem) := erewrite bind_run; [|first [apply lem; solve [eauto]|apply lem]].
