(* ===== verification/LispRead.v ===== *)
(** * The reader reads what was written

    An expression as a tree, how it is spelled in tokens, and how an arena of
    nodes stands for it: the loop with its stack of open frames reads exactly
    the spellings. *)

From S2P Require Import Prelude LispSyntax.

Open Scope Z_scope.

(** ** Expressions, their nodes and their spelling *)

#[warnings="-register-all"]
Inductive sexp :=
| SAtom (a : Atom)
| SList (items : list sexp) (tail : option sexp)
| SQuote (s : sexp).

Inductive denotes (ns : list Node) : nat -> sexp -> Prop :=
| de_atom i a sp : ns !! i = Some (mkNode (DAtom a) sp) -> denotes ns i (SAtom a)
| de_list i items sp ss : ns !! i = Some (mkNode (DList items None) sp) -> denote_all ns items ss -> denotes ns i (SList ss None)
| de_dotted i items t sp ss s : ns !! i = Some (mkNode (DList items (Some t)) sp) -> denote_all ns items ss -> denotes ns t s ->
    denotes ns i (SList ss (Some s))
| de_quote i j sp s : ns !! i = Some (mkNode (DQuote j) sp) -> denotes ns j s -> denotes ns i (SQuote s)
with denote_all (ns : list Node) : list nat -> list sexp -> Prop :=
| da_nil : denote_all ns [] []
| da_cons i s js ss : denotes ns i s -> denote_all ns js ss -> denote_all ns (i :: js) (s :: ss).

Scheme denotes_mut := Minimality for denotes Sort Prop
  with denote_all_mut := Minimality for denote_all Sort Prop.
Combined Scheme denotes_ind2 from denotes_mut, denote_all_mut.

Abbreviation toks := (list (option Token * Span)).

Definition number (n : Z) : sexp := SAtom (AInteger n).

Inductive spells (text : list Z) : toks -> sexp -> Prop :=
| sp_true o : spells text [(Some TTrue, o)] (SAtom (ABoolean true))
| sp_false o : spells text [(Some TFalse, o)] (SAtom (ABoolean false))
| sp_integer o raw n : slice text (start o) (end_ o) = Some raw -> parse raw = Some n -> spells text [(Some TInteger, o)] (number n)
| sp_string o raw s : slice text (start o + 1) (end_ o - 1) = Some raw -> unescape raw = Some s ->
    spells text [(Some (TString true), o)] (SAtom (AString s))
| sp_symbol o s : slice text (start o) (end_ o) = Some s -> spells text [(Some TSymbol, o)] (SAtom (ASymbol s))
| sp_bytes o c ts b : spell_all text ts (map number b) -> Forall (fun n => 0 <= n <= 255) b ->
    spells text ((Some TBytes, o) :: ts ++ [(Some Shut, c)]) (SAtom (ABytes b))
| sp_list o c ts ss : spell_all text ts ss -> spells text ((Some Open, o) :: ts ++ [(Some Shut, c)]) (SList ss None)
| sp_dotted o d c ts ts' ss s : ss <> [] -> spell_all text ts ss -> spells text ts' s ->
    spells text ((Some Open, o) :: ts ++ (Some Dot, d) :: ts' ++ [(Some Shut, c)]) (SList ss (Some s))
| sp_quote o ts s : spells text ts s -> spells text ((Some Quote, o) :: ts) (SQuote s)
with spell_all (text : list Z) : toks -> list sexp -> Prop :=
| sa_nil : spell_all text [] []
| sa_snoc ts ts' ss s : spell_all text ts ss -> spells text ts' s -> spell_all text (ts ++ ts') (ss ++ [s]).

Scheme spells_mut := Minimality for spells Sort Prop
  with spell_all_mut := Minimality for spell_all Sort Prop.
Combined Scheme spells_ind2 from spells_mut, spell_all_mut.

(** How many frames are open at once. *)
Fixpoint sdepth (s : sexp) : nat :=
  match s with
  | SAtom (ABytes _) => 1
  | SAtom _ => 0
  | SList items tail => S (max (list_max (map sdepth items)) (match tail with Some t => sdepth t | None => 0 end))
  | SQuote s => S (sdepth s)
  end%nat.

Definition sdepths (ss : list sexp) : nat := list_max (map sdepth ss).

(** Nodes that come later change nothing. *)
Lemma denotes_app_mut ns l :
  (forall i s, denotes ns i s -> denotes (ns ++ l) i s) /\ (forall js ss, denote_all ns js ss -> denote_all (ns ++ l) js ss).
Proof.
  apply denotes_ind2; intros; try (by constructor).
  - by apply de_atom with sp, lookup_app_l_Some.
  - by apply de_list with items sp; [apply lookup_app_l_Some|].
  - by apply de_dotted with items t sp; [apply lookup_app_l_Some|..].
  - by apply de_quote with j sp; [apply lookup_app_l_Some|].
Qed.

Lemma denotes_app ns l i s : denotes ns i s -> denotes (ns ++ l) i s.
Proof. apply denotes_app_mut. Qed.

Lemma denote_all_app ns l js ss : denote_all ns js ss -> denote_all (ns ++ l) js ss.
Proof. apply denotes_app_mut. Qed.

Lemma denote_all_snoc ns js ss i s : denote_all ns js ss -> denotes ns i s -> denote_all ns (js ++ [i]) (ss ++ [s]).
Proof. induction 1; intros; simpl; constructor; auto; constructor. Qed.

(** ** Reading a spelling *)

Section reading.
Context (r : Reader) (text : list Z) (eof : bool).

Definition continue (rest : toks) (m : P (Reading + ReadState)) : P ReadState :=
  next ← m; match next with inl st => read_loop r text eof rest st | inr answer => mret answer end.

Lemma read_loop_cons t sp rest st : read_loop r text eof ((t, sp) :: rest) st = continue rest (read_token r text eof t sp st).
Proof. done. Qed.

(** The token that ends the spelling [ts]. *)
Definition ends (ts : toks) (e : Z) : Prop := exists ts' t o, ts = ts' ++ [(t, o)] /\ end_ o = e.

Definition reads (ts : toks) (s : sexp) : Prop := forall frames ns d rest,
  len frames <= d -> len frames + Z.of_nat (sdepth s) <= depth_limit r ->
  exists l id n o, let ns' := ns ++ l in denotes ns' id s /\ ns' !! id = Some n /\ ends ts (end_ (span n)) /\
    forall u, read_loop r text eof (ts ++ rest) (mkReading frames ns d) u =
              continue rest (attach text (Z.max d (len frames + Z.of_nat (sdepth s))) o frames ns' id) u.

Definition reads_all (ts : toks) (ss : list sexp) : Prop := forall o items b frames ns d rest,
  len frames + 1 <= d -> len frames + 1 + Z.of_nat (sdepths ss) <= depth_limit r ->
  exists l ids, let ns' := ns ++ l in denote_all ns' ids ss /\
    forall u, read_loop r text eof (ts ++ rest) (mkReading (FList o items None false b :: frames) ns d) u =
              read_loop r text eof rest (mkReading (FList o (items ++ ids) None false b :: frames) ns' (Z.max d (len frames + 1 + Z.of_nat (sdepths ss)))) u.

Lemma lookup_snoc {A} (l : list A) x : (l ++ [x]) !! length l = Some x.
Proof. by rewrite lookup_app_r, Nat.sub_diag by lia. Qed.

(** An atom that is one token. *)
Lemma reads_atom t o a :
  (forall st u, read_token r text eof (Some t) o st u = push_node text o (mkNode (DAtom a) o) (r_frames st) st u) ->
  sdepth (SAtom a) = O -> reads [(Some t, o)] (SAtom a).
Proof.
  intros Ht Hd frames ns d rest H1 H2. exists [mkNode (DAtom a) o], (length ns), (mkNode (DAtom a) o), o. cbn zeta.
  split_and!; [by apply de_atom with o, lookup_snoc|apply lookup_snoc|by exists [], (Some t), o|].
  intros u. simpl app. rewrite read_loop_cons. unfold continue, mbind, M_bind. rewrite Ht. unfold push_node. cbn [r_frames r_nodes r_depth].
  rewrite Hd. by replace (Z.max d (len frames + Z.of_nat 0)) with d by lia.
Qed.
Lemma len_frames_cons (f : RFrame) fs : len (f :: fs) = len fs + 1.
Proof. rewrite len_cons. lia. Qed.

(** Opening a frame there is room for. *)
Lemma open_frame_ok sp f frames ns d u :
  len frames < depth_limit r -> open_frame r sp f (mkReading frames ns d) u = Some (Ok (inl (mkReading (f :: frames) ns (Z.max d (len frames + 1)))), u).
Proof. intros H. unfold open_frame. cbn [r_frames r_nodes r_depth]. by replace (depth_limit r <=? len frames) with false by lia. Qed.

Lemma read_open t o f rest frames ns d u :
  (forall st u, read_token r text eof (Some t) o st u = open_frame r o f st u) -> len frames < depth_limit r ->
  read_loop r text eof ((Some t, o) :: rest) (mkReading frames ns d) u =
  read_loop r text eof rest (mkReading (f :: frames) ns (Z.max d (len frames + 1))) u.
Proof. intros Ht Hl. rewrite read_loop_cons. unfold continue, mbind, M_bind. by rewrite Ht, open_frame_ok. Qed.

Lemma byte_items_numbers ns ids b u :
  denote_all ns ids (map number b) -> Forall (fun n => 0 <= n <= 255) b -> byte_items ns ids u = Some (Ok b, u).
Proof.
  revert ids. induction b as [|n b IH]; intros ids Hd Hb; inversion Hd as [|i s js ss Hi Hjs]; subst; [done|].
  inversion Hb as [|?? Hn Hb']; subst. inversion Hi as [? a sp Hl| | |]; subst. simpl. unfold expect, mbind, M_bind. rewrite Hl. simpl.
  replace ((0 <=? n) && (n <=? 255)) with true by lia. by rewrite (IH js Hjs Hb').
Qed.

(** A list or a byte literal, once its items are read: the closing token. *)
Lemma reads_close o c ts ss b (n : Node) s l ids frames ns d rest :
  len frames <= d -> (forall u, read_loop r text eof (ts ++ (Some Shut, c) :: rest) (mkReading (FList o [] None false b :: frames) ns (Z.max d (len frames + 1))) u =
    read_loop r text eof ((Some Shut, c) :: rest) (mkReading (FList o ids None false b :: frames) (ns ++ l) (Z.max d (len frames + Z.of_nat (sdepth s)))) u) ->
  (b = true -> exists bs, ss = map number bs /\ Forall (fun n => 0 <= n <= 255) bs /\ datum n = DAtom (ABytes bs)) ->
  (b = false -> datum n = DList ids None) -> span n = mkSpan (start o) (end_ c) -> denote_all (ns ++ l) ids ss ->
  forall u, read_loop r text eof ((ts ++ [(Some Shut, c)]) ++ rest) (mkReading (FList o [] None false b :: frames) ns (Z.max d (len frames + 1))) u =
    continue rest (attach text (Z.max d (len frames + Z.of_nat (sdepth s))) c frames ((ns ++ l) ++ [n]) (length (ns ++ l))) u.
Proof.
  intros Hd Hl Hb Hp Hsp Hden u. rewrite <- app_assoc. simpl app. rewrite Hl, read_loop_cons. unfold continue, mbind, M_bind.
  destruct n as [dn spn]. simpl in Hsp, Hb, Hp. subst spn. unfold read_token, mbind, M_bind, lift. cbn [ok_or r_frames andb].
  destruct b.
  - destruct (Hb eq_refl) as (bs & -> & Hbs & ->). rewrite (byte_items_numbers _ _ bs) by done. done.
  - rewrite (Hp eq_refl). done.
Qed.

Lemma read_dot o i ids frames ns d sp rest u :
  read_loop r text eof ((Some Dot, sp) :: rest) (mkReading (FList o (i :: ids) None false false :: frames) ns d) u =
  read_loop r text eof rest (mkReading (FList o (i :: ids) None true false :: frames) ns d) u.
Proof. done. Qed.

Lemma read_shut_dotted o i ids t frames ns d c rest u :
  read_loop r text eof ((Some Shut, c) :: rest) (mkReading (FList o (i :: ids) (Some t) true false :: frames) ns d) u =
  continue rest (attach text d c frames (ns ++ [mkNode (DList (i :: ids) (Some t)) (mkSpan (start o) (end_ c))]) (length ns)) u.
Proof. done. Qed.

Lemma ends_app ts ts' e : ends ts' e -> ends (ts ++ ts') e.
Proof. intros (x & t & o & -> & He). exists (ts ++ x), t, o. by rewrite app_assoc. Qed.

Lemma spelled_read : (forall ts s, spells text ts s -> reads ts s) /\ (forall ts ss, spell_all text ts ss -> reads_all ts ss).
Proof.
  apply spells_ind2.
  - intros o. by apply reads_atom.
  - intros o. by apply reads_atom.
  - intros o raw n Hs Hn. apply reads_atom; [|done]. intros st u. unfold read_token, mbind, M_bind, expect, lift. simpl. by rewrite Hs, Hn.
  - intros o raw s Hs Hn. apply reads_atom; [|done]. intros st u. unfold read_token, string, mbind, M_bind, expect, lift. simpl. by rewrite Hs, Hn.
  - intros o s Hs. apply reads_atom; [|done]. intros st u. unfold read_token, mbind, M_bind, expect, lift. simpl. by rewrite Hs.
  - intros o c ts b _ IH Hb frames ns d rest H1 H2. cbn [sdepth] in H2.
    assert (sdepths (map number b) = O) as Hz by (clear; induction b as [|n b IH]; [done|]; unfold sdepths in *; simpl; done).
    destruct (IH o [] true frames ns (Z.max d (len frames + 1)) ((Some Shut, c) :: rest) ltac:(lia) ltac:(lia)) as (l & ids & Hden & Hrun).
    rewrite Hz in Hrun. set (n := mkNode (DAtom (ABytes b)) (mkSpan (start o) (end_ c))).
    exists (l ++ [n]), (length (ns ++ l)), n, c. cbn zeta. rewrite app_assoc.
    split_and!; [by eapply de_atom, lookup_snoc|apply lookup_snoc|by exists ((Some TBytes, o) :: ts), (Some Shut), c|]. intros u.
    rewrite <- app_comm_cons, (read_open _ o (FList o [] None false true)) by (done || lia).
    apply (reads_close o c ts (map number b) true n (SAtom (ABytes b)) l ids); try done; [|eauto].
    intros u'. rewrite Hrun. simpl app. do 2 f_equal. simpl sdepth. lia.
  - intros o c ts ss _ IH frames ns d rest H1 H2. cbn [sdepth] in H2. fold (sdepths ss) in H2.
    destruct (IH o [] false frames ns (Z.max d (len frames + 1)) ((Some Shut, c) :: rest) ltac:(lia) ltac:(lia)) as (l & ids & Hden & Hrun).
    set (n := mkNode (DList ids None) (mkSpan (start o) (end_ c))).
    exists (l ++ [n]), (length (ns ++ l)), n, c. cbn zeta. rewrite app_assoc.
    split_and!; [eapply de_list; [apply lookup_snoc|by apply denote_all_app]|apply lookup_snoc|by exists ((Some Open, o) :: ts), (Some Shut), c|]. intros u.
    rewrite <- app_comm_cons, (read_open _ o (FList o [] None false false)) by (done || lia).
    apply (reads_close o c ts ss false n (SList ss None) l ids); try done.
    intros u'. rewrite Hrun. simpl app. do 2 f_equal. cbn [sdepth]. fold (sdepths ss). lia.
  - intros o dt c ts ts' ss s Hne _ IH _ IHt frames ns d rest H1 H2. cbn [sdepth] in H2. fold (sdepths ss) in H2.
    destruct (IH o [] false frames ns (Z.max d (len frames + 1)) ((Some Dot, dt) :: ts' ++ (Some Shut, c) :: rest) ltac:(lia) ltac:(lia)) as (l & ids & Hden & Hrun).
    set (d1 := Z.max (Z.max d (len frames + 1)) (len frames + 1 + Z.of_nat (sdepths ss))) in *.
    destruct ids as [|i ids]; [by inversion Hden; subst|]. set (f := FList o (i :: ids) None true false).
    destruct (IHt (f :: frames) (ns ++ l) d1 ((Some Shut, c) :: rest) ltac:(rewrite len_frames_cons; lia) ltac:(rewrite len_frames_cons; lia)) as (l' & t & nt & o' & Hdt & _ & _ & Hrt).
    set (n := mkNode (DList (i :: ids) (Some t)) (mkSpan (start o) (end_ c))).
    exists (l ++ l' ++ [n]), (length ((ns ++ l) ++ l')), n, c. cbn zeta. replace (ns ++ l ++ l' ++ [n]) with (((ns ++ l) ++ l') ++ [n]) by (by rewrite !app_assoc).
    split_and!; [eapply de_dotted; [apply lookup_snoc|by do 2 apply denote_all_app|by apply denotes_app]|apply lookup_snoc| |].
    { replace (ts ++ (Some Dot, dt) :: ts' ++ [(Some Shut, c)]) with ((ts ++ (Some Dot, dt) :: ts') ++ [(Some Shut, c)]) by (by rewrite <- app_assoc).
      by exists ((Some Open, o) :: ts ++ (Some Dot, dt) :: ts'), (Some Shut), c. }
    intros u. rewrite <- app_comm_cons, (read_open _ o (FList o [] None false false)) by (done || lia).
    replace ((ts ++ (Some Dot, dt) :: ts' ++ [(Some Shut, c)]) ++ rest) with (ts ++ (Some Dot, dt) :: ts' ++ (Some Shut, c) :: rest) by (rewrite <- !app_assoc; simpl; by rewrite <- app_assoc).
    rewrite Hrun. simpl app. rewrite (read_dot o i ids frames (ns ++ l) d1). fold f. rewrite Hrt. unfold f at 1. simpl attach.
    unfold continue at 1, mbind, M_bind, mret, M_ret. rewrite (read_shut_dotted o i ids t). unfold continue, mbind, M_bind.
    rewrite len_frames_cons. cbn [sdepth]. fold (sdepths ss).
    by replace (Z.max d1 (len frames + 1 + Z.of_nat (sdepth s))) with (Z.max d (len frames + Z.of_nat (S (max (sdepths ss) (sdepth s))))) by lia.
  - intros o ts s _ IH frames ns d rest H1 H2. cbn [sdepth] in H2.
    destruct (IH (FQuote o :: frames) ns (Z.max d (len frames + 1)) rest ltac:(rewrite len_frames_cons; lia) ltac:(rewrite len_frames_cons; lia)) as (l & j & nj & o' & Hd & Hj & He & Hrun).
    set (n := mkNode (DQuote j) (mkSpan (start o) (end_ (span nj)))). exists (l ++ [n]), (length (ns ++ l)), n, o'. cbn zeta. rewrite app_assoc.
    split_and!; [eapply de_quote; [apply lookup_snoc|by apply denotes_app]|apply lookup_snoc|by apply (ends_app [(Some Quote, o)])|]. intros u.
    rewrite <- app_comm_cons, (read_open _ o (FQuote o)) by (done || lia). rewrite Hrun.
    simpl attach. unfold continue, mbind, M_bind, expect. rewrite Hj. fold n. rewrite len_frames_cons. cbn [sdepth].
    by replace (Z.max (Z.max d (len frames + 1)) (len frames + 1 + Z.of_nat (sdepth s))) with (Z.max d (len frames + Z.of_nat (S (sdepth s)))) by lia.
  - intros o items b frames ns d rest H1 H2. exists [], []. cbn zeta. rewrite !app_nil_r. split; [constructor|]. intros u.
    by replace (Z.max d (len frames + 1 + Z.of_nat (sdepths []))) with d by (unfold sdepths; simpl; lia).
  - intros ts ts' ss s _ IH _ IHs o items b frames ns d rest H1 H2.
    assert (sdepths (ss ++ [s]) = max (sdepths ss) (sdepth s)) as Hsd by (unfold sdepths; rewrite map_app, list_max_app; simpl; lia). rewrite Hsd in *.
    destruct (IH o items b frames ns d (ts' ++ rest) ltac:(lia) ltac:(lia)) as (l & ids & Hden & Hrun).
    set (d1 := Z.max d _) in Hrun. set (f := FList o (items ++ ids) None false b) in Hrun.
    destruct (IHs (f :: frames) (ns ++ l) d1 rest ltac:(rewrite len_frames_cons; lia) ltac:(rewrite len_frames_cons; lia)) as (l' & id & n & o' & Hd & _ & _ & Hr).
    exists (l ++ l'), (ids ++ [id]). cbn zeta. rewrite !app_assoc. split; [by apply denote_all_snoc; [apply denote_all_app|]|]. intros u.
    rewrite <- app_assoc, Hrun, Hr. unfold f. simpl attach. unfold continue, mbind, M_bind, mret, M_ret. rewrite len_frames_cons.
    by replace (Z.max d1 (len frames + 1 + Z.of_nat (sdepth s))) with (Z.max d (len frames + 1 + Z.of_nat (max (sdepths ss) (sdepth s)))) by lia.
Qed.
End reading.

(** ** What was read was a spelling *)

(** The tokens so far, [ts], with the frames they opened; what is finished is
    at most [d] deep. *)
Inductive parsed (text : list Z) (ns : list Node) (d : Z) : list RFrame -> toks -> Prop :=
| pa_nil : parsed text ns d [] []
| pa_quote o fs ts : parsed text ns d fs ts -> parsed text ns d (FQuote o :: fs) (ts ++ [(Some Quote, o)])
| pa_open o items (bytes : bool) fs ts ts' ss : parsed text ns d fs ts -> spell_all text ts' ss -> denote_all ns items ss ->
    len fs + 1 + Z.of_nat (sdepths ss) <= d ->
    parsed text ns d (FList o items None false bytes :: fs) (ts ++ (Some (if bytes then TBytes else Open), o) :: ts')
| pa_dot o items fs ts ts' ss x : parsed text ns d fs ts -> spell_all text ts' ss -> denote_all ns items ss -> ss <> [] ->
    len fs + 1 + Z.of_nat (sdepths ss) <= d ->
    parsed text ns d (FList o items None true false :: fs) (ts ++ (Some Open, o) :: ts' ++ [(Some Dot, x)])
| pa_tail o items t fs ts ts' ts'' ss s x : parsed text ns d fs ts -> spell_all text ts' ss -> denote_all ns items ss -> ss <> [] ->
    spells text ts'' s -> denotes ns t s -> len fs + 1 + Z.of_nat (max (sdepths ss) (sdepth s)) <= d ->
    parsed text ns d (FList o items (Some t) true false :: fs) (ts ++ (Some Open, o) :: ts' ++ (Some Dot, x) :: ts'').

Lemma parsed_mono text ns l d d' fs ts : d <= d' -> parsed text ns d fs ts -> parsed text (ns ++ l) d' fs ts.
Proof.
  intros Hd. induction 1; [constructor|by constructor|..].
  - econstructor; [done|done|by apply denote_all_app|lia].
  - econstructor; [done|done|by apply denote_all_app|done|lia].
  - eapply pa_tail; [done|done|by apply denote_all_app|done|done|by apply denotes_app|lia].
Qed.

Definition spelled (text : list Z) (limit : Z) (ts : toks) : Prop :=
  exists s, spells text ts s /\ Z.of_nat (sdepth s) <= limit.

(** What a round may leave behind. *)
Definition sound (text : list Z) (limit : Z) (ts : toks) (o : option (result Diagnostic (Reading + ReadState) * unit)) : Prop :=
  match o with
  | None => False
  | Some (Err _, _) => True
  | Some (Ok (inl st), _) => parsed text (r_nodes st) (r_depth st) (r_frames st) ts /\ len (r_frames st) <= r_depth st <= limit
  | Some (Ok (inr (Complete _ _)), _) => spelled text limit ts
  | Some (Ok (inr _), _) => True
  end.

Lemma attach_sound text limit d sp fs : forall ns id ts ts' s u,
  parsed text ns d fs ts -> d <= limit -> spells text ts' s -> denotes ns id s -> len fs + Z.of_nat (sdepth s) <= d ->
  sound text limit (ts ++ ts') (attach text d sp fs ns id u).
Proof.
  induction fs as [|f fs IH]; intros ns id ts ts' s u Hp Hd Hs Hden Hdep.
  - inversion Hp; subst. simpl. assert (is_Some (ns !! id)) as [n Hn] by (inversion Hden; subst; eauto).
    unfold mbind, M_bind, expect. rewrite Hn. exists s. split; [done|]. change (len (@nil RFrame)) with 0 in Hdep. lia.
  - rewrite len_cons in Hdep.
    inversion Hp as [|o fs' ts0 Hp'|o items b fs' ts0 ts1 ss Hp' Hss Hda Hl|o items fs' ts0 ts1 ss x Hp' Hss Hda Hne Hl|o items t fs' ts0 ts1 ts2 ss s' x Hp' Hss Hda Hne Hs' Ht Hl]; subst.
    + simpl. assert (is_Some (ns !! id)) as [n Hn] by (inversion Hden; subst; eauto). unfold mbind, M_bind, expect. rewrite Hn.
      rewrite <- app_assoc. apply (IH _ _ _ ([(Some Quote, o)] ++ ts') (SQuote s)); [by apply (parsed_mono _ _ _ d)|done|by constructor| |].
      * eapply de_quote; [apply lookup_snoc|by apply denotes_app].
      * cbn [sdepth]. lia.
    + simpl. split; [|cbn [r_frames r_depth]; rewrite len_cons; lia]. cbn [r_frames r_nodes r_depth]. rewrite <- app_assoc. simpl app.
      apply (pa_open _ _ _ o (items ++ [id]) b fs ts0 (ts1 ++ ts') (ss ++ [s])); [done|by constructor|by apply denote_all_snoc|].
      unfold sdepths in *. rewrite map_app, list_max_app. simpl. lia.
    + simpl. split; [|cbn [r_frames r_depth]; rewrite len_cons; lia]. cbn [r_frames r_nodes r_depth]. rewrite <- app_assoc. simpl app. rewrite <- app_assoc. simpl app.
      eapply pa_tail; try done. lia.
    + done.
Qed.

Lemma byte_items_inv ns items ss u :
  denote_all ns items ss ->
  match byte_items ns items u with
  | None => False
  | Some (Err _, _) => True
  | Some (Ok b, _) => ss = map number b /\ Forall (fun n => 0 <= n <= 255) b
  end.
Proof.
  induction 1 as [|i s js ss Hi Hjs IH]; [by split; [|constructor]|]. simpl. unfold mbind, M_bind, expect.
  assert (is_Some (ns !! i)) as [n Hn] by (inversion Hi; subst; eauto). rewrite Hn. destruct n as [dt sp]. simpl.
  destruct dt as [[k|?|?|?|?]|?|?]; try done. destruct ((0 <=? k) && (k <=? 255)) eqn:Hk; [|done].
  destruct (byte_items ns js u) as [[[b|e] u']|]; [|done|done]. destruct IH as [-> Hb]. unfold mret, M_ret. split; [|constructor; [lia|done]].
  inversion Hi; subst; simplify_eq/=. done.
Qed.

(** A token lies in the text; a string literal has its quotation marks. *)
Definition in_text (text : list Z) (t : option Token * Span) : Prop :=
  0 <= start t.2 /\ end_ t.2 <= len text /\
  start t.2 + (match t.1 with Some (TString true) => 2 | Some (TString false) => 1 | _ => 0 end) <= end_ t.2.

Lemma slice_some text a b : 0 <= a -> a <= b -> b <= len text -> exists s, slice text a b = Some s.
Proof. intros Ha Hb Hc. unfold slice. replace ((0 <=? a) && (a <=? b) && (b <=? len text)) with true by lia. eauto. Qed.

Lemma push_sound text limit d sp n fs ts ts' s ns u :
  parsed text ns d fs ts -> d <= limit -> spells text ts' s -> denotes (ns ++ [n]) (length ns) s -> len fs + Z.of_nat (sdepth s) <= d ->
  sound text limit (ts ++ ts') (push_node text sp n fs (mkReading [] ns d) u).
Proof. intros Hp Hd Hs Hden Hl. apply (attach_sound text limit d sp fs _ _ ts ts' s); try done. by apply (parsed_mono _ _ _ d). Qed.

Lemma read_token_sound r text eof t o st ts u :
  in_text text (t, o) -> parsed text (r_nodes st) (r_depth st) (r_frames st) ts -> r_depth st <= depth_limit r -> len (r_frames st) <= r_depth st ->
  sound text (depth_limit r) (ts ++ [(t, o)]) (read_token r text eof t o st u).
Proof.
  intros (Ha & Hb & Hc) Hp Hd Hl. simpl in Ha, Hb, Hc. destruct st as [fs ns d]. cbn [r_frames r_nodes r_depth] in *. destruct t as [t|]; [|done].
  assert (forall a s, sdepth (SAtom a) = O -> spells text [(Some t, o)] (SAtom a) -> s = mkNode (DAtom a) o ->
    sound text (depth_limit r) (ts ++ [(Some t, o)]) (push_node text o s fs (mkReading fs ns d) u)) as Hatom.
  { intros a s Hz Hsp ->. apply (push_sound _ _ d o _ fs ts _ (SAtom a)); try done; [eapply de_atom, lookup_snoc|]. rewrite Hz. lia. }
  assert (forall f, parsed text ns (Z.max d (len fs + 1)) (f :: fs) (ts ++ [(Some t, o)]) ->
    sound text (depth_limit r) (ts ++ [(Some t, o)]) (open_frame r o f (mkReading fs ns d) u)) as Hopen.
  { intros f Hf. unfold open_frame. cbn [r_frames r_nodes r_depth]. destruct (depth_limit r <=? len fs) eqn:Hlim; [done|]. split; [done|].
    cbn [r_depth r_frames]. rewrite len_cons. lia. }
  assert (parsed text ns (Z.max d (len fs + 1)) fs ts) as Hp'.
  { rewrite <- (app_nil_r ns). apply (parsed_mono _ _ _ d); [lia|done]. }
  destruct t as [| | | | | | | |[]|]; unfold read_token, mbind, M_bind, lift; cbn [ok_or r_frames r_nodes r_depth].
  - apply Hopen. apply (pa_open _ _ _ o [] false fs ts [] []); [done|constructor|constructor|]. unfold sdepths. simpl. lia.
  - inversion Hp as [|o' fs' ts0 Hq|o' items b fs' ts0 ts1 ss Hq Hss Hda Hl'|o' items fs' ts0 ts1 ss x Hq Hss Hda Hne Hl'|o' items t' fs' ts0 ts1 ts2 ss s' x Hq Hss Hda Hne Hs' Ht Hl']; subst; try done;
    rewrite <- app_assoc; simpl app; rewrite ?len_cons in *.
    + destruct b; cbn [andb].
      * pose proof (byte_items_inv ns items ss u Hda) as Hbi. destruct (byte_items ns items u) as [[[b|e] u']|]; [|done|done].
        destruct Hbi as [-> Hbb]. apply (push_sound _ _ d o _ fs' ts0 _ (SAtom (ABytes b))); try done; [by constructor|eapply de_atom, lookup_snoc|].
        cbn [sdepth]. lia.
      * apply (push_sound _ _ d o _ fs' ts0 _ (SList ss None)); try done; [by constructor|eapply de_list; [apply lookup_snoc|by apply denote_all_app]|].
        cbn [sdepth]. fold (sdepths ss). lia.
    + rewrite bool_decide_eq_false_2 by done. cbn [andb]. rewrite <- app_assoc. simpl app.
      apply (push_sound _ _ d o _ fs' ts0 _ (SList ss (Some s'))); try done; [by constructor| |].
      * eapply de_dotted; [apply lookup_snoc|by apply denote_all_app|by apply denotes_app].
      * cbn [sdepth]. fold (sdepths ss). lia.
  - apply Hopen. by constructor.
  - inversion Hp as [|o' fs' ts0 Hq|o' items b fs' ts0 ts1 ss Hq Hss Hda Hl'|o' items fs' ts0 ts1 ss x Hq Hss Hda Hne Hl'|o' items t' fs' ts0 ts1 ts2 ss s' x Hq Hss Hda Hne Hs' Ht Hl']; subst; try done;
    destruct items as [|i items]; try done; destruct b; try done. cbn [r_frames]. split; [|cbn [r_frames r_depth]; rewrite !len_cons in *; lia]. cbn [r_frames r_nodes r_depth].
    rewrite <- app_assoc. simpl app. eapply pa_dot; try done. intros ->. by inversion Hda.
  - apply Hatom with (ABoolean true); [done|constructor|done].
  - apply Hatom with (ABoolean false); [done|constructor|done].
  - apply Hopen. apply (pa_open _ _ _ o [] true fs ts [] []); [done|constructor|constructor|]. unfold sdepths. simpl. lia.
  - destruct (slice_some text (start o) (end_ o)) as [raw Hr]; [lia..|]. unfold expect. rewrite Hr.
    destruct (parse raw) as [n|] eqn:Hn; [|done]. cbn [ok_or]. apply Hatom with (AInteger n); [done|by eapply sp_integer|done].
  - unfold string, mbind, M_bind, expect, lift. destruct (slice_some text (start o + 1) (end_ o - 1)) as [raw Hr]; [lia..|]. rewrite Hr.
    destruct (unescape raw) as [s|] eqn:Hn; [|done]. cbn [ok_or]. apply Hatom with (AString s); [done|by eapply sp_string|done].
  - unfold unfinished, mbind, M_bind, expect. destruct (slice_some text (start o + 1) (end_ o)) as [raw Hr]; [lia..|]. rewrite Hr.
    destruct (escapes_ok raw); [|done]. by destruct eof.
  - destruct (slice_some text (start o) (end_ o)) as [raw Hr]; [lia..|]. unfold expect. rewrite Hr.
    apply Hatom with (ASymbol raw); [done|by eapply sp_symbol|done].
Qed.

Lemma read_loop_sound r text eof ts : forall st done u,
  Forall (in_text text) ts -> parsed text (r_nodes st) (r_depth st) (r_frames st) done -> len (r_frames st) <= r_depth st <= depth_limit r ->
  match read_loop r text eof ts st u with
  | None => False
  | Some (Ok (Complete _ _), _) => exists ts' rest, done ++ ts = ts' ++ rest /\ spelled text (depth_limit r) ts'
  | Some _ => True
  end.
Proof.
  induction ts as [|[t o] ts IH]; intros st done u Hin Hp Hd; simpl.
  - case_bool_decide; [done|]. by destruct eof.
  - inversion Hin as [|?? Ht Hts]; subst. pose proof (read_token_sound r text eof t o st done u Ht Hp (proj2 Hd) (proj1 Hd)) as Hs.
    unfold mbind, M_bind. destruct (read_token r text eof t o st u) as [[[[st'|answer]|e] u']|]; [| |done|done].
    + destruct Hs as [Hp' Hd']. specialize (IH st' (done ++ [(t, o)]) u' Hts Hp' Hd'). by rewrite <- app_assoc in IH.
    + unfold mret, M_ret. destruct answer as [f c| |]; [|done|done]. exists (done ++ [(t, o)]), ts. split; [by rewrite <- app_assoc|done].
Qed.

(** C39: The reader reads exactly what the grammar spells.  Given tokens that
    lie in the text it never panics; it answers with a form if and only if the
    input is within its limit and some beginning of the tokens spells an
    expression no deeper than the limit.  The form then stands for that
    expression, its depth is the depth of the expression, and what was consumed
    ends with the last token of it, whatever follows. *)
Theorem read_exact r text ts eof :
  0 <= depth_limit r -> Forall (in_text text) ts ->
  exists answer, read r text ts eof tt = Some (answer, tt) /\
  match answer with
  | Ok (Complete f c) => len text <= input_limit r /\ exists ts' rest s, ts = ts' ++ rest /\ spells text ts' s /\
      denotes (nodes f) (root f) s /\ depth f = Z.of_nat (sdepth s) /\ Z.of_nat (sdepth s) <= depth_limit r /\ source f = text /\ ends ts' c
  | _ => input_limit r < len text \/ forall ts' rest, ts = ts' ++ rest -> ~ spelled text (depth_limit r) ts'
  end.
Proof.
  intros Hr Hin. unfold read. destruct (input_limit r <? len text) eqn:Hlim; [eexists; split; [done|left; lia]|].
  pose proof (read_loop_sound r text eof ts (mkReading [] [] 0) [] tt Hin ltac:(constructor) ltac:(cbn; unfold len; simpl; lia)) as Hs.
  assert (forall ts' rest s, ts = ts' ++ rest -> spells text ts' s -> Z.of_nat (sdepth s) <= depth_limit r ->
    exists f c, read_loop r text eof ts (mkReading [] [] 0) tt = Some (Ok (Complete f c), tt) /\
      denotes (nodes f) (root f) s /\ depth f = Z.of_nat (sdepth s) /\ source f = text /\ ends ts' c) as Hc.
  { intros ts' rest s -> Hsp Hdep. destruct (proj1 (spelled_read r text eof) ts' s Hsp [] [] 0 rest) as (l & id & n & o & Hden & Hn & He & Hrun).
    { unfold len. simpl. lia. } { unfold len. simpl. lia. }
    rewrite Hrun. simpl attach. unfold continue, mbind, M_bind, expect. simpl in Hn, Hden. rewrite Hn. unfold mret, M_ret.
    do 2 eexists. split; [done|]. split_and!; [done| |done|done]. simpl. unfold len. simpl. lia. }
  destruct (read_loop r text eof ts (mkReading [] [] 0) tt) as [[answer []]|] eqn:Hrun; [|done]. exists answer. split; [done|].
  destruct answer as [[f c| |]|e].
  - destruct Hs as (ts' & rest & Heq & s & Hsp & Hdep). simpl in Heq. destruct (Hc ts' rest s Heq Hsp Hdep) as (f' & c' & [= <- <-] & A & B & C & D).
    split; [lia|]. exists ts', rest, s. by split_and!.
  - right. intros ts' rest Heq (s & Hsp & Hdep). by destruct (Hc ts' rest s Heq Hsp Hdep) as (f' & c' & Hx & _).
  - right. intros ts' rest Heq (s & Hsp & Hdep). by destruct (Hc ts' rest s Heq Hsp Hdep) as (f' & c' & Hx & _).
  - right. intros ts' rest Heq (s & Hsp & Hdep). by destruct (Hc ts' rest s Heq Hsp Hdep) as (f' & c' & Hx & _).
Qed.

(** [(a . 7)] *)
Definition dotted_text : list Z := [40; 97; 32; 46; 32; 55; 41].
Definition dotted_tokens : toks :=
  [(Some Open, mkSpan 0 1); (Some TSymbol, mkSpan 1 2); (Some Dot, mkSpan 3 4); (Some TInteger, mkSpan 5 6); (Some Shut, mkSpan 6 7)].

Lemma read_exact_witness : exists f c, read Reader_default dotted_text dotted_tokens true tt = Some (Ok (Complete f c), tt) /\
  exists ts rest s, dotted_tokens = ts ++ rest /\ spells dotted_text ts s.
Proof.
  assert (0 <= depth_limit Reader_default) as H1 by (vm_compute; discriminate).
  assert (Forall (in_text dotted_text) dotted_tokens) as H2 by (repeat (constructor; [vm_compute; split_and!; discriminate|]); constructor).
  destruct (read_exact Reader_default dotted_text dotted_tokens true H1 H2) as (answer & Hr & Ha).
  assert (exists f c, read Reader_default dotted_text dotted_tokens true tt = Some (Ok (Complete f c), tt)) as (f & c & Hf) by (do 2 eexists; vm_compute; reflexivity).
  exists f, c. split; [exact Hf|]. rewrite Hf in Hr. injection Hr as <-. destruct Ha as (_ & ts & rest & s & He & Hs & _). exists ts, rest, s. split; [exact He|exact Hs].
Defined.
