(* ===== verification/LispLower.v ===== *)
(** * From nodes to expressions: [crates/lisp/src/syntax/lower.rs]

    The compiler works off a stack: visiting a node leaves its expression among
    the results or puts the visits of its parts on the stack, above the step
    that builds it from them.  Names are resolved against frames of parameters
    that know their parent. *)

From Stdlib Require Import String Ascii.
From S2P Require Import Prelude LispSyntax.

Open Scope Z_scope.

(** The bytes of a text. *)
Definition text_of (s : String.string) : list Z := map (fun a => Z.of_nat (nat_of_ascii a)) (list_ascii_of_string s).

Inductive Binding := Local (depth slot : nat) | Global (name : list Z).

Inductive Expr :=
| ELiteral (a : Atom)
| EQuote (node : nat)
| EReference (b : Binding)
| EIf (test yes no : nat)
| ESequence (parts : list nat)
| ELambda (params body : nat)
| ECall (function : nat) (args : list nat)
| EDefine (name : list Z) (value : nat)
| EAssign (b : Binding) (value : nat).

Record Expression := mkExpression { expr : Expr; e_span : Span }.

Record Module_ := mkModule { form : Form; expressions : list Expression; m_root : nat }.

Record ScopeFrame := mkScopeFrame { s_parent : option nat; s_names : list (list Z) }.

Inductive Build :=
| BIf
| BSequence (n : nat)
| BLambda (n : nat)
| BCall (n : nat)
| BDefine (name : list Z)
| BAssign (b : Binding)
| BLet (n : nat).

Inductive Work := Visit (id : nat) (scope : option nat) (top : bool) | Build_ (b : Build) (s : Span).

Record Lowering := mkLowering {
  l_work : list Work;
  l_scopes : list ScopeFrame;
  l_results : list nat;
  l_expressions : list Expression
}.

Abbreviation LW := (M Lowering Diagnostic).

Definition symbol (f : Form) (id : nat) : LW (option (list Z)) :=
  n ← expect (nodes f !! id);
  mret (match datum n with DAtom (ASymbol s) => Some s | _ => None end).

Definition list_ (f : Form) (id : nat) : LW (option (list nat)) :=
  n ← expect (nodes f !! id);
  mret (match datum n with DList items None => Some items | _ => None end).

(** The loop of [binding]; a parent comes before its children, so the number of
    frames is enough. *)
Fixpoint binding_at (fuel : nat) (name : list Z) (scopes : list ScopeFrame) (scope : option nat) (depth : nat) : option Binding :=
  match fuel, scope with
  | _, None => Some (Global name)
  | O, Some _ => None
  | S fuel, Some index =>
      frame ← scopes !! index;
      match position (fun s => bool_decide (s = name)) (s_names frame) with
      | Some slot => Some (Local depth slot)
      | None => binding_at fuel name scopes (s_parent frame) (S depth)
      end
  end.

Definition binding (name : list Z) (scope : option nat) : LW Binding :=
  st ← get; expect (binding_at (length (l_scopes st)) name (l_scopes st) scope 0).

Fixpoint parameters_from (f : Form) (ids : list nat) (params : list (list Z)) : LW (list (list Z)) :=
  match ids with
  | [] => mret params
  | id :: ids =>
      n ← expect (nodes f !! id);
      name ← symbol f id;
      name ← lift (ok_or name (diagnostic Syntax (span n)));
      if any (fun p => bool_decide (p = name)) params then fail (diagnostic Syntax (span n))
      else parameters_from f ids (params ++ [name])
  end.

Definition parameters (f : Form) (ids : list nat) : LW (list (list Z)) := parameters_from f ids [].

Definition push (e : Expr) (s : Span) : LW nat :=
  st ← get;
  put (mkLowering (l_work st) (l_scopes st) (l_results st) (l_expressions st ++ [mkExpression e s])) ;;
  mret (length (l_expressions st)).

Definition push_result (id : nat) : LW unit :=
  st ← get; put (mkLowering (l_work st) (l_scopes st) (l_results st ++ [id]) (l_expressions st)).

Definition result (e : Expr) (s : Span) : LW unit := id ← push e s; push_result id.

(** The last one pushed is the first of the list. *)
Definition push_work (ws : list Work) : LW unit :=
  st ← get; put (mkLowering (ws ++ l_work st) (l_scopes st) (l_results st) (l_expressions st)).

Definition visits (ids : list nat) (scope : option nat) (top : bool) : list Work := map (fun id => Visit id scope top) ids.

Definition push_scope (parent : option nat) (names : list (list Z)) : LW (option nat) :=
  st ← get;
  put (mkLowering (l_work st) (l_scopes st ++ [mkScopeFrame parent names]) (l_results st) (l_expressions st)) ;;
  mret (Some (length (l_scopes st))).

(** The bindings of [let]. *)
Fixpoint let_pairs (f : Form) (sp : Span) (bindings : list nat) : LW (list (nat * nat)) :=
  match bindings with
  | [] => mret []
  | entry :: bindings =>
      pair ← list_ f entry;
      match pair with
      | Some [name; value] => rest ← let_pairs f sp bindings; mret ((name, value) :: rest)
      | _ => fail (diagnostic Syntax sp)
      end
  end.

Definition is_kw (name : option (list Z)) (k : String.string) : bool := bool_decide (name = Some (text_of k)).

(** [Work::Visit] of a list that is not empty. *)
Definition visit_list (f : Form) (sp : Span) (scope : option nat) (top : bool) (items : list nat) (first : nat) : LW unit :=
  name ← symbol f first;
  let n := length items in
  if is_kw name "quote" then
    match items with [_; d] => result (EQuote d) sp | _ => fail (diagnostic Syntax sp) end
  else if is_kw name "if" then
    if bool_decide (n = 4%nat) then push_work (visits (drop 1 items) scope false ++ [Build_ BIf sp])
    else fail (diagnostic Syntax sp)
  else if is_kw name "begin" then
    push_work (visits (drop 1 items) scope top ++ [Build_ (BSequence (n - 1)) sp])
  else if is_kw name "lambda" then
    match items with
    | _ :: ps :: _ :: _ =>
        ids ← list_ f ps;
        ids ← lift (ok_or ids (diagnostic Syntax sp));
        params ← parameters f ids;
        inner ← push_scope scope params;
        push_work (visits (drop 2 items) inner false ++ [Build_ (BSequence (n - 2)) sp; Build_ (BLambda (length params)) sp])
    | _ => fail (diagnostic Syntax sp)
    end
  else if is_kw name "define" then
    if negb top then fail (diagnostic Syntax sp)
    else match items with
         | _ :: target :: value :: _ =>
             name ← symbol f target;
             match name with
             | Some name =>
                 if bool_decide (n = 3%nat) then push_work [Visit value scope false; Build_ (BDefine name) sp]
                 else fail (diagnostic Syntax sp)
             | None =>
                 header ← list_ f target;
                 match header with
                 | Some (h :: ps) =>
                     name ← symbol f h;
                     name ← lift (ok_or name (diagnostic Syntax sp));
                     params ← parameters f ps;
                     inner ← push_scope scope params;
                     push_work (visits (drop 2 items) inner false ++
                       [Build_ (BSequence (n - 2)) sp; Build_ (BLambda (length params)) sp; Build_ (BDefine name) sp])
                 | _ => fail (diagnostic Syntax sp)
                 end
             end
         | _ => fail (diagnostic Syntax sp)
         end
  else if is_kw name "set!" then
    match items with
    | [_; target; value] =>
        name ← symbol f target;
        name ← lift (ok_or name (diagnostic Syntax sp));
        b ← binding name scope;
        push_work [Visit value scope false; Build_ (BAssign b) sp]
    | _ => fail (diagnostic Syntax sp)
    end
  else if is_kw name "let" then
    match items with
    | _ :: bs :: _ :: _ =>
        bindings ← list_ f bs;
        bindings ← lift (ok_or bindings (diagnostic Syntax sp));
        pairs ← let_pairs f sp bindings;
        params ← parameters f (map fst pairs);
        inner ← push_scope scope params;
        push_work (visits (map snd pairs) scope false ++ visits (drop 2 items) inner false ++
          [Build_ (BSequence (n - 2)) sp; Build_ (BLet (length bindings)) sp])
    | _ => fail (diagnostic Syntax sp)
    end
  else push_work (visits items scope false ++ [Build_ (BCall (n - 1)) sp]).

Definition visit (f : Form) (id : nat) (scope : option nat) (top : bool) : LW unit :=
  node ← expect (nodes f !! id);
  let sp := span node in
  match datum node with
  | DAtom (ASymbol s) => b ← binding s scope; result (EReference b) sp
  | DAtom atom => result (ELiteral atom) sp
  | DQuote quoted => result (EQuote quoted) sp
  | DList _ (Some _) => fail (diagnostic Syntax sp)
  | DList [] None => result (EQuote id) sp
  | DList (first :: items) None => visit_list f sp scope top (first :: items) first
  end.

(** [results.split_off(results.len() - count)]. *)
Definition split_off (count : nat) : LW (list nat) :=
  st ← get;
  let n := length (l_results st) in
  if bool_decide (count <= n)%nat then
    put (mkLowering (l_work st) (l_scopes st) (take (n - count) (l_results st)) (l_expressions st)) ;;
    mret (drop (n - count) (l_results st))
  else panic.

Definition build_count (b : Build) : nat :=
  match b with
  | BIf => 3
  | BSequence n => n
  | BCall n | BLet n => n + 1
  | _ => 1
  end.

Definition build (b : Build) (sp : Span) : LW unit :=
  parts ← split_off (build_count b);
  e ← match b with
      | BIf =>
          test ← expect (parts !! 0%nat); yes ← expect (parts !! 1%nat); no ← expect (parts !! 2%nat);
          mret (EIf test yes no)
      | BSequence _ => mret (ESequence parts)
      | BLambda params => body ← expect (parts !! 0%nat); mret (ELambda params body)
      | BCall _ => function ← expect (parts !! 0%nat); mret (ECall function (drop 1 parts))
      | BDefine name => value ← expect (parts !! 0%nat); mret (EDefine name value)
      | BAssign b => value ← expect (parts !! 0%nat); mret (EAssign b value)
      | BLet params =>
          body ← expect (parts !! params);
          function ← push (ELambda params body) sp;
          mret (ECall function (take params parts))
      end;
  result e sp.

Fixpoint lower_loop (fuel : nat) (f : Form) : LW unit :=
  match fuel with
  | O => panic
  | S fuel =>
      st ← get;
      match l_work st with
      | [] => mret tt
      | w :: ws =>
          put (mkLowering ws (l_scopes st) (l_results st) (l_expressions st)) ;;
          match w with
          | Visit id scope top => visit f id scope top
          | Build_ b s => build b s
          end ;;
          lower_loop fuel f
      end
  end.

Definition lower (fuel : nat) (f : Form) : LW Module_ :=
  put (mkLowering [Visit (root f) None true] [] [] []) ;;
  lower_loop fuel f ;;
  st ← get;
  root ← expect (l_results st !! 0%nat);
  mret (mkModule f (l_expressions st) root).
