(* ===== verification/LispCompile.v ===== *)
(** * The compiler compiles the expression it is given

    What an expression means as a tree of code, by recursion on the
    expression: the loop over the stack of work builds an arena of expressions
    for exactly that tree, and fails exactly where there is none. *)

From Stdlib Require Import String.
From S2P Require Import Prelude LispSyntax LispRead LispLower.

Open Scope Z_scope.

(** ** The code of an expression *)

#[warnings="-register-all"]
Inductive code :=
| TLiteral (a : Atom)
| TQuote (s : sexp)
| TReference (b : Binding)
| TIf (test yes no : code)
| TSequence (parts : list code)
| TLambda (params : nat) (body : code)
| TCall (function : code) (args : list code)
| TDefine (name : list Z) (value : code)
| TAssign (b : Binding) (value : code).

Fixpoint all_of {A} (l : list (option A)) : option (list A) :=
  match l with
  | [] => Some []
  | o :: l => a ← o; r ← all_of l; Some (a :: r)
  end.

Lemma all_of_length {A B} (g : A -> option B) l r : all_of (map g l) = Some r -> length r = length l.
Proof.
  revert r. induction l as [|a l IH]; simpl; intros r H; [by injection H as <-|].
  destruct (g a); [|done]. simpl in H. destruct (all_of (map g l)) as [r'|]; [|done]. injection H as <-. simpl. f_equal. by apply IH.
Qed.

(** The frames of parameters around a place, the innermost first. *)
Fixpoint resolve_at (depth : nat) (name : list Z) (env : list (list (list Z))) : Binding :=
  match env with
  | [] => Global name
  | names :: env =>
      match position (fun s => bool_decide (s = name)) names with
      | Some slot => Local depth slot
      | None => resolve_at (S depth) name env
      end
  end.

Definition resolve : list Z -> list (list (list Z)) -> Binding := resolve_at 0.

Definition name_of (s : sexp) : option (list Z) := match s with SAtom (ASymbol x) => Some x | _ => None end.

(** Distinct symbols. *)
Definition names_of (ss : list sexp) : option (list (list Z)) :=
  names ← all_of (map name_of ss); if bool_decide (NoDup names) then Some names else None.

Definition pair_name (s : sexp) : option sexp := match s with SList [x; _] None => Some x | _ => None end.

Fixpoint compile (env : list (list (list Z))) (top : bool) (s : sexp) : option code :=
  match s with
  | SAtom (ASymbol x) => Some (TReference (resolve x env))
  | SAtom a => Some (TLiteral a)
  | SQuote q => Some (TQuote q)
  | SList _ (Some _) => None
  | SList [] None => Some (TQuote (SList [] None))
  | SList (h :: args) None =>
      let call := parts ← all_of (map (compile env false) (h :: args));
                  match parts with f :: xs => Some (TCall f xs) | [] => None end in
      match name_of h with
      | None => call
      | Some k =>
          if bool_decide (k = text_of "quote") then match args with [d] => Some (TQuote d) | _ => None end
          else if bool_decide (k = text_of "if") then
            match args with
            | [a; b; c] => t ← compile env false a; y ← compile env false b; n ← compile env false c; Some (TIf t y n)
            | _ => None
            end
          else if bool_decide (k = text_of "begin") then parts ← all_of (map (compile env top) args); Some (TSequence parts)
          else if bool_decide (k = text_of "lambda") then
            match args with
            | SList ps None :: ((_ :: _) as body) =>
                names ← names_of ps;
                parts ← all_of (map (compile (names :: env) false) body);
                Some (TLambda (length names) (TSequence parts))
            | _ => None
            end
          else if bool_decide (k = text_of "define") then
            if negb top then None
            else match args with
                 | SAtom (ASymbol x) :: [v] => c ← compile env false v; Some (TDefine x c)
                 | SList (SAtom (ASymbol x) :: ps) None :: ((_ :: _) as body) =>
                     names ← names_of ps;
                     parts ← all_of (map (compile (names :: env) false) body);
                     Some (TDefine x (TLambda (length names) (TSequence parts)))
                 | _ => None
                 end
          else if bool_decide (k = text_of "set!") then
            match args with
            | [SAtom (ASymbol x); v] => c ← compile env false v; Some (TAssign (resolve x env) c)
            | _ => None
            end
          else if bool_decide (k = text_of "let") then
            match args with
            | SList bs None :: ((_ :: _) as body) =>
                xs ← all_of (map pair_name bs);
                names ← names_of xs;
                values ← all_of (map (fun b => match b with SList [_; v] None => compile env false v | _ => None end) bs);
                parts ← all_of (map (compile (names :: env) false) body);
                Some (TCall (TLambda (length bs) (TSequence parts)) values)
            | _ => None
            end
          else call
      end
  end.

(** ** Arenas of expressions *)

Inductive encodes (ns : list Node) (es : list Expression) : nat -> code -> Prop :=
| en_literal i a sp : es !! i = Some (mkExpression (ELiteral a) sp) -> encodes ns es i (TLiteral a)
| en_quote i j s sp : es !! i = Some (mkExpression (EQuote j) sp) -> denotes ns j s -> encodes ns es i (TQuote s)
| en_reference i b sp : es !! i = Some (mkExpression (EReference b) sp) -> encodes ns es i (TReference b)
| en_if i t y n ct cy cn sp : es !! i = Some (mkExpression (EIf t y n) sp) ->
    encodes ns es t ct -> encodes ns es y cy -> encodes ns es n cn -> encodes ns es i (TIf ct cy cn)
| en_sequence i ps cs sp : es !! i = Some (mkExpression (ESequence ps) sp) -> encode_all ns es ps cs -> encodes ns es i (TSequence cs)
| en_lambda i n b c sp : es !! i = Some (mkExpression (ELambda n b) sp) -> encodes ns es b c -> encodes ns es i (TLambda n c)
| en_call i f xs cf cs sp : es !! i = Some (mkExpression (ECall f xs) sp) -> encodes ns es f cf -> encode_all ns es xs cs -> encodes ns es i (TCall cf cs)
| en_define i x v c sp : es !! i = Some (mkExpression (EDefine x v) sp) -> encodes ns es v c -> encodes ns es i (TDefine x c)
| en_assign i b v c sp : es !! i = Some (mkExpression (EAssign b v) sp) -> encodes ns es v c -> encodes ns es i (TAssign b c)
with encode_all (ns : list Node) (es : list Expression) : list nat -> list code -> Prop :=
| ea_nil : encode_all ns es [] []
| ea_cons i c js cs : encodes ns es i c -> encode_all ns es js cs -> encode_all ns es (i :: js) (c :: cs).

Scheme encodes_mut := Minimality for encodes Sort Prop
  with encode_all_mut := Minimality for encode_all Sort Prop.
Combined Scheme encodes_ind2 from encodes_mut, encode_all_mut.

Lemma encodes_app_mut ns es l :
  (forall i c, encodes ns es i c -> encodes ns (es ++ l) i c) /\ (forall js cs, encode_all ns es js cs -> encode_all ns (es ++ l) js cs).
Proof. apply encodes_ind2; intros; econstructor; eauto using lookup_app_l_Some. Qed.

Lemma encodes_app ns es l i c : encodes ns es i c -> encodes ns (es ++ l) i c.
Proof. apply encodes_app_mut. Qed.

Lemma encode_all_app ns es l js cs : encode_all ns es js cs -> encode_all ns (es ++ l) js cs.
Proof. apply encodes_app_mut. Qed.

Lemma encode_all_length ns es js cs : encode_all ns es js cs -> length js = length cs.
Proof. induction 1; simpl; congruence. Qed.

(** ** Sizes *)

Fixpoint ssize (s : sexp) : nat :=
  match s with
  | SAtom _ => 1
  | SList items tail => S (list_sum (map ssize items) + match tail with Some t => ssize t | None => 0 end)
  | SQuote s => S (ssize s)
  end%nat.

Definition ssizes (ss : list sexp) : nat := list_sum (map ssize ss).

(** ** Runs of the loop *)

Section lowering.
Context (f : Form).
Implicit Types (st : Lowering).

Definition runs st (k : nat) st' : Prop := forall fuel, lower_loop (k + fuel) f st = lower_loop fuel f st'.
Definition fails st (k : nat) : Prop := exists e st', kind e = Syntax /\ forall fuel, lower_loop (k + fuel) f st = Some (Err e, st').

(** Within [b] rounds the loop comes to a state with [Q], or to an error when
    there is nothing to come to. *)
Definition outcome {C} st (b : nat) (o : option C) (Q : C -> Lowering -> Prop) : Prop :=
  match o with
  | Some c => exists k st', (k <= b)%nat /\ Q c st' /\ runs st k st'
  | None => exists k, (k <= b)%nat /\ fails st k
  end.

Definition do_work (w : Work) : LW unit :=
  match w with Visit id scope top => visit f id scope top | Build_ b s => build b s end.

Lemma lower_loop_step fuel w ws sc rs es :
  lower_loop (S fuel) f (mkLowering (w :: ws) sc rs es) =
  match do_work w (mkLowering ws sc rs es) with
  | Some (Ok _, st') => lower_loop fuel f st'
  | Some (Err e, st') => Some (Err e, st')
  | None => None
  end.
Proof. cbn [lower_loop]. unfold mbind at 1, M_bind at 1, get. cbn [l_work l_scopes l_results l_expressions]. by destruct w. Qed.

Lemma outcome_here {C} st (c : C) (Q : C -> Lowering -> Prop) b : Q c st -> outcome st b (Some c) Q.
Proof. intros H. exists O, st. split_and!; [lia|done|by intros fuel]. Qed.

Lemma outcome_step {C} w ws sc rs es st1 b (o : option C) Q :
  do_work w (mkLowering ws sc rs es) = Some (Ok tt, st1) -> outcome st1 b o Q -> outcome (mkLowering (w :: ws) sc rs es) (S b) o Q.
Proof.
  intros Hw Ho. assert (forall k fuel, lower_loop (S k + fuel) f (mkLowering (w :: ws) sc rs es) = lower_loop (k + fuel) f st1) as Hs.
  { intros k fuel. change (S k + fuel)%nat with (S (k + fuel)). by rewrite lower_loop_step, Hw. }
  destruct o as [c|].
  - destruct Ho as (k & st' & Hk & HQ & Hr). exists (S k), st'. split_and!; [lia|done|]. intros fuel. by rewrite Hs, Hr.
  - destruct Ho as (k & Hk & e & st' & He & Hr). exists (S k). split; [lia|]. exists e, st'. split; [done|]. intros fuel. by rewrite Hs, Hr.
Qed.

Lemma outcome_fail {C} w ws sc rs es e st1 b (Q : C -> Lowering -> Prop) :
  do_work w (mkLowering ws sc rs es) = Some (Err e, st1) -> kind e = Syntax -> outcome (mkLowering (w :: ws) sc rs es) (S b) None Q.
Proof.
  intros Hw He. exists 1%nat. split; [lia|]. exists e, st1. split; [done|]. intros fuel. change (1 + fuel)%nat with (S fuel). by rewrite lower_loop_step, Hw.
Qed.

Lemma outcome_bind {C D} st b1 b2 (o : option C) (g : C -> option D) Q1 Q2 :
  outcome st b1 o Q1 -> (forall c st1, o = Some c -> Q1 c st1 -> outcome st1 b2 (g c) Q2) -> outcome st (b1 + b2) (o ≫= g) Q2.
Proof.
  intros Ho Hg. destruct o as [c|]; simpl.
  - destruct Ho as (k & st1 & Hk & HQ & Hr). specialize (Hg c st1 eq_refl HQ). destruct (g c) as [d|].
    + destruct Hg as (k' & st' & Hk' & HQ' & Hr'). exists (k + k')%nat, st'. split_and!; [lia|done|]. intros fuel. by rewrite <- Nat.add_assoc, Hr, Hr'.
    + destruct Hg as (k' & Hk' & e & st' & He & Hr'). exists (k + k')%nat. split; [lia|]. exists e, st'. split; [done|].
      intros fuel. by rewrite <- Nat.add_assoc, Hr, Hr'.
  - destruct Ho as (k & Hk & Hf). exists k. split; [lia|done].
Qed.

Lemma outcome_map {C D} st b (o : option C) (g : C -> D) Q Q' :
  outcome st b o Q -> (forall c st', Q c st' -> Q' (g c) st') -> outcome st b (c ← o; Some (g c)) Q'.
Proof. intros Ho Hg. destruct o as [c|]; [|done]. destruct Ho as (k & st' & Hk & H & Hr). exists k, st'. auto. Qed.

Lemma outcome_mono {C} st b b' (o : option C) (Q Q' : C -> Lowering -> Prop) :
  outcome st b o Q -> (b <= b')%nat -> (forall c st', Q c st' -> Q' c st') -> outcome st b' o Q'.
Proof.
  intros Ho Hb HQ. destruct o as [c|].
  - destruct Ho as (k & st' & Hk & H & Hr). exists k, st'. split_and!; [lia|auto|done].
  - destruct Ho as (k & Hk & H). exists k. split; [lia|done].
Qed.

(** ** Names *)

Inductive chain (scopes : list ScopeFrame) : option nat -> list (list (list Z)) -> Prop :=
| ch_none : chain scopes None []
| ch_some i fr env : scopes !! i = Some fr -> (forall p, s_parent fr = Some p -> p < i)%nat -> chain scopes (s_parent fr) env ->
    chain scopes (Some i) (s_names fr :: env).

Lemma chain_app scopes l scope env : chain scopes scope env -> chain (scopes ++ l) scope env.
Proof. induction 1; econstructor; eauto using lookup_app_l_Some. Qed.

Lemma chain_length scopes scope env : chain scopes scope env -> (length env <= match scope with Some i => S i | None => 0 end)%nat.
Proof. induction 1 as [|i fr env Hi Hp Hc IH]; simpl; [lia|]. destruct (s_parent fr) as [p|]; [specialize (Hp p eq_refl); lia|lia]. Qed.

Lemma chain_fits scopes scope env : chain scopes scope env -> (length env <= length scopes)%nat.
Proof. intros Hc. pose proof (chain_length _ _ _ Hc) as H. destruct Hc as [|i fr env Hi]; [simpl; lia|]. apply lookup_lt_Some in Hi. lia. Qed.

Lemma binding_resolves name scopes scope env : chain scopes scope env -> forall fuel d, (length env <= fuel)%nat ->
  binding_at fuel name scopes scope d = Some (resolve_at d name env).
Proof.
  induction 1 as [|i fr env Hi Hp Hc IH]; intros fuel d Hf; [by destruct fuel|]. simpl in Hf. destruct fuel as [|fuel]; [lia|].
  simpl. rewrite Hi. simpl. destruct (position _ (s_names fr)); [done|]. apply IH. lia.
Qed.

Lemma binding_ok name scope env ws sc rs es :
  chain sc scope env -> binding name scope (mkLowering ws sc rs es) = Some (Ok (resolve name env), mkLowering ws sc rs es).
Proof.
  intros Hc. unfold binding, mbind, M_bind, get, expect. cbn [l_scopes]. rewrite (binding_resolves name sc scope env Hc) by (by apply chain_fits in Hc). done.
Qed.

Lemma denotes_node id s : denotes (nodes f) id s -> exists n, nodes f !! id = Some n.
Proof. inversion 1; eauto. Qed.

Lemma symbol_ok id s st : denotes (nodes f) id s -> symbol f id st = Some (Ok (name_of s), st).
Proof. intros H. unfold symbol, mbind, M_bind, expect, mret, M_ret. inversion H as [? a ? Hl|? ? ? ? Hl|? ? ? ? ? ? Hl|? ? ? ? Hl]; subst; rewrite Hl; simpl; by try destruct a. Qed.

(** The parts of a proper list. *)
Lemma list_ok id s : denotes (nodes f) id s ->
  match s with
  | SList ss None => exists ids, (forall st, list_ f id st = Some (Ok (Some ids), st)) /\ denote_all (nodes f) ids ss
  | _ => forall st, list_ f id st = Some (Ok None, st)
  end.
Proof.
  intros H. unfold list_, mbind, M_bind, expect, mret, M_ret. inversion H as [? a ? Hl|? ? ? ? Hl|? ? ? ? ? ? Hl|? ? ? ? Hl]; subst; rewrite Hl; simpl; eauto.
Qed.

(** A step that only reads, and answers or fails with a syntax error. *)
Definition answers {A} (m : LW A) (o : option A) : Prop := forall st,
  match o with Some a => m st = Some (Ok a, st) | None => exists e, kind e = Syntax /\ m st = Some (Err e, st) end.

Lemma parameters_from_ok ids ss : denote_all (nodes f) ids ss -> forall acc, NoDup acc ->
  answers (parameters_from f ids acc) (names ← all_of (map name_of ss); if bool_decide (NoDup (acc ++ names)) then Some (acc ++ names) else None).
Proof.
  induction 1 as [|i s js ss Hi Hjs IH]; intros acc Hacc st; simpl.
  - rewrite app_nil_r, bool_decide_eq_true_2 by done. done.
  - destruct (denotes_node i s Hi) as [n Hn]. rewrite (bind_run _ _ _ st n) by (unfold expect; by rewrite Hn).
    rewrite (bind_run _ _ _ st (name_of s)) by (by apply symbol_ok).
    destruct (name_of s) as [x|]; simpl; [|by eexists; split; [|reflexivity]]. rewrite (bind_run _ _ _ st x) by done.
    destruct (any _ acc) eqn:Ha.
    + apply any_true in Ha as (y & Hy & ->%bool_decide_eq_true). destruct (all_of (map name_of ss)) as [names|]; simpl; [|by eexists; split; [|reflexivity]].
      rewrite bool_decide_eq_false_2; [by eexists; split; [|reflexivity]|]. rewrite NoDup_app. intros (_ & Hd & _). apply (Hd x Hy). left.
    + assert (x ∉ acc) as Hx.
      { intros Hin. apply any_false in Ha. rewrite Forall_forall in Ha. specialize (Ha x Hin). by rewrite bool_decide_eq_true_2 in Ha. }
      specialize (IH (acc ++ [x])). assert (NoDup (acc ++ [x])) as Hnd.
      { rewrite NoDup_app. split_and!; [done| |apply NoDup_singleton]. intros y Hy ->%list_elem_of_singleton. done. }
      specialize (IH Hnd st). destruct (all_of (map name_of ss)) as [names|]; simpl in *; [|done]. by rewrite <- app_assoc in IH.
Qed.

Lemma parameters_ok ids ss : denote_all (nodes f) ids ss -> answers (parameters f ids) (names_of ss).
Proof. intros H. exact (parameters_from_ok ids ss H [] ltac:(constructor)). Qed.

Definition pair_value (s : sexp) : option sexp := match s with SList [_; v] None => Some v | _ => None end.

Lemma denote_all_nil_inv ns js : denote_all ns js [] -> js = [].
Proof. by inversion 1. Qed.

Lemma denote_all_length ns js ss : denote_all ns js ss -> length js = length ss.
Proof. induction 1; simpl; congruence. Qed.

Lemma let_pairs_ok sp ids bs : denote_all (nodes f) ids bs ->
  match all_of (map pair_name bs) with
  | Some xs => exists pairs vs, (forall st, let_pairs f sp ids st = Some (Ok pairs, st)) /\ denote_all (nodes f) (map fst pairs) xs /\
                 denote_all (nodes f) (map snd pairs) vs /\ map pair_value bs = map Some vs /\ length bs = length ids
  | None => forall st, let_pairs f sp ids st = Some (Err (diagnostic Syntax sp), st)
  end.
Proof.
  induction 1 as [|i s js bs Hi Hjs IH]; simpl.
  - exists [], []. split_and!; try done; constructor.
  - assert (match pair_name s with
      | Some x => exists a b v, (forall st, list_ f i st = Some (Ok (Some [a; b]), st)) /\ pair_value s = Some v /\ denotes (nodes f) a x /\ denotes (nodes f) b v
      | None => exists o, (forall st, list_ f i st = Some (Ok o, st)) /\ match o with Some [_; _] => False | _ => True end
      end) as Hp.
    { pose proof (list_ok i s Hi) as Hl. destruct s as [a|ss [t|]|q]; simpl; [by exists None|destruct ss as [|? [|? [|? ?]]]; by exists None| |by exists None].
      destruct Hl as (ids & Hl & Hd). pose proof (denote_all_length _ _ _ Hd) as Hlen.
      destruct ss as [|x [|v [|? ?]]]; simpl in *; destruct ids as [|a [|b [|? ?]]]; try done; try (eexists; split; [exact Hl|done]).
      inversion Hd as [|? ? ? ? Ha Hd']; subst. inversion Hd' as [|? ? ? ? Hb Hd'']; subst. by exists a, b, v. }
    destruct (pair_name s) as [x|] eqn:Hx; simpl.
    + destruct Hp as (a & b & v & Hl & Hpv & Ha & Hb). destruct (all_of (map pair_name bs)) as [xs|]; simpl.
      * destruct IH as (pairs & vs & Hrun & Hf & Hs & Hv & Hlen).
        exists ((a, b) :: pairs), (v :: vs). simpl. split_and!; [|by constructor|by constructor|by rewrite Hpv, Hv|lia].
        intros st. rewrite (bind_run _ _ _ st _ (Hl st)). simpl. by rewrite (bind_run _ _ _ st _ (Hrun st)).
      * intros st. rewrite (bind_run _ _ _ st _ (Hl st)). simpl. by rewrite (bind_stop _ _ _ st _ (IH st)).
    + intros st. destruct Hp as (o & Hl & Ho). rewrite (bind_run _ _ _ st _ (Hl st)). by destruct o as [[|? [|? [|? ?]]]|].
Qed.
(** ** Building *)

Lemma split_off_ok parts ws sc rs es n :
  n = length parts -> split_off n (mkLowering ws sc (rs ++ parts) es) = Some (Ok parts, mkLowering ws sc rs es).
Proof.
  intros ->. unfold split_off, mbind, M_bind, get, put, mret, M_ret. cbn [l_results l_work l_scopes l_expressions]. rewrite length_app.
  rewrite bool_decide_eq_true_2 by lia. replace (length rs + length parts - length parts)%nat with (length rs) by lia.
  by rewrite take_app_length, drop_app_length.
Qed.

(** What is left of a build: one more result, and new expressions. *)
Definition built (ws : list Work) (sc : list ScopeFrame) (rs : list nat) (es : list Expression) (c : code) (st : Lowering) : Prop :=
  exists sc' es' eid, st = mkLowering ws (sc ++ sc') (rs ++ [eid]) (es ++ es') /\ encodes (nodes f) (es ++ es') eid c.

Definition built_all (ws : list Work) (sc : list ScopeFrame) (rs : list nat) (es : list Expression) (cs : list code) (st : Lowering) : Prop :=
  exists sc' es' eids, st = mkLowering ws (sc ++ sc') (rs ++ eids) (es ++ es') /\ encode_all (nodes f) (es ++ es') eids cs.

Lemma result_ok e sp ws sc rs es :
  LispLower.result e sp (mkLowering ws sc rs es) = Some (Ok tt, mkLowering ws sc (rs ++ [length es]) (es ++ [mkExpression e sp])).
Proof. done. Qed.

Lemma result_built e sp ws sc rs es c :
  encodes (nodes f) (es ++ [mkExpression e sp]) (length es) c ->
  built ws sc rs es c (mkLowering ws sc (rs ++ [length es]) (es ++ [mkExpression e sp])).
Proof. intros H. exists [], [mkExpression e sp], (length es). by rewrite app_nil_r. Qed.

(** Building one expression from the last results. *)
Lemma build_simple b sp ws sc rs es parts e :
  build_count b = length parts -> (forall st, (match b with
      | BIf => test ← expect (parts !! 0%nat); yes ← expect (parts !! 1%nat); no ← expect (parts !! 2%nat); mret (EIf test yes no)
      | BSequence _ => mret (ESequence parts)
      | BLambda params => body ← expect (parts !! 0%nat); mret (ELambda params body)
      | BCall _ => function ← expect (parts !! 0%nat); mret (ECall function (drop 1 parts))
      | BDefine name => value ← expect (parts !! 0%nat); mret (EDefine name value)
      | BAssign b => value ← expect (parts !! 0%nat); mret (EAssign b value)
      | BLet params => panic
      end : LW Expr) st = Some (Ok e, st)) ->
  do_work (Build_ b sp) (mkLowering ws sc (rs ++ parts) es) = Some (Ok tt, mkLowering ws sc (rs ++ [length es]) (es ++ [mkExpression e sp])).
Proof.
  intros Hn He. simpl. unfold build. rewrite (bind_run _ _ _ (mkLowering ws sc rs es) parts) by (by apply split_off_ok).
  destruct b; try (rewrite (bind_run _ _ _ _ _ (He _)); apply result_ok). by specialize (He (mkLowering [] [] [] [])).
Qed.

Lemma encode_all_snoc ns es js cs j c : encode_all ns es js cs -> encodes ns es j c -> encode_all ns es (js ++ [j]) (cs ++ [c]).
Proof. induction 1; intros; simpl; constructor; auto; constructor. Qed.

(** ** Visiting *)

Definition visits_ok (env : list (list (list Z))) (top : bool) (s : sexp) : Prop := forall id scope ws sc rs es,
  denotes (nodes f) id s -> chain sc scope env ->
  outcome (mkLowering (Visit id scope top :: ws) sc rs es) (4 * ssize s) (compile env top s) (built ws sc rs es).

Lemma visit_all env top ss : Forall (visits_ok env top) ss -> forall ids scope ws sc rs es,
  denote_all (nodes f) ids ss -> chain sc scope env ->
  outcome (mkLowering (visits ids scope top ++ ws) sc rs es) (4 * ssizes ss) (all_of (map (compile env top) ss)) (built_all ws sc rs es).
Proof.
  induction 1 as [|s ss Hs Hss IH]; intros ids scope ws sc rs es Hd Hc; inversion Hd as [|i ? js ? Hi Hjs]; subst; cbn [visits map app all_of].
  - apply outcome_here. exists [], [], []. rewrite !app_nil_r. split; [done|constructor].
  - replace (ssizes (s :: ss)) with (ssize s + ssizes ss)%nat by done. rewrite Nat.mul_add_distr_l.
    eapply outcome_bind; [by apply Hs|]. intros c st1 _ (sc1 & es1 & eid & -> & He).
    eapply outcome_map; [apply IH; [done|by apply chain_app]|]. intros cs st2 (sc2 & es2 & eids & -> & Hes).
    exists (sc1 ++ sc2), (es1 ++ es2), (eid :: eids). rewrite <- !app_assoc in *. split; [done|].
    constructor; [|done]. rewrite (app_assoc es es1). by apply encodes_app.
Qed.
(** A build that turns the last results [eids], for the codes [cs], into one. *)
Definition builds (b : Build) (sp : Span) (cs : list code) (c : code) : Prop := forall ws sc rs es eids,
  encode_all (nodes f) es eids cs ->
  exists es' eid, do_work (Build_ b sp) (mkLowering ws sc (rs ++ eids) es) = Some (Ok tt, mkLowering ws sc (rs ++ [eid]) (es ++ es')) /\
    encodes (nodes f) (es ++ es') eid c.

Lemma builds_one b sp cs c :
  build_count b = length cs ->
  (forall es eids, encode_all (nodes f) es eids cs -> length eids = length cs -> exists e, (forall st, (match b with
      | BIf => test ← expect (eids !! 0%nat); yes ← expect (eids !! 1%nat); no ← expect (eids !! 2%nat); mret (EIf test yes no)
      | BSequence _ => mret (ESequence eids)
      | BLambda params => body ← expect (eids !! 0%nat); mret (ELambda params body)
      | BCall _ => function ← expect (eids !! 0%nat); mret (ECall function (drop 1 eids))
      | BDefine name => value ← expect (eids !! 0%nat); mret (EDefine name value)
      | BAssign b => value ← expect (eids !! 0%nat); mret (EAssign b value)
      | BLet params => panic
      end : LW Expr) st = Some (Ok e, st)) /\ encodes (nodes f) (es ++ [mkExpression e sp]) (length es) c) ->
  builds b sp cs c.
Proof.
  intros Hn He ws sc rs es eids Henc. pose proof (encode_all_length _ _ _ _ Henc) as Hl. destruct (He es eids Henc Hl) as (e' & Hrun & Hc).
  exists [mkExpression e' sp], (length es). split; [|done]. apply build_simple; [congruence|done].
Qed.

Ltac open_all := repeat match goal with
  | H : encode_all _ _ _ (_ :: _) |- _ => inversion H; clear H; subst
  | H : encode_all _ _ _ [] |- _ => inversion H; clear H; subst
  end.

Lemma builds_if sp t y n : builds BIf sp [t; y; n] (TIf t y n).
Proof.
  apply builds_one; [done|]. intros es eids H _. open_all. eexists. split; [done|].
  eapply en_if; [apply lookup_snoc|by apply encodes_app..].
Qed.

Lemma builds_sequence sp cs n : n = length cs -> builds (BSequence n) sp cs (TSequence cs).
Proof.
  intros ->. apply builds_one; [done|]. intros es eids H _. eexists. split; [done|].
  eapply en_sequence; [apply lookup_snoc|by apply encode_all_app].
Qed.

Lemma builds_lambda sp n c : builds (BLambda n) sp [c] (TLambda n c).
Proof.
  apply builds_one; [done|]. intros es eids H _. open_all. eexists. split; [done|].
  eapply en_lambda; [apply lookup_snoc|by apply encodes_app].
Qed.

Lemma builds_define sp x c : builds (BDefine x) sp [c] (TDefine x c).
Proof.
  apply builds_one; [done|]. intros es eids H _. open_all. eexists. split; [done|].
  eapply en_define; [apply lookup_snoc|by apply encodes_app].
Qed.

Lemma builds_assign sp b c : builds (BAssign b) sp [c] (TAssign b c).
Proof.
  apply builds_one; [done|]. intros es eids H _. open_all. eexists. split; [done|].
  eapply en_assign; [apply lookup_snoc|by apply encodes_app].
Qed.

Lemma builds_call sp h cs n : n = length cs -> builds (BCall n) sp (h :: cs) (TCall h cs).
Proof.
  intros ->. apply builds_one; [simpl; lia|]. intros es eids H _. inversion H; subst. eexists. split; [done|].
  simpl. eapply en_call; [apply lookup_snoc|by apply encodes_app|rewrite drop_0; by apply encode_all_app].
Qed.

Lemma builds_let sp cs c n : n = length cs -> builds (BLet n) sp (cs ++ [c]) (TCall (TLambda n c) cs).
Proof.
  intros -> ws sc rs es eids Henc.
  assert (exists vs b, eids = vs ++ [b] /\ encode_all (nodes f) es vs cs /\ encodes (nodes f) es b c) as (vs & b & -> & Hvs & Hb).
  { clear -Henc. revert eids Henc. induction cs as [|x cs IH]; intros eids H; simpl in H; inversion H as [|i ? js ? Hi Hjs]; subst.
    - inversion Hjs; subst. exists [], i. split_and!; [done|constructor|done].
    - destruct (IH js Hjs) as (vs & b & -> & Hvs & Hb). exists (i :: vs), b. split_and!; [done|by constructor|done]. }
  pose proof (encode_all_length _ _ _ _ Hvs) as Hl.
  exists [mkExpression (ELambda (length cs) b) sp; mkExpression (ECall (length es) vs) sp], (S (length es)). split.
  - simpl. unfold build. rewrite (bind_run _ _ _ (mkLowering ws sc rs es) (vs ++ [b])) by (apply split_off_ok; simpl; rewrite length_app; simpl; lia).
    rewrite (bind_run _ _ _ (mkLowering ws sc rs (es ++ [mkExpression (ELambda (length cs) b) sp])) (ECall (length es) vs)).
    + rewrite result_ok, length_app, Nat.add_1_r, <- app_assoc. done.
    + rewrite (bind_run _ _ _ (mkLowering ws sc rs es) b) by (unfold expect; by rewrite <- Hl, lookup_snoc).
      rewrite (bind_run _ _ _ (mkLowering ws sc rs (es ++ [mkExpression (ELambda (length cs) b) sp])) (length es)) by done.
      unfold mret, M_ret. by rewrite <- Hl, take_app_length.
  - eapply en_call; [|eapply en_lambda; [|by apply encodes_app]|by apply encode_all_app].
    + by rewrite lookup_app_r, Nat.sub_succ_l, Nat.sub_diag by lia.
    + by rewrite lookup_app_r, Nat.sub_diag by lia.
Qed.

(** A list of visits, then a build. *)
Lemma visits_build env top ss ids scope b sp g ws sc rs es :
  Forall (visits_ok env top) ss -> denote_all (nodes f) ids ss -> chain sc scope env ->
  (forall cs, all_of (map (compile env top) ss) = Some cs -> exists c, g cs = Some c /\ builds b sp cs c) ->
  outcome (mkLowering (visits ids scope top ++ Build_ b sp :: ws) sc rs es) (4 * ssizes ss + 1)
    (cs ← all_of (map (compile env top) ss); g cs) (built ws sc rs es).
Proof.
  intros Hss Hd Hc Hg. eapply outcome_bind; [by apply visit_all|]. intros cs st1 Hcs (sc' & es' & eids & -> & Henc).
  destruct (Hg cs Hcs) as (c & -> & Hb). destruct (Hb ws (sc ++ sc') rs (es ++ es') eids Henc) as (es'' & eid & Hw & He).
  eapply outcome_step; [exact Hw|]. apply outcome_here. exists sc', (es' ++ es''), eid. by rewrite app_assoc.
Qed.

Lemma visits_sequence env ss js scope sp ws sc rs es :
  Forall (visits_ok env false) ss -> denote_all (nodes f) js ss -> chain sc scope env ->
  outcome (mkLowering (visits js scope false ++ Build_ (BSequence (length js)) sp :: ws) sc rs es) (4 * ssizes ss + 1)
    (all_of (map (compile env false) ss)) (fun parts => built ws sc rs es (TSequence parts)).
Proof.
  intros Hss Hd Hc.
  pose proof (visits_build env false ss js scope (BSequence (length js)) sp (fun cs => Some (TSequence cs)) ws sc rs es Hss Hd Hc) as H.
  destruct (all_of (map (compile env false) ss)) as [parts|] eqn:Ho; apply H; [|done].
  intros cs [= <-]. eexists. split; [done|]. apply builds_sequence. rewrite (denote_all_length _ _ _ Hd). symmetry. by eapply all_of_length.
Qed.

(** One more build on top of a result. *)
Lemma then_build {C} st n (o : option C) (h : C -> code) (g : C -> code) b sp ws sc rs es :
  outcome st n o (fun x => built (Build_ b sp :: ws) sc rs es (h x)) -> (forall x, builds b sp [h x] (g x)) ->
  outcome st (n + 1) o (fun x => built ws sc rs es (g x)).
Proof.
  intros Ho Hb. assert (o = (x ← o; Some x)) as -> by (by destruct o). eapply outcome_bind; [exact Ho|].
  intros x st1 _ (sc' & es' & eid & -> & He). destruct (Hb x ws (sc ++ sc') rs (es ++ es') [eid]) as (es'' & eid' & Hw & He').
  { constructor; [done|constructor]. }
  eapply outcome_step; [exact Hw|]. apply outcome_here. exists sc', (es' ++ es''), eid'. by rewrite app_assoc.
Qed.

Lemma built_scope ws sc fr rs es c st : built ws (sc ++ [fr]) rs es c st -> built ws sc rs es c st.
Proof. intros (sc' & es' & eid & -> & He). exists ([fr] ++ sc'), es', eid. by rewrite <- app_assoc. Qed.

Lemma chain_push sc scope env names : chain sc scope env -> chain (sc ++ [mkScopeFrame scope names]) (Some (length sc)) (names :: env).
Proof.
  intros Hc. apply (ch_some _ _ (mkScopeFrame scope names)); [apply lookup_snoc| |by apply chain_app].
  simpl. intros p ->. inversion Hc as [|? fr ? Hi]; subst. by apply lookup_lt_Some in Hi.
Qed.
(** *** The special forms *)

Section forms.
Context (env : list (list (list Z))) (top : bool) (sp : Span) (scope : option nat) (ws : list Work) (sc : list ScopeFrame) (rs : list nat) (es : list Expression).
Context (id : nat) (h : nat) (ids : list nat) (k : list Z) (args : list sexp).
Context (Hid : nodes f !! id = Some (mkNode (DList (h :: ids) None) sp)) (Hh : denotes (nodes f) h (SAtom (ASymbol k)))
  (Hids : denote_all (nodes f) ids args) (Hc : chain sc scope env).
Context (IH : forall s env top, (ssize s <= ssizes args)%nat -> visits_ok env top s).

#[local] Abbreviation st1 := (mkLowering ws sc rs es).

Lemma forms_all env' top' ss : (ssizes ss <= ssizes args)%nat -> Forall (visits_ok env' top') ss.
Proof.
  intros Hs. assert (forall s, s ∈ ss -> (ssize s <= ssizes ss)%nat) as Hle.
  { clear. induction ss as [|x ss IHs]; intros s Hin; [by apply not_elem_of_nil in Hin|]. unfold ssizes in *. simpl.
    apply elem_of_cons in Hin as [->|Hin]; [lia|]. specialize (IHs s Hin). lia. }
  apply Forall_forall. intros s Hin. apply IH. specialize (Hle s Hin). lia.
Qed.

(** A step [m] leads to what [o] says. *)
Definition steps_to (m : LW unit) (o : option code) : Prop :=
  match m st1 with
  | Some (Ok _, st2) => outcome st2 (4 * ssizes args + 3) o (built ws sc rs es)
  | Some (Err e, _) => o = None /\ kind e = Syntax
  | None => False
  end.

Lemma push_work_ok w ws' sc' rs' es' : push_work w (mkLowering ws' sc' rs' es') = Some (Ok tt, mkLowering (w ++ ws') sc' rs' es').
Proof. done. Qed.

Lemma steps_visits ss js b g w top' :
  denote_all (nodes f) js ss -> (ssizes ss <= ssizes args)%nat ->
  (forall cs, all_of (map (compile env top') ss) = Some cs -> exists c, g cs = Some c /\ builds b sp cs c) ->
  w = visits js scope top' ++ [Build_ b sp] ->
  steps_to (push_work w) (cs ← all_of (map (compile env top') ss); g cs).
Proof.
  intros Hd Hs Hg ->. unfold steps_to, push_work, mbind, M_bind, get, put. cbn [l_work l_scopes l_results l_expressions].
  rewrite <- app_assoc. eapply outcome_mono; [by apply visits_build; [apply forms_all| | |]|lia|done].
Qed.

(** The body of a function. *)
Lemma lowered_body names ss js tail (g : code -> code) :
  denote_all (nodes f) js ss -> (ssizes ss <= ssizes args)%nat -> (length tail <= 2)%nat ->
  (forall C st n (o : option C) (hh : C -> code), outcome st n o (fun x => built (tail ++ ws) sc rs es (hh x)) ->
     outcome st (n + length tail) o (fun x => built ws sc rs es (g (hh x)))) ->
  outcome (mkLowering (visits js (Some (length sc)) false ++ Build_ (BSequence (length js)) sp :: tail ++ ws) (sc ++ [mkScopeFrame scope names]) rs es)
    (4 * ssizes args + 3) (parts ← all_of (map (compile (names :: env) false) ss); Some (g (TSequence parts))) (built ws sc rs es).
Proof.
  intros Hd Hs Ht Hg. set (o := all_of (map (compile (names :: env) false) ss)).
  assert (outcome (mkLowering (visits js (Some (length sc)) false ++ Build_ (BSequence (length js)) sp :: tail ++ ws) (sc ++ [mkScopeFrame scope names]) rs es)
    (4 * ssizes ss + 1) o (fun parts => built (tail ++ ws) sc rs es (TSequence parts))) as H1.
  { eapply outcome_mono; [apply (visits_sequence (names :: env)); [by apply forms_all|done|by apply chain_push]|done|].
    intros parts st'. apply built_scope. }
  specialize (Hg _ _ _ _ TSequence H1). destruct o as [parts|]; simpl.
  - destruct Hg as (k' & st' & Hk & HQ & Hr). exists k', st'. split_and!; [lia|done|done].
  - destruct Hg as (k' & Hk & Hf). exists k'. split; [lia|done].
Qed.

Lemma tail_none : forall C st n (o : option C) (hh : C -> code), outcome st n o (fun x => built ([] ++ ws) sc rs es (hh x)) ->
  outcome st (n + length (@nil Work)) o (fun x => built ws sc rs es (hh x)).
Proof. intros C st0 n o hh H. by rewrite Nat.add_0_r. Qed.

Lemma tail_lambda n0 : forall C st n (o : option C) (hh : C -> code), outcome st n o (fun x => built ([Build_ (BLambda n0) sp] ++ ws) sc rs es (hh x)) ->
  outcome st (n + 1) o (fun x => built ws sc rs es (TLambda n0 (hh x))).
Proof. intros C st0 n o hh H. eapply then_build; [exact H|]. intros x. apply builds_lambda. Qed.

Lemma tail_define n0 x0 : forall C st n (o : option C) (hh : C -> code), outcome st n o (fun x => built ([Build_ (BLambda n0) sp; Build_ (BDefine x0) sp] ++ ws) sc rs es (hh x)) ->
  outcome st (n + 2) o (fun x => built ws sc rs es (TDefine x0 (TLambda n0 (hh x)))).
Proof.
  intros C st0 n o hh H. replace (n + 2)%nat with (n + 1 + 1)%nat by lia.
  eapply (then_build _ _ _ (fun x => TLambda n0 (hh x))); [eapply then_build; [exact H|]; intros x; apply builds_lambda|]. intros x. apply builds_define.
Qed.

Lemma ssizes_cons x ss : ssizes (x :: ss) = (ssize x + ssizes ss)%nat.
Proof. done. Qed.

Lemma form_quote : steps_to (match h :: ids with [_; d] => LispLower.result (EQuote d) sp | _ => fail (diagnostic Syntax sp) end)
  (match args with [d] => Some (TQuote d) | _ => None end).
Proof.
  pose proof (denote_all_length _ _ _ Hids) as Hl. destruct args as [|d [|? ?]], ids as [|i [|? ?]]; try done. unfold steps_to. rewrite result_ok.
  apply outcome_here, result_built. inversion Hids as [|? ? ? ? Hi]; subst. eapply en_quote; [apply lookup_snoc|done].
Qed.

Lemma form_if : steps_to (if bool_decide (length (h :: ids) = 4%nat) then push_work (visits (drop 1 (h :: ids)) scope false ++ [Build_ BIf sp]) else fail (diagnostic Syntax sp))
  (match args with [a; b; c] => t ← compile env false a; y ← compile env false b; n ← compile env false c; Some (TIf t y n) | _ => None end).
Proof.
  pose proof (denote_all_length _ _ _ Hids) as Hl.
  assert ((exists a b c, args = [a; b; c]) \/ length args <> 3%nat) as [(a & b & c & Ha)|Ha].
  { clear. destruct args as [|a [|b [|c [|? ?]]]]; eauto 6; by right. }
  - rewrite bool_decide_eq_true_2 by (simpl; rewrite Hl, Ha; done). rewrite Ha.
    assert ((t ← compile env false a; y ← compile env false b; n ← compile env false c; Some (TIf t y n)) =
            (cs ← all_of (map (compile env false) [a; b; c]); match cs with [t; y; n] => Some (TIf t y n) | _ => None end)) as ->.
    { simpl. destruct (compile env false a), (compile env false b), (compile env false c); done. }
    apply (steps_visits [a; b; c] ids BIf); [by rewrite <- Ha|by rewrite Ha| |simpl; by rewrite drop_0]. intros cs Hcs. pose proof (all_of_length _ _ _ Hcs) as Hl'.
    destruct cs as [|t [|y [|n [|? ?]]]]; try done. eexists. split; [done|]. apply builds_if.
  - rewrite bool_decide_eq_false_2 by (simpl; lia). unfold steps_to, fail. split; [|done]. clear -Ha. destruct args as [|a [|b [|c [|? ?]]]]; done.
Qed.

Lemma form_begin : steps_to (push_work (visits (drop 1 (h :: ids)) scope top ++ [Build_ (BSequence (length (h :: ids) - 1)) sp]))
  (parts ← all_of (map (compile env top) args); Some (TSequence parts)).
Proof.
  apply (steps_visits args ids (BSequence (length (h :: ids) - 1))); [done|lia| |simpl; by rewrite drop_0]. intros cs Hcs. eexists. split; [done|].
  apply builds_sequence. rewrite (all_of_length _ _ _ Hcs), <- (denote_all_length _ _ _ Hids). simpl. lia.
Qed.

(** Parameters, then the body. *)
Lemma form_function ps pss js ss tail (g : nat -> code -> code) tl :
  denote_all (nodes f) ps pss -> denote_all (nodes f) js ss -> (ssizes ss <= ssizes args)%nat ->
  (forall names : list (list Z), length (tail (length names)) = tl /\ (tl <= 2)%nat /\ forall C st n (o : option C) (hh : C -> code),
     outcome st n o (fun x => built (tail (length names) ++ ws) sc rs es (hh x)) -> outcome st (n + tl) o (fun x => built ws sc rs es (g (length names) (hh x)))) ->
  steps_to (params ← parameters f ps; inner ← push_scope scope params;
            push_work (visits js inner false ++ Build_ (BSequence (length js)) sp :: tail (length params)))
    (names ← names_of pss; parts ← all_of (map (compile (names :: env) false) ss); Some (g (length names) (TSequence parts))).
Proof.
  intros Hps Hjs Hs Ht. unfold steps_to. pose proof (parameters_ok ps pss Hps st1) as Hp. destruct (names_of pss) as [names|]; cbn [mbind option_bind].
  - rewrite (bind_run _ _ _ _ _ Hp), (bind_run _ _ _ (mkLowering ws (sc ++ [mkScopeFrame scope names]) rs es) (Some (length sc))) by done.
    rewrite push_work_ok. destruct (Ht names) as (Htl & Hle & Hg). rewrite <- app_assoc, <- app_comm_cons. apply (lowered_body names ss js (tail (length names)) (g (length names))); [done|done|lia|].
    rewrite Htl. exact Hg.
  - destruct Hp as (e & He & Hp). rewrite (bind_stop _ _ _ _ _ Hp). done.
Qed.
Lemma form_lambda : steps_to (match h :: ids with
    | _ :: ps :: _ :: _ =>
        ids' ← list_ f ps; ids' ← lift (ok_or ids' (diagnostic Syntax sp)); params ← parameters f ids'; inner ← push_scope scope params;
        push_work (visits (drop 2 (h :: ids)) inner false ++ [Build_ (BSequence (length (h :: ids) - 2)) sp; Build_ (BLambda (length params)) sp])
    | _ => fail (diagnostic Syntax sp)
    end)
  (match args with
   | SList ps None :: ((_ :: _) as body) =>
       names ← names_of ps; parts ← all_of (map (compile (names :: env) false) body); Some (TLambda (length names) (TSequence parts))
   | _ => None
   end).
Proof.
  inversion Hids as [Hi Ha|p sp0 rest body Hp Hrest Hi Ha]; [done|]. inversion Hrest as [Hi' Ha'|b0 sb rest' body' Hb Hrest' Hi' Ha']; [by destruct sp0 as [|? []|]|]. subst rest body.
  pose proof (list_ok p sp0 Hp) as Hl. destruct sp0 as [a|pss [t|]|q];
    try (unfold steps_to; rewrite (bind_run _ _ _ _ _ (Hl _)); done).
  destruct Hl as (ps & Hl & Hps).
  pose proof (form_function ps pss (b0 :: rest') (sb :: body') (fun n => [Build_ (BLambda n) sp]) TLambda 1 Hps) as H.
  unfold steps_to in *. rewrite (bind_run _ _ _ _ _ (Hl _)), (bind_run _ _ _ st1 ps) by done.
  apply H; [by constructor|by rewrite <- Ha; unfold ssizes; simpl; lia|]. intros names. split_and!; [done|lia|]. apply tail_lambda.
Qed.

Lemma form_define : steps_to (if negb top then fail (diagnostic Syntax sp)
    else match h :: ids with
         | _ :: target :: value :: _ =>
             name ← symbol f target;
             match name with
             | Some name =>
                 if bool_decide (length (h :: ids) = 3%nat) then push_work [Visit value scope false; Build_ (BDefine name) sp]
                 else fail (diagnostic Syntax sp)
             | None =>
                 header ← list_ f target;
                 match header with
                 | Some (hd :: ps) =>
                     name ← symbol f hd;
                     name ← lift (ok_or name (diagnostic Syntax sp));
                     params ← parameters f ps;
                     inner ← push_scope scope params;
                     push_work (visits (drop 2 (h :: ids)) inner false ++
                       [Build_ (BSequence (length (h :: ids) - 2)) sp; Build_ (BLambda (length params)) sp; Build_ (BDefine name) sp])
                 | _ => fail (diagnostic Syntax sp)
                 end
             end
         | _ => fail (diagnostic Syntax sp)
         end)
  (if negb top then None
   else match args with
        | SAtom (ASymbol x) :: [v] => c ← compile env false v; Some (TDefine x c)
        | SList (SAtom (ASymbol x) :: ps) None :: ((_ :: _) as body) =>
            names ← names_of ps; parts ← all_of (map (compile (names :: env) false) body);
            Some (TDefine x (TLambda (length names) (TSequence parts)))
        | _ => None
        end).
Proof.
  destruct (negb top); [done|]. pose proof (denote_all_length _ _ _ Hids) as Hlen.
  inversion Hids as [Hi Ha|p s0 rest body Hp Hrest Hi Ha]; [done|].
  inversion Hrest as [Hi' Ha'|v0 sv rest' body' Hv Hrest' Hi' Ha']; [by destruct s0 as [[]|[|[[]| |] ?] []|]|]. subst rest body.
  unfold steps_to. rewrite (bind_run _ _ _ st1 (name_of s0)) by (by apply symbol_ok). destruct (name_of s0) as [x|] eqn:Hx.
  - destruct s0 as [[]| |]; try done. simpl in Hx. injection Hx as ->. destruct body' as [|? ?]; inversion Hrest'; subst rest'; [|done].
    simpl bool_decide. pose proof (steps_visits [sv] [v0] (BDefine x) (fun cs => match cs with [c] => Some (TDefine x c) | _ => None end) [Visit v0 scope false; Build_ (BDefine x) sp] false) as H.
    unfold steps_to in H. replace (c ← compile env false sv; Some (TDefine x c)) with
      (cs ← all_of (map (compile env false) [sv]); match cs with [c] => Some (TDefine x c) | _ => None end) by (simpl; by destruct (compile env false sv)).
    apply H; [by constructor; [|constructor]|rewrite <- Ha; unfold ssizes; simpl; lia| |done].
    intros cs Hcs. pose proof (all_of_length _ _ _ Hcs) as Hl'. destruct cs as [|c [|? ?]]; try done. eexists. split; [done|]. apply builds_define.
  - pose proof (list_ok p s0 Hp) as Hl. destruct s0 as [a|pss [t|]|q];
      try (rewrite (bind_run _ _ _ _ _ (Hl _)); by try destruct a).
    + rewrite (bind_run _ _ _ _ _ (Hl _)). destruct pss as [|[[]| |] ?]; done.
    + destruct Hl as (ps & Hl & Hps). rewrite (bind_run _ _ _ _ _ (Hl _)). inversion Hps as [Hi' Ha'|hd shd ps' pss' Hhd Hps' Hi' Ha']; [done|].
      rewrite (bind_run _ _ _ st1 (name_of shd)) by (by apply symbol_ok). destruct shd as [[]| |]; try done. cbn [name_of ok_or].
      rewrite (bind_run _ _ _ st1 s) by done.
      pose proof (form_function ps' pss' (v0 :: rest') (sv :: body') (fun n => [Build_ (BLambda n) sp; Build_ (BDefine s) sp]) (fun n c => TDefine s (TLambda n c)) 2 Hps') as H.
      unfold steps_to in H. apply H; [by constructor|by rewrite <- Ha; unfold ssizes; simpl; lia|]. intros names. split_and!; [done|lia|]. apply tail_define.
Qed.

Lemma form_set : steps_to (match h :: ids with
    | [_; target; value] =>
        name ← symbol f target; name ← lift (ok_or name (diagnostic Syntax sp)); b ← binding name scope;
        push_work [Visit value scope false; Build_ (BAssign b) sp]
    | _ => fail (diagnostic Syntax sp)
    end)
  (match args with [SAtom (ASymbol x); v] => c ← compile env false v; Some (TAssign (resolve x env) c) | _ => None end).
Proof.
  inversion Hids as [Hi Ha|p s0 rest body Hp Hrest Hi Ha]; [done|].
  inversion Hrest as [Hi' Ha'|v0 sv rest' body' Hv Hrest' Hi' Ha']; [by destruct s0 as [[]| |]|]. subst rest body.
  inversion Hrest' as [Hi' Ha'|]; [|by destruct s0 as [[]| |]]. subst. unfold steps_to.
  rewrite (bind_run _ _ _ st1 (name_of s0)) by (by apply symbol_ok). destruct s0 as [[]| |]; try done. cbn [name_of ok_or].
  rewrite (bind_run _ _ _ st1 s) by done. rewrite (bind_run _ _ _ _ _ (binding_ok s scope env ws sc rs es Hc)).
  pose proof (steps_visits [sv] [v0] (BAssign (resolve s env)) (fun cs => match cs with [c] => Some (TAssign (resolve s env) c) | _ => None end) [Visit v0 scope false; Build_ (BAssign (resolve s env)) sp] false) as H.
  unfold steps_to in H. replace (c ← compile env false sv; Some (TAssign (resolve s env) c)) with
    (cs ← all_of (map (compile env false) [sv]); match cs with [c] => Some (TAssign (resolve s env) c) | _ => None end) by (simpl; by destruct (compile env false sv)).
  apply H; [by constructor; [|constructor]|rewrite <- Ha; unfold ssizes; simpl; lia| |done].
  intros cs Hcs. pose proof (all_of_length _ _ _ Hcs) as Hl'. destruct cs as [|c [|? ?]]; try done. eexists. split; [done|]. apply builds_assign.
Qed.
Lemma let_values bs vs : map pair_value bs = map Some vs ->
  map (fun b => match b with SList [_; v] None => compile env false v | _ => None end) bs = map (compile env false) vs /\ (ssizes vs <= ssizes bs)%nat.
Proof.
  clear. revert vs. induction bs as [|b bs IHb]; intros vs H; destruct vs as [|v vs]; try done. simpl in H. injection H as Hb H. destruct (IHb vs H) as [Hm Hle].
  destruct b as [|[|x [|v' [|? ?]]] [|]|]; try done. simpl in Hb. injection Hb as ->. split; [cbn [map]; by rewrite Hm|]. unfold ssizes in *. simpl. lia.
Qed.

Lemma form_let : steps_to (match h :: ids with
    | _ :: bs :: _ :: _ =>
        bindings ← list_ f bs; bindings ← lift (ok_or bindings (diagnostic Syntax sp)); pairs ← let_pairs f sp bindings;
        params ← parameters f (map fst pairs); inner ← push_scope scope params;
        push_work (visits (map snd pairs) scope false ++ visits (drop 2 (h :: ids)) inner false ++
          [Build_ (BSequence (length (h :: ids) - 2)) sp; Build_ (BLet (length bindings)) sp])
    | _ => fail (diagnostic Syntax sp)
    end)
  (match args with
   | SList bs None :: ((_ :: _) as body) =>
       xs ← all_of (map pair_name bs); names ← names_of xs;
       values ← all_of (map (fun b => match b with SList [_; v] None => compile env false v | _ => None end) bs);
       parts ← all_of (map (compile (names :: env) false) body);
       Some (TCall (TLambda (length bs) (TSequence parts)) values)
   | _ => None
   end).
Proof.
  inversion Hids as [Hi Ha|p s0 rest body Hp Hrest Hi Ha]; [done|].
  inversion Hrest as [Hi' Ha'|v0 sv rest' body' Hv Hrest' Hi' Ha']; [by destruct s0 as [|? []|]|]. subst rest body.
  pose proof (list_ok p s0 Hp) as Hl. unfold steps_to. destruct s0 as [a|bs [t|]|q]; try (rewrite (bind_run _ _ _ _ _ (Hl _)); done).
  destruct Hl as (bids & Hl & Hbs). rewrite (bind_run _ _ _ _ _ (Hl _)), (bind_run _ _ _ st1 bids) by done.
  pose proof (let_pairs_ok sp bids bs Hbs) as Hlp. destruct (all_of (map pair_name bs)) as [xs|] eqn:Hxs; cbn [mbind option_bind].
  2: { by rewrite (bind_stop _ _ _ _ _ (Hlp _)). }
  destruct Hlp as (pairs & vs & Hlp & Hpx & Hpv & Hvs & Hlen). rewrite (bind_run _ _ _ _ _ (Hlp _)).
  pose proof (parameters_ok _ _ Hpx st1) as Hpar. destruct (names_of xs) as [names|] eqn:Hnm; cbn [mbind option_bind].
  2: { destruct Hpar as (e & He & Hpar). by rewrite (bind_stop _ _ _ _ _ Hpar). }
  rewrite (bind_run _ _ _ _ _ Hpar), (bind_run _ _ _ (mkLowering ws (sc ++ [mkScopeFrame scope names]) rs es) (Some (length sc))) by done. rewrite push_work_ok.
  destruct (let_values bs vs Hvs) as [-> Hsz]. set (sc1 := sc ++ [mkScopeFrame scope names]).
  assert (ssizes args = (S (ssizes bs + 0) + ssizes (sv :: body'))%nat) as Hsa by (rewrite <- Ha; done). rewrite Hsa.
  rewrite <- app_assoc, <- app_assoc. simpl app. replace (length (h :: p :: v0 :: rest') - 2)%nat with (length (v0 :: rest')) by (simpl; lia).
  assert (chain sc1 scope env) as Hc1 by (by apply chain_app).
  eapply (outcome_mono _ (4 * ssizes vs + (4 * ssizes (sv :: body') + 1 + 1))); [|lia|done].
  eapply outcome_bind; [apply visit_all; [apply forms_all; rewrite Hsa; lia|exact Hpv|exact Hc1]|].
  intros cvs st2 Hcvs (sc2 & es2 & eids & -> & Henc).
  assert (chain (sc1 ++ sc2) (Some (length sc)) (names :: env)) as Hc2 by (apply chain_app, chain_push, Hc).
  eapply outcome_bind; [apply (visits_sequence (names :: env) (sv :: body') (v0 :: rest')); [apply forms_all; rewrite Hsa; lia|by constructor|exact Hc2]|].
  intros parts st3 _ (sc3 & es3 & b & -> & Hb).
  destruct (builds_let sp cvs (TSequence parts) (length bids)) with (ws := ws) (sc := (sc1 ++ sc2) ++ sc3) (rs := rs) (es := (es ++ es2) ++ es3) (eids := eids ++ [b]) as (es4 & eid & Hw & He).
  { rewrite (all_of_length _ _ _ Hcvs), <- Hlen. apply (f_equal length) in Hvs. by rewrite !length_map in Hvs. }
  { apply encode_all_snoc; [by apply encode_all_app|done]. }
  rewrite app_assoc in Hw. eapply outcome_step; [exact Hw|]. rewrite Hlen. apply outcome_here.
  exists ([mkScopeFrame scope names] ++ sc2 ++ sc3), (es2 ++ es3 ++ es4), eid. subst sc1. by rewrite <- !app_assoc in *.
Qed.

End forms.

(** An application. *)
Lemma call_ok env sp scope ws sc rs es h ids s args :
  Forall (visits_ok env false) (s :: args) -> denote_all (nodes f) (h :: ids) (s :: args) -> chain sc scope env ->
  outcome (mkLowering (visits (h :: ids) scope false ++ Build_ (BCall (length (h :: ids) - 1)) sp :: ws) sc rs es) (4 * ssizes (s :: args) + 1)
    (parts ← all_of (map (compile env false) (s :: args)); match parts with c :: cs => Some (TCall c cs) | [] => None end) (built ws sc rs es).
Proof.
  intros Hss Hd Hc. apply visits_build; [done..|]. intros cs Hcs. pose proof (all_of_length _ _ _ Hcs) as Hl. destruct cs as [|c cs]; [done|].
  eexists. split; [done|]. apply builds_call. apply denote_all_length in Hd. simpl in *. lia.
Qed.

Lemma is_kw_some k b : is_kw (Some k) b = bool_decide (k = text_of b).
Proof. unfold is_kw. apply bool_decide_ext. naive_solver. Qed.

Lemma visit_is_list id h ids sp scope top st :
  nodes f !! id = Some (mkNode (DList (h :: ids) None) sp) -> do_work (Visit id scope top) st = visit_list f sp scope top (h :: ids) h st.
Proof. intros Hid. simpl. unfold visit. by rewrite (bind_run _ _ _ st _ (expect_run _ _ _ Hid)). Qed.

Lemma outcome_of_steps w ws sc rs es args m o b :
  do_work w (mkLowering ws sc rs es) = m (mkLowering ws sc rs es) -> steps_to ws sc rs es args m o -> (4 * ssizes args + 4 <= b)%nat ->
  outcome (mkLowering (w :: ws) sc rs es) b o (built ws sc rs es).
Proof.
  intros Hm Ho Hb. unfold steps_to in Ho. rewrite <- Hm in Ho.
  destruct (do_work w (mkLowering ws sc rs es)) as [[[[]|e] st2]|] eqn:Hdo; [| |done].
  - eapply outcome_mono; [eapply outcome_step; [exact Hdo|exact Ho]|lia|done].
  - destruct Ho as [-> He]. eapply outcome_mono; [by eapply (outcome_fail _ _ _ _ _ _ _ 0)|lia|done].
Qed.

Lemma elem_ssizes x ss : x ∈ ss -> (ssize x <= ssizes ss)%nat.
Proof.
  induction ss as [|y ss IHs]; [by intros H%not_elem_of_nil|]. rewrite ssizes_cons. intros [->|Hin]%elem_of_cons; [lia|]. specialize (IHs Hin). lia.
Qed.

(** An application or a special form. *)
Lemma list_steps env top sp scope ws sc rs es id h ids s args :
  nodes f !! id = Some (mkNode (DList (h :: ids) None) sp) -> denotes (nodes f) h s -> denote_all (nodes f) ids args -> chain sc scope env ->
  (forall s' env top, (ssize s' <= ssizes (s :: args))%nat -> visits_ok env top s') ->
  outcome (mkLowering (Visit id scope top :: ws) sc rs es) (4 * ssizes (s :: args) + 4) (compile env top (SList (s :: args) None)) (built ws sc rs es).
Proof.
  intros Hid Hh Hids Hc IH. pose proof (visit_is_list id h ids sp scope top (mkLowering ws sc rs es) Hid) as Hw.
  unfold visit_list in Hw. rewrite (bind_run _ _ _ _ _ (symbol_ok h s _ Hh)) in Hw. cbn zeta in Hw.
  assert (do_work (Visit id scope top) (mkLowering ws sc rs es) = push_work (visits (h :: ids) scope false ++ [Build_ (BCall (length (h :: ids) - 1)) sp]) (mkLowering ws sc rs es) ->
    outcome (mkLowering (Visit id scope top :: ws) sc rs es) (4 * ssizes (s :: args) + 4)
      (parts ← all_of (map (compile env false) (s :: args)); match parts with c :: cs => Some (TCall c cs) | [] => None end) (built ws sc rs es)) as Hcall.
  { intros Hv. eapply outcome_mono; [eapply outcome_step; [exact Hv|]|instantiate (1 := (4 * ssizes (s :: args) + 1)%nat); lia|done]. rewrite <- app_assoc.
    apply call_ok; [|by constructor|done]. apply Forall_forall. intros x Hx. by apply IH, elem_ssizes. }
  assert (forall s' env top, (ssize s' <= ssizes args)%nat -> visits_ok env top s') as IH'.
  { intros s' env' top' Hs'. apply IH. rewrite ssizes_cons. lia. }
  assert (4 * ssizes args + 4 <= 4 * ssizes (s :: args) + 4)%nat as Hb by (rewrite ssizes_cons; lia).
  cbn [compile]. destruct s as [a|items t|q]; [|by apply Hcall..]. destruct a as [n|b|x|k|x]; try (by apply Hcall). cbn [name_of] in *.
  rewrite !is_kw_some in Hw.
  destruct (bool_decide (k = text_of "quote")); [by eapply outcome_of_steps; [exact Hw|eapply form_quote|]|].
  destruct (bool_decide (k = text_of "if")); [by eapply outcome_of_steps; [exact Hw|eapply form_if|]|].
  destruct (bool_decide (k = text_of "begin")); [by eapply outcome_of_steps; [exact Hw|eapply form_begin|]|].
  destruct (bool_decide (k = text_of "lambda")); [by eapply outcome_of_steps; [exact Hw|eapply form_lambda|]|].
  destruct (bool_decide (k = text_of "define")); [by eapply outcome_of_steps; [exact Hw|eapply form_define|]|].
  destruct (bool_decide (k = text_of "set!")); [by eapply outcome_of_steps; [exact Hw|eapply form_set|]|].
  destruct (bool_decide (k = text_of "let")); [by eapply outcome_of_steps; [exact Hw|eapply form_let|]|].
  by apply Hcall.
Qed.

Lemma result_outcome w ws sc rs es e sp c b :
  do_work w (mkLowering ws sc rs es) = LispLower.result e sp (mkLowering ws sc rs es) ->
  encodes (nodes f) (es ++ [mkExpression e sp]) (length es) c -> (1 <= b)%nat ->
  outcome (mkLowering (w :: ws) sc rs es) b (Some c) (built ws sc rs es).
Proof.
  intros Hw He Hb. eapply outcome_mono; [eapply (outcome_step _ _ _ _ _ _ 0); [rewrite Hw; apply result_ok|]|lia|done]. apply outcome_here. by apply result_built.
Qed.

Lemma visits_compile n : forall s, (ssize s <= n)%nat -> forall env top, visits_ok env top s.
Proof.
  induction n as [|n IH]; intros s Hs env top; [destruct s; simpl in Hs; lia|].
  intros id scope ws sc rs es Hd Hc. inversion Hd as [i a sp Hl|i items sp ss Hl Hitems|i items t sp ss st Hl Hitems Ht|i j sp q Hl Hq]; subst;
    (assert (forall g, (expect (nodes f !! id) ≫= g) (mkLowering ws sc rs es) = (g _ : LW unit) (mkLowering ws sc rs es)) as Hv
       by (intros g; by rewrite (bind_run _ _ _ _ _ (expect_run _ _ _ Hl)))).
  - destruct a; try (eapply result_outcome; [exact (Hv _)|eapply en_literal, lookup_snoc|simpl; lia]).
    simpl compile. eapply result_outcome; [|eapply en_reference, lookup_snoc|simpl; lia].
    simpl. unfold visit. rewrite Hv. simpl. by rewrite (bind_run _ _ _ _ _ (binding_ok s scope env ws sc rs es Hc)).
  - destruct ss as [|s ss]; inversion Hitems as [|h ? ids ? Hh Hids]; subst.
    + eapply result_outcome; [exact (Hv _)|eapply en_quote; [apply lookup_snoc|done]|simpl; lia].
    + replace (4 * ssize (SList (s :: ss) None))%nat with (4 * ssizes (s :: ss) + 4)%nat by (unfold ssizes; simpl; lia).
      eapply list_steps; [done..|]. intros s' env' top' Hs'. apply IH. unfold ssizes in Hs'. simpl in *. lia.
  - replace (compile env top (SList ss (Some st))) with (@None code) by (by destruct ss).
    eapply outcome_mono; [eapply (outcome_fail _ _ _ _ _ _ _ 0); [by destruct items; exact (Hv _)|done]|simpl; lia|done].
  - eapply result_outcome; [exact (Hv _)|eapply en_quote; [apply lookup_snoc|done]|simpl; lia].
Qed.
End lowering.

(** C40: The compiler gives every expression its code and only that.  For the
    form of any expression, a number of rounds linear in its size is enough and
    nothing panics: it answers with an arena that stands for the code the
    recursive definition gives, or with a syntax error exactly when that
    definition gives none. *)
Theorem lower_exact f s fuel st :
  denotes (nodes f) (root f) s -> (4 * ssize s < fuel)%nat ->
  match lower fuel f st with
  | Some (Ok m, _) => form m = f /\ exists c, compile [] true s = Some c /\ encodes (nodes f) (expressions m) (m_root m) c
  | Some (Err e, _) => kind e = Syntax /\ compile [] true s = None
  | None => False
  end.
Proof.
  intros Hd Hf. unfold lower. rewrite (bind_run _ _ _ (mkLowering [Visit (root f) None true] [] [] []) tt) by done.
  pose proof (visits_compile f (ssize s) s ltac:(lia) [] true (root f) None [] [] [] [] Hd ltac:(constructor)) as Ho. unfold outcome in Ho.
  destruct (compile [] true s) as [c|].
  - destruct Ho as (k & st' & Hk & (sc' & es' & eid & -> & He) & Hr). destruct fuel as [|fuel]; [lia|].
    assert (lower_loop (S fuel) f (mkLowering [Visit (root f) None true] [] [] []) = Some (Ok tt, mkLowering [] ([] ++ sc') ([] ++ [eid]) ([] ++ es'))) as Hl.
    { replace (S fuel) with (k + S (fuel - k))%nat by lia. by rewrite Hr. }
    rewrite (bind_run _ _ _ _ _ Hl). simpl. unfold mbind, M_bind, get, expect, mret, M_ret. simpl. split; [done|]. by exists c.
  - destruct Ho as (k & Hk & e & st' & He & Hr).
    assert (lower_loop fuel f (mkLowering [Visit (root f) None true] [] [] []) = Some (Err e, st')) as Hl.
    { replace fuel with (k + (fuel - k))%nat by lia. apply Hr. }
    by rewrite (bind_stop _ _ _ _ _ Hl).
Qed.

(** ** Scopes *)

(** A local name is in the frames of parameters around, whose sizes are given. *)
Definition bound (sizes : list nat) (b : Binding) : Prop :=
  match b with Local d i => exists n, sizes !! d = Some n /\ (i < n)%nat | Global _ => True end.

Fixpoint scoped (sizes : list nat) (c : code) : Prop :=
  match c with
  | TLiteral _ | TQuote _ => True
  | TReference b => bound sizes b
  | TIf t y n => scoped sizes t /\ scoped sizes y /\ scoped sizes n
  | TSequence cs => fold_right and True (map (scoped sizes) cs)
  | TLambda n b => scoped (n :: sizes) b
  | TCall g cs => scoped sizes g /\ fold_right and True (map (scoped sizes) cs)
  | TDefine _ v => scoped sizes v
  | TAssign b v => bound sizes b /\ scoped sizes v
  end.

Definition all_scoped (sizes : list nat) (cs : list code) : Prop := fold_right and True (map (scoped sizes) cs).

Lemma resolve_bound name env pre : bound (pre ++ map length env) (resolve_at (length pre) name env).
Proof.
  revert pre. induction env as [|names env IH]; intros pre; simpl; [done|]. destruct (position _ names) as [slot|] eqn:Hp.
  - apply position_Some in Hp as (y & Hy & _). exists (length names). split; [by rewrite lookup_app_r, Nat.sub_diag by lia|]. by apply lookup_lt_Some in Hy.
  - specialize (IH (pre ++ [length names])). rewrite <- app_assoc in IH. rewrite length_app, Nat.add_1_r in IH. done.
Qed.

Lemma all_of_scoped sizes (g : sexp -> option code) ss cs :
  all_of (map g ss) = Some cs -> (forall s c, s ∈ ss -> g s = Some c -> scoped sizes c) -> all_scoped sizes cs.
Proof.
  revert cs. induction ss as [|s ss IH]; intros cs Hc Hs; simpl in Hc; [by injection Hc as <-|].
  destruct (g s) as [c|] eqn:Hg; [|done]. simpl in Hc. destruct (all_of (map g ss)) as [r|]; [|done]. injection Hc as <-. simpl. split.
  - apply (Hs s); [left|done].
  - apply IH; [done|]. intros s' c' Hin. apply Hs. by right.
Qed.

Lemma names_length ss names : names_of ss = Some names -> length names = length ss.
Proof.
  unfold names_of. destruct (all_of (map name_of ss)) as [ns|] eqn:Hn; [|done]. simpl. case_bool_decide; [|done]. intros [= <-]. by eapply all_of_length.
Qed.

Lemma compile_scoped n : forall s, (ssize s <= n)%nat -> forall env top c, compile env top s = Some c -> scoped (map length env) c.
Proof.
  induction n as [|n IH]; intros s Hs env top c Hc; [destruct s; simpl in Hs; lia|].
  assert (forall ss env top cs, (ssizes ss <= n)%nat -> all_of (map (compile env top) ss) = Some cs -> all_scoped (map length env) cs) as IHs.
  { intros ss env' top' cs Hss Hcs. eapply all_of_scoped; [exact Hcs|]. intros s' c' Hin Hc'. pose proof (elem_ssizes s' ss Hin). eapply IH; [|exact Hc']. lia. }
  destruct s as [a|items t|q]; simpl in Hc.
  - destruct a; injection Hc as <-; simpl; try done. apply (resolve_bound s env []).
  - destruct items as [|h args], t as [t|]; try done; [by injection Hc as <-|].
    assert (ssize h + ssizes args <= n)%nat as Hs' by (unfold ssizes; simpl in Hs; lia). clear Hs. rename Hs' into Hs.
    assert (forall parts, (compile env false h ≫= fun a => all_of (map (compile env false) args) ≫= fun r => Some (a :: r)) = Some parts ->
      match parts with f :: xs => Some (TCall f xs) | [] => None end = Some c -> scoped (map length env) c) as Hcall.
    { intros parts Hp Hparts. destruct (compile env false h) as [ch|] eqn:Hh; [|done]. simpl in Hp. destruct (all_of (map (compile env false) args)) as [r|] eqn:Hr; [|done].
      injection Hp as <-. injection Hparts as <-. simpl. split; [eapply IH; [|exact Hh]; lia|eapply IHs; [|exact Hr]; lia]. }
    assert ((parts ← (compile env false h ≫= fun a => all_of (map (compile env false) args) ≫= fun r => Some (a :: r)); match parts with f :: xs => Some (TCall f xs) | [] => None end) = Some c -> scoped (map length env) c) as Hcall'.
    { intros H. destruct (compile env false h ≫= _) as [parts|] eqn:Hp; [|done]. by eapply Hcall. }
    destruct (name_of h) as [k|]; [|by apply Hcall'].
    assert (forall ps body names g, (ssizes body <= n)%nat -> names_of ps = Some names ->
      (parts ← all_of (map (compile (names :: env) false) body); Some (g (length names) (TSequence parts))) = Some c ->
      (forall b, scoped (length names :: map length env) b -> scoped (map length env) (g (length names) b)) -> scoped (map length env) c) as Hfun.
    { intros ps body names g Hb _ Hp Hg. destruct (all_of (map (compile (names :: env) false) body)) as [parts|] eqn:Hparts; [|done]. injection Hp as <-. apply Hg. simpl. by eapply (IHs body (names :: env)). }
    repeat case_bool_decide.
    + destruct args as [|d [|? ?]]; by simplify_eq/=.
    + destruct args as [|a [|b [|d [|? ?]]]]; try done. unfold ssizes in Hs. simpl in Hs.
      destruct (compile env false a) eqn:H1; [|done]. destruct (compile env false b) eqn:H2; [|done]. destruct (compile env false d) eqn:H3; [|done].
      injection Hc as <-. simpl. split_and!; [eapply IH; [|exact H1]|eapply IH; [|exact H2]|eapply IH; [|exact H3]]; lia.
    + destruct (all_of (map (compile env top) args)) as [parts|] eqn:Hp; [|done]. injection Hc as <-. simpl. eapply IHs; [|exact Hp]. lia.
    + destruct args as [|[|ps [|]|] [|b body]]; try done. destruct (names_of ps) as [names|] eqn:Hn; [|done]. cbn [mbind option_bind] in Hc.
      eapply (Hfun ps (b :: body) names TLambda); [unfold ssizes in *; simpl in *; lia|done|exact Hc|done].
    + destruct top; [|done]. simpl in Hc. destruct args as [|[[| | |x|]|[|[[| | |x|]| |] ps] [|]|] [|b body]]; try done.
      * destruct body; [|done]. destruct (compile env false b) eqn:Hb; [|done]. injection Hc as <-. simpl. eapply IH; [|exact Hb]. unfold ssizes in Hs. simpl in Hs. lia.
      * destruct (names_of ps) as [names|] eqn:Hn; [|done]. cbn [mbind option_bind] in Hc.
        eapply (Hfun ps (b :: body) names (fun n b => TDefine x (TLambda n b))); [unfold ssizes in *; simpl in *; lia|done|exact Hc|done].
    + destruct args as [|[[| | |x|]| |] [|v [|? ?]]]; try done. destruct (compile env false v) eqn:Hv; [|done]. injection Hc as <-. simpl.
      split; [apply (resolve_bound x env [])|]. eapply IH; [|exact Hv]. unfold ssizes in Hs. simpl in Hs. lia.
    + destruct args as [|[|bs [|]|] [|b body]]; try done. destruct (all_of (map pair_name bs)) as [xs|] eqn:Hxs; [|done]. cbn [mbind option_bind] in Hc.
      destruct (names_of xs) as [names|] eqn:Hn; [|done]. cbn [mbind option_bind] in Hc. destruct (all_of (map (fun b0 => match b0 with SList [_; v] None => compile env false v | _ => None end) bs)) as [values|] eqn:Hv; [|done]. cbn [mbind option_bind] in Hc.
      destruct (all_of (map (compile (names :: env) false) (b :: body))) as [parts|] eqn:Hp; [|done]. injection Hc as <-.
      assert (length bs = length names) as Hl by (rewrite (names_length _ _ Hn); symmetry; by eapply all_of_length). simpl. split.
      * rewrite Hl. eapply (IHs (b :: body) (names :: env)); [|exact Hp]. unfold ssizes in *. simpl in *. lia.
      * eapply all_of_scoped; [exact Hv|]. intros s' c' Hin Hc'. destruct s' as [|[|? [|v [|? ?]]] [|]|]; try done. eapply IH; [|exact Hc'].
        pose proof (elem_ssizes _ _ Hin) as Hle. unfold ssizes in *. simpl in *. lia.
    + by apply Hcall'.
  - by injection Hc as <-.
Qed.

(** [(lambda (x) (x y))] *)
Definition apply_form : Form :=
  let at_ := mkSpan 0 0 in let sym (x : String.string) := mkNode (DAtom (ASymbol (text_of x))) at_ in
  mkForm [] [sym "lambda"%string; sym "x"%string; mkNode (DList [1%nat] None) at_; sym "x"%string; sym "y"%string;
                mkNode (DList [3; 4]%nat None) at_; mkNode (DList [0; 2; 5]%nat None) at_] 6 2.

Definition apply_sexp : sexp :=
  let sym (x : String.string) := SAtom (ASymbol (text_of x)) in
  SList [sym "lambda"%string; SList [sym "x"%string] None; SList [sym "x"%string; sym "y"%string] None] None.

Lemma lower_exact_witness : exists m st', lower 100 apply_form (mkLowering [] [] [] []) = Some (Ok m, st') /\
  exists c, compile [] true apply_sexp = Some c /\ encodes (nodes apply_form) (expressions m) (m_root m) c.
Proof.
  assert (denotes (nodes apply_form) (root apply_form) apply_sexp) as Hd.
  { unfold apply_sexp. cbn beta zeta. repeat match goal with
    | |- denotes _ _ (SAtom _) => eapply de_atom; reflexivity
    | |- denotes _ _ (SList _ None) => eapply de_list; [reflexivity|]
    | |- denote_all _ _ (_ :: _) => constructor
    | |- denote_all _ _ [] => constructor
    end. }
  assert (4 * ssize apply_sexp < 100)%nat as Hf by (vm_compute; lia).
  pose proof (lower_exact apply_form apply_sexp 100 (mkLowering [] [] [] []) Hd Hf) as H.
  assert (exists m st', lower 100 apply_form (mkLowering [] [] [] []) = Some (Ok m, st')) as (m & st' & Hm) by (do 2 eexists; vm_compute; reflexivity).
  rewrite Hm in H. exists m, st'. split; [exact Hm|]. destruct H as [_ (c & Hc & He)]. exists c. split; [exact Hc|exact He].
Defined.
