(* ===== verification/LispHeap.v ===== *)
(** * The heap of the Lisp: [crates/lisp/src/runtime/heap.rs]

    Objects live in slots and are named by handles: the slot and its
    generation, which a collection advances when it frees the slot.  Marking
    follows the references of the objects from the roots, sweeping frees every
    slot that was not marked.

    How much memory an object takes depends on the capacities of its vectors,
    and whether the tables of the heap can grow depends on the allocator.  Both
    are answers of a class [Memory], which may differ from one allocation to the
    next: the heap counts the times it asks in [clock]. *)

From S2P Require Import Prelude LispSyntax LispLower.

Open Scope Z_scope.

(** ** [value.rs], [env.rs], [native.rs] *)

Record Handle := mkHandle { h_slot : nat; h_generation : Z }.

#[global] Instance Handle_eq_dec : EqDecision Handle.
Proof. solve_decision. Defined.

Inductive Value := Nil | Integer (n : Z) | Boolean (b : bool) | VObject (h : Handle) | Builtin (id : nat) | VNative (id : nat).

#[global] Instance Value_eq_dec : EqDecision Value.
Proof. solve_decision. Defined.

Record ForeignId := mkForeignId { f_slot : Z; f_generation : Z }.

Record Environment := mkEnvironment { e_parent : option Handle; e_cells : list Handle }.

Inductive Object :=
| OSymbol (s : list Z)
| OString (s : list Z)
| OBytes (b : list Z)
| OPair (a b : Value)
| OCell (v : Value)
| OEnvironment (e : Environment)
| OClosure (module : Module_) (body params : nat) (env : option Handle)
| OForeign (id : ForeignId) (kind : list Z).

(** The values an object refers to, in the order they are pushed. *)
Definition references (o : Object) : list Value :=
  match o with
  | OPair a b => [a; b]
  | OCell v => [v]
  | OEnvironment e => map VObject (option_list (e_parent e)) ++ map VObject (e_cells e)
  | OClosure _ _ _ env => map VObject (option_list env)
  | _ => []
  end.

Record Slot := mkSlot { generation : Z; marked : bool; object : option Object; weight : Z }.

(** [free] has the slot that is taken next first. *)
Record Heap := mkHeap {
  slots : list Slot;
  free : list nat;
  used : Z;
  limit : Z;
  metadata : Z;
  slots_capacity : Z;
  free_capacity : Z;
  clock : nat
}.

(** What is asked of the memory below the heap, the [t]-th time: the
    weight of an object, and whether the two tables, or the output of a running
    builtin, may grow. *)
Class Memory := {
  weigh : nat -> Object -> Z;
  reserve_free : nat -> bool;
  reserve_slots : nat -> bool;
  reserve_output : nat -> bool;
  size_Slot : Z;
  size_usize : Z
}.

Class MemoryLaws (Mem : Memory) : Prop := {
  weigh_nonneg t o : 0 <= weigh t o;
  size_Slot_pos : 0 < size_Slot;
  size_usize_pos : 0 < size_usize
}.

(** A memory that never runs out, where every object weighs the same. *)
Definition plain_memory : Memory := {| weigh _ _ := 16; reserve_free _ := true; reserve_slots _ := true; reserve_output _ := true; size_Slot := 40; size_usize := 8 |}.

Lemma plain_memory_laws : MemoryLaws plain_memory.
Proof. split; simpl; lia. Qed.

Definition u32_MAX : Z := 2 ^ 32 - 1.

Section heap.
Context `{Memory}.

Definition Heap_new (limit : Z) : Heap := mkHeap [] [] 0 limit 0 0 0 0.

Definition object_budget (h : Heap) : Z := saturating_sub (limit h) (metadata h).
Definition remaining (h : Heap) : Z := saturating_sub (object_budget h) (used h).

Abbreviation HM := (M Heap unit).

Definition set_used (u : Z) (h : Heap) : Heap := mkHeap (slots h) (free h) u (limit h) (metadata h) (slots_capacity h) (free_capacity h) (clock h).
Definition set_slots (l : list Slot) (h : Heap) : Heap := mkHeap l (free h) (used h) (limit h) (metadata h) (slots_capacity h) (free_capacity h) (clock h).
Definition set_free (l : list nat) (h : Heap) : Heap := mkHeap (slots h) l (used h) (limit h) (metadata h) (slots_capacity h) (free_capacity h) (clock h).
Definition tick (h : Heap) : Heap := mkHeap (slots h) (free h) (used h) (limit h) (metadata h) (slots_capacity h) (free_capacity h) (S (clock h)).

Definition charge (w : Z) : HM unit :=
  h ← get;
  if remaining h <? w then fail tt
  else u ← uadd (used h) w; put (set_used u h).

(** The tables grow to twice their size; the list of free slots first, so that
    filing a freed slot never needs memory. *)
Definition grow (t : nat) (w : Z) : HM unit :=
  h ← get;
  if len (slots h) =? slots_capacity h then
    capacity ← lift (ok_or (checked_mul (Z.max (slots_capacity h) 16) 2) tt);
    meta ← lift (ok_or (checked_mul capacity (size_Slot + size_usize)) tt);
    let extra := saturating_sub meta (metadata h) in
    total ← lift (ok_or (checked_add extra w) tt);
    if remaining h <? total then fail tt
    else
      additional ← usub capacity (len (free h));
      if negb (reserve_free t) then fail tt
      else
        let fc := if free_capacity h - len (free h) <? additional then len (free h) + additional else free_capacity h in
        m1 ← expect (checked_mul (slots_capacity h) size_Slot);
        m2 ← expect (checked_mul fc size_usize);
        actual ← uadd m1 m2;
        put (mkHeap (slots h) (free h) (used h) (limit h) actual (slots_capacity h) fc (clock h)) ;;
        additional ← usub capacity (len (slots h));
        if negb (reserve_slots t) then fail tt
        else put (mkHeap (slots h) (free h) (used h) (limit h) meta (len (slots h) + additional) fc (clock h))
  else mret tt.

Definition take_index (t : nat) (w : Z) : HM nat :=
  h ← get;
  match free h with
  | index :: rest => put (set_free rest h) ;; mret index
  | [] =>
      grow t w ;;
      h ← get;
      put (set_slots (slots h ++ [mkSlot 0 false None 0]) h) ;;
      mret (length (slots h))
  end.

Definition alloc (o : Object) : HM Handle :=
  h ← get;
  put (tick h) ;;
  let t := clock h in
  let w := weigh t o in
  if remaining h <? w then fail tt
  else
    index ← take_index t w;
    h ← get;
    slot ← expect (slots h !! index);
    u ← uadd (used h) w;
    put (set_used u (set_slots (<[index := mkSlot (generation slot) (marked slot) (Some o) w]> (slots h)) h)) ;;
    mret (mkHandle index (generation slot)).

Definition heap_get (h : Heap) (handle : Handle) : option Object :=
  slot ← slots h !! h_slot handle;
  if generation slot =? h_generation handle then object slot else None.

(** [get_mut] and the store through it. *)
Definition heap_set (h : Heap) (handle : Handle) (o : Object) : Heap :=
  match slots h !! h_slot handle with
  | Some slot => set_slots (<[h_slot handle := mkSlot (generation slot) (marked slot) (Some o) (weight slot)]> (slots h)) h
  | None => h
  end.

(** ** Collection *)

(** One round of the first loop: [value] was popped, the last root comes first. *)
Definition mark_value (value : Value) (roots : list Value) (l : list Slot) : list Value * list Slot :=
  match value with
  | VObject handle =>
      match l !! h_slot handle with
      | Some slot =>
          if negb (generation slot =? h_generation handle) || marked slot then (roots, l)
          else (reverse (match object slot with Some o => references o | None => [] end) ++ roots,
                <[h_slot handle := mkSlot (generation slot) true (object slot) (weight slot)]> l)
      | None => (roots, l)
      end
  | _ => (roots, l)
  end.

Fixpoint mark_loop (fuel : nat) (roots : list Value) (l : list Slot) : option (list Slot) :=
  match roots, fuel with
  | [], _ => Some l
  | _, O => None
  | value :: roots, S fuel => let '(roots, l) := mark_value value roots l in mark_loop fuel roots l
  end.

(** The state of the second loop: what is used, the free slots, the foreign
    objects released. *)
Record Sweep := mkSweep { sw_used : Z; sw_free : list nat; sw_released : list ForeignId }.

Definition sweep_slot (index : nat) (slot : Slot) (sw : Sweep) : option (Slot * Sweep) :=
  if marked slot then Some (mkSlot (generation slot) false (object slot) (weight slot), sw)
  else match object slot with
  | Some o =>
      let released := match o with OForeign id _ => sw_released sw ++ [id] | _ => sw_released sw end in
      u ← checked_sub (sw_used sw) (weight slot);
      if generation slot <? u32_MAX
      then Some (mkSlot (generation slot + 1) false None 0, mkSweep u (index :: sw_free sw) released)
      else Some (mkSlot (generation slot) false None 0, mkSweep u (sw_free sw) released)
  | None => Some (slot, sw)
  end.

Fixpoint sweep (index : nat) (l : list Slot) (sw : Sweep) : option (list Slot * Sweep) :=
  match l with
  | [] => Some ([], sw)
  | slot :: l => '(slot, sw) ← sweep_slot index slot sw; '(l, sw) ← sweep (S index) l sw; Some (slot :: l, sw)
  end.

(** Every object is followed once. *)
Definition mark_fuel (roots : list Value) (l : list Slot) : nat :=
  length roots + list_sum (map (fun s => match object s with Some o => length (references o) | None => 0 end)%nat l).

Definition collect (roots : list Value) : HM (list ForeignId) :=
  h ← get;
  l ← expect (mark_loop (mark_fuel roots (slots h)) (reverse roots) (slots h));
  '(l, sw) ← expect (sweep 0 l (mkSweep (used h) (free h) []));
  put (mkHeap l (sw_free sw) (sw_used sw) (limit h) (metadata h) (slots_capacity h) (free_capacity h) (clock h)) ;;
  mret (sw_released sw).
End heap.
