(* ===== verification/LispHeapInv.v ===== *)
(** * The heap of the Lisp keeps its books and frees what cannot be reached

    The invariant of the heap, what an allocation does, and that marking finds
    the objects that can be reached from the roots, in the rounds it is given. *)

From S2P Require Import Prelude LispSyntax LispLower LispHeap.

Open Scope Z_scope.

Definition refs_of (s : Slot) : list Value := match object s with Some o => references o | None => [] end.

Definition weights (l : list Slot) : Z := foldr (fun s n => weight s + n) 0 l.

Lemma weights_app l1 l2 : weights (l1 ++ l2) = weights l1 + weights l2.
Proof. induction l1; simpl; lia. Qed.

Lemma weights_insert l i s s' : l !! i = Some s -> weights (<[i := s']> l) = weights l - weight s + weight s'.
Proof.
  intros Hi. rewrite <- (take_drop_middle l i s Hi) at 2. rewrite insert_take_drop by (by eapply lookup_lt_Some).
  rewrite !weights_app. simpl. lia.
Qed.

Lemma weights_nonneg l : Forall (fun s => 0 <= weight s) l -> 0 <= weights l.
Proof. induction 1; simpl; lia. Qed.

(** ** Reachability *)

Section reach.
Context (h : Heap) (roots : list Value).

Inductive reachable : Handle -> Prop :=
| reach_root hd : VObject hd ∈ roots -> reachable hd
| reach_step hd o hd' : reachable hd -> heap_get h hd = Some o -> VObject hd' ∈ references o -> reachable hd'.
End reach.

(** The slots with other marks. *)
Definition same_slot (s s' : Slot) : Prop := generation s' = generation s /\ object s' = object s /\ weight s' = weight s.

(** A value that marking need not visit any more. *)
Definition done_with (l : list Slot) (v : Value) : Prop :=
  match v with
  | VObject hd => match l !! h_slot hd with Some s => generation s = h_generation hd -> marked s = true | None => True end
  | _ => True
  end.

Section marking.
Context (h : Heap) (roots : list Value).

Record marking (stack : list Value) (l : list Slot) : Prop := {
  mk_same : Forall2 same_slot (slots h) l;
  mk_stack : forall hd, VObject hd ∈ stack -> reachable h roots hd;
  mk_sound : forall i s, l !! i = Some s -> marked s = true -> reachable h roots (mkHandle i (generation s));
  mk_roots : forall v, v ∈ roots -> v ∈ stack \/ done_with l v;
  mk_refs : forall i s v, l !! i = Some s -> marked s = true -> v ∈ refs_of s -> v ∈ stack \/ done_with l v
}.

Lemma marking_get stack l i s : marking stack l -> l !! i = Some s -> heap_get h (mkHandle i (generation s)) = object s.
Proof.
  intros Hm Hi. destruct (Forall2_lookup_r _ _ _ _ _ (mk_same _ _ Hm) Hi) as (s0 & Hs0 & Hg & Ho & _). unfold heap_get. simpl. rewrite Hs0. simpl.
  by rewrite Hg, Z.eqb_refl, Ho.
Qed.

Lemma done_insert l i s v : l !! i = Some s -> done_with l v -> done_with (<[i := mkSlot (generation s) true (object s) (weight s)]> l) v.
Proof.
  intros Hi. destruct v as [| | |hd| |]; try done. simpl. destruct (decide (h_slot hd = i)) as [->|Hn].
  - by rewrite list_lookup_insert_eq by (by eapply lookup_lt_Some).
  - by rewrite list_lookup_insert_ne.
Qed.

Lemma mark_value_marking v stack l stack' l' :
  marking (v :: stack) l -> mark_value v stack l = (stack', l') -> marking stack' l'.
Proof.
  intros Hm. assert (done_with l v -> marking stack l) as Hskip.
  { intros Hd. destruct Hm as [A B C D E]. split; [done|set_solver|done| |].
    - intros v' Hv'. destruct (D v' Hv') as [[->|]%elem_of_cons|]; auto.
    - intros i s v' Hi Hs Hv'. destruct (E i s v' Hi Hs Hv') as [[->|]%elem_of_cons|]; auto. }
  destruct v as [| | |hd| |]; simpl; try (intros [= <- <-]; by apply Hskip).
  destruct (l !! h_slot hd) as [s|] eqn:Hs; [|intros [= <- <-]; apply Hskip; simpl; by rewrite Hs].
  destruct (generation s =? h_generation hd) eqn:Hg; simpl; [|intros [= <- <-]; apply Hskip; simpl; rewrite Hs; lia].
  destruct (marked s) eqn:Hmk; [intros [= <- <-]; apply Hskip; simpl; by rewrite Hs|].
  intros [= <- <-]. pose proof (mk_stack _ _ Hm hd ltac:(left)) as Hr. apply Z.eqb_eq in Hg.
  pose proof (lookup_lt_Some _ _ _ Hs) as Hlt. assert (hd = mkHandle (h_slot hd) (generation s)) as Hhd by (destruct hd; simpl in *; congruence).
  pose proof (marking_get _ _ _ _ Hm Hs) as Hget. rewrite <- Hhd in Hget. fold (refs_of s).
  set (s' := mkSlot (generation s) true (object s) (weight s)).
  assert (forall v', v' ∈ VObject hd :: stack \/ done_with l v' -> v' ∈ reverse (refs_of s) ++ stack \/ done_with (<[h_slot hd := s']> l) v') as Hmove.
  { intros v' [[->|Hv]%elem_of_cons|Hv]; [right|left|right].
    - simpl. by rewrite list_lookup_insert_eq.
    - set_solver.
    - by apply done_insert. }
  split.
  - assert (Forall2 same_slot (slots h) (<[h_slot hd := s']> l)) as H2; [|exact H2].
    destruct (Forall2_lookup_r _ _ _ _ _ (mk_same _ _ Hm) Hs) as (s0 & Hs0 & Hsame).
    rewrite <- (list_insert_id (slots h) (h_slot hd) s0 Hs0). apply Forall2_insert; [apply (mk_same _ _ Hm)|done].
  - intros hd' Hin. apply elem_of_app in Hin as [Hin|Hin]; [|apply (mk_stack _ _ Hm); by right].
    rewrite elem_of_reverse in Hin. unfold refs_of in Hin. destruct (object s) as [o|] eqn:Ho; [|by apply elem_of_nil in Hin].
    by apply (reach_step _ _ hd o).
  - intros i t Hi Ht. destruct (decide (i = h_slot hd)) as [->|Hn].
    + rewrite list_lookup_insert_eq in Hi by done. injection Hi as <-. simpl. by rewrite <- Hhd.
    + rewrite list_lookup_insert_ne in Hi by done. by apply (mk_sound _ _ Hm).
  - intros v' Hv'. apply Hmove. by apply (mk_roots _ _ Hm).
  - intros i t v' Hi Ht Hv'. destruct (decide (i = h_slot hd)) as [->|Hn].
    + rewrite list_lookup_insert_eq in Hi by done. injection Hi as <-. left. apply elem_of_app. left. by apply elem_of_reverse.
    + rewrite list_lookup_insert_ne in Hi by done. apply Hmove. by eapply (mk_refs _ _ Hm).
Qed.

(** References of slots still to be marked. *)
Definition unmarked_refs (l : list Slot) : nat := list_sum (map (fun s => if marked s then 0 else length (refs_of s))%nat l).

Lemma unmarked_insert l i s : l !! i = Some s -> marked s = false ->
  (unmarked_refs (<[i := mkSlot (generation s) true (object s) (weight s)]> l) + length (refs_of s) = unmarked_refs l)%nat.
Proof.
  intros Hi Hs. rewrite <- (take_drop_middle l i s Hi) at 2. rewrite insert_take_drop by (by eapply lookup_lt_Some).
  unfold unmarked_refs. rewrite !map_app, !list_sum_app. simpl. rewrite Hs. lia.
Qed.

Lemma mark_loop_ends fuel : forall stack l, marking stack l -> (length stack + unmarked_refs l <= fuel)%nat ->
  exists l', mark_loop fuel stack l = Some l' /\ marking [] l'.
Proof.
  induction fuel as [|fuel IH]; intros [|v stack] l Hm Hf; simpl in Hf; try lia; [by exists l|by exists l|].
  simpl. destruct (mark_value v stack l) as [stack' l'] eqn:Hv. apply IH; [by eapply mark_value_marking|].
  destruct v as [| | |hd| |]; simpl in Hv; try (injection Hv as <- <-; lia).
  destruct (l !! h_slot hd) as [s|] eqn:Hs; [|injection Hv as <- <-; lia].
  destruct (generation s =? h_generation hd); simpl in Hv; [|injection Hv as <- <-; lia].
  destruct (marked s) eqn:Hmk; simpl in Hv; injection Hv as <- <-; [lia|].
  pose proof (unmarked_insert l (h_slot hd) s Hs Hmk). fold (refs_of s). rewrite length_app, length_reverse. lia.
Qed.

(** What is marked in the end is what can be reached. *)
Lemma marking_complete l : marking [] l -> forall hd, reachable h roots hd ->
  forall s, l !! h_slot hd = Some s -> generation s = h_generation hd -> marked s = true.
Proof.
  intros Hm. induction 1 as [hd Hin|hd o hd' Hr IH Ho Hin]; intros s Hs Hg.
  - destruct (mk_roots _ _ Hm _ Hin) as [Hx|Hx]; [by apply elem_of_nil in Hx|]. simpl in Hx. rewrite Hs in Hx. auto.
  - unfold heap_get in Ho. destruct (slots h !! h_slot hd) as [s0|] eqn:Hs0; [|done]. simpl in Ho. destruct (generation s0 =? h_generation hd) eqn:Hg0; [|done].
    destruct (Forall2_lookup_l _ _ _ _ _ (mk_same _ _ Hm) Hs0) as (t & Ht & Htg & Hto & _).
    assert (marked t = true) as Hmt by (apply IH; [done|lia]).
    assert (VObject hd' ∈ refs_of t) as Hrf by (unfold refs_of; by rewrite Hto, Ho).
    destruct (mk_refs _ _ Hm _ _ _ Ht Hmt Hrf) as [Hx|Hx]; [by apply elem_of_nil in Hx|]. simpl in Hx. rewrite Hs in Hx. auto.
Qed.
End marking.

(** ** The invariant *)

Record slot_ok (s : Slot) : Prop := {
  so_unmarked : marked s = false;
  so_weight : 0 <= weight s;
  so_empty : object s = None -> weight s = 0;
  so_generation : 0 <= generation s <= u32_MAX
}.

(** [charges] is what was charged without an object. *)
Record heap_ok (charges : Z) (h : Heap) : Prop := {
  ho_charges : 0 <= charges;
  ho_slots : Forall slot_ok (slots h);
  ho_free : NoDup (free h);
  ho_free_empty : forall i, i ∈ free h -> exists s, slots h !! i = Some s /\ object s = None;
  ho_used : used h = charges + weights (slots h);
  ho_metadata : 0 <= metadata h;
  ho_budget : used h + metadata h <= limit h;
  ho_limit : limit h <= usize_MAX;
  ho_capacity : len (slots h) <= slots_capacity h;
  ho_free_capacity : 0 <= free_capacity h <= 2 * Z.max (slots_capacity h) 16
}.

(** A handle whose object is gone for good. *)
Definition dead (h : Heap) (hd : Handle) : Prop :=
  exists s, slots h !! h_slot hd = Some s /\
    (h_generation hd < generation s \/ h_generation hd = generation s /\ object s = None /\ h_slot hd ∉ free h).

Definition live (h : Heap) (hd : Handle) : Prop := is_Some (heap_get h hd).

Lemma heap_get_Some h hd o : heap_get h hd = Some o <-> exists s, slots h !! h_slot hd = Some s /\ generation s = h_generation hd /\ object s = Some o.
Proof.
  unfold heap_get. destruct (slots h !! h_slot hd) as [s|]; simpl; [|naive_solver].
  destruct (generation s =? h_generation hd) eqn:Hg; [apply Z.eqb_eq in Hg|apply Z.eqb_neq in Hg]; naive_solver.
Qed.

Lemma heap_get_slots h h' hd : slots h' !! h_slot hd = slots h !! h_slot hd -> heap_get h' hd = heap_get h hd.
Proof. intros He. unfold heap_get. by rewrite He. Qed.

Lemma slots_weight h c : heap_ok c h -> 0 <= weights (slots h).
Proof. intros Hh. apply weights_nonneg. eapply Forall_impl; [apply (ho_slots _ _ Hh)|]. by intros s []. Qed.

Lemma dead_get h hd : dead h hd -> heap_get h hd = None.
Proof.
  intros (s & Hs & [Hg|(Hg & Ho & _)]); unfold heap_get; rewrite Hs; simpl.
  - by rewrite (proj2 (Z.eqb_neq _ _)) by lia.
  - by rewrite Hg, Z.eqb_refl, Ho.
Qed.

Lemma heap_new_ok limit : 0 <= limit <= usize_MAX -> heap_ok 0 (Heap_new limit).
Proof. intros Hl. split; simpl; try (unfold len; simpl; lia); [constructor|constructor|]. intros i Hi. by apply elem_of_nil in Hi. Qed.

(** How the heap may change around the objects it has. *)
Record heap_grows (h h' : Heap) : Prop := {
  hg_limit : limit h' = limit h;
  hg_dead hd : dead h hd -> dead h' hd;
  hg_get hd o : heap_get h hd = Some o -> heap_get h' hd = Some o
}.

#[global] Instance heap_grows_preorder : PreOrder heap_grows.
Proof. split; [by split|]. intros h1 h2 h3 [A B C] [A' B' C']. split; [congruence|auto|auto]. Qed.

Section operations.
Context `{Mem : Memory, !MemoryLaws Mem}.

Lemma grow_wp c h t w : heap_ok c h -> free h = [] -> 0 <= w -> w <= remaining h ->
  wp (grow t w) h (fun r h' => heap_ok c h' /\ slots h' = slots h /\ free h' = free h /\ limit h' = limit h /\ used h' = used h /\
    match r with Ok _ => len (slots h') < slots_capacity h' /\ w <= remaining h' | Err _ => True end).
Proof.
  intros Hh Hf Hw Hr. unfold grow. pose proof size_Slot_pos as HS. pose proof size_usize_pos as HU. pose proof (len_nonneg (slots h)) as Hln.
  destruct Hh as [Hc0 Hs Hnd Hfe Hu Hm Hb Hl Hc Hfc]. pose proof (weights_nonneg (slots h)) as Hwn.
  assert (0 <= weights (slots h)) as Hwn'. { apply Hwn. eapply Forall_impl; [exact Hs|]. by intros s []. } clear Hwn.
  unfold wp, mbind, M_bind, get. destruct (len (slots h) =? slots_capacity h) eqn:Hfull.
  2: { unfold mret, M_ret. split_and!; try done. apply Z.eqb_neq in Hfull. lia. }
  apply Z.eqb_eq in Hfull. unfold lift, checked_mul.
  destruct (checked (Z.max (slots_capacity h) 16 * 2)) as [cap|] eqn:Hcap; simpl; [|split_and!; done].
  apply checked_Some in Hcap as [Hcap Hcapu]. destruct (checked (cap * _)) as [meta|] eqn:Hmeta; simpl; [|split_and!; done].
  apply checked_Some in Hmeta as [Hmeta Hmetau]. unfold checked_add. destruct (checked (saturating_sub meta _ + w)) as [total|] eqn:Ht; simpl; [|split_and!; done].
  apply checked_Some in Ht as [Ht Htu]. unfold saturating_sub in Ht.
  destruct (remaining h <? total) eqn:Hrt; [split_and!; done|]. apply Z.ltb_ge in Hrt. rewrite Hf.
  unfold usub, checked_sub, expect. change (len []) with 0. rewrite Z.sub_0_r. apply usize_iff in Hcapu. rewrite (checked_in cap) by lia.
  destruct (reserve_free t); simpl; [|split_and!; done]. rewrite !Z.sub_0_r.
  change (0 + cap) with cap. set (fc := if free_capacity h <? cap then cap else free_capacity h).
  assert (0 <= fc <= cap) as Hfcb by (unfold fc; destruct (_ <? _) eqn:?; lia).
  apply usize_iff in Hmetau. assert (slots_capacity h * size_Slot <= cap * size_Slot) as Hm1 by nia. assert (fc * size_usize <= cap * size_usize) as Hm2 by nia.
  assert (0 <= slots_capacity h * size_Slot) as Hm3 by nia. assert (0 <= fc * size_usize) as Hm4 by nia.
  assert (cap * (size_Slot + size_usize) = cap * size_Slot + cap * size_usize) as Hm5 by lia.
  unfold checked_mul. rewrite (checked_in (slots_capacity h * size_Slot)) by lia. simpl.
  rewrite (checked_in (fc * size_usize)) by lia. simpl.
  unfold uadd, checked_add, expect. rewrite (checked_in (slots_capacity h * size_Slot + fc * size_usize)) by lia. simpl.
  unfold usub, checked_sub, expect. rewrite (checked_in (cap - len (slots h))) by lia. simpl.
  unfold remaining, object_budget, saturating_sub in *.
  clearbody fc. destruct (reserve_slots t); simpl; split_and!; try done; try split; simpl; try done; try lia;
    try apply NoDup_nil_2; intros i Hi; by apply elem_of_nil in Hi.
Qed.

Lemma set_free_ok c h i rest : heap_ok c h -> free h = i :: rest -> heap_ok c (set_free rest h).
Proof.
  intros [Hc0 Hs Hnd Hfe Hu Hm Hb Hl Hc Hfc] Hf. rewrite Hf in *. apply NoDup_cons in Hnd as [Hi Hnd]. split; simpl; try done.
  intros j Hj. apply Hfe. by right.
Qed.

(** An allocation either changes nothing that can be seen or makes one new
    object under a handle that never named another. *)
Lemma alloc_wp c h o : heap_ok c h ->
  wp (alloc o) h (fun r h' => heap_ok c h' /\ heap_grows h h' /\
    match r with
    | Ok hd => ~ live h hd /\ ~ dead h hd /\ heap_get h' hd = Some o /\ (forall hd', hd' <> hd -> heap_get h' hd' = heap_get h hd')
    | Err _ => forall hd, heap_get h' hd = heap_get h hd
    end).
Proof.
  intros Hh. unfold alloc. unfold wp at 1. munfold. pose proof (weigh_nonneg (clock h) o) as Hw. set (w := weigh (clock h) o) in *.
  assert (heap_ok c (tick h)) as Ht by (by destruct Hh).
  assert (remaining (tick h) = remaining h) as Hrt by done. change (remaining h) with (remaining (tick h)).
  assert (forall hd, heap_get (tick h) hd = heap_get h hd) as Hgt by done. assert (forall hd, dead (tick h) hd <-> dead h hd) as Hdt by done.
  assert (limit (tick h) = limit h) as Hlt by done. remember (tick h) as h1 eqn:Hh1. assert (slots h1 = slots h) as Hs1 by by subst. assert (free h1 = free h) as Hf1 by by subst.
  destruct (remaining h1 <? w) eqn:Hrw; [simpl; split_and!; [done| |done]; split; [done|intros; by apply Hdt|intros; by rewrite Hgt]|].
  apply Z.ltb_ge in Hrw. clear Hh1 Hrt.
  (* a slot to store the object in *)
  assert (wp (take_index (clock h) w) h1 (fun r h2 => heap_ok c h2 /\ limit h2 = limit h1 /\ match r with
    | Ok i => w <= remaining h2 /\ (i ∉ free h2) /\ exists s, slots h2 !! i = Some s /\ object s = None /\ weight s = 0 /\
        (forall j, j <> i -> slots h2 !! j = slots h1 !! j) /\ (forall j, j <> i -> (j ∈ free h2 <-> j ∈ free h1)) /\
        (slots h1 !! i = None \/ slots h1 !! i = Some s /\ i ∈ free h1)
    | Err _ => slots h2 = slots h1 /\ free h2 = free h1 end)) as Htake.
  { unfold take_index, wp. munfold. destruct (free h1) as [|i rest] eqn:Hf.
    - pose proof (grow_wp c h1 (clock h) w Ht Hf Hw Hrw) as Hg. unfold wp in Hg. destruct (grow _ _ h1) as [[[[]|[]] h2]|]; [|by destruct_and!; rewrite <- Hf|done].
      destruct Hg as (Hok & Hsl & Hfr & Hli & Hus & Hcap & Hr). simpl. destruct Hok as [Hc0 Hs Hnd Hfe Hu Hm Hb Hl Hc Hfc].
      rewrite Hf in Hfr. split_and!; [|done|done|rewrite Hfr; apply not_elem_of_nil|].
      + split; simpl; try done; try lia.
        * apply Forall_app. split; [done|]. constructor; [|constructor]. by split.
        * rewrite Hfr. intros i Hi. by apply elem_of_nil in Hi.
        * rewrite weights_app. simpl. lia.
        * rewrite len_app. unfold len in *. simpl. lia.
      + rewrite Hsl. exists (mkSlot 0 false None 0). split_and!; try done.
        * by rewrite lookup_app_r, Nat.sub_diag by lia.
        * intros j Hj. destruct (decide (j < length (slots h1))%nat); [by rewrite lookup_app_l|].
          rewrite !lookup_ge_None_2; [done|lia|rewrite length_app; simpl; lia].
        * intros j _. by rewrite Hfr.
        * left. by apply lookup_ge_None_2.
    - simpl. pose proof (ho_free_empty _ _ Ht i ltac:(rewrite Hf; left)) as (s & Hs & Ho). pose proof (ho_free _ _ Ht) as Hnd. rewrite Hf in Hnd. apply NoDup_cons in Hnd as [Hi Hnd].
      split_and!; [by eapply set_free_ok|done|done|done|]. exists s. split_and!; try done.
      + pose proof (proj1 (Forall_lookup _ _) (ho_slots _ _ Ht) _ _ Hs) as [_ _ He _]. auto.
      + intros j Hj. rewrite elem_of_cons. naive_solver.
      + right. split; [done|left]. }
  unfold wp in Htake. destruct (take_index _ _ h1) as [[[i|[]] h2]|]; [| |done].
  2: { destruct Htake as (Hok & Hli & Hsl & Hfr). split_and!; [done| |].
       - split; [congruence| |].
         + intros hd Hd. unfold dead. rewrite Hsl, Hfr. by apply Hdt.
         + intros hd o' Ho. rewrite (heap_get_slots h1) by (by rewrite Hsl). by rewrite Hgt.
       - intros hd. rewrite (heap_get_slots h1) by (by rewrite Hsl). by rewrite Hgt. }
  destruct Htake as (Hok & Hli & Hr & Hif & s & Hs & Ho & Hws & Hother & Hfother & Hbefore). rewrite Hs. pose proof (lookup_lt_Some _ _ _ Hs) as Hil.
  destruct Hok as [Hc0 Hsl Hnd Hfe Hu Hm Hb Hl Hc Hfc]. unfold remaining, object_budget, saturating_sub in Hr.
  assert (0 <= weights (slots h2)) as Hwn. { apply weights_nonneg. eapply Forall_impl; [exact Hsl|]. by intros x []. }
  unfold uadd, checked_add, expect. rewrite (checked_in (used h2 + w)) by lia. simpl.
  set (s' := mkSlot (generation s) (marked s) (Some o) w). set (h3 := set_used _ _).
  assert (slots h3 !! i = Some s') as Hi3 by (simpl; by rewrite list_lookup_insert_eq).
  assert (forall j, j <> i -> slots h3 !! j = slots h1 !! j) as Hj3 by (intros j Hj; simpl; rewrite list_lookup_insert_ne by done; by apply Hother).
  assert (forall hd, heap_get h1 hd = heap_get h hd) as Hg1 by done.
  assert (~ live h (mkHandle i (generation s))) as Hnl.
  { intros [o' Hl']. rewrite <- Hgt, heap_get_Some in Hl'. destruct Hl' as (t & Ht' & _ & Ho'). simpl in Ht'. destruct Hbefore as [Hx|[Hx _]]; congruence. }
  assert (~ dead h (mkHandle i (generation s))) as Hnd'.
  { rewrite <- Hdt. intros (t & Ht' & Hx). simpl in *. destruct Hbefore as [Hy|[Hy Hz]]; [congruence|]. assert (t = s) as -> by congruence. destruct Hx as [|(_ & _ & Hx)]; [lia|done]. }
  assert (heap_get h3 (mkHandle i (generation s)) = Some o) as Hget3 by (apply heap_get_Some; by exists s').
  assert (forall hd', hd' <> mkHandle i (generation s) -> heap_get h3 hd' = heap_get h hd') as Hgo.
  { intros hd' Hne. rewrite <- Hgt. destruct (decide (h_slot hd' = i)) as [He|He].
    - unfold heap_get. rewrite He, Hi3. simpl. destruct (generation s =? h_generation hd') eqn:Hgg; [destruct hd'; simpl in *; apply Z.eqb_eq in Hgg; congruence|].
      destruct Hbefore as [Hx|[Hx _]]; rewrite Hx; [done|]. simpl. by rewrite Hgg.
    - apply heap_get_slots. by apply Hj3. }
  split_and!; [| |done|done|done|done].
  - split; simpl; try done; try lia.
    + apply Forall_insert; [done|]. pose proof (proj1 (Forall_lookup _ _) Hsl _ _ Hs) as [A B C D]. by split.
    + intros j Hj. destruct (decide (j = i)) as [->|Hn]; [done|]. rewrite list_lookup_insert_ne by done. by apply Hfe.
    + rewrite (weights_insert _ _ s) by done. simpl. lia.
    + unfold len in *. by rewrite length_insert.
  - split; [simpl; congruence| |].
    + intros hd Hd. apply Hdt in Hd. destruct Hd as (t & Ht' & Hx). destruct (decide (h_slot hd = i)) as [He|He].
      * rewrite He in *. destruct Hbefore as [Hy|[Hy Hz]]; [congruence|]. assert (t = s) as -> by congruence.
        exists s'. rewrite He. split; [done|]. destruct Hx as [|(_ & _ & Hx)]; [by left|done].
      * exists t. rewrite Hj3 by done. split; [done|]. simpl. rewrite Hfother by done. done.
    + intros hd o' Ho'. rewrite Hgo; [done|]. intros ->. apply Hnl. by exists o'.
Qed.

Lemma charge_wp c h w : heap_ok c h -> 0 <= w ->
  wp (charge w) h (fun r h' => match r with
    | Ok _ => heap_ok (c + w) h' /\ h' = set_used (used h + w) h
    | Err _ => h' = h end).
Proof.
  intros Hh Hw. unfold charge, wp. munfold. destruct (remaining h <? w) eqn:Hr; [done|]. apply Z.ltb_ge in Hr. pose proof (slots_weight h c Hh) as Hwn.
  destruct Hh as [Hc0 Hs Hnd Hfe Hu Hm Hb Hl Hc Hfc]. unfold remaining, object_budget, saturating_sub in Hr.
  unfold uadd, checked_add, expect. rewrite (checked_in (used h + w)) by lia. simpl. split; [|done]. split; simpl; try done; lia.
Qed.

(** A store changes the object of a handle that has one. *)
Lemma heap_set_spec c h hd o o' : heap_ok c h -> heap_get h hd = Some o ->
  heap_ok c (heap_set h hd o') /\ limit (heap_set h hd o') = limit h /\ heap_get (heap_set h hd o') hd = Some o' /\
  (forall hd', hd' <> hd -> heap_get (heap_set h hd o') hd' = heap_get h hd') /\
  (forall hd', dead h hd' -> dead (heap_set h hd o') hd').
Proof.
  intros Hh (s & Hs & Hg & Ho)%heap_get_Some. unfold heap_set. rewrite Hs. pose proof (lookup_lt_Some _ _ _ Hs) as Hlt.
  split_and!; [|done| | |].
  - destruct Hh as [Hc0 Hsl Hnd Hfe Hu Hm Hb Hl Hc Hfc]. split; simpl; try done.
    + apply Forall_insert; [done|]. pose proof (proj1 (Forall_lookup _ _) Hsl _ _ Hs) as [A B C D]. by split.
    + intros i Hi. destruct (Hfe i Hi) as (t & Ht & Hto). destruct (decide (i = h_slot hd)) as [->|Hn]; [congruence|]. rewrite list_lookup_insert_ne by done. eauto.
    + rewrite (weights_insert _ _ s) by done. simpl. lia.
    + unfold len in *. by rewrite length_insert.
  - apply heap_get_Some. simpl. rewrite list_lookup_insert_eq by done. eexists. split_and!; [done|done|done].
  - intros hd' Hne. destruct (decide (h_slot hd' = h_slot hd)) as [He|He].
    + unfold heap_get. simpl. rewrite He, list_lookup_insert_eq by done. rewrite Hs. simpl.
      destruct (generation s =? h_generation hd') eqn:Hgg; [|done]. apply Z.eqb_eq in Hgg. destruct hd, hd'. simpl in *. congruence.
    + apply heap_get_slots. simpl. by rewrite list_lookup_insert_ne.
  - intros hd' (t & Ht & Hx). destruct (decide (h_slot hd' = h_slot hd)) as [He|He].
    + rewrite He in Ht. assert (t = s) as -> by congruence. eexists. simpl. rewrite He, list_lookup_insert_eq by done. split; [done|]. simpl.
      destruct Hx as [Hx|(_ & Hx & _)]; [by left|congruence].
    + exists t. simpl. by rewrite list_lookup_insert_ne.
Qed.
End operations.

(** ** Sweeping *)

Definition sweep1 (s : Slot) : Slot :=
  if marked s then mkSlot (generation s) false (object s) (weight s)
  else match object s with
  | Some _ => mkSlot (if generation s <? u32_MAX then generation s + 1 else generation s) false None 0
  | None => s
  end.

Definition filed (s : Slot) : bool := negb (marked s) && bool_decide (is_Some (object s)) && (generation s <? u32_MAX).

Lemma sweep1_weight s : 0 <= weight s -> 0 <= weight (sweep1 s) <= weight s.
Proof. intros Hw. unfold sweep1. destruct (marked s); [done|]. by destruct (object s). Qed.

Lemma sweep_ok l : forall index sw, Forall (fun s => 0 <= weight s) l -> weights l <= sw_used sw -> sw_used sw <= usize_MAX ->
  exists fr rel, sweep index l sw = Some (map sweep1 l, mkSweep (sw_used sw - (weights l - weights (map sweep1 l))) (fr ++ sw_free sw) (sw_released sw ++ rel)) /\
  NoDup fr /\ (forall i, i ∈ fr <-> exists j s, i = (index + j)%nat /\ l !! j = Some s /\ filed s = true) /\
  (forall id, id ∈ rel <-> exists j s k, l !! j = Some s /\ marked s = false /\ object s = Some (OForeign id k)).
Proof.
  induction l as [|s l IH]; intros index sw Hw Hle Hu; simpl.
  - exists [], []. simpl. rewrite Z.sub_0_r, app_nil_r. split_and!; [by destruct sw|constructor| |]; intros; rewrite elem_of_nil; naive_solver.
  - inversion Hw as [|?? Hws Hwl]; subst. simpl in Hle. pose proof (weights_nonneg l Hwl) as Hwn.
    assert (exists sw1 fr1 rel1, sweep_slot index s sw = Some (sweep1 s, sw1) /\ sw_used sw1 = sw_used sw - (weight s - weight (sweep1 s)) /\
      sw_free sw1 = fr1 ++ sw_free sw /\ sw_released sw1 = sw_released sw ++ rel1 /\
      fr1 = (if filed s then [index] else []) /\ (forall id, id ∈ rel1 <-> marked s = false /\ exists k, object s = Some (OForeign id k))) as (sw1 & fr1 & rel1 & Hs & Hu1 & Hf1 & Hr1 & Hfr1 & Hrel1).
    { unfold sweep_slot, sweep1, filed. destruct (marked s) eqn:Hm; simpl.
      - exists sw, [], []. split_and!; try done; [simpl; lia|by rewrite app_nil_r|]. intros id. rewrite elem_of_nil. naive_solver.
      - destruct (object s) as [o|] eqn:Ho; simpl.
        + unfold checked_sub. rewrite checked_in by lia. simpl.
          set (rel1 := match o with OForeign id _ => [id] | _ => [] end).
          assert (match o with OForeign id _ => sw_released sw ++ [id] | _ => sw_released sw end = sw_released sw ++ rel1) as Hrel by (destruct o; simpl; rewrite ?app_nil_r; done).
          assert (forall id, id ∈ rel1 <-> false = false /\ exists k, Some o = Some (OForeign id k)) as Hin.
          { intros id. split; [intros Hi; split; [done|]; destruct o; simpl in Hi; try (by apply elem_of_nil in Hi); apply list_elem_of_singleton in Hi as ->; eauto|].
            intros (_ & k & [= ->]). by apply list_elem_of_singleton. }
          destruct (generation s <? u32_MAX); simpl; [exists (mkSweep (sw_used sw - weight s) (index :: sw_free sw) (sw_released sw ++ rel1)), [index], rel1|exists (mkSweep (sw_used sw - weight s) (sw_free sw) (sw_released sw ++ rel1)), [], rel1];
            split_and!; try done; try (by rewrite Hrel); simpl; lia.
        + exists sw, [], []. split_and!; try done; [simpl; lia|by rewrite app_nil_r|]. intros id. rewrite elem_of_nil. naive_solver. }
    pose proof (sweep1_weight s Hws) as Hw1. destruct (IH (S index) sw1 Hwl ltac:(lia) ltac:(lia)) as (fr & rel & Hsw & Hnd & Hfr & Hrel).
    exists (fr ++ fr1), (rel1 ++ rel). rewrite Hs. simpl. rewrite Hsw. simpl. split_and!.
    + f_equal. f_equal. rewrite Hu1, Hf1, Hr1, <- !app_assoc. f_equal. lia.
    + apply NoDup_app. split_and!; [done| |rewrite Hfr1; destruct (filed s); [apply NoDup_singleton|constructor]].
      intros i Hi. rewrite Hfr1. apply Hfr in Hi as (j & t & -> & _). destruct (filed s); [rewrite list_elem_of_singleton; lia|apply not_elem_of_nil].
    + intros i. rewrite elem_of_app, Hfr, Hfr1. split.
      * intros [(j & t & -> & Ht & Hft)|Hi]; [exists (S j), t; split_and!; [lia|done|done]|].
        destruct (filed s) eqn:Hfs; [|by apply elem_of_nil in Hi]. apply list_elem_of_singleton in Hi as ->. exists 0%nat, s. split_and!; [lia|done|done].
      * intros ([|j] & t & -> & Ht & Hft); simpl in Ht; [injection Ht as ->; right; rewrite Hft; apply list_elem_of_singleton; lia|].
        left. exists j, t. split_and!; [lia|done|done].
    + intros id. rewrite elem_of_app, Hrel1, Hrel. split.
      * intros [(Hm & k & Hk)|(j & t & k & Ht & Hm & Hk)]; [by exists 0%nat, s, k|by exists (S j), t, k].
      * intros ([|j] & t & k & Ht & Hm & Hk); simpl in Ht; [injection Ht as ->; left; eauto|right; by exists j, t, k].
Qed.

(** ** Collection *)

Lemma same_weights l l' : Forall2 same_slot l l' -> weights l' = weights l.
Proof. induction 1 as [|s s' l l' (_ & _ & Hw) _ IH]; simpl; lia. Qed.

Lemma mark_starts h roots c : heap_ok c h -> marking h roots (reverse roots) (slots h).
Proof.
  intros Hh. assert (forall i s, slots h !! i = Some s -> marked s = false) as Hum.
  { intros i s Hi. by destruct (proj1 (Forall_lookup _ _) (ho_slots _ _ Hh) _ _ Hi). }
  split.
  - clear Hum Hh. induction (slots h); by constructor.
  - intros hd Hin. apply reach_root. by rewrite elem_of_reverse in Hin.
  - intros i s Hi Hm. by rewrite (Hum i s Hi) in Hm.
  - intros v Hv. left. by apply elem_of_reverse.
  - intros i s v Hi Hm. by rewrite (Hum i s Hi) in Hm.
Qed.

Lemma mark_fuel_enough roots l : (length (reverse roots) + unmarked_refs l <= mark_fuel roots l)%nat.
Proof.
  rewrite length_reverse. unfold mark_fuel, unmarked_refs. apply Nat.add_le_mono_l. induction l as [|s l IH]; simpl; [done|].
  unfold refs_of at 1. destruct (marked s), (object s); simpl; lia.
Qed.

(** A collection keeps what can be reached and frees everything else. *)
(** What a collection from these roots does: what is reachable stays as it is,
    and nothing else does; handles that are gone stay gone; and the foreign
    objects that were freed are reported. *)
Definition collected (h : Heap) (roots : list Value) (rel : list ForeignId) (h' : Heap) : Prop :=
  (forall hd, reachable h roots hd -> heap_get h' hd = heap_get h hd) /\
  (forall hd o, heap_get h' hd = Some o -> reachable h roots hd /\ heap_get h hd = Some o) /\
  (forall hd, dead h hd -> dead h' hd) /\
  (forall hd, live h hd -> ~ reachable h roots hd -> dead h' hd) /\
  (forall id, id ∈ rel <-> exists hd k, heap_get h hd = Some (OForeign id k) /\ ~ reachable h roots hd).

Lemma collect_wp c h roots : heap_ok c h ->
  exists rel h', collect roots h = Some (Ok rel, h') /\ heap_ok c h' /\ limit h' = limit h /\ collected h roots rel h'.
Proof.
  unfold collected.
  intros Hh. destruct (mark_loop_ends h roots (mark_fuel roots (slots h)) _ _ (mark_starts h roots c Hh) (mark_fuel_enough roots (slots h))) as (l & Hl & Hm).
  pose proof (mk_same _ _ _ _ Hm) as Hsame. pose proof (same_weights _ _ Hsame) as Hwl.
  assert (forall i t, l !! i = Some t -> exists s, slots h !! i = Some s /\ slot_ok s /\ t = mkSlot (generation s) (marked t) (object s) (weight s)) as Hback.
  { intros i t Ht. destruct (Forall2_lookup_r _ _ _ _ _ Hsame Ht) as (s & Hs & Hg & Ho & Hw). exists s. split_and!; [done|by eapply (proj1 (Forall_lookup _ _) (ho_slots _ _ Hh))|].
    destruct t. simpl in *. by subst. }
  assert (forall i s, slots h !! i = Some s -> exists t, l !! i = Some t /\ t = mkSlot (generation s) (marked t) (object s) (weight s)) as Hforth.
  { intros i s Hs. destruct (Forall2_lookup_l _ _ _ _ _ Hsame Hs) as (t & Ht & _). destruct (Hback i t Ht) as (s0 & Hs0 & _ & He). exists t. split; [done|]. by assert (s0 = s) as -> by congruence. }
  assert (forall i t, l !! i = Some t -> marked t = true <-> reachable h roots (mkHandle i (generation t))) as Hmark.
  { intros i t Ht. split; [by apply (mk_sound _ _ _ _ Hm)|]. intros Hr. by eapply (marking_complete _ _ _ Hm _ Hr). }
  assert (Forall (fun s => 0 <= weight s) l) as Hlw.
  { apply Forall_lookup. intros i t Ht. destruct (Hback i t Ht) as (s & _ & [_ Hw _ _] & ->). done. }
  pose proof (slots_weight h c Hh) as Hwn. destruct Hh as [Hc0 Hsl Hnd Hfe Hu Hme Hb Hli Hc Hfc]. pose proof (weights_nonneg _ Hlw) as Hwln.
  destruct (sweep_ok l 0 (mkSweep (used h) (free h) [])) as (fr & rel & Hsw & Hndf & Hfr & Hrel); simpl; [done|lia|lia|]. simpl in Hsw.
  assert (0 <= weights (map sweep1 l) <= weights l) as Hwsw.
  { clear - Hlw. induction Hlw as [|s l Hs _ IH]; simpl; [lia|]. pose proof (sweep1_weight s Hs). lia. }
  set (h' := mkHeap (map sweep1 l) (fr ++ free h) (used h - (weights l - weights (map sweep1 l))) (limit h) (metadata h) (slots_capacity h) (free_capacity h) (clock h)).
  assert (forall i, slots h' !! i = sweep1 <$> l !! i) as Hat by (intros i; apply list_lookup_fmap).
  assert (forall hd, reachable h roots hd -> heap_get h' hd = heap_get h hd) as Hkeep.
  { intros [i g] Hr. unfold heap_get. rewrite Hat. simpl. destruct (slots h !! i) as [s|] eqn:Hs.
    - destruct (Hforth i s Hs) as (t & Ht & He). rewrite Ht. simpl. destruct (decide (generation s = g)) as [<-|Hg].
      + assert (marked t = true) as Hmt by (apply (Hmark i t Ht); by rewrite He). unfold sweep1. rewrite Hmt, He. simpl. by rewrite Z.eqb_refl.
      + rewrite (proj2 (Z.eqb_neq _ _) Hg). unfold sweep1. rewrite He. simpl. destruct (marked t); simpl; [by rewrite (proj2 (Z.eqb_neq _ _) Hg)|].
        destruct (object s) eqn:Ho; simpl; [by destruct (_ =? g)|by rewrite (proj2 (Z.eqb_neq _ _) Hg)].
    - destruct (l !! i) as [t|] eqn:Ht; [|done]. destruct (Hback i t Ht) as (s & Hs' & _). congruence. }
  assert (forall hd, dead h hd -> dead h' hd) as Hdead.
  { intros [i g] (s & Hs & Hx). simpl in *. destruct (Hforth i s Hs) as (t & Ht & He). exists (sweep1 t). simpl. rewrite Hat, Ht. split; [done|].
    unfold sweep1. rewrite He. simpl. destruct Hx as [Hx|(-> & Ho & Hf)].
    - left. destruct (marked t), (object s); simpl; try lia. destruct (_ <? _); lia.
    - right. rewrite Ho. split_and!; [by destruct (marked t)|by destruct (marked t)|]. rewrite elem_of_app, Hfr. intros [(j & t' & -> & Ht' & Hft)|]; [|done].
      assert (t' = t) as -> by (simpl in Ht; congruence). unfold filed in Hft. rewrite He in Hft. simpl in Hft. rewrite Ho in Hft. simpl in Hft. by rewrite andb_false_r in Hft. }
  assert (forall hd, live h hd -> ~ reachable h roots hd -> dead h' hd) as Hgone.
  { intros [i g] [o Ho] Hr. apply heap_get_Some in Ho as (s & Hs & Hg & Ho). simpl in Hs, Hg. subst g. destruct (Hforth i s Hs) as (t & Ht & He).
    assert (marked t = false) as Hmt. { apply not_true_is_false. intros Hmt. apply (Hmark i t Ht) in Hmt. rewrite He in Hmt. done. }
    exists (sweep1 t). simpl. rewrite Hat, Ht. split; [done|]. unfold sweep1. rewrite Hmt, He. simpl. rewrite Ho. simpl. destruct (generation s <? u32_MAX) eqn:Hgm; [left; lia|right]. split_and!; [done|done|].
    rewrite elem_of_app, Hfr. intros [(j & t' & -> & Ht' & Hft)|Hf].
    - assert (t' = t) as -> by (simpl in Ht; congruence). unfold filed in Hft. rewrite He in Hft. simpl in Hft. rewrite Hgm in Hft. by rewrite andb_false_r in Hft.
    - destruct (Hfe i Hf) as (s' & Hs' & Hos'). congruence. }
  exists rel, h'. split_and!; try done.
  - unfold collect, mbind, M_bind, get, expect. simpl. rewrite Hl. simpl. by rewrite Hsw.
  - split; simpl; try done.
    + apply Forall_lookup. intros i s' Hs'. rewrite list_lookup_fmap in Hs'. destruct (l !! i) as [t|] eqn:Ht; [|done]. injection Hs' as <-.
      destruct (Hback i t Ht) as (s & Hs & [A B C D] & He). unfold sweep1. rewrite He. simpl. destruct (marked t) eqn:Hmt; simpl; [by split|].
      destruct (object s) eqn:Ho; simpl; split; simpl; auto; try lia. destruct (generation s <? u32_MAX) eqn:Hgm; lia.
    + apply NoDup_app. split_and!; [done| |done]. intros i Hi Hf. apply Hfr in Hi as (j & t & -> & Ht & Hft). destruct (Hfe _ Hf) as (s & Hs & Ho).
      destruct (Hforth _ _ Hs) as (t' & Ht' & He). assert (t' = t) as -> by (simpl in Ht'; congruence). unfold filed in Hft. rewrite He in Hft. simpl in Hft. rewrite Ho in Hft. simpl in Hft. by rewrite andb_false_r in Hft.
    + intros i [Hi|Hi]%elem_of_app.
      * apply Hfr in Hi as (j & t & -> & Ht & Hft). exists (sweep1 t). split; [by rewrite Hat; simpl; rewrite Ht|]. unfold filed in Hft. unfold sweep1.
        destruct (marked t); [done|]. by destruct (object t).
      * destruct (Hfe i Hi) as (s & Hs & Ho). destruct (Hforth i s Hs) as (t & Ht & He). exists (sweep1 t). split; [by rewrite Hat, Ht|]. unfold sweep1. rewrite He. simpl. rewrite Ho. by destruct (marked t).
    + lia.
    + lia.
    + unfold len in *. rewrite length_map. by rewrite (Forall2_length _ _ _ Hsame) in Hc.
  - intros hd o Hg. apply heap_get_Some in Hg as (s' & Hs' & Hgen & Ho). rewrite Hat in Hs'. destruct (l !! h_slot hd) as [t|] eqn:Ht; [|done]. injection Hs' as <-.
    destruct (Hback _ t Ht) as (s & Hs & _ & He). unfold sweep1 in Hgen, Ho. rewrite He in Hgen, Ho. simpl in Hgen, Ho. destruct (marked t) eqn:Hmt; simpl in *; [|by destruct (object s) eqn:Hos; simpl in *; congruence].
    split; [|apply heap_get_Some; eauto]. apply (Hmark _ t Ht) in Hmt. rewrite He in Hmt. simpl in Hmt. rewrite Hgen in Hmt. by destruct hd.
  - intros id. rewrite Hrel. split.
    + intros (j & t & k & Ht & Hmt & Ho). destruct (Hback j t Ht) as (s & Hs & _ & He). exists (mkHandle j (generation s)), k. rewrite He in Ho. simpl in Ho. split.
      * apply heap_get_Some. by exists s.
      * intros Hr. assert (marked t = true) by (apply (Hmark j t Ht); by rewrite He). congruence.
    + intros (hd & k & Hg & Hr). apply heap_get_Some in Hg as (s & Hs & Hgen & Ho). destruct (Hforth _ _ Hs) as (t & Ht & He). exists (h_slot hd), t, k.
      split_and!; [done| |by rewrite He]. apply not_true_is_false. intros Hmt. apply (Hmark _ t Ht) in Hmt. rewrite He in Hmt. simpl in Hmt. rewrite Hgen in Hmt. by destruct hd.
Qed.
