(* ===== verification/LispLibrary.v ===== *)
(** * Builtin functions of the Lisp: [crates/lisp/src/library]

    Most builtins answer at once ([apply]); the ones that may take long are
    [Task]s, of which the machine runs one step at a time. *)

From Stdlib Require Import String.
From S2P Require Import Wire.
From S2P Require Import Prelude LispSyntax LispLower LispHeap.

Open Scope Z_scope.

(** ** [runtime/native.rs] *)

Record Arity := mkArity { min : nat; max : option nat }.

Definition fixed (n : nat) : Arity := mkArity n (Some n).
Definition variadic (n : nat) : Arity := mkArity n None.

Definition accepts (a : Arity) (n : nat) : bool :=
  bool_decide (min a <= n)%nat && match max a with None => true | Some m => bool_decide (n <= m)%nat end.

(** ** [library/mod.rs] *)

Record Builtin_ := mkBuiltin { b_name : String.string; b_arity : Arity }.

Definition BUILTINS : list Builtin_ := [
  mkBuiltin "+" (variadic 0);
  mkBuiltin "-" (variadic 1);
  mkBuiltin "*" (variadic 0);
  mkBuiltin "/" (fixed 2);
  mkBuiltin "=" (fixed 2);
  mkBuiltin "<" (fixed 2);
  mkBuiltin ">" (fixed 2);
  mkBuiltin "<=" (fixed 2);
  mkBuiltin ">=" (fixed 2);
  mkBuiltin "not" (fixed 1);
  mkBuiltin "cons" (fixed 2);
  mkBuiltin "car" (fixed 1);
  mkBuiltin "cdr" (fixed 1);
  mkBuiltin "null?" (fixed 1);
  mkBuiltin "pair?" (fixed 1);
  mkBuiltin "list" (variadic 0);
  mkBuiltin "number?" (fixed 1);
  mkBuiltin "boolean?" (fixed 1);
  mkBuiltin "string-length" (fixed 1);
  mkBuiltin "bytes-length" (fixed 1);
  mkBuiltin "string-append" (variadic 0);
  mkBuiltin "bytes-append" (variadic 0);
  mkBuiltin "string->bytes" (fixed 1);
  mkBuiltin "bytes->string" (fixed 1)
]%string.

Section library.
Context `{Memory}.

Abbreviation LM := (M Heap ErrorKind).

(** An error of the heap is [ResourceLimit] for its callers. *)
Definition limited {S A} (m : M S unit A) : M S ErrorKind A := fun s =>
  match m s with
  | Some (Ok a, s) => Some (Ok a, s)
  | Some (Err _, s) => Some (Err ResourceLimit, s)
  | None => None
  end.

Definition integer (v : Value) : LM Z := match v with Integer n => mret n | _ => fail TypeError end.

Definition object_of (h : Heap) (v : Value) : Prelude.result ErrorKind Object :=
  match v with VObject hd => ok_or (heap_get h hd) StaleValue | _ => Err TypeError end.

Definition object_at (v : Value) : LM Object := h ← get; lift (object_of h v).

Definition lib_alloc (o : Object) : LM Value := hd ← limited (alloc o); mret (VObject hd).

Definition arithmetic (o : option Z) : LM Value := n ← lift (ok_or o Arithmetic); mret (Integer n).

(** [i64::checked_neg] and the like. *)
Definition checked_div (a b : Z) : option Z := if b =? 0 then None else i64 (Z.quot a b).

(** [as i64] *)
Definition as_i64 (x : Z) : Z := if x <? 2 ^ 63 then x else x - 2 ^ 64.

Definition is_pair (r : Prelude.result ErrorKind Object) : bool := match r with Ok (OPair _ _) => true | _ => false end.

Definition lib_apply (id : nat) (args : list Value) : LM Value :=
  op ← expect (BUILTINS !! id);
  if negb (accepts (b_arity op) (length args)) then fail ArityError
  else
    let name := b_name op in
    let named k := String.eqb name k in
    if named "-"%string then
      a ← expect (args !! 0%nat); a ← integer a;
      arithmetic (i64 (- a))
    else if named "/"%string then
      a ← expect (args !! 0%nat); a ← integer a;
      b ← expect (args !! 1%nat); b ← integer b;
      arithmetic (checked_div a b)
    else if named "="%string || named "<"%string || named ">"%string || named "<="%string || named ">="%string then
      a ← expect (args !! 0%nat); a ← integer a;
      b ← expect (args !! 1%nat); b ← integer b;
      mret (Boolean (if named "="%string then a =? b
                     else if named "<"%string then a <? b
                     else if named ">"%string then b <? a
                     else if named "<="%string then a <=? b
                     else b <=? a))
    else if named "not"%string then
      a ← expect (args !! 0%nat);
      mret (Boolean (bool_decide (a = Boolean false)))
    else if named "cons"%string then
      a ← expect (args !! 0%nat); b ← expect (args !! 1%nat);
      lib_alloc (OPair a b)
    else if named "car"%string || named "cdr"%string then
      a ← expect (args !! 0%nat);
      o ← object_at a;
      match o with
      | OPair a b => mret (if named "car"%string then a else b)
      | _ => fail TypeError
      end
    else if named "null?"%string then
      a ← expect (args !! 0%nat);
      mret (Boolean (bool_decide (a = Nil)))
    else if named "pair?"%string then
      a ← expect (args !! 0%nat);
      h ← get;
      mret (Boolean (is_pair (object_of h a)))
    else if named "number?"%string then
      a ← expect (args !! 0%nat);
      mret (Boolean (match a with Integer _ => true | _ => false end))
    else if named "boolean?"%string then
      a ← expect (args !! 0%nat);
      mret (Boolean (match a with Boolean _ => true | _ => false end))
    else if named "bytes-length"%string then
      a ← expect (args !! 0%nat);
      o ← object_at a;
      match o with
      | OBytes b => mret (Integer (as_i64 (len b)))
      | _ => fail TypeError
      end
    else fail Unbound.

(** ** [library/task.rs] *)

Inductive Task :=
| KList (args : list Value) (tail : Value)
| KCopy (args : list Value) (index : nat) (offset : Z) (output : list Z) (text input_text : bool)
| KLength (value : Value) (offset chars : Z)
| KArithmetic (args : list Value) (index : nat) (result : Z) (op : String.string).

Definition one_of (name : String.string) (ks : list String.string) : bool := existsb (String.eqb name) ks.

Definition task_new (id : nat) (args : list Value) : LM (option Task) :=
  op ← lift (ok_or (BUILTINS !! id) Unbound);
  let name := b_name op in
  if negb (accepts (b_arity op) (length args)) then fail ArityError
  else if String.eqb name "list" then mret (Some (KList args Nil))
  else if one_of name ["string-append"; "bytes-append"; "string->bytes"; "bytes->string"]%string then
    mret (Some (KCopy args 0 0 [] (one_of name ["string-append"; "bytes->string"]%string) (one_of name ["string-append"; "string->bytes"]%string)))
  else if String.eqb name "string-length" then
    a ← expect (args !! 0%nat);
    mret (Some (KLength a 0 0))
  else if one_of name ["+"; "-"; "*"]%string && negb (String.eqb name "-" && bool_decide (length args = 1%nat)) then
    result ← (if String.eqb name "*" then mret 1
              else if String.eqb name "-" then a ← expect (args !! 0%nat); integer a
              else mret 0);
    mret (Some (KArithmetic args (if String.eqb name "-" then 1 else 0) result name))
  else mret None.

Definition task_roots (t : Task) : list Value :=
  match t with
  | KList args tail => args ++ [tail]
  | KCopy args _ _ _ _ _ | KArithmetic args _ _ _ => args
  | KLength value _ _ => [value]
  end.

(** [str::is_char_boundary] *)
Definition is_char_boundary (text : list Z) (i : Z) : bool :=
  (i =? 0) || (i =? len text) || match nth_z text i with Some b => (b <? 128) || (192 <=? b) | None => false end.

(** The loop that steps back to a boundary; [end] is the argument. *)
Fixpoint char_floor (text : list Z) (end_ : nat) : nat :=
  match end_ with
  | O => O
  | S e => if is_char_boundary text (Z.of_nat end_) then end_ else char_floor text e
  end.

(** [&text[a..b]] *)
Definition str_slice (text : list Z) (a b : Z) : option (list Z) :=
  if is_char_boundary text a && is_char_boundary text b then LispSyntax.slice text a b else None.

(** [chars().count()] counts the bytes that begin a character. *)
Definition char_count (text : list Z) : Z := len (List.filter (fun b => (b <? 128) || (192 <=? b)) text).

(** [args.pop()] *)
Definition pop_last {A} (l : list A) : option (A * list A) :=
  match reverse l with
  | [] => None
  | a :: r => Some (a, reverse r)
  end.

(** One step of a task.  [try_reserve] also fails when a vector would pass
    [isize::MAX]. *)
Definition task_step (t : Task) : LM (Task * option Value) :=
  match t with
  | KList args tail =>
      match pop_last args with
      | Some (first, args) => tail ← lib_alloc (OPair first tail); mret (KList args tail, None)
      | None => mret (t, Some tail)
      end
  | KCopy args index offset output text input_text =>
      if bool_decide (index = length args) then
        o ← (if text : bool then (if utf8 output then mret (OString output) else fail TypeError) else mret (OBytes output));
        v ← lib_alloc o;
        mret (KCopy args index offset [] text input_text, Some v)
      else
        a ← expect (args !! index);
        o ← object_at a;
        bytes ← match o, input_text with
                | OString s, true => mret s
                | OBytes b, false => mret b
                | _, _ => fail TypeError
                end;
        upper ← uadd offset 256;
        let end_ := Z.min upper (len bytes) in
        n ← usub end_ offset;
        h ← get;
        if saturating_sub (saturating_sub (limit h) (used h)) (len output) <? n then fail ResourceLimit
        else
          put (tick h) ;;
          if negb (reserve_output (clock h)) || (isize_MAX <? len output + n) then fail ResourceLimit
          else
            part ← expect (LispSyntax.slice bytes offset end_);
            let output := output ++ part in
            if end_ =? len bytes then mret (KCopy args (S index) 0 output text input_text, None)
            else mret (KCopy args index end_ output text input_text, None)
  | KLength value offset chars =>
      o ← object_at value;
      match o with
      | OString text =>
          upper ← uadd offset 256;
          let end_ := Z.of_nat (char_floor text (Z.to_nat (Z.min upper (len text)))) in
          part ← expect (str_slice text offset end_);
          chars ← expect (i64 (chars + char_count part));
          mret (KLength value end_ chars, if end_ =? len text then Some (Integer chars) else None)
      | _ => fail TypeError
      end
  | KArithmetic args index result op =>
      if bool_decide (index = length args) then mret (t, Some (Integer result))
      else
        a ← expect (args !! index);
        value ← integer a;
        let r := if String.eqb op "+" then result + value else if String.eqb op "-" then result - value else result * value in
        result ← lift (ok_or (i64 r) Arithmetic);
        mret (KArithmetic args (S index) result op, None)
  end.
End library.
