(* ===== verification/LispMachine.v ===== *)
(** * The machine of the Lisp: [crates/lisp/src/runtime/machine.rs], [engine.rs]

    A program runs one [transition] at a time: the state says what is evaluated
    or returned, the frames what is still to be done with it.  [step] runs a
    number of them, collects garbage before a transition when half of the budget
    for objects is used, hands calls of host functions to its caller, and gives
    an evaluation up at its first error.

    A [RootValue] is a key of a registry that the engine shares with its
    values; the registry is known by its [identity]. *)

From Stdlib Require Import String.
From S2P Require Import Prelude LispSyntax LispLower LispHeap LispLibrary.

Open Scope Z_scope.

(** ** [machine.rs]: the states of an evaluation *)

Record Context_ := mkContext { module_ : Module_; env : option Handle; c_span : Span }.

Inductive QuoteWork := QVisit (node : nat) | QList (n : nat) (dotted : bool) | QPair (v : Value) | QQuote.

(** The last task of [QuoteWork] comes first. *)
Inductive State :=
| MIdle
| MEval (id : nat) (c : Context_)
| MReturn (v : Value) (c : Context_)
| MQuote (work : list QuoteWork) (values : list Value) (c : Context_)
| MBuiltin (work : Task) (c : Context_)
| MWaiting (id operation : Z) (args : list Value) (c : Context_) (issued : bool).

Inductive Frame_ :=
| FrIf (yes no : nat) (c : Context_)
| FrSequence (rest : list nat) (next : nat) (c : Context_)
| FrDefine (name : list Z) (c : Context_)
| FrAssign (b : Binding) (c : Context_)
| FrOperator (args : list nat) (c : Context_)
| FrArguments (function : Value) (args : list nat) (next : nat) (values : list Value) (c : Context_).

Definition frame_context (f : Frame_) : Context_ :=
  match f with
  | FrIf _ _ c | FrSequence _ _ c | FrDefine _ c | FrAssign _ c | FrOperator _ c | FrArguments _ _ _ _ c => c
  end.

Definition env_roots (c : Context_) : list Value := map VObject (option_list (env c)).

Definition frame_roots (f : Frame_) : list Value :=
  env_roots (frame_context f) ++ match f with FrArguments function _ _ values _ => function :: values | _ => [] end.

Definition state_roots (s : State) : list Value :=
  match s with
  | MIdle => []
  | MEval _ c => env_roots c
  | MReturn v c => v :: env_roots c
  | MWaiting _ _ args c _ => args ++ env_roots c
  | MQuote work values c => values ++ env_roots c ++ concat (map (fun w => match w with QPair v => [v] | _ => [] end) work)
  | MBuiltin work c => task_roots work ++ env_roots c
  end.

(** ** [engine.rs] *)

Record Limits := mkLimits { l_input : Z; l_depth : Z; l_frames : Z; l_heap : Z }.

Record Native := mkNative { n_operation : Z; n_arity : Arity }.

(** [value.rs] *)
Record Roots := mkRoots { next : Z; values : gmap Z Value }.
Record RootValue := mkRootValue { rv_value : Value; rv_roots : Z; rv_key : Z }.

(** The last frame comes first. *)
Record Engine := mkEngine {
  limits : Limits;
  heap : Heap;
  roots : Roots;
  globals : gmap (list Z) Handle;
  natives : list Native;
  state : State;
  frames : list Frame_;
  next_call : Z;
  released : list ForeignId;
  peak_frames : Z;
  identity : Z
}.

Record Call := mkCall { call_id : Z; call_operation : Z; call_arguments : list RootValue }.

Inductive Step := Yielded | Request (c : Call) | Done (v : RootValue) | Failed (d : Diagnostic).

Definition set_heap (x : Heap) (e : Engine) : Engine := mkEngine (limits e) x (roots e) (globals e) (natives e) (state e) (frames e) (next_call e) (released e) (peak_frames e) (identity e).
Definition set_roots (x : Roots) (e : Engine) : Engine := mkEngine (limits e) (heap e) x (globals e) (natives e) (state e) (frames e) (next_call e) (released e) (peak_frames e) (identity e).
Definition set_globals (x : gmap (list Z) Handle) (e : Engine) : Engine := mkEngine (limits e) (heap e) (roots e) x (natives e) (state e) (frames e) (next_call e) (released e) (peak_frames e) (identity e).
Definition set_natives (x : list Native) (e : Engine) : Engine := mkEngine (limits e) (heap e) (roots e) (globals e) x (state e) (frames e) (next_call e) (released e) (peak_frames e) (identity e).
Definition set_state (x : State) (e : Engine) : Engine := mkEngine (limits e) (heap e) (roots e) (globals e) (natives e) x (frames e) (next_call e) (released e) (peak_frames e) (identity e).
Definition set_frames (x : list Frame_) (peak : Z) (e : Engine) : Engine := mkEngine (limits e) (heap e) (roots e) (globals e) (natives e) (state e) x (next_call e) (released e) peak (identity e).
Definition set_next_call (x : Z) (e : Engine) : Engine := mkEngine (limits e) (heap e) (roots e) (globals e) (natives e) (state e) (frames e) x (released e) (peak_frames e) (identity e).
Definition set_released (x : list ForeignId) (e : Engine) : Engine := mkEngine (limits e) (heap e) (roots e) (globals e) (natives e) (state e) (frames e) (next_call e) x (peak_frames e) (identity e).

Section machine.
Context `{Memory}.

Abbreviation EM := (M Engine ErrorKind).

Definition on_heap {E A} (m : M Heap E A) : M Engine E A := fun e =>
  match m (heap e) with Some (r, h) => Some (r, set_heap h e) | None => None end.

Definition modify {E} (f : Engine -> Engine) : M Engine E unit := e ← get; put (f e).

Definition go (s : State) : EM unit := modify (set_state s).

(** [RootValue::new] *)
Definition pin {E} (v : Value) : M Engine E RootValue :=
  e ← get;
  let key := next (roots e) in
  put (set_roots (mkRoots (key + 1) (<[key := v]> (values (roots e)))) e) ;;
  mret (mkRootValue v (identity e) key).

(** [RootValue::drop] *)
Definition unpin {E} (r : RootValue) : M Engine E unit :=
  modify (fun e => set_roots (mkRoots (next (roots e)) (delete (rv_key r) (values (roots e)))) e).

Definition engine_alloc (o : Object) : EM Value := on_heap (lib_alloc o).

Definition collect_roots (e : Engine) : list Value :=
  map snd (map_to_list (values (roots e))) ++ map VObject (map snd (map_to_list (globals e))) ++
  state_roots (state e) ++ concat (map frame_roots (reverse (frames e))).

Definition engine_collect : EM unit :=
  e ← get;
  rel ← on_heap (limited (collect (collect_roots e)));
  modify (fun e => set_released (released e ++ rel) e).

Definition define (name : list Z) (value : Value) : EM unit :=
  e ← get;
  match globals e !! name with
  | Some cell =>
      match heap_get (heap e) cell with
      | Some (OCell _) => put (set_heap (heap_set (heap e) cell (OCell value)) e)
      | _ => fail StaleValue
      end
  | None =>
      c ← lift (ok_or (checked_add (len name) 64) ResourceLimit);
      on_heap (limited (charge c)) ;;
      cell ← on_err (on_heap (limited (alloc (OCell value))))
               (e ← get; u ← usub (used (heap e)) c; put (set_heap (set_used u (heap e)) e));
      modify (fun e => set_globals (<[name := cell]> (globals e)) e)
  end.

(** The walk out of [depth] environments. *)
Fixpoint outer (h : Heap) (depth : nat) (env : option Handle) : Prelude.result ErrorKind (option Handle) :=
  match depth with
  | O => Ok env
  | S depth =>
      hd ← ok_or env Unbound;
      match heap_get h hd with
      | Some (OEnvironment e) => outer h depth (e_parent e)
      | _ => Err StaleValue
      end
  end.

Definition cell_of (e : Engine) (b : Binding) (env : option Handle) : Prelude.result ErrorKind Handle :=
  match b with
  | Global name => ok_or (globals e !! name) Unbound
  | Local depth slot =>
      env ← outer (heap e) depth env;
      hd ← ok_or env Unbound;
      match heap_get (heap e) hd with
      | Some (OEnvironment x) => ok_or (e_cells x !! slot) Unbound
      | _ => Err StaleValue
      end
  end.

Definition cell (b : Binding) (env : option Handle) : EM Handle := e ← get; lift (cell_of e b env).

Definition frame (f : Frame_) : EM unit :=
  e ← get;
  if l_frames (limits e) <=? len (frames e) then fail ResourceLimit
  else put (set_frames (f :: frames e) (Z.max (peak_frames e) (len (frames e) + 1)) e).

Definition pop_frame : EM (option Frame_) :=
  e ← get;
  match frames e with
  | [] => mret None
  | f :: fs => put (set_frames fs (peak_frames e) e) ;; mret (Some f)
  end.

Definition expr_at (c : Context_) (id : nat) : EM Expression := expect (expressions (module_ c) !! id).

Definition eval (id : nat) (c : Context_) : EM unit :=
  x ← expr_at c id;
  go (MEval id (mkContext (module_ c) (env c) (e_span x))).

Definition literal (a : Atom) : EM Value :=
  match a with
  | AInteger n => mret (Integer n)
  | ABoolean b => mret (Boolean b)
  | AString s => engine_alloc (OString s)
  | ASymbol s => engine_alloc (OSymbol s)
  | ABytes b => engine_alloc (OBytes b)
  end.

(** The cells of the arguments of a call. *)
Fixpoint alloc_cells (args : list Value) : EM (list Handle) :=
  match args with
  | [] => mret []
  | v :: args =>
      c ← engine_alloc (OCell v);
      match c with
      | VObject cell => cells ← alloc_cells args; mret (cell :: cells)
      | _ => panic
      end
  end.

Definition apply (function : Value) (args : list Value) (c : Context_) : EM unit :=
  match function with
  | Builtin id =>
      work ← on_heap (task_new id args);
      match work with
      | Some work => go (MBuiltin work c)
      | None => v ← on_heap (lib_apply id args); go (MReturn v c)
      end
  | VNative id =>
      e ← get;
      native ← lift (ok_or (natives e !! id) StaleValue);
      if negb (accepts (n_arity native) (length args)) then fail ArityError
      else
        let id := next_call e in
        n ← lift (ok_or (checked_add (next_call e) 1) ResourceLimit);
        modify (set_next_call n) ;;
        go (MWaiting id (n_operation native) args c false)
  | VObject hd =>
      e ← get;
      match heap_get (heap e) hd with
      | Some (OClosure m body params env) =>
          if negb (bool_decide (params = length args)) then fail ArityError
          else
            cells ← alloc_cells args;
            v ← engine_alloc (OEnvironment (mkEnvironment env cells));
            match v with
            | VObject env => eval body (mkContext m (Some env) (c_span c))
            | _ => panic
            end
      | _ => fail TypeError
      end
  | _ => fail TypeError
  end.

(** *** [transition]: one state at a time *)

Definition eval_step (id : nat) (c : Context_) : EM unit :=
  x ← expr_at c id;
  match expr x with
  | ELiteral atom => v ← literal atom; go (MReturn v c)
  | EQuote node => go (MQuote [QVisit node] [] c)
  | EReference b =>
      hd ← cell b (env c);
      e ← get;
      match heap_get (heap e) hd with
      | Some (OCell v) => go (MReturn v c)
      | _ => fail StaleValue
      end
  | EIf test yes no => frame (FrIf yes no c) ;; eval test c
  | ESequence parts =>
      match parts with
      | [] => go (MReturn Nil c)
      | first :: rest =>
          (if bool_decide (rest = []) then mret tt else frame (FrSequence parts 1 c)) ;;
          eval first c
      end
  | ELambda params body => v ← engine_alloc (OClosure (module_ c) body params (env c)); go (MReturn v c)
  | ECall function args => frame (FrOperator args c) ;; eval function c
  | EDefine name value => frame (FrDefine name c) ;; eval value c
  | EAssign b value => frame (FrAssign b c) ;; eval value c
  end.

Definition builtin_step (work : Task) (c : Context_) : EM unit :=
  r ← on_heap (task_step work);
  match r with
  | (_, Some v) => go (MReturn v c)
  | (work, None) => go (MBuiltin work c)
  end.

Definition pop_value (vs : list Value) : EM (Value * list Value) := lift (ok_or (pop_last vs) Syntax).

Definition quote_step (work : list QuoteWork) (vs : list Value) (c : Context_) : EM unit :=
  match work with
  | QVisit id :: work =>
      n ← expect (nodes (form (module_ c)) !! id);
      match datum n with
      | DAtom a => v ← literal a; go (MQuote work (vs ++ [v]) c)
      | DQuote q => go (MQuote (QVisit q :: QQuote :: work) vs c)
      | DList items tail =>
          go (MQuote (map QVisit items ++ map QVisit (option_list tail) ++ QList (length items) (bool_decide (is_Some tail)) :: work) vs c)
      end
  | QList n dotted :: work =>
      '(tail, vs) ← (if dotted : bool then pop_value vs else mret (Nil, vs));
      if bool_decide (n <= length vs)%nat then
        let items := drop (length vs - n) vs in
        go (MQuote (map QPair (reverse items) ++ work) (take (length vs - n) vs ++ [tail]) c)
      else panic
  | QPair first :: work =>
      '(rest, vs) ← pop_value vs;
      v ← engine_alloc (OPair first rest);
      go (MQuote work (vs ++ [v]) c)
  | QQuote :: work =>
      '(v, vs) ← pop_value vs;
      tail ← engine_alloc (OPair v Nil);
      symbol ← engine_alloc (OSymbol (text_of "quote"));
      v ← engine_alloc (OPair symbol tail);
      go (MQuote work (vs ++ [v]) c)
  | [] => '(v, _) ← pop_value vs; go (MReturn v c)
  end.

Definition return_step (v : Value) : EM (option RootValue) :=
  f ← pop_frame;
  match f with
  | None => r ← pin v; mret (Some r)
  | Some (FrIf yes no c) => eval (if bool_decide (v = Boolean false) then no else yes) c ;; mret None
  | Some (FrSequence rest next c) =>
      id ← expect (rest !! next);
      (if bool_decide (next + 1 < length rest)%nat then frame (FrSequence rest (next + 1) c) else mret tt) ;;
      eval id c ;;
      mret None
  | Some (FrDefine name c) => define name v ;; go (MReturn v c) ;; mret None
  | Some (FrAssign b c) =>
      hd ← cell b (env c);
      e ← get;
      match heap_get (heap e) hd with
      | Some (OCell _) => put (set_heap (heap_set (heap e) hd (OCell v)) e)
      | _ => fail StaleValue
      end ;;
      go (MReturn v c) ;;
      mret None
  | Some (FrOperator args c) =>
      match args with
      | [] => apply v [] c
      | first :: _ => frame (FrArguments v args 1 [] c) ;; eval first c
      end ;;
      mret None
  | Some (FrArguments function args next vs c) =>
      (if bool_decide (next = length args) then apply function (vs ++ [v]) c
       else
         id ← expect (args !! next);
         frame (FrArguments function args (next + 1) (vs ++ [v]) c) ;;
         eval id c) ;;
      mret None
  end.

Definition transition : EM (option RootValue) :=
  e ← get;
  let s := state e in
  put (set_state MIdle e) ;;
  match s with
  | MEval id c => eval_step id c ;; mret None
  | MBuiltin work c => builtin_step work c ;; mret None
  | MQuote work vs c => quote_step work vs c ;; mret None
  | MReturn v _ => return_step v
  | other => go other ;; mret None
  end.

(** ** [engine.rs], continued *)

Abbreviation DM := (M Engine Diagnostic).

Definition api_error (k : ErrorKind) : Diagnostic := diagnostic k (mkSpan 0 0).

Definition as_api {A} (m : EM A) : DM A := fun e =>
  match m e with
  | Some (Ok a, e) => Some (Ok a, e)
  | Some (Err k, e) => Some (Err (api_error k), e)
  | None => None
  end.

Definition cancel : DM unit := modify (fun e => set_frames [] (peak_frames e) (set_state MIdle e)).

(** Where the frames are. *)
Definition trace_of (e : Engine) : list Span := map (fun f => c_span (frame_context f)) (frames e).

Definition state_span (s : State) : option Span :=
  match s with
  | MEval _ c | MReturn _ c | MQuote _ _ c | MBuiltin _ c => Some (c_span c)
  | _ => None
  end.

Fixpoint pin_all (vs : list Value) : DM (list RootValue) :=
  match vs with
  | [] => mret []
  | v :: vs => r ← pin v; rs ← pin_all vs; mret (r :: rs)
  end.

(** A transition that fails ends the evaluation. *)
Definition attempt : DM (Prelude.result Diagnostic (option RootValue)) := fun e =>
  match state_span (state e), transition e with
  | Some sp, Some (Ok r, e') => Some (Ok (Ok r), e')
  | Some sp, Some (Err k, e') =>
      match cancel e' with
      | Some (_, e'') => Some (Ok (Err (mkDiagnostic k sp (trace_of e'))), e'')
      | None => None
      end
  | _, _ => None
  end.

Fixpoint step (budget : nat) : DM Step :=
  match budget with
  | O => mret Yielded
  | S budget =>
      e ← get;
      match state e with
      | MIdle => mret Yielded
      | MWaiting id operation args c issued =>
          if issued : bool then mret Yielded
          else
            put (set_state (MWaiting id operation args c true) e) ;;
            rs ← pin_all args;
            mret (Request (mkCall id operation rs))
      | _ =>
          (if object_budget (heap e) / 2 <? used (heap e) then as_api engine_collect else mret tt) ;;
          r ← attempt;
          match r with
          | Ok (Some v) => mret (Done v)
          | Ok None => step budget
          | Err d => mret (Failed d)
          end
      end
  end.

Fixpoint install (id : nat) (l : list Builtin_) : DM unit :=
  match l with
  | [] => mret tt
  | b :: l => as_api (define (text_of (b_name b)) (Builtin id)) ;; install (S id) l
  end.

Definition Engine_empty (l : Limits) (identity : Z) : Engine :=
  mkEngine l (Heap_new (l_heap l)) (mkRoots 0 ∅) ∅ [] MIdle [] 0 [] 0 identity.

Definition Engine_new (l : Limits) (identity : Z) : DM unit :=
  put (Engine_empty l identity) ;; install 0 BUILTINS.

(** The value of a root of this engine. *)
Definition value (r : RootValue) : DM Value :=
  e ← get;
  if negb (rv_roots r =? identity e) then fail (api_error StaleValue) else mret (rv_value r).

Definition object_ (o : Object) : DM RootValue :=
  as_api engine_collect ;;
  v ← as_api (engine_alloc o);
  pin v.

Definition integer_value (n : Z) : DM RootValue := pin (Integer n).
Definition boolean_value (b : bool) : DM RootValue := pin (Boolean b).
Definition nil_value : DM RootValue := pin Nil.

Definition string_value (s : list Z) : DM RootValue := object_ (OString s).
Definition bytes_value (b : list Z) : DM RootValue := object_ (OBytes b).
Definition symbol_value (s : list Z) : DM RootValue := object_ (OSymbol s).
Definition foreign_value (id : ForeignId) (kind : list Z) : DM RootValue := object_ (OForeign id kind).

Definition cons_ (first rest : RootValue) : DM RootValue :=
  a ← value first;
  b ← value rest;
  object_ (OPair a b).

(** The loop of [list]; each list is dropped when the next one is made. *)
Fixpoint list_from (vs : list RootValue) (out : RootValue) : DM RootValue :=
  match vs with
  | [] => mret out
  | v :: vs => r ← on_err (cons_ v out) (unpin out); unpin out ;; list_from vs r
  end.

Definition list_value (vs : list RootValue) : DM RootValue := out ← nil_value; list_from (reverse vs) out.

Definition object_read (r : RootValue) : DM (option Object) :=
  v ← value r;
  e ← get;
  mret (match v with VObject hd => heap_get (heap e) hd | _ => None end).

Definition foreign_id (r : RootValue) : DM (option ForeignId) :=
  o ← object_read r; mret (match o with Some (OForeign id _) => Some id | _ => None end).
Definition text (r : RootValue) : DM (option (list Z)) :=
  o ← object_read r; mret (match o with Some (OString s) | Some (OSymbol s) => Some s | _ => None end).
Definition byte_slice (r : RootValue) : DM (option (list Z)) :=
  o ← object_read r; mret (match o with Some (OBytes b) => Some b | _ => None end).
Definition pair_value (r : RootValue) : DM (option (RootValue * RootValue)) :=
  o ← object_read r;
  match o with
  | Some (OPair a b) => a ← pin a; b ← pin b; mret (Some (a, b))
  | _ => mret None
  end.

Inductive ValueKind := VkNil | VkInteger | VkBoolean | VkSymbol | VkString | VkBytes | VkPair | VkFunction | VkForeign.

Definition kind_of (r : RootValue) : DM ValueKind :=
  v ← value r;
  match v with
  | Nil => mret VkNil
  | Integer _ => mret VkInteger
  | Boolean _ => mret VkBoolean
  | Builtin _ | VNative _ => mret VkFunction
  | VObject hd =>
      e ← get;
      o ← lift (ok_or (heap_get (heap e) hd) (api_error StaleValue));
      match o with
      | OSymbol _ => mret VkSymbol
      | OString _ => mret VkString
      | OBytes _ => mret VkBytes
      | OPair _ _ => mret VkPair
      | OClosure _ _ _ _ => mret VkFunction
      | OForeign _ _ => mret VkForeign
      | _ => fail (api_error TypeError)
      end
  end.

Definition register (name : list Z) (operation : Z) (arity : Arity) : DM unit :=
  match max arity with
  | Some m => if bool_decide (m < min arity)%nat then fail (api_error ArityError) else mret tt
  | None => mret tt
  end ;;
  e ← get;
  let id := length (natives e) in
  put (set_natives (natives e ++ [mkNative operation arity]) e) ;;
  as_api (define name (VNative id)).

Definition form_span (f : Form) : DM Span := n ← expect (nodes f !! root f); mret (span n).

(** [fuel] bounds the rounds of the compiler. *)
Definition start (fuel : nat) (f : Form) : DM unit :=
  e ← get;
  match state e with
  | MIdle =>
      if l_input (limits e) <? len (source f) then sp ← form_span f; fail (diagnostic ResourceLimit sp)
      else if l_depth (limits e) <? depth f then sp ← form_span f; fail (diagnostic ResourceLimit sp)
      else
        m ← expect (fst <$> lower fuel f (mkLowering [] [] [] []));
        m ← lift m;
        x ← expect (expressions m !! m_root m);
        modify (set_state (MEval (m_root m) (mkContext m None (e_span x))))
  | _ => fail (api_error Busy)
  end.

(** [result] is consumed: its value is dropped at the end, on every path.  A
    value of another engine leaves that engine's registry. *)
Definition discard (r : RootValue) : DM unit := e ← get; if rv_roots r =? identity e then unpin r else mret tt.

Definition finally {A} (m : DM A) (last : DM unit) : DM A := fun e =>
  match m e with
  | Some (r, e) => match last e with Some (_, e) => Some (r, e) | None => None end
  | None => None
  end.

(** A host function has answered, or failed ([None]). *)
Definition answered (id : Z) (result : option RootValue) : DM unit :=
  e ← get;
  match state e with
  | MWaiting pending _ _ c _ =>
      if negb (pending =? id) then fail (api_error StaleCall)
      else match result with
      | Some r => v ← value r; modify (set_state (MReturn v c))
      | None => cancel ;; fail (mkDiagnostic Host (c_span c) (trace_of e))
      end
  | _ => fail (api_error StaleCall)
  end.

Definition resume (id : Z) (result : option RootValue) : DM unit :=
  match result with Some r => finally (answered id result) (discard r) | None => answered id None end.

Definition take_released : DM (list ForeignId) := e ← get; put (set_released [] e) ;; mret (released e).

Definition is_runnable (e : Engine) : bool := match state e with MIdle | MWaiting _ _ _ _ true => false | _ => true end.
Definition is_idle (e : Engine) : bool := match state e with MIdle => true | _ => false end.
End machine.
