(* ===== verification/LispTyping.v ===== *)
(** * What the objects and states of the Lisp machine may hold

    Well-formed values, objects, environments, tasks, states and frames, over
    the heap they live in, and that they stay well-formed when the heap keeps
    what can be reached from them. *)

From Stdlib Require Import String.
From S2P Require Import Wire.
From S2P Require Import Prelude LispSyntax LispRead LispLower LispCompile LispHeap LispHeapInv LispLibrary LispMachine.

Open Scope Z_scope.

(** ** Data *)

Definition str_ok (s : list Z) : Prop := utf8 s = true /\ len s <= isize_MAX.
Definition bytes_ok (b : list Z) : Prop := Forall byte b /\ len b <= isize_MAX.
Definition int_ok (n : Z) : Prop := i64_MIN <= n <= i64_MAX.

Definition atom_ok (a : Atom) : Prop :=
  match a with
  | AInteger n => int_ok n
  | ABoolean _ => True
  | AString s | ASymbol s => str_ok s
  | ABytes b => bytes_ok b
  end.

Definition nodes_ok (ns : list Node) : Prop := forall i n a, ns !! i = Some n -> datum n = DAtom a -> atom_ok a.
Definition literals_ok (es : list Expression) : Prop := forall i a sp, es !! i = Some (mkExpression (ELiteral a) sp) -> atom_ok a.

Definition module_ok (m : Module_) : Prop := nodes_ok (nodes (form m)) /\ literals_ok (expressions m).

(** An expression of a module stands for code whose local names are in the
    frames around it. *)
Definition code_ok (m : Module_) (sizes : list nat) (id : nat) : Prop :=
  exists c, encodes (nodes (form m)) (expressions m) id c /\ scoped sizes c.

Definition codes_ok (m : Module_) (sizes : list nat) (ids : list nat) : Prop := Forall (code_ok m sizes) ids.

Section typing.
Context (natives : nat) (h : Heap).

Definition first_class (o : Object) : Prop := match o with OCell _ | OEnvironment _ => False | _ => True end.

Definition val_ok (v : Value) : Prop :=
  match v with
  | Nil | Boolean _ => True
  | Integer n => int_ok n
  | VObject hd => exists o, heap_get h hd = Some o /\ first_class o
  | Builtin id => is_Some (BUILTINS !! id)
  | VNative id => (id < natives)%nat
  end.

Definition cell_ok (hd : Handle) : Prop := exists v, heap_get h hd = Some (OCell v).

(** The environments around a place, the innermost first, by their sizes. *)
Inductive env_ok : option Handle -> list nat -> Prop :=
| env_none : env_ok None []
| env_some hd e sizes : heap_get h hd = Some (OEnvironment e) -> Forall cell_ok (e_cells e) -> env_ok (e_parent e) sizes ->
    env_ok (Some hd) (length (e_cells e) :: sizes).

Definition object_ok (o : Object) : Prop :=
  match o with
  | OSymbol s | OString s => str_ok s
  | OBytes b => bytes_ok b
  | OPair a b => val_ok a /\ val_ok b
  | OCell v => val_ok v
  | OEnvironment e => Forall cell_ok (e_cells e) /\ exists sizes, env_ok (e_parent e) sizes
  | OClosure m body params env => module_ok m /\ exists sizes, env_ok env sizes /\ code_ok m (params :: sizes) body
  | OForeign _ _ => True
  end.

Definition task_ok (t : Task) : Prop :=
  match t with
  | KList args tail => Forall val_ok args /\ val_ok tail
  | KCopy args index offset output text input_text =>
      Forall val_ok args /\ (index <= length args)%nat /\ 0 <= offset /\ Forall byte output /\ len output <= isize_MAX /\
      (forall a hd b, args !! index = Some a -> a = VObject hd ->
        heap_get h hd = Some (if input_text then OString b else OBytes b) -> offset <= len b)
  | KLength value offset chars =>
      val_ok value /\ 0 <= offset /\ 0 <= chars <= offset /\
      (forall hd s, value = VObject hd -> heap_get h hd = Some (OString s) -> offset <= len s /\ is_char_boundary s offset = true)
  | KArithmetic args index result op => Forall val_ok args /\ (index <= length args)%nat /\ int_ok result
  end.

Definition context_ok (c : Context_) (sizes : list nat) : Prop := module_ok (module_ c) /\ env_ok (env c) sizes.

(** The tasks of a quotation find the values they take, and leave one. *)
Fixpoint quote_ok (ns : list Node) (work : list QuoteWork) (n : nat) : Prop :=
  match work with
  | [] => n = 1%nat
  | QVisit id :: work => (exists s, denotes ns id s) /\ quote_ok ns work (S n)
  | QList k dotted :: work => let k := (k + if dotted then 1 else 0)%nat in (k <= n)%nat /\ quote_ok ns work (S (n - k))
  | QPair v :: work => val_ok v /\ (1 <= n)%nat /\ quote_ok ns work n
  | QQuote :: work => (1 <= n)%nat /\ quote_ok ns work n
  end.

Definition state_ok (s : State) : Prop :=
  match s with
  | MIdle => True
  | MEval id c => exists sizes, context_ok c sizes /\ code_ok (module_ c) sizes id
  | MReturn v c => val_ok v /\ exists sizes, context_ok c sizes
  | MQuote work vs c => quote_ok (nodes (form (module_ c))) work (length vs) /\ Forall val_ok vs /\ exists sizes, context_ok c sizes
  | MBuiltin work c => task_ok work /\ exists sizes, context_ok c sizes
  | MWaiting _ _ args c _ => Forall val_ok args /\ exists sizes, context_ok c sizes
  end.

Definition frame_ok (f : Frame_) : Prop :=
  exists sizes, context_ok (frame_context f) sizes /\
  match f with
  | FrIf yes no c => code_ok (module_ c) sizes yes /\ code_ok (module_ c) sizes no
  | FrSequence rest next c => codes_ok (module_ c) sizes rest /\ (next < length rest)%nat
  | FrDefine _ _ => True
  | FrAssign b _ => bound sizes b
  | FrOperator args c => codes_ok (module_ c) sizes args
  | FrArguments function args next vs c => codes_ok (module_ c) sizes args /\ (next <= length args)%nat /\ val_ok function /\ Forall val_ok vs
  end.
End typing.

(** ** Heaps that keep objects *)

Definition similar (o o' : Object) : Prop := o' = o \/ exists v v', o = OCell v /\ o' = OCell v'.

(** On handles of [R] the heap [h'] has what [h] has, up to the contents of
    cells; [R] holds whatever its objects refer to. *)
Record keeps (R : Handle -> Prop) (h h' : Heap) : Prop := {
  kp_closed hd o hd' : R hd -> heap_get h hd = Some o -> VObject hd' ∈ references o -> R hd';
  kp_get hd o : R hd -> heap_get h hd = Some o -> exists o', heap_get h' hd = Some o' /\ similar o o'
}.

(** The handles a list of values names are in [R]. *)
Definition inside (R : Handle -> Prop) (vs : list Value) : Prop := forall hd, VObject hd ∈ vs -> R hd.

Section keeping.
Context (R : Handle -> Prop) (n n' : nat) (h h' : Heap) (K : keeps R h h') (Hn : (n <= n')%nat).

Lemma inside_app vs ws : inside R (vs ++ ws) <-> inside R vs /\ inside R ws.
Proof. unfold inside. setoid_rewrite elem_of_app. naive_solver. Qed.

Lemma inside_cons v vs : inside R (v :: vs) <-> inside R [v] /\ inside R vs.
Proof. apply (inside_app [v] vs). Qed.

Lemma keep_val v : val_ok n h v -> inside R [v] -> val_ok n' h' v.
Proof.
  destruct v as [| | |hd| |]; simpl; try done; [|lia]. intros (o & Ho & Hf) Hi. destruct (kp_get _ _ _ K hd o (Hi hd ltac:(left)) Ho) as (o' & Ho' & [->|(v & v' & -> & ->)]); eauto.
Qed.

Lemma keep_vals vs : Forall (val_ok n h) vs -> inside R vs -> Forall (val_ok n' h') vs.
Proof.
  induction 1 as [|v vs Hv _ IH]; intros Hi; [constructor|]. apply inside_cons in Hi as [H1 H2]. constructor; [by apply keep_val|by apply IH].
Qed.

Lemma keep_cell hd : cell_ok h hd -> R hd -> cell_ok h' hd.
Proof. intros (v & Hv) Hr. destruct (kp_get _ _ _ K hd _ Hr Hv) as (o' & Ho' & [->|(w & w' & _ & ->)]); unfold cell_ok; eauto. Qed.

Lemma keep_env env sizes : env_ok h env sizes -> inside R (map VObject (option_list env)) -> env_ok h' env sizes.
Proof.
  induction 1 as [|hd e sizes He Hc _ IH]; intros Hi; [constructor|]. assert (R hd) as Hr by (apply Hi; left).
  assert (forall hd', VObject hd' ∈ references (OEnvironment e) -> R hd') as Hin by (intros hd' Hhd'; eapply (kp_closed _ _ _ K); eauto). simpl in Hin.
  destruct (kp_get _ _ _ K hd _ Hr He) as (o' & Ho' & [->|(v & v' & ? & ?)]); [|done]. econstructor; [done| |].
  - apply Forall_forall. intros c Hcin. apply keep_cell; [by eapply Forall_forall in Hc|]. apply Hin, elem_of_app. right. by apply list_elem_of_fmap_2.
  - apply IH. intros hd' Hhd'. apply Hin, elem_of_app. by left.
Qed.

Lemma keep_object o : object_ok n h o -> inside R (references o) -> object_ok n' h' o.
Proof.
  destruct o as [s|s|b|a b|v|e|m body params env|]; simpl; try done.
  - intros [Ha Hb] Hi. apply inside_cons in Hi as [? ?]. split; by apply keep_val.
  - intros Hv Hi. by apply keep_val.
  - intros [Hc [sizes Hs]] [Hp Hi]%inside_app. split; [|exists sizes; by apply keep_env].
    apply Forall_forall. intros c Hcin. apply keep_cell; [by eapply Forall_forall in Hc|]. apply Hi. by apply list_elem_of_fmap_2.
  - intros [Hm (sizes & He & Hc)] Hi. split; [done|]. exists sizes. split; [by apply keep_env|done].
Qed.

Lemma keep_context c sizes : context_ok h c sizes -> inside R (env_roots c) -> context_ok h' c sizes.
Proof. intros [Hm He] Hi. split; [done|by apply keep_env]. Qed.

Lemma keep_task t : task_ok n h t -> inside R (task_roots t) -> task_ok n' h' t.
Proof.
  assert (forall v hd o, val_ok n h v -> v = VObject hd -> R hd -> heap_get h' hd = Some o -> heap_get h hd = Some o) as Hback.
  { intros v hd o Hv -> Hr Ho. destruct Hv as (o0 & Ho0 & Hf0). destruct (kp_get _ _ _ K hd o0 Hr Ho0) as (o2 & Ho2 & [->|(x & x' & -> & ->)]); [congruence|done]. }
  destruct t as [args tail|args index offset output text input_text|value offset chars|args index result op]; simpl.
  - intros [Ha Ht] [Hi Hj]%inside_app. split; [by apply keep_vals|by apply keep_val].
  - intros (Ha & Hx & Ho & Hb & Hl & Hf) Hi. split_and!; try done; [by apply keep_vals|].
    intros a hd b Hat -> Hg. eapply Hf; [done|done|]. eapply Hback; [by eapply (proj1 (Forall_lookup _ _) Ha)|done| |done]. apply Hi. by eapply list_elem_of_lookup_2.
  - intros (Hv & Ho & Hc & Hf) Hi. split_and!; try lia; [by apply keep_val|]. intros hd s -> Hg. eapply Hf; [done|]. eapply Hback; [done|done|apply Hi; left|done].
  - intros (Ha & Hx & Hr) Hi. split_and!; try done. by apply keep_vals.
Qed.

Lemma keep_quote ns work : forall k, quote_ok n h ns work k -> inside R (concat (map (fun w => match w with QPair v => [v] | _ => [] end) work)) -> quote_ok n' h' ns work k.
Proof.
  induction work as [|[id|j d|v|] work IH]; simpl; intros k Hq Hi; try done; try (destruct Hq as [? ?]; split; [done|by apply IH]).
  destruct Hq as (Hv & Hk & Hq). apply inside_cons in Hi as [H1 H2]. split_and!; [by apply keep_val|done|by apply IH].
Qed.

Lemma keep_state s : state_ok n h s -> inside R (state_roots s) -> state_ok n' h' s.
Proof.
  destruct s as [|id c|v c|work vs c|work c|id op args c issued]; simpl; try done.
  - intros (sizes & Hc & Hi) Hr. exists sizes. split; [by apply keep_context|done].
  - intros (Hv & sizes & Hc) [? ?]%inside_cons. split; [by apply keep_val|]. exists sizes. by apply keep_context.
  - intros (Hq & Hv & sizes & Hc) [? [? ?]%inside_app]%inside_app. split_and!; [by apply keep_quote|by apply keep_vals|]. exists sizes. by apply keep_context.
  - intros (Ht & sizes & Hc) [? ?]%inside_app. split; [by apply keep_task|]. exists sizes. by apply keep_context.
  - intros (Ht & sizes & Hc) [? ?]%inside_app. split; [by apply keep_vals|]. exists sizes. by apply keep_context.
Qed.

Lemma keep_frame f : frame_ok n h f -> inside R (frame_roots f) -> frame_ok n' h' f.
Proof.
  unfold frame_ok, frame_roots. intros (sizes & Hc & Hf) [Hi Hj]%inside_app. exists sizes. split; [by apply keep_context|].
  destruct f; try done. simpl in Hf. apply inside_cons in Hj as [? ?]. destruct Hf as (? & ? & ? & ?). split_and!; [done|done|by apply keep_val|by apply keep_vals].
Qed.
End keeping.
