(* ===== verification/LispSafe.v ===== *)
(** * Builtin functions of the Lisp stay within its types

    A calculus for code that keeps an invariant and moves its state along a
    relation, and the builtins in it. *)

From Stdlib Require Import String.
From S2P Require Import Wire.
From S2P Require Import Prelude LispSyntax LispRead LispLower LispCompile LispHeap LispHeapInv LispLibrary LispMachine LispTyping.

Open Scope Z_scope.

(** The errors of an evaluation.  The others are those of the reader, of the
    interface, and [StaleValue]. *)
Definition evaluation_error (k : ErrorKind) : Prop :=
  match k with Unbound | ArityError | TypeError | Arithmetic | ResourceLimit => True | _ => False end.

#[export] Hint Extern 1 (evaluation_error _) => exact I : core.

(** ** Code that keeps an invariant *)

(** The states, the ways they go on, and the errors that may be raised. *)
Record Discipline (St : Type) := mkDiscipline { inv : St -> Prop; rel : St -> St -> Prop; err : ErrorKind -> Prop; rel_pre : PreOrder rel }.
Arguments mkDiscipline {St} inv rel err {rel_pre}.
Arguments inv {St} d s.
Arguments rel {St} d s s'.
Arguments err {St} d k.
#[export] Existing Instance rel_pre.

Section runs.
Context {St : Type} (D : Discipline St).

Definition runs_ok {A} (m : M St ErrorKind A) (s : St) (Q : A -> St -> Prop) : Prop :=
  wp m s (fun r s' => inv D s' /\ rel D s s' /\ match r with Ok a => Q a s' | Err k => err D k end).

Lemma runs_bind {A B} (m : M St ErrorKind A) (f : A -> M St ErrorKind B) s Q Q' :
  runs_ok m s Q -> (forall a s', inv D s' -> rel D s s' -> Q a s' -> runs_ok (f a) s' Q') -> runs_ok (m ≫= f) s Q'.
Proof.
  intros Hm Hf. apply wp_bind. eapply wp_mono; [exact Hm|]. intros r s' (Hi & Hr & Hq). destruct r as [a|k]; [|done].
  eapply wp_mono; [by apply Hf|]. intros r s2 (Hi2 & Hr2 & Hq2). split_and!; [done|by etransitivity|done].
Qed.

Lemma runs_mono {A} (m : M St ErrorKind A) s (Q Q' : A -> St -> Prop) :
  runs_ok m s Q -> (forall a s', inv D s' -> rel D s s' -> Q a s' -> Q' a s') -> runs_ok m s Q'.
Proof. intros Hm Hf. eapply wp_mono; [exact Hm|]. intros r s' (Hi & Hr & Hq). split_and!; [done|done|]. destruct r; auto. Qed.

Lemma runs_ret {A} (a : A) s Q : inv D s -> Q a s -> runs_ok (mret a) s Q.
Proof. intros Hi Hq. unfold runs_ok, wp. simpl. by split_and!. Qed.

Lemma runs_fail {A} k s (Q : A -> St -> Prop) : inv D s -> err D k -> runs_ok (fail k) s Q.
Proof. intros Hi Hk. unfold runs_ok, wp. simpl. by split_and!. Qed.

Lemma runs_get s Q : inv D s -> Q s s -> runs_ok get s Q.
Proof. intros Hi Hq. unfold runs_ok, wp. simpl. by split_and!. Qed.

Lemma runs_put s s' (Q : unit -> St -> Prop) : inv D s' -> rel D s s' -> Q tt s' -> runs_ok (put s') s Q.
Proof. intros Hi Hr Hq. unfold runs_ok, wp. simpl. by split_and!. Qed.

Lemma runs_expect {A} (o : option A) s (Q : A -> St -> Prop) : inv D s -> (exists a, o = Some a /\ Q a s) -> runs_ok (expect o) s Q.
Proof. intros Hi (a & -> & Hq). unfold runs_ok, wp. simpl. by split_and!. Qed.

Lemma runs_lift {A} (r : Prelude.result ErrorKind A) s (Q : A -> St -> Prop) :
  inv D s -> match r with Ok a => Q a s | Err k => err D k end -> runs_ok (lift r) s Q.
Proof. intros Hi Hr. unfold runs_ok, wp. simpl. by split_and!. Qed.

(** Operations that change nothing and cannot fail here. *)
Lemma bind_get {B} (f : St -> M St ErrorKind B) s Q : runs_ok (f s) s Q -> runs_ok (get ≫= f) s Q.
Proof. done. Qed.

Lemma bind_expect {A B} (o : option A) a (f : A -> M St ErrorKind B) s Q : o = Some a -> runs_ok (f a) s Q -> runs_ok (expect o ≫= f) s Q.
Proof. by intros ->. Qed.

Lemma bind_some {A B} (o : option A) a k (f : A -> M St ErrorKind B) s Q : o = Some a -> runs_ok (f a) s Q -> runs_ok (lift (ok_or o k) ≫= f) s Q.
Proof. by intros ->. Qed.

Lemma bind_ok_or {A B} (o : option A) k (f : A -> M St ErrorKind B) s Q : inv D s -> err D k ->
  (forall a, o = Some a -> runs_ok (f a) s Q) -> runs_ok (lift (ok_or o k) ≫= f) s Q.
Proof. intros Hi Hk Hf. destruct o as [a|]; [by apply Hf|]. unfold runs_ok, wp. simpl. by split_and!. Qed.
End runs.

Lemma utf8_bytes l : utf8 l = true -> Forall byte l.
Proof.
  assert (forall lo hi b, within lo hi b = true -> 0 <= lo -> hi < 256 -> byte b) as Hw by (intros; unfold within, byte in *; lia).
  remember (length l) as n eqn:Hn. revert l Hn. induction n as [n IH] using lt_wf_ind. intros l -> Hu.
  destruct l as [|a l]; [constructor|]. simpl in Hu.
  assert (forall l', (length l' < length (a :: l))%nat -> utf8 l' = true -> Forall byte l') as IH' by eauto.
  destruct (within 0 127 a) eqn:Ha; [constructor; [by eapply Hw; [exact Ha|..]|apply IH'; [simpl; lia|done]]|].
  destruct l as [|b l]; [done|]. destruct (within 194 223 a && cont b) eqn:Hab.
  { assert (byte a /\ byte b) as (? & ?) by (unfold cont, within, byte in *; clear -Hab; lia). do 2 (constructor; [done|]). apply IH'; [simpl; lia|done]. }
  destruct l as [|c l]; [done|]. destruct (cont c && _) eqn:Hc.
  { assert (byte a /\ byte b /\ byte c) as (? & ? & ?). { unfold cont, within, byte in *. clear -Hc. lia. }
    do 3 (constructor; [done|]). apply IH'; [simpl; lia|done]. }
  destruct l as [|d l]; [done|]. destruct (cont c && cont d && _) eqn:Hd; [|done].
  assert (byte a /\ byte b /\ byte c /\ byte d) as (? & ? & ? & ?). { unfold cont, within, byte in *. clear -Hd. lia. }
  do 4 (constructor; [done|]). apply IH'; [simpl; lia|done].
Qed.

(** ** Heap operations *)

Lemma grows_keeps h h' : heap_grows h h' -> keeps (fun _ => True) h h'.
Proof. intros Hg. split; [done|]. intros hd o _ Ho. exists o. split; [by apply (hg_get _ _ Hg)|by left]. Qed.

Lemma inside_every vs : inside (fun _ => True) vs.
Proof. by intros ? ?. Qed.

#[export] Hint Resolve grows_keeps inside_every : core.

Section heap_safe.
Context `{Mem : Memory, !MemoryLaws Mem} (n : nat) (c : Z).

Definition heap_inv (h : Heap) : Prop := heap_ok c h /\ forall hd o, heap_get h hd = Some o -> object_ok n h o.

(** No builtin is unknown. *)
Definition heap_err (k : ErrorKind) : Prop := evaluation_error k /\ k <> Unbound.

Definition heap_discipline : Discipline Heap := mkDiscipline heap_inv heap_grows heap_err.

Abbreviation hruns := (runs_ok heap_discipline).

Lemma grow_val h h' v : heap_grows h h' -> val_ok n h v -> val_ok n h' v.
Proof. intros Hg Hv. eapply (keep_val (fun _ => True)); eauto. Qed.

Lemma grow_vals h h' vs : heap_grows h h' -> Forall (val_ok n h) vs -> Forall (val_ok n h') vs.
Proof. intros Hg Hv. eapply (keep_vals (fun _ => True)); eauto. Qed.

Lemma grow_object h h' o : heap_grows h h' -> object_ok n h o -> object_ok n h' o.
Proof. intros Hg Hv. eapply (keep_object (fun _ => True)); eauto. Qed.

Lemma lib_alloc_runs h o : heap_inv h -> object_ok n h o -> hruns (lib_alloc o) h (fun v h' => exists hd, v = VObject hd /\ heap_get h' hd = Some o).
Proof.
  intros [Hh Ho] Hok. pose proof (alloc_wp c h o Hh) as Ha. unfold runs_ok, wp, lib_alloc, limited, mbind, M_bind in *.
  destruct (alloc o h) as [[[hd|[]] h']|]; simpl; [| |done]; destruct Ha as (Hh' & Hg & Ha).
  - destruct Ha as (_ & _ & Hget & Hother). split_and!; [|done|by exists hd]. split; [done|]. intros hd' o' Ho'.
    apply (grow_object h); [done|]. destruct (decide (hd' = hd)) as [->|Hn]; [by assert (o' = o) as -> by congruence|]. rewrite Hother in Ho' by done. eauto.
  - split; [|by split]. split; [done|]. intros hd' o' Ho'. rewrite Ha in Ho'. apply (grow_object h); eauto.
Qed.

Lemma arithmetic_runs h o : heap_inv h -> (forall k, o = Some k -> int_ok k) -> hruns (arithmetic o) h (fun v h' => val_ok n h' v).
Proof.
  intros Hi Ho. unfold arithmetic. eapply (runs_bind _ _ _ _ (fun k _ => int_ok k)); [apply runs_lift; [done|destruct o; simpl; [auto|by split]]|].
  intros k h' Hi' _ Hk. by apply runs_ret.
Qed.

(** Looking at a value changes nothing. *)
Lemma bind_integer {A} h v (f : Z -> M Heap ErrorKind A) Q : heap_inv h -> val_ok n h v -> (forall k, int_ok k -> hruns (f k) h Q) -> hruns (integer v ≫= f) h Q.
Proof. intros Hi Hv Hf. destruct v; simpl; try (by apply runs_fail). by apply Hf. Qed.

Lemma bind_object {A} h v (f : Object -> M Heap ErrorKind A) Q : heap_inv h -> val_ok n h v ->
  (forall hd o, v = VObject hd -> heap_get h hd = Some o -> object_ok n h o -> first_class o -> hruns (f o) h Q) -> hruns (object_at v ≫= f) h Q.
Proof.
  intros Hi Hv Hf. destruct v as [| | |hd| |]; try (by apply runs_fail). destruct Hv as (o & Ho & Hfc).
  unfold object_at, object_of, mbind, M_bind, get, lift. unfold runs_ok, wp. rewrite Ho. simpl. by apply (Hf hd o); [|done|eapply (proj2 Hi)|].
Qed.

Lemma i64_ok x k : i64 x = Some k -> int_ok k.
Proof. unfold i64. destruct (_ && _) eqn:He; [|done]. intros [= <-]. unfold int_ok. lia. Qed.

Lemma bind_arg {A} h args i (f : Value -> M Heap ErrorKind A) Q : Forall (val_ok n h) args -> (i < length args)%nat ->
  (forall v, args !! i = Some v -> val_ok n h v -> hruns (f v) h Q) -> hruns (expect (args !! i) ≫= f) h Q.
Proof.
  intros Ha Hl Hf. destruct (lookup_lt_is_Some_2 args i Hl) as [v Hv]. unfold mbind, M_bind, expect, runs_ok, wp. rewrite Hv.
  apply Hf; [done|]. by eapply (proj1 (Forall_lookup _ _) Ha).
Qed.

Lemma as_i64_ok x : 0 <= x <= isize_MAX -> int_ok (as_i64 x).
Proof. intros Hx. unfold as_i64, int_ok, i64_MIN, i64_MAX, isize_MAX in *. destruct (x <? 2 ^ 63) eqn:?; lia. Qed.

Lemma accepts_length a k : accepts a k = true -> (min a <= k)%nat.
Proof. unfold accepts. intros [H _]%andb_true_iff. by apply bool_decide_eq_true in H. Qed.

(** The builtins that look at one argument, or two, ask for as many. *)
Lemma builtin_args id op : BUILTINS !! id = Some op ->
  (one_of (b_name op) ["/"; "="; "<"; ">"; "<="; ">="; "cons"]%string = true -> (2 <= min (b_arity op))%nat) /\
  (one_of (b_name op) ["-"; "not"; "car"; "cdr"; "null?"; "pair?"; "number?"; "boolean?"; "bytes-length"; "string-length"]%string = true -> (1 <= min (b_arity op))%nat).
Proof.
  intros Hop. apply list_elem_of_lookup_2 in Hop. revert op Hop. apply Forall_forall.
  repeat (apply Forall_cons; split; [split; intros He; first [discriminate He|simpl; lia]|]). constructor.
Qed.

(** The builtins that run as tasks; [-] is one unless it has one argument. *)
Definition tasks : list String.string := ["list"; "string-append"; "bytes-append"; "string->bytes"; "bytes->string"; "string-length"; "+"; "*"]%string.
Definition at_once : list String.string :=
  ["-"; "/"; "="; "<"; ">"; "<="; ">="; "not"; "cons"; "car"; "cdr"; "null?"; "pair?"; "number?"; "boolean?"; "bytes-length"]%string.

Lemma builtin_known id op : BUILTINS !! id = Some op -> one_of (b_name op) tasks = false -> one_of (b_name op) at_once = true.
Proof.
  intros Hop. apply list_elem_of_lookup_2 in Hop. revert op Hop.
  apply (proj1 (Forall_forall (fun op => one_of (b_name op) tasks = false -> one_of (b_name op) at_once = true) BUILTINS)).
  repeat (apply Forall_cons; split; [intros He; vm_compute in He |- *; congruence|]). constructor.
Qed.

Ltac orb_tac :=
  first [done
  |repeat match goal with H : (_ || _) = true |- _ => apply orb_true_iff in H as [H|H] end;
   repeat match goal with H : (_ =? _)%string = true |- _ => rewrite H end; by rewrite ?orb_true_r].

Definition immediate (id : nat) : Prop := exists op, BUILTINS !! id = Some op /\ one_of (b_name op) tasks = false.

Lemma lib_apply_runs id args h : heap_inv h -> Forall (val_ok n h) args -> immediate id ->
  hruns (lib_apply id args) h (fun v h' => val_ok n h' v).
Proof.
  intros Hi Ha (op & Hop & Htask). destruct (builtin_args id op Hop) as [H2 H1]. pose proof (builtin_known id op Hop Htask) as Hkn. unfold lib_apply. eapply (runs_bind _ _ _ _ (fun x h' => x = op /\ h' = h)).
  { apply runs_expect; [done|]. by exists op. }
  intros ? ? _ _ [-> ->]. destruct (accepts _ _) eqn:Hacc; simpl; [|by apply runs_fail]. apply accepts_length in Hacc.
  assert (forall i f Q, (i < min (b_arity op))%nat -> (forall v, val_ok n h v -> hruns (f v) h Q) -> hruns (expect (args !! i) ≫= f : M Heap ErrorKind Value) h Q) as Harg
    by (intros i f Q Hl Hf; apply bind_arg; [done|lia|auto]).
  destruct op as [name ar]. simpl in *. unfold one_of in *. simpl in *.
  repeat match goal with |- runs_ok _ (if ?b then _ else _) _ _ => destruct b eqn:? end;
    try (assert (2 <= min ar)%nat by (apply H2; orb_tac));
    try (assert (1 <= min ar)%nat by (apply H1; orb_tac));
    try (apply Harg; [lia|intros a Hva]); try (by apply runs_ret).
  - apply bind_integer; [done..|]. intros k Hk. apply arithmetic_runs; [done|]. intros k'. apply i64_ok.
  - apply bind_integer; [done..|]. intros k Hk. apply Harg; [lia|]. intros b Hb. apply bind_integer; [done..|]. intros k2 Hk2.
    apply arithmetic_runs; [done|]. intros k'. unfold checked_div. destruct (k2 =? 0); [done|]. apply i64_ok.
  - apply bind_integer; [done..|]. intros k Hk. apply Harg; [lia|]. intros b Hb. apply bind_integer; [done..|]. intros k2 Hk2. by apply runs_ret.
  - apply Harg; [lia|]. intros b Hb. eapply runs_mono; [apply lib_alloc_runs; [done|by split]|]. intros v h' _ _ (hd & -> & Hg). by exists (OPair a b).
  - apply bind_object; [done..|]. intros hd o -> Ho Hok Hf. destruct o; try (by apply runs_fail). destruct Hok as [? ?]. apply runs_ret; [done|]. by destruct (name =? "car")%string.
  - apply bind_object; [done..|]. intros hd o -> Ho Hok Hf. destruct o; try (by apply runs_fail). destruct Hok as [_ Hl]. apply runs_ret; [done|]. apply as_i64_ok. pose proof (len_nonneg b). lia.
  - clear Harg H1 H2 Htask. repeat match goal with H : (_ || _) = false |- _ => apply orb_false_iff in H as [? ?] end. exfalso.
    repeat match goal with H : (_ =? _)%string = false |- _ => rewrite H in Hkn; clear H end. discriminate Hkn.
Qed.
Lemma task_new_runs id args h : heap_inv h -> Forall (val_ok n h) args ->
  is_Some (BUILTINS !! id) -> hruns (task_new id args) h (fun t h' => match t with Some t => task_ok n h' t | None => immediate id end).
Proof.
  intros Hi Ha [op Hop]. unfold task_new. rewrite Hop. eapply bind_some; [done|]. destruct (builtin_args id op Hop) as [_ H1]. destruct (accepts _ _) eqn:Hacc; simpl; [|by apply runs_fail]. apply accepts_length in Hacc.
  destruct (String.eqb (b_name op) "list") eqn:E1; [by apply runs_ret|].
  match goal with |- runs_ok _ (if ?b then _ else _) _ _ => destruct b eqn:E2 end.
  { apply runs_ret; [done|]. simpl. split_and!; try done; [lia|]. intros a hd b _ _ _. apply len_nonneg. }
  destruct (String.eqb (b_name op) "string-length") eqn:E3.
  { apply bind_arg; [done|apply Nat.lt_le_trans with (min (b_arity op)); [|done]; apply H1; unfold one_of; simpl; rewrite E3; by rewrite !orb_true_r|].
    intros v Hv Hvo. apply runs_ret; [done|]. simpl. split_and!; try done. intros hd s _ _. split; [apply len_nonneg|done]. }
  destruct (_ && _) eqn:E4; [|apply runs_ret; [done|]].
  2: { exists op. split; [done|]. unfold one_of, tasks in *. cbn [existsb] in *. rewrite E1, E3. rewrite !orb_false_iff in E2. destruct_and!.
       repeat match goal with H : (_ =? _)%string = false |- _ => rewrite H end. destruct (b_name op =? "+")%string eqn:E5, (b_name op =? "*")%string eqn:E6; try done.
       all: apply String.eqb_eq in E5 || apply String.eqb_eq in E6; rewrite ?E5, ?E6 in E4; done. }
  eapply (runs_bind _ _ _ _ (fun r h' => h' = h /\ int_ok r /\ ((b_name op =? "-")%string = true -> (1 <= length args)%nat))).
  - destruct (b_name op =? "*")%string eqn:E5; [apply runs_ret; [done|]; split_and!; [done|done|]; intros E6; apply String.eqb_eq in E5; rewrite E5 in E6; done|].
    destruct (b_name op =? "-")%string eqn:E6; [|by apply runs_ret].
    assert (1 <= length args)%nat by (transitivity (min (b_arity op)); [apply H1; unfold one_of; simpl; by rewrite E6|done]).
    apply bind_arg; [done|lia|]. intros v Hv Hvo. destruct v; try (by apply runs_fail). by apply runs_ret.
  - intros r ? _ _ (-> & Hr & Hl). apply runs_ret; [done|]. simpl. split_and!; try done. destruct (b_name op =? "-")%string; [auto|lia].
Qed.

Lemma char_floor_spec text o : is_char_boundary text o = true -> 0 <= o -> forall e, (Z.to_nat o <= e)%nat ->
  (Z.to_nat o <= char_floor text e <= e)%nat /\ is_char_boundary text (Z.of_nat (char_floor text e)) = true.
Proof.
  intros Ho Hn. induction e as [|e IH]; intros He; [split; [simpl; lia|done]|]. unfold char_floor; fold char_floor.
  destruct (is_char_boundary text (Z.of_nat (S e))) eqn:Hb; [split; [lia|done]|].
  destruct (decide (Z.to_nat o = S e)) as [Hx|Hx]; [|destruct (IH ltac:(lia)); split; [lia|done]].
  rewrite <- Hx, Z2Nat.id in Hb by done. congruence.
Qed.

Lemma char_count_le text : 0 <= char_count text <= len text.
Proof. unfold char_count, len. pose proof (List.filter_length_le (fun b => (b <? 128) || (192 <=? b)) text). lia. Qed.

Lemma slice_len l a b part : LispSyntax.slice l a b = Some part -> len part = b - a /\ 0 <= a <= b /\ b <= len l /\ forall P, Forall P l -> Forall P part.
Proof.
  unfold LispSyntax.slice. destruct (_ && _) eqn:He; [|done]. intros [= <-]. to_prop. split_and!; [|lia..|].
  - unfold len in *. rewrite length_take, length_drop. lia.
  - intros P HP. by apply Forall_take, Forall_drop.
Qed.

Lemma tick_ok h : heap_inv h -> heap_inv (tick h) /\ heap_grows h (tick h).
Proof. intros [Hh Ho]. split; [|by split]. split; [by destruct Hh|]. intros hd o Hg. apply (grow_object h); [by split|]. by apply (Ho hd). Qed.

Lemma copy_runs args index offset output text input_text h : heap_inv h -> task_ok n h (KCopy args index offset output text input_text) ->
  hruns (task_step (KCopy args index offset output text input_text)) h (fun r h' => match r.2 with Some v => val_ok n h' v | None => task_ok n h' r.1 end).
Proof.
  intros Hi (Ha & Hx & Ho & Hb & Hl & Hf). simpl. case_bool_decide as Hend.
  - eapply (runs_bind _ _ _ _ (fun o h' => h' = h /\ object_ok n h o /\ first_class o)).
    + destruct text; [|by apply runs_ret]. destruct (utf8 output) eqn:Hu; [by apply runs_ret|by apply runs_fail].
    + intros o ? _ _ (-> & Hok & Hfc). eapply runs_bind; [by apply lib_alloc_runs|]. intros v h' Hi' _ (hd & -> & Hg). apply runs_ret; [done|]. by exists o.
  - apply bind_arg; [done|lia|]. intros v Hv Hvo. apply bind_object; [done..|]. intros hd o -> Hg Hok Hfc.
    eapply (runs_bind _ _ _ _ (fun b h' => h' = h /\ o = (if input_text then OString b else OBytes b) /\ bytes_ok b)).
    { destruct o, input_text; try (by apply runs_fail); apply runs_ret; try done; split_and!; try done. destruct Hok as [Hu Hle]. split; [by apply utf8_bytes|done]. }
    intros b ? _ _ (-> & -> & Hby & Hle). specialize (Hf _ hd b Hv eq_refl Hg).
    apply (runs_bind _ _ _ _ (fun u h' => h' = h /\ u = offset + 256)).
    { apply runs_expect; [done|]. eexists. split; [|done]. unfold checked_add. apply checked_in. unfold isize_MAX in *. pose proof usize_MAX_eq. lia. }
    intros ? ? _ _ [-> ->]. set (end_ := Z.min (offset + 256) (len b)).
    apply (runs_bind _ _ _ _ (fun u h' => h' = h /\ u = end_ - offset)).
    { apply runs_expect; [done|]. eexists. split; [|done]. unfold checked_sub. apply checked_in. pose proof usize_MAX_eq. lia. }
    intros ? ? _ _ [-> ->]. apply (runs_bind _ _ _ _ (fun x h' => x = h /\ h' = h)); [by apply runs_get|]. intros ? ? _ _ [-> ->].
    destruct (_ <? _); [by apply runs_fail|]. destruct (tick_ok h Hi) as [Hit Hgt].
    apply (runs_bind _ _ _ _ (fun _ h' => h' = tick h)); [by apply runs_put|]. intros _ ? _ _ ->.
    destruct (negb _ || _) eqn:Hcap; [by apply runs_fail|]. to_prop.
    apply (runs_bind _ _ _ _ (fun p h' => h' = tick h /\ LispSyntax.slice b offset end_ = Some p)).
    { apply runs_expect; [done|]. destruct (slice_some b offset end_) as [p Hp]; [lia..|]. eauto. }
    intros p ? _ _ (-> & Hp). apply slice_len in Hp as (Hpl & _ & _ & Hpf).
    assert (Forall byte (output ++ p) /\ len (output ++ p) <= isize_MAX) as [Hob Hol] by (split; [apply Forall_app; auto|rewrite len_app; lia]).
    assert (Forall (val_ok n (tick h)) args) as Hat by (by apply (grow_vals h)).
    destruct (end_ =? len b) eqn:Hall; (apply runs_ret; [done|]); simpl; split_and!; try done; try lia.
    + intros a hd' b' _ _ _. apply len_nonneg.
    + intros a hd' b' Hat' -> Hg'. assert (hd' = hd) as -> by congruence. assert (b' = b) as -> by (change (heap_get h hd = Some (if input_text then OString b' else OBytes b')) in Hg'; destruct input_text; congruence). lia.
Qed.

Lemma length_runs value offset chars h : heap_inv h -> task_ok n h (KLength value offset chars) ->
  hruns (task_step (KLength value offset chars)) h (fun r h' => match r.2 with Some v => val_ok n h' v | None => task_ok n h' r.1 end).
Proof.
  intros Hi (Hv & Ho & Hc & Hf). simpl. apply bind_object; [done..|]. intros hd o -> Hg Hok Hfc. destruct o as [|text| | | | | |]; try (by apply runs_fail).
  destruct (Hf hd text eq_refl Hg) as [Hle Hb]. destruct Hok as [Hu Hlen].
  apply (runs_bind _ _ _ _ (fun u h' => h' = h /\ u = offset + 256)).
  { apply runs_expect; [done|]. eexists. split; [|done]. unfold checked_add. apply checked_in. unfold isize_MAX in *. pose proof usize_MAX_eq. lia. }
  intros ? ? _ _ [-> ->]. destruct (char_floor_spec text offset Hb Ho (Z.to_nat (Z.min (offset + 256) (len text))) ltac:(lia)) as [He Heb].
  set (e := char_floor text _) in *.
  apply (runs_bind _ _ _ _ (fun p h' => h' = h /\ LispSyntax.slice text offset (Z.of_nat e) = Some p)).
  { apply runs_expect; [done|]. destruct (slice_some text offset (Z.of_nat e)) as [p Hp]; [lia..|]. exists p. split; [|done]. unfold str_slice. by rewrite Hb, Heb. }
  intros p ? _ _ (-> & Hp). apply slice_len in Hp as (Hpl & _). pose proof (char_count_le p).
  apply (runs_bind _ _ _ _ (fun k h' => h' = h /\ k = chars + char_count p)).
  { apply runs_expect; [done|]. eexists. split; [|done]. unfold i64, i64_MIN, i64_MAX, isize_MAX in *. replace (_ && _) with true by lia. done. }
  intros ? ? _ _ [-> ->]. apply runs_ret; [done|]. simpl. destruct (Z.of_nat e =? len text) eqn:Hend; simpl.
  - unfold int_ok, i64_MIN, i64_MAX, isize_MAX in *. lia.
  - split_and!; try done; try lia. intros hd' s [= <-] Hs. assert (s = text) as -> by congruence. split; [lia|done].
Qed.

Lemma task_step_runs t h : heap_inv h -> task_ok n h t ->
  hruns (task_step t) h (fun r h' => match r.2 with Some v => val_ok n h' v | None => task_ok n h' r.1 end).
Proof.
  destruct t as [args tail|args index offset output text input_text|value offset chars|args index result op]; [|apply copy_runs|apply length_runs|].
  - intros Hi [Ha Ht]. simpl. unfold pop_last. destruct (reverse args) as [|a r] eqn:Hr; [by apply runs_ret|].
    assert (args = reverse r ++ [a]) as -> by (rewrite <- (reverse_involutive args), Hr; by rewrite reverse_cons). apply Forall_app in Ha as [Ha Hv].
    rewrite Forall_singleton in Hv. eapply runs_bind; [apply lib_alloc_runs; [done|by split]|]. intros v h' Hi' Hg (hd & -> & Hget).
    apply runs_ret; [done|]. simpl. split; [by apply (grow_vals h)|by exists (OPair a tail)].
  - intros Hi (Ha & Hx & Hr). simpl. case_bool_decide; [by apply runs_ret|]. apply bind_arg; [done|lia|]. intros v Hv Hvo.
    apply bind_integer; [done..|]. intros k Hk. eapply (runs_bind _ _ _ _ (fun r h' => h' = h /\ int_ok r)).
    + apply runs_lift; [done|]. destruct (i64 _) as [r|] eqn:Hi64; simpl; [|done]. split; [done|by eapply i64_ok].
    + intros r ? _ _ [-> Hro]. apply runs_ret; [done|]. simpl. split_and!; [done|lia|done].
Qed.
End heap_safe.
