(* ===== verification/LispTasks.v ===== *)
(** * Builtin functions that run as tasks: what they compute, and that they end

    A task runs one step at a time, so that a large copy does not keep the host
    waiting.  Run to its end it gives what its builtin promises, in a number of
    steps that its arguments bound. *)

From Stdlib Require Import String.
From S2P Require Import Wire.
From S2P Require Import Prelude LispSyntax LispRead LispLower LispCompile LispHeap LispHeapInv LispLibrary LispMachine LispTyping LispSafe.

Open Scope Z_scope.

(** ** Characters of a text *)

Definition lead (b : Z) : bool := (b <? 128) || (192 <=? b).

(** A text is empty, or begins with a character of at most four bytes. *)
Lemma utf8_char l : utf8 l = true -> l = [] \/
  exists a cs rest, l = a :: cs ++ rest /\ (length cs <= 3)%nat /\ lead a = true /\ utf8 rest = true.
Proof.
  intros Hu. destruct l as [|a l]; [by left|right]. simpl in Hu. unfold within, cont, lead in *.
  destruct (_ && _) eqn:H1 in Hu; [exists a, [], l; simpl; split_and!; [done|lia|lia|done]|].
  destruct l as [|b l]; [done|]. destruct (_ && _) eqn:H2 in Hu; [exists a, [b], l; simpl; split_and!; [done|lia|lia|done]|].
  destruct l as [|c l]; [done|]. destruct (_ && _) eqn:H3 in Hu; [exists a, [b; c], l; simpl; split_and!; [done|lia|unfold within in *; lia|done]|].
  destruct l as [|d l]; [done|]. destruct (_ && _) eqn:H4 in Hu; [exists a, [b; c; d], l; simpl; split_and!; [done|lia|unfold within in *; lia|done]|done].
Qed.

Lemma boundary_lead l i : (i < length l)%nat -> (0 < i)%nat -> is_char_boundary l (Z.of_nat i) = match l !! i with Some b => lead b | None => false end.
Proof.
  intros Hi Hp. unfold is_char_boundary, nth_z, len. rewrite Nat2Z.id. replace (Z.of_nat i =? 0) with false by lia. replace (Z.of_nat i =? Z.of_nat (length l)) with false by lia. done.
Qed.

(** The head of a suffix that is a text of its own. *)
Lemma boundary_after p rest i : utf8 rest = true -> (i <= length rest)%nat ->
  is_char_boundary rest (Z.of_nat i) = true -> is_char_boundary (p ++ rest) (Z.of_nat (length p + i)) = true.
Proof.
  intros Hu Hi Hb. destruct (decide (length p + i = 0)%nat) as [->|Hn]; [done|]. destruct (decide (i = length rest)) as [->|Hl].
  { unfold is_char_boundary, len. rewrite length_app, Z.eqb_refl, orb_true_r. done. }
  rewrite boundary_lead by (rewrite ?length_app; lia). rewrite lookup_app_r by lia. replace (length p + i - length p)%nat with i by lia.
  destruct i as [|i]; [|by rewrite boundary_lead in Hb by lia]. destruct (utf8_char rest Hu) as [->|(a & cs & r & -> & _ & Ha & _)]; [done|]. done.
Qed.

(** Stepping back from any place finds a character within three bytes. *)
Lemma char_near text : utf8 text = true -> forall e, (e <= length text)%nat ->
  exists i, (i <= e <= i + 3)%nat /\ is_char_boundary text (Z.of_nat i) = true.
Proof.
  remember (length text) as n eqn:Hn. revert text Hn. induction n as [n IH] using lt_wf_ind. intros text -> Hu e He.
  destruct (utf8_char text Hu) as [->|(a & cs & rest & -> & Hl & Ha & Hr)]; [exists 0%nat; simpl in He; split; [lia|done]|].
  destruct (decide (e <= length cs)%nat) as [Hs|Hs]; [exists 0%nat; split; [lia|done]|].
  change (a :: cs ++ rest) with ((a :: cs) ++ rest) in *. rewrite length_app in He. simpl in He.
  destruct (IH (length rest) ltac:(rewrite length_app; simpl; lia) rest eq_refl Hr (e - S (length cs))%nat ltac:(lia)) as (i & Hi & Hb).
  exists (S (length cs) + i)%nat. split; [lia|]. apply (boundary_after (a :: cs)); [done|lia|done].
Qed.

Lemma char_floor_near text e : utf8 text = true -> (e <= length text)%nat -> (e <= char_floor text e + 3)%nat.
Proof.
  intros Hu He. destruct (char_near text Hu e He) as (i & Hi & Hb).
  destruct (char_floor_spec text (Z.of_nat i) Hb ltac:(lia) e ltac:(lia)) as [Hf _]. lia.
Qed.

Lemma char_floor_end text : char_floor text (length text) = length text.
Proof. destruct text as [|a text]; [done|]. unfold length; fold (length text). cbn [char_floor]. unfold is_char_boundary, len. cbn [length]. by rewrite Z.eqb_refl, orb_true_r. Qed.

Lemma char_count_app a b : char_count (a ++ b) = char_count a + char_count b.
Proof. unfold char_count. by rewrite List.filter_app, len_app. Qed.

(** ** What a builtin promises *)

Section tasks.
Context `{Mem : Memory, !MemoryLaws Mem} (n : nat).

(** The text or bytes of an argument. *)
Definition piece (h : Heap) (input_text : bool) (v : Value) : Prelude.result ErrorKind (list Z) :=
  match object_of h v, input_text with
  | Ok (OString s), true => Ok s
  | Ok (OBytes b), false => Ok b
  | _, _ => Err TypeError
  end.

Fixpoint pieces (h : Heap) (input_text : bool) (vs : list Value) : Prelude.result ErrorKind (list Z) :=
  match vs with
  | [] => Ok []
  | v :: vs => p ← piece h input_text v; ps ← pieces h input_text vs; Ok (p ++ ps)
  end.

Definition op_of (op : String.string) (a b : Z) : Z :=
  if String.eqb op "+" then a + b else if String.eqb op "-" then a - b else a * b.

Fixpoint folded (op : String.string) (acc : Z) (vs : list Value) : Prelude.result ErrorKind Z :=
  match vs with
  | [] => Ok acc
  | Integer k :: vs => acc ← ok_or (i64 (op_of op acc k)) Arithmetic; folded op acc vs
  | _ => Err TypeError
  end.

(** The elements of a list in the heap, before a tail. *)
Fixpoint listed (h : Heap) (vs : list Value) (tail v : Value) : Prop :=
  match vs with
  | [] => v = tail
  | w :: vs => exists hd rest, v = VObject hd /\ heap_get h hd = Some (OPair w rest) /\ listed h vs tail rest
  end.

(** What is left of a task promises: its answer [r] over the heap [h'] it ends
    with, for arguments as they are in [h]. *)
Definition promises (h : Heap) (t : Task) (r : Prelude.result ErrorKind Value) (h' : Heap) : Prop :=
  match t with
  | KList args tail => exists v, r = Ok v /\ listed h' args tail v
  | KCopy args index offset output text input_text =>
      match pieces h input_text (drop index args) with
      | Ok bytes =>
          let all := output ++ drop (Z.to_nat offset) bytes in
          if text && negb (utf8 all) then r = Err TypeError
          else exists hd, r = Ok (VObject hd) /\ heap_get h' hd = Some (if text then OString all else OBytes all)
      | Err k => r = Err k
      end
  | KLength value offset chars =>
      r = (text ← piece h true value; Ok (Integer (chars + char_count (drop (Z.to_nat offset) text))))
  | KArithmetic args index result op => r = (k ← folded op result (drop index args); Ok (Integer k))
  end.

(** Steps that are left, the last one not counted. *)
Definition chunks (k : nat) (size : Z) : nat := S (Z.to_nat (size / Z.of_nat k)).

Definition piece_len (h : Heap) (input_text : bool) (v : Value) : Z := match piece h input_text v with Ok b => len b | Err _ => 0 end.

Definition steps_left (h : Heap) (t : Task) : nat :=
  match t with
  | KList args _ => length args
  | KArithmetic args index _ _ => length args - index
  | KLength value offset _ => chunks 253 (piece_len h true value - offset)
  | KCopy args index offset _ _ input_text =>
      match drop index args with
      | [] => 0
      | v :: vs => chunks 256 (piece_len h input_text v - offset) + list_sum (map (fun v => chunks 256 (piece_len h input_text v)) vs)
      end
  end.

(** The arguments a task looks at are there in [h]. *)
Definition given_in (h : Heap) (t : Task) : Prop :=
  match t with
  | KCopy args _ _ _ _ _ => Forall (val_ok n h) args
  | KLength value _ _ => val_ok n h value
  | _ => True
  end.

Lemma object_grows h h' v : heap_grows h h' -> val_ok n h v -> object_of h' v = object_of h v.
Proof. intros Hg Hv. destruct v as [| | |hd| |]; try done. destruct Hv as (o & Ho & _). simpl. by rewrite Ho, (hg_get _ _ Hg _ _ Ho). Qed.

Lemma piece_grows h h' it v : heap_grows h h' -> val_ok n h v -> piece h' it v = piece h it v.
Proof. intros Hg Hv. unfold piece. by rewrite (object_grows h h' v Hg Hv). Qed.

(** ** One step *)

Context (c : Z).

(** A step fails as its task promises, or for want of memory; gives what its
    task promises; or leaves a task that promises the same, with fewer steps. *)
Definition step_promise (h0 : Heap) (t : Task) (x : option (Prelude.result ErrorKind (Task * option Value) * Heap)) : Prop :=
  match x with
  | Some (Err k, h') => k = ResourceLimit \/ promises h0 t (Err k) h'
  | Some (Ok (_, Some v), h') => promises h0 t (Ok v) h'
  | Some (Ok (t', None), h') => given_in h0 t' /\ (steps_left h0 t' < steps_left h0 t)%nat /\
      (forall r h2, heap_grows h' h2 -> promises h0 t' r h2 -> promises h0 t r h2)
  | None => False
  end.

Lemma pop_last_some {A} (l l' : list A) a : pop_last l = Some (a, l') -> l = l' ++ [a].
Proof. unfold pop_last. destruct (reverse l) as [|b r] eqn:Hr; [done|]. intros [= -> <-]. by rewrite <- (reverse_involutive l), Hr, reverse_cons. Qed.

Lemma pop_last_none {A} (l : list A) : pop_last l = None -> l = [].
Proof. unfold pop_last. destruct (reverse l) as [|b r] eqn:Hr; [|done]. intros _. by rewrite <- (reverse_involutive l), Hr. Qed.

Lemma listed_app h vs w tail v : listed h (vs ++ [w]) tail v <-> exists hd, listed h vs (VObject hd) v /\ heap_get h hd = Some (OPair w tail).
Proof.
  revert v. induction vs as [|x vs IH]; intros v; simpl.
  - split; [intros (hd & rest & -> & Hg & ->); eauto|]. intros (hd & -> & Hg). by exists hd, tail.
  - split.
    + intros (hd & rest & -> & Hg & Hl%IH). destruct Hl as (hd' & Hl & Hg'). exists hd'. split; [|done]. by exists hd, rest.
    + intros (hd' & (hd & rest & -> & Hg & Hl) & Hg'). exists hd, rest. split_and!; [done..|]. apply IH. by exists hd'.
Qed.

Lemma list_promise h0 h args tail : heap_inv n c h -> task_ok n h (KList args tail) -> step_promise h0 (KList args tail) (task_step (KList args tail) h).
Proof.
  intros Hi [Ha Ht]. simpl. destruct (pop_last args) as [[first args']|] eqn:Hp; [|apply pop_last_none in Hp as ->; by exists tail].
  apply pop_last_some in Hp as ->. apply Forall_app in Ha as [_ Hf]. rewrite Forall_singleton in Hf.
  pose proof (lib_alloc_runs n c h (OPair first tail) Hi ltac:(by split)) as Hr. unfold runs_ok, wp in Hr. unfold mbind, M_bind.
  destruct (lib_alloc (OPair first tail) h) as [[[v|k] h']|] eqn:He; [| |done]; destruct Hr as (_ & _ & Hr).
  - destruct Hr as (hd & -> & Hg). split; [done|]. split; [simpl; rewrite length_app; simpl; lia|].
    intros r h2 Hg2 (v & -> & Hl). exists v. split; [done|]. apply listed_app. exists hd. split; [done|]. by apply (hg_get _ _ Hg2).
  - left. unfold lib_alloc, limited, mbind, M_bind in He. by destruct (alloc _ h) as [[[|] ?]|]; simplify_eq.
Qed.

Lemma arithmetic_promise h0 h args index result op : task_ok n h (KArithmetic args index result op) ->
  step_promise h0 (KArithmetic args index result op) (task_step (KArithmetic args index result op) h).
Proof.
  intros (_ & Hx & _). simpl. case_bool_decide as He; [subst; simpl; by rewrite drop_all|].
  destruct (lookup_lt_is_Some_2 args index ltac:(lia)) as [v Hv]. munfold. rewrite Hv. pose proof (drop_S _ _ _ Hv) as Hd.
  destruct v as [|k| | | |]; simpl; try (right; by rewrite Hd).
  change (if (op =? "+")%string then result + k else if (op =? "-")%string then result - k else result * k) with (op_of op result k).
  destruct (i64 (op_of op result k)) as [k'|] eqn:Hk; simpl; [|right; by rewrite Hd; simpl; rewrite Hk].
  split; [done|]. split; [lia|]. intros r h2 _ ->. rewrite Hd. simpl. by rewrite Hk.
Qed.
Lemma heap_str h hd s : heap_inv n c h -> heap_get h hd = Some (OString s) -> utf8 s = true.
Proof. intros [_ Ho] Hg. by destruct (Ho _ _ Hg). Qed.

Lemma chunks_lt k a b : (0 < k)%nat -> 0 <= a -> a + Z.of_nat k <= b -> (chunks k a < chunks k b)%nat.
Proof.
  intros Hk Ha Hb. unfold chunks. assert (a / Z.of_nat k + 1 <= b / Z.of_nat k).
  { rewrite <- (Z.div_add a 1 (Z.of_nat k)) by lia. apply Z.div_le_mono; lia. }
  pose proof (Z.div_pos a (Z.of_nat k) Ha ltac:(lia)). lia.
Qed.

Lemma slice_split l a b part : LispSyntax.slice l a b = Some part -> drop (Z.to_nat a) l = part ++ drop (Z.to_nat b) l.
Proof.
  unfold LispSyntax.slice. destruct (_ && _) eqn:He; [|done]. intros [= <-]. to_prop.
  rewrite <- (take_drop (Z.to_nat (b - a)) (drop (Z.to_nat a) l)) at 1. rewrite drop_drop. do 2 f_equal. lia.
Qed.

Lemma length_promise h0 h value offset chars : heap_grows h0 h -> heap_inv n c h -> task_ok n h (KLength value offset chars) -> given_in h0 (KLength value offset chars) ->
  step_promise h0 (KLength value offset chars) (task_step (KLength value offset chars) h).
Proof.
  intros Hg Hi Ht Hv. simpl in Hv. pose proof (length_runs n c value offset chars h Hi Ht) as Hr. unfold runs_ok, wp in Hr.
  destruct (task_step (KLength value offset chars) h) as [[r h']|] eqn:E; [|done]. clear Hr. destruct Ht as (_ & Ho & Hc & Hf).
  unfold step_promise. simpl in E |- *. unfold piece_len. rewrite <- !(piece_grows h0 h true value Hg Hv). unfold piece. unfold object_at in E. munfold_in E.
  destruct value as [| | |hd| |]; simpl in *; try (simplify_eq; by right). destruct (proj1 (conj Hv I)) as (o & Hget & _). rewrite (hg_get _ _ Hg _ _ Hget) in E |- *. simpl in E |- *.
  destruct o as [|text| | | | | |]; try (simplify_eq/=; by right). pose proof (hg_get _ _ Hg _ _ Hget) as Hgh. destruct (Hf hd text eq_refl Hgh) as [Hle Hb]. pose proof (heap_str _ _ _ Hi Hgh) as Hu.
  unfold uadd, expect in E. destruct (checked_add offset 256) as [upper|] eqn:Hup; [|done]. unfold checked_add in Hup. apply checked_Some in Hup as [<- _].
  set (stop := Z.to_nat (Z.min (offset + 256) (len text))) in *.
  assert (stop <= length text)%nat as Hstop by (unfold stop, len; lia). pose proof (char_floor_near text stop Hu Hstop) as Hnear.
  destruct (char_floor_spec text offset Hb Ho stop ltac:(lia)) as [He _]. set (e := char_floor text stop) in *.
  destruct (str_slice text offset (Z.of_nat e)) as [part|] eqn:Hp; [|done]. unfold str_slice in Hp. destruct (_ && _); [|done]. apply slice_split in Hp. rewrite Nat2Z.id in Hp.
  destruct (i64 (chars + char_count part)) as [k|] eqn:Hk; [|done]. unfold i64 in Hk. destruct (_ && _); [|done]. injection Hk as <-. injection E as <- <-.
  assert (piece h0 true (VObject hd) = Ok text) as Hpc by (unfold piece; simpl; by rewrite Hget).
  destruct (Z.of_nat e =? len text) eqn:Hend; to_prop.
  - simpl. rewrite Hp, char_count_app, (drop_ge text e) by (unfold len in Hend; lia). change (char_count []) with 0. by rewrite Z.add_0_r.
  - split; [done|]. simpl. unfold piece_len. rewrite Hpc. split; [|intros r h2 _ ->; simpl; by rewrite Nat2Z.id, Hp, char_count_app, Z.add_assoc]. apply chunks_lt; [lia|unfold len in *; lia|].
    assert (stop = Z.to_nat (offset + 256)); [|unfold len in *; lia]. destruct (decide (offset + 256 <= len text)); [unfold stop; f_equal; lia|].
    exfalso. apply Hend. assert (stop = length text) as Hx by (unfold stop, len in *; lia). unfold e. rewrite Hx. unfold len. f_equal. apply char_floor_end.
Qed.
(** The end of a copy. *)
Lemma copied_promise h0 h args output offset text it : heap_inv n c h -> Forall byte output -> len output <= isize_MAX ->
  let t := KCopy args (length args) offset output text it in step_promise h0 t (task_step t h).
Proof.
  intros Hi Hby Hl t. unfold t. simpl. rewrite bool_decide_eq_true_2 by done. unfold step_promise, promises.
  rewrite drop_all. simpl. rewrite drop_nil, app_nil_r. set (o := if text then OString output else OBytes output).
  destruct (text && negb (utf8 output)) eqn:Htu.
  { destruct text; [|done]. simpl in Htu. destruct (utf8 output); [done|]. munfold. by right. }
  assert (object_ok n h o) as Hok by (destruct text; simpl in *; [split; [by destruct (utf8 output)|done]|by split]).
  pose proof (lib_alloc_runs n c h o Hi Hok) as Hr. unfold runs_ok, wp in Hr.
  assert ((if text then (if utf8 output then mret (OString output) else fail TypeError) else mret (OBytes output) : M Heap ErrorKind Object) = mret o) as ->.
  { destruct text; [|done]. simpl in Htu. by destruct (utf8 output). }
  munfold. destruct (lib_alloc o h) as [[[v|k] h']|] eqn:He; [| |done]; destruct Hr as (_ & _ & Hr).
  - destruct Hr as (hd & -> & Hg). by exists hd.
  - left. unfold lib_alloc, limited, mbind, M_bind in He. by destruct (alloc _ h) as [[[|] ?]|]; simplify_eq.
Qed.

Lemma pieces_cons h it v vs p ps : piece h it v = Ok p -> pieces h it vs = Ok ps -> pieces h it (v :: vs) = Ok (p ++ ps).
Proof. intros Hp Hps. simpl. by rewrite Hp; simpl; rewrite Hps. Qed.

Lemma pieces_err h it v vs p k : piece h it v = Ok p -> pieces h it vs = Err k -> pieces h it (v :: vs) = Err k.
Proof. intros Hp Hps. simpl. by rewrite Hp; simpl; rewrite Hps. Qed.

(** One more piece of the current argument was copied. *)
Lemma copy_more h0 args index v bytes offset stop output part text it :
  args !! index = Some v -> piece h0 it v = Ok bytes -> LispSyntax.slice bytes offset stop = Some part ->
  stop = Z.min (offset + 256) (len bytes) ->
  let t := KCopy args index offset output text it in
  let t' := if stop =? len bytes then KCopy args (S index) 0 (output ++ part) text it else KCopy args index stop (output ++ part) text it in
  (steps_left h0 t' < steps_left h0 t)%nat /\ forall r h2, promises h0 t' r h2 -> promises h0 t r h2.
Proof.
  intros Hv Hp Hs Hstop. pose proof (drop_S _ _ _ Hv) as Hd. pose proof (slice_split _ _ _ _ Hs) as Hsp. apply slice_len in Hs as (Hpl & Ho & Hle & _).
  assert (piece_len h0 it v = len bytes) as Hlen by (unfold piece_len; by rewrite Hp). destruct (stop =? len bytes) eqn:Hend; to_prop.
  - split.
    + assert (1 <= chunks 256 (len bytes - offset))%nat by (unfold chunks; lia). simpl steps_left. rewrite Hd, Hlen. destruct (drop (S index) args); simpl; [lia|]. rewrite Z.sub_0_r. lia.
    + intros r h2. simpl. rewrite Hd. destruct (pieces h0 it (drop (S index) args)) as [ps|k] eqn:Hps; [|by rewrite (pieces_err _ _ _ _ _ _ Hp Hps)].
      rewrite (pieces_cons _ _ _ _ _ _ Hp Hps). rewrite drop_0, drop_app_le by (unfold len in *; lia). rewrite Hsp, (drop_ge bytes) by (unfold len in *; lia). by rewrite app_nil_r, <- app_assoc.
  - split.
    + cbn [steps_left]. rewrite Hd. cbv iota beta. rewrite Hlen. pose proof (chunks_lt 256 (len bytes - Z.min (offset + 256) (len bytes)) (len bytes - offset) ltac:(lia) ltac:(lia) ltac:(lia)) as Hc. unfold chunks in *. lia.
    + intros r h2. simpl. rewrite Hd. destruct (pieces h0 it (drop (S index) args)) as [ps|k] eqn:Hps; [|by rewrite (pieces_err _ _ _ _ _ _ Hp Hps)].
      rewrite (pieces_cons _ _ _ _ _ _ Hp Hps). rewrite !drop_app_le by (unfold len in *; lia). by rewrite Hsp, <- !app_assoc.
Qed.

Lemma copy_promise h0 h args index offset output text it : heap_grows h0 h -> heap_inv n c h ->
  let t := KCopy args index offset output text it in task_ok n h t -> given_in h0 t -> step_promise h0 t (task_step t h).
Proof.
  intros Hg Hi t Ht Hgiven. destruct (decide (index = length args)) as [->|Hn]; [apply copied_promise; [done|apply Ht..]|].
  pose proof (copy_runs n c args index offset output text it h Hi Ht) as Hr. unfold runs_ok, wp in Hr. fold t in Hr.
  destruct (task_step t h) as [[r h']|] eqn:E; [|done]. clear Hr. destruct Ht as (_ & Hx & Ho & _ & _ & Hf). simpl in Hgiven.
  destruct (lookup_lt_is_Some_2 args index ltac:(lia)) as [v Hv]. pose proof (proj1 (Forall_lookup _ _) Hgiven _ _ Hv) as Hvo.
  unfold t in E. simpl in E. rewrite bool_decide_eq_false_2 in E by done. unfold object_at, mbind at 1, M_bind at 1, expect at 1 in E. rewrite Hv in E. unfold mbind at 1, M_bind at 1, mbind at 1, M_bind at 1, get at 1, lift at 1 in E.
  rewrite (object_grows h0 h v Hg Hvo) in E. pose proof (drop_S _ _ _ Hv) as Hd.
  assert (forall k, piece h0 it v = Err k -> k = TypeError /\ forall h2, promises h0 t (Err TypeError) h2) as Hbad.
  { intros k Hp. assert (k = TypeError) as -> by (unfold piece in Hp; destruct (object_of h0 v) as [[]|], it; congruence). split; [done|]. intros h2. simpl. rewrite Hd. simpl. by rewrite Hp. }
  destruct (piece h0 it v) as [bytes|k] eqn:Hp.
  - assert (exists o, object_of h0 v = Ok o /\ (match o, it with OString s, true => mret s | OBytes b, false => mret b | _, _ => fail TypeError end : M Heap ErrorKind (list Z)) = mret bytes) as (o & Hob & Hm).
    { unfold piece in Hp. destruct (object_of h0 v) as [o|]; [|done]. exists o. split; [done|]. destruct o, it; simplify_eq; done. }
    rewrite Hob in E. simpl in E. rewrite Hm in E. munfold_in E. unfold uadd, usub, expect in E. destruct (checked_add offset 256) as [upper|] eqn:Hup; [|done]. unfold checked_add in Hup. apply checked_Some in Hup as [<- _].
    destruct (checked_sub _ _) as [k|]; [|done]. destruct (_ <? _); [injection E as <- <-; by left|]. destruct (negb _ || _); [injection E as <- <-; by left|].
    destruct (LispSyntax.slice _ _ _) as [part|] eqn:Hs; [|done]. destruct (copy_more h0 args index v bytes offset _ output part text it Hv Hp Hs eq_refl) as [Hsteps Hprom].
    destruct (_ =? len bytes); injection E as <- <-; (split; [done|]); (split; [done|]); intros r h2 _; apply Hprom.
  - destruct (Hbad k eq_refl) as [-> Hpr]. assert (r = Err TypeError) as ->; [|right; apply Hpr].
    unfold piece in Hp. destruct v as [| | |hd| |]; simpl in *; try by injection E as <- _. destruct Hvo as (o & Hget & _). rewrite Hget in *. simpl in *.
    destruct o, it; try discriminate Hp; simpl in E; by injection E as <- _.
Qed.

Lemma task_promise h0 h t : heap_grows h0 h -> heap_inv n c h -> task_ok n h t -> given_in h0 t -> step_promise h0 t (task_step t h).
Proof. intros Hg Hi Ht Hv. destruct t; [by apply list_promise|by apply copy_promise|by apply length_promise|by apply arithmetic_promise]. Qed.
(** ** A whole task *)

(** The machine's loop over one task; [None] when [fuel] runs out. *)
Fixpoint task_run (fuel : nat) (t : Task) : M Heap ErrorKind Value := fun h =>
  match fuel with
  | O => None
  | S fuel => ('(t, o) ← task_step t; match o with Some v => mret v | None => task_run fuel t end) h
  end.

Lemma task_runs h0 fuel : forall t h, (steps_left h0 t < fuel)%nat -> heap_grows h0 h -> heap_inv n c h -> task_ok n h t -> given_in h0 t ->
  exists r h', task_run fuel t h = Some (r, h') /\ heap_inv n c h' /\ heap_grows h h' /\ (r = Err ResourceLimit \/ promises h0 t r h').
Proof.
  induction fuel as [|fuel IH]; intros t h Hf Hg Hi Ht Hv; [lia|]. pose proof (task_promise h0 h t Hg Hi Ht Hv) as Hp. pose proof (task_step_runs n c t h Hi Ht) as Hr.
  unfold runs_ok, wp in Hr. cbn [task_run]. unfold mbind, M_bind. destruct (task_step t h) as [[[[t' [v|]]|k] h']|]; [| | |done]; destruct Hr as (Hi' & Hg' & Hr).
  - exists (Ok v), h'. split_and!; [done..|by right].
  - destruct Hp as (Hv' & Hs & Hprom). assert (heap_grows h0 h') as Hg0' by (by transitivity h). destruct (IH t' h' ltac:(lia) Hg0' Hi' Hr Hv') as (r & h2 & Hrun & Hi2 & Hg2 & Hans).
    exists r, h2. split_and!; [done|done|by transitivity h'|]. destruct Hans as [->|Hans]; [by left|right; by apply Hprom].
  - exists (Err k), h'. split_and!; [done..|]. destruct Hp as [->|Hp]; [by left|by right].
Qed.

(** What the builtins promise, by their names. *)
Definition copies (text : bool) (bytes : Prelude.result ErrorKind (list Z)) (r : Prelude.result ErrorKind Value) (h' : Heap) : Prop :=
  match bytes with
  | Err k => r = Err k
  | Ok all => if text && negb (utf8 all) then r = Err TypeError
              else exists hd, r = Ok (VObject hd) /\ heap_get h' hd = Some (if text then OString all else OBytes all)
  end.

Definition number (r : Prelude.result ErrorKind Z) : Prelude.result ErrorKind Value := k ← r; Ok (Integer k).

Definition builtin_promise (name : String.string) (args : list Value) (h : Heap) (r : Prelude.result ErrorKind Value) (h' : Heap) : Prop :=
  let named k := String.eqb name k in
  if named "list"%string then exists v, r = Ok v /\ listed h' args Nil v
  else if named "string-append"%string then copies true (pieces h true args) r h'
  else if named "bytes-append"%string then copies false (pieces h false args) r h'
  else if named "string->bytes"%string then copies false (pieces h true args) r h'
  else if named "bytes->string"%string then copies true (pieces h false args) r h'
  else if named "string-length"%string then exists v, args !! 0%nat = Some v /\ r = number (text ← piece h true v; Ok (char_count text))
  else if named "+"%string then r = number (folded "+" 0 args)
  else if named "*"%string then r = number (folded "*" 1 args)
  else exists k rest, args = Integer k :: rest /\ r = number (folded "-" k rest).

(** One step for each argument, and one for every 253 bytes of it. *)
Definition size_of (h : Heap) (v : Value) : Z := match object_of h v with Ok (OString s) | Ok (OBytes s) => len s | _ => 0 end.
Definition work (h : Heap) (args : list Value) : nat := list_sum (map (fun v => chunks 253 (size_of h v)) args).

Lemma work_cons h v args : work h (v :: args) = (chunks 253 (size_of h v) + work h args)%nat.
Proof. done. Qed.

Lemma chunks_pos k size : (1 <= chunks k size)%nat.
Proof. unfold chunks. lia. Qed.

Lemma work_length h args : (length args <= work h args)%nat.
Proof. induction args as [|v args IH]; [done|]. rewrite work_cons. cbn [length]. pose proof (chunks_pos 253 (size_of h v)). lia. Qed.

Lemma piece_size h it v : 0 <= piece_len h it v <= size_of h v.
Proof. unfold piece_len, piece, size_of. destruct (object_of h v) as [[]|], it; pose proof (@len_nonneg Z); simpl; auto; split; auto; lia. Qed.

Lemma chunks_mono k a b : (0 < k <= 256)%nat -> 0 <= a <= b -> (chunks 256 a <= chunks k b)%nat.
Proof.
  intros Hk Hab. unfold chunks. apply le_n_S, Z2Nat.inj_le; [apply Z.div_pos; lia|apply Z.div_pos; lia|].
  transitivity (a / Z.of_nat k); [apply Z.div_le_compat_l; lia|apply Z.div_le_mono; lia].
Qed.

Lemma copy_work h it args : (list_sum (map (fun v => chunks 256 (piece_len h it v)) args) <= work h args)%nat.
Proof.
  induction args as [|v args IH]; [done|]. rewrite work_cons. pose proof (chunks_mono 253 _ _ ltac:(lia) (piece_size h it v)) as Hc.
  change (chunks 256 (piece_len h it v) + list_sum (map (fun v => chunks 256 (piece_len h it v)) args) <= chunks 253 (size_of h v) + work h args)%nat. lia.
Qed.
Lemma copy_new_promises h args text it : Forall (val_ok n h) args ->
  let t := KCopy args 0 0 [] text it in
  given_in h t /\ (steps_left h t <= work h args)%nat /\ forall r h', promises h t r h' -> copies text (pieces h it args) r h'.
Proof.
  intros Ha t. split; [done|]. split.
  - simpl. rewrite drop_0. pose proof (copy_work h it args) as Hw. destruct args as [|v args]; [simpl; lia|]. rewrite Z.sub_0_r. exact Hw.
  - intros r h'. unfold t, promises, copies. by rewrite !drop_0.
Qed.

Lemma chunks_le k a b : (0 < k)%nat -> 0 <= a <= b -> (chunks k a <= chunks k b)%nat.
Proof. intros Hk Hab. unfold chunks. apply le_n_S, Z2Nat.inj_le; [apply Z.div_pos; lia|apply Z.div_pos; lia|apply Z.div_le_mono; lia]. Qed.

Lemma length_work h v args : args !! 0%nat = Some v -> (steps_left h (KLength v 0 0) <= work h args)%nat.
Proof.
  intros Hv. destruct args as [|w args]; [done|]. injection Hv as ->. rewrite work_cons. cbn [steps_left]. rewrite Z.sub_0_r. pose proof (piece_size h true v) as Hp.
  pose proof (chunks_le 253 _ _ ltac:(lia) Hp). lia.
Qed.

(** A new task promises what its builtin does, within the work of its arguments. *)
Lemma task_new_promises id op args h t h1 : Forall (val_ok n h) args -> BUILTINS !! id = Some op -> task_new id args h = Some (Ok (Some t), h1) ->
  h1 = h /\ given_in h t /\ (steps_left h t <= work h args)%nat /\ forall r h', promises h t r h' -> builtin_promise (b_name op) args h r h'.
Proof.
  intros Ha Hop Ht. unfold task_new in Ht. rewrite Hop in Ht. munfold_in Ht. destruct (negb (accepts _ _)); [done|]. pose proof (work_length h args) as Hw.
  apply list_elem_of_lookup_2 in Hop. unfold BUILTINS in Hop. repeat (apply elem_of_cons in Hop as [->|Hop]; [cbn in Ht|]); try (by apply elem_of_nil in Hop); try discriminate Ht; try (injection Ht as <- <-; split; [done|by apply copy_new_promises]).
  - injection Ht as <- <-. split_and!; [done|done|simpl; lia|]. intros r h'. cbn. by rewrite drop_0.
  - destruct (bool_decide (length args = 1%nat)) eqn:Hone; [discriminate Ht|]. cbn in Ht. destruct args as [|v args]; [done|]. destruct v as [|k| | | |]; try discriminate Ht.
    injection Ht as <- <-. split_and!; [done|done|simpl in *; lia|]. intros r h' ->. by exists k, args.
  - injection Ht as <- <-. split_and!; [done|done|simpl; lia|]. intros r h'. cbn. by rewrite drop_0.
  - by injection Ht as <- <-.
  - destruct args as [|v args]; [done|]. injection Ht as <- <-. split; [done|]. split; [by inversion Ha|]. split; [by apply length_work|].
    intros r h' ->. exists v. split; [done|]. unfold number. destruct (piece h true v); simpl; [by rewrite drop_0|done].
Qed.
End tasks.

(** C38: a builtin that runs as a task always answers, in at most one step for
    each of its arguments, one for every 253 bytes of each, and one more: with
    what it promises (the list of its arguments; the concatenation of texts or
    bytes, refused if it should be a text and is not UTF-8; the number of
    characters of a text; the sum, difference or product, or [Arithmetic] at the
    first overflow; [TypeError] at the first argument of another type), unless
    memory runs out. *)
Theorem task_ends `{Mem : Memory, !MemoryLaws Mem} n c id op args h t h1 : heap_inv n c h -> Forall (val_ok n h) args -> BUILTINS !! id = Some op ->
  task_new id args h = Some (Ok (Some t), h1) ->
  exists r h', task_run (S (work h args)) t h1 = Some (r, h') /\ heap_inv n c h' /\ heap_grows h h' /\
    (r = Err ResourceLimit \/ builtin_promise (b_name op) args h r h').
Proof.
  intros Hi Ha Hop Ht. destruct (task_new_promises n id op args h t h1 Ha Hop Ht) as (-> & Hg & Hw & Hp).
  pose proof (task_new_runs n c id args h Hi Ha ltac:(eauto)) as Hr. unfold runs_ok, wp in Hr. rewrite Ht in Hr. destruct Hr as (_ & _ & Hr).
  destruct (task_runs n c h (S (work h args)) t h ltac:(lia) ltac:(done) Hi Hr Hg) as (r & h' & Hrun & Hi' & Hg' & Hans).
  exists r, h'. split_and!; [done..|]. destruct Hans; auto.
Qed.

(** ["ab" "c"] with [string-append]. *)
#[local] Existing Instance plain_memory.
#[local] Existing Instance plain_memory_laws.

Definition append_heap : Heap := mkHeap [mkSlot 0 false (Some (OString [97; 98])) 16; mkSlot 0 false (Some (OString [99])) 16] [] 32 10000 96 2 2 0.
Definition append_args : list Value := [VObject (mkHandle 0 0); VObject (mkHandle 1 0)].

Lemma append_inv : heap_inv 0 0 append_heap.
Proof.
  split.
  - split; simpl; try (pose proof usize_MAX_eq; unfold len; simpl; lia); [|apply NoDup_nil_2|by intros i ?%elem_of_nil].
    repeat (apply Forall_cons; split); [split; simpl; (done || (unfold u32_MAX; lia))..|constructor].
  - intros [i g] o Hg. unfold heap_get in Hg. destruct i as [|[|i]]; simpl in Hg; [| |done]; destruct (Z.compare 0 g) in Hg |- *; destruct g; try discriminate Hg; injection Hg as <-; (split; [reflexivity|apply Z.leb_le; reflexivity]).
Qed.

Lemma task_ends_witness : exists t r h', task_new 20 append_args append_heap = Some (Ok (Some t), append_heap) /\
  task_run (S (work append_heap append_args)) t append_heap = Some (r, h') /\
  (r = Err ResourceLimit \/ builtin_promise "string-append" append_args append_heap r h') /\ r = Ok (VObject (mkHandle 2 0)).
Proof.
  exists (KCopy append_args 0 0 [] true true).
  destruct (task_ends 0 0 20 (mkBuiltin "string-append" (variadic 0)) append_args append_heap (KCopy append_args 0 0 [] true true) append_heap append_inv) as (r & h' & Hr & _ & _ & Hp).
  - repeat constructor; eexists; (split; [reflexivity|exact I]).
  - reflexivity.
  - vm_compute. reflexivity.
  - exists r, h'. split; [vm_compute; reflexivity|]. split; [exact Hr|]. split; [exact Hp|]. vm_compute in Hr. injection Hr as Hr _. symmetry. exact Hr.
Defined.
