(* ===== verification/LispMachineInv.v ===== *)
(** * The Lisp machine stays within its types

    The invariant of an engine, and that every transition keeps it: nothing
    panics, no handle is stale, no local name is unbound, whatever the program
    does and whenever memory runs out. *)

From Stdlib Require Import String.
From S2P Require Import Wire.
From S2P Require Import Prelude LispSyntax LispRead LispLower LispCompile LispHeap LispHeapInv LispLibrary LispMachine LispTyping LispSafe.

Open Scope Z_scope.

(** ** The invariant *)

(** What was charged for the names of globals. *)
Definition name_charge (name : list Z) : Z := len name + 64.
Definition charges (g : gmap (list Z) Handle) : Z := map_fold (fun name _ n => name_charge name + n) 0 g.

Definition nof (e : Engine) : nat := length (natives e).

Record engine_inv (e : Engine) : Prop := {
  ei_heap : heap_inv (nof e) (charges (globals e)) (heap e);
  ei_limit : limit (heap e) = l_heap (limits e);
  ei_roots : map_Forall (fun k v => val_ok (nof e) (heap e) v /\ k < next (roots e)) (values (roots e));
  ei_globals : map_Forall (fun _ hd => cell_ok (heap e) hd) (globals e);
  ei_state : state_ok (nof e) (heap e) (state e);
  ei_frames : Forall (frame_ok (nof e) (heap e)) (frames e);
  ei_depth : len (frames e) <= peak_frames e <= Z.max 0 (l_frames (limits e));
  ei_next : 0 <= next_call e <= usize_MAX
}.

(** How an engine may go on while values are in use. *)
Record later (e e' : Engine) : Prop := {
  lt_keeps : keeps (fun _ => True) (heap e) (heap e');
  lt_natives : (nof e <= nof e')%nat;
  lt_limits : limits e' = limits e;
  lt_identity : identity e' = identity e;
  lt_roots : values (roots e) ⊆ values (roots e');
  lt_next : next (roots e) <= next (roots e');
  lt_dead hd : dead (heap e) hd -> dead (heap e') hd
}.

Lemma similar_trans o1 o2 o3 : similar o1 o2 -> similar o2 o3 -> similar o1 o3.
Proof. intros [->|(v & v' & -> & ->)] [->|(w & w' & H1 & ->)]; unfold similar; naive_solver. Qed.

#[global] Instance later_preorder : PreOrder later.
Proof.
  split.
  - intros e. split; try done. split; [done|]. intros hd o _ Ho. exists o. split; [done|by left].
  - intros e1 e2 e3 [K1 N1 L1 I1 R1 X1 D1] [K2 N2 L2 I2 R2 X2 D2]. split; try congruence; [|lia|by etransitivity|lia|auto]. split; [done|]. intros hd o _ Ho.
    destruct (kp_get _ _ _ K1 hd o I Ho) as (o2 & Ho2 & H12). destruct (kp_get _ _ _ K2 hd o2 I Ho2) as (o3 & Ho3 & H23). exists o3. split; [done|by eapply similar_trans].
Qed.

Lemma keeps_itself h : keeps (fun _ => True) h h.
Proof. split; [done|]. intros hd o _ Ho. exists o. split; [done|by left]. Qed.

Lemma later_same e e' : heap e' = heap e -> natives e' = natives e -> limits e' = limits e -> identity e' = identity e -> roots e' = roots e -> later e e'.
Proof. intros Hh Hn Hl Hi Hr. split; try done; rewrite ?Hr; [rewrite Hh; apply keeps_itself|unfold nof; by rewrite Hn|done|lia|by rewrite Hh]. Qed.

(** A name is unbound only if [U] holds. *)
Definition engine_err (U : Prop) (k : ErrorKind) : Prop := evaluation_error k /\ (k = Unbound -> U).

Definition engine_discipline (U : Prop) : Discipline Engine := mkDiscipline engine_inv later (engine_err U).

Definition vok (e : Engine) : Value -> Prop := val_ok (nof e) (heap e).

Section keep.
Context (e e' : Engine) (L : later e e').

Lemma later_val v : vok e v -> vok e' v.
Proof. intros Hv. eapply (keep_val (fun _ => True)); [apply L|apply L|done|done]. Qed.
Lemma later_vals vs : Forall (vok e) vs -> Forall (vok e') vs.
Proof. intros Hv. eapply (keep_vals (fun _ => True)); [apply L|apply L|done|done]. Qed.
Lemma later_cell hd : cell_ok (heap e) hd -> cell_ok (heap e') hd.
Proof. intros Hv. eapply (keep_cell (fun _ => True)); [apply L|done|done]. Qed.
Lemma later_cells hds : Forall (cell_ok (heap e)) hds -> Forall (cell_ok (heap e')) hds.
Proof. intros Hv. eapply Forall_impl; [exact Hv|]. intros hd. apply later_cell. Qed.
Lemma later_env env sizes : env_ok (heap e) env sizes -> env_ok (heap e') env sizes.
Proof. intros Hv. eapply (keep_env (fun _ => True)); [apply L|done|done]. Qed.
Lemma later_context c sizes : context_ok (heap e) c sizes -> context_ok (heap e') c sizes.
Proof. intros [Hm Hv]. split; [done|by apply later_env]. Qed.
Lemma later_task t : task_ok (nof e) (heap e) t -> task_ok (nof e') (heap e') t.
Proof. intros Hv. eapply (keep_task (fun _ => True)); [apply L|apply L|done|done]. Qed.
Lemma later_quote ns w k : quote_ok (nof e) (heap e) ns w k -> quote_ok (nof e') (heap e') ns w k.
Proof. intros Hv. eapply (keep_quote (fun _ => True)); [apply L|apply L|done|done]. Qed.
Lemma later_frame f : frame_ok (nof e) (heap e) f -> frame_ok (nof e') (heap e') f.
Proof. intros Hv. eapply (keep_frame (fun _ => True)); [apply L|apply L|done|done]. Qed.
Lemma later_object o : object_ok (nof e) (heap e) o -> object_ok (nof e') (heap e') o.
Proof. intros Hv. eapply (keep_object (fun _ => True)); [apply L|apply L|done|done]. Qed.
End keep.

Create HintDb later.
#[export] Hint Resolve later_val later_vals later_cell later_cells later_env later_context later_task later_quote later_frame later_object : later.

(** A new heap under everything else. *)
Lemma inv_heap e h c : engine_inv e -> heap_inv (nof e) c h -> charges (globals e) = c -> limit h = limit (heap e) -> keeps (fun _ => True) (heap e) h ->
  (forall hd, dead (heap e) hd -> dead h hd) -> engine_inv (set_heap h e) /\ later e (set_heap h e).
Proof.
  intros [Hh Hl Hr Hg Hs Hf Hd Hn] Hi <- Hlim K Hdead. assert (later e (set_heap h e)) as L by (split; try done; simpl; lia). split; [|done].
  split; simpl; try done; [congruence| | | |].
  - intros k v Hv. destruct (Hr k v Hv). split; [by apply (later_val _ _ L)|done].
  - intros k hd Hk. apply (later_cell _ _ L). by eapply Hg.
  - eapply (keep_state (fun _ => True)); [exact K|done|done|done].
  - eapply Forall_impl; [exact Hf|]. intros f. apply (later_frame _ _ L).
Qed.

Section engine_safe.
Context `{Mem : Memory, !MemoryLaws Mem} {U : Prop}.

Abbreviation eruns := (runs_ok (engine_discipline U)).

Lemma on_heap_runs {A} (m : M Heap ErrorKind A) e Q : engine_inv e ->
  runs_ok (heap_discipline (nof e) (charges (globals e))) m (heap e) Q ->
  eruns (on_heap m) e (fun a e' => e' = set_heap (heap e') e /\ Q a (heap e')).
Proof.
  intros Hi Hm. unfold runs_ok, wp, on_heap in *. destruct (m (heap e)) as [[r h]|]; [|done]. destruct Hm as (Hh & Hg & Hr).
  destruct (inv_heap e h _ Hi Hh eq_refl (hg_limit _ _ Hg) (grows_keeps _ _ Hg) (hg_dead _ _ Hg)) as [Hi' L]. split_and!; [done|done|]. destruct r as [a|k]; [done|]. destruct Hr. by split.
Qed.

Lemma go_runs e s (Q : unit -> Engine -> Prop) : engine_inv e -> state_ok (nof e) (heap e) s -> (Q tt (set_state s e)) -> eruns (go s) e Q.
Proof.
  intros Hi Hs Hq. unfold go, modify. eapply (runs_bind _ _ _ _ (fun x e' => x = e /\ e' = e)); [by apply runs_get|]. intros ? ? _ _ [-> ->].
  apply runs_put; [|by apply later_same|done]. destruct Hi. by split.
Qed.

Lemma engine_alloc_runs e o : engine_inv e -> object_ok (nof e) (heap e) o ->
  eruns (engine_alloc o) e (fun v e' => exists hd, v = VObject hd /\ heap_get (heap e') hd = Some o).
Proof.
  intros Hi Ho. eapply runs_mono; [eapply (on_heap_runs _ _ _ Hi), lib_alloc_runs; [apply (ei_heap _ Hi)|done]|]. by intros v e' _ _ [_ Hq].
Qed.

Lemma literal_runs e a : engine_inv e -> atom_ok a -> eruns (literal a) e (fun v e' => vok e' v).
Proof.
  intros Hi Ha. destruct a as [k|b|s|s|b]; simpl; try (by apply runs_ret); (eapply runs_mono; [by apply engine_alloc_runs|]); intros v e' _ _ (hd & -> & Hg); by eexists.
Qed.

Lemma code_expr m sizes id : code_ok m sizes id -> exists x, expressions m !! id = Some x.
Proof. intros (c & He & _). inversion He; eauto. Qed.

Lemma eval_runs e id c sizes : engine_inv e -> context_ok (heap e) c sizes -> code_ok (module_ c) sizes id -> eruns (eval id c) e (fun _ _ => True).
Proof.
  intros Hi Hc Hid. unfold eval, expr_at. destruct (code_expr _ _ _ Hid) as [x Hx]. eapply (runs_bind _ _ _ _ (fun y e' => y = x /\ e' = e)); [apply runs_expect; [done|by exists x]|].
  intros ? ? _ _ [-> ->]. apply go_runs; [done| |done]. exists sizes. by destruct Hc.
Qed.

Lemma frame_runs e f : engine_inv e -> frame_ok (nof e) (heap e) f -> eruns (frame f) e (fun _ e' => e' = set_frames (frames e') (peak_frames e') e).
Proof.
  intros Hi Hf. unfold frame. eapply (runs_bind _ _ _ _ (fun x e' => x = e /\ e' = e)); [by apply runs_get|]. intros ? ? _ _ [-> ->].
  destruct (_ <=? _) eqn:Hl; [by apply runs_fail|]. apply runs_put; [|by apply later_same|done]. destruct Hi. to_prop. split; simpl; try done; [by constructor|]. rewrite len_cons. lia.
Qed.

(** Names are found where the compiler said. *)
Lemma outer_ok h env sizes : env_ok h env sizes -> forall depth n, sizes !! depth = Some n ->
  exists hd x, outer h depth env = Ok (Some hd) /\ heap_get h hd = Some (OEnvironment x) /\ length (e_cells x) = n /\ Forall (cell_ok h) (e_cells x).
Proof.
  induction 1 as [|hd x sizes Hx Hc Hp IH]; intros depth n Hn; [done|]. destruct depth as [|depth]; simpl in *.
  - injection Hn as <-. by exists hd, x.
  - rewrite Hx. by apply IH.
Qed.

Lemma cell_of_ok e b env sizes : map_Forall (fun _ hd => cell_ok (heap e) hd) (globals e) -> env_ok (heap e) env sizes -> bound sizes b ->
  match cell_of e b env with
  | Ok hd => cell_ok (heap e) hd
  | Err k => k = Unbound /\ exists name, b = Global name /\ globals e !! name = None
  end.
Proof.
  intros Hg He Hb. destruct b as [depth slot|name]; simpl.
  - destruct Hb as (k & Hk & Hs). destruct (outer_ok _ _ _ He _ _ Hk) as (hd & x & Ho & Hx & Hl & Hc). rewrite Ho. simpl. rewrite Hx.
    destruct (lookup_lt_is_Some_2 (e_cells x) slot ltac:(lia)) as [y Hy]. rewrite Hy. by eapply (proj1 (Forall_lookup _ _) Hc).
  - destruct (globals e !! name) as [hd|] eqn:Hn; simpl; [by eapply Hg|]. split; [done|by exists name].
Qed.

Lemma cell_runs e b env sizes : engine_inv e -> env_ok (heap e) env sizes -> bound sizes b ->
  (forall name, b = Global name -> globals e !! name = None -> U) -> eruns (cell b env) e (fun hd e' => e' = e /\ cell_ok (heap e) hd).
Proof.
  intros Hi He Hb HU. unfold cell. eapply (runs_bind _ _ _ _ (fun x e' => x = e /\ e' = e)); [by apply runs_get|]. intros ? ? _ _ [-> ->]. apply runs_lift; [done|].
  pose proof (cell_of_ok e b env sizes (ei_globals _ Hi) He Hb) as Hc. destruct (cell_of e b env) as [hd|k]; [done|]. destruct Hc as (-> & name & Hg & Hn). split; [done|]. intros _. by eapply HU.
Qed.

(** A cell gets another value. *)
Lemma set_cell_runs e hd v : engine_inv e -> cell_ok (heap e) hd -> vok e v ->
  engine_inv (set_heap (heap_set (heap e) hd (OCell v)) e) /\ later e (set_heap (heap_set (heap e) hd (OCell v)) e).
Proof.
  intros Hi (w & Hw) Hv. destruct (ei_heap _ Hi) as [Hh Ho].
  destruct (heap_set_spec _ _ _ _ (OCell v) Hh Hw) as (Hh' & Hl & Hg & Hother & Hdead).
  assert (keeps (fun _ => True) (heap e) (heap_set (heap e) hd (OCell v))) as K.
  { split; [done|]. intros hd' o _ Hget. destruct (decide (hd' = hd)) as [->|Hn]; [|rewrite Hother by done; exists o; split; [done|by left]].
    assert (o = OCell w) as -> by congruence. eexists. split; [exact Hg|]. right. eauto. }
  eapply inv_heap; [done| |done|done|done|done]. split; [done|]. intros hd' o Hget.
  destruct (decide (hd' = hd)) as [->|Hn].
  - assert (o = OCell v) as -> by congruence. simpl. by eapply (keep_val (fun _ => True)); [exact K| | |].
  - rewrite Hother in Hget by done. eapply (keep_object (fun _ => True)); [exact K|done|by eapply Ho|done].
Qed.

Lemma charges_insert g name hd : g !! name = None -> charges (<[name := hd]> g) = name_charge name + charges g.
Proof. intros Hn. unfold charges. rewrite (map_fold_insert_L (fun name _ n => name_charge name + n)); [done| |done]. intros. lia. Qed.

Lemma name_charge_pos name : 0 <= name_charge name.
Proof. unfold name_charge. pose proof (len_nonneg name). lia. Qed.

Lemma define_runs e name v : engine_inv e -> vok e v -> eruns (define name v) e (fun _ _ => True).
Proof.
  intros Hi Hv. unfold define. eapply (runs_bind _ _ _ _ (fun x e' => x = e /\ e' = e)); [by apply runs_get|]. intros ? ? _ _ [-> ->].
  destruct (globals e !! name) as [hd|] eqn:Hn.
  { pose proof (ei_globals _ Hi _ _ Hn) as Hc. pose proof Hc as (w & Hw). rewrite Hw. destruct (set_cell_runs e hd v Hi Hc Hv) as [Hi' L]. by apply runs_put. }
  eapply (runs_bind _ _ _ _ (fun c e' => c = name_charge name /\ e' = e)).
  { apply runs_lift; [done|]. unfold checked_add. destruct (checked _) as [c|] eqn:Hc; simpl; [|done]. by apply checked_Some in Hc as [<- _]. }
  intros ? ? _ _ [-> ->]. destruct (ei_heap _ Hi) as [Hh Ho]. pose proof (name_charge_pos name) as Hp.
  pose proof (charge_wp _ _ _ Hh Hp) as Hc. unfold runs_ok, wp. unfold mbind at 1, M_bind at 1. unfold on_heap at 1, limited. unfold wp in Hc.
  destruct (charge _ (heap e)) as [[[[]|[]] h1]|]; [| |done].
  2: { rewrite Hc. destruct (inv_heap e (heap e) _ Hi (conj Hh Ho) eq_refl eq_refl (keeps_itself _) (fun _ H => H)) as [Hi' L]. by split_and!. }
  destruct Hc as [Hh1 ->]. set (h1 := set_used _ _) in *. assert (forall hd, heap_get h1 hd = heap_get (heap e) hd) as Hg1 by done.
  pose proof (alloc_wp _ h1 (OCell v) Hh1) as Ha. unfold wp in Ha. unfold mbind, M_bind, on_err, on_heap, limited.
  change (heap (set_heap h1 e)) with h1. destruct (alloc (OCell v) h1) as [[[hd|[]] h2]|]; [| |done]; destruct Ha as (Hh2 & Hgr & Ha).
  - destruct Ha as (Hnl & _ & Hget & Hother). unfold modify. simpl. unfold get, put. simpl.
    assert (keeps (fun _ => True) (heap e) h2) as K. { apply grows_keeps. split; [apply Hgr|intros; by apply Hgr|intros; by apply Hgr]. }
    set (e2 := set_heap h2 e). assert (later e (set_globals (<[name := hd]> (globals e)) e2)) as L by (split; try done; simpl; intros hd'; by apply (hg_dead _ _ Hgr hd')).
    assert (cell_ok h2 hd) as Hcell by (by exists v). split_and!; [|done|done]. destruct Hi as [_ Hl Hr Hgl Hs Hf Hd Hne]. split; simpl; try done.
    + rewrite charges_insert by done. rewrite Z.add_comm. split; [done|]. intros hd' o Hget'. apply (later_object _ _ L).
      destruct (decide (hd' = hd)) as [->|Hx]; [by assert (o = OCell v) as -> by congruence|]. rewrite Hother in Hget' by done. by eapply Ho.
    + rewrite (hg_limit _ _ Hgr). done.
    + intros k w Hw. destruct (Hr k w Hw). split; [by apply (later_val _ _ L)|done].
    + intros k x [[-> ->]|[_ Hk]]%lookup_insert_Some; [done|]. apply (later_cell _ _ L). by eapply Hgl.
    + eapply (keep_state (fun _ => True)); [exact K|done|done|done].
    + eapply Forall_impl; [exact Hf|]. intros f. apply (later_frame _ _ L).
  - unfold mbind, M_bind, usub, checked_sub, get, put, expect, fail. simpl. destruct (Hh2) as [Hc0 Hsl Hnd Hfe Hu Hm Hb Hli Hc Hfc].
    assert (0 <= weights (slots h2)) as Hwn. { apply weights_nonneg. eapply Forall_impl; [exact Hsl|]. by intros s []. }
    destruct Hh as [Hc0' _ _ _ _ _ _ _ _ _]. fold (name_charge name). rewrite checked_in by lia. simpl.
    assert (keeps (fun _ => True) (heap e) (set_used (used h2 - name_charge name) h2)) as K.
    { assert (heap_grows (heap e) h2) as Hg2 by (split; [apply Hgr|intros; by apply Hgr|intros; by apply Hgr]). split; [done|exact (kp_get _ _ _ (grows_keeps _ _ Hg2))]. }
    assert (heap_inv (nof e) (charges (globals e)) (set_used (used h2 - name_charge name) h2)) as Hi2.
    { split; [split; simpl; try done; lia|]. intros hd o Hget. change (heap_get h2 hd = Some o) in Hget. rewrite Ha in Hget.
      eapply (keep_object (fun _ => True)); [exact K|done|by eapply Ho|done]. }
    destruct (inv_heap e (set_used (used h2 - name_charge name) h2) _ Hi Hi2 eq_refl (hg_limit _ _ Hgr) K (hg_dead _ _ Hgr)) as [Hi' L]. by split_and!.
Qed.
End engine_safe.
