(* ===== verification/LispTransition.v ===== *)
(** * Every transition of the Lisp machine keeps its types *)

From Stdlib Require Import String.
From S2P Require Import Wire.
From S2P Require Import Prelude LispSyntax LispRead LispLower LispCompile LispHeap LispHeapInv LispLibrary LispMachine LispTyping LispSafe LispMachineInv.

Open Scope Z_scope.

(** A state that refers to a global there is not, and only that. *)
Definition missing (e : Engine) (s : State) : Prop :=
  exists name, globals e !! name = None /\
  match s with
  | MEval id c => exists sp, expressions (module_ c) !! id = Some (mkExpression (EReference (Global name)) sp)
  | MReturn _ _ => exists c fs, frames e = FrAssign (Global name) c :: fs
  | _ => False
  end.

Section transition.
Context `{Mem : Memory, !MemoryLaws Mem} {U : Prop}.

Abbreviation eruns := (runs_ok (engine_discipline U)).

Abbreviation nothing := (fun (_ : unit) (_ : Engine) => True).

Lemma alloc_cells_runs vs : forall e, engine_inv e -> Forall (vok e) vs ->
  eruns (alloc_cells vs) e (fun cells e' => Forall (cell_ok (heap e')) cells /\ length cells = length vs).
Proof.
  induction vs as [|v vs IH]; intros e Hi Hv; simpl; [by apply runs_ret|]. inversion Hv as [|?? Hv1 Hv2]; subst.
  eapply runs_bind; [by apply engine_alloc_runs|]. intros x e1 Hi1 L1 (hd & -> & Hg).
  eapply runs_bind; [apply IH; [done|by apply (later_vals _ _ L1)]|]. intros cells e2 Hi2 L2 [Hc Hl]. apply runs_ret; [done|]. simpl. split; [|by f_equal].
  constructor; [|done]. apply (later_cell _ _ L2). by exists v.
Qed.

Lemma apply_runs e f vs c sizes : engine_inv e -> vok e f -> Forall (vok e) vs -> context_ok (heap e) c sizes -> eruns (apply f vs c) e nothing.
Proof.
  intros Hi Hf Hv Hc. destruct f as [| | |hd|id|id]; simpl; try (by apply runs_fail).
  - apply bind_get. destruct Hf as (o & Ho & Hfc). rewrite Ho. destruct o as [| | | | | |m body params env|]; try (by apply runs_fail).
    destruct (proj2 (ei_heap _ Hi) _ _ Ho) as (Hm & sz & He & Hb). destruct (negb _) eqn:Hn; [by apply runs_fail|]. to_prop.
    eapply runs_bind; [by apply alloc_cells_runs|]. intros cells e1 Hi1 L1 [Hcells Hl].
    eapply runs_bind; [apply engine_alloc_runs; [done|]; split; [done|exists sz; by apply (later_env _ _ L1)]|]. intros x e2 Hi2 L2 (henv & -> & Hg).
    eapply eval_runs; [done| |rewrite <- Hl in Hb; exact Hb]. split; [done|]. apply env_some with (e := mkEnvironment env cells); simpl.
    + done.
    + by apply (later_cells _ _ L2).
    + by apply (later_env _ _ L2), (later_env _ _ L1).
  - eapply runs_bind; [eapply on_heap_runs; [done|]; apply task_new_runs; [apply (ei_heap _ Hi)|done|done]|]. intros t e1 Hi1 L1 [He Ht].
    pose proof (later_context _ _ L1 _ _ Hc) as Hc1. assert (nof e1 = nof e) as Hn by (by rewrite He). destruct t as [t|].
    + apply go_runs; [done| |done]. split; [by rewrite Hn|by exists sizes].
    + eapply runs_bind; [eapply on_heap_runs; [done|]; apply lib_apply_runs; [apply (ei_heap _ Hi1)|by apply (later_vals _ _ L1)|done]|].
      intros v e2 Hi2 L2 [He2 Hvo]. apply go_runs; [done| |done]. split; [|exists sizes; by apply (later_context _ _ L2)]. by rewrite He2.
  - apply bind_get. destruct (lookup_lt_is_Some_2 (natives e) id Hf) as [native Hnat]. eapply bind_some; [done|].
    destruct (negb _); [by apply runs_fail|]. apply bind_ok_or; [done..|]. intros k Hk. apply checked_Some in Hk as [<- Hk].
    eapply (runs_bind _ _ _ _ (fun _ e' => e' = set_next_call (next_call e + 1) e)).
    { apply runs_put; [|by apply later_same|done]. apply usize_iff in Hk. destruct Hi. by split. }
    intros _ ? Hi1 L1 ->. apply go_runs; [done| |done]. split; [done|by exists sizes].
Qed.

Lemma eval_step_runs e id c : engine_inv e -> state_ok (nof e) (heap e) (MEval id c) -> (missing e (MEval id c) -> U) -> eruns (eval_step id c) e nothing.
Proof.
  intros Hi (sizes & Hc & (code & Henc & Hsc)) HU. unfold eval_step, expr_at.
  assert (forall b, (exists sizes, context_ok (heap e) c sizes) -> state_ok (nof e) (heap e) b -> eruns (go b) e nothing) as Hgo by (intros; by apply go_runs).
  assert (forall f id', frame_ok (nof e) (heap e) f -> code_ok (module_ c) sizes id' -> eruns (frame f ;; eval id' c) e nothing) as Hframe.
  { intros f id' Hf Hid. eapply runs_bind; [by apply frame_runs|]. intros _ e1 Hi1 L1 _. eapply eval_runs; [done|by apply (later_context _ _ L1)|done]. }
  assert (forall ids cs, encode_all (nodes (form (module_ c))) (expressions (module_ c)) ids cs -> fold_right and True (map (scoped sizes) cs) -> codes_ok (module_ c) sizes ids) as Hall.
  { induction 1 as [|i x ids cs Hx _ IH]; simpl; intros Hs; [by apply Forall_nil|]. destruct Hs as [Hs1 Hs2]. apply Forall_cons. split; [by exists x|by apply IH]. }
  inversion Henc as [i a sp Hx|i j s sp Hx Hd|i b sp Hx|i t y n ct cy cn sp Hx Ht Hy Hn|i ps cs sp Hx Hps|i k b cb sp Hx Hb|i f xs cf cs sp Hx Hf Hxs|i x v cv sp Hx Hv|i b v cv sp Hx Hv]; subst;
    simpl in Hsc; (eapply bind_expect; [done|]); simpl.
  - eapply runs_bind; [apply literal_runs; [done|]|].
    { destruct Hc as [[_ Hm] _]. by eapply Hm. }
    intros v e1 Hi1 L1 Hv. apply go_runs; [done| |done]. split; [done|]. exists sizes. by apply (later_context _ _ L1).
  - apply go_runs; [done| |done]. split; [split; [by exists s|done]|]. split; [constructor|by exists sizes].
  - eapply runs_bind; [eapply cell_runs; [done|apply Hc|done|]|].
    { intros name -> Hn. apply HU. exists name. eauto. }
    intros hd ? _ _ [-> (v & Hv)]. apply bind_get. rewrite Hv.
    apply go_runs; [done| |done]. split; [by eapply (proj2 (ei_heap _ Hi) _ _ Hv)|by exists sizes].
  - destruct Hsc as (H1 & H2 & H3). apply Hframe; [|by exists ct]. exists sizes. split; [done|]. split; [by exists cy|by exists cn].
  - pose proof (Hall _ _ Hps Hsc) as Hcs. destruct ps as [|first rest]; [apply go_runs; [done| |done]; split; [done|by exists sizes]|].
    inversion Hcs as [|?? Hf1 Hf2]; subst. case_bool_decide as Hr; [by eapply eval_runs|]. apply Hframe; [|done]. exists sizes. split; [done|]. split; [done|]. destruct rest; [done|simpl; lia].
  - eapply runs_bind; [apply engine_alloc_runs; [done|]|].
    { destruct Hc as [Hm He]. split; [done|]. exists sizes. split; [done|by exists cb]. }
    intros v e1 Hi1 L1 (hd & -> & Hg). apply go_runs; [done| |done]. split; [by eexists|]. exists sizes. by apply (later_context _ _ L1).
  - destruct Hsc as [H1 H2]. apply Hframe; [|by exists cf]. exists sizes. split; [done|]. by eapply Hall.
  - apply Hframe; [|by exists cv]. by exists sizes.
  - destruct Hsc as [H1 H2]. apply Hframe; [|by exists cv]. by exists sizes.
Qed.

Lemma builtin_step_runs e work c : engine_inv e -> state_ok (nof e) (heap e) (MBuiltin work c) -> eruns (builtin_step work c) e nothing.
Proof.
  intros Hi [Ht (sizes & Hc)]. unfold builtin_step. eapply runs_bind; [eapply on_heap_runs; [done|]; apply task_step_runs; [apply (ei_heap _ Hi)|done]|].
  intros [t o] e1 Hi1 L1 [He1 Ho]. simpl in Ho. pose proof (later_context _ _ L1 _ _ Hc) as Hc1. assert (nof e1 = nof e) as Hn by (by rewrite He1).
  destruct o as [v|]; (apply go_runs; [done| |done]); (split; [by rewrite Hn|by exists sizes]).
Qed.
(** *** Quotations *)

Lemma pop_last_app {A} (l : list A) a : pop_last (l ++ [a]) = Some (a, l).
Proof. unfold pop_last. rewrite reverse_app. simpl. by rewrite reverse_involutive. Qed.

Lemma last_exists {A} (l : list A) : (1 <= length l)%nat -> exists l' a, l = l' ++ [a].
Proof. intros Hl. destruct l as [|a l _] using rev_ind; [simpl in Hl; lia|eauto]. Qed.

Lemma bind_pop {B} e vs v (f : Value * list Value -> M Engine ErrorKind B) Q : eruns (f (v, vs)) e Q -> eruns (pop_value (vs ++ [v]) ≫= f) e Q.
Proof. unfold pop_value. by rewrite pop_last_app. Qed.

Lemma quote_visits n h ns ids ss w : denote_all ns ids ss -> forall k, quote_ok n h ns w (length ids + k) -> quote_ok n h ns (map QVisit ids ++ w) k.
Proof.
  induction 1 as [|i s ids ss Hi _ IH]; simpl; intros k Hw; [done|]. split; [by exists s|]. apply IH. by replace (length ids + S k)%nat with (S (length ids + k)) by lia.
Qed.

Lemma quote_pairs n h ns vs w k : Forall (val_ok n h) vs -> (1 <= k)%nat -> quote_ok n h ns w k -> quote_ok n h ns (map QPair vs ++ w) k.
Proof. induction 1 as [|v vs Hv _ IH]; simpl; intros Hk Hw; [done|]. split_and!; [done|done|by apply IH]. Qed.

Lemma quote_visit_runs e id work vs c : engine_inv e -> state_ok (nof e) (heap e) (MQuote (QVisit id :: work) vs c) -> eruns (quote_step (QVisit id :: work) vs c) e nothing.
Proof.
  intros Hi ([(s & Hd) Hq] & Hv & sizes & Hc). simpl. set (ns := nodes (form (module_ c))) in *.
  assert (forall w vs', quote_ok (nof e) (heap e) ns w (length vs') -> Forall (vok e) vs' -> eruns (go (MQuote w vs' c)) e nothing) as Hgo.
  { intros w vs' Hw Hvs. apply go_runs; [done| |done]. split_and!; [done|done|by exists sizes]. }
  inversion Hd as [i a sp Hl|i items sp ss Hl Hitems|i items t sp ss st Hl Hitems Ht|i j sp q Hl Hsub]; subst; (eapply bind_expect; [done|]); simpl.
  - eapply runs_bind; [apply literal_runs; [done|]|].
    { destruct Hc as [[Hn _] _]. by eapply Hn. }
    intros v e1 Hi1 L1 Hvo. apply go_runs; [done| |done]. split_and!; [|apply Forall_app; split; [by apply (later_vals _ _ L1)|by constructor]|exists sizes; by apply (later_context _ _ L1)].
    rewrite length_app, Nat.add_1_r. by apply (later_quote _ _ L1).
  - apply Hgo; [|done]. eapply quote_visits; [done|]. simpl. split; [lia|]. by replace (length items + length vs - (length items + 0))%nat with (length vs) by lia.
  - apply Hgo; [|done]. eapply quote_visits; [done|]. simpl. split; [by exists st|]. split; [lia|].
    by replace (S (length items + length vs) - (length items + 1))%nat with (length vs) by lia.
  - apply Hgo; [|done]. simpl. split; [by exists q|]. split; [lia|done].
Qed.

Lemma quote_list_runs e n dotted work vs c : engine_inv e -> state_ok (nof e) (heap e) (MQuote (QList n dotted :: work) vs c) ->
  eruns (quote_step (QList n dotted :: work) vs c) e nothing.
Proof.
  intros Hi ([Hk Hq] & Hv & sizes & Hc). simpl in Hk, Hq |- *.
  eapply (runs_bind _ _ _ _ (fun r e' => e' = e /\ vok e r.1 /\ Forall (vok e) r.2 /\ length vs = (length r.2 + if dotted then 1 else 0)%nat)).
  - destruct dotted; [|apply runs_ret; [done|]; split_and!; [done..|simpl; lia]]. destruct (last_exists vs ltac:(lia)) as (vs' & v & ->).
    unfold pop_value. rewrite pop_last_app. apply Forall_app in Hv as [Hv1 Hv2]. rewrite Forall_singleton in Hv2. apply runs_lift; [done|]. simpl. rewrite length_app. simpl. split_and!; [done..|lia].
  - intros [tail vs'] ? _ _ (-> & Ht & Hvs & Hl). simpl in *. rewrite bool_decide_eq_true_2 by lia. apply go_runs; [done| |done]. split_and!; [| |by exists sizes].
    + apply quote_pairs; [|rewrite length_app; simpl; lia|].
      * apply Forall_reverse. by apply Forall_drop.
      * rewrite length_app, length_take. simpl. by replace (Nat.min (length vs' - n) (length vs') + 1)%nat with (S (length vs - (n + if dotted then 1 else 0))) by lia.
    + apply Forall_app. split; [by apply Forall_take|by constructor].
Qed.

Lemma quote_step_runs e work vs c : engine_inv e -> state_ok (nof e) (heap e) (MQuote work vs c) -> eruns (quote_step work vs c) e nothing.
Proof.
  intros Hi Hs. destruct work as [|[id|n dotted|first|] work]; [|by apply quote_visit_runs|by apply quote_list_runs|..]; destruct Hs as (Hq & Hv & sizes & Hc).
  - simpl in Hq. destruct vs as [|v [|]]; try done. simpl. apply (bind_pop e [] v). apply go_runs; [done| |done]. split; [|by exists sizes]. by inversion Hv.
  - destruct Hq as (Hf & Hk & Hq). destruct (last_exists vs Hk) as (vs' & v & ->). simpl. apply bind_pop. apply Forall_app in Hv as [Hv1 Hv2]. rewrite Forall_singleton in Hv2.
    eapply runs_bind; [apply engine_alloc_runs; [done|by split]|]. intros x e1 Hi1 L1 (hd & -> & Hg). apply go_runs; [done| |done]. split_and!.
    + rewrite length_app in *. by apply (later_quote _ _ L1).
    + apply Forall_app. split; [by apply (later_vals _ _ L1)|]. constructor; [by eexists|constructor].
    + exists sizes. by apply (later_context _ _ L1).
  - destruct Hq as (Hk & Hq). destruct (last_exists vs Hk) as (vs' & v & ->). cbn [quote_step]. apply bind_pop. apply Forall_app in Hv as [Hv1 Hv2]. rewrite Forall_singleton in Hv2.
    eapply runs_bind; [apply engine_alloc_runs; [done|by split]|]. intros x1 e1 Hi1 L1 (hd1 & -> & Hg1).
    eapply runs_bind; [apply engine_alloc_runs; [done|]; by split; vm_compute|]. intros x2 e2 Hi2 L2 (hd2 & -> & Hg2).
    eapply runs_bind; [apply engine_alloc_runs; [done|]; split; [by eexists|apply (later_val _ _ L2); by eexists]|]. intros x3 e3 Hi3 L3 (hd3 & -> & Hg3).
    assert (later e e3) as L by (by etransitivity; [etransitivity; [exact L1|exact L2]|exact L3]). apply go_runs; [done| |done]. split_and!.
    + rewrite length_app in *. by apply (later_quote _ _ L).
    + apply Forall_app. split; [by apply (later_vals _ _ L)|]. constructor; [by eexists|constructor].
    + exists sizes. by apply (later_context _ _ L).
Qed.

(** *** Returning to a frame *)

Definition pinned (r : RootValue) (e : Engine) : Prop := values (roots e) !! rv_key r = Some (rv_value r) /\ rv_roots r = identity e.

Lemma pin_runs e v : engine_inv e -> vok e v -> eruns (pin v) e (fun r e' => pinned r e' /\ rv_value r = v /\ rv_key r = next (roots e) /\ next (roots e') = next (roots e) + 1).
Proof.
  intros Hi Hv. unfold pin. apply bind_get. assert (values (roots e) !! next (roots e) = None) as Hn.
  { destruct (values (roots e) !! next (roots e)) as [w|] eqn:Hw; [|done]. destruct (ei_roots _ Hi _ _ Hw). lia. }
  eapply (runs_bind _ _ _ _ (fun _ e' => e' = set_roots (mkRoots (next (roots e) + 1) (<[next (roots e) := v]> (values (roots e)))) e)).
  - apply runs_put; [|split; simpl; [apply keeps_itself|done|done|done|by apply insert_subseteq|lia|done]|done]. destruct Hi as [A B C D E F G H]. split; simpl; try done.
    intros k w [[<- <-]|[_ Hk]]%lookup_insert_Some; [split; [done|lia]|]. destruct (C k w Hk). split; [done|lia].
  - intros _ ? Hi1 _ ->. apply runs_ret; [done|]. split_and!; [|done..]. split; [|done]. simpl. by rewrite lookup_insert_eq.
Qed.

(** What comes back is a new root, of a key from [k] on. *)
Definition returned (k : Z) (r : option RootValue) (e : Engine) : Prop := match r with Some r => pinned r e /\ k <= rv_key r | None => True end.

Lemma then_none k e (m : M Engine ErrorKind unit) : eruns m e nothing -> eruns (m ;; mret None) e (returned k).
Proof. intros Hm. eapply runs_bind; [exact Hm|]. intros _ e' Hi _ _. by apply runs_ret. Qed.

Lemma frame_eval_runs e f id c sizes : engine_inv e -> frame_ok (nof e) (heap e) f -> context_ok (heap e) c sizes -> code_ok (module_ c) sizes id ->
  eruns (frame f ;; eval id c) e nothing.
Proof. intros Hi Hf Hc Hid. eapply runs_bind; [by apply frame_runs|]. intros _ e1 Hi1 L1 _. eapply eval_runs; [done|by apply (later_context _ _ L1)|done]. Qed.

Lemma return_step_runs e v : engine_inv e -> vok e v -> (forall c, missing e (MReturn v c) -> U) -> eruns (return_step v) e (returned (next (roots e))).
Proof.
  intros Hi Hv HU. unfold return_step. destruct (frames e) as [|f fs] eqn:Hfs.
  { unfold pop_frame. eapply (runs_bind _ _ _ _ (fun o e' => o = None /\ e' = e)); [apply bind_get; rewrite Hfs; by apply runs_ret|]. intros ? ? _ _ [-> ->].
    eapply runs_bind; [by apply pin_runs|]. intros r e' Hi' _ (Hp & _ & Hk & _). apply runs_ret; [done|]. split; [done|lia]. }
  pose proof (ei_frames _ Hi) as Hff. rewrite Hfs in Hff. inversion Hff as [|?? Hf Hfs']; subst. clear Hff.
  assert (forall name c, f = FrAssign (Global name) c -> globals e !! name = None -> U) as HU'.
  { intros name c -> Hn. apply (HU c). exists name. eauto. }
  clear HU. rename HU' into HU.
  eapply (runs_bind _ _ _ _ (fun o e' => o = Some f /\ e' = set_frames fs (peak_frames e) e)).
  { unfold pop_frame. apply bind_get. rewrite Hfs. eapply (runs_bind _ _ _ _ (fun _ e' => e' = set_frames fs (peak_frames e) e)).
    - apply runs_put; [|by apply later_same|done]. destruct Hi as [A B C D E F G H]. split; simpl; try done. rewrite Hfs, len_cons in G. pose proof (len_nonneg fs). lia.
    - intros _ ? Hi1 _ ->. by apply runs_ret. }
  intros ? ? Hi1 L1 [-> ->]. set (e1 := set_frames fs (peak_frames e) e) in *. clear Hfs. change (vok e1 v) in Hv. change (forall name c, f = FrAssign (Global name) c -> globals e1 !! name = None -> U) in HU. change (frame_ok (nof e1) (heap e1) f) in Hf.
  generalize (next (roots e)) as key. intros key. clearbody e1. clear e Hi Hfs' L1. rename e1 into e, Hi1 into Hi. destruct Hf as (sizes & Hc & Hf). destruct f as [yes no c|rest nxt c|name c|b c|args c|function args nxt vs c]; simpl in Hc, Hf.
  - apply then_none. destruct Hf. case_bool_decide; by eapply eval_runs.
  - destruct Hf as [Hr Hl]. destruct (lookup_lt_is_Some_2 rest nxt Hl) as [id Hid]. eapply bind_expect; [done|]. pose proof (proj1 (Forall_lookup _ _) Hr _ _ Hid) as Hcode.
    case_bool_decide as Hmore.
    + eapply runs_bind; [apply frame_runs; [done|]; exists sizes; split; [done|by split]|]. intros _ e1 Hi1 L1 _. apply then_none. eapply eval_runs; [done|by apply (later_context _ _ L1)|done].
    + apply then_none. by eapply eval_runs.
  - eapply runs_bind; [by apply define_runs|]. intros _ e1 Hi1 L1 _. apply then_none. apply go_runs; [done| |done].
    split; [by apply (later_val _ _ L1)|]. exists sizes. by apply (later_context _ _ L1).
  - eapply runs_bind; [eapply cell_runs; [done|apply Hc|done|by intros name ->; eapply HU]|]. intros hd ? _ _ [-> Hcell]. apply bind_get. pose proof Hcell as (w & Hw). rewrite Hw.
    destruct (set_cell_runs e hd v Hi Hcell Hv) as [Hi1 L1]. apply (runs_bind _ _ _ _ (fun _ e' => e' = set_heap (heap_set (heap e) hd (OCell v)) e)); [by apply runs_put|]. intros _ ? _ _ ->. apply then_none. apply go_runs; [done| |done].
    split; [by apply (later_val _ _ L1)|]. exists sizes. by apply (later_context _ _ L1).
  - apply then_none. destruct args as [|first args]; [by eapply apply_runs|]. inversion Hf; subst. eapply frame_eval_runs; [done| |done|done].
    exists sizes. split; [done|]. split_and!; [done|simpl; lia|done|constructor].
  - apply then_none. destruct Hf as (Ha & Hl & Hfun & Hvs). assert (Forall (vok e) (vs ++ [v])) as Hvs' by (apply Forall_app; split; [done|by constructor]).
    case_bool_decide as Hend; [by eapply apply_runs|]. destruct (lookup_lt_is_Some_2 args nxt ltac:(lia)) as [id Hid]. eapply bind_expect; [done|].
    eapply frame_eval_runs; [done| |done|by eapply (proj1 (Forall_lookup _ _) Ha)]. exists sizes. split; [done|]. split_and!; [done|lia|done|done].
Qed.

(** A transition of a state that is running. *)
Lemma transition_runs e : engine_inv e -> (missing e (state e) -> U) -> eruns transition e (returned (next (roots e))).
Proof.
  intros Hi HU. unfold transition. apply bind_get. pose proof (ei_state _ Hi) as Hs. destruct (state e) as [|id c|v c|work vs c|work c|id op args c issued] eqn:Hst;
    (eapply (runs_bind _ _ _ _ (fun _ e' => e' = set_state MIdle e)); [apply runs_put; [destruct Hi; by split|by apply later_same|done]|]); intros _ ? Hi1 L1 ->; try apply then_none.
  - by apply go_runs.
  - by apply eval_step_runs.
  - apply (return_step_runs (set_state MIdle e)); [done|by destruct Hs|done].
  - by apply quote_step_runs.
  - by apply builtin_step_runs.
  - by apply go_runs.
Qed.
End transition.
