(* ===== verification/LispSession.v ===== *)
(** * The Lisp engine in the hands of its host

    A host makes an engine, registers functions, starts evaluations, runs them
    in slices, answers the calls they make, and holds values of the engine: all
    through the public operations, in any order.  Whatever it does, the engine
    keeps its invariant. *)

From Stdlib Require Import String.
From S2P Require Import Wire.
From S2P Require Import Prelude LispSyntax LispRead LispLower LispCompile LispHeap LispHeapInv LispLibrary LispMachine LispTyping LispSafe LispMachineInv LispTransition.

Open Scope Z_scope.

(** ** Collection *)

(** What an operation of the interface leaves to the values the host holds. *)
Record hosts (e e' : Engine) : Prop := {
  hs_roots : values (roots e) ⊆ values (roots e');
  hs_next : next (roots e) <= next (roots e');
  hs_identity : identity e' = identity e;
  hs_limits : limits e' = limits e;
  hs_dead hd : dead (heap e) hd -> dead (heap e') hd;
  hs_live hd : live (heap e) hd -> live (heap e') hd \/ dead (heap e') hd
}.

#[global] Instance hosts_preorder : PreOrder hosts.
Proof.
  split; [split; [done|done|done|done|done|by left]|]. intros e1 e2 e3 [A B C D E F] [A' B' C' D' E' F']. split; [by etransitivity|lia|congruence|congruence|auto|].
  intros hd Hl. destruct (F hd Hl); auto.
Qed.

Lemma later_hosts e e' : later e e' -> hosts e e'.
Proof.
  intros L. destruct L as [K N L I R X D]. split; try done. intros hd [o Ho]. left. destruct (kp_get _ _ _ K hd o Logic.I Ho) as (o' & Ho' & _). by exists o'.
Qed.

(** The heap did not change. *)
Lemma hosts_same e e' : values (roots e) ⊆ values (roots e') -> next (roots e) <= next (roots e') -> identity e' = identity e -> limits e' = limits e -> heap e' = heap e -> hosts e e'.
Proof. intros Hv Hn Hi Hl Hh. split; try done; rewrite Hh; [done|by left]. Qed.

Section collection.
Context `{Mem : Memory, !MemoryLaws Mem}.

(** A collection keeps everything the engine knows of. *)
Lemma engine_collect_inv e : engine_inv e ->
  exists h rel, engine_collect e = Some (Ok tt, set_released (released e ++ rel) (set_heap h e)) /\
    engine_inv (set_released (released e ++ rel) (set_heap h e)) /\ collected (heap e) (collect_roots e) rel h.
Proof.
  intros [[Hh Ho] Hl Hr Hg Hs Hf Hd Hn]. destruct (collect_wp _ _ (collect_roots e) Hh) as (rel & h & Hc & Hok & Hlim & Hcol). pose proof Hcol as (Hkeep & Hback & _).
  exists h, rel. split; [|split; [|exact Hcol]].
  { unfold engine_collect, mbind, M_bind, get, on_heap, limited, modify, put. simpl. by rewrite Hc. }
  set (R := reachable (heap e) (collect_roots e)). assert (keeps R (heap e) h) as K.
  { split; [intros hd o hd' Hhd Hget Hin; by eapply reach_step|]. intros hd o Hhd Hget. exists o. split; [by rewrite Hkeep|by left]. }
  assert (forall vs, (forall v, v ∈ vs -> v ∈ collect_roots e) -> inside R vs) as Hin by (intros vs Hvs hd Hhd; apply reach_root; auto).
  unfold collect_roots in Hin. split; simpl; try done.
  - split; [done|]. intros hd o Hget. destruct (Hback hd o Hget) as [Hreach Hget0]. eapply (keep_object R); [exact K|done|by eapply Ho|].
    intros hd' Hin'. by eapply reach_step.
  - congruence.
  - intros k v Hv. destruct (Hr k v Hv) as [Hval Hk]. split; [|done]. eapply (keep_val R); [exact K|done|done|]. apply Hin. intros w ->%list_elem_of_singleton.
    apply elem_of_app. left. apply list_elem_of_fmap. exists (k, v). split; [done|by apply elem_of_map_to_list].
  - intros k hd Hk. eapply (keep_cell R); [exact K|by eapply Hg|]. apply reach_root. unfold collect_roots. rewrite !elem_of_app. right. left. apply list_elem_of_fmap_2.
    apply list_elem_of_fmap. exists (k, hd). split; [done|by apply elem_of_map_to_list].
  - eapply (keep_state R); [exact K|done|done|]. apply Hin. intros v Hv. rewrite !elem_of_app. auto.
  - apply Forall_forall. intros f Hfin. eapply (keep_frame R); [exact K|done|by eapply (proj1 (Forall_forall _ _) Hf)|]. apply Hin. intros v Hv. rewrite !elem_of_app. do 3 right.
    apply list_elem_of_In, in_concat. exists (frame_roots f). split; [|by apply list_elem_of_In]. apply in_map. apply list_elem_of_In. by apply elem_of_reverse.
Qed.

(** ** Operations of the interface *)

(** Code of the interface: it never panics, keeps the invariant and the values
    of the host. *)
Definition druns {A} (m : M Engine Diagnostic A) (e : Engine) (Q : Prelude.result Diagnostic A -> Engine -> Prop) : Prop :=
  wp m e (fun r e' => engine_inv e' /\ hosts e e' /\ Q r e').

Lemma druns_bind {A B} (m : M Engine Diagnostic A) (f : A -> M Engine Diagnostic B) e Q Q' :
  druns m e Q -> (forall a e', engine_inv e' -> hosts e e' -> Q (Ok a) e' -> druns (f a) e' Q') ->
  (forall d e', engine_inv e' -> hosts e e' -> Q (Err d) e' -> Q' (Err d) e') -> druns (m ≫= f) e Q'.
Proof.
  intros Hm Hf He. apply wp_bind. eapply wp_mono; [exact Hm|]. intros r e1 (Hi & Hh & Hq). destruct r as [a|d]; [|by split_and!; auto].
  eapply wp_mono; [by apply Hf|]. intros r e2 (Hi2 & Hh2 & Hq2). split_and!; [done|by etransitivity|done].
Qed.

Lemma druns_mono {A} (m : M Engine Diagnostic A) e (Q Q' : Prelude.result Diagnostic A -> Engine -> Prop) :
  druns m e Q -> (forall r e', engine_inv e' -> hosts e e' -> Q r e' -> Q' r e') -> druns m e Q'.
Proof. intros Hm Hf. eapply wp_mono; [exact Hm|]. intros r e' (Hi & Hh & Hq). split_and!; auto. Qed.

Lemma druns_ret {A} (a : A) e (Q : Prelude.result Diagnostic A -> Engine -> Prop) : engine_inv e -> Q (Ok a) e -> druns (mret a) e Q.
Proof. intros Hi Hq. unfold druns, wp. simpl. by split_and!. Qed.

Lemma druns_fail {A} d e (Q : Prelude.result Diagnostic A -> Engine -> Prop) : engine_inv e -> Q (Err d) e -> druns (fail d) e Q.
Proof. intros Hi Hq. unfold druns, wp. simpl. by split_and!. Qed.

Lemma druns_get {B} (f : Engine -> M Engine Diagnostic B) e Q : druns (f e) e Q -> druns (get ≫= f) e Q.
Proof. done. Qed.

(** Code of the machine in the interface. *)
Lemma as_api_runs {A} (U : Prop) (m : M Engine ErrorKind A) e (Q : A -> Engine -> Prop) : runs_ok (engine_discipline U) m e Q ->
  druns (as_api m) e (fun r e' => later e e' /\ match r with Ok a => Q a e' | Err d => engine_err U (kind d) end).
Proof.
  intros Hm. unfold druns, as_api, runs_ok, wp in *. destruct (m e) as [[r e']|]; [|done]. destruct Hm as (Hi & L & Hr).
  destruct r as [a|k]; (split; [done|]); (split; [by apply later_hosts|]); done.
Qed.

(** Reading a root: it belongs to another engine, or is one of the registry. *)
Definition known (e : Engine) (r : RootValue) : Prop := rv_roots r = identity e -> pinned r e.

Lemma known_hosts e e' r : hosts e e' -> known e r -> known e' r.
Proof.
  intros [A B C D] Hk Hr. rewrite C in Hr. destruct (Hk Hr) as [Hp Hi]. split; [by eapply lookup_weaken|congruence].
Qed.

Lemma pinned_vok e r : engine_inv e -> pinned r e -> vok e (rv_value r).
Proof. intros Hi [Hp _]. by destruct (ei_roots _ Hi _ _ Hp). Qed.

(** A new root, of a key from [k] on. *)
Definition fresh (k : Z) (e : Engine) (r : RootValue) : Prop := pinned r e /\ k <= rv_key r < next (roots e).

Lemma pin_druns e v : engine_inv e -> vok e v ->
  druns (pin v) e (fun r e' => later e e' /\ exists rv, r = Ok rv /\ rv_value rv = v /\ fresh (next (roots e)) e' rv /\ rv_key rv = next (roots e) /\ next (roots e') = next (roots e) + 1).
Proof.
  intros Hi Hv. pose proof (pin_runs (U := True) e v Hi Hv) as Hp. unfold druns, runs_ok, wp in *. unfold pin, mbind, M_bind, get, put, mret, M_ret in *. simpl in *.
  destruct Hp as (Hi' & L & Hpin & _). split; [done|]. split; [by apply later_hosts|]. split; [done|]. eexists. split; [done|]. split; [done|]. split; [|done].
  split; [done|]. simpl. lia.
Qed.

Definition all_fresh (k : Z) (e : Engine) (rs : list RootValue) : Prop := Forall (fresh k e) rs /\ NoDup (map rv_key rs).

Lemma fresh_mono k k' e e' r : hosts e e' -> k' <= k -> fresh k e r -> fresh k' e' r.
Proof.
  intros Hh Hk [Hp Hr]. assert (pinned r e') as Hp' by (apply (known_hosts e e' r Hh); [by intros _|destruct Hp; rewrite (hs_identity _ _ Hh); congruence]). split; [done|].
  pose proof (hs_next _ _ Hh). lia.
Qed.

Lemma pin_all_druns vs : forall e, engine_inv e -> Forall (vok e) vs ->
  druns (pin_all vs) e (fun r e' => exists rs, r = Ok rs /\ all_fresh (next (roots e)) e' rs /\ map rv_value rs = vs).
Proof.
  induction vs as [|v vs IH]; intros e Hi Hv; simpl.
  { apply druns_ret; [done|]. exists []. split_and!; [done| |done]. split; [constructor|constructor]. }
  inversion Hv as [|?? Hv1 Hv2]; subst. eapply druns_bind; [by apply pin_druns| |by intros ? ? ? ? (_ & ? & ? & _)].
  intros a e1 Hi1 H1 (L1 & rv & [= ->] & Hrv & Hf & Hk & Hn). eapply druns_bind; [apply IH; [done|by apply (later_vals _ _ L1)]| |by intros ? ? ? ? (? & ? & _)].
  intros b e2 Hi2 H2 (rs & [= ->] & [Hfs Hnd] & Hvs). apply druns_ret; [done|]. exists (rv :: rs). split_and!; [done| |simpl; by rewrite Hrv, Hvs].
  split; [constructor; [by eapply fresh_mono|]|].
  - eapply Forall_impl; [exact Hfs|]. intros x Hx. eapply fresh_mono; [reflexivity| |exact Hx]. lia.
  - simpl. constructor; [|done]. intros Hin. apply list_elem_of_fmap in Hin as (x & Hx & Hxin). pose proof (proj1 (Forall_forall _ _) Hfs x Hxin) as [_ Hkx]. lia.
Qed.

(** ** Running *)

Lemma cancel_inv e : engine_inv e -> engine_inv (set_frames [] (peak_frames e) (set_state MIdle e)).
Proof. intros [A B C D E F G H]. split; simpl; try done. unfold len in *. simpl. lia. Qed.

Definition step_answer (k : Z) (s : Step) (e : Engine) : Prop :=
  match s with
  | Yielded => True
  | Request c => all_fresh k e (call_arguments c)
  | Done r => fresh k e r
  | Failed d => evaluation_error (kind d)
  end.

Lemma returned_fresh k r e : engine_inv e -> returned k (Some r) e -> fresh k e r.
Proof. intros Hi [Hp Hk]. split; [done|]. destruct Hp as [Hp _]. pose proof (ei_roots _ Hi _ _ Hp) as [_ Hlt]. lia. Qed.

Lemma attempt_druns e sp : engine_inv e -> state_span (state e) = Some sp ->
  druns attempt e (fun r e' => exists x, r = Ok x /\ match x with Ok (Some r) => fresh (next (roots e)) e' r | Ok None => True
    | Err d => evaluation_error (kind d) /\ (kind d = Unbound -> missing e (state e)) end).
Proof.
  intros Hi Hsp. pose proof (transition_runs (U := missing e (state e)) e Hi ltac:(done)) as Ht. unfold druns, attempt, runs_ok, wp in *. rewrite Hsp.
  destruct (transition e) as [[[r|k] e']|]; [| |done]; destruct Ht as (Hi' & L & Hr).
  - split; [done|]. split; [by apply later_hosts|]. eexists. split; [done|]. destruct r as [r|]; [|done]. by apply returned_fresh.
  - simpl. split; [by apply cancel_inv|]. split; [transitivity e'; [by apply later_hosts|by apply hosts_same]|]. by eexists.
Qed.

Lemma collect_druns e : engine_inv e ->
  druns (as_api engine_collect) e (fun r e' => r = Ok tt /\ roots e' = roots e /\ state e' = state e /\ natives e' = natives e /\ identity e' = identity e).
Proof.
  intros Hi. destruct (engine_collect_inv e Hi) as (h & rel & Hc & Hi' & Hkeep & _ & Hdead & Hfreed & _). unfold druns, wp, as_api. rewrite Hc. split; [done|]. split; [|by split_and!].
  split; try done; simpl. intros hd Hl. destruct (heap_get h hd) as [o|] eqn:Hg; [left; by exists o|right]. apply Hfreed; [done|].
  intros Hr. destruct Hl as [o Ho]. rewrite (Hkeep hd Hr) in Hg. congruence.
Qed.

(** Running never fails as such, whatever the budget. *)
Lemma step_druns budget : forall e, engine_inv e ->
  druns (step budget) e (fun r e' => exists s, r = Ok s /\ step_answer (next (roots e)) s e').
Proof.
  induction budget as [|budget IH]; intros e Hi; cbn [step]; [apply druns_ret; eauto; by exists Yielded|]. apply druns_get.
  pose proof (ei_state _ Hi) as Hs.
  assert (forall sp, state_span (state e) = Some sp ->
    druns ((if object_budget (heap e) / 2 <? used (heap e) then as_api engine_collect else mret tt) ;;
          r ← attempt; match r with Ok (Some v) => mret (Done v) | Ok None => step budget | Err d => mret (Failed d) end) e
      (fun r e' => exists s, r = Ok s /\ step_answer (next (roots e)) s e')) as Hrun.
  { intros sp Hsp. apply (druns_bind _ _ _ (fun r e' => r = Ok tt /\ roots e' = roots e /\ state e' = state e)).
    - destruct (_ <? _); [|by apply druns_ret]. eapply druns_mono; [by apply collect_druns|]. intros r e1 _ _ (-> & Hr & Hst & _). by split_and!.
    - intros [] e1 Hi1 H1 (_ & Hr & Hst). eapply druns_bind; [apply (attempt_druns e1 sp); [done|by rewrite Hst]| |by intros ? ? ? ? (? & ? & _)].
      intros x e2 Hi2 H2 (y & [= ->] & Hy). rewrite Hr in Hy. destruct y as [[r|]|d].
      + apply druns_ret; [done|]. by exists (Done r).
      + eapply druns_mono; [by apply IH|]. intros r e3 _ H3 (s & -> & Hans). exists s. split; [done|]. pose proof (hs_next _ _ H2). rewrite Hr in H.
        destruct s as [|c|r|d]; simpl in *; try done.
        * destruct Hans as [Hf Hnd]. split; [|done]. eapply Forall_impl; [exact Hf|]. intros x Hx. eapply fresh_mono; [reflexivity| |exact Hx]. lia.
        * eapply fresh_mono; [reflexivity| |exact Hans]. lia.
      + apply druns_ret; [done|]. exists (Failed d). split; [done|]. apply Hy.
    - by intros ? ? ? ? (? & _). }
  destruct (state e) as [|id c|v c|work vs c|work c|id op args c issued] eqn:Hst; try (by eapply Hrun).
  - apply druns_ret; [done|]. by exists Yielded.
  - destruct issued; [apply druns_ret; [done|]; by exists Yielded|].
    apply (druns_bind _ _ _ (fun r e' => r = Ok tt /\ e' = set_state (MWaiting id op args c true) e)).
    + unfold druns, wp. simpl. split; [destruct Hi; by split|]. split; [by apply hosts_same|done].
    + intros [] ? Hi1 H1 [_ ->]. destruct Hs as [Ha Hc]. eapply druns_bind; [by apply pin_all_druns| |by intros ? ? ? ? (? & ? & _)].
      intros rs e2 Hi2 H2 (rs' & [= ->] & Hf & _). apply druns_ret; [done|]. eexists. split; [done|]. done.
    + by intros ? ? ? ? (? & _).
Qed.
End collection.
