(* ===== verification/LispHost.v ===== *)
(** * What a host can do with a Lisp engine

    Every public operation as one action, the sessions a host can have with an
    engine, and that no session ends in a panic, a stale value or a name the
    compiler bound that is not there. *)

From Stdlib Require Import String.
From S2P Require Import Wire.
From S2P Require Import Prelude LispSyntax LispRead LispLower LispCompile LispHeap LispHeapInv LispLibrary LispMachine LispTyping LispSafe LispMachineInv LispTransition LispSession.

Open Scope Z_scope.

(** ** Forms that the reader can give *)

Definition sexp_of (f : Form) (s : sexp) : Prop := denotes (nodes f) (root f) s /\ nodes_ok (nodes f).

Definition from_nodes (ns : list Node) (st st' : Lowering) : Prop :=
  forall i a sp, l_expressions st' !! i = Some (mkExpression (ELiteral a) sp) ->
    l_expressions st !! i = Some (mkExpression (ELiteral a) sp) \/ exists j n, ns !! j = Some n /\ datum n = DAtom a.

#[global] Instance from_nodes_preorder ns : PreOrder (from_nodes ns).
Proof.
  split; [intros st i a sp Hi; by left|]. intros s1 s2 s3 H1 H2 i a sp Hi. destruct (H2 i a sp Hi) as [H|H]; [by apply H1 in H|by right].
Qed.

Section lowered.
Context (f : Form).
Abbreviation R := (from_nodes (nodes f)).

Lemma preserves_update (g : Lowering -> Lowering) {B} (k : Lowering -> B) : (forall st, l_expressions (g st) = l_expressions st) ->
  preserves R (st ← get; put (E := Diagnostic) (g st) ;; mret (k st)).
Proof. intros Hg st r st' [= _ <-] i a sp Hi. left. by rewrite Hg in Hi. Qed.

Lemma preserves_put (g : Lowering -> Lowering) : (forall st, l_expressions (g st) = l_expressions st) -> preserves R (st ← get; put (E := Diagnostic) (g st)).
Proof. intros Hg st r st' [= _ <-] i a sp Hi. left. by rewrite Hg in Hi. Qed.

Lemma preserves_push e sp : (forall a, e = ELiteral a -> exists j n, nodes f !! j = Some n /\ datum n = DAtom a) -> preserves R (push e sp).
Proof.
  intros He st r st' H i a s Hi. unfold push in H. munfold_in H. injection H as _ <-. simpl in Hi.
  destruct (decide (i < length (l_expressions st)))%nat as [Hl|Hl]; [left; by rewrite lookup_app_l in Hi|right].
  rewrite lookup_app_r in Hi by lia. destruct (i - length (l_expressions st))%nat as [|k]; [|by destruct k]. injection Hi as -> _. by apply He.
Qed.

Lemma preserves_result e sp : (forall a, e = ELiteral a -> exists j n, nodes f !! j = Some n /\ datum n = DAtom a) -> preserves R (LispLower.result e sp).
Proof.
  intros He. unfold LispLower.result. apply preserves_bind; [apply _|by apply preserves_push|]. intros id. unfold push_result.
  by apply (preserves_put (fun st => mkLowering (l_work st) (l_scopes st) (l_results st ++ [id]) (l_expressions st))).
Qed.

Lemma preserves_push_work ws : preserves R (push_work ws).
Proof. by apply (preserves_put (fun st => mkLowering (ws ++ l_work st) (l_scopes st) (l_results st) (l_expressions st))). Qed.

Lemma preserves_push_scope p ns : preserves R (push_scope p ns).
Proof.
  by apply (preserves_update (fun st => mkLowering (l_work st) (l_scopes st ++ [mkScopeFrame p ns]) (l_results st) (l_expressions st)) (fun st => Some (length (l_scopes st)))).
Qed.

Lemma preserves_split_off n : preserves R (split_off n).
Proof. intros st r st' H. unfold split_off in H. munfold_in H. case_bool_decide; [|done]. injection H as _ <-. intros i a sp Hi. by left. Qed.

#[local] Hint Extern 0 (PreOrder _) => apply _ : preserve.

Lemma preserves_binding name scope : preserves R (binding name scope).
Proof. unfold binding. auto with preserve. Qed.

Lemma preserves_symbol id : preserves R (symbol f id).
Proof. unfold symbol. auto with preserve. Qed.

Lemma preserves_list id : preserves R (list_ f id).
Proof. unfold list_. auto with preserve. Qed.

#[local] Hint Resolve preserves_push_work preserves_push_scope preserves_split_off preserves_binding preserves_symbol preserves_list : preserve.

Lemma preserves_parameters ids : forall ps, preserves R (parameters_from f ids ps).
Proof. induction ids as [|id ids IH]; intros ps; simpl; auto 10 with preserve. Qed.

Lemma preserves_let_pairs sp bs : preserves R (let_pairs f sp bs).
Proof. induction bs as [|b bs IH]; simpl; auto 20 with preserve. Qed.

#[local] Hint Resolve preserves_parameters preserves_let_pairs : preserve.

Lemma preserves_plain e sp : (forall a, e <> ELiteral a) -> preserves R (LispLower.result e sp).
Proof. intros He. apply preserves_result. intros a ->. by destruct (He a). Qed.

#[local] Hint Extern 1 (preserves _ (LispLower.result _ _)) => (apply preserves_plain; discriminate) : preserve.

Lemma preserves_visit_list sp scope top items first : preserves R (visit_list f sp scope top items first).
Proof. unfold visit_list, parameters. auto 30 with preserve. Qed.

Lemma preserves_visit id scope top : preserves R (visit f id scope top).
Proof.
  unfold visit. intros st r st' H. unfold mbind at 1, M_bind at 1, expect at 1 in H. destruct (nodes f !! id) as [n|] eqn:Hn; [|done]. revert H.
  cut (preserves R (let sp := span n in match datum n with
    | DAtom (ASymbol s) => b ← binding s scope; LispLower.result (EReference b) sp
    | DAtom atom => LispLower.result (ELiteral atom) sp
    | DQuote q => LispLower.result (EQuote q) sp
    | DList _ (Some _) => fail (diagnostic Syntax sp)
    | DList [] None => LispLower.result (EQuote id) sp
    | DList (first :: items) None => visit_list f sp scope top (first :: items) first
    end)); [intros Hp H; by eapply Hp|]. cbn zeta.
  destruct (datum n) as [a|items t|q] eqn:Hd; [|destruct t, items; auto using preserves_visit_list with preserve|auto with preserve].
  destruct a; try (apply preserves_result; intros ? [= <-]; by exists id, n). auto with preserve.
Qed.

Lemma preserves_built (m : M Lowering Diagnostic Expr) sp : preserves R m -> (forall st e st', m st = Some (Ok e, st') -> forall a, e <> ELiteral a) ->
  preserves R (e ← m; LispLower.result e sp).
Proof.
  intros Hm Hn st r st' H. unfold mbind, M_bind in H. destruct (m st) as [[[e|d] st1]|] eqn:Hr; [|by injection H as _ <-; eapply Hm|done].
  transitivity st1; [by eapply Hm|]. eapply preserves_plain; [|exact H]. by eapply Hn.
Qed.

Lemma preserves_build b sp : preserves R (build b sp).
Proof.
  unfold build. apply preserves_bind; [apply _|auto with preserve|]. intros parts. apply preserves_built.
  - destruct b; auto 10 with preserve. apply preserves_bind; [apply _|auto with preserve|]. intros body. apply preserves_bind; [apply _| |auto with preserve].
    by apply preserves_push.
  - intros st e st' H a. destruct b; minv H; try done; unfold push in H; munfold_in H; by simplify_eq/=.
Qed.

Lemma preserves_lower_loop fuel : preserves R (lower_loop fuel f).
Proof.
  induction fuel as [|fuel IH]; [by intros ? ? ?|]. cbn [lower_loop]. intros st r st' H. unfold mbind at 1, M_bind at 1, get at 1 in H.
  destruct (l_work st) as [|w ws]; [injection H as _ <-; reflexivity|]. revert H.
  set (m := match w with Visit id scope top => visit f id scope top | Build_ b s => build b s end).
  assert (preserves R m) as Hm by (destruct w; [apply preserves_visit|apply preserves_build]).
  assert (preserves R (m ;; lower_loop fuel f)) as Hall by (apply preserves_bind; [apply _|done|done]).
  intros H. set (st1 := mkLowering ws (l_scopes st) (l_results st) (l_expressions st)) in *. transitivity st1; [intros i a sp Hi; by left|]. by eapply Hall.
Qed.

(** The literals of a compiled form are its atoms. *)
Lemma lower_literals fuel m st' : nodes_ok (nodes f) -> lower fuel f (mkLowering [] [] [] []) = Some (Ok m, st') -> literals_ok (expressions m).
Proof.
  intros Hn H. unfold lower in H. minv H. intros i x sp Hi. simpl in Hi.
  destruct (preserves_lower_loop _ _ _ _ H0 i x sp Hi) as [Hx|(j & n & Hj & Hd)]; [done|]. by eapply Hn.
Qed.
End lowered.

(** ** Actions *)

Inductive action :=
| HStart (fuel : nat) (f : Form)
| HStep (budget : nat)
| HResume (id : Z) (r : option RootValue)
| HCancel
| HCollect
| HReleased
| HInteger (n : Z)
| HBoolean (b : bool)
| HNil
| HString (s : list Z)
| HBytes (b : list Z)
| HSymbol (s : list Z)
| HCons (a b : RootValue)
| HList (vs : list RootValue)
| HForeign (id : ForeignId) (kind : list Z)
| HForeignId (r : RootValue)
| HText (r : RootValue)
| HByteSlice (r : RootValue)
| HPair (r : RootValue)
| HKind (r : RootValue)
| HRegister (name : list Z) (operation : Z) (arity : Arity)
| HClone (r : RootValue)
| HDrop (r : RootValue).

(** What the host gets: new roots, and the step it ran. *)
Record answer := mkAnswer { new_roots : list RootValue; stepped : option Step }.

Definition step_roots (s : Step) : list RootValue :=
  match s with Done r => [r] | Request c => call_arguments c | _ => [] end.

Section host.
Context `{Memory}.

Abbreviation DM := (M Engine Diagnostic).

Definition no_root {A} (m : DM A) : DM answer := m ;; mret (mkAnswer [] None).
Definition one_root (m : DM RootValue) : DM answer := r ← m; mret (mkAnswer [r] None).

Definition perform (a : action) : DM answer :=
  match a with
  | HStart fuel f => no_root (start fuel f)
  | HStep budget => s ← step budget; mret (mkAnswer (step_roots s) (Some s))
  | HResume id r => no_root (resume id r)
  | HCancel => no_root cancel
  | HCollect => no_root (as_api engine_collect)
  | HReleased => no_root take_released
  | HInteger n => one_root (integer_value n)
  | HBoolean b => one_root (boolean_value b)
  | HNil => one_root nil_value
  | HString s => one_root (string_value s)
  | HBytes b => one_root (bytes_value b)
  | HSymbol s => one_root (symbol_value s)
  | HCons a b => one_root (cons_ a b)
  | HList vs => one_root (list_value vs)
  | HForeign id kind => one_root (foreign_value id kind)
  | HForeignId r => no_root (foreign_id r)
  | HText r => no_root (text r)
  | HByteSlice r => no_root (byte_slice r)
  | HPair r => p ← pair_value r; mret (mkAnswer (match p with Some (a, b) => [a; b] | None => [] end) None)
  | HKind r => no_root (kind_of r)
  | HRegister name operation arity => no_root (register name operation arity)
  | HClone r => one_root (pin (rv_value r))
  | HDrop r => no_root (unpin r)
  end.

(** The roots an action is given. *)
Definition given (a : action) : list RootValue :=
  match a with
  | HResume _ (Some r) | HForeignId r | HText r | HByteSlice r | HPair r | HKind r => [r]
  | HCons a b => [a; b]
  | HList vs => vs
  | _ => []
  end.

(** What a host can do with the roots it holds.  Roots of other engines are
    refused wherever they are given; cloning and dropping one is an action on
    that other engine.  Texts, bytes and numbers are those of their types. *)
Definition allowed (e : Engine) (held : list RootValue) (a : action) : Prop :=
  Forall (fun r => r ∈ held \/ rv_roots r <> identity e) (given a) /\
  match a with
  | HStart fuel f => exists s, sexp_of f s /\ (4 * ssize s < fuel)%nat
  | HInteger n => int_ok n
  | HString s | HSymbol s => str_ok s
  | HBytes b => bytes_ok b
  | HClone r | HDrop r => r ∈ held
  | _ => True
  end.

Definition without (r : RootValue) (held : list RootValue) : list RootValue :=
  List.filter (fun x => negb ((rv_key x =? rv_key r) && (rv_roots x =? rv_roots r))) held.

Definition held_after (a : action) (held : list RootValue) (r : Prelude.result Diagnostic answer) : list RootValue :=
  match a with
  | HDrop r | HResume _ (Some r) => without r held
  | _ => held
  end ++ match r with Ok x => new_roots x | Err _ => [] end.

Inductive session (l : Limits) (identity : Z) : Engine -> list RootValue -> Prop :=
| se_new e0 e : Engine_new l identity e0 = Some (Ok tt, e) -> session l identity e []
| se_act e held a r e' : session l identity e held -> allowed e held a -> perform a e = Some (r, e') -> session l identity e' (held_after a held r).

(** What follows in a session. *)
Inductive goes_on (e : Engine) (held : list RootValue) : Engine -> list RootValue -> Prop :=
| go_on_here : goes_on e held e held
| go_on_act e1 held1 a r e2 : goes_on e held e1 held1 -> allowed e1 held1 a -> perform a e1 = Some (r, e2) -> goes_on e held e2 (held_after a held1 r).
End host.

(** ** The operations of the interface *)

Section operations.
Context `{Mem : Memory, !MemoryLaws Mem}.

Lemma value_druns e r : engine_inv e -> known e r ->
  druns (value r) e (fun res e' => e' = e /\ match res with
    | Ok v => v = rv_value r /\ vok e v /\ rv_roots r = identity e
    | Err d => kind d = StaleValue /\ rv_roots r <> identity e end).
Proof.
  intros Hi Hk. unfold value. apply druns_get. destruct (rv_roots r =? identity e) eqn:Hr; simpl; to_prop.
  - apply druns_ret; [done|]. split_and!; [done|done| |done]. by eapply pinned_vok, Hk.
  - by apply druns_fail.
Qed.

Lemma engine_alloc_err o e k e' : engine_alloc o e = Some (Err k, e') -> k = ResourceLimit.
Proof.
  unfold engine_alloc, on_heap, lib_alloc, limited, mbind, M_bind. destruct (alloc o (heap e)) as [[[hd|[]] h]|]; simpl; [done| |done]. by intros [= <- _].
Qed.

(** A new object for the host: garbage is collected first. *)
Lemma object_druns e o : engine_inv e -> first_class o ->
  (forall e', engine_inv e' -> hosts e e' -> object_ok (nof e') (heap e') o) ->
  druns (object_ o) e (fun r e' => match r with Ok rv => fresh (next (roots e)) e' rv | Err d => kind d = ResourceLimit end).
Proof.
  intros Hi Hfc Ho. unfold object_. eapply druns_bind; [by apply collect_druns| |by intros ? ? ? ? (? & _)].
  intros [] e1 Hi1 H1 (_ & Hr & Hs & Hn & Hid). specialize (Ho e1 Hi1 H1).
  apply (druns_bind _ _ _ (fun r e2 => match r with Ok v => vok e2 v | Err d => kind d = ResourceLimit end)).
  - pose proof (engine_alloc_runs (U := True) e1 o Hi1 Ho) as Ha. unfold druns, runs_ok, wp, as_api in *.
    destruct (engine_alloc o e1) as [[[v|k] e2]|] eqn:He; [| |done]; destruct Ha as (Hi2 & L & Hq); (split; [done|]); (split; [by apply later_hosts|]).
    + destruct Hq as (hd & -> & Hg). by exists o.
    + by eapply engine_alloc_err.
  - intros v e2 Hi2 H2 Hv. eapply druns_mono; [by apply pin_druns|]. intros r e3 Hi3 H3 (_ & rv & -> & _ & Hf & _).
    eapply fresh_mono; [reflexivity| |exact Hf]. pose proof (hs_next _ _ H1). pose proof (hs_next _ _ H2). lia.
  - done.
Qed.

(** An error of the interface: a root of another engine, or no memory. *)
Definition refused (e : Engine) (rs : list RootValue) (d : Diagnostic) : Prop :=
  kind d = ResourceLimit \/ kind d = StaleValue /\ exists r, r ∈ rs /\ rv_roots r <> identity e.

Lemma cons_druns e a b : engine_inv e -> known e a -> known e b ->
  druns (cons_ a b) e (fun r e' => match r with Ok rv => fresh (next (roots e)) e' rv | Err d => refused e [a; b] d end).
Proof.
  intros Hi Ha Hb. unfold cons_. eapply druns_bind; [by apply value_druns| |].
  2: { intros d e' _ _ (_ & Hk & Hr). right. split; [done|]. exists a. split; [left|done]. }
  intros va ? _ _ (-> & -> & Hva & Hra). eapply druns_bind; [by apply value_druns| |].
  2: { intros d e' _ _ (_ & Hk & Hr). right. split; [done|]. exists b. split; [right; left|done]. }
  intros vb ? _ _ (-> & -> & Hvb & Hrb). eapply druns_mono; [apply object_druns; [done|done|]|].
  - intros e' Hi' Hh. split; (eapply pinned_vok; [done|]); [apply (known_hosts e e' a Hh Ha)|apply (known_hosts e e' b Hh Hb)]; by rewrite (hs_identity _ _ Hh).
  - intros [rv|d] e' _ _ Hq; [done|by left].
Qed.

(** Dropping a root that was not there in [e0]. *)
Lemma unpin_wp e0 e r : engine_inv e0 -> engine_inv e -> hosts e0 e -> next (roots e0) <= rv_key r ->
  wp (unpin (E := Diagnostic) r) e (fun x e' => x = Ok tt /\ engine_inv e' /\ hosts e0 e' /\
    (forall k, k <> rv_key r -> values (roots e') !! k = values (roots e) !! k) /\ next (roots e') = next (roots e) /\ identity e' = identity e).
Proof.
  intros Hi0 Hi Hh Hk. unfold wp. simpl. split; [done|]. split.
  { destruct Hi as [A B C D E F G K]. split; simpl; try done. intros k v [_ Hv]%lookup_delete_Some. by apply C. }
  split; [|split_and!; [|done|done]; intros k Hne; by rewrite lookup_delete_ne].
  destruct Hh as [A B C D]. split; try done. simpl. apply map_subseteq_spec. intros k v Hv. rewrite lookup_delete_ne; [by eapply lookup_weaken|].
  intros <-. pose proof (ei_roots _ Hi0 _ _ Hv) as [_ Hlt]. lia.
Qed.

Lemma list_from_wp e0 vs : engine_inv e0 -> forall e out, engine_inv e -> hosts e0 e -> Forall (known e0) vs -> fresh (next (roots e0)) e out ->
  wp (list_from vs out) e (fun r e' => engine_inv e' /\ hosts e0 e' /\ match r with Ok rv => fresh (next (roots e0)) e' rv | Err d => refused e0 vs d end).
Proof.
  intros Hi0. induction vs as [|v vs IH]; intros e out Hi Hh Hk Hf; simpl; [done|]. inversion Hk as [|?? Hk1 Hk2]; subst.
  assert (known e v) as Hkv by (by eapply known_hosts). destruct Hf as [Hp Hkey].
  pose proof (cons_druns e v out Hi Hkv ltac:(by intros _)) as Hc. unfold druns, wp in Hc. apply wp_bind. unfold wp at 1, on_err.
  destruct (cons_ v out e) as [[[r|d] e1]|]; [| |done]; destruct Hc as (Hi1 & H1 & Hq).
  - apply wp_bind. assert (hosts e0 e1) as H01 by (by etransitivity). pose proof (unpin_wp e0 e1 out Hi0 Hi1 H01 ltac:(lia)) as Hu. unfold wp in Hu |- *.
    destruct (unpin out e1) as [[x e2]|]; [|done]. destruct Hu as (-> & Hi2 & H2 & Hoth & Hn & Hid). eapply wp_mono; [apply IH; [done|done|done|]|].
    + destruct Hq as [[Hpr Hir] Hkr]. pose proof (hs_next _ _ Hh). split; [|lia]. split; [|congruence]. rewrite Hoth; [done|lia].
    + intros r' e3 (Hi3 & H3 & Hr3). split_and!; [done|done|]. destruct r' as [rv|d]; [done|]. destruct Hr3 as [|(? & x & Hx & ?)]; [by left|right].
      split; [done|]. exists x. split; [by right|done].
  - assert (hosts e0 e1) as H01 by (by etransitivity). pose proof (unpin_wp e0 e1 out Hi0 Hi1 H01 ltac:(lia)) as Hu. unfold mbind, M_bind, fail. unfold wp in Hu.
    destruct (unpin out e1) as [[x e2]|]; [|done]. destruct Hu as (-> & Hi2 & H2 & _). split_and!; [done|done|].
    destruct Hq as [|(? & x & Hx & Hne)]; [by left|right]. split; [done|]. rewrite (hs_identity _ _ Hh) in Hne. apply elem_of_cons in Hx as [->|Hx]; [exists v; split; [left|done]|].
    apply list_elem_of_singleton in Hx as ->. destruct Hp as [_ Hp]. rewrite (hs_identity _ _ Hh) in Hp. done.
Qed.

Lemma list_druns e vs : engine_inv e -> Forall (known e) vs ->
  druns (list_value vs) e (fun r e' => match r with Ok rv => fresh (next (roots e)) e' rv | Err d => refused e vs d end).
Proof.
  intros Hi Hk. unfold list_value, nil_value. apply wp_bind. eapply wp_mono; [by apply pin_druns|]. intros r e1 (Hi1 & H1 & (_ & rv & -> & _ & Hf & _)).
  eapply wp_mono; [apply (list_from_wp e); [done|done|done|by apply Forall_reverse|done]|]. intros r e2 (Hi2 & H2 & Hr). split_and!; [done|done|].
  destruct r as [x|d]; [done|]. destruct Hr as [|(? & x & Hx & ?)]; [by left|right]. split; [done|]. exists x. by rewrite elem_of_reverse in Hx.
Qed.

Lemma object_read_druns e r : engine_inv e -> known e r ->
  druns (object_read r) e (fun res e' => e' = e /\ match res with
    | Ok o => forall x, o = Some x -> object_ok (nof e) (heap e) x
    | Err d => refused e [r] d end).
Proof.
  intros Hi Hk. unfold object_read. eapply druns_bind; [by apply value_druns| |].
  - intros v ? _ _ (-> & -> & Hv & Hr). apply druns_get, druns_ret; [done|]. split; [done|]. intros x Hx. destruct (rv_value r) as [| | |hd| |]; try done.
    by eapply (proj2 (ei_heap _ Hi)).
  - intros d ? _ _ (-> & Hd & Hr). split; [done|]. right. split; [done|]. exists r. split; [left|done].
Qed.

Lemma pair_druns e r : engine_inv e -> known e r ->
  druns (pair_value r) e (fun res e' => match res with
    | Ok (Some (a, b)) => all_fresh (next (roots e)) e' [a; b]
    | Ok None => True
    | Err d => refused e [r] d end).
Proof.
  intros Hi Hk. unfold pair_value. eapply druns_bind; [by apply object_read_druns| |by intros d ? _ _ [-> Hd]].
  intros o ? _ _ [-> Ho]. destruct o as [[| | |a b| | | |]|]; try (by apply druns_ret). destruct (Ho _ eq_refl) as [Ha Hb].
  eapply druns_bind; [by apply pin_druns| |by intros ? ? ? ? (_ & ? & ? & _)]. intros ra e1 Hi1 H1 (L1 & rv & [= ->] & _ & Hfa & Hka & Hna).
  eapply druns_bind; [apply pin_druns; [done|by apply (later_val _ _ L1)]| |by intros ? ? ? ? (_ & ? & ? & _)].
  intros rb e2 Hi2 H2 (L2 & rv2 & [= ->] & _ & Hfb & Hkb & Hnb). apply druns_ret; [done|]. split.
  - constructor; [by eapply fresh_mono|]. constructor; [|constructor]. eapply fresh_mono; [reflexivity| |exact Hfb]. lia.
  - simpl. repeat constructor; rewrite ?list_elem_of_singleton, ?elem_of_nil; [lia|tauto].
Qed.

Lemma kind_druns e r : engine_inv e -> known e r ->
  druns (kind_of r) e (fun res e' => e' = e /\ match res with Ok _ => True | Err d => refused e [r] d end).
Proof.
  intros Hi Hk. unfold kind_of. eapply druns_bind; [by apply value_druns| |].
  - intros v ? _ _ (-> & -> & Hv & Hr). destruct (rv_value r) as [| | |hd| |]; try (by apply druns_ret). apply druns_get.
    destruct Hv as (o & Ho & Hfc). rewrite Ho. by destruct o; try done; apply druns_ret.
  - intros d ? _ _ (-> & Hd & Hr). split; [done|]. right. split; [done|]. exists r. split; [left|done].
Qed.

Lemma define_err name v e k e' : define name v e = Some (Err k, e') -> k = StaleValue \/ k = ResourceLimit.
Proof.
  unfold define, mbind, M_bind, get, lift, fail, on_heap, limited, on_err, put. intros H. destruct (globals e !! name) as [c|].
  - destruct (heap_get (heap e) c) as [[]|]; try done; injection H as <- _; auto.
  - destruct (checked_add _ _); simpl in H; [|injection H as <- _; auto]. destruct (charge _ _) as [[[|] ?]|]; [| |done]; [|injection H as <- _; auto].
    destruct (alloc _ _) as [[[|] ?]|]; [done| |done]. unfold mbind, M_bind, usub, expect in H. destruct (checked_sub _ _); [injection H as <- _; auto|done].
Qed.

Lemma register_druns e name operation arity : engine_inv e ->
  druns (register name operation arity) e (fun r e' => match r with
    | Ok _ => True
    | Err d => kind d = ResourceLimit \/ kind d = ArityError /\ exists m, max arity = Some m /\ (m < min arity)%nat end).
Proof.
  intros Hi. unfold register. apply (druns_bind _ _ _ (fun r e' => e' = e /\ match r with Ok _ => True | Err d => kind d = ArityError /\ exists m, max arity = Some m /\ (m < min arity)%nat end)).
  - destruct (max arity) as [m|]; [|by apply druns_ret]. case_bool_decide; [apply druns_fail; [done|]; eauto|by apply druns_ret].
  - intros [] ? _ _ [-> _]. apply druns_get. set (e1 := set_natives (natives e ++ [mkNative operation arity]) e).
    assert (later e e1) as L. { split; try done; [apply keeps_itself|]. unfold nof, e1. simpl. rewrite length_app. lia. }
    assert (engine_inv e1) as Hi1.
    { destruct Hi as [Ah B C D E F G K]; destruct Ah as [A A']. split; simpl; try done.
      - split; [done|]. intros hd o Ho. by eapply (later_object _ _ L), A'.
      - intros k v Hv. destruct (C k v Hv). split; [by apply (later_val _ _ L)|done].
      - eapply (keep_state (fun _ => True)); [apply (lt_keeps _ _ L)|apply L|done|done].
      - eapply Forall_impl; [exact F|]. intros f. apply (later_frame _ _ L). }
    apply (druns_bind _ _ _ (fun r e' => r = Ok tt /\ e' = e1)).
    + unfold druns, wp. simpl. split; [done|]. split; [by apply later_hosts|done].
    + intros [] ? _ _ [_ ->]. assert (vok e1 (VNative (length (natives e)))) as Hv by (unfold vok, nof, e1; simpl; rewrite length_app; simpl; lia).
      pose proof (define_runs (U := True) e1 name _ Hi1 Hv) as Hd. unfold druns, runs_ok, wp, as_api in *.
      destruct (define _ _ e1) as [[[u|k] e2]|] eqn:He; [| |done]; destruct Hd as (Hi2 & L2 & Hq); (split; [done|]); (split; [by apply later_hosts|]); [done|].
      destruct (define_err _ _ _ _ _ He) as [-> | -> ]; [by destruct Hq|by left].
    + by intros ? ? ? ? (? & _).
  - intros d ? _ _ [-> Hd]. by right.
Qed.

Lemma denotes_some ns id s : denotes ns id s -> exists n, ns !! id = Some n.
Proof. inversion 1; eauto. Qed.

Lemma start_druns e fuel f s : engine_inv e -> sexp_of f s -> (4 * ssize s < fuel)%nat ->
  druns (start fuel f) e (fun r e' => match r with
    | Ok _ => state e = MIdle /\ is_Some (compile [] true s)
    | Err d => e' = e /\ (kind d = Busy /\ state e <> MIdle \/ kind d = ResourceLimit \/ kind d = Syntax /\ compile [] true s = None) end).
Proof.
  intros Hi [Hd Hn] Hf. unfold start. apply druns_get. destruct (state e) eqn:Hst; try (apply druns_fail; [done|]; split; [done|left; split; done]).
  destruct (denotes_some _ _ _ Hd) as [n Hroot].
  assert (druns (sp ← form_span f; fail (diagnostic ResourceLimit sp) : M Engine Diagnostic unit) e (fun r e' => match r with
    | Ok _ => MIdle = MIdle /\ is_Some (compile [] true s)
    | Err d => e' = e /\ (kind d = Busy /\ MIdle <> MIdle \/ kind d = ResourceLimit \/ kind d = Syntax /\ compile [] true s = None) end)) as Hlim.
  { unfold druns, wp, form_span, mbind, M_bind, expect. rewrite Hroot. simpl. split; [done|]. split; [done|]. split; [done|]. auto. }
  destruct (_ <? _); [exact Hlim|]. destruct (_ <? _); [exact Hlim|]. clear Hlim.
  pose proof (lower_exact f s fuel (mkLowering [] [] [] []) Hd Hf) as Hl. unfold druns, wp, mbind, M_bind, expect, lift.
  destruct (lower fuel f (mkLowering [] [] [] [])) as [[[m|d] st']|] eqn:Hlow; [| |done]; simpl.
  - destruct Hl as (Hform & c & Hc & Henc). assert (code_ok m [] (m_root m)) as Hcode.
    { exists c. rewrite Hform. split; [done|]. by apply (compile_scoped (ssize s) s ltac:(lia) [] true). }
    destruct (code_expr _ _ _ Hcode) as [x Hx]. rewrite Hx. simpl. split; [|split; [by apply hosts_same|by rewrite Hc]].
    destruct Hi as [A B C D E F G K]. split; simpl; try done. exists []. split; [|done]. split; [|constructor]. split; simpl; [by rewrite Hform|].
    by eapply lower_literals.
  - destruct Hl as [Hk Hc]. split; [done|]. split; [done|]. split; [done|]. auto.
Qed.

Lemma answered_druns e id r : engine_inv e -> (forall x, r = Some x -> known e x) ->
  druns (answered id r) e (fun res e' => match res with
    | Ok _ => True
    | Err d => match kind d with
        | StaleCall => forall op args c issued, state e <> MWaiting id op args c issued
        | StaleValue => exists x, r = Some x /\ rv_roots x <> identity e
        | Host => r = None
        | _ => False
        end end).
Proof.
  intros Hi Hk. unfold answered. apply druns_get. pose proof (ei_state _ Hi) as Hs.
  destruct (state e) as [|?|?|?|?|pending op args c issued] eqn:Hst; try (apply druns_fail; [done|]; intros; discriminate).
  destruct (pending =? id) eqn:Hp; simpl; to_prop; [|apply druns_fail; [done|]; intros; congruence].
  destruct Hs as (Ha & sizes & Hc). destruct r as [x|].
  - eapply druns_bind; [apply value_druns; [done|by apply Hk]| |].
    + intros v ? _ _ (-> & -> & Hv & Hr). unfold druns, wp. simpl. split; [|split; [by apply hosts_same|done]]. destruct Hi as [A B C D E F G K]. split; simpl; try done.
      split; [done|by exists sizes].
    + intros d ? _ _ (-> & Hd & Hr). simpl. rewrite Hd. by exists x.
  - unfold druns, wp. simpl. split; [by apply cancel_inv|]. split; [by apply hosts_same|done].
Qed.

(** ** Sessions *)

(** What the host holds: roots of the registry, each under a key of its own. *)
Definition host_ok (e : Engine) (held : list RootValue) : Prop := Forall (fun r => pinned r e) held /\ NoDup (map rv_key held).

(** What an action may answer with, when it was given these roots. *)
Definition answer_ok (a : action) (e : Engine) (r : Prelude.result Diagnostic answer) : Prop :=
  match r with
  | Ok x => forall d, stepped x = Some (Failed d) -> evaluation_error (kind d)
  | Err d =>
      match kind d with
      | ResourceLimit => True
      | StaleValue => exists x, x ∈ given a /\ rv_roots x <> identity e
      | StaleCall => exists id x, a = HResume id x /\ forall op args c issued, state e <> MWaiting id op args c issued
      | Host => exists id, a = HResume id None
      | Busy => (exists fuel f, a = HStart fuel f) /\ state e <> MIdle
      | Syntax => exists fuel f s, a = HStart fuel f /\ sexp_of f s /\ compile [] true s = None
      | ArityError => exists name op ar m, a = HRegister name op ar /\ max ar = Some m /\ (m < min ar)%nat
      | _ => False
      end
  end.

Lemma refused_ok a e rs d : refused e rs d -> (forall r, r ∈ rs -> r ∈ given a) -> answer_ok a e (Err d).
Proof. intros [Hk|(Hk & x & Hx & Hr)] Hg; simpl; rewrite Hk; eauto. Qed.

Lemma host_extend e e' held new : engine_inv e -> host_ok e held -> hosts e e' -> all_fresh (next (roots e)) e' new -> host_ok e' (held ++ new).
Proof.
  intros Hi [Hp Hnd] Hh [Hf Hnd']. split.
  - apply Forall_app. split.
    + eapply Forall_impl; [exact Hp|]. intros r Hr. apply (known_hosts e e' r Hh); [by intros _|]. rewrite (hs_identity _ _ Hh). by destruct Hr.
    + eapply Forall_impl; [exact Hf|]. by intros r [].
  - rewrite map_app. apply NoDup_app. split_and!; [done| |done]. intros k (r & -> & Hr)%list_elem_of_fmap (x & Hk & Hx)%list_elem_of_fmap.
    pose proof (proj1 (Forall_forall _ _) Hp r Hr) as [Hpr _]. pose proof (ei_roots _ Hi _ _ Hpr) as [_ Hlt]. pose proof (proj1 (Forall_forall _ _) Hf x Hx) as [_ ?]. lia.
Qed.

(** A handle whose object is gone stays without one. *)
Definition handles_kept (e e' : Engine) : Prop :=
  (forall hd, dead (heap e) hd -> dead (heap e') hd) /\ (forall hd, live (heap e) hd -> live (heap e') hd \/ dead (heap e') hd).

Definition perform_ok (a : action) (e : Engine) (held : list RootValue) : Prop :=
  wp (perform a) e (fun r e' => engine_inv e' /\ host_ok e' (held_after a held r) /\ answer_ok a e r /\ handles_kept e e' /\ limits e' = limits e).

Definition drops (a : action) : bool := match a with HDrop _ | HResume _ (Some _) => true | _ => false end.

Lemma perform_druns a e held : engine_inv e -> host_ok e held -> drops a = false ->
  druns (perform a) e (fun r e' => answer_ok a e r /\ match r with Ok x => all_fresh (next (roots e)) e' (new_roots x) | Err _ => True end) -> perform_ok a e held.
Proof.
  intros Hi Hh Hd Hp. eapply wp_mono; [exact Hp|]. intros r e' (Hi' & Hhs & Ha & Hn). split; [done|]. split; [|split; [done|split; [split; apply Hhs|apply Hhs]]].
  replace (held_after a held r) with (held ++ match r with Ok x => new_roots x | Err _ => [] end) by (by destruct a as [| |id [|]| | | | | | | | | | | | | | | | | | | |]).
  apply (host_extend e); [done..|]. destruct r as [x|d]; [done|]. split; constructor.
Qed.

Lemma no_fresh k e : all_fresh k e [].
Proof. split; constructor. Qed.

Lemma one_fresh k e r : fresh k e r -> all_fresh k e [r].
Proof. intros Hf. split; [by constructor|]. apply NoDup_singleton. Qed.

Lemma no_root_druns {A} (m : M Engine Diagnostic A) a e Q : druns m e Q -> (forall d e', Q (Err d) e' -> answer_ok a e (Err d)) ->
  druns (no_root m) e (fun r e' => answer_ok a e r /\ match r with Ok x => all_fresh (next (roots e)) e' (new_roots x) | Err _ => True end).
Proof.
  intros Hm He. unfold no_root. eapply druns_bind; [exact Hm| |].
  - intros x e' Hi' _ _. apply druns_ret; [done|]. split; [done|]. apply no_fresh.
  - intros d e' _ _ Hq. split; [by eapply He|done].
Qed.

Lemma one_root_druns m a e Q : druns m e Q -> (forall d e', Q (Err d) e' -> answer_ok a e (Err d)) -> (forall r e', Q (Ok r) e' -> fresh (next (roots e)) e' r) ->
  druns (one_root m) e (fun r e' => answer_ok a e r /\ match r with Ok x => all_fresh (next (roots e)) e' (new_roots x) | Err _ => True end).
Proof.
  intros Hm He Hf. unfold one_root. eapply druns_bind; [exact Hm| |].
  - intros x e' Hi' _ Hq. apply druns_ret; [done|]. split; [done|]. by eapply one_fresh, Hf.
  - intros d e' _ _ Hq. split; [by eapply He|done].
Qed.

Lemma pin_one v a e : engine_inv e -> vok e v ->
  druns (one_root (pin v)) e (fun r e' => answer_ok a e r /\ match r with Ok x => all_fresh (next (roots e)) e' (new_roots x) | Err _ => True end).
Proof.
  intros Hi Hv. eapply one_root_druns; [by apply pin_druns| |].
  - by intros d e' (_ & ? & ? & _).
  - by intros r e' (_ & rv & [= ->] & _ & Hf & _).
Qed.

Lemma object_one o a e : engine_inv e -> first_class o -> (forall e', engine_inv e' -> hosts e e' -> object_ok (nof e') (heap e') o) ->
  druns (one_root (object_ o)) e (fun r e' => answer_ok a e r /\ match r with Ok x => all_fresh (next (roots e)) e' (new_roots x) | Err _ => True end).
Proof.
  intros Hi Hf Ho. eapply one_root_druns; [by apply object_druns| |done]. intros d e' Hk. simpl in Hk |- *. by rewrite Hk.
Qed.

Lemma step_roots_fresh k s e : step_answer k s e -> all_fresh k e (step_roots s).
Proof. destruct s; simpl; intros Hs; try apply no_fresh; [done|by apply one_fresh]. Qed.

Lemma known_given e held a r : host_ok e held -> Forall (fun r => r ∈ held \/ rv_roots r <> identity e) (given a) -> r ∈ given a -> known e r.
Proof.
  intros [Hp _] Hg Hr Hid. destruct (proj1 (Forall_forall _ _) Hg r Hr) as [Hin|Hne]; [|done]. by eapply (proj1 (Forall_forall _ _) Hp).
Qed.

Lemma filter_keys p (held : list RootValue) : NoDup (map rv_key held) -> NoDup (map rv_key (List.filter p held)).
Proof.
  induction held as [|r held IH]; simpl; [done|]. intros [Hr Hnd]%NoDup_cons. destruct (p r); [|by apply IH]. simpl. constructor; [|by apply IH].
  intros (x & Hx & Hin)%list_elem_of_fmap. apply Hr. rewrite Hx. apply list_elem_of_fmap_2. apply list_elem_of_In in Hin. apply List.filter_In in Hin as [Hin _]. by apply list_elem_of_In.
Qed.

Lemma without_ok e held r : engine_inv e -> host_ok e held ->
  wp (discard r) e (fun _ e' => engine_inv e' /\ host_ok e' (without r held) /\ heap e' = heap e /\ limits e' = limits e).
Proof.
  intros Hi [Hp Hnd]. assert (host_ok e (without r held)) as Hw.
  { split; [|by apply filter_keys]. apply Forall_forall. intros x [Hx _]%list_elem_of_In%List.filter_In. eapply (proj1 (Forall_forall _ _) Hp). by apply list_elem_of_In. }
  unfold discard, wp, mbind, M_bind, get. destruct (rv_roots r =? identity e) eqn:Hr; [|done]. simpl. to_prop. split_and!; [| |done..].
  - destruct Hi as [A B C D E F G K]. split; simpl; try done. intros k v [_ Hv]%lookup_delete_Some. by apply C.
  - destruct Hw as [Hw Hwn]. split; [|done]. apply Forall_forall. intros x Hx. destruct (proj1 (Forall_forall _ _) Hw x Hx) as [Hpx Hix]. split; [|done]. simpl.
    apply list_elem_of_In, List.filter_In in Hx as [_ Hne]. rewrite lookup_delete_ne; [done|]. intros Heq. rewrite Hix, Hr, Heq, !Z.eqb_refl in Hne. done.
Qed.

Lemma drop_ok e held r : engine_inv e -> host_ok e held -> r ∈ held -> perform_ok (HDrop r) e held.
Proof.
  intros Hi Hh Hr. pose proof (without_ok e held r Hi Hh) as Hw. destruct (proj1 (Forall_forall _ _) (proj1 Hh) r Hr) as [_ Hid].
  unfold discard, wp, mbind, M_bind, get in Hw. rewrite Hid, Z.eqb_refl in Hw. simpl in Hw. destruct Hw as (Hi' & Hh' & _). unfold perform_ok, wp. simpl.
  split; [done|]. split; [|split; [done|split; [split; [done|by left]|done]]]. unfold held_after. simpl. by rewrite app_nil_r.
Qed.

Lemma resume_ok e held id r : engine_inv e -> host_ok e held -> known e r -> perform_ok (HResume id (Some r)) e held.
Proof.
  intros Hi Hh Hk. pose proof (answered_druns e id (Some r) Hi ltac:(by intros ? [= <-])) as Ha. unfold perform_ok, wp, druns in *. simpl perform. unfold no_root, resume, finally, mbind, M_bind.
  unfold wp in Ha. destruct (answered id (Some r) e) as [[res e1]|]; [|done]. destruct Ha as (Hi1 & Hhs & Hd).
  assert (host_ok e1 held) as Hh1. { rewrite <- (app_nil_r held). apply (host_extend e); [done..|]. split; constructor. }
  pose proof (without_ok e1 held r Hi1 Hh1) as Hw. unfold wp in Hw. destruct (discard r e1) as [[x e2]|]; [|done]. destruct Hw as (Hi2 & Hh2 & Hhp & Hlim).
  assert (handles_kept e e2 /\ limits e2 = limits e) as [Hkp Hl2].
  { unfold handles_kept. rewrite Hhp, Hlim. split; [split; apply Hhs|apply Hhs]. }
  destruct res as [[]|d]; (split; [done|]); (split; [unfold held_after; simpl; by rewrite app_nil_r|]); (split; [|done]); [done|].
  simpl in Hd |- *. destruct (kind d); try done.
  - by exists id, (Some r).
  - destruct Hd as (y & [= <-] & Hy). exists r. split; [left|done].
Qed.

Lemma read_druns {B} (g : option Object -> B) e r : engine_inv e -> known e r ->
  druns (o ← object_read r; mret (g o)) e (fun res e' => match res with Ok _ => True | Err d => refused e [r] d end).
Proof.
  intros Hi Hk. eapply druns_bind; [by apply object_read_druns|intros o e' Hi' _ _; by apply druns_ret|by intros d e' _ _ [-> Hd]].
Qed.

(** Every action keeps the engine and the values of the host in order. *)
Lemma perform_safe e held a : engine_inv e -> host_ok e held -> allowed e held a -> perform_ok a e held.
Proof.
  intros Hi Hh [Hg Ha]. pose proof (known_given e held a) as Hk. assert (forall r, r ∈ given a -> known e r) as Hkn by (intros r; by apply Hk). clear Hk.
  assert (forall rs d, refused e rs d -> (forall r, r ∈ rs -> r ∈ given a) -> answer_ok a e (Err d)) as Href by (intros; by eapply refused_ok).
  destruct a as [fuel f|budget|id r| | | |n|b| |s|b|s|ra rb|vs|id knd|r|r|r|r|r|name op ar|r|r]; simpl in Ha, Hkn; try (by apply drop_ok); try (destruct r as [r|]; [apply resume_ok; [done|done|apply Hkn; left]|]); apply perform_druns; try done; simpl perform.
  - destruct Ha as (s & Hs & Hf). eapply no_root_druns; [by eapply start_druns|]. intros d e' (_ & Hd). simpl. destruct Hd as [[-> Hd]|[-> | [-> Hd]]]; [split; [eauto|done]|done|by exists fuel, f, s].
  - eapply druns_bind; [by apply step_druns| |by intros ? ? ? ? (? & ? & _)]. intros s e' Hi' _ (s' & [= <-] & Hs). apply druns_ret; [done|]. split; [|by apply step_roots_fresh].
    simpl. intros d [= ->]. done.
  - eapply no_root_druns; [by apply answered_druns|].
    intros d e' Hd. simpl in Hd |- *. destruct (kind d); try done.
    + by exists id.
    + by exists id, None.
    + by destruct Hd as (x & ? & Hx).
  - eapply (no_root_druns _ _ _ (fun r _ => r = Ok tt)); [|done]. unfold druns, wp. simpl. split; [by apply cancel_inv|]. split; [by apply hosts_same|done].
  - eapply no_root_druns; [by apply collect_druns|]. by intros d e' (? & _).
  - eapply (no_root_druns _ _ _ (fun r _ => is_ok r = true)); [|done]. unfold druns, wp. simpl. split; [destruct Hi; by split|]. split; [by apply hosts_same|done].
  - by apply pin_one.
  - by apply pin_one.
  - by apply pin_one.
  - by apply object_one.
  - by apply object_one.
  - by apply object_one.
  - eapply one_root_druns; [apply cons_druns; [done|apply Hkn; left|apply Hkn; right; left]| |done]. intros d e' Hd. exact (Href _ _ Hd (fun _ H => H)).
  - eapply one_root_druns; [apply list_druns; [done|by apply Forall_forall]| |done]. intros d e' Hd. exact (Href _ _ Hd (fun _ H => H)).
  - by apply object_one.
  - eapply no_root_druns; [apply read_druns; [done|apply Hkn; left]|]. intros d e' Hd. exact (Href _ _ Hd (fun _ H => H)).
  - eapply no_root_druns; [apply read_druns; [done|apply Hkn; left]|]. intros d e' Hd. exact (Href _ _ Hd (fun _ H => H)).
  - eapply no_root_druns; [apply read_druns; [done|apply Hkn; left]|]. intros d e' Hd. exact (Href _ _ Hd (fun _ H => H)).
  - eapply druns_bind; [apply pair_druns; [done|apply Hkn; left]| |].
    + intros p e' Hi' _ Hp. apply druns_ret; [done|]. split; [done|]. destruct p as [[x y]|]; [done|apply no_fresh].
    + intros d e' _ _ Hd. split; [exact (Href _ _ Hd (fun _ H => H))|done].
  - eapply no_root_druns; [apply kind_druns; [done|apply Hkn; left]|]. intros d e' [_ Hd]. exact (Href _ _ Hd (fun _ H => H)).
  - eapply no_root_druns; [by apply register_druns|]. intros d e' [Hd|(Hd & m & Hm & Hl)]; simpl; rewrite Hd; [done|]. by exists name, op, ar, m.
  - apply pin_one; [done|]. eapply pinned_vok; [done|]. by eapply (proj1 (Forall_forall _ _) (proj1 Hh)).
Qed.

(** ** New engines *)

Lemma empty_inv l identity : 0 <= l_heap l <= usize_MAX -> engine_inv (Engine_empty l identity).
Proof.
  intros Hl. split; simpl; try done; try (unfold len; simpl; lia).
  split; [by apply heap_new_ok|]. intros hd o Hget. unfold heap_get, Engine_empty, Heap_new in Hget. cbn [heap slots] in Hget. by rewrite lookup_nil in Hget.
Qed.

Lemma install_druns l : forall id e, engine_inv e -> (forall i b, l !! i = Some b -> BUILTINS !! (id + i)%nat = Some b) -> druns (install id l) e (fun _ _ => True).
Proof.
  induction l as [|b l IH]; intros id e Hi Hl; simpl; [by apply druns_ret|]. assert (vok e (Builtin id)) as Hv by (exists b; rewrite <- (Nat.add_0_r id); by apply (Hl 0%nat)).
  eapply druns_bind; [apply (as_api_runs True); by apply define_runs| |done]. intros [] e1 Hi1 H1 _. apply IH; [done|]. intros i c Hc. rewrite Nat.add_succ_comm. by apply Hl.
Qed.

Lemma new_inv l identity e0 : 0 <= l_heap l <= usize_MAX -> wp (Engine_new l identity) e0 (fun r e => engine_inv e /\ limits e = l).
Proof.
  intros Hl. unfold Engine_new. apply wp_bind. change (wp (install 0 BUILTINS) (Engine_empty l identity) (fun r e => engine_inv e /\ limits e = l)). eapply wp_mono; [apply (install_druns BUILTINS 0); [by apply empty_inv|done]|].
  intros r e (Hi & Hh & _). split; [done|]. by rewrite (hs_limits _ _ Hh).
Qed.

Lemma session_inv l identity e held : 0 <= l_heap l <= usize_MAX -> session l identity e held -> engine_inv e /\ host_ok e held /\ limits e = l.
Proof.
  intros Hl. induction 1 as [e0 e He|e held a r e' _ (Hi & Hh & Hlim) Ha Hr].
  - pose proof (new_inv l identity e0 Hl) as Hn. unfold wp in Hn. rewrite He in Hn. destruct Hn. split; [done|]. split; [split; constructor|done].
  - pose proof (perform_safe e held a Hi Hh Ha) as Hp. unfold perform_ok, wp in Hp. rewrite Hr in Hp. destruct Hp as (? & ? & _ & _ & ?). split_and!; [done|done|congruence].
Qed.

Lemma session_goes_on l identity e held e' held' : session l identity e held -> goes_on e held e' held' -> session l identity e' held'.
Proof. intros Hs. induction 1; [done|]. by eapply se_act. Qed.

Lemma goes_on_kept l identity e held e' held' : 0 <= l_heap l <= usize_MAX -> session l identity e held -> goes_on e held e' held' -> handles_kept e e'.
Proof.
  intros Hl Hs Hg. induction Hg as [|e1 held1 a r e2 Hg [IHd IHl] Ha Hr]; [split; [done|by left]|].
  destruct (session_inv l identity e1 held1 Hl) as (Hi & Hh & _); [by eapply session_goes_on|]. pose proof (perform_safe e1 held1 a Hi Hh Ha) as Hp. unfold perform_ok, wp in Hp. rewrite Hr in Hp.
  destruct Hp as (_ & _ & _ & [Hd Hlv] & _). split; [auto|]. intros hd H1. destruct (IHl hd H1); auto.
Qed.
End operations.
