(* ===== verification/LispTheorems.v ===== *)
(** * What holds of every session with a Lisp engine

    Types, bounds, garbage collection, handles and names: the theorems about
    an engine in the hands of any host, and a session to try them on. *)

From Stdlib Require Import String.
From S2P Require Import Wire.
From S2P Require Import Prelude LispSyntax LispRead LispLower LispCompile LispHeap LispHeapInv LispLibrary LispMachine LispTyping LispSafe LispMachineInv LispTransition LispSession LispHost.

Open Scope Z_scope.

(** ** A session to try them on *)

#[local] Existing Instance plain_memory.
#[local] Existing Instance plain_memory_laws.

Definition demo_limits : Limits := mkLimits 1000 100 100 100000.

Definition ran {E A} (m : M Engine E A) (e : Engine) : Engine := match m e with Some (_, e) => e | None => e end.

Definition demo_new : Engine := ran (Engine_new demo_limits 7) (Engine_empty demo_limits 7).
Definition demo_started : Engine := ran (perform (HStart 100 apply_form)) demo_new.
Definition demo_done : Engine := ran (perform (HStep 10)) demo_started.

Lemma apply_sexp_of : sexp_of apply_form apply_sexp.
Proof.
  split.
  - unfold apply_sexp. cbn beta zeta. repeat match goal with
    | |- denotes _ _ (SAtom _) => eapply de_atom; reflexivity
    | |- denotes _ _ (SList _ None) => eapply de_list; [reflexivity|]
    | |- denote_all _ _ (_ :: _) => constructor
    | |- denote_all _ _ [] => constructor
    end.
  - intros i n a Hn Ha. do 7 (destruct i as [|i]; [injection Hn as <-; first [discriminate Ha|injection Ha as <-; split; [reflexivity|apply Z.leb_le; reflexivity]]|]). by destruct i.
Qed.

Lemma demo_new_session : session demo_limits 7 demo_new [].
Proof. apply (se_new _ _ (Engine_empty demo_limits 7)). vm_compute. reflexivity. Qed.

Lemma demo_started_session : session demo_limits 7 demo_started [].
Proof.
  apply (se_act _ _ demo_new [] (HStart 100 apply_form) (Ok (mkAnswer [] None))); [apply demo_new_session| |vm_compute; reflexivity].
  split; [constructor|]. exists apply_sexp. split; [apply apply_sexp_of|vm_compute; lia].
Qed.

Definition demo_closure : RootValue := mkRootValue (VObject (mkHandle 24 0)) 7 0.

Lemma demo_done_session : session demo_limits 7 demo_done [demo_closure].
Proof.
  apply (se_act _ _ demo_started [] (HStep 10) (Ok (mkAnswer [demo_closure] (Some (Done demo_closure))))); [apply demo_started_session| |vm_compute; reflexivity].
  split; [constructor|exact I].
Qed.

(** ** Types *)

Section sessions.
Context `{Mem : Memory, !MemoryLaws Mem}.

(** C35: whatever a host has done with an engine, the next thing it does with it
    is answered (no index, no [expect] and no arithmetic of the engine panics);
    an error is one that the action may have (the failure of an evaluation is an
    unbound name, an argument count, a type, arithmetic or a limit: never a
    stale handle); and every value the host then holds is a root of the engine
    whose object, if it has one, is there and is not an environment or a cell. *)
Theorem session_safe l identity e held a : 0 <= l_heap l <= usize_MAX -> session l identity e held -> allowed e held a ->
  exists r e', perform a e = Some (r, e') /\ answer_ok a e r /\
    Forall (fun x => pinned x e' /\ val_ok (length (natives e')) (heap e') (rv_value x)) (held_after a held r) /\ NoDup (map rv_key (held_after a held r)).
Proof.
  intros Hl Hs Ha. destruct (session_inv l identity e held Hl Hs) as (Hi & Hh & _). pose proof (perform_safe e held a Hi Hh Ha) as Hp. unfold perform_ok, wp in Hp.
  destruct (perform a e) as [[r e']|]; [|done]. destruct Hp as (Hi' & [Hpin Hnd] & Hans & _). exists r, e'. split_and!; [done..| |done].
  eapply Forall_impl; [exact Hpin|]. intros x Hx. split; [done|by apply pinned_vok].
Qed.

(** ** Bounds *)

(** C36: at every point of a session the machine has no more frames than it
    allows, the peak it reports is an upper bound of them within the limit, what
    the heap counts as used is the weights of its objects and the charges for
    the names of globals, and that and its tables fit in the limit. *)
Theorem session_bounds l identity e held : 0 <= l_heap l <= usize_MAX -> session l identity e held ->
  len (frames e) <= peak_frames e <= Z.max 0 (l_frames l) /\
  used (heap e) = charges (globals e) + weights (slots (heap e)) /\
  0 <= used (heap e) /\ 0 <= metadata (heap e) /\ used (heap e) + metadata (heap e) <= l_heap l.
Proof.
  intros Hl Hs. destruct (session_inv l identity e held Hl Hs) as (Hi & _ & <-).
  destruct Hi as [[Hh _] Hlim _ _ _ _ Hd _]. pose proof (slots_weight _ _ Hh). destruct Hh. rewrite <- Hlim. split_and!; lia.
Qed.

(** ** Collection *)

(** C37: a collection at any point of a session keeps exactly what can be reached
    from the values of the host, the globals, the state and the frames of the
    evaluation: such an object stays as it is under its handle, the handle of
    any other object names nothing any more, and the foreign objects among those
    are reported to the host, and only those. *)
Theorem collection_exact l identity e held : 0 <= l_heap l <= usize_MAX -> session l identity e held ->
  exists rel h, engine_collect e = Some (Ok tt, set_released (released e ++ rel) (set_heap h e)) /\
    (forall hd, reachable (heap e) (collect_roots e) hd -> heap_get h hd = heap_get (heap e) hd) /\
    (forall hd o, heap_get h hd = Some o -> reachable (heap e) (collect_roots e) hd /\ heap_get (heap e) hd = Some o) /\
    (forall id, id ∈ rel <-> exists hd kind, heap_get (heap e) hd = Some (OForeign id kind) /\ ~ reachable (heap e) (collect_roots e) hd).
Proof.
  intros Hl Hs. destruct (session_inv l identity e held Hl Hs) as (Hi & _). destruct (engine_collect_inv e Hi) as (h & rel & Hc & _ & Hkeep & Hback & _ & _ & Hrel).
  by exists rel, h.
Qed.

(** A handle that named an object and no longer does never names one again,
    however the session goes on: slots are used again, handles are not. *)
Theorem handles_once l identity e held e1 held1 e2 held2 hd : 0 <= l_heap l <= usize_MAX -> session l identity e held ->
  goes_on e held e1 held1 -> goes_on e1 held1 e2 held2 ->
  heap_get (heap e) hd <> None -> heap_get (heap e1) hd = None -> heap_get (heap e2) hd = None.
Proof.
  intros Hl Hs H1 H2 Hd Hd1. pose proof (session_goes_on _ _ _ _ _ _ Hs H1) as Hs1.
  destruct (goes_on_kept _ _ _ _ _ _ Hl Hs H1) as [_ Hk]. destruct (goes_on_kept _ _ _ _ _ _ Hl Hs1 H2) as [Hk2 _].
  assert (live (heap e) hd) as Hlive by (unfold live; destruct (heap_get (heap e) hd); eauto; done).
  destruct (Hk hd Hlive) as [[o Ho]|Hdead]; [congruence|]. by apply dead_get, Hk2.
Qed.

(** ** Names *)

Lemma missing_unbound e : missing e (state e) -> exists e', transition e = Some (Err Unbound, e').
Proof.
  intros (name & Hn & Hm). unfold transition, mbind, M_bind, get, put. destruct (state e) as [|id c|v c|?|?|?] eqn:Hst; try done.
  - destruct Hm as [sp Hx]. unfold eval_step, expr_at, mbind, M_bind, expect. rewrite Hx. simpl. unfold cell, mbind, M_bind, get, lift. simpl. rewrite Hn. eauto.
  - destruct Hm as (c' & fs & Hfs). unfold return_step, pop_frame, mbind, M_bind, get, put. simpl. rewrite Hfs. simpl. unfold cell, mbind, M_bind, get, lift. simpl. rewrite Hn. eauto.
Qed.

(** One transition of an evaluation fails because of an unbound name exactly
    when it refers or assigns to a global that is not defined: a name that the
    compiler resolved to a parameter or a local definition is always found. *)
Theorem unbound_exact l identity e held sp : 0 <= l_heap l <= usize_MAX -> session l identity e held -> state_span (state e) = Some sp ->
  exists r e', attempt e = Some (Ok r, e') /\ ((exists d, r = Err d /\ kind d = Unbound) <-> missing e (state e)).
Proof.
  intros Hl Hs Hsp. destruct (session_inv l identity e held Hl Hs) as (Hi & _). pose proof (attempt_druns e sp Hi Hsp) as Ha. unfold druns, wp in Ha.
  destruct (attempt e) as [[r e']|] eqn:Hatt; [|done]. destruct Ha as (_ & _ & x & -> & Hx). exists x, e'. split; [done|]. split.
  - intros (d & -> & Hk). by apply Hx.
  - intros Hm. pose proof (missing_unbound e Hm) as (e2 & Ht). unfold attempt in Hatt. rewrite Hsp, Ht in Hatt. injection Hatt as <- _. eauto.
Qed.
End sessions.

(** ** The session above *)

Lemma demo_heap : 0 <= l_heap demo_limits <= usize_MAX.
Proof. split; apply Z.leb_le; reflexivity. Qed.

Lemma session_safe_witness : exists r e', perform (HStep 10) demo_started = Some (r, e') /\
  Forall (fun x => pinned x e' /\ val_ok (length (natives e')) (heap e') (rv_value x)) (held_after (HStep 10) [] r).
Proof.
  destruct (session_safe demo_limits 7 demo_started [] (HStep 10) demo_heap demo_started_session) as (r & e' & Hr & _ & Hv & _); [split; [constructor|exact I]|].
  exists r, e'. split; [exact Hr|exact Hv].
Defined.

Lemma session_bounds_witness : used (heap demo_done) = charges (globals demo_done) + weights (slots (heap demo_done)) /\ 0 < used (heap demo_done).
Proof.
  destruct (session_bounds demo_limits 7 demo_done [demo_closure] demo_heap demo_done_session) as (_ & Hu & _). split; [exact Hu|]. apply Z.ltb_lt. vm_compute. reflexivity.
Defined.

Definition demo_dropped : Engine := ran (perform (HDrop demo_closure)) demo_done.

Lemma demo_dropped_session : session demo_limits 7 demo_dropped [].
Proof.
  apply (se_act _ _ demo_done [demo_closure] (HDrop demo_closure) (Ok (mkAnswer [] None))); [apply demo_done_session| |vm_compute; reflexivity].
  split; [constructor|left].
Qed.

Lemma collection_exact_witness : exists rel h, engine_collect demo_dropped = Some (Ok tt, set_released (released demo_dropped ++ rel) (set_heap h demo_dropped)) /\
  (forall hd, reachable (heap demo_dropped) (collect_roots demo_dropped) hd -> heap_get h hd = heap_get (heap demo_dropped) hd).
Proof.
  destruct (collection_exact demo_limits 7 demo_dropped [] demo_heap demo_dropped_session) as (rel & h & Hc & Hk & _). exists rel, h. split; [exact Hc|exact Hk].
Defined.

(** The closure is dropped, its slot is used again, its handle is not. *)
Definition demo_collected : Engine := ran (perform HCollect) demo_dropped.
Definition demo_reused : Engine := ran (perform (HBytes [1])) demo_collected.

Lemma handles_once_witness : heap_get (heap demo_reused) (mkHandle 24 0) = None /\ is_Some (slots (heap demo_reused) !! 24%nat ≫= object).
Proof.
  split; [|eexists; vm_compute; reflexivity].
  apply (handles_once demo_limits 7 demo_dropped [] demo_collected [] demo_reused [mkRootValue (VObject (mkHandle 24 1)) 7 1]); [apply demo_heap|apply demo_dropped_session| | |vm_compute; discriminate|vm_compute; reflexivity].
  - apply (go_on_act _ _ demo_dropped [] HCollect (Ok (mkAnswer [] None))); [constructor| |vm_compute; reflexivity]. split; [constructor|exact I].
  - apply (go_on_act _ _ demo_collected [] (HBytes [1]) (Ok (mkAnswer [mkRootValue (VObject (mkHandle 24 1)) 7 1] None))); [constructor| |vm_compute; reflexivity].
    split; [constructor|]. split; [apply Forall_singleton; split; [apply Z.leb_le|apply Z.ltb_lt]; reflexivity|apply Z.leb_le; reflexivity].
Defined.

(** A program that is one undefined name. *)
Definition name_form : Form := mkForm [] [mkNode (DAtom (ASymbol (text_of "y"))) (mkSpan 0 1)] 0 1.
Definition demo_name : Engine := ran (perform (HStart 100 name_form)) demo_new.

Lemma demo_name_session : session demo_limits 7 demo_name [].
Proof.
  apply (se_act _ _ demo_new [] (HStart 100 name_form) (Ok (mkAnswer [] None))); [apply demo_new_session| |vm_compute; reflexivity].
  split; [constructor|]. exists (SAtom (ASymbol (text_of "y"))). split; [split; [eapply de_atom; reflexivity|]|vm_compute; lia].
  intros [|i] n a Hn Ha; [|done]. injection Hn as <-. injection Ha as <-. split; [reflexivity|apply Z.leb_le; reflexivity].
Qed.

Lemma unbound_exact_witness : exists r e', attempt demo_name = Some (Ok r, e') /\ exists d, r = Err d /\ kind d = Unbound.
Proof.
  destruct (unbound_exact demo_limits 7 demo_name [] (mkSpan 0 1) demo_heap demo_name_session) as (r & e' & Hr & Hu); [vm_compute; reflexivity|].
  exists r, e'. split; [exact Hr|]. apply Hu. exists (text_of "y"). split; [vm_compute; reflexivity|]. vm_compute. eexists. reflexivity.
Defined.
